(* ===== verification/_CoqProject ===== *)
-Q . S2P
Prelude.v
Vector.v
VectorFacts.v
VectorSpec.v
VectorIter.v
VectorTheorems.v
Slice.v
SliceTheorems.v
Environment.v
EnvironmentTheorems.v
UnifTypes.v
UnifTable.v
SlotFacts.v
Unify.v
UnifRel.v
UnifTableFacts.v
UnifySound.v
UnifyClosed.v
Subtyping.v
UnifyTheorems.v
SubtypingTheorems.v
TaskQueue.v
TaskQueueTheorems.v
IndexMap.v
Values.v
Records.v
Make.v
Ast.v
AstInd.v
Pattern.v
TypeContracts.v
TypeContractsTheorems.v
FreeVars.v
LazyCache.v
LazyCacheTheorems.v
ContractEq.v
ContractEqTheorems.v
Closurize.v
FreeVarsTheorems.v
Merge.v
MergeTheorems.v
MergeProperties.v
Lowering.v
Raise.v
LoweringFacts.v
LoweringTheorems.v
RaiseTheorems.v
EvalStack.v
EvalStackTheorems.v
VM.v
Op1.v
Subst.v
Op2.v
EvalOps.v
Machine.v
VirtualMachine.v
MachineInvariant.v
MachineTyping.v
MachineTheorems.v
TcTypes.v
TcPattern.v
TcOperation.v
TcRecord.v
Typecheck.v
TcRules.v
TcFacts.v
TcPatternFacts.v
TcSoundRecord.v
TcSoundTerm.v
TypecheckTheorems.v
TcEq.v
TcEqTheorems.v
Uniterm.v
UnitermTheorems.v
ParserUtils.v
ParserUtilsTheorems.v
Lexer.v
LexerTheorems.v
PrettyStrings.v
PrettyStringsTheorems.v
