(* ===== verification/Prelude.v ===== *)
(** * A verification development for the Nickel configuration language

    Nickel is a lazy, gradually typed configuration language implemented in Rust
    (the crates [core], [parser], [vector], [lsp/nls], [cli] ... of the
    repository). This library models the parts of the implementation that carry
    its own algorithms, as executable definitions that follow the source function
    by function, and proves what makes them correct. From here on a path is
    relative to the directory [src/].

    ** Parts, and the files that model them

    - Persistent collections. [Vector.v]: the bitmapped vector trie of
      [vector/src/vector.rs]; [VectorIter.v]: its iterators; [VectorFacts.v] and
      [VectorSpec.v]: its invariant and the refinement of lists, method by method;
      [VectorTheorems.v]: the properties. [Slice.v], [SliceTheorems.v]: the windows
      of [vector/src/slice.rs], written against the class [VectorOps] and proved
      against [VectorContract], that the vector discharges. Arrays of the language
      are slices.
    - Environments. [Environment.v], [EnvironmentTheorems.v]: the layered hash maps of
      [core/src/environment.rs],
      with the sharing of layers modelled by a store and handles.
    - Typechecking. [UnifTypes.v]: the type functors of [parser/src/typ.rs] and the
      unification types of [core/src/typecheck/mod.rs]; [UnifTable.v]: the
      unification table of [core/src/typecheck/unif.rs]; [Unify.v]: row
      constraints, [remove_row] and [unify]; [Subtyping.v]: [subsumed_by] of
      [core/src/typecheck/subtyping.rs]. [SlotFacts.v], [UnifRel.v],
      [UnifTableFacts.v], [UnifySound.v], [UnifyClosed.v] carry the proofs,
      [UnifyTheorems.v], [SubtypingTheorems.v] the properties, and concrete runs of
      what unification lets through.
    - The walk of the typechecker over terms. [TcTypes.v]: contexts, the conversion
      of types, apparent types and the initial context
      ([core/src/typecheck/mod.rs], [mk_uniftype.rs]); [TcPattern.v]: patterns
      ([pattern.rs]); [TcOperation.v]: the types of operators ([operation.rs]);
      [TcRecord.v]: the resolution of record literals ([record.rs]);
      [Typecheck.v]: [walk], [check] and [infer], the knot they tie, and the entry
      points. [TcRules.v] is the specification, typing rules that mention no
      unification variable to allocate and no state; [TcFacts.v],
      [TcPatternFacts.v], [TcSoundRecord.v], [TcSoundTerm.v] prove that each
      operation implements its rule, [TypecheckTheorems.v] has the properties.
      [TcEq.v], [TcEqTheorems.v]: the equality of the contracts inside types
      ([eq.rs]), which unification takes as an argument.
    - Parsing ([parser/src/]). [Lexer.v], [LexerTheorems.v]: the modal lexer
      ([lexer.rs]), over the class [Logos] of what logos matches; [Uniterm.v], [UnitermTheorems.v]: the common syntax of
      terms and types, and the fixing of type variables ([uniterm.rs]);
      [ParserUtils.v], [ParserUtilsTheorems.v]: the indentation of multi-line strings,
      operators as functions and let blocks ([utils.rs]); [PrettyStrings.v],
      [PrettyStringsTheorems.v]: how strings and identifiers are printed
      ([ast/pretty.rs]).
    - Values. [Values.v]: the data of the evaluator ([core/src/eval/value/mod.rs],
      [core/src/term/]); [IndexMap.v]: index maps; [Records.v]: the operations on
      records, metadata, labels and values.
    - From the syntax tree to terms. [Ast.v]: the syntax tree of [parser/src/ast/];
      [Make.v]: the builders of terms and fresh identifiers
      ([core/src/term/mod.rs], module [make]); [Pattern.v]: the compilation of
      patterns ([core/src/term/pattern/compile.rs]); [TypeContracts.v]: the contract
      of a type, the simplification of static annotations ([core/src/typ.rs]) and
      the pending contracts of fields
      ([core/src/transform/gen_pending_contracts.rs]); [FreeVars.v]: the dependencies
      of recursive fields ([core/src/transform/free_vars.rs]). [AstInd.v] has the
      induction principles of values and of the syntax tree, [TypeContractsTheorems.v]
      and [FreeVarsTheorems.v] have the proofs.
    - Lowering ([core/src/ast/compat.rs]). [Lowering.v]: the conversion of the
      syntax tree to terms, with the elaboration of field paths and the merge of the
      pieces of a field; [Raise.v]: the conversion of terms back to the syntax tree.
      [LoweringFacts.v], [LoweringTheorems.v] and [RaiseTheorems.v] have the proofs.
    - Call by need. [LazyCache.v]: thunks, revertible thunks, the build of cached
      values ([core/src/eval/cache/lazy.rs]); [Closurize.v]: closures and the
      recursive environment of records ([core/src/closurize.rs],
      [core/src/eval/fixpoint.rs]); [LazyCacheTheorems.v]: the properties.
    - Merging. [ContractEq.v], [ContractEqTheorems.v]: the deduplication of
      contracts ([core/src/eval/contract_eq.rs]); [Merge.v], [MergeTheorems.v],
      [MergeProperties.v]: [core/src/eval/merge.rs].
    - The abstract machine. [EvalStack.v], [EvalStackTheorems.v]: the stack of
      bytes of [core/src/eval/stack.rs], and that it is a stack of items; [VM.v]:
      the state and the effects of [VirtualMachine]; [Op1.v], [Op2.v],
      [EvalOps.v]: the primitive operations of
      [core/src/eval/operation.rs]; [Subst.v]: [subst]; [Machine.v]: the loop of
      [core/src/eval/mod.rs], one turn of which is [step]; [VirtualMachine.v]: the
      entry points. [MachineInvariant.v], [MachineTyping.v] carry the invariants through every
      operation; [MachineTheorems.v] has the properties.
    - The language server. [TaskQueue.v], [TaskQueueTheorems.v]: the queue of
      [lsp/nls/src/task_queue.rs], and the loop that serves it.

    ** How they interact

    The machine ([Machine.step]) enters thunks of the heap of [LazyCache.v], pushes
    update frames and continuations on the stack, and dispatches to the primitive
    operations; these call [Merge.merge], [Closurize.closurize] and the record
    operations. It also generates the contracts of annotations and of dynamic fields
    ([TypeContracts]), whose enum contracts are compiled matches ([Pattern]).
    [Merge] asks [ContractEq] whether two contracts are equal, and calls
    back into the cache to build the thunks of merged fields. [Subtyping] is
    [Unify] with a different treatment of a few constructors; both thread the
    unification table. [Typecheck] calls both, after it has turned the types of the
    syntax tree into unification types. The classes [VectorOps], [IndexMapOps], [ChunkOps],
    [HashOrder], [Layout], [Logos] and [Externals] are the interfaces on which a client is proved without
    its provider.

    ** Conventions

    A panic ([unwrap], [unreachable!], an assertion, debug assertions included) is
    a value of the model, so that its absence is a theorem. [outcome] (below) adds
    running out of fuel to it, [result] is Rust's [Result]. Machine integers that
    only count are natural numbers, with the subtractions checked; where the width
    matters it is written out ([VectorTheorems.capacity_bound]). [Rc] is
    transparent except where the code observes sharing: layers of environments
    and thunks live in stores. Source positions, the call stack and warnings,
    which serve error messages only, are left out.

    ** Fuel

    Fuel is only given where the recursion of the code is not structural, and its
    sufficiency is a theorem wherever the code terminates. The chain of a
    unification variable: the size of the table ([SlotFacts.root_total]).
    [unify] and [subsumed_by]: a parameter, above the sizes of the types for
    closed ones ([UnifyTheorems.unify_closed_terminates]); on cyclic tables they do
    diverge ([UnifyTheorems.v]), and so may the walk, whose theorems are about the
    runs that return. Contract equality: [fuel_for], from the gas of
    the code ([ContractEqTheorems.contract_eq_terminates]); [type_eq_fuel] for the
    contracts inside types ([TcEqTheorems.type_eq_decides]). The loops of the stack:
    its length in bytes. The drain of the task queue: the number of pending tasks
    ([TaskQueueTheorems.drain_terminates]). Filling a vector: the number of items.
    The evaluation of a program and [subst] may diverge, and their theorems are
    about every number of turns, or about runs that end, with
    [MachineTheorems.evaluation_completes] for the former.

    ** What the theorems show

    - Refinement: vectors and slices are lists, environments are finite maps that
      do not interfere, the byte stack is a stack of items, the task queue delivers
      in order; whatever the sequence of operations.
    - Unification: soundness, no panic, the preserved invariant and the state after
      an error, termination and reflexivity on closed types; subsumption is sound
      and complete for the declarative relation [ty_sub].
    - Typechecking: an accepted program has a derivation in the typing rules, with the
      assignments of the final table; what is checked keeps the kind of its type.
    - Parsing: the lexer tracks the open delimiters, ends, and returns ordered spans;
      the fixing of type variables computes its stateless meaning, the two
      readings of a record agree, and record types, typed fields without a value and
      let blocks are accepted exactly when they should be; the indentation of a string
      is stripped line by line, and stripping never panics. What is printed between
      quotes is read back, and a multi-line string is exactly when it has a margin.
    - Call by need: a thunk is evaluated once, a reverted thunk is independent, the
      two constructions of a recursive record agree, infinite recursion is
      reported exactly when a thunk is entered during its own evaluation.
    - Contracts of types: generation succeeds exactly on closed types, the simplified
      contract of a static annotation always exists and, at first order, checks the
      arguments in full and nothing else.
    - Merging: the result of merging fields and records for all priorities and
      metadata, and what it refuses; contract equality terminates.
    - The machine: the update frames are the thunks under evaluation, the stack is
      well formed, an evaluation that ends leaves an empty stack and no thunk under
      evaluation, with an error too once it is reset; evaluation that goes on after
      errors is sound to continue.
    - Each behaviour of the code that departs from its documentation or from its
      intent, and that the model can exhibit, is a theorem or an example beside the
      definitions it is about.

    ** What is not modelled

    Third-party crates: index maps, chunks, numbers, floats, regular expressions,
    hashes and serialization formats are classes or parameters with their
    documented behaviour. Within the program: the operations on strings of
    [core/src/term/string.rs] are fields of [Externals]; contract equality
    takes the physical equality of [Rc]s as a parameter; names of type variables
    for error messages; the embedded Nix evaluator (a feature that is off); the
    tagged-pointer representation of values; the visitor of the typechecker and the
    errors it reports to users; the generated grammar and the pretty printer, its
    strings aside;
    program loading, the package manager, the command line, the REPL and the
    bindings. The list of components says so for each. *)
From stdpp Require Export base tactics numbers list gmap strings fin_maps.

(** ** The effects of the modelled code *)

(** Rust code that may panic returns [option]: [None] is the panic
    ([unwrap] on [None], [expect], [unreachable!], a failed [assert!] or
    [debug_assert!], an index out of bounds, an arithmetic underflow in a
    checked build). *)
Declare Scope nickel_scope.
Delimit Scope nickel_scope with nickel.

Open Scope nickel_scope.

#[export] Set Warnings "-register-all".

(** Rust's [Result]. *)
Inductive result (A E : Type) : Type :=
| Ok (a : A)
| Err (e : E).
Arguments Ok {A E} a.
Arguments Err {A E} e.

Definition result_bind {A B E} (r : result A E) (f : A → result B E) : result B E :=
  match r with Ok a => f a | Err e => Err e end.

Notation "'let?' x ':=' m 'in' k" := (result_bind m (fun x => k))
  (at level 10, x pattern, m at level 100, k at level 200) : nickel_scope.

(** Code whose recursion is not structural takes fuel: the result of such code
    is a value, a panic, or a request for more fuel. *)
Inductive outcome (A : Type) : Type :=
| Done (a : A)
| Panic
| OutOfFuel.
Arguments Done {A} a.
Arguments Panic {A}.
Arguments OutOfFuel {A}.

#[export] Instance outcome_ret : MRet outcome := @Done.
#[export] Instance outcome_bind : MBind outcome := λ A B f m,
  match m with Done a => f a | Panic => Panic | OutOfFuel => OutOfFuel end.

(** [unwrap], indexing: a panic on [None]. *)
Definition unwrap {A} (o : option A) : outcome A :=
  match o with Some a => Done a | None => Panic end.

(** [debug_assert!]. *)
Definition assert (b : bool) : outcome unit := if b then Done () else Panic.

(** What holds of the value of an outcome that is not a panic. *)
Definition safe {A} (o : outcome A) (P : A → Prop) : Prop :=
  match o with Done a => P a | Panic => False | OutOfFuel => True end.

Lemma safe_bind {A B} (m : outcome A) (f : A → outcome B) (P : A → Prop) (Q : B → Prop) :
  safe m P → (∀ a, P a → safe (f a) Q) → safe (m ≫= f) Q.
Proof. destruct m; simpl; auto. Qed.

Lemma bind_Done {A B} (m : outcome A) (f : A → outcome B) b :
  m ≫= f = Done b → ∃ a, m = Done a ∧ f a = Done b.
Proof. destruct m; simpl; naive_solver. Qed.

Lemma safe_mono {A} (o : outcome A) (P Q : A → Prop) :
  safe o P → (∀ a, P a → Q a) → safe o Q.
Proof. destruct o; simpl; auto. Qed.

Lemma safe_unwrap {A} (o : option A) (P : A → Prop) a :
  o = Some a → P a → safe (unwrap o) P.
Proof. by intros -> ?. Qed.

(** More fuel never changes a result: [le_outcome m m'] when [m'] is [m] or
    [m] wanted more fuel. *)
Definition le_outcome {A} (m m' : outcome A) : Prop := m = OutOfFuel ∨ m = m'.

Lemma le_outcome_refl {A} (m : outcome A) : le_outcome m m.
Proof. by right. Qed.

Lemma le_outcome_bind {A B} (m m' : outcome A) (f f' : A → outcome B) :
  le_outcome m m' → (∀ a, le_outcome (f a) (f' a)) → le_outcome (m ≫= f) (m' ≫= f').
Proof. intros [->| ->] Hf; [by left|]. destruct m'; simpl; auto using le_outcome_refl. Qed.

(** [usize] on the 64-bit targets the program is built for. *)
Definition usize_max : N := (2 ^ 64 - 1)%N.

(** ** Generic lemmas *)

Create HintDb nickel.

Section lists.
Context {A : Type}.
Implicit Types (l k : list A) (ll : list (list A)).

(** A concatenation of blocks of the same size is indexed by division and
    remainder. *)
Lemma lookup_concat_uniform s ll (i : nat) :
  s ≠ 0 → Forall (λ l, length l = s) ll →
  concat ll !! i = ll !! (i / s) ≫= λ l, l !! (i mod s).
Proof.
  intros Hs. revert i. induction ll as [|l ll IH]; intros i Hall; [done|].
  apply Forall_cons in Hall as [Hl Hall]. simpl.
  destruct (decide (i < s)) as [Hi|Hi].
  - rewrite lookup_app_l by lia. rewrite Nat.div_small, Nat.mod_small by done. done.
  - rewrite lookup_app_r by lia. rewrite Hl, IH by done.
    set (j := i - s). replace i with (j + 1 * s) by (unfold j; lia).
    rewrite Nat.div_add, Nat.Div0.mod_add by lia.
    by rewrite Nat.add_1_r.
Qed.

Lemma length_concat_uniform s ll :
  Forall (λ l, length l = s) ll → length (concat ll) = length ll * s.
Proof. induction 1; simpl; rewrite ?length_app; lia. Qed.

(** Blocks of size [s] followed by a last block of at most that size. *)
Section blocks.
Context (s : nat) (Hs : s ≠ 0).
Implicit Types (q r : nat).

Lemma lookup_blocks ll l q r :
  Forall (λ k, length k = s) ll → length l ≤ s → r < s →
  concat (ll ++ [l]) !! (s * q + r) = (ll ++ [l]) !! q ≫= λ k, k !! r.
Proof.
  intros Hll Hl Hr. rewrite concat_app. simpl. rewrite app_nil_r.
  pose proof (length_concat_uniform s ll Hll) as Hlen.
  destruct (decide (q < length ll)) as [Hq|Hq].
  - rewrite lookup_app_l by nia. rewrite lookup_app_l by done.
    rewrite (lookup_concat_uniform s) by done.
    rewrite (Nat.mul_comm s q), Nat.div_add_l, Nat.div_small by done.
    rewrite (Nat.add_comm (q * s)), Nat.Div0.mod_add, Nat.mod_small by done.
    by rewrite Nat.add_0_r.
  - rewrite lookup_app_r by nia. rewrite (lookup_app_r ll) by lia.
    rewrite Hlen. destruct (q - length ll) as [|d] eqn:Hd; simpl.
    + f_equal. nia.
    + apply lookup_ge_None. nia.
Qed.

Lemma concat_insert_blocks ll l q k k' :
  (ll ++ [l]) !! q = Some k →
  concat (<[q := k']> (ll ++ [l]))
  = concat (take q (ll ++ [l])) ++ k' ++ concat (drop (S q) (ll ++ [l])).
Proof.
  intros Hq. rewrite insert_take_drop by by eapply lookup_lt_Some.
  by rewrite concat_app.
Qed.

Lemma concat_split_at ll q k :
  ll !! q = Some k →
  concat ll = concat (take q ll) ++ k ++ concat (drop (S q) ll).
Proof.
  intros Hq. rewrite <- (take_drop_middle ll q k Hq) at 1.
  by rewrite concat_app.
Qed.

Lemma length_concat_take_blocks ll l q :
  Forall (λ k, length k = s) ll → q ≤ length ll →
  length (concat (take q (ll ++ [l]))) = s * q.
Proof.
  intros Hll Hq. rewrite take_app_le by done.
  rewrite (length_concat_uniform s) by by apply Forall_take.
  rewrite length_take. nia.
Qed.

End blocks.

Lemma insert_app_exact l k x y :
  <[length l := x]> (l ++ y :: k) = l ++ x :: k.
Proof. rewrite insert_app_r_alt by lia. by rewrite Nat.sub_diag. Qed.

End lists.

(** [concat] and [map] through the last element. *)
Lemma concat_map_snoc {A B} (f : A → list B) l x :
  concat (map f (l ++ [x])) = concat (map f l) ++ f x.
Proof. rewrite map_app, concat_app. simpl. by rewrite app_nil_r. Qed.

Lemma non_nil_length {A} (l : list A) : l ≠ [] ↔ 0 < length l.
Proof. destruct l; simpl; split; try done; lia. Qed.

Lemma take_all_but_last {A} (l : list A) x : take (length (l ++ [x]) - 1) (l ++ [x]) = l.
Proof.
  rewrite length_app. simpl. replace (length l + 1 - 1) with (length l) by lia.
  apply take_app_length.
Qed.

Lemma insert_snoc {A} q (l : list A) x y :
  length l = q → <[q := y]> (l ++ [x]) = l ++ [y].
Proof. intros <-. apply insert_app_exact. Qed.

(** Powers of the same base: the facts used for capacities. *)
Lemma pow_succ_mul n h : n ^ S h = n * n ^ h.
Proof. done. Qed.

Lemma pow_pos n h : n ≠ 0 → 0 < n ^ h.
Proof. intros. pose proof (Nat.pow_nonzero n h). lia. Qed.

(** Turns boolean tests of the code into propositions. *)
Ltac breflect :=
  repeat match goal with
  | H : (_ && _) = true |- _ => apply andb_prop in H as [? ?]
  | H : (_ <=? _) = true |- _ => apply Nat.leb_le in H
  | H : (_ <=? _) = false |- _ => apply Nat.leb_gt in H
  | H : (_ <? _) = true |- _ => apply Nat.ltb_lt in H
  | H : (_ <? _) = false |- _ => apply Nat.ltb_ge in H
  | H : (_ =? _) = true |- _ => apply Nat.eqb_eq in H
  | H : (_ =? _) = false |- _ => apply Nat.eqb_neq in H
  end.
