(* ===== verification/Vector.v ===== *)
(** * The persistent vector of [vector/src/vector.rs]

    [Vector T N] is a bitmapped vector trie: a tree with branching factor [N]
    (a power of two), packed to the left, with its length and height cached.
    [Rc] sharing is not observable ([Rc::make_mut] and [Rc::unwrap_or_clone]
    copy on write), so a node is a plain tree and a mutating method returns
    the new value. The third-party [imbl_sized_chunks::Chunk] is a parameter:
    a chunk is seen through its [Deref] to a slice, as the list of its
    elements, and its mutators are the fields of [ChunkOps], with their
    documented behaviour in [ChunkLaws].

    Indices ([usize]) and heights ([u8]) are natural numbers; a subtraction
    that would underflow is a panic, and [capacity_bound] shows the largest number the
    code computes. [to_list] is the abstraction function, [vec_ok] the
    invariant, and each method is shown to refine the operation on lists. *)
From S2P Require Import Prelude.

(** ** Parameters *)

(** The seven branching factors the crate allows. *)
Inductive ValidBranchingConstant : nat → Prop :=
| Const2 : ValidBranchingConstant 2
| Const4 : ValidBranchingConstant 4
| Const8 : ValidBranchingConstant 8
| Const16 : ValidBranchingConstant 16
| Const32 : ValidBranchingConstant 32
| Const64 : ValidBranchingConstant 64
| Const128 : ValidBranchingConstant 128.
Existing Class ValidBranchingConstant.
#[export] Existing Instances Const2 Const4 Const8 Const16 Const32 Const64 Const128.

(** The operations of [Chunk<A, N>]; [None] is a panic. *)
Class ChunkOps (N : nat) := {
  chunk_push_back : ∀ {A : Type}, list A → A → option (list A);
  chunk_pop_back : ∀ {A : Type}, list A → option (A * list A);
  chunk_set : ∀ {A : Type}, list A → nat → A → option (list A);
  chunk_drop_left : ∀ {A : Type}, list A → nat → option (list A);
  chunk_drop_right : ∀ {A : Type}, list A → nat → option (list A);
  chunk_extend : ∀ {A : Type}, list A → list A → option (list A);
  chunk_is_full : ∀ {A : Type}, list A → bool;
}.

(** What the documentation of [Chunk] promises. *)
Class ChunkLaws (N : nat) `{ChunkOps N} := {
  chunk_push_back_ok : ∀ {A} (c : list A) x,
    length c < N → chunk_push_back c x = Some (c ++ [x]);
  chunk_pop_back_ok : ∀ {A} (c : list A) x,
    chunk_pop_back (c ++ [x]) = Some (x, c);
  chunk_set_ok : ∀ {A} (c : list A) i x,
    i < length c → chunk_set c i x = Some (<[i := x]> c);
  chunk_drop_left_ok : ∀ {A} (c : list A) i,
    i ≤ length c → chunk_drop_left c i = Some (drop i c);
  chunk_drop_right_ok : ∀ {A} (c : list A) i,
    i ≤ length c → chunk_drop_right c i = Some (take i c);
  chunk_extend_ok : ∀ {A} (c l : list A),
    length c + length l ≤ N → chunk_extend c l = Some (c ++ l);
  chunk_is_full_ok : ∀ {A} (c : list A),
    chunk_is_full c = (length c =? N);
}.

(** ** Data *)

Inductive Node (T : Type) : Type :=
| Leaf (data : list T)
| Interior (children : list (Node T)).
Arguments Leaf {T} data.
Arguments Interior {T} children.

Record Vector (T : Type) : Type := mkVector {
  root : option (Node T);
  len : nat;
  height : nat;
}.
Arguments mkVector {T} root len height.
Arguments root {T} v : rename.
Arguments len {T} v : rename.
Arguments height {T} v : rename.

(** A borrowed iterator: the stack of the iterators over interior nodes (its
    head is the top of the Rust [Vec]) and the iterator over the current leaf. *)
Record Iter (T : Type) : Type := mkIter {
  stack : list (list (Node T));
  leaf : list T;
}.
Arguments mkIter {T} stack leaf.
Arguments stack {T} i : rename.
Arguments leaf {T} i : rename.

(** ** Operations on nodes *)

(** [idx >> (N.ilog2() * height) & (N - 1)] *)
Definition extract_index (N idx height : nat) : nat :=
  Nat.land (Nat.shiftr idx (Nat.log2 N * height)) (N - 1).

(** Runs [f] on the last element of a list, in place:
    [f(Rc::make_mut(children.last_mut().expect(..)))]. *)
Definition update_last {A R : Type} (f : A → option (R * A))
    : list A → option (R * list A) :=
  fix go l :=
    match l with
    | [] => None
    | [x] => '(r, x') ← f x; Some (r, [x'])
    | x :: l' => '(r, l'') ← go l'; Some (r, x :: l'')
    end.

Section nodes.
Context {T : Type} (N : nat) `{ChunkOps N}.

Fixpoint node_len (n : Node T) : nat :=
  match n with
  | Leaf data => length data
  | Interior children => list_sum (map node_len children)
  end.

(** [Node::get]: the outer option is the panic ([debug_assert_eq!] on the
    height, [height - 1] below zero), the inner one the result. *)
Fixpoint node_get (height : nat) (n : Node T) (idx : nat) : option (option T) :=
  match n with
  | Leaf data =>
      if height =? 0 then Some (data !! Nat.land idx (N - 1)) else None
  | Interior children =>
      let bucket_idx := extract_index N idx height in
      match children !! bucket_idx with
      | Some child =>
          match height with
          | S height' => node_get height' child idx
          | 0 => None
          end
      | None => Some None
      end
  end.

(** The tower of single-child nodes built by the [for _ in 1..height] loop of
    [Node::set]. *)
Fixpoint node_tower (k : nat) (child : Node T) : option (Node T) :=
  match k with
  | 0 => Some child
  | S k' =>
      children ← chunk_push_back [] child;
      node_tower k' (Interior children)
  end.

Fixpoint node_set (height : nat) (n : Node T) (idx : nat) (elt : T)
    : option (Node T) :=
  match n with
  | Leaf data =>
      let idx := Nat.land idx (N - 1) in
      if negb (height =? 0) then None else
      if negb (idx <=? length data) then None else
      if idx <? length data
      then data' ← chunk_set data idx elt; Some (Leaf data')
      else data' ← chunk_push_back data elt; Some (Leaf data')
  | Interior children =>
      let bucket_idx := extract_index N idx height in
      match height with
      | 0 => None
      | S height' =>
          if negb (bucket_idx <=? length children) then None else
          if bucket_idx <? length children then
            child ← children !! bucket_idx;
            child' ← node_set height' child idx elt;
            Some (Interior (<[bucket_idx := child']> children))
          else
            leaf ← chunk_push_back [] elt;
            child ← node_tower height' (Leaf leaf);
            children' ← chunk_push_back children child;
            Some (Interior children')
      end
  end.

(** [Node::pop]: the popped element, whether the subtree became empty, and
    the updated subtree. *)
Fixpoint node_pop (n : Node T) : option (T * bool * Node T) :=
  match n with
  | Leaf data =>
      match data with
      | [] => None
      | _ =>
          '(ret, data') ← chunk_pop_back data;
          Some (ret, bool_decide (length data' = 0), Leaf data')
      end
  | Interior children =>
      '(ret, child_empty, children') ← update_last node_pop children;
      children'' ← (if (child_empty : bool)
                    then snd <$> chunk_pop_back children' else Some children');
      Some (ret, bool_decide (length children'' = 0), Interior children'')
  end.

Fixpoint node_truncate (height : nat) (n : Node T) (len : nat) : option (Node T) :=
  match n with
  | Leaf data =>
      if height =? 0 then data' ← chunk_drop_right data len; Some (Leaf data')
      else None
  | Interior children =>
      let max_child_len := N ^ height in
      let num_full_children := len / max_child_len in
      let extra := len mod max_child_len in
      if 0 <? extra then
        children' ← chunk_drop_right children (num_full_children + 1);
        child ← children' !! num_full_children;
        match height with
        | 0 => None
        | S height' =>
            child' ← node_truncate height' child extra;
            Some (Interior (<[num_full_children := child']> children'))
        end
      else
        children' ← chunk_drop_right children num_full_children;
        Some (Interior children')
  end.

End nodes.

(** ** Operations on vectors *)

(** The largest [k] with [base ^ k <= x]: [usize::ilog] for [x >= 1]. *)
Fixpoint ilog_fuel (fuel base x : nat) : nat :=
  match fuel with
  | 0 => 0
  | S fuel' => if x <? base then 0 else S (ilog_fuel fuel' base (x / base))
  end.
Definition ilog (base x : nat) : nat := ilog_fuel x base x.

Definition height_for_length (N length : nat) : nat :=
  ilog N (Nat.max (length - 1) 1).

Section vectors.
Context {T : Type} (N : nat) `{ChunkOps N}.

Definition vec_new : Vector T := mkVector None 0 0.

Definition vec_len (v : Vector T) : nat := len v.

Definition vec_is_empty (v : Vector T) : bool := len v =? 0.

(** [is_packed], the check used by the tests. The recursive call on the tail
    of a node does pass [true], whatever [right_most] is. *)
Fixpoint is_packed_rec (n : Node T) (right_most : bool) : bool :=
  match n with
  | Leaf data => chunk_is_full data || right_most
  | Interior children =>
      (fix go (cs : list (Node T)) : bool :=
         match cs with
         | [] => false
         | [tail] => is_packed_rec tail true
         | c :: cs' => is_packed_rec c false && go cs'
         end) children
  end.

Definition is_packed (v : Vector T) : bool :=
  match root v with None => true | Some root => is_packed_rec root true end.

(** [check_invariants]: whether none of its assertions fails. *)
Definition check_invariants (v : Vector T) : bool :=
  is_packed v
  && (len v =? match root v with None => 0 | Some root => node_len root end)
  && match root v with
     | Some (Interior children) => 1 <? length children
     | _ => true
     end
  && (height v =? height_for_length N (len v)).

Definition is_full (v : Vector T) : bool :=
  match root v with
  | None => true
  | Some _ => len v =? N ^ (height v + 1)
  end.

Definition vec_get (v : Vector T) (idx : nat) : option (option T) :=
  match root v with
  | None => Some None
  | Some r => node_get N (height v) r idx
  end.

(** [Index::index]: panics when [get] finds nothing. *)
Definition vec_index (v : Vector T) (idx : nat) : option T :=
  mjoin (vec_get v idx).

Definition vec_set (v : Vector T) (idx : nat) (elt : T) : option (Vector T) :=
  if len v <=? idx then None else
  match root v with
  | Some root =>
      root' ← node_set N (height v) root idx elt;
      Some (mkVector (Some root') (len v) (height v))
  | None => Some v
  end.

Definition add_level (v : Vector T) : option (Vector T) :=
  match root v with
  | None => Some (mkVector (Some (Leaf [])) (len v) (height v))
  | Some old_root =>
      children ← chunk_push_back [] old_root;
      Some (mkVector (Some (Interior children)) (len v) (height v + 1))
  end.

Definition vec_push (v : Vector T) (elt : T) : option (Vector T) :=
  v ← (if is_full v then add_level v else Some v);
  let idx := vec_len v in
  root ← root v;
  root' ← node_set N (height v) root idx elt;
  Some (mkVector (Some root') (len v + 1) (height v)).

Definition vec_pop (v : Vector T) : option (option T * Vector T) :=
  if vec_is_empty v then Some (None, v) else
  root ← root v;
  '(ret, _, root') ← node_pop N root;
  let length' := len v - 1 in
  match root' with
  | Interior children =>
      if length children =? 1 then
        '(child, _) ← chunk_pop_back children;
        if height v =? 0 then None else
        Some (Some ret, mkVector (Some child) length' (height v - 1))
      else Some (Some ret, mkVector (Some root') length' (height v))
  | Leaf _ => Some (Some ret, mkVector (Some root') length' (height v))
  end.

(** The loop [for _ in new_height..self.height] of [truncate]. *)
Fixpoint first_descend (k : nat) (n : Node T) : option (Node T) :=
  match k with
  | 0 => Some n
  | S k' =>
      match n with
      | Interior (c :: _) => first_descend k' c
      | _ => None
      end
  end.

Definition vec_truncate (v : Vector T) (len' : nat) : option (Vector T) :=
  if len v <=? len' then Some v else
  let new_height := height_for_length N len' in
  v ← (if new_height <? height v then
         root ← root v;
         new_root ← first_descend (height v - new_height) root;
         Some (mkVector (Some new_root) (len v) new_height)
       else Some v);
  root ← root v;
  root' ← node_truncate N (height v) root len';
  Some (mkVector (Some root') len' (height v)).

End vectors.

(** ** [Extend]: the peekable iterator is the list of the items left. *)

Section extend.
Context {T : Type} (N : nat) `{ChunkOps N}.

(** The loops [while !node.is_full() && iter.peek().is_some()], with the
    construction of one child as parameter. Each turn adds a child, so [N]
    turns are enough fuel. *)
Fixpoint extend_fill (new_child : list T → option (list T * Node T * nat))
    (fuel : nat) (iter : list T) (node : list (Node T)) (consumed : nat)
    : option (list T * list (Node T) * nat) :=
  match iter with
  | [] => Some (iter, node, consumed)
  | _ =>
      if chunk_is_full node then Some (iter, node, consumed) else
      match fuel with
      | 0 => None
      | S fuel' =>
          '(iter', child, k) ← new_child iter;
          node' ← chunk_push_back node child;
          extend_fill new_child fuel' iter' node' (consumed + k)
      end
  end.

(** A new leaf, filled by [iter.take(N).collect()]. *)
Definition extend_new_leaf (iter : list T) : option (list T * Node T * nat) :=
  data ← chunk_extend [] (take N iter);
  Some (drop N iter, Leaf data, length data).

(** [extend_rec]: the iterator left, the extended node, and the number of
    items consumed. [height] counts from one. *)
Fixpoint extend_rec (height : nat) (iter : list T) (node : list (Node T))
    : option (list T * list (Node T) * nat) :=
  match height with
  | 0 => None
  | S 0 =>
      '(iter, node, consumed) ←
        match last node with
        | Some (Leaf data) =>
            let old_len := length data in
            data' ← chunk_extend data (take (N - length data) iter);
            Some (drop (N - length data) iter,
                  <[length node - 1 := Leaf data']> node,
                  length data' - old_len)
        | Some (Interior _) => None
        | None => Some (iter, node, 0)
        end;
      extend_fill extend_new_leaf N iter node consumed
  | S height' =>
      '(iter, node, consumed) ←
        match last node with
        | Some (Interior children) =>
            '(iter, children', k) ← extend_rec height' iter children;
            Some (iter, <[length node - 1 := Interior children']> node, k)
        | Some (Leaf _) => None
        | None => Some (iter, node, 0)
        end;
      extend_fill
        (λ iter,
           '(iter, new_child, k) ← extend_rec height' iter [];
           Some (iter, Interior new_child, k))
        N iter node consumed
  end.

(** The [match] on the root in the body of the outer loop. *)
Definition extend_root (height : nat) (root : Node T) (iter : list T)
    : option (list T * Node T * nat) :=
  match root with
  | Leaf data =>
      let old_len := length data in
      data' ← chunk_extend data (take (N - length data) iter);
      Some (drop (N - length data) iter, Leaf data', length data' - old_len)
  | Interior children =>
      '(iter, children', k) ← extend_rec height iter children;
      Some (iter, Interior children', k)
  end.

(** The body of the outer loop: the items left and the vector. *)
Definition extend_step (iter : list T) (v : Vector T)
    : option (list T * Vector T) :=
  root ← root v;
  '(iter, root', consumed) ← extend_root (height v) root iter;
  let v := mkVector (Some root') (len v + consumed) (height v) in
  v ← match iter with [] => Some v | _ => add_level N v end;
  Some (iter, v).

Fixpoint extend_loop (fuel : nat) (iter : list T) (v : Vector T)
    : option (Vector T) :=
  match iter with
  | [] => Some v
  | _ =>
      match fuel with
      | 0 => None
      | S fuel' =>
          '(iter, v) ← extend_step iter v;
          extend_loop fuel' iter v
      end
  end.

(** A turn of the loop either consumes an item or raises the tree, and the
    turn that follows a raise consumes one: [length iter + 1] turns. *)
Definition vec_extend (v : Vector T) (items : list T) : option (Vector T) :=
  let v := match items, root v with
           | _ :: _, None => mkVector (Some (Leaf [])) (len v) (height v)
           | _, _ => v
           end in
  extend_loop (length items + 1) items v.

Definition vec_from_iter (items : list T) : option (Vector T) :=
  vec_extend vec_new items.

End extend.

(** ** Abstraction and invariant *)

Fixpoint flatten {T} (n : Node T) : list T :=
  match n with
  | Leaf data => data
  | Interior children => concat (map flatten children)
  end.

Definition to_list {T} (v : Vector T) : list T :=
  match root v with None => [] | Some r => flatten r end.

(** A complete subtree of a given height. *)
Inductive full {T} (N : nat) : nat → Node T → Prop :=
| full_leaf data : length data = N → full N 0 (Leaf data)
| full_interior h cs :
    length cs = N → Forall (full N h) cs → full N (S h) (Interior cs).

(** A subtree packed to the left: only its right-most path is incomplete. *)
Inductive packed {T} (N : nat) : nat → Node T → Prop :=
| packed_leaf data : length data ≤ N → packed N 0 (Leaf data)
| packed_interior h cs c :
    length cs < N → Forall (full N h) cs → packed N h c → flatten c ≠ [] →
    packed N (S h) (Interior (cs ++ [c])).

Definition vec_ok {T} (N : nat) (v : Vector T) : Prop :=
  match root v with
  | None => len v = 0 ∧ height v = 0
  | Some r =>
      packed N (height v) r ∧ len v = length (flatten r) ∧
      match r with Interior cs => 2 ≤ length cs | Leaf _ => True end
  end.

(** The chunk used by the witnesses: a list bounded by [N]. *)
#[export] Instance list_chunk (N : nat) : ChunkOps N := {|
  chunk_push_back _ c x := if length c <? N then Some (c ++ [x]) else None;
  chunk_pop_back _ c :=
    match last c with Some x => Some (x, take (length c - 1) c) | None => None end;
  chunk_set _ c i x := if i <? length c then Some (<[i := x]> c) else None;
  chunk_drop_left _ c i := if i <=? length c then Some (drop i c) else None;
  chunk_drop_right _ c i := if i <=? length c then Some (take i c) else None;
  chunk_extend _ c l := if length c + length l <=? N then Some (c ++ l) else None;
  chunk_is_full _ c := length c =? N;
|}.
