(* ===== verification/VectorFacts.v ===== *)
(** * Correctness of the persistent vector

    Every method of [Vector.v] refines the operation on lists through
    [to_list] and preserves [vec_ok]; no method panics on a well-formed
    vector with arguments in range. *)
From S2P Require Import Prelude Vector.

#[export] Hint Constructors full packed : nickel.
#[global] Arguments Nat.pow : simpl never.

(** The bounded list meets the documentation of [Chunk]. *)
#[export] Instance list_chunk_laws N : ChunkLaws N.
Proof.
  split; intros; simpl.
  - by rewrite (proj2 (Nat.ltb_lt _ _)).
  - rewrite last_snoc. by rewrite take_all_but_last.
  - by rewrite (proj2 (Nat.ltb_lt _ _)).
  - by rewrite (proj2 (Nat.leb_le _ _)).
  - by rewrite (proj2 (Nat.leb_le _ _)).
  - by rewrite (proj2 (Nat.leb_le _ _)).
  - done.
Qed.

(** ** Index arithmetic *)

Section arithmetic.
Context (N : nat) `{HN : !ValidBranchingConstant N}.

Lemma branching_pow2 : N = 2 ^ Nat.log2 N ∧ 1 ≤ Nat.log2 N ≤ 7.
Proof. destruct HN; (split; [reflexivity|vm_compute Nat.log2; lia]). Qed.

Lemma branching_ge_2 : 2 ≤ N.
Proof. destruct HN; lia. Qed.

Lemma land_mask idx : Nat.land idx (N - 1) = idx mod N.
Proof.
  destruct branching_pow2 as [HN' _]. rewrite HN' at 1 2.
  rewrite <- Nat.land_ones, Nat.ones_equiv. f_equal. lia.
Qed.

Lemma extract_index_spec idx h :
  extract_index N idx h = (idx / N ^ h) mod N.
Proof.
  unfold extract_index. rewrite land_mask, Nat.shiftr_div_pow2, Nat.pow_mul_r.
  by rewrite <- (proj1 branching_pow2).
Qed.

Lemma capacity_ne_0 h : N ^ h ≠ 0.
Proof. apply Nat.pow_nonzero. pose proof branching_ge_2. lia. Qed.

(** A global index modulo a capacity, split into the bucket and the index
    inside the bucket. *)
Lemma index_split idx h :
  idx mod N ^ S h = N ^ h * extract_index N idx h + idx mod N ^ h.
Proof.
  rewrite extract_index_spec, Nat.pow_succ_r', (Nat.mul_comm N).
  rewrite Nat.Div0.mod_mul_r. lia.
Qed.

Lemma ilog_fuel_spec fuel x :
  1 ≤ x → x ≤ fuel → N ^ ilog_fuel fuel N x ≤ x < N ^ S (ilog_fuel fuel N x).
Proof.
  pose proof branching_ge_2 as H2.
  revert x. induction fuel as [|fuel IH]; intros x Hx Hf; [lia|]. simpl ilog_fuel.
  destruct (x <? N) eqn:HxN; breflect; [rewrite Nat.pow_0_r, Nat.pow_1_r; lia|].
  pose proof (Nat.div_lt x N ltac:(lia) ltac:(lia)).
  pose proof (Nat.div_str_pos x N ltac:(lia)).
  destruct (IH (x / N)) as [IH1 IH2]; [lia..|].
  rewrite !(Nat.pow_succ_r' N).
  rewrite (Nat.pow_succ_r' N) in IH2.
  pose proof (Nat.Div0.mul_div_le x N). pose proof (Nat.mul_succ_div_gt x N ltac:(lia)).
  split; nia.
Qed.

(** [height_for_length]: lengths up to [N] have height zero, lengths from
    [N ^ h + 1] to [N ^ (h + 1)] have height [h]. *)
Lemma height_for_length_spec l h :
  height_for_length N l = h ↔ l ≤ N ^ S h ∧ (0 < h → N ^ h < l).
Proof.
  pose proof branching_ge_2 as H2. unfold height_for_length, ilog.
  set (x := Nat.max (l - 1) 1).
  destruct (ilog_fuel_spec x x ltac:(lia) ltac:(lia)) as [Hlo Hhi].
  set (k := ilog_fuel x N x) in *. split.
  - intros <-. split; [lia|]. intros Hk.
    assert (2 ≤ N ^ k) by (rewrite <- (Nat.pow_1_r 2);
      transitivity (N ^ 1); [rewrite !Nat.pow_1_r; lia|apply Nat.pow_le_mono_r; lia]).
    lia.
  - intros [Hl Hh].
    assert (x < N ^ S h) as Hx.
    { assert (2 ≤ N ^ S h) by (rewrite Nat.pow_succ_r';
        pose proof (capacity_ne_0 h); nia). lia. }
    assert (h = 0 ∨ N ^ h ≤ x) as Hx' by lia.
    destruct (Nat.lt_trichotomy k h) as [Hlt|[->|Hgt]]; [|done|].
    + destruct Hx' as [->|Hx']; [lia|].
      pose proof (Nat.pow_le_mono_r N (S k) h ltac:(lia) ltac:(lia)). lia.
    + pose proof (Nat.pow_le_mono_r N (S h) k ltac:(lia) ltac:(lia)). lia.
Qed.

End arithmetic.

(** ** Subtrees *)

(** The generated induction principle of [full] says nothing of the children. *)
Lemma full_ind' {T} N (P : nat → Node T → Prop) :
  (∀ data, length data = N → P 0 (Leaf data)) →
  (∀ h cs, length cs = N → Forall (full N h) cs → Forall (P h) cs →
     P (S h) (Interior cs)) →
  ∀ h n, full N h n → P h n.
Proof.
  intros H0 HS. fix IH 3. intros h n [data Hd|h' cs Hcs Hall]; [by apply H0|].
  apply HS; [done..|].
  clear Hcs. induction Hall as [|c cs Hc _ IHcs]; constructor; auto.
Qed.

Section nodes.
Context {T : Type} (N : nat) `{HN : !ValidBranchingConstant N}.
Implicit Types (n c : Node T) (cs : list (Node T)).

Lemma full_length h n : full N h n → length (flatten n) = N ^ S h.
Proof.
  revert h n. apply full_ind'; [intros data Hd|intros h cs Hcs _ IH]; simpl flatten.
  - rewrite Nat.pow_1_r. done.
  - rewrite (length_concat_uniform (N ^ S h)), length_map, Hcs by by apply Forall_map.
    by rewrite (Nat.pow_succ_r' N (S h)).
Qed.

Lemma full_children_lengths h cs :
  Forall (full N h) cs → Forall (λ l, length l = N ^ S h) (map flatten cs).
Proof. intros Hcs. apply Forall_map. eapply Forall_impl; [done|]. apply full_length. Qed.

Lemma full_flatten_nonempty h n : full N h n → flatten n ≠ [].
Proof.
  intros Hn%full_length. apply non_nil_length. pose proof (capacity_ne_0 N (S h)). lia.
Qed.

Lemma full_packed h n : full N h n → packed N h n.
Proof.
  revert h n. apply full_ind'; [intros data Hd; constructor; lia|].
  intros h cs Hcs Hfull IH.
  pose proof (branching_ge_2 N).
  destruct cs as [|c cs' _] using rev_ind; [simpl in *; lia|].
  apply Forall_app in Hfull as [? [? _]%Forall_cons].
  apply Forall_app in IH as [_ [? _]%Forall_cons].
  rewrite length_app in Hcs. simpl in Hcs.
  constructor; eauto using full_flatten_nonempty. lia.
Qed.

Lemma packed_full_children h cs :
  Forall (full N h) cs → cs ≠ [] → length cs ≤ N → packed N (S h) (Interior cs).
Proof.
  intros Hfull Hne Hlen. destruct (exists_last Hne) as (cs' & c & ->).
  apply Forall_app in Hfull as [? [? _]%Forall_cons].
  rewrite length_app in Hlen. simpl in Hlen.
  constructor; eauto using full_flatten_nonempty, full_packed. lia.
Qed.

Lemma packed_length h n : packed N h n → length (flatten n) ≤ N ^ S h.
Proof.
  induction 1 as [data Hd|h cs c Hcs Hall Hc IH _]; simpl flatten.
  - by rewrite Nat.pow_1_r.
  - rewrite concat_map_snoc, length_app.
    rewrite (length_concat_uniform (N ^ S h)), length_map by by apply full_children_lengths.
    rewrite (Nat.pow_succ_r' N (S h)). nia.
Qed.

(** The number of items of an interior node, by its children. *)
Lemma interior_length h cs c :
  Forall (full N h) cs →
  length (flatten (Interior (cs ++ [c]))) = length cs * N ^ S h + length (flatten c).
Proof.
  intros Hcs. simpl. rewrite concat_map_snoc, length_app.
  by rewrite (length_concat_uniform (N ^ S h)), length_map by by apply full_children_lengths.
Qed.

Lemma packed_interior_inv h cs :
  packed N (S h) (Interior cs) →
  ∃ cs' c, cs = cs' ++ [c] ∧ length cs' < N ∧ Forall (full N h) cs' ∧
           packed N h c ∧ flatten c ≠ [].
Proof. inversion 1; subst; eauto 10. Qed.

(** A packed subtree that holds all it can is complete. *)
Lemma packed_full h n :
  packed N h n → length (flatten n) = N ^ S h → full N h n.
Proof.
  intros Hp. induction Hp as [data Hd|h cs c Hcs Hall Hc IH Hne]; intros Hlen.
  - simpl in Hlen. rewrite Nat.pow_1_r in Hlen. by constructor.
  - rewrite (interior_length h) in Hlen by done. rewrite (Nat.pow_succ_r' N (S h)) in Hlen.
    pose proof (packed_length _ _ Hc). pose proof (capacity_ne_0 N (S h)).
    assert (S (length cs) = N) by nia.
    apply full_interior; [rewrite length_app; simpl; lia|].
    apply Forall_app_2; [done|]. constructor; [apply IH; nia|done].
Qed.

(** The items below an index of a packed node are in its bucket. *)
Lemma lookup_interior h cs c q r :
  Forall (full N h) cs → packed N h c → r < N ^ S h →
  flatten (Interior (cs ++ [c])) !! (N ^ S h * q + r)
  = (cs ++ [c]) !! q ≫= λ n, flatten n !! r.
Proof.
  intros Hcs Hc Hr. simpl flatten. rewrite map_app. simpl map.
  rewrite (lookup_blocks (N ^ S h) (capacity_ne_0 N _)) by
    (done || by apply full_children_lengths || by apply packed_length).
  change (map flatten cs ++ [flatten c]) with (map flatten cs ++ map flatten [c]).
  rewrite <- map_app. change (map flatten) with (fmap (M := list) (@flatten T)).
  rewrite list_lookup_fmap. by destruct ((cs ++ [c]) !! q).
Qed.

Lemma packed_child h cs c q n :
  Forall (full N h) cs → packed N h c → (cs ++ [c]) !! q = Some n → packed N h n.
Proof.
  intros Hcs Hc [Hq|[_ Hq]]%lookup_app_Some.
  - apply full_packed. by eapply Forall_lookup_1.
  - apply list_lookup_singleton_Some in Hq as [_ ->]. done.
Qed.

Lemma node_len_flatten n : node_len n = length (flatten n).
Proof.
  revert n. fix IH 1. intros [data|cs]; simpl; [done|].
  induction cs as [|c cs IHcs]; simpl; [done|]. rewrite length_app, IH. lia.
Qed.

(** [Node::get] at any index: the index is taken modulo the capacity. *)
Lemma node_get_spec h n idx :
  packed N h n → node_get N h n idx = Some (flatten n !! (idx mod N ^ S h)).
Proof.
  revert n. induction h as [|h IH]; intros n Hn; inversion Hn; subst; simpl node_get.
  - rewrite (land_mask N), Nat.pow_1_r. done.
  - rewrite index_split, lookup_interior by
      (done || apply Nat.mod_upper_bound, (capacity_ne_0 N)).
    destruct ((cs ++ [c]) !! _) as [n|] eqn:Hn'; [|done]. simpl.
    apply IH. by eapply packed_child.
Qed.


(** Updating one child changes one segment of the flattened node. *)
Lemma update_child h cs c q n :
  Forall (full N h) cs → packed N h c → (cs ++ [c]) !! q = Some n →
  ∃ pre post,
    flatten (Interior (cs ++ [c])) = pre ++ flatten n ++ post ∧
    length pre = N ^ S h * q ∧ (q = length cs → post = []) ∧
    ∀ n', flatten (Interior (<[q := n']> (cs ++ [c]))) = pre ++ flatten n' ++ post.
Proof.
  intros Hcs Hc Hq. pose proof (lookup_lt_Some _ _ _ Hq) as Hlt.
  rewrite length_app in Hlt. simpl in Hlt.
  exists (concat (map flatten (take q (cs ++ [c])))),
         (concat (map flatten (drop (S q) (cs ++ [c])))). split_and!.
  - rewrite <- (take_drop_middle _ _ _ Hq) at 1. simpl.
    by rewrite map_app, concat_app.
  - rewrite take_app_le by lia.
    rewrite (length_concat_uniform (N ^ S h)), length_map, length_take by
      (by apply full_children_lengths, Forall_take). nia.
  - intros ->. rewrite drop_app_ge by lia. by rewrite Nat.sub_succ_l, Nat.sub_diag by done.
  - intros n'. simpl. rewrite insert_take_drop by (rewrite length_app; simpl; lia).
    by rewrite map_app, concat_app.
Qed.

(** Replacing a child by a packed one of the same length, or the last child
    by any non-empty packed one, keeps the node packed. *)
Lemma packed_update_child h cs c q n n' :
  length cs < N → Forall (full N h) cs → packed N h c → flatten c ≠ [] →
  (cs ++ [c]) !! q = Some n → packed N h n' → flatten n' ≠ [] →
  (q < length cs → length (flatten n') = length (flatten n)) →
  packed N (S h) (Interior (<[q := n']> (cs ++ [c]))).
Proof.
  intros Hlen Hcs Hc Hne Hq Hn' Hne' Hsame.
  destruct (decide (q < length cs)) as [Hlt|Hge].
  - rewrite insert_app_l by done. rewrite lookup_app_l in Hq by done.
    constructor; [by rewrite length_insert| |done..].
    apply Forall_insert; [done|]. apply packed_full; [done|].
    rewrite Hsame by done. apply full_length. by eapply Forall_lookup_1.
  - pose proof (lookup_lt_Some _ _ _ Hq) as Hlt. rewrite length_app in Hlt. simpl in Hlt.
    replace q with (length cs) by lia. rewrite insert_app_exact. by constructor.
Qed.

Context `{HL : ChunkLaws N}.

Lemma node_set_in_place h n idx x :
  packed N h n → idx mod N ^ S h < length (flatten n) →
  ∃ n', node_set N h n idx x = Some n' ∧ packed N h n' ∧
        flatten n' = <[idx mod N ^ S h := x]> (flatten n).
Proof.
  revert n. induction h as [|h IH]; intros n Hn Hidx; inversion Hn; subst.
  - simpl in *. rewrite (land_mask N). rewrite Nat.pow_1_r in *.
    rewrite (proj2 (Nat.leb_le _ _)), (proj2 (Nat.ltb_lt _ _)) by lia. simpl.
    rewrite chunk_set_ok by done. simpl. eexists; split_and!; [done| |done].
    constructor. by rewrite length_insert.
  - rewrite (index_split N idx (S h)) in *.
    set (q := extract_index N idx (S h)) in *. set (r := idx mod N ^ S h) in *.
    assert (r < N ^ S h) as Hr by apply Nat.mod_upper_bound, (capacity_ne_0 N).
    apply lookup_lt_is_Some_2 in Hidx as [y Hy]. rewrite lookup_interior in Hy by done.
    destruct ((cs ++ [c]) !! q) as [n|] eqn:Hq; [|done]. simpl in Hy.
    pose proof (packed_child h cs c q n ltac:(done) ltac:(done) Hq) as Hpn.
    pose proof (lookup_lt_Some _ _ _ Hy) as Hrn.
    destruct (IH n Hpn Hrn) as (n' & Hset & Hpn' & Hfl).
    pose proof (lookup_lt_Some _ _ _ Hq) as Hlt.
    assert (length (flatten n') = length (flatten n)) as Hsame
      by (by rewrite Hfl, length_insert).
    simpl node_set. fold q.
    rewrite (proj2 (Nat.leb_le _ _)), (proj2 (Nat.ltb_lt _ _)) by lia. simpl.
    rewrite Hq. simpl. rewrite Hset. simpl. eexists; split_and!; [done| |].
    + eapply packed_update_child; try done. apply non_nil_length. lia.
    + destruct (update_child h cs c q n) as (pre & post & Hflat & Hpre & _ & Hupd);
        [done..|].
      rewrite Hupd. simpl flatten in Hflat |- *. rewrite Hflat, Hfl, <- Hpre,  insert_app_r. f_equal.
      by rewrite insert_app_l.
Qed.

Lemma node_tower_ok k h n :
  packed N h n → flatten n ≠ [] →
  ∃ n', node_tower N k n = Some n' ∧ packed N (k + h) n' ∧ flatten n' = flatten n.
Proof.
  pose proof (branching_ge_2 N).
  revert h n. induction k as [|k IH]; intros h n Hn Hne; simpl; [by exists n|].
  rewrite chunk_push_back_ok by (simpl; lia). simpl.
  destruct (IH (S h) (Interior [n])) as (n' & Hn' & Hp & Hfl).
  - apply (packed_interior N h []); simpl; [lia|constructor|done..].
  - simpl. by rewrite app_nil_r.
  - exists n'. rewrite <- plus_n_Sm in Hp. split_and!; [done..|].
    rewrite Hfl. simpl. by rewrite app_nil_r.
Qed.

Lemma node_set_append h n idx x :
  packed N h n → (0 < h → flatten n ≠ []) → idx mod N ^ S h = length (flatten n) →
  ∃ n', node_set N h n idx x = Some n' ∧ packed N h n' ∧ flatten n' = flatten n ++ [x].
Proof.
  pose proof (branching_ge_2 N) as HN2.
  revert n. induction h as [|h IH]; intros n Hn Hne Hidx; inversion Hn; subst.
  - simpl in *. rewrite (land_mask N). rewrite Nat.pow_1_r in *.
    pose proof (Nat.mod_upper_bound idx N ltac:(lia)).
    rewrite (proj2 (Nat.leb_le _ _)), (proj2 (Nat.ltb_ge _ _)) by lia. simpl.
    rewrite chunk_push_back_ok by lia. simpl. eexists; split_and!; [done| |done].
    constructor. rewrite length_app. simpl. lia.
  - pose proof (packed_length _ _ Hn) as Hcap. rewrite (interior_length h) in Hcap, Hidx by done.
    pose proof (Nat.mod_upper_bound idx _ (capacity_ne_0 N (S (S h)))) as Hub.
    rewrite (index_split N idx (S h)) in *. rewrite (Nat.pow_succ_r' N (S h)) in Hub.
    set (q := extract_index N idx (S h)) in *. set (r := idx mod N ^ S h) in *.
    assert (r < N ^ S h) as Hr by apply Nat.mod_upper_bound, (capacity_ne_0 N).
    assert (0 < length (flatten c)) by by apply non_nil_length.
    pose proof (packed_length _ c ltac:(done)) as Hc.
    simpl node_set. fold q.
    destruct (decide (length (flatten c) = N ^ S h)) as [Hfull|Hnot].
    + (* the last child is complete: a new one *)
      assert (q = S (length cs)) as Hq by nia.
      rewrite (proj2 (Nat.leb_le _ _)), (proj2 (Nat.ltb_ge _ _)) by
        (rewrite length_app; simpl; lia). simpl.
      rewrite chunk_push_back_ok by (simpl; lia). simpl.
      destruct (node_tower_ok h 0 (Leaf [x])) as (n' & -> & Hp & Hfl);
        [constructor; simpl; lia|done|]. rewrite Nat.add_0_r in Hp. simpl.
      rewrite chunk_push_back_ok by (rewrite length_app; simpl; nia). simpl.
      eexists; split_and!; [done| |].
      * constructor; [rewrite length_app; simpl; nia| |done|by rewrite Hfl].
        apply Forall_app_2; [done|]. constructor; [by apply packed_full|done].
      * simpl. rewrite (concat_map_snoc _ (cs ++ [c])), Hfl. done.
    + (* room in the last child *)
      assert (q = length cs) as Hq by nia.
      assert (r = length (flatten c)) as Hrc by nia.
      assert ((cs ++ [c]) !! q = Some c) as Hlook
        by (rewrite Hq, lookup_app_r, Nat.sub_diag; done).
      rewrite (proj2 (Nat.leb_le _ _)), (proj2 (Nat.ltb_lt _ _)) by
        (rewrite length_app; simpl; lia). simpl.
      rewrite Hlook. simpl.
      destruct (IH c) as (c' & -> & Hp & Hfl); [done..|]. simpl.
      eexists; split_and!; [done| |].
      * eapply packed_update_child; try done; [|lia]. rewrite Hfl. by destruct (flatten c).
      * destruct (update_child h cs c q c) as (pre & post & Hflat & Hpre & Hpost & Hupd);
          [done..|].
        rewrite Hupd. simpl flatten in Hflat |- *. rewrite Hflat, Hfl, Hpost by done. by rewrite !app_nil_r, app_assoc.
Qed.


Lemma update_last_snoc {A R} (f : A → option (R * A)) l x :
  update_last f (l ++ [x]) = '(r, x') ← f x; Some (r, l ++ [x']).
Proof.
  induction l as [|y l IH]; [done|]. simpl. rewrite IH.
  destruct (l ++ [x]) as [|z k] eqn:Hk; [by apply app_nil in Hk as [_ ?]|].
  by destruct (f x) as [[r x']|].
Qed.

Lemma node_pop_snoc cs c r e c' :
  node_pop N c = Some (r, e, c') →
  node_pop N (Interior (cs ++ [c])) =
    let cs' := if e then cs else cs ++ [c'] in
    Some (r, bool_decide (length cs' = 0), Interior cs').
Proof.
  intros Hc. simpl. rewrite update_last_snoc, Hc. simpl.
  destruct e; simpl; [|done]. by rewrite chunk_pop_back_ok.
Qed.

Lemma node_pop_ok h n l x :
  packed N h n → flatten n = l ++ [x] →
  ∃ n', node_pop N n = Some (x, bool_decide (l = []), n') ∧ flatten n' = l ∧
        (l ≠ [] → packed N h n').
Proof.
  intros Hn. revert l. induction Hn as [data Hd|h cs c Hcs Hall Hc IH Hne]; intros l Hl.
  - simpl in Hl. subst data. exists (Leaf l). simpl.
    rewrite chunk_pop_back_ok. rewrite length_app in Hd. simpl in Hd.
    split_and!; [|done|intros _; constructor; lia].
    destruct (l ++ [x]) as [|? ?] eqn:Hl; [by apply app_nil in Hl as [_ ?]|]. simpl.
    repeat f_equal. apply bool_decide_ext. apply length_zero_iff_nil.
  - destruct (exists_last Hne) as (lc & y & Hlc). simpl flatten in Hl.
    rewrite concat_map_snoc, Hlc, app_assoc in Hl.
    apply app_inj_tail in Hl as [Hl ->].
    destruct (IH lc Hlc) as (c' & Hpop & Hfl & Hpk).
    erewrite node_pop_snoc by done. cbv zeta.
    destruct (bool_decide (lc = [])) eqn:Hlne;
      [apply bool_decide_eq_true in Hlne as ->|apply bool_decide_eq_false in Hlne].
    + eexists; split_and!.
      * repeat f_equal. apply bool_decide_ext. rewrite <- Hl, app_nil_r.
        rewrite length_zero_iff_nil. split; [by intros ->|].
        destruct cs as [|c0 cs0]; [done|]. intros Hcc.
        apply Forall_cons in Hall as [Hc0%full_flatten_nonempty _].
        simpl in Hcc. by apply app_nil in Hcc as [? _].
      * by rewrite <- Hl, app_nil_r.
      * rewrite <- Hl, app_nil_r. intros Hlne.
        apply packed_full_children; [done|by intros ->|lia].
    + eexists; split_and!.
      * repeat f_equal. apply bool_decide_ext. rewrite length_app. simpl.
        split; [lia|]. intros ->. by apply app_nil in Hl as [_ ?].
      * simpl flatten. by rewrite concat_map_snoc, Hfl.
      * intros _. constructor; [done..|by apply Hpk|by rewrite Hfl].
Qed.


Lemma node_truncate_ok h n len' :
  packed N h n → len' ≤ length (flatten n) → (0 < h → 0 < len') →
  ∃ n', node_truncate N h n len' = Some n' ∧ packed N h n' ∧
        flatten n' = take len' (flatten n).
Proof.
  revert n len'. induction h as [|h IH]; intros n len' Hn Hle Hpos; inversion Hn; subst.
  - simpl in *. rewrite chunk_drop_right_ok by done. simpl.
    eexists; split_and!; [done| |done]. constructor. rewrite length_take. lia.
  - simpl node_truncate.
    pose proof (capacity_ne_0 N (S h)) as Hs.
    pose proof (Nat.div_mod_eq len' (N ^ S h)) as Hdm.
    pose proof (Nat.mod_upper_bound len' _ Hs) as Hmod.
    pose proof (packed_length _ c ltac:(done)) as Hc.
    rewrite (interior_length h) in Hle by done.
    set (q := len' / N ^ S h) in *. set (e := len' mod N ^ S h) in *.
    assert (length (cs ++ [c]) = length cs + 1) as Hl by by rewrite length_app.
    destruct (0 <? e) eqn:He; breflect.
    + (* a child is cut *)
      assert (q ≤ length cs) as Hq by nia.
      rewrite chunk_drop_right_ok by lia. simpl.
      destruct (lookup_lt_is_Some_2 (cs ++ [c]) q ltac:(lia)) as [d Hd].
      rewrite lookup_take_lt, Hd by lia. simpl.
      pose proof (packed_child h cs c q d ltac:(done) ltac:(done) Hd) as Hpd.
      assert (e ≤ length (flatten d)) as Hed.
      { destruct (decide (q < length cs)) as [Hlt|].
        - rewrite lookup_app_l in Hd by done.
          rewrite (full_length h) by (by eapply Forall_lookup_1). lia.
        - rewrite lookup_app_r in Hd by lia.
          apply list_lookup_singleton_Some in Hd as [_ <-]. nia. }
      destruct (IH d e Hpd Hed ltac:(lia)) as (d' & -> & Hp' & Hfl). simpl.
      replace (q + 1) with (S q) by lia. rewrite (take_S_r _ _ d) by done.
      assert (length (take q (cs ++ [c])) = q) as Hlq by (rewrite length_take; lia).
      rewrite (insert_snoc _ _ _ _ Hlq).
      eexists; split_and!; [done| |].
      * constructor; [lia| |done|].
        -- rewrite take_app_le by lia. by apply Forall_take.
        -- rewrite Hfl. apply non_nil_length. rewrite length_take. lia.
      * destruct (update_child h cs c q d) as (pre & post & Hflat & Hpre & _ & Hupd);
          [done..|]. specialize (Hupd d').
        simpl flatten in *. rewrite Hflat, Hdm, <- Hpre, take_app_add.
        rewrite (take_app_le (flatten d)), <- Hfl by done. rewrite concat_map_snoc. f_equal.
        rewrite insert_take_drop, map_app, concat_app in Hupd by lia.
        apply app_inj_1 in Hupd as [? _]; [done|].
        rewrite Hpre, take_app_le by lia.
        rewrite (length_concat_uniform (N ^ S h)), length_map, length_take by
          (by apply full_children_lengths, Forall_take). nia.
    + (* the cut is between two children *)
      assert (e = 0) as He0 by lia. assert (0 < q) by nia.
      assert (q ≤ length cs + 1) as Hq by nia.
      rewrite chunk_drop_right_ok by lia. simpl. eexists; split_and!; [done| |].
      * destruct (decide (q ≤ length cs)).
        -- rewrite take_app_le by done. apply packed_full_children;
             [by apply Forall_take| |rewrite length_take; lia].
           apply non_nil_length. rewrite length_take. lia.
        -- rewrite take_ge by lia. done.
      * destruct (decide (q ≤ length cs)).
        -- rewrite take_app_le by done. simpl flatten.
           rewrite <- (take_drop q cs) at 2. rewrite <- app_assoc, map_app, concat_app.
           rewrite take_app_length'; [done|].
           rewrite (length_concat_uniform (N ^ S h)), length_map, length_take by
             (by apply full_children_lengths, Forall_take). nia.
        -- pose proof (interior_length h cs c ltac:(done)) as Hil.
           simpl flatten in Hil |- *. rewrite !take_ge by nia. done.
Qed.

End nodes.
