(* ===== verification/VectorSpec.v ===== *)
(** * The methods of [Vector] refine the operations on lists *)
From S2P Require Import Prelude Vector VectorFacts.

Section vectors.
Context {T : Type} (N : nat) `{HN : !ValidBranchingConstant N} `{HL : ChunkLaws N}.
Implicit Types (n c r : Node T) (cs : list (Node T)) (v : Vector T) (x : T).

(** The root has two children exactly when the tree could not be lower. *)
Definition root_ok (h : nat) (r : Node T) : Prop :=
  packed N h r ∧ (0 < h → N ^ h < length (flatten r)).

Lemma two_children h cs :
  packed N (S h) (Interior cs) →
  2 ≤ length cs ↔ N ^ S h < length (flatten (Interior cs)).
Proof.
  intros (cs' & c & -> & Hlt & Hall & Hc & Hne)%packed_interior_inv.
  pose proof (packed_length _ _ _ Hc). pose proof (capacity_ne_0 N (S h)).
  apply non_nil_length in Hne.
  rewrite (interior_length N h), length_app by done. simpl. split; nia.
Qed.

Lemma vec_ok_root r l h :
  vec_ok N (mkVector (Some r) l h) ↔ root_ok h r ∧ l = length (flatten r).
Proof.
  unfold vec_ok, root_ok. simpl. split.
  - intros (Hp & -> & Hr). split_and!; [done| |done]. intros Hh.
    destruct h as [|h]; [lia|]. inversion Hp; subst. by apply two_children.
  - intros [[Hp Hh] ->]. split_and!; [done..|].
    destruct r as [|cs]; [done|]. inversion Hp; subst. apply (two_children h0); [done|].
    apply Hh. lia.
Qed.

Lemma vec_ok_new : vec_ok N (vec_new (T := T)).
Proof. done. Qed.

Lemma vec_ok_len v : vec_ok N v → len v = length (to_list v).
Proof. destruct v as [[r|] l h]; [by intros [_ ->]%vec_ok_root|]. by intros [-> _]. Qed.

Lemma vec_ok_capacity v : vec_ok N v → len v ≤ N ^ S (height v).
Proof.
  intros Hv. rewrite vec_ok_len by done.
  destruct v as [[r|] l h]; simpl; [|lia].
  apply vec_ok_root in Hv as [[Hp _] _]. by apply packed_length.
Qed.

Lemma vec_ok_height v : vec_ok N v → height v = height_for_length N (len v).
Proof.
  intros Hv. symmetry. apply (height_for_length_spec N).
  split; [by apply vec_ok_capacity|].
  destruct v as [[r|] l h]; simpl; [|destruct Hv; simpl in *; lia].
  apply vec_ok_root in Hv as [[_ Hh] ->]. done.
Qed.

Lemma index_small idx h : idx < N ^ h → idx mod N ^ h = idx.
Proof. apply Nat.mod_small. Qed.

(** *** get *)

Lemma vec_get_mod v idx :
  vec_ok N v → vec_get N v idx = Some (to_list v !! (idx mod N ^ S (height v))).
Proof.
  destruct v as [[r|] l h]; [|done]. intros [[Hp _] _]%vec_ok_root.
  by apply node_get_spec.
Qed.

Lemma vec_get_in_capacity v idx :
  vec_ok N v → idx < N ^ S (height v) → vec_get N v idx = Some (to_list v !! idx).
Proof. intros Hv Hidx. by rewrite vec_get_mod, index_small. Qed.

(** *** set *)

Lemma vec_set_ok v idx x :
  vec_ok N v → idx < len v →
  ∃ v', vec_set N v idx x = Some v' ∧ vec_ok N v' ∧
        to_list v' = <[idx := x]> (to_list v).
Proof.
  intros Hv Hidx. pose proof (vec_ok_capacity v Hv) as Hcap.
  destruct v as [[r|] l h]; simpl in *; [|destruct Hv; simpl in *; lia].
  apply vec_ok_root in Hv as [[Hp Hh] ->].
  destruct (node_set_in_place N h r idx x) as (r' & Hset & Hp' & Hfl); [done| |].
  { rewrite index_small; lia. }
  rewrite index_small in Hfl by lia.
  unfold vec_set. simpl. rewrite (proj2 (Nat.leb_gt _ _)), Hset by lia. simpl.
  eexists; split_and!; [done| |done]. apply vec_ok_root.
  unfold root_ok. by rewrite Hfl, length_insert.
Qed.

Lemma vec_set_out_of_bounds v idx x : len v ≤ idx → vec_set N v idx x = None.
Proof. intros Hidx. unfold vec_set. by rewrite (proj2 (Nat.leb_le _ _)). Qed.

(** *** push *)

(** A vector to which one more item can be appended without a new level. *)
Definition has_room v : Prop :=
  ∃ r, root v = Some r ∧ packed N (height v) r ∧ (0 < height v → flatten r ≠ []) ∧
       (0 < height v → N ^ height v ≤ length (flatten r)) ∧
       len v = length (flatten r) ∧ len v < N ^ S (height v).

Lemma add_level_room v :
  vec_ok N v → root v = None ∨ len v = N ^ S (height v) →
  ∃ v', add_level N v = Some v' ∧ has_room v' ∧ to_list v' = to_list v ∧ len v' = len v.
Proof.
  pose proof (branching_ge_2 N). intros Hv Hfull.
  destruct v as [[r|] l h]; simpl in *.
  - destruct Hfull as [|Hfull]; [done|]. apply vec_ok_root in Hv as [[Hp Hh] Hl].
    unfold add_level. simpl. rewrite chunk_push_back_ok by (simpl; lia). simpl.
    assert (flatten (Interior [r]) = flatten r) as Hfl
      by (simpl; by rewrite app_nil_r).
    pose proof (capacity_ne_0 N (S h)).
    assert (flatten r ≠ []) as Hne by (apply non_nil_length; lia).
    rewrite (Nat.add_1_r h). eexists; split_and!; [done| |done|done].
    exists (Interior [r]). simpl height. simpl len. rewrite Hfl.
    split_and!; try done; try lia.
    + apply (packed_interior N h []); [simpl; lia|constructor|done..].
    + rewrite (Nat.pow_succ_r' N (S h)). nia.
  - destruct Hv as [Hl0 Hh0]. simpl in Hl0, Hh0. subst. eexists; split_and!; [done| |done|done].
    exists (Leaf []). simpl. pose proof (capacity_ne_0 N 1).
    split_and!; try done; try lia. constructor. simpl. lia.
Qed.

Lemma set_at_end v x :
  has_room v →
  ∃ r r', root v = Some r ∧ node_set N (height v) r (len v) x = Some r' ∧
    vec_ok N (mkVector (Some r') (len v + 1) (height v)) ∧ flatten r' = flatten r ++ [x].
Proof.
  intros (r & Hr & Hp & Hne & Hlow & Hl & Hroom).
  destruct (node_set_append N (height v) r (len v) x) as (r' & Hset & Hp' & Hfl);
    [done|done|by rewrite index_small|].
  exists r, r'. split_and!; try done. apply vec_ok_root. split.
  - split; [done|]. intros Hh. rewrite Hfl, length_app. simpl.
    specialize (Hlow Hh). lia.
  - rewrite Hfl, length_app. simpl. lia.
Qed.

Lemma not_full_room v : vec_ok N v → is_full N v = false → has_room v.
Proof.
  intros Hv Hf. pose proof (vec_ok_capacity v Hv). unfold is_full in Hf.
  destruct v as [[r|] l h]; [|done]. apply vec_ok_root in Hv as [[Hp Hh] Hl].
  rewrite Nat.add_1_r in Hf. simpl in *. breflect.
  exists r. simpl. split_and!; try done; [|lia|lia].
  intros Hh0. apply non_nil_length. specialize (Hh Hh0). lia.
Qed.

Lemma vec_push_ok v x :
  vec_ok N v →
  ∃ v', vec_push N v x = Some v' ∧ vec_ok N v' ∧ to_list v' = to_list v ++ [x].
Proof.
  intros Hv.
  assert (∃ w, (if is_full N v then add_level N v else Some v) = Some w ∧
               has_room w ∧ to_list w = to_list v) as (w & Hw & Hroom & Hlist).
  { destruct (is_full N v) eqn:Hf; [|by exists v; eauto using not_full_room].
    destruct (add_level_room v) as (w & ? & ? & ? & _); [done| |by eauto].
    unfold is_full in Hf. destruct (root v); [right|by left].
    breflect. by rewrite Hf, Nat.add_1_r. }
  destruct (set_at_end w x Hroom) as (r & r' & Hr & Hset & Hok & Hfl).
  unfold vec_push. rewrite Hw. simpl. rewrite Hr. simpl. unfold vec_len.
  rewrite Hset. simpl. eexists; split_and!; [done..|].
  unfold to_list at 1. simpl. rewrite Hfl, <- Hlist. unfold to_list. by rewrite Hr.
Qed.

(** *** pop *)

Lemma vec_pop_empty v : len v = 0 → vec_pop N v = Some (None, v).
Proof. intros Hl. unfold vec_pop, vec_is_empty. by rewrite Hl. Qed.

Lemma vec_pop_ok v l x :
  vec_ok N v → to_list v = l ++ [x] →
  ∃ v', vec_pop N v = Some (Some x, v') ∧ vec_ok N v' ∧ to_list v' = l.
Proof.
  pose proof (branching_ge_2 N) as HN2.
  destruct v as [[r|] k h]; simpl; [|by destruct l]. unfold to_list. simpl.
  intros [[Hp Hh] Hk]%vec_ok_root Hl.
  assert (k = length l + 1) as -> by (rewrite Hk, Hl, length_app; done).
  unfold vec_pop, vec_is_empty. simpl len. rewrite (proj2 (Nat.eqb_neq _ _)) by lia.
  simpl. destruct (node_pop_ok N h r l x Hp Hl) as (r' & Hpop & Hfl & Hpk).
  rewrite Hpop. simpl. rewrite Nat.add_sub.
  inversion Hp as [data Hd Heq1 Heq2|h0 cs c Hcs Hall Hc Hne Heq1 Heq2]; subst h r.
  - (* a leaf *)
    simpl in Hl. subst data. rewrite length_app in Hd. simpl in Hd, Hpop.
    rewrite chunk_pop_back_ok in Hpop.
    assert (r' = Leaf l) as -> by (by destruct (l ++ [x]); simplify_eq/=).
    eexists; split_and!; [done| |done]. apply vec_ok_root.
    split_and!; [split; [constructor; lia|lia]|done].
  - (* an interior node *)
    specialize (Hh ltac:(lia)). rewrite Hl, length_app in Hh. simpl in Hh.
    destruct (exists_last Hne) as (lc & y & Hlc).
    destruct (node_pop_ok N h0 c lc y) as (c' & Hpopc & Hflc & Hpkc); [done..|].
    rewrite (node_pop_snoc N cs c _ _ _ Hpopc) in Hpop. cbv zeta in Hpop.
    set (cs' := if bool_decide (lc = []) then cs else cs ++ [c']) in *.
    assert (r' = Interior cs') as -> by (by simplify_eq/=). clear Hpop.
    assert (l ≠ []) as Hlne.
    { apply non_nil_length. pose proof (capacity_ne_0 N (S h0)). lia. }
    specialize (Hpk Hlne).
    destruct (length cs' =? 1) eqn:Hone; breflect.
    + (* down to a single child *)
      destruct cs' as [|d [|]] eqn:Hcs'; simpl in Hone; try lia.
      change [d] with ([] ++ [d]). rewrite chunk_pop_back_ok. simpl.
      simpl in Hfl. rewrite app_nil_r in Hfl.
      eexists; split_and!; [done| |done].
      apply vec_ok_root. rewrite Nat.sub_0_r, Hfl. split; [|done].
      apply (packed_interior_inv N h0) in Hpk as (ds & d' & Hds & _ & _ & Hd & _).
      apply (app_inj_tail []) in Hds as [_ ->].
      split; [done|]. rewrite Hfl. intros _. pose proof (capacity_ne_0 N h0).
      rewrite (Nat.pow_succ_r' N h0) in Hh. nia.
    + eexists; split_and!; [done| |done]. apply vec_ok_root. split; [|by rewrite Hfl].
      split; [done|]. intros _. apply two_children; [done|].
      destruct cs' as [|? [|]] eqn:Hcs'; simpl in *; try lia. done.
Qed.

(** *** truncate *)

Lemma full_descend k h n :
  full N h n → k ≤ h →
  ∃ n', first_descend k n = Some n' ∧ full N (h - k) n' ∧
        ∃ rest, flatten n = flatten n' ++ rest.
Proof.
  pose proof (branching_ge_2 N).
  revert h n. induction k as [|k IH]; intros h n Hn Hk; simpl.
  - exists n. rewrite Nat.sub_0_r. split_and!; [done..|]. exists []. by rewrite app_nil_r.
  - destruct Hn as [|h cs Hcs Hall]; [lia|]. destruct cs as [|c cs]; [simpl in *; lia|].
    apply Forall_cons in Hall as [Hc _].
    destruct (IH h c Hc ltac:(lia)) as (n' & -> & Hn' & rest & Hrest).
    exists n'. split_and!; [done..|]. exists (rest ++ concat (map flatten cs)).
    simpl. by rewrite Hrest, app_assoc.
Qed.

Lemma root_descend k h r :
  root_ok h r → 0 < k → k ≤ h →
  ∃ n', first_descend k r = Some n' ∧ full N (h - k) n' ∧
        ∃ rest, flatten r = flatten n' ++ rest.
Proof.
  intros [Hp Hh] Hk Hkh. destruct k as [|k]; [lia|]. destruct h as [|h]; [lia|].
  inversion Hp as [|h' cs c Hlt Hall Hc Hne]; subst.
  apply two_children in Hh as Htwo; [|done|lia].
  destruct cs as [|d cs]; [simpl in *; lia|]. apply Forall_cons in Hall as [Hd _].
  destruct (full_descend k h d Hd ltac:(lia)) as (n' & Hn' & Hf & rest & Hrest).
  exists n'. split_and!; [done..|]. exists (rest ++ concat (map flatten (cs ++ [c]))).
  simpl. by rewrite Hrest, app_assoc.
Qed.

Lemma height_for_length_mono l l' :
  l ≤ l' → height_for_length N l ≤ height_for_length N l'.
Proof.
  intros Hl. destruct (height_for_length_spec N l (height_for_length N l)) as [H1 _].
  destruct (height_for_length_spec N l' (height_for_length N l')) as [H2 _].
  specialize (H1 eq_refl) as [_ H1]. specialize (H2 eq_refl) as [H2 _].
  destruct (decide (height_for_length N l ≤ height_for_length N l')) as [|Hgt]; [done|].
  specialize (H1 ltac:(lia)). pose proof (branching_ge_2 N).
  pose proof (Nat.pow_le_mono_r N (S (height_for_length N l')) (height_for_length N l)
    ltac:(lia) ltac:(lia)). lia.
Qed.

Lemma vec_truncate_noop v k : len v ≤ k → vec_truncate N v k = Some v.
Proof. intros Hk. unfold vec_truncate. by rewrite (proj2 (Nat.leb_le _ _)). Qed.

Lemma truncate_root_ok h r k :
  packed N h r → k ≤ length (flatten r) → k ≤ N ^ S h → (0 < h → N ^ h < k) →
  ∃ r', node_truncate N h r k = Some r' ∧ flatten r' = take k (flatten r) ∧
        vec_ok N (mkVector (Some r') k h).
Proof.
  intros Hp Hk Hcap Hh.
  destruct (node_truncate_ok N h r k) as (r' & Ht & Hp' & Hfl); [done|done|lia|].
  exists r'. split_and!; [done..|]. apply vec_ok_root. unfold root_ok.
  rewrite Hfl, length_take_le by done. done.
Qed.

Lemma vec_truncate_ok v k :
  vec_ok N v →
  ∃ v', vec_truncate N v k = Some v' ∧ vec_ok N v' ∧ to_list v' = take k (to_list v).
Proof.
  intros Hv. destruct (decide (len v ≤ k)) as [Hle|Hgt].
  { exists v. rewrite vec_truncate_noop by done. split_and!; [done..|].
    rewrite take_ge; [done|]. by rewrite <- vec_ok_len. }
  pose proof (vec_ok_height v Hv) as Hheight.
  pose proof (height_for_length_mono k (len v) ltac:(lia)) as Hmono.
  rewrite <- Hheight in Hmono.
  destruct (proj1 (height_for_length_spec N k _) eq_refl) as [Hcap Hlow].
  destruct v as [[r|] l h]; [|destruct Hv; simpl in *; lia].
  apply vec_ok_root in Hv as [Hr Hl].
  unfold vec_truncate. simpl in *. rewrite (proj2 (Nat.leb_gt _ _)) by lia.
  set (nh := height_for_length N k) in *.
  destruct (nh <? h) eqn:Hnh; breflect; simpl.
  - destruct (root_descend (h - nh) h r Hr) as (n' & -> & Hf & rest & Hrest);
      [lia..|]. simpl. replace (h - (h - nh)) with nh in Hf by lia.
    pose proof (full_length N nh n' Hf) as Hlen.
    destruct (truncate_root_ok nh n' k) as (r' & -> & Hfl & Hok);
      [by apply full_packed|lia..|done|]. simpl.
    eexists; split_and!; [done..|]. unfold to_list. simpl.
    rewrite Hfl, Hrest. rewrite take_app_le; [done|lia].
  - assert (nh = h) as Heq by lia. rewrite Heq in Hcap, Hlow. destruct Hr as [Hp _].
    destruct (truncate_root_ok h r k) as (r' & -> & Hfl & Hok); [done|lia|lia|done|].
    simpl. eexists; split_and!; [done..|]. done.
Qed.

(** *** extend *)

Definition children_ok (h : nat) (cs : list (Node T)) : Prop :=
  cs = [] ∨ packed N (S h) (Interior cs).

Lemma children_ok_snoc h cs c :
  length cs < N → Forall (full N h) cs → packed N h c → flatten c ≠ [] →
  children_ok h (cs ++ [c]).
Proof. right. by constructor. Qed.

Lemma children_ok_full h cs :
  Forall (full N h) cs → length cs ≤ N → children_ok h cs.
Proof.
  intros Hcs Hlen. destruct cs; [by left|right]. by apply packed_full_children.
Qed.

Lemma children_ok_nonempty h cs :
  children_ok h cs → flatten (Interior cs) ≠ [] → packed N (S h) (Interior cs).
Proof. by intros [->|Hp] Hne. Qed.

(** What building one more child has to provide. *)
Definition new_child_ok (h : nat)
    (new_child : list T → option (list T * Node T * nat)) : Prop :=
  ∀ iter, iter ≠ [] → ∃ c,
    new_child iter
    = Some (drop (N ^ S h) iter, c, Nat.min (length iter) (N ^ S h)) ∧
    packed N h c ∧ flatten c = take (N ^ S h) iter.

Lemma extend_fill_nil new_child fuel cs consumed :
  extend_fill N new_child fuel [] cs consumed = Some ([], cs, consumed).
Proof. by destruct fuel. Qed.

Lemma extend_fill_nonempty new_child fuel iter cs consumed :
  iter ≠ [] →
  extend_fill N new_child fuel iter cs consumed =
    if length cs =? N then Some (iter, cs, consumed) else
    match fuel with
    | 0 => None
    | S fuel' =>
        '(iter', child, k) ← new_child iter;
        cs' ← chunk_push_back cs child;
        extend_fill N new_child fuel' iter' cs' (consumed + k)
    end.
Proof.
  intros Hne. destruct iter; [done|]. rewrite <- chunk_is_full_ok. by destruct fuel.
Qed.

Lemma extend_fill_ok h new_child fuel iter cs consumed :
  new_child_ok h new_child → N ≤ length cs + fuel → length cs ≤ N →
  iter = [] ∨ Forall (full N h) cs → children_ok h cs →
  let k := (N - length cs) * N ^ S h in
  ∃ cs', extend_fill N new_child fuel iter cs consumed
         = Some (drop k iter, cs', consumed + Nat.min (length iter) k) ∧
         flatten (Interior cs') = flatten (Interior cs) ++ take k iter ∧
         children_ok h cs'.
Proof.
  intros Hnew. pose proof (capacity_ne_0 N (S h)) as Hcap.
  revert iter cs consumed.
  induction fuel as [|fuel IH]; intros items cs consumed Hf Hlen Hiter Hok k;
    (destruct (decide (items = [])) as [->|Hitems];
      [exists cs; rewrite extend_fill_nil, drop_nil, take_nil, app_nil_r, Nat.add_0_r; done|]);
    (destruct Hiter as [|Hall]; [done|]); rewrite extend_fill_nonempty by done;
    (destruct (length cs =? N) eqn:Hfull; breflect;
     [exists cs; assert (k = 0) as -> by (unfold k; rewrite Hfull; lia);
      rewrite drop_0, take_0, app_nil_r, Nat.min_0_r, Nat.add_0_r; done|]); [lia|].
  destruct (Hnew items ltac:(done)) as (c & Hc & Hpc & Hfl). rewrite Hc. simpl.
  rewrite chunk_push_back_ok by lia. simpl.
  assert (flatten c ≠ []) as Hne.
  { rewrite Hfl. apply non_nil_length. rewrite length_take. apply non_nil_length in Hitems. lia. }
  destruct (IH (drop (N ^ S h) items) (cs ++ [c])
               (consumed + Nat.min (length items) (N ^ S h))) as (cs' & Heq & Hfl' & Hok');
    [rewrite length_app; simpl; lia..| | |].
  - destruct (decide (length items ≤ N ^ S h)) as [Hle|Hgt].
    + left. by apply drop_ge.
    + right. apply Forall_app_2; [done|]. constructor; [|done].
      apply (packed_full N); [done|]. rewrite Hfl, length_take. lia.
  - apply children_ok_snoc; [lia|done..].
  - rewrite length_app in Heq, Hfl'. simpl length in Heq, Hfl'.
    assert (k = N ^ S h + (N - (length cs + 1)) * N ^ S h) as Hk by (unfold k; nia).
    clearbody k. set (m := (N - (length cs + 1)) * N ^ S h) in *. clearbody m.
    rewrite drop_drop, <- Hk in Heq. exists cs'. split_and!; [|simpl flatten in Hfl' |- *; rewrite Hfl'|done].
    + rewrite Heq. do 2 f_equal. rewrite length_drop. lia.
    + rewrite concat_map_snoc, Hfl, <- app_assoc. f_equal.
      by rewrite Hk, take_take_drop.
Qed.

Lemma extend_new_leaf_ok : new_child_ok 0 (extend_new_leaf N).
Proof.
  intros iter Hne. rewrite Nat.pow_1_r. exists (Leaf (take N iter)).
  unfold extend_new_leaf. rewrite chunk_extend_ok by (simpl; rewrite length_take; lia).
  simpl. rewrite length_take, Nat.min_comm. split_and!; [done| |done].
  constructor. rewrite length_take. lia.
Qed.

(** Filling up the last child, then adding children. *)
Lemma extend_top_up h new_child iter cs c c' k1 :
  new_child_ok h new_child →
  length cs < N → Forall (full N h) cs → packed N h c → flatten c ≠ [] →
  packed N h c' → k1 = N ^ S h - length (flatten c) →
  flatten c' = flatten c ++ take k1 iter →
  let k := N ^ S (S h) - length (flatten (Interior (cs ++ [c]))) in
  ∃ cs', extend_fill N new_child N (drop k1 iter) (cs ++ [c']) (Nat.min (length iter) k1)
         = Some (drop k iter, cs', Nat.min (length iter) k) ∧
         flatten (Interior cs') = flatten (Interior (cs ++ [c])) ++ take k iter ∧
         children_ok h cs'.
Proof.
  intros Hnew Hlt Hall Hc Hne Hc' Hk1 Hfl k.
  pose proof (packed_length _ _ _ Hc) as Hlen. pose proof (capacity_ne_0 N (S h)) as Hcap.
  assert (k = k1 + (N - (length cs + 1)) * N ^ S h) as Hk.
  { unfold k. rewrite (interior_length N h) by done.
    rewrite (Nat.pow_succ_r' N (S h)). nia. }
  clearbody k.
  destruct (extend_fill_ok h new_child N (drop k1 iter) (cs ++ [c'])
              (Nat.min (length iter) k1)) as (cs' & Heq & Hfl' & Hok');
    [done|lia|rewrite length_app; simpl; lia| | |].
  - destruct (decide (length iter ≤ k1)); [left; by apply drop_ge|right].
    apply Forall_app_2; [done|]. constructor; [|done]. apply (packed_full N); [done|].
    rewrite Hfl, length_app, length_take. lia.
  - apply children_ok_snoc; [done..|]. rewrite Hfl. by destruct (flatten c).
  - rewrite length_app in Heq, Hfl'. simpl length in Heq, Hfl'.
    set (m := (N - (length cs + 1)) * N ^ S h) in *. clearbody m.
    exists cs'. split_and!; [|simpl flatten in Hfl' |- *; rewrite Hfl'|done].
    + rewrite Heq, drop_drop, <- Hk. do 2 f_equal. rewrite length_drop. lia.
    + rewrite !concat_map_snoc, Hfl, <- !app_assoc. do 2 f_equal.
      by rewrite Hk, take_take_drop.
Qed.

Lemma extend_fill_empty h new_child iter :
  new_child_ok h new_child →
  let k := N ^ S (S h) - length (flatten (T := T) (Interior [])) in
  ∃ cs', extend_fill N new_child N iter [] 0
         = Some (drop k iter, cs', Nat.min (length iter) k) ∧
         flatten (Interior cs') = flatten (Interior []) ++ take k iter ∧
         children_ok h cs'.
Proof.
  intros Hnew k. destruct (extend_fill_ok h new_child N iter [] 0) as (cs' & H1 & H2 & H3);
    [done|simpl; lia..|right; constructor|by left|].
  simpl length in H1, H2. rewrite Nat.sub_0_r, <- Nat.pow_succ_r' in H1, H2.
  exists cs'. unfold k. simpl length. by rewrite Nat.sub_0_r.
Qed.

Definition extend_rec_spec (h : nat) : Prop :=
  ∀ iter cs, children_ok h cs →
  let k := N ^ S (S h) - length (flatten (Interior cs)) in
  ∃ cs', extend_rec N (S h) iter cs = Some (drop k iter, cs', Nat.min (length iter) k) ∧
         flatten (Interior cs') = flatten (Interior cs) ++ take k iter ∧
         children_ok h cs'.

(** The new child of a higher level, built by a recursive call. *)
Lemma extend_rec_new_child h :
  extend_rec_spec h →
  new_child_ok (S h) (λ iter, '(iter, new_child, k) ← extend_rec N (S h) iter [];
                              Some (iter, Interior new_child, k)).
Proof.
  intros Hspec iter Hne. destruct (Hspec iter []) as (cs' & -> & Hfl & Hok); [by left|].
  simpl flatten in *. simpl length. rewrite Nat.sub_0_r in *. simpl.
  exists (Interior cs'). split_and!; [done| |done]. apply children_ok_nonempty; [done|].
  simpl flatten. rewrite Hfl. apply non_nil_length. apply non_nil_length in Hne.
  rewrite length_app, length_take. simpl. pose proof (capacity_ne_0 N (S (S h))). lia.
Qed.

Lemma extend_rec_ok h : extend_rec_spec h.
Proof.
  induction h as [|h IH]; intros iter cs [->|Hp] k.
  - (* no leaf yet *)
    apply extend_fill_empty, extend_new_leaf_ok.
  - (* leaves: fill the last one first *)
    apply packed_interior_inv in Hp as (cs' & c & -> & Hlt & Hall & Hc & Hne).
    inversion Hc as [data Hd|]; subst. simpl extend_rec. rewrite last_snoc.
    rewrite chunk_extend_ok by (rewrite length_take; lia). simpl.
    rewrite insert_snoc by (rewrite length_app; simpl; lia).
    replace (length (data ++ take (N - length data) iter) - length data)
      with (Nat.min (length iter) (N - length data))
      by (rewrite length_app, length_take; lia).
    apply (extend_top_up 0 (extend_new_leaf N) iter cs' (Leaf data)
             (Leaf (data ++ take (N - length data) iter)) (N - length data));
      try done; [apply extend_new_leaf_ok| |by rewrite Nat.pow_1_r].
    constructor. rewrite length_app, length_take. lia.
  - (* no child yet *)
    apply extend_fill_empty, extend_rec_new_child, IH.
  - (* interior nodes: extend the last one first *)
    apply packed_interior_inv in Hp as (cs' & c & -> & Hlt & Hall & Hc & Hne).
    inversion Hc as [|? ds d Hds Hdall Hd Hdne]; subst.
    assert (extend_rec N (S (S h)) iter (cs' ++ [Interior (ds ++ [d])]) =
      '(iter, ds', k) ← extend_rec N (S h) iter (ds ++ [d]);
      extend_fill N (λ iter, '(iter, new_child, k) ← extend_rec N (S h) iter [];
                             Some (iter, Interior new_child, k)) N iter
        (cs' ++ [Interior ds']) k) as ->.
    { cbn [extend_rec]. rewrite last_snoc.
      destruct (extend_rec N (S h) iter (ds ++ [d])) as [[[? ?] ?]|] eqn:Heq;
        cbn [extend_rec] in Heq; rewrite Heq; [|done]. simpl.
      rewrite insert_snoc by (rewrite length_app; simpl; lia). done. }
    destruct (IH iter (ds ++ [d])) as (ds' & -> & Hfl & Hok);
      [by apply children_ok_snoc|]. simpl mbind.
    apply (extend_top_up (S h) _ iter cs' (Interior (ds ++ [d])) (Interior ds'));
      try done; [by apply extend_rec_new_child|].
    apply children_ok_nonempty; [done|]. rewrite Hfl.
    by destruct (flatten (Interior (ds ++ [d]))).
Qed.

(** The state at the head of the outer loop of [extend]: [add_level] may have
    left the root with a single child. *)
Definition extendable v : Prop :=
  ∃ r, root v = Some r ∧ packed N (height v) r ∧ len v = length (flatten r) ∧
       (0 < height v → N ^ height v ≤ length (flatten r)).

Definition extend_room v : nat := N ^ S (height v) - len v.

Lemma extendable_ok v : vec_ok N v → root v ≠ None → extendable v.
Proof.
  destruct v as [[r|] l h]; [|done]. intros [[Hp Hh] Hl]%vec_ok_root _.
  exists r. split_and!; try done. simpl. lia.
Qed.

Lemma room_extendable v : has_room v → extendable v ∧ 0 < extend_room v.
Proof.
  intros (r & Hr & Hp & Hne & Hlow & Hl & Hroom). split; [by exists r|].
  unfold extend_room. lia.
Qed.

(** One turn of the outer loop, before the level is added. *)
Lemma extend_root_ok r h iter :
  packed N h r → (0 < h → flatten r ≠ []) →
  let k := N ^ S h - length (flatten r) in
  ∃ r', extend_root N h r iter
        = Some (drop k iter, r', Nat.min (length iter) k) ∧
        packed N h r' ∧ flatten r' = flatten r ++ take k iter.
Proof.
  intros Hp Hne k. unfold extend_root. destruct h as [|h]; inversion Hp as [data Hd|? cs c Hlt Hall Hc Hcne]; subst.
  - unfold k. rewrite Nat.pow_1_r. simpl flatten.
    rewrite chunk_extend_ok by (rewrite length_take; lia). cbv zeta. simpl mbind.
    exists (Leaf (data ++ take (N - length data) iter)). split_and!; [|constructor|done].
    + do 2 f_equal. rewrite length_app, length_take. lia.
    + rewrite length_app, length_take. lia.
  - destruct (extend_rec_ok h iter (cs ++ [c])) as (cs' & -> & Hfl & Hok); [by right|].
    simpl mbind. exists (Interior cs'). split_and!; [done| |done].
    apply children_ok_nonempty; [done|]. rewrite Hfl. specialize (Hne ltac:(lia)).
    by destruct (flatten (Interior (cs ++ [c]))).
Qed.

Lemma extend_step_ok v iter :
  extendable v → iter ≠ [] →
  ∃ v', extend_step N iter v = Some (drop (extend_room v) iter, v') ∧
        to_list v' = to_list v ++ take (extend_room v) iter ∧
        (if decide (drop (extend_room v) iter = []) then vec_ok N v'
         else extendable v' ∧ 0 < extend_room v').
Proof.
  intros (r & Hr & Hp & Hl & Hlow) Hne.
  destruct v as [[?|] l h]; simplify_eq/=. unfold extend_room. simpl.
  set (k := N ^ S h - length (flatten r)) in *.
  destruct (extend_root_ok r h iter Hp) as (r' & Heq & Hp' & Hfl).
  { intros Hh. apply non_nil_length. specialize (Hlow Hh).
    pose proof (capacity_ne_0 N h). lia. }
  fold k in Heq, Hfl. unfold extend_step. simpl root. simpl height. simpl len.
  simpl mbind at 1. rewrite Heq. simpl mbind.
  pose proof (packed_length _ _ _ Hp) as Hcap. pose proof (packed_length _ _ _ Hp') as Hcap'.
  assert (length (flatten r') = length (flatten r) + Nat.min (length iter) k) as Hlen'
    by (rewrite Hfl, length_app, length_take; lia).
  set (w := mkVector (Some r') (length (flatten r) + Nat.min (length iter) k) h).
  assert (vec_ok N w) as Hw.
  { apply vec_ok_root. split; [|done]. split; [done|]. intros Hh. specialize (Hlow Hh).
    rewrite Hlen'. apply non_nil_length in Hne.
    assert (h = 0 ∨ N ^ h < N ^ S h) as [|Hhh]; [|lia|].
    { right. pose proof (branching_ge_2 N). rewrite Nat.pow_succ_r'.
      pose proof (capacity_ne_0 N h). nia. }
    unfold k in *. lia. }
  assert (to_list w = flatten r ++ take k iter) as Hlist by done.
  destruct (decide (drop k iter = [])) as [Hnil|Hrest].
  - exists w. rewrite Hnil. simpl. split_and!; done.
  - destruct (add_level_room w Hw) as (w' & Hadd & Hroom & Hlist' & _).
    { right. simpl. apply non_nil_length in Hrest. rewrite length_drop in Hrest.
      unfold k in *. lia. }
    exists w'. destruct (drop k iter) eqn:Hd; [done|]. simpl. rewrite Hadd. simpl.
    split_and!; [done| |apply room_extendable, Hroom..]. by rewrite Hlist', Hlist.
Qed.

Lemma extend_loop_ok fuel iter v :
  extendable v → (iter = [] → vec_ok N v) →
  length iter + (if decide (extend_room v = 0) then 1 else 0) ≤ fuel →
  ∃ v', extend_loop N fuel iter v = Some v' ∧ vec_ok N v' ∧
        to_list v' = to_list v ++ iter.
Proof.
  revert iter v. induction fuel as [|fuel IH]; intros iter v Hv Hnil Hfuel.
  - destruct iter; [|simpl in Hfuel; lia]. exists v. rewrite app_nil_r. eauto.
  - destruct (decide (iter = [])) as [->|Hne];
      [exists v; rewrite app_nil_r; simpl; eauto|].
    destruct (extend_step_ok v iter Hv Hne) as (w & Hstep & Hlist & Hw).
    assert (extend_loop N (S fuel) iter v
            = extend_loop N fuel (drop (extend_room v) iter) w) as ->.
    { simpl. rewrite Hstep. by destruct iter. }
    destruct (decide (drop (extend_room v) iter = [])) as [Hd|Hd].
    + rewrite Hd. exists w. split_and!; [by destruct fuel|done|].
      rewrite Hlist. f_equal. apply take_ge. by apply drop_nil_inv in Hd.
    + destruct Hw as [Hw Hroom].
      destruct (IH (drop (extend_room v) iter) w Hw) as (v' & Hv' & Hok & Hl'); [done| |].
      * apply non_nil_length in Hd. rewrite length_drop in *.
        case_decide; case_decide; lia.
      * exists v'. split_and!; [done..|]. by rewrite Hl', Hlist, <- app_assoc, take_drop.
Qed.

Lemma vec_extend_ok v items :
  vec_ok N v →
  ∃ v', vec_extend N v items = Some v' ∧ vec_ok N v' ∧ to_list v' = to_list v ++ items.
Proof.
  intros Hv. unfold vec_extend.
  destruct (decide (items = [])) as [->|Hne].
  { exists v. simpl. by rewrite app_nil_r. }
  set (w := match items, root v with
            | _ :: _, None => mkVector (Some (Leaf [])) (len v) (height v)
            | _, _ => v
            end).
  assert (extendable w ∧ to_list w = to_list v) as [Hw Hlist].
  { destruct items; [done|]. subst w. destruct (root v) eqn:Hr.
    - split; [|done]. apply extendable_ok; congruence.
    - destruct v as [? l h]. simpl in Hr. subst. destruct Hv as [Hl Hh].
      simpl in Hl, Hh. subst. split; [|done]. exists (Leaf []). simpl.
      split_and!; [done|constructor; simpl; lia|done|lia]. }
  rewrite <- Hlist. apply extend_loop_ok; [done|done|]. case_decide; lia.
Qed.

Lemma vec_from_iter_ok items :
  ∃ v, vec_from_iter N items = Some v ∧ vec_ok N v ∧ to_list v = items.
Proof. apply (vec_extend_ok vec_new items vec_ok_new). Qed.

End vectors.
