(* ===== verification/VectorIter.v ===== *)
(** * The iterators of the persistent vector

    [Iter], [IterMut] and [IntoIter] walk the tree with the same algorithm (the
    source says so and shares no code for speed). The model has the borrowed
    iterator, and the places where the owned one differs (it drops chunk
    prefixes instead of slicing). An iterator denotes the list [iter_seq] of the
    items it still has to produce. *)
From S2P Require Import Prelude Vector VectorFacts VectorSpec.

(** ** Definitions *)

Section iterators.
Context {T : Type} (N : nat) `{ChunkOps N}.

(** The [loop] of [next]: the next node of the top-most iterator that has one,
    popping the exhausted ones. *)
Fixpoint pop_exhausted (stack : list (list (Node T)))
    : option (Node T * list (list (Node T))) :=
  match stack with
  | [] => None
  | iter :: stack' =>
      match iter with
      | next :: iter' => Some (next, iter' :: stack')
      | [] => pop_exhausted stack'
      end
  end.

(** The loop [for _ in cur_len..height] of [next]. *)
Fixpoint descend (k : nat) (next : Node T) (stack : list (list (Node T)))
    : option (Node T * list (list (Node T))) :=
  match k with
  | 0 => Some (next, stack)
  | S k' =>
      match next with
      | Interior (child :: children_iter) => descend k' child (children_iter :: stack)
      | _ => None
      end
  end.

Definition iter_next (it : Iter T) : option (option T * Iter T) :=
  match leaf it with
  | ret :: leaf' => Some (Some ret, mkIter (stack it) leaf')
  | [] =>
      let height := length (stack it) in
      match pop_exhausted (stack it) with
      | None => Some (None, mkIter [] [])
      | Some (next, stack) =>
          let cur_len := length stack in
          '(next, stack) ← descend (height - cur_len) next stack;
          match next with
          | Leaf (ret :: leaf') => Some (Some ret, mkIter stack leaf')
          | _ => None
          end
      end
  end.

(** [IntoIter::next]: the chunks are moved out of the [Rc]s, which is not
    observable. *)
Definition into_iter_next (it : Iter T) : option (option T * Iter T) := iter_next it.

(** [Iterator::take(n)], collected. *)
Fixpoint iter_take (n : nat) (it : Iter T) : option (list T) :=
  match n with
  | 0 => Some []
  | S n' =>
      '(o, it) ← iter_next it;
      match o with
      | None => Some []
      | Some x => l ← iter_take n' it; Some (x :: l)
      end
  end.

(** The loop of [into_iter]. *)
Fixpoint iter_descend (node : Node T) (stack : list (list (Node T))) : option (Iter T) :=
  match node with
  | Leaf data => Some (mkIter stack data)
  | Interior children =>
      match children with
      | [] => None
      | node :: node_iter => iter_descend node (node_iter :: stack)
      end
  end.

Definition vec_iter (v : Vector T) : option (Iter T) :=
  match root v with
  | None => Some (mkIter [] [])
  | Some node => iter_descend node []
  end.

(** The loop of [iter_starting_at]. *)
Fixpoint start_descend (height : nat) (node : Node T) (idx : nat)
    (stack : list (list (Node T))) : option (Iter T) :=
  match node with
  | Leaf data =>
      let j := Nat.land idx (N - 1) in
      if j <=? length data then Some (mkIter stack (drop j data)) else None
  | Interior children =>
      let bucket_idx := extract_index N idx height in
      if negb (bucket_idx <=? length children) then None else
      match drop bucket_idx children, height with
      | node :: node_iter, S height' => start_descend height' node idx (node_iter :: stack)
      | _, _ => None
      end
  end.

Definition iter_starting_at (v : Vector T) (idx : nat) : option (Iter T) :=
  if idx =? len v then Some (mkIter [] []) else
  if len v <? idx then None else
  node ← root v;
  start_descend (height v) node idx [].

(** The loop of [into_iter_starting_at], which shortens the chunks. *)
Fixpoint into_start_descend (height : nat) (node : Node T) (idx : nat)
    (stack : list (list (Node T))) : option (Iter T) :=
  match node with
  | Leaf data =>
      data ← chunk_drop_left data (Nat.land idx (N - 1));
      Some (mkIter stack data)
  | Interior children =>
      let bucket_idx := extract_index N idx height in
      children ← chunk_drop_left children bucket_idx;
      match children, height with
      | node :: node_iter, S height' =>
          into_start_descend height' node idx (node_iter :: stack)
      | _, _ => None
      end
  end.

Definition into_iter_starting_at (v : Vector T) (idx : nat) : option (Iter T) :=
  if idx =? len v then Some (mkIter [] []) else
  if len v <? idx then None else
  node ← root v;
  into_start_descend (height v) node idx [].

End iterators.

(** ** Specification *)

(** The items of the nodes still on the stack, top first. *)
Definition stack_seq {T} (st : list (list (Node T))) : list T :=
  concat (map (λ level, concat (map flatten level)) st).

Definition iter_seq {T} (it : Iter T) : list T := leaf it ++ stack_seq (stack it).

Section spec.
Context {T : Type} (N : nat) `{HN : !ValidBranchingConstant N} `{HL : ChunkLaws N}.
Implicit Types (n c : Node T) (st : list (list (Node T))).

Definition good (h : nat) (n : Node T) : Prop := packed N h n ∧ flatten n ≠ [].

(** The [i]-th iterator from the top is over nodes of height [h + i]. *)
Fixpoint stack_ok (h : nat) (st : list (list (Node T))) : Prop :=
  match st with
  | [] => True
  | level :: st' => Forall (good h) level ∧ stack_ok (S h) st'
  end.

Definition iter_ok (it : Iter T) : Prop := stack_ok 0 (stack it).

Lemma good_children h n :
  good (S h) n → ∃ c cs, n = Interior (c :: cs) ∧ good h c ∧ Forall (good h) cs.
Proof.
  intros [Hp _]. inversion Hp as [|? cs c Hlt Hall Hc Hne]; subst.
  assert (Forall (good h) (cs ++ [c])) as Hgood.
  { apply Forall_app_2; [|by repeat constructor].
    eapply Forall_impl; [done|]. intros d Hd.
    split; [by apply full_packed|by eapply full_flatten_nonempty]. }
  destruct (cs ++ [c]) as [|d ds] eqn:Hds; [by apply app_nil in Hds as [_ ?]|].
  apply Forall_cons in Hgood as [? ?]. by exists d, ds.
Qed.

Lemma pop_exhausted_ok h st :
  stack_ok h st →
  match pop_exhausted st with
  | None => stack_seq st = []
  | Some (n, st') =>
      ∃ k, length st = k + length st' ∧ good (h + k) n ∧ stack_ok (h + k) st' ∧
           stack_seq st = flatten n ++ stack_seq st'
  end.
Proof.
  revert h. induction st as [|level st IH]; intros h; simpl; [done|].
  intros [Hl Hst]. destruct level as [|n level]; simpl.
  - specialize (IH (S h) Hst). destruct (pop_exhausted st) as [[n st']|].
    + destruct IH as (k & Hlen & Hn & Hok & Hseq). exists (S k).
      rewrite <- plus_n_Sm. split_and!; [simpl; lia|done..].
    + done.
  - apply Forall_cons in Hl as [Hn Hl]. exists 0. rewrite Nat.add_0_r.
    split_and!; [done..|]. unfold stack_seq. simpl. by rewrite <- app_assoc.
Qed.

Lemma descend_ok k n st :
  good k n → stack_ok k st →
  ∃ x l st', descend k n st = Some (Leaf (x :: l), st') ∧ stack_ok 0 st' ∧
             flatten n ++ stack_seq st = x :: l ++ stack_seq st'.
Proof.
  revert n st. induction k as [|k IH]; intros n st Hn Hst.
  - destruct Hn as [Hp Hne]. inversion Hp as [data|]; subst.
    destruct data as [|x l]; [done|]. by exists x, l, st.
  - destruct (good_children k n Hn) as (c & cs & -> & Hc & Hcs).
    destruct (IH c (cs :: st) Hc) as (x & l & st' & Hd & Hok & Hseq); [done|].
    exists x, l, st'. split_and!; [done..|]. rewrite <- Hseq.
    unfold stack_seq. simpl. by rewrite <- app_assoc.
Qed.

(** [next] produces the items in order, and [None] at the end. *)
Lemma iter_next_ok it :
  iter_ok it →
  ∃ it', iter_next it = Some (head (iter_seq it), it') ∧ iter_ok it' ∧
         iter_seq it' = tail (iter_seq it).
Proof.
  destruct it as [st [|x l]]; unfold iter_ok, iter_next, iter_seq; simpl; intros Hst.
  - pose proof (pop_exhausted_ok 0 st Hst) as Hpop.
    destruct (pop_exhausted st) as [[n st']|]; [|by rewrite Hpop; eexists].
    destruct Hpop as (k & Hlen & Hn & Hok & Hseq).
    destruct (descend_ok k n st' Hn Hok) as (x & l & st'' & Hd & Hok' & Hseq').
    replace (length st - length st') with k by lia. rewrite Hd. simpl.
    rewrite Hseq, Hseq'. by eexists.
  - by eexists.
Qed.

Lemma iter_take_ok (n : nat) it : iter_ok it → iter_take n it = Some (take n (iter_seq it)).
Proof.
  revert it. induction n as [|n IH]; intros it Hit; simpl; [by destruct (iter_seq it)|].
  destruct (iter_next_ok it Hit) as (it' & -> & Hok & Hseq). simpl.
  destruct (iter_seq it) as [|x l]; [done|]. simpl in *. by rewrite IH, Hseq.
Qed.

Lemma iter_descend_ok h n st :
  good h n → stack_ok h st →
  ∃ it, iter_descend n st = Some it ∧ iter_ok it ∧ iter_seq it = flatten n ++ stack_seq st.
Proof.
  revert n st. induction h as [|h IH]; intros n st Hn Hst.
  - destruct Hn as [Hp _]. inversion Hp; subst. by eexists.
  - destruct (good_children h n Hn) as (c & cs & -> & Hc & Hcs). simpl.
    destruct (IH c (cs :: st) Hc) as (it & -> & Hok & Hseq); [done|].
    exists it. split_and!; [done..|]. rewrite Hseq. unfold stack_seq. simpl.
    by rewrite <- app_assoc.
Qed.

Lemma vec_iter_ok (v : Vector T) :
  vec_ok N v → ∃ it, vec_iter v = Some it ∧ iter_ok it ∧ iter_seq it = to_list v.
Proof.
  intros Hv. unfold vec_iter, to_list. destruct v as [[r|] l h]; simpl; [|by eexists].
  apply (vec_ok_root N) in Hv as [[Hp Hh] _]. destruct h as [|h].
  - inversion Hp as [data|]; subst. eexists; split_and!; [done..|].
    unfold iter_seq, stack_seq. simpl. by rewrite app_nil_r.
  - destruct (iter_descend_ok (S h) r []) as (it & Hit & Hok & Hseq); [|done|].
    + split; [done|]. apply non_nil_length. lia.
    + exists it. split_and!; [done..|]. by rewrite Hseq, app_nil_r.
Qed.

(** The items from an index on: those of its bucket, then the later buckets. *)
Lemma drop_interior h cs c q r n :
  Forall (full N h) cs → packed N h c → (cs ++ [c]) !! q = Some n →
  r ≤ length (flatten n) →
  drop (N ^ S h * q + r) (flatten (Interior (cs ++ [c])))
  = drop r (flatten n) ++ concat (map flatten (drop (S q) (cs ++ [c]))).
Proof.
  intros Hcs Hc Hq Hr. pose proof (lookup_lt_Some _ _ _ Hq) as Hlt.
  rewrite length_app in Hlt. simpl in Hlt. simpl flatten.
  rewrite <- (take_drop_middle _ _ _ Hq) at 1. rewrite map_app, concat_app.
  assert (length (concat (map flatten (take q (cs ++ [c])))) = N ^ S h * q) as <-.
  { rewrite take_app_le by lia.
    rewrite (length_concat_uniform (N ^ S h)), length_map, length_take by
      (by apply full_children_lengths, Forall_take). nia. }
  rewrite drop_app_add. simpl. by rewrite drop_app_le.
Qed.

Lemma start_children h cs c q :
  packed N (S h) (Interior (cs ++ [c])) → (length cs < N) → Forall (full N h) cs →
  packed N h c → flatten c ≠ [] →
  Forall (good h) (drop q (cs ++ [c])).
Proof.
  intros Hp Hlt Hall Hc Hne. apply Forall_drop, Forall_app_2; [|by repeat constructor].
  eapply Forall_impl; [done|]. intros d Hd.
  split; [by apply full_packed|by eapply full_flatten_nonempty].
Qed.

Lemma start_descend_ok h n idx st :
  packed N h n → idx mod N ^ S h < length (flatten n) → stack_ok h st →
  ∃ it, start_descend N h n idx st = Some it ∧ into_start_descend N h n idx st = Some it ∧
        iter_ok it ∧
        iter_seq it = drop (idx mod N ^ S h) (flatten n) ++ stack_seq st.
Proof.
  revert n st. induction h as [|h IH]; intros n st Hn Hidx Hst;
    inversion Hn as [data Hd|? cs c Hlt Hall Hc Hne]; subst.
  - simpl in *. rewrite Nat.pow_1_r in *. rewrite (land_mask N).
    rewrite (proj2 (Nat.leb_le _ _)), chunk_drop_left_ok by lia. simpl.
    eexists; split_and!; done.
  - rewrite (index_split N idx (S h)) in Hidx |- *.
    set (q := extract_index N idx (S h)) in *. set (r := idx mod N ^ S h) in *.
    assert (r < N ^ S h) as Hr by apply Nat.mod_upper_bound, (capacity_ne_0 N).
    apply lookup_lt_is_Some_2 in Hidx as [y Hy]. rewrite lookup_interior in Hy by done.
    destruct ((cs ++ [c]) !! q) as [n|] eqn:Hq; [|done]. simpl in Hy.
    pose proof (packed_child N h cs c q n ltac:(done) ltac:(done) Hq) as Hpn.
    pose proof (lookup_lt_Some _ _ _ Hy) as Hrn. pose proof (lookup_lt_Some _ _ _ Hq).
    destruct (IH n (drop (S q) (cs ++ [c]) :: st) Hpn Hrn) as (it & H1 & H2 & Hok & Hseq).
    { split; [|done]. by apply start_children. }
    exists it. simpl start_descend. simpl into_start_descend. fold q.
    rewrite (proj2 (Nat.leb_le _ _)), chunk_drop_left_ok by lia. simpl.
    rewrite (drop_S _ _ _ Hq). split_and!; [done..|].
    pose proof (drop_interior h cs c q r n) as Hdrop. simpl flatten in Hdrop.
    rewrite Hseq, Hdrop by (done || lia). unfold stack_seq. simpl. by rewrite <- app_assoc.
Qed.

Lemma iter_starting_at_ok (v : Vector T) idx :
  vec_ok N v → idx ≤ len v →
  ∃ it, iter_starting_at N v idx = Some it ∧ into_iter_starting_at N v idx = Some it ∧
        iter_ok it ∧ iter_seq it = drop idx (to_list v).
Proof.
  intros Hv Hidx. pose proof (vec_ok_capacity N v Hv) as Hcap.
  pose proof (vec_ok_len N v Hv) as Hlen.
  unfold iter_starting_at, into_iter_starting_at.
  destruct (idx =? len v) eqn:Heq; breflect.
  - eexists; split_and!; [done..|]. rewrite drop_ge; [done|lia].
  - rewrite (proj2 (Nat.ltb_ge _ _)) by lia.
    destruct v as [[r|] l h]; [|destruct Hv; simpl in *; lia].
    apply (vec_ok_root N) in Hv as [[Hp _] Hl]. simpl in *.
    assert (idx mod N ^ S h = idx) as Hmod by (apply Nat.mod_small; lia).
    destruct (start_descend_ok h r idx []) as (it & -> & -> & Hok & Hseq);
      [done|lia|done|].
    exists it. split_and!; [done..|]. by rewrite Hseq, Hmod, app_nil_r.
Qed.

End spec.
