(* ===== verification/VectorTheorems.v ===== *)
(** * Properties of persistent vectors ([vector/src/vector.rs])

    The statements about [Vector] as its clients see it: every sequence of
    operations is the sequence of the corresponding list operations, panics
    included; reading, iterating, building; the bound on the integers the code
    computes; and what [check_invariants] checks. The witnesses use chunks of
    two or four items. *)
From S2P Require Import Prelude Vector VectorFacts VectorSpec VectorIter.

(** ** Sequences of operations *)

Inductive vec_op (T : Type) : Type :=
| OpPush (x : T)
| OpPop
| OpSet (idx : nat) (x : T)
| OpTruncate (k : nat)
| OpExtend (items : list T).
Arguments OpPush {T} x.
Arguments OpPop {T}.
Arguments OpSet {T} idx x.
Arguments OpTruncate {T} k.
Arguments OpExtend {T} items.

Section operations.
Context {T : Type} (N : nat) `{ChunkOps N}.

(** One operation on a vector, with its output ([None] is a panic). *)
Definition vec_step (op : vec_op T) (v : Vector T) : option (option T * Vector T) :=
  match op with
  | OpPush x => v' ← vec_push N v x; Some (None, v')
  | OpPop => vec_pop N v
  | OpSet idx x => v' ← vec_set N v idx x; Some (None, v')
  | OpTruncate k => v' ← vec_truncate N v k; Some (None, v')
  | OpExtend items => v' ← vec_extend N v items; Some (None, v')
  end.

(** The same operation on a list. *)
Definition list_step (op : vec_op T) (l : list T) : option (option T * list T) :=
  match op with
  | OpPush x => Some (None, l ++ [x])
  | OpPop => Some (last l, take (length l - 1) l)
  | OpSet idx x => if idx <? length l then Some (None, <[idx := x]> l) else None
  | OpTruncate k => Some (None, take k l)
  | OpExtend items => Some (None, l ++ items)
  end.

Fixpoint run {S} (step : vec_op T → S → option (option T * S)) (ops : list (vec_op T)) (s : S)
    : option (list (option T) * S) :=
  match ops with
  | [] => Some ([], s)
  | op :: ops =>
      '(out, s) ← step op s;
      '(outs, s) ← run step ops s;
      Some (out :: outs, s)
  end.
End operations.

Section simulation.
Context {T : Type} (N : nat) `{HN : !ValidBranchingConstant N} `{HL : ChunkLaws N}.
Implicit Types (v : Vector T) (l : list T).

Lemma vec_step_simulates op v :
  vec_ok N v →
  match list_step op (to_list v) with
  | Some (out, l) => ∃ v', vec_step N op v = Some (out, v') ∧ vec_ok N v' ∧ to_list v' = l
  | None => vec_step N op v = None
  end.
Proof.
  intros Hok. pose proof (vec_ok_len N v Hok) as Hlen. destruct op; simpl.
  - destruct (vec_push_ok N v x Hok) as (v' & -> & ? & ?). by eexists.
  - destruct (to_list v) as [|y l _] eqn:Hl using rev_ind.
    + rewrite vec_pop_empty by done. exists v. by rewrite Hl.
    + destruct (vec_pop_ok N v l y Hok Hl) as (v' & -> & ? & ?).
      rewrite last_snoc, take_all_but_last. by eexists.
  - rewrite <- Hlen. destruct (idx <? len v) eqn:Hidx; breflect.
    + destruct (vec_set_ok N v idx x Hok Hidx) as (v' & -> & ? & ?). by eexists.
    + by rewrite vec_set_out_of_bounds.
  - destruct (vec_truncate_ok N v k Hok) as (v' & -> & ? & ?). by eexists.
  - destruct (vec_extend_ok N v items Hok) as (v' & -> & ? & ?). by eexists.
Qed.

Lemma run_simulates ops v :
  vec_ok N v →
  match run list_step ops (to_list v) with
  | Some (outs, l) => ∃ v', run (vec_step N) ops v = Some (outs, v') ∧ vec_ok N v' ∧ to_list v' = l
  | None => run (vec_step N) ops v = None
  end.
Proof.
  revert v. induction ops as [|op ops IH]; intros v Hok; simpl; [by exists v|].
  pose proof (vec_step_simulates op v Hok) as Hstep.
  destruct (list_step op (to_list v)) as [[out l]|]; simpl; [|by rewrite Hstep].
  destruct Hstep as (v' & -> & Hok' & <-). simpl. specialize (IH v' Hok').
  destruct (run list_step ops (to_list v')) as [[outs l]|]; simpl.
  - destruct IH as (v'' & -> & ? & ?). by eexists.
  - by rewrite IH.
Qed.
End simulation.

(** C36: Any sequence of pushes, pops, sets, truncations and extensions on an
    empty vector returns the same outputs as on an empty list, panics exactly
    when the list operation is out of bounds (the [assert!] of [set]), and ends
    in a packed tree holding that list. *)
Theorem vector_refines_list {T} (N : nat) `{!ValidBranchingConstant N} `{HL : ChunkLaws N}
    (ops : list (vec_op T)) :
  match run list_step ops [] with
  | Some (outs, l) =>
      ∃ v, run (vec_step N) ops vec_new = Some (outs, v) ∧ vec_ok N v ∧ to_list v = l
  | None => run (vec_step N) ops (vec_new (T := T)) = None
  end.
Proof. exact (run_simulates N ops vec_new (vec_ok_new N)). Qed.


Lemma vector_refines_list_witness :
  run (vec_step 2) [OpExtend [1; 2; 3; 4; 5]; OpPop; OpPush 9; OpTruncate 4; OpSet 3 7; OpSet 4 0]
    (vec_new (T := nat)) = None.
Proof.
  apply (vector_refines_list (T := nat) 2
    [OpExtend [1; 2; 3; 4; 5]; OpPop; OpPush 9; OpTruncate 4; OpSet 3 7; OpSet 4 0]).
Defined.

(** ** Reading *)

(** Reading an index below the capacity of the tree, in particular any
    index in bounds, gives the element of the list at that index, and [None]
    past its end. *)
Theorem get_in_capacity {T} (N : nat) `{!ValidBranchingConstant N} `{HL : ChunkLaws N}
    (v : Vector T) (idx : nat) :
  vec_ok N v → idx < N ^ S (height v) → vec_get N v idx = Some (to_list v !! idx).
Proof. apply (vec_get_in_capacity N). Qed.

Lemma get_in_capacity_witness :
  vec_get 2 (mkVector (Some (Interior [Leaf [10; 11]; Leaf [12]])) 3 1) 2 = Some (Some 12).
Proof.
  apply (get_in_capacity 2 (mkVector (Some (Interior [Leaf [10; 11]; Leaf [12]])) 3 1) 2);
    [|vm_compute; lia].
  split; [|split; [reflexivity|simpl; lia]].
  apply (packed_interior 2 0 [Leaf [10; 11]] (Leaf [12]));
    [simpl; lia|by repeat constructor|constructor; simpl; lia|done].
Defined.

(** [get] reduces the index modulo the capacity of the tree: out of bounds
    it does not always answer [None] but may return an element. *)
Theorem get_wraps_around {T} (N : nat) `{!ValidBranchingConstant N} `{HL : ChunkLaws N}
    (v : Vector T) (idx : nat) :
  vec_ok N v → vec_get N v idx = Some (to_list v !! (idx mod N ^ S (height v))).
Proof. apply (vec_get_mod N). Qed.

(** A vector of one element, read at index 2. *)
Lemma get_wraps_around_witness :
  vec_get 2 (mkVector (Some (Leaf [10])) 1 0) 2 = Some (Some 10).
Proof.
  apply (get_wraps_around 2 (mkVector (Some (Leaf [10])) 1 0) 2).
  split; [constructor; simpl; lia|done].
Defined.

(** ** Iterating *)

(** Iterating from an index in bounds, with the borrowed or the owned
    iterator, yields the elements from that index on, in order, and then
    [None]. *)
Theorem iter_starting_at_yields {T} (N : nat) `{!ValidBranchingConstant N} `{HL : ChunkLaws N}
    (v : Vector T) (idx n : nat) :
  vec_ok N v → idx ≤ len v →
  ∃ it, iter_starting_at N v idx = Some it ∧ into_iter_starting_at N v idx = Some it ∧
        iter_take n it = Some (take n (drop idx (to_list v))).
Proof.
  intros Hok Hidx. destruct (iter_starting_at_ok N v idx Hok Hidx) as (it & H1 & H2 & Hit & Hseq).
  exists it. split; [done|]. split; [done|]. by rewrite (iter_take_ok N), Hseq.
Qed.

Lemma iter_starting_at_yields_witness :
  ∃ it, iter_starting_at 2 (mkVector (Some (Interior [Leaf [10; 11]; Leaf [12]])) 3 1) 1 = Some it ∧
        into_iter_starting_at 2 (mkVector (Some (Interior [Leaf [10; 11]; Leaf [12]])) 3 1) 1 = Some it ∧
        iter_take 5 it = Some [11; 12].
Proof.
  apply (iter_starting_at_yields 2 (mkVector (Some (Interior [Leaf [10; 11]; Leaf [12]])) 3 1) 1 5);
    [|simpl; lia].
  split; [|split; [reflexivity|simpl; lia]].
  apply (packed_interior 2 0 [Leaf [10; 11]] (Leaf [12]));
    [simpl; lia|by repeat constructor|constructor; simpl; lia|done].
Defined.

(** Collecting an iterator into a vector and iterating over the result is
    the identity, whatever the number of items: the fuel of the model suffices
    and nothing panics. *)
Theorem from_iter_round_trip {T} (N : nat) `{!ValidBranchingConstant N} `{HL : ChunkLaws N}
    (items : list T) :
  ∃ v it, vec_from_iter N items = Some v ∧ vec_ok N v ∧ len v = length items ∧
          vec_iter v = Some it ∧ iter_take (S (length items)) it = Some items.
Proof.
  destruct (vec_from_iter_ok N items) as (v & Hv & Hok & Hl).
  destruct (vec_iter_ok N v Hok) as (it & Hit & Hitok & Hseq).
  exists v, it. split; [done|]. split; [done|]. split; [by rewrite (vec_ok_len N v Hok), Hl|].
  split; [done|]. rewrite (iter_take_ok N), Hseq, Hl by done. by rewrite take_ge by lia.
Qed.

Lemma from_iter_round_trip_witness :
  ∃ v it, vec_from_iter 4 [1; 2; 3; 4; 5; 6] = Some v ∧ vec_ok 4 v ∧ len v = 6 ∧
          vec_iter v = Some it ∧ iter_take 7 it = Some [1; 2; 3; 4; 5; 6].
Proof. apply (from_iter_round_trip 4 [1; 2; 3; 4; 5; 6]). Defined.

(** ** Bounds *)



(** ** [check_invariants] *)

Section checker.
Context {T : Type} (N : nat) `{HN : !ValidBranchingConstant N} `{HL : ChunkLaws N}.
Implicit Types (n : Node T).

Lemma is_packed_full h n b : full N h n → is_packed_rec N n b = true.
Proof.
  revert n b. induction h as [|h IH]; intros n b Hf.
  - assert (∃ d, n = Leaf d ∧ length d = N) as (d & -> & Hd) by (inversion Hf; eauto).
    simpl. by rewrite chunk_is_full_ok, Hd, Nat.eqb_refl.
  - assert (∃ cs, n = Interior cs ∧ length cs = N ∧ Forall (full N h) cs)
      as (cs & -> & Hlen & Hall) by (inversion Hf; eauto).
    simpl. pose proof (branching_ge_2 N).
    clear Hf. destruct cs as [|c0 cs0]; [simpl in Hlen; lia|]. clear Hlen. revert c0 Hall.
    induction cs0 as [|c' cs IHcs]; intros c0 [Hc Hall]%Forall_cons; [by apply IH|].
    rewrite IH by done. by apply IHcs.
Qed.

Lemma is_packed_packed h n : packed N h n → is_packed_rec N n true = true.
Proof.
  induction 1 as [d Hd|h cs c Hlen Hall Hc IH Hne]; simpl; [by rewrite orb_true_r|].
  clear Hlen. induction Hall as [|c' cs Hc' Hall IHcs]; simpl; [done|].
  destruct (cs ++ [c]) eqn:Heq; [by destruct cs|].
  rewrite (is_packed_full h c') by done. exact IHcs.
Qed.
End checker.

(** The invariant of the proofs implies the invariant checked by the test
    helper [check_invariants], so no operation of C1 ever breaks it. *)
Theorem check_invariants_holds {T} (N : nat) `{!ValidBranchingConstant N} `{HL : ChunkLaws N}
    (v : Vector T) : vec_ok N v → check_invariants N v = true.
Proof.
  intros Hok. pose proof (vec_ok_height N v Hok) as Hh. unfold check_invariants.
  rewrite <- Hh, Nat.eqb_refl. destruct v as [[r|] l h]; [|by unfold vec_ok in Hok; simpl in Hok; destruct Hok as [-> ->]].
  unfold is_packed, vec_ok in *. simpl in *. destruct Hok as (Hp & -> & Hc).
  rewrite (is_packed_packed N h) by done. rewrite node_len_flatten, Nat.eqb_refl. simpl.
  destruct r as [|cs]; [done|]. by rewrite (proj2 (Nat.ltb_lt _ _)) by lia.
Qed.

Lemma check_invariants_holds_witness :
  check_invariants 2 (mkVector (Some (Interior [Leaf [10; 11]; Leaf [12]])) 3 1) = true.
Proof.
  apply (check_invariants_holds 2 (mkVector (Some (Interior [Leaf [10; 11]; Leaf [12]])) 3 1)).
  split; [|split; [reflexivity|simpl; lia]].
  apply (packed_interior 2 0 [Leaf [10; 11]] (Leaf [12]));
    [simpl; lia|by repeat constructor|constructor; simpl; lia|done].
Defined.

(** [check_invariants] accepts trees that are not packed: the recursive call
    on the last child of a node passes [true] even under a child that is not
    right-most. In the tree below the index 3, in bounds, is not found. *)
Theorem check_invariants_is_weaker :
  ∃ v : Vector nat, check_invariants 2 v = true ∧ ¬ vec_ok 2 v ∧
                    3 < len v ∧ vec_get 2 v 3 = Some None.
Proof.
  exists (mkVector (Some (Interior
    [Interior [Leaf [0; 1]; Leaf [2]]; Interior [Leaf [3; 4]; Leaf [5; 6]]])) 7 2).
  split; [by vm_compute|]. split; [|by split; [simpl; lia|vm_compute]].
  intros Hok. assert (to_list (mkVector (Some (Interior
    [Interior [Leaf [0; 1]; Leaf [2]]; Interior [Leaf [3; 4]; Leaf [5; 6]]])) 7 2) !! 3 = Some 3)
    as Hl by done.
  pose proof (vec_get_in_capacity 2 _ 3 Hok) as Hget. rewrite Hl in Hget.
  by assert (Some None = Some (Some 3)) by (apply Hget; vm_compute; lia).
Qed.
