(* ===== verification/Slice.v ===== *)
(** * Slices of persistent vectors ([vector/src/slice.rs]), the arrays of Nickel

    A [Slice] is a window [start, end) on a vector. It is written against the
    interface [VectorOps] (what it calls of [Vector]) and its theorems against
    the contract [VectorContract]; [vector_ops] and [vector_contract] discharge
    both with the development of [Vector.v]. *)
From S2P Require Import Prelude Vector VectorFacts VectorSpec VectorIter.

(** ** The interface *)

(** The methods of [Vector<T, N>] that [Slice] calls; [None] is a panic. *)
Class VectorOps (T V : Type) := {
  v_default : V;
  v_len : V → nat;
  v_get : V → nat → option (option T);
  v_set : V → nat → T → option V;
  v_push : V → T → option V;
  v_pop : V → option (option T * V);
  v_truncate : V → nat → option V;
  v_extend : V → list T → option V;
  (** [iter_starting_at(i).take(n)], collected; the owned and the borrowed one. *)
  v_iter_take : V → nat → nat → option (list T);
  v_into_iter_take : V → nat → nat → option (list T);
}.

(** What [Slice] relies on: each method is its operation on lists. *)
Class VectorContract (T V : Type) `{VectorOps T V} := {
  v_ok : V → Prop;
  v_list : V → list T;
  v_default_ok : v_ok v_default ∧ v_list v_default = [];
  v_len_ok v : v_ok v → v_len v = length (v_list v);
  v_get_ok v i : v_ok v → i < v_len v → v_get v i = Some (v_list v !! i);
  v_set_ok v i x : v_ok v → i < v_len v →
    ∃ v', v_set v i x = Some v' ∧ v_ok v' ∧ v_list v' = <[i := x]> (v_list v);
  v_set_panics v i x : v_len v ≤ i → v_set v i x = None;
  v_push_ok v x : v_ok v →
    ∃ v', v_push v x = Some v' ∧ v_ok v' ∧ v_list v' = v_list v ++ [x];
  v_pop_ok v l x : v_ok v → v_list v = l ++ [x] →
    ∃ v', v_pop v = Some (Some x, v') ∧ v_ok v' ∧ v_list v' = l;
  v_truncate_ok v k : v_ok v →
    ∃ v', v_truncate v k = Some v' ∧ v_ok v' ∧ v_list v' = take k (v_list v);
  v_extend_ok v l : v_ok v →
    ∃ v', v_extend v l = Some v' ∧ v_ok v' ∧ v_list v' = v_list v ++ l;
  v_iter_take_ok v i n : v_ok v → i ≤ v_len v →
    v_iter_take v i n = Some (take n (drop i (v_list v)));
  v_into_iter_take_ok v i n : v_ok v → i ≤ v_len v →
    v_into_iter_take v i n = Some (take n (drop i (v_list v)));
}.

(** ** Definitions *)

Record Slice (V : Type) : Type := mkSlice {
  vec : V;
  start : nat;
  end_ : nat;
}.
Arguments mkSlice {V} vec start end_.
Arguments vec {V} s : rename.
Arguments start {V} s : rename.
Arguments end_ {V} s : rename.

(** [usize::checked_add] *)
Definition usize_checked_add (a b : nat) : option nat :=
  if (N.of_nat (a + b) <=? usize_max)%N then Some (a + b) else None.

Section slice.
Context {T V : Type} `{VectorOps T V}.

Definition slice_default : Slice V := mkSlice v_default 0 0.

Definition slice_len (s : Slice V) : nat := end_ s - start s.

Definition slice_is_empty (s : Slice V) : bool := end_ s =? start s.

Definition slice_get (s : Slice V) (idx : nat) : option (option T) :=
  match usize_checked_add (start s) idx with
  | Some i => v_get (vec s) i
  | None => Some None
  end.

Definition slice_index (s : Slice V) (index : nat) : option T :=
  mjoin (slice_get s index).

Definition slice_set (s : Slice V) (idx : nat) (elt : T) : option (Slice V) :=
  i ← usize_checked_add (start s) idx;
  vec' ← v_set (vec s) i elt;
  Some (mkSlice vec' (start s) (end_ s)).

Definition slice_push (s : Slice V) (elt : T) : option (Slice V) :=
  vec' ← v_truncate (vec s) (end_ s);
  vec'' ← v_push vec' elt;
  Some (mkSlice vec'' (start s) (end_ s + 1)).

Definition slice_pop (s : Slice V) : option (option T * Slice V) :=
  if slice_is_empty s then Some (None, s) else
  vec' ← v_truncate (vec s) (end_ s);
  let end' := end_ s - 1 in
  '(ret, vec'') ← v_pop vec';
  Some (ret, mkSlice vec'' (start s) end').

Definition slice_slice (s : Slice V) (from to : nat) : option (Slice V) :=
  if negb (from <=? to) then None else
  if negb (to <=? slice_len s) then None else
  Some (mkSlice (vec s) (start s + from) (start s + to)).

Definition slice_into_iter (s : Slice V) : option (list T) :=
  v_into_iter_take (vec s) (start s) (slice_len s).

Definition slice_iter (s : Slice V) : option (list T) :=
  v_iter_take (vec s) (start s) (slice_len s).

Definition slice_extend (s : Slice V) (iter : list T) : option (Slice V) :=
  vec' ← v_truncate (vec s) (end_ s);
  vec'' ← v_extend vec' iter;
  Some (mkSlice vec'' (start s) (v_len vec'')).

Definition slice_from_iter (iter : list T) : option (Slice V) :=
  vec' ← v_extend v_default iter;
  Some (mkSlice vec' 0 (v_len vec')).

End slice.

(** ** The implementation of the interface *)

#[export] Instance vector_ops {T} (N : nat) `{ChunkOps N} : VectorOps T (Vector T) := {|
  v_default := vec_new;
  v_len := vec_len;
  v_get := vec_get N;
  v_set := vec_set N;
  v_push := vec_push N;
  v_pop := vec_pop N;
  v_truncate := vec_truncate N;
  v_extend := vec_extend N;
  v_iter_take v i n := it ← iter_starting_at N v i; iter_take n it;
  v_into_iter_take v i n := it ← into_iter_starting_at N v i; iter_take n it;
|}.

#[export] Instance vector_contract {T} (N : nat)
    `{!ValidBranchingConstant N} `{HL : ChunkLaws N} :
  @VectorContract T (Vector T) (vector_ops N).
Proof.
  refine (Build_VectorContract T (Vector T) (vector_ops N) (vec_ok N) to_list
    _ _ _ _ _ _ _ _ _ _ _); simpl.
  - by split.
  - apply (vec_ok_len N).
  - intros v i Hv Hi. apply (vec_get_in_capacity N); [done|].
    pose proof (vec_ok_capacity N v Hv). unfold vec_len in Hi. lia.
  - intros. by apply (vec_set_ok N).
  - intros. by apply vec_set_out_of_bounds.
  - intros. by apply (vec_push_ok N).
  - intros. by apply (vec_pop_ok N).
  - intros. by apply (vec_truncate_ok N).
  - intros. by apply (vec_extend_ok N).
  - intros v i n Hv Hi.
    destruct (iter_starting_at_ok N v i Hv Hi) as (it & -> & _ & Hok & Hseq). simpl.
    by rewrite (iter_take_ok N), Hseq.
  - intros v i n Hv Hi.
    destruct (iter_starting_at_ok N v i Hv Hi) as (it & _ & -> & Hok & Hseq). simpl.
    by rewrite (iter_take_ok N), Hseq.
Defined.

(** ** Refinement *)

Section spec.
Context {T V : Type} `{HV : VectorContract T V}.
Implicit Types (s : Slice V) (x : T) (l : list T).

Definition slice_ok s : Prop :=
  v_ok (vec s) ∧ start s ≤ end_ s ∧ end_ s ≤ v_len (vec s).

Definition slice_list s : list T :=
  take (slice_len s) (drop (start s) (v_list (vec s))).

Lemma slice_length s : slice_ok s → length (slice_list s) = slice_len s.
Proof.
  intros (Hok & H1 & H2). unfold slice_list, slice_len.
  rewrite v_len_ok in H2 by done. rewrite length_take, length_drop. lia.
Qed.

(** The window as a suffix of the items before [end]. *)
Lemma slice_list_alt s :
  slice_list s = drop (start s) (take (end_ s) (v_list (vec s))).
Proof. unfold slice_list, slice_len. by rewrite skipn_firstn_comm. Qed.

Lemma slice_default_ok : slice_ok slice_default ∧ slice_list slice_default = [].
Proof.
  destruct v_default_ok as [Hok Hl]. unfold slice_ok, slice_list. simpl.
  by rewrite v_len_ok, Hl.
Qed.

Lemma truncated s :
  slice_ok s →
  ∃ v', v_truncate (vec s) (end_ s) = Some v' ∧ v_ok v' ∧ v_len v' = end_ s ∧
        slice_list s = drop (start s) (v_list v').
Proof.
  intros (Hok & H1 & H2). destruct (v_truncate_ok (vec s) (end_ s) Hok) as (v' & Ht & Hv' & Hl).
  exists v'. split_and!; [done..| |].
  - rewrite v_len_ok, Hl, length_take by done. rewrite v_len_ok in H2 by done. lia.
  - by rewrite slice_list_alt, Hl.
Qed.

(** Slices rebuilt on a longer vector. *)
Lemma extended v v' a l :
  v_ok v → v_ok v' → a ≤ v_len v → v_list v' = v_list v ++ l →
  let s := mkSlice v' a (v_len v + length l) in
  slice_ok s ∧ slice_list s = drop a (v_list v) ++ l.
Proof.
  intros Hv Hv' Ha Hl s. rewrite v_len_ok in Ha by done.
  assert (v_len v' = v_len v + length l) as Hlen.
  { rewrite !v_len_ok, Hl by done. by rewrite length_app. }
  split; [split_and!; simpl; [done| |by rewrite Hlen]; rewrite v_len_ok by done; lia|].
  rewrite slice_list_alt. simpl. rewrite Hl, take_ge, drop_app_le by
    (rewrite ?length_app; try rewrite v_len_ok by done; lia). done.
Qed.

Lemma slice_push_ok s x :
  slice_ok s →
  ∃ s', slice_push s x = Some s' ∧ slice_ok s' ∧ slice_list s' = slice_list s ++ [x].
Proof.
  intros Hs. destruct (truncated s Hs) as (v' & Ht & Hv' & Hlen & Hlist).
  destruct (v_push_ok v' x Hv') as (v'' & Hp & Hv'' & Hl).
  destruct Hs as (_ & H1 & _). rewrite <- Hlen in H1.
  destruct (extended v' v'' (start s) [x] Hv' Hv'' H1 Hl) as [Hok Hl'].
  unfold slice_push. rewrite Ht. simpl. rewrite Hp. simpl.
  eexists; split_and!; [done|by rewrite <- Hlen|]. by rewrite <- Hlen, Hlist.
Qed.

Lemma slice_extend_ok s l :
  slice_ok s →
  ∃ s', slice_extend s l = Some s' ∧ slice_ok s' ∧ slice_list s' = slice_list s ++ l.
Proof.
  intros Hs. destruct (truncated s Hs) as (v' & Ht & Hv' & Hlen & Hlist).
  destruct (v_extend_ok v' l Hv') as (v'' & Hp & Hv'' & Hl).
  destruct Hs as (_ & H1 & _). rewrite <- Hlen in H1.
  destruct (extended v' v'' (start s) l Hv' Hv'' H1 Hl) as [Hok Hl'].
  unfold slice_extend. rewrite Ht. simpl. rewrite Hp. simpl.
  assert (v_len v'' = v_len v' + length l) as ->
    by (rewrite !v_len_ok, Hl by done; by rewrite length_app).
  eexists; split_and!; [done..|]. by rewrite Hlist.
Qed.

Lemma slice_pop_empty s : slice_ok s → slice_list s = [] → slice_pop s = Some (None, s).
Proof.
  intros Hs Hnil. pose proof (slice_length s Hs) as Hlen. rewrite Hnil in Hlen.
  destruct Hs as (_ & H1 & _). unfold slice_pop, slice_is_empty, slice_len in *.
  simpl in Hlen. by rewrite (proj2 (Nat.eqb_eq _ _)) by lia.
Qed.

Lemma slice_pop_ok s l x :
  slice_ok s → slice_list s = l ++ [x] →
  ∃ s', slice_pop s = Some (Some x, s') ∧ slice_ok s' ∧ slice_list s' = l.
Proof.
  intros Hs Hl. pose proof (slice_length s Hs) as Hn. rewrite Hl, length_app in Hn.
  destruct (truncated s Hs) as (v' & Ht & Hv' & Hlen & Hlist).
  destruct Hs as (_ & H1 & _). unfold slice_len in Hn. simpl in Hn.
  assert (v_list v' = (take (start s) (v_list v') ++ l) ++ [x]) as Hv.
  { rewrite <- (take_drop (start s) (v_list v')) at 1.
    by rewrite <- app_assoc, <- Hl, Hlist. }
  destruct (v_pop_ok v' _ x Hv' Hv) as (v'' & Hp & Hv'' & Hl'').
  unfold slice_pop, slice_is_empty. rewrite (proj2 (Nat.eqb_neq _ _)), Ht by lia. simpl.
  rewrite Hp. simpl. assert (v_len v'' = end_ s - 1) as Hlen''.
  { rewrite v_len_ok, Hl'' by done. rewrite v_len_ok, Hv, length_app in Hlen by done.
    simpl in Hlen. lia. }
  eexists; split_and!; [done| |].
  - split_and!; simpl; [done|lia|lia].
  - rewrite slice_list_alt. simpl. rewrite v_len_ok in Hlen'' by done.
    rewrite take_ge, Hl'' by lia. rewrite drop_app_length'; [done|].
    rewrite length_take. rewrite v_len_ok in Hlen by done. lia.
Qed.

Lemma slice_slice_ok s from to :
  slice_ok s → from ≤ to → to ≤ length (slice_list s) →
  ∃ s', slice_slice s from to = Some s' ∧ slice_ok s' ∧
        slice_list s' = take (to - from) (drop from (slice_list s)).
Proof.
  intros Hs Hft Hto. rewrite slice_length in Hto by done.
  unfold slice_slice. rewrite !(proj2 (Nat.leb_le _ _)) by done. simpl.
  destruct Hs as (Hv & H1 & H2). unfold slice_len in Hto.
  eexists; split_and!; [done|split_and!; simpl; [done|lia..]|].
  unfold slice_list, slice_len. simpl.
  rewrite skipn_firstn_comm, take_take, drop_drop.
  f_equal. lia.
Qed.

Lemma slice_get_ok s idx :
  slice_ok s → idx < length (slice_list s) →
  (N.of_nat (v_len (vec s)) ≤ usize_max)%N →
  slice_get s idx = Some (slice_list s !! idx).
Proof.
  intros Hs Hidx Hmax. rewrite slice_length in Hidx by done.
  destruct Hs as (Hv & H1 & H2). unfold slice_len in Hidx.
  unfold slice_get, usize_checked_add. rewrite (proj2 (N.leb_le _ _)) by lia.
  rewrite v_get_ok by (done || lia). unfold slice_list, slice_len.
  by rewrite lookup_take_lt, lookup_drop by lia.
Qed.

Lemma slice_set_ok s idx x :
  slice_ok s → idx < length (slice_list s) →
  (N.of_nat (v_len (vec s)) ≤ usize_max)%N →
  ∃ s', slice_set s idx x = Some s' ∧ slice_ok s' ∧
        slice_list s' = <[idx := x]> (slice_list s).
Proof.
  intros Hs Hidx Hmax. rewrite slice_length in Hidx by done.
  destruct Hs as (Hv & H1 & H2). unfold slice_len in Hidx.
  unfold slice_set, usize_checked_add. rewrite (proj2 (N.leb_le _ _)) by lia. simpl.
  destruct (v_set_ok (vec s) (start s + idx) x Hv) as (v' & -> & Hv' & Hl); [lia|].
  simpl. eexists; split_and!; [done| |].
  - split_and!; simpl; [done..|]. by rewrite v_len_ok, Hl, length_insert, <- v_len_ok.
  - unfold slice_list, slice_len. simpl. rewrite Hl.
    rewrite drop_insert_ge by lia. replace (start s + idx - start s) with idx by lia.
    by rewrite take_insert_lt by lia.
Qed.

Lemma slice_iter_ok s :
  slice_ok s → slice_iter s = Some (slice_list s) ∧ slice_into_iter s = Some (slice_list s).
Proof.
  intros (Hv & H1 & H2). unfold slice_iter, slice_into_iter.
  rewrite v_iter_take_ok, v_into_iter_take_ok by (done || lia). done.
Qed.

Lemma slice_from_iter_ok l :
  ∃ s, slice_from_iter l = Some s ∧ slice_ok s ∧ slice_list s = l.
Proof.
  destruct v_default_ok as [Hv Hl]. destruct (v_extend_ok v_default l Hv) as (v' & He & Hv' & Hl').
  unfold slice_from_iter. rewrite He. simpl. eexists; split_and!; [done| |].
  - split_and!; simpl; [done|lia|done].
  - rewrite slice_list_alt. simpl. rewrite take_ge, Hl', Hl by (by rewrite v_len_ok). done.
Qed.

End spec.
