(* ===== verification/SliceTheorems.v ===== *)
(** * Properties of slices ([vector/src/slice.rs])

    Slices over any implementation of the vector interface refine lists; the
    witnesses use the vectors of [Vector.v]. *)
From S2P Require Import Prelude Vector VectorFacts VectorSpec VectorIter Slice.

(** ** Sequences of operations *)

Inductive slice_op (T : Type) : Type :=
| SPush (x : T)
| SPop
| SSet (idx : nat) (x : T)
| SSlice (from to : nat)
| SExtend (items : list T).
Arguments SPush {T} x.
Arguments SPop {T}.
Arguments SSet {T} idx x.
Arguments SSlice {T} from to.
Arguments SExtend {T} items.

Section operations.
Context {T V : Type} `{VectorOps T V}.

Definition slice_step (op : slice_op T) (s : Slice V) : option (option T * Slice V) :=
  match op with
  | SPush x => s' ← slice_push s x; Some (None, s')
  | SPop => slice_pop s
  | SSet idx x => s' ← slice_set s idx x; Some (None, s')
  | SSlice from to => s' ← slice_slice s from to; Some (None, s')
  | SExtend items => s' ← slice_extend s items; Some (None, s')
  end.

Fixpoint slice_run (ops : list (slice_op T)) (s : Slice V) : option (list (option T) * Slice V) :=
  match ops with
  | [] => Some ([], s)
  | op :: ops =>
      '(out, s) ← slice_step op s;
      '(outs, s) ← slice_run ops s;
      Some (out :: outs, s)
  end.
End operations.

(** The same operations on lists. Setting out of bounds has no specification
    here: see [slice_get_sees_outside]. *)
Definition slice_list_step {T} (op : slice_op T) (l : list T) : option (option T * list T) :=
  match op with
  | SPush x => Some (None, l ++ [x])
  | SPop => Some (last l, take (length l - 1) l)
  | SSet idx x => if idx <? length l then Some (None, <[idx := x]> l) else None
  | SSlice from to =>
      if (from <=? to) && (to <=? length l) then Some (None, take (to - from) (drop from l))
      else None
  | SExtend items => Some (None, l ++ items)
  end.

Fixpoint slice_list_run {T} (ops : list (slice_op T)) (l : list T)
    : option (list (option T) * list T) :=
  match ops with
  | [] => Some ([], l)
  | op :: ops =>
      '(out, l) ← slice_list_step op l;
      '(outs, l) ← slice_list_run ops l;
      Some (out :: outs, l)
  end.

Section simulation.
Context {T V : Type} `{HV : VectorContract T V}.
Implicit Types (s : Slice V) (l : list T).

Lemma slice_step_simulates op s out l :
  slice_ok s → (N.of_nat (v_len (vec s)) ≤ usize_max)%N →
  slice_list_step op (slice_list s) = Some (out, l) →
  ∃ s', slice_step op s = Some (out, s') ∧ slice_ok s' ∧ slice_list s' = l.
Proof.
  intros Hok Hmax. destruct op; simpl; intros Hl.
  - simplify_eq. destruct (slice_push_ok s x Hok) as (s' & -> & ? & ?). by exists s'.
  - simplify_eq. destruct (slice_list s) as [|y l' _] eqn:Hs using rev_ind.
    + rewrite slice_pop_empty by done. by exists s.
    + destruct (slice_pop_ok s l' y Hok Hs) as (s' & -> & ? & ?).
      rewrite last_snoc, take_all_but_last. by exists s'.
  - destruct (idx <? length (slice_list s)) eqn:Hidx; breflect; simplify_eq.
    destruct (slice_set_ok s idx x Hok Hidx Hmax) as (s' & -> & ? & ?). by exists s'.
  - destruct ((from <=? to) && (to <=? length (slice_list s))) eqn:Hb; breflect; simplify_eq.
    destruct (slice_slice_ok s from to Hok) as (s' & -> & ? & ?); [done..|]. by exists s'.
  - simplify_eq. destruct (slice_extend_ok s items Hok) as (s' & -> & ? & ?). by exists s'.
Qed.
End simulation.

(** Whatever the vector underneath, as long as its length fits in a [usize],
    an operation on a slice that is in bounds is the operation on the list of
    its elements, and keeps the window inside the vector: pushing, popping,
    setting, slicing and extending. Elements of the vector outside the window
    are never part of the result. *)
Theorem slice_refines_list {T V : Type} `{HV : VectorContract T V}
    (op : slice_op T) (s : Slice V) (out : option T) (l : list T) :
  slice_ok s → (N.of_nat (v_len (vec s)) ≤ usize_max)%N →
  slice_list_step op (slice_list s) = Some (out, l) →
  ∃ s', slice_step op s = Some (out, s') ∧ slice_ok s' ∧ slice_list s' = l.
Proof. apply slice_step_simulates. Qed.

#[local] Instance ops2 : VectorOps nat (Vector nat) := vector_ops 2.
#[local] Instance contract2 : VectorContract nat (Vector nat) := vector_contract 2.

Section example.
Let v : Vector nat := mkVector (Some (Interior [Leaf [10; 11]; Leaf [12; 13]])) 4 1.
Lemma example_ok : vec_ok 2 v.
Proof.
  split; [|split; [reflexivity|simpl; lia]].
  by apply (packed_interior 2 0 [Leaf [10; 11]] (Leaf [12; 13]));
    [simpl; lia|repeat constructor|constructor; simpl; lia|].
Qed.

(** The window [11; 12] of the vector 10, 11, 12, 13. *)
Lemma window_ok (a b : nat) : a ≤ b → b ≤ 4 → slice_ok (mkSlice v a b).
Proof. intros ??. split; [exact example_ok|]. by split. Qed.
End example.

Lemma slice_refines_list_witness :
  ∃ s', slice_step (SPush 99)
          (mkSlice (mkVector (Some (Interior [Leaf [10; 11]; Leaf [12; 13]])) 4 1) 1 3)
        = Some (None, s') ∧
        slice_ok s' ∧
        slice_list s' = [11; 12; 99].
Proof.
  apply (slice_refines_list (SPush 99)
    (mkSlice (mkVector (Some (Interior [Leaf [10; 11]; Leaf [12; 13]])) 4 1) 1 3)).
  - apply window_ok; lia.
  - vm_compute. discriminate.
  - reflexivity.
Defined.

(** Iterating over a slice, borrowed or owned, yields exactly the elements of
    the window, and a slice collected from an iterator holds its items. *)
Theorem slice_iter_collects {T V : Type} `{HV : VectorContract T V} (s : Slice V) (l : list T) :
  slice_ok s →
  slice_iter s = Some (slice_list s) ∧ slice_into_iter s = Some (slice_list s) ∧
  ∃ s', slice_from_iter l = Some s' ∧ slice_ok s' ∧ slice_iter s' = Some l.
Proof.
  intros Hok. destruct (slice_iter_ok s Hok) as [H1 H2]. split; [done|]. split; [done|].
  destruct (slice_from_iter_ok l) as (s' & Hs' & Hok' & Hl).
  exists s'. split; [done|]. split; [done|]. destruct (slice_iter_ok s' Hok') as [-> _]. by rewrite Hl.
Qed.

Lemma slice_iter_collects_witness :
  slice_iter (mkSlice (mkVector (Some (Interior [Leaf [10; 11]; Leaf [12; 13]])) 4 1) 1 3)
  = Some [11; 12].
Proof.
  destruct (slice_iter_collects (HV := vector_contract (T := nat) 2)
    (mkSlice (mkVector (Some (Interior [Leaf [10; 11]; Leaf [12; 13]])) 4 1) 1 3) []) as [H _];
    [apply window_ok; lia|exact H].
Defined.

(** [Slice::get] does not check the end of the window: reading past it
    returns the elements of the vector that follow, where the documentation
    promises [None]; [Slice::set] writes there instead of panicking. *)
Theorem slice_get_sees_outside :
  ∃ s : Slice (Vector nat),
    slice_ok s ∧ slice_len s = 1 ∧
    slice_get s 1 = Some (Some 12) ∧
    ∃ s', slice_set s 1 99 = Some s' ∧ slice_list s' = [11].
Proof.
  exists (mkSlice (mkVector (Some (Interior [Leaf [10; 11]; Leaf [12; 13]])) 4 1) 1 2).
  split; [apply window_ok; lia|]. split; [done|]. split; [by vm_compute|].
  eexists. split; by vm_compute.
Qed.
