(* ===== verification/Environment.v ===== *)
(** * Environments ([core/src/environment.rs], and its copy in [parser/src])

    An [Environment] is a linked list of hash maps. The current layer is mutated
    in place when its [Rc] has no other owner, and pushed down otherwise. The
    model keeps that aliasing: maps live in a store and are named by locations,
    the variables of the program that hold an environment are handles, and
    [Rc::get_mut] succeeds when the strong count of the location, computed from
    the live handles, is one. [denote] is the finite map a handle stands for. *)
From S2P Require Import Prelude.

(** ** The store *)

(** [Environment<K, V>]: the location of the current layer, and the chain of the
    [Rc<Environment>] nodes below it. A node is an address with the location of
    its map: nodes are never mutated. *)
Record Environment : Type := mkEnv {
  current : nat;
  previous : list (nat * nat);
}.

#[export] Instance Environment_eq_dec : EqDecision Environment.
Proof. solve_decision. Defined.

Record Store (K V : Type) `{Countable K} : Type := mkStore {
  maps : gmap nat (gmap K V);
  handles : gmap nat Environment;
  fresh : nat;
}.
Arguments mkStore {K V _ _} maps handles fresh.
Arguments maps {K V _ _} s : rename.
Arguments handles {K V _ _} s : rename.
Arguments fresh {K V _ _} s : rename.

Section environment.
Context {K V : Type} `{Countable K}.
Implicit Types (s : Store K V) (e : Environment).

Definition map_at s (l : nat) : gmap K V := default ∅ (maps s !! l).

(** The [Rc<Environment>] nodes kept alive by the handles. *)
Definition live_nodes s : gset (nat * nat) :=
  map_fold (λ _ e acc, list_to_set (previous e) ∪ acc) ∅ (handles s).

(** [Rc::strong_count] of a map: the handles whose current layer it is and the
    live nodes that hold it. *)
Definition strong_count s (l : nat) : nat :=
  size (filter (λ p, current p.2 = l) (handles s))
  + size (filter (λ n : nat * nat, n.2 = l) (live_nodes s)).

(** ** Operations *)

Definition env_new s (h : nat) : Store K V :=
  mkStore (<[fresh s := ∅]> (maps s)) (<[h := mkEnv (fresh s) []]> (handles s))
          (S (fresh s)).

(** [FromIterator]: a single layer, later pairs overriding earlier ones. *)
Definition extend_map (m : gmap K V) (items : list (K * V)) : gmap K V :=
  foldl (λ m '(k, v), <[k := v]> m) m items.

Definition env_from_iter s (h : nat) (items : list (K * V)) : Store K V :=
  mkStore (<[fresh s := extend_map ∅ items]> (maps s))
          (<[h := mkEnv (fresh s) []]> (handles s)) (S (fresh s)).

(** [Clone]: [h'] receives a clone of [h]. *)
Definition env_clone s (h h' : nat) : option (Store K V) :=
  e ← handles s !! h;
  Some (mkStore (maps s) (<[h' := e]> (handles s)) (fresh s)).

(** The end of the life of a handle. *)
Definition env_drop s (h : nat) : Store K V :=
  mkStore (maps s) (delete h (handles s)) (fresh s).

(** [set_current]: the [Rc] of the new map and the [Rc<Environment>] node get
    fresh addresses. *)
Definition set_current s (h : nat) (e : Environment) (new_current : gmap K V) : Store K V :=
  let old_current := current e in
  let previous' :=
    if decide (map_at s old_current = ∅) then previous e
    else (S (fresh s), old_current) :: previous e in
  mkStore (<[fresh s := new_current]> (maps s))
          (<[h := mkEnv (fresh s) previous']> (handles s)) (S (S (fresh s))).

Definition env_insert s (h : nat) (key : K) (value : V) : option (Store K V) :=
  e ← handles s !! h;
  if strong_count s (current e) =? 1 then
    Some (mkStore (<[current e := <[key := value]> (map_at s (current e))]> (maps s))
                  (handles s) (fresh s))
  else Some (set_current s h e {[key := value]}).

Definition env_extend s (h : nat) (items : list (K * V)) : option (Store K V) :=
  e ← handles s !! h;
  if strong_count s (current e) =? 1 then
    Some (mkStore (<[current e := extend_map (map_at s (current e)) items]> (maps s))
                  (handles s) (fresh s))
  else Some (set_current s h e (extend_map ∅ items)).

(** [iter_layers]: from the most recent layer to the oldest. *)
Definition iter_layers s e : list (gmap K V) :=
  map_at s (current e) :: map (λ n, map_at s n.2) (previous e).

Fixpoint find_layers (layers : list (gmap K V)) (key : K) : option V :=
  match layers with
  | [] => None
  | hmap :: layers' =>
      match hmap !! key with
      | Some v => Some v
      | None => find_layers layers' key
      end
  end.

Definition env_get s (h : nat) (key : K) : option (option V) :=
  e ← handles s !! h;
  Some (find_layers (iter_layers s e) key).

(** [iter_elems]: oldest layer first. [order] is the iteration order of a
    [HashMap], which Rust does not specify. *)
Definition iter_elems (order : gmap K V → list (K * V)) s e : list (K * V) :=
  concat (map order (rev (iter_layers s e))).

(** [Environment::is_empty] *)
Definition env_is_empty s e : bool :=
  bool_decide (map_at s (current e) = ∅) && bool_decide (previous e = []).

Definition env_ptr_eq s (this that : Environment) : bool :=
  let prev_layers_eq :=
    match previous this, previous that with
    | ptr_this :: _, ptr_that :: _ => ptr_this.1 =? ptr_that.1
    | [], [] => true
    | _, _ => false
    end in
  let curr_layers_eq :=
    (bool_decide (map_at s (current this) = ∅) && bool_decide (map_at s (current that) = ∅))
    || (current this =? current that) in
  prev_layers_eq && curr_layers_eq.

(** ** Specification *)

Definition union_layers (layers : list (gmap K V)) : gmap K V := foldr (∪) ∅ layers.

Definition denote s e : gmap K V := union_layers (iter_layers s e).

Definition env_ok s e : Prop :=
  current e < fresh s ∧
  Forall (λ n, n.1 < fresh s ∧ n.2 < fresh s ∧ map_at s n.2 ≠ ∅) (previous e).

(** A chain of nodes agrees with a table giving, for each node address, its map
    and what is below it. *)
Fixpoint chain_ok (table : nat → nat * list (nat * nat)) (p : list (nat * nat)) : Prop :=
  match p with
  | [] => True
  | (n, l) :: p' => table n = (l, p') ∧ chain_ok table p'
  end.

(** Every live environment is allocated below [fresh], pushed-down layers are
    not empty, and the nodes of all chains come from one table. *)
Definition store_ok s : Prop :=
  map_Forall (λ _ e, env_ok s e) (handles s) ∧
  ∃ table, map_Forall (λ _ e, chain_ok table (previous e)) (handles s).

End environment.
