(* ===== verification/EnvironmentTheorems.v ===== *)
(** * Environments: persistence, lookup and the invariants of the layers *)
From S2P Require Import Prelude Environment.

Section facts.
Context {K V : Type} `{Countable K}.
Implicit Types (s : Store K V) (e : Environment) (m : gmap K V).

Lemma elem_of_live_nodes s n :
  n ∈ live_nodes s ↔ ∃ h e, handles s !! h = Some e ∧ n ∈ previous e.
Proof.
  unfold live_nodes.
  apply (map_fold_weak_ind (λ acc hs, n ∈ acc ↔ ∃ h e, hs !! h = Some e ∧ n ∈ previous e)).
  - split; [set_solver|]. intros (h & e & He & _). by rewrite lookup_empty in He.
  - intros h e hs acc Hh IH. rewrite elem_of_union, elem_of_list_to_set, IH. split.
    + intros [Hn|(h' & e' & He' & Hn)]; [exists h, e; by rewrite lookup_insert_eq|].
      exists h', e'. rewrite lookup_insert_ne; [done|congruence].
    + intros (h' & e' & He' & Hn). destruct (decide (h = h')) as [->|Hne].
      * rewrite lookup_insert_eq in He'. simplify_eq. by left.
      * rewrite lookup_insert_ne in He' by done. right. eauto.
Qed.

(** A strong count of one means that no other live environment can see the
    map. *)
Lemma strong_count_unique s h e :
  handles s !! h = Some e → strong_count s (current e) = 1 →
  ∀ h' e', handles s !! h' = Some e' →
    (h' ≠ h → current e' ≠ current e) ∧ Forall (λ n, n.2 ≠ current e) (previous e').
Proof.
  intros He Hcount h' e' He'. unfold strong_count in Hcount.
  set (hs := filter (λ p : nat * Environment, current p.2 = current e) (handles s)) in *.
  set (ns := filter (λ n : nat * nat, n.2 = current e) (live_nodes s)) in *.
  assert (hs !! h = Some e) as Hh by (by apply map_lookup_filter_Some).
  assert (size hs ≠ 0) as Hhs.
  { intros Hz%map_size_empty_inv. by rewrite Hz, lookup_empty in Hh. }
  split.
  - intros Hne Hcur. assert (hs !! h' = Some e') as Hh' by (by apply map_lookup_filter_Some).
    assert (<[h' := e']> {[h := e]} ⊆ hs) as Hsub.
    { apply insert_subseteq_l; [done|]. by apply map_singleton_subseteq_l. }
    apply map_subseteq_size in Hsub.
    rewrite map_size_insert_None, map_size_singleton in Hsub by
      (by rewrite lookup_singleton_ne). lia.
  - apply Forall_forall. intros n Hn Heq.
    assert (n ∈ ns) as Hin.
    { apply elem_of_filter. split; [done|]. apply elem_of_live_nodes. eauto. }
    assert (size ns ≠ 0); [|lia]. intros Hz%size_empty_inv.
    apply Hz in Hin. by apply not_elem_of_empty in Hin.
Qed.

(** *** Layers *)

Lemma find_layers_union (layers : list (gmap K V)) k :
  find_layers layers k = union_layers layers !! k.
Proof.
  induction layers as [|m layers IH]; simpl; [by rewrite lookup_empty|].
  rewrite lookup_union, IH. by destruct (m !! k), (union_layers layers !! k).
Qed.

Lemma extend_map_union m items : extend_map m items = extend_map ∅ items ∪ m.
Proof.
  assert (∀ m0, extend_map (m0 ∪ m) items = extend_map m0 items ∪ m) as Hgen.
  { induction items as [|[k v] items IH]; intros m0; simpl; [done|].
    by rewrite <- IH, insert_union_l. }
  rewrite <- Hgen. f_equal. by rewrite (left_id_L ∅ (∪)).
Qed.

Lemma map_at_insert l m s l' hs f :
  map_at (mkStore (<[l := m]> (maps s)) hs f) l' = if decide (l = l') then m else map_at s l'.
Proof.
  unfold map_at. simpl. case_decide as Hd; subst.
  - by rewrite lookup_insert_eq.
  - by rewrite lookup_insert_ne.
Qed.

(** A write to a location an environment does not use does not change it. *)
Lemma layers_frame s e l m hs f :
  current e ≠ l → Forall (λ n, n.2 ≠ l) (previous e) →
  iter_layers (mkStore (<[l := m]> (maps s)) hs f) e = iter_layers s e.
Proof.
  intros Hc Hp. unfold iter_layers. rewrite map_at_insert. rewrite decide_False by done.
  f_equal. induction Hp as [|n p Hn Hp IH]; simpl; [done|].
  rewrite map_at_insert, decide_False by done. by rewrite IH.
Qed.

Lemma layers_fresh s e m hs f :
  env_ok s e → iter_layers (mkStore (<[fresh s := m]> (maps s)) hs f) e = iter_layers s e.
Proof.
  intros [Hc Hp]. apply layers_frame; [lia|].
  eapply Forall_impl; [done|]. intros n (? & ? & ?). lia.
Qed.

Lemma env_ok_layers s s' e :
  iter_layers s' e = iter_layers s e → fresh s ≤ fresh s' → env_ok s e → env_ok s' e.
Proof.
  unfold iter_layers, env_ok. intros Hl Hf [Hc Hp]. injection Hl as _ Hl. split; [lia|].
  clear Hc. revert Hl. induction Hp as [|n p (? & ? & ?) Hp IH]; intros Hl; constructor;
    injection Hl as Hl1 Hl2; [split_and!; [lia..|by rewrite Hl1]|auto].
Qed.

(** *** The two ways of writing *)

(** In place: the handle's map changes, every other environment is untouched. *)
Lemma write_in_place s h e m :
  store_ok s → handles s !! h = Some e → strong_count s (current e) = 1 →
  let s' := mkStore (<[current e := m]> (maps s)) (handles s) (fresh s) in
  store_ok s' ∧ iter_layers s' e = m :: tail (iter_layers s e) ∧
  ∀ h' e', h' ≠ h → handles s !! h' = Some e' → iter_layers s' e' = iter_layers s e'.
Proof.
  intros [Hok Hnodes] He Hcount s'.
  pose proof (strong_count_unique s h e He Hcount) as Huniq.
  assert (iter_layers s' e = m :: tail (iter_layers s e)) as Hself.
  { pose proof (proj2 (Huniq h e He)) as Hp. unfold iter_layers, s'. simpl.
    rewrite map_at_insert, decide_True by done. f_equal.
    induction Hp as [|n p Hn Hp IH]; simpl; [done|].
    rewrite map_at_insert, decide_False by done. by rewrite IH. }
  assert (∀ h' e', h' ≠ h → handles s !! h' = Some e' →
            iter_layers s' e' = iter_layers s e') as Hother.
  { intros h' e' Hne He'. destruct (Huniq h' e' He') as [Hc Hp].
    apply layers_frame; auto. }
  split_and!; [split|done..]; [|done].
  intros h' e' He'. simpl in He'. destruct (decide (h' = h)) as [Heq|Hne].
  - subst h'. rewrite He in He'. simplify_eq. destruct (Hok h e' He) as [Hc Hp].
    split; [done|]. rewrite Forall_forall in Hp |- *. intros n Hn.
    pose proof (proj2 (Huniq h e' He)) as Hd. rewrite Forall_forall in Hd.
    specialize (Hd n Hn). destruct (Hp n Hn) as (? & ? & ?).
    unfold s'. rewrite map_at_insert, decide_False by done. done.
  - eapply env_ok_layers; [by eapply Hother|simpl; lia|by eapply Hok].
Qed.

(** On a fresh layer: the old map becomes a node, unless it is empty. *)
Lemma set_current_ok s h e m :
  store_ok s → handles s !! h = Some e →
  let s' := set_current s h e m in
  ∃ e', handles s' !! h = Some e' ∧ store_ok s' ∧ denote s' e' = m ∪ denote s e ∧
  ∀ h2 e2, h2 ≠ h → handles s !! h2 = Some e2 →
    handles s' !! h2 = Some e2 ∧ iter_layers s' e2 = iter_layers s e2.
Proof.
  intros [Hok Hnodes] He s'. unfold s', set_current. simpl.
  pose proof (Hok h e He) as [Hc Hp].
  set (p' := if decide (map_at s (current e) = ∅) then previous e
             else (S (fresh s), current e) :: previous e).
  set (st := mkStore (<[fresh s := m]> (maps s)) (<[h := mkEnv (fresh s) p']> (handles s))
                     (S (S (fresh s)))).
  assert (∀ e2, env_ok s e2 → iter_layers st e2 = iter_layers s e2) as Hfr
    by (intros; by apply layers_fresh).
  assert (env_ok st (mkEnv (fresh s) p')) as Hnew.
  { split; simpl; [lia|]. pose proof (Hfr e (conj Hc Hp)) as Hle.
    assert (env_ok st e) as [_ Hp'] by (apply (env_ok_layers s); simpl; [done|lia|done]).
    unfold p'. case_decide as Hd; [done|]. constructor; [|done]. simpl.
    split_and!; [lia..|]. unfold st. by rewrite map_at_insert, decide_False by lia. }
  eexists; split_and!; [by rewrite lookup_insert_eq| |..].
  - split.
    + intros h2 e2. simpl. rewrite lookup_insert_Some. intros [[<- <-]|[_ He2]]; [done|].
      apply (env_ok_layers s); simpl; [by apply Hfr, (Hok h2)|lia|by apply (Hok h2)].
    + destruct Hnodes as [table Ht].
      exists (λ n, if decide (n = S (fresh s)) then (current e, previous e) else table n).
      assert (∀ p, Forall (λ n, n.1 < fresh s ∧ n.2 < fresh s ∧ map_at s n.2 ≠ ∅) p →
                   chain_ok table p → chain_ok (λ n, if decide (n = S (fresh s))
                     then (current e, previous e) else table n) p) as Hext.
      { induction 1 as [|[n l] q (Hn & _) Hq IH]; simpl in *; [done|].
        intros [Hnl Hcq]. rewrite decide_False by lia. auto. }
      intros h2 e2. simpl. rewrite lookup_insert_Some. intros [[<- <-]|[_ He2]].
      * simpl. unfold p'. case_decide; [by apply Hext; [|eapply Ht]|]. simpl.
        rewrite decide_True by done. split; [done|]. apply Hext; [done|by eapply Ht].
      * apply Hext; [by apply (Hok h2)|by eapply Ht].
  - unfold denote, iter_layers. simpl current. simpl previous.
    unfold st at 1. rewrite map_at_insert, decide_True by done. simpl. f_equal.
    pose proof (Hfr e (conj Hc Hp)) as Hle. unfold iter_layers in Hle.
    injection Hle as Hle1 Hle2.
    unfold p'. case_decide as Hd; simpl.
    + rewrite Hle2, Hd. by rewrite (left_id_L ∅ (∪)).
    + by rewrite Hle1, Hle2.
  - intros h2 e2 Hne He2. rewrite lookup_insert_ne by done. split; [done|].
    by apply Hfr, (Hok h2).
Qed.

(** *** Operations *)

Lemma env_clone_ok s h h' e :
  store_ok s → handles s !! h = Some e →
  ∃ s', env_clone s h h' = Some s' ∧ store_ok s' ∧ handles s' = <[h' := e]> (handles s) ∧
        maps s' = maps s.
Proof.
  intros [Hok [table Ht]] He. unfold env_clone. rewrite He. simpl.
  eexists; split_and!; [done| |done..]. split.
  - intros h2 e2. simpl. rewrite lookup_insert_Some. intros [[<- <-]|[_ He2]];
      [by apply (Hok h)|by apply (Hok h2)].
  - exists table. intros h2 e2. simpl. rewrite lookup_insert_Some.
    intros [[<- <-]|[_ He2]]; by eapply Ht.
Qed.

Lemma env_drop_ok s h : store_ok s → store_ok (env_drop s h).
Proof.
  intros [Hok [table Ht]]. split.
  - intros h2 e2. simpl. rewrite lookup_delete_Some. intros [_ He2]. by apply (Hok h2).
  - exists table. intros h2 e2. simpl. rewrite lookup_delete_Some.
    intros [_ He2]. by eapply Ht.
Qed.

Lemma fresh_handle_ok s h m :
  store_ok s →
  let s' := mkStore (<[fresh s := m]> (maps s)) (<[h := mkEnv (fresh s) []]> (handles s))
                    (S (fresh s)) in
  store_ok s' ∧ denote s' (mkEnv (fresh s) []) = m ∧
  ∀ h2 e2, h2 ≠ h → handles s !! h2 = Some e2 →
    handles s' !! h2 = Some e2 ∧ iter_layers s' e2 = iter_layers s e2.
Proof.
  intros [Hok [table Ht]] s'.
  assert (∀ h2 e2, handles s !! h2 = Some e2 → iter_layers s' e2 = iter_layers s e2) as Hfr
    by (intros h2 e2 He2; apply layers_fresh; by apply (Hok h2)).
  split_and!; [split| |].
  - intros h2 e2. simpl. rewrite lookup_insert_Some. intros [[<- <-]|[_ He2]].
    + split; simpl; [lia|done].
    + apply (env_ok_layers s); simpl; [by eapply Hfr|lia|by apply (Hok h2)].
  - exists table. intros h2 e2. simpl. rewrite lookup_insert_Some.
    intros [[<- <-]|[_ He2]]; [done|by eapply Ht].
  - unfold denote, iter_layers, s'. simpl. rewrite map_at_insert, decide_True by done.
    by rewrite (right_id_L ∅ (∪)).
  - intros h2 e2 Hne He2. simpl. rewrite lookup_insert_ne by done. eauto.
Qed.

Lemma env_extend_ok s h e items :
  store_ok s → handles s !! h = Some e →
  ∃ s' e', env_extend s h items = Some s' ∧ store_ok s' ∧ handles s' !! h = Some e' ∧
    denote s' e' = extend_map (denote s e) items ∧
    ∀ h2 e2, h2 ≠ h → handles s !! h2 = Some e2 →
      handles s' !! h2 = Some e2 ∧ iter_layers s' e2 = iter_layers s e2.
Proof.
  intros Hs He. unfold env_extend. rewrite He. simpl.
  destruct (strong_count s (current e) =? 1) eqn:Hc; breflect.
  - destruct (write_in_place s h e (extend_map (map_at s (current e)) items) Hs He Hc)
      as (Hok & Hl & Hother).
    eexists _, e. split_and!; [done|done|done| |].
    + unfold denote. rewrite Hl. simpl.
      rewrite (extend_map_union (map_at s (current e) ∪ _)).
      by rewrite (extend_map_union (map_at _ _)), (assoc_L (∪)).
    + intros h2 e2 Hne He2. split; [done|]. by eapply Hother.
  - destruct (set_current_ok s h e (extend_map ∅ items) Hs He) as (e' & He' & Hok & Hd & Hother).
    eexists _, e'. split_and!; [done..| |done]. by rewrite Hd, (extend_map_union (denote s e)).
Qed.

(** [insert] is [extend] with one pair. *)
Lemma env_insert_extend s h k v : env_insert s h k v = env_extend s h [(k, v)].
Proof. unfold env_insert, env_extend. simpl. by rewrite insert_empty. Qed.

Lemma env_get_ok s h e k :
  handles s !! h = Some e → env_get s h k = Some (denote s e !! k).
Proof.
  intros He. unfold env_get, denote. rewrite He, <- find_layers_union. done.
Qed.

Lemma env_is_empty_ok s h e :
  store_ok s → handles s !! h = Some e → env_is_empty s e = true ↔ denote s e = ∅.
Proof.
  intros [Hok _] He. destruct (Hok h e He) as [_ Hp].
  unfold env_is_empty, denote, iter_layers. rewrite andb_true_iff, !bool_decide_eq_true.
  split.
  - intros [-> ->]. simpl. by rewrite (right_id_L ∅ (∪)).
  - intros Hu. pose proof (map_positive_l _ _ Hu) as Hcur.
    destruct (previous e) as [|n p]; [done|]. exfalso.
    apply Forall_cons in Hp as [(_ & _ & Hne) _]. apply Hne.
    simpl in Hu. rewrite Hcur, (left_id_L ∅ (∪)) in Hu. by eapply map_positive_l.
Qed.

Lemma env_ptr_eq_ok s h1 h2 e1 e2 :
  store_ok s → handles s !! h1 = Some e1 → handles s !! h2 = Some e2 →
  env_ptr_eq s e1 e2 = true → denote s e1 = denote s e2.
Proof.
  intros [_ [table Ht]] He1 He2. pose proof (Ht h1 e1 He1) as Hc1.
  pose proof (Ht h2 e2 He2) as Hc2. simpl in Hc1, Hc2.
  unfold env_ptr_eq. rewrite andb_true_iff, orb_true_iff, andb_true_iff, !bool_decide_eq_true.
  intros [Hprev Hcur]. unfold denote, iter_layers. simpl.
  assert (map_at s (current e1) = map_at s (current e2)) as ->
    by (destruct Hcur as [[-> ->]|Hcur]; [done|]; breflect; congruence).
  f_equal. f_equal. f_equal.
  destruct (previous e1) as [|[n1 l1] p1], (previous e2) as [|[n2 l2] p2]; try done.
  simpl in *. breflect. destruct Hc1 as [Hn1 _], Hc2 as [Hn2 _]. congruence.
Qed.

(** [iter_elems] lists the pairs so that collecting them, later pairs
    overriding earlier ones, gives the environment back. *)
Lemma extend_map_app m l1 l2 : extend_map m (l1 ++ l2) = extend_map (extend_map m l1) l2.
Proof. apply foldl_app. Qed.

Lemma extend_map_to_list m items :
  items ≡ₚ map_to_list m → extend_map ∅ items = m.
Proof.
  intros Hperm.
  assert (NoDup items.*1) as Hnd.
  { rewrite Hperm. apply NoDup_fst_map_to_list. }
  assert (list_to_map (M := gmap K V) items = m) as <-.
  { rewrite <- (list_to_map_to_list m). by apply list_to_map_proper. }
  clear Hperm. induction items as [|[k v] items IH]; simpl; [done|].
  apply NoDup_cons in Hnd as [Hk Hnd]. rewrite extend_map_union, (IH Hnd).
  rewrite insert_empty, <- insert_union_singleton_r; [done|].
  by apply not_elem_of_list_to_map_1.
Qed.

Lemma iter_elems_ok (order : gmap K V → list (K * V)) s e :
  (∀ m, order m ≡ₚ map_to_list m) →
  extend_map ∅ (iter_elems order s e) = denote s e.
Proof.
  intros Hperm. unfold iter_elems, denote.
  induction (iter_layers s e) as [|m layers IH]; simpl; [done|].
  rewrite map_app, concat_app, extend_map_app. simpl. rewrite app_nil_r, IH.
  rewrite extend_map_union. by rewrite (extend_map_to_list m).
Qed.

End facts.

(** * Properties of environments ([core/src/environment.rs])

    Programs that create, clone, drop and write environments, run on the store
    model and on plain finite maps: the sharing of layers between environments
    is never observable. *)

(** ** Programs *)

Inductive env_op (K V : Type) : Type :=
| EnvNew (h : nat)
| EnvFromIter (h : nat) (items : list (K * V))
| EnvClone (h h' : nat)
| EnvDrop (h : nat)
| EnvInsert (h : nat) (k : K) (v : V)
| EnvExtend (h : nat) (items : list (K * V)).
Arguments EnvNew {K V} h.
Arguments EnvFromIter {K V} h items.
Arguments EnvClone {K V} h h'.
Arguments EnvDrop {K V} h.
Arguments EnvInsert {K V} h k v.
Arguments EnvExtend {K V} h items.

Section programs.
Context {K V : Type} `{Countable K}.

Definition env_step (op : env_op K V) (s : Store K V) : option (Store K V) :=
  match op with
  | EnvNew h => Some (env_new s h)
  | EnvFromIter h items => Some (env_from_iter s h items)
  | EnvClone h h' => env_clone s h h'
  | EnvDrop h => Some (env_drop s h)
  | EnvInsert h k v => env_insert s h k v
  | EnvExtend h items => env_extend s h items
  end.

(** The specification: a handle is a finite map of its own. *)
Definition spec_step (op : env_op K V) (m : gmap nat (gmap K V)) : option (gmap nat (gmap K V)) :=
  match op with
  | EnvNew h => Some (<[h := ∅]> m)
  | EnvFromIter h items => Some (<[h := extend_map ∅ items]> m)
  | EnvClone h h' => e ← m !! h; Some (<[h' := e]> m)
  | EnvDrop h => Some (delete h m)
  | EnvInsert h k v => e ← m !! h; Some (<[h := <[k := v]> e]> m)
  | EnvExtend h items => e ← m !! h; Some (<[h := extend_map e items]> m)
  end.

Fixpoint run_ops {S} (step : env_op K V → S → option S) (ops : list (env_op K V)) (s : S)
    : option S :=
  match ops with
  | [] => Some s
  | op :: ops => s ← step op s; run_ops step ops s
  end.

Definition store_empty : Store K V := mkStore ∅ ∅ 0.

(** The store stands for [m]. *)
Definition env_refines (s : Store K V) (m : gmap nat (gmap K V)) : Prop :=
  store_ok s ∧ denote s <$> handles s = m.

Lemma store_empty_ok : env_refines store_empty ∅.
Proof.
  split; [|apply fmap_empty]. split; [apply map_Forall_empty|].
  exists (λ _, (0, [])). apply map_Forall_empty.
Qed.

Lemma refines_handle (s : Store K V) m h e :
  env_refines s m → handles s !! h = Some e → m !! h = Some (denote s e).
Proof. intros [_ <-] Hh. by rewrite lookup_fmap, Hh. Qed.

(** A step that changes one handle and leaves the layers of the others. *)
Lemma refines_update (s s' : Store K V) m h e' v :
  env_refines s m → store_ok s' → handles s' !! h = Some e' → denote s' e' = v →
  (∀ h2, h2 ≠ h → handles s' !! h2 = handles s !! h2) →
  (∀ h2 e2, h2 ≠ h → handles s !! h2 = Some e2 → iter_layers s' e2 = iter_layers s e2) →
  env_refines s' (<[h := v]> m).
Proof.
  intros [_ <-] Hok' Hh <- Hframe Hlayers. split; [done|]. apply map_eq. intros h2.
  rewrite lookup_fmap. destruct (decide (h2 = h)) as [->|Hne].
  - by rewrite Hh, lookup_insert_eq.
  - rewrite lookup_insert_ne, lookup_fmap, Hframe by done.
    destruct (handles s !! h2) as [e2|] eqn:He2; [|done]. simpl.
    unfold denote. by rewrite (Hlayers h2 e2).
Qed.

Lemma env_extend_frame (s : Store K V) h items s' h2 :
  env_extend s h items = Some s' → h2 ≠ h → handles s' !! h2 = handles s !! h2.
Proof.
  unfold env_extend. intros Hs Hne. destruct (handles s !! h); simplify_eq/=.
  destruct (_ =? _); simplify_eq/=; [done|]. by rewrite lookup_insert_ne.
Qed.

Lemma env_extend_refines (s : Store K V) m h items :
  env_refines s m →
  match m !! h with
  | Some e => ∃ s', env_extend s h items = Some s' ∧ env_refines s' (<[h := extend_map e items]> m)
  | None => env_extend s h items = None
  end.
Proof.
  intros Hr. destruct (Hr) as [Hok <-]. rewrite lookup_fmap.
  destruct (handles s !! h) as [e|] eqn:Hh; simpl; [|by unfold env_extend; rewrite Hh].
  destruct (env_extend_ok s h e items Hok Hh) as (s' & e' & Hs' & Hok' & Hh' & Hd & Hframe).
  exists s'. split; [done|]. eapply refines_update; [done|done|exact Hh'|done|..].
  - intros h2 Hne. by eapply env_extend_frame.
  - intros h2 e2 Hne He2. by destruct (Hframe h2 e2 Hne He2).
Qed.

Lemma fresh_handle_refines (s : Store K V) m h v :
  env_refines s m →
  env_refines (mkStore (<[fresh s := v]> (maps s)) (<[h := mkEnv (fresh s) []]> (handles s))
                 (S (fresh s))) (<[h := v]> m).
Proof.
  intros Hr. destruct (fresh_handle_ok s h v (proj1 Hr)) as (Hok & Hd & Hframe).
  eapply refines_update; [exact Hr|exact Hok|simpl; by apply lookup_insert_eq|exact Hd|..].
  - intros h2 Hne. simpl. by rewrite lookup_insert_ne.
  - intros h2 e2 Hne He2. by destruct (Hframe h2 e2 Hne He2).
Qed.

Lemma env_step_refines op (s : Store K V) m :
  env_refines s m →
  match spec_step op m with
  | Some m' => ∃ s', env_step op s = Some s' ∧ env_refines s' m'
  | None => env_step op s = None
  end.
Proof.
  intros Hr. destruct op as [h|h items|h h'|h|h k v|h items]; simpl.
  - eexists. split; [done|]. by apply fresh_handle_refines.
  - eexists. split; [done|]. by apply fresh_handle_refines.
  - destruct (Hr) as [Hok <-]. rewrite lookup_fmap.
    destruct (handles s !! h) as [e|] eqn:Hh; simpl; [|by unfold env_clone; rewrite Hh].
    destruct (env_clone_ok s h h' e Hok Hh) as (s' & Hs' & Hok' & Hhs & Hmaps).
    exists s'. split; [done|]. split; [done|]. rewrite Hhs, fmap_insert.
    assert (∀ e2, denote s' e2 = denote s e2) as Hden.
    { intros e2. unfold denote, iter_layers, map_at. by rewrite Hmaps. }
    rewrite Hden. f_equal. apply map_fmap_ext. intros. apply Hden.
  - eexists. split; [done|]. destruct Hr as [Hok <-]. split; [by apply env_drop_ok|].
    unfold env_drop. simpl. rewrite fmap_delete. f_equal.
  - rewrite env_insert_extend. pose proof (env_extend_refines s m h [(k, v)] Hr) as He.
    destruct (m !! h); [|done]. exact He.
  - pose proof (env_extend_refines s m h items Hr) as He. destruct (m !! h); [|done]. exact He.
Qed.

Lemma run_ops_refine ops (s : Store K V) m :
  env_refines s m →
  match run_ops spec_step ops m with
  | Some m' => ∃ s', run_ops env_step ops s = Some s' ∧ env_refines s' m'
  | None => run_ops env_step ops s = None
  end.
Proof.
  revert s m. induction ops as [|op ops IH]; intros s m Hr; simpl; [by exists s|].
  pose proof (env_step_refines op s m Hr) as Hstep.
  destruct (spec_step op m) as [m'|]; simpl; [|by rewrite Hstep].
  destruct Hstep as (s' & -> & Hr'). simpl. by apply IH.
Qed.
End programs.

(** C37: A program over environments behaves as if every environment were a
    finite map of its own: whatever was cloned, dropped or written, an
    environment holds what was written to it and to the environments it was
    cloned from before the clone, and writing to one environment never shows in
    another. *)
Theorem environments_do_not_interfere {K V : Type} `{Countable K} (ops : list (env_op K V)) :
  match run_ops spec_step ops ∅ with
  | Some m => ∃ s, run_ops env_step ops store_empty = Some s ∧ store_ok s ∧ denote s <$> handles s = m
  | None => run_ops env_step ops store_empty = None
  end.
Proof.
  pose proof (run_ops_refine ops store_empty ∅ store_empty_ok) as Hrun.
  destruct (run_ops spec_step ops ∅); [|done].
  destruct Hrun as (s & Hs & Hok & Hd). by exists s.
Qed.

(** In any reachable store, [get] is the lookup in the finite map, and
    [is_empty] holds exactly of the empty map. *)
Theorem env_get_and_is_empty {K V : Type} `{Countable K} (s : Store K V) (h : nat)
    (e : Environment) (k : K) :
  store_ok s → handles s !! h = Some e →
  env_get s h k = Some (denote s e !! k) ∧ (env_is_empty s e = true ↔ denote s e = ∅).
Proof. intros Hok Hh. split; [by apply env_get_ok|by eapply env_is_empty_ok]. Qed.

Lemma env_get_and_is_empty_witness :
  let s := mkStore (K := nat) (V := nat) {[0 := {[1 := 10]}]} {[7 := mkEnv 0 []]} 1 in
  env_get s 7 1 = Some (Some 10).
Proof.
  intros s. destruct (env_get_and_is_empty s 7 (mkEnv 0 []) 1) as [H _]; [|reflexivity|exact H].
  split; [by apply map_Forall_singleton; split; [simpl; lia|]|].
  exists (λ _, (0, [])). by apply map_Forall_singleton.
Defined.

(** Two environments that [ptr_eq] finds equal hold the same bindings. *)
Theorem env_ptr_eq_sound {K V : Type} `{Countable K} (s : Store K V) (h1 h2 : nat)
    (e1 e2 : Environment) :
  store_ok s → handles s !! h1 = Some e1 → handles s !! h2 = Some e2 →
  env_ptr_eq s e1 e2 = true → denote s e1 = denote s e2.
Proof. apply env_ptr_eq_ok. Qed.

Lemma env_ptr_eq_sound_witness :
  let s := mkStore (K := nat) (V := nat) {[0 := {[1 := 10]}]}
             {[7 := mkEnv 0 []; 8 := mkEnv 0 []]} 1 in
  denote s (mkEnv 0 []) = denote s (mkEnv 0 []).
Proof.
  intros s. apply (env_ptr_eq_sound s 7 8 (mkEnv 0 []) (mkEnv 0 [])); [|reflexivity..].
  split.
  - apply map_Forall_insert_2; [by split; [simpl; lia|]|].
    by apply map_Forall_singleton; split; [simpl; lia|].
  - exists (λ _, (0, [])). apply map_Forall_insert_2; [done|]. by apply map_Forall_singleton.
Defined.

(** Rebuilding an environment from [iter_elems] gives back its bindings,
    whatever order each hash map iterates in. *)
Theorem iter_elems_round_trip {K V : Type} `{Countable K} (order : gmap K V → list (K * V))
    (s : Store K V) (e : Environment) (s0 : Store K V) (h : nat) :
  (∀ m, order m ≡ₚ map_to_list m) →
  let s' := env_from_iter s0 h (iter_elems order s e) in
  ∃ e', handles s' !! h = Some e' ∧ denote s' e' = denote s e.
Proof.
  intros Hord s'. exists (mkEnv (fresh s0) []). split; [simpl; by rewrite lookup_insert_eq|].
  unfold denote, iter_layers, map_at. simpl. rewrite lookup_insert_eq. simpl.
  rewrite (iter_elems_ok order s e Hord), map_union_empty. done.
Qed.

Lemma iter_elems_round_trip_witness :
  let s := mkStore (K := nat) (V := nat) {[0 := {[1 := 10]}; 1 := {[1 := 11; 2 := 20]}]}
             {[7 := mkEnv 0 [(2, 1)]]} 3 in
  ∃ e', handles (env_from_iter s 8 (iter_elems map_to_list s (mkEnv 0 [(2, 1)]))) !! 8 = Some e' ∧
        denote (env_from_iter s 8 (iter_elems map_to_list s (mkEnv 0 [(2, 1)]))) e'
        = denote s (mkEnv 0 [(2, 1)]).
Proof. intros s. by apply (iter_elems_round_trip map_to_list s (mkEnv 0 [(2, 1)]) s 8). Defined.
