(* ===== verification/UnifTypes.v ===== *)
(** * Types for unification: [parser/src/typ.rs] and [core/src/typecheck/mod.rs]

    [TypeF], [RecordRowsF] and [EnumRowsF] are the open-recursive functors of
    the source; [UnifType], [UnifRecordRows] and [UnifEnumRows] tie the knot
    with unification variables, rigid constants and the level metadata. A
    [LocIdent] is its identifier (its equality ignores the position), a
    contract embedded in a type is an element of the parameter [Ctr].

    The second half is [Subst] (instantiation of a bound type, record rows or
    enum rows variable), the nine implementations of the source gathered by the
    kind of what is substituted. *)
From S2P Require Import Prelude.

Abbreviation Ident := string.
Abbreviation VarId := nat.

(** ** The functors *)

Record RecordRowF (Ty : Type) : Type := mkRecordRow { rrow_id : Ident; rrow_typ : Ty }.
Record EnumRowF (Ty : Type) : Type := mkEnumRow { erow_id : Ident; erow_typ : option Ty }.
Arguments mkRecordRow {Ty} _ _.
Arguments rrow_id {Ty} _.
Arguments rrow_typ {Ty} _.
Arguments mkEnumRow {Ty} _ _.
Arguments erow_id {Ty} _.
Arguments erow_typ {Ty} _.

Inductive RecordRowsF (Ty RRows : Type) : Type :=
| REmpty
| RExtend (row : RecordRowF Ty) (tail : RRows)
| RTailVar (id : Ident)
| RTailDyn.
Arguments REmpty {Ty RRows}.
Arguments RExtend {Ty RRows} row tail.
Arguments RTailVar {Ty RRows} id.
Arguments RTailDyn {Ty RRows}.

Inductive EnumRowsF (Ty ERows : Type) : Type :=
| EEmpty
| EExtend (row : EnumRowF Ty) (tail : ERows)
| ETailVar (id : Ident).
Arguments EEmpty {Ty ERows}.
Arguments EExtend {Ty ERows} row tail.
Arguments ETailVar {Ty ERows} id.

Inductive VarKind : Type :=
| KindType
| KindEnumRows (excluded : gset Ident)
| KindRecordRows (excluded : gset Ident).

#[export] Instance VarKind_eq_dec : EqDecision VarKind.
Proof. solve_decision. Defined.

Inductive VarKindDiscriminant : Type := DType | DEnumRows | DRecordRows.

#[export] Instance VarKindDiscriminant_eq_dec : EqDecision VarKindDiscriminant.
Proof. solve_decision. Defined.

Definition var_kind_discriminant (vk : VarKind) : VarKindDiscriminant :=
  match vk with
  | KindType => DType
  | KindEnumRows _ => DEnumRows
  | KindRecordRows _ => DRecordRows
  end.

Inductive DictTypeFlavour : Type := FlavourType | FlavourContract.

Inductive TypeF (Ty RRows ERows Te : Type) : Type :=
| Dyn | Number | Bool | String | Symbol | ForeignId
| Contract (t : Te)
| Arrow (dom codom : Ty)
| Var (id : Ident)
| Forall (var : Ident) (var_kind : VarKind) (body : Ty)
| Enum (erows : ERows)
| Record (rrows : RRows)
| Dict (type_fields : Ty) (flavour : DictTypeFlavour)
| Array (t : Ty)
| Wildcard (id : nat).
Arguments Dyn {Ty RRows ERows Te}.
Arguments Number {Ty RRows ERows Te}.
Arguments Bool {Ty RRows ERows Te}.
Arguments String {Ty RRows ERows Te}.
Arguments Symbol {Ty RRows ERows Te}.
Arguments ForeignId {Ty RRows ERows Te}.
Arguments Contract {Ty RRows ERows Te} t.
Arguments Arrow {Ty RRows ERows Te} dom codom.
Arguments Var {Ty RRows ERows Te} id.
Arguments Forall {Ty RRows ERows Te} var var_kind body.
Arguments Enum {Ty RRows ERows Te} erows.
Arguments Record {Ty RRows ERows Te} rrows.
Arguments Dict {Ty RRows ERows Te} type_fields flavour.
Arguments Array {Ty RRows ERows Te} t.
Arguments Wildcard {Ty RRows ERows Te} id.

(** *** [try_map_state]: map on the children with a threaded state and an early
    return. [M] is the effect of the closures ([Result] in the source). *)
Section try_map_state.
Context {M : Type → Type} `{!MRet M, !MBind M}.
Context {S Ty RRows ERows Te TyO RRowsO ERowsO TeO : Type}.
Context (f : Ty → S → M (TyO * S)).
Context (f_rrows : RRows → S → M (RRowsO * S)).
Context (f_erows : ERows → S → M (ERowsO * S)).
Context (f_ctr : Te → S → M (TeO * S)).

Definition rrows_try_map_state (rrows : RecordRowsF Ty RRows) (s : S)
    : M (RecordRowsF TyO RRowsO * S) :=
  match rrows with
  | REmpty => mret (REmpty, s)
  | RExtend row tail =>
      '(typ, s) ← f (rrow_typ row) s;
      '(tail, s) ← f_rrows tail s;
      mret (RExtend (mkRecordRow (rrow_id row) typ) tail, s)
  | RTailDyn => mret (RTailDyn, s)
  | RTailVar id => mret (RTailVar id, s)
  end.

Definition erows_try_map_state (erows : EnumRowsF Ty ERows) (s : S)
    : M (EnumRowsF TyO ERowsO * S) :=
  match erows with
  | EEmpty => mret (EEmpty, s)
  | EExtend row tail =>
      '(typ, s) ←
        match erow_typ row with
        | Some typ => '(typ, s) ← f typ s; mret (Some typ, s)
        | None => mret (None, s)
        end;
      '(tail, s) ← f_erows tail s;
      mret (EExtend (mkEnumRow (erow_id row) typ) tail, s)
  | ETailVar id => mret (ETailVar id, s)
  end.

Definition type_try_map_state (t : TypeF Ty RRows ERows Te) (s : S)
    : M (TypeF TyO RRowsO ERowsO TeO * S) :=
  match t with
  | Dyn => mret (Dyn, s)
  | Number => mret (Number, s)
  | Bool => mret (Bool, s)
  | String => mret (String, s)
  | ForeignId => mret (ForeignId, s)
  | Symbol => mret (Symbol, s)
  | Contract t => '(t, s) ← f_ctr t s; mret (Contract t, s)
  | Arrow dom codom =>
      '(dom, s) ← f dom s;
      '(codom, s) ← f codom s;
      mret (Arrow dom codom, s)
  | Var i => mret (Var i, s)
  | Forall var var_kind body => '(body, s) ← f body s; mret (Forall var var_kind body, s)
  | Enum erows => '(erows, s) ← f_erows erows s; mret (Enum erows, s)
  | Record rrows => '(rrows, s) ← f_rrows rrows s; mret (Record rrows, s)
  | Dict type_fields attrs => '(t, s) ← f type_fields s; mret (Dict t attrs, s)
  | Array t => '(t, s) ← f t s; mret (Array t, s)
  | Wildcard i => mret (Wildcard i, s)
  end.
End try_map_state.

(** *** [map_state]: the infallible variant. *)
Section map_state.
Context {S Ty RRows ERows Te TyO RRowsO ERowsO TeO : Type}.
Context (f : Ty → S → TyO * S).
Context (f_rrows : RRows → S → RRowsO * S).
Context (f_erows : ERows → S → ERowsO * S).
Context (f_ctr : Te → S → TeO * S).

Definition rrows_map_state (rrows : RecordRowsF Ty RRows) (s : S)
    : RecordRowsF TyO RRowsO * S :=
  match rrows with
  | REmpty => (REmpty, s)
  | RExtend (mkRecordRow id typ) tail =>
      let '(typ, s) := f typ s in
      let '(tail, s) := f_rrows tail s in
      (RExtend (mkRecordRow id typ) tail, s)
  | RTailDyn => (RTailDyn, s)
  | RTailVar id => (RTailVar id, s)
  end.

Definition erows_map_state (erows : EnumRowsF Ty ERows) (s : S)
    : EnumRowsF TyO ERowsO * S :=
  match erows with
  | EEmpty => (EEmpty, s)
  | EExtend (mkEnumRow id typ) tail =>
      let '(typ, s) :=
        match typ with
        | Some typ => let '(typ, s) := f typ s in (Some typ, s)
        | None => (None, s)
        end in
      let '(tail, s) := f_erows tail s in
      (EExtend (mkEnumRow id typ) tail, s)
  | ETailVar id => (ETailVar id, s)
  end.

Definition type_map_state (t : TypeF Ty RRows ERows Te) (s : S)
    : TypeF TyO RRowsO ERowsO TeO * S :=
  match t with
  | Dyn => (Dyn, s)
  | Number => (Number, s)
  | Bool => (Bool, s)
  | String => (String, s)
  | ForeignId => (ForeignId, s)
  | Symbol => (Symbol, s)
  | Contract t => let '(t, s) := f_ctr t s in (Contract t, s)
  | Arrow dom codom =>
      let '(dom, s) := f dom s in
      let '(codom, s) := f codom s in
      (Arrow dom codom, s)
  | Var i => (Var i, s)
  | Forall var var_kind body => let '(body, s) := f body s in (Forall var var_kind body, s)
  | Enum erows => let '(erows, s) := f_erows erows s in (Enum erows, s)
  | Record rrows => let '(rrows, s) := f_rrows rrows s in (Record rrows, s)
  | Dict type_fields attrs => let '(t, s) := f type_fields s in (Dict t attrs, s)
  | Array t => let '(t, s) := f t s in (Array t, s)
  | Wildcard i => (Wildcard i, s)
  end.
End map_state.

(** ** Variable levels *)

(** A [NonZeroU16]. *)
Abbreviation VarLevel := nat.
Definition NO_VAR : VarLevel := 1.
Definition MIN_LEVEL : VarLevel := 2.
Definition MAX_LEVEL : VarLevel := N.to_nat 65535.

(** [VarLevel::incr], a panic on overflow. *)
Definition level_incr (l : VarLevel) : option VarLevel :=
  if l <? MAX_LEVEL then Some (l + 1) else None.

Record VarLevelsData : Type := mkLevels {
  upper_bound : VarLevel;
  pending : option VarLevel;
}.

Definition new_from_bound (upper_bound : VarLevel) : VarLevelsData :=
  mkLevels upper_bound None.

Definition new_no_uvars : VarLevelsData := new_from_bound NO_VAR.

(** ** Unification types *)

Section unif_types.
Context (Ctr : Type).

Inductive UnifType : Type :=
| TConcrete (typ : TypeF UnifType UnifRecordRows UnifEnumRows Ctr)
            (var_levels_data : VarLevelsData)
| TConstant (id : VarId)
| TUnifVar (id : VarId) (init_level : VarLevel)
with UnifRecordRows : Type :=
| RConcrete (rrows : RecordRowsF UnifType UnifRecordRows)
            (var_levels_data : VarLevelsData)
| RConstant (id : VarId)
| RUnifVar (id : VarId) (init_level : VarLevel)
with UnifEnumRows : Type :=
| EConcrete (erows : EnumRowsF UnifType UnifEnumRows)
            (var_levels_data : VarLevelsData)
| EConstant (id : VarId)
| EUnifVar (id : VarId) (init_level : VarLevel).
End unif_types.
Arguments TConcrete {Ctr} typ var_levels_data.
Arguments TConstant {Ctr} id.
Arguments TUnifVar {Ctr} id init_level.
Arguments RConcrete {Ctr} rrows var_levels_data.
Arguments RConstant {Ctr} id.
Arguments RUnifVar {Ctr} id init_level.
Arguments EConcrete {Ctr} erows var_levels_data.
Arguments EConstant {Ctr} id.
Arguments EUnifVar {Ctr} id init_level.

Abbreviation UnifTypeUnr Ctr :=
  (TypeF (UnifType Ctr) (UnifRecordRows Ctr) (UnifEnumRows Ctr) Ctr).
Abbreviation UnifRecordRowsUnr Ctr := (RecordRowsF (UnifType Ctr) (UnifRecordRows Ctr)).
Abbreviation UnifEnumRowsUnr Ctr := (EnumRowsF (UnifType Ctr) (UnifEnumRows Ctr)).

Section levels.
Context {Ctr : Type}.

(** *** [var_level_upper_bound] *)

Definition type_ub (t : UnifType Ctr) : VarLevel :=
  match t with
  | TConcrete _ d => upper_bound d
  | TUnifVar _ init_level => init_level
  | TConstant _ => NO_VAR
  end.

Definition erows_ub (e : UnifEnumRows Ctr) : VarLevel :=
  match e with
  | EConcrete _ d => upper_bound d
  | EUnifVar _ init_level => init_level
  | EConstant _ => NO_VAR
  end.

Definition rrows_ub (r : UnifRecordRows Ctr) : VarLevel :=
  match r with
  | RConcrete _ d => upper_bound d
  | RUnifVar _ init_level => init_level
  | RConstant _ => NO_VAR
  end.

Definition type_unr_ub (t : UnifTypeUnr Ctr) : VarLevel :=
  match t with
  | Dyn | Bool | Number | String | ForeignId | Symbol => NO_VAR
  | Arrow domain codomain => Nat.max (type_ub domain) (type_ub codomain)
  | Forall _ _ body => type_ub body
  | Enum erows => erows_ub erows
  | Record rrows => rrows_ub rrows
  | Dict type_fields _ => type_ub type_fields
  | Array ty_elts => type_ub ty_elts
  | Wildcard _ | Var _ | Contract _ => NO_VAR
  end.

(** The row itself is not looked at. *)
Definition erows_unr_ub (e : UnifEnumRowsUnr Ctr) : VarLevel :=
  match e with
  | EEmpty | ETailVar _ => NO_VAR
  | EExtend _ tail => erows_ub tail
  end.

Definition rrows_unr_ub (r : UnifRecordRowsUnr Ctr) : VarLevel :=
  match r with
  | REmpty | RTailVar _ | RTailDyn => NO_VAR
  | RExtend (mkRecordRow _ typ) tail => Nat.max (rrows_ub tail) (type_ub typ)
  end.

(** *** [UnifType::concrete] and its variants *)

Definition type_concrete (typ : UnifTypeUnr Ctr) : UnifType Ctr :=
  TConcrete typ (new_from_bound (type_unr_ub typ)).
Definition rrows_concrete (typ : UnifRecordRowsUnr Ctr) : UnifRecordRows Ctr :=
  RConcrete typ (new_from_bound (rrows_unr_ub typ)).
Definition erows_concrete (typ : UnifEnumRowsUnr Ctr) : UnifEnumRows Ctr :=
  EConcrete typ (new_from_bound (erows_unr_ub typ)).

Definition from_constant_of_kind (c : VarId) (k : VarKindDiscriminant) : UnifType Ctr :=
  match k with
  | DType => TConstant c
  | DEnumRows => TConcrete (Enum (EConstant c)) new_no_uvars
  | DRecordRows => TConcrete (Record (RConstant c)) new_no_uvars
  end.

(** ** Substitution *)

(** What a bound variable is replaced by, one constructor per [T] of
    [Subst<T>]. *)
Inductive SubstTo : Type :=
| ToType (to : UnifType Ctr)
| ToRRows (to : UnifRecordRows Ctr)
| ToERows (to : UnifEnumRows Ctr).

Definition set_upper_bound (ub : VarLevel) (d : VarLevelsData) : VarLevelsData :=
  mkLevels ub (pending d).

(** The closures given to [map_state]: substitute in a child and raise the
    bound to the child's. *)
Definition raising {A : Type} (f : A → A * VarLevel) (x : A) (ub : VarLevel) : A * VarLevel :=
  let '(x', new_ub) := f x in (x', Nat.max ub new_ub).

Fixpoint subst_levels (id : Ident) (to : SubstTo) (t : UnifType Ctr)
    : UnifType Ctr * VarLevel :=
  match t with
  | TConcrete typ d =>
      let rec :=
        let '(typ', ub) :=
          type_map_state (raising (subst_levels id to)) (raising (subst_levels_rrows id to))
            (raising (subst_levels_erows id to)) pair typ NO_VAR in
        match to with
        | ToRRows _ => (TConcrete typ' d, ub)
        | _ => (TConcrete typ' (set_upper_bound ub d), ub)
        end in
      match typ, to with
      | Var var_id, ToType t' => if decide (var_id = id) then (t', type_ub t') else rec
      | _, _ => rec
      end
  | _ => (t, type_ub t)
  end
with subst_levels_rrows (id : Ident) (to : SubstTo) (r : UnifRecordRows Ctr)
    : UnifRecordRows Ctr * VarLevel :=
  match r with
  | RConcrete rrows d =>
      let rec :=
        let '(rrows', ub) :=
          rrows_map_state (raising (subst_levels id to)) (raising (subst_levels_rrows id to))
            rrows NO_VAR in
        (RConcrete rrows' (set_upper_bound ub d), ub) in
      match rrows, to with
      | RTailVar var_id, ToRRows r' => if decide (var_id = id) then (r', rrows_ub r') else rec
      | _, _ => rec
      end
  | _ => (r, rrows_ub r)
  end
with subst_levels_erows (id : Ident) (to : SubstTo) (e : UnifEnumRows Ctr)
    : UnifEnumRows Ctr * VarLevel :=
  match e with
  | EConcrete erows d =>
      let rec :=
        let '(erows', ub) :=
          erows_map_state (raising (subst_levels id to)) (raising (subst_levels_erows id to))
            erows NO_VAR in
        match to with
        | ToRRows _ => (EConcrete erows' d, ub)
        | _ => (EConcrete erows' (set_upper_bound ub d), ub)
        end in
      match erows, to with
      | ETailVar var_id, ToERows e' => if decide (var_id = id) then (e', erows_ub e') else rec
      | _, _ => rec
      end
  | _ => (e, erows_ub e)
  end.

Definition subst (t : UnifType Ctr) (id : Ident) (to : SubstTo) : UnifType Ctr :=
  (subst_levels id to t).1.

End levels.
