(* ===== verification/UnifTable.v ===== *)
(** * The unification table: [core/src/typecheck/unif.rs], lines 42-1022

    [UnifTable] is the table of the source, its three vectors of slots and its
    three stacks of pending level updates. Indexing a slot that does not exist
    and a failed [debug_assert!] are [Panic]; following a chain of variables,
    and traversing types through their roots, take fuel. The fuel given to
    [root_type] and its variants is the size of the table, which is enough for
    the tables [unify] builds ([SlotFacts.root_total]).

    The three [force_*_updates] of the source each carry their own copy of the
    functions [update_utype_with_lvl], [update_rrows_with_lvl] and
    [update_erows_with_lvl]; the copies differ only in the kind of variables
    whose levels they update, which is the argument [k] here. *)
From S2P Require Import Prelude UnifTypes.

(** ** Slots *)

Record UnifSlot (Ty : Type) : Type := mkSlot {
  value : option Ty;
  level : VarLevel;
}.
Arguments mkSlot {Ty} _ _.
Arguments value {Ty} _.
Arguments level {Ty} _.

Definition slot_new {Ty} (level : VarLevel) : UnifSlot Ty := mkSlot None level.

(** What the three kinds of unification types share: a constructor for
    unification variables, and its inverse. *)
Class HasUnifVar (Ty : Type) : Type := {
  UnifVar : VarId → VarLevel → Ty;
  as_unif_var : Ty → option (VarId * VarLevel);
}.

Section slots.
Context {Ty : Type} `{HasUnifVar Ty}.
Implicit Types (slots : list (UnifSlot Ty)).

(** [root_type], [root_rrows], [root_erows]: follow the links. *)
Fixpoint root (n : nat) slots (var_id : VarId) (init_level : VarLevel) : outcome Ty :=
  match n with
  | 0 => OutOfFuel
  | S n =>
      slot ← unwrap (slots !! var_id);
      match value slot with
      | None => Done (UnifVar var_id init_level)
      | Some ty =>
          match as_unif_var ty with
          | Some (id, init_level) => root n slots id init_level
          | None => Done ty
          end
      end
  end.

(** [into_root]. *)
Definition into_root slots (ty : Ty) : outcome Ty :=
  match as_unif_var ty with
  | Some (id, init_level) => root (S (length slots)) slots id init_level
  | None => Done ty
  end.

(** [self.types[var].level] and its variants. *)
Definition slot_level slots (var : VarId) : outcome VarLevel :=
  slot ← unwrap (slots !! var); Done (level slot).

(** [if new_level < self.types[id].level { self.types[id].level = new_level }]. *)
Definition lower_level slots (id : VarId) (new_level : VarLevel)
    : outcome (list (UnifSlot Ty)) :=
  slot ← unwrap (slots !! id);
  Done (if new_level <? level slot then <[id := mkSlot (value slot) new_level]> slots else slots).

Definition set_value slots (var : VarId) (v : option Ty) : outcome (list (UnifSlot Ty)) :=
  slot ← unwrap (slots !! var);
  Done (<[var := mkSlot v (level slot)]> slots).

(** [debug_assert!(self.types[var].value.is_none())]. *)
Definition assert_unassigned slots (var : VarId) : outcome unit :=
  slot ← unwrap (slots !! var);
  assert (match value slot with None => true | Some _ => false end).
End slots.

Section table.
Context {Ctr : Type}.
Abbreviation Ty := (UnifType Ctr).
Abbreviation RR := (UnifRecordRows Ctr).
Abbreviation ER := (UnifEnumRows Ctr).

#[export] Instance type_has_unif_var : HasUnifVar Ty := {
  UnifVar := TUnifVar;
  as_unif_var t := match t with TUnifVar id l => Some (id, l) | _ => None end;
}.
#[export] Instance rrows_has_unif_var : HasUnifVar RR := {
  UnifVar := RUnifVar;
  as_unif_var t := match t with RUnifVar id l => Some (id, l) | _ => None end;
}.
#[export] Instance erows_has_unif_var : HasUnifVar ER := {
  UnifVar := EUnifVar;
  as_unif_var t := match t with EUnifVar id l => Some (id, l) | _ => None end;
}.

Record UnifTable : Type := mkTable {
  types : list (UnifSlot Ty);
  rrows : list (UnifSlot RR);
  erows : list (UnifSlot ER);
  pending_type_updates : list VarId;
  pending_rrows_updates : list VarId;
  pending_erows_updates : list VarId;
}.

Definition table_new : UnifTable := mkTable [] [] [] [] [] [].

Definition with_types ts tb : UnifTable :=
  mkTable ts (rrows tb) (erows tb)
    (pending_type_updates tb) (pending_rrows_updates tb) (pending_erows_updates tb).
Definition with_rrows rs tb : UnifTable :=
  mkTable (types tb) rs (erows tb)
    (pending_type_updates tb) (pending_rrows_updates tb) (pending_erows_updates tb).
Definition with_erows es tb : UnifTable :=
  mkTable (types tb) (rrows tb) es
    (pending_type_updates tb) (pending_rrows_updates tb) (pending_erows_updates tb).
Definition with_pending_types ps tb : UnifTable :=
  mkTable (types tb) (rrows tb) (erows tb)
    ps (pending_rrows_updates tb) (pending_erows_updates tb).
Definition with_pending_rrows ps tb : UnifTable :=
  mkTable (types tb) (rrows tb) (erows tb)
    (pending_type_updates tb) ps (pending_erows_updates tb).
Definition with_pending_erows ps tb : UnifTable :=
  mkTable (types tb) (rrows tb) (erows tb)
    (pending_type_updates tb) (pending_rrows_updates tb) ps.

(** ** Queries *)

Definition root_type (tb : UnifTable) (v : VarId) (l : VarLevel) : outcome Ty :=
  into_root (types tb) (TUnifVar v l).
Definition root_rrows (tb : UnifTable) (v : VarId) (l : VarLevel) : outcome RR :=
  into_root (rrows tb) (RUnifVar v l).
Definition root_erows (tb : UnifTable) (v : VarId) (l : VarLevel) : outcome ER :=
  into_root (erows tb) (EUnifVar v l).

Definition get_level (tb : UnifTable) (v : VarId) : outcome VarLevel := slot_level (types tb) v.
Definition get_rrows_level (tb : UnifTable) (v : VarId) : outcome VarLevel :=
  slot_level (rrows tb) v.
Definition get_erows_level (tb : UnifTable) (v : VarId) : outcome VarLevel :=
  slot_level (erows tb) v.

Definition max_uvars_count (tb : UnifTable) : VarId :=
  Nat.max (length (types tb)) (Nat.max (length (rrows tb)) (length (erows tb))).

(** ** Allocation *)

Definition fresh_type_var_id (tb : UnifTable) (current_level : VarLevel) : VarId * UnifTable :=
  (length (types tb), with_types (types tb ++ [slot_new current_level]) tb).
Definition fresh_rrows_var_id (tb : UnifTable) (current_level : VarLevel) : VarId * UnifTable :=
  (length (rrows tb), with_rrows (rrows tb ++ [slot_new current_level]) tb).
Definition fresh_erows_var_id (tb : UnifTable) (current_level : VarLevel) : VarId * UnifTable :=
  (length (erows tb), with_erows (erows tb ++ [slot_new current_level]) tb).

Definition fresh_type_uvar (tb : UnifTable) (l : VarLevel) : Ty * UnifTable :=
  let '(id, tb) := fresh_type_var_id tb l in (TUnifVar id l, tb).
Definition fresh_rrows_uvar (tb : UnifTable) (l : VarLevel) : RR * UnifTable :=
  let '(id, tb) := fresh_rrows_var_id tb l in (RUnifVar id l, tb).
Definition fresh_erows_uvar (tb : UnifTable) (l : VarLevel) : ER * UnifTable :=
  let '(id, tb) := fresh_erows_var_id tb l in (EUnifVar id l, tb).

Definition fresh_type_const (tb : UnifTable) (l : VarLevel) : Ty * UnifTable :=
  let '(id, tb) := fresh_type_var_id tb l in (TConstant id, tb).
Definition fresh_rrows_const (tb : UnifTable) (l : VarLevel) : RR * UnifTable :=
  let '(id, tb) := fresh_rrows_var_id tb l in (RConstant id, tb).
Definition fresh_erows_const (tb : UnifTable) (l : VarLevel) : ER * UnifTable :=
  let '(id, tb) := fresh_erows_var_id tb l in (EConstant id, tb).

(** ** Assignment *)

(** Update the level at once for a variable, record a pending update for a
    concrete type. *)
Definition update_type_level (tb : UnifTable) (var : VarId) (uty : Ty) (new_level : VarLevel)
    : outcome (Ty * UnifTable) :=
  match uty with
  | TUnifVar id init_level =>
      ts ← lower_level (types tb) id new_level;
      Done (TUnifVar id init_level, with_types ts tb)
  | TConcrete typ d =>
      if new_level <=? upper_bound d then
        Done (TConcrete typ (mkLevels (upper_bound d) (Some new_level)),
              with_pending_types (pending_type_updates tb ++ [var]) tb)
      else Done (uty, tb)
  | TConstant _ => Done (uty, tb)
  end.

Definition assign_type (tb : UnifTable) (var : VarId) (uty : Ty) : outcome UnifTable :=
  let assign :=
    new_level ← slot_level (types tb) var;
    '(uty_lvl_updated, tb) ← update_type_level tb var uty new_level;
    ts ← set_value (types tb) var (Some uty_lvl_updated);
    Done (with_types ts tb) in
  match uty with
  | TUnifVar id _ =>
      if decide (id = var) then Done tb
      else
        _ ← assert_unassigned (types tb) id;
        _ ← assert_unassigned (types tb) var;
        assign
  | _ => _ ← assert_unassigned (types tb) var; assign
  end.

(** The rows are not returned: the pending level is not stored in them. *)
Definition update_rrows_level (tb : UnifTable) (var : VarId) (uty : RR) (new_level : VarLevel)
    : outcome UnifTable :=
  match uty with
  | RUnifVar var_id _ =>
      rs ← lower_level (rrows tb) var_id new_level;
      Done (with_rrows rs tb)
  | RConcrete _ d =>
      if new_level <=? upper_bound d
      then Done (with_pending_rrows (pending_rrows_updates tb ++ [var]) tb)
      else Done tb
  | RConstant _ => Done tb
  end.

Definition assign_rrows (tb : UnifTable) (var : VarId) (rr : RR) : outcome UnifTable :=
  let assign :=
    new_level ← slot_level (rrows tb) var;
    tb ← update_rrows_level tb var rr new_level;
    _ ← assert_unassigned (rrows tb) var;
    rs ← set_value (rrows tb) var (Some rr);
    Done (with_rrows rs tb) in
  match rr with
  | RUnifVar id _ => if decide (id = var) then Done tb else assign
  | _ => assign
  end.

Definition update_erows_level (tb : UnifTable) (var : VarId) (uty : ER) (new_level : VarLevel)
    : outcome UnifTable :=
  match uty with
  | EUnifVar var_id _ =>
      es ← lower_level (erows tb) var_id new_level;
      Done (with_erows es tb)
  | EConcrete _ d =>
      if new_level <=? upper_bound d
      then Done (with_pending_erows (pending_erows_updates tb ++ [var]) tb)
      else Done tb
  | EConstant _ => Done tb
  end.

Definition assign_erows (tb : UnifTable) (var : VarId) (er : ER) : outcome UnifTable :=
  let assign :=
    new_level ← slot_level (erows tb) var;
    tb ← update_erows_level tb var er new_level;
    _ ← assert_unassigned (erows tb) var;
    es ← set_value (erows tb) var (Some er);
    Done (with_erows es tb) in
  match er with
  | EUnifVar id _ => if decide (id = var) then Done tb else assign
  | _ => assign
  end.

(** ** Forcing the pending updates *)

(** The level an update of level [l] leaves below a node with data [d]. *)
Definition pushed_level (d : VarLevelsData) (l : VarLevel) : VarLevel :=
  match pending d with Some pending_level => Nat.max pending_level l | None => l end.

Fixpoint update_utype_with_lvl (k : VarKindDiscriminant) (n : nat) (uty : Ty) (l : VarLevel)
    (tb : UnifTable) : outcome (Ty * UnifTable) :=
  match n with
  | 0 => OutOfFuel
  | S n =>
      let map typ l tb :=
        type_try_map_state
          (λ uty tb, update_utype_with_lvl k n uty l tb)
          (λ rr tb, update_rrows_with_lvl k n rr l tb)
          (λ er tb, update_erows_with_lvl k n er l tb)
          (λ ctr tb, Done (ctr, tb)) typ tb in
      uty ← into_root (types tb) uty;
      match uty with
      | TUnifVar id init_level =>
          if decide (k = DType) then
            ts ← lower_level (types tb) id l;
            Done (TUnifVar id init_level, with_types ts tb)
          else Done (uty, tb)
      | TConcrete typ d =>
          if decide (k = DType) then
            if l <? upper_bound d then
              '(typ, tb) ← map typ (pushed_level d l) tb;
              Done (TConcrete typ (mkLevels (pushed_level d l) None), tb)
            else Done (uty, tb)
          else
            '(typ, tb) ← map typ l tb;
            Done (TConcrete typ d, tb)
      | TConstant _ => Done (uty, tb)
      end
  end
with update_rrows_with_lvl (k : VarKindDiscriminant) (n : nat) (rr : RR) (l : VarLevel)
    (tb : UnifTable) : outcome (RR * UnifTable) :=
  match n with
  | 0 => OutOfFuel
  | S n =>
      let map rr l tb :=
        rrows_try_map_state
          (λ uty tb, update_utype_with_lvl k n uty l tb)
          (λ rr tb, update_rrows_with_lvl k n rr l tb) rr tb in
      rr ← into_root (rrows tb) rr;
      match rr with
      | RUnifVar id init_level =>
          if decide (k = DRecordRows) then
            rs ← lower_level (rrows tb) id l;
            Done (RUnifVar id init_level, with_rrows rs tb)
          else Done (rr, tb)
      | RConcrete r d =>
          if decide (k = DRecordRows) then
            if l <? upper_bound d then
              '(r, tb) ← map r (pushed_level d l) tb;
              Done (RConcrete r (mkLevels (pushed_level d l) None), tb)
            else Done (rr, tb)
          else
            '(r, tb) ← map r l tb;
            Done (RConcrete r d, tb)
      | RConstant _ => Done (rr, tb)
      end
  end
with update_erows_with_lvl (k : VarKindDiscriminant) (n : nat) (er : ER) (l : VarLevel)
    (tb : UnifTable) : outcome (ER * UnifTable) :=
  match n with
  | 0 => OutOfFuel
  | S n =>
      let map er l tb :=
        erows_try_map_state
          (λ uty tb, update_utype_with_lvl k n uty l tb)
          (λ er tb, update_erows_with_lvl k n er l tb) er tb in
      er ← into_root (erows tb) er;
      match er with
      | EUnifVar id init_level =>
          if decide (k = DEnumRows) then
            es ← lower_level (erows tb) id l;
            Done (EUnifVar id init_level, with_erows es tb)
          else Done (er, tb)
      | EConcrete e d =>
          if decide (k = DEnumRows) then
            if l <? upper_bound d then
              '(e, tb) ← map e (pushed_level d l) tb;
              Done (EConcrete e (mkLevels (pushed_level d l) None), tb)
            else Done (er, tb)
          else
            '(e, tb) ← map e l tb;
            Done (EConcrete e d, tb)
      | EConstant _ => Done (er, tb)
      end
  end.

(** Whether the update of a node with bound [ub] to [pending_level] may be
    delayed further when unifying with a constant of level [cl]. *)
Definition irrelevant_level_update (ub pending_level cl : VarLevel) : bool :=
  (ub <? cl) || (cl <=? pending_level).

(** The boolean is [true] when the update is delayed. *)
Definition update_utype (n : nat) (uty : Ty) (constant_level : VarLevel) (tb : UnifTable)
    : outcome (Ty * bool * UnifTable) :=
  match uty with
  | TUnifVar _ _ => Panic
  | TConcrete typ (mkLevels ub (Some pending_level)) =>
      if irrelevant_level_update ub pending_level constant_level
      then Done (TConcrete typ (mkLevels pending_level (Some pending_level)), true, tb)
      else
        '(typ, tb) ←
          (if pending_level <? ub then
             type_try_map_state
               (λ uty tb, update_utype_with_lvl DType n uty pending_level tb)
               (λ rr tb, update_rrows_with_lvl DType n rr pending_level tb)
               (λ er tb, update_erows_with_lvl DType n er pending_level tb)
               (λ ctr tb, Done (ctr, tb)) typ tb
           else Done (typ, tb));
        Done (TConcrete typ (mkLevels pending_level None), false, tb)
  | _ => Done (uty, false, tb)
  end.

Definition update_rrows (n : nat) (rr : RR) (constant_level : VarLevel) (tb : UnifTable)
    : outcome (RR * bool * UnifTable) :=
  match rr with
  | RUnifVar _ _ => Panic
  | RConcrete r (mkLevels ub (Some pending_level)) =>
      if irrelevant_level_update ub pending_level constant_level
      then Done (RConcrete r (mkLevels pending_level (Some pending_level)), true, tb)
      else
        '(r, tb) ←
          (if pending_level <? ub then
             rrows_try_map_state
               (λ uty tb, update_utype_with_lvl DRecordRows n uty pending_level tb)
               (λ rr tb, update_rrows_with_lvl DRecordRows n rr pending_level tb) r tb
           else Done (r, tb));
        Done (RConcrete r (mkLevels pending_level None), false, tb)
  | _ => Done (rr, false, tb)
  end.

Definition update_erows (n : nat) (er : ER) (constant_level : VarLevel) (tb : UnifTable)
    : outcome (ER * bool * UnifTable) :=
  match er with
  | EUnifVar _ _ => Panic
  | EConcrete e (mkLevels ub (Some pending_level)) =>
      if irrelevant_level_update ub pending_level constant_level
      then Done (EConcrete e (mkLevels pending_level (Some pending_level)), true, tb)
      else
        '(e, tb) ←
          (if pending_level <? ub then
             erows_try_map_state
               (λ uty tb, update_utype_with_lvl DEnumRows n uty pending_level tb)
               (λ er tb, update_erows_with_lvl DEnumRows n er pending_level tb) e tb
           else Done (e, tb));
        Done (EConcrete e (mkLevels pending_level None), false, tb)
  | _ => Done (er, false, tb)
  end.

(** The closure given to [filter]: take the value out of its slot, update it,
    put it back. *)
Definition force_type_update (n : nat) (constant_level : VarLevel) (id : VarId)
    (tb : UnifTable) : outcome (bool * UnifTable) :=
  slot ← unwrap (types tb !! id);
  typ ← unwrap (value slot);
  ts ← set_value (types tb) id None;
  '(new_type, delayed, tb) ← update_utype n typ constant_level (with_types ts tb);
  ts ← set_value (types tb) id (Some new_type);
  Done (delayed, with_types ts tb).

Definition force_rrows_update (n : nat) (constant_level : VarLevel) (id : VarId)
    (tb : UnifTable) : outcome (bool * UnifTable) :=
  slot ← unwrap (rrows tb !! id);
  rr ← unwrap (value slot);
  rs ← set_value (rrows tb) id None;
  '(new_rrows, delay, tb) ← update_rrows n rr constant_level (with_rrows rs tb);
  rs ← set_value (rrows tb) id (Some new_rrows);
  Done (delay, with_rrows rs tb).

Definition force_erows_update (n : nat) (constant_level : VarLevel) (id : VarId)
    (tb : UnifTable) : outcome (bool * UnifTable) :=
  slot ← unwrap (erows tb !! id);
  er ← unwrap (value slot);
  es ← set_value (erows tb) id None;
  '(new_erows, delay, tb) ← update_erows n er constant_level (with_erows es tb);
  es ← set_value (erows tb) id (Some new_erows);
  Done (delay, with_erows es tb).

(** [into_iter().filter(..).collect()] with a stateful closure. *)
Fixpoint filter_state (f : VarId → UnifTable → outcome (bool * UnifTable)) (ids : list VarId)
    (tb : UnifTable) : outcome (list VarId * UnifTable) :=
  match ids with
  | [] => Done ([], tb)
  | id :: ids =>
      '(keep, tb) ← f id tb;
      '(rest, tb) ← filter_state f ids tb;
      Done (if (keep : bool) then id :: rest else rest, tb)
  end.

Definition force_type_updates (n : nat) (constant_level : VarLevel) (tb : UnifTable)
    : outcome UnifTable :=
  '(rest, tb) ← filter_state (force_type_update n constant_level) (pending_type_updates tb)
                  (with_pending_types [] tb);
  Done (with_pending_types rest tb).

Definition force_rrows_updates (n : nat) (constant_level : VarLevel) (tb : UnifTable)
    : outcome UnifTable :=
  '(rest, tb) ← filter_state (force_rrows_update n constant_level) (pending_rrows_updates tb)
                  (with_pending_rrows [] tb);
  Done (with_pending_rrows rest tb).

Definition force_erows_updates (n : nat) (constant_level : VarLevel) (tb : UnifTable)
    : outcome UnifTable :=
  '(rest, tb) ← filter_state (force_erows_update n constant_level) (pending_erows_updates tb)
                  (with_pending_erows [] tb);
  Done (with_pending_erows rest tb).
End table.
Arguments UnifTable : clear implicits.
