(* ===== verification/SlotFacts.v ===== *)
(** * Slots of the unification table: chains, roots and updates

    What [root], [into_root], [lower_level] and [set_value] do, for the three
    kinds of slots at once. [rooted] says that the chain of variables starting
    at a variable ends; it depends on the values of the slots only, not on the
    levels. *)
From S2P Require Import Prelude UnifTypes UnifTable.

Class HasUnifVarLaws (Ty : Type) `{!HasUnifVar Ty} : Prop := {
  as_unif_var_UnifVar v l : as_unif_var (UnifVar v l) = Some (v, l);
  as_unif_var_Some t v l : as_unif_var t = Some (v, l) → t = UnifVar v l;
}.

#[export] Instance type_unif_var_laws {Ctr} : HasUnifVarLaws (UnifType Ctr).
Proof. split; [done|]. intros [] ??; simpl; congruence. Qed.
#[export] Instance rrows_unif_var_laws {Ctr} : HasUnifVarLaws (UnifRecordRows Ctr).
Proof. split; [done|]. intros [] ??; simpl; congruence. Qed.
#[export] Instance erows_unif_var_laws {Ctr} : HasUnifVarLaws (UnifEnumRows Ctr).
Proof. split; [done|]. intros [] ??; simpl; congruence. Qed.

Section slots.
Context {Ty : Type} `{!HasUnifVar Ty, !HasUnifVarLaws Ty}.
Implicit Types (slots : list (UnifSlot Ty)) (vs : list (option Ty)).

(** The values of the slots. *)
Definition vals slots : list (option Ty) := map value slots.

Lemma length_vals slots : length (vals slots) = length slots.
Proof. apply length_map. Qed.

Lemma vals_lookup slots v : vals slots !! v = value <$> slots !! v.
Proof. apply list_lookup_fmap. Qed.

Lemma vals_lookup_Some slots v o :
  vals slots !! v = Some o → ∃ s, slots !! v = Some s ∧ value s = o.
Proof. rewrite vals_lookup. destruct (slots !! v) eqn:?; simpl; naive_solver. Qed.

Lemma vals_insert slots v s : vals (<[v := s]> slots) = <[v := value s]> (vals slots).
Proof. apply list_fmap_insert. Qed.

Lemma vals_insert_same slots v s l :
  slots !! v = Some s → vals (<[v := mkSlot (value s) l]> slots) = vals slots.
Proof.
  intros Hv. rewrite vals_insert. simpl. apply list_insert_id.
  by rewrite vals_lookup, Hv.
Qed.

(** ** Chains *)

(** [ends vs n v]: the chain from [v] ends after [n] links. *)
Inductive ends vs : nat → VarId → Prop :=
| ends_none v : vs !! v = Some None → ends vs 0 v
| ends_value v t : vs !! v = Some (Some t) → as_unif_var t = None → ends vs 0 v
| ends_link v w l n : vs !! v = Some (Some (UnifVar w l)) → ends vs n w → ends vs (S n) v.

Definition rooted vs v : Prop := ∃ n, ends vs n v.

Lemma ends_lt vs n v : ends vs n v → v < length vs.
Proof. destruct 1; by eapply lookup_lt_Some. Qed.

Lemma UnifVar_inj v l w l' : UnifVar (Ty := Ty) v l = UnifVar w l' → v = w ∧ l = l'.
Proof.
  intros Heq. apply (f_equal as_unif_var) in Heq.
  rewrite !as_unif_var_UnifVar in Heq. naive_solver.
Qed.

Lemma UnifVar_not_value v l : as_unif_var (UnifVar (Ty := Ty) v l) ≠ None.
Proof. by rewrite as_unif_var_UnifVar. Qed.

Lemma ends_det vs n m v : ends vs n v → ends vs m v → n = m.
Proof.
  intros H1. revert m. induction H1 as [v|v t Hv Ht|v w l n Hv Hw IH]; intros m H2;
    inversion H2 as [? Hv'|? t' Hv' Ht'|? w' l' n' Hv' Hw']; subst; try congruence.
  - rewrite Hv in Hv'. simplify_eq. by apply UnifVar_not_value in Ht.
  - rewrite Hv in Hv'. simplify_eq. by apply UnifVar_not_value in Ht'.
  - rewrite Hv in Hv'. apply (inj Some), (inj Some), UnifVar_inj in Hv' as [-> _].
    f_equal. by apply IH.
Qed.

(** The variables of a chain are distinct, so there are at most as many links
    as slots. *)
Lemma ends_path vs n v :
  ends vs n v →
  ∃ p, length p = S n ∧ NoDup p ∧ List.Forall (λ w, w < length vs ∧ ∃ m, m ≤ n ∧ ends vs m w) p.
Proof.
  intros H. pose proof (ends_lt _ _ _ H) as Hlt.
  induction H as [v Hv|v t Hv Ht|v w l n Hv Hw IH].
  - exists [v]. repeat constructor; simpl; try lia; try set_solver.
    exists 0. split; [lia|by constructor].
  - exists [v]. repeat constructor; simpl; try lia; try set_solver.
    exists 0. split; [lia|by eapply ends_value].
  - pose proof (ends_lt _ _ _ Hw) as Hw'. destruct (IH Hw') as (p & Hlen & Hnd & Hall).
    assert (ends vs (S n) v) as Hvn by by econstructor.
    exists (v :: p). split; [simpl; lia|]. split.
    + constructor; [|done]. intros Hin.
      rewrite Forall_forall in Hall. destruct (Hall v Hin) as (_ & m & Hm & Hend).
      pose proof (ends_det _ _ _ _ Hvn Hend). lia.
    + constructor; [by eauto|]. eapply Forall_impl; [exact Hall|]. simpl.
      intros u (? & m & ? & ?). split; [done|]. exists m. split; [lia|done].
Qed.

Lemma ends_bound vs n v : ends vs n v → n < length vs.
Proof.
  intros (p & Hlen & Hnd & Hall)%ends_path.
  assert (length p ≤ length (seq 0 (length vs))) as Hle.
  { apply submseteq_length, NoDup_submseteq; [done|].
    intros w Hw. rewrite Forall_forall in Hall. apply elem_of_seq.
    pose proof (Hall w Hw). lia. }
  rewrite length_seq in Hle. lia.
Qed.

(** ** Roots *)

(** What [into_root] returns: an unassigned variable, or a type that is not a
    variable. *)
Definition is_root vs (t : Ty) : Prop :=
  match as_unif_var t with
  | Some (v, _) => vs !! v = Some None
  | None => True
  end.

Lemma root_ends vs slots n k v l :
  vals slots = vs → ends vs n v → n < k →
  ∃ t, root k slots v l = Done t ∧ is_root vs t ∧
       (as_unif_var t = None → ∃ w, vs !! w = Some (Some t)).
Proof.
  intros <- H. revert k l. induction H as [v Hv|v t Hv Ht|v w lw n Hv Hw IH]; intros k l Hk;
    destruct k as [|k]; try lia; cbn [root];
    destruct (vals_lookup_Some _ _ _ Hv) as (s & Hvs & Hs); rewrite Hvs; simpl; rewrite Hs.
  - exists (UnifVar v l). unfold is_root. rewrite as_unif_var_UnifVar. naive_solver.
  - exists t. unfold is_root. rewrite Ht. naive_solver.
  - rewrite as_unif_var_UnifVar. apply IH. lia.
Qed.

(** [into_root] returns a root, within the fuel it is given. *)
Lemma root_total slots t :
  (∀ v l, as_unif_var t = Some (v, l) → rooted (vals slots) v) →
  ∃ t', into_root slots t = Done t' ∧ is_root (vals slots) t' ∧
        (as_unif_var t' = None → t' = t ∨ ∃ w, vals slots !! w = Some (Some t')).
Proof.
  intros Hr. unfold into_root. destruct (as_unif_var t) as [[v l]|] eqn:Ht.
  - destruct (Hr v l eq_refl) as [n Hn].
    destruct (root_ends (vals slots) slots n (S (length slots)) v l eq_refl Hn)
      as (t' & Ht' & Hroot & Hval).
    { pose proof (ends_bound _ _ _ Hn). rewrite length_vals in *. lia. }
    exists t'. naive_solver.
  - exists t. unfold is_root. rewrite Ht. naive_solver.
Qed.

(** A root is related to the type it is the root of. *)
Lemma into_root_rel (R : Ty → Ty → Prop) slots t t' :
  Reflexive R → Transitive R →
  (∀ v l u, vals slots !! v = Some (Some u) → R (UnifVar v l) u) →
  into_root slots t = Done t' → R t t'.
Proof.
  intros Hrefl Htrans Hvar. unfold into_root.
  destruct (as_unif_var t) as [[v l]|] eqn:Ht; [|naive_solver].
  apply as_unif_var_Some in Ht as ->. generalize (S (length slots)). intros k.
  revert v l. induction k as [|k IH]; intros v l; cbn [root]; [done|].
  destruct (slots !! v) as [s|] eqn:Hs; simpl; [|done].
  destruct (value s) as [u|] eqn:Hu; [|naive_solver].
  assert (R (UnifVar v l) u) as Hvu by (apply Hvar; by rewrite vals_lookup, Hs; simpl; rewrite Hu).
  destruct (as_unif_var u) as [[w lw]|] eqn:Hw; [|naive_solver].
  apply as_unif_var_Some in Hw as ->. intros Hroot. etrans; [done|]. by apply IH.
Qed.

(** Assigning an unassigned variable keeps every chain finite, if the chain
    does not come back to it: it is given an unassigned variable or a
    concrete type. *)
Lemma rooted_assign vs v t w :
  vs !! v = Some None →
  (∀ u l, as_unif_var t = Some (u, l) → u ≠ v ∧ vs !! u = Some None) →
  rooted vs w → rooted (<[v := Some t]> vs) w.
Proof.
  intros Hv Ht [n Hn].
  assert (v < length vs) as Hlt by by eapply lookup_lt_Some.
  induction Hn as [u Hu|u t' Hu Ht'|u x l n Hu Hx [m IH]].
  - destruct (decide (u = v)) as [->|Hne].
    + destruct (as_unif_var t) as [[x l]|] eqn:Hx.
      * destruct (Ht _ _ eq_refl) as [Hxv Hxn]. exists 1.
        apply as_unif_var_Some in Hx as ->.
        apply (ends_link _ v x l); [by rewrite list_lookup_insert_eq|].
        apply ends_none. by rewrite list_lookup_insert_ne.
      * exists 0. apply (ends_value _ v t); [|done]. by rewrite list_lookup_insert_eq.
    + exists 0. apply ends_none. by rewrite list_lookup_insert_ne.
  - exists 0. apply (ends_value _ u t'); [|done]. rewrite list_lookup_insert_ne; congruence.
  - exists (S m). apply (ends_link _ u x l); [|done]. rewrite list_lookup_insert_ne; congruence.
Qed.

(** Taking out a value that is not a variable, and putting one in, keep the
    chains finite. *)
Lemma rooted_set_value vs v o w t0 :
  vs !! v = Some t0 → (∀ t, t0 = Some t → as_unif_var t = None) →
  (∀ t, o = Some t → as_unif_var t = None) →
  rooted vs w → rooted (<[v := o]> vs) w.
Proof.
  intros Hv Ht0 Ho [n Hn].
  assert (v < length vs) as Hlt by by eapply lookup_lt_Some.
  assert (ends (<[v := o]> vs) 0 v) as Hvend.
  { destruct o as [t|].
    - apply (ends_value _ v t); [by rewrite list_lookup_insert_eq|by apply Ho].
    - apply ends_none. by rewrite list_lookup_insert_eq. }
  induction Hn as [u Hu|u t' Hu Ht'|u x l n Hu Hx [m IH]];
    (destruct (decide (u = v)) as [->|Hne]; [by eexists|]).
  - exists 0. apply ends_none. by rewrite list_lookup_insert_ne.
  - exists 0. apply (ends_value _ u t'); [|done]. by rewrite list_lookup_insert_ne.
  - exists (S m). apply (ends_link _ u x l); [|done]. by rewrite list_lookup_insert_ne.
Qed.

Lemma rooted_app vs k w :
  rooted vs w → rooted (vs ++ k) w.
Proof.
  intros [n Hn]. exists n.
  induction Hn.
  - apply ends_none. by apply lookup_app_l_Some.
  - eapply ends_value; [by apply lookup_app_l_Some|done].
  - eapply ends_link; [by apply lookup_app_l_Some|done].
Qed.

(** ** Updates *)

Lemma lower_level_ok slots v l :
  v < length slots →
  ∃ slots', lower_level slots v l = Done slots' ∧ vals slots' = vals slots.
Proof.
  intros [s Hs]%lookup_lt_is_Some. unfold lower_level. rewrite Hs. simpl.
  eexists. split; [done|]. destruct (l <? level s); [|done].
  by apply vals_insert_same.
Qed.

Lemma set_value_ok slots v o :
  v < length slots →
  ∃ slots', set_value slots v o = Done slots' ∧ vals slots' = <[v := o]> (vals slots).
Proof.
  intros [s Hs]%lookup_lt_is_Some. unfold set_value. rewrite Hs. simpl.
  eexists. split; [done|]. by rewrite vals_insert.
Qed.

Lemma slot_level_ok slots v : v < length slots → ∃ l, slot_level slots v = Done l.
Proof. intros [s Hs]%lookup_lt_is_Some. unfold slot_level. rewrite Hs. by eexists. Qed.

Lemma assert_unassigned_ok slots v :
  vals slots !! v = Some None → assert_unassigned slots v = Done ().
Proof.
  intros (s & Hs & Hv)%vals_lookup_Some. unfold assert_unassigned. rewrite Hs. simpl.
  by rewrite Hv.
Qed.

(** ** Well-formed slots *)

(** [P] holds of the values, the chains end, and the variables with a pending
    update are assigned something that is not a variable. *)
Record slots_ok (P : Ty → Prop) vs (pending : list VarId) : Prop := {
  slots_values v t : vs !! v = Some (Some t) → P t;
  slots_rooted v : v < length vs → rooted vs v;
  slots_pending v : v ∈ pending → ∃ t, vs !! v = Some (Some t) ∧ as_unif_var t = None;
}.

Lemma slots_ok_assign P vs pend v t :
  slots_ok P vs pend → P t → vs !! v = Some None →
  (∀ u l, as_unif_var t = Some (u, l) → u ≠ v ∧ vs !! u = Some None) →
  slots_ok P (<[v := Some t]> vs) pend.
Proof.
  intros [Hv Hr Hp] Ht Hnone Hroot.
  assert (v < length vs) as Hlt by by eapply lookup_lt_Some. split.
  - intros w t' Hw. destruct (decide (w = v)) as [->|].
    + rewrite list_lookup_insert_eq in Hw by done. naive_solver.
    + rewrite list_lookup_insert_ne in Hw by done. eauto.
  - intros w. rewrite length_insert. intros Hw. apply rooted_assign; auto.
  - intros w Hw. destruct (Hp w Hw) as (t' & Ht' & ?). exists t'. split; [|done].
    rewrite list_lookup_insert_ne; congruence.
Qed.

Lemma slots_ok_assign_pending P vs pend v t :
  slots_ok P vs pend → P t → vs !! v = Some None → as_unif_var t = None →
  slots_ok P (<[v := Some t]> vs) (pend ++ [v]).
Proof.
  intros Hok Ht Hnone Hc.
  assert (v < length vs) as Hlt by by eapply lookup_lt_Some.
  destruct (slots_ok_assign P vs pend v t Hok Ht Hnone) as [Hv Hr Hp]; [congruence|].
  split; [done..|]. intros w [Hw|Hw%list_elem_of_singleton]%elem_of_app; [by apply Hp|].
  subst. exists t. split; [|done]. by rewrite list_lookup_insert_eq.
Qed.

Lemma slots_ok_impl (P Q : Ty → Prop) vs pend :
  (∀ t, P t → Q t) → slots_ok P vs pend → slots_ok Q vs pend.
Proof. intros HPQ [Hv Hr Hp]. split; eauto. Qed.

Lemma slots_ok_app P vs pend k :
  slots_ok P vs pend → slots_ok P (vs ++ replicate k None) pend.
Proof.
  intros [Hv Hr Hp]. split.
  - intros v t [?|[? Hrep]]%lookup_app_Some; [eauto|].
    by apply lookup_replicate_1 in Hrep as [? _].
  - intros v Hlt. destruct (decide (v < length vs)) as [|Hge]; [by apply rooted_app, Hr|].
    exists 0. apply ends_none. rewrite lookup_app_r by lia.
    apply lookup_replicate_2. rewrite length_app, length_replicate in Hlt. lia.
  - intros v (t & ? & ?)%Hp. exists t. split; [by apply lookup_app_l_Some|done].
Qed.

Lemma slots_ok_pending P vs pend pend' :
  slots_ok P vs pend → (∀ v, v ∈ pend' → v ∈ pend) → slots_ok P vs pend'.
Proof. intros [Hv Hr Hp] Hsub. split; eauto. Qed.

(** Replacing a value that is not a variable by another. *)
Lemma slots_ok_set P vs pend v t0 o :
  slots_ok P vs pend → vs !! v = Some t0 → (∀ t, t0 = Some t → as_unif_var t = None) →
  (∀ t, o = Some t → P t ∧ as_unif_var t = None) →
  (o = None → v ∉ pend) →
  slots_ok P (<[v := o]> vs) pend.
Proof.
  intros [Hv Hr Hp] Hlook Ht0 Ho Hnp.
  assert (v < length vs) as Hlt by by eapply lookup_lt_Some. split.
  - intros w t' Hw. destruct (decide (w = v)) as [->|].
    + rewrite list_lookup_insert_eq in Hw by done. naive_solver.
    + rewrite list_lookup_insert_ne in Hw by done. eauto.
  - intros w. rewrite length_insert. intros Hw.
    eapply rooted_set_value; eauto. naive_solver.
  - intros w Hw. destruct (decide (w = v)) as [->|].
    + destruct o as [t|]; [|by destruct Hnp]. exists t.
      rewrite list_lookup_insert_eq by done. naive_solver.
    + rewrite list_lookup_insert_ne by done. by apply Hp.
Qed.
End slots.
