(* ===== verification/Unify.v ===== *)
(** * Unification: [core/src/typecheck/unif.rs], lines 1022-1846

    The errors of [core/src/typecheck/error.rs], the row constraints and their
    propagation, [remove_row], and [unify] on types, record rows and enum rows.
    A computation threads the part of the typechecking [State] that
    unification uses (the table, the row constraints and the wildcard
    variables) and returns a [result]; the state is returned with an error too,
    as the typechecker keeps using it. The fields of [Context] that
    unification reads are reduced to [var_level]. The equality of embedded
    contracts ([core/src/typecheck/eq.rs]) is the parameter [type_eq]. *)
From S2P Require Import Prelude UnifTypes UnifTable.

Inductive RowKind : Type := RowKindRecord | RowKindEnum.

(** One map for the variables of all kinds. *)
Abbreviation RowConstrs := (gmap VarId (gset Ident)).

Section unify.
Context {Ctr : Type}.
Abbreviation Ty := (UnifType Ctr).
Abbreviation RR := (UnifRecordRows Ctr).
Abbreviation ER := (UnifEnumRows Ctr).

(** ** Errors *)

Inductive UnifErrorKind : Type :=
| TypeMismatch (expected inferred : Ty)
| RecordRowMismatch (id : Ident) (expected inferred : Ty) (cause : UnifErrorKind)
| EnumRowMismatch (id : Ident) (expected inferred : Ty) (cause : option UnifErrorKind)
| ConstMismatch (var_kind : VarKindDiscriminant) (expected_const_id inferred_const_id : VarId)
| MissingRow (id : Ident) (kind : RowKind) (expected inferred : Ty)
| ExtraRow (id : Ident) (expected inferred : Ty)
| MissingDynTail (expected inferred : Ty)
| ExtraDynTail (expected inferred : Ty)
| RecordRowConflict (row : RecordRowF Ty) (expected inferred : Ty)
| EnumRowConflict (row : EnumRowF Ty) (expected inferred : Ty)
| WithConst (var_kind : VarKindDiscriminant) (expected_const_id : VarId) (inferred : Ty)
| UnboundTypeVariable (id : Ident)
| DomainMismatch (expected inferred : Ty) (cause : UnifErrorKind)
| CodomainMismatch (expected inferred : Ty) (cause : UnifErrorKind)
| VarLevelMismatch (constant_id : VarId) (var_kind : VarKindDiscriminant)
| InhomogeneousRecord (row_a row_b : Ty).

Inductive RowUnifErrorKind : Type :=
| RowMissingRecordRow (id : Ident)
| RowMissingEnumRow (id : Ident)
| RowMissingDynTail
| RowExtraRow (id : Ident)
| RowExtraDynTail
| RowRecordRowMismatch (id : Ident) (cause : UnifErrorKind)
| RowEnumRowMismatch (id : Ident) (cause : option UnifErrorKind)
| RowRecordRowConflict (row : RecordRowF Ty)
| RowEnumRowConflict (row : EnumRowF Ty)
| RowWithConst (var_kind : VarKindDiscriminant) (expected_const_id : VarId) (inferred : Ty)
| RowConstMismatch (var_kind : VarKindDiscriminant) (expected_const_id inferred_const_id : VarId)
| RowUnboundTypeVariable (id : Ident)
| RowVarLevelMismatch (constant_id : VarId) (var_kind : VarKindDiscriminant).

Definition into_unif_err (err : RowUnifErrorKind) (expected inferred : Ty) : UnifErrorKind :=
  match err with
  | RowMissingRecordRow id => MissingRow id RowKindRecord expected inferred
  | RowMissingEnumRow id => MissingRow id RowKindEnum expected inferred
  | RowMissingDynTail => MissingDynTail expected inferred
  | RowExtraRow id => ExtraRow id expected inferred
  | RowExtraDynTail => ExtraDynTail expected inferred
  | RowRecordRowMismatch id cause => RecordRowMismatch id expected inferred cause
  | RowEnumRowMismatch id cause => EnumRowMismatch id expected inferred cause
  | RowRecordRowConflict row => RecordRowConflict row expected inferred
  | RowEnumRowConflict row => EnumRowConflict row expected inferred
  | RowWithConst var_kind cst inferred => WithConst var_kind cst inferred
  | RowConstMismatch var_kind cst1 cst2 => ConstMismatch var_kind cst1 cst2
  | RowUnboundTypeVariable id => UnboundTypeVariable id
  | RowVarLevelMismatch cst var_kind => VarLevelMismatch cst var_kind
  end.

Inductive RemoveRowError : Type := RemoveMissing | RemoveConflict.

Inductive RemoveRowResult (RowContent : Type) : Type :=
| Extracted (content : RowContent)
| Extended.
Arguments Extracted {RowContent} content.
Arguments Extended {RowContent}.

(** ** The state and its effects *)

Record State : Type := mkState {
  table : UnifTable Ctr;
  constr : RowConstrs;
  wildcard_vars : list Ty;
}.

Definition with_table (tb : UnifTable Ctr) (st : State) : State :=
  mkState tb (constr st) (wildcard_vars st).
Definition with_constr (cs : RowConstrs) (st : State) : State :=
  mkState (table st) cs (wildcard_vars st).

Definition comp (E A : Type) : Type := State → outcome (result A E * State).

Definition ok {E A} (a : A) : comp E A := λ st, Done (Ok a, st).
Definition err {E A} (e : E) : comp E A := λ st, Done (Err e, st).

Definition comp_bind {E A B} (m : comp E A) (f : A → comp E B) : comp E B := λ st,
  '(r, st) ← m st;
  match r with Ok a => f a st | Err e => Done (Err e, st) end.

Definition map_err {E F A} (f : E → F) (m : comp E A) : comp F A := λ st,
  '(r, st) ← m st;
  Done (match r with Ok a => Ok a | Err e => Err (f e) end, st).

(** Reading the state, and running an operation of the table on it. *)
Definition reading {E A} (f : State → outcome A) : comp E A := λ st,
  a ← f st; Done (Ok a, st).
Definition on_table {E} (f : UnifTable Ctr → outcome (UnifTable Ctr)) : comp E unit := λ st,
  tb ← f (table st); Done (Ok (), with_table tb st).
Definition allocating {E A} (f : UnifTable Ctr → A * UnifTable Ctr) : comp E A := λ st,
  let '(a, tb) := f (table st) in Done (Ok a, with_table tb st).

#[export] Instance comp_ret {E} : MRet (comp E) := λ A, ok.
#[export] Instance comp_mbind {E} : MBind (comp E) := λ A B f m, comp_bind m f.

(** ** Row constraints *)

(** The local [propagate] of the two [propagate_constrs]. *)
Fixpoint rrows_propagate (cs : RowConstrs) (var_id : VarId) (var_constr : gset Ident) (rr : RR)
    : result RowConstrs RowUnifErrorKind :=
  match rr with
  | RConcrete (RExtend row tail) _ =>
      if decide (rrow_id row ∈ var_constr) then Err (RowRecordRowConflict row)
      else rrows_propagate cs var_id var_constr tail
  | RUnifVar id _ =>
      if decide (id = var_id) then Ok cs
      else
        match cs !! id with
        | Some tail_constr => Ok (<[id := tail_constr ∪ var_constr]> cs)
        | None => Ok (<[id := var_constr]> cs)
        end
  | _ => Ok cs
  end.

Fixpoint erows_propagate (cs : RowConstrs) (var_id : VarId) (var_constr : gset Ident) (er : ER)
    : result RowConstrs RowUnifErrorKind :=
  match er with
  | EConcrete (EExtend row tail) _ =>
      if decide (is_Some (erow_typ row) ∧ erow_id row ∈ var_constr)
      then Err (RowEnumRowConflict row)
      else erows_propagate cs var_id var_constr tail
  | EUnifVar id _ =>
      if decide (id = var_id) then Ok cs
      else
        match cs !! id with
        | Some tail_constr => Ok (<[id := tail_constr ∪ var_constr]> cs)
        | None => Ok (<[id := var_constr]> cs)
        end
  | _ => Ok cs
  end.

(** The constraints of [var_id] are removed first, and stay so when there is a
    conflict. *)
Definition rrows_propagate_constrs (rr : RR) (var_id : VarId)
    : comp RowUnifErrorKind unit := λ st,
  match constr st !! var_id with
  | Some var_constr =>
      let cs := delete var_id (constr st) in
      match rrows_propagate cs var_id var_constr rr with
      | Ok cs => Done (Ok (), with_constr cs st)
      | Err e => Done (Err e, with_constr cs st)
      end
  | None => Done (Ok (), st)
  end.

Definition erows_propagate_constrs (er : ER) (var_id : VarId)
    : comp RowUnifErrorKind unit := λ st,
  match constr st !! var_id with
  | Some var_constr =>
      let cs := delete var_id (constr st) in
      match erows_propagate cs var_id var_constr er with
      | Ok cs => Done (Ok (), with_constr cs st)
      | Err e => Done (Err e, with_constr cs st)
      end
  | None => Done (Ok (), st)
  end.

Definition insert_constr {E} (id : VarId) (c : gset Ident) : comp E unit := λ st,
  Done (Ok (), with_constr (<[id := c]> (constr st)) st).

(** ** [remove_row] *)

Fixpoint rrows_remove_row (n : nat) (self : RR) (target : Ident) (target_content : Ty)
    (var_level : VarLevel) : comp RemoveRowError (RemoveRowResult Ty * RR) :=
  match n with
  | 0 => λ _, OutOfFuel
  | S n =>
      rr ← reading (λ st, into_root (rrows (table st)) self);
      match rr with
      | RConcrete (REmpty | RTailDyn | RTailVar _) _ => err RemoveMissing
      | RConcrete (RExtend next_row tail) _ =>
          if decide (target = rrow_id next_row) then ok (Extracted (rrow_typ next_row), tail)
          else
            '(extracted_row, rest) ←
              rrows_remove_row n tail target target_content var_level;
            ok (extracted_row, rrows_concrete (RExtend next_row rest))
      | RUnifVar var_id _ =>
          tail_var_id ← allocating (λ tb, fresh_rrows_var_id tb var_level);
          _ ← insert_constr tail_var_id {[ target ]};
          let tail_var := RUnifVar tail_var_id var_level in
          let tail_extended :=
            rrows_concrete (RExtend (mkRecordRow target target_content) tail_var) in
          _ ← map_err (λ _, RemoveConflict) (rrows_propagate_constrs tail_extended var_id);
          _ ← on_table (λ tb, assign_rrows tb var_id tail_extended);
          ok (Extended, tail_var)
      | RConstant _ => err RemoveMissing
      end
  end.

Fixpoint erows_remove_row (n : nat) (self : ER) (target : Ident) (target_content : option Ty)
    (var_level : VarLevel) : comp RemoveRowError (RemoveRowResult (option Ty) * ER) :=
  match n with
  | 0 => λ _, OutOfFuel
  | S n =>
      er ← reading (λ st, into_root (erows (table st)) self);
      match er with
      | EConcrete (EEmpty | ETailVar _) _ => err RemoveMissing
      | EConcrete (EExtend next_row tail) _ =>
          if decide (target = erow_id next_row ∧
                     (is_Some target_content ↔ is_Some (erow_typ next_row)))
          then ok (Extracted (erow_typ next_row), tail)
          else
            '(extracted_row, rest) ←
              erows_remove_row n tail target target_content var_level;
            ok (extracted_row, erows_concrete (EExtend next_row rest))
      | EUnifVar var_id _ =>
          tail_var_id ← allocating (λ tb, fresh_erows_var_id tb var_level);
          _ ← (if decide (is_Some target_content)
                then insert_constr tail_var_id {[ target ]} else ok ());
          let tail_var := EUnifVar tail_var_id var_level in
          let tail_extended :=
            erows_concrete (EExtend (mkEnumRow target target_content) tail_var) in
          _ ← map_err (λ _, RemoveConflict) (erows_propagate_constrs tail_extended var_id);
          _ ← on_table (λ tb, assign_erows tb var_id tail_extended);
          ok (Extended, tail_var)
      | EConstant _ => err RemoveMissing
      end
  end.

(** ** [get_wildcard_var] *)

Fixpoint fresh_type_uvars (k : nat) (var_level : VarLevel) (tb : UnifTable Ctr)
    : list Ty * UnifTable Ctr :=
  match k with
  | 0 => ([], tb)
  | S k =>
      let '(uvar, tb) := fresh_type_uvar tb var_level in
      let '(uvars, tb) := fresh_type_uvars k var_level tb in
      (uvar :: uvars, tb)
  end.

Definition get_wildcard_var {E} (var_level : VarLevel) (id : nat) : comp E Ty := λ st,
  let st :=
    if length (wildcard_vars st) <=? id then
      let '(uvars, tb) :=
        fresh_type_uvars (S id - length (wildcard_vars st)) var_level (table st) in
      mkState tb (constr st) (wildcard_vars st ++ uvars)
    else st in
  var ← unwrap (wildcard_vars st !! id);
  Done (Ok var, st).

(** ** [unify] *)

Context (type_eq : Ctr → Ctr → bool).
Context (var_level : VarLevel).

Definition mk_uty_enum (er : ER) : Ty := type_concrete (Enum er).
Definition mk_uty_record (rr : RR) : Ty := type_concrete (Record rr).

(** The first pattern of [unify] on types. *)
Definition as_wildcard (t : Ty) : option nat :=
  match t with TConcrete (Wildcard id) _ => Some id | _ => None end.

(** The constant a bound variable of each kind is replaced by. *)
Definition fresh_const_of_kind (k : VarKind) (tb : UnifTable Ctr)
    : SubstTo (Ctr := Ctr) * UnifTable Ctr :=
  match k with
  | KindType => let '(c, tb) := fresh_type_const tb var_level in (ToType c, tb)
  | KindRecordRows _ => let '(c, tb) := fresh_rrows_const tb var_level in (ToRRows c, tb)
  | KindEnumRows _ => let '(c, tb) := fresh_erows_const tb var_level in (ToERows c, tb)
  end.

(** [check-unif-var-level]: the check made before assigning the constant
    [cst_id] to the variable [id]. *)
Definition check_level {E} (force : nat → VarLevel → UnifTable Ctr → outcome (UnifTable Ctr))
    (lookup : UnifTable Ctr → VarId → outcome VarLevel) (mismatch : E) (n : nat)
    (id cst_id : VarId) : comp E unit :=
  constant_level ← reading (λ st, lookup (table st) cst_id);
  _ ← on_table (force n constant_level);
  var_lvl ← reading (λ st, lookup (table st) id);
  if var_lvl <? constant_level then err mismatch else ok ().

Fixpoint unify_type (n : nat) (self t2 : Ty) : comp UnifErrorKind unit :=
  match n with
  | 0 => λ _, OutOfFuel
  | S n =>
      let assign id uty :=
        _ ← (match uty with
              | TConstant cst_id =>
                  check_level force_type_updates get_level
                    (VarLevelMismatch cst_id DType) n id cst_id
              | _ => ok ()
              end);
        on_table (λ tb, assign_type tb id uty) in
      t1 ← reading (λ st, into_root (types (table st)) self);
      t2 ← reading (λ st, into_root (types (table st)) t2);
      match as_wildcard t1, as_wildcard t2 with
      | Some id, _ =>
          ty1 ← get_wildcard_var var_level id;
          unify_type n ty1 t2
      | None, Some id =>
          ty1 ← get_wildcard_var var_level id;
          unify_type n ty1 t1
      | None, None =>
      match t1, t2 with
      | TConcrete s1 _, TConcrete s2 _ =>
          match s1, s2 with
          | Dyn, Dyn | Number, Number | Bool, Bool | String, String | Symbol, Symbol => ok ()
          | Array uty1, Array uty2 => unify_type n uty1 uty2
          | Arrow s1s s1t, Arrow s2s s2t =>
              _ ← map_err
                     (DomainMismatch (type_concrete (Arrow s1s s1t)) (type_concrete (Arrow s2s s2t)))
                     (unify_type n s1s s2s);
              map_err
                (CodomainMismatch (type_concrete (Arrow s1s s1t)) (type_concrete (Arrow s2s s2t)))
                (unify_type n s1t s2t)
          | Contract c1, Contract c2 =>
              if type_eq c1 c2 then ok ()
              else err (TypeMismatch (type_concrete s1) (type_concrete s2))
          | Enum erows1, Enum erows2 =>
              map_err (λ e, into_unif_err e (mk_uty_enum erows1) (mk_uty_enum erows2))
                (unify_erows n erows1 erows2)
          | Record rrows1, Record rrows2 =>
              map_err (λ e, into_unif_err e (mk_uty_record rrows1) (mk_uty_record rrows2))
                (unify_rrows n rrows1 rrows2)
          | Dict uty1 _, Dict uty2 _ => unify_type n uty1 uty2
          | Forall var1 var_kind1 body1, Forall var2 var_kind2 body2 =>
              if decide (var_kind1 = var_kind2) then
                constant_type ← allocating (fresh_const_of_kind var_kind1);
                unify_type n (subst body1 var1 constant_type) (subst body2 var2 constant_type)
              else err (TypeMismatch (type_concrete s1) (type_concrete s2))
          | Var ident, _ | _, Var ident => err (UnboundTypeVariable ident)
          | _, _ => err (TypeMismatch (type_concrete s1) (type_concrete s2))
          end
      | TUnifVar id _, uty | uty, TUnifVar id _ => assign id uty
      | TConstant i1, TConstant i2 =>
          if decide (i1 = i2) then ok () else err (ConstMismatch DType i1 i2)
      | ty, TConstant i | TConstant i, ty => err (WithConst DType i ty)
      end
      end
  end
with unify_erows (n : nat) (self er2 : ER) : comp RowUnifErrorKind unit :=
  match n with
  | 0 => λ _, OutOfFuel
  | S n =>
      let assign id er :=
        _ ← (match er with
              | EConstant cst_id =>
                  check_level force_erows_updates get_erows_level
                    (RowVarLevelMismatch cst_id DEnumRows) n id cst_id
              | _ => ok ()
              end);
        _ ← erows_propagate_constrs er id;
        on_table (λ tb, assign_erows tb id er) in
      er1 ← reading (λ st, into_root (erows (table st)) self);
      er2 ← reading (λ st, into_root (erows (table st)) er2);
      match er1, er2 with
      | EConcrete erows1 _, EConcrete erows2 d2 =>
          match erows1, erows2 with
          | ETailVar id, _ | _, ETailVar id => err (RowUnboundTypeVariable id)
          | EEmpty, EEmpty => ok ()
          | EEmpty, EExtend row _ => err (RowExtraRow (erow_id row))
          | EExtend row _, EEmpty => err (RowMissingEnumRow (erow_id row))
          | EExtend row tail, EExtend _ _ =>
              '(ty2_result, t2_without_row) ←
                map_err
                  (λ e, match e with
                        | RemoveMissing => RowMissingEnumRow (erow_id row)
                        | RemoveConflict => RowEnumRowConflict row
                        end)
                  (erows_remove_row n (EConcrete erows2 d2) (erow_id row) (erow_typ row) var_level);
              _ ← (match ty2_result with
                    | Extracted ty2 =>
                        match erow_typ row, ty2 with
                        | Some typ, Some ty2 =>
                            map_err (λ e, RowEnumRowMismatch (erow_id row) (Some e))
                              (unify_type n typ ty2)
                        | Some _, None | None, Some _ =>
                            err (RowEnumRowMismatch (erow_id row) None)
                        | None, None => ok ()
                        end
                    | Extended => ok ()
                    end);
              unify_erows n tail t2_without_row
          end
      | EUnifVar id _, er | er, EUnifVar id _ => assign id er
      | EConstant i1, EConstant i2 =>
          if decide (i1 = i2) then ok () else err (RowConstMismatch DEnumRows i1 i2)
      | er, EConstant i | EConstant i, er =>
          err (RowWithConst DEnumRows i (type_concrete (Enum er)))
      end
  end
with unify_rrows (n : nat) (self rr2 : RR) : comp RowUnifErrorKind unit :=
  match n with
  | 0 => λ _, OutOfFuel
  | S n =>
      let assign id rr :=
        _ ← (match rr with
              | RConstant cst_id =>
                  check_level force_rrows_updates get_rrows_level
                    (RowVarLevelMismatch cst_id DRecordRows) n id cst_id
              | _ => ok ()
              end);
        _ ← rrows_propagate_constrs rr id;
        on_table (λ tb, assign_rrows tb id rr) in
      rr1 ← reading (λ st, into_root (rrows (table st)) self);
      rr2 ← reading (λ st, into_root (rrows (table st)) rr2);
      match rr1, rr2 with
      | RConcrete rrows1 _, RConcrete rrows2 d2 =>
          match rrows1, rrows2 with
          | RTailVar id, _ | _, RTailVar id => err (RowUnboundTypeVariable id)
          | REmpty, REmpty | RTailDyn, RTailDyn => ok ()
          | REmpty, RTailDyn => err RowExtraDynTail
          | RTailDyn, REmpty => err RowMissingDynTail
          | REmpty, RExtend row _ | RTailDyn, RExtend row _ => err (RowExtraRow (rrow_id row))
          | RExtend row _, RTailDyn | RExtend row _, REmpty =>
              err (RowMissingRecordRow (rrow_id row))
          | RExtend row tail, RExtend _ _ =>
              '(ty2_result, rr2_without_ty2) ←
                map_err
                  (λ e, match e with
                        | RemoveMissing => RowMissingRecordRow (rrow_id row)
                        | RemoveConflict => RowRecordRowConflict row
                        end)
                  (rrows_remove_row n (RConcrete rrows2 d2) (rrow_id row) (rrow_typ row) var_level);
              _ ← (match ty2_result with
                    | Extracted ty2 =>
                        map_err (RowRecordRowMismatch (rrow_id row))
                          (unify_type n (rrow_typ row) ty2)
                    | Extended => ok ()
                    end);
              unify_rrows n tail rr2_without_ty2
          end
      | RUnifVar id _, rr | rr, RUnifVar id _ => assign id rr
      | RConstant i1, RConstant i2 =>
          if decide (i1 = i2) then ok () else err (RowConstMismatch DRecordRows i1 i2)
      | rr, RConstant i | RConstant i, rr =>
          err (RowWithConst DRecordRows i (type_concrete (Record rr)))
      end
  end.
End unify.
