(* ===== verification/UnifRel.v ===== *)
(** * Structural induction, ranges and equality modulo a table

    [unif_ind] is the induction principle of the three mutually defined
    unification types through their functors. [ty_in] says that every
    identifier of variable or constant in a type has a slot. [ty_eq] is the
    specification of unification: equality of types modulo the assignments of
    the table, the order of rows, and the names of bound variables. *)
From S2P Require Import Prelude UnifTypes UnifTable SlotFacts Unify.

(** A property of every child of a node. *)
Definition type_children {Ty RR ER Te : Type} (Pt : Ty → Prop) (Pr : RR → Prop) (Pe : ER → Prop)
    (t : TypeF Ty RR ER Te) : Prop :=
  match t with
  | Arrow a b => Pt a ∧ Pt b
  | Forall _ _ a | Dict a _ | Array a => Pt a
  | Enum e => Pe e
  | Record r => Pr r
  | _ => True
  end.

Definition rrows_children {Ty RR : Type} (Pt : Ty → Prop) (Pr : RR → Prop)
    (r : RecordRowsF Ty RR) : Prop :=
  match r with RExtend row tail => Pt (rrow_typ row) ∧ Pr tail | _ => True end.

Definition erows_children {Ty ER : Type} (Pt : Ty → Prop) (Pe : ER → Prop)
    (e : EnumRowsF Ty ER) : Prop :=
  match e with
  | EExtend row tail =>
      match erow_typ row with Some t => Pt t | None => True end ∧ Pe tail
  | _ => True
  end.

Section induction.
Context {Ctr : Type}.
Context (Pt : UnifType Ctr → Prop) (Pr : UnifRecordRows Ctr → Prop) (Pe : UnifEnumRows Ctr → Prop).
Context (Ht : ∀ typ d, type_children Pt Pr Pe typ → Pt (TConcrete typ d)).
Context (Htc : ∀ id, Pt (TConstant id)) (Htv : ∀ id l, Pt (TUnifVar id l)).
Context (Hr : ∀ r d, rrows_children Pt Pr r → Pr (RConcrete r d)).
Context (Hrc : ∀ id, Pr (RConstant id)) (Hrv : ∀ id l, Pr (RUnifVar id l)).
Context (He : ∀ e d, erows_children Pt Pe e → Pe (EConcrete e d)).
Context (Hec : ∀ id, Pe (EConstant id)) (Hev : ∀ id l, Pe (EUnifVar id l)).

Fixpoint type_ind t : Pt t :=
  match t with
  | TConcrete typ d =>
      Ht typ d
        (match typ return type_children Pt Pr Pe typ with
         | Arrow a b => conj (type_ind a) (type_ind b)
         | Forall _ _ a | Dict a _ | Array a => type_ind a
         | Enum e => erows_ind e
         | Record r => rrows_ind r
         | _ => I
         end)
  | TConstant id => Htc id
  | TUnifVar id l => Htv id l
  end
with rrows_ind r : Pr r :=
  match r with
  | RConcrete r d =>
      Hr r d
        (match r return rrows_children Pt Pr r with
         | RExtend (mkRecordRow _ t) tail => conj (type_ind t) (rrows_ind tail)
         | _ => I
         end)
  | RConstant id => Hrc id
  | RUnifVar id l => Hrv id l
  end
with erows_ind e : Pe e :=
  match e with
  | EConcrete e d =>
      He e d
        (match e return erows_children Pt Pe e with
         | EExtend (mkEnumRow _ (Some t)) tail => conj (type_ind t) (erows_ind tail)
         | EExtend (mkEnumRow _ None) tail => conj I (erows_ind tail)
         | _ => I
         end)
  | EConstant id => Hec id
  | EUnifVar id l => Hev id l
  end.

Lemma unif_ind : (∀ t, Pt t) ∧ (∀ r, Pr r) ∧ (∀ e, Pe e).
Proof. auto using type_ind, rrows_ind, erows_ind. Qed.
End induction.

(** ** Ranges *)

(** The number of slots of each kind. *)
Record dims : Type := mkDims { n_types : nat; n_rrows : nat; n_erows : nat }.

Definition dims_le (D D' : dims) : Prop :=
  n_types D ≤ n_types D' ∧ n_rrows D ≤ n_rrows D' ∧ n_erows D ≤ n_erows D'.

#[export] Instance dims_le_preorder : PreOrder dims_le.
Proof. split; [intros []|intros [] [] []]; unfold dims_le; simpl; lia. Qed.

Section ranges.
Context {Ctr : Type}.
Implicit Types (D : dims).

Fixpoint ty_in D (t : UnifType Ctr) : Prop :=
  match t with
  | TConcrete typ _ => type_children (ty_in D) (rr_in D) (er_in D) typ
  | TConstant id | TUnifVar id _ => id < n_types D
  end
with rr_in D (r : UnifRecordRows Ctr) : Prop :=
  match r with
  | RConcrete r _ =>
      match r with RExtend (mkRecordRow _ t) tail => ty_in D t ∧ rr_in D tail | _ => True end
  | RConstant id | RUnifVar id _ => id < n_rrows D
  end
with er_in D (e : UnifEnumRows Ctr) : Prop :=
  match e with
  | EConcrete e _ =>
      match e with
      | EExtend (mkEnumRow _ (Some t)) tail => ty_in D t ∧ er_in D tail
      | EExtend (mkEnumRow _ None) tail => er_in D tail
      | _ => True
      end
  | EConstant id | EUnifVar id _ => id < n_erows D
  end.

Lemma rr_in_concrete D r d :
  rr_in D (RConcrete r d) ↔ rrows_children (ty_in D) (rr_in D) r.
Proof. by destruct r as [|[]| |]. Qed.

Lemma er_in_concrete D e d :
  er_in D (EConcrete e d) ↔ erows_children (ty_in D) (er_in D) e.
Proof. destruct e as [|[? []]|]; simpl; tauto. Qed.

Lemma type_children_impl {Ty RR ER Te} (Pt Qt : Ty → Prop) (Pr Qr : RR → Prop)
    (Pe Qe : ER → Prop) (t : TypeF Ty RR ER Te) :
  type_children (λ x, Pt x → Qt x) (λ x, Pr x → Qr x) (λ x, Pe x → Qe x) t →
  type_children Pt Pr Pe t → type_children Qt Qr Qe t.
Proof. destruct t; simpl; tauto. Qed.

Lemma in_mono D D' :
  dims_le D D' →
  (∀ t, ty_in D t → ty_in D' t) ∧ (∀ r, rr_in D r → rr_in D' r) ∧
  (∀ e, er_in D e → er_in D' e).
Proof.
  intros (? & ? & ?). apply unif_ind; simpl; try lia.
  - intros typ d. apply type_children_impl.
  - intros r d IH. destruct r as [|[]| |]; simpl in *; tauto.
  - intros e d IH. destruct e as [|[? []]|]; simpl in *; tauto.
Qed.

Lemma ty_in_mono D D' t : dims_le D D' → ty_in D t → ty_in D' t.
Proof. intros H. by apply (in_mono D D' H). Qed.
Lemma rr_in_mono D D' r : dims_le D D' → rr_in D r → rr_in D' r.
Proof. intros H. by apply (in_mono D D' H). Qed.
Lemma er_in_mono D D' e : dims_le D D' → er_in D e → er_in D' e.
Proof. intros H. by apply (in_mono D D' H). Qed.

(** Substitution stays in range. *)
Definition to_in D (to : SubstTo (Ctr := Ctr)) : Prop :=
  match to with ToType t => ty_in D t | ToRRows r => rr_in D r | ToERows e => er_in D e end.

Lemma type_map_state_children (D : dims) f fr fe (typ : UnifTypeUnr Ctr) (s : VarLevel) :
  type_children (λ t, ty_in D (f t).1) (λ r, rr_in D (fr r).1) (λ e, er_in D (fe e).1) typ →
  type_children (ty_in D) (rr_in D) (er_in D)
    (type_map_state (raising f) (raising fr) (raising fe) pair typ s).1.
Proof.
  unfold raising. destruct typ; simpl; intros H; try done;
    repeat (case_match; simplify_eq/=); naive_solver.
Qed.

Lemma subst_levels_in D id to :
  to_in D to →
  (∀ t, ty_in D t → ty_in D (subst_levels id to t).1) ∧
  (∀ r, rr_in D r → rr_in D (subst_levels_rrows id to r).1) ∧
  (∀ e, er_in D e → er_in D (subst_levels_erows id to e).1).
Proof.
  intros Hto. apply unif_ind; simpl; try done.
  - intros typ d IH Hin.
    assert (type_children (ty_in D) (rr_in D) (er_in D)
      (type_map_state (raising (subst_levels id to)) (raising (subst_levels_rrows id to))
         (raising (subst_levels_erows id to)) pair typ NO_VAR).1) as Hmap.
    { apply type_map_state_children. by apply (type_children_impl _ _ _ _ _ _ typ IH). }
    destruct (type_map_state _ _ _ _ _ _) as [typ' ub] eqn:Heq. simpl in Hmap.
    destruct typ, to; try case_decide; simpl in *; done.
  - intros r d IH Hin.
    assert (rrows_children (ty_in D) (rr_in D)
      (rrows_map_state (raising (subst_levels id to)) (raising (subst_levels_rrows id to))
         r NO_VAR).1) as Hmap.
    { unfold raising. destruct r as [|[]| |]; simpl in *; repeat (case_match; simplify_eq/=);
        naive_solver. }
    destruct (rrows_map_state _ _ _ _) as [r' ub] eqn:Heq. simpl in Hmap.
    destruct r, to; try case_decide; apply rr_in_concrete || simpl in *; done.
  - intros e d IH Hin.
    assert (erows_children (ty_in D) (er_in D)
      (erows_map_state (raising (subst_levels id to)) (raising (subst_levels_erows id to))
         e NO_VAR).1) as Hmap.
    { unfold raising. destruct e as [|[? []]|]; simpl in *; repeat (case_match; simplify_eq/=);
        naive_solver. }
    destruct (erows_map_state _ _ _ _) as [e' ub] eqn:Heq. simpl in Hmap.
    destruct e, to; try case_decide; apply er_in_concrete || simpl in *; done.
Qed.

Lemma subst_in D t id to : to_in D to → ty_in D t → ty_in D (subst t id to).
Proof. intros Hto. by apply subst_levels_in. Qed.
End ranges.

(** ** Equality modulo a table *)

Record bindings (Ctr : Type) : Type := mkBindings {
  b_types : list (option (UnifType Ctr));
  b_rrows : list (option (UnifRecordRows Ctr));
  b_erows : list (option (UnifEnumRows Ctr));
  b_wildcards : list (UnifType Ctr);
}.
Arguments mkBindings {Ctr}.
Arguments b_types {Ctr}.
Arguments b_rrows {Ctr}.
Arguments b_erows {Ctr}.
Arguments b_wildcards {Ctr}.

Section equality.
Context {Ctr : Type} (type_eq : Ctr → Ctr → bool).
Abbreviation Ty := (UnifType Ctr).
Abbreviation RR := (UnifRecordRows Ctr).
Abbreviation ER := (UnifEnumRows Ctr).

(** A constant of the kind of a bound variable, that does not occur in the
    types of dimensions [D]. *)
Inductive fresh_const (D : dims) : VarKind → SubstTo (Ctr := Ctr) → Prop :=
| fresh_type c : n_types D ≤ c → fresh_const D KindType (ToType (TConstant c))
| fresh_rrows c ex : n_rrows D ≤ c → fresh_const D (KindRecordRows ex) (ToRRows (RConstant c))
| fresh_erows c ex : n_erows D ≤ c → fresh_const D (KindEnumRows ex) (ToERows (EConstant c)).

(** Two rows of an enum type that do not stand for each other: a tag and a
    variant of the same name are different rows. *)
Definition erow_differ (row1 row2 : EnumRowF Ty) : Prop :=
  erow_id row1 ≠ erow_id row2 ∨ ¬ (is_Some (erow_typ row1) ↔ is_Some (erow_typ row2)).

Inductive ty_eq (b : bindings Ctr) : Ty → Ty → Prop :=
| te_refl t : ty_eq b t t
| te_sym t1 t2 : ty_eq b t1 t2 → ty_eq b t2 t1
| te_trans t1 t2 t3 : ty_eq b t1 t2 → ty_eq b t2 t3 → ty_eq b t1 t3
| te_var v l t : b_types b !! v = Some (Some t) → ty_eq b (TUnifVar v l) t
| te_level v l l' : ty_eq b (TUnifVar v l) (TUnifVar v l')
| te_data typ d d' : ty_eq b (TConcrete typ d) (TConcrete typ d')
| te_wildcard id d t : b_wildcards b !! id = Some t → ty_eq b (TConcrete (Wildcard id) d) t
| te_contract c1 c2 d1 d2 :
    type_eq c1 c2 → ty_eq b (TConcrete (Contract c1) d1) (TConcrete (Contract c2) d2)
| te_arrow a1 a2 b1 b2 d1 d2 :
    ty_eq b a1 a2 → ty_eq b b1 b2 →
    ty_eq b (TConcrete (Arrow a1 b1) d1) (TConcrete (Arrow a2 b2) d2)
| te_array a1 a2 d1 d2 :
    ty_eq b a1 a2 → ty_eq b (TConcrete (Array a1) d1) (TConcrete (Array a2) d2)
| te_dict a1 a2 f1 f2 d1 d2 :
    ty_eq b a1 a2 → ty_eq b (TConcrete (Dict a1 f1) d1) (TConcrete (Dict a2 f2) d2)
| te_record r1 r2 d1 d2 :
    rr_eq b r1 r2 → ty_eq b (TConcrete (Record r1) d1) (TConcrete (Record r2) d2)
| te_enum e1 e2 d1 d2 :
    er_eq b e1 e2 → ty_eq b (TConcrete (Enum e1) d1) (TConcrete (Enum e2) d2)
| te_body v k a1 a2 d1 d2 :
    ty_eq b a1 a2 → ty_eq b (TConcrete (Forall v k a1) d1) (TConcrete (Forall v k a2) d2)
| te_forall D v1 v2 k a1 a2 c d1 d2 :
    ty_in D a1 → ty_in D a2 → fresh_const D k c →
    ty_eq b (subst a1 v1 c) (subst a2 v2 c) →
    ty_eq b (TConcrete (Forall v1 k a1) d1) (TConcrete (Forall v2 k a2) d2)
with rr_eq (b : bindings Ctr) : RR → RR → Prop :=
| re_refl r : rr_eq b r r
| re_sym r1 r2 : rr_eq b r1 r2 → rr_eq b r2 r1
| re_trans r1 r2 r3 : rr_eq b r1 r2 → rr_eq b r2 r3 → rr_eq b r1 r3
| re_var v l r : b_rrows b !! v = Some (Some r) → rr_eq b (RUnifVar v l) r
| re_level v l l' : rr_eq b (RUnifVar v l) (RUnifVar v l')
| re_data r d d' : rr_eq b (RConcrete r d) (RConcrete r d')
| re_extend id t1 t2 r1 r2 d1 d2 :
    ty_eq b t1 t2 → rr_eq b r1 r2 →
    rr_eq b (RConcrete (RExtend (mkRecordRow id t1) r1) d1)
            (RConcrete (RExtend (mkRecordRow id t2) r2) d2)
| re_swap row1 row2 r d1 d2 d3 d4 :
    rrow_id row1 ≠ rrow_id row2 →
    rr_eq b (RConcrete (RExtend row1 (RConcrete (RExtend row2 r) d1)) d2)
            (RConcrete (RExtend row2 (RConcrete (RExtend row1 r) d3)) d4)
with er_eq (b : bindings Ctr) : ER → ER → Prop :=
| ee_refl e : er_eq b e e
| ee_sym e1 e2 : er_eq b e1 e2 → er_eq b e2 e1
| ee_trans e1 e2 e3 : er_eq b e1 e2 → er_eq b e2 e3 → er_eq b e1 e3
| ee_var v l e : b_erows b !! v = Some (Some e) → er_eq b (EUnifVar v l) e
| ee_level v l l' : er_eq b (EUnifVar v l) (EUnifVar v l')
| ee_data e d d' : er_eq b (EConcrete e d) (EConcrete e d')
| ee_tag id e1 e2 d1 d2 :
    er_eq b e1 e2 →
    er_eq b (EConcrete (EExtend (mkEnumRow id None) e1) d1)
            (EConcrete (EExtend (mkEnumRow id None) e2) d2)
| ee_variant id t1 t2 e1 e2 d1 d2 :
    ty_eq b t1 t2 → er_eq b e1 e2 →
    er_eq b (EConcrete (EExtend (mkEnumRow id (Some t1)) e1) d1)
            (EConcrete (EExtend (mkEnumRow id (Some t2)) e2) d2)
| ee_swap row1 row2 e d1 d2 d3 d4 :
    erow_differ row1 row2 →
    er_eq b (EConcrete (EExtend row1 (EConcrete (EExtend row2 e) d1)) d2)
            (EConcrete (EExtend row2 (EConcrete (EExtend row1 e) d3)) d4).

Scheme ty_eq_min := Minimality for ty_eq Sort Prop
with rr_eq_min := Minimality for rr_eq Sort Prop
with er_eq_min := Minimality for er_eq Sort Prop.
Combined Scheme unif_eq_min from ty_eq_min, rr_eq_min, er_eq_min.

#[export] Instance ty_eq_equivalence b : Equivalence (ty_eq b).
Proof. split; [intros ?|intros ??|intros ???]; eauto using te_refl, te_sym, te_trans. Qed.
#[export] Instance rr_eq_equivalence b : Equivalence (rr_eq b).
Proof. split; [intros ?|intros ??|intros ???]; eauto using re_refl, re_sym, re_trans. Qed.
#[export] Instance er_eq_equivalence b : Equivalence (er_eq b).
Proof. split; [intros ?|intros ??|intros ???]; eauto using ee_refl, ee_sym, ee_trans. Qed.

(** [b'] knows everything [b] knows. *)
Record extends (b b' : bindings Ctr) : Prop := {
  ext_types v t : b_types b !! v = Some (Some t) → ty_eq b' (TUnifVar v NO_VAR) t;
  ext_rrows v r : b_rrows b !! v = Some (Some r) → rr_eq b' (RUnifVar v NO_VAR) r;
  ext_erows v e : b_erows b !! v = Some (Some e) → er_eq b' (EUnifVar v NO_VAR) e;
  ext_wildcards id t : b_wildcards b !! id = Some t → b_wildcards b' !! id = Some t;
}.

Lemma extends_eq b b' :
  extends b b' →
  (∀ t1 t2, ty_eq b t1 t2 → ty_eq b' t1 t2) ∧
  (∀ r1 r2, rr_eq b r1 r2 → rr_eq b' r1 r2) ∧
  (∀ e1 e2, er_eq b e1 e2 → er_eq b' e1 e2).
Proof.
  intros [Ht Hr He Hw]. apply unif_eq_min; intros;
    try solve [econstructor; eauto].
  - eapply te_trans; [apply te_level|by apply Ht].
  - eapply re_trans; [apply re_level|by apply Hr].
  - eapply ee_trans; [apply ee_level|by apply He].
Qed.

Lemma extends_ty b b' t1 t2 : extends b b' → ty_eq b t1 t2 → ty_eq b' t1 t2.
Proof. intros H. by apply (extends_eq b b' H). Qed.
Lemma extends_rr b b' r1 r2 : extends b b' → rr_eq b r1 r2 → rr_eq b' r1 r2.
Proof. intros H. by apply (extends_eq b b' H). Qed.
Lemma extends_er b b' e1 e2 : extends b b' → er_eq b e1 e2 → er_eq b' e1 e2.
Proof. intros H. by apply (extends_eq b b' H). Qed.

#[export] Instance extends_preorder : PreOrder extends.
Proof.
  split.
  - intros b. split; auto using te_var, re_var, ee_var.
  - intros b1 b2 b3 H12 H23. split.
    + intros v t Hv. eapply extends_ty; [done|]. by apply H12.
    + intros v t Hv. eapply extends_rr; [done|]. by apply H12.
    + intros v t Hv. eapply extends_er; [done|]. by apply H12.
    + intros id t Hid. by apply H23, H12.
Qed.
End equality.
