(* ===== verification/UnifTableFacts.v ===== *)
(** * The unification table: invariant and operations

    [table_ok] is the invariant [unify] relies on: identifiers in range, finite
    chains of variables, pending updates on assigned variables only. Every
    operation of the table, used as [unify] uses it, does not panic, preserves
    the invariant, and changes the assignments only in a way that preserves the
    equalities they entail. *)
From S2P Require Import Prelude UnifTypes UnifTable SlotFacts Unify UnifRel.

Section table.
Context {Ctr : Type} (type_eq : Ctr → Ctr → bool).
Implicit Types (tb : UnifTable Ctr) (w : list (UnifType Ctr)).

Definition dims_of tb : dims :=
  mkDims (length (types tb)) (length (rrows tb)) (length (erows tb)).

Definition bindings_of tb w : bindings Ctr :=
  mkBindings (vals (types tb)) (vals (rrows tb)) (vals (erows tb)) w.

(** The invariant, with the pending lists apart. *)
Record wf_table (pt pr pe : list VarId) tb : Prop := {
  wf_types : slots_ok (ty_in (dims_of tb)) (vals (types tb)) pt;
  wf_rrows : slots_ok (rr_in (dims_of tb)) (vals (rrows tb)) pr;
  wf_erows : slots_ok (er_in (dims_of tb)) (vals (erows tb)) pe;
}.

Definition table_ok tb : Prop :=
  wf_table (pending_type_updates tb) (pending_rrows_updates tb) (pending_erows_updates tb) tb.

Lemma wf_table_new : table_ok table_new.
Proof. repeat split; simpl; try lia; try set_solver. Qed.

Lemma wf_table_pending pt pr pe pt' pr' pe' tb :
  wf_table pt pr pe tb →
  (∀ v, v ∈ pt' → v ∈ pt) → (∀ v, v ∈ pr' → v ∈ pr) → (∀ v, v ∈ pe' → v ∈ pe) →
  wf_table pt' pr' pe' tb.
Proof. intros [] ???. split; by eapply slots_ok_pending. Qed.

Lemma wf_table_weaken pt pr pe tb : wf_table pt pr pe tb → wf_table [] [] [] tb.
Proof. intros H. eapply wf_table_pending; [done|set_solver..]. Qed.

(** ** Tables with the same assignments *)

Record same_vals tb tb' : Prop := {
  same_types : vals (types tb') = vals (types tb);
  same_rrows : vals (rrows tb') = vals (rrows tb);
  same_erows : vals (erows tb') = vals (erows tb);
  same_pending_types : pending_type_updates tb' = pending_type_updates tb;
  same_pending_rrows : pending_rrows_updates tb' = pending_rrows_updates tb;
  same_pending_erows : pending_erows_updates tb' = pending_erows_updates tb;
}.

#[export] Instance same_vals_preorder : PreOrder same_vals.
Proof. split; [by intros ?|]. intros ??? [] []. split; congruence. Qed.

Lemma same_vals_dims tb tb' : same_vals tb tb' → dims_of tb' = dims_of tb.
Proof.
  intros [Ht Hr He _ _ _]. unfold dims_of.
  by f_equal; rewrite <- length_vals, ?Ht, ?Hr, ?He, length_vals.
Qed.

Lemma same_vals_bindings tb tb' w : same_vals tb tb' → bindings_of tb' w = bindings_of tb w.
Proof. intros [Ht Hr He _ _ _]. unfold bindings_of. congruence. Qed.

Lemma same_vals_wf pt pr pe tb tb' :
  same_vals tb tb' → wf_table pt pr pe tb → wf_table pt pr pe tb'.
Proof.
  intros Hs [Ht Hr He]. pose proof (same_vals_dims _ _ Hs) as HD.
  destruct Hs as [Ht' Hr' He' _ _ _].
  by split; rewrite HD, ?Ht', ?Hr', ?He'.
Qed.

(** ** Roots *)

Lemma into_root_type pt pr pe tb w t :
  wf_table pt pr pe tb → ty_in (dims_of tb) t →
  ∃ t', into_root (types tb) t = Done t' ∧ ty_in (dims_of tb) t' ∧
        is_root (vals (types tb)) t' ∧ ty_eq type_eq (bindings_of tb w) t t'.
Proof.
  intros [[Hv Hr _] _ _] Hin. destruct (root_total (types tb) t) as (t' & Heq & Hroot & Hval).
  { intros v l Hvl. apply as_unif_var_Some in Hvl as ->. apply Hr. by rewrite length_vals. }
  exists t'. split; [done|]. split; [|split; [done|]].
  - unfold is_root in Hroot. destruct (as_unif_var t') as [[v l]|] eqn:Hvl.
    + apply as_unif_var_Some in Hvl as ->. simpl.
      apply lookup_lt_Some in Hroot. by rewrite length_vals in Hroot.
    + destruct Hval as [->|[v Hvv]]; [done..|by eapply Hv].
  - eapply (into_root_rel (ty_eq type_eq (bindings_of tb w))); [apply _..| |done].
    intros. by apply te_var.
Qed.

Lemma into_root_rrows pt pr pe tb w t :
  wf_table pt pr pe tb → rr_in (dims_of tb) t →
  ∃ t', into_root (rrows tb) t = Done t' ∧ rr_in (dims_of tb) t' ∧
        is_root (vals (rrows tb)) t' ∧ rr_eq type_eq (bindings_of tb w) t t'.
Proof.
  intros [_ [Hv Hr _] _] Hin. destruct (root_total (rrows tb) t) as (t' & Heq & Hroot & Hval).
  { intros v l Hvl. apply as_unif_var_Some in Hvl as ->. apply Hr. by rewrite length_vals. }
  exists t'. split; [done|]. split; [|split; [done|]].
  - unfold is_root in Hroot. destruct (as_unif_var t') as [[v l]|] eqn:Hvl.
    + apply as_unif_var_Some in Hvl as ->. simpl.
      apply lookup_lt_Some in Hroot. by rewrite length_vals in Hroot.
    + destruct Hval as [->|[v Hvv]]; [done..|by eapply Hv].
  - eapply (into_root_rel (rr_eq type_eq (bindings_of tb w))); [apply _..| |done].
    intros. by apply re_var.
Qed.

Lemma into_root_erows pt pr pe tb w t :
  wf_table pt pr pe tb → er_in (dims_of tb) t →
  ∃ t', into_root (erows tb) t = Done t' ∧ er_in (dims_of tb) t' ∧
        is_root (vals (erows tb)) t' ∧ er_eq type_eq (bindings_of tb w) t t'.
Proof.
  intros [_ _ [Hv Hr _]] Hin. destruct (root_total (erows tb) t) as (t' & Heq & Hroot & Hval).
  { intros v l Hvl. apply as_unif_var_Some in Hvl as ->. apply Hr. by rewrite length_vals. }
  exists t'. split; [done|]. split; [|split; [done|]].
  - unfold is_root in Hroot. destruct (as_unif_var t') as [[v l]|] eqn:Hvl.
    + apply as_unif_var_Some in Hvl as ->. simpl.
      apply lookup_lt_Some in Hroot. by rewrite length_vals in Hroot.
    + destruct Hval as [->|[v Hvv]]; [done..|by eapply Hv].
  - eapply (into_root_rel (er_eq type_eq (bindings_of tb w))); [apply _..| |done].
    intros. by apply ee_var.
Qed.

(** ** Levels *)

Lemma same_with_types ts tb : vals ts = vals (types tb) → same_vals tb (with_types ts tb).
Proof. by split. Qed.
Lemma same_with_rrows rs tb : vals rs = vals (rrows tb) → same_vals tb (with_rrows rs tb).
Proof. by split. Qed.
Lemma same_with_erows es tb : vals es = vals (erows tb) → same_vals tb (with_erows es tb).
Proof. by split. Qed.

(** The traversals return a type equal to the one they are given, and change
    levels only. *)
Definition ty_updated tb w t (r : UnifType Ctr * UnifTable Ctr) : Prop :=
  same_vals tb r.2 ∧ ty_in (dims_of tb) r.1 ∧ ty_eq type_eq (bindings_of tb w) t r.1.
Definition rr_updated tb w t (r : UnifRecordRows Ctr * UnifTable Ctr) : Prop :=
  same_vals tb r.2 ∧ rr_in (dims_of tb) r.1 ∧ rr_eq type_eq (bindings_of tb w) t r.1.
Definition er_updated tb w t (r : UnifEnumRows Ctr * UnifTable Ctr) : Prop :=
  same_vals tb r.2 ∧ er_in (dims_of tb) r.1 ∧ er_eq type_eq (bindings_of tb w) t r.1.

Section map.
Context (w : list (UnifType Ctr)) (tb0 : UnifTable Ctr).
Let D := dims_of tb0.
Let b := bindings_of tb0 w.
Context (f : UnifType Ctr → UnifTable Ctr → outcome (UnifType Ctr * UnifTable Ctr)).
Context (fr : UnifRecordRows Ctr → UnifTable Ctr → outcome (UnifRecordRows Ctr * UnifTable Ctr)).
Context (fe : UnifEnumRows Ctr → UnifTable Ctr → outcome (UnifEnumRows Ctr * UnifTable Ctr)).
Context (Hf : ∀ t tb, same_vals tb0 tb → ty_in D t → safe (f t tb) (ty_updated tb w t)).
Context (Hfr : ∀ t tb, same_vals tb0 tb → rr_in D t → safe (fr t tb) (rr_updated tb w t)).
Context (Hfe : ∀ t tb, same_vals tb0 tb → er_in D t → safe (fe t tb) (er_updated tb w t)).

Lemma ty_updated_trans tb t r : same_vals tb0 tb → ty_updated tb w t r → ty_updated tb0 w t r.
Proof.
  intros H (? & ? & ?). rewrite (same_vals_dims _ _ H), (same_vals_bindings _ _ _ H) in *.
  split; [by etrans|done].
Qed.
Lemma rr_updated_trans tb t r : same_vals tb0 tb → rr_updated tb w t r → rr_updated tb0 w t r.
Proof.
  intros H (? & ? & ?). rewrite (same_vals_dims _ _ H), (same_vals_bindings _ _ _ H) in *.
  split; [by etrans|done].
Qed.
Lemma er_updated_trans tb t r : same_vals tb0 tb → er_updated tb w t r → er_updated tb0 w t r.
Proof.
  intros H (? & ? & ?). rewrite (same_vals_dims _ _ H), (same_vals_bindings _ _ _ H) in *.
  split; [by etrans|done].
Qed.

Lemma type_map_updated typ d d' :
  ty_in D (TConcrete typ d) →
  safe (type_try_map_state f fr fe (λ c tb, Done (c, tb)) typ tb0)
    (λ r, ty_updated tb0 w (TConcrete typ d) (TConcrete r.1 d', r.2)).
Proof.
  intros Hin. pose proof (reflexivity tb0 : same_vals tb0 tb0) as Hrefl.
  destruct typ; simpl in Hin |- *;
    try (split; [done|split; [done|by apply te_data]]).
  - destruct Hin as [Hina Hinb]. eapply safe_bind; [by apply Hf|]. intros [t1 tb1] (H1 & Hin1 & Heq1).
    eapply safe_bind; [by apply Hf|]. intros [t2 tb2] H2%(ty_updated_trans tb1); [|done].
    destruct H2 as (? & ? & ?). split; [done|split; [done|by apply te_arrow]].
  - eapply safe_bind; [by apply Hf|]. intros [t1 tb1] (H1 & Hin1 & Heq1).
    split; [done|split; [done|by apply te_body]].
  - eapply safe_bind; [by apply Hfe|]. intros [t1 tb1] (H1 & Hin1 & Heq1).
    split; [done|split; [done|by apply te_enum]].
  - eapply safe_bind; [by apply Hfr|]. intros [t1 tb1] (H1 & Hin1 & Heq1).
    split; [done|split; [done|by apply te_record]].
  - eapply safe_bind; [by apply Hf|]. intros [t1 tb1] (H1 & Hin1 & Heq1).
    split; [done|split; [done|by apply te_dict]].
  - eapply safe_bind; [by apply Hf|]. intros [t1 tb1] (H1 & Hin1 & Heq1).
    split; [done|split; [done|by apply te_array]].
Qed.

Lemma rrows_map_updated r d d' :
  rr_in D (RConcrete r d) →
  safe (rrows_try_map_state f fr r tb0)
    (λ x, rr_updated tb0 w (RConcrete r d) (RConcrete x.1 d', x.2)).
Proof.
  intros Hin%rr_in_concrete. pose proof (reflexivity tb0 : same_vals tb0 tb0) as Hrefl.
  destruct r as [|[id t] tail| |]; simpl in Hin |- *;
    try (split; [done|split; [done|by apply re_data]]).
  destruct Hin as [Hint Hintl].
  eapply safe_bind; [by apply Hf|]. intros [t1 tb1] (H1 & Hin1 & Heq1).
  eapply safe_bind; [by apply Hfr|]. intros [t2 tb2] H2%(rr_updated_trans tb1); [|done].
  destruct H2 as (? & ? & ?). split; [done|split; [done|by apply re_extend]].
Qed.

Lemma erows_map_updated e d d' :
  er_in D (EConcrete e d) →
  safe (erows_try_map_state f fe e tb0)
    (λ x, er_updated tb0 w (EConcrete e d) (EConcrete x.1 d', x.2)).
Proof.
  intros Hin%er_in_concrete. pose proof (reflexivity tb0 : same_vals tb0 tb0) as Hrefl.
  destruct e as [|[id [t|]] tail|]; simpl in Hin |- *;
    try (split; [done|split; [done|by apply ee_data]]); destruct Hin as [Hint Hintl].
  - destruct (f t tb0) as [[t1 tb1]| |] eqn:Hft; simpl; [|by pose proof (Hf t tb0 Hrefl Hint) as X; rewrite Hft in X|done].
    pose proof (Hf t tb0 Hrefl Hint) as X. rewrite Hft in X. destruct X as (H1 & Hin1 & Heq1).
    eapply safe_bind; [by apply Hfe|]. intros [t2 tb2] H2%(er_updated_trans tb1); [|done].
    destruct H2 as (? & ? & ?). split; [done|split; [done|by apply ee_variant]].
  - eapply safe_bind; [by apply Hfe|]. intros [t2 tb2] H2.
    destruct H2 as (? & ? & ?). split; [done|split; [done|by apply ee_tag]].
Qed.
End map.

Lemma ty_updated_from tb w t t' r :
  ty_eq type_eq (bindings_of tb w) t t' → ty_updated tb w t' r → ty_updated tb w t r.
Proof. intros H (? & ? & ?). split; [done|]. split; [done|]. by etrans. Qed.
Lemma rr_updated_from tb w t t' r :
  rr_eq type_eq (bindings_of tb w) t t' → rr_updated tb w t' r → rr_updated tb w t r.
Proof. intros H (? & ? & ?). split; [done|]. split; [done|]. by etrans. Qed.
Lemma er_updated_from tb w t t' r :
  er_eq type_eq (bindings_of tb w) t t' → er_updated tb w t' r → er_updated tb w t r.
Proof. intros H (? & ? & ?). split; [done|]. split; [done|]. by etrans. Qed.

(** Lowering the level of a variable. *)
Lemma lower_type_updated tb w id i l :
  ty_in (Ctr := Ctr) (dims_of tb) (TUnifVar id i) →
  safe (ts ← lower_level (types tb) id l; Done (TUnifVar id i, with_types ts tb))
    (ty_updated tb w (TUnifVar id i)).
Proof.
  intros Hin. destruct (lower_level_ok (types tb) id l Hin) as (ts & -> & Hts). simpl.
  split; [by apply same_with_types|done].
Qed.
Lemma lower_rrows_updated tb w id i l :
  rr_in (Ctr := Ctr) (dims_of tb) (RUnifVar id i) →
  safe (ts ← lower_level (rrows tb) id l; Done (RUnifVar id i, with_rrows ts tb))
    (rr_updated tb w (RUnifVar id i)).
Proof.
  intros Hin. destruct (lower_level_ok (rrows tb) id l Hin) as (ts & -> & Hts). simpl.
  split; [by apply same_with_rrows|done].
Qed.
Lemma lower_erows_updated tb w id i l :
  er_in (Ctr := Ctr) (dims_of tb) (EUnifVar id i) →
  safe (ts ← lower_level (erows tb) id l; Done (EUnifVar id i, with_erows ts tb))
    (er_updated tb w (EUnifVar id i)).
Proof.
  intros Hin. destruct (lower_level_ok (erows tb) id l Hin) as (ts & -> & Hts). simpl.
  split; [by apply same_with_erows|done].
Qed.

(** The three traversals with [n] fuel, on tables with the assignments of
    [tb0]. *)
Definition traversals_ok k w n tb0 : Prop :=
  (∀ t l tb, same_vals tb0 tb → ty_in (dims_of tb0) t →
     safe (update_utype_with_lvl k n t l tb) (ty_updated tb w t)) ∧
  (∀ r l tb, same_vals tb0 tb → rr_in (dims_of tb0) r →
     safe (update_rrows_with_lvl k n r l tb) (rr_updated tb w r)) ∧
  (∀ e l tb, same_vals tb0 tb → er_in (dims_of tb0) e →
     safe (update_erows_with_lvl k n e l tb) (er_updated tb w e)).

Lemma traversals_mono k w n tb0 tb :
  traversals_ok k w n tb0 → same_vals tb0 tb → traversals_ok k w n tb.
Proof.
  intros (Ht & Hr & He) Hs. rewrite <- (same_vals_dims _ _ Hs) in Ht, Hr, He.
  split; [|split]; intros; [apply Ht|apply Hr|apply He]; try done; by etrans.
Qed.

Lemma map_type_ok k w n l d d' typ tb :
  traversals_ok k w n tb → ty_in (dims_of tb) (TConcrete typ d) →
  safe (type_try_map_state
          (λ uty tb, update_utype_with_lvl k n uty l tb)
          (λ rr tb, update_rrows_with_lvl k n rr l tb)
          (λ er tb, update_erows_with_lvl k n er l tb)
          (λ ctr tb, Done (ctr, tb)) typ tb)
    (λ r, ty_updated tb w (TConcrete typ d) (TConcrete r.1 d', r.2)).
Proof. intros (Ht & Hr & He). apply type_map_updated; auto. Qed.

Lemma map_rrows_ok k w n l d d' r tb :
  traversals_ok k w n tb → rr_in (dims_of tb) (RConcrete r d) →
  safe (rrows_try_map_state
          (λ uty tb, update_utype_with_lvl k n uty l tb)
          (λ rr tb, update_rrows_with_lvl k n rr l tb) r tb)
    (λ x, rr_updated tb w (RConcrete r d) (RConcrete x.1 d', x.2)).
Proof. intros (Ht & Hr & He). apply rrows_map_updated; auto. Qed.

Lemma map_erows_ok k w n l d d' e tb :
  traversals_ok k w n tb → er_in (dims_of tb) (EConcrete e d) →
  safe (erows_try_map_state
          (λ uty tb, update_utype_with_lvl k n uty l tb)
          (λ er tb, update_erows_with_lvl k n er l tb) e tb)
    (λ x, er_updated tb w (EConcrete e d) (EConcrete x.1 d', x.2)).
Proof. intros (Ht & Hr & He). apply erows_map_updated; auto. Qed.

(** A mapped node is returned with new level data. *)
Lemma safe_rewrap {A B C} (m : outcome (A * C)) (f : A → B) (P : B * C → Prop) :
  safe m (λ r, P (f r.1, r.2)) → safe ('(x, tb) ← m; Done (f x, tb)) P.
Proof. intros H. eapply safe_bind; [exact H|]. by intros []. Qed.

Lemma traversals_step k w n tb :
  wf_table [] [] [] tb → traversals_ok k w n tb → traversals_ok k w (S n) tb.
Proof.
  intros Hwf Hn. split; [|split].
  - intros t l tb' Hs Hin. apply (same_vals_wf _ _ _ _ _ Hs) in Hwf.
    pose proof (traversals_mono _ _ _ _ _ Hn Hs) as Hn'.
    rewrite <- (same_vals_dims _ _ Hs) in Hin.
    destruct (into_root_type _ _ _ _ w _ Hwf Hin) as (t' & Ht' & Hin' & _ & Heq).
    cbn [update_utype_with_lvl]. rewrite Ht'. cbn [mbind outcome_bind].
    eapply safe_mono; [|intros r; by apply ty_updated_from].
    destruct t' as [typ d|id|id i]; repeat case_decide; try case_match;
      try (by split); try by apply lower_type_updated.
    + apply safe_rewrap with (f := λ typ, TConcrete typ _). by apply map_type_ok.
    + apply safe_rewrap with (f := λ typ, TConcrete typ _). by apply map_type_ok.
  - intros t l tb' Hs Hin. apply (same_vals_wf _ _ _ _ _ Hs) in Hwf.
    pose proof (traversals_mono _ _ _ _ _ Hn Hs) as Hn'.
    rewrite <- (same_vals_dims _ _ Hs) in Hin.
    destruct (into_root_rrows _ _ _ _ w _ Hwf Hin) as (t' & Ht' & Hin' & _ & Heq).
    cbn [update_rrows_with_lvl]. rewrite Ht'. cbn [mbind outcome_bind].
    eapply safe_mono; [|intros r; by apply rr_updated_from].
    destruct t' as [typ d|id|id i]; repeat case_decide; try case_match;
      try (by split); try by apply lower_rrows_updated.
    + apply safe_rewrap with (f := λ typ, RConcrete typ _). by apply map_rrows_ok.
    + apply safe_rewrap with (f := λ typ, RConcrete typ _). by apply map_rrows_ok.
  - intros t l tb' Hs Hin. apply (same_vals_wf _ _ _ _ _ Hs) in Hwf.
    pose proof (traversals_mono _ _ _ _ _ Hn Hs) as Hn'.
    rewrite <- (same_vals_dims _ _ Hs) in Hin.
    destruct (into_root_erows _ _ _ _ w _ Hwf Hin) as (t' & Ht' & Hin' & _ & Heq).
    cbn [update_erows_with_lvl]. rewrite Ht'. cbn [mbind outcome_bind].
    eapply safe_mono; [|intros r; by apply er_updated_from].
    destruct t' as [typ d|id|id i]; repeat case_decide; try case_match;
      try (by split); try by apply lower_erows_updated.
    + apply safe_rewrap with (f := λ typ, EConcrete typ _). by apply map_erows_ok.
    + apply safe_rewrap with (f := λ typ, EConcrete typ _). by apply map_erows_ok.
Qed.

Lemma traversals_are_ok k w n tb : wf_table [] [] [] tb → traversals_ok k w n tb.
Proof.
  intros Hwf. induction n as [|n IH]; [by repeat split|]. by apply traversals_step.
Qed.

(** ** Forcing the pending updates *)

(** The tables an operation may go to: everything known stays known, and
    assigned variables stay assigned. *)
Record table_le w tb tb' : Prop := {
  le_extends : extends type_eq (bindings_of tb w) (bindings_of tb' w);
  le_dims : dims_le (dims_of tb) (dims_of tb');
}.

#[export] Instance table_le_preorder w : PreOrder (table_le w).
Proof. split; [intros ?; by split|]. intros ??? [] []. split; by etrans. Qed.

Lemma same_vals_le w tb tb' : same_vals tb tb' → table_le w tb tb'.
Proof.
  intros H. split; [by rewrite (same_vals_bindings _ _ _ H)|by rewrite (same_vals_dims _ _ H)].
Qed.

(** Setting the value of one variable, to something equal to its previous
    value if it had one. *)
Lemma extends_set_type tb tb' w v o t :
  vals (types tb') = <[v := Some t]> (vals (types tb)) →
  vals (rrows tb') = vals (rrows tb) → vals (erows tb') = vals (erows tb) →
  vals (types tb) !! v = Some o →
  (∀ t0, o = Some t0 → ty_eq type_eq (bindings_of tb' w) t t0) →
  extends type_eq (bindings_of tb w) (bindings_of tb' w).
Proof.
  intros Ht Hr He Hv Ho. assert (v < length (vals (types tb))) by by eapply lookup_lt_Some.
  split; simpl; rewrite ?Hr, ?He; [|by intros; apply re_var; simpl; rewrite Hr
    |by intros; apply ee_var; simpl; rewrite He|done].
  intros u t0 Hu. destruct (decide (u = v)) as [->|Hne].
  - etrans; [apply te_var; simpl; rewrite Ht; by apply list_lookup_insert_eq|].
    apply Ho. congruence.
  - apply te_var. simpl. rewrite Ht. by rewrite list_lookup_insert_ne.
Qed.

Lemma extends_set_rrows tb tb' w v o t :
  vals (rrows tb') = <[v := Some t]> (vals (rrows tb)) →
  vals (types tb') = vals (types tb) → vals (erows tb') = vals (erows tb) →
  vals (rrows tb) !! v = Some o →
  (∀ t0, o = Some t0 → rr_eq type_eq (bindings_of tb' w) t t0) →
  extends type_eq (bindings_of tb w) (bindings_of tb' w).
Proof.
  intros Hr Ht He Hv Ho. assert (v < length (vals (rrows tb))) by by eapply lookup_lt_Some.
  split; simpl; rewrite ?Ht, ?He; [by intros; apply te_var; simpl; rewrite Ht|
    |by intros; apply ee_var; simpl; rewrite He|done].
  intros u t0 Hu. destruct (decide (u = v)) as [->|Hne].
  - etrans; [apply re_var; simpl; rewrite Hr; by apply list_lookup_insert_eq|].
    apply Ho. congruence.
  - apply re_var. simpl. rewrite Hr. by rewrite list_lookup_insert_ne.
Qed.

Lemma extends_set_erows tb tb' w v o t :
  vals (erows tb') = <[v := Some t]> (vals (erows tb)) →
  vals (types tb') = vals (types tb) → vals (rrows tb') = vals (rrows tb) →
  vals (erows tb) !! v = Some o →
  (∀ t0, o = Some t0 → er_eq type_eq (bindings_of tb' w) t t0) →
  extends type_eq (bindings_of tb w) (bindings_of tb' w).
Proof.
  intros He Ht Hr Hv Ho. assert (v < length (vals (erows tb))) by by eapply lookup_lt_Some.
  split; simpl; rewrite ?Ht, ?Hr; [by intros; apply te_var; simpl; rewrite Ht
    |by intros; apply re_var; simpl; rewrite Hr| |done].
  intros u t0 Hu. destruct (decide (u = v)) as [->|Hne].
  - etrans; [apply ee_var; simpl; rewrite He; by apply list_lookup_insert_eq|].
    apply Ho. congruence.
  - apply ee_var. simpl. rewrite He. by rewrite list_lookup_insert_ne.
Qed.

Lemma safe_let3 {A B C D} (m : outcome (A * B * C)) (f : A → B → C → outcome D) P Q :
  safe m P → (∀ a b c, P (a, b, c) → safe (f a b c) Q) →
  safe ('(a, b, c) ← m; f a b c) Q.
Proof. intros Hm Hf. eapply safe_bind; [exact Hm|]. intros [[a b] c]. apply Hf. Qed.

(** The update of a value that is not a variable. *)
Lemma update_utype_ok n w t cl tb :
  wf_table [] [] [] tb → ty_in (dims_of tb) t → as_unif_var t = None →
  safe (update_utype n t cl tb)
    (λ r, ty_updated tb w t (r.1.1, r.2) ∧ as_unif_var r.1.1 = None).
Proof.
  intros Hwf Hin Hvar. destruct t as [typ [ub [p|]]|id|id l]; [|by split..|done].
  cbn [update_utype]. destruct (irrelevant_level_update _ _ _); [by repeat split; try apply te_data|].
  destruct (p <? ub); [|by repeat split; try apply te_data].
  eapply safe_bind.
  - eapply map_type_ok with (d' := mkLevels p None); [by apply traversals_are_ok|exact Hin].
  - intros [typ' tb'] H. by split.
Qed.

Lemma update_rrows_ok n w t cl tb :
  wf_table [] [] [] tb → rr_in (dims_of tb) t → as_unif_var t = None →
  safe (update_rrows n t cl tb)
    (λ r, rr_updated tb w t (r.1.1, r.2) ∧ as_unif_var r.1.1 = None).
Proof.
  intros Hwf Hin Hvar. destruct t as [typ [ub [p|]]|id|id l]; [|by split..|done].
  cbn [update_rrows]. destruct (irrelevant_level_update _ _ _); [by repeat split; try apply re_data|].
  destruct (p <? ub); [|by repeat split; try apply re_data].
  eapply safe_bind.
  - eapply map_rrows_ok with (d' := mkLevels p None); [by apply traversals_are_ok|exact Hin].
  - intros [typ' tb'] H. by split.
Qed.

Lemma update_erows_ok n w t cl tb :
  wf_table [] [] [] tb → er_in (dims_of tb) t → as_unif_var t = None →
  safe (update_erows n t cl tb)
    (λ r, er_updated tb w t (r.1.1, r.2) ∧ as_unif_var r.1.1 = None).
Proof.
  intros Hwf Hin Hvar. destruct t as [typ [ub [p|]]|id|id l]; [|by split..|done].
  cbn [update_erows]. destruct (irrelevant_level_update _ _ _); [by repeat split; try apply ee_data|].
  destruct (p <? ub); [|by repeat split; try apply ee_data].
  eapply safe_bind.
  - eapply map_erows_ok with (d' := mkLevels p None); [by apply traversals_are_ok|exact Hin].
  - intros [typ' tb'] H. by split.
Qed.

(** What a forced update leaves. *)
Record forced (pt pr pe : list VarId) w tb tb' : Prop := {
  forced_wf : wf_table pt pr pe tb';
  forced_le : table_le w tb tb';
  forced_pending_types : pending_type_updates tb' = pending_type_updates tb;
  forced_pending_rrows : pending_rrows_updates tb' = pending_rrows_updates tb;
  forced_pending_erows : pending_erows_updates tb' = pending_erows_updates tb;
  forced_none_types v : vals (types tb) !! v = Some None → vals (types tb') !! v = Some None;
  forced_none_rrows v : vals (rrows tb) !! v = Some None → vals (rrows tb') !! v = Some None;
  forced_none_erows v : vals (erows tb) !! v = Some None → vals (erows tb') !! v = Some None;
}.

Lemma forced_trans pt pr pe w tb1 tb2 tb3 :
  forced pt pr pe w tb1 tb2 → forced pt pr pe w tb2 tb3 → forced pt pr pe w tb1 tb3.
Proof. intros [] []. split; [done|by etrans|..]; (congruence || auto). Qed.

Lemma dims_of_vals tb tb' :
  length (vals (types tb')) = length (vals (types tb)) →
  length (vals (rrows tb')) = length (vals (rrows tb)) →
  length (vals (erows tb')) = length (vals (erows tb)) → dims_of tb' = dims_of tb.
Proof. rewrite !length_vals. unfold dims_of. congruence. Qed.

Lemma force_type_update_ok n w pt pr pe cl id tb :
  wf_table pt pr pe tb → id ∈ pt →
  safe (force_type_update n cl id tb) (λ r, forced pt pr pe w tb r.2).
Proof.
  intros Hwf Hid. destruct (slots_pending _ _ _ (wf_types _ _ _ _ Hwf) id Hid) as (t & Hval & Hvar).
  assert (ty_in (dims_of tb) t) as Hin by by eapply (slots_values _ _ _ (wf_types _ _ _ _ Hwf)).
  destruct (vals_lookup_Some _ _ _ Hval) as (s & Hs & Hst).
  unfold force_type_update. rewrite Hs. cbn [unwrap mbind outcome_bind]. rewrite Hst.
  cbn [unwrap mbind outcome_bind].
  assert (id < length (types tb)) as Hlt by by eapply lookup_lt_Some.
  destruct (set_value_ok (types tb) id None Hlt) as (ts & -> & Hts). cbn [mbind outcome_bind].
  set (tb1 := with_types ts tb).
  assert (dims_of tb1 = dims_of tb) as HD1.
  { by apply dims_of_vals; simpl; rewrite ?Hts, ?length_insert. }
  assert (wf_table [] [] [] tb1) as Hwf1.
  { destruct (wf_table_weaken _ _ _ _ Hwf) as [H1 H2 H3].
    split; rewrite HD1; simpl; rewrite ?Hts; [|done|done].
    eapply slots_ok_set; [done..|naive_solver|done|set_solver]. }
  eapply safe_let3; [apply (update_utype_ok n w t cl tb1 Hwf1); [by rewrite HD1|done]|].
  intros t' delayed tb2 ((Hs2 & Hin2 & Heq2) & Hvar2). simpl in Hs2, Hin2, Heq2, Hvar2.
  assert (vals (types tb2) = <[id := None]> (vals (types tb))) as Hv2.
  { rewrite (same_types _ _ Hs2). exact Hts. }
  assert (id < length (types tb2)) as Hlt2.
  { by rewrite <- length_vals, Hv2, length_insert, length_vals. }
  destruct (set_value_ok (types tb2) id (Some t') Hlt2) as (ts3 & -> & Hts3).
  cbn [mbind outcome_bind safe snd]. set (tb3 := with_types ts3 tb2).
  rewrite Hv2, list_insert_insert_eq in Hts3.
  destruct Hs2 as [Hs2t Hs2r Hs2e Hp2t Hp2r Hp2e]. simpl in *.
  assert (dims_of tb3 = dims_of tb) as HD3.
  { by apply dims_of_vals; simpl; rewrite ?Hts3, ?Hs2t, ?Hs2r, ?Hs2e, ?length_insert. }
  assert (extends type_eq (bindings_of tb1 w) (bindings_of tb3 w)) as H13.
  { apply (extends_set_type _ _ w id None t'); simpl; rewrite ?Hts, ?Hs2t, ?Hs2r, ?Hs2e; try done.
    - by rewrite list_insert_insert_eq.
    - rewrite list_lookup_insert_eq; [done|by rewrite length_vals]. }
  split; simpl; [| |by rewrite ?Hp2t, ?Hp2r, ?Hp2e|by rewrite ?Hp2t, ?Hp2r, ?Hp2e|by rewrite ?Hp2t, ?Hp2r, ?Hp2e|intros v Hv; rewrite Hts3, list_lookup_insert_ne; [done|congruence]|by rewrite ?Hs2r|by rewrite ?Hs2e].
  - destruct Hwf as [H1 H2 H3].
    split; rewrite HD3; simpl; rewrite ?Hts3, ?Hs2t, ?Hs2r, ?Hs2e; [|done|done].
    eapply slots_ok_set; [done..|naive_solver| |done].
    intros ? [= <-]. split; [by rewrite <- HD1|done].
  - split; [|by rewrite HD3].
    apply (extends_set_type _ _ w id (Some t) t'); simpl; rewrite ?Hts3, ?Hs2t, ?Hs2r, ?Hs2e; try done.
    intros ? [= <-]. symmetry. by apply (extends_ty _ (bindings_of tb1 w)).
Qed.

Lemma force_rrows_update_ok n w pt pr pe cl id tb :
  wf_table pt pr pe tb → id ∈ pr →
  safe (force_rrows_update n cl id tb) (λ r, forced pt pr pe w tb r.2).
Proof.
  intros Hwf Hid. destruct (slots_pending _ _ _ (wf_rrows _ _ _ _ Hwf) id Hid) as (t & Hval & Hvar).
  assert (rr_in (dims_of tb) t) as Hin by by eapply (slots_values _ _ _ (wf_rrows _ _ _ _ Hwf)).
  destruct (vals_lookup_Some _ _ _ Hval) as (s & Hs & Hst).
  unfold force_rrows_update. rewrite Hs. cbn [unwrap mbind outcome_bind]. rewrite Hst.
  cbn [unwrap mbind outcome_bind].
  assert (id < length (rrows tb)) as Hlt by by eapply lookup_lt_Some.
  destruct (set_value_ok (rrows tb) id None Hlt) as (ts & -> & Hts). cbn [mbind outcome_bind].
  set (tb1 := with_rrows ts tb).
  assert (dims_of tb1 = dims_of tb) as HD1.
  { by apply dims_of_vals; simpl; rewrite ?Hts, ?length_insert. }
  assert (wf_table [] [] [] tb1) as Hwf1.
  { destruct (wf_table_weaken _ _ _ _ Hwf) as [H1 H2 H3].
    split; rewrite HD1; simpl; rewrite ?Hts; [done| |done].
    eapply slots_ok_set; [done..|naive_solver|done|set_solver]. }
  eapply safe_let3; [apply (update_rrows_ok n w t cl tb1 Hwf1); [by rewrite HD1|done]|].
  intros t' delayed tb2 ((Hs2 & Hin2 & Heq2) & Hvar2). simpl in Hs2, Hin2, Heq2, Hvar2.
  assert (vals (rrows tb2) = <[id := None]> (vals (rrows tb))) as Hv2.
  { rewrite (same_rrows _ _ Hs2). exact Hts. }
  assert (id < length (rrows tb2)) as Hlt2.
  { by rewrite <- length_vals, Hv2, length_insert, length_vals. }
  destruct (set_value_ok (rrows tb2) id (Some t') Hlt2) as (ts3 & -> & Hts3).
  cbn [mbind outcome_bind safe snd]. set (tb3 := with_rrows ts3 tb2).
  rewrite Hv2, list_insert_insert_eq in Hts3.
  destruct Hs2 as [Hs2t Hs2r Hs2e Hp2t Hp2r Hp2e]. simpl in *.
  assert (dims_of tb3 = dims_of tb) as HD3.
  { by apply dims_of_vals; simpl; rewrite ?Hts3, ?Hs2t, ?Hs2r, ?Hs2e, ?length_insert. }
  assert (extends type_eq (bindings_of tb1 w) (bindings_of tb3 w)) as H13.
  { apply (extends_set_rrows _ _ w id None t'); simpl; rewrite ?Hts, ?Hs2t, ?Hs2r, ?Hs2e; try done.
    - by rewrite list_insert_insert_eq.
    - rewrite list_lookup_insert_eq; [done|by rewrite length_vals]. }
  split; simpl; [| |by rewrite ?Hp2t, ?Hp2r, ?Hp2e|by rewrite ?Hp2t, ?Hp2r, ?Hp2e|by rewrite ?Hp2t, ?Hp2r, ?Hp2e|by rewrite ?Hs2t|intros v Hv; rewrite Hts3, list_lookup_insert_ne; [done|congruence]|by rewrite ?Hs2e].
  - destruct Hwf as [H1 H2 H3].
    split; rewrite HD3; simpl; rewrite ?Hts3, ?Hs2t, ?Hs2r, ?Hs2e; [done| |done].
    eapply slots_ok_set; [done..|naive_solver| |done].
    intros ? [= <-]. split; [by rewrite <- HD1|done].
  - split; [|by rewrite HD3].
    apply (extends_set_rrows _ _ w id (Some t) t'); simpl; rewrite ?Hts3, ?Hs2t, ?Hs2r, ?Hs2e; try done.
    intros ? [= <-]. symmetry. by apply (extends_rr _ (bindings_of tb1 w)).
Qed.

Lemma force_erows_update_ok n w pt pr pe cl id tb :
  wf_table pt pr pe tb → id ∈ pe →
  safe (force_erows_update n cl id tb) (λ r, forced pt pr pe w tb r.2).
Proof.
  intros Hwf Hid. destruct (slots_pending _ _ _ (wf_erows _ _ _ _ Hwf) id Hid) as (t & Hval & Hvar).
  assert (er_in (dims_of tb) t) as Hin by by eapply (slots_values _ _ _ (wf_erows _ _ _ _ Hwf)).
  destruct (vals_lookup_Some _ _ _ Hval) as (s & Hs & Hst).
  unfold force_erows_update. rewrite Hs. cbn [unwrap mbind outcome_bind]. rewrite Hst.
  cbn [unwrap mbind outcome_bind].
  assert (id < length (erows tb)) as Hlt by by eapply lookup_lt_Some.
  destruct (set_value_ok (erows tb) id None Hlt) as (ts & -> & Hts). cbn [mbind outcome_bind].
  set (tb1 := with_erows ts tb).
  assert (dims_of tb1 = dims_of tb) as HD1.
  { by apply dims_of_vals; simpl; rewrite ?Hts, ?length_insert. }
  assert (wf_table [] [] [] tb1) as Hwf1.
  { destruct (wf_table_weaken _ _ _ _ Hwf) as [H1 H2 H3].
    split; rewrite HD1; simpl; rewrite ?Hts; [done|done|].
    eapply slots_ok_set; [done..|naive_solver|done|set_solver]. }
  eapply safe_let3; [apply (update_erows_ok n w t cl tb1 Hwf1); [by rewrite HD1|done]|].
  intros t' delayed tb2 ((Hs2 & Hin2 & Heq2) & Hvar2). simpl in Hs2, Hin2, Heq2, Hvar2.
  assert (vals (erows tb2) = <[id := None]> (vals (erows tb))) as Hv2.
  { rewrite (same_erows _ _ Hs2). exact Hts. }
  assert (id < length (erows tb2)) as Hlt2.
  { by rewrite <- length_vals, Hv2, length_insert, length_vals. }
  destruct (set_value_ok (erows tb2) id (Some t') Hlt2) as (ts3 & -> & Hts3).
  cbn [mbind outcome_bind safe snd]. set (tb3 := with_erows ts3 tb2).
  rewrite Hv2, list_insert_insert_eq in Hts3.
  destruct Hs2 as [Hs2t Hs2r Hs2e Hp2t Hp2r Hp2e]. simpl in *.
  assert (dims_of tb3 = dims_of tb) as HD3.
  { by apply dims_of_vals; simpl; rewrite ?Hts3, ?Hs2t, ?Hs2r, ?Hs2e, ?length_insert. }
  assert (extends type_eq (bindings_of tb1 w) (bindings_of tb3 w)) as H13.
  { apply (extends_set_erows _ _ w id None t'); simpl; rewrite ?Hts, ?Hs2t, ?Hs2r, ?Hs2e; try done.
    - by rewrite list_insert_insert_eq.
    - rewrite list_lookup_insert_eq; [done|by rewrite length_vals]. }
  split; simpl; [| |by rewrite ?Hp2t, ?Hp2r, ?Hp2e|by rewrite ?Hp2t, ?Hp2r, ?Hp2e|by rewrite ?Hp2t, ?Hp2r, ?Hp2e|by rewrite ?Hs2t|by rewrite ?Hs2r|intros v Hv; rewrite Hts3, list_lookup_insert_ne; [done|congruence]].
  - destruct Hwf as [H1 H2 H3].
    split; rewrite HD3; simpl; rewrite ?Hts3, ?Hs2t, ?Hs2r, ?Hs2e; [done|done|].
    eapply slots_ok_set; [done..|naive_solver| |done].
    intros ? [= <-]. split; [by rewrite <- HD1|done].
  - split; [|by rewrite HD3].
    apply (extends_set_erows _ _ w id (Some t) t'); simpl; rewrite ?Hts3, ?Hs2t, ?Hs2r, ?Hs2e; try done.
    intros ? [= <-]. symmetry. by apply (extends_er _ (bindings_of tb1 w)).
Qed.

Lemma filter_state_ok (f : VarId → UnifTable Ctr → outcome (bool * UnifTable Ctr))
    w pt pr pe ids tb :
  (∀ id tb, wf_table pt pr pe tb → id ∈ ids → safe (f id tb) (λ r, forced pt pr pe w tb r.2)) →
  wf_table pt pr pe tb →
  safe (filter_state f ids tb) (λ r, forced pt pr pe w tb r.2 ∧ ∀ id, id ∈ r.1 → id ∈ ids).
Proof.
  revert tb. induction ids as [|id ids IH]; intros tb Hf Hwf; simpl.
  - split; [by split|done].
  - eapply safe_bind; [apply Hf; [done|by left]|]. intros [keep tb1] H1.
    eapply safe_bind; [apply IH; [|by eapply forced_wf]|].
    + intros id' tb' Hwf' Hid'. apply Hf; [done|by right].
    + intros [rest tb2] [H2 Hrest]. simpl in *. split; [by eapply forced_trans|].
      intros id'. destruct keep; set_solver.
Qed.

(** What [force_*_updates] guarantee. *)
Record table_forced w tb tb' : Prop := {
  tf_ok : table_ok tb';
  tf_le : table_le w tb tb';
  tf_types v : vals (types tb) !! v = Some None → vals (types tb') !! v = Some None;
  tf_rrows v : vals (rrows tb) !! v = Some None → vals (rrows tb') !! v = Some None;
  tf_erows v : vals (erows tb) !! v = Some None → vals (erows tb') !! v = Some None;
}.

Lemma force_type_updates_ok n w cl tb :
  table_ok tb → safe (force_type_updates n cl tb) (table_forced w tb).
Proof.
  intros Hok. unfold force_type_updates.
  assert (wf_table (pending_type_updates tb) (pending_rrows_updates tb)
            (pending_erows_updates tb) (with_pending_types [] tb)) as Hwf by by destruct Hok; split.
  eapply safe_bind; [apply filter_state_ok; [|exact Hwf]|].
  - intros id tb' Hwf' Hid. by apply force_type_update_ok.
  - intros [rest tb'] [[Hwf' Hle Hpt Hpr Hpe Hnt Hnr Hne] Hrest]. simpl in *.
    split; [|by destruct Hle; split|done..].
    assert (wf_table (pending_type_updates (with_pending_types rest tb'))
              (pending_rrows_updates (with_pending_types rest tb'))
              (pending_erows_updates (with_pending_types rest tb')) tb') as [];
      [|by split].
    simpl. rewrite ?Hpt, ?Hpr, ?Hpe. eapply wf_table_pending; [exact Hwf'|..]; auto.
Qed.

Lemma force_rrows_updates_ok n w cl tb :
  table_ok tb → safe (force_rrows_updates n cl tb) (table_forced w tb).
Proof.
  intros Hok. unfold force_rrows_updates.
  assert (wf_table (pending_type_updates tb) (pending_rrows_updates tb)
            (pending_erows_updates tb) (with_pending_rrows [] tb)) as Hwf by by destruct Hok; split.
  eapply safe_bind; [apply filter_state_ok; [|exact Hwf]|].
  - intros id tb' Hwf' Hid. by apply force_rrows_update_ok.
  - intros [rest tb'] [[Hwf' Hle Hpt Hpr Hpe Hnt Hnr Hne] Hrest]. simpl in *.
    split; [|by destruct Hle; split|done..].
    assert (wf_table (pending_type_updates (with_pending_rrows rest tb'))
              (pending_rrows_updates (with_pending_rrows rest tb'))
              (pending_erows_updates (with_pending_rrows rest tb')) tb') as [];
      [|by split].
    simpl. rewrite ?Hpt, ?Hpr, ?Hpe. eapply wf_table_pending; [exact Hwf'|..]; auto.
Qed.

Lemma force_erows_updates_ok n w cl tb :
  table_ok tb → safe (force_erows_updates n cl tb) (table_forced w tb).
Proof.
  intros Hok. unfold force_erows_updates.
  assert (wf_table (pending_type_updates tb) (pending_rrows_updates tb)
            (pending_erows_updates tb) (with_pending_erows [] tb)) as Hwf by by destruct Hok; split.
  eapply safe_bind; [apply filter_state_ok; [|exact Hwf]|].
  - intros id tb' Hwf' Hid. by apply force_erows_update_ok.
  - intros [rest tb'] [[Hwf' Hle Hpt Hpr Hpe Hnt Hnr Hne] Hrest]. simpl in *.
    split; [|by destruct Hle; split|done..].
    assert (wf_table (pending_type_updates (with_pending_erows rest tb'))
              (pending_rrows_updates (with_pending_erows rest tb'))
              (pending_erows_updates (with_pending_erows rest tb')) tb') as [];
      [|by split].
    simpl. rewrite ?Hpt, ?Hpr, ?Hpe. eapply wf_table_pending; [exact Hwf'|..]; auto.
Qed.

(** ** Assignment *)

Lemma set_types_assigned w tb var t :
  table_ok tb →
  ty_in (dims_of tb) t → vals (types tb) !! var = Some None →
  (∀ u l, as_unif_var t = Some (u, l) → u ≠ var ∧ vals (types tb) !! u = Some None) →
  safe (ts ← set_value (types tb) var (Some t); Done (with_types ts tb))
    (λ tb', table_ok tb' ∧ table_le w tb tb' ∧
            vals (types tb') = <[var := Some t]> (vals (types tb)) ∧
            (∀ l, ty_eq type_eq (bindings_of tb' w) (TUnifVar var l) t)).
Proof.
  intros Hok Hin Hnone Hroot.
  assert (var < length (vals (types tb))) as Hlt by by eapply lookup_lt_Some.
  destruct (set_value_ok (types tb) var (Some t)) as (ts & -> & Hts); [by rewrite <- length_vals|].
  cbn [mbind outcome_bind safe]. set (tb' := with_types ts tb).
  assert (dims_of tb' = dims_of tb) as HD.
  { by apply dims_of_vals; simpl; rewrite ?Hts, ?length_insert. }
  split; [|split; [split; [|by rewrite HD]|split; [done|]]].
  - destruct Hok as [H1 H2 H3]. split; rewrite HD; simpl; rewrite ?Hts; [|done|done].
    by apply slots_ok_assign.
  - apply (extends_set_type _ _ w var None t); simpl; rewrite ?Hts; done.
  - intros l. apply te_var. simpl. rewrite Hts. by apply list_lookup_insert_eq.
Qed.

Lemma set_rrows_assigned w tb var t :
  table_ok tb →
  rr_in (dims_of tb) t → vals (rrows tb) !! var = Some None →
  (∀ u l, as_unif_var t = Some (u, l) → u ≠ var ∧ vals (rrows tb) !! u = Some None) →
  safe (ts ← set_value (rrows tb) var (Some t); Done (with_rrows ts tb))
    (λ tb', table_ok tb' ∧ table_le w tb tb' ∧
            vals (rrows tb') = <[var := Some t]> (vals (rrows tb)) ∧
            (∀ l, rr_eq type_eq (bindings_of tb' w) (RUnifVar var l) t)).
Proof.
  intros Hok Hin Hnone Hroot.
  assert (var < length (vals (rrows tb))) as Hlt by by eapply lookup_lt_Some.
  destruct (set_value_ok (rrows tb) var (Some t)) as (ts & -> & Hts); [by rewrite <- length_vals|].
  cbn [mbind outcome_bind safe]. set (tb' := with_rrows ts tb).
  assert (dims_of tb' = dims_of tb) as HD.
  { by apply dims_of_vals; simpl; rewrite ?Hts, ?length_insert. }
  split; [|split; [split; [|by rewrite HD]|split; [done|]]].
  - destruct Hok as [H1 H2 H3]. split; rewrite HD; simpl; rewrite ?Hts; [done| |done].
    by apply slots_ok_assign.
  - apply (extends_set_rrows _ _ w var None t); simpl; rewrite ?Hts; done.
  - intros l. apply re_var. simpl. rewrite Hts. by apply list_lookup_insert_eq.
Qed.

Lemma set_erows_assigned w tb var t :
  table_ok tb →
  er_in (dims_of tb) t → vals (erows tb) !! var = Some None →
  (∀ u l, as_unif_var t = Some (u, l) → u ≠ var ∧ vals (erows tb) !! u = Some None) →
  safe (ts ← set_value (erows tb) var (Some t); Done (with_erows ts tb))
    (λ tb', table_ok tb' ∧ table_le w tb tb' ∧
            vals (erows tb') = <[var := Some t]> (vals (erows tb)) ∧
            (∀ l, er_eq type_eq (bindings_of tb' w) (EUnifVar var l) t)).
Proof.
  intros Hok Hin Hnone Hroot.
  assert (var < length (vals (erows tb))) as Hlt by by eapply lookup_lt_Some.
  destruct (set_value_ok (erows tb) var (Some t)) as (ts & -> & Hts); [by rewrite <- length_vals|].
  cbn [mbind outcome_bind safe]. set (tb' := with_erows ts tb).
  assert (dims_of tb' = dims_of tb) as HD.
  { by apply dims_of_vals; simpl; rewrite ?Hts, ?length_insert. }
  split; [|split; [split; [|by rewrite HD]|split; [done|]]].
  - destruct Hok as [H1 H2 H3]. split; rewrite HD; simpl; rewrite ?Hts; [done|done|].
    by apply slots_ok_assign.
  - apply (extends_set_erows _ _ w var None t); simpl; rewrite ?Hts; done.
  - intros l. apply ee_var. simpl. rewrite Hts. by apply list_lookup_insert_eq.
Qed.

Lemma same_vals_table_ok tb tb' : same_vals tb tb' → table_ok tb → table_ok tb'.
Proof.
  intros Hs Hok. unfold table_ok. destruct (Hs) as [_ _ _ -> -> ->].
  by apply (same_vals_wf _ _ _ tb).
Qed.

Lemma push_pending pt pr pe vt vr ve tb :
  wf_table pt pr pe tb →
  (∀ v, v ∈ vt → ∃ t, vals (types tb) !! v = Some (Some t) ∧ as_unif_var t = None) →
  (∀ v, v ∈ vr → ∃ t, vals (rrows tb) !! v = Some (Some t) ∧ as_unif_var t = None) →
  (∀ v, v ∈ ve → ∃ t, vals (erows tb) !! v = Some (Some t) ∧ as_unif_var t = None) →
  wf_table (pt ++ vt) (pr ++ vr) (pe ++ ve) tb.
Proof.
  intros [[] [] []] Ht Hr He. split; split; try done.
  - intros v [|]%elem_of_app; auto.
  - intros v [|]%elem_of_app; auto.
  - intros v [|]%elem_of_app; auto.
Qed.

Lemma assign_type_ok w tb var t :
  table_ok tb → ty_in (dims_of tb) t → vals (types tb) !! var = Some None →
  is_root (vals (types tb)) t →
  safe (assign_type tb var t)
    (λ tb', table_ok tb' ∧ table_le w tb tb' ∧
            ∀ l, ty_eq type_eq (bindings_of tb' w) (TUnifVar var l) t).
Proof.
  intros Hok Hin Hnone Hroot.
  assert (var < length (types tb)) as Hlt.
  { rewrite <- length_vals. by eapply lookup_lt_Some. }
  destruct (slot_level_ok (types tb) var Hlt) as [lv Hlv].
  destruct t as [typ d|id|id l]; cbn [assign_type].
  - rewrite (assert_unassigned_ok _ _ Hnone). cbn [mbind outcome_bind].
    rewrite Hlv. cbn [mbind outcome_bind update_type_level].
    destruct (lv <=? upper_bound d).
    + pose proof (set_types_assigned w tb var (TConcrete typ (mkLevels (upper_bound d) (Some lv)))
        Hok Hin Hnone) as H. cbn [mbind outcome_bind types with_pending_types].
      destruct (set_value (types tb) var _) as [ts| |]; [|by apply H..].
      cbn [mbind outcome_bind safe] in H |- *.
      destruct H as (Hok' & Hle' & Hv' & Heq'); [done|]. split; [|split].
      * pose proof (push_pending _ _ _ [var] [] [] _ Hok') as Hp. rewrite !app_nil_r in Hp.
        destruct Hp as []; [|set_solver..|by split].
        intros v ->%list_elem_of_singleton. simpl in Hv' |- *. rewrite Hv'.
        eexists. split; [by apply list_lookup_insert_eq; rewrite length_vals|done].
      * destruct Hle' as [He Hd]. by split.
      * intros l. etrans; [apply (Heq' l)|]. apply te_data.
    + cbn [mbind outcome_bind]. eapply safe_mono.
      * by apply (set_types_assigned w tb var (TConcrete typ d)).
      * by intros tb' (? & ? & _ & ?).
  - rewrite (assert_unassigned_ok _ _ Hnone). cbn [mbind outcome_bind].
    rewrite Hlv. cbn [mbind outcome_bind update_type_level].
    eapply safe_mono; [by apply (set_types_assigned w tb var (TConstant id))|].
    by intros tb' (? & ? & _ & ?).
  - case_decide as Hid; [subst; split; [done|split; [done|intros; apply te_level]]|].
    unfold is_root in Hroot. simpl in Hroot.
    rewrite (assert_unassigned_ok _ _ Hnone), (assert_unassigned_ok _ _ Hroot).
    cbn [mbind outcome_bind]. rewrite Hlv. cbn [mbind outcome_bind update_type_level].
    destruct (lower_level_ok (types tb) id lv Hin) as (ts & -> & Hts). cbn [mbind outcome_bind].
    pose proof (same_with_types ts tb Hts) as Hs.
    assert (table_ok (with_types ts tb)) as Hok' by by eapply same_vals_table_ok.
    eapply safe_mono.
    + eapply (set_types_assigned w (with_types ts tb)); [done|by rewrite (same_vals_dims _ _ Hs)
        |simpl; by rewrite Hts|].
      intros u l' [= -> ->]. simpl. by rewrite Hts.
    + intros tb' (? & Hle & _ & ?). split; [done|]. split; [|done].
      etrans; [by apply same_vals_le|done].
Qed.

Lemma assign_rrows_ok w tb var t :
  table_ok tb → rr_in (dims_of tb) t → vals (rrows tb) !! var = Some None →
  is_root (vals (rrows tb)) t →
  safe (assign_rrows tb var t)
    (λ tb', table_ok tb' ∧ table_le w tb tb' ∧
            ∀ l, rr_eq type_eq (bindings_of tb' w) (RUnifVar var l) t).
Proof.
  intros Hok Hin Hnone Hroot.
  assert (var < length (rrows tb)) as Hlt.
  { rewrite <- length_vals. by eapply lookup_lt_Some. }
  destruct (slot_level_ok (rrows tb) var Hlt) as [lv Hlv].
  destruct t as [r d|id|id l]; cbn [assign_rrows].
  - rewrite Hlv. cbn [mbind outcome_bind update_rrows_level].
    destruct (lv <=? upper_bound d); cbn [mbind outcome_bind rrows with_pending_rrows];
      rewrite (assert_unassigned_ok _ _ Hnone); cbn [mbind outcome_bind].
    + pose proof (set_rrows_assigned w tb var (RConcrete r d) Hok Hin Hnone) as H.
      destruct (set_value (rrows tb) var _) as [ts| |]; [|by apply H..].
      cbn [mbind outcome_bind safe] in H |- *.
      destruct H as (Hok' & Hle' & Hv' & Heq'); [done|]. split; [|split].
      * pose proof (push_pending _ _ _ [] [var] [] _ Hok') as Hp. rewrite !app_nil_r in Hp.
        destruct Hp as []; try set_solver; [|by split].
        intros v ->%list_elem_of_singleton. simpl in Hv' |- *. rewrite Hv'.
        eexists. split; [by apply list_lookup_insert_eq; rewrite length_vals|done].
      * destruct Hle' as [He Hd]. by split.
      * done.
    + eapply safe_mono; [by apply (set_rrows_assigned w tb var (RConcrete r d))|].
      by intros tb' (? & ? & _ & ?).
  - rewrite Hlv. cbn [mbind outcome_bind update_rrows_level].
    rewrite (assert_unassigned_ok _ _ Hnone). cbn [mbind outcome_bind].
    eapply safe_mono; [by apply (set_rrows_assigned w tb var (RConstant id))|].
    by intros tb' (? & ? & _ & ?).
  - case_decide as Hid; [subst; split; [done|split; [done|intros; apply re_level]]|].
    unfold is_root in Hroot. simpl in Hroot.
    rewrite Hlv. cbn [mbind outcome_bind update_rrows_level].
    destruct (lower_level_ok (rrows tb) id lv Hin) as (ts & -> & Hts).
    cbn [mbind outcome_bind rrows with_rrows].
    rewrite assert_unassigned_ok by by rewrite Hts. cbn [mbind outcome_bind].
    pose proof (same_with_rrows ts tb Hts) as Hs.
    assert (table_ok (with_rrows ts tb)) as Hok' by by eapply same_vals_table_ok.
    eapply safe_mono.
    + eapply (set_rrows_assigned w (with_rrows ts tb)); [done|by rewrite (same_vals_dims _ _ Hs)
        |simpl; by rewrite Hts|].
      intros u l' [= -> ->]. simpl. by rewrite Hts.
    + intros tb' (? & Hle & _ & ?). split; [done|]. split; [|done].
      etrans; [by apply same_vals_le|done].
Qed.

Lemma assign_erows_ok w tb var t :
  table_ok tb → er_in (dims_of tb) t → vals (erows tb) !! var = Some None →
  is_root (vals (erows tb)) t →
  safe (assign_erows tb var t)
    (λ tb', table_ok tb' ∧ table_le w tb tb' ∧
            ∀ l, er_eq type_eq (bindings_of tb' w) (EUnifVar var l) t).
Proof.
  intros Hok Hin Hnone Hroot.
  assert (var < length (erows tb)) as Hlt.
  { rewrite <- length_vals. by eapply lookup_lt_Some. }
  destruct (slot_level_ok (erows tb) var Hlt) as [lv Hlv].
  destruct t as [r d|id|id l]; cbn [assign_erows].
  - rewrite Hlv. cbn [mbind outcome_bind update_erows_level].
    destruct (lv <=? upper_bound d); cbn [mbind outcome_bind erows with_pending_erows];
      rewrite (assert_unassigned_ok _ _ Hnone); cbn [mbind outcome_bind].
    + pose proof (set_erows_assigned w tb var (EConcrete r d) Hok Hin Hnone) as H.
      destruct (set_value (erows tb) var _) as [ts| |]; [|by apply H..].
      cbn [mbind outcome_bind safe] in H |- *.
      destruct H as (Hok' & Hle' & Hv' & Heq'); [done|]. split; [|split].
      * pose proof (push_pending _ _ _ [] [] [var] _ Hok') as Hp. rewrite !app_nil_r in Hp.
        destruct Hp as []; try set_solver; [|by split].
        intros v ->%list_elem_of_singleton. simpl in Hv' |- *. rewrite Hv'.
        eexists. split; [by apply list_lookup_insert_eq; rewrite length_vals|done].
      * destruct Hle' as [He Hd]. by split.
      * done.
    + eapply safe_mono; [by apply (set_erows_assigned w tb var (EConcrete r d))|].
      by intros tb' (? & ? & _ & ?).
  - rewrite Hlv. cbn [mbind outcome_bind update_erows_level].
    rewrite (assert_unassigned_ok _ _ Hnone). cbn [mbind outcome_bind].
    eapply safe_mono; [by apply (set_erows_assigned w tb var (EConstant id))|].
    by intros tb' (? & ? & _ & ?).
  - case_decide as Hid; [subst; split; [done|split; [done|intros; apply ee_level]]|].
    unfold is_root in Hroot. simpl in Hroot.
    rewrite Hlv. cbn [mbind outcome_bind update_erows_level].
    destruct (lower_level_ok (erows tb) id lv Hin) as (ts & -> & Hts).
    cbn [mbind outcome_bind erows with_erows].
    rewrite assert_unassigned_ok by by rewrite Hts. cbn [mbind outcome_bind].
    pose proof (same_with_erows ts tb Hts) as Hs.
    assert (table_ok (with_erows ts tb)) as Hok' by by eapply same_vals_table_ok.
    eapply safe_mono.
    + eapply (set_erows_assigned w (with_erows ts tb)); [done|by rewrite (same_vals_dims _ _ Hs)
        |simpl; by rewrite Hts|].
      intros u l' [= -> ->]. simpl. by rewrite Hts.
    + intros tb' (? & Hle & _ & ?). split; [done|]. split; [|done].
      etrans; [by apply same_vals_le|done].
Qed.

(** ** Allocation *)

Lemma wf_table_mono pt pr pe tb tb' :
  wf_table pt pr pe tb → dims_le (dims_of tb) (dims_of tb') →
  (∃ k, vals (types tb') = vals (types tb) ++ replicate k None) →
  (∃ k, vals (rrows tb') = vals (rrows tb) ++ replicate k None) →
  (∃ k, vals (erows tb') = vals (erows tb) ++ replicate k None) →
  wf_table pt pr pe tb'.
Proof.
  intros [Ht Hr He] HD [kt Hkt] [kr Hkr] [ke Hke].
  split; rewrite ?Hkt, ?Hkr, ?Hke; apply slots_ok_app;
    (eapply slots_ok_impl; [|done]); intros t.
  - by apply ty_in_mono.
  - by apply rr_in_mono.
  - by apply er_in_mono.
Qed.

Lemma extends_app tb tb' w w' :
  (∃ k, vals (types tb') = vals (types tb) ++ k) →
  (∃ k, vals (rrows tb') = vals (rrows tb) ++ k) →
  (∃ k, vals (erows tb') = vals (erows tb) ++ k) →
  (∃ k, w' = w ++ k) →
  extends type_eq (bindings_of tb w) (bindings_of tb' w').
Proof.
  intros [kt Hkt] [kr Hkr] [ke Hke] [kw ->]. split; simpl; intros.
  - apply te_var. simpl. rewrite Hkt. by apply lookup_app_l_Some.
  - apply re_var. simpl. rewrite Hkr. by apply lookup_app_l_Some.
  - apply ee_var. simpl. rewrite Hke. by apply lookup_app_l_Some.
  - by apply lookup_app_l_Some.
Qed.

(** [tb'] is [tb] with new unassigned variables. *)
Record allocated tb tb' : Prop := {
  al_types : ∃ k, vals (types tb') = vals (types tb) ++ replicate k None;
  al_rrows : ∃ k, vals (rrows tb') = vals (rrows tb) ++ replicate k None;
  al_erows : ∃ k, vals (erows tb') = vals (erows tb) ++ replicate k None;
  al_pending_types : pending_type_updates tb' = pending_type_updates tb;
  al_pending_rrows : pending_rrows_updates tb' = pending_rrows_updates tb;
  al_pending_erows : pending_erows_updates tb' = pending_erows_updates tb;
}.

Lemma allocated_refl tb : allocated tb tb.
Proof. split; try done; exists 0; by rewrite app_nil_r. Qed.

Lemma allocated_dims tb tb' : allocated tb tb' → dims_le (dims_of tb) (dims_of tb').
Proof.
  intros [[kt Ht] [kr Hr] [ke He] _ _ _].
  apply (f_equal length) in Ht, Hr, He.
  rewrite !length_app, !length_vals in Ht. rewrite !length_app, !length_vals in Hr.
  rewrite !length_app, !length_vals in He. repeat split; simpl; lia.
Qed.

Lemma allocated_ok tb tb' : allocated tb tb' → table_ok tb → table_ok tb'.
Proof.
  intros Ha Hok. pose proof (allocated_dims _ _ Ha). destruct Ha as [Ht Hr He Hpt Hpr Hpe].
  unfold table_ok. rewrite Hpt, Hpr, Hpe. by eapply wf_table_mono.
Qed.

Lemma allocated_extends tb tb' w w' :
  allocated tb tb' → (∃ k, w' = w ++ k) →
  extends type_eq (bindings_of tb w) (bindings_of tb' w').
Proof. intros [[kt ?] [kr ?] [ke ?] _ _ _] ?. by apply extends_app; eauto. Qed.

Lemma allocated_trans tb1 tb2 tb3 : allocated tb1 tb2 → allocated tb2 tb3 → allocated tb1 tb3.
Proof.
  intros [[k1 H1] [k2 H2] [k3 H3] ???] [[k1' H1'] [k2' H2'] [k3' H3'] ???].
  split; try congruence.
  - exists (k1 + k1'). by rewrite H1', H1, <- app_assoc, replicate_add.
  - exists (k2 + k2'). by rewrite H2', H2, <- app_assoc, replicate_add.
  - exists (k3 + k3'). by rewrite H3', H3, <- app_assoc, replicate_add.
Qed.

Lemma vals_app {Ty} (ts : list (UnifSlot Ty)) l :
  vals (ts ++ [slot_new l]) = vals ts ++ replicate 1 None.
Proof. unfold vals. by rewrite map_app. Qed.

Lemma fresh_type_allocated tb l :
  allocated tb (fresh_type_var_id tb l).2 ∧
  (fresh_type_var_id tb l).1 = n_types (dims_of tb) ∧
  n_types (dims_of tb) < n_types (dims_of (fresh_type_var_id tb l).2).
Proof.
  destruct (allocated_refl tb). simpl. rewrite length_app. simpl.
  split; [|split; [done|lia]]. split; try done. simpl. exists 1. apply vals_app.
Qed.
Lemma fresh_rrows_allocated tb l :
  allocated tb (fresh_rrows_var_id tb l).2 ∧
  (fresh_rrows_var_id tb l).1 = n_rrows (dims_of tb) ∧
  n_rrows (dims_of tb) < n_rrows (dims_of (fresh_rrows_var_id tb l).2).
Proof.
  destruct (allocated_refl tb). simpl. rewrite length_app. simpl.
  split; [|split; [done|lia]]. split; try done. simpl. exists 1. apply vals_app.
Qed.
Lemma fresh_erows_allocated tb l :
  allocated tb (fresh_erows_var_id tb l).2 ∧
  (fresh_erows_var_id tb l).1 = n_erows (dims_of tb) ∧
  n_erows (dims_of tb) < n_erows (dims_of (fresh_erows_var_id tb l).2).
Proof.
  destruct (allocated_refl tb). simpl. rewrite length_app. simpl.
  split; [|split; [done|lia]]. split; try done. simpl. exists 1. apply vals_app.
Qed.
End table.
