(* ===== verification/UnifySound.v ===== *)
(** * Unification is sound and does not panic

    A small program logic for the computations of [Unify] ([triple]), the
    specifications of [remove_row], of the propagation of constraints and of
    [get_wildcard_var], and by induction on the fuel the specification of
    [unify]: from a state that satisfies the invariant it never panics, leaves a
    state that satisfies it and that entails all the equalities entailed
    before, and when it returns [Ok] the two types are equal modulo the
    resulting table. *)
From S2P Require Import Prelude UnifTypes UnifTable SlotFacts Unify UnifRel UnifTableFacts.

Section sound.
Context {Ctr : Type} (type_eq : Ctr → Ctr → bool) (var_level : VarLevel).
Abbreviation Ty := (UnifType Ctr).
Abbreviation RR := (UnifRecordRows Ctr).
Abbreviation ER := (UnifEnumRows Ctr).
Abbreviation State := (State (Ctr := Ctr)).
Implicit Types (st : State).

(** ** States *)

Definition st_dims st : dims := dims_of (table st).
Definition st_binds st : bindings Ctr := bindings_of (table st) (wildcard_vars st).

Definition state_ok st : Prop :=
  table_ok (table st) ∧ ∀ t, t ∈ wildcard_vars st → ty_in (st_dims st) t.

Record state_le st st' : Prop := {
  sle_extends : extends type_eq (st_binds st) (st_binds st');
  sle_dims : dims_le (st_dims st) (st_dims st');
}.

#[export] Instance state_le_preorder : PreOrder state_le.
Proof. split; [intros ?; by split|]. intros ??? [] []. split; by etrans. Qed.

Lemma sle_ty st st' t1 t2 :
  state_le st st' → ty_eq type_eq (st_binds st) t1 t2 → ty_eq type_eq (st_binds st') t1 t2.
Proof. intros []. by apply extends_ty. Qed.
Lemma sle_rr st st' t1 t2 :
  state_le st st' → rr_eq type_eq (st_binds st) t1 t2 → rr_eq type_eq (st_binds st') t1 t2.
Proof. intros []. by apply extends_rr. Qed.
Lemma sle_er st st' t1 t2 :
  state_le st st' → er_eq type_eq (st_binds st) t1 t2 → er_eq type_eq (st_binds st') t1 t2.
Proof. intros []. by apply extends_er. Qed.
Lemma sle_ty_in st st' (t : Ty) : state_le st st' → ty_in (st_dims st) t → ty_in (st_dims st') t.
Proof. intros []. by apply ty_in_mono. Qed.
Lemma sle_rr_in st st' (t : RR) : state_le st st' → rr_in (st_dims st) t → rr_in (st_dims st') t.
Proof. intros []. by apply rr_in_mono. Qed.
Lemma sle_er_in st st' (t : ER) : state_le st st' → er_in (st_dims st) t → er_in (st_dims st') t.
Proof. intros []. by apply er_in_mono. Qed.

(** ** Triples *)

Definition triple {E A} st (m : comp E A) (Q : A → State → Prop) : Prop :=
  safe (m st) (λ r, state_ok r.2 ∧ state_le st r.2 ∧
                    match r.1 with Ok a => Q a r.2 | Err _ => True end).

Lemma triple_ok {E A} st (a : A) (Q : A → State → Prop) :
  state_ok st → Q a st → triple st (ok a : comp E A) Q.
Proof. done. Qed.

Lemma triple_err {E A} st (e : E) (Q : A → State → Prop) : state_ok st → triple st (err e) Q.
Proof. done. Qed.

Lemma triple_fuel {E A} st (Q : A → State → Prop) : triple (E := E) st (λ _, OutOfFuel) Q.
Proof. done. Qed.

Lemma triple_bind {E A B} st (m : comp E A) (f : A → comp E B) Q1 Q2 :
  triple st m Q1 →
  (∀ a st1, state_ok st1 → state_le st st1 → Q1 a st1 → triple st1 (f a) Q2) →
  triple st (m ≫= f) Q2.
Proof.
  intros Hm Hf. unfold triple, mbind, comp_mbind, comp_bind.
  eapply safe_bind; [exact Hm|]. intros [[a|e] st1] (Hok & Hle & Ha); simpl in *; [|done].
  eapply safe_mono; [by apply Hf|]. intros [r st2] (? & ? & ?). split; [done|].
  split; [by etrans|done].
Qed.

Lemma triple_map_err {E F A} st (g : E → F) (m : comp E A) Q :
  triple st m Q → triple st (map_err g m) Q.
Proof.
  intros Hm. unfold triple, map_err. eapply safe_bind; [exact Hm|].
  intros [[a|e] st1] H; exact H.
Qed.

Lemma triple_mono {E A} st (m : comp E A) (Q1 Q2 : A → State → Prop) :
  triple st m Q1 →
  (∀ a st1, state_ok st1 → state_le st st1 → Q1 a st1 → Q2 a st1) → triple st m Q2.
Proof.
  intros Hm HQ. eapply safe_mono; [exact Hm|]. intros [[a|e] st1] (? & ? & ?); simpl in *; auto.
Qed.

Lemma triple_reading {E A} st (f : State → outcome A) (a : A) (Q : A → State → Prop) :
  state_ok st → f st = Done a → Q a st → triple (E := E) st (reading f) Q.
Proof. intros Hok Hf HQ. unfold triple, reading. rewrite Hf. by split. Qed.

(** ** Elementary steps *)

Lemma with_table_ok st tb :
  state_ok st → table_ok tb → dims_le (st_dims st) (dims_of tb) → state_ok (with_table tb st).
Proof.
  intros [_ Hw] Htb Hd. split; [done|]. intros t Ht. eapply ty_in_mono; [exact Hd|]. by apply Hw.
Qed.

Lemma triple_on_table {E} st (f : UnifTable Ctr → outcome (UnifTable Ctr)) (P : State → Prop) :
  state_ok st →
  safe (f (table st)) (λ tb', table_ok tb' ∧ table_le type_eq (wildcard_vars st) (table st) tb' ∧
                              P (with_table tb' st)) →
  triple (E := E) st (on_table f) (λ _, P).
Proof.
  intros Hok Hf. unfold triple, on_table. eapply safe_bind; [exact Hf|].
  intros tb' (Htb & [He Hd] & HP). split; [by apply with_table_ok|]. split; [by split|done].
Qed.

Lemma triple_allocating {E A} st (f : UnifTable Ctr → A * UnifTable Ctr) (P : A → State → Prop) :
  state_ok st → allocated (table st) (f (table st)).2 →
  P (f (table st)).1 (with_table (f (table st)).2 st) →
  triple (E := E) st (allocating f) P.
Proof.
  intros Hok Ha HP. unfold triple, allocating. destruct (f (table st)) as [a tb]. simpl in *.
  pose proof (allocated_dims _ _ Ha) as Hd.
  split; [apply with_table_ok; [done| |done]; eapply allocated_ok; [done|apply Hok]|].
  split; [|done]. split; [|done]. apply allocated_extends; [done|]. exists []. by rewrite app_nil_r.
Qed.

Lemma with_constr_le st cs : state_le st (with_constr cs st) ∧ state_le (with_constr cs st) st.
Proof. by split. Qed.

Lemma triple_insert_constr {E} st id c (P : State → Prop) :
  state_ok st → P (with_constr (<[id := c]> (constr st)) st) →
  triple (E := E) st (insert_constr id c) (λ _, P).
Proof. intros Hok HP. split; [exact Hok|]. split; [by split|done]. Qed.

(** The propagation of constraints changes the constraints only. *)
Lemma triple_rrows_propagate st rr id (P : State → Prop) :
  state_ok st → (∀ cs, P (with_constr cs st)) → P st →
  triple st (rrows_propagate_constrs rr id) (λ _, P).
Proof.
  intros Hok HP HPst. unfold triple, rrows_propagate_constrs.
  destruct (constr st !! id) as [c|]; [|by split].
  destruct (rrows_propagate _ _ _ _) as [cs|e]; (split; [exact Hok|split; [by split|]]).
  - apply HP.
  - done.
Qed.

Lemma triple_erows_propagate st er id (P : State → Prop) :
  state_ok st → (∀ cs, P (with_constr cs st)) → P st →
  triple st (erows_propagate_constrs er id) (λ _, P).
Proof.
  intros Hok HP HPst. unfold triple, erows_propagate_constrs.
  destruct (constr st !! id) as [c|]; [|by split].
  destruct (erows_propagate _ _ _ _) as [cs|e]; (split; [exact Hok|split; [by split|]]).
  - apply HP.
  - done.
Qed.

(** Taking the root of a type. *)
Lemma triple_root_type {E} st (t : Ty) :
  state_ok st → ty_in (st_dims st) t →
  triple (E := E) st (reading (λ st, into_root (types (table st)) t))
    (λ t' st', st' = st ∧ ty_in (st_dims st) t' ∧ is_root (vals (types (table st))) t' ∧
               ty_eq type_eq (st_binds st) t t').
Proof.
  intros Hok Hin. destruct (into_root_type type_eq _ _ _ _ (wildcard_vars st) t (proj1 Hok) Hin)
    as (t' & Ht' & ? & ? & ?). eapply triple_reading; [done|exact Ht'|done].
Qed.
Lemma triple_root_rrows {E} st (t : RR) :
  state_ok st → rr_in (st_dims st) t →
  triple (E := E) st (reading (λ st, into_root (rrows (table st)) t))
    (λ t' st', st' = st ∧ rr_in (st_dims st) t' ∧ is_root (vals (rrows (table st))) t' ∧
               rr_eq type_eq (st_binds st) t t').
Proof.
  intros Hok Hin. destruct (into_root_rrows type_eq _ _ _ _ (wildcard_vars st) t (proj1 Hok) Hin)
    as (t' & Ht' & ? & ? & ?). eapply triple_reading; [done|exact Ht'|done].
Qed.
Lemma triple_root_erows {E} st (t : ER) :
  state_ok st → er_in (st_dims st) t →
  triple (E := E) st (reading (λ st, into_root (erows (table st)) t))
    (λ t' st', st' = st ∧ er_in (st_dims st) t' ∧ is_root (vals (erows (table st))) t' ∧
               er_eq type_eq (st_binds st) t t').
Proof.
  intros Hok Hin. destruct (into_root_erows type_eq _ _ _ _ (wildcard_vars st) t (proj1 Hok) Hin)
    as (t' & Ht' & ? & ? & ?). eapply triple_reading; [done|exact Ht'|done].
Qed.

(** ** [remove_row] *)

(** The rows [self] are equal to the row [row] followed by [rest]. *)
Definition rr_split st (self : RR) (id : Ident) (t : Ty) (rest : RR) : Prop :=
  ty_in (st_dims st) t ∧ rr_in (st_dims st) rest ∧
  rr_eq type_eq (st_binds st) self (rrows_concrete (RExtend (mkRecordRow id t) rest)).
Definition er_split st (self : ER) (id : Ident) (o : option Ty) (rest : ER) : Prop :=
  match o with Some t => ty_in (st_dims st) t | None => True end ∧
  er_in (st_dims st) rest ∧
  er_eq type_eq (st_binds st) self (erows_concrete (EExtend (mkEnumRow id o) rest)).

Lemma rr_split_from st self self' id t rest :
  rr_eq type_eq (st_binds st) self self' → rr_split st self' id t rest → rr_split st self id t rest.
Proof. intros H (? & ? & ?). split; [done|]. split; [done|]. by etrans. Qed.
Lemma er_split_from st self self' id t rest :
  er_eq type_eq (st_binds st) self self' → er_split st self' id t rest → er_split st self id t rest.
Proof. intros H (? & ? & ?). split; [done|]. split; [done|]. by etrans. Qed.

Lemma rr_split_cons st row tail d id t rest :
  id ≠ rrow_id row → ty_in (st_dims st) (rrow_typ row) →
  rr_split st tail id t rest →
  rr_split st (RConcrete (RExtend row tail) d) id t (rrows_concrete (RExtend row rest)).
Proof.
  intros Hne Hrow (Ht & Hin & Heq). split; [done|]. split; [by destruct row|].
  destruct row as [id' t']. etrans; [by apply re_extend; [reflexivity|exact Heq]|].
  unfold rrows_concrete. apply re_swap. simpl in *. congruence.
  Unshelve. exact d.
Qed.

Lemma er_split_cons st row tail d id o rest :
  erow_differ row (mkEnumRow id o) →
  match erow_typ row with Some t => ty_in (st_dims st) t | None => True end →
  er_split st tail id o rest →
  er_split st (EConcrete (EExtend row tail) d) id o (erows_concrete (EExtend row rest)).
Proof.
  intros Hne Hrow (Ht & Hin & Heq). split; [done|]. split; [by destruct row as [? []]|].
  destruct row as [id' [t'|]].
  - etrans; [by apply ee_variant; [reflexivity|exact Heq]|]. by apply ee_swap.
  - etrans; [by apply ee_tag, Heq|]. by apply ee_swap.
  Unshelve. all: exact d.
Qed.

Lemma rrows_remove_row_ok n st self target content lvl :
  state_ok st → rr_in (st_dims st) self → ty_in (st_dims st) content →
  triple st (rrows_remove_row n self target content lvl)
    (λ '(res, rest) st',
       rr_split st' self target
         (match res with Extracted _ t => t | Extended _ => content end) rest).
Proof.
  revert st self. induction n as [|n IH]; intros st self Hok Hin Hc; [by apply triple_fuel|].
  cbn [rrows_remove_row]. eapply triple_bind; [by apply triple_root_rrows|].
  intros rr ? _ _ (-> & Hrr & Hroot & Heq).
  destruct rr as [[|[id t] tail| |]|id|v l];
    try (by apply triple_err).
  - apply rr_in_concrete in Hrr as [Ht Htl]. simpl in Ht, Htl. simpl. case_decide as Hid.
    + subst id. apply triple_ok; [done|]. split; [done|]. split; [done|].
      etrans; [exact Heq|]. apply re_data.
    + eapply triple_bind; [by apply IH|]. intros [res rest] st1 Hok1 Hle1 Hres.
      apply triple_ok; [done|]. eapply rr_split_from; [by eapply sle_rr|].
      apply rr_split_cons; [done| |done]. by eapply sle_ty_in.
  - eapply triple_bind.
    { apply triple_allocating with (P := λ id st',
        st' = with_table (fresh_rrows_var_id (table st) lvl).2 st ∧
        id = (fresh_rrows_var_id (table st) lvl).1); [done| |done].
      by apply fresh_rrows_allocated. }
    intros tv st1 Hok1 Hle1 (Hst1 & ->).
    destruct (fresh_rrows_allocated (table st) lvl) as (Hal & Hid & Hlt).
    eapply triple_bind.
    { apply triple_insert_constr with (P := λ st', table st' = table st1 ∧
        wildcard_vars st' = wildcard_vars st1); done. }
    intros [] st2 Hok2 Hle2 (Htb2 & Hw2).
    eapply triple_bind.
    { apply triple_map_err, triple_rrows_propagate with (P := λ st', table st' = table st2 ∧
        wildcard_vars st' = wildcard_vars st2); done. }
    intros [] st3 Hok3 Hle3 (Htb3 & Hw3).
    assert (table st3 = (fresh_rrows_var_id (table st) lvl).2) as Htb by by rewrite Htb3, Htb2, Hst1.
    set (tail_var := RUnifVar (fresh_rrows_var_id (table st) lvl).1 lvl).
    assert (rr_in (st_dims st3) tail_var) as Htv.
    { unfold st_dims. rewrite Htb. simpl. unfold st_dims in Hid. simpl in *. lia. }
    assert (ty_in (st_dims st3) content) as Hc3.
    { eapply sle_ty_in; [|exact Hc]. by etrans; [|etrans]. }
    eapply triple_bind.
    { apply triple_on_table with (P := λ st', rr_eq type_eq (st_binds st') (RUnifVar v l)
        (rrows_concrete (RExtend (mkRecordRow target content) tail_var))); [done|].
      eapply safe_mono.
      - apply assign_rrows_ok; [apply Hok3|by split| |done].
        rewrite Htb. simpl. rewrite vals_app. apply lookup_app_l_Some. exact Hroot.
      - intros tb' (? & ? & Heq'). split; [done|]. split; [done|]. apply Heq'. }
    intros [] st4 Hok4 Hle4 Heq4. apply triple_ok; [done|]. split; [by eapply sle_ty_in|].
    split; [by eapply sle_rr_in|]. etrans; [|exact Heq4].
    eapply sle_rr; [|exact Heq]. by repeat (etrans; [done|]).
Qed.

Lemma erows_remove_row_ok n st self target content lvl :
  state_ok st → er_in (st_dims st) self →
  match content with Some t => ty_in (st_dims st) t | None => True end →
  triple st (erows_remove_row n self target content lvl)
    (λ '(res, rest) st',
       match res with
       | Extracted _ o =>
           (is_Some content ↔ is_Some o) ∧ er_split st' self target o rest
       | Extended _ => er_split st' self target content rest
       end).
Proof.
  revert st self. induction n as [|n IH]; intros st self Hok Hin Hc; [by apply triple_fuel|].
  cbn [erows_remove_row]. eapply triple_bind; [by apply triple_root_erows|].
  intros er ? _ _ (-> & Her & Hroot & Heq).
  destruct er as [[|[id o] tail|]|id|v l];
    try (by apply triple_err).
  - apply er_in_concrete in Her as [Ht Htl]. simpl in Ht, Htl. simpl. case_decide as Hid.
    + destruct Hid as [<- Hiff]. apply triple_ok; [done|]. split; [done|]. split; [done|].
      split; [done|]. etrans; [exact Heq|]. apply ee_data.
    + eapply triple_bind; [by apply IH|]. intros [res rest] st1 Hok1 Hle1 Hres.
      apply triple_ok; [done|].
      assert (match o with Some t => ty_in (st_dims st1) t | None => True end) as Ho1.
      { destruct o; [|done]. by eapply sle_ty_in. }
      destruct res as [o'|].
      * destruct Hres as [Hiff Hres]. split; [done|].
        eapply er_split_from; [by eapply sle_er|]. apply er_split_cons; [|done..].
        unfold erow_differ. simpl.
        destruct (decide (target = id)) as [->|]; [right; tauto|left; congruence].
      * eapply er_split_from; [by eapply sle_er|]. apply er_split_cons; [|done..].
        unfold erow_differ. simpl.
        destruct (decide (target = id)) as [->|]; [right; tauto|left; congruence].
  - eapply triple_bind.
    { apply triple_allocating with (P := λ id st',
        st' = with_table (fresh_erows_var_id (table st) lvl).2 st ∧
        id = (fresh_erows_var_id (table st) lvl).1); [done| |done].
      by apply fresh_erows_allocated. }
    intros tv st1 Hok1 Hle1 (Hst1 & ->).
    destruct (fresh_erows_allocated (table st) lvl) as (Hal & Hid & Hlt).
    eapply triple_bind with (Q1 := λ _ st', table st' = table st1 ∧
        wildcard_vars st' = wildcard_vars st1).
    { case_decide; [by apply triple_insert_constr|by apply triple_ok]. }
    intros [] st2 Hok2 Hle2 (Htb2 & Hw2).
    eapply triple_bind.
    { apply triple_map_err, triple_erows_propagate with (P := λ st', table st' = table st2 ∧
        wildcard_vars st' = wildcard_vars st2); done. }
    intros [] st3 Hok3 Hle3 (Htb3 & Hw3).
    assert (table st3 = (fresh_erows_var_id (table st) lvl).2) as Htb by by rewrite Htb3, Htb2, Hst1.
    set (tail_var := EUnifVar (fresh_erows_var_id (table st) lvl).1 lvl).
    assert (er_in (st_dims st3) tail_var) as Htv.
    { unfold st_dims. rewrite Htb. simpl. unfold st_dims in Hid. simpl in *. lia. }
    assert (match content with Some t => ty_in (st_dims st3) t | None => True end) as Hc3.
    { destruct content; [|done]. eapply sle_ty_in; [|exact Hc]. by etrans; [|etrans]. }
    eapply triple_bind.
    { apply triple_on_table with (P := λ st', er_eq type_eq (st_binds st') (EUnifVar v l)
        (erows_concrete (EExtend (mkEnumRow target content) tail_var))); [done|].
      eapply safe_mono.
      - apply assign_erows_ok; [apply Hok3|apply er_in_concrete; by split| |done].
        rewrite Htb. simpl. rewrite vals_app. apply lookup_app_l_Some. exact Hroot.
      - intros tb' (? & ? & Heq'). split; [done|]. split; [done|]. apply Heq'. }
    intros [] st4 Hok4 Hle4 Heq4. apply triple_ok; [done|]. split.
    { destruct content; [by eapply sle_ty_in|done]. }
    split; [by eapply sle_er_in|]. etrans; [|exact Heq4].
    eapply sle_er; [|exact Heq]. by repeat (etrans; [done|]).
Qed.

(** ** [get_wildcard_var] *)

Lemma fresh_type_uvars_ok k lvl (tb : UnifTable Ctr) :
  let r := fresh_type_uvars k lvl tb in
  allocated tb r.2 ∧ length r.1 = k ∧ ∀ t, t ∈ r.1 → ty_in (dims_of r.2) t.
Proof.
  revert tb. induction k as [|k IH]; intros tb; simpl.
  - split; [apply allocated_refl|]. split; [done|]. set_solver.
  - destruct (fresh_type_allocated tb lvl) as (Hal & Hid & Hlt). simpl in Hal, Hlt.
    destruct (fresh_type_uvars k lvl _) as [uvars tb'] eqn:Heq.
    specialize (IH (with_types (types tb ++ [slot_new lvl]) tb)). rewrite Heq in IH.
    simpl in *. destruct IH as (Hal' & Hlen & Hall).
    split; [by eapply allocated_trans|]. split; [lia|].
    intros t [->|Ht]%elem_of_cons; [|by apply Hall].
    simpl. apply allocated_dims in Hal' as [? _]. simpl in *. lia.
Qed.

Lemma get_wildcard_var_ok {E} st lvl id :
  state_ok st →
  triple (E := E) st (get_wildcard_var lvl id)
    (λ var st', ty_in (st_dims st') var ∧ wildcard_vars st' !! id = Some var).
Proof.
  intros [Htb Hw]. unfold triple, get_wildcard_var.
  destruct (length (wildcard_vars st) <=? id) eqn:Hlen; breflect.
  - destruct (fresh_type_uvars_ok (S id - length (wildcard_vars st)) lvl (table st))
      as (Hal & Hk & Hin).
    destruct (fresh_type_uvars _ lvl (table st)) as [uvars tb]. cbn [fst snd] in *.
    cbn [wildcard_vars].
    destruct (lookup_lt_is_Some_2 (wildcard_vars st ++ uvars) id) as [var Hvar].
    { rewrite length_app. lia. }
    rewrite Hvar. cbn [unwrap mbind outcome_bind safe fst snd].
    pose proof (allocated_dims _ _ Hal) as Hd.
    assert (∀ t, t ∈ wildcard_vars st ++ uvars → ty_in (dims_of tb) t) as Hw'.
    { intros t [Ht|Ht]%elem_of_app; [|by apply Hin]. eapply ty_in_mono; [exact Hd|by apply Hw]. }
    split; [|split].
    + split; [by eapply allocated_ok|done].
    + split; [|done]. apply allocated_extends; [done|by eexists].
    + split; [|done]. apply Hw'. by eapply list_elem_of_lookup_2.
  - destruct (lookup_lt_is_Some_2 (wildcard_vars st) id) as [var Hvar]; [lia|].
    rewrite Hvar. cbn [unwrap mbind outcome_bind safe fst snd].
    split; [done|]. split; [done|]. split; [|done].
    apply Hw. by eapply list_elem_of_lookup_2.
Qed.

(** ** Assigning a variable *)

Lemma check_level_ok {E} (force : nat → VarLevel → UnifTable Ctr → outcome (UnifTable Ctr))
    lookup (e : E) n id cst st :
  state_ok st →
  (∀ cl tb, table_ok tb → safe (force n cl tb) (table_forced type_eq (wildcard_vars st) tb)) →
  (∀ tb, dims_le (st_dims st) (dims_of tb) → ∃ l, lookup tb id = Done l) →
  (∀ tb, dims_le (st_dims st) (dims_of tb) → ∃ l, lookup tb cst = Done l) →
  triple st (check_level force lookup e n id cst)
    (λ _ st', table_forced type_eq (wildcard_vars st) (table st) (table st')).
Proof.
  intros Hok Hforce Hid Hcst. unfold check_level.
  destruct (Hcst (table st)) as [cl Hcl]; [done|].
  eapply triple_bind with (Q1 := λ _ st', st' = st); [by eapply triple_reading|].
  intros cl' ? _ _ ->. eapply triple_bind.
  { apply triple_on_table with (P := λ st', table_forced type_eq (wildcard_vars st)
      (table st) (table st')); [done|]. eapply safe_mono; [apply Hforce, Hok|].
    intros tb' Hf. split; [apply Hf|]. split; [apply Hf|done]. }
  intros [] st1 Hok1 Hle1 Hf. destruct (Hid (table st1)) as [l Hl]; [apply Hle1|].
  eapply triple_bind with (Q1 := λ _ st', st' = st1); [by eapply triple_reading|].
  intros l' ? _ _ ->. destruct (_ <? _); [by apply triple_err|by apply triple_ok].
Qed.

Lemma slot_level_type (id : VarId) (st : State) tb :
  id < n_types (st_dims st) → dims_le (st_dims st) (dims_of tb) →
  ∃ l, get_level (Ctr := Ctr) tb id = Done l.
Proof. intros H [Hd _]. apply slot_level_ok. simpl in *. lia. Qed.
Lemma slot_level_rrows (id : VarId) (st : State) tb :
  id < n_rrows (st_dims st) → dims_le (st_dims st) (dims_of tb) →
  ∃ l, get_rrows_level (Ctr := Ctr) tb id = Done l.
Proof. intros H (_ & Hd & _). apply slot_level_ok. simpl in *. lia. Qed.
Lemma slot_level_erows (id : VarId) (st : State) tb :
  id < n_erows (st_dims st) → dims_le (st_dims st) (dims_of tb) →
  ∃ l, get_erows_level (Ctr := Ctr) tb id = Done l.
Proof. intros H (_ & _ & Hd). apply slot_level_ok. simpl in *. lia. Qed.

Lemma unassigned_lt {Ty0} (vs : list (UnifSlot Ty0)) v o : vals vs !! v = Some o → v < length vs.
Proof. intros H%lookup_lt_Some. by rewrite length_vals in H. Qed.

Lemma assign_type_triple n st id l t :
  state_ok st → ty_in (st_dims st) t → vals (types (table st)) !! id = Some None →
  is_root (vals (types (table st))) t →
  triple (E := UnifErrorKind (Ctr := Ctr)) st
    (_ ← (match t with
          | TConstant cst => check_level force_type_updates get_level
                               (VarLevelMismatch cst DType) n id cst
          | _ => ok ()
          end);
     on_table (λ tb, assign_type tb id t))
    (λ _ st', ty_eq type_eq (st_binds st') (TUnifVar id l) t).
Proof.
  intros Hok Hin Hnone Hroot.
  eapply triple_bind with (Q1 := λ _ st', vals (types (table st')) !! id = Some None ∧
      is_root (vals (types (table st'))) t).
  { destruct t as [typ d|cst|]; [by apply triple_ok| |by apply triple_ok].
    eapply triple_mono; [apply check_level_ok|].
    - done.
    - intros. by apply force_type_updates_ok.
    - intros. eapply slot_level_type; [|done]. by apply unassigned_lt in Hnone.
    - intros. by eapply slot_level_type.
    - intros [] st1 _ _ Hf. split; [by eapply tf_types|done]. }
  intros [] st1 Hok1 Hle1 [Hnone1 Hroot1]. apply triple_on_table; [done|].
  eapply safe_mono; [apply assign_type_ok; [apply Hok1| |done..]; by eapply sle_ty_in|].
  intros tb' (? & ? & Heq). split; [done|]. split; [done|]. apply Heq.
Qed.

Lemma assign_rrows_triple n st id l t :
  state_ok st → rr_in (st_dims st) t → vals (rrows (table st)) !! id = Some None →
  is_root (vals (rrows (table st))) t →
  triple (E := RowUnifErrorKind (Ctr := Ctr)) st
    (_ ← (match t with
          | RConstant cst => check_level force_rrows_updates get_rrows_level
                               (RowVarLevelMismatch cst DRecordRows) n id cst
          | _ => ok ()
          end);
     _ ← rrows_propagate_constrs t id;
     on_table (λ tb, assign_rrows tb id t))
    (λ _ st', rr_eq type_eq (st_binds st') (RUnifVar id l) t).
Proof.
  intros Hok Hin Hnone Hroot.
  eapply triple_bind with (Q1 := λ _ st', vals (rrows (table st')) !! id = Some None ∧
      is_root (vals (rrows (table st'))) t).
  { destruct t as [typ d|cst|]; [by apply triple_ok| |by apply triple_ok].
    eapply triple_mono; [apply check_level_ok|].
    - done.
    - intros. by apply force_rrows_updates_ok.
    - intros. eapply slot_level_rrows; [|done]. by apply unassigned_lt in Hnone.
    - intros. by eapply slot_level_rrows.
    - intros [] st1 _ _ Hf. split; [by eapply tf_rrows|done]. }
  intros [] st1 Hok1 Hle1 [Hnone1 Hroot1].
  eapply triple_bind; [by apply triple_rrows_propagate with
    (P := λ st', table st' = table st1)|].
  intros [] st2 Hok2 Hle2 Htb. apply triple_on_table; [done|].
  eapply safe_mono; [apply assign_rrows_ok; [apply Hok2| |by rewrite Htb..]|].
  - eapply sle_rr_in; [|exact Hin]. by etrans.
  - intros tb' (? & ? & Heq). split; [done|]. split; [done|]. apply Heq.
Qed.

Lemma assign_erows_triple n st id l t :
  state_ok st → er_in (st_dims st) t → vals (erows (table st)) !! id = Some None →
  is_root (vals (erows (table st))) t →
  triple (E := RowUnifErrorKind (Ctr := Ctr)) st
    (_ ← (match t with
          | EConstant cst => check_level force_erows_updates get_erows_level
                               (RowVarLevelMismatch cst DEnumRows) n id cst
          | _ => ok ()
          end);
     _ ← erows_propagate_constrs t id;
     on_table (λ tb, assign_erows tb id t))
    (λ _ st', er_eq type_eq (st_binds st') (EUnifVar id l) t).
Proof.
  intros Hok Hin Hnone Hroot.
  eapply triple_bind with (Q1 := λ _ st', vals (erows (table st')) !! id = Some None ∧
      is_root (vals (erows (table st'))) t).
  { destruct t as [typ d|cst|]; [by apply triple_ok| |by apply triple_ok].
    eapply triple_mono; [apply check_level_ok|].
    - done.
    - intros. by apply force_erows_updates_ok.
    - intros. eapply slot_level_erows; [|done]. by apply unassigned_lt in Hnone.
    - intros. by eapply slot_level_erows.
    - intros [] st1 _ _ Hf. split; [by eapply tf_erows|done]. }
  intros [] st1 Hok1 Hle1 [Hnone1 Hroot1].
  eapply triple_bind; [by apply triple_erows_propagate with
    (P := λ st', table st' = table st1)|].
  intros [] st2 Hok2 Hle2 Htb. apply triple_on_table; [done|].
  eapply safe_mono; [apply assign_erows_ok; [apply Hok2| |by rewrite Htb..]|].
  - eapply sle_er_in; [|exact Hin]. by etrans.
  - intros tb' (? & ? & Heq). split; [done|]. split; [done|]. apply Heq.
Qed.

(** ** [unify] *)

Definition unify_ok n : Prop :=
  (∀ st t1 t2, state_ok st → ty_in (st_dims st) t1 → ty_in (st_dims st) t2 →
     triple st (unify_type type_eq var_level n t1 t2)
       (λ _ st', ty_eq type_eq (st_binds st') t1 t2)) ∧
  (∀ st e1 e2, state_ok st → er_in (st_dims st) e1 → er_in (st_dims st) e2 →
     triple st (unify_erows type_eq var_level n e1 e2)
       (λ _ st', er_eq type_eq (st_binds st') e1 e2)) ∧
  (∀ st r1 r2, state_ok st → rr_in (st_dims st) r1 → rr_in (st_dims st) r2 →
     triple st (unify_rrows type_eq var_level n r1 r2)
       (λ _ st', rr_eq type_eq (st_binds st') r1 r2)).

(** Two types may be replaced by types they are equal to. *)
Lemma triple_ty_between {E} st (m : comp E unit) t1 t2 t1' t2' :
  ty_eq type_eq (st_binds st) t1 t1' → ty_eq type_eq (st_binds st) t2 t2' →
  triple st m (λ _ st', ty_eq type_eq (st_binds st') t1' t2') →
  triple st m (λ _ st', ty_eq type_eq (st_binds st') t1 t2).
Proof.
  intros H1 H2 Hm. eapply triple_mono; [exact Hm|]. intros [] st1 _ Hle Heq.
  etrans; [by eapply sle_ty|]. etrans; [exact Heq|]. symmetry. by eapply sle_ty.
Qed.
Lemma triple_rr_between {E} st (m : comp E unit) t1 t2 t1' t2' :
  rr_eq type_eq (st_binds st) t1 t1' → rr_eq type_eq (st_binds st) t2 t2' →
  triple st m (λ _ st', rr_eq type_eq (st_binds st') t1' t2') →
  triple st m (λ _ st', rr_eq type_eq (st_binds st') t1 t2).
Proof.
  intros H1 H2 Hm. eapply triple_mono; [exact Hm|]. intros [] st1 _ Hle Heq.
  etrans; [by eapply sle_rr|]. etrans; [exact Heq|]. symmetry. by eapply sle_rr.
Qed.
Lemma triple_er_between {E} st (m : comp E unit) t1 t2 t1' t2' :
  er_eq type_eq (st_binds st) t1 t1' → er_eq type_eq (st_binds st) t2 t2' →
  triple st m (λ _ st', er_eq type_eq (st_binds st') t1' t2') →
  triple st m (λ _ st', er_eq type_eq (st_binds st') t1 t2).
Proof.
  intros H1 H2 Hm. eapply triple_mono; [exact Hm|]. intros [] st1 _ Hle Heq.
  etrans; [by eapply sle_er|]. etrans; [exact Heq|]. symmetry. by eapply sle_er.
Qed.

(** The goal's equality, read from right to left. *)
Lemma triple_ty_sym {E} st (m : comp E unit) t1 t2 :
  triple st m (λ _ st', ty_eq type_eq (st_binds st') t2 t1) →
  triple st m (λ _ st', ty_eq type_eq (st_binds st') t1 t2).
Proof. intros Hm. eapply triple_mono; [exact Hm|]. intros [] st1 _ _ H. by symmetry. Qed.
Lemma triple_rr_sym {E} st (m : comp E unit) t1 t2 :
  triple st m (λ _ st', rr_eq type_eq (st_binds st') t2 t1) →
  triple st m (λ _ st', rr_eq type_eq (st_binds st') t1 t2).
Proof. intros Hm. eapply triple_mono; [exact Hm|]. intros [] st1 _ _ H. by symmetry. Qed.
Lemma triple_er_sym {E} st (m : comp E unit) t1 t2 :
  triple st m (λ _ st', er_eq type_eq (st_binds st') t2 t1) →
  triple st m (λ _ st', er_eq type_eq (st_binds st') t1 t2).
Proof. intros Hm. eapply triple_mono; [exact Hm|]. intros [] st1 _ _ H. by symmetry. Qed.

(** A wildcard stands for its variable. *)
Lemma unify_wildcard n st id d t :
  unify_ok n → state_ok st → ty_in (st_dims st) t →
  triple st (ty1 ← get_wildcard_var var_level id; unify_type type_eq var_level n ty1 t)
    (λ _ st', ty_eq type_eq (st_binds st') (TConcrete (Wildcard id) d) t).
Proof.
  intros (IH & _ & _) Hok Hin. eapply triple_bind; [by apply get_wildcard_var_ok|].
  intros var st1 Hok1 Hle1 [Hvar Hw]. eapply triple_mono; [apply IH; [done..|]|].
  - by eapply sle_ty_in.
  - intros [] st2 _ Hle2 Heq. etrans; [|exact Heq]. apply te_wildcard.
    by eapply (ext_wildcards _ _ _ (sle_extends _ _ Hle2)).
Qed.

Lemma unify_forall n st v1 v2 k a1 a2 d1 d2 :
  unify_ok n → state_ok st → ty_in (st_dims st) a1 → ty_in (st_dims st) a2 →
  triple (E := UnifErrorKind (Ctr := Ctr)) st
    (c ← allocating (fresh_const_of_kind var_level k);
     unify_type type_eq var_level n (subst a1 v1 c) (subst a2 v2 c))
    (λ _ st', ty_eq type_eq (st_binds st') (TConcrete (Forall v1 k a1) d1)
                (TConcrete (Forall v2 k a2) d2)).
Proof.
  intros (IH & _ & _) Hok Hin1 Hin2.
  assert (∃ c tb', fresh_const_of_kind var_level k (table st) = (c, tb') ∧
    allocated (table st) tb' ∧ fresh_const (st_dims st) k c ∧ to_in (dims_of tb') c)
    as (c & tb' & Hc & Hal & Hfresh & Hcin).
  { destruct k as [|ex|ex]; cbn [fresh_const_of_kind]; (eexists _, _; split; [done|]).
    - destruct (fresh_type_allocated (table st) var_level) as (? & ? & ?).
      split; [done|]. split; [by apply fresh_type|done].
    - destruct (fresh_erows_allocated (table st) var_level) as (? & ? & ?).
      split; [done|]. split; [by apply fresh_erows|done].
    - destruct (fresh_rrows_allocated (table st) var_level) as (? & ? & ?).
      split; [done|]. split; [by apply fresh_rrows|done]. }
  eapply triple_bind.
  { apply triple_allocating with (P := λ c' st', c' = c ∧ st' = with_table tb' st);
      rewrite ?Hc; done. }
  intros c' st1 Hok1 Hle1 [-> Hst1].
  assert (to_in (st_dims st1) c) as Hcin1 by by rewrite Hst1.
  eapply triple_mono; [apply IH; [done|..]|].
  - apply subst_in; [done|]. by eapply sle_ty_in.
  - apply subst_in; [done|]. by eapply sle_ty_in.
  - intros [] st2 _ _ Heq. by eapply te_forall.
Qed.

Lemma as_wildcard_Some (t : Ty) id : as_wildcard t = Some id → ∃ d, t = TConcrete (Wildcard id) d.
Proof. destruct t as [[] d| |]; naive_solver. Qed.

(** The leaves of the case analysis on two concrete types that need no more
    than one rule. *)
Ltac leaf :=
  try match goal with
  | |- triple _ (err _) _ => apply triple_err; assumption
  | |- triple _ (ok _) _ => apply triple_ok; [assumption|apply te_data]
  end.

Lemma unify_type_step n st t1 t2 :
  unify_ok n → state_ok st → ty_in (st_dims st) t1 → ty_in (st_dims st) t2 →
  triple st (unify_type type_eq var_level (S n) t1 t2)
    (λ _ st', ty_eq type_eq (st_binds st') t1 t2).
Proof.
  intros IH Hok Hin1 Hin2. cbn [unify_type].
  eapply triple_bind; [by apply triple_root_type|]. intros t1' ? _ _ (-> & Hin1' & Hr1 & Heq1).
  eapply triple_bind; [by apply triple_root_type|]. intros t2' ? _ _ (-> & Hin2' & Hr2 & Heq2).
  eapply triple_ty_between; [exact Heq1|exact Heq2|].
  clear t1 t2 Hin1 Hin2 Heq1 Heq2. rename Hin1' into Hin1, Hin2' into Hin2.
  destruct (IH) as (IHt & IHe & IHr).
  destruct (as_wildcard t1') as [id|] eqn:Hw1.
  { apply as_wildcard_Some in Hw1 as [d ->]. by apply unify_wildcard. }
  destruct (as_wildcard t2') as [id|] eqn:Hw2.
  { apply as_wildcard_Some in Hw2 as [d ->]. by apply triple_ty_sym, unify_wildcard. }
  destruct t1' as [s1 d1|c1|v1 l1], t2' as [s2 d2|c2|v2 l2].
  - destruct s1; destruct s2; leaf.
    + destruct (type_eq _ _) eqn:Hc; [|by apply triple_err].
      apply triple_ok; [done|]. apply te_contract. by rewrite Hc.
    + destruct Hin1 as [Hin1 Hin1'], Hin2 as [Hin2 Hin2'].
      eapply triple_bind; [by apply triple_map_err, IHt|]. intros [] st1 Hok1 Hle1 Heqd.
      apply triple_map_err. eapply triple_mono; [apply IHt; [done|by eapply sle_ty_in..]|].
      intros [] st2 _ Hle2 Heqc. apply te_arrow; [by eapply sle_ty|done].
    + case_decide as Hk; [|by apply triple_err]. subst. by apply unify_forall.
    + apply triple_map_err. eapply triple_mono; [by apply IHe|]. intros. by apply te_enum.
    + apply triple_map_err. eapply triple_mono; [by apply IHr|]. intros. by apply te_record.
    + eapply triple_mono; [by apply IHt|]. intros. by apply te_dict.
    + eapply triple_mono; [by apply IHt|]. intros. by apply te_array.
  - by apply triple_err.
  - by apply triple_ty_sym, (assign_type_triple n st v2 l2 (TConcrete s1 d1)).
  - by apply triple_err.
  - case_decide; [subst|by apply triple_err]. by apply triple_ok.
  - by apply triple_ty_sym, (assign_type_triple n st v2 l2 (TConstant c1)).
  - by apply (assign_type_triple n st v1 l1 (TConcrete s2 d2)).
  - by apply (assign_type_triple n st v1 l1 (TConstant c2)).
  - by apply (assign_type_triple n st v1 l1 (TUnifVar v2 l2)).
Qed.

Lemma unify_erows_step n st t1 t2 :
  unify_ok n → state_ok st → er_in (st_dims st) t1 → er_in (st_dims st) t2 →
  triple st (unify_erows type_eq var_level (S n) t1 t2)
    (λ _ st', er_eq type_eq (st_binds st') t1 t2).
Proof.
  intros IH Hok Hin1 Hin2. cbn [unify_erows].
  eapply triple_bind; [by apply triple_root_erows|]. intros t1' ? _ _ (-> & Hin1' & Hr1 & Heq1).
  eapply triple_bind; [by apply triple_root_erows|]. intros t2' ? _ _ (-> & Hin2' & Hr2 & Heq2).
  eapply triple_er_between; [exact Heq1|exact Heq2|].
  clear t1 t2 Hin1 Hin2 Heq1 Heq2. rename Hin1' into Hin1, Hin2' into Hin2.
  destruct (IH) as (IHt & IHe & IHr).
  destruct t1' as [s1 d1|c1|v1 l1], t2' as [s2 d2|c2|v2 l2].
  - destruct s1 as [|row1 tl1|id1], s2 as [|row2 tl2|id2]; try (by apply triple_err).
    + apply triple_ok; [done|apply ee_data].
    + apply er_in_concrete in Hin1 as [Hrow1 Htl1].
      eapply triple_bind; [by apply triple_map_err, erows_remove_row_ok|].
      intros [res rest] st1 Hok1 Hle1 Hres.
      assert (er_in (st_dims st1) rest) as Hrest.
      { destruct res; [destruct Hres as [_ Hres]|]; by apply Hres. }
      assert (er_in (st_dims st1) tl1) as Htl1' by by eapply sle_er_in.
      eapply triple_bind with (Q1 := λ _ st', er_eq type_eq (st_binds st')
        (EConcrete (EExtend row2 tl2) d2) (EConcrete (EExtend row1 rest) d1)).
      { destruct row1 as [id1 o1]. cbn [erow_id erow_typ] in *. destruct res as [o2|].
        - destruct Hres as (Hiff & Ho2 & _ & Hsplit).
          destruct o1 as [u1|], o2 as [u2|]; try (by apply triple_err).
          + apply triple_map_err. eapply triple_mono; [apply IHt; [done| |done]|].
            * by eapply sle_ty_in.
            * intros [] st2 _ Hle2 Heq. etrans; [by eapply sle_er|].
              symmetry. by apply ee_variant.
          + apply triple_ok; [done|]. etrans; [exact Hsplit|]. apply ee_data.
        - apply triple_ok; [done|]. destruct Hres as (_ & _ & Hsplit).
          etrans; [exact Hsplit|]. apply ee_data. }
      intros [] st2 Hok2 Hle2 Heq. eapply triple_mono; [apply IHe; [done|by eapply sle_er_in..]|].
      intros [] st3 _ Hle3 Htl. etrans; [|symmetry; by eapply sle_er].
      destruct row1 as [id1 [u1|]]; [by apply ee_variant|by apply ee_tag].
  - by apply triple_err.
  - by apply triple_er_sym, (assign_erows_triple n st v2 l2 (EConcrete s1 d1)).
  - by apply triple_err.
  - case_decide; [subst|by apply triple_err]. by apply triple_ok.
  - by apply triple_er_sym, (assign_erows_triple n st v2 l2 (EConstant c1)).
  - by apply (assign_erows_triple n st v1 l1 (EConcrete s2 d2)).
  - by apply (assign_erows_triple n st v1 l1 (EConstant c2)).
  - by apply (assign_erows_triple n st v1 l1 (EUnifVar v2 l2)).
Qed.

Lemma unify_rrows_step n st t1 t2 :
  unify_ok n → state_ok st → rr_in (st_dims st) t1 → rr_in (st_dims st) t2 →
  triple st (unify_rrows type_eq var_level (S n) t1 t2)
    (λ _ st', rr_eq type_eq (st_binds st') t1 t2).
Proof.
  intros IH Hok Hin1 Hin2. cbn [unify_rrows].
  eapply triple_bind; [by apply triple_root_rrows|]. intros t1' ? _ _ (-> & Hin1' & Hr1 & Heq1).
  eapply triple_bind; [by apply triple_root_rrows|]. intros t2' ? _ _ (-> & Hin2' & Hr2 & Heq2).
  eapply triple_rr_between; [exact Heq1|exact Heq2|].
  clear t1 t2 Hin1 Hin2 Heq1 Heq2. rename Hin1' into Hin1, Hin2' into Hin2.
  destruct (IH) as (IHt & IHe & IHr).
  destruct t1' as [s1 d1|c1|v1 l1], t2' as [s2 d2|c2|v2 l2].
  - destruct s1 as [|row1 tl1|id1|], s2 as [|row2 tl2|id2|]; try (by apply triple_err);
      try (apply triple_ok; [done|apply re_data]).
    apply rr_in_concrete in Hin1 as [Hrow1 Htl1].
    eapply triple_bind; [by apply triple_map_err, rrows_remove_row_ok|].
    intros [res rest] st1 Hok1 Hle1 (Hty & Hrest & Hsplit).
    assert (rr_in (st_dims st1) tl1) as Htl1' by by eapply sle_rr_in.
    eapply triple_bind with (Q1 := λ _ st', rr_eq type_eq (st_binds st')
      (RConcrete (RExtend row2 tl2) d2) (RConcrete (RExtend row1 rest) d1)).
    { destruct row1 as [id1 u1]. cbn [rrow_id rrow_typ] in *. destruct res as [u2|].
      - apply triple_map_err. eapply triple_mono; [apply IHt; [done| |done]|].
        + by eapply sle_ty_in.
        + intros [] st2 _ Hle2 Heq. etrans; [by eapply sle_rr|]. symmetry. by apply re_extend.
      - apply triple_ok; [done|]. etrans; [exact Hsplit|]. apply re_data. }
    intros [] st2 Hok2 Hle2 Heq. eapply triple_mono; [apply IHr; [done|by eapply sle_rr_in..]|].
    intros [] st3 _ Hle3 Htl. etrans; [|symmetry; by eapply sle_rr].
    destruct row1. by apply re_extend.
  - by apply triple_err.
  - by apply triple_rr_sym, (assign_rrows_triple n st v2 l2 (RConcrete s1 d1)).
  - by apply triple_err.
  - case_decide; [subst|by apply triple_err]. by apply triple_ok.
  - by apply triple_rr_sym, (assign_rrows_triple n st v2 l2 (RConstant c1)).
  - by apply (assign_rrows_triple n st v1 l1 (RConcrete s2 d2)).
  - by apply (assign_rrows_triple n st v1 l1 (RConstant c2)).
  - by apply (assign_rrows_triple n st v1 l1 (RUnifVar v2 l2)).
Qed.

Lemma unify_is_ok n : unify_ok n.
Proof.
  induction n as [|n IH].
  - split; [|split]; intros; apply triple_fuel.
  - split; [|split]; intros; by auto using unify_type_step, unify_erows_step, unify_rrows_step.
Qed.
End sound.
