(* ===== verification/UnifyClosed.v ===== *)
(** * Unification of closed types

    On types without unification variables nor wildcards [unify] is a decision
    procedure: it terminates, with fuel above the sizes of the two types, in any
    state; and a well-scoped type unifies with itself. *)
From S2P Require Import Prelude UnifTypes UnifTable SlotFacts Unify UnifRel.

Section closed.
Context {Ctr : Type}.
Abbreviation Ty := (UnifType Ctr).
Abbreviation RR := (UnifRecordRows Ctr).
Abbreviation ER := (UnifEnumRows Ctr).

(** ** Sizes *)

Fixpoint ty_size (t : Ty) : nat :=
  match t with
  | TConcrete typ _ =>
      S (match typ with
         | Arrow a b => ty_size a + ty_size b
         | Forall _ _ a | Dict a _ | Array a => ty_size a
         | Enum e => er_size e
         | Record r => rr_size r
         | _ => 0
         end)
  | _ => 1
  end
with rr_size (r : RR) : nat :=
  match r with
  | RConcrete (RExtend (mkRecordRow _ t) tail) _ => S (ty_size t + rr_size tail)
  | _ => 1
  end
with er_size (e : ER) : nat :=
  match e with
  | EConcrete (EExtend (mkEnumRow _ o) tail) _ =>
      S (match o with Some t => ty_size t | None => 0 end + er_size tail)
  | _ => 1
  end.

Lemma size_pos : (∀ t, 0 < ty_size t) ∧ (∀ r, 0 < rr_size r) ∧ (∀ e, 0 < er_size e).
Proof.
  split; [|split].
  - intros []; simpl; lia.
  - intros [[|[]| |]| |]; simpl; lia.
  - intros [[|[]|]| |]; simpl; lia.
Qed.

(** ** Types without unification variables *)

Fixpoint ty_ground (t : Ty) : Prop :=
  match t with
  | TConcrete typ _ =>
      as_wildcard t = None ∧ type_children ty_ground rr_ground er_ground typ
  | TConstant _ => True
  | TUnifVar _ _ => False
  end
with rr_ground (r : RR) : Prop :=
  match r with
  | RConcrete r _ =>
      match r with RExtend (mkRecordRow _ t) tail => ty_ground t ∧ rr_ground tail | _ => True end
  | RConstant _ => True
  | RUnifVar _ _ => False
  end
with er_ground (e : ER) : Prop :=
  match e with
  | EConcrete e _ =>
      match e with
      | EExtend (mkEnumRow _ (Some t)) tail => ty_ground t ∧ er_ground tail
      | EExtend (mkEnumRow _ None) tail => er_ground tail
      | _ => True
      end
  | EConstant _ => True
  | EUnifVar _ _ => False
  end.

(** What replaces a bound variable in the rule for [forall]. *)
Definition is_const (to : SubstTo (Ctr := Ctr)) : Prop :=
  match to with
  | ToType (TConstant _) | ToRRows (RConstant _) | ToERows (EConstant _) => True
  | _ => False
  end.

(** The shape of a substituted node. *)
Lemma subst_levels_concrete id to (typ : UnifTypeUnr Ctr) d :
  (∃ c, to = ToType c ∧ typ = Var id ∧ (subst_levels id to (TConcrete typ d)).1 = c) ∨
  (∃ d', (∀ c, to = ToType c → typ ≠ Var id) ∧
     (subst_levels id to (TConcrete typ d)).1
     = TConcrete (type_map_state (raising (subst_levels id to)) (raising (subst_levels_rrows id to))
         (raising (subst_levels_erows id to)) pair typ NO_VAR).1 d').
Proof.
  destruct typ as [| | | | | | |?|v| | | | | |], to as [c|c|c]; simpl;
    try case_decide as Hv; subst;
    try (left; by eauto);
    try (right; unfold raising in *; repeat (case_match; simplify_eq/=); eexists;
         split; [|done]; intros; congruence).
Qed.

Lemma subst_rrows_concrete id to (r : UnifRecordRowsUnr Ctr) d :
  (∃ c, to = ToRRows c ∧ r = RTailVar id ∧ (subst_levels_rrows id to (RConcrete r d)).1 = c) ∨
  (∃ d', (∀ c, to = ToRRows c → r ≠ RTailVar id) ∧
     (subst_levels_rrows id to (RConcrete r d)).1
     = RConcrete (rrows_map_state (raising (subst_levels id to)) (raising (subst_levels_rrows id to))
         r NO_VAR).1 d').
Proof.
  destruct r as [|[]|v|], to as [c|c|c]; simpl; try case_decide as Hv; subst;
    try (left; by eauto);
    try (right; unfold raising in *; repeat (case_match; simplify_eq/=); eexists;
         split; [|done]; intros; congruence).
Qed.

Lemma subst_erows_concrete id to (e : UnifEnumRowsUnr Ctr) d :
  (∃ c, to = ToERows c ∧ e = ETailVar id ∧ (subst_levels_erows id to (EConcrete e d)).1 = c) ∨
  (∃ d', (∀ c, to = ToERows c → e ≠ ETailVar id) ∧
     (subst_levels_erows id to (EConcrete e d)).1
     = EConcrete (erows_map_state (raising (subst_levels id to)) (raising (subst_levels_erows id to))
         e NO_VAR).1 d').
Proof.
  destruct e as [|[? []]|v], to as [c|c|c]; simpl; try case_decide as Hv; subst;
    try (left; by eauto);
    try (right; unfold raising in *; repeat (case_match; simplify_eq/=); eexists;
         split; [|done]; intros; congruence).
Qed.

(** Replacing a bound variable by a constant preserves sizes and groundness. *)
Lemma subst_ground id to :
  is_const to →
  (∀ t, ty_ground t → ty_ground (subst t id to) ∧ ty_size (subst t id to) = ty_size t) ∧
  (∀ r, rr_ground r → rr_ground (subst_levels_rrows id to r).1 ∧
                      rr_size (subst_levels_rrows id to r).1 = rr_size r) ∧
  (∀ e, er_ground e → er_ground (subst_levels_erows id to e).1 ∧
                      er_size (subst_levels_erows id to e).1 = er_size e).
Proof.
  intros Hto. unfold subst. apply unif_ind; try done.
  - intros typ d IH [Hw Hg].
    destruct (subst_levels_concrete id to typ d) as [(c & -> & -> & ->)|(d' & _ & ->)].
    { by destruct c. }
    destruct typ; simpl in *; unfold raising; repeat (case_match; simplify_eq/=);
      naive_solver.
  - intros r d IH Hg.
    destruct (subst_rrows_concrete id to r d) as [(c & -> & -> & ->)|(d' & _ & ->)].
    { by destruct c. }
    destruct r as [|[]| |]; simpl in *; unfold raising; repeat (case_match; simplify_eq/=);
      naive_solver.
  - intros e d IH Hg.
    destruct (subst_erows_concrete id to e d) as [(c & -> & -> & ->)|(d' & _ & ->)].
    { by destruct c. }
    destruct e as [|[? []]|]; simpl in *; unfold raising; repeat (case_match; simplify_eq/=);
      naive_solver.
Qed.

(** ** Termination *)

Section unify.
Context (type_eq : Ctr → Ctr → bool) (var_level : VarLevel).
Abbreviation State := (State (Ctr := Ctr)).

(** The computation returns, with an error or a value that satisfies [Q]. *)
Definition returns {E A} (m : comp E A) (Q : A → Prop) : Prop :=
  ∀ st : State, ∃ r st', m st = Done (r, st') ∧ match r with Ok a => Q a | Err _ => True end.

Lemma returns_ok {E A} (a : A) (Q : A → Prop) : Q a → returns (ok a : comp E A) Q.
Proof. intros HQ st. by exists (Ok a), st. Qed.

Lemma returns_err {E A} (e : E) (Q : A → Prop) : returns (err e) Q.
Proof. intros st. by exists (Err e), st. Qed.

Lemma returns_bind {E A B} (m : comp E A) (f : A → comp E B) (P : A → Prop) (Q : B → Prop) :
  returns m P → (∀ a, P a → returns (f a) Q) → returns (m ≫= f) Q.
Proof.
  intros Hm Hf st. destruct (Hm st) as (r & st' & Heq & Hr).
  unfold mbind, comp_mbind, comp_bind. rewrite Heq. cbn [mbind outcome_bind].
  destruct r as [a|e]; [by apply Hf|]. by exists (Err e), st'.
Qed.

Lemma returns_map_err {E F A} (g : E → F) (m : comp E A) (Q : A → Prop) :
  returns m Q → returns (map_err g m) Q.
Proof.
  intros Hm st. destruct (Hm st) as (r & st' & Heq & Hr). unfold map_err. rewrite Heq.
  destruct r as [a|e]; simpl; by eexists _, _.
Qed.

Lemma returns_root_type {E} t :
  ty_ground t →
  returns (E := E) (reading (λ st : State, into_root (types (table st)) t)) (λ t', t' = t).
Proof. intros Ht st. exists (Ok t), st. by destruct t. Qed.
Lemma returns_root_rrows {E} t :
  rr_ground t →
  returns (E := E) (reading (λ st : State, into_root (rrows (table st)) t)) (λ t', t' = t).
Proof. intros Ht st. exists (Ok t), st. by destruct t. Qed.
Lemma returns_root_erows {E} t :
  er_ground t →
  returns (E := E) (reading (λ st : State, into_root (erows (table st)) t)) (λ t', t' = t).
Proof. intros Ht st. exists (Ok t), st. by destruct t. Qed.

Lemma returns_fresh_const {E} k :
  returns (E := E) (allocating (fresh_const_of_kind var_level k)) is_const.
Proof. intros st. destruct k; by eexists (Ok _), _. Qed.

Lemma rrows_remove_row_returns n self target content lvl :
  rr_ground self → rr_size self < n →
  returns (rrows_remove_row n self target content lvl)
    (λ r, match r.1 with
          | Extended _ => False
          | Extracted _ t => ty_ground t ∧ rr_ground r.2 ∧
                             ty_size t + rr_size r.2 < rr_size self
          end).
Proof.
  revert self. induction n as [|n IH]; intros self Hg Hn; [lia|].
  cbn [rrows_remove_row]. eapply returns_bind; [by apply returns_root_rrows|]. intros ? ->.
  destruct self as [[|[id t] tail| |] d|c|v l]; try (by apply returns_err); [|done].
  simpl in Hg, Hn |- *. destruct Hg as [Ht Htl]. case_decide; [apply returns_ok; simpl; auto with lia|].
  eapply returns_bind; [apply IH; [done|lia]|].
  intros [[t'|] rest]; simpl; [|done]. intros (? & ? & ?). apply returns_ok. simpl. split; [done|].
  split; [done|lia].
Qed.

Lemma erows_remove_row_returns n self target content lvl :
  er_ground self → er_size self < n →
  returns (erows_remove_row n self target content lvl)
    (λ r, match r.1 with
          | Extended _ => False
          | Extracted _ o =>
              match o with Some t => ty_ground t | None => True end ∧ er_ground r.2 ∧
              match o with Some t => ty_size t | None => 0 end + er_size r.2 < er_size self
          end).
Proof.
  revert self. induction n as [|n IH]; intros self Hg Hn; [lia|].
  cbn [erows_remove_row]. eapply returns_bind; [by apply returns_root_erows|]. intros ? ->.
  destruct self as [[|[id o] tail|] d|c|v l]; try (by apply returns_err); [|done].
  assert (match o with Some t => ty_ground t | None => True end ∧ er_ground tail) as [Ho Htl]
    by (destruct o; simpl in Hg; tauto).
  simpl in Hn |- *. case_decide; [apply returns_ok; simpl; split; [done|split; [done|lia]]|].
  eapply returns_bind; [apply IH; [done|lia]|].
  intros [[o'|] rest]; simpl; [|done]. intros (? & ? & ?). apply returns_ok. simpl. split; [done|].
  split; [destruct o; simpl; tauto|lia].
Qed.

Definition unify_returns n : Prop :=
  (∀ t1 t2, ty_ground t1 → ty_ground t2 → ty_size t1 + ty_size t2 < n →
     returns (unify_type type_eq var_level n t1 t2) (λ _, True)) ∧
  (∀ e1 e2, er_ground e1 → er_ground e2 → er_size e1 + er_size e2 < n →
     returns (unify_erows type_eq var_level n e1 e2) (λ _, True)) ∧
  (∀ r1 r2, rr_ground r1 → rr_ground r2 → rr_size r1 + rr_size r2 < n →
     returns (unify_rrows type_eq var_level n r1 r2) (λ _, True)).

Ltac leaf :=
  try match goal with
  | |- returns (err _) _ => apply returns_err
  | |- returns (ok _) _ => by apply returns_ok
  end.

Lemma unify_type_returns n t1 t2 :
  unify_returns n → ty_ground t1 → ty_ground t2 → ty_size t1 + ty_size t2 < S n →
  returns (unify_type type_eq var_level (S n) t1 t2) (λ _, True).
Proof.
  intros (IHt & IHe & IHr) Hg1 Hg2 Hn. cbn [unify_type].
  eapply returns_bind; [by apply returns_root_type|]. intros ? ->.
  eapply returns_bind; [by apply returns_root_type|]. intros ? ->.
  destruct t1 as [s1 d1|c1|]; [| |done]; (destruct t2 as [s2 d2|c2|]; [| |done]).
  - destruct Hg1 as [Hw1 Hg1], Hg2 as [Hw2 Hg2]. rewrite Hw1, Hw2.
    destruct s1; destruct s2; leaf; simpl in Hg1, Hg2, Hn.
    + destruct (type_eq _ _); leaf.
    + destruct Hg1, Hg2. eapply returns_bind; [apply returns_map_err, IHt; auto with lia|].
      intros _ _. apply returns_map_err, IHt; auto with lia.
    + case_decide; leaf. eapply returns_bind; [apply returns_fresh_const|]. intros c Hc.
      destruct (subst_ground var c Hc) as (Hs1 & _ & _).
      destruct (subst_ground var0 c Hc) as (Hs2 & _ & _).
      apply IHt; [by apply Hs1|by apply Hs2|].
      rewrite (proj2 (Hs1 _ Hg1)), (proj2 (Hs2 _ Hg2)). lia.
    + apply returns_map_err, IHe; auto with lia.
    + apply returns_map_err, IHr; auto with lia.
    + apply IHt; auto with lia.
    + apply IHt; auto with lia.
  - destruct Hg1 as [-> _]. apply returns_err.
  - destruct Hg2 as [-> _]. apply returns_err.
  - simpl. case_decide; leaf.
Qed.

Lemma unify_rrows_returns n r1 r2 :
  unify_returns n → rr_ground r1 → rr_ground r2 → rr_size r1 + rr_size r2 < S n →
  returns (unify_rrows type_eq var_level (S n) r1 r2) (λ _, True).
Proof.
  intros (IHt & IHe & IHr) Hg1 Hg2 Hn. cbn [unify_rrows].
  eapply returns_bind; [by apply returns_root_rrows|]. intros ? ->.
  eapply returns_bind; [by apply returns_root_rrows|]. intros ? ->.
  destruct r1 as [s1 d1|c1|]; [| |done]; (destruct r2 as [s2 d2|c2|]; [| |done]); leaf.
  - destruct s1 as [|[id1 u1] tl1| |], s2 as [|row2 tl2| |]; leaf.
    destruct Hg1 as [Hu1 Htl1]. cbn [rr_size] in Hn. fold rr_size ty_size in Hn.
    eapply returns_bind; [apply returns_map_err, rrows_remove_row_returns; [done|]|].
    { simpl in Hn |- *. lia. }
    intros [[u2|] rest]; simpl; [|done]. intros (Hu2 & Hrest & Hsz). simpl in Hn, Hsz.
    eapply returns_bind; [apply returns_map_err, IHt; [done..|]; lia|].
    intros _ _. apply IHr; [done..|lia].
  - case_decide; leaf.
Qed.

Lemma unify_erows_returns n e1 e2 :
  unify_returns n → er_ground e1 → er_ground e2 → er_size e1 + er_size e2 < S n →
  returns (unify_erows type_eq var_level (S n) e1 e2) (λ _, True).
Proof.
  intros (IHt & IHe & IHr) Hg1 Hg2 Hn. cbn [unify_erows].
  eapply returns_bind; [by apply returns_root_erows|]. intros ? ->.
  eapply returns_bind; [by apply returns_root_erows|]. intros ? ->.
  destruct e1 as [s1 d1|c1|]; [| |done]; (destruct e2 as [s2 d2|c2|]; [| |done]); leaf.
  - destruct s1 as [|[id1 o1] tl1|], s2 as [|row2 tl2|]; leaf.
    assert (match o1 with Some t => ty_ground t | None => True end ∧ er_ground tl1) as [Ho1 Htl1]
      by (destruct o1; simpl in Hg1; tauto).
    eapply returns_bind; [apply returns_map_err, erows_remove_row_returns; [done|]|].
    { simpl in Hn |- *. lia. }
    intros [[o2|] rest]; cbn [fst snd]; [|done]. intros (Ho2 & Hrest & Hsz).
    cbn [erow_typ erow_id]. simpl in Hn, Hsz.
    eapply returns_bind with (P := λ _, True).
    { destruct o1, o2; leaf. apply returns_map_err, IHt; [done..|]. lia. }
    intros _ _. apply IHe; [done..|lia].
  - case_decide; leaf.
Qed.

Lemma unify_closed_returns n : unify_returns n.
Proof.
  induction n as [|n IH]; [by split; [|split]; intros; lia|].
  split; [|split]; intros; by auto using unify_type_returns, unify_rrows_returns,
    unify_erows_returns.
Qed.

(** ** Reflexivity *)

Definition scope : Type := list (VarKindDiscriminant * Ident).

(** A type without unification variables nor wildcards, whose bound
    variables are in scope, whose contracts equal themselves, and that does
    not mention [ForeignId]. *)
Fixpoint ty_scoped (G : scope) (t : Ty) : Prop :=
  match t with
  | TConcrete typ _ =>
      match typ with
      | ForeignId | Wildcard _ => False
      | Dyn | Number | Bool | String | Symbol => True
      | Contract c => type_eq c c = true
      | Var v => (DType, v) ∈ G
      | Arrow a b => ty_scoped G a ∧ ty_scoped G b
      | Forall v k a => ty_scoped ((var_kind_discriminant k, v) :: G) a
      | Dict a _ | Array a => ty_scoped G a
      | Enum e => er_scoped G e
      | Record r => rr_scoped G r
      end
  | TConstant _ => True
  | TUnifVar _ _ => False
  end
with rr_scoped (G : scope) (r : RR) : Prop :=
  match r with
  | RConcrete r _ =>
      match r with
      | RExtend (mkRecordRow _ t) tail => ty_scoped G t ∧ rr_scoped G tail
      | RTailVar v => (DRecordRows, v) ∈ G
      | REmpty | RTailDyn => True
      end
  | RConstant _ => True
  | RUnifVar _ _ => False
  end
with er_scoped (G : scope) (e : ER) : Prop :=
  match e with
  | EConcrete e _ =>
      match e with
      | EExtend (mkEnumRow _ (Some t)) tail => ty_scoped G t ∧ er_scoped G tail
      | EExtend (mkEnumRow _ None) tail => er_scoped G tail
      | ETailVar v => (DEnumRows, v) ∈ G
      | EEmpty => True
      end
  | EConstant _ => True
  | EUnifVar _ _ => False
  end.

Lemma scoped_ground :
  (∀ t G, ty_scoped G t → ty_ground t) ∧ (∀ r G, rr_scoped G r → rr_ground r) ∧
  (∀ e G, er_scoped G e → er_ground e).
Proof.
  apply unif_ind; try done.
  - intros typ d IH G. destruct typ; simpl in *; naive_solver.
  - intros r d IH G. destruct r as [|[]| |]; simpl in *; naive_solver.
  - intros e d IH G. destruct e as [|[? []]|]; simpl in *; naive_solver.
Qed.

Definition kind_of (to : SubstTo (Ctr := Ctr)) : VarKindDiscriminant :=
  match to with ToType _ => DType | ToRRows _ => DRecordRows | ToERows _ => DEnumRows end.

Lemma subst_scoped id to :
  is_const to →
  (∀ t G G', (∀ q, q ∈ G → q = (kind_of to, id) ∨ q ∈ G') →
     ty_scoped G t → ty_scoped G' (subst t id to)) ∧
  (∀ r G G', (∀ q, q ∈ G → q = (kind_of to, id) ∨ q ∈ G') →
     rr_scoped G r → rr_scoped G' (subst_levels_rrows id to r).1) ∧
  (∀ e G G', (∀ q, q ∈ G → q = (kind_of to, id) ∨ q ∈ G') →
     er_scoped G e → er_scoped G' (subst_levels_erows id to e).1).
Proof.
  intros Hto. unfold subst. apply unif_ind; try done.
  - intros typ d IH G G' HG Hs.
    destruct (subst_levels_concrete id to typ d) as [(c & -> & -> & ->)|(d' & Hne & ->)].
    { by destruct c. }
    destruct typ; simpl in *; unfold raising; repeat (case_match; simplify_eq/=); try done.
    + naive_solver.
    + destruct (HG _ Hs) as [Hq|]; [|done]. simplify_eq. destruct to as [c| |]; simplify_eq/=.
      by destruct (Hne c).
    + eapply IH; [|exact Hs]. set_solver.
    + naive_solver.
    + naive_solver.
    + naive_solver.
    + naive_solver.
  - intros r d IH G G' HG Hs.
    destruct (subst_rrows_concrete id to r d) as [(c & -> & -> & ->)|(d' & Hne & ->)].
    { by destruct c. }
    destruct r as [|[]| |]; simpl in *; unfold raising; repeat (case_match; simplify_eq/=);
      try done; [naive_solver|].
    destruct (HG _ Hs) as [Hq|]; [|done]. simplify_eq. destruct to as [|c|]; simplify_eq/=.
    by destruct (Hne c).
  - intros e d IH G G' HG Hs.
    destruct (subst_erows_concrete id to e d) as [(c & -> & -> & ->)|(d' & Hne & ->)].
    { by destruct c. }
    destruct e as [|[? []]|]; simpl in *; unfold raising; repeat (case_match; simplify_eq/=);
      try done; [naive_solver|naive_solver|].
    destruct (HG _ Hs) as [Hq|]; [|done]. simplify_eq. destruct to as [| |c]; simplify_eq/=.
    by destruct (Hne c).
Qed.

(** The computation succeeds with a value that satisfies [Q]. *)
Definition succeeds {E A} (m : comp E A) (Q : A → Prop) : Prop :=
  ∀ st : State, ∃ a st', m st = Done (Ok a, st') ∧ Q a.

Lemma succeeds_ok {E A} (a : A) (Q : A → Prop) : Q a → succeeds (ok a : comp E A) Q.
Proof. intros HQ st. by exists a, st. Qed.

Lemma succeeds_bind {E A B} (m : comp E A) (f : A → comp E B) (P : A → Prop) (Q : B → Prop) :
  succeeds m P → (∀ a, P a → succeeds (f a) Q) → succeeds (m ≫= f) Q.
Proof.
  intros Hm Hf st. destruct (Hm st) as (a & st' & Heq & Ha).
  unfold mbind, comp_mbind, comp_bind. rewrite Heq. by apply Hf.
Qed.

Lemma succeeds_map_err {E F A} (g : E → F) (m : comp E A) (Q : A → Prop) :
  succeeds m Q → succeeds (map_err g m) Q.
Proof.
  intros Hm st. destruct (Hm st) as (a & st' & Heq & Ha). unfold map_err. rewrite Heq.
  by exists a, st'.
Qed.

Lemma succeeds_reading {E A} (f : State → outcome A) a :
  (∀ st, f st = Done a) → succeeds (E := E) (reading f) (λ a', a' = a).
Proof. intros Hf st. exists a, st. unfold reading. by rewrite Hf. Qed.

Lemma succeeds_fresh_const {E} k :
  succeeds (E := E) (allocating (fresh_const_of_kind var_level k))
    (λ c, is_const c ∧ kind_of c = var_kind_discriminant k).
Proof. intros st. destruct k; by eexists _, _. Qed.

Definition unify_refl_ok n : Prop :=
  (∀ t, ty_scoped [] t → ty_size t < n →
     succeeds (unify_type type_eq var_level n t t) (λ _, True)) ∧
  (∀ e, er_scoped [] e → er_size e < n →
     succeeds (unify_erows type_eq var_level n e e) (λ _, True)) ∧
  (∀ r, rr_scoped [] r → rr_size r < n →
     succeeds (unify_rrows type_eq var_level n r r) (λ _, True)).

Lemma rrows_remove_first n row tail d content lvl :
  succeeds (rrows_remove_row (S n) (RConcrete (RExtend row tail) d) (rrow_id row) content lvl)
    (λ r, r = (Extracted _ (rrow_typ row), tail)).
Proof.
  cbn [rrows_remove_row]. eapply succeeds_bind; [by apply succeeds_reading|].
  intros ? ->. simpl. rewrite decide_True by done. by apply succeeds_ok.
Qed.

Lemma erows_remove_first n row tail d lvl :
  succeeds (erows_remove_row (S n) (EConcrete (EExtend row tail) d) (erow_id row) (erow_typ row) lvl)
    (λ r, r = (Extracted _ (erow_typ row), tail)).
Proof.
  cbn [erows_remove_row]. eapply succeeds_bind; [by apply succeeds_reading|].
  intros ? ->. simpl. rewrite decide_True by done. by apply succeeds_ok.
Qed.

Lemma unify_type_refl_step n t :
  unify_refl_ok n → ty_scoped [] t → ty_size t < S n →
  succeeds (unify_type type_eq var_level (S n) t t) (λ _, True).
Proof.
  intros (IHt & IHe & IHr) Hs Hn. cbn [unify_type]. destruct t as [typ d|c|]; [| |done].
  - eapply succeeds_bind; [by apply succeeds_reading|]. intros ? ->.
    eapply succeeds_bind; [by apply succeeds_reading|]. intros ? ->.
    destruct typ; simpl in Hs, Hn |- *; try done; try (by apply succeeds_ok).
    + rewrite Hs. by apply succeeds_ok.
    + destruct Hs. eapply succeeds_bind; [apply succeeds_map_err, IHt; auto with lia|].
      intros _ _. apply succeeds_map_err, IHt; auto with lia.
    + by apply elem_of_nil in Hs.
    + rewrite decide_True by done. eapply succeeds_bind; [apply succeeds_fresh_const|].
      intros c [Hc Hk]. destruct (scoped_ground) as (Hg & _ & _).
      destruct (subst_ground var c Hc) as (Hsz & _ & _).
      destruct (subst_scoped var c Hc) as (Hsc & _ & _).
      apply IHt; [|rewrite (proj2 (Hsz _ (Hg _ _ Hs))); lia].
      eapply Hsc; [|exact Hs]. intros q Hq. rewrite Hk. set_solver.
    + apply succeeds_map_err, IHe; auto with lia.
    + apply succeeds_map_err, IHr; auto with lia.
    + apply IHt; auto with lia.
    + apply IHt; auto with lia.
  - eapply succeeds_bind; [by apply succeeds_reading|]. intros ? ->.
    eapply succeeds_bind; [by apply succeeds_reading|]. intros ? ->. simpl.
    rewrite decide_True by done. by apply succeeds_ok.
Qed.

Lemma unify_rrows_refl_step n r :
  unify_refl_ok n → rr_scoped [] r → rr_size r < S n →
  succeeds (unify_rrows type_eq var_level (S n) r r) (λ _, True).
Proof.
  intros (IHt & IHe & IHr) Hs Hn. cbn [unify_rrows]. destruct r as [r d|c|]; [| |done];
    (eapply succeeds_bind; [by apply succeeds_reading|]; intros ? ->;
     eapply succeeds_bind; [by apply succeeds_reading|]; intros ? ->).
  - destruct r as [|[id t] tail|v|]; try (by apply succeeds_ok).
    + simpl in Hs, Hn. destruct n as [|n]; [lia|]. destruct Hs as [Ht Htl].
      eapply succeeds_bind; [apply succeeds_map_err, (rrows_remove_first n (mkRecordRow id t))|].
      intros ? ->. eapply succeeds_bind; [apply succeeds_map_err, IHt; [done|simpl; lia]|].
      intros _ _. apply IHr; [done|lia].
    + by apply elem_of_nil in Hs.
  - rewrite decide_True by done. by apply succeeds_ok.
Qed.

Lemma unify_erows_refl_step n e :
  unify_refl_ok n → er_scoped [] e → er_size e < S n →
  succeeds (unify_erows type_eq var_level (S n) e e) (λ _, True).
Proof.
  intros (IHt & IHe & IHr) Hs Hn. cbn [unify_erows]. destruct e as [e d|c|]; [| |done];
    (eapply succeeds_bind; [by apply succeeds_reading|]; intros ? ->;
     eapply succeeds_bind; [by apply succeeds_reading|]; intros ? ->).
  - destruct e as [|[id o] tail|v]; try (by apply succeeds_ok).
    + assert (match o with Some t => ty_scoped [] t | None => True end ∧ er_scoped [] tail)
        as [Ho Htl] by (destruct o; simpl in Hs; tauto).
      simpl in Hn. destruct (size_pos) as (_ & _ & Hpos). specialize (Hpos tail).
      destruct n as [|n]; [lia|].
      eapply succeeds_bind; [apply succeeds_map_err, (erows_remove_first n (mkEnumRow id o))|].
      intros ? ->. eapply succeeds_bind with (P := λ _, True).
      { destruct o; [|by apply succeeds_ok]. apply succeeds_map_err, IHt; [done|lia]. }
      intros _ _. apply IHe; [done|lia].
    + by apply elem_of_nil in Hs.
  - rewrite decide_True by done. by apply succeeds_ok.
Qed.

Lemma unify_refl_is_ok n : unify_refl_ok n.
Proof.
  induction n as [|n IH]; [by split; [|split]; intros; lia|].
  split; [|split]; intros; by auto using unify_type_refl_step, unify_rrows_refl_step,
    unify_erows_refl_step.
Qed.
End unify.
End closed.
