(* ===== verification/Subtyping.v ===== *)
(** * Type subsumption: [core/src/typecheck/subtyping.rs]

    [subsumed_by] on types and record rows, with [instantiate_foralls] and the
    iterator on record rows of [core/src/typecheck/mod.rs]. The computations are
    those of [Unify]; the field [var_level] of [Context] is an argument, as
    instantiating a polymorphic type increments it. The table of names of
    variables, which only serves error messages, is left out.

    [ty_sub] is the specification: the declarative subsumption relation of the
    documentation of the file, modulo the assignments of a table. *)
From S2P Require Import Prelude UnifTypes UnifTable Unify UnifRel.

Section subtyping.
Context {Ctr : Type}.
Abbreviation Ty := (UnifType Ctr).
Abbreviation RR := (UnifRecordRows Ctr).
Abbreviation ER := (UnifEnumRows Ctr).

(** ** [instantiate_foralls] *)

Inductive ForallInst : Type := InstConstant | InstUnifVar.

Definition incr_level {E} (var_level : VarLevel) : comp (Ctr := Ctr) E VarLevel :=
  reading (λ _, unwrap (level_incr var_level)).

Definition is_forall (ty : Ty) : bool :=
  match ty with TConcrete (Forall _ _ _) _ => true | _ => false end.

(** The variable or the constant that replaces a bound variable of each kind. *)
Definition fresh_instance {E} (inst : ForallInst) (var_level : VarLevel) (var_kind : VarKind)
    : comp (Ctr := Ctr) E (SubstTo (Ctr := Ctr)) :=
  match var_kind with
  | KindType =>
      fresh_uid ← allocating (λ tb, fresh_type_var_id tb var_level);
      ok (ToType (match inst with
                  | InstConstant => TConstant fresh_uid
                  | InstUnifVar => TUnifVar fresh_uid var_level
                  end))
  | KindRecordRows excluded =>
      fresh_uid ← allocating (λ tb, fresh_rrows_var_id tb var_level);
      _ ← (match inst with
           | InstUnifVar => insert_constr fresh_uid excluded
           | InstConstant => ok ()
           end);
      ok (ToRRows (match inst with
                   | InstConstant => RConstant fresh_uid
                   | InstUnifVar => RUnifVar fresh_uid var_level
                   end))
  | KindEnumRows excluded =>
      fresh_uid ← allocating (λ tb, fresh_erows_var_id tb var_level);
      _ ← (match inst with
           | InstUnifVar => insert_constr fresh_uid excluded
           | InstConstant => ok ()
           end);
      ok (ToERows (match inst with
                   | InstConstant => EConstant fresh_uid
                   | InstUnifVar => EUnifVar fresh_uid var_level
                   end))
  end.

(** The loop [while let UnifType::Concrete { typ: TypeF::Forall .. }]. *)
Fixpoint instantiate_loop {E} (n : nat) (inst : ForallInst) (var_level : VarLevel) (ty : Ty)
    : comp E Ty :=
  match n with
  | 0 => λ _, OutOfFuel
  | S n =>
      match ty with
      | TConcrete (Forall var var_kind body) _ =>
          uvar ← fresh_instance inst var_level var_kind;
          instantiate_loop n inst var_level (subst body var uvar)
      | _ => ok ty
      end
  end.

(** Returns the level the context is left with as well. *)
Definition instantiate_foralls {E} (n : nat) (var_level : VarLevel) (ty : Ty) (inst : ForallInst)
    : comp E (Ty * VarLevel) :=
  ty ← reading (λ st, into_root (types (table st)) ty);
  var_level ← (if is_forall ty then incr_level var_level else ok var_level);
  ty ← instantiate_loop n inst var_level ty;
  ok (ty, var_level).

(** ** The iterator on record rows *)

Inductive RecordRowsElt : Type :=
| TailDyn
| TailVar (id : Ident)
| TailUnifVar (id : VarId) (init_level : VarLevel)
| TailConstant (id : VarId)
| Row (row : RecordRowF Ty).

(** The items of [RecordRowsIterator]. *)
Fixpoint rrows_iter (rr : RR) : list RecordRowsElt :=
  match rr with
  | RConcrete REmpty _ => []
  | RConcrete RTailDyn _ => [TailDyn]
  | RConcrete (RTailVar id) _ => [TailVar id]
  | RConcrete (RExtend row tail) _ => Row row :: rrows_iter tail
  | RUnifVar id init_level => [TailUnifVar id init_level]
  | RConstant var_id => [TailConstant var_id]
  end.

(** A [for] loop with the variable [prev_row_typ]. *)
Fixpoint for_rows {E} (body : option Ty → RecordRowsElt → comp (Ctr := Ctr) E (option Ty))
    (prev : option Ty) (elts : list RecordRowsElt) : comp (Ctr := Ctr) E unit :=
  match elts with
  | [] => ok ()
  | elt :: elts => prev ← body prev elt; for_rows body prev elts
  end.

(** ** [subsumed_by] *)

Context (type_eq : Ctr → Ctr → bool).

(** The result of the check of a row: the error is replaced when a previous row
    was accepted. *)
Definition inhomogeneous (prev : option Ty) (typ : Ty) (e : UnifErrorKind) : UnifErrorKind :=
  match prev with Some prev_ty => InhomogeneousRecord prev_ty typ | None => e end.

Fixpoint subsumed_type (n : nat) (var_level : VarLevel) (self t2 : Ty)
    : comp UnifErrorKind unit :=
  match n with
  | 0 => λ _, OutOfFuel
  | S n =>
      '(inferred, var_level) ← instantiate_foralls n var_level self InstUnifVar;
      checked ← reading (λ st, into_root (types (table st)) t2);
      match inferred, checked with
      | TConcrete (Record rrows) _, TConcrete (Dict type_fields flavour) var_levels_data =>
          for_rows (λ prev_row_typ elt,
            match elt with
            | Row a =>
                _ ← map_err (inhomogeneous prev_row_typ (rrow_typ a))
                      (subsumed_type n var_level (rrow_typ a) type_fields);
                ok (Some (rrow_typ a))
            | TailUnifVar id _ =>
                _ ← on_table (λ tb, assign_rrows tb id (rrows_concrete REmpty));
                ok prev_row_typ
            | TailConstant id =>
                err (WithConst DRecordRows id
                       (TConcrete (Dict type_fields flavour) var_levels_data))
            | TailDyn | TailVar _ => ok prev_row_typ
            end) None (rrows_iter rrows)
      | TConcrete (Array a) _, TConcrete (Array b) _ => subsumed_type n var_level a b
      | TConcrete (Dict a _) _, TConcrete (Dict b _) _ => subsumed_type n var_level a b
      | TConcrete (Record rrows1) _, TConcrete (Record rrows2) _ =>
          map_err (λ e, into_unif_err e (mk_uty_record rrows2) (mk_uty_record rrows1))
            (subsumed_rrows n var_level rrows1 rrows2)
      | inferred, checked => unify_type type_eq var_level n checked inferred
      end
  end
with subsumed_rrows (n : nat) (var_level : VarLevel) (self t2 : RR)
    : comp RowUnifErrorKind unit :=
  match n with
  | 0 => λ _, OutOfFuel
  | S n =>
      let assign id urrows :=
        _ ← (match urrows with
              | RConstant cst_id =>
                  check_level force_rrows_updates get_rrows_level
                    (RowVarLevelMismatch cst_id DRecordRows) n id cst_id
              | _ => ok ()
              end);
        _ ← rrows_propagate_constrs urrows id;
        on_table (λ tb, assign_rrows tb id urrows) in
      inferred ← reading (λ st, into_root (rrows (table st)) self);
      checked ← reading (λ st, into_root (rrows (table st)) t2);
      match inferred, checked with
      | RConcrete rrows1 levels1, RConcrete rrows2 _ =>
          match rrows1, rrows2 with
          | RExtend _ _, RExtend row2 tail2 =>
              '(ty_res, urrows_without_ty_res) ←
                map_err
                  (λ e, match e with
                        | RemoveMissing => RowMissingRecordRow (rrow_id row2)
                        | RemoveConflict => RowRecordRowConflict row2
                        end)
                  (rrows_remove_row n (RConcrete rrows1 levels1) (rrow_id row2) (rrow_typ row2)
                     var_level);
              _ ← (match ty_res with
                    | Extracted _ ty =>
                        map_err (RowRecordRowMismatch (rrow_id row2))
                          (subsumed_type n var_level ty (rrow_typ row2))
                    | Extended _ => ok ()
                    end);
              subsumed_rrows n var_level urrows_without_ty_res tail2
          | RTailVar id, _ | _, RTailVar id => err (RowUnboundTypeVariable id)
          | REmpty, REmpty | RTailDyn, RTailDyn => ok ()
          | REmpty, RTailDyn | RTailDyn, REmpty => err RowExtraDynTail
          | REmpty, RExtend row _ | RTailDyn, RExtend row _ => err (RowMissingRecordRow (rrow_id row))
          | RExtend row _, RTailDyn | RExtend row _, REmpty => err (RowExtraRow (rrow_id row))
          end
      | RUnifVar id _, urrows | urrows, RUnifVar id _ => assign id urrows
      | RConstant i1, RConstant i2 =>
          if decide (i1 = i2) then ok () else err (RowConstMismatch DRecordRows i2 i1)
      | urrows, RConstant i | RConstant i, urrows =>
          err (RowWithConst DRecordRows i (type_concrete (Record urrows)))
      end
  end.

(** ** The specification *)

(** A type or rows of the kind of a bound variable. *)
Definition instance_of (k : VarKind) (to : SubstTo (Ctr := Ctr)) : Prop :=
  match k, to with
  | KindType, ToType _ | KindRecordRows _, ToRRows _ | KindEnumRows _, ToERows _ => True
  | _, _ => False
  end.

(** [ty_sub b t1 t2]: a value of type [t1] can be used at type [t2]. [rr_fits b r
    u]: the fields of [r] have types subsumed by [u]; the code lets a dynamic
    tail through. *)
Inductive ty_sub (b : bindings Ctr) : Ty → Ty → Prop :=
| ts_eq t1 t2 : ty_eq type_eq b t1 t2 → ty_sub b t1 t2
| ts_trans t1 t2 t3 : ty_sub b t1 t2 → ty_sub b t2 t3 → ty_sub b t1 t3
| ts_array a1 a2 d1 d2 :
    ty_sub b a1 a2 → ty_sub b (TConcrete (Array a1) d1) (TConcrete (Array a2) d2)
| ts_dict a1 a2 f1 f2 d1 d2 :
    ty_sub b a1 a2 → ty_sub b (TConcrete (Dict a1 f1) d1) (TConcrete (Dict a2 f2) d2)
| ts_record r1 r2 d1 d2 :
    rr_sub b r1 r2 → ty_sub b (TConcrete (Record r1) d1) (TConcrete (Record r2) d2)
| ts_record_dict r u f d1 d2 :
    rr_fits b r u → ty_sub b (TConcrete (Record r) d1) (TConcrete (Dict u f) d2)
| ts_forall v k body d to :
    instance_of k to → ty_sub b (TConcrete (Forall v k body) d) (subst body v to)
with rr_sub (b : bindings Ctr) : RR → RR → Prop :=
| rs_eq r1 r2 : rr_eq type_eq b r1 r2 → rr_sub b r1 r2
| rs_trans r1 r2 r3 : rr_sub b r1 r2 → rr_sub b r2 r3 → rr_sub b r1 r3
| rs_extend id t1 t2 r1 r2 d1 d2 :
    ty_sub b t1 t2 → rr_sub b r1 r2 →
    rr_sub b (RConcrete (RExtend (mkRecordRow id t1) r1) d1)
             (RConcrete (RExtend (mkRecordRow id t2) r2) d2)
with rr_fits (b : bindings Ctr) : RR → Ty → Prop :=
| rf_eq r1 r2 u : rr_eq type_eq b r1 r2 → rr_fits b r2 u → rr_fits b r1 u
| rf_empty u d : rr_fits b (RConcrete REmpty d) u
| rf_dyn u d : rr_fits b (RConcrete RTailDyn d) u
| rf_var id u d : rr_fits b (RConcrete (RTailVar id) d) u
| rf_extend row tail u d :
    ty_sub b (rrow_typ row) u → rr_fits b tail u →
    rr_fits b (RConcrete (RExtend row tail) d) u.

Scheme ty_sub_min := Minimality for ty_sub Sort Prop
with rr_sub_min := Minimality for rr_sub Sort Prop
with rr_fits_min := Minimality for rr_fits Sort Prop.
Combined Scheme sub_min from ty_sub_min, rr_sub_min, rr_fits_min.

End subtyping.
