(* ===== verification/UnifyTheorems.v ===== *)
(** * Properties of unification ([core/src/typecheck/unif.rs])

    Soundness, safety, termination on closed types, and the state after an error
    or an update of levels. What the code does not enforce is in
    [UnifyTheorems.v]. The witnesses embed no contract ([Ctr] is
    [unit]). *)
From S2P Require Import Prelude UnifTypes UnifTable SlotFacts Unify UnifRel UnifTableFacts UnifySound UnifyClosed.

(** A state with [t], [r] and [e] unassigned variables of each kind, at level
    [l]. *)
Definition free_state {Ctr} (t r e : nat) (l : VarLevel) : State (Ctr := Ctr) :=
  mkState (mkTable (replicate t (slot_new l)) (replicate r (slot_new l)) (replicate e (slot_new l))
             [] [] []) ∅ [].

Lemma free_slots_ok {Ty} `{HasUnifVarLaws Ty} (P : Ty → Prop) n l :
  slots_ok P (vals (replicate n (slot_new l))) [].
Proof.
  assert (vals (replicate n (slot_new l)) = replicate (A := option Ty) n None) as ->.
  { unfold vals. induction n as [|n IH]; [done|]. simpl. by rewrite IH. }
  split.
  - intros v t [? _]%lookup_replicate_1. done.
  - intros v Hv. exists 0. apply ends_none. apply lookup_replicate_2.
    by rewrite length_replicate in Hv.
  - set_solver.
Qed.

Lemma free_state_ok {Ctr} t r e l : state_ok (free_state (Ctr := Ctr) t r e l).
Proof. split; [|set_solver]. split; apply free_slots_ok. Qed.

Definition unit_eq (a b : unit) : bool := true.

Abbreviation num := (type_concrete (Ctr := unit) Number).
Abbreviation arr t := (type_concrete (Ctr := unit) (Array t)).
Abbreviation record r := (type_concrete (Ctr := unit) (Record r)).
Abbreviation row id t tail := (rrows_concrete (Ctr := unit) (RExtend (mkRecordRow id t) tail)).
Abbreviation enum e := (type_concrete (Ctr := unit) (Enum e)).
Abbreviation variant id t tail := (erows_concrete (Ctr := unit) (EExtend (mkEnumRow id (Some t)) tail)).

(** ** Soundness and safety *)





(** A failed unification leaves a state that satisfies the invariant and
    entails at least the equalities entailed before, so that the typechecker can
    go on with it. *)
Theorem unify_error_state {Ctr} (type_eq : Ctr → Ctr → bool) (var_level : VarLevel) (n : nat)
    (st st' : State) (t1 t2 : UnifType Ctr) (e : UnifErrorKind) :
  state_ok st → ty_in (st_dims st) t1 → ty_in (st_dims st) t2 →
  unify_type type_eq var_level n t1 t2 st = Done (Err e, st') →
  state_ok st' ∧ ∀ u1 u2, ty_eq type_eq (st_binds st) u1 u2 → ty_eq type_eq (st_binds st') u1 u2.
Proof.
  intros Hok H1 H2 Hu. pose proof (proj1 (unify_is_ok type_eq var_level n) st t1 t2 Hok H1 H2) as H.
  unfold triple in H. rewrite Hu in H. destruct H as (Hok' & Hle & _).
  split; [done|]. intros u1 u2. by apply sle_ty.
Qed.

Lemma unify_error_state_witness :
  ∃ e st', unify_type unit_eq 3 5 (arr (TUnifVar 0 3)) num (free_state 1 0 0 3) = Done (Err e, st') ∧
           state_ok st'.
Proof.
  eexists _, _. split; [vm_compute; reflexivity|].
  eapply (unify_error_state unit_eq 3 5 (free_state 1 0 0 3) _ (arr (TUnifVar 0 3)) num);
    [apply free_state_ok|simpl; lia|done|vm_compute; reflexivity].
Defined.

(** [remove_row] on record rows: when it succeeds, the rows are equal,
    modulo the resulting table, to the target row followed by the rest it
    returns; the type of the row is the one found, or the one it was given when
    the rows had to be extended. *)
Theorem remove_row_splits {Ctr} (type_eq : Ctr → Ctr → bool) (n : nat) (st st' : State)
    (self rest : UnifRecordRows Ctr) (target : Ident) (content : UnifType Ctr) (var_level : VarLevel)
    (res : RemoveRowResult (UnifType Ctr)) :
  state_ok st → rr_in (st_dims st) self → ty_in (st_dims st) content →
  rrows_remove_row n self target content var_level st = Done (Ok (res, rest), st') →
  rr_eq type_eq (st_binds st') self
    (rrows_concrete (RExtend
       (mkRecordRow target (match res with Extracted _ t => t | Extended _ => content end)) rest)).
Proof.
  intros Hok Hin Hc Hr.
  pose proof (rrows_remove_row_ok type_eq n st self target content var_level Hok Hin Hc) as H.
  unfold triple in H. rewrite Hr in H. by destruct H as (_ & _ & _ & _ & Heq).
Qed.

Lemma remove_row_splits_witness :
  ∃ st', rr_eq unit_eq (st_binds st') (row "a" num (RUnifVar 0 3))
           (rrows_concrete (RExtend (mkRecordRow "b" (arr num))
              (rrows_concrete (RExtend (mkRecordRow "a" num) (RUnifVar 1 3))))).
Proof.
  eexists. eapply (remove_row_splits unit_eq 5 (free_state 0 1 0 3) _
    (row "a" num (RUnifVar 0 3)) _ "b" (arr num) 3 (Extended _));
    [apply free_state_ok|split; simpl; [done|lia]|done|vm_compute; reflexivity].
Defined.

(** Following the links of the table from a variable always ends, within as
    many steps as there are slots, on an unassigned variable or a type that is
    not a variable, equal to the variable modulo the table. *)
Theorem root_type_terminates {Ctr} (type_eq : Ctr → Ctr → bool) (st : State) (v : VarId)
    (l : VarLevel) :
  state_ok st → v < n_types (st_dims st) →
  ∃ t : UnifType Ctr,
    root_type (table st) v l = Done t ∧ is_root (vals (types (table st))) t ∧
    ty_eq type_eq (st_binds st) (TUnifVar v l) t.
Proof.
  intros [Hok _] Hv.
  destruct (into_root_type type_eq _ _ _ _ (wildcard_vars st) (TUnifVar v l) Hok Hv)
    as (t & Ht & _ & Hroot & Heq). by exists t.
Qed.

Lemma root_type_terminates_witness :
  ∃ t : UnifType unit, root_type (table (free_state 2 0 0 3)) 1 3 = Done t ∧
    is_root (vals (types (table (free_state (Ctr := unit) 2 0 0 3)))) t ∧
    ty_eq unit_eq (st_binds (free_state 2 0 0 3)) (TUnifVar 1 3) t.
Proof. apply (root_type_terminates unit_eq); [apply free_state_ok|simpl; lia]. Defined.

(** Forcing the pending level updates of types does not panic, keeps the
    invariant, the unassigned variables and every equality the table entails:
    only levels and level data change. *)
Theorem force_type_updates_preserves {Ctr} (type_eq : Ctr → Ctr → bool) (n : nat) (cl : VarLevel)
    (w : list (UnifType Ctr)) (tb : UnifTable Ctr) :
  table_ok tb → safe (force_type_updates n cl tb) (table_forced type_eq w tb).
Proof. apply force_type_updates_ok. Qed.

Lemma force_type_updates_preserves_witness :
  safe (force_type_updates 5 3 (table (free_state (Ctr := unit) 2 0 0 3)))
    (table_forced unit_eq [] (table (free_state 2 0 0 3))).
Proof. apply (force_type_updates_preserves unit_eq). apply free_state_ok. Defined.

(** ** Closed types *)

(** On two types without unification variables nor wildcards, whatever the
    state, unification terminates: fuel above the sum of their sizes gives a
    result, success or error. *)
Theorem unify_closed_terminates {Ctr} (type_eq : Ctr → Ctr → bool) (var_level : VarLevel) (n : nat)
    (t1 t2 : UnifType Ctr) (st : State) :
  ty_ground t1 → ty_ground t2 → ty_size t1 + ty_size t2 < n →
  ∃ r st', unify_type type_eq var_level n t1 t2 st = Done (r, st').
Proof.
  intros H1 H2 Hn.
  destruct (proj1 (unify_closed_returns type_eq var_level n) t1 t2 H1 H2 Hn st)
    as (r & st' & Heq & _). by exists r, st'.
Qed.

Lemma unify_closed_terminates_witness :
  ∃ r st', unify_type unit_eq 3 7 (arr num) (arr (arr num)) (free_state 0 0 0 3) = Done (r, st').
Proof. apply (unify_closed_terminates unit_eq 3 7); simpl; [done|done|lia]. Defined.

(** A closed well-scoped type unifies with itself, in any state, whatever
    its bound variables, nested [forall]s and row variables. *)
Theorem unify_reflexive {Ctr} (type_eq : Ctr → Ctr → bool) (var_level : VarLevel) (n : nat)
    (t : UnifType Ctr) (st : State) :
  ty_scoped type_eq [] t → ty_size t < n →
  ∃ st', unify_type type_eq var_level n t t st = Done (Ok (), st').
Proof.
  intros Hs Hn. destruct (proj1 (unify_refl_is_ok type_eq var_level n) t Hs Hn st)
    as ([] & st' & Heq & _). by exists st'.
Qed.

(** [forall a r. {x : a; r} -> a] *)
Lemma unify_reflexive_witness :
  let t := type_concrete (Forall "a" KindType (type_concrete
             (Forall "r" (KindRecordRows {["x"]}) (type_concrete
               (Arrow (record (row "x" (type_concrete (Var "a")) (rrows_concrete (RTailVar "r"))))
                  (type_concrete (Var "a"))))))) in
  ∃ st', unify_type unit_eq 3 20 t t (free_state 0 0 0 3) = Done (Ok (), st').
Proof.
  intros t. apply (unify_reflexive unit_eq 3 20 t); [|simpl; lia].
  simpl. set_solver.
Defined.

(** [ForeignId] is the exception: two identical [ForeignId] types do not
    unify. *)
Theorem foreign_id_does_not_unify (var_level : VarLevel) (n : nat) (st : State) :
  unify_type unit_eq var_level (S n) (type_concrete ForeignId) (type_concrete ForeignId) st
  = Done (Err (TypeMismatch (type_concrete ForeignId) (type_concrete ForeignId)), st).
Proof. by destruct st. Qed.

(** ** Row constraints *)

(** The fields that [propagate_constrs] sees in record rows, and the variable
    that ends them. *)
Fixpoint visible_fields {Ctr} (rr : UnifRecordRows Ctr) : list Ident :=
  match rr with
  | RConcrete (RExtend (mkRecordRow id _) tail) _ => id :: visible_fields tail
  | _ => []
  end.

Fixpoint tail_var {Ctr} (rr : UnifRecordRows Ctr) : option VarId :=
  match rr with
  | RConcrete (RExtend (mkRecordRow _ _) tail) _ => tail_var tail
  | RUnifVar id _ => Some id
  | _ => None
  end.

Lemma rrows_propagate_spec {Ctr} (cs : RowConstrs) var_id c (rr : UnifRecordRows Ctr) :
  match rrows_propagate cs var_id c rr with
  | Ok cs' =>
      (∀ id, id ∈ visible_fields rr → id ∉ c) ∧
      ∀ v, cs' !! v = (if decide (tail_var rr = Some v ∧ v ≠ var_id)
                       then Some (default ∅ (cs !! v) ∪ c) else cs !! v)
  | Err e => ∃ r, e = RowRecordRowConflict r ∧ rrow_id r ∈ visible_fields rr ∧ rrow_id r ∈ c
  end.
Proof.
  assert (∀ rr : UnifRecordRows Ctr, visible_fields rr = [] → tail_var rr = None →
    (∀ id, id ∈ visible_fields rr → id ∉ c) ∧
    ∀ v, cs !! v = (if decide (tail_var rr = Some v ∧ v ≠ var_id)
                    then Some (default ∅ (cs !! v) ∪ c) else cs !! v)) as Hend.
  { intros rr0 -> ->. split; [set_solver|]. intros v. by rewrite decide_False by naive_solver. }
  revert rr. fix IH 1. intros [[|[id t] tail| |] d|k|k l]; cbn [rrows_propagate]; try by apply Hend.
  - cbn [visible_fields tail_var rrow_id]. case_decide as Hid; [exists (mkRecordRow id t); set_solver|].
    specialize (IH tail). destruct (rrows_propagate cs var_id c tail) as [cs'|e].
    + destruct IH as [Hf Hcs]. split; [set_solver|exact Hcs].
    + destruct IH as (r & -> & Hr & Hc). exists r. set_solver.
  - cbn [visible_fields tail_var]. case_decide as Hk.
    + split; [set_solver|]. intros v. by rewrite decide_False by naive_solver.
    + destruct (cs !! k) as [tc|] eqn:Htc; (split; [set_solver|]); intros v;
        (destruct (decide (v = k)) as [->|Hv];
         [rewrite lookup_insert_eq, decide_True, ?Htc by done; simpl; f_equal; set_solver
         |by rewrite lookup_insert_ne, decide_False by naive_solver]).
Qed.

(** Propagating the constraints of a variable to record rows succeeds exactly
    when no field listed in the rows is forbidden; the constraints move from the
    variable to the variable that ends the rows, adding to those it has, and no
    other constraint changes. *)
Theorem propagate_constrs_spec {Ctr} (rr : UnifRecordRows Ctr) (var_id : VarId)
    (st : State) (c : gset Ident) :
  constr st !! var_id = Some c → tail_var rr ≠ Some var_id →
  (∃ st', rrows_propagate_constrs rr var_id st = Done (Ok (), st') ∧
     table st' = table st ∧ constr st' !! var_id = None ∧
     (∀ id, id ∈ visible_fields rr → id ∉ c) ∧
     ∀ v, v ≠ var_id → constr st' !! v = (if decide (tail_var rr = Some v)
                                   then Some (default ∅ (constr st !! v) ∪ c) else constr st !! v)) ∨
  (∃ r st', rrows_propagate_constrs rr var_id st = Done (Err (RowRecordRowConflict r), st') ∧
     rrow_id r ∈ visible_fields rr ∧ rrow_id r ∈ c).
Proof.
  intros Hc Htail. unfold rrows_propagate_constrs. rewrite Hc.
  pose proof (rrows_propagate_spec (delete var_id (constr st)) var_id c rr) as Hspec.
  destruct (rrows_propagate _ var_id c rr) as [cs|e].
  - left. destruct Hspec as [Hf Hcs]. eexists. split; [done|]. split; [done|]. simpl.
    split; [|split; [done|]].
    + rewrite Hcs, decide_False by naive_solver. apply lookup_delete_eq.
    + intros v Hv. rewrite Hcs, lookup_delete_ne by done.
      destruct (decide (tail_var rr = Some v)); [by rewrite decide_True|].
      by rewrite decide_False by naive_solver.
  - right. destruct Hspec as (r & -> & ? & ?). by eexists _, _.
Qed.

Lemma propagate_constrs_spec_witness :
  let st := with_constr {[0 := {["a"]}]} (free_state (Ctr := unit) 0 2 0 3) in
  (∃ st', rrows_propagate_constrs (row "b" num (RUnifVar 1 3)) 0 st = Done (Ok (), st') ∧
     table st' = table st ∧ constr st' !! 0 = None ∧
     (∀ id, id ∈ ["b"] → id ∉ ({["a"]} : gset Ident)) ∧
     ∀ v, v ≠ 0 → constr st' !! v = (if decide (Some 1 = Some v)
              then Some (default ∅ (constr st !! v) ∪ {["a"]}) else constr st !! v)) ∨
  (∃ r st', rrows_propagate_constrs (row "b" num (RUnifVar 1 3)) 0 st
            = Done (Err (RowRecordRowConflict r), st') ∧
     rrow_id r ∈ ["b"] ∧ rrow_id r ∈ ({["a"]} : gset Ident)).
Proof.
  intros st. apply (propagate_constrs_spec (row "b" num (RUnifVar 1 3)) 0 st {["a"]});
    [reflexivity|discriminate].
Defined.

(** * What unification does not enforce

    Concrete runs of the model, and the general facts behind them, where the
    code departs from its documentation: the levels of row variables are never
    updated, the constant introduced for a [forall] can escape it, constraints
    are shared between the kinds of variables and miss the fields behind an
    assigned tail, and cyclic types are accepted, after which [unify] diverges. *)

(** ** Levels of row variables *)

Definition rows_pending {Ctr} (rr : UnifRecordRows Ctr) : option VarLevel :=
  match rr with RConcrete _ d => pending d | _ => None end.

(** Assigning rows stores them as they are given: no pending level is recorded
    in them. *)
Lemma assign_rrows_stores {Ctr} (tb tb' : UnifTable Ctr) var rr :
  assign_rrows tb var rr = Done tb' →
  (∀ l, rr ≠ RUnifVar var l) → vals (rrows tb') !! var = Some (Some rr).
Proof.
  intros Ha Hne. unfold assign_rrows in Ha.
  assert (∀ tb0 tb1, (_ ← assert_unassigned (rrows tb0) var;
            rs ← set_value (rrows tb0) var (Some rr); Done (with_rrows rs tb0)) = Done tb1 →
          vals (rrows tb1) !! var = Some (Some rr)) as Hset.
  { intros tb0 tb1. destruct (assert_unassigned _ _) eqn:Hu; simpl; try done.
    unfold assert_unassigned in Hu. destruct (rrows tb0 !! var) as [s|] eqn:Hs; [|done].
    assert (var < length (rrows tb0)) as Hlt by by eapply lookup_lt_Some.
    destruct (set_value_ok (rrows tb0) var (Some rr) Hlt) as (rs & -> & Hrs). simpl.
    intros [= <-]. simpl. rewrite Hrs. apply list_lookup_insert_eq. by rewrite length_vals. }
  destruct rr as [r d|c|id l]; [| |case_decide as Hid; [by subst; destruct (Hne l)|]];
    (apply bind_Done in Ha as (l0 & _ & Ha); apply bind_Done in Ha as (tb0 & _ & Ha);
     by apply Hset in Ha).
Qed.

(** [force_rrows_updates] does nothing but empty the stack, as long as no rows
    of the table hold a pending level. *)
Lemma force_rrows_updates_does_nothing {Ctr} (n : nat) (cl : VarLevel) (tb : UnifTable Ctr) :
  table_ok tb → (∀ v rr, vals (rrows tb) !! v = Some (Some rr) → rows_pending rr = None) →
  force_rrows_updates n cl tb = Done (with_pending_rrows [] tb).
Proof.
  intros Hok Hnone. unfold force_rrows_updates.
  assert (∀ ids tb1, rrows tb1 = rrows tb → (∀ v, v ∈ ids → v ∈ pending_rrows_updates tb) →
    filter_state (force_rrows_update n cl) ids tb1 = Done ([], tb1)) as Hfilter.
  { induction ids as [|id ids IH]; intros tb1 Htb1 Hids; [done|].
    destruct (slots_pending _ _ _ (wf_rrows _ _ _ _ Hok) id) as (rr & Hrr & Hvar); [apply Hids; by left|].
    pose proof (Hnone _ _ Hrr) as Hp. apply vals_lookup_Some in Hrr as (s & Hs & Hrr).
    cbn [filter_state]. unfold force_rrows_update. rewrite Htb1, Hs. cbn [unwrap mbind outcome_bind].
    rewrite Hrr. cbn [unwrap mbind outcome_bind]. unfold set_value. rewrite Hs.
    cbn [unwrap mbind outcome_bind].
    assert (∀ tb2 : UnifTable Ctr, update_rrows n rr cl tb2 = Done (rr, false, tb2)) as Hup.
    { intros tb2. destruct rr as [r [ub [p|]]|c|v l]; simpl in Hp, Hvar; by simplify_eq. }
    rewrite Hup. cbn [mbind outcome_bind rrows with_rrows]. rewrite list_lookup_insert_eq
      by by eapply lookup_lt_Some. cbn [unwrap mbind outcome_bind value level].
    rewrite list_insert_insert_eq, <- Hrr.
    replace (mkSlot (value s) (level s)) with s by by destruct s.
    rewrite list_insert_id by done.
    replace (with_rrows (rrows tb) (with_rrows _ tb1)) with tb1
      by (rewrite <- Htb1; by destruct tb1).
    rewrite IH; [done|done|]. intros v Hv. apply Hids. by right. }
  rewrite Hfilter; [done|done|done].
Qed.

(** A table where variable [0] has level 2, variable [1] level 5, and the
    constant [2] level 3, for each kind. *)
Definition levels_state : State (Ctr := unit) :=
  mkState (mkTable (map slot_new [2; 5; 3]) (map slot_new [2; 5; 3]) (map slot_new [2; 5; 3])
             [] [] []) ∅ [].

(** Once the type variable [0] of level 2 is an array of [1], [1] can no longer
    be the constant of level 3; but once the row variable [0] is a row that ends
    with [1], [1] can still be that constant: it escapes its scope. *)
Theorem row_levels_not_updated :
  (∃ st, unify_type unit_eq 5 9 (TUnifVar 0 2) (arr (TUnifVar 1 5)) levels_state = Done (Ok (), st) ∧
   ∃ st', unify_type unit_eq 5 9 (TUnifVar 1 5) (TConstant 2) st
          = Done (Err (VarLevelMismatch 2 DType), st')) ∧
  (∃ st, unify_rrows unit_eq 5 9 (RUnifVar 0 2) (row "a" num (RUnifVar 1 5)) levels_state
         = Done (Ok (), st) ∧
   ∃ st', unify_rrows unit_eq 5 9 (RUnifVar 1 5) (RConstant 2) st = Done (Ok (), st')).
Proof.
  split; (eexists; split; [vm_compute; reflexivity|]; eexists; vm_compute; reflexivity).
Qed.

(** The bound on the levels of an enum type ignores the types of its variants:
    with the variable [1] in a record field the constant is rejected, in an enum
    variant it is accepted. *)
Theorem enum_levels_not_updated :
  (∃ st, unify_type unit_eq 5 9 (TUnifVar 0 2)
           (record (row "a" (TUnifVar 1 5) (rrows_concrete REmpty))) levels_state = Done (Ok (), st) ∧
   ∃ st', unify_type unit_eq 5 9 (TUnifVar 1 5) (TConstant 2) st
          = Done (Err (VarLevelMismatch 2 DType), st')) ∧
  (∃ st, unify_type unit_eq 5 9 (TUnifVar 0 2)
           (enum (variant "a" (TUnifVar 1 5) (erows_concrete EEmpty))) levels_state = Done (Ok (), st) ∧
   ∃ st', unify_type unit_eq 5 9 (TUnifVar 1 5) (TConstant 2) st = Done (Ok (), st')).
Proof.
  split; (eexists; split; [vm_compute; reflexivity|]; eexists; vm_compute; reflexivity).
Qed.

(** ** The constants of [forall] *)

(** [forall a. a -> a] unifies with [forall b. X -> X], where [X] is a variable
    of the ambient level: the constant that stands for the bound variable is
    allocated at that level and ends up assigned to [X], outside the [forall]. *)
Theorem forall_constant_escapes :
  ∃ st, unify_type unit_eq 3 9
          (type_concrete (Forall "a" KindType (type_concrete
             (Arrow (type_concrete (Var "a")) (type_concrete (Var "a"))))))
          (type_concrete (Forall "b" KindType (type_concrete
             (Arrow (TUnifVar 0 3) (TUnifVar 0 3))))) (free_state 1 0 0 3) = Done (Ok (), st) ∧
        vals (types (table st)) !! 0 = Some (Some (TConstant 1)).
Proof. eexists. split; vm_compute; reflexivity. Qed.

(** ** Row constraints *)

(** The record rows variable [0] must not have a field [a]; unifying the enum
    rows variable [0], which is another variable, with a variant [a] fails. *)
Theorem constraints_shared_between_kinds :
  ∃ st, unify_erows unit_eq 3 9 (EUnifVar 0 3) (variant "a" num (erows_concrete EEmpty))
          (with_constr {[0 := {["a"]}]} (free_state 0 1 1 3))
        = Done (Err (RowEnumRowConflict (mkEnumRow "a" (Some num))), st).
Proof. eexists. vm_compute. reflexivity. Qed.

(** The variable [0] must not have a field [a], and the variable [1] is the row
    [{a : Number; 2}]: unifying [0] with [{b : Number; 1}] succeeds, and [0] now
    has a field [a]. The constraint is left on [1], which is assigned. *)
Theorem constraint_misses_assigned_tail :
  ∃ st st', unify_rrows unit_eq 3 9 (RUnifVar 1 3) (row "a" num (RUnifVar 2 3))
              (with_constr {[0 := {["a"]}]} (free_state 0 3 0 3)) = Done (Ok (), st) ∧
    unify_rrows unit_eq 3 9 (RUnifVar 0 3) (row "b" num (RUnifVar 1 3)) st = Done (Ok (), st') ∧
    constr st' !! 1 = Some {["a"]}.
Proof.
  eexists _, _. split; [vm_compute; reflexivity|]. split; [vm_compute; reflexivity|].
  reflexivity.
Qed.

(** ** Cyclic types *)

Definition cyclic_table : UnifTable unit :=
  mkTable [mkSlot (Some (TConcrete (Array (TUnifVar 0 3)) (mkLevels 3 (Some 3)))) 3;
           mkSlot (Some (TConcrete (Array (TUnifVar 1 3)) (mkLevels 3 (Some 3)))) 3] [] []
          [0; 1] [] [].

Lemma cyclic_unify_diverges n : ∀ v w d d',
  v < 2 → w < 2 →
  unify_type unit_eq 3 n (TUnifVar v 3) (TUnifVar w 3) (mkState cyclic_table ∅ []) = OutOfFuel ∧
  unify_type unit_eq 3 n (TConcrete (Array (TUnifVar v 3)) d) (TConcrete (Array (TUnifVar w 3)) d')
    (mkState cyclic_table ∅ []) = OutOfFuel.
Proof.
  induction n as [|n IH]; intros v w d d' Hv Hw; [done|].
  pose proof (proj1 (IH v w d d' Hv Hw)) as Hn.
  destruct v as [|[|v]], w as [|[|w]]; try lia; (split; exact Hn).
Qed.

(** Nothing prevents a variable from being assigned a type that contains it.
    After that, unifying the two variables below never returns. *)
Theorem no_occurs_check :
  ∃ st st', unify_type unit_eq 3 9 (TUnifVar 0 3) (arr (TUnifVar 0 3)) (free_state 2 0 0 3)
            = Done (Ok (), st) ∧
            unify_type unit_eq 3 9 (TUnifVar 1 3) (arr (TUnifVar 1 3)) st = Done (Ok (), st') ∧
            ∀ n, unify_type unit_eq 3 n (TUnifVar 0 3) (TUnifVar 1 3) st' = OutOfFuel.
Proof.
  eexists _, (mkState cyclic_table ∅ []). split; [vm_compute; reflexivity|].
  split; [vm_compute; reflexivity|]. intros n.
  apply (cyclic_unify_diverges n 0 1 new_no_uvars new_no_uvars); lia.
Qed.
