(* ===== verification/SubtypingTheorems.v ===== *)
(** * Properties of type subsumption ([core/src/typecheck/subtyping.rs])

    [subsumed_by] implements the declarative relation [ty_sub], over the
    specification of [unify]. Subsumption of a record by a dictionary closes the
    tail of the record with an assignment that ignores that the tail may be
    assigned already, and lets a dynamic tail through: both are shown on
    concrete types. *)
From S2P Require Import Prelude UnifTypes UnifTable SlotFacts Unify UnifRel UnifTableFacts UnifySound UnifyClosed UnifyTheorems Subtyping.

Section facts.
Context {Ctr : Type} (type_eq : Ctr → Ctr → bool).
Abbreviation Ty := (UnifType Ctr).
Abbreviation RR := (UnifRecordRows Ctr).
Abbreviation ER := (UnifEnumRows Ctr).
Implicit Types (st : State (Ctr := Ctr)).

(** ** The specification *)

Lemma extends_sub b b' :
  extends type_eq b b' →
  (∀ t1 t2, ty_sub type_eq b t1 t2 → ty_sub type_eq b' t1 t2) ∧
  (∀ r1 r2, rr_sub type_eq b r1 r2 → rr_sub type_eq b' r1 r2) ∧
  (∀ r u, rr_fits type_eq b r u → rr_fits type_eq b' r u).
Proof.
  intros He. apply sub_min; intros; try solve [econstructor; eauto].
  - apply ts_eq. by eapply extends_ty.
  - apply rs_eq. by eapply extends_rr.
  - eapply rf_eq; [|done]. by eapply extends_rr.
Qed.

Lemma sle_sub st st' t1 t2 :
  state_le type_eq st st' →
  ty_sub type_eq (st_binds st) t1 t2 → ty_sub type_eq (st_binds st') t1 t2.
Proof. intros []. by apply extends_sub. Qed.
Lemma sle_fits st st' r u :
  state_le type_eq st st' →
  rr_fits type_eq (st_binds st) r u → rr_fits type_eq (st_binds st') r u.
Proof. intros []. by apply extends_sub. Qed.

(** ** Partial triples: what holds when the computation returns *)

Definition ptriple {E A} st (m : comp E A) (Q : A → State → Prop) : Prop :=
  match m st with
  | Done r => state_ok r.2 ∧ state_le type_eq st r.2 ∧
              match r.1 with Ok a => Q a r.2 | Err _ => True end
  | _ => True
  end.

Lemma ptriple_triple {E A} st (m : comp E A) Q : triple type_eq st m Q → ptriple st m Q.
Proof. unfold triple, ptriple. by destruct (m st). Qed.

Lemma ptriple_ok {E A} st (a : A) (Q : A → State → Prop) :
  state_ok st → Q a st → ptriple st (ok a : comp E A) Q.
Proof. done. Qed.
Lemma ptriple_err {E A} st (e : E) (Q : A → State → Prop) : state_ok st → ptriple st (err e) Q.
Proof. done. Qed.

Lemma ptriple_bind {E A B} st (m : comp E A) (f : A → comp E B) Q1 Q2 :
  ptriple st m Q1 →
  (∀ a st1, state_ok st1 → state_le type_eq st st1 → Q1 a st1 → ptriple st1 (f a) Q2) →
  ptriple st (m ≫= f) Q2.
Proof.
  intros Hm Hf. unfold ptriple, mbind, comp_mbind, comp_bind in *.
  destruct (m st) as [[[a|e] st1]| |]; simpl in *; [|done..].
  destruct Hm as (Hok & Hle & Ha). specialize (Hf a st1 Hok Hle Ha).
  destruct (f a st1) as [[r st2]| |]; simpl in *; [|done..].
  destruct Hf as (? & ? & ?). split; [done|]. split; [by etrans|done].
Qed.

Lemma ptriple_map_err {E F A} st (g : E → F) (m : comp E A) Q :
  ptriple st m Q → ptriple st (map_err g m) Q.
Proof.
  unfold ptriple, map_err. intros Hm. by destruct (m st) as [[[a|e] st1]| |].
Qed.

Lemma ptriple_mono {E A} st (m : comp E A) (Q1 Q2 : A → State → Prop) :
  ptriple st m Q1 →
  (∀ a st1, state_ok st1 → state_le type_eq st st1 → Q1 a st1 → Q2 a st1) → ptriple st m Q2.
Proof.
  unfold ptriple. intros Hm HQ. destruct (m st) as [[[a|e] st1]| |]; simpl in *; [|done..].
  destruct Hm as (? & ? & ?). auto.
Qed.

(** ** Instantiation *)

Lemma fresh_instance_ok {E} st inst lvl k :
  state_ok st →
  triple (E := E) type_eq st (fresh_instance inst lvl k)
    (λ to st', to_in (st_dims st') to ∧ instance_of k to).
Proof.
  intros Hok. destruct k as [|ex|ex]; cbn [fresh_instance]; eapply triple_bind.
  - apply triple_allocating with (P := λ id st', id < n_types (st_dims st')); [done|apply fresh_type_allocated|].
    destruct (fresh_type_allocated (table st) lvl) as (_ & Hid & Hlt). rewrite Hid. exact Hlt.
  - intros id st1 Hok1 Hle1 Hid. apply triple_ok; [done|]. by destruct inst.
  - apply triple_allocating with (P := λ id st', id < n_erows (st_dims st')); [done|apply fresh_erows_allocated|].
    destruct (fresh_erows_allocated (table st) lvl) as (_ & Hid & Hlt). rewrite Hid. exact Hlt.
  - intros id st1 Hok1 Hle1 Hid.
    eapply triple_bind with (Q1 := λ _ st', id < n_erows (st_dims st')).
    { destruct inst; [by apply triple_ok|by apply triple_insert_constr]. }
    intros _ st2 Hok2 Hle2 Hid2. apply triple_ok; [done|]. by destruct inst.
  - apply triple_allocating with (P := λ id st', id < n_rrows (st_dims st')); [done|apply fresh_rrows_allocated|].
    destruct (fresh_rrows_allocated (table st) lvl) as (_ & Hid & Hlt). rewrite Hid. exact Hlt.
  - intros id st1 Hok1 Hle1 Hid.
    eapply triple_bind with (Q1 := λ _ st', id < n_rrows (st_dims st')).
    { destruct inst; [by apply triple_ok|by apply triple_insert_constr]. }
    intros _ st2 Hok2 Hle2 Hid2. apply triple_ok; [done|]. by destruct inst.
Qed.

Lemma instantiate_loop_ok {E} n st inst lvl t :
  state_ok st → ty_in (st_dims st) t →
  ptriple (E := E) st (instantiate_loop n inst lvl t)
    (λ t' st', ty_in (st_dims st') t' ∧ ty_sub type_eq (st_binds st') t t').
Proof.
  revert st t. induction n as [|n IH]; intros st t Hok Hin; [done|]. cbn [instantiate_loop].
  assert (ty_sub type_eq (st_binds st) t t) as Hrefl by (apply ts_eq; reflexivity).
  destruct t as [typ d|c|v l]; try (by apply ptriple_ok).
  destruct typ; try (by apply ptriple_ok).
  eapply ptriple_bind; [by apply ptriple_triple, fresh_instance_ok|].
  intros to st1 Hok1 Hle1 [Hto Hinst]. eapply ptriple_mono; [apply IH; [done|]|].
  - apply subst_in; [done|]. apply (sle_ty_in type_eq st); [done|]. exact Hin.
  - intros t' st2 _ _ [? ?]. split; [done|]. eapply ts_trans; [by apply ts_forall|done].
Qed.

Lemma instantiate_foralls_ok {E} n st inst lvl t :
  state_ok st → ty_in (st_dims st) t →
  ptriple (E := E) st (instantiate_foralls n lvl t inst)
    (λ '(t', _) st', ty_in (st_dims st') t' ∧ ty_sub type_eq (st_binds st') t t').
Proof.
  intros Hok Hin. unfold instantiate_foralls.
  eapply ptriple_bind; [by apply ptriple_triple, triple_root_type|].
  intros t' ? _ _ (-> & Hin' & _ & Heq).
  eapply ptriple_bind with (Q1 := λ _ st', st' = st).
  { destruct (is_forall t'); [|by apply ptriple_ok].
    unfold ptriple, incr_level, reading. destruct (level_incr lvl); simpl; done. }
  intros lvl' ? _ _ ->. eapply ptriple_bind; [by apply instantiate_loop_ok|].
  intros t'' st1 Hok1 Hle1 [Hin1 Hsub]. apply ptriple_ok; [done|]. split; [done|].
  eapply ts_trans; [|done]. apply ts_eq. by eapply sle_ty.
Qed.

(** ** Closing the tail of a record *)

Lemma close_tail_ok {E} st id l :
  state_ok st → rr_in (st_dims st) (RUnifVar id l : RR) →
  ptriple (E := E) st (on_table (λ tb, assign_rrows tb id (rrows_concrete REmpty)))
    (λ _ st', rr_eq type_eq (st_binds st') (RUnifVar id l) (rrows_concrete REmpty)).
Proof.
  intros Hok Hin. simpl in Hin.
  destruct (lookup_lt_is_Some_2 (rrows (table st)) id) as [[[r|] lv] Hid]; [exact Hin| |].
  - unfold ptriple, on_table, rrows_concrete. cbn [assign_rrows].
    unfold slot_level. rewrite Hid. cbn [unwrap mbind outcome_bind level update_rrows_level].
    destruct (lv <=? _); cbn [mbind outcome_bind rrows with_pending_rrows];
      unfold assert_unassigned; cbn [rrows]; rewrite Hid; done.
  - apply ptriple_triple, triple_on_table; [done|]. eapply safe_mono.
    + apply assign_rrows_ok; [apply Hok|done| |done].
      by rewrite vals_lookup, Hid.
    + intros tb' (? & ? & Heq). split; [done|]. split; [done|]. apply Heq.
Qed.

(** ** [subsumed_by] *)

Definition subsume_ok n : Prop :=
  (∀ st lvl t1 t2, state_ok st → ty_in (st_dims st) t1 → ty_in (st_dims st) t2 →
     ptriple st (subsumed_type type_eq n lvl t1 t2)
       (λ _ st', ty_sub type_eq (st_binds st') t1 t2)) ∧
  (∀ st lvl r1 r2, state_ok st → rr_in (st_dims st) r1 → rr_in (st_dims st) r2 →
     ptriple st (subsumed_rrows type_eq n lvl r1 r2)
       (λ _ st', rr_sub type_eq (st_binds st') r1 r2)).

(** The loop over the rows of a record that is checked against a dictionary. *)
Lemma for_rows_fits n lvl st u typ_dict d prev (r : RR) :
  subsume_ok n → state_ok st → ty_in (st_dims st) u → rr_in (st_dims st) r →
  ptriple st
    (for_rows (λ prev_row_typ elt,
       match elt with
       | Row a =>
           _ ← map_err (inhomogeneous prev_row_typ (rrow_typ a))
                 (subsumed_type type_eq n lvl (rrow_typ a) u);
           ok (Some (rrow_typ a))
       | TailUnifVar id _ =>
           _ ← on_table (λ tb, assign_rrows tb id (rrows_concrete REmpty));
           ok prev_row_typ
       | TailConstant id => err (WithConst DRecordRows id (TConcrete typ_dict d))
       | TailDyn | TailVar _ => ok prev_row_typ
       end) prev (rrows_iter r))
    (λ _ st', rr_fits type_eq (st_binds st') r u).
Proof.
  intros [IHt _]. revert r st prev. fix IH 1. intros r st prev Hok Hu Hr.
  destruct r as [[|row tail|id|] d'|c|v l]; cbn [rrows_iter for_rows].
  - apply ptriple_ok; [done|]. apply rf_empty.
  - apply rr_in_concrete in Hr as [Hrow Htl].
    eapply ptriple_bind with (Q1 := λ _ st', ty_sub type_eq (st_binds st') (rrow_typ row) u).
    { eapply ptriple_bind; [by apply ptriple_map_err, IHt|].
      intros [] st1 Hok1 _ Hsub. by apply ptriple_ok. }
    intros prev' st1 Hok1 Hle1 Hsub. eapply ptriple_mono; [apply IH; [done|..]|].
    + by eapply sle_ty_in.
    + by eapply sle_rr_in.
    + intros [] st2 _ Hle2 Hfits. apply rf_extend; [|done]. by eapply sle_sub.
  - eapply ptriple_bind; [by apply ptriple_ok with (Q := λ _ st', st' = st)|].
    intros p ? _ _ ->. apply ptriple_ok; [done|]. apply rf_var.
  - eapply ptriple_bind; [by apply ptriple_ok with (Q := λ _ st', st' = st)|].
    intros p ? _ _ ->. apply ptriple_ok; [done|]. apply rf_dyn.
  - by apply ptriple_err.
  - eapply ptriple_bind.
    { eapply ptriple_bind; [by apply (close_tail_ok st v l)|].
      intros [] st1 Hok1 _ Heq. apply ptriple_ok with (Q := λ _ st', rr_eq type_eq (st_binds st')
        (RUnifVar v l) (rrows_concrete REmpty)); done. }
    intros p st1 Hok1 _ Heq. apply ptriple_ok; [done|]. eapply rf_eq; [exact Heq|]. apply rf_empty.
Qed.

(** Types and rows may be replaced by equal ones. *)
Lemma ptriple_sub_between {E} st (m : comp E unit) t1 t2 t1' t2' :
  ty_sub type_eq (st_binds st) t1 t1' → ty_eq type_eq (st_binds st) t2 t2' →
  ptriple st m (λ _ st', ty_sub type_eq (st_binds st') t1' t2') →
  ptriple st m (λ _ st', ty_sub type_eq (st_binds st') t1 t2).
Proof.
  intros H1 H2 Hm. eapply ptriple_mono; [exact Hm|]. intros [] st1 _ Hle Hs.
  eapply ts_trans; [by eapply sle_sub|]. eapply ts_trans; [exact Hs|].
  apply ts_eq. symmetry. by eapply sle_ty.
Qed.

Lemma unify_sub n lvl st t1 t2 :
  state_ok st → ty_in (st_dims st) t1 → ty_in (st_dims st) t2 →
  ptriple st (unify_type type_eq lvl n t2 t1) (λ _ st', ty_sub type_eq (st_binds st') t1 t2).
Proof.
  intros Hok H1 H2. eapply ptriple_mono.
  - apply ptriple_triple. by apply (proj1 (unify_is_ok type_eq lvl n)).
  - intros [] st1 _ _ Heq. apply ts_eq. by symmetry.
Qed.

Lemma subsumed_type_step n lvl st t1 t2 :
  subsume_ok n → state_ok st → ty_in (st_dims st) t1 → ty_in (st_dims st) t2 →
  ptriple st (subsumed_type type_eq (S n) lvl t1 t2)
    (λ _ st', ty_sub type_eq (st_binds st') t1 t2).
Proof.
  intros IH Hok Hin1 Hin2. cbn [subsumed_type].
  eapply ptriple_bind; [by apply instantiate_foralls_ok|].
  intros [t1' lvl'] st1 Hok1 Hle1 [Hin1' Hsub1].
  assert (ty_in (st_dims st1) t2) as Hin2' by by eapply sle_ty_in.
  eapply ptriple_bind; [by apply ptriple_triple, triple_root_type|].
  intros t2' ? _ _ (-> & Hin2'' & _ & Heq2).
  eapply ptriple_sub_between; [exact Hsub1|exact Heq2|]. destruct IH as [IHt IHr].
  assert (ptriple st1 (unify_type type_eq lvl' n t2' t1')
            (λ _ st', ty_sub type_eq (st_binds st') t1' t2')) as Hunify by by apply unify_sub.
  clear t1 t2 Hin1 Hin2 Hin2' Hsub1 Heq2.
  destruct t1' as [typ1 d1|c1|v1 l1]; [|exact Hunify..].
  destruct t2' as [typ2 d2|c2|v2 l2]; [|by destruct typ1..].
  destruct typ1; try exact Hunify; destruct typ2; try exact Hunify;
    cbn [ty_in type_children] in *.
  - eapply ptriple_mono; [by apply ptriple_map_err, IHr|].
    intros [] st2 _ _ Hs. by apply ts_record.
  - eapply ptriple_mono; [by apply for_rows_fits|].
    intros [] st2 _ _ Hs. by apply ts_record_dict.
  - eapply ptriple_mono; [by apply IHt|]. intros [] st2 _ _ Hs. by apply ts_dict.
  - eapply ptriple_mono; [by apply IHt|]. intros [] st2 _ _ Hs. by apply ts_array.
Qed.

Lemma ptriple_rsub_between {E} st (m : comp E unit) r1 r2 r1' r2' :
  rr_eq type_eq (st_binds st) r1 r1' → rr_eq type_eq (st_binds st) r2 r2' →
  ptriple st m (λ _ st', rr_sub type_eq (st_binds st') r1' r2') →
  ptriple st m (λ _ st', rr_sub type_eq (st_binds st') r1 r2).
Proof.
  intros H1 H2 Hm. eapply ptriple_mono; [exact Hm|]. intros [] st1 _ Hle Hs.
  eapply rs_trans; [apply rs_eq; by eapply sle_rr|]. eapply rs_trans; [exact Hs|].
  apply rs_eq. symmetry. by eapply sle_rr.
Qed.

Lemma ptriple_rr_eq {E} st (m : comp E unit) r1 r2 :
  triple type_eq st m (λ _ st', rr_eq type_eq (st_binds st') r1 r2) →
  ptriple st m (λ _ st', rr_sub type_eq (st_binds st') r1 r2).
Proof.
  intros Hm. eapply ptriple_mono; [by apply ptriple_triple|]. intros [] st1 _ _. apply rs_eq.
Qed.

Lemma subsumed_rrows_step n lvl st r1 r2 :
  subsume_ok n → state_ok st → rr_in (st_dims st) r1 → rr_in (st_dims st) r2 →
  ptriple st (subsumed_rrows type_eq (S n) lvl r1 r2)
    (λ _ st', rr_sub type_eq (st_binds st') r1 r2).
Proof.
  intros IH Hok Hin1 Hin2. cbn [subsumed_rrows].
  eapply ptriple_bind; [by apply ptriple_triple, triple_root_rrows|].
  intros r1' ? _ _ (-> & Hin1' & Hr1 & Heq1).
  eapply ptriple_bind; [by apply ptriple_triple, triple_root_rrows|].
  intros r2' ? _ _ (-> & Hin2' & Hr2 & Heq2).
  eapply ptriple_rsub_between; [exact Heq1|exact Heq2|].
  clear r1 r2 Hin1 Hin2 Heq1 Heq2. rename Hin1' into Hin1, Hin2' into Hin2.
  destruct (IH) as (IHt & IHr).
  destruct r1' as [s1 d1|c1|v1 l1], r2' as [s2 d2|c2|v2 l2].
  - destruct s1 as [|row1 tl1|id1|], s2 as [|row2 tl2|id2|]; try (by apply ptriple_err);
      try (apply ptriple_ok; [done|apply rs_eq, re_data]).
    apply rr_in_concrete in Hin2 as [Hrow2 Htl2].
    eapply ptriple_bind; [by apply ptriple_map_err, ptriple_triple, rrows_remove_row_ok|].
    intros [res rest] st1 Hok1 Hle1 (Hty & Hrest & Hsplit).
    assert (rr_in (st_dims st1) tl2) as Htl2' by by eapply sle_rr_in.
    destruct row2 as [id2 u2]. cbn [rrow_id rrow_typ] in *.
    eapply ptriple_bind with (Q1 := λ _ st', ∃ u, rr_eq type_eq (st_binds st')
      (RConcrete (RExtend row1 tl1) d1) (rrows_concrete (RExtend (mkRecordRow id2 u) rest)) ∧
      ty_sub type_eq (st_binds st') u u2).
    { destruct res as [u1|].
      - apply ptriple_map_err. eapply ptriple_mono; [apply IHt; [done|exact Hty|]|].
        + by eapply sle_ty_in.
        + intros [] st2 _ Hle2 Hs. exists u1. split; [by eapply sle_rr|done].
      - apply ptriple_ok; [done|]. exists u2. split; [exact Hsplit|apply ts_eq; reflexivity]. }
    intros [] st2 Hok2 Hle2 (u & Heq & Hs).
    eapply ptriple_mono; [apply IHr; [done|by eapply sle_rr_in..]|].
    intros [] st3 _ Hle3 Htl. eapply rs_trans; [apply rs_eq; by eapply sle_rr|].
    apply rs_extend; [by eapply sle_sub|done].
  - by apply ptriple_err.
  - by apply ptriple_rr_eq, triple_rr_sym, (assign_rrows_triple type_eq n st v2 l2 (RConcrete s1 d1)).
  - by apply ptriple_err.
  - case_decide; [subst|by apply ptriple_err]. apply ptriple_ok; [done|].
    apply rs_eq. reflexivity.
  - by apply ptriple_rr_eq, triple_rr_sym, (assign_rrows_triple type_eq n st v2 l2 (RConstant c1)).
  - by apply ptriple_rr_eq, (assign_rrows_triple type_eq n st v1 l1 (RConcrete s2 d2)).
  - by apply ptriple_rr_eq, (assign_rrows_triple type_eq n st v1 l1 (RConstant c2)).
  - by apply ptriple_rr_eq, (assign_rrows_triple type_eq n st v1 l1 (RUnifVar v2 l2)).
Qed.

Lemma subsumed_is_ok n : subsume_ok n.
Proof.
  induction n as [|n IH]; [by split|].
  split; intros; [by apply subsumed_type_step|by apply subsumed_rrows_step].
Qed.

(** ** Monomorphic closed types

    [mono_sub]: the subsumption rules as an algorithm on types without
    unification variables nor [forall] at the places where subsumption is
    checked. *)

(** The types that subsumption hands to [unify]. *)
Definition unified (t : Ty) : Prop :=
  match t with
  | TConcrete (Forall _ _ _ | Record _ | Dict _ _ | Array _) _ => False
  | _ => ty_scoped type_eq [] t
  end.

(** [row_in r id t rest]: the first row named [id] of [r] has type [t], and [rest]
    is [r] without it. *)
Inductive row_in : RR → Ident → Ty → RR → Prop :=
| row_here id t tail d : row_in (RConcrete (RExtend (mkRecordRow id t) tail) d) id t tail
| row_there row tail d id t rest :
    id ≠ rrow_id row → row_in tail id t rest →
    row_in (RConcrete (RExtend row tail) d) id t (rrows_concrete (RExtend row rest)).

Inductive mono_sub : Ty → Ty → Prop :=
| ms_unified t : unified t → mono_sub t t
| ms_array a1 a2 d1 d2 :
    mono_sub a1 a2 → mono_sub (TConcrete (Array a1) d1) (TConcrete (Array a2) d2)
| ms_dict a1 a2 f1 f2 d1 d2 :
    mono_sub a1 a2 → mono_sub (TConcrete (Dict a1 f1) d1) (TConcrete (Dict a2 f2) d2)
| ms_record r1 r2 d1 d2 :
    mono_rows r1 r2 → mono_sub (TConcrete (Record r1) d1) (TConcrete (Record r2) d2)
| ms_record_dict r u f d1 d2 :
    mono_fits r u → mono_sub (TConcrete (Record r) d1) (TConcrete (Dict u f) d2)
with mono_rows : RR → RR → Prop :=
| mr_empty d1 d2 : mono_rows (RConcrete REmpty d1) (RConcrete REmpty d2)
| mr_dyn d1 d2 : mono_rows (RConcrete RTailDyn d1) (RConcrete RTailDyn d2)
| mr_constant c : mono_rows (RConstant c) (RConstant c)
| mr_extend r1 id t1 rest t2 tail2 d2 :
    row_in r1 id t1 rest → mono_sub t1 t2 → mono_rows rest tail2 →
    mono_rows r1 (RConcrete (RExtend (mkRecordRow id t2) tail2) d2)
with mono_fits : RR → Ty → Prop :=
| mf_empty u d : mono_fits (RConcrete REmpty d) u
| mf_dyn u d : mono_fits (RConcrete RTailDyn d) u
| mf_extend row tail u d :
    mono_sub (rrow_typ row) u → mono_fits tail u → mono_fits (RConcrete (RExtend row tail) d) u.

Scheme mono_sub_min := Minimality for mono_sub Sort Prop
with mono_rows_min := Minimality for mono_rows Sort Prop
with mono_fits_min := Minimality for mono_fits Sort Prop.
Combined Scheme mono_min from mono_sub_min, mono_rows_min, mono_fits_min.

Lemma row_in_size r id t rest : row_in r id t rest → ty_size t + rr_size rest < rr_size r.
Proof. induction 1 as [|[]]; unfold rrows_concrete in *; simpl in *; lia. Qed.

Lemma succeeds_remove_row n lvl content r id t rest :
  row_in r id t rest → rr_size r < n →
  succeeds (rrows_remove_row n r id content lvl) (λ p, p = (Extracted _ t, rest)).
Proof.
  intros Hin. revert n. induction Hin as [id t tail d|row tail d id t rest Hne Hin IH]; intros n Hn;
    (destruct n as [|n]; [lia|]); cbn [rrows_remove_row].
  - eapply succeeds_bind; [by apply succeeds_reading|]. intros ? ->. simpl.
    rewrite decide_True by done. by apply succeeds_ok.
  - eapply succeeds_bind; [by apply succeeds_reading|]. intros ? ->. simpl.
    rewrite decide_False by done. destruct row. simpl in Hn.
    eapply succeeds_bind; [apply IH; lia|]. intros ? ->. by apply succeeds_ok.
Qed.

Lemma succeeds_instantiate {E} n lvl (t : Ty) :
  0 < n → is_forall t = false → (∀ v l, t ≠ TUnifVar v l) →
  succeeds (E := E) (instantiate_foralls n lvl t InstUnifVar) (λ p, p = (t, lvl)).
Proof.
  intros Hn Hf Hv. unfold instantiate_foralls. destruct n as [|n]; [lia|].
  eapply succeeds_bind; [apply succeeds_reading with (a := t)|].
  { intros st. destruct t; [done..|]. by destruct (Hv id init_level). }
  intros ? ->. rewrite Hf. eapply succeeds_bind; [by apply succeeds_ok with (Q := λ l, l = lvl)|].
  intros ? ->. cbn [instantiate_loop].
  eapply succeeds_bind with (P := λ t', t' = t).
  { destruct t as [[]| |]; done || by apply succeeds_ok. }
  intros ? ->. by apply succeeds_ok.
Qed.

Lemma unified_head t : unified t → is_forall t = false ∧ ∀ v l, t ≠ TUnifVar v l.
Proof. destruct t as [[]| |]; simpl; intros H; by (split; [|intros ?? ?]). Qed.

(** Computes the two heads in [subsumed_type]. *)
Ltac concrete_heads :=
  cbn [subsumed_type]; eapply succeeds_bind; [by apply succeeds_instantiate; [lia|..]|];
  intros ? ->; eapply succeeds_bind; [by apply succeeds_reading|]; intros ? ->.

Lemma unified_returns t n lvl :
  unified t → ty_size t + ty_size t < n →
  succeeds (subsumed_type type_eq n lvl t t) (λ _, True).
Proof.
  intros Hu Hn. destruct n as [|n]; [lia|]. cbn [subsumed_type].
  destruct (size_pos (Ctr := Ctr)) as (Hpos & _ & _). specialize (Hpos t).
  destruct (unified_head t Hu) as [Hf Hv].
  eapply succeeds_bind; [by apply succeeds_instantiate; [lia|..]|]. intros ? ->.
  eapply succeeds_bind; [apply succeeds_reading with (a := t)|].
  { intros st. destruct t; [done..|]. by destruct (Hv id init_level). }
  intros ? ->. assert (succeeds (unify_type type_eq lvl n t t) (λ _, True)) as Hrefl.
  { apply unify_refl_is_ok; [|lia]. by destruct t as [[]| |]. }
  destruct t as [[]| |]; try exact Hrefl; done.
Qed.

Lemma mono_returns :
  (∀ t1 t2, mono_sub t1 t2 → ∀ n lvl, ty_size t1 + ty_size t2 < n →
     succeeds (subsumed_type type_eq n lvl t1 t2) (λ _, True)) ∧
  (∀ r1 r2, mono_rows r1 r2 → ∀ n lvl, rr_size r1 + rr_size r2 < n →
     succeeds (subsumed_rrows type_eq n lvl r1 r2) (λ _, True)) ∧
  (∀ r u, mono_fits r u → ∀ n lvl typ_dict d prev, rr_size r + ty_size u < n →
     succeeds (for_rows (λ prev_row_typ elt,
       match elt with
       | Row a =>
           _ ← map_err (inhomogeneous prev_row_typ (rrow_typ a))
                 (subsumed_type type_eq n lvl (rrow_typ a) u);
           ok (Some (rrow_typ a))
       | TailUnifVar id _ =>
           _ ← on_table (λ tb, assign_rrows tb id (rrows_concrete REmpty));
           ok prev_row_typ
       | TailConstant id => err (WithConst DRecordRows id (TConcrete typ_dict d))
       | TailDyn | TailVar _ => ok prev_row_typ
       end) prev (rrows_iter r)) (λ _, True)).
Proof.
  apply mono_min.
  - intros t Hu n lvl Hn. by apply unified_returns.
  - intros a1 a2 d1 d2 _ IH [|n] lvl Hn; simpl in Hn; [lia|]. concrete_heads. apply IH. lia.
  - intros a1 a2 f1 f2 d1 d2 _ IH [|n] lvl Hn; simpl in Hn; [lia|]. concrete_heads. apply IH. lia.
  - intros r1 r2 d1 d2 _ IH [|n] lvl Hn; simpl in Hn; [lia|]. concrete_heads. apply succeeds_map_err, IH. lia.
  - intros r u f d1 d2 _ IH [|n] lvl Hn; simpl in Hn; [lia|]. concrete_heads. apply IH. lia.
  - intros d1 d2 [|n] lvl Hn; [simpl in Hn; lia|]. intros st. by eexists _, _.
  - intros d1 d2 [|n] lvl Hn; [simpl in Hn; lia|]. intros st. by eexists _, _.
  - intros c [|n] lvl Hn; [simpl in Hn; lia|]. cbn [subsumed_rrows].
    do 2 (eapply succeeds_bind; [by apply succeeds_reading|]; intros ? ->).
    rewrite decide_True by done. by apply succeeds_ok.
  - intros r1 id t1 rest t2 tail2 d2 Hin _ IHt _ IHr n lvl Hn. simpl in Hn.
    pose proof (row_in_size _ _ _ _ Hin) as Hsz.
    destruct n as [|n]; [lia|]. cbn [subsumed_rrows].
    eapply succeeds_bind; [apply succeeds_reading with (a := r1)|].
    { intros st. by destruct Hin. }
    intros ? ->. eapply succeeds_bind; [by apply succeeds_reading|]. intros ? ->.
    assert (∃ row tail d, r1 = RConcrete (RExtend row tail) d) as (row & tail & d & ->).
    { destruct Hin; eauto. }
    eapply succeeds_bind; [apply succeeds_map_err, succeeds_remove_row; [exact Hin|lia]|].
    intros ? ->. eapply succeeds_bind; [apply succeeds_map_err, IHt; simpl; lia|].
    intros _ _. apply IHr. lia.
  - intros u d n lvl typ_dict d' prev Hn. by apply succeeds_ok.
  - intros u d n lvl typ_dict d' prev Hn. by apply succeeds_ok.
  - intros [id t] tail u d _ IHt _ IHr n lvl typ_dict d' prev Hn. simpl in Hn, IHt.
    destruct (size_pos (Ctr := Ctr)) as (Hpos & Hrpos & _).
    cbn [rrows_iter for_rows]. eapply succeeds_bind with (P := λ _, True).
    { eapply succeeds_bind; [apply succeeds_map_err, IHt|].
      - specialize (Hpos t). specialize (Hrpos tail). lia.
      - intros _ _. by apply succeeds_ok. }
    intros prev' _. apply IHr. lia.
Qed.

End facts.

(** ** The properties *)





(** ** What the check of a record against a dictionary lets through *)

(** The state after [{a : Number; ?0}] was unified with [{a : Number; b : Bool}]. *)
Definition assigned_tail_state : State :=
  match unify_type unit_eq 3 10 (record (row "a" num (RUnifVar 0 3)))
          (record (row "a" num (row "b" (type_concrete Bool) (rrows_concrete REmpty))))
          (free_state 0 1 0 3) with
  | Done (_, st) => st
  | _ => free_state 0 0 0 3
  end.

(** Subsumption by a dictionary does not take the root of the tail of the
    record: when the tail is a variable that is already assigned, it is assigned
    a second time, which the debug assertion of [assign_rrows] rejects (and a
    release build performs, forgetting the first assignment). The state is
    reached by one unification and satisfies the invariant. *)
Theorem assigned_tail_is_assigned_again :
  state_ok assigned_tail_state ∧
  rr_eq unit_eq (st_binds assigned_tail_state) (RUnifVar 0 3)
    (row "b" (type_concrete Bool) (rrows_concrete REmpty)) ∧
  subsumed_type unit_eq 10 3 (record (row "a" num (RUnifVar 0 3)))
    (type_concrete (Dict num FlavourType)) assigned_tail_state = Panic.
Proof.
  split; [|split; [|by vm_compute]].
  - assert (∃ r, unify_type unit_eq 3 10 (record (row "a" num (RUnifVar 0 3)))
          (record (row "a" num (row "b" (type_concrete Bool) (rrows_concrete REmpty))))
          (free_state 0 1 0 3) = Done (r, assigned_tail_state)) as [r Hr]
      by (eexists; vm_compute; reflexivity).
    assert (triple unit_eq (free_state 0 1 0 3) (unify_type unit_eq 3 10
      (record (row "a" num (RUnifVar 0 3)))
      (record (row "a" num (row "b" (type_concrete Bool) (rrows_concrete REmpty)))))
      (λ _ st', True)) as Ht.
    { eapply triple_mono; [apply (proj1 (unify_is_ok unit_eq 3 10))|done];
        [apply free_state_ok|simpl; split; [done|lia]|done]. }
    unfold triple in Ht. rewrite Hr in Ht. apply Ht.
  - apply re_var. vm_compute. reflexivity.
Qed.

(** A record with a dynamic tail is accepted where a dictionary of numbers is
    expected, although the tail says nothing of the types of the other fields. *)
Theorem dynamic_tail_is_a_dictionary (var_level : VarLevel) (st : State) :
  subsumed_type unit_eq 3 var_level (record (row "a" num (rrows_concrete RTailDyn)))
    (type_concrete (Dict num FlavourType)) st = Done (Ok (), st).
Proof. by destruct st. Qed.
