(* ===== verification/TaskQueue.v ===== *)
(** * The task queue of the language server ([lsp/nls/src/task_queue.rs])

    The queue orders what the main loop of the server ([Server::run]) does next:
    LSP requests and document synchronisations in the order they arrive,
    diagnostics when nothing else is left, or before a request on a file whose
    diagnostics are out of date. The operations are here, with the step relation
    of the loop that interleaves them; the properties are in
    [TaskQueueTheorems]. *)
From S2P Require Import Prelude.

(** ** What the queue takes from [lsp_types], [lsp_server], [serde_json] and [url]

    The methods a value [v] of type [serde_json::Value] is asked for: [v["key"]]
    ([value_index]), [v.as_str()], [v.as_array()] and [serde_json::from_value]. *)
Class LspTypes := {
  Url : Type;
  Url_eq :: EqDecision Url;
  Url_countable :: Countable Url;
  RequestId : Type;
  RequestId_eq :: EqDecision RequestId;
  Value : Type;
  value_index : Value → string → Value;
  as_str : Value → option string;
  as_array : Value → option (list Value);
  url_from_str : string → option Url;
  DidOpenTextDocumentParams : Type;
  DidCloseTextDocumentParams : Type;
  DidChangeTextDocumentParams : Type;
  open_uri : DidOpenTextDocumentParams → Url;
  close_uri : DidCloseTextDocumentParams → Url;
  Error : Type;
  open_from_value : Value → result DidOpenTextDocumentParams Error;
  close_from_value : Value → result DidCloseTextDocumentParams Error;
  change_from_value : Value → result DidChangeTextDocumentParams Error;
  cancel_from_value : Value → result (Z + string) Error;
  id_of_number : Z → RequestId;
  id_of_string : string → RequestId;
  DidOpenTextDocument_METHOD : string;
  DidCloseTextDocument_METHOD : string;
  DidChangeTextDocument_METHOD : string;
  Cancel_METHOD : string;
  ExecuteCommand_METHOD : string;
}.

Section queue.
Context {Lsp : LspTypes}.

(** [lsp_server::Request], [Notification] and [Message]; the contents of a
    response are not looked at. *)
Record Request := mkRequest { req_id : RequestId; req_method : string; req_params : Value }.
Record Notification := mkNotification { notif_method : string; notif_params : Value }.
Inductive Message : Type :=
| MRequest (req : Request)
| MNotification (notification : Notification)
| MResponse.

Inductive Priority : Type := Normal | High.

Record DiagnosticsRequest := mkDiagnostics { uri : Url; priority : Priority }.

Inductive DocumentSync : Type :=
| Open (params : DidOpenTextDocumentParams)
| Close (params : DidCloseTextDocumentParams)
| Change (params : DidChangeTextDocumentParams).

Inductive Task : Type :=
| HandleRequest (req : Request)
| HandleDocumentSync (sync : DocumentSync)
| Diagnostics (diag : DiagnosticsRequest)
| CancelRequest (id : RequestId).

Inductive ReqOrSync : Type :=
| RRequest (req : Request)
| RDocumentSync (sync : DocumentSync)
| CanceledRequest (id : RequestId).

Record TaskQueue := mkQueue {
  request_or_sync : list ReqOrSync;
  open_files : gset Url;
  stale_diagnostics : gset Url;
}.

Definition queue_new : TaskQueue := mkQueue [] ∅ ∅.

(** ** Queueing *)

Definition push_back (it : ReqOrSync) (q : TaskQueue) : TaskQueue :=
  mkQueue (request_or_sync q ++ [it]) (open_files q) (stale_diagnostics q).

Definition add_sync_task (task : DocumentSync) (q : TaskQueue) : TaskQueue :=
  push_back (RDocumentSync task) q.

Definition add_diagnostics_task (u : Url) (q : TaskQueue) : TaskQueue :=
  mkQueue (request_or_sync q) (open_files q) ({[ u ]} ∪ stale_diagnostics q).

(** The closure of [for_each] in the handling of a cancellation. *)
Definition cancel_item (id : RequestId) (it : ReqOrSync) : ReqOrSync :=
  match it with
  | RRequest req => if decide (req_id req = id) then CanceledRequest id else it
  | _ => it
  end.

(** An error returns before the queue is modified: the queue of the result is
    the one the caller is left with. *)
Definition queue_notification (n : Notification) (q : TaskQueue) : result unit Error * TaskQueue :=
  if String.eqb (notif_method n) DidOpenTextDocument_METHOD then
    match open_from_value (notif_params n) with
    | Ok params =>
        (Ok (), add_sync_task (Open params)
                  (mkQueue (request_or_sync q) ({[ open_uri params ]} ∪ open_files q)
                     (stale_diagnostics q)))
    | Err e => (Err e, q)
    end
  else if String.eqb (notif_method n) DidCloseTextDocument_METHOD then
    match close_from_value (notif_params n) with
    | Ok params =>
        (Ok (), add_sync_task (Close params)
                  (mkQueue (request_or_sync q) (open_files q ∖ {[ close_uri params ]})
                     (stale_diagnostics q)))
    | Err e => (Err e, q)
    end
  else if String.eqb (notif_method n) DidChangeTextDocument_METHOD then
    match change_from_value (notif_params n) with
    | Ok params => (Ok (), add_sync_task (Change params) q)
    | Err e => (Err e, q)
    end
  else if String.eqb (notif_method n) Cancel_METHOD then
    match cancel_from_value (notif_params n) with
    | Ok params =>
        let id := match params with inl id => id_of_number id | inr id => id_of_string id end in
        (Ok (), mkQueue (map (cancel_item id) (request_or_sync q)) (open_files q)
                  (stale_diagnostics q))
    | Err e => (Err e, q)
    end
  else (Ok (), q).

Definition queue_message (msg : Message) (q : TaskQueue) : result unit Error * TaskQueue :=
  match msg with
  | MRequest req => (Ok (), push_back (RRequest req) q)
  | MNotification notification => queue_notification notification q
  | MResponse => (Ok (), q)
  end.

(** ** The next task *)

Definition remove_stale (u : Url) (q : TaskQueue) : TaskQueue :=
  mkQueue (request_or_sync q) (open_files q) (stale_diagnostics q ∖ {[ u ]}).

(** [order] is the order in which the [HashSet]s are iterated over by this
    call. *)
Definition next_diagnostic (order : gset Url → list Url) (q : TaskQueue)
    : option Task * TaskQueue :=
  match List.find (λ file, bool_decide (file ∈ stale_diagnostics q)) (order (open_files q)) with
  | Some u => (Some (Diagnostics (mkDiagnostics u High)), remove_stale u q)
  | None =>
      match head (order (stale_diagnostics q)) with
      | Some u => (Some (Diagnostics (mkDiagnostics u Normal)), remove_stale u q)
      | None => (None, q)
      end
  end.

Inductive RequestCategory : Type :=
| EvalCommand (u : Url)
| TextDocumentUri (u : Url)
| Other.

Definition categorize (req : Request) : RequestCategory :=
  let is_eval_command :=
    String.eqb (req_method req) ExecuteCommand_METHOD &&
    bool_decide (as_str (value_index (req_params req) "command") = Some "eval"%string) in
  if is_eval_command then
    match
      args ← as_array (value_index (req_params req) "arguments");
      arg ← head args;
      url ← as_str (value_index arg "uri");
      url_from_str url
    with
    | Some u => EvalCommand u
    | None => Other
    end
  else
    match
      u ← as_str (value_index (value_index (req_params req) "textDocument") "uri");
      url_from_str u
    with
    | Some u => TextDocumentUri u
    | None => Other
    end.

Definition next_request_or_sync (q : TaskQueue) : option Task * TaskQueue :=
  match request_or_sync q with
  | [] => (None, q)
  | it :: rest =>
      let q' := mkQueue rest (open_files q) (stale_diagnostics q) in
      match it with
      | RDocumentSync task => (Some (HandleDocumentSync task), q')
      | CanceledRequest id => (Some (CancelRequest id), q')
      | RRequest req =>
          match categorize req with
          | EvalCommand u => (Some (HandleRequest req), remove_stale u q')
          | TextDocumentUri u =>
              if decide (u ∈ stale_diagnostics q') then
                let q'' := remove_stale u q' in
                (Some (Diagnostics (mkDiagnostics u High)),
                 mkQueue (RRequest req :: request_or_sync q'') (open_files q'')
                   (stale_diagnostics q''))
              else (Some (HandleRequest req), q')
          | Other => (Some (HandleRequest req), q')
          end
      end
  end.

Definition next_task (order : gset Url → list Url) (q : TaskQueue) : option Task * TaskQueue :=
  match next_request_or_sync q with
  | (Some t, q') => (Some t, q')
  | (None, q') => next_diagnostic order q'
  end.

(** ** The main loop

    [Server::run] queues the messages it receives and takes the next task; the
    handlers of document synchronisations add diagnostics tasks. *)

(** An order in which a [HashSet] may be iterated over: each element once. *)
Definition order_ok (order : gset Url → list Url) : Prop := ∀ s, order s ≡ₚ elements s.

Inductive Event : Type :=
| Queued (msg : Message)
| StaleDiagnostics (u : Url)
| NextTask (t : Task).

Inductive step : TaskQueue → Event → TaskQueue → Prop :=
| step_message q msg : step q (Queued msg) (queue_message msg q).2
| step_stale q u : step q (StaleDiagnostics u) (add_diagnostics_task u q)
| step_task q q' order t :
    order_ok order → next_task order q = (Some t, q') → step q (NextTask t) q'.

(** Runs, the last step outermost. *)
Inductive run (q : TaskQueue) : list Event → TaskQueue → Prop :=
| run_nil : run q [] q
| run_snoc evs e q1 q2 : run q evs q1 → step q1 e q2 → run q (evs ++ [e]) q2.

(** Taking tasks until the queue is empty. *)
Fixpoint drain (order : gset Url → list Url) (n : nat) (q : TaskQueue)
    : outcome (list Task * TaskQueue) :=
  match n with
  | 0 => OutOfFuel
  | S n =>
      match next_task order q with
      | (None, q) => Done ([], q)
      | (Some t, q) => '(ts, q) ← drain order n q; Done (t :: ts, q)
      end
  end.

(** ** What a run means to the client *)

(** What a message asks the queue to hold. *)
Definition submission (msg : Message) : list ReqOrSync :=
  match msg with
  | MRequest req => [RRequest req]
  | MNotification n =>
      if String.eqb (notif_method n) DidOpenTextDocument_METHOD then
        match open_from_value (notif_params n) with
        | Ok params => [RDocumentSync (Open params)] | Err _ => [] end
      else if String.eqb (notif_method n) DidCloseTextDocument_METHOD then
        match close_from_value (notif_params n) with
        | Ok params => [RDocumentSync (Close params)] | Err _ => [] end
      else if String.eqb (notif_method n) DidChangeTextDocument_METHOD then
        match change_from_value (notif_params n) with
        | Ok params => [RDocumentSync (Change params)] | Err _ => [] end
      else []
  | MResponse => []
  end.

(** The request a message cancels. *)
Definition cancellation (msg : Message) : option RequestId :=
  match msg with
  | MNotification n =>
      if String.eqb (notif_method n) DidOpenTextDocument_METHOD then None
      else if String.eqb (notif_method n) DidCloseTextDocument_METHOD then None
      else if String.eqb (notif_method n) DidChangeTextDocument_METHOD then None
      else if String.eqb (notif_method n) Cancel_METHOD then
        match cancel_from_value (notif_params n) with
        | Ok (inl id) => Some (id_of_number id)
        | Ok (inr id) => Some (id_of_string id)
        | Err _ => None
        end
      else None
  | _ => None
  end.

(** What the queue hands back for an item of the queue. *)
Definition delivery (t : Task) : list ReqOrSync :=
  match t with
  | HandleRequest req => [RRequest req]
  | HandleDocumentSync sync => [RDocumentSync sync]
  | CancelRequest id => [CanceledRequest id]
  | Diagnostics _ => []
  end.

Definition submitted (evs : list Event) : list ReqOrSync :=
  concat (map (λ e, match e with Queued msg => submission msg | _ => [] end) evs).
Definition delivered (evs : list Event) : list ReqOrSync :=
  concat (map (λ e, match e with NextTask t => delivery t | _ => [] end) evs).
Definition cancelled (evs : list Event) (id : RequestId) : Prop :=
  ∃ msg, Queued msg ∈ evs ∧ cancellation msg = Some id.

(** What becomes of a submitted item: it is kept as it is, or, if it is a
    request the client cancels, replaced by the cancellation. *)
Definition settles (evs : list Event) (before after : ReqOrSync) : Prop :=
  after = before ∨
  ∃ req, before = RRequest req ∧ after = CanceledRequest (req_id req) ∧ cancelled evs (req_id req).

(** Whether the diagnostics of a file are out of date, as a fact about the
    history. *)
Definition stale_step (u : Url) (stale : bool) (e : Event) : bool :=
  match e with
  | StaleDiagnostics u' => if decide (u' = u) then true else stale
  | NextTask (Diagnostics d) => if decide (uri d = u) then false else stale
  | NextTask (HandleRequest req) =>
      match categorize req with
      | EvalCommand u' => if decide (u' = u) then false else stale
      | _ => stale
      end
  | _ => stale
  end.
Definition stale_after (evs : list Event) (u : Url) : bool := fold_left (stale_step u) evs false.

End queue.
