(* ===== verification/TaskQueueTheorems.v ===== *)
(** * Properties of the task queue ([lsp/nls/src/task_queue.rs])

    Every item is delivered once and in order whatever the interleaving, a
    cancelled request is not handled, a request never sees a file whose
    diagnostics are out of date, and the queue empties. The witnesses run on a
    concrete instance of the parameters, [toy]. *)
From S2P Require Import Prelude TaskQueue.

Section facts.
Context {Lsp : LspTypes}.
Implicit Types (q : TaskQueue) (u : Url) (evs : list Event).

(** ** One task at a time *)

(** The cases of [next_task]: an item leaves the queue, or a stale file does. *)
Inductive next_spec (q : TaskQueue) : Task → TaskQueue → Prop :=
| next_sync sync rest :
    request_or_sync q = RDocumentSync sync :: rest →
    next_spec q (HandleDocumentSync sync) (mkQueue rest (open_files q) (stale_diagnostics q))
| next_cancel id rest :
    request_or_sync q = CanceledRequest id :: rest →
    next_spec q (CancelRequest id) (mkQueue rest (open_files q) (stale_diagnostics q))
| next_eval req u rest :
    request_or_sync q = RRequest req :: rest → categorize req = EvalCommand u →
    next_spec q (HandleRequest req) (mkQueue rest (open_files q) (stale_diagnostics q ∖ {[ u ]}))
| next_request req rest :
    request_or_sync q = RRequest req :: rest →
    (∀ u, categorize req ≠ EvalCommand u) →
    (∀ u, categorize req = TextDocumentUri u → u ∉ stale_diagnostics q) →
    next_spec q (HandleRequest req) (mkQueue rest (open_files q) (stale_diagnostics q))
| next_before req u rest :
    request_or_sync q = RRequest req :: rest → categorize req = TextDocumentUri u →
    u ∈ stale_diagnostics q →
    next_spec q (Diagnostics (mkDiagnostics u High)) (remove_stale u q)
| next_high u :
    request_or_sync q = [] → u ∈ open_files q → u ∈ stale_diagnostics q →
    next_spec q (Diagnostics (mkDiagnostics u High)) (remove_stale u q)
| next_normal u :
    request_or_sync q = [] → u ∈ stale_diagnostics q →
    (∀ u', u' ∈ open_files q → u' ∉ stale_diagnostics q) →
    next_spec q (Diagnostics (mkDiagnostics u Normal)) (remove_stale u q).

Lemma next_request_or_sync_nil q :
  request_or_sync q = [] → next_request_or_sync q = (None, q).
Proof. unfold next_request_or_sync. by intros ->. Qed.

Lemma next_request_or_sync_spec q it rest :
  request_or_sync q = it :: rest →
  ∃ t q', next_request_or_sync q = (Some t, q') ∧ next_spec q t q'.
Proof.
  intros Hq. unfold next_request_or_sync. rewrite Hq.
  destruct it as [req|sync|id]; [|by eauto using next_sync|by eauto using next_cancel].
  destruct (categorize req) as [u|u|] eqn:Hc; simpl.
  - eexists _, _. split; [done|]. unfold remove_stale; simpl. by eapply next_eval.
  - destruct (decide (u ∈ stale_diagnostics q)) as [Hs|Hs]; simpl.
    + eexists _, _. split; [done|].
      replace (mkQueue _ _ _) with (remove_stale u q) by (unfold remove_stale; by rewrite Hq).
      by eapply next_before.
    + eexists _, _. split; [done|]. eapply next_request; [done|congruence|].
      intros ? Hc'. by replace u0 with u in * by congruence.
  - eexists _, _. split; [done|]. eapply next_request; [done|congruence|congruence].
Qed.

Lemma order_elem order (s : gset Url) u : order_ok order → u ∈ order s ↔ u ∈ s.
Proof. intros Ho. rewrite (Ho s). by rewrite elem_of_elements. Qed.

Lemma next_diagnostic_spec order q :
  order_ok order → request_or_sync q = [] →
  (∃ t q', next_diagnostic order q = (Some t, q') ∧ next_spec q t q') ∨
  (next_diagnostic order q = (None, q) ∧ stale_diagnostics q = ∅).
Proof.
  intros Ho Hq. unfold next_diagnostic.
  destruct (List.find _ _) as [u|] eqn:Hf.
  - left. apply find_some in Hf as [Hin Hs%bool_decide_eq_true].
    apply list_elem_of_In, order_elem in Hin; [|done]. eauto using next_high.
  - assert (∀ u', u' ∈ open_files q → u' ∉ stale_diagnostics q) as Hno.
    { intros u' Hu'. rewrite <- (order_elem order) in Hu' by done.
      apply list_elem_of_In in Hu'. pose proof (find_none _ _ Hf _ Hu') as Hd.
      by apply bool_decide_eq_false in Hd. }
    destruct (order (stale_diagnostics q)) as [|u us] eqn:Hs; simpl.
    + right. split; [done|]. apply set_eq. intros u. rewrite <- (order_elem order), Hs by done.
      set_solver.
    + left. eexists _, _. split; [done|]. apply next_normal; [done| |done].
      rewrite <- (order_elem order), Hs by done. set_solver.
Qed.

Lemma next_task_spec order q :
  order_ok order →
  (∃ t q', next_task order q = (Some t, q') ∧ next_spec q t q') ∨
  (next_task order q = (None, q) ∧ request_or_sync q = [] ∧ stale_diagnostics q = ∅).
Proof.
  intros Ho. unfold next_task. destruct (request_or_sync q) as [|it rest] eqn:Hq.
  - rewrite (next_request_or_sync_nil q Hq).
    destruct (next_diagnostic_spec order q Ho Hq) as [?|[-> ?]]; auto.
  - destruct (next_request_or_sync_spec q it rest Hq) as (t & q' & -> & ?). eauto.
Qed.

Lemma step_task_spec q t q' : step q (NextTask t) q' → next_spec q t q'.
Proof.
  inversion 1 as [| |? ? order ? Ho Hn]; subst.
  destruct (next_task_spec order q Ho) as [(? & ? & ? & ?)|[? _]]; simplify_eq; congruence.
Qed.

(** ** What queueing does *)

Lemma queue_message_items msg q :
  request_or_sync (queue_message msg q).2 =
    match cancellation msg with
    | Some id => map (cancel_item id) (request_or_sync q)
    | None => request_or_sync q ++ submission msg
    end ∧ stale_diagnostics (queue_message msg q).2 = stale_diagnostics q.
Proof.
  destruct msg as [req|n|]; simpl; [done| |by rewrite app_nil_r].
  unfold queue_notification.
  repeat match goal with
  | |- context [if String.eqb ?a ?b then _ else _] => destruct (String.eqb a b)
  | |- context [match ?r with Ok _ => _ | Err _ => _ end] => destruct r
  | |- context [match ?r with inl _ => _ | inr _ => _ end] => destruct r
  end; simpl; rewrite ?app_nil_r; done.
Qed.

Lemma cancellation_submission msg id : cancellation msg = Some id → submission msg = [].
Proof.
  destruct msg as [req|n|]; simpl; [done| |done].
  repeat match goal with
  | |- context [if String.eqb ?a ?b then _ else _] => destruct (String.eqb a b)
  end; try done; by destruct (cancel_from_value _) as [[]|].
Qed.

(** ** Histories *)

Lemma submitted_snoc evs e : submitted (evs ++ [e]) = submitted evs ++ submitted [e].
Proof. unfold submitted. by rewrite map_app, concat_app. Qed.

Lemma delivered_snoc evs e : delivered (evs ++ [e]) = delivered evs ++ delivered [e].
Proof. unfold delivered. by rewrite map_app, concat_app. Qed.

Lemma stale_after_snoc evs e u : stale_after (evs ++ [e]) u = stale_step u (stale_after evs u) e.
Proof. unfold stale_after. by rewrite fold_left_app. Qed.

Lemma settles_weaken evs e before after :
  settles evs before after → settles (evs ++ [e]) before after.
Proof.
  intros [->|(req & -> & -> & msg & Hin & Hc)]; [by left|]. right. exists req.
  split_and!; [done..|]. exists msg. split; [set_solver|done].
Qed.

Lemma settles_cancel evs id before after msg :
  Queued msg ∈ evs → cancellation msg = Some id →
  settles evs before after → settles evs before (cancel_item id after).
Proof.
  intros Hin Hc [->|(req & -> & -> & Hcc)]; [|by right; exists req].
  destruct before as [req|sync|id']; [|by left..]. simpl. case_decide as Hid; [|by left].
  right. exists req. rewrite Hid. split_and!; [done..|]. by exists msg.
Qed.

Lemma next_spec_items q t q' :
  next_spec q t q' → request_or_sync q = delivered [NextTask t] ++ request_or_sync q'.
Proof. intros H. unfold delivered. by inversion H; subst; simpl. Qed.

Lemma Forall2_settles_weaken evs e l k :
  Forall2 (settles evs) l k → Forall2 (settles (evs ++ [e])) l k.
Proof. intros H. eapply Forall2_impl; [done|]. eauto using settles_weaken. Qed.

Lemma run_settles evs q :
  run queue_new evs q →
  Forall2 (settles evs) (submitted evs) (delivered evs ++ request_or_sync q).
Proof.
  induction 1 as [|evs e q1 q2 Hrun IH Hstep]; [constructor|].
  rewrite submitted_snoc, delivered_snoc, <- app_assoc.
  apply (Forall2_settles_weaken _ e) in IH.
  destruct Hstep as [q msg|q u|q q' order t Ho Hn].
  - unfold submitted at 2, delivered at 2. simpl. rewrite app_nil_r.
    destruct (queue_message_items msg q) as [-> _].
    destruct (cancellation msg) as [id|] eqn:Hc.
    + rewrite (cancellation_submission _ _ Hc), app_nil_r.
      apply Forall2_app_inv_r in IH as (l1 & l2 & H1 & H2 & ->). apply Forall2_app; [done|].
      clear -H2 Hc. induction H2; simpl; constructor; [|done].
      eapply settles_cancel; [|done..]. set_solver.
    + rewrite app_assoc. apply Forall2_app; [done|].
      induction (submission msg); constructor; [by left|done].
  - unfold submitted at 2, delivered at 2. simpl. by rewrite app_nil_r.
  - assert (next_spec q t q') as Hs by (eapply step_task_spec, step_task; eauto).
    rewrite <- (next_spec_items _ _ _ Hs). unfold submitted at 2. simpl. by rewrite app_nil_r.
Qed.

Lemma run_stale evs q u :
  run queue_new evs q → u ∈ stale_diagnostics q ↔ stale_after evs u = true.
Proof.
  induction 1 as [|evs e q1 q2 Hrun IH Hstep]; [set_solver|].
  rewrite stale_after_snoc. destruct Hstep as [q msg|q u'|q q' order t Ho Hn].
  - by destruct (queue_message_items msg q) as [_ ->].
  - simpl. case_decide; set_solver.
  - assert (next_spec q t q') as Hs by (eapply step_task_spec, step_task; eauto).
    inversion Hs as [| |req u' ? ? Hc|req ? ? Hc ?|req u' ? ? Hc Hin|u' ? ? Hin|u' ? Hin]; subst;
      simpl; try done.
    + rewrite Hc. case_decide; set_solver.
    + destruct (categorize req) as [u'| |] eqn:?; [|done..]. by destruct (Hc u').
    + case_decide; set_solver.
    + case_decide; set_solver.
    + case_decide; set_solver.
Qed.

Lemma run_inv q evs e q' :
  run q (evs ++ [e]) q' → ∃ q1, run q evs q1 ∧ step q1 e q'.
Proof.
  inversion 1 as [Heq|? ? q1 ? Hr Hs Heq]; [by destruct evs|].
  apply app_inj_tail in Heq as [-> ->]. by exists q1.
Qed.

(** ** Cancelled requests *)

Definition not_request (id : RequestId) (it : ReqOrSync) : Prop :=
  ∀ req, it = RRequest req → req_id req ≠ id.

Lemma cancel_item_not id it : not_request id (cancel_item id it).
Proof. destruct it as [req| |]; intros ?; simpl; try done. case_decide; congruence. Qed.

Lemma cancel_item_keeps id id' it : not_request id it → not_request id (cancel_item id' it).
Proof. destruct it as [req| |]; simpl; [case_decide; [by intros _ ?|]|..]; done. Qed.

Lemma run_cancelled id q evs q' :
  run q evs q' → List.Forall (not_request id) (request_or_sync q) →
  List.Forall (not_request id) (submitted evs) →
  List.Forall (not_request id) (delivered evs ++ request_or_sync q').
Proof.
  induction 1 as [|evs e q1 q2 Hrun IH Hstep]; [done|].
  intros Hq. rewrite submitted_snoc, delivered_snoc, <- app_assoc, List.Forall_app.
  intros [Hs He]. specialize (IH Hq Hs). rewrite List.Forall_app in IH |- *.
  destruct IH as [Hd Hi]. split; [done|].
  destruct Hstep as [q1 msg|q1 u|q1 q' order t Ho Hn].
  - unfold delivered, submitted in *. simpl in *. rewrite app_nil_r in He.
    destruct (queue_message_items msg q1) as [-> _]. destruct (cancellation msg).
    + apply List.Forall_map. eapply List.Forall_impl; [|done]. eauto using cancel_item_keeps.
    + by apply List.Forall_app.
  - done.
  - rewrite <- (next_spec_items q1 t q'); [done|]. eapply step_task_spec, step_task; eauto.
Qed.

(** ** Emptying the queue *)

Definition pending q : nat := length (request_or_sync q) + size (stale_diagnostics q).

Lemma size_remove (s : gset Url) u : u ∈ s → size (s ∖ {[ u ]}) < size s.
Proof.
  intros Hu. rewrite size_difference by set_solver. rewrite size_singleton.
  assert (size s ≠ 0) by (intros ?%size_empty_inv; set_solver). lia.
Qed.

Lemma next_spec_pending q t q' : next_spec q t q' → pending q' < pending q.
Proof.
  unfold pending.
  inversion 1 as [? ? Hq|? ? Hq|? u ? Hq|? ? Hq|? u ? Hq ? Hin|u Hq ? Hin|u Hq Hin]; subst;
    simpl; rewrite Hq; simpl; try lia; try by pose proof (size_remove _ _ Hin); lia.
  pose proof (subseteq_size (stale_diagnostics q ∖ {[u]}) (stale_diagnostics q)). set_solver by lia.
Qed.

Lemma drain_ok order q0 evs n q :
  order_ok order → run q0 evs q → pending q < n →
  ∃ ts q', drain order n q = Done (ts, q') ∧ length ts ≤ pending q ∧
           request_or_sync q' = [] ∧ stale_diagnostics q' = ∅ ∧
           run q0 (evs ++ map NextTask ts) q'.
Proof.
  intros Ho. revert evs q. induction n as [|n IH]; intros evs q Hrun Hn; [lia|]. simpl.
  destruct (next_task_spec order q Ho) as [(t & q' & Hnext & Hs)|(-> & Hi & Hst)].
  - rewrite Hnext. pose proof (next_spec_pending _ _ _ Hs) as Hlt.
    destruct (IH (evs ++ [NextTask t]) q') as (ts & q'' & -> & Hl & Hi & Hst & Hrun'); [|lia|].
    { eapply run_snoc; [done|]. by eapply step_task. }
    exists (t :: ts), q''. rewrite <- app_assoc in Hrun'. simpl.
    split_and!; [done|lia|done..].
  - exists [], q. rewrite app_nil_r. split_and!; [done|simpl; lia|done..].
Qed.

End facts.

(** ** A concrete instance, for the witnesses *)

Inductive Json : Type := JNull | JInt (n : Z) | JString (s : string) | JArray (l : list Json)
| JObject (fields : list (string * Json)).

Definition json_index (v : Json) (key : string) : Json :=
  match v with
  | JObject fields =>
      match List.find (λ kv, String.eqb kv.1 key) fields with Some kv => kv.2 | None => JNull end
  | _ => JNull
  end.

Definition json_str (v : Json) : option string :=
  match v with JString s => Some s | _ => None end.

Definition json_document (v : Json) : result string unit :=
  match json_str (json_index (json_index v "textDocument") "uri") with
  | Some u => Ok u
  | None => Err ()
  end.

Definition toy : LspTypes := {|
  Url := string;
  RequestId := Z + string;
  Value := Json;
  value_index := json_index;
  as_str := json_str;
  as_array v := match v with JArray l => Some l | _ => None end;
  url_from_str s := Some s;
  DidOpenTextDocumentParams := string;
  DidCloseTextDocumentParams := string;
  DidChangeTextDocumentParams := string;
  open_uri u := u;
  close_uri u := u;
  Error := unit;
  open_from_value := json_document;
  close_from_value := json_document;
  change_from_value := json_document;
  cancel_from_value v :=
    match json_index v "id" with
    | JInt n => Ok (inl n) | JString s => Ok (inr s) | _ => Err () end;
  id_of_number := inl;
  id_of_string := inr;
  DidOpenTextDocument_METHOD := "textDocument/didOpen";
  DidCloseTextDocument_METHOD := "textDocument/didClose";
  DidChangeTextDocument_METHOD := "textDocument/didChange";
  Cancel_METHOD := "$/cancelRequest";
  ExecuteCommand_METHOD := "workspace/executeCommand";
|}.

#[local] Existing Instance toy.

Definition toy_doc (u : string) : Json :=
  JObject [("textDocument", JObject [("uri", JString u)])]%string.
Definition toy_goto (id : Z) (u : string) : Request :=
  mkRequest (inl id) "textDocument/definition" (toy_doc u).
Definition toy_eval (id : Z) (u : string) : Request :=
  mkRequest (inl id) "workspace/executeCommand"
    (JObject [("command", JString "eval");
              ("arguments", JArray [JObject [("uri", JString u)]])])%string.
Definition toy_open (u : string) : Message :=
  MNotification (mkNotification "textDocument/didOpen" (toy_doc u)).
Definition toy_cancel (id : Z) : Message :=
  MNotification (mkNotification "$/cancelRequest" (JObject [("id", JInt id)]))%string.

Definition toy_order (s : gset Url) : list Url := elements s.
Lemma toy_order_ok : order_ok toy_order.
Proof. intros s. reflexivity. Defined.

(** Plays the inputs of the loop; a task is taken when there is one. *)
Inductive Input {Lsp : LspTypes} : Type := IMessage (msg : Message) | IStale (u : Url) | INext.

Definition play_one {Lsp : LspTypes} order (i : Input) (evs_q : list Event * TaskQueue)
    : list Event * TaskQueue :=
  let '(evs, q) := evs_q in
  match i with
  | IMessage msg => (evs ++ [Queued msg], (queue_message msg q).2)
  | IStale u => (evs ++ [StaleDiagnostics u], add_diagnostics_task u q)
  | INext =>
      match next_task order q with
      | (Some t, q') => (evs ++ [NextTask t], q')
      | (None, _) => (evs, q)
      end
  end.

Definition play {Lsp : LspTypes} order (ins : list Input) (q : TaskQueue) : list Event * TaskQueue :=
  fold_left (λ s i, play_one order i s) ins ([], q).

Lemma play_run {Lsp : LspTypes} order ins q :
  order_ok order → run q (play order ins q).1 (play order ins q).2.
Proof.
  intros Ho. unfold play.
  cut (∀ s : list Event * TaskQueue, run q s.1 s.2 →
         run q (fold_left (λ s i, play_one order i s) ins s).1
               (fold_left (λ s i, play_one order i s) ins s).2).
  { intros Hs. apply Hs. apply run_nil. }
  induction ins as [|i ins IH]; intros [evs q1] H; [done|]. simpl. apply IH.
  destruct i as [msg|u|]; simpl.
  - eapply run_snoc, step_message. done.
  - eapply run_snoc, step_stale. done.
  - destruct (next_task order q1) as [[t|] q2] eqn:Hn; [|done].
    eapply run_snoc; [done|]. by eapply step_task.
Qed.

(** ** The properties *)

Section theorems.
Context {Lsp : LspTypes}.


(** A request is handled only when the diagnostics of the file it is about
    are up to date, that is, when every notice that they are out of date was
    followed by a run of the diagnostics or an evaluation of the file; and
    diagnostics are run only on files whose diagnostics are out of date. *)
Theorem requests_see_fresh_files (evs : list Event) (t : Task) (q : TaskQueue) :
  run queue_new (evs ++ [NextTask t]) q →
  match t with
  | HandleRequest req => ∀ u, categorize req = TextDocumentUri u → stale_after evs u = false
  | Diagnostics d => stale_after evs (uri d) = true
  | _ => True
  end.
Proof.
  intros (q1 & Hr & Hs%step_task_spec)%run_inv.
  pose proof (run_stale evs q1) as Hst.
  inversion Hs as [| | |req ? ? ? Hf| | |]; subst; try done.
  - congruence.
  - intros u Hu. apply not_true_iff_false. rewrite <- (Hst u) by done. auto.
  - by apply Hst.
  - by apply Hst.
  - by apply Hst.
Qed.

(** After the client cancels a request, it is not handled any more, whatever
    happens next, as long as the client does not send another request with the
    same id. *)
Theorem cancelled_is_not_handled (q q' : TaskQueue) (msg : Message) (id : RequestId)
    (evs : list Event) (req : Request) :
  cancellation msg = Some id →
  run (queue_message msg q).2 evs q' →
  (∀ r, RRequest r ∈ submitted evs → req_id r ≠ id) →
  NextTask (HandleRequest req) ∈ evs → req_id req ≠ id.
Proof.
  intros Hc Hrun Hsub Hin.
  assert (List.Forall (not_request id) (delivered evs ++ request_or_sync q')) as Hall.
  { apply (run_cancelled id _ _ _ Hrun).
    - destruct (queue_message_items msg q) as [-> _]. rewrite Hc.
      apply List.Forall_map, List.Forall_forall. intros it _. apply cancel_item_not.
    - apply List.Forall_forall. intros it Hit r ->. apply Hsub. by apply list_elem_of_In. }
  apply List.Forall_app in Hall as [Hall _]. rewrite List.Forall_forall in Hall.
  refine (Hall (RRequest req) _ req eq_refl). unfold delivered. apply in_concat.
  exists [RRequest req]. split; [|by left]. apply in_map_iff.
  exists (NextTask (HandleRequest req)). split; [done|]. by apply list_elem_of_In.
Qed.

(** Taking tasks from any queue empties it, in at most as many tasks as there
    are items and out of date files, and these tasks are a run of the queue. *)
Theorem drain_terminates (order : gset Url → list Url) (q : TaskQueue) :
  order_ok order →
  ∃ ts q', drain order (S (pending q)) q = Done (ts, q') ∧ length ts ≤ pending q ∧
           request_or_sync q' = [] ∧ stale_diagnostics q' = ∅ ∧ run q (map NextTask ts) q'.
Proof.
  intros Ho. apply (drain_ok order q [] (S (pending q)) q Ho); [constructor|lia].
Qed.

(** Diagnostics wait for the items of the queue, except when the first item
    is a request about the file; and then open files come first: the diagnostics
    of a file that is not open have normal priority and run only when no open
    file is out of date. *)
Theorem diagnostics_priority (order : gset Url → list Url) (q q' : TaskQueue) (u : Url)
    (p : Priority) :
  order_ok order → next_task order q = (Some (Diagnostics (mkDiagnostics u p)), q') →
  u ∈ stale_diagnostics q ∧ q' = remove_stale u q ∧
  match request_or_sync q with
  | [] => if decide (u ∈ open_files q) then p = High
          else p = Normal ∧ open_files q ∩ stale_diagnostics q = ∅
  | RRequest req :: _ => categorize req = TextDocumentUri u ∧ p = High
  | _ => False
  end.
Proof.
  intros Ho Hn.
  assert (next_spec q (Diagnostics (mkDiagnostics u p)) q') as Hs
    by (eapply step_task_spec, step_task; eauto).
  inversion Hs as [| | | |? ? ? Hq|? Hq ? ?|? Hq ? Hno]; subst; rewrite Hq.
  - done.
  - by rewrite decide_True.
  - split_and!; [done..|]. case_decide as Hu; [by apply Hno in Hu|]. split; [done|].
    set_solver.
Qed.

End theorems.

(** ** Witnesses

    Two definitions are asked for in an open file whose diagnostics are out of
    date, and the first is cancelled. *)

(** A computation, checked without reading its normal form back. *)
Ltac by_vm := match goal with |- ?a = ?b => exact (@eq_refl _ b <: a = b) end.

Definition toy_inputs : list Input :=
  [IMessage (toy_open "a.ncl"); INext; IStale ("a.ncl" : Url);
   IMessage (MRequest (toy_goto 1 "a.ncl")); IMessage (MRequest (toy_goto 2 "a.ncl"));
   IMessage (toy_cancel 1); INext; INext]%string.

(** The state before the last task: the second request is next. *)
Definition toy_evs : list Event := (play toy_order toy_inputs queue_new).1.
Definition toy_queue : TaskQueue := (play toy_order toy_inputs queue_new).2.

Example toy_delivered :
  delivered toy_evs = [RDocumentSync (Open ("a.ncl"%string : DidOpenTextDocumentParams));
                       CanceledRequest (inl 1%Z : RequestId)] ∧
  request_or_sync toy_queue = [RRequest (toy_goto 2 "a.ncl")] ∧
  stale_diagnostics toy_queue = ∅.
Proof. split_and!; by_vm. Qed.


Lemma requests_see_fresh_files_witness :
  categorize (toy_goto 2 "a.ncl") = TextDocumentUri ("a.ncl"%string : Url) ∧
  stale_after toy_evs ("a.ncl"%string : Url) = false.
Proof.
  split; [reflexivity|].
  refine (requests_see_fresh_files toy_evs (HandleRequest (toy_goto 2 "a.ncl")) _ _ _ eq_refl).
  eapply run_snoc; [apply play_run, toy_order_ok|].
  eapply (step_task (Lsp := toy) _ _ toy_order); [apply toy_order_ok|vm_compute; reflexivity].
Defined.

(** Handling the rest of the queue after the cancellation. *)
Lemma cancelled_is_not_handled_witness :
  let q := (play toy_order [IMessage (MRequest (toy_goto 1 "a.ncl"));
                            IMessage (MRequest (toy_goto 2 "a.ncl"))] queue_new).2 in
  let evs := (play toy_order [INext; INext] (queue_message (toy_cancel 1) q).2).1 in
  NextTask (HandleRequest (toy_goto 2 "a.ncl")) ∈ evs ∧ (inl 2%Z : RequestId) ≠ inl 1%Z.
Proof.
  intros q evs.
  assert (NextTask (HandleRequest (toy_goto 2 "a.ncl")) ∈ evs) as Hin by (vm_compute; set_solver).
  split; [done|].
  refine (cancelled_is_not_handled q _ (toy_cancel 1) _ evs (toy_goto 2 "a.ncl") _ _ _ Hin).
  - reflexivity.
  - apply play_run, toy_order_ok.
  - vm_compute. set_solver.
Defined.

Lemma drain_terminates_witness :
  ∃ ts q', drain toy_order (S (pending toy_queue)) toy_queue = Done (ts, q') ∧
           length ts ≤ pending toy_queue ∧ request_or_sync q' = [].
Proof.
  destruct (drain_terminates toy_order toy_queue toy_order_ok) as (ts & q' & H & Hl & Hi & _).
  exists ts, q'. exact (conj H (conj Hl Hi)).
Defined.

(** Of two out of date files, the open one comes first. *)
Lemma diagnostics_priority_witness :
  let q := mkQueue [] {[ "b.ncl" : Url ]} {[ "a.ncl" : Url; "b.ncl" : Url ]}%string in
  next_task toy_order q = (Some (Diagnostics (mkDiagnostics ("b.ncl"%string : Url) High)),
                           remove_stale ("b.ncl"%string : Url) q) ∧
  ("b.ncl"%string : Url) ∈ stale_diagnostics q.
Proof.
  intros q. split; [by_vm|].
  refine (proj1 (diagnostics_priority toy_order q (remove_stale ("b.ncl"%string : Url) q) _ High toy_order_ok _)).
  by_vm.
Defined.
