(* ===== verification/IndexMap.v ===== *)
(** * Index maps

    Records keep their fields in an [IndexMap] of the third-party crate
    [indexmap]: a map that iterates in a definite order. What a program sees of
    an index map is the list of its entries in iteration order, with distinct
    keys; that list is the data here ([IndexMap K V]). The operations that the
    code calls on it are a class, whose laws are the documented behaviour:
    [get] finds the entry of a key; [insert] replaces the value of a present key
    in place and appends the entry of an absent one; [swap_remove] takes the
    entry out and may move another one to its place. [assoc_index_map] is an
    instance, which the examples run with. *)
From S2P Require Import Prelude.

Definition IndexMap (K V : Type) : Type := list (K * V).

(** [keys], [values]: in iteration order. *)
Definition keys {K V} (m : IndexMap K V) : list K := m.*1.
Definition values {K V} (m : IndexMap K V) : list V := m.*2.

(** The invariant of an index map: one entry per key. *)
Definition im_ok {K V} (m : IndexMap K V) : Prop := NoDup (keys m).

Class IndexMapOps (K : Type) : Type := {
  im_get {V} : IndexMap K V → K → option V;
  im_insert {V} : IndexMap K V → K → V → IndexMap K V;
  im_swap_remove {V} : IndexMap K V → K → option (V * IndexMap K V);
}.

Class IndexMapLaws (K : Type) `{IndexMapOps K} : Prop := {
  im_get_elem {V} (m : IndexMap K V) k v :
    im_ok m → im_get m k = Some v ↔ (k, v) ∈ m;
  im_get_in {V} (m : IndexMap K V) k v : im_get m k = Some v → (k, v) ∈ m;
  im_insert_in {V} (m : IndexMap K V) k v p :
    p ∈ im_insert m k v → p = (k, v) ∨ p ∈ m;
  im_insert_new {V} (m : IndexMap K V) k v :
    k ∉ keys m → im_insert m k v = m ++ [(k, v)];
  im_insert_old {V} (m1 m2 : IndexMap K V) k v v' :
    im_ok (m1 ++ (k, v) :: m2) →
    im_insert (m1 ++ (k, v) :: m2) k v' = m1 ++ (k, v') :: m2;
  im_swap_remove_some {V} (m : IndexMap K V) k v m' :
    im_ok m → im_swap_remove m k = Some (v, m') → m ≡ₚ (k, v) :: m';
  im_swap_remove_none {V} (m : IndexMap K V) k :
    im_swap_remove m k = None ↔ k ∉ keys m;
}.

Section index_map.
Context `{IndexMapOps K}.

(** [extend], [collect]: insertions in order. *)
Definition im_extend {V} (m : IndexMap K V) (items : list (K * V)) : IndexMap K V :=
  foldl (λ m p, im_insert m p.1 p.2) m items.

Definition im_contains_key {V} (m : IndexMap K V) (k : K) : bool :=
  match im_get m k with Some _ => true | None => false end.

End index_map.

(** ** Facts *)

Lemma keys_app {K V} (m1 m2 : IndexMap K V) : keys (m1 ++ m2) = keys m1 ++ keys m2.
Proof. apply fmap_app. Qed.

Lemma elem_of_keys {K V} (m : IndexMap K V) k : k ∈ keys m ↔ ∃ v, (k, v) ∈ m.
Proof.
  unfold keys. rewrite list_elem_of_fmap. split.
  - intros ([k' v] & -> & Hin). eauto.
  - intros [v Hin]. by exists (k, v).
Qed.

Lemma im_ok_functional {K V} (m : IndexMap K V) k v v' :
  im_ok m → (k, v) ∈ m → (k, v') ∈ m → v = v'.
Proof.
  unfold im_ok, keys. induction m as [|[k0 v0] m IH]; simpl; [by rewrite elem_of_nil|].
  rewrite NoDup_cons, !elem_of_cons. intros [Hnin Hnd] [Heq|Hin] [Heq'|Hin'].
  - congruence.
  - simplify_eq. destruct Hnin. apply (list_elem_of_fmap_2 fst m _ Hin').
  - simplify_eq. destruct Hnin. apply (list_elem_of_fmap_2 fst m _ Hin).
  - auto.
Qed.

Section laws.
Context `{IndexMapLaws K}.
Context {V : Type}.
Implicit Types (m : IndexMap K V).

Lemma im_extend_in m items p : p ∈ im_extend m items → p ∈ items ∨ p ∈ m.
Proof.
  unfold im_extend. revert m. induction items as [|[k v] items IH]; simpl; intros m; [auto|].
  intros [Hin|Hin]%IH; [left; by right|].
  apply im_insert_in in Hin as [->|Hin]; [left; left|by right].
Qed.

Lemma im_get_none m k : im_ok m → im_get m k = None ↔ k ∉ keys m.
Proof.
  intros Hok. rewrite elem_of_keys. split.
  - intros Hg (v & Hin). apply im_get_elem in Hin; [congruence|done].
  - intros Hn. destruct (im_get m k) eqn:Hg; [|done].
    destruct Hn. exists v. by apply im_get_elem.
Qed.

Lemma im_get_some_key m k v : im_ok m → im_get m k = Some v → k ∈ keys m.
Proof. intros Hok Hg. apply elem_of_keys. exists v. by apply im_get_elem. Qed.

Lemma im_extend_disjoint m items :
  NoDup (keys items) → (∀ k, k ∈ keys items → k ∉ keys m) →
  im_extend m items = m ++ items.
Proof.
  unfold im_extend. revert m. induction items as [|[k v] items IH]; intros m Hnd Hdis; simpl.
  - by rewrite app_nil_r.
  - apply NoDup_cons in Hnd as [Hk Hnd].
    rewrite im_insert_new by (apply Hdis; simpl; left).
    rewrite IH; [by rewrite <- app_assoc| done |].
    intros k' Hk'. rewrite keys_app, not_elem_of_app. split.
    + apply Hdis. by right.
    + simpl. rewrite list_elem_of_singleton. intros ->. done.
Qed.

Lemma im_extend_collect (items : IndexMap K V) :
  NoDup (keys items) → im_extend [] items = items.
Proof. intros. apply im_extend_disjoint; [done|]. intros ? _. apply not_elem_of_nil. Qed.

(** [insert] as an update: the entry of the key, and of the others. *)
Lemma im_insert_get m k v :
  im_ok m → im_ok (im_insert m k v) ∧ im_get (im_insert m k v) k = Some v
            ∧ ∀ k', k' ≠ k → im_get (im_insert m k v) k' = im_get m k'.
Proof.
  intros Hok. assert (Hcase : ∃ m', im_insert m k v = m' ∧ im_ok m' ∧ (k, v) ∈ m'
    ∧ ∀ k' v', k' ≠ k → (k', v') ∈ m' ↔ (k', v') ∈ m).
  { eexists. split; [done|]. destruct (im_get m k) as [v0|] eqn:Hk.
    - apply im_get_in, list_elem_of_split in Hk as (m1 & m2 & ->).
      rewrite im_insert_old by done. split_and!.
      + unfold im_ok in *. by rewrite keys_app in *.
      + apply elem_of_app. right. left.
      + intros k' v' Hne. rewrite !elem_of_app, !elem_of_cons. naive_solver.
    - apply im_get_none in Hk; [|done]. rewrite im_insert_new by done. split_and!.
      + unfold im_ok in *. rewrite keys_app. simpl.
        apply NoDup_app. split_and!; [done|set_solver|apply NoDup_singleton].
      + apply elem_of_app. right. left.
      + intros k' v' Hne. rewrite elem_of_app, list_elem_of_singleton. naive_solver. }
  destruct Hcase as (m' & -> & Hok' & Hin & Hother). split_and!; [done|by apply im_get_elem|].
  intros k' Hne. destruct (im_get m k') as [v'|] eqn:Hg.
  - apply im_get_elem, Hother; [done..|]. by apply im_get_elem.
  - apply im_get_none; [done|]. apply im_get_none in Hg; [|done].
    rewrite elem_of_keys in *. intros [v' Hv']. apply Hg. exists v'. by apply Hother.
Qed.

Lemma im_extend_ok m items : im_ok m → im_ok (im_extend m items).
Proof.
  unfold im_extend. revert m. induction items as [|[k v] items IH]; intros m Hok; [done|].
  simpl. by apply IH, im_insert_get.
Qed.

(** The last item of a key wins. *)
Lemma im_extend_get m items k v :
  im_ok m → NoDup (keys items) →
  ((k, v) ∈ items → im_get (im_extend m items) k = Some v)
  ∧ (k ∉ keys items → im_get (im_extend m items) k = im_get m k).
Proof.
  unfold im_extend. revert m. induction items as [|[k0 v0] items IH]; simpl; intros m Hok Hnd.
  { split; [by intros ?%elem_of_nil|done]. }
  apply NoDup_cons in Hnd as [Hk0 Hnd].
  destruct (im_insert_get m k0 v0 Hok) as (Hok' & Hget & Hother).
  destruct (IH _ Hok' Hnd) as (Hin & Hnot). split.
  - intros [[= -> ->]|Hi]%elem_of_cons; [by rewrite Hnot|auto].
  - rewrite not_elem_of_cons. intros [Hne Hni]. rewrite Hnot by done. auto.
Qed.

Lemma im_swap_remove_get m k v m' :
  im_ok m → im_swap_remove m k = Some (v, m') → im_get m k = Some v ∧ im_ok m' ∧ k ∉ keys m'.
Proof.
  intros Hok Hs. apply im_swap_remove_some in Hs as Hp; [|done].
  assert (Hk : keys m ≡ₚ k :: keys m').
  { unfold keys. rewrite Hp. done. }
  unfold im_ok in Hok. rewrite Hk in Hok. apply NoDup_cons in Hok as [Hn Hnd].
  repeat split; [|done|done]. apply im_get_elem; [unfold im_ok; rewrite Hk; by constructor|].
  rewrite Hp. left.
Qed.

End laws.

(** ** An instance *)

Section assoc.
Context `{EqDecision K}.

Fixpoint assoc_get {V} (m : IndexMap K V) (k : K) : option V :=
  match m with
  | [] => None
  | (k', v) :: m' => if decide (k = k') then Some v else assoc_get m' k
  end.

Fixpoint assoc_insert {V} (m : IndexMap K V) (k : K) (v : V) : IndexMap K V :=
  match m with
  | [] => [(k, v)]
  | (k', v') :: m' =>
      if decide (k = k') then (k', v) :: m' else (k', v') :: assoc_insert m' k v
  end.

(** The last entry takes the place of the removed one. *)
Fixpoint assoc_swap_remove {V} (m : IndexMap K V) (k : K) : option (V * IndexMap K V) :=
  match m with
  | [] => None
  | (k', v) :: m' =>
      if decide (k = k') then
        Some (v, match last m' with Some e => e :: removelast m' | None => [] end)
      else
        match assoc_swap_remove m' k with
        | Some (w, m'') => Some (w, (k', v) :: m'')
        | None => None
        end
  end.

#[export] Instance assoc_index_map : IndexMapOps K :=
  { im_get := @assoc_get; im_insert := @assoc_insert; im_swap_remove := @assoc_swap_remove }.

Lemma assoc_get_elem {V} (m : IndexMap K V) k v :
  im_ok m → assoc_get m k = Some v ↔ (k, v) ∈ m.
Proof.
  unfold im_ok, keys. induction m as [|[k' v'] m IH]; simpl.
  { intros _. rewrite elem_of_nil. naive_solver. }
  rewrite NoDup_cons, elem_of_cons. intros [Hn Hnd]. case_decide as Hd; subst.
  - split; [naive_solver|]. intros [?|Hin]; [congruence|].
    destruct Hn. apply (list_elem_of_fmap_2 fst m _ Hin).
  - rewrite IH by done. naive_solver.
Qed.

Lemma assoc_get_in {V} (m : IndexMap K V) k v : assoc_get m k = Some v → (k, v) ∈ m.
Proof.
  induction m as [|[k' v'] m IH]; simpl; [done|]. case_decide; subst.
  - intros [= ->]. left.
  - intros Hg. right. auto.
Qed.

Lemma assoc_insert_in {V} (m : IndexMap K V) k v p :
  p ∈ assoc_insert m k v → p = (k, v) ∨ p ∈ m.
Proof.
  induction m as [|[k' v'] m IH]; simpl; [set_solver|].
  case_decide; subst; rewrite !elem_of_cons; naive_solver.
Qed.

Lemma assoc_insert_new {V} (m : IndexMap K V) k v :
  k ∉ keys m → assoc_insert m k v = m ++ [(k, v)].
Proof.
  induction m as [|[k' v'] m IH]; simpl; [done|].
  rewrite not_elem_of_cons. intros [Hk Hn]. rewrite decide_False by done. by rewrite IH.
Qed.

Lemma assoc_insert_old {V} (m1 m2 : IndexMap K V) k v v' :
  im_ok (m1 ++ (k, v) :: m2) →
  assoc_insert (m1 ++ (k, v) :: m2) k v' = m1 ++ (k, v') :: m2.
Proof.
  unfold im_ok, keys. induction m1 as [|[k1 v1] m1 IH]; simpl; intros Hnd.
  - by rewrite decide_True.
  - apply NoDup_cons in Hnd as [Hn Hnd]. rewrite decide_False.
    + by rewrite IH.
    + intros ->. apply Hn. rewrite fmap_app. simpl. set_solver.
Qed.

Lemma assoc_swap_remove_some {V} (m : IndexMap K V) k v m' :
  assoc_swap_remove m k = Some (v, m') → m ≡ₚ (k, v) :: m'.
Proof.
  revert m'. induction m as [|[k' v'] m IH]; simpl; intros m'; [done|].
  case_decide; subst.
  - intros [= -> <-]. constructor. destruct (last m) as [e|] eqn:Hl.
    + apply last_Some in Hl as [l ->]. rewrite removelast_last.
      by rewrite Permutation_app_comm.
    + apply last_None in Hl as ->. done.
  - destruct (assoc_swap_remove m k) as [[w m'']|]; [|done].
    intros [= -> <-]. rewrite IH by done. apply Permutation_swap.
Qed.

Lemma assoc_swap_remove_none {V} (m : IndexMap K V) k :
  assoc_swap_remove m k = None ↔ k ∉ keys m.
Proof.
  induction m as [|[k' v'] m IH]; simpl; [split; [intros _; apply not_elem_of_nil|done]|].
  rewrite not_elem_of_cons. case_decide; subst; [naive_solver|].
  destruct (assoc_swap_remove m k) as [[w m'']|]; naive_solver.
Qed.

#[export] Instance assoc_index_map_laws : IndexMapLaws K.
Proof.
  split; intros; simpl.
  - by apply assoc_get_elem.
  - by apply assoc_get_in.
  - by apply assoc_insert_in.
  - by apply assoc_insert_new.
  - by apply assoc_insert_old.
  - by apply assoc_swap_remove_some.
  - apply assoc_swap_remove_none.
Qed.

End assoc.
