(* ===== verification/Values.v ===== *)
(** * Runtime values ([core/src/eval/value/mod.rs], [core/src/term/mod.rs],
    [core/src/term/record.rs], [core/src/label.rs])

    The expressions the abstract machine evaluates. A value is what a
    [NickelValue] points to ([ValueContentRef]); an unevaluated term is one of
    its cases, and a thunk is a pointer into the store of [LazyCache.v], so that
    the data type of values is a tree and the sharing is in the store. Source
    positions are left out everywhere; [Rc] and [Box] are transparent. Payloads
    that the evaluator only carries around (a parse error, a serialization
    error) are tokens. *)
From S2P Require Import Prelude IndexMap.
From Stdlib Require Import QArith.Qcanon.

(** ** Identifiers, operators and other scalar data *)

(** [Ident] is an interned string. The symbols of user-written names are one to
    one with their text; a generated name is a symbol apart. *)
Record Ident : Type := mkIdent { label : string; is_generated : bool }.

#[export] Instance Ident_eq_dec : EqDecision Ident.
Proof. solve_decision. Defined.
#[export] Instance Ident_countable : Countable Ident.
Proof.
  apply (inj_countable' (λ i, (label i, is_generated i)) (λ p, mkIdent p.1 p.2)).
  by intros [].
Defined.

(** A name written by the user. *)
Definition ident (s : string) : Ident := mkIdent s false.
Coercion ident : string >-> Ident.

(** A pointer to a thunk ([CacheIndex], [Thunk]). *)
Definition CacheIndex : Type := nat.

Definition SealingKey : Type := Z.
Definition Number : Type := Qc.

Inductive MergeKind : Type := MergeStandard | PiecewiseDef.
Record MergeLabel : Type := mkMergeLabel { kind : MergeKind }.

Inductive RecordOpKind : Type := IgnoreEmptyOpt | ConsiderAllFields.
Inductive RecordExtKind : Type := WithValue | WithoutValue.
Inductive DictTypeFlavour : Type := FlavourType | FlavourContract.
Inductive VarKind : Type :=
| KindType
| KindEnumRows (excluded : gset Ident)
| KindRecordRows (excluded : gset Ident).

Inductive Polarity : Type := Positive | Negative.

(** [ty_path::Elem]; a [Path] is a persistent vector of them. *)
Inductive Elem : Type := Domain | Codomain | FieldElem (id : Ident) | ArrayElem | DictElem.

#[export] Instance MergeKind_eq_dec : EqDecision MergeKind.
Proof. solve_decision. Defined.
#[export] Instance MergeLabel_eq_dec : EqDecision MergeLabel.
Proof. solve_decision. Defined.
#[export] Instance RecordOpKind_eq_dec : EqDecision RecordOpKind.
Proof. solve_decision. Defined.
#[export] Instance DictTypeFlavour_eq_dec : EqDecision DictTypeFlavour.
Proof. solve_decision. Defined.
#[export] Instance Polarity_eq_dec : EqDecision Polarity.
Proof. solve_decision. Defined.
#[export] Instance Elem_eq_dec : EqDecision Elem.
Proof. solve_decision. Defined.

Inductive MergePriority : Type := Bottom | Neutral | Numeral (p : Number) | Top.

Record RecordAttrs : Type := mkRecordAttrs { open : bool; frozen : bool }.

(** The other fields a field may depend on. *)
Inductive FieldDeps : Type := Known (deps : gset Ident) | Unknown.

Inductive BindingType : Type := Normal | Revertible (deps : FieldDeps).

Record LetAttrs : Type := mkLetAttrs { binding_type : BindingType; rec : bool }.

Record RecordDeps : Type := mkRecordDeps {
  deps_stat_fields : IndexMap Ident FieldDeps;
  deps_dyn_fields : list FieldDeps;
}.

Record ContractDiagnostic : Type := mkDiagnostic { message : option string; notes : list string }.

(** [CompiledRegex] compares by the text of the expression. *)
Definition CompiledRegex : Type := string.

Inductive UnaryOp : Type :=
| IfThenElse | Typeof | Cast | BoolAnd | BoolOr | BoolNot | Blame
| EnumEmbed (id : Ident)
| TagsOnlyMatch (has_default : bool)
| RecordAccess (id : Ident)
| ArrayMap | RecordMap | LabelFlipPol | LabelPol | LabelGoDom | LabelGoCodom
| LabelGoArray | LabelGoDict | Seq | DeepSeq | ArrayLength | ArrayGen | ChunksConcat
| RecordFields (op_kind : RecordOpKind)
| RecordValues | StringTrim | StringChars | StringUppercase | StringLowercase
| StringLength | ToString | NumberFromString | EnumFromString | StringIsMatch
| StringFind | StringFindAll
| StringIsMatchCompiled (regex : CompiledRegex)
| StringFindCompiled (regex : CompiledRegex)
| StringFindAllCompiled (regex : CompiledRegex)
| Force (ignore_not_exported : bool)
| RecDefault | RecForce | RecordEmptyWithTail | RecordFreeze | Trace | LabelPushDiag
| EnumGetArg | EnumMakeVariant | EnumIsVariant | EnumGetTag | ContractCustom
| ContractPostprocessResult | ContractAttachDefaultLabel
| NumberArcCos | NumberArcSin | NumberArcTan | NumberCos | NumberSin | NumberTan.

Inductive NAryOp : Type :=
| StringReplace | StringReplaceRegex | StringSubstr | MergeContract | RecordSealTail
| RecordUnsealTail | LabelInsertTypeVar | ArraySlice.

(** [NAryOp::arity] *)
Definition arity (op : NAryOp) : nat :=
  match op with
  | StringReplace | StringReplaceRegex | StringSubstr | MergeContract
  | RecordUnsealTail | LabelInsertTypeVar | ArraySlice => 3
  | RecordSealTail => 4
  end.

Inductive InputFormat : Type := FmtNickel | FmtJson | FmtYaml | FmtToml | FmtNix | FmtText.

Inductive Import : Type :=
| ImportPath (path : string) (format : InputFormat)
| ImportPackage (id : Ident).

Inductive IllegalPolymorphicTailAction : Type :=
| TailFieldAccess (field : string) | TailMap | TailMerge
| TailFieldRemove (field : string) | TailFreeze.

(** [Container]: the empty array and the empty closed record are inline values,
    the others are allocated (and may be empty as well). *)
Inductive Container (C : Type) : Type := Empty | Alloc (c : C).
Arguments Empty {C}.
Arguments Alloc {C} c.

(** ** Values and terms *)

Inductive NickelValue : Type :=
| VNull
| VBool (b : bool)
| VNumber (n : Number)
| VArray (c : Container ArrayData)
| VRecord (c : Container RecordData)
| VString (s : string)
| VThunk (t : CacheIndex)
| VTerm (t : Term)
| VLabel (l : Label)
| VEnumVariant (tag : Ident) (arg : option NickelValue)
| VForeignId (n : N)
| VSealingKey (k : SealingKey)
| VCustomContract (v : NickelValue)
| VType (typ : Typ) (contract : NickelValue)
with Term : Type :=
| TStrChunks (chunks : list StrChunk)
| TFun (arg : Ident) (body : NickelValue)
| TLet (bindings : list (Ident * NickelValue)) (body : NickelValue) (attrs : LetAttrs)
| TApp (head arg : NickelValue)
| TVar (id : Ident)
| TRecRecord (data : RecRecordData)
| TClosurize (v : NickelValue)
| TOp1 (op : UnaryOp) (arg : NickelValue)
| TOp2 (op : BinaryOp) (arg1 arg2 : NickelValue)
| TOpN (op : NAryOp) (args : list NickelValue)
| TSealed (key : SealingKey) (inner : NickelValue) (lbl : Label)
| TAnnotated (annot : TypeAnnotation) (inner : NickelValue)
| TImport (i : Import)
| TResolvedImport (file : nat)
| TParseError (token : nat)
| TRuntimeError (e : EvalErrorKind)
with StrChunk : Type :=
| ChunkLiteral (s : string)
| ChunkExpr (e : NickelValue) (indent : nat)
with BinaryOp : Type :=
| Plus | Sub | Mult | Div | Modulo | NumberArcTan2 | NumberLog | Pow | StringConcat
| Eq_ | LessThan | LessOrEq | GreaterThan | GreaterOrEq | ContractApply | ContractCheck
| LabelWithErrorData | Unseal | LabelGoField
| RecordInsert (metadata : SharedMetadata) (pending : list RuntimeContract)
               (ext_kind : RecordExtKind) (op_kind : RecordOpKind)
| RecordRemove (op_kind : RecordOpKind)
| RecordGet
| RecordHasField (op_kind : RecordOpKind)
| RecordFieldIsDefined (op_kind : RecordOpKind)
| RecordSplitPair | RecordDisjointMerge | ArrayConcat | ArrayAt
| MergeOp (lbl : MergeLabel)
| Hash | Serialize | Deserialize | StringSplit | StringContains | StringCompare
| StringBase64Encode | StringBase64Decode | Seal | ContractArrayLazyApp
| ContractRecordLazyApp | LabelWithMessage | LabelWithNotes | LabelAppendNote
| LabelLookupTypeVar
with ArrayData : Type :=
| mkArrayData (array : list NickelValue) (pending : list RuntimeContract)
with RecordData : Type :=
| mkRecordData (fields : list (Ident * Field)) (attrs : RecordAttrs)
               (sealed_tail : option SealedTail)
with SealedTail : Type :=
| mkSealedTail (key : SealingKey) (lbl : Label) (term : NickelValue) (fields : list Ident)
with RecRecordData : Type :=
| mkRecRecordData (record : RecordData) (includes : list (Ident * FieldMetadata))
                  (dyn_fields : list (NickelValue * Field)) (deps : option RecordDeps)
                  (closurized : bool)
with Field : Type :=
| mkField (value : option NickelValue) (metadata : SharedMetadata)
          (pending : list RuntimeContract)
with SharedMetadata : Type :=
| Shared (inner : option FieldMetadata)
with FieldMetadata : Type :=
| mkFieldMetadata (doc : option string) (annotation : TypeAnnotation) (opt : bool)
                  (not_exported : bool) (priority : MergePriority)
with TypeAnnotation : Type :=
| mkTypeAnnotation (typ : option LabeledType) (contracts : list LabeledType)
with LabeledType : Type :=
| mkLabeledType (typ : Typ) (lbl : Label)
with RuntimeContract : Type :=
| mkRuntimeContract (contract : NickelValue) (lbl : Label)
with Label : Type :=
| mkLabel (typ : Typ) (diagnostics : list ContractDiagnostic) (arg_idx : option CacheIndex)
          (polarity : Polarity) (path : list Elem)
          (type_environment : list (SealingKey * Polarity)) (field_name : option Ident)
with Typ : Type :=
| TyDyn | TyNumber | TyBool | TyString | TySymbol | TyForeignId
| TyContract (t : NickelValue)
| TyArrow (dom codom : Typ)
| TyVar (id : Ident)
| TyForall (var : Ident) (var_kind : VarKind) (body : Typ)
| TyEnum (erows : EnumRows)
| TyRecord (rrows : RecordRows)
| TyDict (type_fields : Typ) (flavour : DictTypeFlavour)
| TyArray (t : Typ)
| TyWildcard (id : nat)
with RecordRows : Type :=
| RREmpty
| RRExtend (id : Ident) (typ : Typ) (tail : RecordRows)
| RRTailVar (id : Ident)
| RRTailDyn
with EnumRows : Type :=
| EREmpty
| ERExtend (id : Ident) (typ : option Typ) (tail : EnumRows)
| ERTailVar (id : Ident)
with EvalErrorKind : Type :=
| BlameError (evaluated_arg : option NickelValue) (lbl : Label)
| MissingFieldDef (id : Ident) (metadata : FieldMetadata)
| TypeError (expected msg : string) (term : NickelValue)
| UnaryPrimopTypeError (primop expected : string) (arg_evaluated : NickelValue)
| NAryPrimopTypeError (primop expected : string) (arg_number : nat)
                      (arg_evaluated : NickelValue)
| ParseErrorKind (token : nat)
| NotAFunc (term arg : NickelValue)
| FieldMissing (id : Ident) (field_names : list Ident) (operator : string)
| NotEnoughArgs (required : nat) (primitive : string)
| MergeIncompatibleArgs (left_arg right_arg : NickelValue) (merge_label : MergeLabel)
| UnboundIdentifier (id : Ident)
| InfiniteRecursion
| SerializationError (token : nat)
| DeserializationError (format msg : string)
| DeserializationErrorWithInner (format : InputFormat) (token : nat)
| IllegalPolymorphicTailAccess (action : IllegalPolymorphicTailAction)
                               (evaluated_arg : option NickelValue) (lbl : Label)
| IncomparableValues (left right : NickelValue)
| NonExhaustiveEnumMatch (expected : list Ident) (found : NickelValue)
| NonExhaustiveMatch (value : NickelValue)
| FailedDestructuring (value : NickelValue)
| QueryNonRecord (id : Ident) (value : NickelValue)
| InternalError (msg : string)
| OtherError (msg : string).

Set Warnings "-notation-overridden".

(** ** Projections of the records *)

Definition array (d : ArrayData) := let 'mkArrayData a _ := d in a.
Definition array_pending_contracts (d : ArrayData) := let 'mkArrayData _ p := d in p.

Definition fields (r : RecordData) := let 'mkRecordData f _ _ := r in f.
Definition attrs (r : RecordData) := let 'mkRecordData _ a _ := r in a.
Definition sealed_tail (r : RecordData) := let 'mkRecordData _ _ t := r in t.

Definition tail_key (t : SealedTail) := let 'mkSealedTail k _ _ _ := t in k.
Definition tail_label (t : SealedTail) := let 'mkSealedTail _ l _ _ := t in l.
Definition tail_term (t : SealedTail) := let 'mkSealedTail _ _ v _ := t in v.
Definition tail_fields (t : SealedTail) := let 'mkSealedTail _ _ _ f := t in f.

Definition record (d : RecRecordData) := let 'mkRecRecordData r _ _ _ _ := d in r.
Definition includes (d : RecRecordData) := let 'mkRecRecordData _ i _ _ _ := d in i.
Definition dyn_fields (d : RecRecordData) := let 'mkRecRecordData _ _ f _ _ := d in f.
Definition rec_deps (d : RecRecordData) := let 'mkRecRecordData _ _ _ e _ := d in e.
Definition closurized (d : RecRecordData) := let 'mkRecRecordData _ _ _ _ c := d in c.

Definition value (f : Field) := let 'mkField v _ _ := f in v.
Definition metadata (f : Field) := let 'mkField _ m _ := f in m.
Definition pending_contracts (f : Field) := let 'mkField _ _ p := f in p.

Definition shared_inner (m : SharedMetadata) := let 'Shared i := m in i.

Definition doc (m : FieldMetadata) := let 'mkFieldMetadata d _ _ _ _ := m in d.
Definition annotation (m : FieldMetadata) := let 'mkFieldMetadata _ a _ _ _ := m in a.
Definition opt (m : FieldMetadata) := let 'mkFieldMetadata _ _ o _ _ := m in o.
Definition not_exported (m : FieldMetadata) := let 'mkFieldMetadata _ _ _ n _ := m in n.
Definition priority (m : FieldMetadata) := let 'mkFieldMetadata _ _ _ _ p := m in p.

Definition annot_typ (a : TypeAnnotation) := let 'mkTypeAnnotation t _ := a in t.
Definition annot_contracts (a : TypeAnnotation) := let 'mkTypeAnnotation _ c := a in c.

Definition labeled_typ (l : LabeledType) := let 'mkLabeledType t _ := l in t.
Definition labeled_label (l : LabeledType) := let 'mkLabeledType _ b := l in b.

Definition contract (c : RuntimeContract) := let 'mkRuntimeContract v _ := c in v.
Definition contract_label (c : RuntimeContract) := let 'mkRuntimeContract _ l := c in l.

Definition diagnostics (l : Label) := let 'mkLabel _ d _ _ _ _ _ := l in d.
Definition arg_idx (l : Label) := let 'mkLabel _ _ a _ _ _ _ := l in a.
Definition type_environment (l : Label) := let 'mkLabel _ _ _ _ _ e _ := l in e.

(** ** Environments and closures

    An evaluation environment is a [GenericEnvironment<Ident, CacheIndex>]; it
    is given here by the finite map it denotes ([Environment.v]). *)
Definition Environment : Type := gmap Ident CacheIndex.

Record Closure : Type := mkClosure { clos_value : NickelValue; clos_env : Environment }.

(** [From<NickelValue> for Closure] *)
Definition to_closure (v : NickelValue) : Closure := mkClosure v ∅.

(** [Environment::extend], [insert] in order. *)
Definition env_extend (e : Environment) (items : list (Ident * CacheIndex)) : Environment :=
  foldl (λ e p, <[p.1 := p.2]> e) e items.
