(* ===== verification/Records.v ===== *)
(** * Operations on values, records, metadata and labels

    The operations of [core/src/term/record.rs], [core/src/term/mod.rs],
    [core/src/label.rs] and the classification of values of
    [core/src/eval/value/mod.rs], together with the merge priorities of
    [parser/src/ast/mod.rs]. Contract equality and type equality, which contract
    deduplication calls, are arguments here ([ContractEq.v] has them). *)
From stdpp Require Import sorting.
From Stdlib Require Import QArith.Qcanon.
From S2P Require Import Prelude IndexMap Values.

(** ** Classification of values *)

(** [Term::is_whnf] *)
Definition term_is_whnf (t : Term) : bool :=
  match t with TFun _ _ => true | _ => false end.

(** [NickelValue::is_whnf]: by the tag of the block only, so that every [Term]
    is taken as not evaluated. *)
Definition is_whnf (v : NickelValue) : bool :=
  match v with VThunk _ | VTerm _ => false | _ => true end.

(** [NickelValue::is_constant] *)
Definition is_constant (v : NickelValue) : bool :=
  match v with
  | VNull | VBool _ | VArray Empty | VRecord Empty | VNumber _ | VLabel _ | VForeignId _
  | VSealingKey _ | VString _ => true
  | VEnumVariant _ arg => match arg with None => true | Some _ => false end
  | VArray _ | VRecord _ | VThunk _ | VTerm _ | VCustomContract _ | VType _ _ => false
  end.

(** [closurize::should_share] *)
Definition should_share (v : NickelValue) : bool :=
  match v with
  | VTerm (TVar _ | TFun _ _) => false
  | VTerm _ | VType _ _ => true
  | VNull | VBool _ | VArray _ | VRecord _ | VNumber _ | VString _ | VLabel _
  | VSealingKey _ | VForeignId _ | VThunk _ | VCustomContract _ => false
  | VEnumVariant _ arg => match arg with Some _ => true | None => false end
  end.

(** [NickelValue::type_of], which follows [Closurize]. *)
Fixpoint type_of (v : NickelValue) : option string :=
  match v with
  | VNull => Some "Other"
  | VBool _ => Some "Bool"
  | VNumber _ => Some "Number"
  | VArray _ => Some "Array"
  | VRecord _ => Some "Record"
  | VString _ => Some "String"
  | VTerm (TClosurize v') => type_of v'
  | VTerm (TRecRecord _) => Some "Record"
  | VTerm (TFun _ _) => Some "Function"
  | VTerm (TSealed _ _ _) => Some "Sealed"
  | VTerm (TAnnotated _ _) => Some "Annotated"
  | VTerm _ => None
  | VLabel _ => Some "Label"
  | VEnumVariant _ None => Some "EnumTag"
  | VEnumVariant _ (Some _) => Some "EnumVariant"
  | VForeignId _ => Some "ForeignId"
  | VSealingKey _ => Some "SealingKey"
  | VCustomContract _ => Some "CustomContract"
  | VType _ _ => Some "Type"
  | VThunk _ => None
  end%string.

Definition is_inline_empty_record (v : NickelValue) : bool :=
  match v with VRecord Empty => true | _ => false end.

Definition as_thunk (v : NickelValue) : option CacheIndex :=
  match v with VThunk t => Some t | _ => None end.

(** ** Field dependencies *)

(** [FieldDeps::union], [empty], [is_empty] *)
Definition deps_union (d d' : FieldDeps) : FieldDeps :=
  match d with
  | Unknown => Unknown
  | Known deps1 => match d' with Unknown => Unknown | Known deps2 => Known (deps1 ∪ deps2) end
  end.

Definition deps_empty : FieldDeps := Known ∅.

Definition deps_is_empty (d : FieldDeps) : bool :=
  match d with Known deps => bool_decide (deps = ∅) | Unknown => false end.

(** The filter [|id| deps.contains(id)], all names when the dependencies are not
    known. *)
Definition deps_contains (d : FieldDeps) (id : Ident) : bool :=
  match d with Known deps => bool_decide (id ∈ deps) | Unknown => true end.

(** ** Merge priorities *)

(** [Ord for MergePriority]: [Neutral] is compared as the numeral zero. *)
Definition priority_cmp (p p' : MergePriority) : comparison :=
  match p, p' with
  | Bottom, Bottom | Top, Top | Neutral, Neutral => Eq
  | Numeral p1, Numeral p2 => (p1 ?= p2)%Qc
  | Bottom, _ | _, Top => Lt
  | Top, _ | _, Bottom => Gt
  | Neutral, Numeral n => (0 ?= n)%Qc
  | Numeral n, Neutral => (n ?= 0)%Qc
  end.

(** [PartialEq for MergePriority] *)
Definition priority_eq (p p' : MergePriority) : bool :=
  match p, p' with
  | Bottom, Bottom | Neutral, Neutral | Top, Top => true
  | Numeral p1, Numeral p2 => bool_decide (p1 = p2)
  | Neutral, Numeral q | Numeral q, Neutral => bool_decide (q = 0%Qc)
  | _, _ => false
  end.

(** The comparison operators derived from [partial_cmp]. *)
Definition priority_gt (p p' : MergePriority) : bool :=
  match priority_cmp p p' with Gt => true | _ => false end.

(** [std::cmp::max]: the second argument when they are equal. *)
Definition priority_max (p p' : MergePriority) : MergePriority :=
  match priority_cmp p p' with Gt => p | _ => p' end.

(** ** Combination of attributes, annotations and metadata

    [trait Combine]: the operation the parser and the evaluator use to put
    together pieces of metadata. *)

Definition attrs_combine (left right : RecordAttrs) : RecordAttrs :=
  mkRecordAttrs (open left || open right) (frozen left && frozen right).

(** [RecordAttrs::default] *)
Definition attrs_default : RecordAttrs := mkRecordAttrs false false.

Definition merge_doc {D} (doc1 doc2 : option D) : option D :=
  match doc1 with Some _ => doc1 | None => doc2 end.

Definition or_else {A} (o o' : option A) : option A :=
  match o with Some _ => o | None => o' end.

(** [Combine for TypeAnnotation] *)
Definition annot_combine (left right : TypeAnnotation) : TypeAnnotation :=
  let '(typ, leftover) :=
    match annot_typ left, annot_typ right with
    | Some l, Some r => (Some l, Some r)
    | l, r => (or_else l r, None)
    end in
  mkTypeAnnotation typ (annot_contracts left ++ option_list leftover ++ annot_contracts right).

Definition annot_is_empty (a : TypeAnnotation) : bool :=
  match annot_typ a, annot_contracts a with None, [] => true | _, _ => false end.

(** [TypeAnnotation::iter], [first] *)
Definition annot_iter (a : TypeAnnotation) : list LabeledType :=
  option_list (annot_typ a) ++ annot_contracts a.

Definition annot_first (a : TypeAnnotation) : option LabeledType := head (annot_iter a).

Definition annot_default : TypeAnnotation := mkTypeAnnotation None [].

Definition metadata_default : FieldMetadata :=
  mkFieldMetadata None annot_default false false Neutral.

Definition metadata_is_empty (m : FieldMetadata) : bool :=
  match doc m with None => true | Some _ => false end
  && annot_is_empty (annotation m) && negb (opt m) && negb (not_exported m)
  && match priority m with Neutral => true | _ => false end.

(** [Combine for FieldMetadata]; an unspecified priority gives way to the other. *)
Definition priority_combine (p p' : MergePriority) : MergePriority :=
  match p, p' with
  | Neutral, _ => p'
  | _, Neutral => p
  | _, _ => priority_max p p'
  end.

Definition metadata_combine (left right : FieldMetadata) : FieldMetadata :=
  let prio := priority_combine (priority left) (priority right) in
  mkFieldMetadata (merge_doc (doc left) (doc right))
    (annot_combine (annotation left) (annotation right))
    (opt left || opt right) (not_exported left || not_exported right) prio.

(** [From<FieldMetadata> for SharedMetadata], [into_inner], and the accessors. *)
Definition to_shared (m : FieldMetadata) : SharedMetadata :=
  if metadata_is_empty m then Shared None else Shared (Some m).

Definition into_inner (m : SharedMetadata) : FieldMetadata :=
  default metadata_default (shared_inner m).

Definition shared_combine (left right : SharedMetadata) : SharedMetadata :=
  match shared_inner left, shared_inner right with
  | None, None => Shared None
  | None, Some m | Some m, None => Shared (Some m)
  | Some m1, Some m2 => to_shared (metadata_combine m1 m2)
  end.

Definition shared_is_empty (m : SharedMetadata) : bool :=
  match shared_inner m with Some m' => metadata_is_empty m' | None => true end.
Definition shared_opt (m : SharedMetadata) : bool :=
  match shared_inner m with Some m' => opt m' | None => false end.
Definition shared_not_exported (m : SharedMetadata) : bool :=
  match shared_inner m with Some m' => not_exported m' | None => false end.
Definition shared_priority (m : SharedMetadata) : MergePriority :=
  match shared_inner m with Some m' => priority m' | None => Neutral end.
Definition shared_iter_annots (m : SharedMetadata) : list LabeledType :=
  match shared_inner m with Some m' => annot_iter (annotation m') | None => [] end.

(** [LabeledType::with_field_name] and the same on annotations, metadata and
    labels. *)
Definition label_with_field_name (l : Label) (name : option Ident) : Label :=
  let 'mkLabel t d a p pa e _ := l in mkLabel t d a p pa e name.
Definition labeled_with_field_name (t : LabeledType) (name : option Ident) : LabeledType :=
  mkLabeledType (labeled_typ t) (label_with_field_name (labeled_label t) name).
Definition annot_with_field_name (a : TypeAnnotation) (name : option Ident) : TypeAnnotation :=
  mkTypeAnnotation ((λ t, labeled_with_field_name t name) <$> annot_typ a)
                   ((λ t, labeled_with_field_name t name) <$> annot_contracts a).
Definition metadata_with_field_name (m : FieldMetadata) (name : option Ident) : FieldMetadata :=
  mkFieldMetadata (doc m) (annot_with_field_name (annotation m) name) (opt m)
                  (not_exported m) (priority m).

(** ** Runtime contracts *)

Definition map_contract (f : NickelValue → NickelValue) (c : RuntimeContract) : RuntimeContract :=
  mkRuntimeContract (f (contract c)) (contract_label c).

(** [RuntimeContract::apply]: the term
    [%contract/apply% contract label value]. *)
Definition contract_apply (c : RuntimeContract) (v : NickelValue) : NickelValue :=
  VTerm (TApp (VTerm (TOp2 ContractApply (contract c) (VLabel (contract_label c)))) v).

(** [RuntimeContract::apply_all]: the first contract is the innermost one. *)
Definition apply_all (v : NickelValue) (cs : list RuntimeContract) : NickelValue :=
  foldl (λ acc c, contract_apply c acc) v cs.

Definition can_have_poly_ctrs (c : RuntimeContract) : bool :=
  match type_environment (contract_label c) with [] => false | _ => true end.

Section dedup.
Context (contract_eq : NickelValue → Environment → NickelValue → Environment → bool).
Context (type_eq_noenv : Typ → Typ → bool).

(** [RuntimeContract::push_dedup] *)
Definition push_dedup (cs : list RuntimeContract) (env1 : Environment)
    (ctr : RuntimeContract) (env2 : Environment) : list RuntimeContract :=
  if existsb (λ c, contract_eq (contract c) env1 (contract ctr) env2) cs then cs
  else cs ++ [ctr].

(** [RuntimeContract::combine_dedup]: the contracts of the second list that
    equal none of the first [len1] ones are pushed. *)
Definition combine_dedup (contracts1 : list RuntimeContract) (env1 : Environment)
    (contracts2 : list RuntimeContract) (env2 : Environment) : list RuntimeContract :=
  let len1 := length contracts1 in
  foldl (λ result ctr2,
      if existsb (λ ctr1, contract_eq (contract ctr1) env1 (contract ctr2) env2)
                 (take len1 result)
      then result else result ++ [ctr2])
    contracts1 contracts2.

(** [TypeAnnotation::combine_dedup]: the type of the right annotation becomes a
    contract when the left one has a type too; it is pushed after [len1] was
    read. *)
Definition annot_combine_dedup (left right : TypeAnnotation) : TypeAnnotation :=
  let len1 := length (annot_contracts left) in
  let '(typ, contracts) :=
    match annot_typ left, annot_typ right with
    | Some l, Some r => (Some l, annot_contracts left ++ [r])
    | l, r => (or_else l r, annot_contracts left)
    end in
  let contracts :=
    foldl (λ contracts ctr,
        if existsb (λ c, type_eq_noenv (labeled_typ c) (labeled_typ ctr)) (take len1 contracts)
        then contracts else contracts ++ [ctr])
      contracts (annot_contracts right) in
  mkTypeAnnotation typ contracts.

End dedup.

(** ** Fields and records *)

(** [From<NickelValue> for Field] *)
Definition field_from_value (v : NickelValue) : Field := mkField (Some v) (Shared None) [].

Definition is_empty_optional (f : Field) : bool :=
  match value f with None => true | Some _ => false end && shared_opt (metadata f).

Definition extension_kind (f : Field) : RecordExtKind :=
  match value f with Some _ => WithValue | None => WithoutValue end.

Definition value_with_pending_contracts (f : Field) : option NickelValue :=
  (λ v, apply_all v (pending_contracts f)) <$> value f.

Definition record_empty : RecordData := mkRecordData [] attrs_default None.

(** [MissingFieldDefErrorData] *)
Record MissingFieldDefError : Type := mkMissing { missing_id : Ident; missing_metadata : FieldMetadata }.

Definition into_eval_err (e : MissingFieldDefError) : EvalErrorKind :=
  MissingFieldDef (missing_id e) (missing_metadata e).

(** [RecordData::map_values], [map_defined_values] *)
Definition map_values (f : Ident → option NickelValue → option NickelValue) (r : RecordData)
    : RecordData :=
  mkRecordData
    (map (λ p : Ident * Field,
        (p.1, mkField (f p.1 (value p.2)) (metadata p.2) (pending_contracts p.2))) (fields r))
    (attrs r) (sealed_tail r).

Definition map_defined_values (f : Ident → NickelValue → NickelValue) (r : RecordData)
    : RecordData :=
  map_values (λ id v, f id <$> v) r.

(** [iter_without_opts] *)
Definition iter_without_opts (r : RecordData)
    : list (result (Ident * NickelValue) MissingFieldDefError) :=
  omap (λ p : Ident * Field,
    let (id, field) := p in
    match value field with
    | Some v => Some (Ok (id, apply_all v (pending_contracts field)))
    | None =>
        if negb (shared_opt (metadata field))
        then Some (Err (mkMissing id (into_inner (metadata field))))
        else None
    end) (fields r).

(** [iter_serializable]; its [debug_assert] is that no contract is pending. *)
Definition iter_serializable (r : RecordData)
    : list (result (Ident * NickelValue) MissingFieldDefError) :=
  omap (λ p : Ident * Field,
    let (id, field) := p in
    match value field with
    | Some v =>
        if negb (shared_not_exported (metadata field)) then Some (Ok (id, v)) else None
    | None =>
        if negb (shared_opt (metadata field)) && negb (shared_not_exported (metadata field))
        then Some (Err (mkMissing id (into_inner (metadata field))))
        else None
    end) (fields r).

(** [RecordData::is_empty], [has_only_empty_opts] *)
Definition record_is_empty (r : RecordData) : bool :=
  match fields r, sealed_tail r with [], None => true | _, _ => false end.

Definition has_only_empty_opts (r : RecordData) : bool :=
  forallb is_empty_optional (fields r).*2
  && match sealed_tail r with None => true | Some _ => false end.

Section record_ops.
Context `{IndexMapOps Ident}.

Definition with_field_values (field_values : list (Ident * NickelValue)) : RecordData :=
  mkRecordData (im_extend [] (map (λ p : Ident * NickelValue, (p.1, field_from_value p.2))
                                  field_values))
    attrs_default None.

(** [get_value_with_ctrs] *)
Definition get_value_with_ctrs (r : RecordData) (id : Ident)
    : result (option NickelValue) MissingFieldDefError :=
  match im_get (fields r) id with
  | Some field =>
      match value field with
      | None =>
          if negb (shared_opt (metadata field))
          then Err (mkMissing id (into_inner (metadata field)))
          else Ok None
      | Some v => Ok (Some (apply_all v (pending_contracts field)))
      end
  | None => Ok None
  end.

End record_ops.

(** [RecordData::field_names]: sorted by label ([sort_by] on [str]'s order). *)
Definition label_le (id1 id2 : Ident) : Prop := String.leb (label id1) (label id2) = true.

#[export] Instance label_le_dec : RelDecision label_le.
Proof. intros i j. unfold label_le. apply _. Defined.

Definition field_names (r : RecordData) (op_kind : RecordOpKind) : list Ident :=
  merge_sort label_le
    (List.filter (λ p : Ident * Field,
       match op_kind with
       | ConsiderAllFields => true
       | IgnoreEmptyOpt => negb (is_empty_optional p.2)
       end) (fields r)).*1.

(** ** Sealed tails *)

Definition unseal (t : SealedTail) (key : SealingKey) : option NickelValue :=
  if bool_decide (key = tail_key t) then Some (tail_term t) else None.

Definition has_field (t : SealedTail) (field : Ident) : bool :=
  bool_decide (field ∈ tail_fields t).

Definition has_dyn_field (t : SealedTail) (field : string) : bool :=
  existsb (λ i, bool_decide (label i = field)) (tail_fields t).

(** ** Labels *)

Definition flip (p : Polarity) : Polarity :=
  match p with Positive => Negative | Negative => Positive end.

Definition has_no_dom (p : list Elem) : bool :=
  negb (existsb (λ e, match e with Domain => true | _ => false end) p).

Definition has_no_arrow (p : list Elem) : bool :=
  negb (existsb (λ e, match e with Domain | Codomain => true | _ => false end) p).

Definition diagnostic_new : ContractDiagnostic := mkDiagnostic None [].

Definition diagnostic_is_empty (d : ContractDiagnostic) : bool :=
  match message d with Some m => bool_decide (m = ""%string) | None => true end
  && match notes d with [] => true | _ => false end.

Definition with_diagnostics (l : Label) (ds : list ContractDiagnostic) : Label :=
  let 'mkLabel t _ a p pa e n := l in mkLabel t ds a p pa e n.

(** [diagnostics.last_mut()], or a fresh one pushed. *)
Definition update_last (ds : list ContractDiagnostic)
    (f : ContractDiagnostic → ContractDiagnostic) : list ContractDiagnostic :=
  match last ds with
  | Some current => removelast ds ++ [f current]
  | None => ds ++ [f diagnostic_new]
  end.

Definition set_diagnostic_message (l : Label) (m : string) : Label :=
  with_diagnostics l (update_last (diagnostics l) (λ d, mkDiagnostic (Some m) (notes d))).

Definition set_diagnostic_notes (l : Label) (ns : list string) : Label :=
  with_diagnostics l (update_last (diagnostics l) (λ d, mkDiagnostic (message d) ns)).

Definition append_diagnostic_note (l : Label) (n : string) : Label :=
  with_diagnostics l (update_last (diagnostics l) (λ d, mkDiagnostic (message d) (notes d ++ [n]))).

Definition current_diagnostic (l : Label) : option ContractDiagnostic := last (diagnostics l).

Definition push_diagnostic (l : Label) : Label :=
  match current_diagnostic l with
  | Some diag =>
      if negb (diagnostic_is_empty diag)
      then with_diagnostics l (diagnostics l ++ [diagnostic_new]) else l
  | None => l
  end.

(** [Label::default], [Label::dummy] *)
Definition label_default : Label := mkLabel TyDyn [] None Positive [] [] None.

(** [From<Label> for MergeLabel] *)
Definition label_to_merge_label (l : Label) : MergeLabel := mkMergeLabel MergeStandard.
