(* ===== verification/Make.v ===== *)
(** * Building terms ([mod make] of [core/src/term/mod.rs])

    The functions and macros that the program builds terms with, the names of
    the functions of the internal standard library ([mod internals] of
    [core/src/stdlib.rs]), and the generation of fresh identifiers
    ([LocIdent::fresh]). The counter of fresh identifiers is global in the
    source; it is threaded through the computations that generate some
    ([Fresh]), which may panic. *)
From stdpp Require Import pretty sorting.
From Stdlib Require Import QArith.Qcanon.
From S2P Require Import Prelude IndexMap Values Records.

(** ** Containers *)

(** [NickelValue::array], [array_posless]: the empty array is inline. *)
Definition mk_array (l : list NickelValue) (pending : list RuntimeContract) : NickelValue :=
  match l with [] => VArray Empty | _ => VArray (Alloc (mkArrayData l pending)) end.

(** [NickelValue::record], [NickelValue::record_posless] *)
Definition mk_record (r : RecordData) : NickelValue :=
  if record_is_empty r && negb (open (attrs r)) then VRecord Empty else VRecord (Alloc r).

Definition record_posless (r : RecordData) : NickelValue :=
  if record_is_empty r then VRecord Empty else VRecord (Alloc r).

(** ** Terms *)

(** [mk_app!], [mk_term::op1], [mk_term::op2], [mk_fun!], [mk_term::id] *)
Definition app (f a : NickelValue) : NickelValue := VTerm (TApp f a).
Definition op1 (op : UnaryOp) (v : NickelValue) : NickelValue := VTerm (TOp1 op v).
Definition op2 (op : BinaryOp) (v1 v2 : NickelValue) : NickelValue := VTerm (TOp2 op v1 v2).
Definition opn (op : NAryOp) (args : list NickelValue) : NickelValue := VTerm (TOpN op args).
Definition var (id : Ident) : NickelValue := VTerm (TVar id).
Definition fn (arg : Ident) (body : NickelValue) : NickelValue := VTerm (TFun arg body).
Definition id_fun : NickelValue := fn "x" (var "x").

(** [make::let_in], [make::let_one_in], [make::if_then_else],
    [make::static_access], [closurize] *)
Definition let_in (rec : bool) (bindings : list (Ident * NickelValue)) (body : NickelValue)
    : NickelValue := VTerm (TLet bindings body (mkLetAttrs Normal rec)).
Definition let_one_in (id : Ident) (v body : NickelValue) : NickelValue :=
  let_in false [(id, v)] body.
Definition if_then_else (c t e : NickelValue) : NickelValue := app (app (op1 IfThenElse c) t) e.
Definition static_access (record : NickelValue) (path : list Ident) : NickelValue :=
  foldl (λ v field, op1 (RecordAccess field) v) record path.
Definition closurize_term (v : NickelValue) : NickelValue := VTerm (TClosurize v).

Definition enum_tag (tag : string) : NickelValue := VEnumVariant (ident tag) None.

Definition number_of_nat_value (n : nat) : NickelValue :=
  VNumber (Q2Qc (QArith_base.inject_Z (Z.of_nat n))).

(** ** The internal standard library *)

Definition internal (name : string) : NickelValue := var (ident ("$" +:+ name)).
Definition record_contract_internal : NickelValue := internal "record_contract".
Definition naked_to_custom : NickelValue := internal "naked_to_custom".
Definition add_default_check_label : NickelValue := internal "add_default_check_label".

(** [From<Polarity>] *)
Definition polarity_value (p : Polarity) : NickelValue :=
  enum_tag (match p with Positive => "Positive" | Negative => "Negative" end).

(** ** Fresh identifiers *)

Definition Fresh (A : Type) : Type := nat → outcome (A * nat).

#[export] Instance Fresh_ret : MRet Fresh := λ A a n, Done (a, n).
#[export] Instance Fresh_bind : MBind Fresh := λ A B f m n, '(a, n') ← m n; f a n'.

Definition fresh_lift {A} (o : outcome A) : Fresh A := λ n, a ← o; Done (a, n).
Definition fresh_panic {A} : Fresh A := λ _, Panic.

(** The name of the [n]-th generated identifier: it is never the name of an
    identifier written by the user. *)
Definition generated (n : nat) : Ident := mkIdent ("%" +:+ pretty n) true.

(** [LocIdent::fresh] *)
Definition fresh : Fresh Ident := λ n, Done (generated n, S n).

Fixpoint foldM_fresh {A B} (f : B → A → Fresh B) (b : B) (l : list A) : Fresh B :=
  match l with [] => mret b | a :: l' => b' ← f b a; foldM_fresh f b' l' end.

#[export] Instance generated_inj : Inj (=) (=) generated.
Proof. intros n m Heq. unfold generated in Heq. by simplify_eq. Qed.

Lemma generated_not_user n s : generated n ≠ ident s.
Proof. done. Qed.

(** A computation that does not panic and does not need fuel. *)
Definition returns {A} (m : Fresh A) (P : A → Prop) : Prop :=
  ∀ n, ∃ a n', m n = Done (a, n') ∧ n ≤ n' ∧ P a.

Lemma returns_ext {A} (m m' : Fresh A) P : (∀ n, m n = m' n) → returns m' P → returns m P.
Proof. intros Hm Hr n. rewrite Hm. apply Hr. Qed.

Lemma returns_ret {A} (a : A) (P : A → Prop) : P a → returns (mret a) P.
Proof. intros HP n. by exists a, n. Qed.

Lemma fresh_returns_bind {A B} (m : Fresh A) (f : A → Fresh B) P Q :
  returns m P → (∀ a, P a → returns (f a) Q) → returns (m ≫= f) Q.
Proof.
  intros Hm Hf n. destruct (Hm n) as (a & n1 & Heq & Hle & HP).
  destruct (Hf a HP n1) as (b & n2 & Heq' & Hle' & HQ).
  exists b, n2. split; [|split; [lia|done]].
  unfold mbind, Fresh_bind, mbind, outcome_bind. by rewrite Heq.
Qed.

Lemma returns_mono {A} (m : Fresh A) (P Q : A → Prop) :
  returns m P → (∀ a, P a → Q a) → returns m Q.
Proof. intros Hm HPQ n. destruct (Hm n) as (a & n' & ? & ? & ?). exists a, n'. auto. Qed.

Lemma returns_fresh (P : Ident → Prop) : (∀ n, P (generated n)) → returns fresh P.
Proof. intros HP n. exists (generated n), (S n). split; [done|]. split; [lia|auto]. Qed.

Lemma returns_lift {A} (o : outcome A) P a : o = Done a → P a → returns (fresh_lift o) P.
Proof. intros -> HP n. by exists a, n. Qed.

Lemma returns_mapM {A B} (f : A → Fresh B) (P : A → Prop) (Q : B → Prop) l :
  (∀ a, P a → returns (f a) Q) → Forall P l → returns (mapM f l) (Forall Q).
Proof.
  intros Hf. induction 1 as [|a l Ha Hl IH]; simpl.
  - by apply returns_ret.
  - apply (fresh_returns_bind _ _ Q); [by apply Hf|]. intros b Hb.
    apply (fresh_returns_bind _ _ (Forall Q)); [done|]. intros bs Hbs. apply returns_ret. by constructor.
Qed.

Lemma returns_foldM {A B} (f : B → A → Fresh B) (P : A → Prop) (Q : B → Prop) l b :
  (∀ b a, Q b → P a → returns (f b a) Q) → Forall P l → Q b → returns (foldM_fresh f b l) Q.
Proof.
  intros Hf Hl. revert b. induction Hl as [|a l Ha Hl IH]; intros b Hb; simpl.
  - by apply returns_ret.
  - apply (fresh_returns_bind _ _ Q); [by apply Hf|]. auto.
Qed.

(** The fold of [iter().rev()], without and with the index of the element. *)
Fixpoint foldrM_fresh {A B} (f : A → B → Fresh B) (b : B) (l : list A) : Fresh B :=
  match l with [] => mret b | a :: l' => b' ← foldrM_fresh f b l'; f a b' end.

Fixpoint foldriM_fresh {A B} (f : nat → A → B → Fresh B) (i : nat) (b : B) (l : list A)
    : Fresh B :=
  match l with [] => mret b | a :: l' => b' ← foldriM_fresh f (S i) b l'; f i a b' end.

Lemma returns_foldrM {A B} (f : A → B → Fresh B) (P : A → Prop) (Q : B → Prop) l b :
  (∀ a b, P a → Q b → returns (f a b) Q) → Forall P l → Q b → returns (foldrM_fresh f b l) Q.
Proof.
  intros Hf Hl Hb. induction Hl as [|a l Ha Hl IH]; simpl; [by apply returns_ret|].
  apply (fresh_returns_bind _ _ Q); [done|]. auto.
Qed.

Lemma returns_foldriM {A B} (f : nat → A → B → Fresh B) (P : A → Prop) (Q : B → Prop) l b i :
  (∀ i a b, P a → Q b → returns (f i a b) Q) → Forall P l → Q b →
  returns (foldriM_fresh f i b l) Q.
Proof.
  intros Hf Hl Hb. revert i. induction Hl as [|a l Ha Hl IH]; intros i; simpl;
    [by apply returns_ret|].
  apply (fresh_returns_bind _ _ Q); [done|]. auto.
Qed.

(** ** Hash maps

    [std::collections::HashMap] and [HashSet] iterate in an order that is not
    specified. *)
Class HashOrder : Type := {
  hash_iter {V} : gmap Ident V → list (Ident * V);
  hash_set_iter : gset Ident → list Ident;
}.

Class HashOrderLaws `{HashOrder} : Prop := {
  hash_iter_perm {V} (m : gmap Ident V) : hash_iter m ≡ₚ map_to_list m;
  hash_set_iter_perm (s : gset Ident) : hash_set_iter s ≡ₚ elements s;
}.

(** [collect] into a hash map: the last value of a key stays. *)
Definition hash_collect {V} (items : list (Ident * V)) : gmap Ident V :=
  foldl (λ m p, <[p.1 := p.2]> m) ∅ items.

(** An order of iteration, for the examples. *)
Definition sorted_order : HashOrder :=
  {| hash_iter V m := map_to_list m; hash_set_iter s := elements s |}.

Lemma sorted_order_laws : @HashOrderLaws sorted_order.
Proof. by split. Qed.

Section hash.
Context `{HashOrderLaws}.

Lemma elem_of_hash_iter {V} (m : gmap Ident V) k v : (k, v) ∈ hash_iter m ↔ m !! k = Some v.
Proof. by rewrite hash_iter_perm, elem_of_map_to_list. Qed.

Lemma elem_of_hash_set_iter (s : gset Ident) k : k ∈ hash_set_iter s ↔ k ∈ s.
Proof. by rewrite hash_set_iter_perm, elem_of_elements. Qed.

Lemma keys_hash_iter {V} (m : gmap Ident V) : NoDup (keys (hash_iter m)).
Proof. unfold keys. rewrite hash_iter_perm. apply NoDup_fst_map_to_list. Qed.

End hash.

Lemma hash_collect_app {V} (items : list (Ident * V)) k v :
  hash_collect (items ++ [(k, v)]) = <[k := v]> (hash_collect items).
Proof. unfold hash_collect. by rewrite foldl_app. Qed.

Lemma hash_collect_dom {V} (items : list (Ident * V)) :
  dom (hash_collect items) = list_to_set (items.*1).
Proof.
  induction items as [|[k v] items IH] using rev_ind; [done|].
  rewrite hash_collect_app, dom_insert_L, IH, fmap_app, list_to_set_app_L. simpl. set_solver.
Qed.
