(* ===== verification/Ast.v ===== *)
(** * The abstract syntax ([parser/src/ast/])

    The tree that the parser builds, the typechecker walks over and the lowering
    of [core/src/ast/compat.rs] turns into the terms of [Values.v]: expressions,
    patterns, types and record definitions. Positions are left out and the
    allocation of nodes in an arena is transparent; a parse error is a token.
    [Pattern.v] and [Lowering.v] have what is done with patterns and with the
    whole tree. *)
From S2P Require Import Prelude IndexMap Values Records Make.

(** ** Primitive operators ([primop.rs]) *)

Inductive PrimOp : Type :=
| PTypeof | PCast | PBoolAnd | PBoolOr | PBoolNot | PBlame
| PEnumEmbed (id : Ident)
| PRecordStatAccess (id : Ident)
| PArrayMap | PRecordMap | PLabelFlipPol | PLabelPol | PLabelGoDom | PLabelGoCodom
| PLabelGoArray | PLabelGoDict | PSeq | PDeepSeq | PArrayLength | PArrayGen
| PRecordFields (op_kind : RecordOpKind)
| PRecordValues | PStringTrim | PStringChars | PStringUppercase | PStringLowercase
| PStringLength | PToString | PNumberFromString | PEnumFromString | PStringIsMatch
| PStringFind | PStringFindAll
| PForce (ignore_not_exported : bool)
| PRecordEmptyWithTail | PRecordFreeze | PTrace | PLabelPushDiag | PEnumGetArg
| PEnumMakeVariant | PEnumIsVariant | PEnumGetTag | PContractCustom | PNumberArcCos
| PNumberArcSin | PNumberArcTan | PNumberCos | PNumberSin | PNumberTan
| PPlus | PSub | PMult | PDiv | PModulo | PNumberArcTan2 | PNumberLog | PPow
| PStringConcat | PEq | PLessThan | PLessOrEq | PGreaterThan | PGreaterOrEq
| PContractApply | PContractCheck | PLabelWithErrorData | PLabelGoField
| PRecordInsert (op_kind : RecordOpKind)
| PRecordRemove (op_kind : RecordOpKind)
| PRecordGet
| PRecordHasField (op_kind : RecordOpKind)
| PRecordFieldIsDefined (op_kind : RecordOpKind)
| PRecordSplitPair | PRecordDisjointMerge | PArrayConcat | PArrayAt
| PMerge (kind : MergeKind)
| PHash | PSerialize | PDeserialize | PStringSplit | PStringContains | PStringCompare
| PStringBase64Encode | PStringBase64Decode | PSeal | PUnseal | PContractArrayLazyApp
| PContractRecordLazyApp | PLabelWithMessage | PLabelWithNotes | PLabelAppendNote
| PLabelLookupTypeVar
| PStringReplace | PStringReplaceRegex | PStringSubstr | PMergeContract | PRecordSealTail
| PRecordUnsealTail | PLabelInsertTypeVar | PArraySlice.

(** [PrimOp::arity] *)
Definition primop_arity (op : PrimOp) : nat :=
  match op with
  | PTypeof | PCast | PBoolAnd | PBoolOr | PBoolNot | PBlame | PEnumEmbed _
  | PRecordStatAccess _ | PArrayMap | PRecordMap | PLabelFlipPol | PLabelPol
  | PLabelGoDom | PLabelGoCodom | PLabelGoArray | PLabelGoDict | PSeq | PDeepSeq
  | PArrayLength | PArrayGen | PRecordFields _ | PRecordValues | PStringTrim
  | PStringChars | PStringUppercase | PStringLowercase | PStringLength | PToString
  | PNumberFromString | PEnumFromString | PStringIsMatch | PStringFind | PStringFindAll
  | PForce _ | PRecordEmptyWithTail | PRecordFreeze | PTrace | PLabelPushDiag
  | PEnumGetArg | PEnumMakeVariant | PEnumIsVariant | PEnumGetTag | PContractCustom
  | PNumberArcCos | PNumberArcSin | PNumberArcTan | PNumberCos | PNumberSin
  | PNumberTan => 1
  | PStringReplace | PStringReplaceRegex | PStringSubstr | PMergeContract
  | PRecordUnsealTail | PArraySlice => 3
  | PRecordSealTail | PLabelInsertTypeVar => 4
  | _ => 2
  end.

(** ** Expressions, patterns and types *)

Inductive TailPattern : Type := TailEmpty | TailOpen | TailCapture (id : Ident).

Inductive ConstantPatternData : Type :=
| ConstBool (b : bool) | ConstNumber (n : Number) | ConstString (s : string) | ConstNull.

Inductive Ast : Type :=
| NNull
| NBool (b : bool)
| NNumber (n : Number)
| NString (s : string)
| NStringChunks (chunks : list StringChunk)
| NFun (args : list Pattern) (body : Ast)
| NLet (bindings : list LetBinding) (body : Ast) (rec : bool)
| NApp (head : Ast) (args : list Ast)
| NVar (id : Ident)
| NEnumVariant (tag : Ident) (arg : option Ast)
| NRecord (record : Record)
| NIfThenElse (cond then_branch else_branch : Ast)
| NMatch (branches : list MatchBranch)
| NArray (elts : list Ast)
| NPrimOpApp (op : PrimOp) (args : list Ast)
| NAnnotated (annot : Annotation) (inner : Ast)
| NImport (i : Import)
| NType (typ : Type_)
| NParseError (token : nat)
with StringChunk : Type :=
| AChunkLiteral (s : string)
| AChunkExpr (e : Ast) (indent : nat)
with Pattern : Type :=
| mkPattern (data : PatternData) (alias : option Ident)
with PatternData : Type :=
| PatWildcard
| PatAny (id : Ident)
| PatRecord (patterns : list FieldPattern) (tail : TailPattern)
| PatArray (patterns : list Pattern) (tail : TailPattern)
| PatEnum (tag : Ident) (pattern : option Pattern)
| PatConstant (c : ConstantPatternData)
| PatOr (patterns : list Pattern)
with FieldPattern : Type :=
| mkFieldPattern (matched_id : Ident) (annotation : Annotation) (default : option Ast)
                 (pattern : Pattern)
with LetBinding : Type :=
| mkLetBinding (pattern : Pattern) (metadata : LetMetadata) (value : Ast)
with LetMetadata : Type :=
| mkLetMetadata (doc : option string) (annotation : Annotation)
with MatchBranch : Type :=
| mkMatchBranch (pattern : Pattern) (guard : option Ast) (body : Ast)
with Annotation : Type :=
| mkAnnotation (typ : option Type_) (contracts : list Type_)
with Record : Type :=
| mkRecord (includes : list Include) (field_defs : list FieldDef) (open : bool)
with Include : Type :=
| mkInclude (ident : Ident) (metadata : AstFieldMetadata)
with FieldDef : Type :=
| mkFieldDef (path : list FieldPathElem) (metadata : AstFieldMetadata) (value : option Ast)
with FieldPathElem : Type :=
| PathIdent (id : Ident)
| PathExpr (e : Ast)
with AstFieldMetadata : Type :=
| mkAstFieldMetadata (doc : option string) (annotation : Annotation) (opt not_exported : bool)
                     (priority : MergePriority)
with Type_ : Type :=
| ATyDyn | ATyNumber | ATyBool | ATyString | ATySymbol | ATyForeignId
| ATyContract (t : Ast)
| ATyArrow (dom codom : Type_)
| ATyVar (id : Ident)
| ATyForall (var : Ident) (var_kind : VarKind) (body : Type_)
| ATyEnum (erows : AstEnumRows)
| ATyRecord (rrows : AstRecordRows)
| ATyDict (type_fields : Type_) (flavour : DictTypeFlavour)
| ATyArray (t : Type_)
| ATyWildcard (id : nat)
with AstRecordRows : Type :=
| ARREmpty
| ARRExtend (id : Ident) (typ : Type_) (tail : AstRecordRows)
| ARRTailVar (id : Ident)
| ARRTailDyn
with AstEnumRows : Type :=
| AEREmpty
| AERExtend (id : Ident) (typ : option Type_) (tail : AstEnumRows)
| AERTailVar (id : Ident).

(** ** Projections *)

Definition pat_data (p : Pattern) := let 'mkPattern d _ := p in d.
Definition pat_alias (p : Pattern) := let 'mkPattern _ a := p in a.
Definition matched_id (p : FieldPattern) := let 'mkFieldPattern i _ _ _ := p in i.
Definition fp_annotation (p : FieldPattern) := let 'mkFieldPattern _ a _ _ := p in a.
Definition fp_default (p : FieldPattern) := let 'mkFieldPattern _ _ d _ := p in d.
Definition fp_pattern (p : FieldPattern) := let 'mkFieldPattern _ _ _ p := p in p.
Definition ast_annot_typ (a : Annotation) := let 'mkAnnotation t _ := a in t.
Definition ast_annot_contracts (a : Annotation) := let 'mkAnnotation _ c := a in c.
Definition rec_includes (r : Record) := let 'mkRecord i _ _ := r in i.
Definition field_defs (r : Record) := let 'mkRecord _ d _ := r in d.
Definition rec_open (r : Record) := let 'mkRecord _ _ o := r in o.
Definition path (d : FieldDef) := let 'mkFieldDef p _ _ := d in p.
Definition def_metadata (d : FieldDef) := let 'mkFieldDef _ m _ := d in m.
Definition def_value (d : FieldDef) := let 'mkFieldDef _ _ v := d in v.
Definition ast_doc (m : AstFieldMetadata) := let 'mkAstFieldMetadata d _ _ _ _ := m in d.
Definition ast_annotation (m : AstFieldMetadata) := let 'mkAstFieldMetadata _ a _ _ _ := m in a.
Definition ast_opt (m : AstFieldMetadata) := let 'mkAstFieldMetadata _ _ o _ _ := m in o.
Definition ast_not_exported (m : AstFieldMetadata) := let 'mkAstFieldMetadata _ _ _ n _ := m in n.
Definition ast_priority (m : AstFieldMetadata) := let 'mkAstFieldMetadata _ _ _ _ p := m in p.
Definition let_doc (m : LetMetadata) := let 'mkLetMetadata d _ := m in d.
Definition let_annotation (m : LetMetadata) := let 'mkLetMetadata _ a := m in a.

(** ** Static strings, annotations and metadata ([mod.rs], [record.rs]) *)

(** [StringChunk::try_chunks_as_static_str], on the chunks seen as a literal or
    [None]; also used for the chunks of a term. *)
Definition try_chunks_as_static_str (chunks : list (option string)) : option string :=
  foldl (λ acc next, acc ≫= λ acc, (λ lit, acc +:+ lit) <$> next) (Some "") chunks.

Definition chunk_literal (c : StringChunk) : option string :=
  match c with AChunkLiteral s => Some s | AChunkExpr _ _ => None end.

(** [Node::try_str_chunk_as_static_str], [Term::try_str_chunk_as_static_str] *)
Definition ast_static_str (a : Ast) : option string :=
  match a with
  | NStringChunks chunks => try_chunks_as_static_str (map chunk_literal chunks)
  | _ => None
  end.

Definition term_static_str (v : NickelValue) : option string :=
  match v with
  | VTerm (TStrChunks chunks) =>
      try_chunks_as_static_str
        (map (λ c, match c with ChunkLiteral s => Some s | ChunkExpr _ _ => None end) chunks)
  | _ => None
  end.

(** [Annotation::is_empty], [FieldMetadata::default], [is_empty] and the
    conversions. *)
Definition ast_annot_is_empty (a : Annotation) : bool :=
  match ast_annot_typ a, ast_annot_contracts a with None, [] => true | _, _ => false end.

Definition ast_annot_default : Annotation := mkAnnotation None [].

Definition ast_metadata_default : AstFieldMetadata :=
  mkAstFieldMetadata None ast_annot_default false false Neutral.

Definition ast_metadata_is_empty (m : AstFieldMetadata) : bool :=
  match ast_doc m with None => true | Some _ => false end
  && ast_annot_is_empty (ast_annotation m) && negb (ast_opt m) && negb (ast_not_exported m)
  && match ast_priority m with Neutral => true | _ => false end.

Definition metadata_from_annotation (a : Annotation) : AstFieldMetadata :=
  mkAstFieldMetadata None a false false Neutral.

Definition metadata_from_let (m : LetMetadata) : AstFieldMetadata :=
  mkAstFieldMetadata (let_doc m) (let_annotation m) false false Neutral.

(** [TryFrom<FieldMetadata> for LetMetadata] *)
Definition let_from_metadata (m : AstFieldMetadata) : result LetMetadata unit :=
  match m with
  | mkAstFieldMetadata doc annotation false false Neutral => Ok (mkLetMetadata doc annotation)
  | _ => Err ()
  end.

(** [Combine] ([combine.rs]) *)
Definition ast_annot_combine (left right : Annotation) : Annotation :=
  let '(typ, leftover) :=
    match ast_annot_typ left, ast_annot_typ right with
    | Some l, Some r => (Some l, Some r)
    | l, r => (or_else l r, None)
    end in
  mkAnnotation typ (ast_annot_contracts left ++ option_list leftover ++ ast_annot_contracts right).

Definition ast_metadata_combine (left right : AstFieldMetadata) : AstFieldMetadata :=
  mkAstFieldMetadata (merge_doc (ast_doc left) (ast_doc right))
    (ast_annot_combine (ast_annotation left) (ast_annotation right))
    (ast_opt left || ast_opt right) (ast_not_exported left || ast_not_exported right)
    (priority_combine (ast_priority left) (ast_priority right)).

(** ** Field paths and record definitions ([record.rs]) *)

(** [FieldPathElem::expr]: a static string is an identifier. *)
Definition path_elem_expr (e : Ast) : FieldPathElem :=
  match ast_static_str e with Some s => PathIdent (ident s) | None => PathExpr e end.

Definition try_as_ident (e : FieldPathElem) : option Ident :=
  match e with PathIdent id => Some id | PathExpr _ => None end.
Definition try_as_dyn_expr (e : FieldPathElem) : option Ast :=
  match e with PathIdent _ => None | PathExpr e => Some e end.

Definition path_as_ident (d : FieldDef) : option Ident :=
  match path d with [elem] => try_as_ident elem | _ => None end.

(** They panic on an empty path. *)
Definition name_as_ident (d : FieldDef) : outcome (option Ident) :=
  elem ← unwrap (last (path d)); Done (try_as_ident elem).
Definition root_as_ident (d : FieldDef) : outcome (option Ident) :=
  elem ← unwrap (head (path d)); Done (try_as_ident elem).

Definition ast_record_empty : Record := mkRecord [] [] false.
Definition ast_record_open (r : Record) : Record := mkRecord (rec_includes r) (field_defs r) true.

Definition is_static (e : FieldPathElem) : bool :=
  match try_as_ident e with Some _ => true | None => false end.

(** [Record::has_static_structure], as the code has it. *)
Definition has_static_structure (r : Record) : bool :=
  forallb (λ d, existsb is_static (path d)) (field_defs r).

Definition toplvl_dyn_fields (r : Record) : list Ast :=
  omap (λ d, head (path d) ≫= try_as_dyn_expr) (field_defs r).

Definition root_ident (d : FieldDef) : option Ident := head (path d) ≫= try_as_ident.

Definition defs_of (r : Record) (id : Ident) : list FieldDef :=
  List.filter (λ d, bool_decide (root_ident d = Some id)) (field_defs r).

Section group.
Context `{IndexMapOps Ident}.

(** [entry(id).or_insert_with(Vec::new).push(field)] *)
Definition group_by_field_id (r : Record) : IndexMap Ident (list FieldDef) :=
  foldl (λ m d,
      match root_ident d with
      | Some id => im_insert m id (default [] (im_get m id) ++ [d])
      | None => m
      end) [] (field_defs r).

End group.

(** ** Input formats *)

(** [InputFormat::from_path], from the extension of the path; [to_str] and
    [from_str]. The format [Nix] is behind a feature that is off. *)
Definition format_from_extension (ext : option string) : option InputFormat :=
  match ext with
  | Some ext =>
      if bool_decide (ext = "ncl") then Some FmtNickel
      else if bool_decide (ext = "json") then Some FmtJson
      else if bool_decide (ext = "yaml") || bool_decide (ext = "yml") then Some FmtYaml
      else if bool_decide (ext = "toml") then Some FmtToml
      else if bool_decide (ext = "txt") then Some FmtText
      else None
  | None => None
  end%string.

(** ** Patterns ([pattern/mod.rs]) *)

Definition pattern_any (id : Ident) : Pattern := mkPattern (PatAny id) None.
Definition try_as_any (p : Pattern) : option Ident :=
  match pat_data p with PatAny id => Some id | _ => None end.

(** [TailPattern::is_open] *)
Definition tail_is_open (t : TailPattern) : bool :=
  match t with TailOpen | TailCapture _ => true | TailEmpty => false end.

(** [RecordPattern::check_dup]: the first field matched twice, with its first
    occurrence. The hash map is keyed by the labels. *)
Fixpoint check_dup_go (bindings : gmap string Ident) (pats : list FieldPattern)
    : result unit (Ident * Ident) :=
  match pats with
  | [] => Ok ()
  | pat :: pats' =>
      let binding := matched_id pat in
      match bindings !! label binding with
      | Some prev_ident => Err (binding, prev_ident)
      | None => check_dup_go (<[label binding := binding]> bindings) pats'
      end
  end.

Definition check_dup (pats : list FieldPattern) : result unit (Ident * Ident) :=
  check_dup_go ∅ pats.
