(* ===== verification/AstInd.v ===== *)
(** * Induction on values and on the syntax tree

    Values, terms, types and fields are one mutual inductive type, nested in
    lists, options and pairs. This is its induction principle, with [Forall] for
    the elements of lists. Labels, runtime contracts, sealed tails and errors are
    opaque to it. The induction principle of the syntax tree follows. *)
From S2P Require Import Prelude IndexMap Values Ast.

Definition opt_forall {A} (P : A → Prop) (o : option A) : Prop :=
  match o with Some a => P a | None => True end.

Section induction.
Context (P : NickelValue → Prop) (Pt : Term → Prop) (Pty : Typ → Prop).
Context (Pr : RecordRows → Prop) (Pe : EnumRows → Prop).
Context (Pl : LabeledType → Prop) (Pm : FieldMetadata → Prop) (Pf : Field → Prop).

(** The cases without sub-values. *)
Definition leaf_value (v : NickelValue) : bool :=
  match v with
  | VArray (Alloc _) | VRecord (Alloc _) | VTerm _ | VEnumVariant _ (Some _)
  | VCustomContract _ | VType _ _ => false
  | _ => true
  end.
Definition leaf_term (t : Term) : bool :=
  match t with
  | TVar _ | TImport _ | TResolvedImport _ | TParseError _ | TRuntimeError _ => true
  | _ => false
  end.
Definition leaf_typ (t : Typ) : bool :=
  match t with
  | TyContract _ | TyArrow _ _ | TyForall _ _ _ | TyEnum _ | TyRecord _ | TyDict _ _
  | TyArray _ => false
  | _ => true
  end.

Context (Hleaf : ∀ v, leaf_value v = true → P v).
Context (Harray : ∀ l pending, Forall P l → P (VArray (Alloc (mkArrayData l pending)))).
Context (Hrecord : ∀ fs attrs tail, Forall (λ p, Pf p.2) fs →
  P (VRecord (Alloc (mkRecordData fs attrs tail)))).
Context (Hterm : ∀ t, Pt t → P (VTerm t)).
Context (Hvariant : ∀ tag v, P v → P (VEnumVariant tag (Some v))).
Context (Hcustom : ∀ v, P v → P (VCustomContract v)).
Context (Htype : ∀ t c, Pty t → P c → P (VType t c)).

Context (Htleaf : ∀ t, leaf_term t = true → Pt t).
Context (Hchunks : ∀ chunks,
  Forall (λ c, match c with ChunkExpr e _ => P e | ChunkLiteral _ => True end) chunks →
  Pt (TStrChunks chunks)).
Context (Hfun : ∀ arg body, P body → Pt (TFun arg body)).
Context (Hlet : ∀ bindings body attrs, Forall (λ p, P p.2) bindings → P body →
  Pt (TLet bindings body attrs)).
Context (Happ : ∀ head arg, P head → P arg → Pt (TApp head arg)).
Context (Hrec : ∀ fs attrs tail incl dyns deps closurized,
  Forall (λ p, Pf p.2) fs → Forall (λ p, Pm p.2) incl → Forall (λ p, P p.1 ∧ Pf p.2) dyns →
  Pt (TRecRecord (mkRecRecordData (mkRecordData fs attrs tail) incl dyns deps closurized))).
Context (Hclosurize : ∀ v, P v → Pt (TClosurize v)).
Context (Hop1 : ∀ op v, P v → Pt (TOp1 op v)).
Context (Hop2 : ∀ op v w, P v → P w → Pt (TOp2 op v w)).
Context (Hopn : ∀ op l, Forall P l → Pt (TOpN op l)).
Context (Hsealed : ∀ k v l, P v → Pt (TSealed k v l)).
Context (Hannot : ∀ typ contracts v, opt_forall Pl typ → Forall Pl contracts → P v →
  Pt (TAnnotated (mkTypeAnnotation typ contracts) v)).

Context (Htyleaf : ∀ t, leaf_typ t = true → Pty t).
Context (Hctr : ∀ v, P v → Pty (TyContract v)).
Context (Harrow : ∀ s t, Pty s → Pty t → Pty (TyArrow s t)).
Context (Hforall : ∀ v k t, Pty t → Pty (TyForall v k t)).
Context (Henum : ∀ e, Pe e → Pty (TyEnum e)).
Context (Hrrec : ∀ r, Pr r → Pty (TyRecord r)).
Context (Hdict : ∀ t f, Pty t → Pty (TyDict t f)).
Context (Htyarray : ∀ t, Pty t → Pty (TyArray t)).
Context (Hrempty : Pr RREmpty) (Hrvar : ∀ id, Pr (RRTailVar id)) (Hrdyn : Pr RRTailDyn).
Context (Hrext : ∀ id t r, Pty t → Pr r → Pr (RRExtend id t r)).
Context (Heempty : Pe EREmpty) (Hevar : ∀ id, Pe (ERTailVar id)).
Context (Heext : ∀ id t e, opt_forall Pty t → Pe e → Pe (ERExtend id t e)).
Context (Hlabeled : ∀ t l, Pty t → Pl (mkLabeledType t l)).
Context (Hmeta : ∀ doc typ contracts o n p, opt_forall Pl typ → Forall Pl contracts →
  Pm (mkFieldMetadata doc (mkTypeAnnotation typ contracts) o n p)).
Context (Hfield : ∀ v m pending, opt_forall P v → opt_forall Pm m →
  Pf (mkField v (Shared m) pending)).

Fixpoint value_ind' (v : NickelValue) : P v :=
  match v with
  | VArray (Alloc (mkArrayData l pending)) =>
      Harray l pending
        ((fix go l : Forall P l :=
            match l with [] => Forall_nil_2 P | v :: l => Forall_cons_2 P v l (value_ind' v) (go l) end) l)
  | VRecord (Alloc (mkRecordData fs attrs tail)) =>
      Hrecord fs attrs tail
        ((fix go (l : list (Ident * Field)) : Forall (λ p, Pf p.2) l :=
            match l with
            | [] => Forall_nil_2 _
            | (id, f) :: l => Forall_cons_2 _ (id, f) l (field_ind' f) (go l)
            end) fs)
  | VTerm t => Hterm t (term_ind' t)
  | VEnumVariant tag (Some v) => Hvariant tag v (value_ind' v)
  | VCustomContract v => Hcustom v (value_ind' v)
  | VType t c => Htype t c (type_ind' t) (value_ind' c)
  | v => Hleaf v eq_refl
  end
with term_ind' (t : Term) : Pt t :=
  match t with
  | TStrChunks chunks =>
      Hchunks chunks
        ((fix go l : Forall (λ c, match c with ChunkExpr e _ => P e | ChunkLiteral _ => True end) l :=
            match l with
            | [] => Forall_nil_2 _
            | c :: l =>
                Forall_cons_2 _ c l
                  (match c return match c with ChunkExpr e _ => P e | ChunkLiteral _ => True end with
                   | ChunkExpr e _ => value_ind' e
                   | ChunkLiteral _ => I
                   end) (go l)
            end) chunks)
  | TFun arg body => Hfun arg body (value_ind' body)
  | TLet bindings body attrs =>
      Hlet bindings body attrs
        ((fix go (l : list (Ident * NickelValue)) : Forall (λ p, P p.2) l :=
            match l with
            | [] => Forall_nil_2 _
            | (id, v) :: l => Forall_cons_2 _ (id, v) l (value_ind' v) (go l)
            end) bindings) (value_ind' body)
  | TApp head arg => Happ head arg (value_ind' head) (value_ind' arg)
  | TRecRecord (mkRecRecordData (mkRecordData fs attrs tail) incl dyns deps closurized) =>
      Hrec fs attrs tail incl dyns deps closurized
        ((fix go (l : list (Ident * Field)) : Forall (λ p, Pf p.2) l :=
            match l with
            | [] => Forall_nil_2 _
            | (id, f) :: l => Forall_cons_2 _ (id, f) l (field_ind' f) (go l)
            end) fs)
        ((fix go (l : list (Ident * FieldMetadata)) : Forall (λ p, Pm p.2) l :=
            match l with
            | [] => Forall_nil_2 _
            | (id, m) :: l => Forall_cons_2 _ (id, m) l (metadata_ind' m) (go l)
            end) incl)
        ((fix go (l : list (NickelValue * Field)) : Forall (λ p, P p.1 ∧ Pf p.2) l :=
            match l with
            | [] => Forall_nil_2 _
            | (v, f) :: l => Forall_cons_2 _ (v, f) l (conj (value_ind' v) (field_ind' f)) (go l)
            end) dyns)
  | TClosurize v => Hclosurize v (value_ind' v)
  | TOp1 op v => Hop1 op v (value_ind' v)
  | TOp2 op v w => Hop2 op v w (value_ind' v) (value_ind' w)
  | TOpN op l =>
      Hopn op l
        ((fix go l : Forall P l :=
            match l with [] => Forall_nil_2 P | v :: l => Forall_cons_2 P v l (value_ind' v) (go l) end) l)
  | TSealed k v l => Hsealed k v l (value_ind' v)
  | TAnnotated (mkTypeAnnotation typ contracts) v =>
      Hannot typ contracts v
        (match typ return opt_forall Pl typ with Some t => labeled_ind' t | None => I end)
        ((fix go l : Forall Pl l :=
            match l with [] => Forall_nil_2 Pl | t :: l => Forall_cons_2 Pl t l (labeled_ind' t) (go l) end)
           contracts) (value_ind' v)
  | t => Htleaf t eq_refl
  end
with type_ind' (t : Typ) : Pty t :=
  match t with
  | TyContract v => Hctr v (value_ind' v)
  | TyArrow s t => Harrow s t (type_ind' s) (type_ind' t)
  | TyForall v k t => Hforall v k t (type_ind' t)
  | TyEnum e => Henum e (enumrows_ind' e)
  | TyRecord r => Hrrec r (recordrows_ind' r)
  | TyDict t f => Hdict t f (type_ind' t)
  | TyArray t => Htyarray t (type_ind' t)
  | t => Htyleaf t eq_refl
  end
with recordrows_ind' (r : RecordRows) : Pr r :=
  match r with
  | RREmpty => Hrempty
  | RRTailVar id => Hrvar id
  | RRTailDyn => Hrdyn
  | RRExtend id t r => Hrext id t r (type_ind' t) (recordrows_ind' r)
  end
with enumrows_ind' (e : EnumRows) : Pe e :=
  match e with
  | EREmpty => Heempty
  | ERTailVar id => Hevar id
  | ERExtend id t e =>
      Heext id t e (match t return opt_forall Pty t with Some t => type_ind' t | None => I end)
        (enumrows_ind' e)
  end
with labeled_ind' (t : LabeledType) : Pl t :=
  match t with mkLabeledType t l => Hlabeled t l (type_ind' t) end
with metadata_ind' (m : FieldMetadata) : Pm m :=
  match m with
  | mkFieldMetadata doc (mkTypeAnnotation typ contracts) o n p =>
      Hmeta doc typ contracts o n p
        (match typ return opt_forall Pl typ with Some t => labeled_ind' t | None => I end)
        ((fix go l : Forall Pl l :=
            match l with [] => Forall_nil_2 Pl | t :: l => Forall_cons_2 Pl t l (labeled_ind' t) (go l) end)
           contracts)
  end
with field_ind' (f : Field) : Pf f :=
  match f with
  | mkField v (Shared m) pending =>
      Hfield v m pending
        (match v return opt_forall P v with Some v => value_ind' v | None => I end)
        (match m return opt_forall Pm m with Some m => metadata_ind' m | None => I end)
  end.

Lemma value_mutind :
  (∀ v, P v) ∧ (∀ t, Pt t) ∧ (∀ t, Pty t) ∧ (∀ m, Pm m) ∧ (∀ f, Pf f).
Proof.
  split_and!; [apply value_ind'|apply term_ind'|apply type_ind'|apply metadata_ind'|apply field_ind'].
Qed.

End induction.

(** * Induction on the syntax tree

    Expressions, patterns, annotations and types are one mutual inductive type,
    nested in lists and options. This is its induction principle; what a chunk, a
    binding, a branch, a path or a definition is made of is given by the
    predicates [chunk_all] to [def_all]. *)

Definition list_all {A} {P : A → Prop} (f : ∀ a, P a) : ∀ l, Forall P l :=
  fix go l := match l with [] => Forall_nil_2 P | a :: l => Forall_cons_2 P a l (f a) (go l) end.

Definition opt_all {A} {P : A → Prop} (f : ∀ a, P a) (o : option A) : opt_forall P o :=
  match o with Some a => f a | None => I end.

Section parts.
Context (P : Ast → Prop) (Pp : Pattern → Prop) (Pa : Annotation → Prop) (Pm : AstFieldMetadata → Prop).

Definition chunk_all (c : StringChunk) : Prop :=
  match c with AChunkLiteral _ => True | AChunkExpr e _ => P e end.
Definition path_all (e : FieldPathElem) : Prop :=
  match e with PathIdent _ => True | PathExpr e => P e end.
Definition fp_all (fp : FieldPattern) : Prop :=
  let 'mkFieldPattern _ a d p := fp in Pa a ∧ opt_forall P d ∧ Pp p.
Definition binding_all (b : LetBinding) : Prop :=
  let 'mkLetBinding p (mkLetMetadata _ a) v := b in Pp p ∧ Pa a ∧ P v.
Definition branch_all (b : MatchBranch) : Prop :=
  let 'mkMatchBranch p g body := b in Pp p ∧ opt_forall P g ∧ P body.
Definition include_all (i : Include) : Prop := let 'mkInclude _ m := i in Pm m.
Definition def_all (d : FieldDef) : Prop :=
  let 'mkFieldDef path m v := d in Forall path_all path ∧ Pm m ∧ opt_forall P v.

End parts.

Section induction.
Context (P : Ast → Prop) (Pp : Pattern → Prop) (Pa : Annotation → Prop).
Context (Pm : AstFieldMetadata → Prop).
Context (Pty : Type_ → Prop) (Pr : AstRecordRows → Prop) (Pe : AstEnumRows → Prop).

(** The cases without sub-trees. *)
Definition leaf_ast (a : Ast) : bool :=
  match a with
  | NNull | NBool _ | NNumber _ | NString _ | NVar _ | NImport _ | NParseError _
  | NEnumVariant _ None => true
  | _ => false
  end.
Definition leaf_pattern (d : PatternData) : bool :=
  match d with PatWildcard | PatAny _ | PatConstant _ | PatEnum _ None => true | _ => false end.
Definition leaf_type (t : Type_) : bool :=
  match t with
  | ATyDyn | ATyNumber | ATyBool | ATyString | ATySymbol | ATyForeignId | ATyVar _
  | ATyWildcard _ => true
  | _ => false
  end.

Context (Hleaf : ∀ a, leaf_ast a = true → P a).
Context (Hchunks : ∀ l, Forall (chunk_all P) l → P (NStringChunks l)).
Context (Hfun : ∀ args body, Forall Pp args → P body → P (NFun args body)).
Context (Hlet : ∀ bs body rec, Forall (binding_all P Pp Pa) bs → P body → P (NLet bs body rec)).
Context (Happ : ∀ h args, P h → Forall P args → P (NApp h args)).
Context (Hvariant : ∀ tag a, P a → P (NEnumVariant tag (Some a))).
Context (Hrecord : ∀ includes defs open, Forall (include_all Pm) includes →
  Forall (def_all P Pm) defs → P (NRecord (mkRecord includes defs open))).
Context (Hif : ∀ c t e, P c → P t → P e → P (NIfThenElse c t e)).
Context (Hmatch : ∀ l, Forall (branch_all P Pp) l → P (NMatch l)).
Context (Harray : ∀ l, Forall P l → P (NArray l)).
Context (Hop : ∀ op l, Forall P l → P (NPrimOpApp op l)).
Context (Hannotated : ∀ an a, Pa an → P a → P (NAnnotated an a)).
Context (Htype : ∀ t, Pty t → P (NType t)).

Context (Hpleaf : ∀ d alias, leaf_pattern d = true → Pp (mkPattern d alias)).
Context (Hprecord : ∀ l tail alias, Forall (fp_all P Pp Pa) l →
  Pp (mkPattern (PatRecord l tail) alias)).
Context (Hparray : ∀ l tail alias, Forall Pp l → Pp (mkPattern (PatArray l tail) alias)).
Context (Hpenum : ∀ tag p alias, Pp p → Pp (mkPattern (PatEnum tag (Some p)) alias)).
Context (Hpor : ∀ l alias, Forall Pp l → Pp (mkPattern (PatOr l) alias)).

Context (Hannot : ∀ typ contracts, opt_forall Pty typ → Forall Pty contracts →
  Pa (mkAnnotation typ contracts)).
Context (Hmeta : ∀ doc a opt ne prio, Pa a → Pm (mkAstFieldMetadata doc a opt ne prio)).

Context (Htleaf : ∀ t, leaf_type t = true → Pty t).
Context (Hctr : ∀ a, P a → Pty (ATyContract a)).
Context (Harrow : ∀ s t, Pty s → Pty t → Pty (ATyArrow s t)).
Context (Hforall : ∀ v k t, Pty t → Pty (ATyForall v k t)).
Context (Henum : ∀ e, Pe e → Pty (ATyEnum e)) (Hrrec : ∀ r, Pr r → Pty (ATyRecord r)).
Context (Hdict : ∀ t f, Pty t → Pty (ATyDict t f)) (Htyarray : ∀ t, Pty t → Pty (ATyArray t)).
Context (Hrempty : Pr ARREmpty) (Hrvar : ∀ id, Pr (ARRTailVar id)) (Hrdyn : Pr ARRTailDyn).
Context (Hrext : ∀ id t r, Pty t → Pr r → Pr (ARRExtend id t r)).
Context (Heempty : Pe AEREmpty) (Hevar : ∀ id, Pe (AERTailVar id)).
Context (Heext : ∀ id t e, opt_forall Pty t → Pe e → Pe (AERExtend id t e)).

Fixpoint ast_ind' (a : Ast) : P a :=
  match a with
  | NStringChunks l => Hchunks l (list_all chunk_ind' l)
  | NFun args body => Hfun args body (list_all pattern_ind' args) (ast_ind' body)
  | NLet bs body rec => Hlet bs body rec (list_all binding_ind' bs) (ast_ind' body)
  | NApp h args => Happ h args (ast_ind' h) (list_all ast_ind' args)
  | NEnumVariant tag (Some a) => Hvariant tag a (ast_ind' a)
  | NRecord (mkRecord includes defs open) =>
      Hrecord includes defs open (list_all include_ind' includes) (list_all def_ind' defs)
  | NIfThenElse c t e => Hif c t e (ast_ind' c) (ast_ind' t) (ast_ind' e)
  | NMatch l => Hmatch l (list_all branch_ind' l)
  | NArray l => Harray l (list_all ast_ind' l)
  | NPrimOpApp op l => Hop op l (list_all ast_ind' l)
  | NAnnotated an a => Hannotated an a (annot_ind' an) (ast_ind' a)
  | NType t => Htype t (atype_ind' t)
  | a => Hleaf a eq_refl
  end
with chunk_ind' (c : StringChunk) : chunk_all P c :=
  match c with AChunkLiteral _ => I | AChunkExpr e _ => ast_ind' e end
with pattern_ind' (p : Pattern) : Pp p :=
  match p with
  | mkPattern d alias =>
      match d return Pp (mkPattern d alias) with
      | PatRecord l tail => Hprecord l tail alias (list_all fp_ind' l)
      | PatArray l tail => Hparray l tail alias (list_all pattern_ind' l)
      | PatEnum tag (Some p) => Hpenum tag p alias (pattern_ind' p)
      | PatOr l => Hpor l alias (list_all pattern_ind' l)
      | d => Hpleaf d alias eq_refl
      end
  end
with fp_ind' (fp : FieldPattern) : fp_all P Pp Pa fp :=
  match fp with
  | mkFieldPattern _ a d p => conj (annot_ind' a) (conj (opt_all ast_ind' d) (pattern_ind' p))
  end
with binding_ind' (b : LetBinding) : binding_all P Pp Pa b :=
  match b with
  | mkLetBinding p m v =>
      match m return binding_all P Pp Pa (mkLetBinding p m v) with
      | mkLetMetadata _ a => conj (pattern_ind' p) (conj (annot_ind' a) (ast_ind' v))
      end
  end
with branch_ind' (b : MatchBranch) : branch_all P Pp b :=
  match b with
  | mkMatchBranch p g body => conj (pattern_ind' p) (conj (opt_all ast_ind' g) (ast_ind' body))
  end
with include_ind' (i : Include) : include_all Pm i :=
  match i with mkInclude _ m => ameta_ind' m end
with def_ind' (d : FieldDef) : def_all P Pm d :=
  match d with
  | mkFieldDef path m v =>
      conj (list_all path_ind' path) (conj (ameta_ind' m) (opt_all ast_ind' v))
  end
with path_ind' (e : FieldPathElem) : path_all P e :=
  match e with PathIdent _ => I | PathExpr e => ast_ind' e end
with annot_ind' (a : Annotation) : Pa a :=
  match a with
  | mkAnnotation typ contracts =>
      Hannot typ contracts (opt_all atype_ind' typ) (list_all atype_ind' contracts)
  end
with ameta_ind' (m : AstFieldMetadata) : Pm m :=
  match m with mkAstFieldMetadata doc a opt ne prio => Hmeta doc a opt ne prio (annot_ind' a) end
with atype_ind' (t : Type_) : Pty t :=
  match t with
  | ATyContract a => Hctr a (ast_ind' a)
  | ATyArrow s t => Harrow s t (atype_ind' s) (atype_ind' t)
  | ATyForall v k t => Hforall v k t (atype_ind' t)
  | ATyEnum e => Henum e (aerows_ind' e)
  | ATyRecord r => Hrrec r (arrows_ind' r)
  | ATyDict t f => Hdict t f (atype_ind' t)
  | ATyArray t => Htyarray t (atype_ind' t)
  | t => Htleaf t eq_refl
  end
with arrows_ind' (r : AstRecordRows) : Pr r :=
  match r with
  | ARREmpty => Hrempty
  | ARRExtend id t r => Hrext id t r (atype_ind' t) (arrows_ind' r)
  | ARRTailVar id => Hrvar id
  | ARRTailDyn => Hrdyn
  end
with aerows_ind' (e : AstEnumRows) : Pe e :=
  match e with
  | AEREmpty => Heempty
  | AERExtend id t e => Heext id t e (opt_all atype_ind' t) (aerows_ind' e)
  | AERTailVar id => Hevar id
  end.

Lemma ast_mutind :
  (∀ a, P a) ∧ (∀ p, Pp p) ∧ (∀ a, Pa a) ∧ (∀ m, Pm m) ∧ (∀ t, Pty t) ∧ (∀ r, Pr r) ∧ (∀ e, Pe e).
Proof.
  split_and!; [apply ast_ind'|apply pattern_ind'|apply annot_ind'|apply ameta_ind'
              |apply atype_ind'|apply arrows_ind'|apply aerows_ind'].
Qed.

End induction.
