(* ===== verification/Pattern.v ===== *)
(** * Compilation of patterns ([core/src/term/pattern/compile.rs],
    [parser/src/ast/pattern/bindings.rs])

    The variables bound by a pattern, and the compilation of match expressions,
    destructuring lets and destructuring functions to terms without patterns.
    A pattern compiles to nested conditionals that continue with [match_cont] or
    [fail_cont]; the variables of the pattern are bound to fresh names on the
    way, and to their own names just before the body.

    The annotations and the default values in patterns are lowered with the
    functions [lower_ast] and [lower_annot] of [Lowering.v], and the contracts of
    an annotated field are generated by [transform_one] of [TypeContracts.v]; both
    call the compilation in turn, so that they are arguments here. *)
From S2P Require Import Prelude IndexMap Values Records Make Ast.

(** ** Bindings *)

Record PatBinding : Type := mkPatBinding {
  bind_path : list Ident; bind_id : Ident; bind_metadata : AstFieldMetadata;
}.

Definition tail_bindings (path : list Ident) (parent : option AstFieldMetadata) (t : TailPattern)
    : list PatBinding :=
  match t with
  | TailCapture rest => [mkPatBinding path rest (default ast_metadata_default parent)]
  | _ => []
  end.

(** [inject_bindings], as the list of what it pushes. *)
Fixpoint inject_bindings (p : Pattern) (path : list Ident) (parent : option AstFieldMetadata)
    {struct p} : list PatBinding :=
  let 'mkPattern data alias := p in
  match alias with
  | Some alias => [mkPatBinding path alias (default ast_metadata_default parent)]
  | None => []
  end ++
  match data with
  | PatAny id => [mkPatBinding path id (default ast_metadata_default parent)]
  | PatRecord patterns tail =>
      concat (map (λ fp, let 'mkFieldPattern id annotation _ pat := fp in
        inject_bindings pat (path ++ [id]) (Some (metadata_from_annotation annotation))) patterns)
      ++ tail_bindings path parent tail
  | PatArray patterns tail =>
      concat (map (λ pat, inject_bindings pat path None) patterns)
      ++ tail_bindings path None tail
  | PatEnum _ pattern =>
      match pattern with Some arg_pat => inject_bindings arg_pat path None | None => [] end
  | PatOr patterns => concat (map (λ pat, inject_bindings pat path parent) patterns)
  | PatWildcard | PatConstant _ => []
  end.

Definition bindings (p : Pattern) : list PatBinding := inject_bindings p [] None.

(** The names only. *)
Definition bound_ids (p : Pattern) : list Ident := map bind_id (bindings p).

(** ** Compilation *)

(** [MatchBranch] of the lowering: the guard and the body are terms already. *)
Record CoreBranch : Type := mkCoreBranch {
  branch_pattern : Pattern; branch_guard : option NickelValue; branch_body : NickelValue;
}.

Definition record_insert : BinaryOp := RecordInsert (Shared None) [] WithValue ConsiderAllFields.

Definition is_bool_true (v : NickelValue) : bool := match v with VBool true => true | _ => false end.

(** [and], which leaves the constant [true] out. *)
Definition and_value (a b : NickelValue) : NickelValue :=
  if is_bool_true a then b else if is_bool_true b then a else app (op1 BoolAnd a) b.

Definition is_typeof (value_id : Ident) (nickel_type : string) : NickelValue :=
  op2 Eq_ (op1 Typeof (var value_id)) (enum_tag nickel_type).

(** [ConstantPatternData::compile_part] *)
Definition compile_constant (c : ConstantPatternData) (value_id : Ident)
    (match_cont fail_cont : NickelValue) : NickelValue :=
  let '(nickel_type, value) :=
    match c with
    | ConstBool b => ("Bool"%string, VBool b)
    | ConstNumber n => ("Number"%string, VNumber n)
    | ConstString s => ("String"%string, VString s)
    | ConstNull => ("Other"%string, VNull)
    end in
  if_then_else (app (op1 BoolAnd (is_typeof value_id nickel_type)) (op2 Eq_ (var value_id) value))
    match_cont fail_cont.

(** The test that the fields without a default value are defined. *)
Definition has_fields (local_value_id : Ident) (patterns : list FieldPattern) : NickelValue :=
  foldr (λ fp has_other_fields,
      match fp_default fp with
      | Some _ => has_other_fields
      | None =>
          and_value (op2 (RecordFieldIsDefined ConsiderAllFields)
                         (VString (label (matched_id fp))) (var local_value_id))
                    has_other_fields
      end) (VBool true) patterns.

Definition has_right_length (local_value_id : Ident) (patterns : list FieldPattern)
    (tail : TailPattern) : NickelValue :=
  if tail_is_open tail then VBool true
  else op2 Eq_ (op1 ArrayLength (op1 (RecordFields IgnoreEmptyOpt) (var local_value_id)))
         (number_of_nat_value (length patterns)).

(** The rest of a record, without the fields matched by the pattern. *)
Definition tail_value (local_value_id : Ident) (patterns : list FieldPattern) : NickelValue :=
  foldl (λ tail fp, op2 (RecordRemove ConsiderAllFields) (VString (label (matched_id fp))) tail)
    (var local_value_id) patterns.

(** What [compile_part] makes of a pattern: the compilation of a match expression
    or of a destructuring is written over it, as the syntax tree is lowered pattern
    by pattern. *)
Definition Part : Type := Ident → NickelValue → NickelValue → gmap Ident Ident → Fresh NickelValue.

Section compile.
Context `{IndexMapOps Ident, HashOrder}.
Context (lower_ast : Ast → Fresh NickelValue).
Context (lower_annot : Annotation → Fresh TypeAnnotation).
Context (transform_one : NickelValue → Fresh (result NickelValue Ident)).

Definition bound_to (bindings : gmap Ident Ident) (id : Ident) : Fresh Ident :=
  fresh_lift (unwrap (bindings !! id)).

(** [update_with_merge]: [record_id & { id = field }] *)
Definition update_with_merge (record_id id : Ident) (field : Field) : Fresh NickelValue :=
  let singleton := record_posless (mkRecordData [(id, field)] attrs_default None) in
  r ← transform_one singleton;
  singleton ← match r with Ok v => mret v | Err _ => fresh_panic end;
  mret (op2 (MergeOp (mkMergeLabel MergeStandard)) (var record_id) (closurize_term singleton)).

(** [with_default_value] *)
Definition with_default_value (record_id field : Ident) (default : NickelValue) : Fresh NickelValue :=
  let field_not_defined :=
    op1 BoolNot (op2 (RecordFieldIsDefined ConsiderAllFields) (VString (label field))
                     (var record_id)) in
  let has_field := op2 (RecordHasField ConsiderAllFields) (VString (label field)) (var record_id) in
  let insert := app (op2 record_insert (VString (label field)) (var record_id)) default in
  update ← update_with_merge record_id field (field_from_value default);
  mret (if_then_else field_not_defined (if_then_else has_field update insert) (var record_id)).

(** The capture of the tail of a record or of an array. *)
Definition compile_tail (bindings : gmap Ident Ident) (tail : TailPattern)
    (tail_value match_cont : NickelValue) : Fresh NickelValue :=
  match tail with
  | TailCapture rest => id ← bound_to bindings rest; mret (let_one_in id tail_value match_cont)
  | _ => mret match_cont
  end.

(** The annotation of a field pattern, merged into the record. *)
Definition compile_annotation (local_value_id field : Ident) (annotation : Annotation)
    (match_cont : NickelValue) : Fresh NickelValue :=
  if negb (ast_annot_is_empty annotation) then
    a ← lower_annot annotation;
    update ← update_with_merge local_value_id field
               (mkField None (to_shared (mkFieldMetadata None a false false Neutral)) []);
    mret (let_one_in local_value_id update match_cont)
  else mret match_cont.

(** The default value of a field pattern, inserted into the record. *)
Definition compile_default (local_value_id field : Ident) (default : option Ast)
    (cont : NickelValue) : Fresh NickelValue :=
  match default with
  | Some default =>
      d ← lower_ast default;
      w ← with_default_value local_value_id field d;
      mret (let_one_in local_value_id w cont)
  | None => mret cont
  end.

Definition compile_alias (bindings : gmap Ident Ident) (alias : option Ident) (value_id : Ident)
    (match_cont : NickelValue) : Fresh NickelValue :=
  match alias with
  | Some alias => id ← bound_to bindings alias; mret (let_one_in id (var value_id) match_cont)
  | None => mret match_cont
  end.

(** [CompilePart], on patterns and on what they are made of. *)
Fixpoint compile_part (p : Pattern) (value_id : Ident) (match_cont fail_cont : NickelValue)
    (bindings : gmap Ident Ident) {struct p} : Fresh NickelValue :=
  let 'mkPattern data alias := p in
  match_cont ← compile_alias bindings alias value_id match_cont;
  match data with
  | PatWildcard => mret match_cont
  | PatAny id => id' ← bound_to bindings id; mret (let_one_in id' (var value_id) match_cont)
  | PatConstant c => mret (compile_constant c value_id match_cont fail_cont)
  | PatOr patterns =>
      foldrM_fresh (λ pattern cont, compile_part pattern value_id match_cont cont bindings)
        fail_cont patterns
  | PatEnum tag pattern =>
      let tag_matches := op2 Eq_ (op1 EnumGetTag (var value_id)) (VEnumVariant tag None) in
      match pattern with
      | Some pat =>
          let if_condition := app (op1 BoolAnd (op1 EnumIsVariant (var value_id))) tag_matches in
          next_value_id ← fresh;
          cont ← compile_part pat next_value_id match_cont fail_cont bindings;
          mret (if_then_else if_condition
                  (let_one_in next_value_id (op1 EnumGetArg (var value_id)) cont) fail_cont)
      | None =>
          let is_enum_tag := op1 BoolNot (op1 EnumIsVariant (var value_id)) in
          let if_condition :=
            app (op1 BoolAnd (is_typeof value_id "Enum"))
                (app (op1 BoolAnd is_enum_tag) tag_matches) in
          mret (if_then_else if_condition match_cont fail_cont)
      end
  | PatArray patterns tail =>
      value_len_id ← fresh;
      let pats_len := number_of_nat_value (length patterns) in
      match_cont ← compile_tail bindings tail
                     (opn ArraySlice [pats_len; var value_len_id; var value_id]) match_cont;
      fold_block ←
        foldriM_fresh (λ idx elem_pat match_cont,
            local_value_id ← fresh;
            cont ← compile_part elem_pat local_value_id match_cont fail_cont bindings;
            mret (let_one_in local_value_id
                    (op2 ArrayAt (var value_id) (number_of_nat_value idx)) cont))
          0 match_cont patterns;
      let comp_op := if tail_is_open tail then GreaterOrEq else Eq_ in
      let outer_check := app (op1 BoolAnd (is_typeof value_id "Array"))
                             (op2 comp_op (var value_len_id) pats_len) in
      mret (let_one_in value_len_id (op1 ArrayLength (var value_id))
              (if_then_else outer_check fold_block fail_cont))
  | PatRecord patterns tail =>
      local_value_id ← fresh;
      let matches_shallow := and_value (has_fields local_value_id patterns)
                               (has_right_length local_value_id patterns tail) in
      match_cont ← compile_tail bindings tail (tail_value local_value_id patterns) match_cont;
      fold_block ←
        foldrM_fresh (λ fp match_cont,
            let 'mkFieldPattern field annotation _ pattern := fp in
            local_field_id ← fresh;
            match_cont ← compile_part pattern local_field_id match_cont fail_cont bindings;
            let match_cont := let_one_in local_field_id
                                (op1 (RecordAccess field) (var local_value_id)) match_cont in
            compile_annotation local_value_id field annotation match_cont)
          match_cont patterns;
      let inner_if := if_then_else matches_shallow fold_block fail_cont in
      with_defaults ←
        foldM_fresh (λ cont fp,
            let 'mkFieldPattern field _ default _ := fp in
            compile_default local_value_id field default cont)
          inner_if patterns;
      mret (if_then_else (is_typeof value_id "Record")
              (let_one_in local_value_id (var value_id) with_defaults) fail_cont)
  end.

(** ** Match expressions *)

(** [TagsOnlyMatch::compile] *)
Definition tags_only_compile (branches : list (Ident * NickelValue)) (default : option NickelValue)
    (value : NickelValue) : NickelValue :=
  let has_default := match default with Some _ => true | None => false end in
  let match_op := app (op1 (TagsOnlyMatch has_default) value)
                      (record_posless (with_field_values branches)) in
  match default with Some default => app match_op default | None => match_op end.

Definition is_tags_only (b : CoreBranch) : bool :=
  match pat_data (branch_pattern b), branch_guard b with
  | (PatEnum _ None | PatWildcard), None => true
  | _, _ => false
  end.

Definition is_wildcard_branch (b : CoreBranch) : bool :=
  match pat_data (branch_pattern b), branch_guard b with PatWildcard, None => true | _, _ => false end.

(** The specialisation for matches on enum tags: the branches after a wildcard
    are dropped, the last of the branches of a tag stays. *)
Definition compile_tags_only (branches : list CoreBranch) (value : NickelValue) : NickelValue :=
  let '(branches, default) :=
    match list_find is_wildcard_branch branches with
    | Some (idx, b) => (take (S idx) branches, Some (branch_body b))
    | None => (branches, None)
    end in
  let tags_only :=
    omap (λ b, match pat_data (branch_pattern b) with
               | PatEnum tag _ => Some (tag, branch_body b)
               | _ => None
               end) branches in
  tags_only_compile tags_only default value.

(** Fresh names for the variables of a pattern. *)
Definition fresh_bindings (ids : list Ident) : Fresh (gmap Ident Ident) :=
  l ← mapM (λ id, id' ← fresh; mret (id, id')) ids;
  mret (hash_collect l).

Definition compile_branch_with (value_id : Ident) (b : CoreBranch * Part) (fail_cont : NickelValue)
    : Fresh NickelValue :=
  let '(branch, part) := b in
  bindings ← fresh_bindings (bound_ids (branch_pattern branch));
  let match_cont :=
    match branch_guard branch with
    | Some guard => if_then_else guard (branch_body branch) fail_cont
    | None => branch_body branch
    end in
  let match_cont :=
    let_in false (map (λ p : Ident * Ident, (p.1, var p.2)) (hash_iter bindings)) match_cont in
  part value_id match_cont fail_cont bindings.

(** [MatchData::compile] *)
Definition compile_match_with (branches : list (CoreBranch * Part)) (value : NickelValue)
    : Fresh NickelValue :=
  if forallb is_tags_only branches.*1 then mret (compile_tags_only branches.*1 value)
  else
    let error_case := VTerm (TRuntimeError (NonExhaustiveMatch value)) in
    value_id ← fresh;
    fold_block ← foldrM_fresh (compile_branch_with value_id) error_case branches;
    mret (let_one_in value_id value fold_block).

Definition with_part (b : CoreBranch) : CoreBranch * Part := (b, compile_part (branch_pattern b)).

Definition compile_branch (value_id : Ident) (b : CoreBranch) : NickelValue → Fresh NickelValue :=
  compile_branch_with value_id (with_part b).

Definition compile_match (branches : list CoreBranch) (value : NickelValue) : Fresh NickelValue :=
  compile_match_with (map with_part branches) value.

(** ** Destructuring *)

(** The three groups of bindings made by a destructuring let: outer, mid, inner. *)
Definition LetGroups : Type :=
  list (Ident * NickelValue) * list (Ident * NickelValue) * list (Ident * NickelValue).

Definition compile_let_binding (groups : LetGroups) (b : Pattern * Part * NickelValue)
    : Fresh LetGroups :=
  let '(outer, mid, inner) := groups in
  let '(pat, part, rhs) := b in
  let error_case := VTerm (TRuntimeError (FailedDestructuring rhs)) in
  outer_id ← fresh;
  mid_id ← fresh;
  let ids := bound_ids pat in
  let inner' := map (λ id, (id, static_access (var mid_id) [id])) ids in
  pattern_bindings ← fresh_bindings ids;
  let bindings_record :=
    record_posless (mkRecordData
      (im_extend [] (map (λ p : Ident * Ident, (p.1, field_from_value (var p.2)))
                         (hash_iter pattern_bindings))) attrs_default None) in
  m ← part outer_id bindings_record error_case pattern_bindings;
  mret (outer ++ [(outer_id, rhs)], mid ++ [(mid_id, m)], inner ++ inner').

(** [compile_let_pattern] *)
Definition compile_let_pattern (bs : list (Pattern * Part * NickelValue)) (body : NickelValue) (rec : bool)
    : Fresh Term :=
  '(outer, mid, inner) ← foldM_fresh compile_let_binding ([], [], []) bs;
  let checked_body := foldr (λ p acc, app (op1 Seq (var p.1)) acc) body mid in
  let attrs := mkLetAttrs Normal rec in
  mret (if rec then TLet (outer ++ mid ++ inner) checked_body attrs
        else TLet outer (VTerm (TLet mid (VTerm (TLet inner checked_body attrs)) attrs)) attrs).

(** [compile_fun_pattern] *)
Definition compile_fun_pattern (pattern : Pattern) (part : Part) (body : NickelValue) : Fresh Term :=
  id ← match pat_alias pattern with Some id => mret id | None => fresh end;
  wrapped_body ← compile_let_pattern [(pattern, part, var id)] body false;
  mret (TFun id (VTerm wrapped_body)).

End compile.
