(* ===== verification/TypeContracts.v ===== *)
(** * Contracts from types ([core/src/typ.rs],
    [core/src/transform/gen_pending_contracts.rs])

    To each type corresponds a contract: [subcontract] builds it from the
    functions of the internal standard library. A type that comes from a static
    annotation is simplified first, as what the typechecker guarantees needs not
    be checked: [simplify] removes the checks on what the typed term provides
    (positive positions) and keeps those on what it is given (negative
    positions). [transform_one] attaches to the fields of a record the contracts
    of their annotations. *)
From stdpp Require Import sorting.
From S2P Require Import Prelude IndexMap Values Records Make Ast Pattern.

(** ** Computations

    [sy], the counter of sealing keys (an [i32]), and the fresh identifiers are
    threaded; an unbound type variable is an error. *)
Definition Gen (A : Type) : Type := Z → Fresh (result (A * Z) Ident).

#[export] Instance Gen_ret : MRet Gen := λ A a sy, mret (Ok (a, sy)).
#[export] Instance Gen_bind : MBind Gen := λ A B f m sy,
  r ← m sy; match r with Ok (a, sy) => f a sy | Err id => mret (Err id) end.

Definition gen_fresh {A} (m : Fresh A) : Gen A := λ sy, a ← m; mret (Ok (a, sy)).
Definition unbound {A} (id : Ident) : Gen A := λ _, mret (Err id).
Definition gen_panic {A} : Gen A := λ _, fresh_panic.

(** [let key = *sy; *sy += 1], checked. *)
Definition next_key : Gen SealingKey := λ sy,
  if (sy + 1 <? 2 ^ 31)%Z then mret (Ok (sy, (sy + 1)%Z)) else fresh_panic.

(** ** Rows *)

(** [RecordRows::iter], [EnumRows::iter]: the rows, and how they end. *)
Inductive RowsTail : Type := ClosedTail | DynTail | VarTail (id : Ident).

Fixpoint rrows_list (r : RecordRows) : list (Ident * Typ) :=
  match r with RRExtend id typ tail => (id, typ) :: rrows_list tail | _ => [] end.
Fixpoint rrows_tail (r : RecordRows) : RowsTail :=
  match r with
  | RREmpty => ClosedTail
  | RRExtend _ _ tail => rrows_tail tail
  | RRTailVar id => VarTail id
  | RRTailDyn => DynTail
  end.

Fixpoint erows_list (r : EnumRows) : list (Ident * option Typ) :=
  match r with ERExtend id typ tail => (id, typ) :: erows_list tail | _ => [] end.
Fixpoint erows_tail (r : EnumRows) : RowsTail :=
  match r with
  | EREmpty => ClosedTail
  | ERExtend _ _ tail => erows_tail tail
  | ERTailVar id => VarTail id
  end.

(** [EnumRows::find_row], [RecordRows::find_path], [find_row] *)
Definition erows_find_row (r : EnumRows) (id : Ident) : option (Ident * option Typ) :=
  list_find (λ p : Ident * option Typ, p.1 = id) (erows_list r) ≫= λ p, Some p.2.

Definition rrows_find (r : RecordRows) (id : Ident) : option (Ident * Typ) :=
  list_find (λ p : Ident * Typ, p.1 = id) (rrows_list r) ≫= λ p, Some p.2.

Fixpoint find_path (r : RecordRows) (path : list Ident) : option (Ident * Typ) :=
  match path with
  | [] => None
  | [id] => rrows_find r id
  | id :: path' =>
      match rrows_find r id with
      | Some (_, TyRecord rrows) => find_path rrows path'
      | _ => None
      end
  end.

(** [Type::is_function_type] *)
Fixpoint is_function_type (t : Typ) : bool :=
  match t with
  | TyForall _ _ body => is_function_type body
  | TyArrow _ _ => true
  | _ => false
  end.

Definition is_dyn (t : Typ) : bool := match t with TyDyn => true | _ => false end.

(** ** Contract generation *)

Section subcontract.
Context `{IndexMapOps Ident, HashOrder}.

(** The patterns that are compiled here have no annotation and no default value:
    [compile_match] never calls what it lowers them with
    ([TypeContractsTheorems.v]). *)
Definition compile_plain (branches : list CoreBranch) (value : NickelValue) : Fresh NickelValue :=
  compile_match (λ _, fresh_panic) (λ _, fresh_panic) (λ _, fresh_panic) branches value.

(** [get_var_contract] *)
Definition get_var_contract (vars : gmap Ident NickelValue) (sym : Ident) : Gen NickelValue :=
  match vars !! sym with Some c => mret c | None => unbound sym end.

Definition string_array (ids : list Ident) : NickelValue :=
  mk_array (map (λ id, VString (label id)) ids) [].

(** The contract of the variable of a [forall]. *)
Definition forall_contract (var_kind : VarKind) (key : SealingKey) : NickelValue :=
  match var_kind with
  | KindType => app (internal "forall_var") (VSealingKey key)
  | KindEnumRows _ => internal "forall_enum_tail"
  | KindRecordRows excluded =>
      app (app (internal "forall_record_tail") (VSealingKey key))
          (string_array (hash_set_iter excluded))
  end.

(** The branch of an enum row, from the contract of its argument. *)
Definition enum_branch (value_arg label_arg variant_arg : Ident) (id : Ident)
    (ctr : option NickelValue) : CoreBranch :=
  let body :=
    match ctr with
    | Some ctr =>
        closurize_term (VEnumVariant id
          (Some (app (op2 ContractApply ctr (var label_arg)) (var variant_arg))))
    | None => var value_arg
    end in
  mkCoreBranch
    (mkPattern (PatEnum id ((λ _, pattern_any variant_arg) <$> ctr)) None) None
    (closurize_term (VEnumVariant "Ok" (Some body))).

(** The end of the contract of an enum type, from its branches. *)
Definition enum_contract (vars : gmap Ident NickelValue) (value_arg label_arg : Ident)
    (branches : list CoreBranch) (tail : RowsTail) : Gen NickelValue :=
  default ←
    match tail with
    | VarTail v =>
        c ← get_var_contract vars v;
        mret (app (op2 ContractApply c (var label_arg)) (var value_arg))
    | _ => mret (app (internal "enum_fail") (var label_arg))
    end;
  let branches := branches ++ [mkCoreBranch (mkPattern PatWildcard None) None default] in
  match_expr ← gen_fresh (compile_plain branches (var value_arg));
  mret (app (internal "enum") (fn label_arg (fn value_arg match_expr))).

(** The end of the contract of a record type, from the contracts of its rows. *)
Definition record_contract (vars : gmap Ident NickelValue) (fcs : IndexMap Ident NickelValue)
    (tail : RowsTail) : Gen NickelValue :=
  let has_tail := match tail with ClosedTail => false | _ => true end in
  tail ←
    match tail with
    | ClosedTail => mret (internal "empty_tail")
    | DynTail => mret (internal "dyn_tail")
    | VarTail id => get_var_contract vars id
    end;
  let rec := record_posless (with_field_values fcs) in
  mret (app (app (app (internal "record_type") rec) tail) (VBool has_tail)).

(** [Subcontract]. Everything but an embedded contract is wrapped in
    [%contract/custom%]. *)
Fixpoint subcontract (t : Typ) (vars : gmap Ident NickelValue) (pol : Polarity) {struct t}
    : Gen NickelValue :=
  let custom (m : Gen NickelValue) : Gen NickelValue := c ← m; mret (VCustomContract c) in
  match t with
  | TyDyn => custom (mret (internal "dyn"))
  | TyNumber => custom (mret (internal "num"))
  | TyBool => custom (mret (internal "bool"))
  | TyString => custom (mret (internal "string"))
  | TyForeignId => custom (mret (internal "foreign_id"))
  | TyArray ty =>
      custom (if is_dyn ty then mret (internal "array_dyn")
              else c ← subcontract ty vars pol; mret (app (internal "array") c))
  | TySymbol => gen_panic
  | TyArrow s t =>
      custom
        (if is_dyn s && is_dyn t then mret (internal "func_dyn")
         else if is_dyn s then c ← subcontract t vars pol; mret (app (internal "func_codom") c)
         else if is_dyn t then
           c ← subcontract s vars (flip pol); mret (app (internal "func_dom") c)
         else
           c ← subcontract s vars (flip pol);
           d ← subcontract t vars pol;
           mret (app (app (internal "func") c) d))
  | TyContract t => mret t
  | TyVar id => custom (get_var_contract vars id)
  | TyForall v var_kind body =>
      custom
        (key ← next_key;
         let vars := <[v := forall_contract var_kind key]> vars in
         c ← subcontract body vars pol;
         mret (app (app (app (internal "forall") (VSealingKey key)) (polarity_value pol)) c))
  | TyEnum erows =>
      custom
        (value_arg ← gen_fresh fresh;
         label_arg ← gen_fresh fresh;
         variant_arg ← gen_fresh fresh;
         branches ← subcontract_erows erows vars pol value_arg label_arg variant_arg;
         enum_contract vars value_arg label_arg branches (erows_tail erows))
  | TyRecord rrows =>
      custom
        (fcs ← subcontract_rrows rrows vars pol [];
         record_contract vars fcs (rrows_tail rrows))
  | TyDict ty flavour =>
      custom
        (if is_dyn ty then mret (internal "dict_dyn")
         else
           c ← subcontract ty vars pol;
           mret (app (internal (match flavour with
                                | FlavourContract => "dict_contract"
                                | FlavourType => "dict_type"
                                end)) c))
  | TyWildcard _ => custom (mret (internal "dyn"))
  end
with subcontract_rrows (r : RecordRows) (vars : gmap Ident NickelValue) (pol : Polarity)
    (fcs : IndexMap Ident NickelValue) {struct r} : Gen (IndexMap Ident NickelValue) :=
  match r with
  | RRExtend id ty tail =>
      c ← subcontract ty vars pol;
      subcontract_rrows tail vars pol (im_insert fcs id c)
  | _ => mret fcs
  end
with subcontract_erows (r : EnumRows) (vars : gmap Ident NickelValue) (pol : Polarity)
    (value_arg label_arg variant_arg : Ident) {struct r} : Gen (list CoreBranch) :=
  match r with
  | ERExtend id ty tail =>
      ctr ←
        match ty with
        | Some ty => c ← subcontract ty vars pol; mret (Some c)
        | None => mret None
        end;
      branches ← subcontract_erows tail vars pol value_arg label_arg variant_arg;
      mret (enum_branch value_arg label_arg variant_arg id ctr :: branches)
  | _ => mret []
  end.

(** A generation from the key 0. *)
Definition run_gen (m : Gen NickelValue) : Fresh (result NickelValue Ident) :=
  r ← m 0%Z; mret (match r with Ok (c, _) => Ok c | Err id => Err id end).

(** [Type::contract] *)
Definition type_contract (t : Typ) : Fresh (result NickelValue Ident) :=
  run_gen (subcontract t ∅ Positive).

(** ** Simplification *)

Record SimplifyVars : Type := mkSimplifyVars {
  type_vars_elide : gset Ident;
  rrows_vars_elide : gmap Ident (gset Ident);
}.

(** Computations that extend the environment of contracts. *)
Definition Simp (A : Type) : Type := gmap Ident NickelValue → nat → A * gmap Ident NickelValue * nat.

#[export] Instance Simp_ret : MRet Simp := λ A a env n, (a, env, n).
#[export] Instance Simp_bind : MBind Simp := λ A B f m env n,
  let '(a, env', n') := m env n in f a env' n'.

(** A fresh variable, bound to a contract. *)
Definition bind_contract (c : NickelValue) : Simp Ident := λ env n,
  (generated n, <[generated n := c]> env, S n).

(** [peek_tail]: the names of the fields, and whether the fields can be elided. *)
Fixpoint peek_tail (r : RecordRows) (vars : SimplifyVars) : gset Ident * bool :=
  match r with
  | RRExtend id _ tail => let '(fields, can_elide) := peek_tail tail vars in ({[id]} ∪ fields, can_elide)
  | RRTailVar id =>
      (∅, match rrows_vars_elide vars !! id with Some _ => true | None => false end)
  | RREmpty | RRTailDyn => (∅, true)
  end.

(** The tail of record rows. *)
Definition simplify_tail (id : Ident) (vars : SimplifyVars) (pol : Polarity) (fields : gset Ident)
    : Simp RecordRows :=
  match rrows_vars_elide vars !! id, pol with
  | Some _, Positive => mret RRTailDyn
  | None, _ => mret (RRTailVar id)
  | Some excluded, Negative =>
      let excluded := excluded ∖ fields in
      if decide (excluded = ∅) then mret RRTailDyn
      else
        fresh_var ← bind_contract (app (internal "forall_record_tail_excluded_only")
                                       (string_array (hash_set_iter excluded)));
        mret (RRTailVar fresh_var)
  end.

Definition is_positive (p : Polarity) : bool :=
  match p with Positive => true | Negative => false end.

Fixpoint simplify (t : Typ) (vars : SimplifyVars) (pol : Polarity) {struct t} : Simp Typ :=
  match t with
  | TyArrow dom codom =>
      dom ← simplify dom vars (flip pol);
      codom ← simplify codom vars pol;
      mret (TyArrow dom codom)
  | TyForall v KindType body =>
      if is_positive pol then
        simplify body (mkSimplifyVars ({[v]} ∪ type_vars_elide vars) (rrows_vars_elide vars)) pol
      else body ← simplify body vars pol; mret (TyForall v KindType body)
  | TyForall v (KindRecordRows excluded) body =>
      if is_positive pol then
        simplify body
          (mkSimplifyVars (type_vars_elide vars) (<[v := excluded]> (rrows_vars_elide vars))) pol
      else body ← simplify body vars pol; mret (TyForall v (KindRecordRows excluded) body)
  | TyForall v var_kind body => body ← simplify body vars pol; mret (TyForall v var_kind body)
  | TyVar id => mret (if decide (id ∈ type_vars_elide vars) then TyDyn else TyVar id)
  | TyNumber | TyString | TyBool | TySymbol | TyForeignId =>
      mret (if is_positive pol then TyDyn else t)
  | TyRecord rrows =>
      let '(fields, can_elide) := peek_tail rrows vars in
      rrows ← simplify_rrows rrows vars pol fields can_elide;
      mret (match rrows, pol with
            | (RRTailDyn | RREmpty), Positive => TyDyn
            | _, _ => TyRecord rrows
            end)
  | TyEnum erows =>
      '(erows, elide) ← simplify_erows erows vars pol;
      mret (if elide && is_positive pol then TyDyn else TyEnum erows)
  | TyDict ty flavour =>
      ty ← simplify ty vars pol;
      mret (if is_dyn ty && is_positive pol then TyDyn else TyDict ty flavour)
  | TyArray ty =>
      ty ← simplify ty vars pol;
      mret (if is_dyn ty && is_positive pol then TyDyn else TyArray ty)
  | TyDyn | TyContract _ | TyWildcard _ => mret t
  end
with simplify_rrows (r : RecordRows) (vars : SimplifyVars) (pol : Polarity) (fields : gset Ident)
    (can_elide : bool) {struct r} : Simp RecordRows :=
  match r with
  | RREmpty => mret (if is_positive pol then RRTailDyn else RREmpty)
  | RRExtend id ty tail =>
      ty ← simplify ty vars pol;
      let elide_field := is_dyn ty && is_positive pol && can_elide in
      tail ← simplify_rrows tail vars pol fields can_elide;
      mret (if elide_field then tail else RRExtend id ty tail)
  | RRTailDyn => mret RRTailDyn
  | RRTailVar id => simplify_tail id vars pol fields
  end
with simplify_erows (r : EnumRows) (vars : SimplifyVars) (pol : Polarity) {struct r}
    : Simp (EnumRows * bool) :=
  match r with
  | EREmpty => mret (EREmpty, true)
  | ERTailVar id => mret (ERTailVar id, false)
  | ERExtend id ty tail =>
      '(tail, elide) ← simplify_erows tail vars pol;
      match ty with
      | Some ty =>
          ty ← simplify ty vars pol;
          mret (ERExtend id (Some ty) tail, elide && is_dyn ty)
      | None => mret (ERExtend id None tail, elide)
      end
  end.

Definition no_vars : SimplifyVars := mkSimplifyVars ∅ ∅.

(** [Type::contract_static] *)
Definition type_contract_static (t : Typ) : Fresh (result NickelValue Ident) := λ n,
  let '(simplified, contract_env, n) := simplify t no_vars Positive ∅ n in
  run_gen (subcontract simplified contract_env Positive) n.

(** ** Pending contracts *)

(** [RuntimeContract::from_type], [from_static_type] *)
Definition contract_from (gen : Typ → Fresh (result NickelValue Ident)) (l : LabeledType)
    : Fresh (result RuntimeContract Ident) :=
  r ← gen (labeled_typ l);
  mret (let? c := r in Ok (mkRuntimeContract c (labeled_label l))).

(** [TypeAnnotation::pending_contracts]: it stops at the first error. *)
Fixpoint pending_from_types (ts : list LabeledType) : Fresh (result (list RuntimeContract) Ident) :=
  match ts with
  | [] => mret (Ok [])
  | t :: ts' =>
      r ← contract_from type_contract t;
      match r with
      | Ok c => rs ← pending_from_types ts'; mret (let? cs := rs in Ok (c :: cs))
      | Err id => mret (Err id)
      end
  end.

(** [with_pending_contracts] *)
Definition field_with_pending (f : Field) : Fresh (result Field Ident) :=
  r ← match shared_inner (metadata f) with
      | Some m => pending_from_types (annot_contracts (annotation m))
      | None => mret (Ok [])
      end;
  match r with
  | Err id => mret (Err id)
  | Ok pending =>
      match value f, shared_inner (metadata f) ≫= λ m, annot_typ (annotation m) with
      | Some v, Some labeled_ty =>
          r ← contract_from type_contract_static labeled_ty;
          mret (let? c := r in Ok (mkField (Some (contract_apply c v)) (metadata f) pending))
      | v, _ => mret (Ok (mkField v (metadata f) pending))
      end
  end.

(** [attach_to_fields], for static and for dynamic fields. *)
Fixpoint attach_to_fields {K} (l : list (K * Field)) : Fresh (result (list (K * Field)) Ident) :=
  match l with
  | [] => mret (Ok [])
  | (id, f) :: l' =>
      r ← field_with_pending f;
      match r with
      | Ok f => rs ← attach_to_fields l'; mret (let? fs := rs in Ok ((id, f) :: fs))
      | Err e => mret (Err e)
      end
  end.

(** [gen_pending_contracts::transform_one] *)
Definition transform_one (v : NickelValue) : Fresh (result NickelValue Ident) :=
  match v with
  | VRecord (Alloc r) =>
      rs ← attach_to_fields (fields r);
      mret (let? fs := rs in Ok (mk_record (mkRecordData fs (attrs r) (sealed_tail r))))
  | VTerm (TRecRecord d) =>
      rs ← attach_to_fields (fields (record d));
      match rs with
      | Err e => mret (Err e)
      | Ok fs =>
          ds ← attach_to_fields (dyn_fields d);
          mret (let? dyns := ds in
                Ok (VTerm (TRecRecord (mkRecRecordData
                      (mkRecordData fs (attrs (record d)) (sealed_tail (record d)))
                      (includes d) dyns (rec_deps d) (closurized d)))))
      end
  | _ => mret (Ok v)
  end.

End subcontract.
