(* ===== verification/TypeContractsTheorems.v ===== *)
(** * Facts on contracts from types

    The induction principle of types, their free variables, kinds and sizes; the
    compilation of the matches of enum contracts does not depend on the lowering
    of annotations; what [simplify] does to the free variables of a type. *)
From S2P Require Import Prelude IndexMap Values Records Make Ast Pattern TypeContracts.

(** ** Induction on types

    The values embedded in contracts are opaque. *)
Section typ_ind.
Context (P : Typ → Prop) (Q : RecordRows → Prop) (R : EnumRows → Prop).
Context (Hdyn : P TyDyn) (Hnum : P TyNumber) (Hbool : P TyBool) (Hstr : P TyString).
Context (Hsym : P TySymbol) (Hfor : P TyForeignId) (Hctr : ∀ v, P (TyContract v)).
Context (Harrow : ∀ s t, P s → P t → P (TyArrow s t)).
Context (Hvar : ∀ id, P (TyVar id)).
Context (Hforall : ∀ v k t, P t → P (TyForall v k t)).
Context (Henum : ∀ e, R e → P (TyEnum e)) (Hrecord : ∀ r, Q r → P (TyRecord r)).
Context (Hdict : ∀ t f, P t → P (TyDict t f)) (Harray : ∀ t, P t → P (TyArray t)).
Context (Hwild : ∀ n, P (TyWildcard n)).
Context (Hrempty : Q RREmpty) (Hrdyn : Q RRTailDyn) (Hrvar : ∀ id, Q (RRTailVar id)).
Context (Hrext : ∀ id t r, P t → Q r → Q (RRExtend id t r)).
Context (Heempty : R EREmpty) (Hevar : ∀ id, R (ERTailVar id)).
Context (Hetag : ∀ id e, R e → R (ERExtend id None e)).
Context (Heext : ∀ id t e, P t → R e → R (ERExtend id (Some t) e)).

Fixpoint typ_ind' (t : Typ) : P t :=
  match t with
  | TyDyn => Hdyn | TyNumber => Hnum | TyBool => Hbool | TyString => Hstr
  | TySymbol => Hsym | TyForeignId => Hfor | TyContract v => Hctr v
  | TyArrow s t => Harrow s t (typ_ind' s) (typ_ind' t)
  | TyVar id => Hvar id
  | TyForall v k t => Hforall v k t (typ_ind' t)
  | TyEnum e => Henum e (erows_ind' e)
  | TyRecord r => Hrecord r (rrows_ind' r)
  | TyDict t f => Hdict t f (typ_ind' t)
  | TyArray t => Harray t (typ_ind' t)
  | TyWildcard n => Hwild n
  end
with rrows_ind' (r : RecordRows) : Q r :=
  match r with
  | RREmpty => Hrempty
  | RRExtend id t r => Hrext id t r (typ_ind' t) (rrows_ind' r)
  | RRTailVar id => Hrvar id
  | RRTailDyn => Hrdyn
  end
with erows_ind' (e : EnumRows) : R e :=
  match e with
  | EREmpty => Heempty
  | ERExtend id (Some t) e => Heext id t e (typ_ind' t) (erows_ind' e)
  | ERExtend id None e => Hetag id e (erows_ind' e)
  | ERTailVar id => Hevar id
  end.

Lemma typ_mutind : (∀ t, P t) ∧ (∀ r, Q r) ∧ (∀ e, R e).
Proof. split_and!; [apply typ_ind'|apply rrows_ind'|apply erows_ind']. Qed.
End typ_ind.

(** ** Free type variables *)

Fixpoint ftv (t : Typ) : gset Ident :=
  match t with
  | TyArrow s t => ftv s ∪ ftv t
  | TyVar id => {[id]}
  | TyForall v _ t => ftv t ∖ {[v]}
  | TyEnum e => ftv_erows e
  | TyRecord r => ftv_rrows r
  | TyDict t _ | TyArray t => ftv t
  | _ => ∅
  end
with ftv_rrows (r : RecordRows) : gset Ident :=
  match r with
  | RRExtend _ t r => ftv t ∪ ftv_rrows r
  | RRTailVar id => {[id]}
  | _ => ∅
  end
with ftv_erows (e : EnumRows) : gset Ident :=
  match e with
  | ERExtend _ t e => match t with Some t => ftv t | None => ∅ end ∪ ftv_erows e
  | ERTailVar id => {[id]}
  | EREmpty => ∅
  end.

(** The number of sealing keys that the contract of a type takes. *)
Fixpoint foralls (t : Typ) : Z :=
  match t with
  | TyArrow s t => foralls s + foralls t
  | TyForall _ _ t => 1 + foralls t
  | TyEnum e => foralls_erows e
  | TyRecord r => foralls_rrows r
  | TyDict t _ | TyArray t => foralls t
  | _ => 0
  end
with foralls_rrows (r : RecordRows) : Z :=
  match r with RRExtend _ t r => foralls t + foralls_rrows r | _ => 0 end
with foralls_erows (e : EnumRows) : Z :=
  match e with
  | ERExtend _ t e => match t with Some t => foralls t | None => 0 end + foralls_erows e
  | _ => 0
  end.

(** No [Symbol] type: it has no contract. *)
Fixpoint no_symbol (t : Typ) : bool :=
  match t with
  | TySymbol => false
  | TyArrow s t => no_symbol s && no_symbol t
  | TyForall _ _ t | TyDict t _ | TyArray t => no_symbol t
  | TyEnum e => no_symbol_erows e
  | TyRecord r => no_symbol_rrows r
  | _ => true
  end
with no_symbol_rrows (r : RecordRows) : bool :=
  match r with RRExtend _ t r => no_symbol t && no_symbol_rrows r | _ => true end
with no_symbol_erows (e : EnumRows) : bool :=
  match e with
  | ERExtend _ t e => match t with Some t => no_symbol t | None => true end && no_symbol_erows e
  | _ => true
  end.

Lemma foralls_nonneg :
  (∀ t, (0 <= foralls t)%Z) ∧ (∀ r, (0 <= foralls_rrows r)%Z) ∧ (∀ e, (0 <= foralls_erows e)%Z).
Proof. apply typ_mutind; simpl; intros; lia. Qed.

(** ** The matches of enum contracts *)

(** The patterns of the branches of an enum contract. *)
Definition plain_pattern (p : Pattern) : bool :=
  match pat_alias p with
  | Some _ => false
  | None =>
      match pat_data p with
      | PatWildcard => true
      | PatEnum _ None => true
      | PatEnum _ (Some p) =>
          match pat_alias p with None => bool_decide (is_Some (try_as_any p)) | Some _ => false end
      | _ => false
      end
  end.

Definition plain_branch (b : CoreBranch) : Prop := plain_pattern (branch_pattern b) = true.

Lemma plain_pattern_inv p :
  plain_pattern p = true →
  p = mkPattern PatWildcard None ∨ (∃ tag, p = mkPattern (PatEnum tag None) None)
  ∨ ∃ tag id, p = mkPattern (PatEnum tag (Some (pattern_any id))) None.
Proof.
  destruct p as [d [al|]]; [done|]. destruct d; try done; simpl; [by left|].
  destruct pattern as [[d [al|]]|]; simpl; [done| |by eauto].
  intros [id Hd]%bool_decide_eq_true. destruct d; try done. right; right. by eexists _, _.
Qed.

Section plain.
Context `{IndexMapOps Ident, HashOrderLaws}.

Lemma returns_bound_to bindings id (P : Ident → Prop) id' :
  bindings !! id = Some id' → P id' → returns (bound_to bindings id) P.
Proof. intros Hb HP. unfold bound_to. rewrite Hb. by eapply returns_lift. Qed.

Lemma returns_fresh_bindings ids :
  returns (fresh_bindings ids) (λ m, dom m = list_to_set ids).
Proof.
  unfold fresh_bindings.
  apply (fresh_returns_bind _ _ (λ l : list (Ident * Ident), l.*1 = ids)).
  - induction ids as [|id ids IH]; simpl; [by apply returns_ret|].
    eapply fresh_returns_bind.
    { apply (fresh_returns_bind _ _ (λ _, True)); [by apply returns_fresh|].
      intros id' _. by apply (returns_ret (id, id') (λ p, p.1 = id)). }
    intros [? id'] Hp. simpl in Hp. subst.
    apply (fresh_returns_bind _ _ (λ l : list (Ident * Ident), l.*1 = ids)); [done|].
    intros l Hl. apply returns_ret. simpl. by f_equal.
  - intros l <-. apply returns_ret. apply hash_collect_dom.
Qed.

Lemma dom_lookup {V} (m : gmap Ident V) (s : gset Ident) k :
  dom m = s → k ∈ s → ∃ v, m !! k = Some v.
Proof. intros <-. by rewrite elem_of_dom. Qed.

(** The compilation of these patterns never calls the functions it is given. *)
Lemma compile_part_plain la lt tr la' lt' tr' p v mc fc b n :
  plain_pattern p = true →
  compile_part la lt tr p v mc fc b n = compile_part la' lt' tr' p v mc fc b n.
Proof.
  by intros [->|[[tag ->]|(tag & id & ->)]]%plain_pattern_inv.
Qed.

Lemma foldrM_fresh_ext {A B} (f g : A → B → Fresh B) b l n :
  Forall (λ a, ∀ b n, f a b n = g a b n) l → foldrM_fresh f b l n = foldrM_fresh g b l n.
Proof.
  intros Hl. revert n. induction Hl as [|a l Ha Hl IH]; intros n; [done|]. simpl.
  unfold mbind, Fresh_bind, mbind, outcome_bind. rewrite IH.
  destruct (foldrM_fresh g b l n) as [[b' n']| |]; [|done..]. apply Ha.
Qed.

Lemma foldrM_fresh_map {A B C} (f : B → C → Fresh C) (g : A → B) c l :
  foldrM_fresh f c (map g l) = foldrM_fresh (λ a, f (g a)) c l.
Proof. induction l as [|a l IH]; [done|]. simpl. by rewrite IH. Qed.

(** [compile_match], on the branches themselves. *)
Lemma compile_match_unfold la lt tr branches v n :
  compile_match la lt tr branches v n
  = (if forallb is_tags_only branches then mret (compile_tags_only branches v)
    else
      value_id ← fresh;
      fold_block ← foldrM_fresh (compile_branch la lt tr value_id)
                     (VTerm (TRuntimeError (NonExhaustiveMatch v))) branches;
      mret (let_one_in value_id v fold_block)) n.
Proof.
  unfold compile_match, compile_match_with.
  replace ((map (with_part la lt tr) branches).*1) with branches.
  2: { rewrite <-list_fmap_compose. symmetry. apply list_fmap_id. }
  destruct (forallb _ _); [done|]. unfold mbind at 1 3, Fresh_bind at 1 3, fresh.
  cbn [mbind outcome_bind]. by rewrite foldrM_fresh_map.
Qed.

Lemma compile_match_plain la lt tr la' lt' tr' branches v n :
  Forall plain_branch branches →
  compile_match la lt tr branches v n = compile_match la' lt' tr' branches v n.
Proof.
  intros Hb. rewrite !compile_match_unfold. destruct (forallb _ _); [done|].
  unfold mbind, Fresh_bind, mbind, outcome_bind, fresh.
  assert (Hext : ∀ id b n, foldrM_fresh (compile_branch la lt tr id) b branches n
                           = foldrM_fresh (compile_branch la' lt' tr' id) b branches n).
  { intros id b n'. apply foldrM_fresh_ext. eapply Forall_impl; [done|]. intros br Hbr b' n1.
    unfold compile_branch, compile_branch_with, with_part, mbind, Fresh_bind, mbind, outcome_bind.
    destruct (fresh_bindings _ n1) as [[m n2]| |]; [|done..]. by apply compile_part_plain. }
  by rewrite Hext.
Qed.

(** It does not panic. *)
Lemma returns_compile_part_plain la lt tr p v mc fc b :
  plain_pattern p = true → list_to_set (bound_ids p) ⊆ dom b →
  returns (compile_part la lt tr p v mc fc b) (λ _, True).
Proof.
  intros [->|[[tag ->]|(tag & id & ->)]]%plain_pattern_inv Hb; simpl;
    (apply (fresh_returns_bind _ _ (λ _, True)); [by apply returns_ret|]; intros mc' _);
    [by apply returns_ret|by apply returns_ret|].
  apply (fresh_returns_bind _ _ (λ _, True)); [by apply returns_fresh|]. intros x _.
  assert (Hid : id ∈ dom b) by (apply Hb; cbn; set_solver).
  apply elem_of_dom in Hid as [id' Hid].
  apply (fresh_returns_bind _ _ (λ _, True)); [|intros; by apply returns_ret].
  apply (fresh_returns_bind _ _ (λ _, True)); [by apply returns_ret|]. intros mc'' _.
  apply (fresh_returns_bind _ _ (λ _, True)); [by eapply returns_bound_to|].
  intros. by apply returns_ret.
Qed.

Lemma returns_compile_plain branches v :
  Forall plain_branch branches → returns (compile_plain branches v) (λ _, True).
Proof.
  intros Hb. refine (returns_ext _ _ _ (compile_match_unfold _ _ _ branches v) _). destruct (forallb _ _); [by apply returns_ret|].
  apply (fresh_returns_bind _ _ (λ _, True)); [by apply returns_fresh|]. intros id _.
  apply (fresh_returns_bind _ _ (λ _, True)); [|intros; by apply returns_ret].
  apply (returns_foldrM _ plain_branch); [|done|done]. intros br b Hbr _. unfold compile_branch, compile_branch_with, with_part.
  eapply fresh_returns_bind; [apply returns_fresh_bindings|]. intros m Hm.
  apply returns_compile_part_plain; [done|]. by rewrite Hm.
Qed.

End plain.

(** * Properties of contracts from types ([core/src/typ.rs])

    The contract of a type exists exactly when the type is closed, with or
    without the simplification of static types; what the simplification elides
    (everything a typed term provides at first order) and what it keeps (every
    check on what the term is given). *)

(** ** Specifications of generators

    [gen_spec m k E P]: with [k] keys left, [m] does not panic; it takes at most
    [k] keys and its result satisfies [P], or it fails on an identifier of [E]. *)
Definition gen_spec {A} (m : Gen A) (k : Z) (E : gset Ident) (P : A → Prop) : Prop :=
  ∀ sy, (sy + k < 2 ^ 31)%Z →
    returns (m sy) (λ r,
      match r with Ok (a, sy') => (sy' <= sy + k)%Z ∧ P a | Err id => id ∈ E end).

Lemma gen_ret {A} (a : A) E (P : A → Prop) : P a → gen_spec (mret a) 0 E P.
Proof. intros HP sy _. apply returns_ret. split; [lia|done]. Qed.

Lemma gen_bind {A B} (m : Gen A) (f : A → Gen B) k1 k2 E P Q :
  (0 <= k2)%Z → gen_spec m k1 E P → (∀ a, P a → gen_spec (f a) k2 E Q) →
  gen_spec (m ≫= f) (k1 + k2) E Q.
Proof.
  intros Hk Hm Hf sy Hsy. eapply fresh_returns_bind; [apply Hm; lia|].
  intros [[a sy']|id] Hr; [|by apply returns_ret]. destruct Hr as [Hle HP].
  eapply returns_mono; [apply Hf; [done|lia]|]. intros [[b sy'']|id]; [|done].
  intros [? ?]. split; [lia|done].
Qed.

Lemma gen_weaken {A} (m : Gen A) k k' E E' P Q :
  gen_spec m k E P → (k <= k')%Z → E ⊆ E' → (∀ a, P a → Q a) → gen_spec m k' E' Q.
Proof.
  intros Hm Hk HE HPQ sy Hsy. eapply returns_mono; [apply Hm; lia|].
  intros [[a sy']|id]; [|by auto]. intros [? ?]. split; [lia|auto].
Qed.

Lemma gen_of_fresh {A} (m : Fresh A) E P : returns m P → gen_spec (gen_fresh m) 0 E P.
Proof.
  intros Hm sy _. eapply fresh_returns_bind; [done|]. intros a HP. apply returns_ret. split; [lia|done].
Qed.

Lemma gen_unbound {A} id E (P : A → Prop) : id ∈ E → gen_spec (unbound id) 0 E P.
Proof. intros HE sy _. by apply returns_ret. Qed.

Lemma gen_next_key E : gen_spec next_key 1 E (λ _, True).
Proof.
  intros sy Hsy. unfold next_key. destruct (Z.ltb_spec (sy + 1) (2 ^ 31)); [|lia].
  apply returns_ret. split; [lia|done].
Qed.

(** A computation without keys, then wrapped. *)
Lemma gen_map {A B} (m : Gen A) (f : A → B) k E P Q :
  gen_spec m k E P → (∀ a, P a → Q (f a)) → gen_spec (a ← m; mret (f a)) k E Q.
Proof.
  intros Hm HPQ. rewrite <- (Z.add_0_r k). eapply gen_bind; [done|done|].
  intros a HP. apply gen_ret. auto.
Qed.

(** ** Closed types have contracts *)

Definition tail_ftv (t : RowsTail) : gset Ident := match t with VarTail id => {[id]} | _ => ∅ end.

Fixpoint rrows_ftv (r : RecordRows) : gset Ident :=
  match r with RRExtend _ t r => ftv t ∪ rrows_ftv r | _ => ∅ end.
Fixpoint erows_ftv (e : EnumRows) : gset Ident :=
  match e with
  | ERExtend _ t e => match t with Some t => ftv t | None => ∅ end ∪ erows_ftv e
  | _ => ∅
  end.

Lemma ftv_rrows_split r : ftv_rrows r = rrows_ftv r ∪ tail_ftv (rrows_tail r).
Proof. induction r; simpl; set_solver. Qed.
Lemma ftv_erows_split e : ftv_erows e = erows_ftv e ∪ tail_ftv (erows_tail e).
Proof. induction e; simpl; set_solver. Qed.

Section contracts.
Context `{IndexMapOps Ident, HashOrderLaws}.

Lemma gen_var_contract (vars : gmap Ident NickelValue) id :
  gen_spec (get_var_contract vars id) 0 ({[id]} ∖ dom vars) (λ _, id ∈ dom vars).
Proof.
  unfold get_var_contract. destruct (vars !! id) eqn:Hid.
  - apply gen_ret. by eapply elem_of_dom_2.
  - apply gen_unbound. apply not_elem_of_dom in Hid. set_solver.
Qed.

Lemma gen_record_contract (vars : gmap Ident NickelValue) fcs tail :
  gen_spec (record_contract vars fcs tail) 0 (tail_ftv tail ∖ dom vars)
    (λ _, tail_ftv tail ⊆ dom vars).
Proof.
  unfold record_contract. eapply gen_map; [|intros c Hc; exact Hc].
  destruct tail; simpl; [apply gen_ret; set_solver..|].
  eapply gen_weaken; [apply gen_var_contract|lia|done|]. set_solver.
Qed.

Lemma gen_enum_contract (vars : gmap Ident NickelValue) v l branches tail :
  Forall plain_branch branches →
  gen_spec (enum_contract vars v l branches tail) 0 (tail_ftv tail ∖ dom vars)
    (λ _, tail_ftv tail ⊆ dom vars).
Proof.
  intros Hb. unfold enum_contract. apply (gen_bind _ _ 0 0 _ (λ _, tail_ftv tail ⊆ dom vars)); [done| |].
  - destruct tail; simpl; [apply gen_ret; set_solver..|].
    eapply gen_map; [apply gen_var_contract|]. set_solver.
  - intros c Hc. eapply gen_map; [|intros ? _; exact Hc].
    apply gen_of_fresh, returns_compile_plain. apply Forall_app. by split; [|repeat constructor].
Qed.

Lemma plain_enum_branch v l a id ctr : plain_branch (enum_branch v l a id ctr).
Proof. by destruct ctr. Qed.

Definition contract_ok (t : Typ) : Prop := ∀ vars pol,
  no_symbol t = true →
  gen_spec (subcontract t vars pol) (foralls t) (ftv t ∖ dom vars) (λ _, ftv t ⊆ dom vars).
Definition rrows_ok (r : RecordRows) : Prop := ∀ vars pol fcs,
  no_symbol_rrows r = true →
  gen_spec (subcontract_rrows r vars pol fcs) (foralls_rrows r) (rrows_ftv r ∖ dom vars)
    (λ _, rrows_ftv r ⊆ dom vars).
Definition erows_ok (e : EnumRows) : Prop := ∀ vars pol v l a,
  no_symbol_erows e = true →
  gen_spec (subcontract_erows e vars pol v l a) (foralls_erows e) (erows_ftv e ∖ dom vars)
    (λ bs, Forall plain_branch bs ∧ erows_ftv e ⊆ dom vars).

(** One contract, or two, under a constructor. *)
Lemma gen_sub1 t vars pol (f : NickelValue → NickelValue) :
  contract_ok t → no_symbol t = true →
  gen_spec (c ← subcontract t vars pol; mret (f c)) (foralls t) (ftv t ∖ dom vars)
    (λ _, ftv t ⊆ dom vars).
Proof. intros Ht Hs. eapply gen_map; [by apply Ht|done]. Qed.

Lemma gen_arrow s t : contract_ok s → contract_ok t → contract_ok (TyArrow s t).
Proof.
  intros Hs Ht vars' pol' Hn. cbn in Hn. apply andb_prop in Hn as [Hns Hnt].
  cbn [subcontract foralls ftv]. eapply gen_map; [|intros c Hc; exact Hc].
  destruct foralls_nonneg as (Hpos & _). pose proof (Hpos s). pose proof (Hpos t).
  assert (Hd : ∀ u, is_dyn u = true → ftv u = ∅ ∧ foralls u = 0%Z) by by intros [].
  destruct (is_dyn s) eqn:Hs'; [destruct (is_dyn t) eqn:Ht'|destruct (is_dyn t) eqn:Ht'];
    cbn [andb];
    try destruct (Hd _ Hs') as [Hes Hks]; try destruct (Hd _ Ht') as [Het Hkt].
  - eapply (gen_weaken _ 0 _ _ _ (λ _, True)); [by apply gen_ret|lia|done|]. set_solver.
  - eapply gen_weaken; [by apply gen_sub1|lia|set_solver|set_solver].
  - eapply gen_weaken; [by apply gen_sub1|lia|set_solver|set_solver].
  - eapply gen_bind; [done| |].
    { eapply gen_weaken; [by apply Hs|done|set_solver|]. intros x Hx. exact Hx. }
    intros c Hc. cbn in Hc.
    eapply gen_weaken; [by apply gen_sub1|lia|set_solver|set_solver].
Qed.

Lemma contract_ok_all : (∀ t, contract_ok t) ∧ (∀ r, rrows_ok r) ∧ (∀ e, erows_ok e).
Proof.
  apply typ_mutind; try (intros; intros vars pol Hs; cbn [subcontract foralls ftv];
    try (apply gen_map with (P := λ _, True); [by apply gen_ret|set_solver]); fail).
  - done.
  - intros v vars pol _. cbn. apply gen_ret. set_solver.
  - intros s t Hs Ht. by apply gen_arrow.
  - intros id vars pol _. cbn [subcontract foralls ftv]. eapply gen_map; [apply gen_var_contract|].
    set_solver.
  - intros v k t Ht vars pol Hs. cbn [subcontract foralls ftv]. eapply gen_map; [|intros c Hc; exact Hc].
    eapply gen_bind; [by apply foralls_nonneg|apply gen_next_key|]. intros key _.
    eapply gen_weaken; [by apply gen_sub1|lia|set_solver|set_solver].
  - intros e He vars pol Hs. cbn [subcontract foralls ftv]. eapply gen_map; [|intros c Hc; exact Hc].
    destruct foralls_nonneg as (_ & _ & Hpos). specialize (Hpos e). rewrite ftv_erows_split.
    do 3 (rewrite <- (Z.add_0_l (foralls_erows e)); eapply gen_bind;
      [done|apply gen_of_fresh; by apply (returns_fresh (λ _, True))|intros ? _]).
    rewrite <- (Z.add_0_r (foralls_erows e)). eapply gen_bind; [done| |].
    { eapply gen_weaken; [by apply He|done|set_solver|]. intros x Hx. exact Hx. }
    intros bs [Hbs Hsub]. cbn in Hsub.
    eapply gen_weaken; [by apply gen_enum_contract|done|set_solver|set_solver].
  - intros r Hr vars pol Hs. cbn [subcontract foralls ftv]. eapply gen_map; [|intros c Hc; exact Hc].
    rewrite ftv_rrows_split. rewrite <- (Z.add_0_r (foralls_rrows r)). eapply gen_bind; [done| |].
    { eapply gen_weaken; [by apply Hr|done|set_solver|]. intros x Hx. exact Hx. }
    intros fcs Hsub. cbn in Hsub.
    eapply gen_weaken; [by apply gen_record_contract|done|set_solver|set_solver].
  - intros t f Ht vars pol Hs. cbn [subcontract foralls ftv]. eapply gen_map; [|intros c Hc; exact Hc].
    destruct (is_dyn t) eqn:Hd; [|by apply gen_sub1].
    destruct t; try done. apply gen_ret. set_solver.
  - intros t Ht vars pol Hs. cbn [subcontract foralls ftv]. eapply gen_map; [|intros c Hc; exact Hc].
    destruct (is_dyn t) eqn:Hd; [|by apply gen_sub1].
    destruct t; try done. apply gen_ret. set_solver.
  - intros vars pol fcs _. apply gen_ret. set_solver.
  - intros vars pol fcs _. apply gen_ret. set_solver.
  - intros id vars pol fcs _. apply gen_ret. set_solver.
  - intros id t r Ht Hr vars pol fcs Hn. cbn in Hn. apply andb_prop in Hn as [Hnt Hnr].
    cbn [subcontract_rrows foralls_rrows rrows_ftv]. eapply gen_bind; [by apply foralls_nonneg| |].
    { eapply gen_weaken; [by apply Ht|done|set_solver|]. intros x Hx. exact Hx. }
    intros c Hc. cbn in Hc. eapply gen_weaken; [by apply Hr|done|set_solver|set_solver].
  - intros vars pol v l a _. apply gen_ret. split; [done|set_solver].
  - intros id vars pol v l a _. apply gen_ret. split; [done|set_solver].
  - intros id e He vars pol v l a Hn. cbn [subcontract_erows foralls_erows erows_ftv].
    eapply gen_bind; [by apply foralls_nonneg|by apply (gen_ret None _ (λ _, True))|]. intros c _.
    eapply gen_map; [eapply gen_weaken; [by apply He|done|set_solver|]; intros bs Hbs; exact Hbs|].
    intros bs [Hbs Hsub]. split; [constructor; [apply plain_enum_branch|done]|set_solver].
  - intros id t e Ht He vars pol v l a Hn. cbn in Hn. apply andb_prop in Hn as [Hnt Hne].
    cbn [subcontract_erows foralls_erows erows_ftv]. eapply gen_bind; [by apply foralls_nonneg| |].
    { eapply (gen_map _ Some _ _ _ (λ _, ftv t ⊆ dom vars)); [|intros c Hc; exact Hc].
      eapply gen_weaken; [by apply Ht|done|set_solver|]. intros c Hc. exact Hc. }
    intros c Hc. cbn in Hc.
    eapply gen_map; [eapply gen_weaken; [by apply He|done|set_solver|]; intros bs Hbs; exact Hbs|].
    intros bs [Hbs Hsub]. split; [constructor; [apply plain_enum_branch|done]|set_solver].
Qed.

End contracts.

(** ** The simplification of static types

    The kinds of type variables: a variable is used as what it was bound as. *)
Inductive RowKind : Type := KTyp | KRecordRows | KEnumRows.

#[export] Instance RowKind_eq_dec : EqDecision RowKind.
Proof. solve_decision. Defined.

Definition kind_of (k : VarKind) : RowKind :=
  match k with KindType => KTyp | KindRecordRows _ => KRecordRows | KindEnumRows _ => KEnumRows end.

Fixpoint well_kinded (G : gmap Ident RowKind) (t : Typ) : Prop :=
  match t with
  | TyArrow s t => well_kinded G s ∧ well_kinded G t
  | TyVar id => G !! id = Some KTyp
  | TyForall v k t => well_kinded (<[v := kind_of k]> G) t
  | TyEnum e => well_kinded_erows G e
  | TyRecord r => well_kinded_rrows G r
  | TyDict t _ | TyArray t => well_kinded G t
  | _ => True
  end
with well_kinded_rrows (G : gmap Ident RowKind) (r : RecordRows) : Prop :=
  match r with
  | RRExtend _ t r => well_kinded G t ∧ well_kinded_rrows G r
  | RRTailVar id => G !! id = Some KRecordRows
  | _ => True
  end
with well_kinded_erows (G : gmap Ident RowKind) (e : EnumRows) : Prop :=
  match e with
  | ERExtend _ t e => match t with Some t => well_kinded G t | None => True end ∧ well_kinded_erows G e
  | ERTailVar id => G !! id = Some KEnumRows
  | EREmpty => True
  end.

(** Every variable is bound in the simplified type, in [V], or was elided. *)
Definition elided_ok (G : gmap Ident RowKind) (V : gset Ident) (vars : SimplifyVars) : Prop :=
  ∀ id k, G !! id = Some k →
    id ∈ V ∨ (k = KTyp ∧ id ∈ type_vars_elide vars)
    ∨ (k = KRecordRows ∧ is_Some (rrows_vars_elide vars !! id)).

Lemma elided_ok_kept G V vars v k :
  elided_ok G V vars → elided_ok (<[v := k]> G) ({[v]} ∪ V) vars.
Proof.
  intros He id k' Hid. destruct (decide (id = v)) as [->|Hne]; [set_solver|].
  rewrite lookup_insert_ne in Hid by done. destruct (He _ _ Hid) as [?|?]; set_solver.
Qed.

Lemma elided_ok_type G V ts rs v :
  elided_ok G V (mkSimplifyVars ts rs) →
  elided_ok (<[v := KTyp]> G) V (mkSimplifyVars ({[v]} ∪ ts) rs).
Proof.
  intros He id k' Hid. destruct (decide (id = v)) as [->|Hne].
  - rewrite lookup_insert_eq in Hid. injection Hid as <-. right; left. simpl. set_solver.
  - rewrite lookup_insert_ne in Hid by done. destruct (He _ _ Hid) as [?|[[??]|?]]; simpl in *;
      [by left|right; left; set_solver|by right; right].
Qed.

Lemma elided_ok_rows G V ts rs v excluded :
  elided_ok G V (mkSimplifyVars ts rs) →
  elided_ok (<[v := KRecordRows]> G) V (mkSimplifyVars ts (<[v := excluded]> rs)).
Proof.
  intros He id k' Hid. destruct (decide (id = v)) as [->|Hne].
  - rewrite lookup_insert_eq in Hid. injection Hid as <-. right; right. simpl.
    by rewrite lookup_insert_eq.
  - rewrite lookup_insert_ne in Hid by done. destruct (He _ _ Hid) as [?|[?|[??]]]; simpl in *;
      [by left|by right; left|right; right]. by rewrite lookup_insert_ne.
Qed.

(** Postconditions of simplifications: the environment of contracts grows. *)
Definition sp {A} (m : Simp A) (Q : A → gset Ident → Prop) (env : gmap Ident NickelValue) (n : nat)
    : Prop :=
  let '(a, env', n') := m env n in n ≤ n' ∧ dom env ⊆ dom env' ∧ Q a (dom env').

Lemma sp_ret {A} (a : A) Q env n : Q a (dom env) → sp (mret a) Q env n.
Proof. by split. Qed.

Lemma sp_bind {A B} (m : Simp A) (f : A → Simp B) Q R env n :
  sp m Q env n →
  (∀ a env' n', dom env ⊆ dom env' → Q a (dom env') → sp (f a) R env' n') →
  sp (m ≫= f) R env n.
Proof.
  unfold sp, mbind, Simp_bind. destruct (m env n) as [[a env'] n']. intros (Hle & Hsub & HQ) Hf.
  specialize (Hf a env' n' Hsub HQ). destruct (f a env' n') as [[b env''] n''].
  destruct Hf as (? & ? & ?). split_and!; [lia|set_solver|done].
Qed.

Lemma sp_mono {A} (m : Simp A) (Q R : A → gset Ident → Prop) env n :
  sp m Q env n → (∀ a d, Q a d → R a d) → sp m R env n.
Proof. unfold sp. destruct (m env n) as [[a env'] n']. naive_solver. Qed.

(** What the simplification keeps of a type, in the domain [d] of the contracts
    it has generated. *)
Definition simplified (V : gset Ident) (t : Typ) (t' : Typ) (d : gset Ident) : Prop :=
  ftv t' ⊆ V ∪ d ∧ (foralls t' <= foralls t)%Z ∧ (no_symbol t = true → no_symbol t' = true).
Definition simplified_rrows (V : gset Ident) (r r' : RecordRows) (d : gset Ident) : Prop :=
  ftv_rrows r' ⊆ V ∪ d ∧ (foralls_rrows r' <= foralls_rrows r)%Z
  ∧ (no_symbol_rrows r = true → no_symbol_rrows r' = true).
Definition simplified_erows (V : gset Ident) (e : EnumRows) (p : EnumRows * bool) (d : gset Ident)
    : Prop :=
  ftv_erows p.1 ⊆ V ∪ d ∧ (foralls_erows p.1 <= foralls_erows e)%Z
  ∧ (no_symbol_erows e = true → no_symbol_erows p.1 = true).

Section simplify.
Context `{HashOrder}.

Definition simplify_ok (t : Typ) : Prop := ∀ G V vars pol env n,
  well_kinded G t → elided_ok G V vars → sp (simplify t vars pol) (simplified V t) env n.
Definition simplify_rrows_ok (r : RecordRows) : Prop := ∀ G V vars pol fields can_elide env n,
  well_kinded_rrows G r → elided_ok G V vars →
  sp (simplify_rrows r vars pol fields can_elide) (simplified_rrows V r) env n.
Definition simplify_erows_ok (e : EnumRows) : Prop := ∀ G V vars pol env n,
  well_kinded_erows G e → elided_ok G V vars →
  sp (simplify_erows e vars pol) (simplified_erows V e) env n.

Lemma simplified_dyn V t d : simplified V t TyDyn d.
Proof. split_and!; [set_solver|apply foralls_nonneg|done]. Qed.

Lemma sp_simplify_tail G V id vars pol fields env n :
  G !! id = Some KRecordRows → elided_ok G V vars →
  sp (simplify_tail id vars pol fields) (simplified_rrows V (RRTailVar id)) env n.
Proof.
  intros Hid He. unfold simplify_tail.
  assert (Hdyn : ∀ d, simplified_rrows V (RRTailVar id) RRTailDyn d).
  { intros d. split_and!; [set_solver|done|done]. }
  destruct (rrows_vars_elide vars !! id) as [excluded|] eqn:Hv.
  - destruct pol; [by apply sp_ret|]. destruct (decide _); [by apply sp_ret|].
    eapply (sp_bind _ _ (λ id d, id ∈ d)).
    + split_and!; [lia|set_solver|]. rewrite dom_insert_L. set_solver.
    + intros v env' n' _ Hin. apply sp_ret. split_and!; [set_solver|done|done].
  - apply sp_ret. split_and!; [|done|done].
    destruct (He _ _ Hid) as [?|[[[=] _]|[_ [? ?]]]]; [set_solver|congruence].
Qed.

Lemma simplify_ok_all :
  (∀ t, simplify_ok t) ∧ (∀ r, simplify_rrows_ok r) ∧ (∀ e, simplify_erows_ok e).
Proof.
  apply typ_mutind; try (intros; intros G V vars pol env n Hk He; cbn [simplify];
    apply sp_ret; try destruct (is_positive pol); split_and!; try done; set_solver; fail).
  - (* arrows *)
    intros s t Hs Ht G V vars pol env n [Hks Hkt] He. cbn [simplify].
    eapply sp_bind; [by eapply Hs|]. intros s' env1 n1 _ (Hfs & Hns & Hss).
    eapply sp_bind; [by eapply Ht|]. intros t' env2 n2 Hsub (Hft & Hnt & Hst).
    apply sp_ret. split_and!; simpl; [clear -Hfs Hft Hsub; set_solver|lia|].
    intros [??]%andb_prop. by rewrite Hss, Hst.
  - (* variables *)
    intros id G V vars pol env n Hk He. cbn [simplify]. apply sp_ret.
    destruct (decide _) as [|Hn]; [apply simplified_dyn|]. split_and!; [|done|done].
    destruct (He _ _ Hk) as [?|[[_ ?]|[[=] _]]]; set_solver.
  - (* forall *)
    intros v k t Ht G V [ts rs] pol env n Hk He. cbn [simplify]. cbn in Hk.
    assert (Hkept : ∀ k, well_kinded (<[v := kind_of k]> G) t →
      sp (body ← simplify t (mkSimplifyVars ts rs) pol; mret (TyForall v k body))
         (simplified V (TyForall v k t)) env n).
    { intros k' Hk'. eapply sp_bind; [eapply Ht; [done|by apply elided_ok_kept]|].
      intros t' env1 n1 _ (Hft & Hn & Hs). apply sp_ret.
      split_and!; simpl; [clear -Hft; set_solver|lia|done]. }
    assert (Helided : ∀ G' vars', well_kinded G' t → elided_ok G' V vars' →
      sp (simplify t vars' pol) (simplified V (TyForall v k t)) env n).
    { intros G' vars' Hk' He'. eapply sp_mono; [by eapply Ht|].
      intros t' d (Hft & Hn & Hs). split_and!; simpl; [done|lia|done]. }
    destruct k as [|excluded|excluded]; cbn [type_vars_elide rrows_vars_elide]; [|by apply Hkept|].
    + destruct (is_positive pol); [|by apply Hkept].
      eapply Helided; [done|by apply elided_ok_type].
    + destruct (is_positive pol); [|by apply Hkept].
      eapply Helided; [done|by apply elided_ok_rows].
  - (* enums *)
    intros e He0 G V vars pol env n Hk He. cbn [simplify].
    eapply sp_bind; [by eapply He0|]. intros [e' b] env1 n1 _ (Hf & Hn & Hs). apply sp_ret.
    destruct (b && _); [apply simplified_dyn|]. by split_and!.
  - (* records *)
    intros r Hr G V vars pol env n Hk He. cbn [simplify].
    destruct (peek_tail r vars) as [fields can_elide].
    eapply sp_bind; [by eapply Hr|]. intros r' env1 n1 _ (Hf & Hn & Hs). apply sp_ret.
    assert (simplified V (TyRecord r) (TyRecord r') (dom env1)) by by split_and!.
    destruct r', pol; try done; apply simplified_dyn.
  - (* dictionaries *)
    intros t f Ht G V vars pol env n Hk He. cbn [simplify].
    eapply sp_bind; [by eapply Ht|]. intros t' env1 n1 _ (Hf & Hn & Hs). apply sp_ret.
    destruct (is_dyn t' && _); [apply simplified_dyn|]. by split_and!.
  - (* arrays *)
    intros t Ht G V vars pol env n Hk He. cbn [simplify].
    eapply sp_bind; [by eapply Ht|]. intros t' env1 n1 _ (Hf & Hn & Hs). apply sp_ret.
    destruct (is_dyn t' && _); [apply simplified_dyn|]. by split_and!.
  - intros w G V vars pol env n _ _. apply sp_ret. split_and!; try done.
  - intros G V vars pol fields ce env n _ _. cbn [simplify_rrows]. apply sp_ret.
    destruct (is_positive pol); (split; [apply empty_subseteq|by split]).
  - intros G V vars pol fields ce env n _ _. apply sp_ret. split; [apply empty_subseteq|by split].
  - intros id G V vars pol fields ce env n Hk He. by eapply sp_simplify_tail.
  - (* record rows *)
    intros id t r Ht Hr G V vars pol fields ce env n [Hkt Hkr] He. cbn [simplify_rrows].
    eapply sp_bind; [by eapply Ht|]. intros t' env1 n1 _ (Hft & Hnt & Hst).
    eapply sp_bind; [by eapply Hr|]. intros r' env2 n2 Hsub (Hfr & Hnr & Hsr). apply sp_ret.
    pose proof (proj1 foralls_nonneg t).
    destruct (_ && ce); (split_and!; simpl; [clear -Hft Hfr Hsub; set_solver|lia|]); intros [??]%andb_prop;
      rewrite ?Hst; auto.
  - intros id G V vars pol env n Hk He. apply sp_ret. split_and!; try done.
    destruct (He _ _ Hk) as [?|[[[=] _]|[[=] _]]]. set_solver.
  - intros id e He0 G V vars pol env n [_ Hk] He. cbn [simplify_erows].
    eapply sp_bind; [by eapply He0|]. intros [e' b] env1 n1 _ (Hf & Hn & Hs). apply sp_ret.
    split_and!; simpl in *; [set_solver|lia|done].
  - intros id t e Ht He0 G V vars pol env n [Hkt Hke] He. cbn [simplify_erows].
    eapply sp_bind; [by eapply He0|]. intros [e' b] env1 n1 _ (Hf & Hn & Hs).
    eapply sp_bind; [by eapply Ht|]. intros t' env2 n2 Hsub (Hft & Hnt & Hst). apply sp_ret.
    split_and!; simpl in *; [clear -Hf Hft Hsub; set_solver|lia|]. intros [??]%andb_prop.
    by rewrite Hst, Hs.
Qed.

End simplify.

(** ** First-order types

    Data without functions, variables and embedded contracts. *)
Fixpoint data_type (t : Typ) : bool :=
  match t with
  | TyDyn | TyNumber | TyBool | TyString | TyForeignId => true
  | TyDict t _ | TyArray t => data_type t
  | TyRecord r => data_rrows r
  | TyEnum e => data_erows e
  | _ => false
  end
with data_rrows (r : RecordRows) : bool :=
  match r with
  | RREmpty | RRTailDyn => true
  | RRExtend _ t r => data_type t && data_rrows r
  | RRTailVar _ => false
  end
with data_erows (e : EnumRows) : bool :=
  match e with
  | EREmpty => true
  | ERExtend _ t e => match t with Some t => data_type t | None => true end && data_erows e
  | ERTailVar _ => false
  end.

(** Functions from data to data, of any number of arguments. *)
Fixpoint first_order (t : Typ) : bool :=
  match t with TyArrow s t => data_type s && first_order t | t => data_type t end.

(** The type with its final result replaced by [Dyn]. *)
Fixpoint result_dyn (t : Typ) : Typ :=
  match t with TyArrow s t => TyArrow s (result_dyn t) | _ => TyDyn end.

Section first_order.
Context `{HashOrder}.

Lemma peek_tail_data r vars : data_rrows r = true → (peek_tail r vars).2 = true.
Proof.
  induction r as [|id t r IH| |]; simpl; try done. intros [_ Hr]%andb_prop.
  specialize (IH Hr). by destruct (peek_tail r vars).
Qed.

(** What a typed term provides is not checked. *)
Lemma simplify_data_positive :
  (∀ t vars env n, data_type t = true → simplify t vars Positive env n = (TyDyn, env, n))
  ∧ (∀ r vars fields env n, data_rrows r = true →
       simplify_rrows r vars Positive fields true env n = (RRTailDyn, env, n))
  ∧ (∀ e vars env n, data_erows e = true →
       ∃ e', simplify_erows e vars Positive env n = ((e', true), env, n)).
Proof.
  apply typ_mutind; try done; simpl; intros; unfold mbind, Simp_bind, mret, Simp_ret.
  - destruct (H0 vars env n H1) as [e' ->]. done.
  - pose proof (peek_tail_data r vars H1) as Hp. destruct (peek_tail r vars) as [fields b].
    simpl in Hp. subst b. by rewrite H0.
  - by rewrite H0.
  - by rewrite H0.
  - apply andb_prop in H2 as [Ht Hr]. rewrite H0 by done. by rewrite H1.
  - eauto.
  - destruct (H0 vars env n H1) as [e' ->]. eauto.
  - apply andb_prop in H2 as [Ht He]. destruct (H1 vars env n He) as [e' ->].
    rewrite H0 by done. eauto.
Qed.

(** What it is given is checked in full. *)
Lemma simplify_data_negative :
  (∀ t vars env n, data_type t = true → simplify t vars Negative env n = (t, env, n))
  ∧ (∀ r vars fields ce env n, data_rrows r = true →
       simplify_rrows r vars Negative fields ce env n = (r, env, n))
  ∧ (∀ e vars env n, data_erows e = true →
       ∃ b, simplify_erows e vars Negative env n = ((e, b), env, n)).
Proof.
  apply typ_mutind; try done; simpl; intros; unfold mbind, Simp_bind, mret, Simp_ret.
  - destruct (H0 vars env n H1) as [b ->]. by rewrite andb_false_r.
  - destruct (peek_tail r vars) as [fields b]. rewrite H0 by done. by destruct r.
  - rewrite H0 by done. by rewrite andb_false_r.
  - rewrite H0 by done. by rewrite andb_false_r.
  - apply andb_prop in H2 as [Ht Hr]. rewrite H0 by done. rewrite H1 by done.
    by rewrite andb_false_r.
  - eauto.
  - destruct (H0 vars env n H1) as [b ->]. eauto.
  - apply andb_prop in H2 as [Ht He]. destruct (H1 vars env n He) as [b ->].
    rewrite H0 by done. eauto.
Qed.

Lemma simplify_first_order t vars env n :
  first_order t = true → simplify t vars Positive env n = (result_dyn t, env, n).
Proof.
  revert n. apply (typ_ind' (λ t, ∀ n, first_order t = true →
    simplify t vars Positive env n = (result_dyn t, env, n)) (λ _, True) (λ _, True)); try done;
    try (intros; by rewrite (proj1 simplify_data_positive)).
  intros s u _ IH n [Hs Hu]%andb_prop. cbn. unfold mbind, Simp_bind, mret, Simp_ret.
  rewrite (proj1 simplify_data_negative) by done. by rewrite IH.
Qed.

End first_order.

(** ** Properties *)

Section properties.
Context `{IndexMapOps Ident, HashOrderLaws}.

(** C16: the contract of a type is generated exactly when the type is closed: the
    generation never panics (on types without [Symbol], with fewer quantifiers
    than the counter of sealing keys can count), it succeeds on closed types
    only, and it fails on a variable that is free in the type. *)
Theorem contract_iff_closed (t : Typ) :
  no_symbol t = true → (foralls t < 2 ^ 31)%Z →
  returns (type_contract t) (λ r,
    match r with Ok _ => ftv t = ∅ | Err id => id ∈ ftv t end).
Proof.
  intros Hs Hf. unfold type_contract, run_gen.
  eapply fresh_returns_bind; [by apply (proj1 contract_ok_all)|].
  intros [[c sy]|id] Hr; apply returns_ret; [|set_solver]. destruct Hr as [_ Hsub]. set_solver.
Qed.

(** C17: the contract of a static type annotation always exists: whatever the
    simplification elides, closed and well-kinded types keep being closed, the
    variables of the elided quantifiers included, with the variables it
    introduces bound in the environment of contracts it builds. *)
Theorem static_contract_exists (t : Typ) :
  well_kinded ∅ t → no_symbol t = true → (foralls t < 2 ^ 31)%Z →
  returns (type_contract_static t) (λ r, ∃ c, r = Ok c).
Proof.
  intros Hk Hs Hf n. unfold type_contract_static.
  pose proof (proj1 simplify_ok_all t ∅ ∅ no_vars Positive ∅ n Hk) as Hsp.
  unfold sp in Hsp. destruct (simplify t no_vars Positive ∅ n) as [[t' env] n1].
  destruct Hsp as (Hle & _ & Hftv & Hn & Hsym); [by intros id k Hid|].
  assert (Hr : returns (run_gen (subcontract t' env Positive)) (λ r, ∃ c, r = Ok c)).
  { unfold run_gen. eapply fresh_returns_bind.
    - eapply (proj1 contract_ok_all); [by apply Hsym|lia].
    - intros [[c sy]|id] Hr; apply returns_ret; [by exists c|]. set_solver. }
  destruct (Hr n1) as (r & n2 & Heq & Hle' & Hc). exists r, n2. split; [done|]. split; [lia|done].
Qed.
(** C18: the contract of a static annotation of first order checks the arguments,
    in full, and nothing else: the annotation [s1 -> .. -> sn -> t], on data
    types, has the contract of [s1 -> .. -> sn -> Dyn], and that of a data type
    is the trivial contract. *)
Theorem static_contract_of_first_order (t : Typ) (n : nat) :
  first_order t = true →
  type_contract_static t n = type_contract (result_dyn t) n
  ∧ (data_type t = true → type_contract_static t n = Done (Ok (VCustomContract (internal "dyn")), n)).
Proof.
  intros Ht. unfold type_contract_static. split.
  - by rewrite simplify_first_order.
  - intros Hd. by rewrite (proj1 simplify_data_positive).
Qed.

End properties.

#[local] Existing Instances assoc_index_map sorted_order sorted_order_laws.

(** [forall a. {x : a; r} -> [| 'A a, 'B |]] under a [forall r] *)
Definition sample_type : Typ :=
  TyForall "r" (KindRecordRows {["x" : Ident]})
    (TyForall "a" KindType
      (TyArrow (TyRecord (RRExtend "x" (TyVar "a") (RRTailVar "r")))
               (TyEnum (ERExtend "A" (Some (TyVar "a")) (ERExtend "B" None EREmpty))))).

Lemma contract_iff_closed_witness :
  no_symbol sample_type = true ∧ (foralls sample_type < 2 ^ 31)%Z ∧
  returns (type_contract sample_type) (λ r,
    match r with Ok _ => ftv sample_type = ∅ | Err id => id ∈ ftv sample_type end).
Proof.
  split_and!; [reflexivity|reflexivity|]. apply (contract_iff_closed sample_type); reflexivity.
Defined.

Lemma static_contract_exists_witness :
  well_kinded ∅ sample_type ∧
  returns (type_contract_static sample_type) (λ r, ∃ c, r = Ok c).
Proof.
  split; [vm_compute; auto|].
  apply (static_contract_exists sample_type); [vm_compute; auto|reflexivity|reflexivity].
Defined.

(** [Array Number -> {count : Number} -> Array String] *)
Lemma static_contract_of_first_order_witness :
  let t := TyArrow (TyArray TyNumber)
             (TyArrow (TyRecord (RRExtend "count" TyNumber RREmpty)) (TyArray TyString)) in
  first_order t = true ∧
  type_contract_static t 0
  = type_contract (TyArrow (TyArray TyNumber)
      (TyArrow (TyRecord (RRExtend "count" TyNumber RREmpty)) TyDyn)) 0.
Proof.
  split; [reflexivity|].
  exact (proj1 (static_contract_of_first_order
    (TyArrow (TyArray TyNumber)
      (TyArrow (TyRecord (RRExtend "count" TyNumber RREmpty)) (TyArray TyString))) 0 eq_refl)).
Defined.

(** ** Shadowed type variables

    The variables to elide are recorded by name, and a quantifier that is kept
    does not remove its own from the record. *)

(** [forall a. (forall a. a -> a) -> a] *)
Definition shadowed : Typ :=
  TyForall "a" KindType
    (TyArrow (TyForall "a" KindType (TyArrow (TyVar "a") (TyVar "a"))) (TyVar "a")).

(** The same type, with distinct names. *)
Definition not_shadowed : Typ :=
  TyForall "b" KindType
    (TyArrow (TyForall "a" KindType (TyArrow (TyVar "a") (TyVar "a"))) (TyVar "b")).

Definition simplified_type (t : Typ) : Typ := (simplify t no_vars Positive ∅ 0).1.1.

(** The simplification of a static type depends on the names of its bound
    variables. In [forall b. (forall a. a -> a) -> b] the argument keeps its
    polymorphic contract, which checks that it is parametric; when the outer
    variable is called [a] too, the occurrences of the inner variable are taken
    for the elided one and the check of the argument is lost. *)
Theorem simplify_captures_shadowed_variables :
  simplified_type not_shadowed
    = TyArrow (TyForall "a" KindType (TyArrow (TyVar "a") (TyVar "a"))) TyDyn
  ∧ simplified_type shadowed
    = TyArrow (TyForall "a" KindType (TyArrow TyDyn TyDyn)) TyDyn.
Proof. split; reflexivity. Qed.
