(* ===== verification/FreeVars.v ===== *)
(** * Free variables and recursive dependencies
    ([core/src/transform/free_vars.rs])

    The transformation that records, for each field of a recursive record, which
    fields of the record it may depend on. It walks over a whole program; what it
    does in place is here what it returns: the program with its dependencies
    filled, and the set of free variables it has met. A thunk cannot occur
    ([unreachable!]). *)
From S2P Require Import Prelude IndexMap Values Records Make.

(** ** The set of free variables as an output *)

Definition W (A : Type) : Type := outcome (A * gset Ident).

#[export] Instance W_ret : MRet W := λ A a, Done (a, ∅).
#[export] Instance W_bind : MBind W := λ A B f m,
  match m with
  | Done (a, s) =>
      match f a with Done (b, s') => Done (b, s ∪ s') | Panic => Panic | OutOfFuel => OutOfFuel end
  | Panic => Panic
  | OutOfFuel => OutOfFuel
  end.

Definition tell (s : gset Ident) : W unit := Done ((), s).

(** With a set of its own ([fresh] in the source). *)
Definition listen {A} (m : W A) : W (A * gset Ident) :=
  match m with Done (a, s) => Done ((a, s), ∅) | Panic => Panic | OutOfFuel => OutOfFuel end.

(** Without some variables. *)
Definition without {A} (ids : gset Ident) (m : W A) : W A :=
  match m with Done (a, s) => Done (a, s ∖ ids) | Panic => Panic | OutOfFuel => OutOfFuel end.

Section free_vars.
Context `{IndexMapOps Ident}.

(** The recursive fields of a record: the static ones and the included ones. *)
Definition rec_fields (r : RecordData) (incl : list (Ident * FieldMetadata)) : gset Ident :=
  list_to_set (keys (fields r) ++ keys incl).

(** The end of [CollectFreeVars for RecRecordData], from the parts with the
    variables that each has collected. *)
Definition rec_record_deps (recs : gset Ident)
    (incl : list (Ident * FieldMetadata * gset Ident)) (stat : list (Ident * Field * gset Ident))
    (dyns : list (NickelValue * Field * gset Ident)) : RecordDeps * gset Ident :=
  let dep (fresh : gset Ident) := Known (fresh ∩ recs) in
  let stat_deps :=
    im_extend (im_extend [] (map (λ p, (p.1.1, dep p.2)) incl))
              (map (λ p, (p.1.1, dep p.2)) stat) in
  let outer {X} (l : list (X * gset Ident)) : gset Ident := ⋃ (map (λ p, p.2 ∖ recs) l) in
  (mkRecordDeps stat_deps (map (λ p, dep p.2) dyns),
   list_to_set (map (λ p, p.1.1) incl) ∪ outer incl ∪ outer stat ∪ outer dyns).

(** [CollectFreeVars] *)
Fixpoint fv_value (v : NickelValue) : W NickelValue :=
  match v with
  | VNull | VBool _ | VArray Empty | VRecord Empty | VNumber _ | VString _ | VForeignId _
  | VSealingKey _ | VLabel _ => mret v
  | VArray (Alloc (mkArrayData l pending)) =>
      l ← mapM fv_value l; mret (VArray (Alloc (mkArrayData l pending)))
  | VRecord (Alloc (mkRecordData fs attrs tail)) =>
      fs ← mapM (λ p : Ident * Field, let (id, f) := p in f ← fv_field f; mret (id, f)) fs;
      mret (VRecord (Alloc (mkRecordData fs attrs tail)))
  | VTerm t => t ← fv_term t; mret (VTerm t)
  | VEnumVariant tag arg =>
      match arg with
      | Some arg => arg ← fv_value arg; mret (VEnumVariant tag (Some arg))
      | None => mret (VEnumVariant tag None)
      end
  | VCustomContract ctr => ctr ← fv_value ctr; mret (VCustomContract ctr)
  | VType typ contract =>
      typ ← fv_typ typ; contract ← fv_value contract; mret (VType typ contract)
  | VThunk _ => Panic
  end
with fv_term (t : Term) : W Term :=
  match t with
  | TVar id => _ ← tell {[id]}; mret t
  | TParseError _ | TRuntimeError _ | TImport _ | TResolvedImport _ => mret t
  | TFun arg body => body ← without {[arg]} (fv_value body); mret (TFun arg body)
  | TLet bindings body attrs =>
      let ids := list_to_set bindings.*1 in
      bindings ←
        (if rec attrs then without ids else λ m, m)
          (mapM (λ p : Ident * NickelValue, let (id, v) := p in v ← fv_value v; mret (id, v)) bindings);
      body ← without ids (fv_value body);
      mret (TLet bindings body attrs)
  | TApp head arg => head ← fv_value head; arg ← fv_value arg; mret (TApp head arg)
  | TOp1 op arg => arg ← fv_value arg; mret (TOp1 op arg)
  | TOp2 op arg1 arg2 => arg1 ← fv_value arg1; arg2 ← fv_value arg2; mret (TOp2 op arg1 arg2)
  | TOpN op args => args ← mapM fv_value args; mret (TOpN op args)
  | TSealed key inner lbl => inner ← fv_value inner; mret (TSealed key inner lbl)
  | TRecRecord (mkRecRecordData (mkRecordData fs attrs tail) incl dyns _ closurized) =>
      let recs := rec_fields (mkRecordData fs attrs tail) incl in
      incl ←
        mapM (λ p : Ident * FieldMetadata, let (id, m) := p in
          '(m, s) ← listen (fv_metadata m); mret (id, m, s)) incl;
      stat ←
        mapM (λ p : Ident * Field, let (id, f) := p in
          '(f, s) ← listen (fv_field f); mret (id, f, s)) fs;
      dyns ←
        mapM (λ p : NickelValue * Field, let (name, f) := p in
          name ← fv_value name; '(f, s) ← listen (fv_field f); mret (name, f, s)) dyns;
      let '(deps, outer) := rec_record_deps recs incl stat dyns in
      _ ← tell outer;
      mret (TRecRecord (mkRecRecordData (mkRecordData stat.*1 attrs tail) incl.*1 dyns.*1
                          (Some deps) closurized))
  | TStrChunks chunks =>
      chunks ← mapM (λ c, match c with
                          | ChunkExpr e indent => e ← fv_value e; mret (ChunkExpr e indent)
                          | ChunkLiteral _ => mret c
                          end) chunks;
      mret (TStrChunks chunks)
  | TAnnotated (mkTypeAnnotation typ contracts) inner =>
      typ ← match typ with Some t => t ← fv_labeled t; mret (Some t) | None => mret None end;
      contracts ← mapM fv_labeled contracts;
      inner ← fv_value inner;
      mret (TAnnotated (mkTypeAnnotation typ contracts) inner)
  | TClosurize v => v ← fv_value v; mret (TClosurize v)
  end
with fv_typ (t : Typ) : W Typ :=
  match t with
  | TyDyn | TyNumber | TyBool | TyString | TyForeignId | TySymbol | TyVar _ | TyWildcard _ => mret t
  | TyForall v k t => t ← fv_typ t; mret (TyForall v k t)
  | TyDict t f => t ← fv_typ t; mret (TyDict t f)
  | TyArray t => t ← fv_typ t; mret (TyArray t)
  | TyEnum _ => mret t
  | TyRecord r => r ← fv_rrows r; mret (TyRecord r)
  | TyArrow s t => s ← fv_typ s; t ← fv_typ t; mret (TyArrow s t)
  | TyContract v => v ← fv_value v; mret (TyContract v)
  end
with fv_rrows (r : RecordRows) : W RecordRows :=
  match r with
  | RREmpty | RRTailDyn | RRTailVar _ => mret r
  | RRExtend id t tail => t ← fv_typ t; tail ← fv_rrows tail; mret (RRExtend id t tail)
  end
with fv_labeled (t : LabeledType) : W LabeledType :=
  match t with mkLabeledType t l => t ← fv_typ t; mret (mkLabeledType t l) end
with fv_metadata (m : FieldMetadata) : W FieldMetadata :=
  match m with
  | mkFieldMetadata doc (mkTypeAnnotation typ contracts) opt not_exported priority =>
      typ ← match typ with Some t => t ← fv_labeled t; mret (Some t) | None => mret None end;
      contracts ← mapM fv_labeled contracts;
      mret (mkFieldMetadata doc (mkTypeAnnotation typ contracts) opt not_exported priority)
  end
with fv_field (f : Field) : W Field :=
  match f with
  | mkField v (Shared m) pending =>
      m ← match m with Some m => m ← fv_metadata m; mret (Some m) | None => mret None end;
      v ← match v with Some v => v ← fv_value v; mret (Some v) | None => mret None end;
      mret (mkField v (Shared m) pending)
  end.

(** [free_vars::transform] *)
Definition free_vars_transform (v : NickelValue) : outcome NickelValue :=
  '(v, _) ← fv_value v; Done v.

End free_vars.
