(* ===== verification/LazyCache.v ===== *)
(** * Thunks and the call-by-need cache ([core/src/eval/cache/lazy.rs],
    [core/src/eval/cache/mod.rs])

    A thunk is a block that holds a closure, shared by every pointer to it and
    updated in place. Thunks live in a heap and are named by their address.
    Operations are programs of a state monad over the heap, which may panic: a
    revertible thunk whose cached value is not built yet must not be read.
    [Rc] clones that the source avoids when it holds the only reference
    ([extract_or_clone], [Rc::try_unwrap]) are clones here, as nobody can tell. *)
From S2P Require Import Prelude IndexMap Values Records.

(** ** Data *)

Inductive ThunkState : Type := Blackholed | Suspended | Evaluated.

#[export] Instance ThunkState_eq_dec : EqDecision ThunkState.
Proof. solve_decision. Defined.

Inductive InnerThunkData : Type :=
| Standard (c : Closure)
| RevThunk (orig : Closure) (cached : option Closure) (deps : FieldDeps).

Record ThunkData : Type := mkThunkData {
  inner : InnerThunkData;
  state : ThunkState;
  locked : bool;
}.

(** ** [impl ThunkData] *)

Definition data_new (c : Closure) : ThunkData := mkThunkData (Standard c) Suspended false.

Definition data_new_rev (orig : Closure) (deps : FieldDeps) : ThunkData :=
  mkThunkData (RevThunk orig None deps) Suspended false.

(** [init_cached]: panics when the cached value was already built. *)
Definition init_cached (d : ThunkData) (rec_env : list (Ident * CacheIndex))
    : outcome ThunkData :=
  match inner d with
  | Standard _ => Done d
  | RevThunk orig cached deps =>
      match cached with
      | Some _ => Panic
      | None =>
          let env :=
            match deps with
            | Known ids =>
                if bool_decide (ids = ∅) then clos_env orig
                else env_extend (clos_env orig)
                       (List.filter (λ p, bool_decide (p.1 ∈ ids)) rec_env)
            | Unknown => env_extend (clos_env orig) rec_env
            end in
          Done (mkThunkData (RevThunk orig (Some (mkClosure (clos_value orig) env)) deps)
                            (state d) (locked d))
      end
  end.

(** [fun a => (fun b => (fun c => body))] *)
Definition mk_fun (args : list Ident) (body : NickelValue) : NickelValue :=
  foldr (λ id built, VTerm (TFun id built)) body args.

Definition revthunk_as_explicit_fun (d : ThunkData) (args : list Ident) : ThunkData :=
  match inner d with
  | Standard _ => d
  | RevThunk orig _ _ => data_new (mkClosure (mk_fun args (clos_value orig)) (clos_env orig))
  end.

(** [closure], [into_closure]: panics on a revertible thunk that is not built. *)
Definition closure (d : ThunkData) : outcome Closure :=
  match inner d with
  | Standard c => Done c
  | RevThunk _ cached _ => unwrap cached
  end.

Definition closure_or_orig (d : ThunkData) : Closure :=
  match inner d with
  | Standard c => c
  | RevThunk orig cached _ => default orig cached
  end.

(** [closure_mut], with the mutation [f] made through it. *)
Definition closure_mut (d : ThunkData) (f : Closure → Closure) : ThunkData :=
  let i :=
    match inner d with
    | Standard c => Standard (f c)
    | RevThunk orig (Some c) deps => RevThunk orig (Some (f c)) deps
    | RevThunk orig None deps => RevThunk (f orig) None deps
    end in
  mkThunkData i (state d) (locked d).

Definition data_update (d : ThunkData) (new : Closure) : ThunkData :=
  let i :=
    match inner d with
    | Standard _ => Standard new
    | RevThunk orig _ deps => RevThunk orig (Some new) deps
    end in
  mkThunkData i Evaluated (locked d).

Definition data_deps (d : ThunkData) : FieldDeps :=
  match inner d with Standard _ => deps_empty | RevThunk _ _ deps => deps end.

Definition with_state (d : ThunkData) (s : ThunkState) : ThunkData :=
  mkThunkData (inner d) s (locked d).

Definition with_locked (d : ThunkData) (b : bool) : ThunkData :=
  mkThunkData (inner d) (state d) b.

(** ** The heap of thunks *)

Record Heap : Type := mkHeap { thunks : gmap CacheIndex ThunkData; next : CacheIndex }.

Definition heap_empty : Heap := mkHeap ∅ 0.

(** Programs over the heap. *)
Definition M (A : Type) : Type := Heap → outcome (A * Heap).

#[export] Instance M_ret : MRet M := λ A a h, Done (a, h).
#[export] Instance M_bind : MBind M := λ A B f m h, '(a, h') ← m h; f a h'.

Definition lift {A} (o : outcome A) : M A := λ h, a ← o; Done (a, h).

(** [NickelValue::thunk]: a fresh block. *)
Definition alloc (d : ThunkData) : M CacheIndex := λ h,
  Done (next h, mkHeap (<[next h := d]> (thunks h)) (S (next h))).

(** [data().borrow()] and [data().borrow_mut()]. *)
Definition data (t : CacheIndex) : M ThunkData := λ h,
  d ← unwrap (thunks h !! t); Done (d, h).

Definition write (t : CacheIndex) (d : ThunkData) : M unit := λ h,
  Done ((), mkHeap (<[t := d]> (thunks h)) (next h)).

(** ** [impl Thunk] *)

Definition thunk_new (c : Closure) : M CacheIndex := alloc (data_new c).

Definition thunk_new_rev (c : Closure) (deps : FieldDeps) : M CacheIndex :=
  if deps_is_empty deps then thunk_new c else alloc (data_new_rev c deps).

Definition thunk_state (t : CacheIndex) : M ThunkState := d ← data t; mret (state d).

Definition set_evaluated (t : CacheIndex) : M unit :=
  d ← data t; write t (with_state d Evaluated).

Definition lock (t : CacheIndex) : M bool :=
  d ← data t;
  if locked d then mret false else _ ← write t (with_locked d true); mret true.

Definition unlock (t : CacheIndex) : M bool :=
  d ← data t; _ ← write t (with_locked d false); mret (locked d).

(** [BlackholedError] is the unit error. *)
Definition mk_update_frame (t : CacheIndex) : M (result CacheIndex unit) :=
  d ← data t;
  match state d with
  | Blackholed => mret (Err ())
  | Suspended | Evaluated => _ ← write t (with_state d Blackholed); mret (Ok t)
  end.

Definition borrow (t : CacheIndex) : M Closure := d ← data t; lift (closure d).

Definition borrow_mut (t : CacheIndex) (f : Closure → Closure) : M unit :=
  d ← data t; write t (closure_mut d f).

Definition borrow_orig (t : CacheIndex) : M Closure := d ← data t; mret (closure_or_orig d).

Definition get_owned (t : CacheIndex) : M Closure := borrow t.

Definition into_closure (t : CacheIndex) : M Closure := borrow t.

(** [ThunkData::revert], [Thunk::revert] *)
Definition revert (t : CacheIndex) : M CacheIndex :=
  d ← data t;
  match inner d with
  | Standard _ => mret t
  | RevThunk orig _ deps => alloc (mkThunkData (RevThunk orig None deps) Suspended false)
  end.

Definition build_cached (t : CacheIndex) (rec_env : list (Ident * CacheIndex)) : M unit :=
  d ← data t; d' ← lift (init_cached d rec_env); write t d'.

Definition thunk_deps (t : CacheIndex) : M FieldDeps := d ← data t; mret (data_deps d).

(** The application of [f] to variables. *)
Definition mk_app (f : NickelValue) (args : list Ident) : NickelValue :=
  foldl (λ partial_app id, VTerm (TApp partial_app (VTerm (TVar id)))) f args.

Definition saturate (t : CacheIndex) (fields : list Ident) : M NickelValue :=
  deps ← thunk_deps t;
  d ← data t;
  f ← alloc (revthunk_as_explicit_fun d (List.filter (deps_contains deps) fields));
  mret (mk_app (VThunk f) (List.filter (deps_contains deps) fields)).

Definition should_update (t : CacheIndex) : M bool :=
  c ← borrow t; mret (negb (is_whnf (clos_value c))).

(** [impl ThunkUpdateFrame] *)
Definition thunk_update (t : CacheIndex) (c : Closure) : M unit :=
  d ← data t; write t (data_update d c).

Definition reset_state (t : CacheIndex) : M unit :=
  d ← data t; write t (with_state d Suspended).

(** ** [trait Cache] *)

Class Cache (C : Type) : Type := {
  UpdateIndex : Type;
  cache_get : CacheIndex → C → outcome (Closure * C);
  cache_get_update_index : CacheIndex → C → outcome (result (option UpdateIndex) unit * C);
  cache_add : Closure → BindingType → C → outcome (CacheIndex * C);
  cache_patch : CacheIndex → (Closure → Closure) → C → outcome (unit * C);
  cache_update : Closure → UpdateIndex → C → outcome (unit * C);
  cache_reset_index_state : UpdateIndex → C → outcome (unit * C);
  cache_build_cached : CacheIndex → list (Ident * CacheIndex) → C → outcome (unit * C);
  cache_saturate : CacheIndex → list Ident → C → outcome (NickelValue * C);
  cache_revert : CacheIndex → C → outcome (CacheIndex * C);
  cache_deps : CacheIndex → C → outcome (option FieldDeps * C);
  cache_make_update_index : CacheIndex → C → outcome (result UpdateIndex unit * C);
}.

(** ** [impl Cache for CBNCache] *)

Definition get (t : CacheIndex) : M Closure := get_owned t.

Definition get_update_index (t : CacheIndex) : M (result (option CacheIndex) unit) :=
  s ← thunk_state t;
  match s with
  | Evaluated => mret (Ok None)
  | Suspended | Blackholed =>
      should ← should_update t;
      if negb should && negb (bool_decide (s = Blackholed)) then
        _ ← set_evaluated t; mret (Ok None)
      else
        r ← mk_update_frame t;
        mret (match r with Ok f => Ok (Some f) | Err e => Err e end)
  end.

Definition add (c : Closure) (bty : BindingType) : M CacheIndex :=
  match bty with
  | Normal => thunk_new c
  | Revertible deps => thunk_new_rev c deps
  end.

Definition patch (t : CacheIndex) (f : Closure → Closure) : M unit := borrow_mut t f.

Definition update (c : Closure) (t : CacheIndex) : M unit := thunk_update t c.

Definition deps (t : CacheIndex) : M (option FieldDeps) := d ← thunk_deps t; mret (Some d).

#[export] Instance CBNCache : Cache Heap := {
  UpdateIndex := CacheIndex;
  cache_get := get;
  cache_get_update_index := get_update_index;
  cache_add := add;
  cache_patch := patch;
  cache_update := update;
  cache_reset_index_state := reset_state;
  cache_build_cached := build_cached;
  cache_saturate := saturate;
  cache_revert := revert;
  cache_deps := deps;
  cache_make_update_index := mk_update_frame;
}.

(** [Label::get_evaluated_arg] *)
Definition get_evaluated_arg (l : Label) : M (option NickelValue) :=
  match arg_idx l with
  | None => mret None
  | Some t => c ← get t; mret (Some (clos_value c))
  end.
