(* ===== verification/LazyCacheTheorems.v ===== *)
(** * Properties of thunks

    What a program of the heap does when it does not panic ([wp]), the life of a
    thunk through [get_update_index] and [update], the independence of a
    reverted thunk from the original, and the agreement of the two ways to tie
    the recursive knot of a record: [init_cached], which extends the environment
    in place, and [saturate], which builds a function and its application. *)
From Stdlib Require Import QArith.Qcanon.
From S2P Require Import Prelude IndexMap Values Records LazyCache.

(** ** Total correctness of programs over the heap *)

Definition wp {A} (m : M A) (Q : A → Heap → Prop) (h : Heap) : Prop :=
  match m h with Done (a, h') => Q a h' | Panic | OutOfFuel => False end.

Section wp.
Context {A B : Type}.
Implicit Types (h : Heap) (t : CacheIndex).

Lemma wp_mono (m : M A) Q Q' h : wp m Q h → (∀ a h', Q a h' → Q' a h') → wp m Q' h.
Proof. unfold wp. destruct (m h) as [[a h']| |]; auto. Qed.

Lemma wp_bind (m : M A) (f : A → M B) Q h :
  wp m (λ a h', wp (f a) Q h') h → wp (m ≫= f) Q h.
Proof. unfold wp, mbind, M_bind. by destruct (m h) as [[a h']| |]. Qed.

Lemma wp_ret (a : A) Q h : Q a h → wp (mret a) Q h.
Proof. done. Qed.

Lemma wp_lift (o : outcome A) a Q h : o = Done a → Q a h → wp (lift o) Q h.
Proof. by intros -> ?. Qed.

Lemma wp_data t d Q h : thunks h !! t = Some d → Q d h → wp (data t) Q h.
Proof. intros Ht HQ. unfold wp, data. by rewrite Ht. Qed.

Lemma wp_write t d (Q : unit → Heap → Prop) h :
  Q () (mkHeap (<[t := d]> (thunks h)) (next h)) → wp (write t d) Q h.
Proof. done. Qed.

Lemma wp_alloc d (Q : CacheIndex → Heap → Prop) h :
  Q (next h) (mkHeap (<[next h := d]> (thunks h)) (S (next h))) → wp (alloc d) Q h.
Proof. done. Qed.

(** A program that ran is one that [wp] speaks of. *)
Lemma wp_run (m : M A) Q h a h' : wp m Q h → m h = Done (a, h') → Q a h'.
Proof. unfold wp. intros Hw Hm. by rewrite Hm in Hw. Qed.

End wp.

(** Steps through a program whose thunks are known. *)
Ltac wp_step :=
  match goal with
  | |- wp (_ ≫= _) _ _ => apply wp_bind
  | |- wp (mret _) _ _ => apply wp_ret
  | H : thunks ?h !! ?t = Some _ |- wp (data ?t) _ ?h => apply (wp_data _ _ _ _ H)
  | |- wp (data ?t) _ (mkHeap (<[?t := _]> _) _) =>
      eapply wp_data; [simpl; by rewrite lookup_insert_eq|]
  | |- wp (write _ _) _ _ => apply wp_write
  | |- wp (alloc _) _ _ => apply wp_alloc
  | H : ?o = Done _ |- wp (lift ?o) _ _ => apply (wp_lift _ _ _ _ H)
  end.

Ltac wp_steps := repeat (wp_step; simpl).

(** ** The life of a thunk *)

(** The heap [h] with the data of [t] changed. *)
Definition set_data (h : Heap) (t : CacheIndex) (d : ThunkData) : Heap :=
  mkHeap (<[t := d]> (thunks h)) (next h).

(** [get_update_index], in each state of the thunk. *)
Definition update_index_spec (t : CacheIndex) (d : ThunkData) (c : Closure) (h : Heap)
    : result (option CacheIndex) unit * Heap :=
  match state d with
  | Evaluated => (Ok None, h)
  | Blackholed => (Err (), h)
  | Suspended =>
      if is_whnf (clos_value c) then (Ok None, set_data h t (with_state d Evaluated))
      else (Ok (Some t), set_data h t (with_state d Blackholed))
  end.

Lemma get_update_index_run h t d c :
  thunks h !! t = Some d → closure d = Done c →
  get_update_index t h = Done (update_index_spec t d c h).
Proof.
  intros Ht Hc. unfold get_update_index, thunk_state, should_update, borrow, set_evaluated,
    mk_update_frame, update_index_spec, mbind, M_bind, data, lift, write, mret, M_ret, set_data.
  rewrite Ht. simpl. rewrite ?Ht.
  destruct (state d) eqn:Hs; simpl; rewrite ?Ht; simpl; rewrite ?Hc; simpl;
    [| |done]; destruct (is_whnf (clos_value c)); simpl; rewrite ?Ht; simpl; rewrite ?Hs; done.
Qed.

(** C12: a thunk is evaluated at most once, and an access while it is being
    evaluated is detected: entering a suspended thunk that holds an expression
    to evaluate blackholes it and gives an update frame, entering it again
    before the frame is popped is an error and changes nothing, and once the
    frame has been used every access returns the value that was computed,
    without a frame and without a change of the heap. *)
Theorem thunk_evaluated_once (h : Heap) (t : CacheIndex) (d : ThunkData) (c v : Closure)
    (Ht : thunks h !! t = Some d) (Hsusp : state d = Suspended)
    (Hc : closure d = Done c) (Hwhnf : is_whnf (clos_value c) = false) :
  ∃ h1 h2,
    get_update_index t h = Done (Ok (Some t), h1) ∧
    get_update_index t h1 = Done (Err (), h1) ∧
    update v t h1 = Done ((), h2) ∧
    get_update_index t h2 = Done (Ok None, h2) ∧
    get t h2 = Done (v, h2) ∧
    (∀ s, s ≠ t → thunks h2 !! s = thunks h !! s).
Proof.
  exists (set_data h t (with_state d Blackholed)),
         (set_data h t (data_update d v)).
  repeat split.
  - rewrite (get_update_index_run h t d c) by done. unfold update_index_spec.
    by rewrite Hsusp, Hwhnf.
  - rewrite (get_update_index_run _ t (with_state d Blackholed) c).
    + done.
    + simpl. by rewrite lookup_insert_eq.
    + done.
  - unfold update, thunk_update, mbind, M_bind, data. simpl. rewrite lookup_insert_eq. simpl.
    unfold write, set_data. simpl. by rewrite insert_insert_eq.
  - rewrite (get_update_index_run _ t (data_update d v) v).
    + done.
    + simpl. by rewrite lookup_insert_eq.
    + unfold closure, data_update. simpl. by destruct (inner d).
  - unfold get, get_owned, borrow, mbind, M_bind, data. simpl. rewrite lookup_insert_eq. simpl.
    unfold lift, closure. simpl. by destruct (inner d).
  - intros s Hs. simpl. by rewrite lookup_insert_ne.
Qed.

(** The thunk of [1 + x]. *)
Definition plus_thunk : ThunkData :=
  data_new (mkClosure (VTerm (TOp2 Plus (VNumber 1%Qc) (VTerm (TVar "x")))) ∅).

Lemma thunk_evaluated_once_witness :
  let h := mkHeap {[ 0 := plus_thunk ]} 1 in
  state plus_thunk = Suspended ∧
  ∃ h1 h2,
    get_update_index 0 h = Done (Ok (Some 0), h1) ∧
    get_update_index 0 h1 = Done (Err (), h1) ∧
    update (to_closure (VNumber (1 + 1)%Qc)) 0 h1 = Done ((), h2) ∧
    get_update_index 0 h2 = Done (Ok None, h2) ∧
    get 0 h2 = Done (to_closure (VNumber (1 + 1)%Qc), h2) ∧
    (∀ s, s ≠ 0 → thunks h2 !! s = thunks h !! s).
Proof.
  intros h. split; [done|].
  eapply (thunk_evaluated_once h 0 plus_thunk); reflexivity.
Defined.

(** ** Operations on a thunk *)

(** Everything the interpreter does to a thunk it holds. *)
Inductive thunk_op : Type :=
| OpEnter
| OpFrame
| OpUpdate (c : Closure)
| OpReset
| OpSetEvaluated
| OpLock
| OpUnlock
| OpBuild (rec_env : list (Ident * CacheIndex))
| OpPatch (f : Closure → Closure)
| OpGet
| OpRevert
| OpSaturate (fields : list Ident).

Definition apply_op (t : CacheIndex) (op : thunk_op) : M unit :=
  match op with
  | OpEnter => _ ← get_update_index t; mret ()
  | OpFrame => _ ← mk_update_frame t; mret ()
  | OpUpdate c => update c t
  | OpReset => reset_state t
  | OpSetEvaluated => set_evaluated t
  | OpLock => _ ← lock t; mret ()
  | OpUnlock => _ ← unlock t; mret ()
  | OpBuild rec_env => build_cached t rec_env
  | OpPatch f => patch t f
  | OpGet => _ ← get t; mret ()
  | OpRevert => _ ← revert t; mret ()
  | OpSaturate fields => _ ← saturate t fields; mret ()
  end.

Fixpoint apply_ops (t : CacheIndex) (ops : list thunk_op) : M unit :=
  match ops with
  | [] => mret ()
  | op :: ops' => _ ← apply_op t op; apply_ops t ops'
  end.

(** The heaps of the model: nothing is stored at the addresses to come. *)
Definition heap_ok (h : Heap) : Prop := ∀ t, next h ≤ t → thunks h !! t = None.

(** What an operation on [t] may change: [t] itself and fresh blocks. *)
Definition only_changes (t : CacheIndex) (h h' : Heap) : Prop :=
  next h ≤ next h' ∧ ∀ s, s ≠ t → s < next h → thunks h' !! s = thunks h !! s.

Lemma only_changes_refl t h : only_changes t h h.
Proof. by split. Qed.

Lemma only_changes_trans t h h' h'' :
  only_changes t h h' → only_changes t h' h'' → only_changes t h h''.
Proof. intros [? H1] [? H2]. split; [lia|]. intros s ? ?. rewrite H2, H1; auto with lia. Qed.

(** What is guaranteed of every run of a program. *)
Definition guarantees {A} (m : M A) (R : Heap → Heap → Prop) : Prop :=
  ∀ h a h', m h = Done (a, h') → R h h'.

Section guarantees.
Context (R : Heap → Heap → Prop).
Context (R_refl : ∀ h, R h h) (R_trans : ∀ h h' h'', R h h' → R h' h'' → R h h'').

Lemma guarantees_ret {A} (a : A) : guarantees (mret a) R.
Proof. intros h a' h' [= -> ->]. done. Qed.

Lemma guarantees_lift {A} (o : outcome A) : guarantees (lift o) R.
Proof. intros h a h' Hl. unfold lift in Hl. destruct o; simplify_eq/=. done. Qed.

Lemma guarantees_data t : guarantees (data t) R.
Proof.
  intros h a h' Hd. unfold data in Hd. destruct (thunks h !! t); simplify_eq/=. done.
Qed.

Lemma guarantees_bind {A B} (m : M A) (f : A → M B) :
  guarantees m R → (∀ a, guarantees (f a) R) → guarantees (m ≫= f) R.
Proof.
  intros Hm Hf h b h' Hb. unfold mbind, M_bind in Hb.
  destruct (m h) as [[a h1]| |] eqn:Hmh; simplify_eq/=.
  eapply R_trans; [by eapply Hm|by eapply Hf].
Qed.

End guarantees.

Lemma write_only_changes t d : guarantees (write t d) (only_changes t).
Proof.
  intros h [] h' Hw. unfold write in Hw. simplify_eq/=. split; [done|].
  intros s Hs _. simpl. by rewrite lookup_insert_ne.
Qed.

Lemma alloc_only_changes t d : guarantees (alloc d) (only_changes t).
Proof.
  intros h a h' Ha. unfold alloc in Ha. simplify_eq/=. split; simpl; [lia|].
  intros s _ Hs. rewrite lookup_insert_ne by lia. done.
Qed.

(** Follows a program built from reads, writes and allocations. *)
Ltac guarantee_steps :=
  repeat match goal with
  | |- guarantees (_ ≫= _) _ => apply guarantees_bind; [eauto using only_changes_trans| |intros ?]
  | |- guarantees (mret _) _ => apply guarantees_ret; eauto using only_changes_refl
  | |- guarantees (lift _) _ => apply guarantees_lift; eauto using only_changes_refl
  | |- guarantees (data _) _ => apply guarantees_data; eauto using only_changes_refl
  | |- guarantees (match ?x with _ => _ end) _ => destruct x
  | |- guarantees (if ?x then _ else _) _ => destruct x
  | |- guarantees (alloc _) _ => apply alloc_only_changes
  | |- guarantees (write _ _) _ => apply write_only_changes
  end.

Lemma apply_op_only_changes t op : guarantees (apply_op t op) (only_changes t).
Proof.
  destruct op; simpl;
    unfold get_update_index, mk_update_frame, update, thunk_update, reset_state, set_evaluated,
      lock, unlock, build_cached, patch, borrow_mut, get, get_owned, borrow, revert, saturate,
      thunk_deps, thunk_state, should_update, set_evaluated, mk_update_frame, borrow;
    guarantee_steps.
Qed.

Lemma apply_ops_only_changes t ops : guarantees (apply_ops t ops) (only_changes t).
Proof.
  induction ops as [|op ops IH]; simpl; guarantee_steps; [apply apply_op_only_changes|done].
Qed.

(** The patching of a recursive [let] is the one operation that can write to
    the original expression, when no cached value is there. *)
Definition is_patch (op : thunk_op) : bool := match op with OpPatch _ => true | _ => false end.

Definition orig_kept (i i' : InnerThunkData) : Prop :=
  match i with
  | Standard _ => True
  | RevThunk orig _ dps => ∃ cached', i' = RevThunk orig cached' dps
  end.

Lemma orig_kept_refl i : orig_kept i i.
Proof. destruct i; simpl; eauto. Qed.

Lemma orig_kept_trans i i' i'' : orig_kept i i' → orig_kept i' i'' → orig_kept i i''.
Proof. destruct i; simpl; [done|]. intros [? ->]. done. Qed.

(** Partial correctness: what holds of every run. *)
Definition wlp {A} (m : M A) (Q : A → Heap → Prop) (h : Heap) : Prop :=
  ∀ a h', m h = Done (a, h') → Q a h'.

Section wlp.
Context {A B : Type}.
Implicit Types (h : Heap) (t : CacheIndex).

Lemma wlp_bind (m : M A) (f : A → M B) Q h :
  wlp m (λ a h', wlp (f a) Q h') h → wlp (m ≫= f) Q h.
Proof.
  unfold wlp, mbind, M_bind. intros Hm b h' Hb.
  destruct (m h) as [[a h1]| |] eqn:Hmh; simplify_eq/=. eauto.
Qed.

Lemma wlp_ret (a : A) (Q : A → Heap → Prop) h : Q a h → wlp (mret a) Q h.
Proof. by intros ? ? ? [= <- <-]. Qed.

Lemma wlp_lift (o : outcome A) (Q : A → Heap → Prop) h :
  (∀ a, o = Done a → Q a h) → wlp (lift o) Q h.
Proof. intros HQ a h' Hl. unfold lift in Hl. destruct o; simplify_eq/=. auto. Qed.

Lemma wlp_data t (Q : ThunkData → Heap → Prop) h :
  (∀ d, thunks h !! t = Some d → Q d h) → wlp (data t) Q h.
Proof.
  intros HQ d h' Hd. unfold data in Hd. destruct (thunks h !! t) eqn:Ht; simplify_eq/=. auto.
Qed.

Lemma wlp_write t d (Q : unit → Heap → Prop) h :
  Q () (mkHeap (<[t := d]> (thunks h)) (next h)) → wlp (write t d) Q h.
Proof. intros HQ [] h' Hw. unfold write in Hw. by simplify_eq/=. Qed.

Lemma wlp_alloc d (Q : CacheIndex → Heap → Prop) h :
  Q (next h) (mkHeap (<[next h := d]> (thunks h)) (S (next h))) → wlp (alloc d) Q h.
Proof. intros HQ a h' Ha. unfold alloc in Ha. by simplify_eq/=. Qed.

End wlp.

Ltac wlp_steps :=
  repeat (simpl; match goal with
  | |- wlp (_ ≫= _) _ _ => apply wlp_bind
  | |- wlp (mret _) _ _ => apply wlp_ret
  | |- wlp (lift _) _ _ => apply wlp_lift; intros ? ?
  | |- wlp (data _) _ _ => apply wlp_data; intros ? ?
  | |- wlp (write _ _) _ _ => apply wlp_write
  | |- wlp (alloc _) _ _ => apply wlp_alloc
  | |- wlp (match ?x with _ => _ end) _ _ => destruct x eqn:?
  | |- wlp (if ?x then _ else _) _ _ => destruct x eqn:?
  end).

Lemma heap_ok_set h t d : heap_ok h → t < next h → heap_ok (mkHeap (<[t := d]> (thunks h)) (next h)).
Proof. intros Hok Ht s Hs. simpl in *. rewrite lookup_insert_ne by lia. auto. Qed.

Lemma heap_ok_alloc h d :
  heap_ok h → heap_ok (mkHeap (<[next h := d]> (thunks h)) (S (next h))).
Proof. intros Hok s Hs. simpl in *. rewrite lookup_insert_ne by lia. apply Hok. lia. Qed.

Lemma heap_ok_lt h t d : heap_ok h → thunks h !! t = Some d → t < next h.
Proof.
  intros Hok Ht. destruct (decide (t < next h)); [done|]. rewrite Hok in Ht by lia. done.
Qed.

Lemma init_cached_orig d env d' : init_cached d env = Done d' → orig_kept (inner d) (inner d').
Proof.
  unfold init_cached, orig_kept. destruct (inner d) as [|orig [c|] dps]; intros; simplify_eq/=;
    eauto.
Qed.

Lemma data_update_orig d c : orig_kept (inner d) (inner (data_update d c)).
Proof. unfold data_update. destruct (inner d); simpl; eauto. Qed.

(** What an operation that is not a patch makes of the content of its thunk. *)
Lemma apply_op_keeps_orig t op h d :
  is_patch op = false → heap_ok h → thunks h !! t = Some d →
  wlp (apply_op t op)
      (λ _ h', heap_ok h' ∧ ∃ d', thunks h' !! t = Some d' ∧ orig_kept (inner d) (inner d')) h.
Proof.
  intros Hop Hok Ht. pose proof (heap_ok_lt h t d Hok Ht) as Hlt.
  destruct op; simpl in Hop; try done; simpl;
    unfold get_update_index, update, thunk_update, reset_state, lock, unlock, build_cached, get,
      get_owned, revert, saturate, thunk_deps, thunk_state, should_update, set_evaluated,
      mk_update_frame, borrow;
    wlp_steps; simplify_eq/=;
    (split; [by eauto using heap_ok_set, heap_ok_alloc|]);
    (eexists; split; [first [by rewrite lookup_insert_eq
                            |by rewrite lookup_insert_ne by lia; eauto
                            |done]|]);
    eauto using orig_kept_refl, init_cached_orig, data_update_orig.
Qed.

Lemma apply_ops_keeps_orig t ops h h' d :
  forallb (λ op, negb (is_patch op)) ops = true → heap_ok h → thunks h !! t = Some d →
  apply_ops t ops h = Done ((), h') →
  heap_ok h' ∧ ∃ d', thunks h' !! t = Some d' ∧ orig_kept (inner d) (inner d').
Proof.
  revert h d. induction ops as [|op ops IH]; intros h d Hops Hok Ht Hrun; simpl in *.
  - unfold mret, M_ret in Hrun. simplify_eq/=. eauto using orig_kept_refl.
  - apply andb_true_iff in Hops as [Hop Hops]. apply negb_true_iff in Hop.
    unfold mbind, M_bind in Hrun. destruct (apply_op t op h) as [[[] h1]| |] eqn:H1;
      simplify_eq/=.
    destruct (apply_op_keeps_orig t op h d Hop Hok Ht _ _ H1) as (Hok1 & d1 & Ht1 & Hk1).
    edestruct (IH h1 d1) as (Hok2 & d2 & Ht2 & Hk2); eauto using orig_kept_trans.
Qed.

(** A thunk as [revert] leaves it. *)
Definition reverted (orig : Closure) (dps : FieldDeps) : ThunkData :=
  mkThunkData (RevThunk orig None dps) Suspended false.

Lemma revert_run h t d orig cached dps :
  thunks h !! t = Some d → inner d = RevThunk orig cached dps →
  revert t h = Done (next h, mkHeap (<[next h := reverted orig dps]> (thunks h)) (S (next h))).
Proof.
  intros Ht Hd. unfold revert, mbind, M_bind, data. rewrite Ht. simpl. rewrite Hd. done.
Qed.

(** C13: reverting a revertible thunk gives a fresh thunk with the original
    expression, not built and not locked, that shares nothing with the old one:
    whatever is done to one of them afterwards, updates included, the other is
    left as it was; and however the old thunk has been evaluated, updated, locked
    or built in the meantime, reverting it again gives the original back. *)
Theorem reverted_thunk_is_independent (h : Heap) (t : CacheIndex) (d : ThunkData)
    (orig : Closure) (cached : option Closure) (dps : FieldDeps)
    (Hok : heap_ok h) (Ht : thunks h !! t = Some d) (Hd : inner d = RevThunk orig cached dps) :
  ∃ t' h1, revert t h = Done (t', h1) ∧ t' ≠ t ∧
    thunks h1 !! t = Some d ∧ thunks h1 !! t' = Some (reverted orig dps) ∧
    (∀ ops h2, apply_ops t' ops h1 = Done ((), h2) → thunks h2 !! t = Some d) ∧
    (∀ ops h2, apply_ops t ops h1 = Done ((), h2) → thunks h2 !! t' = Some (reverted orig dps)) ∧
    (∀ ops h2, forallb (λ op, negb (is_patch op)) ops = true →
       apply_ops t ops h = Done ((), h2) →
       ∃ t'' h3, revert t h2 = Done (t'', h3) ∧ thunks h3 !! t'' = Some (reverted orig dps)).
Proof.
  assert (Hlt : t < next h).
  { destruct (decide (t < next h)); [done|]. rewrite Hok in Ht by lia. done. }
  eexists _, _. split; [by eapply revert_run|]. simpl.
  assert (Ht1 : <[next h := reverted orig dps]> (thunks h) !! t = Some d).
  { rewrite lookup_insert_ne by lia. done. }
  repeat split.
  - lia.
  - done.
  - by rewrite lookup_insert_eq.
  - intros ops h2 Hrun. apply apply_ops_only_changes in Hrun as [_ Hrun].
    rewrite Hrun; simpl; [done|lia|lia].
  - intros ops h2 Hrun. apply apply_ops_only_changes in Hrun as [_ Hrun].
    rewrite Hrun; simpl; [by rewrite lookup_insert_eq|lia|lia].
  - intros ops h2 Hops Hrun.
    edestruct (apply_ops_keeps_orig t ops h h2 d) as (_ & d2 & Ht2 & Hk); eauto.
    rewrite Hd in Hk. destruct Hk as [cached' Hd2].
    eexists _, _. split; [by eapply revert_run|]. simpl. by rewrite lookup_insert_eq.
Qed.

(** The thunk of [foo + 1] in a record with a field [foo]. *)
Definition foo_thunk : ThunkData :=
  data_new_rev (mkClosure (VTerm (TOp2 Plus (VTerm (TVar "foo")) (VNumber 1%Qc))) ∅)
               (Known {[ ident "foo" ]}).

Lemma reverted_thunk_is_independent_witness :
  let h := mkHeap {[ 0 := foo_thunk ]} 1 in
  let orig := mkClosure (VTerm (TOp2 Plus (VTerm (TVar "foo")) (VNumber 1%Qc))) ∅ in
  let dps := Known {[ ident "foo" ]} in
  heap_ok h ∧
  ∃ t' h1, revert 0 h = Done (t', h1) ∧ t' ≠ 0 ∧
    thunks h1 !! 0 = Some foo_thunk ∧ thunks h1 !! t' = Some (reverted orig dps) ∧
    (∀ ops h2, apply_ops t' ops h1 = Done ((), h2) → thunks h2 !! 0 = Some foo_thunk) ∧
    (∀ ops h2, apply_ops 0 ops h1 = Done ((), h2) → thunks h2 !! t' = Some (reverted orig dps)) ∧
    (∀ ops h2, forallb (λ op, negb (is_patch op)) ops = true →
       apply_ops 0 ops h = Done ((), h2) →
       ∃ t'' h3, revert 0 h2 = Done (t'', h3) ∧ thunks h3 !! t'' = Some (reverted orig dps)).
Proof.
  intros h orig dps.
  assert (Hok : heap_ok h).
  { intros [|t] Ht; simpl in *; [lia|]. by rewrite lookup_singleton_ne. }
  split; [done|].
  apply (reverted_thunk_is_independent h 0 foo_thunk orig None dps Hok); reflexivity.
Defined.

(** ** Two ways to tie the knot *)

(** The evaluation of an application of nested functions to variables bound to
    thunks in [renv]: each parameter is bound to the thunk of its argument. *)
Fixpoint apply_args (renv : Environment) (cf : Closure) (xs : list Ident) : option Closure :=
  match xs with
  | [] => Some cf
  | x :: xs' =>
      match clos_value cf with
      | VTerm (TFun a body) =>
          t ← renv !! x;
          apply_args renv (mkClosure body (<[a := t]> (clos_env cf))) xs'
      | _ => None
      end
  end.

Lemma env_extend_union e items :
  NoDup (keys items) → env_extend e items = list_to_map items ∪ e.
Proof.
  unfold env_extend, keys. revert e. induction items as [|[k t] items IH]; intros e Hnd; simpl.
  { by rewrite (left_id_L ∅ (∪)). }
  apply NoDup_cons in Hnd as [Hk Hnd]. rewrite IH by done.
  assert (Hn : (list_to_map items : gmap Ident CacheIndex) !! k = None).
  { by apply not_elem_of_list_to_map_1. }
  etransitivity; [symmetry; by apply insert_union_r|]. apply insert_union_l.
Qed.

Lemma env_extend_permutation e items items' :
  NoDup (keys items) → items ≡ₚ items' → env_extend e items = env_extend e items'.
Proof.
  intros Hnd Hp. rewrite !env_extend_union; [|unfold keys; by rewrite <- Hp|done].
  f_equal. by apply list_to_map_proper.
Qed.

Lemma filter_keys (f : Ident → bool) (items : list (Ident * CacheIndex)) :
  List.filter f (keys items) = keys (List.filter (λ p, f p.1) items).
Proof.
  unfold keys. induction items as [|[k t] items IH]; csimpl; [done|]. rewrite IH. by destruct (f k).
Qed.

Lemma NoDup_keys_filter (f : Ident * CacheIndex → bool) items :
  NoDup (keys items) → NoDup (keys (List.filter f items)).
Proof.
  unfold keys. induction items as [|[k t] items IH]; simpl; [done|].
  intros [Hk Hnd]%NoDup_cons. destruct (f (k, t)); [|by apply IH].
  csimpl. apply NoDup_cons. split; [|by apply IH]. contradict Hk.
  apply list_elem_of_fmap in Hk as ([k' t'] & -> & Hin).
  apply list_elem_of_In, filter_In in Hin as [Hin _].
  apply (list_elem_of_fmap_2 fst items (k', t')). by apply list_elem_of_In.
Qed.

Lemma List_filter_none {A} (f : A → bool) l : (∀ x, f x = false) → List.filter f l = [].
Proof. intros Hf. induction l as [|x l IH]; simpl; [done|]. by rewrite Hf. Qed.

Lemma List_filter_all {A} (f : A → bool) l : (∀ x, f x = true) → List.filter f l = l.
Proof. intros Hf. induction l as [|x l IH]; simpl; [done|]. by rewrite Hf, IH. Qed.

Lemma List_filter_permutation {A} (f : A → bool) l l' :
  l ≡ₚ l' → List.filter f l ≡ₚ List.filter f l'.
Proof.
  induction 1; simpl; repeat case_match; eauto using Permutation, Permutation_trans.
Qed.

(** Applying the function [fun xs => body] binds its parameters in order. *)
Lemma apply_args_mk_fun renv xs items body e :
  Forall2 (λ x p, p.1 = x ∧ renv !! x = Some p.2) xs items →
  apply_args renv (mkClosure (mk_fun xs body) e) xs = Some (mkClosure body (env_extend e items)).
Proof.
  intros Hall. revert e. induction Hall as [|x [y t] xs items [Hy Hx] Hall IH]; intros e; simpl.
  - done.
  - simpl in *. subst y. rewrite Hx. simpl. apply IH.
Qed.

Lemma lookup_args rec_env xs :
  NoDup (keys rec_env) → (∀ x, x ∈ xs → x ∈ keys rec_env) →
  ∃ items, Forall2 (λ x p, p.1 = x ∧ env_extend ∅ rec_env !! x = Some p.2) xs items ∧
    (∀ p, p ∈ items → p ∈ rec_env) ∧ keys items = xs.
Proof.
  intros Hnd Hin. induction xs as [|x xs IH].
  - exists []. repeat split; [constructor|]. intros p Hp. by apply not_elem_of_nil in Hp.
  - destruct IH as (items & Hall & Hsub & Hkeys); [intros; apply Hin; by right|].
    destruct (proj1 (elem_of_keys rec_env x)) as [t Ht]; [apply Hin; left|].
    exists ((x, t) :: items). repeat split.
    + constructor; [|done]. simpl. split; [done|].
      rewrite env_extend_union by done. rewrite (right_id_L ∅ (∪)).
      by apply elem_of_list_to_map_1.
    + intros p [->|Hp]%elem_of_cons; auto.
    + simpl. by rewrite Hkeys.
Qed.

Lemma init_cached_env e dps rec_env orig :
  clos_env orig = e →
  init_cached (reverted orig dps) rec_env
  = Done (mkThunkData
      (RevThunk orig (Some (mkClosure (clos_value orig)
         (env_extend e (List.filter (λ p, deps_contains dps p.1) rec_env)))) dps)
      Suspended false).
Proof.
  intros <-. unfold init_cached, reverted, deps_contains. simpl. destruct dps as [ids|].
  - case_bool_decide as Hids; [|done]. subst ids.
    rewrite List_filter_none; [done|]. intros p. by rewrite bool_decide_false by set_solver.
  - by rewrite List_filter_all.
Qed.

(** C14: the two ways of giving a recursive field its record agree. [saturate]
    builds, from a reverted field, the application of a function, allocated in a
    fresh standard thunk, to the names of the fields it depends on; [init_cached]
    extends the environment of the field directly. Applying the function to the
    thunks that the recursive environment binds those names to is exactly the
    closure [init_cached] caches, in whatever order the fields are listed. *)
Theorem saturate_agrees_with_init_cached (h : Heap) (t : CacheIndex) (orig : Closure)
    (dps : FieldDeps) (rec_env : list (Ident * CacheIndex)) (names : list Ident)
    (Ht : thunks h !! t = Some (reverted orig dps)) (Hnd : NoDup (keys rec_env))
    (Hnames : names ≡ₚ keys rec_env) :
  let xs := List.filter (deps_contains dps) names in
  ∃ cf h' d' c,
    saturate t names h = Done (mk_app (VThunk (next h)) xs, h') ∧
    thunks h' !! next h = Some (data_new cf) ∧
    init_cached (reverted orig dps) rec_env = Done d' ∧ closure d' = Done c ∧
    apply_args (env_extend ∅ rec_env) cf xs = Some c.
Proof.
  intros xs. eexists (mkClosure (mk_fun xs (clos_value orig)) (clos_env orig)), _, _, _.
  split_and!.
  - unfold saturate, thunk_deps, mbind, M_bind, data. rewrite Ht. simpl. rewrite Ht. done.
  - simpl. by rewrite lookup_insert_eq.
  - by apply init_cached_env.
  - done.
  - assert (Hxs : xs ≡ₚ keys (List.filter (λ p, deps_contains dps p.1) rec_env)).
    { unfold xs. rewrite <- filter_keys. by apply List_filter_permutation. }
    destruct (lookup_args rec_env xs) as (items & Hall & Hsub & Hkeys); [done| |].
    { intros x Hx. rewrite Hxs in Hx. apply elem_of_keys in Hx as [v Hv].
      apply list_elem_of_In, filter_In in Hv as [Hv _]. apply elem_of_keys. exists v.
      by apply list_elem_of_In. }
    rewrite (apply_args_mk_fun _ _ items) by done. do 2 f_equal.
    apply env_extend_permutation.
    { rewrite Hkeys, Hxs. by apply NoDup_keys_filter. }
    apply NoDup_Permutation.
    + apply (NoDup_fmap_1 fst). change (NoDup (keys items)). rewrite Hkeys, Hxs.
      by apply NoDup_keys_filter.
    + apply (NoDup_fmap_1 fst). by apply NoDup_keys_filter.
    + intros [x v]. rewrite (list_elem_of_In (List.filter _ _)), filter_In,
        <- list_elem_of_In. simpl. split.
      * intros Hin. split; [by apply Hsub|].
        assert (Hx : x ∈ xs) by (rewrite <- Hkeys; apply elem_of_keys; eauto).
        unfold xs in Hx. by apply list_elem_of_In, filter_In in Hx as [_ Hx].
      * intros [Hin Hd].
        assert (Hx : x ∈ keys items).
        { rewrite Hkeys, Hxs. apply elem_of_keys. exists v.
          apply list_elem_of_In, filter_In. split; [by apply list_elem_of_In|done]. }
        apply elem_of_keys in Hx as [v' Hv'].
        rewrite (im_ok_functional rec_env x v v'); auto.
Qed.

Lemma saturate_agrees_with_init_cached_witness :
  let h := mkHeap {[ 0 := foo_thunk ]} 1 in
  let orig := mkClosure (VTerm (TOp2 Plus (VTerm (TVar "foo")) (VNumber 1%Qc))) ∅ in
  let dps := Known {[ ident "foo" ]} in
  let rec_env := [(ident "bar", 7); (ident "foo", 8)] in
  let xs := List.filter (deps_contains dps) [ident "foo"; ident "bar"] in
  ∃ cf h' d' c,
    saturate 0 [ident "foo"; ident "bar"] h = Done (mk_app (VThunk (next h)) xs, h') ∧
    thunks h' !! next h = Some (data_new cf) ∧
    init_cached (reverted orig dps) rec_env = Done d' ∧ closure d' = Done c ∧
    apply_args (env_extend ∅ rec_env) cf xs = Some c.
Proof.
  intros h orig dps rec_env.
  apply (saturate_agrees_with_init_cached h 0 orig dps rec_env [ident "foo"; ident "bar"]).
  - reflexivity.
  - apply (bool_decide_unpack (NoDup (keys rec_env))). vm_compute. exact I.
  - apply Permutation_swap.
Defined.

(** On a standard thunk, [saturate] does not return the thunk: it copies
    its block, state and lock included, to a fresh one. What is computed for one
    of them is not shared with the other, and the copy of a blackholed thunk is
    blackholed with no update frame to leave that state. *)
Theorem saturate_copies_standard_thunk (h : Heap) (t : CacheIndex) (d : ThunkData)
    (c v : Closure) (names : list Ident)
    (Hok : heap_ok h) (Ht : thunks h !! t = Some d) (Hd : inner d = Standard c) :
  ∃ t' h', t' ≠ t ∧ thunks h' !! t' = Some d ∧ saturate t names h = Done (VThunk t', h') ∧
    ∃ h2, update v t h' = Done ((), h2) ∧ get t h2 = Done (v, h2) ∧ get t' h2 = Done (c, h2) ∧
    (state d = Blackholed → get_update_index t' h2 = Done (Err (), h2)).
Proof.
  pose proof (heap_ok_lt h t d Hok Ht) as Hlt.
  assert (Hdeps : List.filter (deps_contains deps_empty) names = []).
  { apply List_filter_none. intros p. simpl. by rewrite bool_decide_false by set_solver. }
  eexists (next h), _. split; [lia|]. split; [|split].
  2: { unfold saturate, thunk_deps, mbind, M_bind, data. rewrite Ht. simpl. rewrite Ht. simpl.
       unfold data_deps, revthunk_as_explicit_fun. rewrite Hd, Hdeps. simpl. reflexivity. }
  { simpl. by rewrite lookup_insert_eq. }
  eexists. split; [|split_and!].
  - unfold update, thunk_update, mbind, M_bind, data. simpl.
    rewrite lookup_insert_ne, Ht by lia. reflexivity.
  - unfold get, get_owned, borrow, mbind, M_bind, data. simpl. rewrite lookup_insert_eq. simpl.
    unfold data_update. by rewrite Hd.
  - unfold get, get_owned, borrow, mbind, M_bind, data. simpl.
    rewrite lookup_insert_ne, lookup_insert_eq by lia. simpl. unfold lift, closure.
    by rewrite Hd.
  - intros Hs. rewrite (get_update_index_run _ _ d c).
    + unfold update_index_spec. by rewrite Hs.
    + simpl. by rewrite lookup_insert_ne, lookup_insert_eq by lia.
    + unfold closure. by rewrite Hd.
Qed.

Lemma saturate_copies_standard_thunk_witness :
  let h := mkHeap {[ 0 := with_state plus_thunk Blackholed ]} 1 in
  let c := mkClosure (VTerm (TOp2 Plus (VNumber 1%Qc) (VTerm (TVar "x")))) ∅ in
  let v := to_closure (VNumber (1 + 1)%Qc) in
  ∃ t' h', t' ≠ 0 ∧ thunks h' !! t' = Some (with_state plus_thunk Blackholed) ∧
    saturate 0 [] h = Done (VThunk t', h') ∧
    ∃ h2, update v 0 h' = Done ((), h2) ∧ get 0 h2 = Done (v, h2) ∧ get t' h2 = Done (c, h2) ∧
    (state (with_state plus_thunk Blackholed) = Blackholed →
     get_update_index t' h2 = Done (Err (), h2)).
Proof.
  intros h c v.
  apply (saturate_copies_standard_thunk h 0 (with_state plus_thunk Blackholed) c v []).
  - intros [|t] Ht; simpl in *; [lia|]. by rewrite lookup_singleton_ne.
  - reflexivity.
  - reflexivity.
Defined.
