(* ===== verification/ContractEq.v ===== *)
(** * Contract equality ([core/src/eval/contract_eq.rs])

    The check that merging uses to apply a contract only once: physical
    equality, then a structural comparison that follows variables and thunks a
    bounded number of times (the gas). The gas is threaded through the
    comparison, in the order of the source. The heap is only read. Recursion is
    on fuel; [ContractEqTheorems.v] gives the fuel that is enough. *)
From S2P Require Import Prelude IndexMap Values Records LazyCache.

(** [MAX_GAS] *)
Definition MAX_GAS : nat := 12.

(** Programs that read and use the gas. *)
Definition G (A : Type) : Type := nat → outcome (A * nat).

#[export] Instance G_ret : MRet G := λ A a g, Done (a, g).
#[export] Instance G_bind : MBind G := λ A B f m g, '(a, g') ← m g; f a g'.

Definition read {A} (o : outcome A) : G A := λ g, a ← o; Done (a, g).

(** [State::use_gas] *)
Definition use_gas : G bool := λ g,
  match g with 0 => Done (false, 0) | S g' => Done (true, g') end.

(** [&&] *)
Definition andG (m m' : G bool) : G bool :=
  b ← m; if (b : bool) then m' else (mret false : G bool).

(** [Iterator::all] *)
Fixpoint allG {A} (f : A → G bool) (l : list A) : G bool :=
  match l with
  | [] => mret true
  | x :: l' => andG (f x) (allG f l')
  end.

Definition ret_and (b : bool) (m : G bool) : G bool := if b then m else mret false.

(** [RecordRows::iter], [EnumRows::iter]: the rows and the tail that ends them. *)
Inductive RowsItem (A : Type) : Type := ItemRow (id : Ident) (a : A) | ItemTail.
Arguments ItemRow {A} id a.
Arguments ItemTail {A}.

Fixpoint rrows_iter (r : RecordRows) : list (RowsItem Typ) :=
  match r with
  | RREmpty => []
  | RRExtend id t tail => ItemRow id t :: rrows_iter tail
  | RRTailVar _ | RRTailDyn => [ItemTail]
  end.

Fixpoint erows_iter (r : EnumRows) : list (RowsItem (option Typ)) :=
  match r with
  | EREmpty => []
  | ERExtend id t tail => ItemRow id t :: erows_iter tail
  | ERTailVar _ => [ItemTail]
  end.

(** The rows as entries, [None] when there is a tail. *)
Fixpoint rows_entries {A} (l : list (RowsItem A)) : option (list (Ident * A)) :=
  match l with
  | [] => Some []
  | ItemRow id a :: l' => es ← rows_entries l'; Some ((id, a) :: es)
  | ItemTail :: _ => None
  end.

Section contract_eq.
Context `{IndexMapOps Ident}.

(** The store of thunks. *)
Context (h : Heap).

(** Physical equality of two values and of their environments ([phys_eq] and
    [Environment::ptr_eq]): pointers are not part of the model. *)
Context (phys_eq : NickelValue → Environment → NickelValue → Environment → bool).

(** [rrows_as_map], [erows_as_map] *)
Definition rrows_as_map (r : RecordRows) : option (IndexMap Ident Typ) :=
  im_extend [] <$> rows_entries (rrows_iter r).

Definition erows_as_map (r : EnumRows) : option (IndexMap Ident (option Typ)) :=
  im_extend [] <$> rows_entries (erows_iter r).

(** [thunk.borrow()], which panics on a revertible thunk that is not built, and
    [thunk.borrow_orig()]. *)
Definition heap_borrow (t : CacheIndex) : outcome Closure :=
  d ← unwrap (thunks h !! t); closure d.

Definition heap_borrow_orig (t : CacheIndex) : outcome Closure :=
  d ← unwrap (thunks h !! t); Done (closure_or_orig d).

(** [map_eq] *)
Definition map_eq {V} (f : V → Environment → V → Environment → G bool)
    (map1 : IndexMap Ident V) (env1 : Environment)
    (map2 : IndexMap Ident V) (env2 : Environment) : G bool :=
  ret_and (length map1 =? length map2)
    (allG (λ p : Ident * V,
        match im_get map2 p.1 with
        | Some v2 => f p.2 env1 v2 env2
        | None => mret false
        end) map1).

Section step.
Context (contract_eq_rec : NickelValue → Environment → NickelValue → Environment → G bool).
Context (type_eq_rec : Typ → Environment → Typ → Environment → G bool).

(** [contract_eq_fields] *)
Definition contract_eq_fields (field1 : Field) (env1 : Environment)
    (field2 : Field) (env2 : Environment) : G bool :=
  pending_contracts_eq ←
    allG (λ p : RuntimeContract * RuntimeContract,
        ret_and (bool_decide (type_environment (contract_label p.1)
                              = type_environment (contract_label p.2)))
          (contract_eq_rec (contract p.1) env1 (contract p.2) env2))
      (zip (pending_contracts field1) (pending_contracts field2));
  annotations_eq ←
    allG (λ p : LabeledType * LabeledType,
        ret_and (bool_decide (type_environment (labeled_label p.1)
                              = type_environment (labeled_label p.2)))
          (type_eq_rec (labeled_typ p.1) env1 (labeled_typ p.2) env2))
      (zip (shared_iter_annots (metadata field1)) (shared_iter_annots (metadata field2)));
  let scalar_metadata_eq :=
    bool_decide (shared_opt (metadata field1) = shared_opt (metadata field2))
    && bool_decide (shared_not_exported (metadata field1) = shared_not_exported (metadata field2))
    && priority_eq (shared_priority (metadata field1)) (shared_priority (metadata field2)) in
  value_eq ←
    match value field1, value field2 with
    | Some value1, Some value2 => contract_eq_rec value1 env1 value2 env2
    | None, None => mret true
    | _, _ => mret false
    end;
  mret (pending_contracts_eq && annotations_eq && scalar_metadata_eq && value_eq).

(** The arm for two terms that are not variables. *)
Definition term_eq (term1 : Term) (env1 : Environment) (term2 : Term) (env2 : Environment)
    : G bool :=
  match term1, term2 with
  | TStrChunks scs1, TStrChunks scs2 =>
      ret_and (length scs1 =? length scs2)
        (allG (λ p : StrChunk * StrChunk,
            match p with
            | (ChunkLiteral s1, ChunkLiteral s2) => mret (bool_decide (s1 = s2))
            | _ => mret false
            end) (zip scs1 scs2))
  | TApp head1 arg1, TApp head2 arg2 =>
      andG (contract_eq_rec head1 env1 head2 env2) (contract_eq_rec arg1 env1 arg2 env2)
  | TRecRecord data1, TRecRecord data2 =>
      ret_and (bool_decide (length (dyn_fields data1) = 0)
               && bool_decide (length (dyn_fields data2) = 0)
               && bool_decide (length (includes data1) = 0)
               && bool_decide (length (includes data2) = 0))
        (andG (map_eq contract_eq_fields (fields (record data1)) env1
                                         (fields (record data2)) env2)
              (mret (bool_decide (open (attrs (record data1)) = open (attrs (record data2))))))
  | TAnnotated annot1 inner1, TAnnotated annot2 inner2 =>
      value_eq ← contract_eq_rec inner1 env1 inner2 env2;
      ty_eq ←
        match annot_first annot1, annot_first annot2 with
        | None, None => mret true
        | Some ctr1, Some ctr2 => type_eq_rec (labeled_typ ctr1) env1 (labeled_typ ctr2) env2
        | _, _ => mret false
        end;
      mret (value_eq && ty_eq)
  | TOp1 (RecordAccess id1) arg1, TOp1 (RecordAccess id2) arg2 =>
      ret_and (bool_decide (id1 = id2)) (contract_eq_rec arg1 env1 arg2 env2)
  | TSealed key1 inner1 _, TSealed key2 inner2 _ =>
      ret_and (bool_decide (key1 = key2)) (contract_eq_rec inner1 env1 inner2 env2)
  | TClosurize v1, TClosurize v2 => contract_eq_rec v1 env1 v2 env2
  | _, _ => mret false
  end.

Definition as_var (v : NickelValue) : option Ident :=
  match v with VTerm (TVar id) => Some id | _ => None end.

(** A variable on one side: its closure is compared with the other side. *)
Definition unfold_var (env : Environment) (id : Ident) (k : Closure → G bool) : G bool :=
  andG use_gas
    match env !! id with
    | Some idx => c ← read (heap_borrow idx); k c
    | None => mret false
    end.

(** The arms of [contract_eq_bounded] in which no side is a variable. *)
Definition whnf_eq (t1 : NickelValue) (env1 : Environment)
    (t2 : NickelValue) (env2 : Environment) : G bool :=
  match t1, t2 with
  | VNull, VNull => mret true
  | VBool b1, VBool b2 => mret (bool_decide (b1 = b2))
  | VEnumVariant tag1 arg1, VEnumVariant tag2 arg2 =>
      match arg1, arg2 with
      | None, None => mret (bool_decide (tag1 = tag2))
      | Some a1, Some a2 =>
          ret_and (bool_decide (tag1 = tag2)) (contract_eq_rec a1 env1 a2 env2)
      | _, _ => mret false
      end
  | VSealingKey s1, VSealingKey s2 => mret (bool_decide (s1 = s2))
  | VRecord Empty, VRecord Empty => mret true
  | VRecord (Alloc r1), VRecord (Alloc r2) =>
      andG (map_eq contract_eq_fields (fields r1) env1 (fields r2) env2)
           (mret (bool_decide (open (attrs r1) = open (attrs r2))))
  | VArray Empty, VArray Empty => mret true
  | VArray (Alloc a1), VArray (Alloc a2) =>
      ret_and (length (array a1) =? length (array a2))
        (andG (allG (λ p : NickelValue * NickelValue, contract_eq_rec p.1 env1 p.2 env2)
                    (zip (array a1) (array a2)))
              (mret (bool_decide (length (array_pending_contracts a1) = 0)
                     && bool_decide (length (array_pending_contracts a2) = 0))))
  | VType typ1 _, VType typ2 _ => type_eq_rec typ1 env1 typ2 env2
  | VTerm term1, VTerm term2 => term_eq term1 env1 term2 env2
  | VThunk thunk1, VThunk thunk2 =>
      if thunk1 =? thunk2 then mret true
      else
        andG use_gas
          (closure1 ← read (heap_borrow_orig thunk1);
           closure2 ← read (heap_borrow_orig thunk2);
           contract_eq_rec (clos_value closure1) (clos_env closure1)
                           (clos_value closure2) (clos_env closure2))
  | VThunk thunk, _ =>
      c ← read (heap_borrow_orig thunk);
      andG use_gas (contract_eq_rec (clos_value c) (clos_env c) t2 env2)
  | _, VThunk thunk =>
      c ← read (heap_borrow_orig thunk);
      andG use_gas (contract_eq_rec t1 env1 (clos_value c) (clos_env c))
  | VTerm (TRecRecord data), VRecord Empty
  | VRecord Empty, VTerm (TRecRecord data) =>
      mret (bool_decide (length (dyn_fields data) = 0)
            && bool_decide (length (includes data) = 0)
            && bool_decide (length (fields (record data)) = 0)
            && negb (open (attrs (record data))))
  | VTerm (TRecRecord rec_data), VRecord (Alloc r)
  | VRecord (Alloc r), VTerm (TRecRecord rec_data) =>
      ret_and (bool_decide (length (dyn_fields rec_data) = 0)
               && bool_decide (length (includes rec_data) = 0))
        (andG (map_eq contract_eq_fields (fields r) env1 (fields (record rec_data)) env2)
              (mret (bool_decide (open (attrs (record rec_data)) = open (attrs r)))))
  | _, _ => mret false
  end.

(** [contract_eq_bounded] *)
Definition contract_eq_step (t1 : NickelValue) (env1 : Environment)
    (t2 : NickelValue) (env2 : Environment) : G bool :=
  if phys_eq t1 env1 t2 env2 then mret true
  else
    match as_var t1, as_var t2 with
    | Some id1, Some id2 =>
        match env1 !! id1, env2 !! id2 with
        | Some idx1, Some idx2 =>
            andG use_gas
              (closure1 ← read (heap_borrow idx1);
               closure2 ← read (heap_borrow idx2);
               contract_eq_rec (clos_value closure1) (clos_env closure1)
                               (clos_value closure2) (clos_env closure2))
        | None, None => mret (bool_decide (id1 = id2))
        | _, _ => mret false
        end
    | Some id, None =>
        unfold_var env1 id (λ c, contract_eq_rec (clos_value c) (clos_env c) t2 env2)
    | None, Some id =>
        unfold_var env2 id (λ c, contract_eq_rec t1 env1 (clos_value c) (clos_env c))
    | None, None => whnf_eq t1 env1 t2 env2
    end.

(** [type_eq_bounded] *)
Definition type_eq_step (ty1 : Typ) (env1 : Environment) (ty2 : Typ) (env2 : Environment)
    : G bool :=
  match ty1, ty2 with
  | TyWildcard id1, TyWildcard id2 => mret (bool_decide (id1 = id2))
  | TyDyn, TyDyn | TyNumber, TyNumber | TyBool, TyBool | TySymbol, TySymbol
  | TyString, TyString => mret true
  | TyDict uty1 attrs1, TyDict uty2 attrs2 =>
      ret_and (bool_decide (attrs1 = attrs2)) (type_eq_rec uty1 env1 uty2 env2)
  | TyArray uty1, TyArray uty2 => type_eq_rec uty1 env1 uty2 env2
  | TyArrow s1 t1, TyArrow s2 t2 =>
      andG (type_eq_rec s1 env1 s2 env2) (type_eq_rec t1 env1 t2 env2)
  | TyEnum uty1, TyEnum uty2 =>
      match erows_as_map uty1, erows_as_map uty2 with
      | Some m1, Some m2 =>
          map_eq (λ o1 env1 o2 env2,
              match o1, o2 with
              | Some t1, Some t2 => type_eq_rec t1 env1 t2 env2
              | None, None => mret true
              | _, _ => mret false
              end) m1 env1 m2 env2
      | _, _ => mret false
      end
  | TyRecord uty1, TyRecord uty2 =>
      match rrows_as_map uty1, rrows_as_map uty2 with
      | Some m1, Some m2 => map_eq type_eq_rec m1 env1 m2 env2
      | _, _ => mret false
      end
  | TyContract t1, TyContract t2 => contract_eq_rec t1 env1 t2 env2
  | _, _ => mret false
  end.

End step.

Fixpoint contract_eq_bounded (fuel : nat) : NickelValue → Environment → NickelValue →
    Environment → G bool :=
  match fuel with
  | 0 => λ _ _ _ _ _, OutOfFuel
  | S fuel' => contract_eq_step (contract_eq_bounded fuel') (type_eq_bounded fuel')
  end
with type_eq_bounded (fuel : nat) : Typ → Environment → Typ → Environment → G bool :=
  match fuel with
  | 0 => λ _ _ _ _ _, OutOfFuel
  | S fuel' => type_eq_step (contract_eq_bounded fuel') (type_eq_bounded fuel')
  end.

(** [contract_eq], [type_eq_noenv] *)
Definition contract_eq (fuel : nat) (t1 : NickelValue) (env1 : Environment)
    (t2 : NickelValue) (env2 : Environment) : outcome bool :=
  '(b, _) ← contract_eq_bounded fuel t1 env1 t2 env2 MAX_GAS; Done b.

Definition type_eq_noenv (fuel : nat) (t1 t2 : Typ) : outcome bool :=
  '(b, _) ← type_eq_bounded fuel t1 ∅ t2 ∅ MAX_GAS; Done b.

End contract_eq.
