(* ===== verification/ContractEqTheorems.v ===== *)
(** * Properties of contract equality

    The comparison terminates: the gas bounds the unfoldings of variables and
    thunks, and everything else goes down in the two values. The examples show
    what it takes for equal although it is not. *)
From S2P Require Import Prelude IndexMap Values Records LazyCache ContractEq.

(** ** The size of the part of a value the comparison looks at *)

Definition sum_with {A} (f : A → nat) (l : list A) : nat :=
  foldr (λ x n, f x + n) 0 l.

Definition opt_with {A} (f : A → nat) (o : option A) : nat :=
  match o with Some x => f x | None => 0 end.

Fixpoint v_size (v : NickelValue) : nat :=
  match v with
  | VArray (Alloc d) => S (arr_size d)
  | VRecord (Alloc r) => S (rd_size r)
  | VTerm t => S (t_size t)
  | VEnumVariant _ arg => S (opt_with v_size arg)
  | VType t _ => S (ty_size t)
  | _ => 1
  end
with t_size (t : Term) : nat :=
  match t with
  | TApp a b => S (v_size a + v_size b)
  | TRecRecord d => S (rrd_size d)
  | TClosurize v | TOp1 _ v | TSealed _ v _ => S (v_size v)
  | TAnnotated a v => S (an_size a + v_size v)
  | _ => 1
  end
with arr_size (d : ArrayData) : nat :=
  match d with mkArrayData a _ => S (sum_with v_size a) end
with rd_size (r : RecordData) : nat :=
  match r with
  | mkRecordData fs _ _ => S (sum_with (λ p, match p with (_, f) => f_size f end) fs)
  end
with rrd_size (d : RecRecordData) : nat :=
  match d with mkRecRecordData r _ _ _ _ => S (rd_size r) end
with f_size (f : Field) : nat :=
  match f with
  | mkField v m p => S (opt_with v_size v + sm_size m + sum_with rc_size p)
  end
with sm_size (m : SharedMetadata) : nat :=
  match m with Shared i => S (opt_with fm_size i) end
with fm_size (m : FieldMetadata) : nat :=
  match m with mkFieldMetadata _ a _ _ _ => S (an_size a) end
with an_size (a : TypeAnnotation) : nat :=
  match a with mkTypeAnnotation t c => S (opt_with lt_size t + sum_with lt_size c) end
with lt_size (l : LabeledType) : nat :=
  match l with mkLabeledType t _ => S (ty_size t) end
with rc_size (c : RuntimeContract) : nat :=
  match c with mkRuntimeContract v _ => S (v_size v) end
with ty_size (t : Typ) : nat :=
  match t with
  | TyContract v => S (v_size v)
  | TyArrow a b => S (ty_size a + ty_size b)
  | TyEnum r => S (er_size r)
  | TyRecord r => S (rr_size r)
  | TyDict t' _ | TyArray t' => S (ty_size t')
  | _ => 1
  end
with rr_size (r : RecordRows) : nat :=
  match r with RRExtend _ t tail => S (ty_size t + rr_size tail) | _ => 1 end
with er_size (r : EnumRows) : nat :=
  match r with ERExtend _ t tail => S (opt_with ty_size t + er_size tail) | _ => 1 end.

Lemma sum_with_elem {A} (f : A → nat) l x : x ∈ l → f x ≤ sum_with f l.
Proof. induction 1; simpl; lia. Qed.

Lemma an_iter_size a l : l ∈ annot_iter a → lt_size l < an_size a.
Proof.
  destruct a as [t c]. unfold annot_iter. simpl. rewrite elem_of_app.
  intros [Hin|Hin].
  - destruct t; simpl in *; [|by apply not_elem_of_nil in Hin].
    apply list_elem_of_singleton in Hin as ->. lia.
  - apply (sum_with_elem lt_size) in Hin. lia.
Qed.

Lemma rd_fields_size r id f : (id, f) ∈ fields r → f_size f < rd_size r.
Proof.
  destruct r as [fs ? ?]. simpl. intros Hin.
  apply (sum_with_elem (λ p : Ident * Field, match p with (_, f0) => f_size f0 end)) in Hin.
  simpl in Hin. lia.
Qed.

(** ** Termination *)

(** From any gas up to [g], the program ends (or panics) and does not make gas. *)
Definition ends {A} (m : G A) (g : nat) : Prop :=
  ∀ g', g' ≤ g →
    match m g' with OutOfFuel => False | Panic => True | Done (_, g'') => g'' ≤ g' end.

Section ends.
Context {A B : Type}.
Implicit Types (g : nat).

Lemma ends_mono (m : G A) g g' : ends m g → g' ≤ g → ends m g'.
Proof. intros Hm Hle g0 Hg0. apply Hm. lia. Qed.

Lemma ends_ret (a : A) g : ends (mret a) g.
Proof. intros g' _. simpl. lia. Qed.

Lemma ends_bind (m : G A) (f : A → G B) g :
  ends m g → (∀ a, ends (f a) g) → ends (m ≫= f) g.
Proof.
  intros Hm Hf g' Hg. unfold mbind, G_bind. specialize (Hm g' Hg).
  destruct (m g') as [[a g1]| |]; simpl; [|done|done].
  specialize (Hf a g1 ltac:(lia)). destruct (f a g1) as [[b g2]| |]; try done. lia.
Qed.

Lemma ends_read_bind (o : outcome A) (f : A → G B) g :
  o ≠ OutOfFuel → (∀ a, o = Done a → ends (f a) g) → ends (read o ≫= f) g.
Proof.
  intros Ho Hf g' Hg. unfold mbind, G_bind, read. destruct o as [a| |]; simpl; [|done|done].
  by apply Hf.
Qed.

End ends.

Lemma ends_and m m' g : ends m g → ends m' g → ends (andG m m') g.
Proof. intros. apply ends_bind; [done|]. intros []; [done|apply ends_ret]. Qed.

Lemma ends_ret_and b m g : ends m g → ends (ret_and b m) g.
Proof. intros. destruct b; [done|apply ends_ret]. Qed.

Lemma ends_all {A} (f : A → G bool) l g : (∀ x, x ∈ l → ends (f x) g) → ends (allG f l) g.
Proof.
  induction l as [|x l IH]; simpl; intros Hf; [apply ends_ret|].
  apply ends_and; [apply Hf; left|]. apply IH. intros y Hy. apply Hf. by right.
Qed.

(** After a unit of gas was used there is less of it. *)
Lemma ends_use_gas (m : G bool) g : (∀ g', g = S g' → ends m g') → ends (andG use_gas m) g.
Proof.
  intros Hm g' Hg. unfold andG, mbind, G_bind, use_gas. destruct g' as [|g']; simpl; [done|].
  destruct g as [|g]; [lia|]. specialize (Hm g eq_refl g' ltac:(lia)).
  destruct (m g') as [[b g'']| |]; try done. lia.
Qed.

Section termination.
Context `{IndexMapLaws Ident}.
Context (h : Heap).
Context (phys_eq : NickelValue → Environment → NickelValue → Environment → bool).

(** [B] bounds the closures of the heap. *)
Definition heap_bound (B : nat) : Prop :=
  ∀ t d, thunks h !! t = Some d →
    v_size (clos_value (closure_or_orig d)) ≤ B ∧
    ∀ c, closure d = Done c → v_size (clos_value c) ≤ B.

Definition data_size (d : ThunkData) : nat :=
  match inner d with
  | Standard c => v_size (clos_value c)
  | RevThunk orig cached _ => v_size (clos_value orig) + opt_with (λ c, v_size (clos_value c)) cached
  end.

Lemma heap_bound_exists : ∃ B, heap_bound B.
Proof.
  exists (sum_with (λ p : CacheIndex * ThunkData, data_size p.2) (map_to_list (thunks h))).
  intros t d Ht. apply elem_of_map_to_list in Ht.
  apply (sum_with_elem (λ p : CacheIndex * ThunkData, data_size p.2)) in Ht. simpl in Ht.
  unfold data_size, closure_or_orig, closure in *.
  destruct (inner d) as [c|orig [c|] dps]; simpl in *; split; intros; simplify_eq/=; lia.
Qed.

Context (B : nat) (HB : heap_bound B).

Lemma borrow_size t c : heap_borrow h t = Done c → v_size (clos_value c) ≤ B.
Proof.
  unfold heap_borrow. destruct (thunks h !! t) as [d|] eqn:Ht; simpl; [|done].
  intros Hc. destruct (HB t d Ht) as [_ Hb]. by apply Hb.
Qed.

Lemma borrow_orig_size t c : heap_borrow_orig h t = Done c → v_size (clos_value c) ≤ B.
Proof.
  unfold heap_borrow_orig. destruct (thunks h !! t) as [d|] eqn:Ht; simpl; [|done].
  intros [= <-]. by destruct (HB t d Ht).
Qed.

Lemma borrow_ends t : heap_borrow h t ≠ OutOfFuel ∧ heap_borrow_orig h t ≠ OutOfFuel.
Proof.
  unfold heap_borrow, heap_borrow_orig. destruct (thunks h !! t) as [d|]; simpl; split; try done.
  unfold closure. by destruct (inner d) as [|? [] ?].
Qed.

Lemma map_eq_ends {V} (sz : V → nat) f (m1 m2 : IndexMap Ident V) e1 e2 g :
  (∀ id v1 v2, (id, v1) ∈ m1 → (id, v2) ∈ m2 → ends (f v1 e1 v2 e2) g) →
  ends (map_eq f m1 e1 m2 e2) g.
Proof.
  intros Hf. apply ends_ret_and, ends_all. intros [id v1] Hin. simpl.
  destruct (im_get m2 id) as [v2|] eqn:Hg; [|apply ends_ret].
  apply im_get_in in Hg. eauto.
Qed.

(** The fuel that is enough: what is left of the gas allows as many unfoldings,
    each of which brings at most the two closures of a pair of thunks. *)
Definition fuel_for (g s : nat) : nat := g * (2 * B + 1) + s + 1.

Definition fuel_ok (fuel : nat) : Prop :=
  (∀ g v1 e1 v2 e2, fuel_for g (v_size v1 + v_size v2) ≤ fuel →
     ends (contract_eq_bounded h phys_eq fuel v1 e1 v2 e2) g) ∧
  (∀ g t1 e1 t2 e2, fuel_for g (ty_size t1 + ty_size t2) ≤ fuel →
     ends (type_eq_bounded h phys_eq fuel t1 e1 t2 e2) g).

Section step.
Context (fuel : nat) (IH : fuel_ok fuel).

Local Notation rec_c := (contract_eq_bounded h phys_eq fuel).
Local Notation rec_t := (type_eq_bounded h phys_eq fuel).

Lemma rec_c_ends g v1 e1 v2 e2 s :
  fuel_for g s ≤ S fuel → v_size v1 + v_size v2 < s → ends (rec_c v1 e1 v2 e2) g.
Proof. intros Hf Hs. apply IH. unfold fuel_for in *. lia. Qed.

Lemma rec_t_ends g t1 e1 t2 e2 s :
  fuel_for g s ≤ S fuel → ty_size t1 + ty_size t2 < s → ends (rec_t t1 e1 t2 e2) g.
Proof. intros Hf Hs. apply IH. unfold fuel_for in *. lia. Qed.

Lemma unfold_ends g s s' v1 e1 v2 e2 :
  fuel_for (S g) s ≤ S fuel → v_size v1 + v_size v2 ≤ s' → s' ≤ 2 * B + s →
  ends (rec_c v1 e1 v2 e2) g.
Proof. intros Hf Hs Hs'. apply IH. unfold fuel_for in *. lia. Qed.

Lemma zip_elem {A C} (l : list A) (l' : list C) x y : (x, y) ∈ zip l l' → x ∈ l ∧ y ∈ l'.
Proof. intros Hin. split; [by eapply elem_of_zip_l|by eapply elem_of_zip_r]. Qed.

Lemma fields_ends g f1 e1 f2 e2 s :
  fuel_for g s ≤ S fuel → f_size f1 + f_size f2 < s →
  ends (contract_eq_fields rec_c rec_t f1 e1 f2 e2) g.
Proof.
  intros Hf Hs. destruct f1 as [v1 m1 p1], f2 as [v2 m2 p2]. unfold contract_eq_fields.
  apply ends_bind; [|intros ?; apply ends_bind; [|intros ?; apply ends_bind; [|intros ?]]].
  - apply ends_all. intros [[c1 l1] [c2 l2]] [Hc1 Hc2]%zip_elem. simpl in *.
    apply ends_ret_and. apply (rec_c_ends g _ _ _ _ s); [done|].
    apply (sum_with_elem rc_size) in Hc1, Hc2. simpl in *. lia.
  - apply ends_all. intros [[t1 l1] [t2 l2]] [Hc1 Hc2]%zip_elem. simpl in *.
    apply ends_ret_and. apply (rec_t_ends g _ _ _ _ s); [done|].
    destruct m1 as [[[? a1 ? ? ?]|]], m2 as [[[? a2 ? ? ?]|]]; simpl in *;
      try by apply not_elem_of_nil in Hc1. 2: by apply not_elem_of_nil in Hc2.
    apply an_iter_size in Hc1, Hc2. simpl in *. lia.
  - simpl in *. destruct v1, v2; try apply ends_ret.
    apply (rec_c_ends g _ _ _ _ s); simpl in *; [done|lia].
  - apply ends_ret.
Qed.

Lemma fields_map_ends g r1 e1 r2 e2 s :
  fuel_for g s ≤ S fuel → rd_size r1 + rd_size r2 < s →
  ends (map_eq (contract_eq_fields rec_c rec_t) (fields r1) e1 (fields r2) e2) g.
Proof.
  intros Hf Hs. apply (map_eq_ends f_size). intros id f1 f2 Hf1 Hf2.
  apply (fields_ends g _ _ _ _ s); [done|].
  apply rd_fields_size in Hf1, Hf2. lia.
Qed.

Lemma rrd_record_size d : rd_size (record d) < rrd_size d.
Proof. destruct d. simpl. lia. Qed.

Lemma term_ends g t1 e1 t2 e2 s :
  fuel_for g s ≤ S fuel → t_size t1 + t_size t2 < s →
  ends (term_eq rec_c rec_t t1 e1 t2 e2) g.
Proof.
  intros Hf Hs. destruct t1, t2; simpl in *; try apply ends_ret;
    try (match goal with op : UnaryOp |- _ => destruct op; apply ends_ret end).
  - apply ends_ret_and, ends_all. intros [[] []] _; apply ends_ret.
  - apply ends_and; apply (rec_c_ends g _ _ _ _ s); try done; lia.
  - apply ends_ret_and, ends_and; [|apply ends_ret].
    apply (fields_map_ends g _ _ _ _ s); [done|].
    pose proof (rrd_record_size data). pose proof (rrd_record_size data0). lia.
  - apply (rec_c_ends g _ _ _ _ s); [done|lia].
  - destruct op, op0; try apply ends_ret. apply ends_ret_and.
    apply (rec_c_ends g _ _ _ _ s); [done|lia].
  - apply ends_ret_and. apply (rec_c_ends g _ _ _ _ s); [done|lia].
  - apply ends_bind; [|intros ?; apply ends_bind; [|intros ?; apply ends_ret]].
    + apply (rec_c_ends g _ _ _ _ s); [done|lia].
    + unfold annot_first.
      destruct (head (annot_iter annot)) as [l1|] eqn:H1,
               (head (annot_iter annot0)) as [l2|] eqn:H2; try apply ends_ret.
      apply head_Some_elem_of, an_iter_size in H1, H2.
      apply (rec_t_ends g _ _ _ _ s); [done|]. destruct l1, l2. simpl in *. lia.
Qed.

(** Unfolding: a thunk or a variable is replaced by its closure. *)
Lemma borrow_bind_ends g t (k : Closure → G bool) :
  (∀ c, v_size (clos_value c) ≤ B → ends (k c) g) →
  ends (c ← read (heap_borrow h t); k c) g.
Proof.
  intros Hk. apply ends_read_bind; [apply borrow_ends|]. intros c Hc. apply Hk.
  by eapply borrow_size.
Qed.

Lemma borrow_orig_bind_ends g t (k : Closure → G bool) :
  (∀ c, v_size (clos_value c) ≤ B → ends (k c) g) →
  ends (c ← read (heap_borrow_orig h t); k c) g.
Proof.
  intros Hk. apply ends_read_bind; [apply borrow_ends|]. intros c Hc. apply Hk.
  by eapply borrow_orig_size.
Qed.

Lemma thunk_l_ends g thunk t2 e2 s :
  fuel_for g s ≤ S fuel → v_size t2 ≤ s →
  ends (c ← read (heap_borrow_orig h thunk);
        andG use_gas (rec_c (clos_value c) (clos_env c) t2 e2)) g.
Proof.
  intros Hf Hs. apply borrow_orig_bind_ends. intros c Hc. apply ends_use_gas. intros g' ->.
  eapply (unfold_ends g' s); [done|reflexivity|lia].
Qed.

Lemma thunk_r_ends g thunk t1 e1 s :
  fuel_for g s ≤ S fuel → v_size t1 ≤ s →
  ends (c ← read (heap_borrow_orig h thunk);
        andG use_gas (rec_c t1 e1 (clos_value c) (clos_env c))) g.
Proof.
  intros Hf Hs. apply borrow_orig_bind_ends. intros c Hc. apply ends_use_gas. intros g' ->.
  eapply (unfold_ends g' s); [done|reflexivity|lia].
Qed.

Lemma records_ends g r1 e1 r2 e2 b b' s :
  fuel_for g s ≤ S fuel → rd_size r1 + rd_size r2 < s →
  ends (ret_and b (andG (map_eq (contract_eq_fields rec_c rec_t) (fields r1) e1 (fields r2) e2)
                        (mret b'))) g.
Proof.
  intros. apply ends_ret_and, ends_and; [|apply ends_ret]. by apply (fields_map_ends g _ _ _ _ s).
Qed.

Lemma whnf_ends g v1 e1 v2 e2 s :
  fuel_for g s ≤ S fuel → v_size v1 + v_size v2 ≤ s →
  ends (whnf_eq h rec_c rec_t v1 e1 v2 e2) g.
Proof.
  intros Hf Hs.
  destruct v1 as [| | |[]|[]| | | | |? []| | | |], v2 as [| | |[]|[]| | | | |? []| | | |];
    cbn [whnf_eq]; try apply ends_ret;
    try (match goal with t : Term |- _ => destruct t; apply ends_ret end);
    try (apply (thunk_l_ends g _ _ _ s); [done|lia]);
    try (apply (thunk_r_ends g _ _ _ s); [done|lia]);
    try (match goal with t : Term |- _ =>
           destruct t; (apply (thunk_l_ends g _ _ _ s); [done|lia]) end);
    try (match goal with t : Term |- _ =>
           destruct t; (apply (thunk_r_ends g _ _ _ s); [done|lia]) end);
    simpl in Hs.
  - apply ends_ret_and, ends_and; [|apply ends_ret]. apply ends_all.
    intros [x y] [Hx Hy]%zip_elem. destruct c, c0. simpl in *.
    apply (sum_with_elem v_size) in Hx, Hy. apply (rec_c_ends g _ _ _ _ s); [done|]. simpl. lia.
  - apply (records_ends g _ _ _ _ true _ s); [done|lia].
  - destruct t; try apply ends_ret. apply (records_ends g _ _ _ _ _ _ s); [done|].
    pose proof (rrd_record_size data). simpl in Hs. lia.
  - destruct (t =? t0); [apply ends_ret|]. apply ends_use_gas. intros g' ->.
    apply borrow_orig_bind_ends. intros c Hc. apply borrow_orig_bind_ends. intros c' Hc'.
    eapply (unfold_ends g' s); [done|reflexivity|lia].
  - destruct t; try apply ends_ret. apply (records_ends g _ _ _ _ _ _ s); [done|].
    pose proof (rrd_record_size data). simpl in Hs. lia.
  - assert (ends (term_eq rec_c rec_t t e1 t0 e2) g) by (apply (term_ends g _ _ _ _ s); [done|lia]).
    by destruct t.
  - apply ends_ret_and. apply (rec_c_ends g _ _ _ _ s); [done|lia].
  - apply (rec_t_ends g _ _ _ _ s); [done|lia].
Qed.

Lemma contract_step_ends g v1 e1 v2 e2 :
  fuel_for g (v_size v1 + v_size v2) ≤ S fuel →
  ends (contract_eq_step h phys_eq rec_c rec_t v1 e1 v2 e2) g.
Proof.
  intros Hf. unfold contract_eq_step. destruct (phys_eq v1 e1 v2 e2); [apply ends_ret|].
  destruct (as_var v1) as [id1|], (as_var v2) as [id2|].
  - destruct (e1 !! id1), (e2 !! id2); try apply ends_ret. apply ends_use_gas. intros g' ->.
    apply borrow_bind_ends. intros ? ?. apply borrow_bind_ends. intros ? ?.
    eapply (unfold_ends g'); [done|reflexivity|lia].
  - apply ends_use_gas. intros g' ->. destruct (e1 !! id1); [|apply ends_ret].
    apply borrow_bind_ends. intros ? ?. eapply (unfold_ends g'); [done|reflexivity|lia].
  - apply ends_use_gas. intros g' ->. destruct (e2 !! id2); [|apply ends_ret].
    apply borrow_bind_ends. intros ? ?. eapply (unfold_ends g'); [done|reflexivity|lia].
  - by apply (whnf_ends g _ _ _ _ (v_size v1 + v_size v2)).
Qed.

Lemma rows_entries_in {A} (l : list (RowsItem A)) es id a :
  rows_entries l = Some es → (id, a) ∈ es → ItemRow id a ∈ l.
Proof.
  revert es. induction l as [|[id' a'|] l IHl]; intros es Hes Hin; simpl in Hes; simplify_eq.
  - by apply not_elem_of_nil in Hin.
  - destruct (rows_entries l) as [es'|]; simplify_eq/=.
    apply elem_of_cons in Hin as [Hin|Hin]; [simplify_eq; left|right; by eapply IHl].
Qed.

Lemma rrows_iter_size r id t : ItemRow id t ∈ rrows_iter r → ty_size t < rr_size r.
Proof.
  induction r; simpl; rewrite ?elem_of_cons, ?elem_of_nil; intros; destruct_or?; simplify_eq; [|].
  - lia.
  - specialize (IHr ltac:(done)). lia.
Qed.

Lemma erows_iter_size r id t : ItemRow id (Some t) ∈ erows_iter r → ty_size t < er_size r.
Proof.
  induction r; simpl; rewrite ?elem_of_cons, ?elem_of_nil; intros; destruct_or?; simplify_eq/=.
  - lia.
  - specialize (IHr ltac:(done)). lia.
Qed.

Lemma rows_map_in {A} (l : list (RowsItem A)) (m : IndexMap Ident A) id a :
  im_extend [] <$> rows_entries l = Some m → (id, a) ∈ m → ItemRow id a ∈ l.
Proof.
  destruct (rows_entries l) as [es|] eqn:Hes; simpl; [|done].
  intros [= <-] [Hin|Hin]%im_extend_in; [by eapply rows_entries_in|].
  by apply not_elem_of_nil in Hin.
Qed.

Lemma type_step_ends g t1 e1 t2 e2 :
  fuel_for g (ty_size t1 + ty_size t2) ≤ S fuel →
  ends (type_eq_step rec_c rec_t t1 e1 t2 e2) g.
Proof.
  intros Hf.
  destruct t1, t2; cbn [type_eq_step]; try apply ends_ret; simpl in Hf.
  - eapply rec_c_ends; [done|lia].
  - apply ends_and; (eapply rec_t_ends; [done|lia]).
  - destruct (erows_as_map erows) as [m1|] eqn:H1; [|apply ends_ret].
    destruct (erows_as_map erows0) as [m2|] eqn:H2; [|apply ends_ret].
    apply (map_eq_ends (λ _, 0)). intros id [v1|] [v2|] Hv1 Hv2; try apply ends_ret.
    eapply rows_map_in in Hv1, Hv2; [|done..]. apply erows_iter_size in Hv1, Hv2.
    eapply rec_t_ends; [done|lia].
  - destruct (rrows_as_map rrows) as [m1|] eqn:H1; [|apply ends_ret].
    destruct (rrows_as_map rrows0) as [m2|] eqn:H2; [|apply ends_ret].
    apply (map_eq_ends (λ _, 0)). intros id v1 v2 Hv1 Hv2.
    eapply rows_map_in in Hv1, Hv2; [|done..]. apply rrows_iter_size in Hv1, Hv2.
    eapply rec_t_ends; [done|lia].
  - apply ends_ret_and. eapply rec_t_ends; [done|lia].
  - eapply rec_t_ends; [done|lia].
Qed.

End step.

Lemma all_fuel_ok fuel : fuel_ok fuel.
Proof.
  induction fuel as [|fuel IH].
  - split; intros g x1 e1 x2 e2 Hf; unfold fuel_for in Hf; lia.
  - split; intros g x1 e1 x2 e2 Hf; [by apply contract_step_ends|by apply type_step_ends].
Qed.
End termination.

(** C15: contract equality terminates, whatever the two contracts, their
    environments and the store, cyclic ones included: with enough fuel neither
    [contract_eq] nor [type_eq_noenv] asks for more. *)
Theorem contract_eq_terminates `{IndexMapLaws Ident} (h : Heap)
    (phys_eq : NickelValue → Environment → NickelValue → Environment → bool)
    (t1 : NickelValue) (env1 : Environment) (t2 : NickelValue) (env2 : Environment)
    (ty1 ty2 : Typ) :
  ∃ enough, ∀ fuel, enough ≤ fuel →
    contract_eq h phys_eq fuel t1 env1 t2 env2 ≠ OutOfFuel ∧
    type_eq_noenv h phys_eq fuel ty1 ty2 ≠ OutOfFuel.
Proof.
  destruct (heap_bound_exists h) as [B HB].
  exists (fuel_for B MAX_GAS (v_size t1 + v_size t2 + ty_size ty1 + ty_size ty2)).
  intros fuel Hfuel. destruct (all_fuel_ok h phys_eq B HB fuel) as [Hc Ht].
  specialize (Hc MAX_GAS t1 env1 t2 env2). specialize (Ht MAX_GAS ty1 ∅ ty2 ∅).
  unfold fuel_for in *. specialize (Hc ltac:(lia) MAX_GAS ltac:(lia)).
  specialize (Ht ltac:(lia) MAX_GAS ltac:(lia)).
  unfold contract_eq, type_eq_noenv. split.
  - destruct (contract_eq_bounded _ _ _ _ _ _ _ _) as [[b g]| |]; done.
  - destruct (type_eq_bounded _ _ _ _ _ _ _ _) as [[b g]| |]; done.
Qed.

(** The thunk of a variable bound to itself. *)
Lemma contract_eq_terminates_witness :
  let loop := mkClosure (VTerm (TVar "x")) {[ ident "x" := 0 ]} in
  let h := mkHeap {[ 0 := data_new loop ]} 1 in
  ∃ enough, ∀ fuel, enough ≤ fuel →
    contract_eq h (λ _ _ _ _, false) fuel (VThunk 0) ∅ VNull ∅ ≠ OutOfFuel ∧
    type_eq_noenv h (λ _ _ _ _, false) fuel TyNumber TyDyn ≠ OutOfFuel.
Proof. intros loop h. apply contract_eq_terminates. Defined.

(** ** What is taken for equal *)

(** The record contract [{id | ...}], with a field without value. *)
Definition record_contract (id : Ident) (m : SharedMetadata) (pending : list RuntimeContract)
    : NickelValue :=
  VTerm (TRecRecord (mkRecRecordData
    (mkRecordData [(id, mkField None m pending)] attrs_default None) [] [] None false)).

(** [contract_eq] as the boolean test of contract deduplication. *)
Definition contract_eqb `{IndexMapOps Ident} (h : Heap) (fuel : nat)
    (t1 : NickelValue) (env1 : Environment) (t2 : NickelValue) (env2 : Environment) : bool :=
  match contract_eq h (λ _ _ _ _, false) fuel t1 env1 t2 env2 with Done b => b | _ => false end.

(** Contracts that one field has and the other has not are ignored: the
    pending contracts and the annotations of two fields are compared pairwise up
    to the end of the shorter list, so that the record contract [{id}] equals
    [{id | C, ...}] for all annotations and pending contracts, and deduplication
    drops the second contract when the two are merged. *)
Theorem contract_eq_ignores_unmatched_contracts (h : Heap) (fuel : nat) (id : Ident)
    (m : FieldMetadata) (pending : list RuntimeContract) (l1 l2 : Label)
    (Hopt : opt m = false) (Hexp : not_exported m = false) (Hprio : priority m = Neutral) :
  let ctr1 := mkRuntimeContract (record_contract id (Shared None) []) l1 in
  let ctr2 := mkRuntimeContract (record_contract id (Shared (Some m)) pending) l2 in
  contract_eqb h (S fuel) (contract ctr1) ∅ (contract ctr2) ∅ = true ∧
  combine_dedup (contract_eqb h (S fuel)) [ctr1] ∅ [ctr2] ∅ = [ctr1].
Proof.
  intros ctr1 ctr2.
  assert (Heq : contract_eqb h (S fuel) (contract ctr1) ∅ (contract ctr2) ∅ = true).
  { unfold contract_eqb, contract_eq. cbn [contract_eq_bounded contract ctr1 ctr2].
    unfold contract_eq_step, record_contract.
    cbn [as_var whnf_eq term_eq dyn_fields includes record fields attrs length].
    unfold map_eq. simpl. rewrite decide_True by done. simpl.
    unfold contract_eq_fields, shared_opt, shared_not_exported, shared_priority. simpl.
    by rewrite Hopt, Hexp, Hprio. }
  split; [done|]. unfold combine_dedup. cbn [foldl length take existsb]. by rewrite Heq.
Qed.

(** [{foo}] and [{foo | Number}]. *)
Lemma contract_eq_ignores_unmatched_contracts_witness :
  let number := mkFieldMetadata None
    (mkTypeAnnotation None [mkLabeledType TyNumber label_default]) false false Neutral in
  let ctr1 := mkRuntimeContract (record_contract "foo" (Shared None) []) label_default in
  let ctr2 := mkRuntimeContract (record_contract "foo" (Shared (Some number)) []) label_default in
  contract_eqb heap_empty 1 (contract ctr1) ∅ (contract ctr2) ∅ = true ∧
  combine_dedup (contract_eqb heap_empty 1) [ctr1] ∅ [ctr2] ∅ = [ctr1].
Proof.
  intros number. apply (contract_eq_ignores_unmatched_contracts heap_empty 0 "foo" number []);
    reflexivity.
Defined.

(** [{a = x}] unevaluated with [x] bound in its environment, and the evaluated
    record [{a = <thunk of x>}]. *)
Definition unevaluated_record : NickelValue :=
  VTerm (TRecRecord (mkRecRecordData
    (mkRecordData [(ident "a", field_from_value (VTerm (TVar "x")))] attrs_default None)
    [] [] None false)).

Definition evaluated_record : NickelValue :=
  VRecord (Alloc (mkRecordData [(ident "a", field_from_value (VThunk 0))] attrs_default None)).

(** Contract equality is not symmetric: between an unevaluated and an
    evaluated record, the fields of the evaluated one are compared in the
    environment of the left contract and those of the other one in the
    environment of the right contract, whichever side they come from. *)
Theorem contract_eq_not_symmetric :
  let h := mkHeap {[ 0 := data_new (to_closure VNull) ]} 1 in
  let env : Environment := {[ ident "x" := 0 ]} in
  contract_eq h (λ _ _ _ _, false) 10 evaluated_record ∅ unevaluated_record env = Done true ∧
  contract_eq h (λ _ _ _ _, false) 10 unevaluated_record env evaluated_record ∅ = Done false.
Proof. intros h env. split; vm_compute; reflexivity. Qed.
