(* ===== verification/Closurize.v ===== *)
(** * Closurization and the fixpoint of records ([core/src/closurize.rs],
    [core/src/eval/fixpoint.rs], [trait RevertClosurize] and [trait Saturate] of
    [core/src/eval/merge.rs])

    Packing expressions with their environment as thunks, building the recursive
    environment of a record and patching its fields with it, and putting fields
    back to their original expressions. The assertions of the debug build are
    panics. *)
From stdpp Require Import sorting.
From Stdlib Require Import QArith.Qcanon.
From S2P Require Import Prelude IndexMap Values Records LazyCache.

Definition assertM (b : bool) : M unit := lift (assert b).

Definition is_normal (b : BindingType) : bool :=
  match b with Normal => true | Revertible _ => false end.

(** ** [trait Closurize] *)

(** [closurize_as_btype] for values: constants are left alone, and a thunk that
    holds a standard closure is reused. *)
Definition closurize_as_btype (v : NickelValue) (env : Environment) (btype : BindingType)
    : M NickelValue :=
  if is_constant v then mret v
  else
    idx ←
      match v with
      | VThunk t =>
          dps ← thunk_deps t;
          if deps_is_empty dps && is_normal btype then mret t
          else
            _ ← assertM (is_normal btype || deps_is_empty dps);
            add (mkClosure v env) btype
      | VTerm (TVar id) =>
          if is_generated id then
            match env !! id with
            | Some t => mret t
            | None => _ ← assertM false; add (mkClosure v env) btype
            end
          else add (mkClosure v env) btype
      | _ => add (mkClosure v env) btype
      end;
    mret (VThunk idx).

(** [closurize] *)
Definition closurize (v : NickelValue) (env : Environment) : M NickelValue :=
  closurize_as_btype v env Normal.

Definition closurize_contract (c : RuntimeContract) (env : Environment) (btype : BindingType)
    : M RuntimeContract :=
  v ← closurize_as_btype (contract c) env btype;
  mret (mkRuntimeContract v (contract_label c)).

Definition closurize_contracts (cs : list RuntimeContract) (env : Environment)
    (btype : BindingType) : M (list RuntimeContract) :=
  mapM (λ c, closurize_contract c env btype) cs.

(** The optional value of a field. *)
Definition option_mapM {A B} (f : A → M B) (o : option A) : M (option B) :=
  match o with Some a => b ← f a; mret (Some b) | None => mret None end.

Definition closurize_field (f : Field) (env : Environment) (btype : BindingType) : M Field :=
  pending ← closurize_contracts (pending_contracts f) env btype;
  v ← option_mapM (λ v, closurize_as_btype v env btype) (value f);
  mret (mkField v (metadata f) pending).

Definition closurize_array (l : list NickelValue) (env : Environment) (btype : BindingType)
    : M (list NickelValue) :=
  mapM (λ v, if should_share v then closurize_as_btype v env btype else mret v) l.

Definition closurize_array_data (d : ArrayData) (env : Environment) (btype : BindingType)
    : M ArrayData :=
  pending ← closurize_contracts (array_pending_contracts d) env btype;
  a ← closurize_array (array d) env btype;
  mret (mkArrayData a pending).

Definition closurize_record (r : RecordData) (env : Environment) (btype : BindingType)
    : M RecordData :=
  fs ← mapM (λ p : Ident * Field, f ← closurize_field p.2 env btype; mret (p.1, f)) (fields r);
  mret (mkRecordData fs (attrs r) (sealed_tail r)).

Definition mk_binding_type (field_deps : option FieldDeps) : BindingType :=
  let is_non_rec := default false (deps_is_empty <$> field_deps) in
  if is_non_rec then Normal else Revertible (default Unknown field_deps).

Section closurize_rec.
Context `{IndexMapOps Ident}.

(** The dependencies of a static field, and of the dynamic field number [i]. *)
Definition stat_deps (dps : option RecordDeps) (id : Ident) : option FieldDeps :=
  dps ≫= λ d, im_get (deps_stat_fields d) id.

Definition dyn_deps (dps : option RecordDeps) (i : nat) : option FieldDeps :=
  dps ≫= λ d, deps_dyn_fields d !! i.

Definition closurize_rec_record (r : RecordData) (dyns : list (NickelValue * Field))
    (dps : option RecordDeps) (env : Environment)
    : M (RecordData * list (NickelValue * Field)) :=
  fs ← mapM (λ p : Ident * Field,
      f ← closurize_field p.2 env (mk_binding_type (stat_deps dps p.1)); mret (p.1, f))
    (fields r);
  dyns' ← mapM (λ ip : nat * (NickelValue * Field),
      id_t ← closurize ip.2.1 env;
      f ← closurize_field ip.2.2 env (mk_binding_type (dyn_deps dps ip.1));
      mret (id_t, f))
    (imap (λ i p, (i, p)) dyns);
  mret (mkRecordData fs (attrs r) (sealed_tail r), dyns').

End closurize_rec.

(** ** The fixpoint of a recursive record *)

Definition patch_value (v : NickelValue) (rec_env : list (Ident * CacheIndex)) : M unit :=
  match v with
  | VThunk t => build_cached t rec_env
  | _ => assertM (is_constant v)
  end.

(** [rec_env] of one binding: the thunk of the field with its pending contracts
    applied, or of the error that the field has no definition. *)
Definition rec_env_entry (p : Ident * Field) : M (Ident * CacheIndex) :=
  let (id, field) := p in
  match value field with
  | Some v =>
      idx ←
        match as_thunk v with
        | Some t => mret t
        | None => _ ← assertM (is_constant v); add (to_closure v) Normal
        end;
      t ← add (to_closure (apply_all (VThunk idx) (pending_contracts field))) Normal;
      mret (id, t)
  | None =>
      t ← add (to_closure (VTerm (TRuntimeError
                (MissingFieldDef id (into_inner (metadata field)))))) Normal;
      mret (id, t)
  end.

Definition rec_env (bindings : list (Ident * Field)) : M (list (Ident * CacheIndex)) :=
  mapM rec_env_entry bindings.

Fixpoint iterM {A} (f : A → M unit) (l : list A) : M unit :=
  match l with [] => mret () | x :: l' => _ ← f x; iterM f l' end.

Definition patch_field (field : Field) (renv : list (Ident * CacheIndex)) : M unit :=
  _ ← match value field with Some v => patch_value v renv | None => mret () end;
  iterM (λ c, patch_value (contract c) renv) (pending_contracts field).

(** ** [trait RevertClosurize] *)

Definition revert_closurize (v : NickelValue) : M NickelValue :=
  match v with VThunk t => t' ← revert t; mret (VThunk t') | _ => mret v end.

Definition revert_closurize_contract (c : RuntimeContract) : M RuntimeContract :=
  v ← revert_closurize (contract c); mret (mkRuntimeContract v (contract_label c)).

Definition revert_closurize_contracts (cs : list RuntimeContract) : M (list RuntimeContract) :=
  mapM revert_closurize_contract cs.

Definition revert_closurize_field (f : Field) : M Field :=
  v ← option_mapM revert_closurize (value f);
  pending ← revert_closurize_contracts (pending_contracts f);
  mret (mkField v (metadata f) pending).

Definition revert_closurize_fields (fs : list (Ident * Field)) : M (list (Ident * Field)) :=
  mapM (λ p : Ident * Field, f ← revert_closurize_field p.2; mret (p.1, f)) fs.

(** [fixpoint::revert]: a record back to a recursive record. *)
Definition revert_record (r : RecordData) : M Term :=
  fs ← revert_closurize_fields (fields r);
  mret (TRecRecord (mkRecRecordData (mkRecordData fs (attrs r) (sealed_tail r)) [] [] None true)).

(** ** [trait Saturate] *)

Definition saturate_value (v : NickelValue) (names : list Ident) : M NickelValue :=
  match v with VThunk t => saturate t names | _ => mret v end.

Definition field_deps (v : NickelValue) : M FieldDeps :=
  match v with
  | VThunk t => d ← deps t; mret (default deps_empty d)
  | _ => mret deps_empty
  end.
