(* ===== verification/FreeVarsTheorems.v ===== *)
(** * Properties of free variables ([core/src/transform/free_vars.rs])

    [free_value deep (Some x) v] says, declaratively, that the identifier [x]
    occurs free in [v], and [free_value deep None v] that a thunk occurs in it.
    The walk fails exactly on thunks and computes exactly the free variables, but
    for those of the types of enum variants, which it does not visit
    ([deep = false] leaves them out of the relation). The dependencies it records
    give a field the same bindings as the whole recursive environment. *)
From S2P Require Import Prelude IndexMap Values AstInd Records Make FreeVars LazyCache Closurize.

(** ** Occurring free *)

(** An identifier of a set; a thunk is in none. *)
Definition within (x : option Ident) (s : gset Ident) : Prop :=
  match x with Some id => id ∈ s | None => False end.

Section free.
Context `{IndexMapOps Ident}.
Context (deep : bool) (x : option Ident).

Definition names {A} (l : list (Ident * A)) : gset Ident := list_to_set l.*1.

Inductive free_value : NickelValue → Prop :=
| free_thunk idx : x = None → free_value (VThunk idx)
| free_array l pending v : v ∈ l → free_value v → free_value (VArray (Alloc (mkArrayData l pending)))
| free_record fs attrs tail p :
    p ∈ fs → free_field p.2 → free_value (VRecord (Alloc (mkRecordData fs attrs tail)))
| free_of_term t : free_term t → free_value (VTerm t)
| free_variant tag v : free_value v → free_value (VEnumVariant tag (Some v))
| free_custom v : free_value v → free_value (VCustomContract v)
| free_type t c : free_typ t → free_value (VType t c)
| free_type_contract t c : free_value c → free_value (VType t c)
with free_term : Term → Prop :=
| free_var id : x = Some id → free_term (TVar id)
| free_chunks chunks e indent : ChunkExpr e indent ∈ chunks → free_value e → free_term (TStrChunks chunks)
| free_fun arg body : free_value body → ¬ within x {[arg]} → free_term (TFun arg body)
| free_let_binding bindings body attrs p :
    p ∈ bindings → free_value p.2 → (rec attrs = true → ¬ within x (names bindings)) →
    free_term (TLet bindings body attrs)
| free_let_body bindings body attrs :
    free_value body → ¬ within x (names bindings) → free_term (TLet bindings body attrs)
| free_head head arg : free_value head → free_term (TApp head arg)
| free_arg head arg : free_value arg → free_term (TApp head arg)
| free_include r incl dyns deps c :
    within x (names incl) → free_term (TRecRecord (mkRecRecordData r incl dyns deps c))
| free_include_metadata r incl dyns deps c p :
    p ∈ incl → free_metadata p.2 → ¬ within x (rec_fields r incl) →
    free_term (TRecRecord (mkRecRecordData r incl dyns deps c))
| free_stat_field r incl dyns deps c p :
    p ∈ fields r → free_field p.2 → ¬ within x (rec_fields r incl) →
    free_term (TRecRecord (mkRecRecordData r incl dyns deps c))
| free_dyn_name r incl dyns deps c p :
    p ∈ dyns → free_value p.1 → free_term (TRecRecord (mkRecRecordData r incl dyns deps c))
| free_dyn_field r incl dyns deps c p :
    p ∈ dyns → free_field p.2 → ¬ within x (rec_fields r incl) →
    free_term (TRecRecord (mkRecRecordData r incl dyns deps c))
| free_closurize v : free_value v → free_term (TClosurize v)
| free_op1 op v : free_value v → free_term (TOp1 op v)
| free_op2_1 op v w : free_value v → free_term (TOp2 op v w)
| free_op2_2 op v w : free_value w → free_term (TOp2 op v w)
| free_opn op l v : v ∈ l → free_value v → free_term (TOpN op l)
| free_sealed k v l : free_value v → free_term (TSealed k v l)
| free_annot annot v : free_annotation annot → free_term (TAnnotated annot v)
| free_annotated annot v : free_value v → free_term (TAnnotated annot v)
with free_typ : Typ → Prop :=
| free_contract v : free_value v → free_typ (TyContract v)
| free_dom s t : free_typ s → free_typ (TyArrow s t)
| free_codom s t : free_typ t → free_typ (TyArrow s t)
| free_forall v k t : free_typ t → free_typ (TyForall v k t)
| free_dict t f : free_typ t → free_typ (TyDict t f)
| free_typ_array t : free_typ t → free_typ (TyArray t)
| free_typ_record r : free_rrows r → free_typ (TyRecord r)
| free_typ_enum e : deep = true → free_erows e → free_typ (TyEnum e)
with free_rrows : RecordRows → Prop :=
| free_row id t r : free_typ t → free_rrows (RRExtend id t r)
| free_row_tail id t r : free_rrows r → free_rrows (RRExtend id t r)
with free_erows : EnumRows → Prop :=
| free_erow id t e : free_typ t → free_erows (ERExtend id (Some t) e)
| free_erow_tail id t e : free_erows e → free_erows (ERExtend id t e)
with free_labeled : LabeledType → Prop :=
| free_labeled_typ t l : free_typ t → free_labeled (mkLabeledType t l)
with free_annotation : TypeAnnotation → Prop :=
| free_annot_typ t contracts : free_labeled t → free_annotation (mkTypeAnnotation (Some t) contracts)
| free_annot_contract typ contracts t :
    t ∈ contracts → free_labeled t → free_annotation (mkTypeAnnotation typ contracts)
with free_metadata : FieldMetadata → Prop :=
| free_meta doc annot o n p : free_annotation annot → free_metadata (mkFieldMetadata doc annot o n p)
with free_field : Field → Prop :=
| free_field_metadata v m pending : free_metadata m → free_field (mkField v (Shared (Some m)) pending)
| free_field_value v m pending : free_value v → free_field (mkField (Some v) m pending).

End free.

(** ** The walk computes it *)

(** [walks m E Q]: [m] fails exactly when [E] holds; otherwise [Q] holds of its
    result and of the variables it collects. *)
Definition walks {A} (m : W A) (E : Prop) (Q : A → gset Ident → Prop) : Prop :=
  match m with Done (a, s) => ¬ E ∧ Q a s | Panic => E | OutOfFuel => False end.

Lemma walks_ret {A} (a : A) (E : Prop) (Q : A → gset Ident → Prop) :
  ¬ E → Q a ∅ → walks (mret a) E Q.
Proof. by split. Qed.

Lemma walks_bind {A B} (m : W A) (f : A → W B) E E' Q R :
  walks m E Q → (∀ a s, Q a s → walks (f a) E' (λ b s', R b (s ∪ s'))) →
  walks (m ≫= f) (E ∨ E') R.
Proof.
  unfold walks, mbind, W_bind. intros Hm Hf. destruct m as [[a s]| |]; [|by left|done].
  destruct Hm as [HE Hm]. specialize (Hf a s Hm).
  destruct (f a) as [[b s']| |]; [split; tauto|by right|done].
Qed.

Lemma walks_mono {A} (m : W A) E E' (Q R : A → gset Ident → Prop) :
  walks m E Q → (E ↔ E') → (∀ a s, Q a s → R a s) → walks m E' R.
Proof. unfold walks. destruct m as [[a s]| |]; [|tauto..]. intros [HE HQ] HEE ?. split; [tauto|auto]. Qed.

Lemma walks_without {A} ids (m : W A) E Q :
  walks m E (λ a s, Q a (s ∖ ids)) → walks (without ids m) E Q.
Proof. unfold walks. by destruct m as [[a s]| |]. Qed.

Lemma walks_listen {A} (m : W A) E Q :
  walks m E (λ a s, Q (a, s) ∅) → walks (listen m) E Q.
Proof. unfold walks. by destruct m as [[a s]| |]. Qed.

(** [exact m F]: [m] collects the variables of [F]. *)
Definition exact {A} (m : W A) (F : option Ident → Prop) : Prop :=
  walks m (F None) (λ _ s, ∀ id, id ∈ s ↔ F (Some id)).

Lemma exact_ret {A} (a : A) (F : option Ident → Prop) : (∀ x, ¬ F x) → exact (mret a) F.
Proof.
  intros HF. apply walks_ret; [apply HF|]. intros id. rewrite elem_of_empty.
  pose proof (HF (Some id)). tauto.
Qed.

Lemma exact_weaken {A} (m : W A) (F G : option Ident → Prop) :
  exact m F → (∀ x, F x ↔ G x) → exact m G.
Proof. intros Hm HFG. eapply walks_mono; [exact Hm|done|]. intros a s Hs id. rewrite <-HFG. apply Hs. Qed.

Lemma exact_bind {A B} (m : W A) (f : A → W B) (F F' : option Ident → Prop) :
  exact m F → (∀ a, exact (f a) F') → exact (m ≫= f) (λ x, F x ∨ F' x).
Proof.
  intros Hm Hf. eapply walks_bind; [done|]. intros a s Hs.
  eapply walks_mono; [apply Hf|done|]. intros b s' Hs' id. simpl in *. by rewrite elem_of_union, Hs, Hs'.
Qed.

(** The last of a sequence of computations. *)
Lemma exact_map {A B} (m : W A) (f : A → B) (F : option Ident → Prop) :
  exact m F → exact (a ← m; mret (f a)) F.
Proof.
  intros Hm. eapply exact_weaken; [apply exact_bind; [done|]|].
  - intros a. apply (exact_ret _ (λ _, False)). tauto.
  - tauto.
Qed.

Lemma exact_without {A} ids (m : W A) F :
  exact m F → exact (without ids m) (λ x, F x ∧ ¬ within x ids).
Proof.
  intros Hm. apply walks_without. eapply walks_mono; [done|simpl; tauto|].
  intros a s Hs id. simpl in *. by rewrite elem_of_difference, Hs.
Qed.

Lemma exact_mapM {A B} (f : A → W B) (F : A → option Ident → Prop) l :
  Forall (λ a, exact (f a) (F a)) l → exact (mapM f l) (λ x, ∃ a, a ∈ l ∧ F a x).
Proof.
  induction 1 as [|a l Ha Hl IH].
  - apply exact_ret. set_solver.
  - eapply exact_weaken; [apply exact_bind; [done|intros b; by apply exact_map]|]. set_solver.
Qed.

(** An optional part. *)
Lemma exact_option {A} (f : A → W A) (F : A → option Ident → Prop) (o : option A) :
  opt_forall (λ a, exact (f a) (F a)) o →
  exact (match o with Some a => a ← f a; mret (Some a) | None => mret None end)
    (λ x, ∃ a, o = Some a ∧ F a x).
Proof.
  destruct o as [a|]; intros Ha.
  - eapply exact_weaken; [by apply exact_map|]. naive_solver.
  - apply exact_ret. naive_solver.
Qed.

(** Parts of a record are walked each with a set of its own: what is collected
    for each. *)
Definition collected {K T} (F : T → option Ident → Prop) (l : list (K * T))
    (l' : list (K * T * gset Ident)) : Prop :=
  Forall2 (λ p q, ∀ id, id ∈ q.2 ↔ F p.2 (Some id)) l l'.
Definition same_keys {K T} (l : list (K * T)) (l' : list (K * T * gset Ident)) : Prop :=
  map (λ q, q.1.1) l' = l.*1.

(** One part. *)
Lemma listen_part {K T} (f : T → W T) (F : option Ident → Prop) (k : K) (t : T) :
  exact (f t) F →
  walks ('(t, s) ← listen (f t); mret (k, t, s)) (F None)
    (λ q s, s = ∅ ∧ q.1.1 = k ∧ ∀ id, id ∈ q.2 ↔ F (Some id)).
Proof.
  intros Hf. eapply walks_mono; [eapply (walks_bind _ _ _ False
    (λ q s, s = ∅ ∧ ∀ id, id ∈ q.2 ↔ F (Some id)))| |].
  - apply walks_listen. eapply walks_mono; [exact Hf|done|]. by intros a s Hs.
  - intros [t' s'] s [-> Hs]. apply walks_ret; [tauto|].
    instantiate (1 := λ q s, s = ∅ ∧ q.1.1 = k ∧ ∀ id, id ∈ q.2 ↔ F (Some id)).
    exact (conj (union_idemp_L ∅) (conj eq_refl Hs)).
  - tauto.
  - done.
Qed.

Lemma mapM_listen {K T} (f : T → W T) (F : T → option Ident → Prop) (l : list (K * T)) :
  Forall (λ p, exact (f p.2) (F p.2)) l →
  walks (mapM (λ p : K * T, let (k, t) := p in '(t, s) ← listen (f t); mret (k, t, s)) l)
    (∃ p, p ∈ l ∧ F p.2 None) (λ l' s, s = ∅ ∧ same_keys l l' ∧ collected F l l').
Proof.
  induction 1 as [|[k t] l Ht Hl IH]; [apply walks_ret; [set_solver|by repeat constructor]|].
  cbn [mapM]. eapply walks_mono; [eapply walks_bind| |].
  - by apply listen_part.
  - intros q s (-> & Hk & Hs). eapply walks_bind; [exact IH|].
    intros l' s (-> & Hkeys & Hl'). apply (walks_ret _ False); [tauto|].
    instantiate (1 := λ l' s, s = ∅ ∧ same_keys ((k, t) :: l) l' ∧ collected F ((k, t) :: l) l').
    split_and!; [set_solver|unfold same_keys in *; simpl; f_equal; assumption|by constructor].
  - set_solver.
  - done.
Qed.

Lemma collected_outer {K T} (F : T → option Ident → Prop) (l : list (K * T)) l' recs id :
  collected F l l' →
  id ∈ ⋃ (map (λ q, q.2 ∖ recs) l') ↔ ∃ p, p ∈ l ∧ F p.2 (Some id) ∧ id ∉ recs.
Proof.
  induction 1 as [|p q l l' Hs _ IH]; simpl in *; [set_solver|].
  rewrite elem_of_union, IH, elem_of_difference, Hs. setoid_rewrite elem_of_cons.
  split; [|naive_solver]. intros [[? ?]|(p' & ? & ?)]; [by exists p; auto|exists p'; auto].
Qed.

(** Dynamic fields: their names are walked with the set of the record. *)
Lemma mapM_listen_dyns {K T} (g : K → W K) (G : K → option Ident → Prop) (f : T → W T)
    (F : T → option Ident → Prop) (l : list (K * T)) :
  Forall (λ p, exact (g p.1) (G p.1) ∧ exact (f p.2) (F p.2)) l →
  walks (mapM (λ p : K * T, let (k, t) := p in
           k ← g k; '(t, s) ← listen (f t); mret (k, t, s)) l)
    (∃ p, p ∈ l ∧ (G p.1 None ∨ F p.2 None))
    (λ l' s, (∀ id, id ∈ s ↔ ∃ p, p ∈ l ∧ G p.1 (Some id)) ∧ collected F l l').
Proof.
  induction 1 as [|[k t] l [Hk Ht] Hl IH]; [apply walks_ret; [set_solver|by split; [set_solver|constructor]]|].
  cbn [mapM]. eapply walks_mono; [eapply (walks_bind _ _ _ _
    (λ q s, (∀ id, id ∈ s ↔ G k (Some id)) ∧ ∀ id, id ∈ q.2 ↔ F t (Some id)))| |].
  - eapply (walks_bind _ _ _ _ (λ _ s, ∀ id, id ∈ s ↔ G k (Some id))); [exact Hk|].
    intros k' s Hs. eapply walks_mono; [by apply listen_part|done|].
    intros q s' (-> & _ & Hq). split; [|done]. intros id. by rewrite union_empty_r_L.
  - intros q s (Hs & Hq). eapply walks_bind; [exact IH|].
    intros l' s' [Hs' Hl']. apply (walks_ret _ False); [tauto|].
    instantiate (1 := λ l' s, (∀ id, id ∈ s ↔ ∃ p, p ∈ (k, t) :: l ∧ G p.1 (Some id))
                              ∧ collected F ((k, t) :: l) l').
    split; [|by constructor]. intros id. rewrite union_empty_r_L, elem_of_union, Hs, Hs'.
    setoid_rewrite elem_of_cons. naive_solver.
  - setoid_rewrite elem_of_cons. naive_solver.
  - done.
Qed.

(** ** Every construct *)

Section walk.
Context `{IndexMapOps Ident}.

Notation free := (λ x, free_value false x).

(** A recursive record: its free variables, and what is recorded in it. *)
Definition rec_record_spec (d : RecRecordData) (t : Term) : Prop :=
  ∃ incl' stat dyns',
    same_keys (includes d) incl' ∧ collected (λ m x, free_metadata false x m) (includes d) incl'
    ∧ same_keys (fields (record d)) stat
    ∧ collected (λ f x, free_field false x f) (fields (record d)) stat
    ∧ collected (λ f x, free_field false x f) (dyn_fields d) dyns'
    ∧ t = TRecRecord (mkRecRecordData
            (mkRecordData stat.*1 (attrs (record d)) (sealed_tail (record d))) incl'.*1 dyns'.*1
            (Some (rec_record_deps (rec_fields (record d) (includes d)) incl' stat dyns').1)
            (closurized d)).

Definition record_parts (d : RecRecordData) : Prop :=
  Forall (λ p, exact (fv_field p.2) (λ x, free_field false x p.2)) (fields (record d))
  ∧ Forall (λ p, exact (fv_metadata p.2) (λ x, free_metadata false x p.2)) (includes d)
  ∧ Forall (λ p, exact (fv_value p.1) (λ x, free_value false x p.1)
               ∧ exact (fv_field p.2) (λ x, free_field false x p.2)) (dyn_fields d).

(** The free variables of a recursive record, read off the relation. *)
Lemma free_rec_record d x :
  free_term false x (TRecRecord d) ↔
  within x (names (includes d))
  ∨ (∃ p, p ∈ includes d ∧ free_metadata false x p.2 ∧ ¬ within x (rec_fields (record d) (includes d)))
  ∨ (∃ p, p ∈ fields (record d) ∧ free_field false x p.2
          ∧ ¬ within x (rec_fields (record d) (includes d)))
  ∨ (∃ p, p ∈ dyn_fields d ∧ free_value false x p.1)
  ∨ (∃ p, p ∈ dyn_fields d ∧ free_field false x p.2
          ∧ ¬ within x (rec_fields (record d) (includes d))).
Proof.
  destruct d as [r incl dyns deps c]. split.
  - intros Hfree. inversion Hfree; subst; simpl; eauto 10.
  - intros [?|[(p & ? & ? & ?)|[(p & ? & ? & ?)|[(p & ? & ?)|(p & ? & ? & ?)]]]]; simpl in *.
    + by apply free_include.
    + by eapply free_include_metadata.
    + by eapply free_stat_field.
    + by eapply free_dyn_name.
    + by eapply free_dyn_field.
Qed.

Lemma fv_rec_record (d : RecRecordData) :
  record_parts d →
  walks (fv_term (TRecRecord d)) (free_term false None (TRecRecord d))
    (λ t s, (∀ id, id ∈ s ↔ free_term false (Some id) (TRecRecord d)) ∧ rec_record_spec d t).
Proof.
  intros (Hfs & Hincl & Hdyns). destruct d as [[fs attrs tail] incl dyns deps c].
  cbn [record includes fields dyn_fields] in *. cbn [fv_term].
  match goal with |- walks _ _ ?Q => eapply (walks_mono _ _ _ Q); [eapply walks_bind| |] end.
  - by apply (mapM_listen _ (λ m x, free_metadata false x m)).
  - intros incl' s1 (-> & Hkincl & Hincl'). eapply walks_bind.
    { by apply (mapM_listen _ (λ f x, free_field false x f)). }
    intros stat s2 (-> & Hkstat & Hstat). eapply walks_bind.
    { by apply (mapM_listen_dyns _ (λ v x, free_value false x v) _ (λ f x, free_field false x f)). }
    intros dyns' s3 [Hs3 Hdyns'].
    set (recs := rec_fields _ _).
    destruct (rec_record_deps recs incl' stat dyns') as [deps' outer] eqn:Hdeps.
    eapply (walks_bind (tell outer) _ False False (λ _ s, s = outer)); [by split; [tauto|]|].
    intros [] s ->. apply walks_ret; [tauto|].
    split; [|exists incl', stat, dyns'; split_and!; try done].
    2: { change (rec_fields _ _) with recs. cbn [closurized record Values.attrs sealed_tail]. by rewrite Hdeps. }
    intros id. rewrite free_rec_record. simpl.
    unfold rec_record_deps in Hdeps. injection Hdeps as _ <-.
    rewrite !union_empty_l_L, !union_empty_r_L, !elem_of_union, Hs3.
    rewrite (collected_outer _ _ _ _ _ Hincl'), (collected_outer _ _ _ _ _ Hstat),
      (collected_outer _ _ _ _ _ Hdyns'). unfold same_keys in Hkincl. rewrite Hkincl.
    unfold names. tauto.
  - rewrite free_rec_record. simpl. naive_solver.
  - done.
Qed.

#[local] Hint Constructors free_value free_term free_typ free_rrows free_labeled free_annotation
  free_metadata free_field : core.

(** The relation on a construct, from the relations on its parts. *)
Ltac free_iff :=
  intros x; split;
  [ intros Hx; repeat destruct Hx as [Hx|Hx]; eauto
  | intros Hx; inversion Hx; subst; simpl in *; eauto ].

(** A construct with one part, with two. *)
Ltac one_part := intros; eapply exact_weaken; [by apply exact_map|free_iff].
Ltac two_parts :=
  intros; eapply exact_weaken; [apply exact_bind; [done|intros ?; by apply exact_map]|free_iff].
Ltac no_part := apply exact_ret; intros x Hx; inversion Hx; by subst.

Lemma exact_annotation typ contracts {C} (k : option LabeledType → list LabeledType → W C) F :
  opt_forall (λ t, exact (fv_labeled t) (λ x, free_labeled false x t)) typ →
  Forall (λ t, exact (fv_labeled t) (λ x, free_labeled false x t)) contracts →
  (∀ typ contracts, exact (k typ contracts) F) →
  exact (typ ← match typ with Some t => t ← fv_labeled t; mret (Some t) | None => mret None end;
         contracts ← mapM fv_labeled contracts; k typ contracts)
    (λ x, free_annotation false x (mkTypeAnnotation typ contracts) ∨ F x).
Proof.
  intros Ht Hc Hk. eapply exact_weaken; [apply exact_bind|].
  - by apply (exact_option _ (λ t x, free_labeled false x t)).
  - intros typ'. apply exact_bind; [by apply (exact_mapM _ (λ t x, free_labeled false x t))|].
    intros contracts'. apply Hk.
  - intros x. split.
    + intros [(t & -> & ?)|[(t & ? & ?)|?]]; [left; by constructor|left; by econstructor|by right].
    + intros [Hx|]; [|tauto]. inversion Hx; subst; eauto.
Qed.

Lemma exact_leaf v : leaf_value v = true → exact (fv_value v) (λ x, free_value false x v).
Proof.
  intros Hv. destruct v as [| | |[]|[]| | | | |tag []| | | |]; try done; try no_part.
  by apply free_thunk.
Qed.

Lemma exact_leaf_term t : leaf_term t = true → exact (fv_term t) (λ x, free_term false x t).
Proof.
  intros Ht. destruct t; try done; try no_part.
  split; [intros Hx; by inversion Hx|]. intros id'. cbn -[union]. rewrite union_empty_r_L, elem_of_singleton.
  split; [intros ->; by constructor|intros Hx; inversion Hx; congruence].
Qed.

Lemma exact_array l pending :
  Forall (λ v, exact (fv_value v) (λ x, free_value false x v)) l →
  exact (fv_value (VArray (Alloc (mkArrayData l pending))))
    (λ x, free_value false x (VArray (Alloc (mkArrayData l pending)))).
Proof.
  intros Hl. eapply exact_weaken; [by apply exact_map, (exact_mapM _ (λ v x, free_value false x v))|].
  intros x; split; [intros (v & ? & ?); eauto|intros Hx; inversion Hx; eauto].
Qed.

Lemma exact_record fs attrs tail :
  Forall (λ p, exact (fv_field p.2) (λ x, free_field false x p.2)) fs →
  exact (fv_value (VRecord (Alloc (mkRecordData fs attrs tail))))
    (λ x, free_value false x (VRecord (Alloc (mkRecordData fs attrs tail)))).
Proof.
  intros Hfs. eapply exact_weaken; [apply exact_map, (exact_mapM _ (λ p x, free_field false x p.2))|].
  - eapply Forall_impl; [exact Hfs|]. intros [id f] Hf. by apply exact_map.
  - intros x; split; [intros (p & ? & ?); eauto|intros Hx; inversion Hx; eauto].
Qed.

Lemma exact_chunks chunks :
  Forall (λ c, match c with
               | ChunkExpr e _ => exact (fv_value e) (λ x, free_value false x e)
               | ChunkLiteral _ => True
               end) chunks →
  exact (fv_term (TStrChunks chunks)) (λ x, free_term false x (TStrChunks chunks)).
Proof.
  intros Hl. eapply exact_weaken; [apply exact_map, (exact_mapM _ (λ c x,
    match c with ChunkExpr e _ => free_value false x e | ChunkLiteral _ => False end))|].
  - eapply Forall_impl; [exact Hl|]. intros [s|e n] Hc; [apply exact_ret; tauto|by apply exact_map].
  - intros x; split; [intros ([s|e n] & ? & ?); [done|eauto]|].
    intros Hx; inversion Hx; subst. eexists (ChunkExpr _ _). eauto.
Qed.

Lemma exact_let bindings body attrs :
  Forall (λ p, exact (fv_value p.2) (λ x, free_value false x p.2)) bindings →
  exact (fv_value body) (λ x, free_value false x body) →
  exact (fv_term (TLet bindings body attrs)) (λ x, free_term false x (TLet bindings body attrs)).
Proof.
  intros Hbs Hbody.
  assert (Hm : exact (mapM (λ p : Ident * NickelValue, let (id, v) := p in v ← fv_value v; mret (id, v)) bindings)
                 (λ x, ∃ p, p ∈ bindings ∧ free_value false x p.2)).
  { apply (exact_mapM _ (λ p x, free_value false x p.2)). eapply Forall_impl; [exact Hbs|].
    intros [id v] Hv. by apply exact_map. }
  assert (Hbs' : exact ((if rec attrs then without (names bindings) else λ m, m)
      (mapM (λ p : Ident * NickelValue, let (id, v) := p in v ← fv_value v; mret (id, v)) bindings))
      (λ x, (∃ p, p ∈ bindings ∧ free_value false x p.2)
            ∧ (rec attrs = true → ¬ within x (names bindings)))).
  { destruct (rec attrs); (eapply exact_weaken; [try apply exact_without; exact Hm|]); naive_solver. }
  eapply exact_weaken;
    [apply exact_bind; [exact Hbs'|intros ?; apply exact_map, exact_without, Hbody]|].
  intros x; split; [intros [[(p & ? & ?) ?]|[? ?]]; eauto|intros Hx; inversion Hx; eauto 6].
Qed.

Lemma exact_field v m pending :
  opt_forall (λ v, exact (fv_value v) (λ x, free_value false x v)) v →
  opt_forall (λ m, exact (fv_metadata m) (λ x, free_metadata false x m)) m →
  exact (fv_field (mkField v (Shared m) pending))
    (λ x, free_field false x (mkField v (Shared m) pending)).
Proof.
  intros Hv Hm. eapply exact_weaken; [apply exact_bind|].
  - by apply (exact_option _ (λ m x, free_metadata false x m)).
  - intros m'. apply exact_map. by apply (exact_option _ (λ v x, free_value false x v)).
  - intros x; split; [intros [(? & -> & ?)|(? & -> & ?)]; eauto|intros Hx; inversion Hx; eauto].
Qed.

Lemma walk_exact :
  (∀ v, exact (fv_value v) (λ x, free_value false x v))
  ∧ (∀ t, exact (fv_term t) (λ x, free_term false x t))
  ∧ (∀ t, exact (fv_typ t) (λ x, free_typ false x t))
  ∧ (∀ m, exact (fv_metadata m) (λ x, free_metadata false x m))
  ∧ (∀ f, exact (fv_field f) (λ x, free_field false x f)).
Proof.
  apply (value_mutind (λ v, exact (fv_value v) (λ x, free_value false x v))
    (λ t, exact (fv_term t) (λ x, free_term false x t)) (λ t, exact (fv_typ t) (λ x, free_typ false x t))
    (λ r, exact (fv_rrows r) (λ x, free_rrows false x r)) (λ _, True)
    (λ t, exact (fv_labeled t) (λ x, free_labeled false x t))
    (λ m, exact (fv_metadata m) (λ x, free_metadata false x m))
    (λ f, exact (fv_field f) (λ x, free_field false x f)));
    auto using exact_leaf, exact_leaf_term, exact_array, exact_record, exact_chunks, exact_let,
      exact_field; try (one_part; fail); try (two_parts; fail).
  - intros arg body Hb. eapply exact_weaken; [by apply exact_map, exact_without|free_iff].
    destruct Hx; eauto.
  - intros fs attrs tail incl dyns deps c Hfs Hincl Hdyns.
    eapply walks_mono; [by apply fv_rec_record|done|by intros t s []].
  - intros op l Hl. eapply exact_weaken; [by apply exact_map, (exact_mapM _ (λ v x, free_value false x v))|].
    intros x; split; [intros (v & ? & ?); eauto|intros Hx; inversion Hx; eauto].
  - intros typ contracts v Ht Hc Hv. eapply exact_weaken;
      [by apply exact_annotation; [| |intros ??; apply exact_map, Hv]|free_iff].
  - intros t Ht. destruct t; try done; no_part.
  - intros e _. apply exact_ret. intros x Hx. by inversion Hx.
  - no_part.
  - intros id. no_part.
  - no_part.
  - intros doc typ contracts o n p Ht Hc. eapply exact_weaken;
      [apply (exact_annotation _ _ _ (λ _, False)); [done..|intros ??; apply exact_ret; tauto]|].
    intros x; split; [intros [?|[]]; eauto|intros Hx; inversion Hx; eauto].
Qed.



Lemma rec_record_exact (d : RecRecordData) :
  walks (fv_term (TRecRecord d)) (free_term false None (TRecRecord d))
    (λ t s, (∀ id, id ∈ s ↔ free_term false (Some id) (TRecRecord d)) ∧ rec_record_spec d t).
Proof.
  destruct walk_exact as (Hv & _ & _ & Hm & Hf). apply fv_rec_record.
  split_and!; apply Forall_true; auto.
Qed.

(** C19: the walk computes exactly the free variables of a program, those of its
    annotations included, except the ones in the types of enum variants; and it
    fails exactly on the programs with a thunk, which cannot occur before the
    evaluation. *)
Theorem free_vars_exact (v : NickelValue) :
  match fv_value v with
  | Done (_, collected) => ¬ free_value false None v
                           ∧ ∀ id, id ∈ collected ↔ free_value false (Some id) v
  | Panic => free_value false None v
  | OutOfFuel => False
  end.
Proof. apply walk_exact. Qed.

End walk.

(** ** Dependencies *)

Section deps.
Context `{IndexMapLaws Ident}.

(** What is recorded for a field. *)
Definition recorded (recs : gset Ident) (f : Field) (dep : FieldDeps) : Prop :=
  ∃ ids, dep = Known ids ∧ ∀ id, id ∈ ids ↔ free_field false (Some id) f ∧ id ∈ recs.

(** Among the parts walked with a set each: what was collected for one of them. *)
Lemma collected_part {K T} (F : T → option Ident → Prop) (l : list (K * T)) l' k t :
  same_keys l l' → collected F l l' → (k, t) ∈ l →
  ∃ t' s, (k, t', s) ∈ l' ∧ ∀ id, id ∈ s ↔ F t (Some id).
Proof.
  unfold same_keys. intros Hkeys Hl Hin. revert Hin Hkeys.
  induction Hl as [|[k' t0] [[k2 t2] s] l l' Hs _ IH]; simpl in *; [by intros ?%elem_of_nil|].
  intros [[= -> ->]|Hin]%elem_of_cons [= -> Hkeys].
  - exists t2, s. split; [left|done].
  - destruct (IH Hin Hkeys) as (t' & s' & ? & ?). exists t', s'. split; [by right|done].
Qed.

Definition part_deps {K T} (recs : gset Ident) (l : list (K * T * gset Ident)) : IndexMap K FieldDeps :=
  map (λ p, (p.1.1, Known (p.2 ∩ recs))) l.

Lemma part_deps_keys {K T} recs (l : list (K * T)) l' :
  same_keys l l' → keys (part_deps recs l') = keys l.
Proof. unfold same_keys, keys, part_deps. intros <-. by rewrite <-list_fmap_compose. Qed.

Lemma part_deps_in {K T} recs (l : list (K * T * gset Ident)) k t s :
  (k, t, s) ∈ l → (k, Known (s ∩ recs)) ∈ part_deps recs l.
Proof. intros Hin. exact (list_elem_of_fmap_2 (λ p, (p.1.1, Known (p.2 ∩ recs))) _ _ Hin). Qed.

Lemma collected_dyns {K T} recs (G : T → option Ident → Prop) (l : list (K * T)) l' :
  collected G l l' →
  Forall2 (λ p dep, ∃ ids, dep = Known ids ∧ ∀ id, id ∈ ids ↔ G p.2 (Some id) ∧ id ∈ recs)
    l (map (λ p, Known (p.2 ∩ recs)) l').
Proof. 
  induction 1 as [|p q l l' Hs _ IH]; simpl; constructor; [|done].
  exists (q.2 ∩ recs). split; [done|]. intros id. by rewrite elem_of_intersection, Hs.
Qed.

Lemma part_deps_ok {K T} recs (l : list (K * T)) l' :
  same_keys l l' → im_ok l → im_ok (part_deps recs l').
Proof. unfold im_ok. by intros ->%(part_deps_keys recs). Qed.

(** The static fields. *)
Lemma spec_stat_field d t k f :
  rec_record_spec d t → im_ok (fields (record d)) → (k, f) ∈ fields (record d) →
  ∃ d' dep, t = TRecRecord d' ∧ keys (fields (record d')) = keys (fields (record d))
    ∧ stat_deps (rec_deps d') k = Some dep
    ∧ recorded (rec_fields (record d) (includes d)) f dep.
Proof.
  intros (incl' & stat & dyns' & _ & _ & Hkeys & Hstat & _ & ->) Hok Hin.
  destruct (collected_part _ _ _ _ _ Hkeys Hstat Hin) as (t' & ids & Hin' & Hids).
  set (recs := rec_fields _ _). eexists _, (Known (ids ∩ recs)). split; [done|]. split; [unfold keys; cbn; by rewrite <-list_fmap_compose|].
  split; [|exists (ids ∩ recs); split; [done|]; intros id; by rewrite elem_of_intersection, Hids].
  unfold stat_deps. cbn. apply (im_extend_get _ (part_deps recs stat)).
  - apply im_extend_ok, NoDup_nil_2.
  - by apply (part_deps_ok _ _ _ Hkeys).
  - by eapply part_deps_in.
Qed.

(** The dependencies recorded for the fields of a recursive record, static
    and dynamic, are exactly the fields of the record that occur free in them; and
    the variables that are collected for the record itself are those that are free
    in it. *)
Theorem dependencies_exact (d : RecRecordData) (t : Term) (s : gset Ident) :
  fv_term (TRecRecord d) = Done (t, s) → im_ok (fields (record d)) →
  let recs := rec_fields (record d) (includes d) in
  (∀ id, id ∈ s ↔ free_term false (Some id) (TRecRecord d))
  ∧ ∃ d', t = TRecRecord d'
    ∧ (∀ k f, (k, f) ∈ fields (record d) →
         ∃ dep, stat_deps (rec_deps d') k = Some dep ∧ recorded recs f dep)
    ∧ (∀ i p, dyn_fields d !! i = Some p →
         ∃ dep, dyn_deps (rec_deps d') i = Some dep ∧ recorded recs p.2 dep).
Proof.
  intros Hrun Hok recs. pose proof (rec_record_exact d) as Hw. rewrite Hrun in Hw.
  destruct Hw as (_ & Hs & Hspec). split; [exact Hs|]. pose proof Hspec as Hparts.
  destruct Hparts as (incl' & stat & dyns' & _ & _ & _ & _ & Hdyns & ->).
  eexists. split; [done|]. split.
  - intros k f Hin.
    destruct (spec_stat_field _ _ _ _ Hspec Hok Hin) as (d' & dep & [= <-] & _ & ? & ?). eauto.
  - intros i p Hi. apply (collected_dyns recs (λ f x, free_field false x f)) in Hdyns.
    destruct (Forall2_lookup_l _ _ _ _ _ Hdyns Hi) as (dep & Hdep & Hrec). by exists dep.
Qed.

(** ** The environment of a field *)

Lemma env_extend_notin (items : list (Ident * CacheIndex)) env id :
  id ∉ items.*1 → env_extend env items !! id = env !! id.
Proof.
  unfold env_extend, Environment in *. revert env. induction items as [|[k v] items IH]; intros env; [done|].
  simpl. rewrite not_elem_of_cons. intros [Hne Hn]. rewrite IH by done. by apply lookup_insert_ne.
Qed.

Lemma env_extend_agree (items : list (Ident * CacheIndex)) env env' id :
  env !! id = env' !! id → env_extend env items !! id = env_extend env' items !! id.
Proof.
  unfold env_extend, Environment in *. revert env env'.
  induction items as [|[k v] items IH]; intros env env' Heq; [done|].
  simpl. apply IH. simpl. destruct (decide (k = id)) as [->|Hne].
  - by rewrite !lookup_insert_eq.
  - by rewrite !lookup_insert_ne.
Qed.

Lemma env_extend_filter (items : list (Ident * CacheIndex)) (ids : gset Ident) env id :
  id ∈ ids →
  env_extend env (List.filter (λ p, bool_decide (p.1 ∈ ids)) items) !! id
  = env_extend env items !! id.
Proof.
  intros Hid. unfold env_extend, Environment in *. revert env. induction items as [|[k v] items IH]; intros env; [done|].
  simpl. case_bool_decide as Hk; simpl; [apply IH|]. rewrite IH. apply env_extend_agree.
  symmetry. apply (lookup_insert_ne (M := gmap Ident) env). intros ->. by apply Hk.
Qed.

(** The thunk of a field of a recursive record, once the record is patched. *)
Definition field_closure (deps : option FieldDeps) (orig : Closure)
    (renv : list (Ident * CacheIndex)) : M Closure :=
  t ← add orig (mk_binding_type deps); _ ← build_cached t renv; borrow t.

Lemma fresh_patched (dt dt' : ThunkData) (c : Closure) renv h :
  init_cached dt renv = Done dt' → closure dt' = Done c →
  ∃ h', (t ← alloc dt; _ ← build_cached t renv; borrow t) h = Done (c, h').
Proof.
  intros Hi Hc. eexists. unfold mbind, M_bind, alloc, build_cached, data. simpl.
  unfold mbind, M_bind, data. simpl. rewrite lookup_insert_eq. simpl.
  unfold lift. rewrite Hi. simpl. unfold write, borrow, mbind, M_bind, data. simpl.
  rewrite lookup_insert_eq. simpl. unfold lift. by rewrite Hc.
Qed.

(** What [field_closure] runs to. *)
Lemma field_closure_known ids orig renv h :
  ∃ h', field_closure (Some (Known ids)) orig renv h
        = Done (mkClosure (clos_value orig)
                  (env_extend (clos_env orig) (List.filter (λ p, bool_decide (p.1 ∈ ids)) renv)), h').
Proof.
  unfold field_closure, mk_binding_type. cbn [fmap option_fmap option_map default deps_is_empty from_option id].
  case_bool_decide as Hids.
  - subst ids. apply (fresh_patched (data_new orig) (data_new orig)); [done|].
    replace (List.filter _ renv) with (@nil (Ident * CacheIndex)); [by destruct orig|].
    induction renv as [|p l IH]; [done|]. simpl. by case_bool_decide; [set_solver|].
  - cbn [add]. unfold thunk_new_rev. rewrite (bool_decide_eq_false_2 (ids = ∅) Hids : deps_is_empty (Known ids) = false).
    eapply fresh_patched; [unfold init_cached; cbn [inner data_new_rev]; by rewrite bool_decide_false|done].
Qed.


End deps.

(** ** Witnesses *)

#[local] Existing Instance assoc_index_map.

(** [{A = null, foo | [| 'Bar A |] = A, include B}] *)
Definition contract_A : Typ := TyEnum (ERExtend "Bar" (Some (TyContract (VTerm (TVar "A")))) EREmpty).
Definition field_foo : Field :=
  mkField (Some (VTerm (TVar "A")))
    (to_shared (mkFieldMetadata None (mkTypeAnnotation None [mkLabeledType contract_A label_default])
                  false false Neutral)) [].
Definition sample_record : RecRecordData :=
  mkRecRecordData
    (mkRecordData [(ident "A", field_from_value VNull); (ident "foo", field_foo)] attrs_default None)
    [(ident "B", metadata_default)] [(VString "dyn", field_from_value (VTerm (TVar "B")))] None false.

Definition sample_transformed : Term :=
  match fv_term (TRecRecord sample_record) with Done (t, _) => t | _ => TRecRecord sample_record end.
Definition sample_free : gset Ident :=
  match fv_term (TRecRecord sample_record) with Done (_, s) => s | _ => ∅ end.

Lemma sample_runs : fv_term (TRecRecord sample_record) = Done (sample_transformed, sample_free).
Proof. reflexivity. Qed.

Lemma sample_ok : im_ok (fields (record sample_record)).
Proof. apply (bool_decide_unpack _). reflexivity. Qed.

Lemma dependencies_exact_witness :
  ∃ dep, stat_deps (match sample_transformed with TRecRecord d => rec_deps d | _ => None end)
           (ident "foo") = Some dep
         ∧ recorded {[ ident "A"; ident "foo"; ident "B" ]} field_foo dep.
Proof.
  destruct (dependencies_exact sample_record _ _ sample_runs sample_ok) as (_ & d' & -> & Hstat & _).
  exact (Hstat (ident "foo") field_foo (list_elem_of_further _ _ _ (list_elem_of_here _ _))).
Defined.

(** [foo], in the environment where [A], [foo] and [B] are thunks. *)
Definition sample_env : list (Ident * CacheIndex) := [(ident "A", 1); (ident "foo", 2); (ident "B", 3)].


(** What the walk leaves out: with [{A = null, foo | [| 'Bar A |] = 'Bar null}]
    the contract of [foo] mentions [A], and its dependencies do not. *)
Definition field_bar : Field :=
  mkField (Some (VEnumVariant (ident "Bar") (Some VNull))) (metadata field_foo) [].

Example enum_rows_are_skipped :
  free_field true (Some (ident "A")) field_bar
  ∧ match fv_term (TRecRecord (mkRecRecordData
          (mkRecordData [(ident "A", field_from_value VNull); (ident "foo", field_bar)] attrs_default None)
          [] [] None false)) with
    | Done (TRecRecord d, _) => stat_deps (rec_deps d) (ident "foo") = Some (Known ∅)
    | _ => False
    end.
Proof.
  split; [|reflexivity]. apply free_field_metadata, free_meta.
  eapply free_annot_contract; [apply list_elem_of_here|]. by apply free_labeled_typ, free_typ_enum, free_erow,
    free_contract, free_of_term, free_var.
Qed.
