(* ===== verification/Merge.v ===== *)
(** * Merging ([core/src/eval/merge.rs])

    The merge of two evaluated values, of two records and of two fields. The
    operations of the third-party index map are the class [IndexMapOps]; the
    equality of labels and the two equalities that deduplicate contracts are
    arguments, the latter as functions of the store ([ContractEq.v] defines
    them). *)
From stdpp Require Import sorting.
From Stdlib Require Import QArith.Qcanon.
From S2P Require Import Prelude IndexMap Values Records LazyCache Closurize.

(** [MergeMode] *)
Inductive MergeMode : Type :=
| ModeStandard (l : MergeLabel)
| ModeContract (l : Label).

(** [From<MergeMode> for MergeLabel] *)
Definition mode_label (m : MergeMode) : MergeLabel :=
  match m with ModeStandard l => l | ModeContract l => label_to_merge_label l end.

Definition wraps_in_ok (m : MergeMode) : bool :=
  match m with ModeStandard _ => false | ModeContract _ => true end.

(** ** [mod split] *)

Record SplitResult (K V1 V2 : Type) : Type := mkSplit {
  left : IndexMap K V1;
  center : IndexMap K (V1 * V2);
  right : IndexMap K V2;
}.
Arguments mkSplit {K V1 V2} left center right.
Arguments left {K V1 V2} s : rename.
Arguments center {K V1 V2} s : rename.
Arguments right {K V1 V2} s : rename.

Section split.
Context `{IndexMapOps K} {V1 V2 : Type}.

(** [split]: the map [right] starts as [m2] and loses the keys of [m1]. *)
Definition split_step (acc : SplitResult K V1 V2) (p : K * V1) : SplitResult K V1 V2 :=
  let (key, v1) := p in
  match im_swap_remove (right acc) key with
  | Some (v2, right') => mkSplit (left acc) (im_insert (center acc) key (v1, v2)) right'
  | None => mkSplit (im_insert (left acc) key v1) (center acc) (right acc)
  end.

Definition split (m1 : IndexMap K V1) (m2 : IndexMap K V2) : SplitResult K V1 V2 :=
  foldl split_step (mkSplit [] [] m2) m1.

(** The other branch of [split_ref], where the roles of the maps are exchanged. *)
Definition split_step_sym (acc : SplitResult K V1 V2) (p : K * V2) : SplitResult K V1 V2 :=
  let (key, v2) := p in
  match im_swap_remove (left acc) key with
  | Some (v1, left') => mkSplit left' (im_insert (center acc) key (v1, v2)) (right acc)
  | None => mkSplit (left acc) (center acc) (im_insert (right acc) key v2)
  end.

Definition split_ref (m1 : IndexMap K V1) (m2 : IndexMap K V2) : SplitResult K V1 V2 :=
  if length m1 <? length m2 then foldl split_step_sym (mkSplit m1 [] []) m2
  else foldl split_step (mkSplit [] [] m2) m1.

End split.

Section merge.
Context `{IndexMapOps Ident}.
Context (label_eq : Label → Label → bool).
Context (contract_eq : Heap → NickelValue → Environment → NickelValue → Environment → bool).
Context (type_eq_noenv : Heap → Typ → Typ → bool).

Definition get_heap : M Heap := λ h, Done (h, h).

(** ** Merging fields *)

(** [fields_merge_closurize] *)
Definition fields_merge_closurize (merge_label : MergeLabel) (t1 t2 : NickelValue)
    (names : list Ident) : M NickelValue :=
  d1 ← field_deps t1;
  d2 ← field_deps t2;
  let combined_deps := deps_union d1 d2 in
  s1 ← saturate_value t1 names;
  s2 ← saturate_value t2 names;
  let body := VTerm (TOp2 (MergeOp merge_label) s1 s2) in
  idx ← add (to_closure body) (Revertible combined_deps);
  mret (VThunk idx).

(** The value and the priority of the merged field: the arms in the order of the
    source, the last one being [unreachable!]. *)
Definition merge_values (merge_label : MergeLabel) (value1 value2 : option NickelValue)
    (p1 p2 : MergePriority) (names : list Ident) : M (option NickelValue * MergePriority) :=
  match value1, value2 with
  | Some t1, Some t2 =>
      if priority_eq p1 p2 then
        v ← fields_merge_closurize merge_label t1 t2 names; mret (Some v, p1)
      else if priority_gt p1 p2 then v ← revert_closurize t1; mret (Some v, p1)
      else if priority_gt p2 p1 then v ← revert_closurize t2; mret (Some v, p2)
      else lift Panic
  | Some t1, None => v ← revert_closurize t1; mret (Some v, p1)
  | None, Some t2 => v ← revert_closurize t2; mret (Some v, p2)
  | None, None => mret (None, Neutral)
  end.

Definition merge_fields (merge_label : MergeLabel) (field1 field2 : Field)
    (names : list Ident) : M Field :=
  let metadata1 := into_inner (metadata field1) in
  let metadata2 := into_inner (metadata field2) in
  '(v, prio) ← merge_values merge_label (value field1) (value field2)
                 (priority metadata1) (priority metadata2) names;
  pending1 ← revert_closurize_contracts (pending_contracts field1);
  pending2 ← revert_closurize_contracts (pending_contracts field2);
  h ← get_heap;
  let pending := combine_dedup (contract_eq h) pending1 ∅ pending2 ∅ in
  mret (mkField v
    (to_shared (mkFieldMetadata
      (merge_doc (doc metadata1) (doc metadata2))
      (annot_combine_dedup (type_eq_noenv h) (annotation metadata1) (annotation metadata2))
      (opt metadata1 && opt metadata2)
      (not_exported metadata1 || not_exported metadata2)
      prio))
    pending).

(** ** Merging records *)

(** [fields.join(", ")] of the backquoted names. *)
Fixpoint join_names (names : list Ident) : string :=
  match names with
  | [] => ""
  | [n] => "`" ++ label n ++ "`"
  | n :: names' => "`" ++ label n ++ "`, " ++ join_names names'
  end%string.

Definition extra_fields_message (names : list Ident) : string :=
  ("extra field" ++ (if (length names =? 1)%nat then "" else "s") ++ " " ++ join_names names)%string.

Definition misspelled_note : string := "Have you misspelled a field?".

Definition too_strict_note : string :=
  "The record contract might also be too strict. By default, record contracts exclude any field which is not listed.
Append `, ..` at the end of the record contract, as in `{some_field | SomeContract, ..}`, to make it accept extra fields.".

(** [NickelValue::array_posless]: the empty array is inline. *)
Definition array_value (l : list NickelValue) : NickelValue :=
  match l with [] => VArray Empty | _ => VArray (Alloc (mkArrayData l [])) end.

(** The value ['Error {message, notes}] of a record contract that finds fields
    it does not list. *)
Definition extra_fields_error (names : list Ident) : NickelValue :=
  let error_data := [
    (ident "message", VString (extra_fields_message names));
    (ident "notes", array_value [VString misspelled_note; VString too_strict_note])
  ] in
  VEnumVariant "Error" (Some (VRecord (Alloc (with_field_values error_data)))).

(** The record of merged fields, from the three parts of the split. *)
Definition merge_parts (merge_label : MergeLabel) (s : SplitResult Ident Field Field)
    : M (IndexMap Ident Field) :=
  let field_names := keys (left s) ++ keys (center s) ++ keys (right s) in
  l ← revert_closurize_fields (left s);
  r ← revert_closurize_fields (right s);
  c ← mapM (λ p : Ident * (Field * Field),
        f ← merge_fields merge_label p.2.1 p.2.2 field_names; mret (p.1, f)) (center s);
  mret (im_extend (im_extend (im_extend [] l) r) c).

(** The arm for two allocated records; [inr] is the early return of the contract
    error. *)
Definition merge_records (r1 r2 : RecordData) (mode : MergeMode)
    : M (result (NickelValue + NickelValue) EvalErrorKind) :=
  match or_else (sealed_tail r1) (sealed_tail r2) with
  | Some tail =>
      arg ← get_evaluated_arg (tail_label tail);
      mret (Err (IllegalPolymorphicTailAccess TailMerge arg (tail_label tail)))
  | None =>
      let s := split_ref (fields r1) (fields r2) in
      if wraps_in_ok mode && negb (open (attrs r2)) && negb (length (left s) =? 0) then
        mret (Ok (inr (extra_fields_error (keys (left s)))))
      else
        m ← merge_parts (mode_label mode) s;
        mret (Ok (inl (VTerm (TRecRecord (mkRecRecordData
          (mkRecordData m (attrs_combine (attrs r1) (attrs r2)) None) [] [] None true)))))
  end.

(** ** Merging values *)

Definition incompatible (v1 v2 : NickelValue) (mode : MergeMode)
    : result (NickelValue + NickelValue) EvalErrorKind :=
  Err (MergeIncompatibleArgs v1 v2 (mode_label mode)).

(** The label of the generated equality contract on arrays. *)
Definition array_label (merge_label : MergeLabel) : Label :=
  let contract_for_display :=
    VTerm (TApp (VTerm (TOp1 (RecordAccess "Equal") (VTerm (TVar "contract"))))
                (VTerm (TVar "some_array"))) in
  let notes :=
    "This equality contract was auto-generated from a merge operation on two arrays. Arrays can only be merged if they are equal."%string ::
    (if bool_decide (kind merge_label = PiecewiseDef) then
       ["The arrays were merged because they were assigned to the same record field piecewise. This is likely to have been a mistake. Check for duplicate definitions of the same record field."%string]
     else []) in
  set_diagnostic_notes
    (set_diagnostic_message (mkLabel (TyContract contract_for_display) [] None Positive [] [] None)
       "cannot merge unequal arrays")
    notes.

Definition merge_content (v1 : NickelValue) (env1 : Environment)
    (v2 : NickelValue) (env2 : Environment) (mode : MergeMode)
    : M (result (NickelValue + NickelValue) EvalErrorKind) :=
  match v1, v2 with
  | VNull, VNull => mret (Ok (inl VNull))
  | VBool b1, VBool b2 =>
      mret (if Bool.eqb b1 b2 then Ok (inl (VBool b1)) else incompatible v1 v2 mode)
  | VNumber n1, VNumber n2 =>
      mret (if bool_decide (n1 = n2) then Ok (inl (VNumber n1)) else incompatible v1 v2 mode)
  | VString s1, VString s2 =>
      mret (if bool_decide (s1 = s2) then Ok (inl (VString s1)) else incompatible v1 v2 mode)
  | VLabel l1, VLabel l2 =>
      mret (if label_eq l1 l2 then Ok (inl (VLabel l1)) else incompatible v1 v2 mode)
  | VEnumVariant tag1 arg1, VEnumVariant tag2 arg2 =>
      match arg1, arg2 with
      | None, None =>
          mret (if bool_decide (tag1 = tag2) then Ok (inl (VEnumVariant tag1 None))
                else incompatible v1 v2 mode)
      | Some a1, Some a2 =>
          if bool_decide (tag1 = tag2) then
            c1 ← closurize a1 env1;
            c2 ← closurize a2 env2;
            arg ← closurize (VTerm (TOp2 (MergeOp (mode_label mode)) c1 c2)) ∅;
            mret (Ok (inl (VEnumVariant tag1 (Some arg))))
          else mret (incompatible v1 v2 mode)
      | _, _ => mret (incompatible v1 v2 mode)
      end
  | VArray _, VArray _ =>
      c1 ← closurize v1 env1;
      c2 ← closurize v2 env2;
      let label := array_label (mode_label mode) in
      let eq_contract := VTerm (TApp (VTerm (TVar "$stdlib_contract_equal")) c1) in
      mret (Ok (inl (VTerm (TApp (VTerm (TOp2 ContractApply eq_contract (VLabel label))) c2))))
  | VRecord _, VRecord Empty | VRecord Empty, VRecord _ =>
      mret (Ok (inl (if is_inline_empty_record v1 then v2 else v1)))
  | VRecord (Alloc r1), VRecord (Alloc r2) => merge_records r1 r2 mode
  | _, _ => mret (incompatible v1 v2 mode)
  end.

(** [VirtualMachine::merge] *)
Definition merge (v1 : NickelValue) (env1 : Environment) (v2 : NickelValue)
    (env2 : Environment) (mode : MergeMode) : M (result Closure EvalErrorKind) :=
  r ← merge_content v1 env1 v2 env2 mode;
  match r with
  | Err e => mret (Err e)
  | Ok (inr v) => mret (Ok (to_closure v))
  | Ok (inl v) =>
      if wraps_in_ok mode then
        c ← closurize v ∅; mret (Ok (to_closure (VEnumVariant "Ok" (Some c))))
      else mret (Ok (to_closure v))
  end.

End merge.
