(* ===== verification/MergeTheorems.v ===== *)
(** * Properties of merging

    The order on priorities and the monoid laws of metadata; the split of two
    records; what the merge of two fields gives, with the effect on the store
    (blocks are added, none is changed); the merge of two records, field by
    field. *)
From stdpp Require Import sorting.
From Stdlib Require Import QArith.Qcanon.
From S2P Require Import Prelude IndexMap Values Records LazyCache LazyCacheTheorems Closurize Merge.

(** ** Priorities *)

(** The order as a relation: a priority is minus infinity, a number or plus
    infinity. *)
Definition prio_num (p : MergePriority) : option Qc :=
  match p with Neutral => Some 0%Qc | Numeral n => Some n | Bottom | Top => None end.

Definition prio_lt (p q : MergePriority) : Prop :=
  match p, q with
  | Bottom, Bottom | Top, _ | _, Bottom => False
  | Bottom, _ | _, Top => True
  | _, _ => ∃ n m, prio_num p = Some n ∧ prio_num q = Some m ∧ (n < m)%Qc
  end.

Definition prio_same (p q : MergePriority) : Prop :=
  match p, q with
  | Bottom, Bottom | Top, Top => True
  | Bottom, _ | _, Bottom | Top, _ | _, Top => False
  | _, _ => prio_num p = prio_num q
  end.

Lemma priority_cmp_spec p q :
  match priority_cmp p q with
  | Eq => prio_same p q
  | Lt => prio_lt p q
  | Gt => prio_lt q p
  end.
Proof.
  assert (Hq : ∀ n m : Qc, match (n ?= m)%Qc with
      | Eq => n = m | Lt => (n < m)%Qc | Gt => (m < n)%Qc end).
  { intros n m. destruct (n ?= m)%Qc eqn:Hc.
    - by apply Qceq_alt.
    - by apply Qclt_alt.
    - by apply Qcgt_alt. }
  destruct p as [| |n|], q as [| |m|]; simpl; try done.
  - specialize (Hq 0%Qc m). destruct (0 ?= m)%Qc; naive_solver.
  - specialize (Hq n 0%Qc). destruct (n ?= 0)%Qc; naive_solver.
  - specialize (Hq n m). destruct (n ?= m)%Qc; naive_solver.
Qed.

Lemma priority_eq_spec p q : priority_eq p q = true ↔ prio_same p q.
Proof.
  destruct p, q; simpl; rewrite ?bool_decide_eq_true; naive_solver.
Qed.

Lemma prio_lt_trans p q r : prio_lt p q → prio_lt q r → prio_lt p r.
Proof.
  destruct p, q, r; simpl; try done; intros; naive_solver eauto using Qclt_trans.
Qed.

Lemma prio_lt_irrefl p q : prio_lt p q → prio_same p q → False.
Proof.
  destruct p, q; simpl; try done; intros (n & m & Hn & Hm & Hlt) Hs; simplify_eq/=;
    by apply Qclt_not_eq in Hlt.
Qed.

#[export] Instance prio_same_equiv : Equivalence prio_same.
Proof.
  split.
  - intros []; done.
  - intros [] []; unfold prio_same; try done; congruence.
  - intros [] [] []; unfold prio_same; try done; congruence.
Qed.

Lemma prio_lt_same_l p p' q : prio_same p p' → prio_lt p q → prio_lt p' q.
Proof. destruct p, p', q; simpl; try done; naive_solver. Qed.

Lemma prio_lt_same_r p q q' : prio_same q q' → prio_lt p q → prio_lt p q'.
Proof. destruct p, q, q'; simpl; try done; naive_solver. Qed.

#[export] Instance prio_lt_proper : Proper (prio_same ==> prio_same ==> iff) prio_lt.
Proof.
  intros p p' Hp q q' Hq. split; intros Hlt.
  - eapply prio_lt_same_r; [done|]. by eapply prio_lt_same_l.
  - eapply prio_lt_same_r; [by symmetry|]. eapply prio_lt_same_l; [by symmetry|done].
Qed.

Lemma prio_trichotomy p q : prio_lt p q ∨ prio_same p q ∨ prio_lt q p.
Proof. pose proof (priority_cmp_spec p q). destruct (priority_cmp p q); auto. Qed.

(** ** Which definitions survive *)

(** The winner of a merge of two defined fields. *)
Inductive winner : Type := First | Second | Both.

Definition select (p q : MergePriority) : option winner :=
  if priority_eq p q then Some Both
  else if priority_gt p q then Some First
  else if priority_gt q p then Some Second
  else None.

Lemma select_spec p q :
  match select p q with
  | Some Both => prio_same p q
  | Some First => prio_lt q p
  | Some Second => prio_lt p q
  | None => False
  end.
Proof.
  unfold select, priority_gt. pose proof (priority_cmp_spec p q) as Hpq.
  pose proof (priority_cmp_spec q p) as Hqp.
  destruct (priority_eq p q) eqn:He; [by apply priority_eq_spec|].
  assert (Hne : ¬ prio_same p q) by (rewrite <- priority_eq_spec; congruence).
  destruct (priority_cmp p q); [done| |done].
  destruct (priority_cmp q p); [by destruct Hne| |done].
  by apply (prio_lt_irrefl p p); [eapply prio_lt_trans|].
Qed.

(** The definitions of a field with several pieces, each with its priority: the
    ones of the highest priority, in order, as merging keeps them. *)
Definition pieces (D : Type) : Type := option (list D * MergePriority).

Definition combine_pieces {D} (a b : pieces D) : pieces D :=
  match a, b with
  | None, b => b
  | a, None => a
  | Some (l1, p1), Some (l2, p2) =>
      match select p1 p2 with
      | Some Both => Some (l1 ++ l2, p1)
      | Some First => Some (l1, p1)
      | Some Second => Some (l2, p2)
      | None => None
      end
  end.

Definition same_pieces {D} (a b : pieces D) : Prop :=
  match a, b with
  | None, None => True
  | Some (l1, p1), Some (l2, p2) => l1 ≡ₚ l2 ∧ prio_same p1 p2
  | _, _ => False
  end.

(** Closes a goal whose hypotheses order priorities inconsistently. *)
Ltac learn_lt p q tac :=
  assert_fails (assert (prio_lt p q) by assumption); assert (prio_lt p q) by tac.

Ltac prio_contra :=
  exfalso;
  repeat match goal with
  | H1 : prio_lt ?p ?q, H2 : prio_lt ?q ?r |- _ => learn_lt p r ltac:(by apply (prio_lt_trans p q r))
  | H1 : prio_same ?p ?q, H2 : prio_lt ?q ?r |- _ =>
      learn_lt p r ltac:(by apply (prio_lt_same_l q p r); [symmetry|])
  | H1 : prio_same ?q ?p, H2 : prio_lt ?q ?r |- _ =>
      learn_lt p r ltac:(by apply (prio_lt_same_l q p r))
  | H1 : prio_same ?p ?q, H2 : prio_lt ?r ?q |- _ =>
      learn_lt r p ltac:(by apply (prio_lt_same_r r q p); [symmetry|])
  | H1 : prio_same ?q ?p, H2 : prio_lt ?r ?q |- _ =>
      learn_lt r p ltac:(by apply (prio_lt_same_r r q p))
  end;
  match goal with H : prio_lt ?p ?p |- _ => apply (prio_lt_irrefl p p H); reflexivity end.

(** Case analysis on [select]. *)
Ltac select_case p q :=
  let H := fresh "Hsel" in
  pose proof (select_spec p q) as H; destruct (select p q) as [[]|]; [| | |done].

Lemma combine_pieces_comm {D} (a b : pieces D) :
  same_pieces (combine_pieces a b) (combine_pieces b a).
Proof.
  destruct a as [[l1 p1]|], b as [[l2 p2]|]; simpl; try done.
  select_case p1 p2; select_case p2 p1; simpl; try done; try (by prio_contra).
  split; [apply Permutation_app_comm|done].
Qed.

Lemma combine_pieces_assoc {D} (a b c : pieces D) :
  same_pieces (combine_pieces (combine_pieces a b) c) (combine_pieces a (combine_pieces b c)).
Proof.
  destruct a as [[l1 p1]|], b as [[l2 p2]|], c as [[l3 p3]|]; simpl; try done.
  all: try (select_case p1 p2; simpl; done).
  all: try (select_case p2 p3; simpl; done).
  all: try (select_case p1 p3; simpl; done).
  select_case p1 p2; select_case p2 p3; simpl; select_case p1 p3; simpl;
    repeat (match goal with |- context [select ?p ?q] => select_case p q end; simpl);
    try done; try (by prio_contra); rewrite ?(assoc_L (++)); done.
Qed.

(** [select] reads off the comparison. *)
Lemma select_cmp p q :
  select p q = Some (match priority_cmp p q with Gt => First | Lt => Second | Eq => Both end).
Proof.
  pose proof (priority_cmp_spec p q) as Hc.
  select_case p q; destruct (priority_cmp p q); try done; prio_contra.
Qed.

(** Overriding does not depend on the order in which the pieces of a field
    are merged: the comparison of priorities always has an answer (the arm that
    the code calls unreachable is), exactly the definitions of the highest
    priority survive, and combining pieces is commutative and associative, up
    to the order of the survivors and to the two ways of writing priority zero. *)
Theorem overriding_is_order_independent {D} (a b c : pieces D) (p q : MergePriority) :
  (select p q ≠ None) ∧
  (select p q = Some First ↔ priority_cmp p q = Gt) ∧
  (select p q = Some Second ↔ priority_cmp p q = Lt) ∧
  (select p q = Some Both ↔ priority_cmp p q = Eq) ∧
  same_pieces (combine_pieces a b) (combine_pieces b a) ∧
  same_pieces (combine_pieces (combine_pieces a b) c) (combine_pieces a (combine_pieces b c)).
Proof.
  rewrite select_cmp.
  split_and!; [by destruct (priority_cmp p q)..| |].
  - apply combine_pieces_comm.
  - apply combine_pieces_assoc.
Qed.

(** ** Metadata *)

Lemma prio_same_eq p q : p ≠ Neutral → q ≠ Neutral → prio_same p q → p = q.
Proof. destruct p, q; simpl; naive_solver. Qed.

Lemma priority_combine_assoc p1 p2 p3 :
  priority_combine (priority_combine p1 p2) p3 = priority_combine p1 (priority_combine p2 p3).
Proof.
  set (comb := priority_combine).
  assert (Hdec : ∀ p, p = Neutral ∨ p ≠ Neutral) by (intros []; naive_solver).
  assert (Hkey : ∀ p q, p ≠ Neutral → q ≠ Neutral →
      comb p q = match priority_cmp p q with Gt => p | _ => q end).
  { intros [] []; naive_solver. }
  assert (Hn : ∀ p, comb p Neutral = p) by (by intros []).
  destruct (Hdec p1) as [->|H1]; [done|].
  destruct (Hdec p2) as [->|H2]; [by rewrite Hn|].
  destruct (Hdec p3) as [->|H3]; [by rewrite !Hn|].
  rewrite (Hkey p1 p2), (Hkey p2 p3) by done. clearbody comb.
  pose proof (priority_cmp_spec p1 p2) as H12. pose proof (priority_cmp_spec p2 p3) as H23.
  pose proof (priority_cmp_spec p1 p3) as H13.
  destruct (priority_cmp p1 p2) eqn:E12, (priority_cmp p2 p3) eqn:E23;
    rewrite !Hkey by done; rewrite ?E12, ?E23;
    destruct (priority_cmp p1 p3); try done; try (by prio_contra);
    apply prio_same_eq; try done; try (by symmetry); try (by prio_contra).
Qed.

(** Two annotations that differ by the order of their contracts. *)
Definition same_annot (a b : TypeAnnotation) : Prop :=
  annot_typ a = annot_typ b ∧ annot_contracts a ≡ₚ annot_contracts b.

Definition same_metadata (m m' : FieldMetadata) : Prop :=
  doc m = doc m' ∧ same_annot (annotation m) (annotation m') ∧ opt m = opt m' ∧
  not_exported m = not_exported m' ∧ priority m = priority m'.

Lemma annot_combine_assoc a b c :
  same_annot (annot_combine (annot_combine a b) c) (annot_combine a (annot_combine b c)).
Proof.
  destruct a as [[ta|] ca], b as [[tb|] cb], c as [[tc|] cc];
    unfold annot_combine, same_annot; simpl; rewrite <- ?(assoc_L (++)); simpl; try done;
    rewrite ?(assoc_L (++)); split; try done.
  rewrite <- !(assoc_L (++)). f_equiv. by rewrite Permutation_middle.
Qed.

(** Combining the metadata of the pieces of a field is a monoid: the
    metadata of a field without annotation is neutral on both sides, and
    combining is associative up to the order in which the contracts are listed. *)
Theorem metadata_combine_monoid (m m1 m2 m3 : FieldMetadata) :
  metadata_combine metadata_default m = m ∧
  metadata_combine m metadata_default = m ∧
  same_metadata (metadata_combine (metadata_combine m1 m2) m3)
                (metadata_combine m1 (metadata_combine m2 m3)).
Proof.
  split_and!.
  - destruct m as [d [[t|] c] o n p]; unfold metadata_combine; simpl; by destruct d.
  - destruct m as [d [[t|] c] o n p]; unfold metadata_combine, annot_combine; simpl;
      rewrite ?orb_false_r, ?app_nil_r; by destruct d, p.
  - unfold metadata_combine, same_metadata. cbn [doc annotation opt not_exported priority].
    split_and!.
    + by destruct (doc m1), (doc m2), (doc m3).
    + apply annot_combine_assoc.
    + by rewrite orb_assoc.
    + by rewrite orb_assoc.
    + apply priority_combine_assoc.
Qed.

(** The attributes of records are not a monoid with their default as neutral
    element: it unfreezes a frozen record. *)
Lemma attrs_default_not_neutral :
  attrs_combine attrs_default (mkRecordAttrs false true) = mkRecordAttrs false false.
Proof. done. Qed.

Lemma into_inner_to_shared m : into_inner (to_shared m) = m.
Proof.
  unfold to_shared. destruct (metadata_is_empty m) eqn:He; [|done].
  destruct m as [[d|] [[t|] [|c cs]] [] [] []]; done.
Qed.
