(* ===== verification/MergeProperties.v ===== *)
(** * Merging records

    The split of two records into the fields of one, of the other and of both;
    the effect of merging on the store; the merge of two fields and of two
    records, field by field. *)
From stdpp Require Import sorting.
From Stdlib Require Import QArith.Qcanon.
From S2P Require Import Prelude IndexMap Values Records LazyCache LazyCacheTheorems Closurize Merge MergeTheorems.

(** ** The split *)

Section split_facts.
Context `{IndexMapLaws K}.

Definition split_ok {V1 V2} (m1 : IndexMap K V1) (m2 : IndexMap K V2)
    (s : SplitResult K V1 V2) : Prop :=
  im_ok (left s) ∧ im_ok (center s) ∧ im_ok (right s) ∧
  (∀ k v, (k, v) ∈ left s ↔ (k, v) ∈ m1 ∧ k ∉ keys m2) ∧
  (∀ k v1 v2, (k, (v1, v2)) ∈ center s ↔ (k, v1) ∈ m1 ∧ (k, v2) ∈ m2) ∧
  (∀ k v, (k, v) ∈ right s ↔ (k, v) ∈ m2 ∧ k ∉ keys m1).

Lemma split_ok_init {V1 V2} (m2 : IndexMap K V2) :
  im_ok m2 → split_ok ([] : IndexMap K V1) m2 (mkSplit [] [] m2).
Proof.
  intros Hok. unfold split_ok. simpl. split_and!; try apply NoDup_nil_2; try done.
  - intros k v. rewrite !elem_of_nil. tauto.
  - intros k v1 v2. rewrite !elem_of_nil. tauto.
  - intros k v. rewrite elem_of_nil. tauto.
Qed.

Lemma keys_snoc {V} (m : IndexMap K V) k v k' : k' ∈ keys (m ++ [(k, v)]) ↔ k' ∈ keys m ∨ k' = k.
Proof. rewrite keys_app, elem_of_app. simpl. by rewrite list_elem_of_singleton. Qed.

Lemma im_ok_snoc {V} (m : IndexMap K V) k v : im_ok m → k ∉ keys m → im_ok (m ++ [(k, v)]).
Proof.
  unfold im_ok. rewrite keys_app. intros Hok Hk. apply NoDup_app. repeat split; [done| |].
  - intros k' Hk' Hin. simpl in Hin. apply list_elem_of_singleton in Hin as ->. done.
  - apply NoDup_singleton.
Qed.

Lemma center_fresh {V1 V2} (m1 : IndexMap K V1) (m2 : IndexMap K V2) s k :
  split_ok m1 m2 s → k ∉ keys m1 → k ∉ keys (center s) ∧ k ∉ keys (left s).
Proof.
  intros (_ & _ & _ & Hl & Hc & _) Hk. rewrite !elem_of_keys. split.
  - intros ([v1 v2] & Hin). apply Hc in Hin as [Hin _]. apply Hk, elem_of_keys. eauto.
  - intros (v & Hin). apply Hl in Hin as [Hin _]. apply Hk, elem_of_keys. eauto.
Qed.

Lemma split_step_ok {V1 V2} (m1 : IndexMap K V1) (m2 : IndexMap K V2) s k v1 :
  im_ok m2 → k ∉ keys m1 → split_ok m1 m2 s →
  split_ok (m1 ++ [(k, v1)]) m2 (split_step s (k, v1)).
Proof.
  intros Hok2 Hk Hs. pose proof (center_fresh _ _ _ _ Hs Hk) as [Hkc Hkl].
  destruct Hs as (Hol & Hoc & Hor & Hl & Hc & Hr).
  unfold split_step. destruct (im_swap_remove (right s) k) as [[v2 right']|] eqn:Hsw.
  - apply im_swap_remove_some in Hsw as Hp; [|done].
    apply im_swap_remove_get in Hsw as (_ & Hor' & Hkr'); [|done].
    assert (Hr' : ∀ k' v, (k', v) ∈ right s ↔ (k', v) = (k, v2) ∨ (k', v) ∈ right').
    { intros k' v. rewrite Hp. by rewrite elem_of_cons. }
    assert (Hv2 : (k, v2) ∈ m2) by (apply Hr; rewrite Hr'; by left).
    rewrite im_insert_new by done. unfold split_ok. simpl. split_and!.
    + done.
    + by apply im_ok_snoc.
    + done.
    + intros k' v. rewrite Hl, elem_of_app, list_elem_of_singleton. split; [naive_solver|].
      intros [[?|?] Hn]; [done|]. simplify_eq. destruct Hn. apply elem_of_keys. eauto.
    + intros k' w1 w2. rewrite !elem_of_app, !list_elem_of_singleton, Hc. split.
      * intros [?|?]; [naive_solver|]. simplify_eq. auto.
      * intros [[?|?] ?]; [naive_solver|]. simplify_eq. right.
        rewrite (im_ok_functional m2 k w2 v2); auto.
    + intros k' v. rewrite keys_snoc. split.
      * intros Hin. assert (Hin' : (k', v) ∈ right s) by (rewrite Hr'; by right).
        apply Hr in Hin' as [??]. split; [done|]. intros [?| ->]; [done|].
        apply Hkr', elem_of_keys. eauto.
      * intros [Hin Hn]. assert (Hin' : (k', v) ∈ right s) by (apply Hr; naive_solver).
        apply Hr' in Hin' as [?|?]; [|done]. simplify_eq. naive_solver.
  - apply im_swap_remove_none in Hsw.
    assert (Hk2 : k ∉ keys m2).
    { intros Hin. apply elem_of_keys in Hin as [v Hv]. apply Hsw, elem_of_keys. exists v.
      by apply Hr. }
    rewrite im_insert_new by done. unfold split_ok. simpl. split_and!.
    + by apply im_ok_snoc.
    + done.
    + done.
    + intros k' v. rewrite !elem_of_app, !list_elem_of_singleton, Hl. naive_solver.
    + intros k' w1 w2. rewrite Hc, elem_of_app, list_elem_of_singleton. split; [naive_solver|].
      intros [[?|?] Hin]; [done|]. simplify_eq. destruct Hk2. apply elem_of_keys. eauto.
    + intros k' v. rewrite Hr, keys_snoc. split; [|naive_solver].
      intros [Hin ?]. split; [done|]. intros [?| ->]; [done|]. apply Hk2, elem_of_keys. eauto.
Qed.

Lemma split_fold_ok {V1 V2} (m1 todo : IndexMap K V1) (m2 : IndexMap K V2) s :
  im_ok m2 → im_ok (m1 ++ todo) → split_ok m1 m2 s →
  split_ok (m1 ++ todo) m2 (foldl split_step s todo).
Proof.
  intros Hok2. revert m1 s. induction todo as [|[k v] todo IH]; intros m1 s Hok Hs; simpl.
  { by rewrite app_nil_r. }
  replace (m1 ++ (k, v) :: todo) with ((m1 ++ [(k, v)]) ++ todo) in * by (by rewrite <- app_assoc).
  apply IH; [done|]. apply split_step_ok; [done| |done].
  unfold im_ok in Hok. rewrite !keys_app in Hok. simpl in Hok.
  apply NoDup_app in Hok as (Hok & _ & _). apply NoDup_app in Hok as (_ & Hd & _).
  intros Hin. apply (Hd k Hin). simpl. by apply list_elem_of_singleton.
Qed.

(** The other branch is the first one with the two maps exchanged. *)
Definition swap_entry {V1 V2} (p : K * (V1 * V2)) : K * (V2 * V1) := (p.1, (p.2.2, p.2.1)).

Definition transpose {V1 V2} (s : SplitResult K V1 V2) : SplitResult K V2 V1 :=
  mkSplit (right s) (map swap_entry (center s)) (left s).

Lemma keys_swap {V1 V2} (m : IndexMap K (V1 * V2)) : keys (map swap_entry m) = keys m.
Proof. unfold keys. induction m as [|[k [v1 v2]] m IH]; csimpl; congruence. Qed.

Lemma split_ok_transpose {V1 V2} (m1 : IndexMap K V1) (m2 : IndexMap K V2) s :
  split_ok m1 m2 s → split_ok m2 m1 (transpose s).
Proof.
  intros (? & ? & ? & Hl & Hc & Hr). unfold split_ok, im_ok in *. simpl.
  rewrite keys_swap. split_and!; try done.
  intros k v2 v1. rewrite (comm (∧)), <- Hc, list_elem_of_In, in_map_iff. split.
  - intros ([k' [w1 w2]] & Heq & Hin). unfold swap_entry in Heq. simplify_eq/=.
    by apply list_elem_of_In.
  - intros Hin. exists (k, (v1, v2)). split; [done|]. by apply list_elem_of_In.
Qed.

Lemma transpose_transpose {V1 V2} (s : SplitResult K V1 V2) : transpose (transpose s) = s.
Proof.
  destruct s as [l c r]. unfold transpose. simpl. f_equal. rewrite map_map.
  rewrite (map_ext _ id); [by rewrite map_id|]. by intros [k [v1 v2]].
Qed.

Lemma split_step_sym_transpose {V1 V2} (s : SplitResult K V1 V2) p :
  p.1 ∉ keys (center s) → split_step_sym s p = transpose (split_step (transpose s) p).
Proof.
  destruct p as [k v2]. simpl. intros Hk. unfold split_step_sym, split_step. simpl.
  destruct (im_swap_remove (left s) k) as [[v1 left']|]; unfold transpose; simpl.
  - rewrite !im_insert_new by (rewrite ?keys_swap; done). rewrite map_app. simpl.
    f_equal. f_equal. rewrite map_map. rewrite (map_ext _ id); [by rewrite map_id|].
    by intros [? [? ?]].
  - f_equal. rewrite map_map. rewrite (map_ext _ id); [by rewrite map_id|]. by intros [? [? ?]].
Qed.

Lemma split_fold_sym_ok {V1 V2} (m1 : IndexMap K V1) (m2 todo : IndexMap K V2) s :
  im_ok m1 → im_ok (m2 ++ todo) → split_ok m1 m2 s →
  split_ok m1 (m2 ++ todo) (foldl split_step_sym s todo).
Proof.
  intros Hok1. revert m2 s. induction todo as [|[k v] todo IH]; intros m2 s Hok Hs; cbn [foldl].
  { by rewrite app_nil_r. }
  replace (m2 ++ (k, v) :: todo) with ((m2 ++ [(k, v)]) ++ todo) in * by (by rewrite <- app_assoc).
  apply IH; [done|].
  assert (Hk : k ∉ keys m2).
  { unfold im_ok in Hok. rewrite !keys_app in Hok. simpl in Hok.
    apply NoDup_app in Hok as (Hok & _ & _). apply NoDup_app in Hok as (_ & Hd & _).
    intros Hin. apply (Hd k Hin). simpl. by apply list_elem_of_singleton. }
  apply split_ok_transpose in Hs. rewrite split_step_sym_transpose.
  - apply split_ok_transpose. by apply split_step_ok.
  - apply center_fresh with (k := k) in Hs as [Hc _]; [|done]. simpl in Hc.
    by rewrite keys_swap in Hc.
Qed.

Lemma split_ref_ok {V1 V2} (m1 : IndexMap K V1) (m2 : IndexMap K V2) :
  im_ok m1 → im_ok m2 → split_ok m1 m2 (split_ref m1 m2).
Proof.
  intros Hok1 Hok2. unfold split_ref. destruct (length m1 <? length m2).
  - apply (split_fold_sym_ok m1 [] m2); [done..|].
    apply (split_ok_transpose [] m1 (mkSplit [] [] m1)). by apply split_ok_init.
  - apply (split_fold_ok [] m1 m2); [done..|]. by apply split_ok_init.
Qed.

Lemma split_ok_fun {V1 V2} (m1 : IndexMap K V1) (m2 : IndexMap K V2) :
  im_ok m1 → im_ok m2 → split_ok m1 m2 (split m1 m2).
Proof. intros. apply (split_fold_ok [] m1 m2); [done..|]. by apply split_ok_init. Qed.

End split_facts.

(** ** The effect of merging on the store *)

(** Blocks were added, none was changed. *)
Definition extends (h h' : Heap) : Prop := heap_ok h' ∧ thunks h ⊆ thunks h'.

Lemma extends_refl h : heap_ok h → extends h h.
Proof. by split. Qed.

Lemma extends_trans h h' h'' : extends h h' → extends h' h'' → extends h h''.
Proof. intros [_ ?] [? ?]. split; [done|]. by etrans. Qed.

Lemma extends_lookup h h' t d : extends h h' → thunks h !! t = Some d → thunks h' !! t = Some d.
Proof. intros [_ Hsub] Ht. by eapply lookup_weaken. Qed.

Lemma extends_ok h h' : extends h h' → heap_ok h'.
Proof. by intros [? _]. Qed.

Lemma extends_fresh h h' t : extends h h' → thunks h' !! t = None → thunks h !! t = None.
Proof. intros [_ Hsub] Ht. by eapply lookup_weaken_None. Qed.

Lemma extends_alloc h d :
  heap_ok h → extends h (mkHeap (<[next h := d]> (thunks h)) (S (next h))).
Proof.
  intros Hok. split; [by apply heap_ok_alloc|]. simpl. apply insert_subseteq. by apply Hok.
Qed.

#[export] Hint Resolve extends_refl extends_trans extends_ok extends_alloc : nickel.

(** No dangling thunk. *)
Definition value_ok (h : Heap) (v : NickelValue) : Prop :=
  match v with VThunk t => is_Some (thunks h !! t) | _ => True end.

Definition contract_ok (h : Heap) (c : RuntimeContract) : Prop := value_ok h (contract c).

Definition field_ok (h : Heap) (f : Field) : Prop :=
  from_option (value_ok h) True (value f) ∧ Forall (contract_ok h) (pending_contracts f).

Definition record_ok (h : Heap) (r : RecordData) : Prop :=
  im_ok (fields r) ∧ Forall (λ p : Ident * Field, field_ok h p.2) (fields r).

Lemma value_ok_mono h h' v : extends h h' → value_ok h v → value_ok h' v.
Proof.
  intros He. destruct v; simpl; try done. intros [d Hd]. exists d. by eapply extends_lookup.
Qed.

Lemma field_ok_mono h h' f : extends h h' → field_ok h f → field_ok h' f.
Proof.
  intros He [Hv Hp]. split.
  - destruct (value f); simpl in *; [by eapply value_ok_mono|done].
  - eapply Forall_impl; [exact Hp|]. intros c. by apply value_ok_mono.
Qed.

(** [v'] is [v] put back to its original expression: a standard thunk is shared,
    a revertible one has a fresh copy with no cached value. *)
Definition reverted_to (h h' : Heap) (v v' : NickelValue) : Prop :=
  match v with
  | VThunk t =>
      ∃ d, thunks h !! t = Some d ∧
        match inner d with
        | Standard _ => v' = v
        | RevThunk orig _ dps =>
            ∃ t', v' = VThunk t' ∧ thunks h !! t' = None ∧ thunks h' !! t' = Some (reverted orig dps)
        end
  | _ => v' = v
  end.

Lemma reverted_to_mono h0 h h' h1 v v' :
  extends h0 h → extends h' h1 → value_ok h0 v → reverted_to h h' v v' → reverted_to h0 h1 v v'.
Proof.
  intros He0 He1. destruct v; simpl; try done. intros [d0 Hd0] (d & Hd & Hi).
  pose proof (extends_lookup _ _ _ _ He0 Hd0) as Hd'. simplify_eq. exists d. split; [done|].
  destruct (inner d); [done|]. destruct Hi as (t' & -> & Hf & Ht').
  exists t'. split_and!; [done|by eapply extends_fresh|by eapply extends_lookup].
Qed.

Definition reverted_contract (h h' : Heap) (c c' : RuntimeContract) : Prop :=
  reverted_to h h' (contract c) (contract c') ∧ contract_label c' = contract_label c.

Definition reverted_field (h h' : Heap) (f f' : Field) : Prop :=
  option_Forall2 (reverted_to h h') (value f) (value f') ∧ metadata f' = metadata f ∧
  Forall2 (reverted_contract h h') (pending_contracts f) (pending_contracts f').

(** A program that only adds blocks, on inputs that satisfy [P], with a result
    related to the input by [R]. *)
Definition adds {A B} (P : Heap → A → Prop) (R : Heap → Heap → A → B → Prop) (f : A → M B) : Prop :=
  ∀ a h Q, heap_ok h → P h a → (∀ b h', extends h h' → R h h' a b → Q b h') → wp (f a) Q h.

Definition stable {A B} (P : Heap → A → Prop) (R : Heap → Heap → A → B → Prop) : Prop :=
  (∀ h h' a, extends h h' → P h a → P h' a) ∧
  (∀ h0 h h' h1 a b, extends h0 h → extends h' h1 → P h0 a → R h h' a b → R h0 h1 a b).

Lemma Forall2_impl_Forall {A B} (P : A → Prop) (R S : A → B → Prop) l l' :
  Forall P l → (∀ x y, P x → R x y → S x y) → Forall2 R l l' → Forall2 S l l'.
Proof. intros Hl Himp Hr. induction Hr; inversion Hl; subst; constructor; auto. Qed.

Lemma adds_mapM {A B} P R (f : A → M B) :
  stable P R → adds P R f →
  adds (λ h, Forall (P h)) (λ h h', Forall2 (R h h')) (mapM f).
Proof.
  intros [HP HR] Hf l. induction l as [|a l IH]; intros h Q Hok Hl HQ; simpl.
  { apply wp_ret, HQ; [by apply extends_refl|constructor]. }
  apply Forall_cons in Hl as [Ha Hl]. apply wp_bind, Hf; [done|done|].
  intros b h1 He1 Hb. apply wp_bind, IH; [by eapply extends_ok| |].
  { eapply Forall_impl; [done|]. intros. by eapply HP. }
  intros l' h2 He2 Hl'. apply wp_ret, HQ; [by eapply extends_trans|]. constructor.
  - eapply HR; [by apply extends_refl|done|done|done].
  - eapply Forall2_impl_Forall; [exact Hl| |exact Hl'].
    intros x y Hx HRxy. eapply HR; [exact He1|by apply extends_refl; eapply extends_ok|done|done].
Qed.

(** ** Reverting *)

Lemma revert_adds : adds value_ok reverted_to revert_closurize.
Proof.
  intros v h Q Hok Hv HQ. destruct v; simpl; try (apply wp_ret, HQ; [by apply extends_refl|done]).
  destruct Hv as [d Hd]. apply wp_bind. unfold revert. apply wp_bind.
  apply (wp_data _ d); [done|]. destruct (inner d) as [c|orig cached dps] eqn:Hi.
  - apply wp_ret, wp_ret, HQ; [by apply extends_refl|]. simpl. exists d. by rewrite Hi.
  - apply wp_alloc, wp_ret, HQ; [by apply extends_alloc|]. simpl. exists d. rewrite Hi.
    split; [done|]. exists (next h). split_and!; [done|by apply Hok|by rewrite lookup_insert_eq].
Qed.

Lemma value_stable : stable value_ok reverted_to.
Proof.
  split; [intros; by eapply value_ok_mono|]. intros. by eapply reverted_to_mono.
Qed.

Lemma revert_contract_adds : adds contract_ok reverted_contract revert_closurize_contract.
Proof.
  intros c h Q Hok Hc HQ. unfold revert_closurize_contract.
  apply wp_bind, revert_adds; [done|done|]. intros v h' He Hr. by apply wp_ret, HQ.
Qed.

Lemma contract_stable : stable contract_ok reverted_contract.
Proof.
  split; [intros; by eapply value_ok_mono|].
  intros h0 h h' h1 c c' He0 He1 Hc [Hr Hl]. split; [|done]. by eapply reverted_to_mono.
Qed.

Lemma revert_contracts_adds :
  adds (λ h, Forall (contract_ok h)) (λ h h', Forall2 (reverted_contract h h'))
       revert_closurize_contracts.
Proof. apply adds_mapM; [apply contract_stable|apply revert_contract_adds]. Qed.

Lemma reverted_contracts_mono h0 h h' h1 cs cs' :
  extends h0 h → extends h' h1 → Forall (contract_ok h0) cs →
  Forall2 (reverted_contract h h') cs cs' → Forall2 (reverted_contract h0 h1) cs cs'.
Proof.
  intros He0 He1 Hcs. apply Forall2_impl_Forall with (P := contract_ok h0); [done|].
  intros. by eapply contract_stable.
Qed.

Lemma revert_option_adds :
  adds (λ h, from_option (value_ok h) True) (λ h h', option_Forall2 (reverted_to h h'))
       (option_mapM revert_closurize).
Proof.
  intros [v|] h Q Hok Hv HQ; simpl.
  - apply wp_bind, revert_adds; [done|done|]. intros v' h' He Hr.
    apply wp_ret, HQ; [done|by constructor].
  - apply wp_ret, HQ; [by apply extends_refl|constructor].
Qed.

Lemma reverted_option_mono h0 h h' h1 o o' :
  extends h0 h → extends h' h1 → from_option (value_ok h0) True o →
  option_Forall2 (reverted_to h h') o o' → option_Forall2 (reverted_to h0 h1) o o'.
Proof.
  intros He0 He1 Ho Hr. destruct Hr; constructor. by eapply reverted_to_mono.
Qed.

Lemma revert_field_adds : adds field_ok reverted_field revert_closurize_field.
Proof.
  intros f h Q Hok [Hv Hp] HQ. unfold revert_closurize_field.
  apply wp_bind, revert_option_adds; [done|done|]. intros v h1 He1 Hr1.
  apply wp_bind, revert_contracts_adds; [by eapply extends_ok| |].
  { eapply Forall_impl; [done|]. intros. by eapply value_ok_mono. }
  intros cs h2 He2 Hr2. apply wp_ret, HQ; [by eapply extends_trans|].
  unfold reverted_field. simpl. split_and!; [|done|].
  - eapply reverted_option_mono; [by apply extends_refl|done|done|done].
  - eapply reverted_contracts_mono; [done|by eapply extends_refl, extends_ok|done|done].
Qed.

Lemma field_stable : stable field_ok reverted_field.
Proof.
  split; [intros; by eapply field_ok_mono|].
  intros h0 h h' h1 f f' He0 He1 [Hv Hp] (Hr1 & Hr2 & Hr3). unfold reverted_field.
  split_and!; [by eapply reverted_option_mono|done|by eapply reverted_contracts_mono].
Qed.

(** The entries of a map, keys kept. *)
Definition entry_rel {A B} (R : A → B → Prop) (p : Ident * A) (q : Ident * B) : Prop :=
  q.1 = p.1 ∧ R p.2 q.2.

Lemma revert_fields_adds :
  adds (λ h, Forall (λ p : Ident * Field, field_ok h p.2))
       (λ h h', Forall2 (entry_rel (reverted_field h h'))) revert_closurize_fields.
Proof.
  apply (adds_mapM (λ h (p : Ident * Field), field_ok h p.2)
                   (λ h h', entry_rel (reverted_field h h'))).
  - split; [intros; by eapply field_ok_mono|].
    intros h0 h h' h1 p q He0 He1 Hp [Hk Hr]. split; [done|]. by eapply field_stable.
  - intros p h Q Hok Hp HQ. apply wp_bind, revert_field_adds; [done|done|].
    intros f h' He Hr. apply wp_ret, HQ; [done|]. by split.
Qed.

(** ** Merging two definitions *)

(** The dependencies of the definition [v] in the store [h]. *)
Definition deps_at (h : Heap) (v : NickelValue) : FieldDeps :=
  match v with
  | VThunk t => match thunks h !! t with Some d => data_deps d | None => deps_empty end
  | _ => deps_empty
  end.

(** [s] is [v] applied to its dependencies among [names]: constants are kept, a
    thunk is turned into the application of a fresh function. *)
Definition saturated_to (names : list Ident) (h h' : Heap) (v s : NickelValue) : Prop :=
  match v with
  | VThunk t =>
      ∃ d f, thunks h !! t = Some d ∧ thunks h !! f = None ∧
        let xs := List.filter (deps_contains (data_deps d)) names in
        thunks h' !! f = Some (revthunk_as_explicit_fun d xs) ∧ s = mk_app (VThunk f) xs
  | _ => s = v
  end.

Lemma saturate_adds names : adds value_ok (saturated_to names) (λ v, saturate_value v names).
Proof.
  intros v h Q Hok Hv HQ. destruct v; simpl; try (apply wp_ret, HQ; [by apply extends_refl|done]).
  destruct Hv as [d Hd]. unfold saturate, thunk_deps. repeat apply wp_bind.
  apply (wp_data _ d); [done|]. apply wp_ret. apply wp_bind, (wp_data _ d); [done|].
  apply wp_bind, wp_alloc, wp_ret, HQ; [by apply extends_alloc|]. simpl. exists d, (next h).
  split_and!; [done|by apply Hok|by rewrite lookup_insert_eq|done].
Qed.

Lemma saturated_to_mono names h0 h h' h1 v s :
  extends h0 h → extends h' h1 → value_ok h0 v →
  saturated_to names h h' v s → saturated_to names h0 h1 v s.
Proof.
  intros He0 He1. destruct v; simpl; try done. intros [d0 Hd0] (d & f & Hd & Hf & Hf' & Hs).
  pose proof (extends_lookup _ _ _ _ He0 Hd0) as Hd'. simplify_eq. exists d, f.
  split_and!; [done|by eapply extends_fresh|by eapply extends_lookup|done].
Qed.

Lemma field_deps_wp v h Q : value_ok h v → Q (deps_at h v) h → wp (field_deps v) Q h.
Proof.
  intros Hv HQ. unfold deps_at in HQ. destruct v; simpl; try done.
  destruct Hv as [d Hd]. rewrite Hd in HQ. unfold deps, thunk_deps. repeat apply wp_bind.
  by apply (wp_data _ d).
Qed.

Lemma deps_at_mono h h' v : extends h h' → value_ok h v → deps_at h' v = deps_at h v.
Proof.
  intros He. destruct v; simpl; try done. intros [d Hd]. rewrite Hd.
  by rewrite (extends_lookup _ _ _ _ He Hd).
Qed.

(** The thunk of the merge of the definitions [t1] and [t2]: it holds the merge
    of the two saturated definitions and depends on what either depends on. *)
Definition merge_thunk (l : MergeLabel) (names : list Ident) (h h' : Heap)
    (t1 t2 v : NickelValue) : Prop :=
  ∃ t s1 s2 d, v = VThunk t ∧ thunks h !! t = None ∧ thunks h' !! t = Some d ∧
    saturated_to names h h' t1 s1 ∧ saturated_to names h h' t2 s2 ∧
    closure_or_orig d = to_closure (VTerm (TOp2 (MergeOp l) s1 s2)) ∧
    data_deps d = deps_union (deps_at h t1) (deps_at h t2) ∧
    state d = Suspended ∧ locked d = false.

Lemma deps_is_empty_spec d : deps_is_empty d = true → d = deps_empty.
Proof. destruct d; simpl; [|done]. intros He%bool_decide_eq_true. by rewrite He. Qed.

Lemma fields_merge_closurize_adds l names t1 t2 h Q :
  heap_ok h → value_ok h t1 → value_ok h t2 →
  (∀ v h', extends h h' → merge_thunk l names h h' t1 t2 v → Q v h') →
  wp (fields_merge_closurize l t1 t2 names) Q h.
Proof.
  intros Hok H1 H2 HQ. unfold fields_merge_closurize.
  apply wp_bind, field_deps_wp; [done|]. apply wp_bind, field_deps_wp; [done|].
  apply wp_bind, saturate_adds; [done|done|]. intros s1 h1 He1 Hs1.
  apply wp_bind, saturate_adds; [by eapply extends_ok|by eapply value_ok_mono|].
  intros s2 h2 He2 Hs2. set (dps := deps_union _ _).
  assert (He : extends h h2) by by eapply extends_trans.
  assert (Hok2 : heap_ok h2) by by eapply extends_ok.
  assert (Hadd : ∃ d, add (to_closure (VTerm (TOp2 (MergeOp l) s1 s2))) (Revertible dps) = alloc d
      ∧ closure_or_orig d = to_closure (VTerm (TOp2 (MergeOp l) s1 s2))
      ∧ data_deps d = dps ∧ state d = Suspended ∧ locked d = false).
  { simpl. unfold thunk_new_rev. destruct (deps_is_empty dps) eqn:Hd; eexists; split_and!; try done.
    by rewrite (deps_is_empty_spec _ Hd). }
  destruct Hadd as (d & -> & Hd1 & Hd2 & Hd3 & Hd4).
  apply wp_bind, wp_alloc, wp_ret, HQ.
  { eapply extends_trans; [done|by apply extends_alloc]. }
  exists (next h2), s1, s2, d. split_and!; try done.
  - eapply extends_fresh; [exact He|]. by apply Hok2.
  - simpl. by rewrite lookup_insert_eq.
  - eapply saturated_to_mono; [by apply extends_refl| |done|exact Hs1].
    eapply extends_trans; [exact He2|by apply extends_alloc].
  - eapply saturated_to_mono; [exact He1|by apply extends_alloc|done|exact Hs2].
Qed.

(** What the merge of two optional definitions is. *)
Definition merged_value (l : MergeLabel) (names : list Ident) (h h' : Heap)
    (o1 o2 : option NickelValue) (p1 p2 : MergePriority)
    (r : option NickelValue * MergePriority) : Prop :=
  match o1, o2 with
  | None, None => r = (None, Neutral)
  | Some t1, None => ∃ v, r = (Some v, p1) ∧ reverted_to h h' t1 v
  | None, Some t2 => ∃ v, r = (Some v, p2) ∧ reverted_to h h' t2 v
  | Some t1, Some t2 =>
      match priority_cmp p1 p2 with
      | Gt => ∃ v, r = (Some v, p1) ∧ reverted_to h h' t1 v
      | Lt => ∃ v, r = (Some v, p2) ∧ reverted_to h h' t2 v
      | Eq => ∃ v, r = (Some v, p1) ∧ merge_thunk l names h h' t1 t2 v
      end
  end.

Lemma merge_values_select l o1 o2 p1 p2 names :
  merge_values l o1 o2 p1 p2 names =
  match o1, o2 with
  | Some t1, Some t2 =>
      match select p1 p2 with
      | Some Both => v ← fields_merge_closurize l t1 t2 names; mret (Some v, p1)
      | Some First => v ← revert_closurize t1; mret (Some v, p1)
      | Some Second => v ← revert_closurize t2; mret (Some v, p2)
      | None => lift Panic
      end
  | Some t1, None => v ← revert_closurize t1; mret (Some v, p1)
  | None, Some t2 => v ← revert_closurize t2; mret (Some v, p2)
  | None, None => mret (None, Neutral)
  end.
Proof.
  unfold merge_values, select. destruct o1, o2; try done.
  destruct (priority_eq p1 p2); [done|]. destruct (priority_gt p1 p2); [done|].
  by destruct (priority_gt p2 p1).
Qed.

Lemma merge_values_wp l o1 o2 p1 p2 names h Q :
  heap_ok h → from_option (value_ok h) True o1 → from_option (value_ok h) True o2 →
  (∀ r h', extends h h' → merged_value l names h h' o1 o2 p1 p2 r → Q r h') →
  wp (merge_values l o1 o2 p1 p2 names) Q h.
Proof.
  intros Hok H1 H2 HQ. rewrite merge_values_select. unfold merged_value in HQ.
  destruct o1 as [t1|], o2 as [t2|]; simpl in *.
  - rewrite select_cmp. destruct (priority_cmp p1 p2).
    + apply wp_bind, fields_merge_closurize_adds; [done..|]. eauto using wp_ret.
    + apply wp_bind, revert_adds; [done..|]. eauto using wp_ret.
    + apply wp_bind, revert_adds; [done..|]. eauto using wp_ret.
  - apply wp_bind, revert_adds; [done..|]. eauto using wp_ret.
  - apply wp_bind, revert_adds; [done..|]. eauto using wp_ret.
  - apply wp_ret, HQ; [by apply extends_refl|done].
Qed.

Lemma merge_thunk_mono l names h0 h h' h1 t1 t2 v :
  extends h0 h → extends h' h1 → value_ok h0 t1 → value_ok h0 t2 →
  merge_thunk l names h h' t1 t2 v → merge_thunk l names h0 h1 t1 t2 v.
Proof.
  intros He0 He1 H1 H2 (t & s1 & s2 & d & -> & Hf & Hd & Hs1 & Hs2 & Hc & Hdeps & Hst & Hlk).
  rewrite (deps_at_mono _ _ _ He0 H1), (deps_at_mono _ _ _ He0 H2) in Hdeps.
  exists t, s1, s2, d. split_and!; try done.
  - by eapply extends_fresh.
  - by eapply extends_lookup.
  - by eapply saturated_to_mono.
  - by eapply saturated_to_mono.
Qed.

Lemma merged_value_mono l names h0 h h' h1 o1 o2 p1 p2 r :
  extends h0 h → extends h' h1 →
  from_option (value_ok h0) True o1 → from_option (value_ok h0) True o2 →
  merged_value l names h h' o1 o2 p1 p2 r → merged_value l names h0 h1 o1 o2 p1 p2 r.
Proof.
  intros He0 He1 H1 H2 Hm. unfold merged_value in *. destruct o1, o2; simpl in *;
    [destruct (priority_cmp p1 p2)|..|done]; destruct Hm as (v & -> & Hv); exists v;
    (split; [done|]); [by eapply merge_thunk_mono|by eapply reverted_to_mono..].
Qed.

Section fields.
Context (contract_eq : Heap → NickelValue → Environment → NickelValue → Environment → bool).
Context (type_eq_noenv : Heap → Typ → Typ → bool).

(** [f] is the merge of the fields [f1] and [f2]: one definition or the merge of
    both by their priorities; metadata put together, optional only if both are;
    the contracts of both put back to their original expressions and listed
    without those of the second that equal one of the first. *)
Definition merged_field (l : MergeLabel) (names : list Ident) (h h' : Heap)
    (f1 f2 f : Field) : Prop :=
  let m1 := into_inner (metadata f1) in
  let m2 := into_inner (metadata f2) in
  ∃ r pending1 pending2 hc,
    merged_value l names h h' (value f1) (value f2) (priority m1) (priority m2) r ∧
    value f = r.1 ∧
    into_inner (metadata f) =
      mkFieldMetadata (merge_doc (doc m1) (doc m2))
        (annot_combine_dedup (type_eq_noenv hc) (annotation m1) (annotation m2))
        (opt m1 && opt m2) (not_exported m1 || not_exported m2) r.2 ∧
    Forall2 (reverted_contract h h') (pending_contracts f1) pending1 ∧
    Forall2 (reverted_contract h h') (pending_contracts f2) pending2 ∧
    extends h hc ∧ extends hc h' ∧
    pending_contracts f = combine_dedup (contract_eq hc) pending1 ∅ pending2 ∅.

Lemma merge_fields_wp l f1 f2 names h Q :
  heap_ok h → field_ok h f1 → field_ok h f2 →
  (∀ f h', extends h h' → merged_field l names h h' f1 f2 f → Q f h') →
  wp (merge_fields contract_eq type_eq_noenv l f1 f2 names) Q h.
Proof.
  intros Hok [Hv1 Hp1] [Hv2 Hp2] HQ. unfold merge_fields.
  apply wp_bind, merge_values_wp; [done..|]. intros [v prio] ha Hea Hm.
  apply wp_bind, revert_contracts_adds; [by eapply extends_ok| |].
  { eapply Forall_impl; [done|]. intros. by eapply value_ok_mono. }
  intros pend1 hb Heb Hr1. assert (Hab : extends h hb) by by eapply extends_trans.
  apply wp_bind, revert_contracts_adds; [by eapply extends_ok| |].
  { eapply Forall_impl; [exact Hp2|]. intros. by eapply value_ok_mono. }
  intros pend2 hc Hec Hr2. assert (Hac : extends h hc) by by eapply extends_trans.
  apply HQ; [done|].
  assert (Hcc : extends hc hc) by (by apply extends_refl; eapply extends_ok).
  exists (v, prio), pend1, pend2, hc. simpl. split_and!; try done.
  - eapply merged_value_mono; [by apply extends_refl| |done|done|exact Hm].
    by eapply extends_trans.
  - apply into_inner_to_shared.
  - by apply (reverted_contracts_mono h ha hb hc).
  - by apply (reverted_contracts_mono h hb hc hc).
Qed.

Lemma merged_field_mono l names h0 h h' h1 f1 f2 f :
  extends h0 h → extends h' h1 → field_ok h0 f1 → field_ok h0 f2 →
  merged_field l names h h' f1 f2 f → merged_field l names h0 h1 f1 f2 f.
Proof.
  intros He0 He1 [Hv1 Hp1] [Hv2 Hp2] (r & c1 & c2 & hc & Hr & Hv & Hm & Hc1 & Hc2 & Ha & Hb & Hp).
  exists r, c1, c2, hc. split_and!; try done.
  - by eapply merged_value_mono.
  - by eapply reverted_contracts_mono.
  - by eapply reverted_contracts_mono.
  - by eapply extends_trans.
  - by eapply extends_trans.
Qed.

(** ** Merging two records *)

Context `{IndexMapLaws Ident}.

(** The content of the field [id] of the merged record. *)
Definition merged_entry (l : MergeLabel) (names : list Ident) (h h' : Heap)
    (r1 r2 : RecordData) (m : IndexMap Ident Field) (id : Ident) : Prop :=
  match im_get (fields r1) id, im_get (fields r2) id with
  | None, None => im_get m id = None
  | Some f1, None => ∃ f, im_get m id = Some f ∧ reverted_field h h' f1 f
  | None, Some f2 => ∃ f, im_get m id = Some f ∧ reverted_field h h' f2 f
  | Some f1, Some f2 => ∃ f, im_get m id = Some f ∧ merged_field l names h h' f1 f2 f
  end.

Lemma Forall2_keys {A B} (R : A → B → Prop) (l : IndexMap Ident A) (l' : IndexMap Ident B) :
  Forall2 (entry_rel R) l l' → keys l' = keys l.
Proof. unfold keys. induction 1 as [|? ? ? ? [Hk _]]; csimpl; congruence. Qed.

Lemma Forall2_entry {A B} (R : A → B → Prop) (l : IndexMap Ident A) (l' : IndexMap Ident B) id a :
  Forall2 (entry_rel R) l l' → (id, a) ∈ l → ∃ b, (id, b) ∈ l' ∧ R a b.
Proof.
  intros Hall Hin. apply list_elem_of_lookup in Hin as [i Hi].
  destruct (Forall2_lookup_l _ _ _ _ _ Hall Hi) as ([id' b] & Hb & [Hk HR]). simpl in *.
  subst id'. exists b. split; [|done]. apply list_elem_of_lookup. eauto.
Qed.

Lemma split_ok_get (r1 r2 : RecordData) (s : SplitResult Ident Field Field) id :
  im_ok (fields r1) → im_ok (fields r2) → split_ok (fields r1) (fields r2) s →
  match im_get (fields r1) id, im_get (fields r2) id with
  | None, None => id ∉ keys (left s) ∧ id ∉ keys (center s) ∧ id ∉ keys (right s)
  | Some f1, None => (id, f1) ∈ left s
  | None, Some f2 => (id, f2) ∈ right s
  | Some f1, Some f2 => (id, (f1, f2)) ∈ center s
  end.
Proof.
  intros Hok1 Hok2 (_ & _ & _ & Hl & Hc & Hr).
  destruct (im_get (fields r1) id) as [f1|] eqn:H1, (im_get (fields r2) id) as [f2|] eqn:H2.
  - apply im_get_elem in H1, H2; [|done..]. by apply Hc.
  - apply im_get_elem in H1; [|done]. apply im_get_none in H2; [|done]. by apply Hl.
  - apply im_get_elem in H2; [|done]. apply im_get_none in H1; [|done]. by apply Hr.
  - apply im_get_none in H1, H2; [|done..]. rewrite !elem_of_keys. split_and!.
    + intros (v & Hv). apply Hl in Hv as [Hv _]. apply H1, elem_of_keys. eauto.
    + intros ([v1 v2] & Hv). apply Hc in Hv as [Hv _]. apply H1, elem_of_keys. eauto.
    + intros (v & Hv). apply Hr in Hv as [Hv _]. apply H2, elem_of_keys. eauto.
Qed.

(** The three parts have no key in common. *)
Lemma split_ok_disjoint (m1 m2 : IndexMap Ident Field) s :
  split_ok m1 m2 s → NoDup (keys (left s) ++ keys (right s) ++ keys (center s)).
Proof.
  intros (Hol & Hoc & Hor & Hl & Hc & Hr).
  assert (HL : ∀ k, k ∈ keys (left s) → k ∈ keys m1 ∧ k ∉ keys m2).
  { intros k (v & Hv)%elem_of_keys. apply Hl in Hv as [Hv ?]. split; [|done].
    apply elem_of_keys. eauto. }
  assert (HR : ∀ k, k ∈ keys (right s) → k ∈ keys m2 ∧ k ∉ keys m1).
  { intros k (v & Hv)%elem_of_keys. apply Hr in Hv as [Hv ?]. split; [|done].
    apply elem_of_keys. eauto. }
  assert (HC : ∀ k, k ∈ keys (center s) → k ∈ keys m1 ∧ k ∈ keys m2).
  { intros k ([v1 v2] & Hv)%elem_of_keys. apply Hc in Hv as [??].
    split; apply elem_of_keys; eauto. }
  apply NoDup_app. split_and!; [done| |].
  - intros k Hk. rewrite elem_of_app. intros [Hk'|Hk']; [apply HR in Hk'|apply HC in Hk'];
      apply HL in Hk; naive_solver.
  - apply NoDup_app. split_and!; [done| |done]. intros k Hk Hk'. apply HR in Hk.
    apply HC in Hk'. naive_solver.
Qed.

(** The merge of the fields that are in both records. *)
Lemma merge_center_adds l names :
  adds (λ h, Forall (λ p : Ident * (Field * Field), field_ok h p.2.1 ∧ field_ok h p.2.2))
       (λ h h', Forall2 (entry_rel (λ ff f, merged_field l names h h' ff.1 ff.2 f)))
       (mapM (λ p : Ident * (Field * Field),
          f ← merge_fields contract_eq type_eq_noenv l p.2.1 p.2.2 names; mret (p.1, f))).
Proof.
  apply (adds_mapM (λ h (p : Ident * (Field * Field)), field_ok h p.2.1 ∧ field_ok h p.2.2)
    (λ h h', entry_rel (λ ff f, merged_field l names h h' ff.1 ff.2 f))).
  - split.
    + intros h h' p He [H1 H2]. split; by eapply field_ok_mono.
    + intros h0 h h' h1 p q He0 He1 [H1 H2] [Hk Hm]. split; [done|]. by eapply merged_field_mono.
  - intros [k [f1 f2]] h Q Hok [H1 H2] HQ. apply wp_bind, merge_fields_wp; [done..|].
    intros f h' He Hm. apply wp_ret, HQ; [done|]. by split.
Qed.

Lemma merge_parts_wp l (r1 r2 : RecordData) s h Q :
  heap_ok h → record_ok h r1 → record_ok h r2 → split_ok (fields r1) (fields r2) s →
  (∀ m h', extends h h' → im_ok m → keys m ≡ₚ keys (left s) ++ keys (right s) ++ keys (center s) →
     (∀ id, merged_entry l (keys (left s) ++ keys (center s) ++ keys (right s)) h h' r1 r2 m id) →
     Q m h') →
  wp (merge_parts contract_eq type_eq_noenv l s) Q h.
Proof.
  intros Hok [Hok1 Hf1] [Hok2 Hf2] Hs HQ. rewrite Forall_forall in Hf1, Hf2.
  pose proof Hs as (_ & _ & _ & Hl & Hc & Hr). unfold merge_parts.
  set (names := keys (left s) ++ keys (center s) ++ keys (right s)) in *.
  apply wp_bind, revert_fields_adds; [done| |].
  { apply Forall_forall. intros [k f] Hin. apply Hl in Hin as [Hin _]. by apply (Hf1 (k, f)). }
  intros ml ha Hea Hml. apply wp_bind, revert_fields_adds; [by eapply extends_ok| |].
  { apply Forall_forall. intros [k f] Hin. apply Hr in Hin as [Hin _].
    eapply field_ok_mono; [done|]. by apply (Hf2 (k, f)). }
  intros mr hb Heb Hmr. assert (Hab : extends h hb) by by eapply extends_trans.
  apply wp_bind, (merge_center_adds l names); [by eapply extends_ok| |].
  { apply Forall_forall. intros [k [f1 f2]] Hin. apply Hc in Hin as [Hin1 Hin2].
    split; (eapply field_ok_mono; [done|]); [by apply (Hf1 (k, f1))|by apply (Hf2 (k, f2))]. }
  intros mc hc Hec Hmc. assert (Hac : extends h hc) by by eapply extends_trans.
  assert (Hcc : extends hc hc) by (by apply extends_refl; eapply extends_ok).
  assert (Hbc : extends hb hb) by (by apply extends_refl; eapply extends_ok).
  pose proof (Forall2_keys _ _ _ Hml) as Kl. pose proof (Forall2_keys _ _ _ Hmr) as Kr.
  pose proof (Forall2_keys _ _ _ Hmc) as Kc.
  pose proof (split_ok_disjoint _ _ _ Hs) as Hnd.
  assert (Hm : im_extend (im_extend (im_extend [] ml) mr) mc = ml ++ mr ++ mc).
  { rewrite <- Kl, <- Kr, <- Kc in Hnd.
    apply NoDup_app in Hnd as (Hnl & Hd1 & Hnrc). apply NoDup_app in Hnrc as (Hnr & Hd2 & Hnc).
    rewrite im_extend_collect by done. rewrite (im_extend_disjoint ml mr); [|done|].
    - rewrite im_extend_disjoint; [by rewrite <- app_assoc|done|].
      intros k Hk. rewrite keys_app, not_elem_of_app. split; [|by intros ?; eapply Hd2].
      intros Hk'. apply (Hd1 k Hk'). rewrite elem_of_app. by right.
    - intros k Hk Hk'. apply (Hd1 k Hk'). rewrite elem_of_app. by left. }
  rewrite Hm.
  assert (Hokm : im_ok (ml ++ mr ++ mc)).
  { unfold im_ok. by rewrite !keys_app, Kl, Kr, Kc. }
  apply wp_ret, HQ; [done|done| |].
  { by rewrite !keys_app, Kl, Kr, Kc. }
  intros id. unfold merged_entry. pose proof (split_ok_get r1 r2 s id Hok1 Hok2 Hs) as Hget.
  destruct (im_get (fields r1) id) as [f1|] eqn:G1, (im_get (fields r2) id) as [f2|] eqn:G2.
  - destruct (Forall2_entry _ _ _ _ _ Hmc Hget) as (f & Hin & Hrel).
    exists f. split; [apply im_get_elem; [done|]; set_solver|].
    apply im_get_elem in G1, G2; [|done..].
    apply (merged_field_mono l names h hb hc hc); [done|done| | |done].
    + by apply (Hf1 (id, f1)).
    + by apply (Hf2 (id, f2)).
  - destruct (Forall2_entry _ _ _ _ _ Hml Hget) as (f & Hin & Hrel).
    exists f. split; [apply im_get_elem; [done|]; set_solver|].
    apply im_get_elem in G1; [|done].
    apply (proj2 field_stable h h ha hc); [by apply extends_refl|by eapply extends_trans| |done].
    by apply (Hf1 (id, f1)).
  - destruct (Forall2_entry _ _ _ _ _ Hmr Hget) as (f & Hin & Hrel).
    exists f. split; [apply im_get_elem; [done|]; set_solver|].
    apply im_get_elem in G2; [|done].
    apply (proj2 field_stable h ha hb hc); [done|done| |done]. by apply (Hf2 (id, f2)).
  - apply im_get_none; [done|]. rewrite !keys_app, Kl, Kr, Kc. set_solver.
Qed.

End fields.

(** ** The properties *)

(** Splitting two records partitions their fields: the left part has the
    fields of the first that the second has not, the right part those of the
    second that the first has not, the centre the fields of both with the two
    contents paired in order, whichever of the two maps is cloned; [split] and
    [split_ref] agree on this. *)
Theorem split_partitions `{IndexMapLaws K} {V1 V2} (m1 : IndexMap K V1) (m2 : IndexMap K V2)
    (s : SplitResult K V1 V2)
    (Hok1 : im_ok m1) (Hok2 : im_ok m2) (Hs : s = split_ref m1 m2 ∨ s = split m1 m2) :
  im_ok (left s) ∧ im_ok (center s) ∧ im_ok (right s) ∧
  (∀ k v, (k, v) ∈ left s ↔ (k, v) ∈ m1 ∧ k ∉ keys m2) ∧
  (∀ k v1 v2, (k, (v1, v2)) ∈ center s ↔ (k, v1) ∈ m1 ∧ (k, v2) ∈ m2) ∧
  (∀ k v, (k, v) ∈ right s ↔ (k, v) ∈ m2 ∧ k ∉ keys m1).
Proof. destruct Hs as [-> | ->]; [by apply split_ref_ok|by apply split_ok_fun]. Qed.

Lemma split_partitions_witness :
  let m1 : IndexMap nat nat := [(1, 10); (2, 20); (3, 30)] in
  let m2 : IndexMap nat nat := [(2, 200); (4, 400)] in
  let s := split_ref m1 m2 in
  s = mkSplit [(1, 10); (3, 30)] [(2, (20, 200))] [(4, 400)] ∧
  im_ok (left s) ∧ im_ok (center s) ∧ im_ok (right s) ∧
  (∀ k v, (k, v) ∈ left s ↔ (k, v) ∈ m1 ∧ k ∉ keys m2) ∧
  (∀ k v1 v2, (k, (v1, v2)) ∈ center s ↔ (k, v1) ∈ m1 ∧ (k, v2) ∈ m2) ∧
  (∀ k v, (k, v) ∈ right s ↔ (k, v) ∈ m2 ∧ k ∉ keys m1).
Proof.
  intros m1 m2 s. split; [reflexivity|].
  apply (split_partitions m1 m2 s); [| |by left];
    apply (bool_decide_unpack (NoDup (keys _))); vm_compute; exact I.
Defined.

(** * What merging computes

    The properties of [merge_fields] and [merge] that the lemmas of
    [MergeProperties.v] give: every run succeeds on values without dangling
    thunks, only adds blocks to the store, and has the result that the
    documentation of merging promises. *)

Lemma wp_exists {A} (m : M A) (Q : A → Heap → Prop) h :
  wp m Q h → ∃ a h', m h = Done (a, h') ∧ Q a h'.
Proof. unfold wp. destruct (m h) as [[a h']| |]; [eauto|done|done]. Qed.

Lemma bind_run {A B} (m : M A) (f : A → M B) h a h' :
  m h = Done (a, h') → (m ≫= f) h = f a h'.
Proof. intros Hm. unfold mbind, M_bind. by rewrite Hm. Qed.

Section properties.
Context (label_eq : Label → Label → bool).
Context (contract_eq : Heap → NickelValue → Environment → NickelValue → Environment → bool).
Context (type_eq_noenv : Heap → Typ → Typ → bool).



(** Applying a record contract by merging: when the contract is closed and
    the value has fields the contract does not list, the result is ['Error] with
    a message naming exactly those fields, and nothing else happens; a record
    with a sealed tail, on either side, is never merged. *)
Theorem merge_rejects `{IndexMapLaws Ident} (r1 r2 : RecordData) (env1 env2 : Environment)
    (mode : MergeMode) (lbl : Label) (tail : SealedTail) (h : Heap)
    (Hok1 : im_ok (fields r1)) (Hok2 : im_ok (fields r2)) :
  (sealed_tail r1 = None → sealed_tail r2 = None → open (attrs r2) = false →
   (∃ id, id ∈ keys (fields r1) ∧ id ∉ keys (fields r2)) →
   ∃ names, names ≠ [] ∧ NoDup names ∧
     (∀ id, id ∈ names ↔ id ∈ keys (fields r1) ∧ id ∉ keys (fields r2)) ∧
     merge label_eq contract_eq type_eq_noenv (VRecord (Alloc r1)) env1 (VRecord (Alloc r2)) env2
       (ModeContract lbl) h = Done (Ok (to_closure (extra_fields_error names)), h)) ∧
  (sealed_tail r1 = Some tail ∨ sealed_tail r1 = None ∧ sealed_tail r2 = Some tail →
   arg_idx (tail_label tail) = None →
   merge label_eq contract_eq type_eq_noenv (VRecord (Alloc r1)) env1 (VRecord (Alloc r2)) env2
     mode h = Done (Err (IllegalPolymorphicTailAccess TailMerge None (tail_label tail)), h)).
Proof.
  split.
  - intros Ht1 Ht2 Hopen (id & Hin & Hnin).
    set (s := split_ref (fields r1) (fields r2)).
    assert (Hs : split_ok (fields r1) (fields r2) s) by by apply split_ref_ok.
    destruct Hs as (Hol & _ & _ & Hl & _).
    assert (Hkeys : ∀ id, id ∈ keys (left s) ↔ id ∈ keys (fields r1) ∧ id ∉ keys (fields r2)).
    { intros id'. rewrite (elem_of_keys (left s)), (elem_of_keys (fields r1)).
      setoid_rewrite Hl. naive_solver. }
    exists (keys (left s)). split_and!; [|done|done|].
    + intros Hnil. assert (Hid : id ∈ keys (left s)) by by apply Hkeys.
      rewrite Hnil in Hid. by apply not_elem_of_nil in Hid.
    + unfold merge, merge_content, merge_records. rewrite Ht1, Ht2, Hopen.
      cbn [or_else wraps_in_ok]. fold s.
      assert (Hlen : length (left s) =? 0 = false).
      { destruct (left s) as [|p l] eqn:Hls; [|done].
        assert (Hid : id ∈ keys ([] : IndexMap Ident Field)) by by apply Hkeys.
        by apply not_elem_of_nil in Hid. }
      rewrite Hlen. done.
  - intros Htail Harg. unfold merge, merge_content, merge_records.
    assert (Hor : or_else (sealed_tail r1) (sealed_tail r2) = Some tail).
    { destruct Htail as [-> |[-> ->]]; done. }
    rewrite Hor. unfold get_evaluated_arg. by rewrite Harg.
Qed.

(** The values on which merging is a test of equality. *)
Definition basic (v : NickelValue) : bool :=
  match v with
  | VNull | VBool _ | VNumber _ | VString _ => true
  | VEnumVariant _ arg => match arg with None => true | Some _ => false end
  | _ => false
  end.

(** Merging two basic values (null, booleans, numbers, strings, enum tags)
    gives their common value when they are equal and the error naming both when
    they are not; the empty record is neutral on both sides, for every record;
    a function merges with nothing, and a basic value with no record. Nothing
    is allocated. *)
Theorem merge_basic_values `{IndexMapOps Ident} (v1 v2 : NickelValue) (env1 env2 : Environment)
    (l : MergeLabel) (c : Container RecordData) (h : Heap)
    (Hv1 : basic v1 = true) (Hv2 : basic v2 = true) :
  let run a b := merge label_eq contract_eq type_eq_noenv a env1 b env2 (ModeStandard l) h in
  (v1 = v2 → run v1 v2 = Done (Ok (to_closure v1), h)) ∧
  (v1 ≠ v2 → run v1 v2 = Done (Err (MergeIncompatibleArgs v1 v2 l), h)) ∧
  run (VRecord Empty) (VRecord c) = Done (Ok (to_closure (VRecord c)), h) ∧
  run (VRecord c) (VRecord Empty) = Done (Ok (to_closure (VRecord c)), h) ∧
  (∀ v arg body, run (VTerm (TFun arg body)) v
     = Done (Err (MergeIncompatibleArgs (VTerm (TFun arg body)) v l), h)) ∧
  run v1 (VRecord c) = Done (Err (MergeIncompatibleArgs v1 (VRecord c) l), h).
Proof.
  intros run. subst run. split_and!.
  - intros <-. destruct v1 as [|b|n| | |str| | | |tag [arg|]| | | |]; try done;
      unfold merge, merge_content, mbind, M_bind, mret, M_ret; simpl;
      rewrite ?bool_decide_eq_true_2 by done; try done. by rewrite Bool.eqb_reflx.
  - intros Hne. destruct v1 as [|b|n| | |str| | | |tag [arg|]| | | |], v2 as [|b'|n'| | |str'| | | |tag' [arg'|]| | | |];
      try done; unfold merge, merge_content, mbind, M_bind, mret, M_ret; simpl; try done;
      try (rewrite bool_decide_eq_false_2 by congruence; done).
    destruct b, b'; simpl; congruence.
  - by destruct c.
  - by destruct c.
  - intros v arg body. by destruct v as [| | |[]|[]| | | | |? []| | | |].
  - by destruct v1 as [|b|n| | |str| | | |tag [arg|]| | | |], c.
Qed.

End properties.

(** ** Examples *)

(** The record [{a = 1, b | default = a}] and the record [{a = 1, b = 2}] as
    evaluation leaves them: [b] of the first depends on [a]. *)
Definition one : NickelValue := VNumber 1%Qc.
Definition two : NickelValue := VNumber (1 + 1)%Qc.

Definition default_metadata : SharedMetadata :=
  to_shared (mkFieldMetadata None annot_default false false Bottom).

Definition record_ab : RecordData :=
  mkRecordData [(ident "a", field_from_value one);
                (ident "b", mkField (Some (VThunk 0)) default_metadata [])] attrs_default None.

Definition record_b : RecordData :=
  mkRecordData [(ident "b", field_from_value two)] attrs_default None.

Definition heap_ab : Heap :=
  mkHeap {[ 0 := data_new_rev (to_closure (VTerm (TVar "a"))) (Known {[ ident "a" ]}) ]} 1.

Lemma heap_ab_ok : heap_ok heap_ab.
Proof. intros [|t] Ht; simpl in *; [lia|]. by rewrite lookup_singleton_ne. Qed.

Lemma record_ab_ok : record_ok heap_ab record_ab ∧ record_ok heap_ab record_b.
Proof.
  split; (split; [apply (bool_decide_unpack (NoDup (keys _))); vm_compute; exact I|]);
    repeat constructor. vm_compute. eauto.
Qed.

Definition no_eq : Heap → NickelValue → Environment → NickelValue → Environment → bool :=
  λ _ _ _ _ _, false.



Lemma merge_rejects_witness :
  let tail := mkSealedTail 0%Z label_default VNull [] in
  ∃ names, names ≠ [] ∧ NoDup names ∧
    (∀ id, id ∈ names ↔ id ∈ keys (fields record_ab) ∧ id ∉ keys (fields record_b)) ∧
    merge (λ _ _, false) no_eq (λ _ _ _, false) (VRecord (Alloc record_ab)) ∅
      (VRecord (Alloc record_b)) ∅ (ModeContract label_default) heap_ab
    = Done (Ok (to_closure (extra_fields_error names)), heap_ab).
Proof.
  intros tail.
  refine (proj1 (merge_rejects (λ _ _, false) no_eq (λ _ _ _, false) record_ab record_b ∅ ∅
    (ModeContract label_default) label_default tail heap_ab _ _) eq_refl eq_refl eq_refl _).
  - apply record_ab_ok.
  - apply record_ab_ok.
  - exists (ident "a"). split; [apply (bool_decide_unpack _); vm_compute; exact I|].
    apply (bool_decide_unpack _). vm_compute. exact I.
Defined.

Lemma merge_basic_values_witness :
  let run a b := merge (λ _ _, false) no_eq (λ _ _ _, false) a ∅ b ∅
                   (ModeStandard (mkMergeLabel MergeStandard)) heap_empty in
  (one ≠ two → run one two
     = Done (Err (MergeIncompatibleArgs one two (mkMergeLabel MergeStandard)), heap_empty)) ∧
  run (VRecord Empty) (VRecord (Alloc record_b))
    = Done (Ok (to_closure (VRecord (Alloc record_b))), heap_empty).
Proof.
  destruct (merge_basic_values (λ _ _, false) no_eq (λ _ _ _, false) one two ∅ ∅
    (mkMergeLabel MergeStandard) (Alloc record_b) heap_empty eq_refl eq_refl)
    as (_ & Hne & He & _).
  split; [exact Hne|exact He].
Defined.
