(* ===== verification/Lowering.v ===== *)
(** * From the syntax tree to terms ([core/src/ast/compat.rs])

    The lowering ([FromAst]) of the syntax tree of the parser to the terms that the
    machine evaluates: functions of several arguments and destructuring become
    unary functions and lets, the pieces of a field are put together, match
    expressions are compiled, and containers are wrapped in [Closurize].

    The [unwrap] on a field path, the indexing of the arguments of an operator and
    the unbound variables of a pattern annotation are panics. *)
From S2P Require Import Prelude IndexMap Values Records Make Ast Pattern TypeContracts Merge.

(** ** Operators *)

Inductive TermPrimOp : Type := TUnary (op : UnaryOp) | TBinary (op : BinaryOp) | TNAry (op : NAryOp).

(** [FromAst<PrimOp> for TermPrimOp] *)
Definition lower_op (op : PrimOp) : TermPrimOp :=
  match op with
  | PTypeof => TUnary Typeof | PCast => TUnary Cast | PBoolAnd => TUnary BoolAnd
  | PBoolOr => TUnary BoolOr | PBoolNot => TUnary BoolNot | PBlame => TUnary Blame
  | PEnumEmbed id => TUnary (EnumEmbed id)
  | PRecordStatAccess id => TUnary (RecordAccess id)
  | PArrayMap => TUnary ArrayMap | PRecordMap => TUnary RecordMap
  | PLabelFlipPol => TUnary LabelFlipPol | PLabelPol => TUnary LabelPol
  | PLabelGoDom => TUnary LabelGoDom | PLabelGoCodom => TUnary LabelGoCodom
  | PLabelGoArray => TUnary LabelGoArray | PLabelGoDict => TUnary LabelGoDict
  | PSeq => TUnary Seq | PDeepSeq => TUnary DeepSeq | PArrayLength => TUnary ArrayLength
  | PArrayGen => TUnary ArrayGen
  | PRecordFields k => TUnary (RecordFields k)
  | PRecordValues => TUnary RecordValues | PStringTrim => TUnary StringTrim
  | PStringChars => TUnary StringChars | PStringUppercase => TUnary StringUppercase
  | PStringLowercase => TUnary StringLowercase | PStringLength => TUnary StringLength
  | PToString => TUnary ToString | PNumberFromString => TUnary NumberFromString
  | PEnumFromString => TUnary EnumFromString | PStringIsMatch => TUnary StringIsMatch
  | PStringFind => TUnary StringFind | PStringFindAll => TUnary StringFindAll
  | PForce i => TUnary (Force i)
  | PRecordEmptyWithTail => TUnary RecordEmptyWithTail | PRecordFreeze => TUnary RecordFreeze
  | PTrace => TUnary Trace | PLabelPushDiag => TUnary LabelPushDiag
  | PEnumGetArg => TUnary EnumGetArg | PEnumMakeVariant => TUnary EnumMakeVariant
  | PEnumIsVariant => TUnary EnumIsVariant | PEnumGetTag => TUnary EnumGetTag
  | PContractCustom => TUnary ContractCustom | PNumberArcCos => TUnary NumberArcCos
  | PNumberArcSin => TUnary NumberArcSin | PNumberArcTan => TUnary NumberArcTan
  | PNumberCos => TUnary NumberCos | PNumberSin => TUnary NumberSin | PNumberTan => TUnary NumberTan
  | PPlus => TBinary Plus | PSub => TBinary Sub | PMult => TBinary Mult | PDiv => TBinary Div
  | PModulo => TBinary Modulo | PNumberArcTan2 => TBinary NumberArcTan2
  | PNumberLog => TBinary NumberLog | PPow => TBinary Pow | PStringConcat => TBinary StringConcat
  | PEq => TBinary Eq_ | PLessThan => TBinary LessThan | PLessOrEq => TBinary LessOrEq
  | PGreaterThan => TBinary GreaterThan | PGreaterOrEq => TBinary GreaterOrEq
  | PContractApply => TBinary ContractApply | PContractCheck => TBinary ContractCheck
  | PLabelWithErrorData => TBinary LabelWithErrorData | PLabelGoField => TBinary LabelGoField
  | PRecordInsert k => TBinary (RecordInsert (Shared None) [] WithValue k)
  | PRecordRemove k => TBinary (RecordRemove k)
  | PRecordGet => TBinary RecordGet
  | PRecordHasField k => TBinary (RecordHasField k)
  | PRecordFieldIsDefined k => TBinary (RecordFieldIsDefined k)
  | PRecordSplitPair => TBinary RecordSplitPair
  | PRecordDisjointMerge => TBinary RecordDisjointMerge
  | PArrayConcat => TBinary ArrayConcat | PArrayAt => TBinary ArrayAt
  | PMerge k => TBinary (MergeOp (mkMergeLabel k))
  | PHash => TBinary Hash | PSerialize => TBinary Serialize | PDeserialize => TBinary Deserialize
  | PStringSplit => TBinary StringSplit | PStringContains => TBinary StringContains
  | PStringCompare => TBinary StringCompare
  | PStringBase64Encode => TBinary StringBase64Encode
  | PStringBase64Decode => TBinary StringBase64Decode
  | PSeal => TBinary Seal | PUnseal => TBinary Unseal
  | PContractArrayLazyApp => TBinary ContractArrayLazyApp
  | PContractRecordLazyApp => TBinary ContractRecordLazyApp
  | PLabelWithMessage => TBinary LabelWithMessage | PLabelWithNotes => TBinary LabelWithNotes
  | PLabelAppendNote => TBinary LabelAppendNote | PLabelLookupTypeVar => TBinary LabelLookupTypeVar
  | PStringReplace => TNAry StringReplace | PStringReplaceRegex => TNAry StringReplaceRegex
  | PStringSubstr => TNAry StringSubstr | PMergeContract => TNAry MergeContract
  | PRecordSealTail => TNAry RecordSealTail | PRecordUnsealTail => TNAry RecordUnsealTail
  | PLabelInsertTypeVar => TNAry LabelInsertTypeVar | PArraySlice => TNAry ArraySlice
  end.

(** [From<&UnaryOp>], [From<&BinaryOp>], [From<&NAryOp>] for [PrimOp]. *)
Definition raise_op1 (op : UnaryOp) : outcome PrimOp :=
  match op with
  | IfThenElse => Panic
  | Typeof => Done PTypeof | Cast => Done PCast | BoolAnd => Done PBoolAnd | BoolOr => Done PBoolOr
  | BoolNot => Done PBoolNot | Blame => Done PBlame
  | EnumEmbed id => Done (PEnumEmbed id)
  | RecordAccess id => Done (PRecordStatAccess id)
  | ArrayMap => Done PArrayMap | RecordMap => Done PRecordMap
  | LabelFlipPol => Done PLabelFlipPol | LabelPol => Done PLabelPol
  | LabelGoDom => Done PLabelGoDom | LabelGoCodom => Done PLabelGoCodom
  | LabelGoArray => Done PLabelGoArray | LabelGoDict => Done PLabelGoDict
  | Seq => Done PSeq | DeepSeq => Done PDeepSeq | ArrayLength => Done PArrayLength
  | ArrayGen => Done PArrayGen
  | RecordFields k => Done (PRecordFields k)
  | RecordValues => Done PRecordValues | StringTrim => Done PStringTrim
  | StringChars => Done PStringChars | StringUppercase => Done PStringUppercase
  | StringLowercase => Done PStringLowercase | StringLength => Done PStringLength
  | ToString => Done PToString | NumberFromString => Done PNumberFromString
  | EnumFromString => Done PEnumFromString | StringIsMatch => Done PStringIsMatch
  | StringFind => Done PStringFind | StringFindAll => Done PStringFindAll
  | Force i => Done (PForce i)
  | RecordEmptyWithTail => Done PRecordEmptyWithTail | RecordFreeze => Done PRecordFreeze
  | Trace => Done PTrace | LabelPushDiag => Done PLabelPushDiag
  | EnumGetArg => Done PEnumGetArg | EnumMakeVariant => Done PEnumMakeVariant
  | EnumIsVariant => Done PEnumIsVariant | EnumGetTag => Done PEnumGetTag
  | ContractCustom => Done PContractCustom | NumberArcCos => Done PNumberArcCos
  | NumberArcSin => Done PNumberArcSin | NumberArcTan => Done PNumberArcTan
  | NumberCos => Done PNumberCos | NumberSin => Done PNumberSin | NumberTan => Done PNumberTan
  | TagsOnlyMatch _ | ChunksConcat | StringIsMatchCompiled _ | StringFindCompiled _
  | StringFindAllCompiled _ | RecDefault | RecForce | ContractPostprocessResult
  | ContractAttachDefaultLabel => Panic
  end.

Definition raise_op2 (op : BinaryOp) : outcome PrimOp :=
  match op with
  | Plus => Done PPlus | Sub => Done PSub | Mult => Done PMult | Div => Done PDiv
  | Modulo => Done PModulo | NumberArcTan2 => Done PNumberArcTan2 | NumberLog => Done PNumberLog
  | Pow => Done PPow | StringConcat => Done PStringConcat | Eq_ => Done PEq
  | LessThan => Done PLessThan | LessOrEq => Done PLessOrEq | GreaterThan => Done PGreaterThan
  | GreaterOrEq => Done PGreaterOrEq | ContractApply => Done PContractApply
  | ContractCheck => Done PContractCheck | LabelWithErrorData => Done PLabelWithErrorData
  | LabelGoField => Done PLabelGoField
  | RecordRemove k => Done (PRecordRemove k)
  | RecordGet => Done PRecordGet
  | RecordHasField k => Done (PRecordHasField k)
  | RecordFieldIsDefined k => Done (PRecordFieldIsDefined k)
  | RecordSplitPair => Done PRecordSplitPair | RecordDisjointMerge => Done PRecordDisjointMerge
  | ArrayConcat => Done PArrayConcat | ArrayAt => Done PArrayAt
  | MergeOp (mkMergeLabel k) => Done (PMerge k)
  | Hash => Done PHash | Serialize => Done PSerialize | Deserialize => Done PDeserialize
  | StringSplit => Done PStringSplit | StringContains => Done PStringContains
  | StringCompare => Done PStringCompare
  | StringBase64Encode => Done PStringBase64Encode | StringBase64Decode => Done PStringBase64Decode
  | ContractArrayLazyApp => Done PContractArrayLazyApp
  | ContractRecordLazyApp => Done PContractRecordLazyApp
  | LabelWithMessage => Done PLabelWithMessage | LabelWithNotes => Done PLabelWithNotes
  | LabelAppendNote => Done PLabelAppendNote | LabelLookupTypeVar => Done PLabelLookupTypeVar
  | Seal => Done PSeal | Unseal => Done PUnseal
  | RecordInsert metadata pending WithValue k =>
      if shared_is_empty metadata && match pending with [] => true | _ => false end then Done (PRecordInsert k) else Panic
  | RecordInsert _ _ WithoutValue _ => Panic
  end.

Definition raise_opn (op : NAryOp) : PrimOp :=
  match op with
  | StringReplace => PStringReplace | StringReplaceRegex => PStringReplaceRegex
  | StringSubstr => PStringSubstr | MergeContract => PMergeContract
  | RecordSealTail => PRecordSealTail | RecordUnsealTail => PRecordUnsealTail
  | LabelInsertTypeVar => PLabelInsertTypeVar | ArraySlice => PArraySlice
  end.

Definition raise_op (op : TermPrimOp) : outcome PrimOp :=
  match op with
  | TUnary op => raise_op1 op
  | TBinary op => raise_op2 op
  | TNAry op => Done (raise_opn op)
  end.

(** ** Pieces of a field *)

Section pieces.
Context `{IndexMapOps Ident}.

Fixpoint foldM_outcome {A B} (f : B → A → outcome B) (b : B) (l : list A) : outcome B :=
  match l with [] => Done b | a :: l' => b' ← f b a; foldM_outcome f b' l' end.

(** The nesting of records in a value, the recursion of the merge of pieces. *)
Fixpoint record_depth (v : NickelValue) : nat :=
  match v with
  | VRecord (Alloc (mkRecordData fs _ _)) =>
      S (fold_right (λ p d, Nat.max (field_depth p.2) d) 0 fs)
  | _ => 0
  end
with field_depth (f : Field) : nat :=
  match f with mkField (Some v) _ _ => record_depth v | mkField None _ _ => 0 end.

(** [merge_values] and [merge_fields] of [compat.rs]. The merge of two records is
    computed when both are record values, a merge operator is left otherwise. *)
Fixpoint merge_pieces (fuel : nat) (field1 field2 : Field) {struct fuel} : outcome Field :=
  let merge_values (v1 v2 : NickelValue) : outcome NickelValue :=
    match v1, v2 with
    | VRecord c1, VRecord c2 =>
        match fuel with
        | 0 => OutOfFuel
        | S fuel =>
            let rd1 := default record_empty (match c1 with Alloc r => Some r | Empty => None end) in
            let rd2 := default record_empty (match c2 with Alloc r => Some r | Empty => None end) in
            let sp := split (fields rd1) (fields rd2) in
            let outer := im_extend (im_extend [] (left sp)) (right sp) in
            fs ←
              foldM_outcome (λ fs p,
                  let '(id, (field1, field2)) := p in
                  f ← merge_pieces fuel field1 field2; Done (im_insert fs id f))
                outer (center sp);
            Done (closurize_term (record_posless
                    (mkRecordData fs (attrs_combine (attrs rd1) (attrs rd2)) None)))
        end
    | _, _ => Done (op2 (MergeOp (mkMergeLabel PiecewiseDef)) v1 v2)
    end in
  let metadata1 := into_inner (metadata field1) in
  let metadata2 := into_inner (metadata field2) in
  let p1 := priority metadata1 in
  let p2 := priority metadata2 in
  '(v, prio) ←
    match value field1, value field2 with
    | Some t1, Some t2 =>
        if priority_eq p1 p2 then v ← merge_values t1 t2; Done (Some v, p1)
        else if priority_gt p1 p2 then Done (Some t1, p1)
        else if priority_gt p2 p1 then Done (Some t2, p2)
        else Panic
    | Some t1, None => Done (Some t1, p1)
    | None, Some t2 => Done (Some t2, p2)
    | None, None => Done (None, Neutral)
    end;
  _ ← assert (bool_decide (length (pending_contracts field1) = 0)
              && bool_decide (length (pending_contracts field2) = 0));
  Done (mkField v
    (to_shared (mkFieldMetadata
      (merge_doc (doc metadata1) (doc metadata2))
      (annot_combine (annotation metadata1) (annotation metadata2))
      (opt metadata1 && opt metadata2)
      (not_exported metadata1 || not_exported metadata2)
      prio)) []).

Definition combine_pieces (field1 field2 : Field) : outcome Field :=
  merge_pieces (S (field_depth field1)) field1 field2.

End pieces.

(** ** Expressions *)

Inductive FieldName : Type := FieldIdent (id : Ident) | FieldExpr (v : NickelValue).

Section lower.
Context `{IndexMapOps Ident, HashOrder}.

(** The parse error that an unbound type variable is turned into. *)
Context (unbound_type_variables : Ident → nat).

(** [insert_static_field] *)
Definition insert_static_field (static_fields : IndexMap Ident Field) (id : Ident) (field : Field)
    : outcome (IndexMap Ident Field) :=
  match im_get static_fields id with
  | Some prev => f ← combine_pieces prev field; Done (im_insert static_fields id f)
  | None => Done (im_insert static_fields id field)
  end.

(** The record of the pieces of a definition: a field known statically, or not. *)
Definition add_definition (acc : IndexMap Ident Field * list (NickelValue * Field))
    (def : FieldName * Field) : outcome (IndexMap Ident Field * list (NickelValue * Field)) :=
  let '(static_fields, dynamic_fields) := acc in
  match def with
  | (FieldIdent id, field) => fs ← insert_static_field static_fields id field; Done (fs, dynamic_fields)
  | (FieldExpr expr, field) =>
      match term_static_str expr with
      | Some s => fs ← insert_static_field static_fields (ident s) field; Done (fs, dynamic_fields)
      | None => Done (static_fields, dynamic_fields ++ [(expr, field)])
      end
  end.

(** One level of a path: the record with the only field [name]. *)
Definition nest_field (name : FieldName) (acc : Field) : Field :=
  let singleton id := field_from_value (closurize_term (mk_record
                        (mkRecordData (im_extend [] [(id, acc)]) attrs_default None))) in
  match name with
  | FieldIdent id => singleton id
  | FieldExpr expr =>
      match term_static_str expr with
      | Some s => singleton (ident s)
      | None => field_from_value (VTerm (TRecRecord
                  (mkRecRecordData record_empty [] [(expr, acc)] None false)))
      end
  end.

(** The application of an operator, with the indexing of its arguments. *)
Definition lower_op_app (op : TermPrimOp) (args : list (Fresh NickelValue)) : Fresh NickelValue :=
  let arg i : Fresh NickelValue := match args !! i with Some m => m | None => fresh_panic end in
  match op with
  | TUnary op => v ← arg 0; mret (op1 op v)
  | TBinary op => v ← arg 0; w ← arg 1; mret (op2 op v w)
  | TNAry op => vs ← mapM id args; mret (opn op vs)
  end.

(** The bindings of a let, when every pattern is a name; the values before the
    first other pattern have been lowered. *)
Fixpoint collect_bindings (bs : list (Pattern * Fresh NickelValue))
    : Fresh (option (list (Ident * NickelValue))) :=
  match bs with
  | [] => mret (Some [])
  | (pattern, value) :: bs' =>
      match pat_data pattern with
      | PatAny id =>
          v ← value;
          r ← collect_bindings bs';
          mret ((λ l, (id, v) :: l) <$> r)
      | _ => mret None
      end
  end.

Definition lower_let (bs : list (Pattern * Part * Fresh NickelValue)) (body : Fresh NickelValue)
    (rec : bool) : Fresh NickelValue :=
  try_bindings ← collect_bindings (map (λ b, (b.1.1, b.2)) bs);
  body ← body;
  match try_bindings with
  | Some l => mret (let_in rec l body)
  | None =>
      bs ← mapM (λ b, v ← b.2; mret (b.1, v)) bs;
      t ← compile_let_pattern bs body rec;
      mret (VTerm t)
  end.

Definition lower_fun (args : list (Pattern * Part)) (body : Fresh NickelValue) : Fresh NickelValue :=
  b ← body;
  foldrM_fresh (λ arg acc,
      match pat_data arg.1 with
      | PatAny id => mret (fn id acc)
      | _ => t ← compile_fun_pattern arg.1 arg.2 acc; mret (VTerm t)
      end) b args.

Definition lower_match (branches : list (Pattern * Part * option (Fresh NickelValue) * Fresh NickelValue))
    : Fresh NickelValue :=
  branches ←
    mapM (λ b, let '(pattern, part, guard, body) := b in
        guard ← match guard with Some g => g ← g; mret (Some g) | None => mret None end;
        body ← body;
        mret (mkCoreBranch pattern guard body, part)) branches;
  arg ← fresh;
  body ← compile_match_with branches (var arg);
  mret (fn arg body).

Definition lower_type_value (typ : Typ) : Fresh NickelValue :=
  r ← type_contract typ;
  mret (VType typ (match r with
                   | Ok contract => contract
                   | Err id => VTerm (TParseError (unbound_type_variables id))
                   end)).

(** [LabeledType]: the label of a type. *)
Definition label_type (t : Typ) : LabeledType :=
  mkLabeledType t (mkLabel t [] None Positive [] [] None).

(** The definition of a field by its path, value and metadata. *)
Definition lower_path (path : list (option Ident * Fresh FieldName)) (value : option (Fresh NickelValue))
    (metadata : Fresh FieldMetadata) : Fresh (FieldName * Field) :=
  name_innermost ← fresh_lift (unwrap (last path));
  v ← match value with Some m => v ← m; mret (Some v) | None => mret None end;
  m ← metadata;
  match path with
  | [] => fresh_panic
  | fst :: it =>
      content ← foldrM_fresh (λ elem acc, name ← elem.2; mret (nest_field name acc))
                  (mkField v (to_shared (metadata_with_field_name m name_innermost.1)) []) it;
      name ← fst.2;
      mret (name, content)
  end.

Definition lower_record (includes : list (Fresh (Ident * FieldMetadata)))
    (defs : list (Fresh (FieldName * Field))) (open : bool) : Fresh NickelValue :=
  '(static_fields, dynamic_fields) ←
    foldM_fresh (λ acc def, d ← def; fresh_lift (add_definition acc d)) ([], []) defs;
  includes ← mapM id includes;
  mret (VTerm (TRecRecord
    (mkRecRecordData (mkRecordData static_fields (mkRecordAttrs open false) None)
       includes dynamic_fields None false))).

(** [FromAst], on every part of the tree. *)
Fixpoint lower_ast (a : Ast) : Fresh NickelValue :=
  let lower_opt (o : option Ast) : option (Fresh NickelValue) :=
    match o with Some a => Some (lower_ast a) | None => None end in
  match a with
  | NNull => mret VNull
  | NBool b => mret (VBool b)
  | NNumber n => mret (VNumber n)
  | NString s => mret (VString s)
  | NStringChunks chunks =>
      chunks ←
        foldrM_fresh (λ chunk acc,
            c ← match chunk with
                | AChunkLiteral s => mret (ChunkLiteral s)
                | AChunkExpr e indent => v ← lower_ast e; mret (ChunkExpr v indent)
                end;
            mret (acc ++ [c])) [] chunks;
      mret (VTerm (TStrChunks chunks))
  | NFun args body =>
      lower_fun (map (λ p, (p, compile_part lower_ast lower_annot transform_one p)) args)
        (lower_ast body)
  | NLet bindings body rec =>
      lower_let
        (map (λ b, let 'mkLetBinding pattern metadata value := b in
             (pattern, compile_part lower_ast lower_annot transform_one pattern,
              v ← lower_ast value;
              let 'mkLetMetadata _ annotation := metadata in
              if ast_annot_is_empty annotation then mret v
              else annot ← lower_annot annotation; mret (VTerm (TAnnotated annot v)))) bindings)
        (lower_ast body) rec
  | NApp head args =>
      h ← lower_ast head;
      foldM_fresh (λ result arg, v ← lower_ast arg; mret (app result v)) h args
  | NVar id => mret (var id)
  | NEnumVariant tag None => mret (VEnumVariant tag None)
  | NEnumVariant tag (Some arg) =>
      v ← lower_ast arg; mret (closurize_term (VEnumVariant tag (Some v)))
  | NRecord (mkRecord includes defs open) =>
      lower_record
        (map (λ i, let 'mkInclude id m := i in m ← lower_metadata m; mret (id, m)) includes)
        (map (λ d, let 'mkFieldDef path m value := d in
             lower_path
               (map (λ e, (try_as_ident e,
                           match e with
                           | PathIdent id => mret (FieldIdent id)
                           | PathExpr e => v ← lower_ast e; mret (FieldExpr v)
                           end)) path)
               (lower_opt value) (lower_metadata m)) defs)
        open
  | NIfThenElse cond then_branch else_branch =>
      c ← lower_ast cond;
      t ← lower_ast then_branch;
      e ← lower_ast else_branch;
      mret (if_then_else c t e)
  | NMatch branches =>
      lower_match
        (map (λ b, let 'mkMatchBranch pattern guard body := b in
             (pattern, compile_part lower_ast lower_annot transform_one pattern,
              lower_opt guard, lower_ast body)) branches)
  | NArray elts => l ← mapM lower_ast elts; mret (closurize_term (mk_array l []))
  | NPrimOpApp op args => lower_op_app (lower_op op) (map lower_ast args)
  | NAnnotated annot inner =>
      annot ← lower_annot annot; v ← lower_ast inner; mret (VTerm (TAnnotated annot v))
  | NImport i => mret (VTerm (TImport i))
  | NType typ => t ← lower_type typ; lower_type_value t
  | NParseError token => mret (VTerm (TParseError token))
  end
with lower_annot (a : Annotation) : Fresh TypeAnnotation :=
  let 'mkAnnotation typ contracts := a in
  typ ← match typ with Some t => t ← lower_type t; mret (Some (label_type t)) | None => mret None end;
  contracts ← mapM (λ c, t ← lower_type c; mret (label_type t)) contracts;
  mret (mkTypeAnnotation typ contracts)
with lower_metadata (m : AstFieldMetadata) : Fresh FieldMetadata :=
  let 'mkAstFieldMetadata doc annotation opt not_exported priority := m in
  a ← lower_annot annotation;
  mret (mkFieldMetadata doc a opt not_exported priority)
with lower_type (t : Type_) : Fresh Typ :=
  match t with
  | ATyDyn => mret TyDyn
  | ATyNumber => mret TyNumber
  | ATyBool => mret TyBool
  | ATyString => mret TyString
  | ATySymbol => mret TySymbol
  | ATyForeignId => mret TyForeignId
  | ATyContract t => v ← lower_ast t; mret (TyContract v)
  | ATyArrow dom codom => s ← lower_type dom; t ← lower_type codom; mret (TyArrow s t)
  | ATyVar id => mret (TyVar id)
  | ATyForall v k body => t ← lower_type body; mret (TyForall v k t)
  | ATyEnum erows => e ← lower_erows erows; mret (TyEnum e)
  | ATyRecord rrows => r ← lower_rrows rrows; mret (TyRecord r)
  | ATyDict t flavour => t ← lower_type t; mret (TyDict t flavour)
  | ATyArray t => t ← lower_type t; mret (TyArray t)
  | ATyWildcard w => mret (TyWildcard w)
  end
with lower_rrows (r : AstRecordRows) : Fresh RecordRows :=
  match r with
  | ARREmpty => mret RREmpty
  | ARRExtend id typ tail => t ← lower_type typ; tail ← lower_rrows tail; mret (RRExtend id t tail)
  | ARRTailVar id => mret (RRTailVar id)
  | ARRTailDyn => mret RRTailDyn
  end
with lower_erows (e : AstEnumRows) : Fresh EnumRows :=
  match e with
  | AEREmpty => mret EREmpty
  | AERExtend id typ tail =>
      t ← match typ with Some t => t ← lower_type t; mret (Some t) | None => mret None end;
      tail ← lower_erows tail;
      mret (ERExtend id t tail)
  | AERTailVar id => mret (ERTailVar id)
  end.

End lower.
