(* ===== verification/Raise.v ===== *)
(** * From terms back to the syntax tree ([core/src/ast/compat.rs])

    The reverse conversion ([FromMainline]), which the REPL applies to the records
    it loads in order to type them. Terms that only the evaluator makes have no
    syntax tree: converting one is a panic. Pending contracts and the cached
    contract of a type are dropped. *)
From S2P Require Import Prelude IndexMap Values Records Make Ast Lowering.

(** [args.swap(i, j)]: a panic out of bounds. *)
Definition swap_args {A} (i j : nat) (l : list A) : outcome (list A) :=
  match l !! i, l !! j with
  | Some x, Some y => Done (<[i := y]> (<[j := x]> l))
  | _, _ => Panic
  end.

(** The order of the arguments of binary and n-ary operators. *)
Definition swap_args2 (op : PrimOp) (args : list Ast) : outcome (list Ast) :=
  match op with
  | PArrayAt | PStringContains => swap_args 0 1 args
  | _ => Done args
  end.

Definition swap_argsn (op : PrimOp) (args : list Ast) : outcome (list Ast) :=
  match op with
  | PStringSubstr =>
      _ ← assert (bool_decide (length args = 3));
      args ← swap_args 0 1 args;
      swap_args 1 2 args
  | _ => Done args
  end.

Definition raise_opt {A B} (f : A → outcome B) (o : option A) : outcome (option B) :=
  match o with Some a => b ← f a; Done (Some b) | None => Done None end.

(** [FromMainline], on values, terms, types and fields. *)
Fixpoint raise_value (v : NickelValue) : outcome Ast :=
  match v with
  | VNull => Done NNull
  | VBool b => Done (NBool b)
  | VNumber n => Done (NNumber n)
  | VArray Empty => Done (NArray [])
  | VArray (Alloc (mkArrayData l _)) => l ← mapM raise_value l; Done (NArray l)
  | VRecord Empty => Done (NRecord ast_record_empty)
  | VRecord (Alloc (mkRecordData fs attrs _)) =>
      defs ← mapM (λ p : Ident * Field, let (id, f) := p in raise_field [PathIdent id] f) fs;
      Done (NRecord (mkRecord [] defs (open attrs)))
  | VString s => Done (NString s)
  | VTerm t => raise_term t
  | VEnumVariant tag None => Done (NEnumVariant tag None)
  | VEnumVariant tag (Some arg) => a ← raise_value arg; Done (NEnumVariant tag (Some a))
  | VType typ _ => t ← raise_type typ; Done (NType t)
  | VLabel _ | VCustomContract _ | VForeignId _ | VSealingKey _ | VThunk _ => Panic
  end
with raise_term (t : Term) : outcome Ast :=
  match t with
  | TStrChunks chunks =>
      chunks ←
        mapM (λ c, match c with
                   | ChunkLiteral s => Done (AChunkLiteral s)
                   | ChunkExpr e indent => a ← raise_value e; Done (AChunkExpr a indent)
                   end) chunks;
      Done (NStringChunks (rev chunks))
  | TFun arg body =>
      (* the loop over the functions nested in the body, which are put in one *)
      b ← raise_value body;
      Done (match body, b with
            | VTerm (TFun _ _), NFun args b => NFun (pattern_any arg :: args) b
            | _, _ => NFun [pattern_any arg] b
            end)
  | TLet bindings body attrs =>
      bs ← mapM (λ p : Ident * NickelValue, let (id, v) := p in
               a ← raise_value v;
               Done (mkLetBinding (pattern_any id) (mkLetMetadata None ast_annot_default) a)) bindings;
      b ← raise_value body;
      Done (NLet bs b (rec attrs))
  | TApp (VTerm (TApp (VTerm (TOp1 IfThenElse cond)) then_branch)) _ =>
      (* the name [data] is rebound to the operator before its argument is used
         as the condition and, by mistake, as the else branch *)
      c ← raise_value cond;
      t ← raise_value then_branch;
      e ← raise_value cond;
      Done (NIfThenElse c t e)
  | TApp head arg =>
      a ← raise_value arg;
      args ← raise_app_args head;
      h ← raise_value head;
      Done (NApp h (rev (a :: args)))
  | TVar id => Done (NVar id)
  | TRecRecord (mkRecRecordData (mkRecordData fs attrs _) includes dyns _ _) =>
      stat ← mapM (λ p : Ident * Field, let (id, f) := p in raise_field [PathIdent id] f) fs;
      dyn ← mapM (λ p : NickelValue * Field, let (expr, f) := p in
                e ← raise_value expr; raise_field [PathExpr e] f) dyns;
      incl ← mapM (λ p : Ident * FieldMetadata, let (id, m) := p in
                 m ← raise_metadata m; Done (mkInclude id m)) includes;
      Done (NRecord (mkRecord incl (stat ++ dyn) (open attrs)))
  | TClosurize v => raise_value v
  | TOp1 op arg => op ← raise_op1 op; a ← raise_value arg; Done (NPrimOpApp op [a])
  | TOp2 op arg1 arg2 =>
      op ← raise_op2 op;
      a1 ← raise_value arg1;
      a2 ← raise_value arg2;
      args ← swap_args2 op [a1; a2];
      Done (NPrimOpApp op args)
  | TOpN op args =>
      args ← mapM raise_value args;
      args ← swap_argsn (raise_opn op) args;
      Done (NPrimOpApp (raise_opn op) args)
  | TSealed _ _ _ => Panic
  | TAnnotated annot inner =>
      annot ← raise_annot annot; a ← raise_value inner; Done (NAnnotated annot a)
  | TImport i => Done (NImport i)
  | TResolvedImport _ => Panic
  | TParseError token => Done (NParseError token)
  | TRuntimeError _ => Panic
  end
with raise_app_args (v : NickelValue) : outcome (list Ast) :=
  match v with
  | VTerm (TApp head arg) => a ← raise_value arg; args ← raise_app_args head; Done (a :: args)
  | _ => Done []
  end
with raise_annot (a : TypeAnnotation) : outcome Annotation :=
  let 'mkTypeAnnotation typ contracts := a in
  typ ← raise_opt raise_labeled typ;
  contracts ← mapM raise_labeled contracts;
  Done (mkAnnotation typ contracts)
with raise_labeled (t : LabeledType) : outcome Type_ :=
  let 'mkLabeledType t _ := t in raise_type t
with raise_metadata (m : FieldMetadata) : outcome AstFieldMetadata :=
  let 'mkFieldMetadata doc annot opt not_exported priority := m in
  annot ← raise_annot annot;
  Done (mkAstFieldMetadata doc annot opt not_exported priority)
with raise_field (path : list FieldPathElem) (f : Field) {struct f} : outcome FieldDef :=
  let 'mkField v (Shared m) _ := f in
  v ← raise_opt raise_value v;
  m ← match m with Some m => raise_metadata m | None => Done ast_metadata_default end;
  Done (mkFieldDef path m v)
with raise_type (t : Typ) : outcome Type_ :=
  match t with
  | TyDyn => Done ATyDyn
  | TyNumber => Done ATyNumber
  | TyBool => Done ATyBool
  | TyString => Done ATyString
  | TySymbol => Done ATySymbol
  | TyForeignId => Done ATyForeignId
  | TyContract v => a ← raise_value v; Done (ATyContract a)
  | TyArrow dom codom => s ← raise_type dom; t ← raise_type codom; Done (ATyArrow s t)
  | TyVar id => Done (ATyVar id)
  | TyForall v k body => t ← raise_type body; Done (ATyForall v k t)
  | TyEnum e => e ← raise_erows e; Done (ATyEnum e)
  | TyRecord r => r ← raise_rrows r; Done (ATyRecord r)
  | TyDict t f => t ← raise_type t; Done (ATyDict t f)
  | TyArray t => t ← raise_type t; Done (ATyArray t)
  | TyWildcard w => Done (ATyWildcard w)
  end
with raise_rrows (r : RecordRows) : outcome AstRecordRows :=
  match r with
  | RREmpty => Done ARREmpty
  | RRExtend id t tail => t ← raise_type t; tail ← raise_rrows tail; Done (ARRExtend id t tail)
  | RRTailVar id => Done (ARRTailVar id)
  | RRTailDyn => Done ARRTailDyn
  end
with raise_erows (e : EnumRows) : outcome AstEnumRows :=
  match e with
  | EREmpty => Done AEREmpty
  | ERExtend id t tail =>
      t ← raise_opt raise_type t; tail ← raise_erows tail; Done (AERExtend id t tail)
  | ERTailVar id => Done (AERTailVar id)
  end.
