(* ===== verification/LoweringFacts.v ===== *)
(** * Facts on the lowering of the syntax tree

    The syntax trees that the parser makes ([wf_ast]), the shape of the types
    after lowering, the variables that a pattern binds, and the pieces of a field. *)
From S2P Require Import Prelude IndexMap Values AstInd Records Make Ast Pattern TypeContracts TypeContractsTheorems Merge MergeTheorems Lowering.

(** ** The shape of types

    The type of the evaluator that a syntactic type is lowered to, but for the
    values of the contracts embedded in it. *)
Fixpoint erase (t : Type_) : Typ :=
  match t with
  | ATyDyn => TyDyn | ATyNumber => TyNumber | ATyBool => TyBool | ATyString => TyString
  | ATySymbol => TySymbol | ATyForeignId => TyForeignId
  | ATyContract _ => TyContract VNull
  | ATyArrow s t => TyArrow (erase s) (erase t)
  | ATyVar id => TyVar id
  | ATyForall v k t => TyForall v k (erase t)
  | ATyEnum e => TyEnum (erase_erows e)
  | ATyRecord r => TyRecord (erase_rrows r)
  | ATyDict t f => TyDict (erase t) f
  | ATyArray t => TyArray (erase t)
  | ATyWildcard n => TyWildcard n
  end
with erase_rrows (r : AstRecordRows) : RecordRows :=
  match r with
  | ARREmpty => RREmpty
  | ARRExtend id t r => RRExtend id (erase t) (erase_rrows r)
  | ARRTailVar id => RRTailVar id
  | ARRTailDyn => RRTailDyn
  end
with erase_erows (e : AstEnumRows) : EnumRows :=
  match e with
  | AEREmpty => EREmpty
  | AERExtend id t e =>
      ERExtend id (match t with Some t => Some (erase t) | None => None end) (erase_erows e)
  | AERTailVar id => ERTailVar id
  end.

Fixpoint shape (t : Typ) : Typ :=
  match t with
  | TyContract _ => TyContract VNull
  | TyArrow s t => TyArrow (shape s) (shape t)
  | TyForall v k t => TyForall v k (shape t)
  | TyEnum e => TyEnum (shape_erows e)
  | TyRecord r => TyRecord (shape_rrows r)
  | TyDict t f => TyDict (shape t) f
  | TyArray t => TyArray (shape t)
  | t => t
  end
with shape_rrows (r : RecordRows) : RecordRows :=
  match r with RRExtend id t r => RRExtend id (shape t) (shape_rrows r) | r => r end
with shape_erows (e : EnumRows) : EnumRows :=
  match e with
  | ERExtend id t e =>
      ERExtend id (match t with Some t => Some (shape t) | None => None end) (shape_erows e)
  | e => e
  end.

Lemma shape_facts :
  (∀ t, ftv (shape t) = ftv t ∧ foralls (shape t) = foralls t ∧ no_symbol (shape t) = no_symbol t)
  ∧ (∀ r, ftv_rrows (shape_rrows r) = ftv_rrows r ∧ foralls_rrows (shape_rrows r) = foralls_rrows r
          ∧ no_symbol_rrows (shape_rrows r) = no_symbol_rrows r)
  ∧ (∀ e, ftv_erows (shape_erows e) = ftv_erows e ∧ foralls_erows (shape_erows e) = foralls_erows e
          ∧ no_symbol_erows (shape_erows e) = no_symbol_erows e).
Proof.
  apply typ_mutind; simpl; try done; intros; destruct_and?; split_and!; try congruence; done.
Qed.

(** ** Well-formed syntax trees

    An operator has its operands, a path has an element, a type has a contract
    ([Symbol] has none, and the sealing keys of its quantifiers are 32-bit), and
    the contracts that annotate the fields of a pattern have no free type
    variable. *)
Definition operands (op : TermPrimOp) : nat :=
  match op with TUnary _ => 1 | TBinary _ => 2 | TNAry _ => 0 end.

Definition has_contract (t : Typ) : bool := no_symbol t && bool_decide (foralls t < 2 ^ 31)%Z.

Definition annotates_pattern (a : Annotation) : bool :=
  forallb (λ t, has_contract (erase t) && bool_decide (ftv (erase t) = ∅)) (ast_annot_contracts a).

Definition opt_b {A} (f : A → bool) (o : option A) : bool :=
  match o with Some a => f a | None => true end.

Fixpoint wf_ast (a : Ast) : bool :=
  match a with
  | NStringChunks l =>
      forallb (λ c, match c with AChunkLiteral _ => true | AChunkExpr e _ => wf_ast e end) l
  | NFun args body => forallb wf_pattern args && wf_ast body
  | NLet bs body _ =>
      forallb (λ b, let 'mkLetBinding p (mkLetMetadata _ a) v := b in
                 wf_pattern p && wf_annot a && wf_ast v) bs && wf_ast body
  | NApp h args => wf_ast h && forallb wf_ast args
  | NEnumVariant _ arg => match arg with Some a => wf_ast a | None => true end
  | NRecord (mkRecord includes defs _) =>
      forallb (λ i, let 'mkInclude _ m := i in wf_metadata m) includes
      && forallb (λ d, let 'mkFieldDef path m v := d in
                    negb (bool_decide (length path = 0))
                    && forallb (λ e, match e with PathIdent _ => true | PathExpr e => wf_ast e end) path
                    && wf_metadata m && match v with Some v => wf_ast v | None => true end) defs
  | NIfThenElse c t e => wf_ast c && wf_ast t && wf_ast e
  | NMatch l =>
      forallb (λ b, let 'mkMatchBranch p g body := b in
                 wf_pattern p && match g with Some g => wf_ast g | None => true end && wf_ast body) l
  | NArray l => forallb wf_ast l
  | NPrimOpApp op l => bool_decide (operands (lower_op op) ≤ length l) && forallb wf_ast l
  | NAnnotated an a => wf_annot an && wf_ast a
  | NType t => has_contract (erase t) && wf_type t
  | NNull | NBool _ | NNumber _ | NString _ | NVar _ | NImport _ | NParseError _ => true
  end
with wf_pattern (p : Pattern) : bool :=
  let 'mkPattern d _ := p in
  match d with
  | PatWildcard | PatAny _ | PatConstant _ => true
  | PatRecord l _ =>
      forallb (λ fp, let 'mkFieldPattern _ a d p := fp in
                 annotates_pattern a && wf_annot a
                 && match d with Some d => wf_ast d | None => true end && wf_pattern p) l
  | PatArray l _ | PatOr l => forallb wf_pattern l
  | PatEnum _ p => match p with Some p => wf_pattern p | None => true end
  end
with wf_annot (a : Annotation) : bool :=
  let 'mkAnnotation typ contracts := a in
  match typ with Some t => wf_type t | None => true end && forallb wf_type contracts
with wf_metadata (m : AstFieldMetadata) : bool :=
  let 'mkAstFieldMetadata _ a _ _ _ := m in wf_annot a
with wf_type (t : Type_) : bool :=
  match t with
  | ATyContract a => wf_ast a
  | ATyArrow s t => wf_type s && wf_type t
  | ATyForall _ _ t | ATyDict t _ | ATyArray t => wf_type t
  | ATyEnum e => wf_erows e
  | ATyRecord r => wf_rrows r
  | _ => true
  end
with wf_rrows (r : AstRecordRows) : bool :=
  match r with ARRExtend _ t r => wf_type t && wf_rrows r | _ => true end
with wf_erows (e : AstEnumRows) : bool :=
  match e with
  | AERExtend _ t e => match t with Some t => wf_type t | None => true end && wf_erows e
  | _ => true
  end.

(** ** The variables of a pattern *)

Lemma bind_ids_path p : ∀ path parent path' parent',
  map bind_id (inject_bindings p path parent) = map bind_id (inject_bindings p path' parent').
Proof.
  revert p.
  apply (pattern_ind' (λ _, True) (λ p, ∀ path parent path' parent',
    map bind_id (inject_bindings p path parent) = map bind_id (inject_bindings p path' parent'))
    (λ _, True) (λ _, True) (λ _, True) (λ _, True) (λ _, True)); try done.
  - intros [] [] Hl path parent path' parent'; try done; destruct pattern; done.
  - intros l tail al Hl path parent path' parent'. cbn [inject_bindings]. rewrite !map_app.
    f_equal; [by destruct al|]. f_equal; [|by destruct tail].
    induction Hl as [|[id a d p] l (_ & _ & Hp) Hl IH]; [done|]. simpl. rewrite !map_app.
    f_equal; [apply Hp|apply IH].
  - intros l tail al Hl path parent path' parent'. cbn [inject_bindings]. rewrite !map_app.
    f_equal; [by destruct al|]. f_equal; [|by destruct tail].
    induction Hl as [|p l Hp Hl IH]; [done|]. simpl. rewrite !map_app. f_equal; [apply Hp|apply IH].
  - intros tag p al Hp path parent path' parent'. cbn [inject_bindings]. rewrite !map_app.
    f_equal; [by destruct al|]. apply Hp.
  - intros l al Hl path parent path' parent'. cbn [inject_bindings]. rewrite !map_app.
    f_equal; [by destruct al|].
    induction Hl as [|p l Hp Hl IH]; [done|]. simpl. rewrite !map_app. f_equal; [apply Hp|apply IH].
Qed.

(** The variables of a pattern are those of its parts. *)
Lemma bound_ids_unfold d alias :
  bound_ids (mkPattern d alias)
  = option_list alias ++
    match d with
    | PatAny id => [id]
    | PatRecord l tail =>
        concat (map (λ fp, bound_ids (fp_pattern fp)) l)
        ++ match tail with TailCapture rest => [rest] | _ => [] end
    | PatArray l tail =>
        concat (map bound_ids l) ++ match tail with TailCapture rest => [rest] | _ => [] end
    | PatEnum _ p => match p with Some p => bound_ids p | None => [] end
    | PatOr l => concat (map bound_ids l)
    | PatWildcard | PatConstant _ => []
    end.
Proof.
  unfold bound_ids at 1, bindings. cbn [inject_bindings]. rewrite map_app.
  f_equal; [by destruct alias|].
  assert (Hc : ∀ A (f : A → list PatBinding) (g : A → list Ident) l,
    (∀ a, map bind_id (f a) = g a) → map bind_id (concat (map f l)) = concat (map g l)).
  { intros A f g l Hfg. induction l as [|a l IH]; [done|]. simpl. by rewrite map_app, Hfg, IH. }
  destruct d; try done; rewrite ?map_app.
  - f_equal; [|by destruct tail]. apply Hc. intros [id a d p]. simpl. apply bind_ids_path.
  - f_equal; [|by destruct tail]. apply Hc. intros p. apply bind_ids_path.
  - destruct pattern; [|done]. apply bind_ids_path.
  - apply Hc. intros p. apply bind_ids_path.
Qed.

Definition ids (p : Pattern) : gset Ident := list_to_set (bound_ids p).

(** ** The pieces of a field *)

(** The record values have been wrapped in [Closurize]: the merge of the pieces of
    a field is never computed statically. *)
Definition is_record (v : NickelValue) : bool := match v with VRecord _ => true | _ => false end.

Definition piece_ok (f : Field) : Prop :=
  pending_contracts f = [] ∧ opt_forall (λ v, is_record v = false) (value f).

(** The value and the priority of the merge of two pieces. *)
Definition merged_value (f1 f2 : Field) : option NickelValue * MergePriority :=
  let p1 := priority (into_inner (metadata f1)) in
  let p2 := priority (into_inner (metadata f2)) in
  match value f1, value f2 with
  | Some v1, Some v2 =>
      match priority_cmp p1 p2 with
      | Eq => (Some (op2 (MergeOp (mkMergeLabel PiecewiseDef)) v1 v2), p1)
      | Gt => (Some v1, p1)
      | Lt => (Some v2, p2)
      end
  | Some v1, None => (Some v1, p1)
  | None, Some v2 => (Some v2, p2)
  | None, None => (None, Neutral)
  end.

Definition merged_piece (f1 f2 : Field) : Field :=
  let m1 := into_inner (metadata f1) in
  let m2 := into_inner (metadata f2) in
  let '(v, prio) := merged_value f1 f2 in
  mkField v
    (to_shared (mkFieldMetadata
      (merge_doc (doc m1) (doc m2)) (annot_combine (annotation m1) (annotation m2))
      (opt m1 && opt m2) (not_exported m1 || not_exported m2) prio)) [].

Lemma merged_piece_ok f1 f2 : piece_ok f1 → piece_ok f2 → piece_ok (merged_piece f1 f2).
Proof.
  intros [_ H1] [_ H2]. unfold merged_piece, merged_value, piece_ok.
  destruct (value f1), (value f2); simpl; [|done..]. by destruct (priority_cmp _ _).
Qed.

Lemma priority_tests p q :
  match priority_cmp p q with
  | Eq => priority_eq p q = true
  | Gt => priority_eq p q = false ∧ priority_gt p q = true
  | Lt => priority_eq p q = false ∧ priority_gt p q = false ∧ priority_gt q p = true
  end.
Proof.
  pose proof (priority_cmp_spec p q) as Hpq. pose proof (priority_cmp_spec q p) as Hqp.
  assert (Hne : ∀ p q, prio_lt p q → priority_eq p q = false ∧ priority_eq q p = false).
  { intros p' q' Hlt. split; apply not_true_is_false; rewrite priority_eq_spec; intros Hs;
      (eapply prio_lt_irrefl; [exact Hlt|]); first [done|by symmetry]. }
  unfold priority_gt. destruct (priority_cmp p q) eqn:Hc.
  - by apply priority_eq_spec.
  - split_and!; [apply (Hne p q Hpq)|done|]. destruct (priority_cmp q p); [exfalso|exfalso|done].
    + symmetry in Hqp. by eapply prio_lt_irrefl.
    + by eapply (prio_lt_irrefl p p); [eapply prio_lt_trans|].
  - split; [apply (Hne q p Hpq)|done].
Qed.

Section pieces.
Context `{IndexMapOps Ident}.

Lemma combine_pieces_ok f1 f2 :
  piece_ok f1 → piece_ok f2 → combine_pieces f1 f2 = Done (merged_piece f1 f2).
Proof.
  intros [Hp1 H1] [Hp2 H2]. unfold combine_pieces, merged_piece, merged_value. cbn [merge_pieces].
  rewrite Hp1, Hp2.
  pose proof (priority_tests (priority (into_inner (metadata f1))) (priority (into_inner (metadata f2)))) as Ht.
  destruct (value f1) as [v1|], (value f2) as [v2|]; [|done..].
  destruct (priority_cmp _ _).
  - rewrite Ht. by destruct v1, v2.
  - destruct Ht as (-> & -> & ->). done.
  - destruct Ht as (-> & ->). done.
Qed.

End pieces.

Section lowering.
Context `{IndexMapLaws Ident, HashOrderLaws}.

(** ** Patterns *)

(** The contracts that annotate the field of a pattern, after their lowering. *)
Definition closed_contracts (l : list LabeledType) : Prop :=
  Forall (λ t, has_contract (labeled_typ t) = true ∧ ftv (labeled_typ t) = ∅) l.

Lemma returns_type_contract t :
  has_contract t = true →
  returns (type_contract t) (λ r, match r with Ok _ => True | Err id => id ∈ ftv t end).
Proof.
  unfold has_contract. rewrite andb_true_iff, bool_decide_eq_true. intros [Hs Hf].
  unfold type_contract, run_gen.
  eapply fresh_returns_bind; [by apply (proj1 contract_ok_all)|].
  intros [[c sy]|id] Hr; apply returns_ret; [done|]. set_solver.
Qed.

Lemma returns_pending l :
  closed_contracts l → returns (pending_from_types l) (λ r, ∃ cs, r = Ok cs).
Proof.
  induction 1 as [|t l [Hc Hf] Hl IH]; cbn [pending_from_types]; [by apply returns_ret; eexists|].
  eapply fresh_returns_bind; [unfold contract_from; eapply fresh_returns_bind; [by apply returns_type_contract|]|].
  { intros r Hr. apply (returns_ret _ (λ r, ∃ c, r = Ok c)).
    destruct r as [c|id]; [by eexists|]. rewrite Hf in Hr. by apply elem_of_empty in Hr. }
  intros r [c ->]. eapply fresh_returns_bind; [done|]. intros r [cs ->]. apply returns_ret. by eexists.
Qed.

(** A field whose annotation can be merged into a record: it has no type
    annotation or no value. *)
Definition mergeable (f : Field) : Prop :=
  match shared_inner (metadata f) with
  | Some m => closed_contracts (annot_contracts (annotation m)) ∧ (value f = None ∨ annot_typ (annotation m) = None)
  | None => True
  end.

Lemma returns_field_with_pending f :
  mergeable f → returns (field_with_pending f) (λ r, ∃ f', r = Ok f').
Proof.
  unfold mergeable, field_with_pending. intros Hf. destruct (shared_inner (metadata f)) as [m|].
  - destruct Hf as [Hc Hv]. eapply fresh_returns_bind; [by apply returns_pending|].
    intros r [cs ->]. destruct Hv as [Hv|Ht]; simpl; [rewrite Hv|rewrite Ht; destruct (value f)];
      by apply returns_ret; eexists.
  - apply (fresh_returns_bind _ _ (λ r, r = Ok [])); [by apply returns_ret|]. intros r ->. simpl.
    destruct (value f); by apply returns_ret; eexists.
Qed.

Lemma returns_update_with_merge record_id id f :
  mergeable f → returns (update_with_merge transform_one record_id id f) (λ _, True).
Proof.
  intros Hf. unfold update_with_merge, record_posless, record_is_empty. simpl.
  apply (fresh_returns_bind _ _ (λ r, ∃ v, r = Ok v)).
  - cbn [transform_one attach_to_fields fields].
    eapply fresh_returns_bind.
    + eapply fresh_returns_bind; [by apply returns_field_with_pending|]. intros r [f' ->].
      apply (fresh_returns_bind _ _ (λ r, r = Ok [])); [by apply returns_ret|]. intros r ->.
      apply (returns_ret _ (λ r, ∃ fs, r = Ok fs)). by eexists.
    + intros r [fs ->]. apply returns_ret. by eexists.
  - intros r [v ->]. apply (fresh_returns_bind _ _ (λ _, True)); [by apply returns_ret|].
    intros. by apply returns_ret.
Qed.

(** A computation that returns, whatever its result. *)
Definition total {A} (m : Fresh A) : Prop := returns m (λ _, True).

Lemma total_ret {A} (a : A) : total (mret a).
Proof. by apply returns_ret. Qed.

Lemma total_bind {A B} (m : Fresh A) (f : A → Fresh B) : total m → (∀ a, total (f a)) → total (m ≫= f).
Proof. intros Hm Hf. eapply fresh_returns_bind; [exact Hm|]. intros a _. apply Hf. Qed.

Lemma total_fresh : total fresh.
Proof. by apply returns_fresh. Qed.

Lemma total_of {A} (m : Fresh A) P : returns m P → total m.
Proof. intros Hm. by eapply returns_mono. Qed.

Lemma total_foldr {A B} (f : A → B → Fresh B) (P : A → Prop) b l :
  (∀ a b, P a → total (f a b)) → Forall P l → total (foldrM_fresh f b l).
Proof. intros Hf Hl. by apply (returns_foldrM _ P (λ _, True)); [intros; apply Hf|..]. Qed.

Lemma total_foldl {A B} (f : B → A → Fresh B) (P : A → Prop) b l :
  (∀ a b, P a → total (f b a)) → Forall P l → total (foldM_fresh f b l).
Proof. intros Hf Hl. by apply (returns_foldM _ P (λ _, True)); [intros; apply Hf|..]. Qed.

Lemma total_foldri {A B} (f : nat → A → B → Fresh B) (P : A → Prop) b l i :
  (∀ i a b, P a → total (f i a b)) → Forall P l → total (foldriM_fresh f i b l).
Proof. intros Hf Hl. by apply (returns_foldriM _ P (λ _, True)); [intros; apply Hf|..]. Qed.

Lemma total_mapM {A B} (f : A → Fresh B) (P : A → Prop) l :
  (∀ a, P a → total (f a)) → Forall P l → total (mapM f l).
Proof. intros Hf Hl. eapply total_of, (returns_mapM f P (λ _, True)); [exact Hf|done]. Qed.

Lemma total_bound_to (b : gmap Ident Ident) id : id ∈ dom b → total (bound_to b id).
Proof. intros [id' Hid]%elem_of_dom. by eapply returns_bound_to. Qed.

Ltac total_step :=
  try lazymatch goal with |- returns ?m (λ _, True) => change (total m) end;
  lazymatch goal with
  | |- total (mret _) => apply total_ret
  | |- total fresh => apply total_fresh
  | |- total (_ ≫= _) => apply total_bind; [|intros ?]
  end.

(** What the compilation of a pattern needs to return: names for its variables. *)
Definition part_ok (p : Pattern) (part : Part) : Prop :=
  ∀ value_id mc fc b, ids p ⊆ dom b → total (part value_id mc fc b).

Section part.
Context (la : Ast → Fresh NickelValue) (lan : Annotation → Fresh TypeAnnotation).
Let part := compile_part la lan transform_one.

Lemma total_compile_alias (b : gmap Ident Ident) alias value_id mc :
  list_to_set (option_list alias) ⊆ dom b → total (compile_alias b alias value_id mc).
Proof.
  destruct alias; simpl; intros Hb; [|by apply total_ret].
  total_step; [apply total_bound_to; set_solver|]. total_step.
Qed.

Definition tail_ids (t : TailPattern) : list Ident := match t with TailCapture id => [id] | _ => [] end.

Lemma total_compile_tail (b : gmap Ident Ident) tail v mc :
  list_to_set (tail_ids tail) ⊆ dom b → total (compile_tail b tail v mc).
Proof.
  destruct tail; simpl; intros Hb; [by apply total_ret..|].
  total_step; [apply total_bound_to; set_solver|]. total_step.
Qed.

Definition fp_ok (fp : FieldPattern) : Prop :=
  let 'mkFieldPattern _ a d p := fp in
  returns (lan a) (λ a', closed_contracts (annot_contracts a'))
  ∧ opt_forall (λ d, total (la d)) d ∧ part_ok p (part p).

Lemma total_compile_annotation local field a mc :
  returns (lan a) (λ a', closed_contracts (annot_contracts a')) →
  total (compile_annotation lan transform_one local field a mc).
Proof.
  intros Ha. unfold compile_annotation. destruct (negb _); [|by apply total_ret].
  eapply fresh_returns_bind; [done|]. intros a' Ha'.
  apply total_bind; [|intros; by apply total_ret]. apply returns_update_with_merge.
  unfold mergeable, to_shared. simpl. destruct (metadata_is_empty _); simpl; auto.
Qed.

Lemma total_compile_default local field d cont :
  opt_forall (λ d, total (la d)) d → total (compile_default la transform_one local field d cont).
Proof.
  destruct d as [d|]; simpl; intros Hd; [|by apply total_ret].
  total_step; [done|]. total_step; [|total_step]. unfold with_default_value.
  total_step; [|total_step]. by apply returns_update_with_merge.
Qed.

Lemma compile_leaf d alias : leaf_pattern d = true → part_ok (mkPattern d alias) (part (mkPattern d alias)).
Proof.
  intros Hl value_id mc fc b Hb. unfold ids in Hb. rewrite bound_ids_unfold, list_to_set_app_L in Hb.
  unfold part. cbn [compile_part]. total_step; [apply total_compile_alias; set_solver|].
  destruct d; try done.
  - total_step.
  - total_step; [apply total_bound_to; set_solver|]. total_step.
  - destruct pattern; [done|]. total_step.
  - total_step.
Qed.

Lemma ids_elem_of {A} (f : A → list Ident) l (b : gmap Ident Ident) :
  list_to_set (concat (map f l)) ⊆ dom b → Forall (λ a, list_to_set (f a) ⊆ dom b) l.
Proof.
  induction l as [|a l IH]; intros Hb; [done|]. simpl in Hb. rewrite list_to_set_app_L in Hb.
  constructor; [set_solver|]. apply IH. set_solver.
Qed.

Lemma compile_record l tail alias :
  Forall fp_ok l → part_ok (mkPattern (PatRecord l tail) alias) (part (mkPattern (PatRecord l tail) alias)).
Proof.
  intros Hl value_id mc fc b Hb. unfold ids in Hb.
  rewrite bound_ids_unfold, !list_to_set_app_L in Hb. unfold part. cbn [compile_part].
  assert (Hall : Forall (λ fp, fp_ok fp ∧ ids (fp_pattern fp) ⊆ dom b) l).
  { apply Forall_and. split; [done|]. apply (ids_elem_of (λ fp, bound_ids (fp_pattern fp))). set_solver. }
  total_step; [apply total_compile_alias; set_solver|]. total_step; [total_step|].
  total_step; [apply total_compile_tail; destruct tail; set_solver|]. total_step; [|total_step; [|total_step]].
  - eapply total_foldr; [|done]. intros [id an d p] mc' [(Ha & Hd & Hp) Hids]. cbn in Hids.
    total_step; [total_step|]. total_step; [by apply Hp|]. by apply total_compile_annotation.
  - eapply total_foldl; [|done]. intros [id an d p] mc' [(Ha & Hd & Hp) Hids].
    by apply total_compile_default.
Qed.

Lemma compile_array l tail alias :
  Forall (λ p, part_ok p (part p)) l →
  part_ok (mkPattern (PatArray l tail) alias) (part (mkPattern (PatArray l tail) alias)).
Proof.
  intros Hl value_id mc fc b Hb. unfold ids in Hb.
  rewrite bound_ids_unfold, !list_to_set_app_L in Hb. unfold part. cbn [compile_part].
  assert (Hall : Forall (λ p, part_ok p (part p) ∧ ids p ⊆ dom b) l).
  { apply Forall_and. split; [done|]. apply (ids_elem_of bound_ids). set_solver. }
  total_step; [apply total_compile_alias; set_solver|]. total_step; [total_step|].
  total_step; [apply total_compile_tail; destruct tail; set_solver|]. total_step; [|total_step].
  eapply total_foldri; [|done]. intros i p mc' [Hp Hids]. total_step; [total_step|].
  total_step; [by apply Hp|total_step].
Qed.

Lemma compile_enum tag p alias :
  part_ok p (part p) →
  part_ok (mkPattern (PatEnum tag (Some p)) alias) (part (mkPattern (PatEnum tag (Some p)) alias)).
Proof.
  intros Hp value_id mc fc b Hb. unfold ids in Hb.
  rewrite bound_ids_unfold, !list_to_set_app_L in Hb. unfold part. cbn [compile_part].
  total_step; [apply total_compile_alias; set_solver|]. total_step; [total_step|].
  total_step; [apply Hp; unfold ids; set_solver|total_step].
Qed.

Lemma compile_or l alias :
  Forall (λ p, part_ok p (part p)) l →
  part_ok (mkPattern (PatOr l) alias) (part (mkPattern (PatOr l) alias)).
Proof.
  intros Hl value_id mc fc b Hb. unfold ids in Hb.
  rewrite bound_ids_unfold, !list_to_set_app_L in Hb. unfold part. cbn [compile_part].
  total_step; [apply total_compile_alias; set_solver|].
  apply (total_foldr _ (λ p, part_ok p (part p) ∧ ids p ⊆ dom b)).
  { intros p fc' [Hp Hids]. by apply Hp. }
  apply Forall_and. split; [done|]. apply (ids_elem_of bound_ids). set_solver.
Qed.

End part.

(** ** Matches and destructuring *)

Lemma total_compile_match branches v :
  Forall (λ b : CoreBranch * Part, part_ok (branch_pattern b.1) b.2) branches →
  total (compile_match_with branches v).
Proof.
  intros Hb. unfold compile_match_with. destruct (forallb _ _); [apply total_ret|].
  total_step; [total_step|]. total_step; [|total_step]. eapply total_foldr; [|done].
  intros [br part] fc Hp. unfold compile_branch_with.
  eapply fresh_returns_bind; [apply returns_fresh_bindings|]. intros m Hm. apply Hp.
  unfold ids. by rewrite Hm.
Qed.

Lemma total_compile_let (bs : list (Pattern * Part * NickelValue)) body rec :
  Forall (λ b, part_ok b.1.1 b.1.2) bs → total (compile_let_pattern bs body rec).
Proof.
  intros Hb. unfold compile_let_pattern. total_step; [|by destruct a as [[? ?] ?]; total_step].
  eapply total_foldl; [|done]. intros [[p part] rhs] [[outer mid] inner] Hp.
  unfold compile_let_binding. cbv beta iota. total_step; [total_step|]. total_step; [total_step|].
  eapply fresh_returns_bind; [apply returns_fresh_bindings|]. intros m Hm.
  total_step; [apply Hp; unfold ids; by rewrite Hm|total_step].
Qed.

Lemma total_compile_fun p part body : part_ok p part → total (compile_fun_pattern p part body).
Proof.
  intros Hp. unfold compile_fun_pattern. total_step; [by destruct (pat_alias p); total_step|].
  total_step; [|total_step]. apply total_compile_let. by constructor.
Qed.

(** ** The whole tree *)

Section tree.
Context (u : Ident → nat).
Let la := lower_ast u.
Let lan := lower_annot u.

(** An expression is never lowered to a record: records are recursive, and
    wrapped in [Closurize] when a path makes them. *)
Definition ast_ok (a : Ast) : Prop := wf_ast a = true → returns (la a) (λ v, is_record v = false).
Definition pattern_ok (p : Pattern) : Prop :=
  wf_pattern p = true → part_ok p (compile_part la lan transform_one p).
Definition annot_ok (a : Annotation) : Prop :=
  wf_annot a = true →
  returns (lan a) (λ a', map (λ t, shape (labeled_typ t)) (annot_contracts a')
                         = map erase (ast_annot_contracts a)).
Definition meta_ok (m : AstFieldMetadata) : Prop := wf_metadata m = true → total (lower_metadata u m).
Definition type_ok (t : Type_) : Prop :=
  wf_type t = true → returns (lower_type u t) (λ t', shape t' = erase t).
Definition arrows_ok (r : AstRecordRows) : Prop :=
  wf_rrows r = true → returns (lower_rrows u r) (λ r', shape_rrows r' = erase_rrows r).
Definition aerows_ok (e : AstEnumRows) : Prop :=
  wf_erows e = true → returns (lower_erows u e) (λ e', shape_erows e' = erase_erows e).

Lemma ast_total a : ast_ok a → wf_ast a = true → total (la a).
Proof. intros Ha Hw. by eapply total_of, Ha. Qed.

Lemma value_ok {A} (m : Fresh A) (f : A → NickelValue) :
  total m → (∀ v, is_record (f v) = false) → returns (v ← m; mret (f v)) (λ v, is_record v = false).
Proof. intros Hm Hf. eapply fresh_returns_bind; [done|]. intros v _. by apply returns_ret. Qed.

(** [forallb] and [Forall] together. *)
Lemma forallb_Forall_1 {A} (f : A → bool) (P Q : A → Prop) l :
  forallb f l = true → Forall P l → (∀ a, f a = true → P a → Q a) → Forall Q l.
Proof.
  rewrite forallb_forall. intros Hf HP HQ. rewrite Forall_forall in *. intros a Ha.
  apply HQ; [apply Hf; by apply list_elem_of_In|auto].
Qed.

Lemma closed_annot an a :
  annotates_pattern an = true →
  map (λ t, shape (labeled_typ t)) (annot_contracts a) = map erase (ast_annot_contracts an) →
  closed_contracts (annot_contracts a).
Proof.
  unfold annotates_pattern, closed_contracts. generalize (ast_annot_contracts an).
  generalize (annot_contracts a) as l. induction l as [|t l IH]; intros [|t' l']; try done.
  simpl. rewrite !andb_true_iff. intros [[Hc Hf] Hl] [= Ht Heq]. constructor; [|by eapply IH].
  destruct (proj1 shape_facts (labeled_typ t)) as (Hftv & Hfor & Hsym).
  rewrite bool_decide_eq_true in Hf. unfold has_contract in *. rewrite <-Ht, Hfor, Hsym in Hc.
  rewrite <-Ht, Hftv in Hf. done.
Qed.

Lemma fp_is_ok l :
  Forall (fp_all ast_ok pattern_ok annot_ok) l →
  wf_pattern (mkPattern (PatRecord l TailEmpty) None) = true → Forall (fp_ok la lan) l.
Proof.
  intros Hl Hw. cbn [wf_pattern] in Hw. eapply forallb_Forall_1; [exact Hw|exact Hl|].
  intros [id an d p]. simpl. rewrite !andb_true_iff. intros [[[Ha Ha'] Hd] Hp] (Han & Hdo & Hpo).
  split_and!; [|destruct d; [by apply ast_total|done]|by apply Hpo].
  eapply returns_mono; [by apply Han|]. intros a' Heq. by eapply closed_annot.
Qed.

Lemma pieces_ok_patterns l :
  Forall pattern_ok l → forallb wf_pattern l = true →
  Forall (λ p, part_ok p (compile_part la lan transform_one p)) l.
Proof. intros Hl Hw. eapply forallb_Forall_1; [exact Hw|exact Hl|]. intros p Hp Hok. by apply Hok. Qed.

(** *** Fields *)

Lemma nest_field_ok name acc : piece_ok (nest_field name acc).
Proof. destruct name as [id|e]; [done|]. simpl. by destruct (term_static_str e). Qed.

Lemma returns_path path v m :
  path ≠ [] → Forall (λ e : option Ident * Fresh FieldName, total e.2) path →
  opt_forall (λ v, returns v (λ v, is_record v = false)) v → total m →
  returns (lower_path path v m) (λ d, piece_ok d.2).
Proof.
  intros Hne Hp Hv Hm. unfold lower_path.
  destruct path as [|fst it]; [done|]. apply Forall_cons in Hp as [Hfst Hit].
  destruct (last (fst :: it)) as [inner|] eqn:Hl; [|by rewrite last_None in Hl].
  eapply (fresh_returns_bind _ _ (λ _, True)); [by eapply returns_lift|]. intros inner' _.
  apply (fresh_returns_bind _ _ (opt_forall (λ v, is_record v = false))).
  { destruct v as [v|]; [|by apply returns_ret].
    eapply fresh_returns_bind; [exact Hv|]. intros v' Hv'. by apply returns_ret. }
  intros v' Hv'. eapply fresh_returns_bind; [exact Hm|]. intros m' _.
  apply (fresh_returns_bind _ _ piece_ok).
  - apply (returns_foldrM _ (λ e, total e.2)); [|done|done]. intros e acc He _.
    eapply fresh_returns_bind; [exact He|]. intros name _. apply returns_ret, nest_field_ok.
  - intros content Hc. eapply fresh_returns_bind; [exact Hfst|]. intros name _. by apply returns_ret.
Qed.

Definition fields_ok (acc : IndexMap Ident Field * list (NickelValue * Field)) : Prop :=
  ∀ id f, (id, f) ∈ acc.1 → piece_ok f.

Lemma insert_static_ok static_fields id f :
  (∀ id f, (id, f) ∈ static_fields → piece_ok f) → piece_ok f →
  ∃ fs, insert_static_field static_fields id f = Done fs ∧ ∀ id f, (id, f) ∈ fs → piece_ok f.
Proof.
  intros Hs Hf. unfold insert_static_field.
  destruct (im_get static_fields id) as [prev|] eqn:Hg.
  - apply im_get_in in Hg. apply Hs in Hg. rewrite combine_pieces_ok by done. eexists. split; [done|].
    intros id' f' [[= -> ->]|Hin]%im_insert_in; [by apply merged_piece_ok|by eapply Hs].
  - eexists. split; [done|]. intros id' f' [[= -> ->]|Hin]%im_insert_in; [done|by eapply Hs].
Qed.

Lemma add_definition_ok acc d :
  fields_ok acc → piece_ok d.2 → ∃ acc', add_definition acc d = Done acc' ∧ fields_ok acc'.
Proof.
  destruct acc as [fs dyns], d as [[id|e] f]; simpl; intros Hacc Hf; [|destruct (term_static_str e)].
  - destruct (insert_static_ok fs id f) as (fs' & -> & Hfs'); [done..|]. by eexists.
  - destruct (insert_static_ok fs (ident s) f) as (fs' & -> & Hfs'); [done..|]. by eexists.
  - by eexists.
Qed.

Lemma returns_record includes defs open :
  Forall total includes → Forall (λ d, returns d (λ d, piece_ok d.2)) defs →
  returns (lower_record includes defs open) (λ v, is_record v = false).
Proof.
  intros Hi Hd. unfold lower_record. apply (fresh_returns_bind _ _ fields_ok).
  - eapply returns_foldM; [|exact Hd|by intros id f ?%elem_of_nil]. intros acc d Hacc Hdef.
    eapply fresh_returns_bind; [exact Hdef|]. intros d' Hd'.
    destruct (add_definition_ok acc d') as (acc' & Heq & Hacc'); [done..|]. by eapply returns_lift.
  - intros [fs dyns] _. apply value_ok; [|done]. by apply (total_mapM _ total).
Qed.

(** *** Expressions *)

Lemma returns_op_app op args :
  operands op ≤ length args → Forall total args →
  returns (lower_op_app op args) (λ v, is_record v = false).
Proof.
  intros Hlen Hargs.
  assert (Harg : ∀ i, i < length args → total (match args !! i with Some m => m | None => fresh_panic end)).
  { intros i Hi. destruct (lookup_lt_is_Some_2 args i Hi) as [m Hm]. rewrite Hm.
    by apply (Forall_lookup_1 _ _ _ _ Hargs Hm). }
  destruct op; simpl in Hlen; unfold lower_op_app.
  - apply value_ok; [apply Harg; lia|done].
  - eapply fresh_returns_bind; [apply Harg; lia|]. intros v _. apply value_ok; [apply Harg; lia|done].
  - apply value_ok; [by apply (total_mapM _ total)|done].
Qed.

Lemma total_bindings (bs : list (Pattern * Fresh NickelValue)) :
  Forall (λ b, total b.2) bs → total (collect_bindings bs).
Proof.
  induction 1 as [|[p v] bs Hv Hbs IH]; cbn [collect_bindings]; [total_step|].
  destruct (pat_data p); try total_step; [done|]. total_step; [done|total_step].
Qed.

Lemma returns_let bs body rec :
  Forall (λ b : Pattern * Part * Fresh NickelValue, part_ok b.1.1 b.1.2 ∧ total b.2) bs → total body →
  returns (lower_let bs body rec) (λ v, is_record v = false).
Proof.
  intros Hbs Hbody. unfold lower_let.
  eapply fresh_returns_bind.
  { apply total_bindings. apply Forall_map. eapply Forall_impl; [exact Hbs|]. by intros b [_ Hb]. }
  intros r _. eapply fresh_returns_bind; [exact Hbody|]. intros b _.
  destruct r as [l|]; [by apply returns_ret|].
  apply (fresh_returns_bind _ _ (Forall (λ b, part_ok b.1.1 b.1.2))).
  - eapply returns_mapM; [|exact Hbs]. intros [[p part] v] [Hp Hv].
    eapply fresh_returns_bind; [exact Hv|]. intros v' _. by apply returns_ret.
  - intros l Hl. apply value_ok; [by apply total_compile_let|done].
Qed.

Lemma returns_fun args body :
  Forall (λ a : Pattern * Part, part_ok a.1 a.2) args → returns body (λ v, is_record v = false) →
  returns (lower_fun args body) (λ v, is_record v = false).
Proof.
  intros Hargs Hbody. unfold lower_fun. eapply fresh_returns_bind; [exact Hbody|]. intros b Hb.
  eapply returns_foldrM; [|exact Hargs|exact Hb]. intros [p part] acc Hp _. simpl.
  destruct (pat_data p); try by apply returns_ret.
  all: apply value_ok; [by apply total_compile_fun|done].
Qed.

Lemma returns_match branches :
  Forall (λ b : Pattern * Part * option (Fresh NickelValue) * Fresh NickelValue,
    part_ok b.1.1.1 b.1.1.2 ∧ opt_forall total b.1.2 ∧ total b.2) branches →
  returns (lower_match branches) (λ v, is_record v = false).
Proof.
  intros Hb. unfold lower_match.
  apply (fresh_returns_bind _ _ (Forall (λ b : CoreBranch * Part, part_ok (branch_pattern b.1) b.2))).
  - eapply returns_mapM; [|exact Hb]. intros [[[p part] g] body] (Hp & Hg & Hbody). simpl in *.
    eapply (fresh_returns_bind _ _ (λ _, True)).
    { destruct g as [g|]; [|total_step]. total_step; [done|total_step]. }
    intros g' _. eapply fresh_returns_bind; [exact Hbody|]. intros b _. by apply returns_ret.
  - intros l Hl. eapply fresh_returns_bind; [apply total_fresh|]. intros arg _.
    apply value_ok; [by apply total_compile_match|done].
Qed.

Lemma returns_type_value t :
  has_contract t = true → returns (lower_type_value u t) (λ v, is_record v = false).
Proof.
  intros Ht. apply value_ok; [|done]. eapply total_of. by apply returns_type_contract.
Qed.

Lemma forallb_total l : Forall ast_ok l → forallb wf_ast l = true → Forall total (map la l).
Proof.
  intros Hl Hw. apply Forall_map. eapply forallb_Forall_1; [exact Hw|exact Hl|].
  intros a Ha Hok. by apply ast_total.
Qed.

Lemma chunks_ok l : Forall (chunk_all ast_ok) l → ast_ok (NStringChunks l).
Proof.
  intros Hl Hw. cbn [wf_ast] in Hw. unfold la. cbn [lower_ast]. apply value_ok; [|done].
  eapply (total_foldr _ (λ c, match c with AChunkLiteral _ => True | AChunkExpr e _ => total (la e) end)).
  - intros [s'|e i] acc Hc; (total_step; [|total_step]); [total_step|].
    total_step; [done|total_step].
  - eapply forallb_Forall_1; [exact Hw|exact Hl|]. intros [s'|e i] Hc Hok; [done|]. by apply ast_total.
Qed.

Lemma fun_ok args body : Forall pattern_ok args → ast_ok body → ast_ok (NFun args body).
Proof.
  intros Hargs Hbody Hw. cbn [wf_ast] in Hw. apply andb_true_iff in Hw as [Hwa Hwb].
  unfold la. cbn [lower_ast]. apply returns_fun; [|by apply Hbody].
  apply Forall_map. by apply pieces_ok_patterns.
Qed.

Lemma let_ok bs body rec :
  Forall (binding_all ast_ok pattern_ok annot_ok) bs → ast_ok body → ast_ok (NLet bs body rec).
Proof.
  intros Hbs Hbody Hw. cbn [wf_ast] in Hw. apply andb_true_iff in Hw as [Hwb Hw].
  unfold la. cbn [lower_ast]. apply returns_let; [|by apply ast_total].
  apply Forall_map. eapply forallb_Forall_1; [exact Hwb|exact Hbs|].
  intros [p [doc an] v]. cbn. rewrite !andb_true_iff. intros [[Hp Ha] Hv] (Hpo & Hao & Hvo).
  split; [by apply Hpo|]. total_step; [by apply ast_total|].
  destruct (ast_annot_is_empty an); [total_step|]. total_step; [|total_step].
  by eapply total_of, Hao.
Qed.

Lemma app_ok h args : ast_ok h → Forall ast_ok args → ast_ok (NApp h args).
Proof.
  intros Hh Hargs Hw. cbn [wf_ast] in Hw. apply andb_true_iff in Hw as [Hwh Hwa].
  unfold la. cbn [lower_ast]. eapply fresh_returns_bind; [by apply Hh|]. intros v Hv.
  apply (returns_foldM _ (λ a, total (la a))); [|by apply Forall_map, forallb_total|done].
  intros b a _ Ha. by apply value_ok.
Qed.

Lemma variant_ok tag a : ast_ok a → ast_ok (NEnumVariant tag (Some a)).
Proof. intros Ha Hw. unfold la. cbn [lower_ast]. apply value_ok; [by apply ast_total|done]. Qed.

Lemma record_ok includes defs open :
  Forall (include_all meta_ok) includes → Forall (def_all ast_ok meta_ok) defs →
  ast_ok (NRecord (mkRecord includes defs open)).
Proof.
  intros Hi Hd Hw. cbn [wf_ast] in Hw. apply andb_true_iff in Hw as [Hwi Hwd].
  unfold la. cbn [lower_ast]. apply returns_record; apply Forall_map.
  - eapply forallb_Forall_1; [exact Hwi|exact Hi|]. intros [id m] Hm Hok.
    total_step; [by apply Hok|total_step].
  - eapply forallb_Forall_1; [exact Hwd|exact Hd|]. intros [path m v]. cbn.
    rewrite !andb_true_iff. intros [[[Hne Hp] Hm] Hv] (Hpo & Hmo & Hvo).
    apply returns_path; [by destruct path| |destruct v; [by apply Hvo|done]|by apply Hmo].
    apply Forall_map. eapply forallb_Forall_1; [exact Hp|exact Hpo|].
    intros [id|e] He Hok; cbn [snd]; [by total_step|]. total_step; [by apply ast_total|total_step].
Qed.

Lemma match_ok l : Forall (branch_all ast_ok pattern_ok) l → ast_ok (NMatch l).
Proof.
  intros Hl Hw. cbn [wf_ast] in Hw. unfold la. cbn [lower_ast]. apply returns_match, Forall_map.
  eapply forallb_Forall_1; [exact Hw|exact Hl|]. intros [p g body]. cbn.
  rewrite !andb_true_iff. intros [[Hp Hg] Hb] (Hpo & Hgo & Hbo).
  split_and!; [by apply Hpo|destruct g; [by apply ast_total|done]|by apply ast_total].
Qed.

Lemma op_ok op l : Forall ast_ok l → ast_ok (NPrimOpApp op l).
Proof.
  intros Hl Hw. cbn [wf_ast] in Hw. rewrite andb_true_iff, bool_decide_eq_true in Hw.
  destruct Hw as [Hlen Hw]. unfold la. cbn [lower_ast].
  apply returns_op_app; [by rewrite length_map|by apply forallb_total].
Qed.

Lemma annotation_ok typ contracts :
  opt_forall type_ok typ → Forall type_ok contracts → annot_ok (mkAnnotation typ contracts).
Proof.
  intros Ht Hc Hw. cbn [wf_annot] in Hw. apply andb_true_iff in Hw as [Hwt Hwc].
  unfold lan. cbn [lower_annot]. eapply (fresh_returns_bind _ _ (λ _, True)).
  { destruct typ as [t|]; [|total_step]. total_step; [by eapply total_of, Ht|total_step]. }
  intros typ' _.
  apply (fresh_returns_bind _ _ (λ l, map (λ t, shape (labeled_typ t)) l = map erase contracts));
    [|intros; by apply returns_ret].
  revert Hwc. induction Hc as [|t l Hty Hl IH]; intros Hwc; [by apply returns_ret|].
  cbn in Hwc. apply andb_true_iff in Hwc as [Hwt' Hwl]. cbn [mapM].
  eapply fresh_returns_bind.
  { eapply fresh_returns_bind; [by apply Hty|]. intros t' Ht'.
    apply (returns_ret _ (λ t', shape (labeled_typ t') = erase t)). by rewrite <-Ht'. }
  intros t' Ht'. eapply fresh_returns_bind; [by apply IH|]. intros l' Hl'. apply returns_ret.
  simpl. by rewrite Ht', Hl'.
Qed.

(** *** Types *)

(** A constructor over what the parts are lowered to. *)
Lemma shape_map {A} (m : Fresh A) (P : A → Prop) (f : A → Typ) t :
  returns m P → (∀ a, P a → shape (f a) = t) → returns (a ← m; mret (f a)) (λ t', shape t' = t).
Proof. intros Hm Hf. eapply fresh_returns_bind; [exact Hm|]. intros a Ha. apply returns_ret. auto. Qed.

Lemma erows_extend_ok id t e : opt_forall type_ok t → aerows_ok e → aerows_ok (AERExtend id t e).
Proof.
  intros Ht He Hw. cbn [wf_erows] in Hw. apply andb_true_iff in Hw as [Hwt Hwe]. cbn [lower_erows].
  apply (fresh_returns_bind _ _ (λ o, match o with Some t => Some (shape t) | None => None end
                                      = match t with Some t => Some (erase t) | None => None end)).
  - destruct t as [t|]; [|by apply returns_ret]. eapply fresh_returns_bind; [by apply Ht|].
    intros t' Ht'. apply returns_ret. by rewrite Ht'.
  - intros o Ho. eapply fresh_returns_bind; [by apply He|]. intros e' He'. apply returns_ret.
    simpl. by rewrite Ho, He'.
Qed.

Lemma lowering_ok : (∀ a, ast_ok a) ∧ (∀ p, pattern_ok p) ∧ (∀ a, annot_ok a) ∧ (∀ m, meta_ok m)
  ∧ (∀ t, type_ok t) ∧ (∀ r, arrows_ok r) ∧ (∀ e, aerows_ok e).
Proof.
  apply ast_mutind.
  - intros a Hl Hw. destruct a; try done; try by apply returns_ret. by destruct arg; [|apply returns_ret].
  - apply chunks_ok.
  - apply fun_ok.
  - apply let_ok.
  - apply app_ok.
  - apply variant_ok.
  - apply record_ok.
  - intros c t e Hc Ht He Hw. cbn [wf_ast] in Hw. rewrite !andb_true_iff in Hw. destruct_and?.
    unfold la. cbn [lower_ast]. eapply fresh_returns_bind; [by apply ast_total|]. intros c' _.
    eapply fresh_returns_bind; [by apply ast_total|]. intros t' _. by apply value_ok; [apply ast_total|].
  - apply match_ok.
  - intros l Hl Hw. cbn [wf_ast] in Hw. unfold la. cbn [lower_ast]. apply value_ok; [|done].
    apply (total_mapM _ (λ a, total (la a))); [done|]. by apply Forall_map, forallb_total.
  - apply op_ok.
  - intros an a Han Ha Hw. cbn [wf_ast] in Hw. apply andb_true_iff in Hw as [Hwan Hwa].
    unfold la. cbn [lower_ast]. eapply fresh_returns_bind; [by apply Han|]. intros an' _.
    by apply value_ok; [apply ast_total|].
  - intros t Ht Hw. cbn [wf_ast] in Hw. apply andb_true_iff in Hw as [Hwc Hwt].
    unfold la. cbn [lower_ast]. eapply fresh_returns_bind; [by apply Ht|]. intros t' Ht'.
    apply returns_type_value. destruct (proj1 shape_facts t') as (_ & Hf & Hs).
    unfold has_contract in *. by rewrite <-Hf, <-Hs, Ht'.
  - intros d al Hl _. by apply compile_leaf.
  - intros l tail al Hl Hw. apply compile_record. by apply fp_is_ok.
  - intros l tail al Hl Hw. apply compile_array. by apply pieces_ok_patterns.
  - intros tag p al Hp Hw. apply compile_enum. by apply Hp.
  - intros l al Hl Hw. apply compile_or. by apply pieces_ok_patterns.
  - apply annotation_ok.
  - intros d a o n p Ha Hw. unfold total. cbn [lower_metadata].
    eapply fresh_returns_bind; [by apply Ha|]. intros a' _. by apply returns_ret.
  - intros t Hl _. destruct t; try done; by apply returns_ret.
  - intros a Ha Hw. cbn [lower_type]. eapply shape_map; [by apply Ha|done].
  - intros s t Hs Ht Hw. cbn [wf_type] in Hw. apply andb_true_iff in Hw as [Hws Hwt].
    cbn [lower_type]. eapply fresh_returns_bind; [by apply Hs|]. intros s' Hs'.
    eapply shape_map; [by apply Ht|]. simpl. congruence.
  - intros v k t Ht Hw. cbn [lower_type]. eapply shape_map; [by apply Ht|]. simpl. congruence.
  - intros e He Hw. cbn [lower_type]. eapply shape_map; [by apply He|]. simpl. congruence.
  - intros r Hr Hw. cbn [lower_type]. eapply shape_map; [by apply Hr|]. simpl. congruence.
  - intros t f Ht Hw. cbn [lower_type]. eapply shape_map; [by apply Ht|]. simpl. congruence.
  - intros t Ht Hw. cbn [lower_type]. eapply shape_map; [by apply Ht|]. simpl. congruence.
  - intros _. by apply returns_ret.
  - intros id _. by apply returns_ret.
  - intros _. by apply returns_ret.
  - intros id t r Ht Hr Hw. cbn [wf_rrows] in Hw. apply andb_true_iff in Hw as [Hwt Hwr].
    cbn [lower_rrows]. eapply fresh_returns_bind; [by apply Ht|]. intros t' Ht'.
    eapply fresh_returns_bind; [by apply Hr|]. intros r' Hr'. apply returns_ret. simpl. congruence.
  - intros _. by apply returns_ret.
  - intros id _. by apply returns_ret.
  - apply erows_extend_ok.
Qed.

End tree.
End lowering.
