(* ===== verification/LoweringTheorems.v ===== *)
(** * Properties of the lowering

    The lowering of a well-formed syntax tree returns a term; the fields of a
    record are the merges of their pieces, of which the ones of highest priority
    survive; operators are lowered to what they are raised from. *)
From Stdlib Require Import QArith.Qcanon.
From S2P Require Import Prelude IndexMap Values AstInd Records Make Ast Pattern TypeContracts Merge MergeTheorems Lowering LoweringFacts.

(** ** The pieces of a field *)

Definition static_name (n : FieldName) : option Ident :=
  match n with FieldIdent id => Some id | FieldExpr e => ident <$> term_static_str e end.

(** The definitions of a field whose name is known, in the order of the source. *)
Definition pieces (id : Ident) (defs : list (FieldName * Field)) : list Field :=
  omap (λ d, if bool_decide (static_name d.1 = Some id) then Some d.2 else None) defs.

Definition dynamic (d : FieldName * Field) : option (NickelValue * Field) :=
  match d with
  | (FieldExpr e, f) => match term_static_str e with None => Some (e, f) | Some _ => None end
  | (FieldIdent _, _) => None
  end.

Definition definition_of (l : list Field) : option Field :=
  match l with [] => None | f :: l => Some (foldl merged_piece f l) end.

(** The value of a piece with its priority. *)
Definition defined (f : Field) : option (MergePriority * NickelValue) :=
  (λ v, (priority (into_inner (metadata f)), v)) <$> value f.

(** The pieces of which no other has a higher priority. *)
Definition survivors (l : list (MergePriority * NickelValue)) : list (MergePriority * NickelValue) :=
  List.filter (λ x, forallb (λ y, negb (priority_gt y.1 x.1)) l) l.

(** Their merge, a left-leaning tree of merge operators. *)
Definition merge_all (l : list (MergePriority * NickelValue)) : option NickelValue :=
  match l with
  | [] => None
  | x :: l => Some (foldl (λ v y, op2 (MergeOp (mkMergeLabel PiecewiseDef)) v y.2) x.2 l)
  end.

Lemma shared_value_back m : into_inner (to_shared m) = m.
Proof.
  unfold to_shared, metadata_is_empty. destruct m as [d [t cs] o ne p]. simpl.
  destruct d, t, cs, o, ne, p; done.
Qed.

Lemma definition_of_app l f :
  definition_of (l ++ [f]) = Some (match definition_of l with Some g => merged_piece g f | None => f end).
Proof. destruct l as [|g l]; [done|]. simpl. by rewrite foldl_app. Qed.

Lemma definition_ok l f : Forall piece_ok l → definition_of l = Some f → piece_ok f.
Proof.
  destruct l as [|g l]; [done|]. intros [Hg Hl]%Forall_cons [= <-]. revert g Hg.
  induction Hl as [|g' l Hg' Hl IH]; intros g Hg; [done|]. simpl. by apply IH, merged_piece_ok.
Qed.

Section fields.
Context `{IndexMapLaws Ident}.

(** The fields and the dynamic definitions read so far. *)
Definition collected (defs : list (FieldName * Field))
    (acc : IndexMap Ident Field * list (NickelValue * Field)) : Prop :=
  im_ok acc.1 ∧ (∀ id, im_get acc.1 id = definition_of (pieces id defs)) ∧ acc.2 = omap dynamic defs.

Lemma pieces_app id defs d :
  pieces id (defs ++ [d])
  = pieces id defs ++ (if bool_decide (static_name d.1 = Some id) then [d.2] else []).
Proof. unfold pieces. rewrite omap_app. f_equal. simpl. by destruct (bool_decide _). Qed.

Lemma pieces_ok defs id : Forall (λ d, piece_ok d.2) defs → Forall piece_ok (pieces id defs).
Proof.
  intros Hd. apply Forall_forall. intros f (d & Hin & Hf)%list_elem_of_omap.
  rewrite Forall_forall in Hd. case_bool_decide; simplify_eq. by apply Hd.
Qed.

Lemma collect_static defs fs dyns d id :
  collected defs (fs, dyns) → Forall (λ d, piece_ok d.2) defs → piece_ok d.2 →
  static_name d.1 = Some id → dynamic d = None →
  ∃ fs', insert_static_field fs id d.2 = Done fs' ∧ collected (defs ++ [d]) (fs', dyns).
Proof.
  intros (Hok & Hget & Hdyn) Hdefs Hd Hname Hnd. simpl in *. unfold insert_static_field.
  set (f := match definition_of (pieces id defs) with Some g => merged_piece g d.2 | None => d.2 end).
  exists (im_insert fs id f). split.
  - rewrite Hget. subst f. destruct (definition_of _) as [g|] eqn:Hg; [|done].
    rewrite combine_pieces_ok; [done| |done]. eapply definition_ok; [|done]. by apply pieces_ok.
  - destruct (im_insert_get fs id f Hok) as (Hok' & Hid & Hother). split_and!; [done| |].
    + simpl. intros id'. rewrite pieces_app, Hname. case_bool_decide as Heq; simplify_eq.
      * by rewrite Hid, definition_of_app.
      * rewrite app_nil_r, Hother by congruence. apply Hget.
    + simpl. rewrite omap_app, <-Hdyn. simpl. rewrite Hnd. by rewrite app_nil_r.
Qed.

Lemma collect_definitions defs :
  Forall (λ d, piece_ok d.2) defs →
  ∃ acc, foldM_outcome add_definition ([], []) defs = Done acc ∧ collected defs acc.
Proof.
  assert (Hgen : ∀ defs seen acc, collected seen acc →
    Forall (λ d, piece_ok d.2) seen → Forall (λ d, piece_ok d.2) defs →
    ∃ acc', foldM_outcome add_definition acc defs = Done acc' ∧ collected (seen ++ defs) acc').
  { clear defs. induction defs as [|d defs IH]; intros seen [fs dyns] Hacc Hseen Hdefs.
    { exists (fs, dyns). by rewrite app_nil_r. }
    apply Forall_cons in Hdefs as [Hd Hdefs].
    assert (Hstep : ∃ acc', add_definition (fs, dyns) d = Done acc' ∧ collected (seen ++ [d]) acc').
    { destruct d as [[id|e] f]; [|destruct (term_static_str e) as [s|] eqn:Hs].
      - destruct (collect_static seen fs dyns (FieldIdent id, f) id) as (fs' & Heq & Hc); [done..|].
        exists (fs', dyns). split; [|done]. simpl in *. by rewrite Heq.
      - destruct (collect_static seen fs dyns (FieldExpr e, f) (ident s)) as (fs' & Heq & Hc);
          [done..|by simpl; rewrite Hs|by simpl; rewrite Hs|].
        exists (fs', dyns). split; [|done]. simpl in *. by rewrite Hs, Heq.
      - exists (fs, dyns ++ [(e, f)]). split; [by simpl; rewrite Hs|].
        destruct Hacc as (Hok & Hget & Hdyn). split_and!; [done| |].
        + intros id. rewrite pieces_app. simpl. rewrite Hs. simpl. rewrite app_nil_r. apply Hget.
        + simpl in *. rewrite omap_app, <-Hdyn. simpl. by rewrite Hs. }
    destruct Hstep as (acc' & Heq & Hc). cbn [foldM_outcome]. rewrite Heq.
    destruct (IH (seen ++ [d]) acc') as (acc'' & Heq' & Hc'); [done|by apply Forall_app_2; [|constructor]|done|].
    exists acc''. rewrite <-app_assoc in Hc'. done. }
  intros Hdefs. apply (Hgen defs [] ([], [])); [|done|done].
  split_and!; [by apply NoDup_nil_2| |done]. intros id. apply im_get_none; [by apply NoDup_nil_2|].
  apply not_elem_of_nil.
Qed.

End fields.

(** ** Priorities *)

Definition add_piece (acc : option (MergePriority * NickelValue)) (x : MergePriority * NickelValue)
    : option (MergePriority * NickelValue) :=
  match acc with
  | None => Some x
  | Some (p, v) =>
      match priority_cmp p x.1 with
      | Eq => Some (p, op2 (MergeOp (mkMergeLabel PiecewiseDef)) v x.2)
      | Gt => Some (p, v)
      | Lt => Some x
      end
  end.

Lemma defined_merged f1 f2 :
  defined (merged_piece f1 f2)
  = match defined f2 with Some x => add_piece (defined f1) x | None => defined f1 end.
Proof.
  unfold merged_piece, merged_value, defined at 1.
  unfold defined. destruct (value f1), (value f2); simpl; rewrite ?shared_value_back; try done.
  by destruct (priority_cmp _ _); simpl; rewrite shared_value_back.
Qed.

Lemma defined_pieces f l :
  defined (foldl merged_piece f l) = foldl add_piece (defined f) (omap defined l).
Proof.
  revert f. induction l as [|g l IH]; intros f; [done|]. simpl. rewrite IH, defined_merged.
  by destruct (defined g).
Qed.

Lemma priority_gt_spec p q : priority_gt p q = true ↔ prio_lt q p.
Proof.
  unfold priority_gt. pose proof (priority_cmp_spec p q) as Hc. destruct (priority_cmp p q);
    (split; [try done|intros Hlt; try done]); exfalso.
  - eapply prio_lt_irrefl; [exact Hlt|by symmetry].
  - eapply (prio_lt_irrefl p p); [by eapply prio_lt_trans|done].
Qed.

Lemma priority_not_gt p q : negb (priority_gt p q) = true ↔ ¬ prio_lt q p.
Proof. rewrite <-priority_gt_spec. by destruct (priority_gt p q). Qed.

Definition dominated (l : list (MergePriority * NickelValue)) (x : MergePriority * NickelValue) : Prop :=
  ∃ y, y ∈ l ∧ prio_lt x.1 y.1.

Lemma undominated_spec l x :
  forallb (λ y, negb (priority_gt y.1 x.1)) l = true ↔ ¬ dominated l x.
Proof.
  rewrite forallb_forall. unfold dominated. split.
  - intros Hl (y & Hy & Hlt). apply list_elem_of_In, Hl, priority_not_gt in Hy. done.
  - intros Hn y Hy. apply priority_not_gt. intros Hlt. apply Hn. exists y. by rewrite list_elem_of_In.
Qed.

Lemma in_survivors l x : x ∈ survivors l ↔ x ∈ l ∧ ¬ dominated l x.
Proof. unfold survivors. by rewrite list_elem_of_In, filter_In, undominated_spec, <-list_elem_of_In. Qed.

Lemma dominated_snoc l x y : dominated (l ++ [x]) y ↔ dominated l y ∨ prio_lt y.1 x.1.
Proof.
  unfold dominated. setoid_rewrite elem_of_app. setoid_rewrite list_elem_of_singleton. naive_solver.
Qed.

(** The survivors of a longer list, when those of the shorter one are known to
    survive or not. *)
Lemma survivors_app l x :
  survivors (l ++ [x])
  = List.filter (λ y : MergePriority * NickelValue, negb (priority_gt x.1 y.1)) (survivors l)
    ++ (if forallb (λ y : MergePriority * NickelValue, negb (priority_gt y.1 x.1)) l then [x] else []).
Proof.
  unfold survivors. rewrite List.filter_app. f_equal.
  - assert (Hall : ∀ k, List.filter (λ y : MergePriority * NickelValue, forallb (λ z : MergePriority * NickelValue, negb (priority_gt z.1 y.1)) (l ++ [x])) k
      = List.filter (λ y : MergePriority * NickelValue, negb (priority_gt x.1 y.1)) (List.filter (λ y : MergePriority * NickelValue, forallb (λ z : MergePriority * NickelValue, negb (priority_gt z.1 y.1)) l) k));
      [|apply Hall].
    induction k as [|y k IH]; [done|]. simpl. rewrite forallb_app. simpl. rewrite andb_true_r, IH.
    destruct (forallb _ l); [|done]. simpl. by destruct (negb _).
  - simpl. rewrite forallb_app. simpl. rewrite andb_true_r.
    assert (negb (priority_gt x.1 x.1) = true) as ->; [|by rewrite andb_true_r].
    apply priority_not_gt. intros Hlt. by eapply prio_lt_irrefl.
Qed.

Lemma filter_all {A} (f : A → bool) l : (∀ a, a ∈ l → f a = true) → List.filter f l = l.
Proof.
  induction l as [|a l IH]; intros Hf; [done|]. simpl. rewrite Hf by left. f_equal. apply IH.
  intros b Hb. apply Hf. by right.
Qed.

Lemma filter_none {A} (f : A → bool) l : (∀ a, a ∈ l → f a = false) → List.filter f l = [].
Proof.
  induction l as [|a l IH]; intros Hf; [done|]. simpl. rewrite Hf by left. apply IH.
  intros b Hb. apply Hf. by right.
Qed.

(** One more piece: the outcomes of the comparison with the first survivor. *)
Lemma survivors_snoc l x p v :
  (p, v) ∈ survivors l →
  survivors (l ++ [x])
  = match priority_cmp p x.1 with
    | Eq => survivors l ++ [x] | Gt => survivors l | Lt => [x] end.
Proof.
  intros [Hin Hp]%in_survivors. rewrite survivors_app.
  (* the survivors have the priority [p] *)
  assert (Hs : ∀ y, y ∈ survivors l → prio_same y.1 p).
  { intros y [Hy Hn]%in_survivors. destruct (prio_trichotomy y.1 p) as [Hlt|[Hs|Hlt]]; [|done|].
    - destruct Hn. by exists (p, v).
    - destruct Hp. by exists y. }
  assert (Hl : ∀ y, y ∈ l → ¬ prio_lt p y.1) by (intros y Hy Hlt; apply Hp; by exists y).
  pose proof (priority_cmp_spec p x.1) as Hc. destruct (priority_cmp p x.1).
  - rewrite filter_all; [f_equal|].
    + assert (forallb (λ y, negb (priority_gt y.1 x.1)) l = true) as ->; [|done].
      apply undominated_spec. intros (y & Hy & Hlt). apply (Hl y Hy). by rewrite Hc.
    + intros y Hy%Hs. apply priority_not_gt. rewrite Hy, Hc. intros Hlt. by eapply prio_lt_irrefl.
  - rewrite filter_none.
    + assert (forallb (λ y, negb (priority_gt y.1 x.1)) l = true) as ->; [|done].
      apply undominated_spec. intros (y & Hy & Hlt). apply (Hl y Hy). by eapply prio_lt_trans.
    + intros y Hy%Hs. apply negb_false_iff, priority_gt_spec. by rewrite Hy.
  - rewrite filter_all.
    + assert (forallb (λ y, negb (priority_gt y.1 x.1)) l = false) as ->; [|by rewrite app_nil_r].
      apply not_true_is_false. rewrite undominated_spec. intros Hn. apply Hn. by exists (p, v).
    + intros y Hy%Hs. apply priority_not_gt. rewrite Hy. intros Hlt.
      by eapply (prio_lt_irrefl p p); [eapply prio_lt_trans|].
Qed.

Lemma survivors_spec l :
  foldl add_piece None l
  = match survivors l with
    | [] => None
    | (p, v) :: l' => Some (p, foldl (λ v y, op2 (MergeOp (mkMergeLabel PiecewiseDef)) v y.2) v l')
    end ∧ (l ≠ [] → survivors l ≠ []).
Proof.
  induction l as [|x l [IH Hne]] using rev_ind; [done|]. rewrite foldl_app, IH. simpl.
  destruct (survivors l) as [|[p v] l'] eqn:Hs.
  - assert (l = []) as -> by (destruct l; [done|by destruct Hne]).
    rewrite (survivors_app [] x). simpl. by destruct x.
  - rewrite (survivors_snoc l x p v) by (rewrite Hs; left). rewrite Hs. simpl.
    destruct (priority_cmp p x.1); simpl; [|by destruct x|done].
    by rewrite foldl_app.
Qed.

Lemma value_of_pieces f l : value (foldl merged_piece f l) = merge_all (survivors (omap defined (f :: l))).
Proof.
  assert (Hv : ∀ g, value g = snd <$> defined g) by (intros g; unfold defined; by destruct (value g)).
  rewrite Hv, defined_pieces.
  assert (Hf : foldl add_piece (defined f) (omap defined l) = foldl add_piece None (omap defined (f :: l))).
  { simpl. by destruct (defined f). }
  rewrite Hf, (proj1 (survivors_spec _)). by destruct (survivors _) as [|[p v] l'].
Qed.

Lemma flags_of_pieces f l :
  opt (into_inner (metadata (foldl merged_piece f l)))
  = forallb (λ g, opt (into_inner (metadata g))) (f :: l)
  ∧ not_exported (into_inner (metadata (foldl merged_piece f l)))
    = existsb (λ g, not_exported (into_inner (metadata g))) (f :: l).
Proof.
  assert (Hm : ∀ f g, opt (into_inner (metadata (merged_piece f g)))
      = opt (into_inner (metadata f)) && opt (into_inner (metadata g))
    ∧ not_exported (into_inner (metadata (merged_piece f g)))
      = not_exported (into_inner (metadata f)) || not_exported (into_inner (metadata g))).
  { clear. intros f g. unfold merged_piece. destruct (merged_value f g). simpl.
    by rewrite shared_value_back. }
  revert f. induction l as [|g l IH]; intros f; simpl.
  - by rewrite andb_true_r, orb_false_r.
  - destruct (IH (merged_piece f g)) as [-> ->]. destruct (Hm f g) as [Ho Hn]. simpl.
    by rewrite Ho, Hn, andb_assoc, orb_assoc.
Qed.

Section record.
Context `{IndexMapLaws Ident}.

Lemma foldM_fresh_lift {A B} (f : B → A → outcome B) b l n :
  foldM_fresh (λ acc m, d ← m; fresh_lift (f acc d)) b (map mret l) n
  = (b' ← foldM_outcome f b l; Done (b', n)).
Proof.
  revert b. induction l as [|a l IH]; intros b; [done|]. simpl.
  unfold mbind, Fresh_bind, mret, Fresh_ret, fresh_lift. simpl.
  destruct (f b a) as [b'| |]; [|done..]. simpl. apply IH.
Qed.

Lemma mapM_mret {A} (l : list A) n : mapM id (map (mret (M := Fresh)) l) n = Done (l, n).
Proof.
  induction l as [|a l IH]; [done|].
  change (mapM id (map (mret (M := Fresh)) (a :: l)) n)
    with ('(l', n') ← mapM id (map (mret (M := Fresh)) l) n; Done (a :: l', n')).
  by rewrite IH.
Qed.

(** C21: a record is lowered to the merges of the pieces of its fields: each field
    whose name is known statically is the merge, in the order of the source, of
    its definitions; the definitions whose name is an expression are kept apart,
    in order. Of the values of a field, those of the highest priority survive,
    combined by merge operators; a field is optional when all its pieces are and
    excluded from exports when one of them is. *)
Theorem record_merges_its_pieces (includes : list (Ident * FieldMetadata))
    (defs : list (FieldName * Field)) (open : bool) (n : nat) :
  Forall (λ d, piece_ok d.2) defs →
  ∃ fs, lower_record (map mret includes) (map mret defs) open n
    = Done (VTerm (TRecRecord (mkRecRecordData
        (mkRecordData fs (mkRecordAttrs open false) None) includes (omap dynamic defs) None false)), n)
  ∧ ∀ id, im_get fs id = definition_of (pieces id defs)
    ∧ ∀ f, im_get fs id = Some f →
        value f = merge_all (survivors (omap defined (pieces id defs)))
        ∧ opt (into_inner (metadata f))
          = forallb (λ g, opt (into_inner (metadata g))) (pieces id defs)
        ∧ not_exported (into_inner (metadata f))
          = existsb (λ g, not_exported (into_inner (metadata g))) (pieces id defs).
Proof.
  intros Hdefs. destruct (collect_definitions defs Hdefs) as ([fs dyns] & Heq & Hok & Hget & Hdyn).
  simpl in *. exists fs. split.
  - unfold lower_record. unfold mbind at 1, Fresh_bind at 1. rewrite foldM_fresh_lift, Heq. simpl.
    unfold mbind, Fresh_bind. rewrite mapM_mret. by subst.
  - intros id. split; [done|]. rewrite Hget. intros f Hf.
    destruct (pieces id defs) as [|g l]; [done|]. injection Hf as <-.
    split; [apply value_of_pieces|apply flags_of_pieces].
Qed.

(** C22: the lowering of a well-formed syntax tree never panics, whatever names it
    takes for the fresh identifiers: operators have their operands, paths have an
    element, the types have a contract, and the variables of every pattern are
    bound to the names that were made for them. The result is never a record
    value: records are recursive terms or wrapped in [Closurize]. *)
Theorem lowering_never_panics `{HashOrderLaws} (u : Ident → nat) (a : Ast) :
  wf_ast a = true → returns (lower_ast u a) (λ v, is_record v = false).
Proof. apply lowering_ok. Qed.

End record.

(** ** Operators *)

(** The metadata that an operator may carry, in the form that the lowering gives. *)
Definition normal_op (op : TermPrimOp) : TermPrimOp :=
  match op with
  | TBinary (RecordInsert _ pending ext k) => TBinary (RecordInsert (Shared None) pending ext k)
  | op => op
  end.

(** C0: the operators of the syntax tree and of terms correspond: raising the
    lowering of an operator gives it back, and the lowering of what an operator
    of terms is raised to is that operator; the others, which only the evaluator
    uses, are not raised. *)
Theorem lower_op_round_trip (op : PrimOp) :
  raise_op (lower_op op) = Done op
  ∧ ∀ top, raise_op top = Done op → lower_op op = normal_op top.
Proof.
  split; [by destruct op|]. intros [o|o|o] Hr.
  - destruct o; simplify_eq/=; done.
  - destruct o; simpl in Hr; repeat case_match; rewrite ?andb_false_r in *; simplify_eq; try done.
  - destruct o; simplify_eq/=; done.
Qed.

(** ** Witnesses *)

Definition num (n : nat) : NickelValue := number_of_nat_value n.
Definition at_priority (p : MergePriority) : SharedMetadata :=
  to_shared (mkFieldMetadata None (mkTypeAnnotation None []) false false p).

(** [{ a | default = 0, b = 1, a = 2, "%{x}" = 3, a = 4 }] *)
Definition sample_defs : list (FieldName * Field) :=
  [ (FieldIdent "a", mkField (Some (num 0)) (at_priority Bottom) []);
    (FieldIdent "b", field_from_value (num 1));
    (FieldIdent "a", field_from_value (num 2));
    (FieldExpr (VTerm (TStrChunks [ChunkExpr (var "x") 0])), field_from_value (num 3));
    (FieldExpr (VTerm (TStrChunks [ChunkLiteral "a"])), field_from_value (num 4)) ]%string.

Lemma record_merges_its_pieces_witness :
  Forall (λ d, piece_ok d.2) sample_defs
  ∧ (λ f, value f) <$> definition_of (pieces "a"%string sample_defs)
    = Some (Some (op2 (MergeOp (mkMergeLabel PiecewiseDef)) (num 2) (num 4)))
  ∧ ∃ fs, lower_record (map mret []) (map mret sample_defs) false 0
    = Done (VTerm (TRecRecord (mkRecRecordData
        (mkRecordData fs (mkRecordAttrs false false) None) [] (omap dynamic sample_defs) None false)), 0).
Proof.
  assert (Hd : Forall (λ d, piece_ok d.2) sample_defs) by (repeat constructor).
  split; [exact Hd|]. split; [vm_compute; reflexivity|].
  destruct (record_merges_its_pieces [] sample_defs false 0 Hd) as (fs & Heq & _). by exists fs.
Defined.

(** [fun {x ? 0, ..} => { a.b = match { 'Some y if x => y, [z, ..rest] => rest }, a.b | priority 1 = x }] *)
Definition sample_tree : Ast :=
  NFun
    [mkPattern (PatRecord [mkFieldPattern "x" (mkAnnotation None [ATyNumber]) (Some (NNumber 0%Qc))
                             (pattern_any "x")] TailOpen) None]
    (NRecord (mkRecord []
      [ mkFieldDef [PathIdent "a"; PathIdent "b"] ast_metadata_default
          (Some (NMatch
            [ mkMatchBranch (mkPattern (PatEnum "Some" (Some (pattern_any "y"))) None)
                (Some (NVar "x")) (NVar "y");
              mkMatchBranch (mkPattern (PatArray [pattern_any "z"] (TailCapture "rest")) None)
                None (NVar "rest") ]));
        mkFieldDef [PathIdent "a"; PathIdent "b"]
          (mkAstFieldMetadata None ast_annot_default false false (Numeral 1%Qc)) (Some (NVar "x")) ] false))%string.

Lemma lowering_never_panics_witness :
  wf_ast sample_tree = true
  ∧ ∃ v n, @lower_ast assoc_index_map sorted_order (λ _, 0) sample_tree 0 = Done (v, n) ∧ is_record v = false.
Proof.
  assert (Hw : wf_ast sample_tree = true) by (vm_compute; reflexivity).
  split; [exact Hw|].
  destruct (@lowering_never_panics assoc_index_map assoc_index_map_laws sorted_order sorted_order_laws
              (λ _, 0) sample_tree Hw 0) as (v & n & Heq & _ & Hv). by exists v, n.
Defined.
