(* ===== verification/RaiseTheorems.v ===== *)
(** * Raising what has been lowered

    The conversion back to the syntax tree is the inverse of the lowering on the
    fragment [core] of the syntax: no destructuring, no conditional, functions and
    paths in the form that the conversion gives back. *)
From Stdlib Require Import QArith.Qcanon.
From S2P Require Import Prelude IndexMap Values AstInd Records Make Ast Pattern TypeContracts TypeContractsTheorems Lowering Raise LoweringFacts.

(** ** The fragment *)

Definition plain_arg (p : Pattern) : bool :=
  match p with mkPattern (PatAny _) None => true | _ => false end.

Definition no_metadata (m : LetMetadata) : bool :=
  match m with mkLetMetadata None (mkAnnotation None []) => true | _ => false end.

Definition is_fun (a : Ast) : bool := match a with NFun _ _ => true | _ => false end.
Definition is_app (a : Ast) : bool := match a with NApp _ _ => true | _ => false end.

(** The operators whose arguments are not swapped, with the right number of them. *)
Definition plain_op (op : PrimOp) (n : nat) : bool :=
  match op with
  | PArrayAt | PStringContains | PStringSubstr => false
  | _ => match lower_op op with TUnary _ => bool_decide (n = 1) | TBinary _ => bool_decide (n = 2) | TNAry _ => true end
  end.

Definition static_def (d : FieldDef) : option Ident :=
  match path d with [PathIdent id] => Some id | _ => None end.

Definition is_static_def (d : FieldDef) : bool :=
  match static_def d with Some _ => true | None => false end.

(** The static fields come first. *)
Fixpoint static_first (l : list FieldDef) : bool :=
  match l with
  | [] => true
  | d :: l => if is_static_def d then static_first l else forallb (λ d, negb (is_static_def d)) l
  end.

Definition no_static_str (a : Ast) : bool :=
  match ast_static_str a with None => true | Some _ => false end.

Fixpoint core (a : Ast) : bool :=
  match a with
  | NNull | NBool _ | NNumber _ | NString _ | NVar _ | NImport _ | NParseError _ => true
  | NStringChunks l =>
      forallb (λ c, match c with AChunkLiteral _ => true | AChunkExpr e _ => core e end) l
  | NFun args body =>
      negb (bool_decide (length args = 0)) && forallb plain_arg args && core body && negb (is_fun body)
  | NLet bs body _ =>
      forallb (λ b, let 'mkLetBinding p m v := b in plain_arg p && no_metadata m && core v) bs
      && core body
  | NApp h args =>
      bool_decide (length args = 1) && core h && negb (is_app h) && forallb core args
  | NEnumVariant _ arg => match arg with Some a => core a | None => true end
  | NRecord (mkRecord includes defs _) =>
      forallb (λ i, let 'mkInclude _ m := i in core_metadata m) includes
      && static_first defs && bool_decide (NoDup (omap static_def defs))
      && forallb (λ d, let 'mkFieldDef path m v := d in
           bool_decide (length path = 1)
           && forallb (λ e, match e with
                            | PathIdent _ => true
                            | PathExpr e => core e && no_static_str e
                            end) path
           && core_metadata m && match v with Some v => core v | None => true end) defs
  | NArray l => forallb core l
  | NPrimOpApp op l => plain_op op (length l) && forallb core l
  | NAnnotated an a => core_annot an && core a
  | NType t => has_contract (erase t) && core_type t
  | NIfThenElse _ _ _ | NMatch _ => false
  end
with core_annot (a : Annotation) : bool :=
  let 'mkAnnotation typ contracts := a in
  match typ with Some t => core_type t | None => true end && forallb core_type contracts
with core_metadata (m : AstFieldMetadata) : bool :=
  let 'mkAstFieldMetadata _ a _ _ _ := m in core_annot a
with core_type (t : Type_) : bool :=
  match t with
  | ATyContract a => core a
  | ATyArrow s t => core_type s && core_type t
  | ATyForall _ _ t | ATyDict t _ | ATyArray t => core_type t
  | ATyEnum e => core_erows e
  | ATyRecord r => core_rrows r
  | _ => true
  end
with core_rrows (r : AstRecordRows) : bool :=
  match r with ARRExtend _ t r => core_type t && core_rrows r | _ => true end
with core_erows (e : AstEnumRows) : bool :=
  match e with
  | AERExtend _ t e => match t with Some t => core_type t | None => true end && core_erows e
  | _ => true
  end.

(** ** Terms that come from the fragment *)

Definition term_is_fun (v : NickelValue) : bool := match v with VTerm (TFun _ _) => true | _ => false end.
Definition term_is_app (v : NickelValue) : bool := match v with VTerm (TApp _ _) => true | _ => false end.

(** What is known of the lowering [v] of [a]. *)
Definition lowered (a : Ast) (v : NickelValue) : Prop :=
  raise_value v = Done a ∧ term_is_fun v = is_fun a ∧ term_is_app v = is_app a
  ∧ (no_static_str a = true → term_static_str v = None).

Lemma raise_app h a :
  term_is_app h = false →
  raise_value (app h a) = (x ← raise_value a; h' ← raise_value h; Done (NApp h' [x])).
Proof.
  intros Hh. destruct h as [| | | | | |t| | | | | | |]; try done.
  destruct t; done.
Qed.

Lemma raise_funs args body b :
  args ≠ [] → raise_value b = Done body → term_is_fun b = false → forallb plain_arg args = true →
  raise_value (foldr (λ p acc, match pat_data p with PatAny id => fn id acc | _ => acc end) b args)
  = Done (NFun args body).
Proof.
  intros Hne Hb Hf. induction args as [|[d al] args IH]; [done|].
  cbn [forallb]. rewrite andb_true_iff. intros [Hp Hargs].
  destruct d as [|id| | | | |]; try done. destruct al; [done|]. clear Hp. simpl.
  destruct args as [|p args].
  - simpl. rewrite Hb. simpl. destruct b as [| | | | | |t| | | | | | |]; try done. by destruct t.
  - rewrite IH by done. simpl. destruct p as [[|id'| | | | |] [|]]; done.
Qed.

(** ** Lists *)

Lemma mapM_done {A B} (f : A → outcome B) l l' :
  Forall2 (λ a b, f a = Done b) l l' → mapM f l = Done l'.
Proof. induction 1 as [|a b l l' Hab Hl IH]; [done|]. simpl. rewrite Hab. simpl. by rewrite IH. Qed.

Lemma returns_mapM2 {A B} (f : A → Fresh B) (R : A → B → Prop) l :
  Forall (λ a, returns (f a) (R a)) l → returns (mapM f l) (Forall2 R l).
Proof.
  induction 1 as [|a l Ha Hl IH]; [by apply returns_ret|]. cbn [mapM].
  eapply fresh_returns_bind; [exact Ha|]. intros b Hb.
  eapply fresh_returns_bind; [exact IH|]. intros bs Hbs. apply returns_ret. by constructor.
Qed.

(** The lowering of a list, and its raising. *)
Lemma mapM_back_self {A B} (f : A → Fresh B) (r : B → outcome A) l :
  Forall (λ a, returns (f a) (λ b, r b = Done a)) l →
  returns (mapM f l) (λ l', mapM r l' = Done l).
Proof.
  intros Hl. eapply returns_mono; [by apply (returns_mapM2 _ (λ a b, r b = Done a))|].
  intros l' Hl'. apply mapM_done. clear Hl. induction Hl'; by constructor.
Qed.

(** ** Records *)

Section record.
Context `{IndexMapLaws Ident}.

Definition field_back (m : AstFieldMetadata) (v : option Ast) (f : Field) : Prop :=
  ∀ path, raise_field path f = Done (mkFieldDef path m v).

Definition def_back (d : FieldDef) (d' : FieldName * Field) : Prop :=
  field_back (def_metadata d) (def_value d) d'.2 ∧
  match static_def d with
  | Some id => d'.1 = FieldIdent id ∧ path d = [PathIdent id]
  | None => ∃ e e', d'.1 = FieldExpr e' ∧ path d = [PathExpr e] ∧ raise_value e' = Done e
                    ∧ term_static_str e' = None
  end.

Definition raise_static (p : Ident * Field) : outcome FieldDef :=
  let (id, f) := p in raise_field [PathIdent id] f.
Definition raise_dynamic (p : NickelValue * Field) : outcome FieldDef :=
  let (expr, f) := p in e ← raise_value expr; raise_field [PathExpr e] f.

Let add (acc : IndexMap Ident Field * list (NickelValue * Field)) (def : Fresh (FieldName * Field)) :=
  d ← def; fresh_lift (add_definition acc d).

Lemma dynamic_phase (defs : list FieldDef) ms fs dyns :
  Forall2 (λ d m, returns m (def_back d)) defs ms →
  forallb (λ d, negb (is_static_def d)) defs = true →
  returns (foldM_fresh add (fs, dyns) ms)
    (λ acc, ∃ ds, acc = (fs, dyns ++ ds) ∧ mapM raise_dynamic ds = Done defs).
Proof.
  intros Hms. revert dyns. induction Hms as [|d m defs ms Hm Hms IH]; intros dyns Hd.
  { apply returns_ret. exists []. by rewrite app_nil_r. }
  cbn [forallb] in Hd. apply andb_true_iff in Hd as [Hd Hds]. cbn [foldM_fresh].
  eapply (fresh_returns_bind _ _ (λ acc, ∃ e f, acc = (fs, dyns ++ [(e, f)]) ∧ raise_dynamic (e, f) = Done d)).
  - eapply fresh_returns_bind; [exact Hm|]. intros [name f] [Hf Hname]. unfold is_static_def in Hd.
    destruct (static_def d); [done|]. simpl in Hname. destruct Hname as (e & e' & -> & Hp & He & Hs).
    eapply returns_lift; [simpl; by rewrite Hs|]. exists e', f. split; [done|]. simpl. rewrite He. simpl.
    rewrite Hf. destruct d. simpl in *. by subst.
  - intros acc (e & f & -> & Hr). eapply returns_mono; [by apply IH|].
    intros acc (ds & -> & Hds'). exists ((e, f) :: ds). split; [by rewrite <-app_assoc|].
    cbn [mapM]. rewrite Hr. simpl. by rewrite Hds'.
Qed.

Lemma static_phase (defs : list FieldDef) ms fs :
  Forall2 (λ d m, returns m (def_back d)) defs ms →
  static_first defs = true → NoDup (omap static_def defs) →
  (∀ id, id ∈ omap static_def defs → id ∉ keys fs) →
  returns (foldM_fresh add (fs, []) ms)
    (λ acc, ∃ fs' ds stat dyn, acc = (fs ++ fs', ds) ∧ mapM raise_static fs' = Done stat
            ∧ mapM raise_dynamic ds = Done dyn ∧ defs = stat ++ dyn).
Proof.
  intros Hms. revert fs. induction Hms as [|d m defs ms Hm Hms IH]; intros fs Hs Hnd Hdis.
  { apply returns_ret. exists [], [], [], []. by rewrite app_nil_r. }
  cbn [static_first] in Hs. destruct (is_static_def d) eqn:Hd.
  - unfold is_static_def in Hd. destruct (static_def d) as [id|] eqn:Hid; [|done].
    simpl in Hnd, Hdis. rewrite Hid in Hnd, Hdis. apply NoDup_cons in Hnd as [Hni Hnd].
    assert (Hk : id ∉ keys fs) by (apply Hdis; left). cbn [foldM_fresh].
    eapply (fresh_returns_bind _ _ (λ acc, ∃ f, acc = (fs ++ [(id, f)], []) ∧ raise_static (id, f) = Done d)).
    + eapply fresh_returns_bind; [exact Hm|]. intros [name f] [Hf Hname]. rewrite Hid in Hname.
      destruct Hname as [Hn Hp]. simpl in Hn. subst name. eapply returns_lift.
      { simpl. unfold insert_static_field. destruct (im_get fs id) eqn:Hg.
        - apply im_get_in in Hg. destruct Hk. apply elem_of_keys. by eexists.
        - by rewrite im_insert_new. }
      exists f. split; [done|]. simpl. rewrite Hf. destruct d. simpl in *. by subst.
    + intros acc (f & -> & Hr). eapply returns_mono; [apply IH; [done..|]|].
      { intros id' Hid'. rewrite keys_app, not_elem_of_app. split; [apply Hdis; by right|].
        simpl. rewrite list_elem_of_singleton. by intros ->. }
      intros acc (fs' & ds & stat & dyn & -> & Hfs' & Hds & ->).
      exists ((id, f) :: fs'), ds, (d :: stat), dyn. split_and!; [by rewrite <-app_assoc| |done|done].
      cbn [mapM]. rewrite Hr. simpl. by rewrite Hfs'.
  - eapply returns_mono; [apply (dynamic_phase (d :: defs)); [by constructor|]|].
    + cbn [forallb]. by rewrite Hd.
    + intros acc (ds & -> & Hds). exists [], ds, [], (d :: defs).
      split_and!; [by rewrite app_nil_r|done..].
Qed.

End record.

(** ** The round trip *)

Section tree.
Context `{IndexMapLaws Ident, HashOrderLaws}.
Context (u : Ident → nat).
Let la := lower_ast u.

Definition ast_back (a : Ast) : Prop := core a = true → returns (la a) (lowered a).
Definition annot_back (a : Annotation) : Prop :=
  core_annot a = true → returns (lower_annot u a) (λ a', raise_annot a' = Done a).
Definition meta_back (m : AstFieldMetadata) : Prop :=
  core_metadata m = true →
  returns (lower_metadata u m) (λ m', raise_metadata m' = Done m ∧
    ∀ v path name value, raise_opt raise_value v = Done value →
      raise_field path (mkField v (to_shared (metadata_with_field_name m' name)) [])
      = Done (mkFieldDef path m value)).
Definition type_back (t : Type_) : Prop :=
  core_type t = true → returns (lower_type u t) (λ t', raise_type t' = Done t ∧ shape t' = erase t).
Definition rrows_back (r : AstRecordRows) : Prop :=
  core_rrows r = true →
  returns (lower_rrows u r) (λ r', raise_rrows r' = Done r ∧ shape_rrows r' = erase_rrows r).
Definition erows_back (e : AstEnumRows) : Prop :=
  core_erows e = true →
  returns (lower_erows u e) (λ e', raise_erows e' = Done e ∧ shape_erows e' = erase_erows e).

Lemma raise_with_field_name m name : raise_metadata (metadata_with_field_name m name) = raise_metadata m.
Proof.
  destruct m as [d [typ cs] o ne p]. unfold metadata_with_field_name, annot_with_field_name.
  cbn [doc annotation opt not_exported priority annot_typ annot_contracts raise_metadata raise_annot].
  assert (Hl : ∀ cs, mapM raise_labeled (map (λ t, labeled_with_field_name t name) cs)
               = mapM raise_labeled cs).
  { clear. induction cs as [|[t l] cs IH]; [done|]. cbn [mapM map]. by rewrite IH. }
  rewrite Hl. by destruct typ as [[t l]|].
Qed.

Lemma raise_empty_metadata m m' :
  metadata_is_empty m' = true → raise_metadata m' = Done m → m = ast_metadata_default.
Proof.
  destruct m' as [d [t cs] o ne p]. unfold metadata_is_empty. simpl.
  destruct d, t, cs, o, ne, p; simpl; try done. by intros _ [= <-].
Qed.

(** The elements of a list are lowered to values that are raised to them. *)
Lemma asts_back l :
  Forall ast_back l → forallb core l = true →
  Forall (λ a, returns (la a) (λ v, raise_value v = Done a)) l.
Proof.
  intros Hl Hc. eapply forallb_Forall_1; [exact Hc|exact Hl|]. intros a Ha Hb.
  eapply returns_mono; [by apply Hb|]. by intros v [Hv _].
Qed.

(** A term that is neither a function, an application nor a string. *)
Lemma plain_back {A} (m : Fresh A) (P : A → Prop) (f : A → NickelValue) a :
  is_fun a = false → is_app a = false →
  returns m P → (∀ x, P x → raise_value (f x) = Done a ∧ term_is_fun (f x) = false
                   ∧ term_is_app (f x) = false ∧ term_static_str (f x) = None) →
  returns (x ← m; mret (f x)) (lowered a).
Proof.
  intros Hfun Happ Hm Hf. eapply fresh_returns_bind; [exact Hm|]. intros x Hx. apply returns_ret.
  destruct (Hf x Hx) as (? & ? & ? & ?). unfold lowered. by rewrite Hfun, Happ.
Qed.

Lemma leaf_back a : leaf_ast a = true → ast_back a.
Proof.
  intros Hl Hc. destruct a; try done; try by apply returns_ret.
  destruct arg; [done|]. by apply returns_ret.
Qed.

Lemma foldl_chunks_None (l : list (option string)) :
  foldl (λ acc next, acc ≫= λ acc, (λ lit, acc +:+ lit) <$> next) None l = None.
Proof. by induction l. Qed.

Lemma static_none (l : list (option string)) : try_chunks_as_static_str l = None ↔ None ∈ l.
Proof.
  unfold try_chunks_as_static_str. generalize ""%string as acc.
  induction l as [|[s|] l IH]; intros acc; simpl.
  - split; [done|by intros ?%elem_of_nil].
  - rewrite IH, elem_of_cons. naive_solver.
  - rewrite foldl_chunks_None. split; [intros _; left|done].
Qed.

Definition raise_chunk (c : StrChunk) : outcome StringChunk :=
  match c with
  | ChunkLiteral s => Done (AChunkLiteral s)
  | ChunkExpr e indent => a ← raise_value e; Done (AChunkExpr a indent)
  end.
Definition term_chunk_literal (c : StrChunk) : option string :=
  match c with ChunkLiteral s => Some s | ChunkExpr _ _ => None end.

Lemma chunks_back l : Forall (chunk_all ast_back) l → ast_back (NStringChunks l).
Proof.
  intros Hl Hc. cbn [core] in Hc. unfold la. cbn [lower_ast].
  eapply (fresh_returns_bind _ _ (λ cs, mapM raise_chunk cs = Done (rev l)
    ∧ (∀ o, o ∈ map term_chunk_literal cs ↔ o ∈ map chunk_literal l))).
  - induction Hl as [|c l Hch Hl IH]; [by apply returns_ret|]. cbn [forallb] in Hc.
    apply andb_true_iff in Hc as [Hc Hcs]. cbn [foldrM_fresh].
    eapply fresh_returns_bind; [by apply IH|]. intros cs [Hcs1 Hcs2].
    eapply (fresh_returns_bind _ _ (λ c', raise_chunk c' = Done c ∧ term_chunk_literal c' = chunk_literal c)).
    + destruct c as [s|e i]; [by apply returns_ret|].
      eapply fresh_returns_bind; [by apply Hch|]. intros v [Hv _]. apply returns_ret. simpl. by rewrite Hv.
    + intros c' [Hc1 Hc2]. apply returns_ret. split.
      * simpl. clear -Hcs1 Hc1. revert Hcs1. generalize (rev l) as r. induction cs as [|c1 cs IH]; intros r.
        -- intros [= <-]. simpl. by rewrite Hc1.
        -- simpl. destruct (raise_chunk c1) as [a| |]; [|done..]. simpl.
           destruct (mapM raise_chunk cs) as [r'| |]; [|done..]. intros [= <-]. simpl.
           by rewrite (IH r').
      * intros o. rewrite map_app, elem_of_app, Hcs2. simpl.
        rewrite Hc2, list_elem_of_singleton, elem_of_cons. naive_solver.
  - intros cs [Hcs Hlit]. apply returns_ret. split_and!; [|done..|].
    + cbn [raise_value raise_term]. change (mapM _ cs) with (mapM raise_chunk cs). rewrite Hcs.
      cbn. by rewrite rev_involutive.
    + unfold no_static_str. intros Hs. cbn [term_static_str].
      destruct (ast_static_str (NStringChunks l)) as [s|] eqn:Hn; [done|].
      apply static_none. change (None ∈ map term_chunk_literal cs). by apply Hlit, static_none.
Qed.

Lemma lower_fun_plain args (body : Fresh NickelValue) n :
  forallb plain_arg args = true →
  lower_fun (map (λ p, (p, compile_part la (lower_annot u) transform_one p)) args) body n
  = (v ← body; mret (foldr (λ p acc, match pat_data p with PatAny id => fn id acc | _ => acc end) v args)) n.
Proof.
  intros Hargs. unfold lower_fun. set (f := λ (arg : Pattern * Part) acc, _).
  assert (Hf : ∀ v n, foldrM_fresh f v (map (λ p, (p, compile_part la (lower_annot u) transform_one p)) args) n
    = Done (foldr (λ p acc, match pat_data p with PatAny id => fn id acc | _ => acc end) v args, n)).
  { intros v n'. induction args as [|[d al] args IH]; [done|]. cbn [forallb] in Hargs.
    apply andb_true_iff in Hargs as [Hp Hargs]. cbn [map foldrM_fresh].
    unfold mbind at 1, Fresh_bind at 1. rewrite IH by done. by destruct d. }
  unfold mbind at 1, Fresh_bind at 1. unfold mbind at 2, Fresh_bind at 1.
  destruct (body n) as [[v n']| |]; [|done..]. simpl. apply Hf.
Qed.

Lemma fun_back args body : ast_back body → ast_back (NFun args body).
Proof.
  intros Hb Hc. cbn [core] in Hc. rewrite !andb_true_iff in Hc. destruct Hc as [[[Hne Hargs] Hbody] Hnf].
  unfold la. cbn [lower_ast]. refine (returns_ext _ _ _ (λ n, lower_fun_plain args (lower_ast u body) n Hargs) _).
  eapply fresh_returns_bind; [by apply Hb|]. intros v (Hv & Hf & _). apply returns_ret.
  assert (args ≠ []) by (by destruct args). apply negb_true_iff in Hnf. rewrite Hnf in Hf.
  unfold lowered. rewrite (raise_funs args body v) by done. split; [done|].
  destruct args as [|[d al] args]; [done|]. cbn [forallb] in Hargs. apply andb_true_iff in Hargs as [Hp _].
  destruct d; try done.
Qed.

Lemma let_back bs body rec :
  Forall (binding_all ast_back (λ _, True) annot_back) bs → ast_back body → ast_back (NLet bs body rec).
Proof.
  intros Hbs Hb Hc. cbn [core] in Hc. apply andb_true_iff in Hc as [Hcb Hc].
  unfold la. cbn [lower_ast]. unfold lower_let.
  eapply (fresh_returns_bind _ _ (λ r, ∃ l, r = Some l ∧
    mapM (λ p : Ident * NickelValue, let (id, v) := p in
            a ← raise_value v; Done (mkLetBinding (pattern_any id) (mkLetMetadata None ast_annot_default) a)) l
    = Done bs)).
  - clear Hb. induction Hbs as [|[p m v] bs Hbind Hbs IH]; [apply returns_ret; by exists []|].
    cbn [forallb] in Hcb. rewrite !andb_true_iff in Hcb. destruct Hcb as [[[Hp Hm] Hv] Hcb].
    destruct p as [[|id| | | | |] [al|]]; try done. destruct m as [[d|] [[t|] [|c cs]]]; try done.
    destruct Hbind as (_ & _ & Hvb). cbn [map collect_bindings pat_data fst snd].
    eapply fresh_returns_bind.
    { eapply fresh_returns_bind; [by apply Hvb|]. intros v' Hv'. apply returns_ret. exact Hv'. }
    intros v' [Hv' _]. eapply fresh_returns_bind; [by apply IH|]. intros r (l & -> & Hl).
    apply returns_ret. eexists. split; [done|]. cbn [mapM]. rewrite Hv'. simpl. by rewrite Hl.
  - intros r (l & -> & Hl). eapply fresh_returns_bind; [by apply Hb|]. intros v (Hv & _).
    apply returns_ret. split_and!; [|done..]. cbn [let_in raise_value raise_term]. unfold let_in.
    cbn [raise_value raise_term]. rewrite Hl. simpl. by rewrite Hv.
Qed.

Lemma app_back h args : ast_back h → Forall ast_back args → ast_back (NApp h args).
Proof.
  intros Hh Hargs Hc. cbn [core] in Hc. rewrite !andb_true_iff, bool_decide_eq_true in Hc.
  destruct Hc as [[[Hlen Hch] Hnapp] Hca]. destruct args as [|x [|? ?]]; try done. clear Hlen.
  apply Forall_cons in Hargs as [Hx _]. cbn [forallb] in Hca. rewrite andb_true_r in Hca.
  unfold la. cbn [lower_ast foldM_fresh]. eapply fresh_returns_bind; [by apply Hh|].
  intros v (Hv & _ & Hva & _). apply negb_true_iff in Hnapp. rewrite Hnapp in Hva.
  eapply (fresh_returns_bind _ _ (λ w, ∃ x', raise_value x' = Done x ∧ w = app v x')).
  { eapply fresh_returns_bind; [by apply Hx|]. intros x' [Hx' _]. apply returns_ret. by exists x'. }
  intros w (x' & Hx' & ->). apply returns_ret. unfold lowered. rewrite raise_app by done.
  rewrite Hx', Hv. done.
Qed.

Lemma mapM_id_map {A B} (f : A → Fresh B) l n : mapM id (map f l) n = mapM f l n.
Proof.
  revert n. induction l as [|a l IH]; intros n; [done|].
  change (mapM id (map f (a :: l)) n)
    with ('(b, n1) ← f a n; '(bs, n2) ← mapM id (map f l) n1; Done (b :: bs, n2)).
  change (mapM f (a :: l) n) with ('(b, n1) ← f a n; '(bs, n2) ← mapM f l n1; Done (b :: bs, n2)).
  destruct (f a n) as [[b n']| |]; [|done..]. cbn. by rewrite IH.
Qed.

Lemma include_back includes :
  Forall (include_all meta_back) includes →
  forallb (λ i, let 'mkInclude _ m := i in core_metadata m) includes = true →
  returns (mapM id (map (λ i, let 'mkInclude id m := i in m ← lower_metadata u m; mret (id, m)) includes))
    (λ l, mapM (λ p : Ident * FieldMetadata, let (id, m) := p in
                  m ← raise_metadata m; Done (mkInclude id m)) l = Done includes).
Proof.
  intros Hi Hc. refine (returns_ext _ _ _ (mapM_id_map _ includes) _).
  apply mapM_back_self.
  eapply forallb_Forall_1; [exact Hc|exact Hi|]. intros [id m] Hm Hb.
  eapply fresh_returns_bind; [by apply Hb|]. intros m' [Hm' _]. apply returns_ret. by rewrite Hm'.
Qed.

Lemma def_is_back d :
  def_all ast_back meta_back d →
  (let 'mkFieldDef path m v := d in
     bool_decide (length path = 1)
     && forallb (λ e, match e with PathIdent _ => true | PathExpr e => core e && no_static_str e end) path
     && core_metadata m && match v with Some v => core v | None => true end) = true →
  returns (let 'mkFieldDef path m value := d in
             lower_path
               (map (λ e, (try_as_ident e,
                           match e with
                           | PathIdent id => mret (FieldIdent id)
                           | PathExpr e => v ← lower_ast u e; mret (FieldExpr v)
                           end)) path)
               (match value with Some a => Some (lower_ast u a) | None => None end)
               (lower_metadata u m)) (def_back d).
Proof.
  destruct d as [path m v]. intros (Hp & Hm & Hv). rewrite !andb_true_iff, bool_decide_eq_true.
  intros [[[Hlen Hcp] Hcm] Hcv]. destruct path as [|e [|? ?]]; try done. clear Hlen.
  apply Forall_cons in Hp as [He _]. cbn [forallb] in Hcp. rewrite andb_true_r in Hcp.
  unfold lower_path. cbn [map last].
  eapply (fresh_returns_bind _ _ (λ _, True)); [by eapply returns_lift|]. intros inner _.
  apply (fresh_returns_bind _ _ (λ v', raise_opt raise_value v' = Done v)).
  { destruct v as [v|]; [|by apply returns_ret]. eapply fresh_returns_bind; [by apply Hv|].
    intros v' [Hv' _]. apply returns_ret. simpl. by rewrite Hv'. }
  intros v' Hv'. eapply fresh_returns_bind; [by apply Hm|]. intros m' [_ Hm'].
  cbn [foldrM_fresh].
  eapply (fresh_returns_bind _ _ (λ f, field_back m v f)).
  { apply returns_ret. intros path. by apply Hm'. }
  intros f Hf. cbn [snd]. destruct e as [id|e].
  - by apply returns_ret.
  - apply andb_true_iff in Hcp as [Hce Hns].
    eapply (fresh_returns_bind _ _ (λ name, ∃ e', name = FieldExpr e' ∧ raise_value e' = Done e ∧ term_static_str e' = None)).
    + eapply fresh_returns_bind; [by apply He|]. intros e' (He' & _ & _ & Hs). apply returns_ret.
      exists e'. split_and!; auto.
    + intros name (e' & -> & He' & Hs). apply returns_ret. split; [done|]. simpl. by exists e, e'.
Qed.

Lemma array_back l : Forall ast_back l → ast_back (NArray l).
Proof.
  intros Hl Hc. cbn [core] in Hc. unfold la. cbn [lower_ast].
  eapply (plain_back _ (λ vs, mapM raise_value vs = Done l)); [done..| |].
  - apply mapM_back_self. by apply asts_back.
  - intros vs Hvs. split_and!; [|done..]. unfold closurize_term, mk_array.
    destruct vs as [|v vs]; [by injection Hvs as <-|]. cbn [raise_value raise_term]. by rewrite Hvs.
Qed.

Lemma annotated_back an a : annot_back an → ast_back a → ast_back (NAnnotated an a).
Proof.
  intros Han Ha Hc. cbn [core] in Hc. apply andb_true_iff in Hc as [Hcan Hca].
  unfold la. cbn [lower_ast]. eapply fresh_returns_bind; [by apply Han|]. intros an' Han'.
  eapply (plain_back _ (lowered a)); [done|done|by apply Ha|]. intros v [Hv _].
  split_and!; [|done..]. cbn [raise_value raise_term]. rewrite Han'. simpl. by rewrite Hv.
Qed.

Lemma type_value_back t : type_back t → ast_back (NType t).
Proof.
  intros Ht Hc. cbn [core] in Hc. apply andb_true_iff in Hc as [Hhc Hct].
  unfold la. cbn [lower_ast]. eapply fresh_returns_bind; [by apply Ht|]. intros t' [Hr Hs].
  unfold lower_type_value. eapply (plain_back _ (λ _, True)); [done|done| |].
  - eapply total_of, returns_type_contract. destruct (proj1 shape_facts t') as (_ & Hf & Hsym).
    unfold has_contract in *. by rewrite <-Hf, <-Hsym, Hs.
  - intros r _. split_and!; [|done..]. cbn [raise_value]. by rewrite Hr.
Qed.

Lemma annotation_back typ contracts :
  opt_forall type_back typ → Forall type_back contracts → annot_back (mkAnnotation typ contracts).
Proof.
  intros Ht Hcs Hc. cbn [core_annot] in Hc. apply andb_true_iff in Hc as [Hct Hcc].
  cbn [lower_annot]. eapply (fresh_returns_bind _ _ (λ o, raise_opt raise_labeled o = Done typ)).
  { destruct typ as [t|]; [|by apply returns_ret]. eapply fresh_returns_bind; [by apply Ht|].
    intros t' [Ht' _]. apply returns_ret. simpl. by rewrite Ht'. }
  intros o Ho. eapply (fresh_returns_bind _ _ (λ l, mapM raise_labeled l = Done contracts)).
  - apply mapM_back_self.
    eapply forallb_Forall_1; [exact Hcc|exact Hcs|]. intros t Hct' Hb.
    eapply fresh_returns_bind; [by apply Hb|]. intros t' [Ht' _]. by apply returns_ret.
  - intros l Hl. apply returns_ret. cbn [raise_annot]. rewrite Ho. simpl. by rewrite Hl.
Qed.

Lemma metadata_back d a o n p : annot_back a → meta_back (mkAstFieldMetadata d a o n p).
Proof.
  intros Ha Hc. cbn [lower_metadata]. eapply fresh_returns_bind; [by apply Ha|]. intros a' Ha'.
  apply returns_ret. set (m' := mkFieldMetadata d a' o n p).
  assert (Hm : raise_metadata m' = Done (mkAstFieldMetadata d a o n p)) by (simpl; by rewrite Ha').
  split; [done|]. intros v path name value Hv. cbn [raise_field]. unfold to_shared.
  destruct (metadata_is_empty _) eqn:He; rewrite Hv.
  - rewrite (raise_empty_metadata (mkAstFieldMetadata d a o n p) (metadata_with_field_name m' name));
      [done|exact He|by rewrite raise_with_field_name].
  - cbn [mbind outcome_bind]. by rewrite raise_with_field_name, Hm.
Qed.

Lemma record_back includes defs open :
  Forall (include_all meta_back) includes → Forall (def_all ast_back meta_back) defs →
  ast_back (NRecord (mkRecord includes defs open)).
Proof.
  intros Hi Hd Hc. cbn [core] in Hc. rewrite !andb_true_iff, bool_decide_eq_true in Hc.
  destruct Hc as [[[Hci Hsf] Hnd] Hcd]. unfold la. cbn [lower_ast]. unfold lower_record.
  eapply fresh_returns_bind.
  - eapply (static_phase defs); [|done|done|by intros id _ ?%elem_of_nil].
    apply Forall2_fmap_r, Forall_Forall2_diag.
    eapply forallb_Forall_1; [exact Hcd|exact Hd|]. intros d Hdc Hdb. by apply def_is_back.
  - intros acc (fs & ds & stat & dyn & -> & Hfs & Hds & ->).
    eapply (plain_back _ (λ l, mapM (λ p : Ident * FieldMetadata, let (id, m) := p in
                  m ← raise_metadata m; Done (mkInclude id m)) l = Done includes));
      [done|done|by apply include_back|].
    intros l Hl. split_and!; [|done..]. cbn [raise_value raise_term].
    change (mapM _ ([] ++ fs)) with (mapM raise_static fs).
    change (mapM _ ds) with (mapM raise_dynamic ds). rewrite Hfs, Hds. cbn [mbind outcome_bind].
    by rewrite Hl.
Qed.

Lemma raise_lower_op op :
  match lower_op op with
  | TUnary o => raise_op1 o = Done op
  | TBinary o => raise_op2 o = Done op
  | TNAry o => raise_opn o = op
  end.
Proof. by destruct op. Qed.

Lemma plain_op_spec op n :
  plain_op op n = true →
  match lower_op op with TUnary _ => n = 1 | TBinary _ => n = 2 | TNAry _ => True end
  ∧ (∀ args, swap_args2 op args = Done args) ∧ (∀ args, swap_argsn op args = Done args).
Proof.
  intros Hp. destruct op; simpl in Hp; try discriminate Hp;
    rewrite ?bool_decide_eq_true in Hp; done.
Qed.

Lemma op_back op l : Forall ast_back l → ast_back (NPrimOpApp op l).
Proof.
  intros Hl Hc. cbn [core] in Hc. apply andb_true_iff in Hc as [Hop Hcl].
  apply plain_op_spec in Hop as (Hlen & Hs2 & Hsn). pose proof (raise_lower_op op) as Hr.
  pose proof (asts_back l Hl Hcl) as Hb. unfold la. cbn [lower_ast].
  destruct (lower_op op) as [o|o|o]; unfold lower_op_app.
  - destruct l as [|a [|? ?]]; try done. apply Forall_cons in Hb as [Ha _]. cbn [map lookup list_lookup].
    eapply plain_back; [done|done|exact Ha|]. intros v Hv. split_and!; [|done..].
    unfold op1. cbn [raise_value raise_term]. rewrite Hr. simpl. by rewrite Hv.
  - destruct l as [|a [|b [|? ?]]]; try done. apply Forall_cons in Hb as [Ha [Hb _]%Forall_cons].
    cbn [map lookup list_lookup]. eapply fresh_returns_bind; [exact Ha|]. intros v Hv.
    eapply plain_back; [done|done|exact Hb|]. intros w Hw. split_and!; [|done..].
    unfold op2. cbn [raise_value raise_term]. rewrite Hr. simpl. rewrite Hv. simpl. rewrite Hw. simpl.
    by rewrite Hs2.
  - eapply (plain_back _ (λ vs, mapM raise_value vs = Done l)); [done|done| |].
    + refine (returns_ext _ _ _ (mapM_id_map _ l) _). by apply mapM_back_self.
    + intros vs Hvs. split_and!; [|done..]. unfold opn. cbn [raise_value raise_term].
      rewrite Hvs. cbn [mbind outcome_bind]. rewrite Hr, Hsn. done.
Qed.

Lemma type_map {A} (m : Fresh A) (P : A → Prop) (f : A → Typ) t :
  returns m P → (∀ a, P a → raise_type (f a) = Done t ∧ shape (f a) = erase t) →
  returns (a ← m; mret (f a)) (λ t', raise_type t' = Done t ∧ shape t' = erase t).
Proof. intros Hm Hf. eapply fresh_returns_bind; [exact Hm|]. intros a Ha. apply returns_ret. auto. Qed.

Lemma erow_back id t e : opt_forall type_back t → erows_back e → erows_back (AERExtend id t e).
Proof.
  intros Ht He Hc. cbn [core_erows] in Hc. apply andb_true_iff in Hc as [Hct Hce]. cbn [lower_erows].
  apply (fresh_returns_bind _ _ (λ o, raise_opt raise_type o = Done t
    ∧ match o with Some t => Some (shape t) | None => None end
      = match t with Some t => Some (erase t) | None => None end)).
  - destruct t as [t|]; [|by apply returns_ret]. eapply fresh_returns_bind; [by apply Ht|].
    intros t' [Ht' Hs]. apply returns_ret. simpl. by rewrite Ht', Hs.
  - intros o [Ho Hs]. eapply fresh_returns_bind; [by apply He|]. intros e' [He' Hse]. apply returns_ret.
    split; [|simpl; by rewrite Hs, Hse]. cbn [raise_erows]. rewrite Ho. simpl. by rewrite He'.
Qed.

Lemma back_ok : (∀ a, ast_back a) ∧ (∀ p : Pattern, True) ∧ (∀ a, annot_back a) ∧ (∀ m, meta_back m)
  ∧ (∀ t, type_back t) ∧ (∀ r, rrows_back r) ∧ (∀ e, erows_back e).
Proof.
  apply ast_mutind; try done.
  - apply leaf_back.
  - apply chunks_back.
  - intros args body _. apply fun_back.
  - apply let_back.
  - apply app_back.
  - intros tag a Ha Hc. unfold la. cbn [lower_ast]. eapply plain_back; [done|done|by apply Ha|].
    intros v [Hv _]. split_and!; [|done..]. unfold closurize_term. cbn [raise_value raise_term].
    by rewrite Hv.
  - apply record_back.
  - apply array_back.
  - apply op_back.
  - apply annotated_back.
  - apply type_value_back.
  - apply annotation_back.
  - apply metadata_back.
  - intros t Hl _. destruct t; try done; by apply returns_ret.
  - intros a Ha Hc. cbn [lower_type]. eapply type_map; [by apply Ha|]. intros v [Hv _].
    split; [|done]. cbn [raise_type]. by rewrite Hv.
  - intros s t Hs Ht Hc. cbn [core_type] in Hc. apply andb_true_iff in Hc as [Hcs Hct].
    cbn [lower_type]. eapply fresh_returns_bind; [by apply Hs|]. intros s' [Hs' Hss].
    eapply type_map; [by apply Ht|]. intros t' [Ht' Hst]. simpl. rewrite Hs', Hss. simpl. by rewrite Ht', Hst.
  - intros v k t Ht Hc. cbn [lower_type]. eapply type_map; [by apply Ht|]. intros t' [Ht' Hst]. simpl. by rewrite Ht', Hst.
  - intros e He Hc. cbn [lower_type]. eapply type_map; [by apply He|]. intros t' [Ht' Hst]. simpl. by rewrite Ht', Hst.
  - intros r Hr Hc. cbn [lower_type]. eapply type_map; [by apply Hr|]. intros t' [Ht' Hst]. simpl. by rewrite Ht', Hst.
  - intros t f Ht Hc. cbn [lower_type]. eapply type_map; [by apply Ht|]. intros t' [Ht' Hst]. simpl. by rewrite Ht', Hst.
  - intros t Ht Hc. cbn [lower_type]. eapply type_map; [by apply Ht|]. intros t' [Ht' Hst]. simpl. by rewrite Ht', Hst.
  - intros _. by apply returns_ret.
  - intros id _. by apply returns_ret.
  - intros _. by apply returns_ret.
  - intros id t r Ht Hr Hc. cbn [core_rrows] in Hc. apply andb_true_iff in Hc as [Hct Hcr].
    cbn [lower_rrows]. eapply fresh_returns_bind; [by apply Ht|]. intros t' [Ht' Hst].
    eapply fresh_returns_bind; [by apply Hr|]. intros r' [Hr' Hsr]. apply returns_ret.
    simpl. rewrite Ht', Hst. simpl. by rewrite Hr', Hsr.
  - intros _. by apply returns_ret.
  - intros id _. by apply returns_ret.
  - apply erow_back.
Qed.


End tree.

(** ** Witness

    [{ "f" : forall a. a -> a | doc "d" = fun x y => [x, f y], "%{n}" | optional = 'Foo 1 }] *)
Definition sample_core : Ast :=
  NRecord (mkRecord []
    [ mkFieldDef [PathIdent "f"]
        (mkAstFieldMetadata (Some "d")
           (mkAnnotation (Some (ATyForall "a" KindType (ATyArrow (ATyVar "a") (ATyVar "a")))) [])
           false false Neutral)
        (Some (NFun [pattern_any "x"; pattern_any "y"]
                 (NArray [NVar "x"; NApp (NVar "f") [NVar "y"]])));
      mkFieldDef [PathExpr (NStringChunks [AChunkExpr (NVar "n") 0; AChunkLiteral "s"])]
        (mkAstFieldMetadata None ast_annot_default true false Neutral)
        (Some (NEnumVariant "Foo" (Some (NNumber 1%Qc)))) ] true)%string.


(** ** Outside of the fragment *)

Definition run_lower (a : Ast) : outcome NickelValue :=
  '(v, _) ← @lower_ast assoc_index_map sorted_order (λ _, 0) a 0; Done v.
Definition lower_and_raise (a : Ast) : outcome Ast := v ← run_lower a; raise_value v.

(** The else branch of a conditional becomes its condition; the first argument of
    an application is given twice; the arguments of [array/at] are swapped; the
    alias of a variable is lost. *)
Example raise_conditional :
  lower_and_raise (NIfThenElse (NBool true) (NVar "x") (NVar "y"))%string
  = Done (NIfThenElse (NBool true) (NVar "x") (NBool true))%string.
Proof. vm_compute. reflexivity. Qed.

Example raise_application :
  lower_and_raise (NApp (NVar "f") [NVar "x"; NVar "y"])%string
  = Done (NApp (NApp (NVar "f") [NVar "x"]) [NVar "x"; NVar "y"])%string.
Proof. vm_compute. reflexivity. Qed.

Example raise_array_at :
  lower_and_raise (NPrimOpApp PArrayAt [NVar "a"; NVar "n"])%string
  = Done (NPrimOpApp PArrayAt [NVar "n"; NVar "a"])%string.
Proof. vm_compute. reflexivity. Qed.

Example alias_of_variable :
  run_lower (NFun [mkPattern (PatAny "y") (Some ("x" : Ident))] (NVar "x"))%string = Done (fn "y" (var "x"))%string.
Proof. vm_compute. reflexivity. Qed.
