(* ===== verification/EvalStack.v ===== *)
(** * The evaluation stack ([core/src/eval/stack.rs])

    The stack is a growable array of bytes: an item is copied to its end as raw
    bytes, followed by a marker byte that says of which type it is, and read back
    at the type the marker calls for. How a type is laid out in memory is the
    class [Layout]: its size, its bytes, and that reading the bytes of an item at
    its own type gives the item back; reading bytes at a type they were not
    written at is undefined behaviour, a panic here. *)
From S2P Require Import Prelude IndexMap Values Records LazyCache.

(** [u8] *)
Definition u8 : Type := N.

(** [enum Marker], with its representation as a byte. *)
Inductive Marker : Type :=
| MEq | MArg | MTrackedArg | MUpdateIndex | MOp1Cont | MOp2FirstCont | MOp2SecondCont
| MOpNCont | MStrChunk | MStrAcc.

#[export] Instance Marker_eq_dec : EqDecision Marker.
Proof. solve_decision. Defined.

Definition marker_to_u8 (m : Marker) : u8 :=
  match m with
  | MEq => 0 | MArg => 1 | MTrackedArg => 2 | MUpdateIndex => 3 | MOp1Cont => 4
  | MOp2FirstCont => 5 | MOp2SecondCont => 6 | MOpNCont => 7 | MStrChunk => 8 | MStrAcc => 9
  end%N.

(** [mem::transmute::<u8, Marker>] *)
Definition marker_of_u8 (b : u8) : option Marker :=
  match b with
  | 0 => Some MEq | 1 => Some MArg | 2 => Some MTrackedArg | 3 => Some MUpdateIndex
  | 4 => Some MOp1Cont | 5 => Some MOp2FirstCont | 6 => Some MOp2SecondCont
  | 7 => Some MOpNCont | 8 => Some MStrChunk | 9 => Some MStrAcc
  | _ => None
  end%N.

Definition is_idx (m : Marker) : bool := match m with MUpdateIndex => true | _ => false end.

Definition is_cont (m : Marker) : bool :=
  match m with
  | MOp1Cont | MOp2FirstCont | MOp2SecondCont | MOpNCont => true
  | _ => false
  end.

(** The call stack size that a continuation remembers ([PrimopAppInfo]). *)
Record PrimopAppInfo : Type := mkAppInfo { call_stack_size : nat }.

(** The types that implement [StackItem], as one sum. *)
Inductive StackItem (U : Type) : Type :=
| EqItem (arg1 arg2 : Closure)
| ArgItem (arg : Closure)
| TrackedArgItem (idx : CacheIndex)
| UpdateIndexItem (uidx : U)
| Op1ContItem (op : UnaryOp) (app_info : PrimopAppInfo)
| Op2FirstContItem (op : BinaryOp) (app_info : PrimopAppInfo) (arg2 : Closure)
| Op2SecondContItem (op : BinaryOp) (app_info : PrimopAppInfo) (arg1_evaled : Closure)
| OpNContItem (op : NAryOp) (app_info : PrimopAppInfo) (evaluated pending : list Closure)
| StrChunkItem (chunk : StrChunk)
| StrAccItem (acc : string) (env : Environment) (curr_indent : N).
Arguments EqItem {U} arg1 arg2.
Arguments ArgItem {U} arg.
Arguments TrackedArgItem {U} idx.
Arguments UpdateIndexItem {U} uidx.
Arguments Op1ContItem {U} op app_info.
Arguments Op2FirstContItem {U} op app_info arg2.
Arguments Op2SecondContItem {U} op app_info arg1_evaled.
Arguments OpNContItem {U} op app_info evaluated pending.
Arguments StrChunkItem {U} chunk.
Arguments StrAccItem {U} acc env curr_indent.

(** [StackItem::marker] *)
Definition marker {U} (i : StackItem U) : Marker :=
  match i with
  | EqItem _ _ => MEq
  | ArgItem _ => MArg
  | TrackedArgItem _ => MTrackedArg
  | UpdateIndexItem _ => MUpdateIndex
  | Op1ContItem _ _ => MOp1Cont
  | Op2FirstContItem _ _ _ => MOp2FirstCont
  | Op2SecondContItem _ _ _ => MOp2SecondCont
  | OpNContItem _ _ _ _ => MOpNCont
  | StrChunkItem _ => MStrChunk
  | StrAccItem _ _ _ => MStrAcc
  end.

(** The memory layout of the item types. *)
Class Layout (U : Type) : Type := {
  byte : Type;
  of_u8 : u8 → byte;
  to_u8 : byte → option u8;
  item_size : Marker → nat;
  to_bytes : StackItem U → list byte;
  from_bytes : Marker → list byte → option (StackItem U);
}.

Class LayoutLaws (U : Type) `{Layout U} : Prop := {
  to_of_u8 (n : u8) : to_u8 (of_u8 n) = Some n;
  to_bytes_length (i : StackItem U) : length (to_bytes i) = item_size (marker i);
  from_to_bytes (i : StackItem U) : from_bytes (marker i) (to_bytes i) = Some i;
}.

(** A byte is a number, or byte number [n] of an item. *)
Inductive fragment (U : Type) : Type :=
| Raw (n : u8)
| Fragment (i : StackItem U) (n : nat).
Arguments Raw {U} n.
Arguments Fragment {U} i n.

(** All items of eight bytes. *)
#[export] Instance fragment_layout (U : Type) : Layout U := {
  byte := fragment U;
  of_u8 := Raw;
  to_u8 b := match b with Raw n => Some n | Fragment _ _ => None end;
  item_size _ := 8;
  to_bytes i := map (Fragment i) (seq 0 8);
  from_bytes m l :=
    match l with
    | Fragment i _ :: _ => if bool_decide (marker i = m) then Some i else None
    | _ => None
    end;
}.

#[export] Instance fragment_layout_laws (U : Type) : LayoutLaws U.
Proof. split; [done|done|]. intros i. simpl. by rewrite bool_decide_eq_true_2. Qed.

Inductive SealedCont : Type := SealedUnseal | SealedSeq | SealedOther.

Section stack.
Context {C : Type} `{Cache C}.
Local Notation U := (@UpdateIndex C _).
Context `{Layout U}.

(** [Stack]: the bytes, the top of the stack at the end. *)
Definition Stack : Type := list byte.

Definition stack_new : Stack := [].

Definition push (item : StackItem U) (s : Stack) : Stack :=
  s ++ to_bytes item ++ [of_u8 (marker_to_u8 (marker item))].

Definition top_marker (s : Stack) : outcome (option Marker) :=
  match last s with
  | None => Done None
  | Some b => n ← unwrap (to_u8 b); m ← unwrap (marker_of_u8 n); Done (Some m)
  end.

(** [read_unchecked] at the type of marker [m]: the two [checked_sub] panic when
    there are not enough bytes. *)
Definition read_unchecked (m : Marker) (s : Stack) : outcome (StackItem U) :=
  if length s <? 1 then Panic
  else if length s - 1 <? item_size m then Panic
  else
    let data_offset := length s - 1 - item_size m in
    unwrap (from_bytes m (take (item_size m) (drop data_offset s))).

(** [Vec::truncate] *)
Definition pop_unchecked (m : Marker) (s : Stack) : outcome (StackItem U * Stack) :=
  item ← read_unchecked m s;
  Done (item, take (length s - 1 - item_size m) s).

(** [pop::<T>] *)
Definition pop (m : Marker) (s : Stack) : outcome (option (StackItem U) * Stack) :=
  top ← top_marker s;
  match top with
  | None => Done (None, s)
  | Some m' =>
      if bool_decide (m' = m) then '(item, s') ← pop_unchecked m s; Done (Some item, s')
      else Done (None, s)
  end.

Definition drop_top (s : Stack) : outcome Stack :=
  top ← top_marker s;
  match top with
  | None => Done s
  | Some m => '(_, s') ← pop_unchecked m s; Done s'
  end.

Definition push_arg (arg : Closure) (s : Stack) : Stack := push (ArgItem arg) s.
Definition push_tracked_arg (idx : CacheIndex) (s : Stack) : Stack := push (TrackedArgItem idx) s.
Definition push_update_index (uidx : U) (s : Stack) : Stack := push (UpdateIndexItem uidx) s.

Definition push_eqs (it : list (Closure * Closure)) (s : Stack) : Stack :=
  foldl (λ s p, push (EqItem p.1 p.2) s) s it.

Definition push_str_chunks (it : list StrChunk) (s : Stack) : Stack :=
  foldl (λ s c, push (StrChunkItem c) s) s it.

(** [pop_arg], which reads the cache, and [pop_arg_as_idx], which may add to it. *)
Definition pop_arg (s : Stack) (cache : C) : outcome (option Closure * Stack * C) :=
  top ← top_marker s;
  match top with
  | Some MArg =>
      '(item, s') ← pop_unchecked MArg s;
      match item with ArgItem arg => Done (Some arg, s', cache) | _ => Panic end
  | Some MTrackedArg =>
      '(item, s') ← pop_unchecked MTrackedArg s;
      match item with
      | TrackedArgItem idx => '(c, cache') ← cache_get idx cache; Done (Some c, s', cache')
      | _ => Panic
      end
  | _ => Done (None, s, cache)
  end.

Definition pop_arg_as_idx (s : Stack) (cache : C) : outcome (option CacheIndex * Stack * C) :=
  top ← top_marker s;
  match top with
  | Some MArg =>
      '(item, s') ← pop_unchecked MArg s;
      match item with
      | ArgItem arg => '(idx, cache') ← cache_add arg Normal cache; Done (Some idx, s', cache')
      | _ => Panic
      end
  | Some MTrackedArg =>
      '(item, s') ← pop_unchecked MTrackedArg s;
      match item with TrackedArgItem idx => Done (Some idx, s', cache) | _ => Panic end
  | _ => Done (None, s, cache)
  end.

Definition peek_sealed_cont (s : Stack) : outcome SealedCont :=
  top ← top_marker s;
  match top with
  | Some MOp1Cont =>
      item ← read_unchecked MOp1Cont s;
      match item with Op1ContItem Seq _ => Done SealedSeq | _ => Done SealedOther end
  | Some MOp2SecondCont =>
      item ← read_unchecked MOp2SecondCont s;
      match item with Op2SecondContItem Unseal _ _ => Done SealedUnseal | _ => Done SealedOther end
  | _ => Done SealedOther
  end.

Definition is_top_idx (s : Stack) : outcome bool :=
  top ← top_marker s; Done (from_option is_idx false top).

Definition is_top_cont (s : Stack) : outcome bool :=
  top ← top_marker s; Done (from_option is_cont false top).

(** The loops take the number of bytes as fuel: each turn removes a marker. *)
Fixpoint clear_eqs_loop (fuel : nat) (s : Stack) : outcome Stack :=
  match fuel with
  | 0 => OutOfFuel
  | S fuel' =>
      '(o, s') ← pop MEq s;
      match o with Some _ => clear_eqs_loop fuel' s' | None => Done s' end
  end.

Definition clear_eqs (s : Stack) : outcome Stack := clear_eqs_loop (S (length s)) s.

Fixpoint unwind_loop (fuel : nat) (s : Stack) (cache : C) : outcome (Stack * C) :=
  match fuel with
  | 0 => OutOfFuel
  | S fuel' =>
      match s with
      | [] => Done (s, cache)
      | _ =>
          top ← top_marker s;
          match top with
          | Some MUpdateIndex =>
              '(item, s') ← pop_unchecked MUpdateIndex s;
              match item with
              | UpdateIndexItem uidx =>
                  '(_, cache') ← cache_reset_index_state uidx cache;
                  unwind_loop fuel' s' cache'
              | _ => Panic
              end
          | _ => s' ← drop_top s; unwind_loop fuel' s' cache
          end
      end
  end.

Definition unwind (s : Stack) (cache : C) : outcome (Stack * C) :=
  unwind_loop (S (length s)) s cache.

(** [Drop for Stack] *)
Fixpoint drop_loop (fuel : nat) (s : Stack) : outcome Stack :=
  match fuel with
  | 0 => OutOfFuel
  | S fuel' => match s with [] => Done s | _ => s' ← drop_top s; drop_loop fuel' s' end
  end.

Definition drop_stack (s : Stack) : outcome Stack := drop_loop (S (length s)) s.

(** [StackMarkerIter]: the markers from the top, by the sizes of the items. *)
Fixpoint markers_loop (fuel : nat) (s : Stack) (cursor : nat) : outcome (list Marker) :=
  match fuel with
  | 0 => OutOfFuel
  | S fuel' =>
      if cursor =? 0 then Done []
      else
        b ← unwrap (s !! (cursor - 1));
        n ← unwrap (to_u8 b);
        m ← unwrap (marker_of_u8 n);
        if cursor <? 1 + item_size m then Panic
        else ms ← markers_loop fuel' s (cursor - (1 + item_size m)); Done (m :: ms)
  end.

Definition markers (s : Stack) : outcome (list Marker) :=
  markers_loop (S (length s)) s (length s).

End stack.

(** ** The stack as a list of items, the top first *)

Section abstract.
Context {C : Type} `{Cache C}.
Local Notation U := (@UpdateIndex C _).
Local Notation items := (list (StackItem U)).

Definition items_pop (m : Marker) (l : items) : option (StackItem U) * items :=
  match l with
  | i :: l' => if bool_decide (marker i = m) then (Some i, l') else (None, l)
  | [] => (None, l)
  end.

Definition items_pop_arg (l : items) (cache : C) : outcome (option Closure * items * C) :=
  match l with
  | ArgItem arg :: l' => Done (Some arg, l', cache)
  | TrackedArgItem idx :: l' => '(c, cache') ← cache_get idx cache; Done (Some c, l', cache')
  | _ => Done (None, l, cache)
  end.

Definition items_pop_arg_as_idx (l : items) (cache : C)
    : outcome (option CacheIndex * items * C) :=
  match l with
  | ArgItem arg :: l' => '(idx, cache') ← cache_add arg Normal cache; Done (Some idx, l', cache')
  | TrackedArgItem idx :: l' => Done (Some idx, l', cache)
  | _ => Done (None, l, cache)
  end.

Definition items_peek_sealed_cont (l : items) : SealedCont :=
  match l with
  | Op1ContItem Seq _ :: _ => SealedSeq
  | Op2SecondContItem Unseal _ _ :: _ => SealedUnseal
  | _ => SealedOther
  end.

Fixpoint items_clear_eqs (l : items) : items :=
  match l with EqItem _ _ :: l' => items_clear_eqs l' | _ => l end.

(** Every update frame is reset, from the top down. *)
Fixpoint items_unwind (l : items) (cache : C) : outcome C :=
  match l with
  | [] => Done cache
  | UpdateIndexItem uidx :: l' =>
      '(_, cache') ← cache_reset_index_state uidx cache; items_unwind l' cache'
  | _ :: l' => items_unwind l' cache
  end.

Definition items_is_top (f : Marker → bool) (l : items) : bool :=
  match l with i :: _ => f (marker i) | [] => false end.

End abstract.
