(* ===== verification/EvalStackTheorems.v ===== *)
(** * The stack of bytes is a stack of items

    Every operation of the byte stack, on the bytes of a list of items, does what
    the list operation does; items are only read at their own type, and the loops
    end. *)
From S2P Require Import Prelude IndexMap Values Records LazyCache EvalStack.

Section refinement.
Context {C : Type} `{Cache C}.
Local Notation U := (@UpdateIndex C _).
Context `{LayoutLaws U}.
Local Notation items := (list (StackItem U)).
Implicit Types (i : StackItem U) (l : items) (s : Stack).

(** The bytes of a stack of items. *)
Fixpoint bytes_of l : Stack :=
  match l with
  | [] => []
  | i :: l' => push i (bytes_of l')
  end.

Lemma marker_round_trip (m : Marker) : marker_of_u8 (marker_to_u8 m) = Some m.
Proof. by destruct m. Qed.

Lemma last_push i s : last (push i s) = Some (of_u8 (marker_to_u8 (marker i))).
Proof. unfold push. by rewrite app_assoc, last_snoc. Qed.

Lemma length_push i s : length (push i s) = length s + item_size (marker i) + 1.
Proof. unfold push. rewrite !length_app, to_bytes_length. simpl. lia. Qed.

Lemma top_marker_bytes l : top_marker (bytes_of l) = Done (marker <$> head l).
Proof.
  destruct l as [|i l]; [done|]. unfold top_marker. simpl. rewrite last_push.
  simpl. rewrite to_of_u8. simpl. by rewrite marker_round_trip.
Qed.

Lemma read_bytes i l : read_unchecked (marker i) (bytes_of (i :: l)) = Done i.
Proof.
  unfold read_unchecked. simpl. rewrite length_push.
  rewrite (proj2 (Nat.ltb_ge _ 1)) by lia. rewrite (proj2 (Nat.ltb_ge _ _)) by lia.
  replace (length (bytes_of l) + item_size (marker i) + 1 - 1 - item_size (marker i))
    with (length (bytes_of l)) by lia.
  unfold push. rewrite drop_app_length, <- to_bytes_length, take_app_length.
  by rewrite from_to_bytes.
Qed.

Lemma pop_unchecked_bytes i l :
  pop_unchecked (marker i) (bytes_of (i :: l)) = Done (i, bytes_of l).
Proof.
  unfold pop_unchecked. rewrite read_bytes. simpl. do 2 f_equal. rewrite length_push.
  replace (length (bytes_of l) + item_size (marker i) + 1 - 1 - item_size (marker i))
    with (length (bytes_of l)) by lia.
  unfold push. by rewrite take_app_length.
Qed.

Lemma pop_bytes m l :
  pop m (bytes_of l) = Done (let '(o, l') := items_pop m l in (o, bytes_of l')).
Proof.
  unfold pop. rewrite top_marker_bytes. destruct l as [|i l]; [done|].
  pose proof (pop_unchecked_bytes i l) as Hp. set (s := bytes_of (i :: l)) in *.
  unfold items_pop. simpl. case_bool_decide; [subst m; by rewrite Hp|done].
Qed.

Lemma drop_top_bytes i l : drop_top (bytes_of (i :: l)) = Done (bytes_of l).
Proof.
  unfold drop_top. rewrite top_marker_bytes. pose proof (pop_unchecked_bytes i l) as Hp.
  set (s := bytes_of (i :: l)) in *. simpl. by rewrite Hp.
Qed.

Lemma pop_arg_bytes l cache :
  pop_arg (bytes_of l) cache =
  '(o, l', cache') ← items_pop_arg l cache; Done (o, bytes_of l', cache').
Proof.
  unfold pop_arg. rewrite top_marker_bytes. destruct l as [|i l]; [done|].
  pose proof (pop_unchecked_bytes i l) as Hp.
  destruct i; try done; cbn [head fmap option_fmap option_map marker mbind outcome_bind];
    cbn [marker] in Hp; rewrite Hp; simpl; [done|].
  by destruct (cache_get idx cache) as [[c cache']| |].
Qed.

Lemma pop_arg_as_idx_bytes l cache :
  pop_arg_as_idx (bytes_of l) cache =
  '(o, l', cache') ← items_pop_arg_as_idx l cache; Done (o, bytes_of l', cache').
Proof.
  unfold pop_arg_as_idx. rewrite top_marker_bytes. destruct l as [|i l]; [done|].
  pose proof (pop_unchecked_bytes i l) as Hp.
  destruct i; try done; cbn [head fmap option_fmap option_map marker mbind outcome_bind];
    cbn [marker] in Hp; rewrite Hp; simpl; [|done].
  by destruct (cache_add arg Normal cache) as [[c cache']| |].
Qed.

Lemma peek_bytes l : peek_sealed_cont (bytes_of l) = Done (items_peek_sealed_cont l).
Proof.
  unfold peek_sealed_cont. rewrite top_marker_bytes. destruct l as [|i l]; [done|].
  pose proof (read_bytes i l) as Hr.
  destruct i; try done; cbn [head fmap option_fmap option_map marker mbind outcome_bind];
    cbn [marker] in Hr; rewrite Hr; simpl; by destruct op.
Qed.

Lemma is_top_bytes l :
  is_top_idx (bytes_of l) = Done (items_is_top is_idx l) ∧
  is_top_cont (bytes_of l) = Done (items_is_top is_cont l).
Proof.
  unfold is_top_idx, is_top_cont. rewrite top_marker_bytes. by destruct l as [|i l].
Qed.

Lemma length_le_bytes l : length l ≤ length (bytes_of l).
Proof. induction l as [|i l IH]; simpl; [lia|]. rewrite length_push. lia. Qed.

Lemma clear_eqs_loop_bytes fuel l :
  length l < fuel → clear_eqs_loop fuel (bytes_of l) = Done (bytes_of (items_clear_eqs l)).
Proof.
  revert l. induction fuel as [|fuel IH]; intros l Hf; [lia|]. cbn [clear_eqs_loop].
  rewrite pop_bytes. destruct l as [|i l]; [done|]. destruct i; try done.
  simpl. apply IH. simpl in Hf. lia.
Qed.

Lemma clear_eqs_bytes l : clear_eqs (bytes_of l) = Done (bytes_of (items_clear_eqs l)).
Proof. apply clear_eqs_loop_bytes. pose proof (length_le_bytes l). lia. Qed.

Lemma bytes_of_cons_ne i l : ∃ b s', bytes_of (i :: l) = b :: s'.
Proof.
  destruct (bytes_of (i :: l)) as [|b s'] eqn:Hb; [|eauto].
  pose proof (f_equal length Hb) as Hl. simpl in Hl. rewrite length_push in Hl. simpl in Hl. lia.
Qed.

Lemma unwind_loop_bytes fuel l cache :
  length l < fuel →
  unwind_loop fuel (bytes_of l) cache = cache' ← items_unwind l cache; Done ([], cache').
Proof.
  revert l cache. induction fuel as [|fuel IH]; intros l cache Hf; [lia|].
  destruct l as [|i l]; [done|]. cbn [unwind_loop].
  destruct (bytes_of_cons_ne i l) as (b & s' & Hb). rewrite Hb, <- Hb.
  rewrite top_marker_bytes. pose proof (pop_unchecked_bytes i l) as Hp.
  pose proof (drop_top_bytes i l) as Hd. simpl in Hf.
  destruct i; cbn [head fmap option_fmap option_map marker mbind outcome_bind];
    cbn [marker] in Hp; try (rewrite Hd; simpl; apply IH; lia).
  rewrite Hp. simpl. destruct (cache_reset_index_state uidx cache) as [[[] cache']| |]; [|done..].
  simpl. apply IH. lia.
Qed.

Lemma unwind_bytes l cache :
  unwind (bytes_of l) cache = cache' ← items_unwind l cache; Done ([], cache').
Proof. apply unwind_loop_bytes. pose proof (length_le_bytes l). lia. Qed.

Lemma drop_loop_bytes fuel l : length l < fuel → drop_loop fuel (bytes_of l) = Done [].
Proof.
  revert l. induction fuel as [|fuel IH]; intros l Hf; [lia|].
  destruct l as [|i l]; [done|]. cbn [drop_loop].
  destruct (bytes_of_cons_ne i l) as (b & s' & Hb). rewrite Hb, <- Hb.
  rewrite drop_top_bytes. simpl in *. apply IH. lia.
Qed.

Lemma drop_stack_bytes l : drop_stack (bytes_of l) = Done [].
Proof. apply drop_loop_bytes. pose proof (length_le_bytes l). lia. Qed.

(** The iterator walks down the bytes: below the cursor there are the bytes of
    the rest of the items. *)
Lemma markers_loop_bytes fuel s l :
  (∃ s', s = bytes_of l ++ s') → length l < fuel →
  markers_loop fuel s (length (bytes_of l)) = Done (map marker l).
Proof.
  revert l. induction fuel as [|fuel IH]; intros l [s' Hs] Hf; [lia|].
  destruct l as [|i l]; [done|]. cbn [markers_loop bytes_of] in *. rewrite length_push.
  destruct (_ =? 0) eqn:E0; [apply Nat.eqb_eq in E0; lia|].
  assert (Hlook : s !! (length (bytes_of l) + item_size (marker i) + 1 - 1)
                  = Some (of_u8 (marker_to_u8 (marker i)))).
  { assert (s = (bytes_of l ++ to_bytes i) ++ of_u8 (marker_to_u8 (marker i)) :: s') as ->.
    { rewrite Hs. unfold push. by rewrite <- !app_assoc. }
    unfold Stack. rewrite lookup_app_r; rewrite length_app, to_bytes_length; [|lia].
    replace (length (bytes_of l) + item_size (marker i) + 1 - 1
             - (length (bytes_of l) + item_size (marker i))) with 0 by lia.
    done. }
  rewrite Hlook. simpl. rewrite to_of_u8. simpl. rewrite marker_round_trip. simpl.
  destruct (_ <? _) eqn:E1; [apply Nat.ltb_lt in E1; lia|].
  replace (length (bytes_of l) + item_size (marker i) + 1 - S (item_size (marker i)))
    with (length (bytes_of l)) by lia.
  rewrite IH; [done| |simpl in Hf; lia].
  exists (to_bytes i ++ [of_u8 (marker_to_u8 (marker i))] ++ s'). rewrite Hs. unfold push.
  by rewrite <- !app_assoc.
Qed.

Lemma markers_bytes l : markers (bytes_of l) = Done (map marker l).
Proof.
  apply markers_loop_bytes; [exists []; by rewrite app_nil_r|].
  pose proof (length_le_bytes l). lia.
Qed.

Lemma push_eqs_bytes it l :
  push_eqs it (bytes_of l) = bytes_of (foldl (λ l p, EqItem p.1 p.2 :: l) l it).
Proof. revert l. induction it as [|p it IH]; intros l; simpl; [done|]. apply (IH (_ :: l)). Qed.

Lemma push_str_chunks_bytes it l :
  push_str_chunks it (bytes_of l) = bytes_of (foldl (λ l c, StrChunkItem c :: l) l it).
Proof. revert l. induction it as [|p it IH]; intros l; simpl; [done|]. apply (IH (_ :: l)). Qed.

(** ** Runs of stack operations *)

Inductive stack_op : Type :=
| SPush (i : StackItem U)
| SPushEqs (it : list (Closure * Closure))
| SPushStrChunks (it : list StrChunk)
| SPop (m : Marker)
| SPopArg
| SPopArgAsIdx
| SPeek
| SIsTopIdx
| SIsTopCont
| SMarkers
| SClearEqs
| SUnwind
| SDrop.

(** What an operation lets the program see. *)
Inductive seen : Type :=
| SawNothing
| SawItem (o : option (StackItem U))
| SawClosure (o : option Closure)
| SawIndex (o : option CacheIndex)
| SawCont (c : SealedCont)
| SawBool (b : bool)
| SawMarkers (ms : list Marker).

Definition byte_step (op : stack_op) (s : Stack) (cache : C) : outcome (seen * Stack * C) :=
  match op with
  | SPush i => Done (SawNothing, push i s, cache)
  | SPushEqs it => Done (SawNothing, push_eqs it s, cache)
  | SPushStrChunks it => Done (SawNothing, push_str_chunks it s, cache)
  | SPop m => '(o, s') ← pop m s; Done (SawItem o, s', cache)
  | SPopArg => '(o, s', cache') ← pop_arg s cache; Done (SawClosure o, s', cache')
  | SPopArgAsIdx => '(o, s', cache') ← pop_arg_as_idx s cache; Done (SawIndex o, s', cache')
  | SPeek => c ← peek_sealed_cont s; Done (SawCont c, s, cache)
  | SIsTopIdx => b ← is_top_idx s; Done (SawBool b, s, cache)
  | SIsTopCont => b ← is_top_cont s; Done (SawBool b, s, cache)
  | SMarkers => ms ← markers s; Done (SawMarkers ms, s, cache)
  | SClearEqs => s' ← clear_eqs s; Done (SawNothing, s', cache)
  | SUnwind => '(s', cache') ← unwind s cache; Done (SawNothing, s', cache')
  | SDrop => s' ← drop_stack s; Done (SawNothing, s', cache)
  end.

Definition item_step (op : stack_op) (l : items) (cache : C) : outcome (seen * items * C) :=
  match op with
  | SPush i => Done (SawNothing, i :: l, cache)
  | SPushEqs it => Done (SawNothing, foldl (λ l p, EqItem p.1 p.2 :: l) l it, cache)
  | SPushStrChunks it => Done (SawNothing, foldl (λ l c, StrChunkItem c :: l) l it, cache)
  | SPop m => let '(o, l') := items_pop m l in Done (SawItem o, l', cache)
  | SPopArg => '(o, l', cache') ← items_pop_arg l cache; Done (SawClosure o, l', cache')
  | SPopArgAsIdx => '(o, l', cache') ← items_pop_arg_as_idx l cache; Done (SawIndex o, l', cache')
  | SPeek => Done (SawCont (items_peek_sealed_cont l), l, cache)
  | SIsTopIdx => Done (SawBool (items_is_top is_idx l), l, cache)
  | SIsTopCont => Done (SawBool (items_is_top is_cont l), l, cache)
  | SMarkers => Done (SawMarkers (map marker l), l, cache)
  | SClearEqs => Done (SawNothing, items_clear_eqs l, cache)
  | SUnwind => cache' ← items_unwind l cache; Done (SawNothing, [], cache')
  | SDrop => Done (SawNothing, [], cache)
  end.

Fixpoint run_ops {S} (step : stack_op → S → C → outcome (seen * S * C)) (ops : list stack_op)
    (s : S) (cache : C) : outcome (list seen * S * C) :=
  match ops with
  | [] => Done ([], s, cache)
  | op :: ops' =>
      '(o, s', cache') ← step op s cache;
      '(os, s'', cache'') ← run_ops step ops' s' cache';
      Done (o :: os, s'', cache'')
  end.

Lemma step_simulates op l cache :
  byte_step op (bytes_of l) cache =
  '(o, l', cache') ← item_step op l cache; Done (o, bytes_of l', cache').
Proof.
  destruct op; cbn [byte_step item_step].
  - done.
  - by rewrite push_eqs_bytes.
  - by rewrite push_str_chunks_bytes.
  - rewrite pop_bytes. simpl. by destruct (items_pop m l).
  - rewrite pop_arg_bytes. by destruct (items_pop_arg l cache) as [[[? ?] ?]| |].
  - rewrite pop_arg_as_idx_bytes. by destruct (items_pop_arg_as_idx l cache) as [[[? ?] ?]| |].
  - by rewrite peek_bytes.
  - by rewrite (proj1 (is_top_bytes l)).
  - by rewrite (proj2 (is_top_bytes l)).
  - by rewrite markers_bytes.
  - by rewrite clear_eqs_bytes.
  - rewrite unwind_bytes. by destruct (items_unwind l cache).
  - by rewrite drop_stack_bytes.
Qed.

(** C11: the evaluation stack, a vector of raw bytes, is a stack of typed items:
    every sequence of pushes, pops, arguments taken, peeks, iterations over the
    markers, clearings of equalities, unwindings and drops shows the program what
    the same operations on a list of items show, leaves the bytes of the list
    they leave and changes the cache in the same way. In particular no item is
    read at a type it was not written at, no offset underflows, and the loops
    end. *)
Theorem stack_refines_items (ops : list stack_op) (l : items) (cache : C) :
  run_ops byte_step ops (bytes_of l) cache =
  '(os, l', cache') ← run_ops item_step ops l cache; Done (os, bytes_of l', cache').
Proof.
  revert l cache. induction ops as [|op ops IH]; intros l cache; [done|].
  cbn [run_ops]. rewrite step_simulates.
  destruct (item_step op l cache) as [[[o l'] cache']| |]; [|done..]. simpl.
  rewrite IH. by destruct (run_ops item_step ops l' cache') as [[[os l''] cache'']| |].
Qed.

End refinement.

(** A run that pushes an argument, an update frame and a primitive operation,
    peeks at it, then unwinds. *)
Lemma stack_refines_items_witness :
  let ops := [SPush (ArgItem (to_closure VNull)); SPush (UpdateIndexItem 0);
              SPush (Op1ContItem Seq (mkAppInfo 0)); SPeek; SIsTopCont; SMarkers; SPop MOp1Cont;
              SUnwind] in
  let h := mkHeap {[ 0 := with_state (data_new (to_closure VNull)) Blackholed ]} 1 in
  run_ops item_step ops [] h
  = Done ([SawNothing; SawNothing; SawNothing; SawCont SealedSeq; SawBool true;
           SawMarkers [MOp1Cont; MUpdateIndex; MArg];
           SawItem (Some (Op1ContItem Seq (mkAppInfo 0))); SawNothing], [],
          mkHeap {[ 0 := data_new (to_closure VNull) ]} 1) ∧
  run_ops byte_step ops (bytes_of []) h =
  '(os, l', cache') ← run_ops item_step ops [] h; Done (os, bytes_of l', cache').
Proof.
  intros ops h. split; [reflexivity|].
  apply (stack_refines_items ops [] h).
Defined.
