(* ===== verification/VM.v ===== *)
(** * The state and the effects of the virtual machine ([core/src/eval/mod.rs])

    [VirtualMachine]: the store of the cache and the stack, which is the list of
    items that [EvalStackTheorems.v] shows the bytes to stand for; the output of
    [std.trace]; the counter of fresh identifiers. Computations may throw an
    evaluation error ([Result<_, ErrorKind>]) or panic. The call stack, from
    which error reports are made, and the warnings are left out.

    What the primitive operations call outside the modelled code is the class
    [Externals]: third-party crates (arbitrary precision numbers and floats,
    regular expressions, hashes, base64, serialization) and the part of the
    program that is not modelled, the strings of [core/src/term/string.rs]. *)
From stdpp Require Import pretty sorting.
From Stdlib Require Import QArith.Qcanon.
From Stdlib Require QArith.QArith_base.
From S2P Require Import Prelude IndexMap Values Records Make LazyCache Closurize Merge EvalStack.

Definition Item : Type := StackItem CacheIndex.

Record Vm : Type := mkVm {
  vm_cache : Heap;
  vm_stack : list Item;
  vm_trace : list string;
  vm_fresh : nat;
}.

Definition with_cache (h : Heap) (s : Vm) : Vm := mkVm h (vm_stack s) (vm_trace s) (vm_fresh s).
Definition with_stack (l : list Item) (s : Vm) : Vm :=
  mkVm (vm_cache s) l (vm_trace s) (vm_fresh s).

(** ** Computations *)

Definition VM (A : Type) : Type := Vm → outcome (result A EvalErrorKind * Vm).

#[export] Instance VM_ret : MRet VM := λ A a s, Done (Ok a, s).
#[export] Instance VM_bind : MBind VM := λ A B f m s,
  '(r, s') ← m s; match r with Ok a => f a s' | Err e => Done (Err e, s') end.

Definition throw {A} (e : EvalErrorKind) : VM A := λ s, Done (Err e, s).
Definition vm_panic {A} : VM A := λ _, Panic.

Definition of_result {A} (r : result A EvalErrorKind) : VM A :=
  match r with Ok a => mret a | Err e => throw e end.

(** [unwrap], [expect] *)
Definition expect {A} (o : option A) : VM A :=
  match o with Some a => mret a | None => vm_panic end.

Definition ok_or {A} (o : option A) (e : EvalErrorKind) : VM A :=
  match o with Some a => mret a | None => throw e end.

(** A computation of the cache. *)
Definition in_cache {A} (m : M A) : VM A := λ s,
  '(a, h) ← m (vm_cache s); Done (Ok a, with_cache h s).

Definition get_stack : VM (list Item) := λ s, Done (Ok (vm_stack s), s).
Definition set_stack (l : list Item) : VM unit := λ s, Done (Ok (), with_stack l s).

(** ** The stack *)

Definition push_item (i : Item) : VM unit := l ← get_stack; set_stack (i :: l).

(** [Stack::pop] *)
Definition pop_item (m : Marker) : VM (option Item) :=
  l ← get_stack;
  let '(o, l') := items_pop m l in
  _ ← set_stack l'; mret o.

(** [Stack::pop_arg], [pop_arg_as_idx] *)
Definition vm_pop_arg : VM (option Closure) := λ s,
  '(o, l, h) ← items_pop_arg (C := Heap) (vm_stack s) (vm_cache s);
  Done (Ok o, with_stack l (with_cache h s)).

Definition vm_pop_arg_as_idx : VM (option CacheIndex) := λ s,
  '(o, l, h) ← items_pop_arg_as_idx (C := Heap) (vm_stack s) (vm_cache s);
  Done (Ok o, with_stack l (with_cache h s)).

(** [pop_arg().ok_or_else(NotEnoughArgs)] *)
Definition pop_arg_or (required : nat) (primitive : string) : VM Closure :=
  o ← vm_pop_arg; ok_or o (NotEnoughArgs required primitive).

(** [push_eqs], [push_str_chunks]: pushed in order, so that the last is popped
    first. *)
Definition push_all (l : list Item) : VM unit := l0 ← get_stack; set_stack (rev l ++ l0).

Definition no_app_info : PrimopAppInfo := mkAppInfo 0.

(** A computation that generates identifiers; [LocIdent::fresh] *)
Definition in_fresh {A} (m : Fresh A) : VM A := λ s,
  '(a, n) ← m (vm_fresh s); Done (Ok a, mkVm (vm_cache s) (vm_stack s) (vm_trace s) n).

Definition fresh_ident : VM Ident := in_fresh fresh.

(** [writeln!(self.context.trace, ..)] *)
Definition write_trace (msg : string) : VM unit := λ s,
  Done (Ok (), mkVm (vm_cache s) (vm_stack s) (vm_trace s ++ [msg]) (vm_fresh s)).

(** ** What operations call outside *)

Record RegexFindResult : Type := mkRegexFind {
  matched : string; index : Number; groups : list (option string);
}.

Inductive ExportFormat : Type := Json | Toml | Yaml | YamlDocuments.
Inductive HashAlg : Type := Md5 | Sha1 | Sha256 | Sha512.
Inductive Base64Engine : Type := Standard64 | UrlSafe | NoPad | UrlSafeNoPad.

Class Externals : Type := {
  (** [Display], [to_sci] and parsing of numbers; floating point functions, with
      the float as text when it is not a number; powers. *)
  show_number : Number → string;
  number_to_sci : Number → string;
  parse_number_sci : string → option Number;
  float_op1 : UnaryOp → Number → result Number string;
  float_op2 : BinaryOp → Number → Number → result Number string;
  rational_pow : Number → Z → outcome Number;
  (** [NickelString] *)
  str_trim : string → string;
  str_characters : string → list string;
  str_uppercase : string → string;
  str_lowercase : string → string;
  str_length : string → nat;
  str_split : string → string → list string;
  str_contains : string → string → bool;
  str_replace : string → string → string → string;
  str_substring : string → Number → Number → result string string;
  regex_new : string → result CompiledRegex string;
  regex_is_match : CompiledRegex → string → bool;
  regex_find_all : CompiledRegex → string → list RegexFindResult;
  regex_replace : CompiledRegex → string → string → string;
  (** Hashes, base64, serialization *)
  digest : HashAlg → string → list N;
  base64_encode : Base64Engine → string → string;
  base64_decode : Base64Engine → string → result string string;
  serialize_validate : ExportFormat → NickelValue → result unit nat;
  serialize_to_string : ExportFormat → NickelValue → result string nat;
  from_json : string → result NickelValue string;
  from_toml : string → result NickelValue string;
  load_yaml : bool → string → result NickelValue nat;
  (** The iteration order of hash maps *)
  hash_order :: HashOrder;
  (** [PartialEq for Label] *)
  label_eq : Label → Label → bool;
  (** [ImportResolver::get], [Debug for FileId] *)
  import_get : nat → option NickelValue;
  show_file : nat → string;
}.

(** ** Numbers *)

(** [TryFrom<&Number>] for the integer types: the numbers that are integers in
    their range. *)
Definition to_integer (n : Number) : option Z :=
  if (QArith_base.Qden (this n) =? 1)%positive then Some (QArith_base.Qnum (this n)) else None.

Definition to_range (lo hi : Z) (n : Number) : option Z :=
  z ← to_integer n; if (lo <=? z)%Z && (z <=? hi)%Z then Some z else None.

Definition to_usize (n : Number) : option nat := Z.to_nat <$> to_range 0 (2 ^ 64 - 1) n.
Definition to_u32 (n : Number) : option nat := Z.to_nat <$> to_range 0 (2 ^ 32 - 1) n.
Definition to_i64 (n : Number) : option Z := to_range (- 2 ^ 63) (2 ^ 63 - 1) n.

Definition number_of_Z (z : Z) : Number := Q2Qc (QArith_base.inject_Z z).
Definition number_of_nat (n : nat) : Number := number_of_Z (Z.of_nat n).

(** [Integer::rounding_from(_, Down)]: towards zero. *)
Definition truncate (n : Number) : Z := Z.quot (QArith_base.Qnum (this n)) (Zpos (QArith_base.Qden (this n))).

(** ** Values *)

Definition as_bool (v : NickelValue) : option bool := match v with VBool b => Some b | _ => None end.
Definition as_number (v : NickelValue) : option Number :=
  match v with VNumber n => Some n | _ => None end.
Definition as_string (v : NickelValue) : option string :=
  match v with VString s => Some s | _ => None end.
Definition as_label (v : NickelValue) : option Label :=
  match v with VLabel l => Some l | _ => None end.
Definition as_sealing_key (v : NickelValue) : option SealingKey :=
  match v with VSealingKey k => Some k | _ => None end.
Definition as_record (v : NickelValue) : option (Container RecordData) :=
  match v with VRecord c => Some c | _ => None end.
Definition as_array (v : NickelValue) : option (Container ArrayData) :=
  match v with VArray c => Some c | _ => None end.
Definition as_enum_variant (v : NickelValue) : option (Ident * option NickelValue) :=
  match v with VEnumVariant tag arg => Some (tag, arg) | _ => None end.

Definition container_opt {C} (c : Container C) : option C :=
  match c with Alloc c => Some c | Empty => None end.

(** The inline empty container, allocated to be written to
    ([empty_record_block], [empty_array_block]). *)
Definition alloc_record (c : Container RecordData) : RecordData := default record_empty (container_opt c).
Definition alloc_array (c : Container ArrayData) : ArrayData :=
  default (mkArrayData [] []) (container_opt c).

Definition container_fields (c : Container RecordData) : list (Ident * Field) :=
  default [] (fields <$> container_opt c).

Definition container_field_names (c : Container RecordData) (op_kind : RecordOpKind) : list Ident :=
  default [] ((λ r, field_names r op_kind) <$> container_opt c).

Definition container_only_empty_opts (c : Container RecordData) : bool :=
  match c with Empty => true | Alloc r => has_only_empty_opts r end.

(** [ArrayData::iter_with_pending_contracts] *)
Definition iter_with_pending_contracts (d : ArrayData) : list NickelValue :=
  map (λ v, apply_all v (array_pending_contracts d)) (array d).

Definition container_elements (c : Container ArrayData) : list NickelValue :=
  default [] (iter_with_pending_contracts <$> container_opt c).

Definition container_len (c : Container ArrayData) : nat :=
  default 0 ((λ d, length (array d)) <$> container_opt c).

Definition set_frozen (b : bool) (a : RecordAttrs) : RecordAttrs := mkRecordAttrs (open a) b.

(** [NickelValue::to_nickel_string] *)
Definition to_nickel_string `{Externals} (v : NickelValue) : option string :=
  match v with
  | VNull => Some "null"%string
  | VBool b => Some (if b then "true" else "false")%string
  | VString s => Some s
  | VEnumVariant tag None => Some (label tag)
  | VNumber n => Some (number_to_sci n)
  | _ => None
  end.

(** ** Labels *)

Definition with_polarity (f : Polarity → Polarity) (l : Label) : Label :=
  let 'mkLabel t d a p pa e n := l in mkLabel t d a (f p) pa e n.
Definition polarity (l : Label) : Polarity := let 'mkLabel _ _ _ p _ _ _ := l in p.
Definition push_path (e : Elem) (l : Label) : Label :=
  let 'mkLabel t d a p pa te n := l in mkLabel t d a p (pa ++ [e]) te n.
Definition with_arg_idx (i : CacheIndex) (l : Label) : Label :=
  let 'mkLabel t d _ p pa e n := l in mkLabel t d (Some i) p pa e n.
Definition push_type_var (k : SealingKey) (p : Polarity) (l : Label) : Label :=
  let 'mkLabel t d a po pa e n := l in mkLabel t d a po pa (e ++ [(k, p)]) n.

(** [TryFrom<&NickelValue> for Polarity] *)
Definition polarity_of_value (v : NickelValue) : option Polarity :=
  match v with
  | VEnumVariant tag None =>
      if bool_decide (label tag = "Positive"%string) then Some Positive
      else if bool_decide (label tag = "Negative"%string) then Some Negative
      else None
  | _ => None
  end.
