(* ===== verification/Op1.v ===== *)
(** * Unary primitive operations ([eval_op1] of [core/src/eval/operation.rs])

    Each arm of the match that does more than read its argument has a definition
    of its own, with the argument evaluated to a weak head normal form [v] in its
    environment [env]. Lazy second arguments are taken from the stack. *)
From stdpp Require Import pretty sorting.
From Stdlib Require Import QArith.Qcanon.
From S2P Require Import Prelude IndexMap Values Records Make LazyCache Closurize Merge EvalStack VM.

(** [Display for UnaryOp] *)
Definition op1_name (op : UnaryOp) : string :=
  match op with
  | IfThenElse => "if_then_else" | Typeof => "typeof" | Cast => "cast"
  | BoolAnd => "(&&)" | BoolOr => "(||)" | BoolNot => "bool/not" | Blame => "blame"
  | EnumEmbed _ => "enum/embed" | TagsOnlyMatch _ => "match"
  | RecordAccess _ => "record/access" | ArrayMap => "array/map" | RecordMap => "record/map"
  | LabelFlipPol => "label/flip_polarity" | LabelPol => "label/polarity"
  | LabelGoDom => "label/go_dom" | LabelGoCodom => "label/go_codom"
  | LabelGoArray => "label/go_array" | LabelGoDict => "label/go_dict"
  | Seq => "seq" | DeepSeq => "deep_seq" | ArrayLength => "array/length"
  | ArrayGen => "array/generate" | ChunksConcat => "chunks_concat"
  | RecordFields IgnoreEmptyOpt => "record/fields"
  | RecordFields ConsiderAllFields => "record/fields_with_opts"
  | RecordValues => "record/values" | StringTrim => "string/trim"
  | StringChars => "string/chars" | StringUppercase => "string/uppercase"
  | StringLowercase => "string/lowercase" | StringLength => "string/length"
  | ToString => "to_string" | NumberFromString => "number/from_string"
  | EnumFromString => "enum/from_string" | StringIsMatch => "string/is_match"
  | StringFind => "string/find" | StringFindAll => "string/find_all"
  | StringIsMatchCompiled _ => "string/is_match_compiled"
  | StringFindCompiled _ => "string/find_compiled"
  | StringFindAllCompiled _ => "string/find_all_compiled"
  | Force _ => "force" | RecDefault => "rec_default" | RecForce => "rec_force"
  | RecordEmptyWithTail => "record/empty_with_tail" | RecordFreeze => "record/freeze"
  | Trace => "trace" | LabelPushDiag => "label/push_diag" | EnumGetArg => "enum/get_arg"
  | EnumMakeVariant => "enum/make_variant" | EnumIsVariant => "enum/is_variant"
  | EnumGetTag => "enum/get_tag" | ContractCustom => "contract/custom"
  | ContractPostprocessResult => "contract/postprocess_result"
  | ContractAttachDefaultLabel => "contract/attach_default_label"
  | NumberArcCos => "number/arccos" | NumberArcSin => "number/arcsin"
  | NumberArcTan => "number/arctan" | NumberCos => "number/cos"
  | NumberSin => "number/sin" | NumberTan => "number/tan"
  end%string.

(** [mk_type_error!] *)
Definition type_error1 {A} (op : UnaryOp) (expected : string) (v : NickelValue) : VM A :=
  throw (UnaryPrimopTypeError (op1_name op) expected v).

Definition type_error1_n {A} (op : UnaryOp) (expected : string) (n : nat) (v : NickelValue) : VM A :=
  throw (NAryPrimopTypeError (op1_name op) expected n v).

(** [type_tag] *)
Definition type_tag (v : NickelValue) : Ident :=
  ident match v with
  | VNull => "Other"
  | VBool _ => "Bool"
  | VNumber _ => "Number"
  | VArray _ => "Array"
  | VRecord _ => "Record"
  | VString _ => "String"
  | VTerm (TRecRecord _) => "Record"
  | VTerm (TFun _ _) => "Function"
  | VTerm _ => "Other"
  | VLabel _ => "Label"
  | VEnumVariant _ _ => "Enum"
  | VForeignId _ => "ForeignId"
  | VCustomContract _ => "CustomContract"
  | VType _ _ => "Type"
  | VSealingKey _ | VThunk _ => "Other"
  end.

(** [collect::<Result<Vec<_>, _>>()]: the first error, or all the values. *)
Fixpoint collect_results {A E} (l : list (result A E)) : result (list A) E :=
  match l with
  | [] => Ok []
  | Ok a :: l' => match collect_results l' with Ok as_ => Ok (a :: as_) | Err e => Err e end
  | Err e :: _ => Err e
  end.

Definition of_missing {A} (r : result A MissingFieldDefError) : VM A :=
  match r with Ok a => mret a | Err e => throw (into_eval_err e) end.

(** [closurize_container] *)
Definition closurize_container (v : NickelValue) : NickelValue := VTerm (TClosurize v).

Definition vm_closurize (v : NickelValue) (env : Environment) : VM NickelValue :=
  in_cache (closurize v env).

(** An [IllegalPolymorphicTailAccess] error with the argument of the label. *)
Definition throw_tail {A} (action : IllegalPolymorphicTailAction) (l : Label) : VM A :=
  arg ← in_cache (get_evaluated_arg l); throw (IllegalPolymorphicTailAccess action arg l).

Definition throw_blame {A} (l : Label) : VM A :=
  arg ← in_cache (get_evaluated_arg l); throw (BlameError arg l).

(** [str::replace('\n', by)] *)
Fixpoint replace_newlines (by_ : string) (s : string) : string :=
  match s with
  | EmptyString => EmptyString
  | String c s' =>
      if (Ascii.nat_of_ascii c =? 10) then by_ +:+ replace_newlines by_ s'
      else String c (replace_newlines by_ s')
  end.

(** A newline followed by [indent] spaces. *)
Definition indent_string (indent : N) : string :=
  String (Ascii.ascii_of_nat 10) (String.concat "" (repeat " "%string (N.to_nat indent))).

(** [indent.try_into().unwrap()], from [usize] to [u32]. *)
Definition indent_u32 (indent : nat) : VM N :=
  if (N.of_nat indent <? 2 ^ 32)%N then mret (N.of_nat indent) else vm_panic.

(** [sort_by_key(|(id, _)| *id)] *)
Definition field_le (p q : Ident * NickelValue) : Prop := label_le p.1 q.1.

#[export] Instance field_le_dec : RelDecision field_le.
Proof. intros p q. unfold field_le. apply _. Defined.

Section op1.
Context `{Externals, IndexMapOps Ident}.

(** [trait MapValuesClosurize] *)
Definition map_values_closurize (env : Environment) (f : Ident → NickelValue → NickelValue)
    (l : list (Ident * Field)) : VM (IndexMap Ident Field) :=
  fs ← mapM (λ p : Ident * Field,
      v ← of_missing
            match value_with_pending_contracts p.2 with
            | Some v => Ok (f p.1 v)
            | None => Err (mkMissing p.1 (into_inner (metadata p.2)))
            end;
      field ← in_cache (closurize_field (mkField (Some v) (metadata p.2) []) env Normal);
      mret (p.1, field)) l;
  mret (im_extend [] fs).

(** ** Control *)

Definition op_if_then_else (v : NickelValue) : VM Closure :=
  match as_bool v with
  | Some b =>
      fst ← vm_pop_arg ≫= expect;
      snd ← vm_pop_arg ≫= expect;
      mret (if b then fst else snd)
  | None =>
      throw (TypeError "Bool" "the condition in an if expression must have type Bool" v)
  end.

(** [&&] and [||]: [b] is the value for which the second operand is evaluated. *)
Definition op_bool (op : UnaryOp) (name : string) (b : bool) (v : NickelValue) : VM Closure :=
  next ← pop_arg_or 2 name;
  match as_bool v with
  | Some b' => mret (if Bool.eqb b b' then next else to_closure v)
  | None => type_error1_n op "Bool" 1 v
  end.

Definition op_tags_only_match (has_default : bool) (v : NickelValue) : VM Closure :=
  cases ← vm_pop_arg ≫= expect;
  default_ ← (if has_default then d ← vm_pop_arg ≫= expect; mret (Some d) else mret None);
  match v with
  | VEnumVariant tag None =>
      match clos_value cases with
      | VRecord container =>
          case ←
            match im_get (container_fields container) tag with
            | Some field => v' ← expect (value field); mret (Some (mkClosure v' (clos_env cases)))
            | None => mret None
            end;
          ok_or (or_else case default_)
            (NonExhaustiveEnumMatch (container_field_names container IgnoreEmptyOpt)
                                    (VEnumVariant tag None))
      | _ => vm_panic
      end
  | _ =>
      match default_ with
      | Some clos => mret clos
      | None => type_error1_n (TagsOnlyMatch has_default) "Enum" 2 v
      end
  end.

(** ** Records *)

Definition op_record_access (id : Ident) (v : NickelValue) (env : Environment) : VM Closure :=
  match as_record v with
  | Some (Alloc record) =>
      o ← of_missing (get_value_with_ctrs record id);
      match o with
      | Some v' => mret (mkClosure v' env)
      | None =>
          let missing := FieldMissing id (field_names record IgnoreEmptyOpt) "(.)" in
          match sealed_tail record with
          | Some t =>
              if has_field t id then throw_tail (TailFieldAccess (label id)) (tail_label t)
              else throw missing
          | None => throw missing
          end
      end
  | Some Empty => throw (FieldMissing id [] "(.)")
  | None => throw (TypeError "Record" "field access only makes sense for records" v)
  end.

Definition op_record_values (v : NickelValue) (env : Environment) : VM Closure :=
  match as_record v with
  | Some container =>
      values ← of_missing (collect_results (default [] (iter_without_opts <$> container_opt container)));
      let sorted := merge_sort field_le values in
      mret (mkClosure (mk_array sorted.*2 []) env)
  | None => type_error1 RecordValues "Record" v
  end.

Definition op_record_map (v : NickelValue) (env : Environment) : VM Closure :=
  f ← pop_arg_or 2 "record/map";
  match as_record v with
  | None => type_error1 RecordMap "Record" v
  | Some Empty => mret (to_closure v)
  | Some (Alloc record) =>
      match sealed_tail record with
      | Some tail => throw_tail TailMap (tail_label tail)
      | None =>
          f_closure ← vm_closurize (clos_value f) (clos_env f);
          fs ← map_values_closurize env
                 (λ id t, app (app f_closure (VString (label id))) t)
                 (List.filter (λ p : Ident * Field, negb (is_empty_optional p.2)) (fields record));
          mret (to_closure (mk_record
            (mkRecordData fs (set_frozen true (attrs record)) (sealed_tail record))))
      end
  end.

Definition op_record_empty_with_tail (v : NickelValue) (env : Environment) : VM Closure :=
  match as_record v with
  | None => type_error1 RecordEmptyWithTail "Record" v
  | Some container =>
      mret (mkClosure (mk_record (mkRecordData [] attrs_default (container_opt container ≫= sealed_tail)))
                      env)
  end.

Definition op_record_freeze (v : NickelValue) (env : Environment) : VM Closure :=
  match as_record v with
  | None => type_error1 RecordFreeze "Record" v
  | Some Empty => mret (to_closure v)
  | Some (Alloc record) =>
      if frozen (attrs record) then
        match sealed_tail record with None => mret (mkClosure v env) | Some _ => vm_panic end
      else
        match sealed_tail record with
        | Some tail => throw_tail TailFreeze (tail_label tail)
        | None =>
            fs ← in_cache (mapM (λ p : Ident * Field,
                field ← closurize_field
                  (mkField (value_with_pending_contracts p.2) (metadata p.2) []) env Normal;
                mret (p.1, field)) (fields record));
            mret (mkClosure (mk_record
              (mkRecordData (im_extend [] fs) (set_frozen true (attrs record)) None)) env)
        end
  end.

(** ** Forcing *)

(** [seq_terms] of [DeepSeq], which expects at least one term. *)
Definition deep_seq_terms (l : list NickelValue) : VM NickelValue :=
  match l with
  | [] => vm_panic
  | first :: rest => mret (foldl (λ acc t, app (op1 DeepSeq t) acc) (op1 DeepSeq first) rest)
  end.

Definition op_deep_seq (v : NickelValue) (env : Environment) : VM Closure :=
  let next := pop_arg_or 2 "deep_seq" in
  match v with
  | VRecord (Alloc record) =>
      match fields record with
      | [] => next
      | _ =>
          defined ← of_missing (collect_results (iter_without_opts record));
          t ← deep_seq_terms defined.*2;
          mret (mkClosure t env)
      end
  | VArray (Alloc array_data) =>
      match array array_data with
      | [] => next
      | _ =>
          ts ← mapM (λ t, vm_closurize t env) (iter_with_pending_contracts array_data);
          t ← deep_seq_terms ts;
          mret (to_closure t)
      end
  | VEnumVariant _ (Some arg) => t ← deep_seq_terms [arg]; mret (mkClosure t env)
  | _ => next
  end.

(** [seq_terms] of [Force] *)
Definition force_seq_terms (terms : list NickelValue) (cont : NickelValue) : NickelValue :=
  foldl (λ acc t, app (op1 Seq t) acc) cont terms.

Definition op_force (ignore_not_exported : bool) (v : NickelValue) (env : Environment)
    : VM Closure :=
  let force := op1 (Force ignore_not_exported) in
  match v with
  | VRecord (Alloc record) =>
      fs ← map_values_closurize env (λ _ v', force v')
             (List.filter (λ p : Ident * Field,
                negb (is_empty_optional p.2
                      || (ignore_not_exported && shared_not_exported (metadata p.2))))
                (fields record));
      terms ← mapM (λ p : Ident * Field, expect (value p.2)) fs;
      let cont := mk_record (mkRecordData fs (attrs record) (sealed_tail record)) in
      mret (to_closure (force_seq_terms terms cont))
  | VArray (Alloc array_data) =>
      ts ← mapM (λ t, vm_closurize (force t) env) (iter_with_pending_contracts array_data);
      mret (to_closure (force_seq_terms ts (mk_array ts [])))
  | VEnumVariant tag (Some arg) =>
      arg' ← vm_closurize (force arg) env;
      mret (mkClosure (force_seq_terms [arg'] (VEnumVariant tag (Some arg'))) env)
  | _ => mret (mkClosure v env)
  end.

(** ** Arrays *)

Definition op_array_map (v : NickelValue) (env : Environment) : VM Closure :=
  f ← pop_arg_or 2 "array/map";
  match as_array v with
  | None => type_error1 ArrayMap "Array" v
  | Some Empty => mret (to_closure v)
  | Some (Alloc array_data) =>
      f_as_var ← vm_closurize (clos_value f) (clos_env f);
      ts ← mapM (λ t, vm_closurize (app f_as_var t) env) (iter_with_pending_contracts array_data);
      mret (to_closure (mk_array ts []))
  end.

Definition op_array_gen (v : NickelValue) (env : Environment) : VM Closure :=
  f ← pop_arg_or 2 "array/generate";
  match as_number v with
  | None => type_error1 ArrayGen "Number" v
  | Some n =>
      if (match (n ?= 0)%Qc with Lt => true | _ => false end) then
        throw (OtherError
          ("array/generate expects its first argument to be a positive number, got "
           +:+ show_number n))
      else
        n_int ← ok_or (to_u32 n) (OtherError
          ("array/generate expects its first argument to be an integer smaller than "
           +:+ pretty (2 ^ 32 - 1)%N +:+ ", got " +:+ show_number n));
        f_closure ← vm_closurize (clos_value f) (clos_env f);
        ts ← mapM (λ i, vm_closurize (app f_closure (VNumber (number_of_nat i))) env) (seq 0 n_int);
        mret (to_closure (mk_array ts []))
  end.

(** ** Strings *)

(** The string chunks on the top of the stack up to the next expression. *)
Fixpoint pop_literals (acc : string) (l : list Item) : string * option StrChunk * list Item :=
  match l with
  | StrChunkItem (ChunkLiteral s) :: l' => pop_literals (acc +:+ s) l'
  | StrChunkItem (ChunkExpr e indent) :: l' => (acc, Some (ChunkExpr e indent), l')
  | _ => (acc, None, l)
  end.

Definition op_chunks_concat (v : NickelValue) : VM Closure :=
  item ← pop_item MStrAcc ≫= expect;
  match item with
  | StrAccItem acc env curr_indent =>
      match to_nickel_string v with
      | Some s =>
          let acc := acc +:+ (if (curr_indent =? 0)%N then s
                              else replace_newlines (indent_string curr_indent) s) in
          l ← get_stack;
          let '(acc, next_chunk, l') := pop_literals acc l in
          _ ← set_stack l';
          match next_chunk with
          | Some (ChunkExpr e indent) =>
              i ← indent_u32 indent;
              _ ← push_item (StrAccItem acc env i);
              mret (mkClosure (op1 ChunksConcat e) env)
          | _ => mret (to_closure (VString acc))
          end
      | None =>
          throw (TypeError "Stringable"
            "interpolated values must be Stringable (string, number, boolean, enum tag or null)" v)
      end
  | _ => vm_panic
  end.

(** [eta_expand] *)
Definition eta_expand (op : UnaryOp) : VM NickelValue :=
  param ← fresh_ident; mret (fn param (op1 op (var param))).

(** A regular expression is compiled once, and captured by a function. *)
Definition op_regex (op : UnaryOp) (compiled : CompiledRegex → UnaryOp) (v : NickelValue)
    : VM Closure :=
  match as_string v with
  | Some s =>
      match regex_new s with
      | Ok re => f ← eta_expand (compiled re); mret (to_closure f)
      | Err msg => throw (OtherError msg)
      end
  | None => type_error1_n op "String" 1 v
  end.

Definition regex_type_error {A} (v : NickelValue) : VM A :=
  throw (UnaryPrimopTypeError "a compiled regular expression match" "String" v).

(** The record of a match. *)
Definition match_record (r : RegexFindResult) : NickelValue :=
  record_posless (with_field_values
    [ (ident "matched", VString (matched r));
      (ident "index", VNumber (index r));
      (ident "groups", mk_array (map (λ o, VString (default ""%string o)) (groups r)) []) ]).

Definition op_find_compiled (re : CompiledRegex) (v : NickelValue) : VM Closure :=
  match as_string v with
  | Some s =>
      mret (to_closure
        match head (regex_find_all re s) with
        | None => match_record (mkRegexFind "" (number_of_Z (-1)) [])
        | Some r => closurize_container (match_record r)
        end)
  | None => regex_type_error v
  end.

Definition op_find_all_compiled (re : CompiledRegex) (v : NickelValue) : VM Closure :=
  match as_string v with
  | Some s =>
      mret (to_closure (mk_array
        (map (λ r, closurize_container (match_record r)) (regex_find_all re s)) []))
  | None => regex_type_error v
  end.

(** ** Enums and contracts *)

Definition op_enum_make_variant (v : NickelValue) : VM Closure :=
  match as_string v with
  | None => type_error1 EnumMakeVariant "String" v
  | Some tag =>
      arg ← pop_arg_or 2 "enum/make_variant";
      t ← in_cache (thunk_new arg);
      mret (to_closure (VEnumVariant (ident tag) (Some (VThunk t))))
  end.

Definition op_contract_postprocess_result (v : NickelValue) (env : Environment) : VM Closure :=
  match v with
  | VEnumVariant tag (Some arg) =>
      label_closure ← vm_pop_arg ≫= expect;
      if bool_decide (label tag = "Ok"%string) then mret (mkClosure arg env)
      else if bool_decide (label tag = "Error"%string) then
        _ ← push_item (Op1ContItem Blame no_app_info);
        _ ← push_item (Op2FirstContItem LabelWithErrorData no_app_info label_closure);
        _ ← push_item (Op1ContItem (Force false) no_app_info);
        mret (mkClosure arg env)
      else type_error1 ContractPostprocessResult "[| 'Ok, 'Error {..} |]'" v
  | _ => type_error1 ContractPostprocessResult "[| 'Ok, 'Error _ |]" v
  end.

Definition op_contract_attach_default_label (v : NickelValue) (env : Environment) : VM Closure :=
  match v with
  | VEnumVariant _ (Some _) =>
      _ ← push_item (ArgItem (mkClosure v env));
      mret (to_closure add_default_check_label)
  | _ => type_error1 ContractAttachDefaultLabel "[| 'Ok, 'Error _ |]" v
  end.

Definition op_contract_custom (v : NickelValue) (env : Environment) : VM Closure :=
  match v with
  | VTerm (TFun _ _) => c ← vm_closurize v env; mret (to_closure (VCustomContract c))
  | _ => type_error1 ContractCustom "Function or MatchExpression" v
  end.

(** [number_op1] *)
Definition number_op1 (op : UnaryOp) (v : NickelValue) : VM Closure :=
  match as_number v with
  | Some n =>
      match float_op1 op n with
      | Ok r => mret (to_closure (VNumber r))
      | Err f =>
          throw (OtherError ("invalid arithmetic operation: " +:+ op1_name op +:+ "("
            +:+ show_number n +:+ ") returned " +:+ f +:+ ", but " +:+ f
            +:+ " isn't representable in Nickel"))
      end
  | None => type_error1 op "Number" v
  end.

(** The arms on labels. *)
Definition op_label (op : UnaryOp) (v : NickelValue) (f : Label → VM Closure) : VM Closure :=
  match as_label v with Some l => f l | None => type_error1 op "Label" v end.

(** The arms on strings that give one value. *)
Definition op_string (op : UnaryOp) (v : NickelValue) (f : string → NickelValue) : VM Closure :=
  match as_string v with Some s => mret (to_closure (f s)) | None => type_error1 op "String" v end.

(** [eval_op1] *)
Definition eval_op1 (op : UnaryOp) (arg : Closure) : VM Closure :=
  let v := clos_value arg in
  let env := clos_env arg in
  match op with
  | IfThenElse => op_if_then_else v
  | Typeof => mret (to_closure (VEnumVariant (type_tag v) None))
  | Cast => mret (to_closure (VEnumVariant (type_tag v) (Some v)))
  | BoolAnd => op_bool op "&&" true v
  | BoolOr => op_bool op "||" false v
  | BoolNot =>
      match as_bool v with
      | Some b => mret (to_closure (VBool (negb b)))
      | None => type_error1 op "Bool" v
      end
  | Blame => op_label op v throw_blame
  | EnumEmbed _ =>
      match as_enum_variant v with
      | Some _ => mret (to_closure v)
      | None => type_error1 op "Enum" v
      end
  | TagsOnlyMatch has_default => op_tags_only_match has_default v
  | LabelFlipPol => op_label op v (λ l, mret (to_closure (VLabel (with_polarity flip l))))
  | LabelPol => op_label op v (λ l, mret (to_closure (polarity_value (polarity l))))
  | LabelGoDom => op_label op v (λ l, mret (to_closure (VLabel (push_path Domain l))))
  | LabelGoCodom => op_label op v (λ l, mret (to_closure (VLabel (push_path Codomain l))))
  | LabelGoArray => op_label op v (λ l, mret (to_closure (VLabel (push_path ArrayElem l))))
  | LabelGoDict => op_label op v (λ l, mret (to_closure (VLabel (push_path DictElem l))))
  | RecordAccess id => op_record_access id v env
  | RecordFields op_kind =>
      match as_record v with
      | Some container =>
          mret (mkClosure (mk_array (map (λ id, VString (label id))
                                         (container_field_names container op_kind)) []) env)
      | None => type_error1 op "Record" v
      end
  | RecordValues => op_record_values v env
  | ArrayMap => op_array_map v env
  | ArrayGen => op_array_gen v env
  | RecordMap => op_record_map v env
  | Seq => pop_arg_or 2 "seq"
  | DeepSeq => op_deep_seq v env
  | ArrayLength =>
      match as_array v with
      | Some c => mret (to_closure (VNumber (number_of_nat (container_len c))))
      | None => type_error1 op "Array" v
      end
  | ChunksConcat => op_chunks_concat v
  | StringTrim => op_string op v (λ s, VString (str_trim s))
  | StringChars => op_string op v (λ s, mk_array (map VString (str_characters s)) [])
  | StringUppercase => op_string op v (λ s, VString (str_uppercase s))
  | StringLowercase => op_string op v (λ s, VString (str_lowercase s))
  | StringLength => op_string op v (λ s, VNumber (number_of_nat (str_length s)))
  | ToString =>
      match to_nickel_string v with
      | Some s => mret (to_closure (VString s))
      | None =>
          t ← expect (type_of v);
          throw (OtherError ("to_string: can't convert an argument of type " +:+ t +:+ " to string"))
      end
  | NumberFromString =>
      match as_string v with
      | Some s =>
          n ← ok_or (parse_number_sci s)
                (OtherError ("number/from_string: invalid number literal `" +:+ s +:+ "`"));
          mret (to_closure (VNumber n))
      | None => type_error1 op "String" v
      end
  | EnumFromString => op_string op v (λ s, VEnumVariant (ident s) None)
  | StringIsMatch => op_regex op StringIsMatchCompiled v
  | StringFind => op_regex op StringFindCompiled v
  | StringFindAll => op_regex op StringFindAllCompiled v
  | StringIsMatchCompiled re =>
      match as_string v with
      | Some s => mret (to_closure (VBool (regex_is_match re s)))
      | None => regex_type_error v
      end
  | StringFindCompiled re => op_find_compiled re v
  | StringFindAllCompiled re => op_find_all_compiled re v
  | Force ignore_not_exported => op_force ignore_not_exported v env
  | RecordEmptyWithTail => op_record_empty_with_tail v env
  | RecordFreeze => op_record_freeze v env
  | Trace =>
      match as_string v with
      | Some s => _ ← write_trace ("std.trace: " +:+ s); pop_arg_or 2 "trace"
      | None => type_error1 op "String" v
      end
  | LabelPushDiag => op_label op v (λ l, mret (mkClosure (VLabel (push_diagnostic l)) env))
  | EnumGetArg =>
      match v with
      | VEnumVariant _ (Some arg) => mret (mkClosure arg env)
      | _ => type_error1 op "Enum variant" v
      end
  | EnumMakeVariant => op_enum_make_variant v
  | EnumGetTag =>
      match v with
      | VEnumVariant tag _ => mret (to_closure (VEnumVariant tag None))
      | _ => type_error1 op "Enum" v
      end
  | EnumIsVariant =>
      mret (to_closure (VBool match v with VEnumVariant _ (Some _) => true | _ => false end))
  | ContractCustom => op_contract_custom v env
  | ContractPostprocessResult => op_contract_postprocess_result v env
  | ContractAttachDefaultLabel => op_contract_attach_default_label v env
  | NumberArcCos | NumberArcSin | NumberArcTan | NumberCos | NumberSin | NumberTan =>
      number_op1 op v
  | RecDefault | RecForce => vm_panic
  end.

End op1.
