(* ===== verification/Subst.v ===== *)
(** * Variable lookup and substitution ([get_var], [subst] of [core/src/eval/mod.rs])

    [subst] replaces the variables and the thunks of an evaluated expression by
    their contents, to print or to serialize it. It follows the store, which may
    be cyclic: it takes fuel. *)
From stdpp Require Import sorting.
From Stdlib Require Import QArith.Qcanon.
From S2P Require Import Prelude IndexMap Values Records LazyCache ContractEq.

(** [get_var]: the local environment first. *)
Definition get_var (id : Ident) (initial_env env : Environment) : result CacheIndex EvalErrorKind :=
  match or_else (env !! id) (initial_env !! id) with
  | Some idx => Ok idx
  | None => Err (UnboundIdentifier id)
  end.

Section subst.
Context (h : Heap) (initial_env : Environment).

(** Substitution in the values of a list, of the fields of a record. *)
Definition subst_list (subst : NickelValue → outcome NickelValue) (l : list NickelValue)
    : outcome (list NickelValue) := mapM subst l.

Definition subst_field (subst : NickelValue → outcome NickelValue) (f : Field) : outcome Field :=
  match value f with
  | Some v => v' ← subst v; Done (mkField (Some v') (metadata f) (pending_contracts f))
  | None => Done f
  end.

Definition subst_record (subst : NickelValue → outcome NickelValue) (r : RecordData)
    : outcome RecordData :=
  fs ← mapM (λ p : Ident * Field, f ← subst_field subst p.2; Done (p.1, f)) (fields r);
  Done (mkRecordData fs (attrs r) (sealed_tail r)).

Definition subst_term (subst : NickelValue → outcome NickelValue) (t : Term) : outcome Term :=
  match t with
  | TVar _ | TParseError _ | TRuntimeError _ | TFun _ _ | TImport _ | TResolvedImport _ => Done t
  | TLet bindings body attrs =>
      bs ← mapM (λ p : Ident * NickelValue, v ← subst p.2; Done (p.1, v)) bindings;
      b ← subst body;
      Done (TLet bs b attrs)
  | TApp head arg => f ← subst head; a ← subst arg; Done (TApp f a)
  | TOp1 op arg => a ← subst arg; Done (TOp1 op a)
  | TOp2 op arg1 arg2 => a1 ← subst arg1; a2 ← subst arg2; Done (TOp2 op a1 a2)
  | TOpN op args => l ← subst_list subst args; Done (TOpN op l)
  | TSealed key inner lbl => v ← subst inner; Done (TSealed key v lbl)
  | TRecRecord data =>
      r ← subst_record subst (record data);
      dyns ← mapM (λ p : NickelValue * Field,
          id_t ← subst p.1; f ← subst_field subst p.2; Done (id_t, f)) (dyn_fields data);
      Done (TRecRecord (mkRecRecordData r (includes data) dyns (rec_deps data) (closurized data)))
  | TStrChunks chunks =>
      l ← mapM (λ c, match c with
                     | ChunkLiteral s => Done (ChunkLiteral s)
                     | ChunkExpr e indent => v ← subst e; Done (ChunkExpr v indent)
                     end) chunks;
      Done (TStrChunks l)
  | TAnnotated annot inner => v ← subst inner; Done (TAnnotated annot v)
  | TClosurize v => v' ← subst v; Done (TClosurize v')
  end.

(** [subst]. The call to [get_var] passes the two environments as the source
    does: the local one in the place of the initial one. *)
Fixpoint subst (fuel : nat) (env : Environment) (v : NickelValue) : outcome NickelValue :=
  match fuel with
  | 0 => OutOfFuel
  | S fuel' =>
      match v with
      | VNull | VBool _ | VNumber _ | VString _ | VCustomContract _ | VLabel _ | VType _ _
      | VForeignId _ | VSealingKey _ => Done v
      | VThunk t => c ← heap_borrow h t; subst fuel' (clos_env c) (clos_value c)
      | VRecord Empty => Done v
      | VRecord (Alloc r) =>
          r' ← subst_record (subst fuel' env) r;
          Done (if record_is_empty r' && negb (open (attrs r'))
                then VRecord Empty else VRecord (Alloc r'))
      | VArray Empty => Done v
      | VArray (Alloc d) =>
          l ← subst_list (subst fuel' env) (array d);
          Done (match l with
                | [] => VArray Empty
                | _ => VArray (Alloc (mkArrayData l (array_pending_contracts d)))
                end)
      | VEnumVariant tag None => Done v
      | VEnumVariant tag (Some arg) =>
          a ← subst fuel' env arg; Done (VEnumVariant tag (Some a))
      | VTerm (TVar id) =>
          match get_var id env initial_env with
          | Ok idx => c ← heap_borrow h idx; subst fuel' (clos_env c) (clos_value c)
          | Err _ => Done v
          end
      | VTerm t => t' ← subst_term (subst fuel' env) t; Done (VTerm t')
      end
  end.

End subst.
