(* ===== verification/Op2.v ===== *)
(** * Binary primitive operations ([eval_op2] and [eq] of
    [core/src/eval/operation.rs])

    Both arguments are evaluated to weak head normal forms, [v1] in [env1] and
    [v2] in [env2]; further lazy arguments are on the stack. [contract_eq] and
    [type_eq_noenv] are the equalities of [ContractEq.v], as functions of the
    store; [fuel] is for the substitutions. *)
From stdpp Require Import pretty sorting.
From Stdlib Require Import QArith.Qcanon.
From S2P Require Import Prelude IndexMap Values Records Make LazyCache Closurize Merge EvalStack VM Op1 Subst.

(** [Display for BinaryOp] *)
Definition op2_name (op : BinaryOp) : string :=
  match op with
  | Plus => "(+)" | Sub => "(-)" | Mult => "(*)" | Div => "(/)" | Modulo => "(%)"
  | NumberArcTan2 => "number/arctan2" | NumberLog => "number/log" | Pow => "pow"
  | StringConcat => "string/concat" | Eq_ => "(==)" | LessThan => "(<)" | LessOrEq => "(<=)"
  | GreaterThan => "(>)" | GreaterOrEq => "(>=)" | ContractApply => "contract/apply"
  | ContractCheck => "contract/check" | LabelWithErrorData => "label/with_error_data"
  | Unseal => "unseal" | LabelGoField => "label/go_field"
  | RecordInsert _ _ _ IgnoreEmptyOpt => "record/insert"
  | RecordInsert _ _ _ ConsiderAllFields => "record/insert_with_opts"
  | RecordRemove IgnoreEmptyOpt => "record/remove"
  | RecordRemove ConsiderAllFields => "record/remove_with_opts"
  | RecordGet => "record/get"
  | RecordHasField IgnoreEmptyOpt => "record/has_field"
  | RecordHasField ConsiderAllFields => "record/has_field_with_opts"
  | RecordFieldIsDefined IgnoreEmptyOpt => "record/field_is_defined"
  | RecordFieldIsDefined ConsiderAllFields => "record/field_is_defined_with_opts"
  | RecordSplitPair => "record/split_pair" | RecordDisjointMerge => "record/disjoint_merge"
  | ArrayConcat => "(@)" | ArrayAt => "array/at" | MergeOp _ => "(&)" | Hash => "hash"
  | Serialize => "serialize" | Deserialize => "deserialize" | StringSplit => "string/split"
  | StringContains => "string/contains" | StringCompare => "string/compare"
  | StringBase64Encode => "string/base64_encode" | StringBase64Decode => "string/base64_decode"
  | Seal => "seal" | ContractArrayLazyApp => "contract/array_lazy_apply"
  | ContractRecordLazyApp => "contract/record_lazy_apply"
  | LabelWithMessage => "label/with_message" | LabelWithNotes => "label/with_notes"
  | LabelAppendNote => "label/append_note" | LabelLookupTypeVar => "label/lookup_type_variable"
  end%string.

Definition type_error2 {A} (op : BinaryOp) (expected : string) (n : nat) (v : NickelValue) : VM A :=
  throw (NAryPrimopTypeError (op2_name op) expected n v).

(** [let Some(x) = value.as_..() else { return mk_type_error!(..) }] *)
Definition arg_as {A} (op : BinaryOp) (as_ : NickelValue → option A) (expected : string) (n : nat)
    (v : NickelValue) : VM A :=
  match as_ v with Some a => mret a | None => type_error2 op expected n v end.

Definition in_outcome {A} (o : outcome A) : VM A := λ s, a ← o; Done (Ok a, s).

Definition get_cache : VM Heap := λ s, Done (Ok (vm_cache s), s).

(** [usize::MAX] *)
Definition usize_max_text : string := pretty usize_max.

(** ** Equality *)

Inductive EqResult : Type :=
| EqBool (b : bool)
| Eqs (v1 v2 : NickelValue) (subeqs : list (Closure * Closure)).

(** [gen_eqs] *)
Definition gen_eqs (l : list (NickelValue * NickelValue)) (env1 env2 : Environment) : VM EqResult :=
  match l with
  | (v1, v2) :: rest =>
      let eqs := map (λ p : NickelValue * NickelValue, (mkClosure p.1 env1, mkClosure p.2 env2)) rest in
      c1 ← vm_closurize v1 env1;
      c2 ← vm_closurize v2 env2;
      mret (Eqs c1 c2 eqs)
  | [] => mret (EqBool true)
  end.

(** The equality of two fields of the same name: nothing to compare when both
    have no value, an error when one has not. *)
Definition eq_fields (p : Ident * (Field * Field))
    : option (result (NickelValue * NickelValue) EvalErrorKind) :=
  let '(id, (field1, field2)) := p in
  match value field1, value field2 with
  | Some value1, Some value2 =>
      Some (Ok (apply_all value1 (pending_contracts field1), apply_all value2 (pending_contracts field2)))
  | None, None => None
  | None, Some _ => Some (Err (MissingFieldDef id (into_inner (metadata field1))))
  | Some _, None => Some (Err (MissingFieldDef id (into_inner (metadata field2))))
  end.

Section op2.
Context `{Externals, IndexMapOps Ident}.
Context (contract_eq : Heap → NickelValue → Environment → NickelValue → Environment → bool).
Context (type_eq_noenv : Heap → Typ → Typ → bool).
Context (fuel : nat) (initial_env : Environment).

Definition eq_records (r1 r2 : RecordData) (env1 env2 : Environment) : VM EqResult :=
  let s := split_ref (fields r1) (fields r2) in
  if negb (forallb is_empty_optional (values (left s)))
     || negb (forallb is_empty_optional (values (right s)))
  then mret (EqBool false)
  else
    match center s with
    | [] => mret (EqBool true)
    | _ => eqs ← of_result (collect_results (omap eq_fields (center s))); gen_eqs eqs env1 env2
    end.

Definition eq_arrays (d1 d2 : ArrayData) (env1 env2 : Environment) : VM EqResult :=
  l1 ← mapM (λ elt, vm_closurize elt env1) (iter_with_pending_contracts d1);
  l2 ← mapM (λ elt, vm_closurize elt env2) (iter_with_pending_contracts d2);
  let eqs := zip l1 l2 in
  match last eqs with
  | None => mret (EqBool true)
  | Some (v1, v2) =>
      mret (Eqs v1 v2 (map (λ p : NickelValue * NickelValue, (to_closure p.1, to_closure p.2))
                           (removelast eqs)))
  end.

(** [eq]: the arms in the order of the source. *)
Definition eq (c1 c2 : Closure) : VM EqResult :=
  let env1 := clos_env c1 in
  let env2 := clos_env c2 in
  match clos_value c1, clos_value c2 with
  | VNull, VNull => mret (EqBool true)
  | VBool b1, VBool b2 => mret (EqBool (Bool.eqb b1 b2))
  | VNumber n1, VNumber n2 => mret (EqBool (bool_decide (n1 = n2)))
  | VString s1, VString s2 => mret (EqBool (bool_decide (s1 = s2)))
  | VLabel l1, VLabel l2 => mret (EqBool (label_eq l1 l2))
  | VSealingKey k1, VSealingKey k2 => mret (EqBool (bool_decide (k1 = k2)))
  | VEnumVariant tag1 None, VEnumVariant tag2 None => mret (EqBool (bool_decide (tag1 = tag2)))
  | VEnumVariant tag1 (Some arg1), VEnumVariant tag2 (Some arg2) =>
      if bool_decide (tag1 = tag2) then gen_eqs [(arg1, arg2)] env1 env2
      else mret (EqBool false)
  | VRecord container1, VRecord container2 =>
      if container_only_empty_opts container1 && container_only_empty_opts container2
      then mret (EqBool true)
      else
        match container1, container2 with
        | Alloc r1, Alloc r2 => eq_records r1 r2 env1 env2
        | _, _ => mret (EqBool false)
        end
  | VArray container1, VArray container2 =>
      if (container_len container1 =? 0) && (container_len container2 =? 0)
      then mret (EqBool true)
      else
        match container1, container2 with
        | Alloc d1, Alloc d2 =>
            if length (array d1) =? length (array d2) then eq_arrays d1 d2 env1 env2
            else mret (EqBool false)
        | _, _ => mret (EqBool false)
        end
  | VForeignId _, VForeignId _ | VCustomContract _, VCustomContract _
  | VTerm (TFun _ _), VTerm (TFun _ _) =>
      throw (IncomparableValues (clos_value c1) (clos_value c2))
  | _, _ => mret (EqBool false)
  end.

Definition clear_eqs : VM unit := l ← get_stack; set_stack (items_clear_eqs (C := Heap) l).

Definition op_eq (c1 c2 : Closure) : VM Closure :=
  r ← eq c1 c2;
  match r with
  | EqBool b =>
      o ← pop_item MEq;
      match b, o with
      | false, _ => _ ← clear_eqs; mret (to_closure (VBool false))
      | true, None => mret (to_closure (VBool true))
      | true, Some (EqItem arg1 arg2) =>
          v1 ← vm_closurize (clos_value arg1) (clos_env arg1);
          v2 ← vm_closurize (clos_value arg2) (clos_env arg2);
          mret (to_closure (op2 Eq_ v1 v2))
      | true, Some _ => vm_panic
      end
  | Eqs v1 v2 subeqs =>
      _ ← push_all (map (λ p : Closure * Closure, EqItem p.1 p.2) subeqs);
      mret (to_closure (op2 Eq_ v1 v2))
  end.

(** ** Numbers and strings *)

(** [number_fn2], [string_fn2] *)
Definition number_fn2 (op : BinaryOp) (f : Number → Number → NickelValue) (v1 v2 : NickelValue)
    : VM Closure :=
  n1 ← arg_as op as_number "Number" 1 v1;
  n2 ← arg_as op as_number "Number" 2 v2;
  mret (to_closure (f n1 n2)).

Definition string_fn2 (op : BinaryOp) (f : string → string → NickelValue) (v1 v2 : NickelValue)
    : VM Closure :=
  s1 ← arg_as op as_string "String" 1 v1;
  s2 ← arg_as op as_string "String" 2 v2;
  mret (to_closure (f s1 s2)).

(** [number_op2], [number_cmp2] *)
Definition number_op2 (op : BinaryOp) (f : Number → Number → Number) : NickelValue → NickelValue → VM Closure :=
  number_fn2 op (λ n1 n2, VNumber (f n1 n2)).

Definition number_cmp2 (op : BinaryOp) (f : comparison → bool) : NickelValue → NickelValue → VM Closure :=
  number_fn2 op (λ n1 n2, VBool (f (n1 ?= n2)%Qc)).

Definition op_div (v1 v2 : NickelValue) : VM Closure :=
  n1 ← arg_as Div as_number "Number" 1 v1;
  n2 ← arg_as Div as_number "Number" 2 v2;
  if bool_decide (n2 = 0%Qc) then throw (OtherError "division by zero")
  else mret (to_closure (VNumber (n1 / n2)%Qc)).

Definition op_modulo (v1 v2 : NickelValue) : VM Closure :=
  n1 ← arg_as Modulo as_number "Number" 1 v1;
  n2 ← arg_as Modulo as_number "Number" 2 v2;
  if bool_decide (n2 = 0%Qc) then throw (OtherError "division by zero (%)")
  else
    let quotient := number_of_Z (truncate (n1 / n2)%Qc) in
    mret (to_closure (VNumber (n1 - quotient * n2)%Qc)).

(** A floating point function; [call] is how the error shows the call. *)
Definition float_fn2 (op : BinaryOp) (call : string) (n1 n2 : Number) : VM Closure :=
  match float_op2 op n1 n2 with
  | Ok r => mret (to_closure (VNumber r))
  | Err f =>
      throw (OtherError ("invalid arithmetic operation: " +:+ call +:+ " returned " +:+ f
        +:+ ", but " +:+ f +:+ " isn't representable in Nickel"))
  end.

Definition op_float2 (op : BinaryOp) (v1 v2 : NickelValue) : VM Closure :=
  n1 ← arg_as op as_number "Number" 1 v1;
  n2 ← arg_as op as_number "Number" 2 v2;
  float_fn2 op (op2_name op +:+ "(" +:+ show_number n1 +:+ ", " +:+ show_number n2 +:+ ")") n1 n2.

Definition op_pow (v1 v2 : NickelValue) : VM Closure :=
  n1 ← arg_as Pow as_number "Number" 1 v1;
  n2 ← arg_as Pow as_number "Number" 2 v2;
  match to_i64 n2 with
  | Some n2_as_i64 => r ← in_outcome (rational_pow n1 n2_as_i64); mret (to_closure (VNumber r))
  | None => float_fn2 Pow (show_number n1 +:+ "^" +:+ show_number n2) n1 n2
  end.

(** An enum tag without argument, in the table of what an operation accepts. *)
Definition bare_tag {A} (table : list (string * A)) (v : NickelValue) : option A :=
  match v with
  | VEnumVariant tag None =>
      snd <$> find (λ p : string * A, bool_decide (p.1 = label tag)) table
  | _ => None
  end.

Definition is_bare_tag (v : NickelValue) : bool :=
  match v with VEnumVariant _ None => true | _ => false end.

(** [hex_encode] *)
Definition hex_digit (n : N) : string :=
  String (Ascii.ascii_of_N (if (n <? 10)%N then 48 + n else 87 + n)%N) "".

Definition hex_encode (bytes : list N) : string :=
  String.concat "" (map (λ b, hex_digit (b / 16)%N +:+ hex_digit (b mod 16)%N) bytes).

(** The tag is looked up after the second argument, in the order of the source. *)
Definition tag_and_string {A} (op : BinaryOp) (expected : string) (table : list (string * A))
    (v1 v2 : NickelValue) : VM (A * string) :=
  if is_bare_tag v1 then
    s ← arg_as op as_string "String" 2 v2;
    a ← arg_as op (bare_tag table) expected 1 v1;
    mret (a, s)
  else type_error2 op expected 1 v1.

Definition op_hash (v1 v2 : NickelValue) : VM Closure :=
  '(alg, s) ← tag_and_string Hash "[| 'Md5, 'Sha1, 'Sha256, 'Sha512 |]"
                [("Md5", Md5); ("Sha1", Sha1); ("Sha256", Sha256); ("Sha512", Sha512)]%string v1 v2;
  mret (to_closure (VString (hex_encode (digest alg s)))).

Definition ENUM_FORMAT : string := "[| 'Json, 'Toml, 'Yaml, 'YamlDocuments |]".

Definition formats : list (string * ExportFormat) :=
  [("Json", Json); ("Yaml", Yaml); ("YamlDocuments", YamlDocuments); ("Toml", Toml)]%string.

Definition op_serialize (v1 v2 : NickelValue) (env2 : Environment) : VM Closure :=
  if is_bare_tag v1 then
    h ← get_cache;
    v2_subst ← in_outcome (subst h ∅ fuel env2 v2);
    format ← arg_as Serialize (bare_tag formats) ENUM_FORMAT 1 v1;
    match serialize_validate format v2_subst with
    | Err token => throw (SerializationError token)
    | Ok () =>
        match serialize_to_string format v2_subst with
        | Err token => throw (SerializationError token)
        | Ok s => mret (to_closure (VString s))
        end
    end
  else type_error2 Serialize ENUM_FORMAT 1 v1.

Definition op_deserialize (v1 v2 : NickelValue) : VM Closure :=
  '(format, s) ← tag_and_string Deserialize ENUM_FORMAT formats v1 v2;
  let yaml always :=
    match load_yaml always s with
    | Ok v => mret (to_closure v)
    | Err token => throw (DeserializationErrorWithInner FmtYaml token)
    end in
  match format with
  | Json =>
      match from_json s with
      | Ok v => mret (to_closure v)
      | Err msg => throw (DeserializationError "json" msg)
      end
  | Yaml => yaml false
  | YamlDocuments => yaml true
  | Toml =>
      match from_toml s with
      | Ok v => mret (to_closure v)
      | Err msg => throw (DeserializationError "toml" msg)
      end
  end.

Definition BASE64_VARIANTS : string := "[| 'Standard, 'UrlSafe, 'NoPad, 'UrlSafeNoPad |]".

Definition base64_engines : list (string * Base64Engine) :=
  [("Standard", Standard64); ("UrlSafe", UrlSafe); ("NoPad", NoPad);
   ("UrlSafeNoPad", UrlSafeNoPad)]%string.

Definition op_base64_encode (v1 v2 : NickelValue) : VM Closure :=
  '(engine, s) ← tag_and_string StringBase64Encode BASE64_VARIANTS base64_engines v1 v2;
  mret (to_closure (VString (base64_encode engine s))).

Definition op_base64_decode (v1 v2 : NickelValue) : VM Closure :=
  '(engine, s) ← tag_and_string StringBase64Decode BASE64_VARIANTS base64_engines v1 v2;
  mret (to_closure
    match base64_decode engine s with
    | Ok decoded => VEnumVariant "Ok" (Some (VString decoded))
    | Err msg =>
        VEnumVariant "Error"
          (Some (record_posless (with_field_values [(ident "message", VString msg)])))
    end).

End op2.
