(* ===== verification/EvalOps.v ===== *)
(** * Binary primitive operations on records, arrays, contracts and labels, and
    the dispatch [eval_op2] ([core/src/eval/operation.rs])

    A record or an array that is written to is copied when it is shared
    ([content_make_mut]), which nobody can tell from a new value. *)
From stdpp Require Import pretty sorting.
From Stdlib Require Import QArith.Qcanon.
From S2P Require Import Prelude IndexMap Values Records Make LazyCache Closurize Merge EvalStack VM Op1 Subst Op2.

(** Strings of an array, as messages. *)
Definition strings_of {A} (err : NickelValue → EvalErrorKind) (l : list NickelValue)
    (k : list string → VM A) : VM A :=
  ss ← of_result (collect_results (map (λ v, match as_string v with
                                             | Some s => Ok s
                                             | None => Err (err v)
                                             end) l));
  k ss.

Section eval_op2.
Context `{Externals, IndexMapOps Ident}.
Context (contract_eq : Heap → NickelValue → Environment → NickelValue → Environment → bool).
Context (type_eq_noenv : Heap → Typ → Typ → bool).
Context (fuel : nat) (initial_env : Environment).

(** ** Sealing *)

Definition op_seal (v1 v2 : NickelValue) : VM Closure :=
  key ← arg_as Seal as_sealing_key "SealingKey" 1 v1;
  l ← arg_as Seal as_label "Label" 2 v2;
  mret (to_closure (fn "x" (VTerm (TSealed key (var "x") l)))).

Definition op_unseal (v1 v2 : NickelValue) (env2 : Environment) : VM Closure :=
  key ← arg_as Unseal as_sealing_key "SealingKey" 1 v1;
  match v2 with
  | VTerm (TSealed key' inner _) =>
      if bool_decide (key = key') then
        x ← fresh_ident; mret (mkClosure (fn x inner) env2)
      else mret (to_closure id_fun)
  | _ => mret (to_closure id_fun)
  end.

(** ** Contract application *)

Definition is_contract_apply (op : BinaryOp) : bool :=
  match op with ContractApply => true | _ => false end.

(** What the stack is prepared with below the label and the value: the
    conversion of the result of a custom contract, or the default label of a
    check. *)
Definition push_postprocessing (op : BinaryOp) (v1 new_label : NickelValue) : VM unit :=
  _ ← match v1, is_contract_apply op with
      | VCustomContract _, true | VRecord _, true =>
          _ ← push_item (ArgItem (to_closure new_label));
          push_item (Op1ContItem ContractPostprocessResult no_app_info)
      | _, _ => mret ()
      end;
  if is_contract_apply op then mret ()
  else
    _ ← push_item (ArgItem (to_closure new_label));
    push_item (Op1ContItem ContractAttachDefaultLabel no_app_info).

(** The contract as a function of a label and a value. *)
Definition contract_functoid (op : BinaryOp) (v1 : NickelValue) (env1 : Environment) : VM Closure :=
  match v1 with
  | VTerm (TFun _ _) =>
      if is_contract_apply op then mret (mkClosure v1 env1)
      else _ ← push_item (ArgItem (mkClosure v1 env1)); mret (to_closure naked_to_custom)
  | VCustomContract ctr => mret (mkClosure ctr env1)
  | VRecord _ =>
      _ ← push_item (ArgItem (mkClosure v1 env1)); mret (to_closure record_contract_internal)
  | _ => type_error2 op "Contract" 1 v1
  end.

(** [ContractApply] and [ContractCheck] *)
Definition op_contract_apply (op : BinaryOp) (v1 : NickelValue) (env1 : Environment)
    (v2 : NickelValue) (env2 : Environment) : VM Closure :=
  match v1 with
  | VType _ contract =>
      _ ← push_item (Op2FirstContItem op no_app_info (mkClosure v2 env2));
      mret (mkClosure contract env1)
  | _ =>
      l ← arg_as op as_label "Label" 2 v2;
      o ← vm_pop_arg_as_idx;
      idx ← ok_or o (NotEnoughArgs 3 "contract/apply");
      _ ← in_cache (borrow idx);
      let new_label := VLabel (with_arg_idx idx l) in
      _ ← push_postprocessing op v1 new_label;
      _ ← push_item (TrackedArgItem idx);
      _ ← push_item (ArgItem (to_closure new_label));
      contract_functoid op v1 env1
  end.

(** The defined value of a field. *)
Definition field_value (r : RecordData) (id : string) : option NickelValue :=
  im_get (fields r) (ident id) ≫= value.

Definition op_label_with_error_data (v1 : NickelValue) (env1 : Environment) (v2 : NickelValue)
    : VM Closure :=
  h ← get_cache;
  v1 ← in_outcome (subst h initial_env fuel env1 v1);
  l ← arg_as LabelWithErrorData as_label "Label" 2 v2;
  match v1 with
  | VRecord Empty => mret (to_closure (VLabel l))
  | VRecord (Alloc r) =>
      let l := default l (field_value r "blame_location" ≫= as_label) in
      let l := match field_value r "message" ≫= as_string with
               | Some msg => set_diagnostic_message l msg
               | None => l
               end in
      match (field_value r "notes" ≫= as_array) ≫= container_opt with
      | Some d =>
          strings_of (NAryPrimopTypeError (op2_name LabelWithErrorData) "String (notes)" 1) (array d)
            (λ ns, mret (to_closure (VLabel (set_diagnostic_notes l ns))))
      | None => mret (to_closure (VLabel l))
      end
  | _ => type_error2 LabelWithErrorData "Record" 1 v1
  end.

(** A contract applied to the elements of an array: it is put aside, to be
    applied when an element is used. *)
Definition op_contract_array_lazy_app (v1 v2 : NickelValue) (env2 : Environment) : VM Closure :=
  ctr ← pop_arg_or 3 "contract/array_lazy_app";
  l ← arg_as ContractArrayLazyApp as_label "Label" 1 v1;
  c ← arg_as ContractArrayLazyApp as_array "Array" 2 v2;
  let d := alloc_array c in
  contract ← vm_closurize (clos_value ctr) (clos_env ctr);
  h ← get_cache;
  let pending := push_dedup (contract_eq h) (array_pending_contracts d) env2
                   (mkRuntimeContract contract l) ∅ in
  mret (mkClosure (VArray (Alloc (mkArrayData (array d) pending))) env2).

(** The same on the fields of a record, whose contract depends on the name of
    the field; the record is reverted, as its fields may change. *)
Definition op_contract_record_lazy_app (v1 v2 : NickelValue) (env2 : Environment) : VM Closure :=
  ctr ← pop_arg_or 3 "contract/record_lazy_app";
  l ← arg_as ContractRecordLazyApp as_label "Label" 1 v1;
  c ← arg_as ContractRecordLazyApp as_record "Record" 2 v2;
  match c with
  | Empty => mret (to_closure (VRecord Empty))
  | Alloc r =>
      fs ← mapM (λ p : Ident * Field,
          contract ← vm_closurize (app (clos_value ctr) (VString (label p.1))) (clos_env ctr);
          h ← get_cache;
          let pending := push_dedup (contract_eq h) (pending_contracts p.2) env2
                           (mkRuntimeContract contract l) (clos_env ctr) in
          mret (p.1, mkField (value p.2) (metadata p.2) pending)) (fields r);
      reverted ← in_cache
        (revert_record (mkRecordData fs (set_frozen false (attrs r)) (sealed_tail r)));
      mret (to_closure (VTerm reverted))
  end.

(** ** Labels *)

Definition op_label_go_field (v1 v2 : NickelValue) : VM Closure :=
  field ← arg_as LabelGoField as_string "String" 1 v1;
  l ← arg_as LabelGoField as_label "Label" 2 v2;
  mret (to_closure (VLabel (push_path (FieldElem (ident field)) l))).

Definition op_label_string (op : BinaryOp) (f : Label → string → Label) (v1 v2 : NickelValue)
    : VM Closure :=
  s ← arg_as op as_string "String" 1 v1;
  l ← arg_as op as_label "Label" 2 v2;
  mret (to_closure (VLabel (f l s))).

Definition op_label_with_notes (v1 : NickelValue) (env1 : Environment) (v2 : NickelValue)
    : VM Closure :=
  h ← get_cache;
  val1_subst ← in_outcome (subst h ∅ fuel env1 v1);
  match as_array val1_subst with
  | None => type_error2 LabelWithNotes "Array" 1 v1
  | Some c =>
      l ← arg_as LabelWithNotes as_label "Label" 2 v2;
      strings_of (NAryPrimopTypeError (op2_name LabelWithNotes) "String" 1)
        (default [] (array <$> container_opt c))
        (λ ns, mret (to_closure (VLabel (set_diagnostic_notes l ns))))
  end.

(** The latest binding of a sealing key. *)
Definition op_label_lookup_type_var (v1 v2 : NickelValue) : VM Closure :=
  key ← arg_as LabelLookupTypeVar as_sealing_key "SealingKey" 1 v1;
  l ← arg_as LabelLookupTypeVar as_label "Label" 2 v2;
  data ← expect (find (λ p : SealingKey * Polarity, bool_decide (p.1 = key)) (rev (type_environment l)));
  mret (to_closure (record_posless
    (with_field_values [(ident "polarity", polarity_value data.2)]))).

(** ** Records *)

Definition op_record_get (v1 v2 : NickelValue) (env2 : Environment) : VM Closure :=
  id ← arg_as RecordGet as_string "String" 1 v1;
  match as_record v2 with
  | None => throw (TypeError "Record" "field access only makes sense for records" v2)
  | Some Empty => throw (FieldMissing (ident id) [] (op2_name RecordGet))
  | Some (Alloc r) =>
      o ← of_missing (get_value_with_ctrs r (ident id));
      match o with
      | Some v => mret (mkClosure v env2)
      | None =>
          let missing :=
            FieldMissing (ident id) (field_names r IgnoreEmptyOpt) (op2_name RecordGet) in
          match sealed_tail r with
          | Some t =>
              if has_dyn_field t id then throw_tail (TailFieldAccess id) (tail_label t)
              else throw missing
          | None => throw missing
          end
      end
  end.

Definition op_record_insert (metadata : SharedMetadata) (pending : list RuntimeContract)
    (ext_kind : RecordExtKind) (op_kind : RecordOpKind)
    (v1 v2 : NickelValue) (env2 : Environment) : VM Closure :=
  let op := RecordInsert metadata pending ext_kind op_kind in
  id ← arg_as op as_string "String" 1 v1;
  c ← arg_as op as_record "Record" 2 v2;
  let r := alloc_record c in
  v ← match ext_kind with
      | WithValue =>
          arg ← pop_arg_or 3 "insert";
          closurized ← vm_closurize (clos_value arg) (clos_env arg);
          mret (Some closurized)
      | WithoutValue => mret None
      end;
  let exists_ :=
    match im_get (fields r) (ident id) with
    | Some t =>
        match op_kind with ConsiderAllFields => true | IgnoreEmptyOpt => false end
        || negb (is_empty_optional t)
    | None => false
    end in
  if exists_ then
    throw (OtherError (op2_name op +:+ ": tried to extend a record with the field " +:+ id
                       +:+ ", but it already exists"))
  else
    mret (mkClosure (VRecord (Alloc (mkRecordData
            (im_insert (fields r) (ident id) (mkField v metadata pending))
            (attrs r) (sealed_tail r)))) env2).

Definition op_record_remove (op_kind : RecordOpKind) (v1 v2 : NickelValue) (env2 : Environment)
    : VM Closure :=
  let op := RecordRemove op_kind in
  id ← arg_as op as_string "String" 1 v1;
  c ← arg_as op as_record "Record" 2 v2;
  let r := alloc_record c in
  let '(absent, fs) :=
    match im_swap_remove (fields r) (ident id) with
    | None => (true, fields r)
    | Some (fetched, fs) =>
        (match op_kind, value fetched with
         | IgnoreEmptyOpt, None => shared_opt (metadata fetched)
         | _, _ => false
         end, fs)
    end in
  let r' := mkRecordData fs (attrs r) (sealed_tail r) in
  if absent then
    let missing := FieldMissing (ident id) (field_names r' op_kind) "record/remove" in
    match sealed_tail r with
    | Some t =>
        if has_dyn_field t id then throw_tail (TailFieldRemove id) (tail_label t) else throw missing
    | None => throw missing
    end
  else mret (mkClosure (VRecord (Alloc r')) env2).

(** [RecordHasField] and [RecordFieldIsDefined]: [p] is the test on the field. *)
Definition op_record_field_test (op : BinaryOp) (p : Field → bool) (v1 v2 : NickelValue)
    : VM Closure :=
  id ← arg_as op as_string "String" 1 v1;
  c ← arg_as op as_record "Record" 2 v2;
  mret (to_closure (VBool
    match im_get (container_fields c) (ident id) with Some field => p field | None => false end)).

Definition has_field_test (op_kind : RecordOpKind) (field : Field) : bool :=
  match op_kind with ConsiderAllFields => true | IgnoreEmptyOpt => negb (is_empty_optional field) end.

Definition is_defined_test (op_kind : RecordOpKind) (field : Field) : bool :=
  match value field with Some _ => has_field_test op_kind field | None => false end.

Definition container_attrs (c : Container RecordData) : RecordAttrs :=
  default attrs_default (attrs <$> container_opt c).

Definition container_tail (c : Container RecordData) : option SealedTail :=
  container_opt c ≫= sealed_tail.

Definition op_record_split_pair (v1 v2 : NickelValue) : VM Closure :=
  c1 ← arg_as RecordSplitPair as_record "Record" 1 v1;
  c2 ← arg_as RecordSplitPair as_record "Record" 2 v2;
  let s := split_ref (container_fields c1) (container_fields c2) in
  let left_only := record_posless (mkRecordData (left s) (container_attrs c1) (container_tail c1)) in
  let right_only := record_posless (mkRecordData (right s) (container_attrs c2) (container_tail c2)) in
  let center1 := im_extend [] (map (λ p : Ident * (Field * Field), (p.1, p.2.1)) (center s)) in
  let center2 := im_extend [] (map (λ p : Ident * (Field * Field), (p.1, p.2.2)) (center s)) in
  mret (to_closure (closurize_container (mk_record (mkRecordData
    (im_extend []
       [ (ident "left_only", field_from_value left_only);
         (ident "left_center",
          field_from_value (record_posless (mkRecordData center1 attrs_default None)));
         (ident "right_center",
          field_from_value (record_posless (mkRecordData center2 attrs_default None)));
         (ident "right_only", field_from_value right_only) ])
    attrs_default None)))).

Definition op_record_disjoint_merge (v1 : NickelValue) (env1 : Environment) (v2 : NickelValue)
    (env2 : Environment) : VM Closure :=
  c1 ← arg_as RecordDisjointMerge as_record "Record" 1 v1;
  c2 ← arg_as RecordDisjointMerge as_record "Record" 2 v2;
  match c1, c2 with
  | Alloc r1, Alloc r2 =>
      match sealed_tail r1, sealed_tail r2 with
      | Some tail1, Some _ => throw_tail TailMerge (tail_label tail1)
      | tail1, tail2 =>
          mret (to_closure (mk_record (mkRecordData
            (im_extend (im_extend [] (fields r1)) (fields r2))
            (attrs_combine (attrs r1) (attrs r2)) (or_else tail1 tail2))))
      end
  | Empty, _ => mret (mkClosure v2 env2)
  | _, Empty => mret (mkClosure v1 env1)
  end.

(** ** Arrays *)

Definition same_contracts (h : Heap) (d1 d2 : ArrayData) (env1 env2 : Environment) : bool :=
  (length (array_pending_contracts d1) =? length (array_pending_contracts d2))
  && forallb (λ p : RuntimeContract * RuntimeContract,
       negb (can_have_poly_ctrs p.1) && contract_eq h (contract p.1) env1 (contract p.2) env2)
     (zip (array_pending_contracts d1) (array_pending_contracts d2)).

Definition op_array_concat (v1 : NickelValue) (env1 : Environment) (v2 : NickelValue)
    (env2 : Environment) : VM Closure :=
  c1 ← arg_as ArrayConcat as_array "Array" 1 v1;
  c2 ← arg_as ArrayConcat as_array "Array" 2 v2;
  match c1, c2 with
  | Empty, _ => mret (to_closure v2)
  | _, Empty => mret (to_closure v1)
  | Alloc d1, Alloc d2 =>
      h ← get_cache;
      if same_contracts h d1 d2 env1 env2 then
        mret (to_closure (mk_array (array d1 ++ array d2) (array_pending_contracts d1)))
      else
        l1 ← mapM (λ elt, vm_closurize elt env1) (iter_with_pending_contracts d1);
        l2 ← mapM (λ elt, vm_closurize elt env2) (iter_with_pending_contracts d2);
        mret (to_closure (mk_array (l1 ++ l2) []))
  end.

Definition op_array_at (v1 : NickelValue) (env1 : Environment) (v2 : NickelValue) : VM Closure :=
  c ← arg_as ArrayAt as_array "Array" 1 v1;
  n ← arg_as ArrayAt as_number "Number" 2 v2;
  n_as_usize ← ok_or (to_usize n) (OtherError
    ("array/at expects its second argument to be a positive integer smaller than "
     +:+ usize_max_text +:+ ", got " +:+ show_number n));
  match c with
  | Empty => throw (OtherError "array/at: index out of bounds. Can't index into an empty array.")
  | Alloc d =>
      match array d !! n_as_usize with
      | None =>
          throw (OtherError ("array/at: index out of bounds. Expected an index between 0 and "
            +:+ pretty (length (array d)) +:+ ", got " +:+ show_number n))
      | Some elt => mret (mkClosure (apply_all elt (array_pending_contracts d)) env1)
      end
  end.

(** [eval_op2] *)
Definition eval_op2 (op : BinaryOp) (arg1 arg2 : Closure) : VM Closure :=
  let v1 := clos_value arg1 in
  let env1 := clos_env arg1 in
  let v2 := clos_value arg2 in
  let env2 := clos_env arg2 in
  match op with
  | Seal => op_seal v1 v2
  | Plus => number_op2 op Qcplus v1 v2
  | Sub => number_op2 op Qcminus v1 v2
  | Mult => number_op2 op Qcmult v1 v2
  | Div => op_div v1 v2
  | Modulo => op_modulo v1 v2
  | NumberArcTan2 | NumberLog => op_float2 op v1 v2
  | Pow => op_pow v1 v2
  | StringConcat => string_fn2 op (λ s1 s2, VString (s1 +:+ s2)) v1 v2
  | ContractApply | ContractCheck => op_contract_apply op v1 env1 v2 env2
  | LabelWithErrorData => op_label_with_error_data v1 env1 v2
  | Unseal => op_unseal v1 v2 env2
  | Eq_ => op_eq arg1 arg2
  | LessThan => number_cmp2 op (λ c, match c with Lt => true | _ => false end) v1 v2
  | LessOrEq => number_cmp2 op (λ c, match c with Gt => false | _ => true end) v1 v2
  | GreaterThan => number_cmp2 op (λ c, match c with Gt => true | _ => false end) v1 v2
  | GreaterOrEq => number_cmp2 op (λ c, match c with Lt => false | _ => true end) v1 v2
  | LabelGoField => op_label_go_field v1 v2
  | RecordGet => op_record_get v1 v2 env2
  | RecordInsert metadata pending ext_kind op_kind =>
      op_record_insert metadata pending ext_kind op_kind v1 v2 env2
  | RecordRemove op_kind => op_record_remove op_kind v1 v2 env2
  | RecordHasField op_kind => op_record_field_test op (has_field_test op_kind) v1 v2
  | RecordFieldIsDefined op_kind => op_record_field_test op (is_defined_test op_kind) v1 v2
  | ArrayConcat => op_array_concat v1 env1 v2 env2
  | ArrayAt => op_array_at v1 env1 v2
  | MergeOp merge_label =>
      r ← in_cache (merge label_eq contract_eq type_eq_noenv v1 env1 v2 env2 (ModeStandard merge_label));
      of_result r
  | Hash => op_hash v1 v2
  | Serialize => op_serialize fuel v1 v2 env2
  | Deserialize => op_deserialize v1 v2
  | StringSplit => string_fn2 op (λ s sep, mk_array (map VString (str_split s sep)) []) v1 v2
  | StringContains => string_fn2 op (λ s1 s2, VBool (str_contains s1 s2)) v1 v2
  | StringCompare =>
      string_fn2 op (λ s1 s2, VEnumVariant
        (ident match String.compare s1 s2 with
               | Lt => "Lesser" | Eq => "Equal" | Gt => "Greater"
               end) None) v1 v2
  | StringBase64Encode => op_base64_encode v1 v2
  | StringBase64Decode => op_base64_decode v1 v2
  | ContractArrayLazyApp => op_contract_array_lazy_app v1 v2 env2
  | ContractRecordLazyApp => op_contract_record_lazy_app v1 v2 env2
  | LabelWithMessage => op_label_string op set_diagnostic_message v1 v2
  | LabelWithNotes => op_label_with_notes v1 env1 v2
  | LabelAppendNote => op_label_string op append_diagnostic_note v1 v2
  | LabelLookupTypeVar => op_label_lookup_type_var v1 v2
  | RecordSplitPair => op_record_split_pair v1 v2
  | RecordDisjointMerge => op_record_disjoint_merge v1 env1 v2 env2
  end.

End eval_op2.

(** ** N-ary primitive operations ([eval_opn] of [core/src/eval/operation.rs])

    The parser gives these operations the number of arguments of their arity:
    another number is a bug, a panic. *)

(** [Display for NAryOp] *)
Definition opn_name (op : NAryOp) : string :=
  match op with
  | StringReplace => "string/replace" | StringReplaceRegex => "string/replace_regex"
  | StringSubstr => "string/substr" | MergeContract => "record/merge_contract"
  | RecordSealTail => "record/seal_tail" | RecordUnsealTail => "record/unseal_tail"
  | LabelInsertTypeVar => "label/insert_type_variable" | ArraySlice => "array/slice"
  end%string.

Definition type_error_n {A} (op : NAryOp) (expected : string) (n : nat) (v : NickelValue) : VM A :=
  throw (NAryPrimopTypeError (opn_name op) expected n v).

Definition arg_as_n {A} (op : NAryOp) (as_ : NickelValue → option A) (expected : string) (n : nat)
    (v : NickelValue) : VM A :=
  match as_ v with Some a => mret a | None => type_error_n op expected n v end.

Section opn.
Context `{Externals, IndexMapOps Ident}.
Context (contract_eq : Heap → NickelValue → Environment → NickelValue → Environment → bool).
Context (type_eq_noenv : Heap → Typ → Typ → bool).

Definition op_string_replace (op : NAryOp) (v1 v2 v3 : NickelValue) : VM Closure :=
  s ← arg_as_n op as_string "String" 1 v1;
  from ← arg_as_n op as_string "String" 2 v2;
  to ← arg_as_n op as_string "String" 3 v3;
  match op with
  | StringReplace => mret (to_closure (VString (str_replace s from to)))
  | _ =>
      match regex_new from with
      | Ok re => mret (to_closure (VString (regex_replace re s to)))
      | Err msg => throw (OtherError msg)
      end
  end.

Definition op_string_substr (v1 v2 v3 : NickelValue) : VM Closure :=
  s ← arg_as_n StringSubstr as_string "String" 1 v1;
  start ← arg_as_n StringSubstr as_number "Number" 2 v2;
  end_ ← arg_as_n StringSubstr as_number "Number" 3 v3;
  match str_substring s start end_ with
  | Ok substr => mret (to_closure (VString substr))
  | Err msg => throw (OtherError msg)
  end.

Definition op_merge_contract (v1 : NickelValue) (c2 c3 : Closure) : VM Closure :=
  match as_label v1 with
  | None =>
      throw (InternalError ("The " +:+ opn_name MergeContract
        +:+ " operator was expecting a first argument of type Label, got "
        +:+ default "<unevaluated>"%string (type_of v1)))
  | Some l =>
      r ← in_cache (merge label_eq contract_eq type_eq_noenv (clos_value c2) (clos_env c2)
                      (clos_value c3) (clos_env c3) (ModeContract l));
      of_result r
  end.

Definition with_tail (t : SealedTail) (r : RecordData) : RecordData :=
  mkRecordData (fields r) (attrs r) (Some t).

Definition op_record_seal_tail (v1 v2 : NickelValue) (c3 c4 : Closure) : VM Closure :=
  s ← arg_as_n RecordSealTail as_sealing_key "SealingKey" 1 v1;
  l ← arg_as_n RecordSealTail as_label "Label" 2 v2;
  r ← arg_as_n RecordSealTail as_record "Record" 3 (clos_value c3);
  tail ← arg_as_n RecordSealTail as_record "Record" 4 (clos_value c4);
  tail_closurized ← vm_closurize (clos_value c4) (clos_env c4);
  let t := mkSealedTail s l tail_closurized (keys (container_fields tail)) in
  mret (mkClosure (VRecord (Alloc (with_tail t (alloc_record r)))) (clos_env c3)).

Definition op_record_unseal_tail (v1 v2 : NickelValue) (c3 : Closure) : VM Closure :=
  s ← arg_as_n RecordUnsealTail as_sealing_key "SealingKey" 1 v1;
  l ← arg_as_n RecordUnsealTail as_label "Label" 2 v2;
  c ← arg_as_n RecordUnsealTail as_record "Record" 3 (clos_value c3);
  match (container_opt c ≫= sealed_tail) ≫= λ tail, unseal tail s with
  | Some tail_unsealed => mret (mkClosure tail_unsealed (clos_env c3))
  | None => throw_blame l
  end.

Definition op_label_insert_type_var (v1 v2 v3 : NickelValue) : VM Closure :=
  key ← arg_as_n LabelInsertTypeVar as_sealing_key "SealingKey" 1 v1;
  p ← arg_as_n LabelInsertTypeVar polarity_of_value "Polarity" 2 v2;
  l ← arg_as_n LabelInsertTypeVar as_label "Label" 3 v3;
  mret (to_closure (VLabel (push_type_var key p l))).

Definition op_array_slice (v1 v2 : NickelValue) (c3 : Closure) : VM Closure :=
  start ← arg_as_n ArraySlice as_number "Number" 1 v1;
  end_ ← arg_as_n ArraySlice as_number "Number" 2 v2;
  c ← arg_as_n ArraySlice as_array "Array" 3 (clos_value c3);
  let d := alloc_array c in
  let bad (arg : string) (n : Number) := OtherError
    (opn_name ArraySlice +:+ " expects its " +:+ arg
     +:+ " to be a positive integer smaller than " +:+ usize_max_text
     +:+ ", got " +:+ show_number n) in
  start_as_usize ← ok_or (to_usize start) (bad "first argument (start)"%string start);
  end_as_usize ← ok_or (to_usize end_) (bad "second argument (end)"%string end_);
  if (end_as_usize <? start_as_usize) || (length (array d) <? end_as_usize) then
    throw (OtherError (opn_name ArraySlice
      +:+ ": index out of bounds. Expected `start <= end <= " +:+ pretty (length (array d))
      +:+ "`, but got `start=" +:+ show_number start +:+ "` and `end=" +:+ show_number end_ +:+ "`."))
  else
    mret (mkClosure (VArray (Alloc (mkArrayData
            (take (end_as_usize - start_as_usize) (drop start_as_usize (array d)))
            (array_pending_contracts d)))) (clos_env c3)).

(** [eval_opn] *)
Definition eval_opn (op : NAryOp) (args : list Closure) : VM Closure :=
  match op, args with
  | (StringReplace | StringReplaceRegex), [c1; c2; c3] =>
      op_string_replace op (clos_value c1) (clos_value c2) (clos_value c3)
  | StringSubstr, [c1; c2; c3] => op_string_substr (clos_value c1) (clos_value c2) (clos_value c3)
  | MergeContract, [c1; c2; c3] => op_merge_contract (clos_value c1) c2 c3
  | RecordSealTail, [c1; c2; c3; c4] => op_record_seal_tail (clos_value c1) (clos_value c2) c3 c4
  | RecordUnsealTail, [c1; c2; c3] => op_record_unseal_tail (clos_value c1) (clos_value c2) c3
  | LabelInsertTypeVar, [c1; c2; c3] =>
      op_label_insert_type_var (clos_value c1) (clos_value c2) (clos_value c3)
  | ArraySlice, [c1; c2; c3] => op_array_slice (clos_value c1) (clos_value c2) c3
  | _, _ => vm_panic
  end.

End opn.
