(* ===== verification/Machine.v ===== *)
(** * The abstract machine ([core/src/eval/mod.rs])

    [step] is one turn of the loop of [eval_closure_impl]: it takes the current
    closure, the store and the stack to the next closure, to the final one, or to
    an error. [eval_closure] iterates it, with fuel as programs may not
    terminate. On top of it are the entry points of [VirtualMachine]. *)
From stdpp Require Import pretty sorting.
From Stdlib Require Import QArith.Qcanon.
From S2P Require Import Prelude IndexMap Values Records Make Ast Pattern TypeContracts LazyCache Closurize Merge EvalStack VM Op1 Subst Op2 EvalOps.

Section contracts.
Context `{Externals, IndexMapOps Ident}.

(** [From<UnboundTypeVariableError>] *)
Definition of_unbound {A} (m : Fresh (result A Ident)) : VM A :=
  r ← in_fresh m;
  match r with Ok a => mret a | Err id => throw (UnboundIdentifier id) end.

(** [TypeAnnotation::pending_contracts] *)
Definition annot_pending_contracts (a : TypeAnnotation) : VM (list RuntimeContract) :=
  of_unbound (pending_from_types (annot_contracts a)).

(** [gen_pending_contracts::with_pending_contracts] *)
Definition with_pending_contracts (f : Field) : VM Field := of_unbound (field_with_pending f).

End contracts.

(** [update_at_indices]: the frames on the top of the stack are popped, and their
    thunks updated. *)
Fixpoint update_frames (c : Closure) (l : list Item) : M (list Item) :=
  match l with
  | UpdateIndexItem idx :: l' => _ ← update c idx; update_frames c l'
  | _ => mret l
  end.

Definition update_at_indices (c : Closure) : VM unit :=
  l ← get_stack; l' ← in_cache (update_frames c l); set_stack l'.

Section machine.
Context `{Externals, IndexMapOps Ident}.
Context (contract_eq : Heap → NickelValue → Environment → NickelValue → Environment → bool).
Context (type_eq_noenv : Heap → Typ → Typ → bool).
Context (subst_fuel : nat) (initial_env : Environment).

(** [continue_op] *)
Definition continue_op (closure : Closure) : VM Closure :=
  l ← get_stack;
  match l with
  | Op1ContItem op _ :: l' => _ ← set_stack l'; eval_op1 op closure
  | Op2FirstContItem op app_info arg2 :: l' =>
      _ ← set_stack (Op2SecondContItem op app_info closure :: l'); mret arg2
  | Op2SecondContItem op _ arg1_evaled :: l' =>
      _ ← set_stack l';
      eval_op2 contract_eq type_eq_noenv subst_fuel initial_env op arg1_evaled closure
  | OpNContItem op app_info evaluated pending :: l' =>
      let evaluated := evaluated ++ [closure] in
      match last pending with
      | Some next =>
          _ ← set_stack (OpNContItem op app_info evaluated (removelast pending) :: l'); mret next
      | None => _ ← set_stack l'; eval_opn contract_eq type_eq_noenv op evaluated
      end
  | _ => vm_panic
  end.

(** [enter_cache_index]: a thunk to evaluate leaves its update frame on the
    stack. The completion of a missing field error with the position of the
    access does not show here. *)
Definition enter_cache_index (idx : CacheIndex) : VM Closure :=
  r ← in_cache (get_update_index idx);
  _ ← match r with
      | Ok (Some idx_upd) => push_item (UpdateIndexItem idx_upd)
      | Ok None => mret ()
      | Err () => throw InfiniteRecursion
      end;
  in_cache (get idx).

(** ** The arms of the loop *)

Definition step_let (bindings : list (Ident * NickelValue)) (body : NickelValue) (attrs : LetAttrs)
    (init_env : Environment) : VM Closure :=
  indices ← mapM (λ p : Ident * NickelValue,
      idx ← in_cache (add (mkClosure p.2 init_env) (binding_type attrs)); mret (p.1, idx)) bindings;
  let env := env_extend init_env indices in
  _ ← (if rec attrs then
         in_cache (iterM (λ idx, patch idx (λ cl, mkClosure (clos_value cl) env)) indices.*2)
       else mret ());
  mret (mkClosure body env).

Definition step_opn (op : NAryOp) (args : list NickelValue) (env : Environment) : VM Closure :=
  match args with
  | [] => throw (NotEnoughArgs (arity op) (opn_name op))
  | fst_arg :: rest =>
      _ ← push_item (OpNContItem op no_app_info [] (map (λ v, mkClosure v env) (rev rest)));
      mret (mkClosure fst_arg env)
  end.

(** The chunks of a string are stored in reverse. *)
Definition step_str_chunks (chunks : list StrChunk) (env : Environment) : VM Closure :=
  match last chunks with
  | None => mret (to_closure (VString ""))
  | Some chunk =>
      let '(arg, indent) :=
        match chunk with ChunkLiteral s => (VString s, 0) | ChunkExpr e indent => (e, indent) end in
      i ← indent_u32 indent;
      _ ← push_all (map StrChunkItem (removelast chunks));
      _ ← push_item (StrAccItem "" env i);
      mret (mkClosure (op1 ChunksConcat arg) env)
  end.

Definition step_closurize (v : NickelValue) (env : Environment) : VM Closure :=
  v' ←
    match v with
    | VArray Empty | VRecord Empty => mret v
    | VArray (Alloc d) =>
        a ← mapM (λ t, vm_closurize t env) (array d);
        pending ← in_cache (closurize_contracts (array_pending_contracts d) env Normal);
        mret (mk_array a pending)
    | VRecord (Alloc r) => r' ← in_cache (closurize_record r env Normal); mret (mk_record r')
    | VEnumVariant tag arg =>
        arg' ← in_cache (option_mapM (λ a, closurize a env) arg); mret (VEnumVariant tag arg')
    | _ => vm_panic
    end;
  mret (to_closure v').

(** An [include] expression as a field. *)
Definition include_field (env : Environment) (incl : Ident * FieldMetadata) : VM (Ident * Field) :=
  idx ← of_result (get_var incl.1 initial_env env);
  f ← with_pending_contracts (mkField (Some (VThunk idx)) (to_shared incl.2) []);
  mret (incl.1, f).

(** A dynamic field, as an insertion in what is built so far. *)
Definition insert_dyn_field (renv : list (Ident * CacheIndex)) (acc : NickelValue)
    (p : NickelValue * Field) : VM NickelValue :=
  let (name_as_term, field) := p in
  _ ← in_cache (patch_field field renv);
  let extend := op2 (RecordInsert (metadata field) (pending_contracts field)
                       (extension_kind field) ConsiderAllFields) name_as_term acc in
  mret (match value field with Some v => app extend v | None => extend end).

Fixpoint foldM {A B} (f : B → A → VM B) (b : B) (l : list A) : VM B :=
  match l with [] => mret b | a :: l' => b' ← f b a; foldM f b' l' end.

Definition step_rec_record (data : RecRecordData) (env : Environment) : VM Closure :=
  '(static_part, dyns) ←
    (if negb (closurized data) then
       included ← mapM (include_field env) (includes data);
       let r := record data in
       in_cache (closurize_rec_record
         (mkRecordData (im_extend (fields r) included) (attrs r) (sealed_tail r))
         (dyn_fields data) (rec_deps data) env)
     else
       _ ← in_cache (assertM (bool_decide (length (includes data) = 0)));
       mret (record data, dyn_fields data));
  renv ← in_cache (rec_env (fields static_part));
  _ ← in_cache (iterM (λ f, patch_field f renv) (values (fields static_part)));
  extended ← foldM (insert_dyn_field renv) (mk_record static_part) dyns;
  mret (to_closure extended).

Definition step_annotated (annot : TypeAnnotation) (inner : NickelValue) (env : Environment)
    : VM Closure :=
  static_contract ←
    match annot_typ annot with
    | Some l => r ← in_fresh (contract_from type_contract_static l); mret (Some r)
    | None => mret None
    end;
  contracts ← annot_pending_contracts annot;
  with_static ←
    match static_contract with
    | Some r => c ← of_unbound (mret r); mret (contract_apply c inner)
    | None => mret inner
    end;
  mret (mkClosure (apply_all with_static contracts) env).

(** A weak head normal form: update, continue, fail or stop. *)
Definition step_whnf (evaluated : Closure) : VM (Closure + Closure) :=
  l ← get_stack;
  if items_is_top is_idx l then _ ← update_at_indices evaluated; mret (inl evaluated)
  else if items_is_top is_cont l then c ← continue_op evaluated; mret (inl c)
  else
    o ← vm_pop_arg;
    match o with
    | Some arg => throw (NotAFunc (clos_value evaluated) (clos_value arg))
    | None => mret (inr evaluated)
    end.

Definition step_sealed (closure : Closure) (inner : NickelValue) (lbl : Label) : VM Closure :=
  _ ← update_at_indices closure;
  l ← get_stack;
  match items_peek_sealed_cont (C := Heap) l with
  | SealedUnseal => continue_op closure
  | SealedSeq => mret (mkClosure inner (clos_env closure))
  | SealedOther => throw_blame lbl
  end.

(** The next closure, or the result. *)
Definition step (closure : Closure) : VM (Closure + Closure) :=
  let env := clos_env closure in
  let go (m : VM Closure) : VM (Closure + Closure) := c ← m; mret (inl c) in
  match clos_value closure with
  | VThunk t => go (enter_cache_index t)
  | VTerm (TSealed _ inner lbl) => go (step_sealed closure inner lbl)
  | VTerm (TVar id) =>
      go (idx ← of_result (get_var id initial_env env); enter_cache_index idx)
  | VTerm (TApp head arg) =>
      go (_ ← push_item (ArgItem (mkClosure arg env)); mret (mkClosure head env))
  | VTerm (TLet bindings body attrs) => go (step_let bindings body attrs env)
  | VTerm (TOp1 op arg) =>
      go (_ ← push_item (Op1ContItem op no_app_info); mret (mkClosure arg env))
  | VTerm (TOp2 op arg1 arg2) =>
      go (_ ← push_item (Op2FirstContItem op no_app_info (mkClosure arg2 env));
          mret (mkClosure arg1 env))
  | VTerm (TOpN op args) => go (step_opn op args env)
  | VTerm (TStrChunks chunks) => go (step_str_chunks chunks env)
  | VTerm (TClosurize v) => go (step_closurize v env)
  | VTerm (TRecRecord data) => go (step_rec_record data env)
  | VTerm (TResolvedImport id) =>
      match import_get id with
      | Some v => mret (inl (to_closure v))
      | None => throw (InternalError ("Resolved import not found (" +:+ show_file id +:+ ")"))
      end
  | VTerm (TImport (ImportPath path _)) =>
      throw (InternalError ("Unresolved import (" +:+ path +:+ ")"))
  | VTerm (TImport (ImportPackage id)) =>
      throw (InternalError ("Unresolved package import (" +:+ label id +:+ ")"))
  | VTerm (TParseError e) => throw (ParseErrorKind e)
  | VTerm (TRuntimeError e) => throw e
  | VTerm (TAnnotated annot inner) => go (step_annotated annot inner env)
  | VTerm (TFun arg body) =>
      l ← get_stack;
      if items_is_top is_idx l || items_is_top is_cont l then step_whnf closure
      else
        o ← vm_pop_arg_as_idx;
        match o with
        | Some idx => mret (inl (mkClosure body (<[arg := idx]> env)))
        | None => mret (inr closure)
        end
  | _ => step_whnf closure
  end.

(** [eval_closure] *)
Fixpoint eval_closure (fuel : nat) (closure : Closure) : VM Closure :=
  match fuel with
  | 0 => λ _, OutOfFuel
  | S fuel' =>
      r ← step closure;
      match r with inl next => eval_closure fuel' next | inr result => mret result end
  end.

End machine.
