(* ===== verification/VirtualMachine.v ===== *)
(** * The entry points of the virtual machine ([core/src/eval/mod.rs])

    Evaluation of expressions, full evaluation, extraction of a field by its
    path, evaluation that goes on after errors, and the reset that puts the
    machine back in a state to evaluate again. The context attached to an error
    (call stack and position table) is left out. *)
From stdpp Require Import pretty sorting.
From Stdlib Require Import QArith.Qcanon.
From S2P Require Import Prelude IndexMap Values Records Make LazyCache Closurize Merge EvalStack VM Op1 Subst Op2 EvalOps Machine.

Section virtual_machine.
Context `{Externals, IndexMapOps Ident}.
Context (contract_eq : Heap → NickelValue → Environment → NickelValue → Environment → bool).
Context (type_eq_noenv : Heap → Typ → Typ → bool).
Context (fuel : nat) (initial_env : Environment).

Local Notation eval_closure := (eval_closure contract_eq type_eq_noenv fuel initial_env fuel).

(** [reset]: the stack is unwound, which resets the thunks under evaluation. *)
Definition reset : VM unit := λ s,
  h ← items_unwind (C := Heap) (vm_stack s) (vm_cache s);
  Done (Ok (), with_stack [] (with_cache h s)).

(** [eval] *)
Definition eval (v : NickelValue) : VM NickelValue :=
  c ← eval_closure (to_closure v); mret (clos_value c).

(** [eval_deep_closure_impl], [eval_deep_closure], [eval_deep] *)
Definition eval_deep_closure_impl (c : Closure) (for_export : bool) : VM Closure :=
  eval_closure (mkClosure (op1 (Force for_export) (clos_value c)) (clos_env c)).

Definition eval_deep_closure (c : Closure) : VM NickelValue :=
  r ← eval_deep_closure_impl c false; mret (clos_value r).

Definition eval_deep (v : NickelValue) : VM NickelValue := eval_deep_closure (to_closure v).

Definition substituted (c : Closure) : VM NickelValue :=
  h ← get_cache; in_outcome (subst h initial_env fuel (clos_env c) (clos_value c)).

(** [eval_full_closure], [eval_full], [eval_full_for_export],
    [eval_full_for_export_closure] *)
Definition eval_full_closure (c : Closure) : VM Closure :=
  r ← eval_deep_closure_impl c false; v ← substituted r; mret (mkClosure v (clos_env r)).

Definition eval_full (v : NickelValue) : VM NickelValue :=
  r ← eval_full_closure (to_closure v); mret (clos_value r).

Definition eval_full_for_export_closure (c : Closure) : VM NickelValue :=
  r ← eval_deep_closure_impl c true; substituted r.

Definition eval_full_for_export (v : NickelValue) : VM NickelValue :=
  eval_full_for_export_closure (to_closure v).

(** ** Fields *)

(** The loop of [extract_field_impl]: the field found so far, its environment and
    the last name of the path. *)
Fixpoint extract_loop (path : list Ident) (field : Field) (env : Environment) (prev_id : Ident)
    : VM (Field * Environment * Ident) :=
  match path with
  | [] => mret (field, env, prev_id)
  | id :: path' =>
      current_value ← ok_or (value_with_pending_contracts field)
                        (MissingFieldDef prev_id (into_inner (metadata field)));
      current_evaled ← eval_closure (mkClosure current_value env);
      match clos_value current_evaled with
      | VRecord container =>
          next_field ← ok_or (im_get (container_fields container) id)
                         (FieldMissing id (container_field_names container IgnoreEmptyOpt)
                                       "extract_field");
          extract_loop path' next_field (clos_env current_evaled) id
      | v => throw (QueryNonRecord id v)
      end
  end.

Definition extract_field_impl (c : Closure) (path : list Ident) (require_defined : bool)
    : VM (Field * Environment) :=
  let field := field_from_value (clos_value c) in
  match path with
  | [] => mret (field, clos_env c)
  | first_id :: _ =>
      '(field, env, prev_id) ← extract_loop path field (clos_env c) first_id;
      match value field, require_defined with
      | None, true => throw (MissingFieldDef prev_id (into_inner (metadata field)))
      | _, _ => mret (field, env)
      end
  end.

Definition extract_field_closure (c : Closure) (path : list Ident) : VM (Field * Environment) :=
  extract_field_impl c path false.

Definition extract_field_value_closure (c : Closure) (path : list Ident) : VM Closure :=
  '(field, env) ← extract_field_impl c path true;
  v ← expect (value_with_pending_contracts field);
  eval_closure (mkClosure v env).

(** [query_closure], [query] *)
Definition query_closure (c : Closure) (path : list Ident) : VM Field :=
  '(field, env) ← extract_field_closure c path;
  match value_with_pending_contracts field with
  | Some v =>
      r ← eval_closure (mkClosure v env);
      mret (mkField (Some (clos_value r)) (metadata field) (pending_contracts field))
  | None => mret field
  end.

Definition query (v : NickelValue) (path : list Ident) : VM Field :=
  query_closure (to_closure v) path.

(** ** Evaluation that collects errors *)

(** A computation whose error is a value: [Err] does not stop what follows. *)
Definition try_ {A} (m : VM A) : VM (result A EvalErrorKind) := λ s,
  '(r, s') ← m s; Done (Ok r, s').

Fixpoint collect_errors {A} (f : A → VM (list EvalErrorKind)) (l : list A) : VM (list EvalErrorKind) :=
  match l with
  | [] => mret []
  | a :: l' => e ← f a; es ← collect_errors f l'; mret (e ++ es)
  end.

(** [eval_permissive]: the errors, in order. *)
Fixpoint eval_permissive (recursion_limit : nat) (v : NickelValue) : VM (list EvalErrorKind) :=
  match recursion_limit with
  | 0 => mret []
  | S limit =>
      r ← try_ (eval v);
      match r with
      | Err e => _ ← reset; mret [e]
      | Ok (VArray (Alloc d)) =>
          collect_errors (eval_permissive limit) (iter_with_pending_contracts d)
      | Ok (VRecord (Alloc r)) =>
          collect_errors (λ p : Ident * Field,
            match value_with_pending_contracts p.2 with
            | Some v' => eval_permissive limit v'
            | None => mret [MissingFieldDef p.1 (into_inner (metadata p.2))]
            end) (fields r)
      | Ok (VEnumVariant _ (Some arg)) => eval_permissive limit arg
      | Ok _ => mret []
      end
  end.

End virtual_machine.

(** ** Environments *)

(** [env_add_record]: the defined fields of a record, as an extension of an
    environment; [None] is [NotARecord]. *)
Definition env_add_record (env : Environment) (c : Closure) : VM (option Environment) :=
  let v := match clos_value c with VTerm (TClosurize inner) => inner | v => v end in
  let record_of :=
    match v with
    | VRecord Empty => Some []
    | VRecord (Alloc r) => Some (fields r)
    | VTerm (TRecRecord data) => Some (fields (record data))
    | _ => None
    end in
  match record_of with
  | None => mret None
  | Some fs =>
      ext ← mapM (λ p : Ident * NickelValue,
          idx ← in_cache (add (mkClosure p.2 (clos_env c)) Normal); mret (p.1, idx))
        (omap (λ p : Ident * Field, v ← value p.2; Some (p.1, v)) fs);
      mret (Some (env_extend env ext))
  end.

(** [env_add] *)
Definition env_add (env : Environment) (id : Ident) (v : NickelValue) (local_env : Environment)
    : VM Environment :=
  idx ← in_cache (add (mkClosure v local_env) Normal); mret (<[id := idx]> env).

(** The bindings of the context on top of an environment ([VirtualMachine::new]). *)
Definition extend_initial_env (extend_env : list (Ident * NickelValue)) (env : Environment)
    : VM Environment :=
  ext ← mapM (λ p : Ident * NickelValue,
      idx ← in_cache (add (to_closure p.2) Normal); mret (p.1, idx)) extend_env;
  mret (env_extend env ext).
