(* ===== verification/MachineInvariant.v ===== *)
(** * What the primitive operations leave alone

    Most of the program never touches the state of a thunk under evaluation, nor
    the update frames of the stack: [steady] for computations of the cache,
    [calm] for those of the machine, with a rule for each construct and a lemma
    for each operation. Only entering a thunk and the updates, in [Machine.v],
    are neither. *)
From stdpp Require Import pretty sorting.
From Stdlib Require Import QArith.Qcanon.
From S2P Require Import Prelude IndexMap Values Records Make Ast Pattern TypeContracts LazyCache LazyCacheTheorems Closurize Merge EvalStack VM Op1 Subst Op2 EvalOps Machine VirtualMachine.

Create HintDb steady.
Create HintDb calm.

(** ** The cache *)

(** The thunk [t] is under evaluation. *)
Definition blackholed (h : Heap) (t : CacheIndex) : Prop :=
  ∃ d, thunks h !! t = Some d ∧ state d = Blackholed.

(** The heap has grown, and the same thunks are under evaluation, the new ones
    aside. *)
Definition heap_rel (h h' : Heap) : Prop :=
  heap_ok h →
  heap_ok h' ∧ next h ≤ next h' ∧ ∀ t, t < next h → (blackholed h' t ↔ blackholed h t).

#[export] Instance heap_rel_preorder : PreOrder heap_rel.
Proof.
  split.
  - intros h Hh. done.
  - intros h h' h'' H1 H2 Hh. destruct (H1 Hh) as (Hh' & ? & Hb).
    destruct (H2 Hh') as (? & ? & Hb'). split_and!; [done|lia|].
    intros t Ht. rewrite Hb' by lia. auto.
Qed.

Definition steady {A} (m : M A) : Prop := guarantees m heap_rel.

Lemma steady_bind {A B} (m : M A) (f : A → M B) :
  steady m → (∀ a, steady (f a)) → steady (m ≫= f).
Proof. apply guarantees_bind. intros ???. apply transitivity. Qed.

Lemma steady_ret {A} (a : A) : steady (mret a).
Proof. apply guarantees_ret. reflexivity. Qed.

Lemma steady_lift {A} (o : outcome A) : steady (lift o).
Proof. apply guarantees_lift. reflexivity. Qed.

Lemma steady_data t : steady (data t).
Proof. apply guarantees_data. reflexivity. Qed.

Lemma steady_alloc d : steady (alloc d).
Proof.
  intros h a h' [= <- <-] Hh. split_and!; simpl; [|lia|].
  - intros t Ht. simpl in *. rewrite lookup_insert_ne by lia. apply Hh. lia.
  - intros t Ht. unfold blackholed. simpl. by rewrite lookup_insert_ne by lia.
Qed.

(** A thunk can be rewritten when it does not start or stop being evaluated. *)
Lemma heap_rel_write h t d d' :
  thunks h !! t = Some d → (state d' = Blackholed ↔ state d = Blackholed) →
  heap_rel h (set_data h t d').
Proof.
  intros Ht Hs Hh. pose proof (heap_ok_lt _ _ _ Hh Ht). split_and!; simpl; [|lia|].
  - intros s Hs'. simpl in *. rewrite lookup_insert_ne by lia. by apply Hh.
  - intros s _. unfold blackholed. simpl. destruct (decide (t = s)) as [->|].
    + rewrite lookup_insert_eq, Ht. naive_solver.
    + by rewrite lookup_insert_ne.
Qed.

Lemma steady_wlp {A} (m : M A) : (∀ h, wlp m (λ _ h', heap_rel h h') h) → steady m.
Proof. intros Hm h. exact (Hm h). Qed.

Lemma steady_mapM {A B} (f : A → M B) (l : list A) :
  (∀ a, steady (f a)) → steady (mapM f l).
Proof.
  intros Hf. induction l; simpl; repeat (apply steady_bind; [auto|intros]); apply steady_ret.
Qed.

Lemma steady_iterM {A} (f : A → M unit) (l : list A) :
  (∀ a, steady (f a)) → steady (iterM f l).
Proof. intros Hf. induction l; simpl; [apply steady_ret|]. apply steady_bind; auto. Qed.

Lemma steady_get_heap : steady get_heap.
Proof. by intros h a h' [= <- <-]. Qed.

#[export] Hint Resolve steady_ret steady_lift steady_data steady_alloc steady_get_heap : steady.

Ltac steady_steps :=
  repeat (intros; simpl; match goal with
  | |- steady (_ ≫= _) => apply steady_bind
  | |- steady (mapM _ _) => apply steady_mapM
  | |- steady (iterM _ _) => apply steady_iterM
  | |- steady (match ?x with _ => _ end) => destruct x
  | |- steady (if ?x then _ else _) => destruct x
  | |- steady _ => solve [eauto with steady]
  end).

Lemma steady_build_cached t renv : steady (build_cached t renv).
Proof.
  apply steady_wlp. intros h. unfold build_cached. apply wlp_bind, wlp_data. intros d Hd.
  apply wlp_bind, wlp_lift. intros d' Hd'. apply wlp_write.
  apply (heap_rel_write h t d d'); [done|].
  unfold init_cached in Hd'. by repeat case_match; simplify_eq/=.
Qed.

Lemma steady_borrow_mut t f : steady (borrow_mut t f).
Proof.
  apply steady_wlp. intros h. unfold borrow_mut. apply wlp_bind, wlp_data. intros d Hd.
  apply wlp_write. by apply (heap_rel_write h t d).
Qed.

Lemma steady_borrow t : steady (borrow t).
Proof. unfold borrow. steady_steps. Qed.
Lemma steady_thunk_deps t : steady (thunk_deps t).
Proof. unfold thunk_deps. steady_steps. Qed.
Lemma steady_revert t : steady (revert t).
Proof. unfold revert. steady_steps. Qed.
Lemma steady_add c b : steady (add c b).
Proof. destruct b; unfold add, thunk_new, thunk_new_rev; steady_steps. Qed.
#[export] Hint Resolve steady_build_cached steady_borrow_mut steady_borrow steady_thunk_deps
  steady_revert steady_add : steady.

Lemma steady_saturate t l : steady (saturate t l).
Proof. unfold saturate. steady_steps. Qed.
Lemma steady_deps t : steady (deps t).
Proof. unfold deps. steady_steps. Qed.
Lemma steady_get t : steady (get t).
Proof. apply steady_borrow. Qed.
Lemma steady_patch t f : steady (patch t f).
Proof. apply steady_borrow_mut. Qed.
Lemma steady_thunk_new c : steady (thunk_new c).
Proof. apply steady_alloc. Qed.
Lemma steady_thunk_new_rev c dps : steady (thunk_new_rev c dps).
Proof. exact (steady_add c (Revertible dps)). Qed.
Lemma steady_get_evaluated_arg l : steady (get_evaluated_arg l).
Proof. unfold get_evaluated_arg, get, get_owned. steady_steps. Qed.
Lemma steady_assertM b : steady (assertM b).
Proof. apply steady_lift. Qed.
#[export] Hint Resolve steady_saturate steady_deps steady_get steady_patch steady_thunk_new steady_thunk_new_rev
  steady_get_evaluated_arg steady_assertM : steady.

(** ** Closurization and merging *)

Lemma steady_closurize_as_btype v env b : steady (closurize_as_btype v env b).
Proof. unfold closurize_as_btype. steady_steps. Qed.
#[export] Hint Resolve steady_closurize_as_btype : steady.

Lemma steady_closurize v env : steady (closurize v env).
Proof. apply steady_closurize_as_btype. Qed.
Lemma steady_option_mapM {A B} (f : A → M B) o : (∀ a, steady (f a)) → steady (option_mapM f o).
Proof. intros Hf. destruct o; steady_steps; auto. Qed.
#[export] Hint Resolve steady_closurize steady_option_mapM : steady.

Lemma steady_closurize_contracts l env b : steady (closurize_contracts l env b).
Proof. unfold closurize_contracts, closurize_contract. steady_steps. Qed.
#[export] Hint Resolve steady_closurize_contracts : steady.

Lemma steady_closurize_field f env b : steady (closurize_field f env b).
Proof. unfold closurize_field. steady_steps. Qed.
#[export] Hint Resolve steady_closurize_field : steady.

Lemma steady_closurize_record r env b : steady (closurize_record r env b).
Proof. unfold closurize_record. steady_steps. Qed.
Lemma steady_closurize_rec_record `{IndexMapOps Ident} r dyns dps env :
  steady (closurize_rec_record r dyns dps env).
Proof. unfold closurize_rec_record. steady_steps. Qed.
Lemma steady_rec_env l : steady (rec_env l).
Proof. unfold rec_env, rec_env_entry. steady_steps. Qed.
Lemma steady_patch_value v renv : steady (patch_value v renv).
Proof. unfold patch_value. steady_steps. Qed.
#[export] Hint Resolve steady_closurize_record steady_closurize_rec_record steady_rec_env
  steady_patch_value : steady.

Lemma steady_patch_field f renv : steady (patch_field f renv).
Proof. unfold patch_field. steady_steps. Qed.
Lemma steady_revert_closurize v : steady (revert_closurize v).
Proof. unfold revert_closurize. steady_steps. Qed.
#[export] Hint Resolve steady_patch_field steady_revert_closurize : steady.

Lemma steady_revert_closurize_contracts l : steady (revert_closurize_contracts l).
Proof. unfold revert_closurize_contracts, revert_closurize_contract. steady_steps. Qed.
#[export] Hint Resolve steady_revert_closurize_contracts : steady.

Lemma steady_revert_closurize_fields l : steady (revert_closurize_fields l).
Proof. unfold revert_closurize_fields, revert_closurize_field. steady_steps. Qed.
#[export] Hint Resolve steady_revert_closurize_fields : steady.

Lemma steady_revert_record r : steady (revert_record r).
Proof. unfold revert_record. steady_steps. Qed.
Lemma steady_saturate_value v l : steady (saturate_value v l).
Proof. unfold saturate_value. steady_steps. Qed.
Lemma steady_field_deps v : steady (field_deps v).
Proof. unfold field_deps. steady_steps. Qed.
#[export] Hint Resolve steady_revert_record steady_saturate_value steady_field_deps : steady.

Section steady_merge.
Context `{IndexMapOps Ident}.
Context (label_eq : Label → Label → bool).
Context (contract_eq : Heap → NickelValue → Environment → NickelValue → Environment → bool).
Context (type_eq_noenv : Heap → Typ → Typ → bool).

Lemma steady_merge_fields ml f1 f2 names :
  steady (merge_fields contract_eq type_eq_noenv ml f1 f2 names).
Proof. unfold merge_fields, merge_values, fields_merge_closurize. steady_steps. Qed.
Hint Resolve steady_merge_fields : steady.

Lemma steady_merge_records r1 r2 mode : steady (merge_records contract_eq type_eq_noenv r1 r2 mode).
Proof. unfold merge_records, merge_parts. steady_steps. Qed.
Hint Resolve steady_merge_records : steady.

Lemma steady_merge v1 env1 v2 env2 mode :
  steady (merge label_eq contract_eq type_eq_noenv v1 env1 v2 env2 mode).
Proof.
  unfold merge. apply steady_bind; [|steady_steps]. unfold merge_content.
  destruct v1, v2; steady_steps.
Qed.

End steady_merge.
#[export] Hint Resolve steady_merge : steady.

(** ** The machine *)

(** The thunks whose update frames are on the stack, from the top. *)
Definition frames (l : list Item) : list CacheIndex :=
  omap (λ i, match i with UpdateIndexItem t => Some t | _ => None end) l.

(** What an operation may push: anything but update frames and the items that
    wait for a continuation of their own. *)
Definition pushable (i : Item) : bool :=
  match i with
  | UpdateIndexItem _ | EqItem _ _ | StrAccItem _ _ _ | StrChunkItem _ => false
  | _ => true
  end.

Lemma frames_cons i l : pushable i = true → frames (i :: l) = frames l.
Proof. by destruct i. Qed.

(** Properties of the stack kept by pushing such an item and by popping an
    argument. *)
Class StackProp (P : list Item → Prop) : Prop := {
  stack_push : ∀ i l, pushable i = true → P l → P (i :: l);
  stack_pop_arg : ∀ c l, P (ArgItem c :: l) → P l;
  stack_pop_tracked : ∀ t l, P (TrackedArgItem t :: l) → P l;
}.

#[export] Instance any_stack : StackProp (λ _, True).
Proof. by split. Qed.

Section calm.
Context (P : list Item → Prop) `{!StackProp P}.

Definition vm_rel (s s' : Vm) : Prop :=
  heap_rel (vm_cache s) (vm_cache s')
  ∧ frames (vm_stack s') = frames (vm_stack s)
  ∧ (P (vm_stack s) → P (vm_stack s')).

#[export] Instance vm_rel_preorder : PreOrder vm_rel.
Proof.
  split; [by repeat split|]. intros s s' s'' (?&?&?) (?&?&?).
  split_and!; [by etrans|congruence|auto].
Qed.

(** Whatever the result, errors included. *)
Definition calm {A} (m : VM A) : Prop := ∀ s r s', m s = Done (r, s') → vm_rel s s'.

Lemma calm_bind {A B} (m : VM A) (f : A → VM B) :
  calm m → (∀ a, calm (f a)) → calm (m ≫= f).
Proof.
  intros Hm Hf s r s' Hb. unfold mbind, VM_bind in Hb.
  apply bind_Done in Hb as ([[a|e] s1] & Hs1 & Hb); simpl in Hb.
  - etrans; [by eapply Hm|by eapply Hf].
  - simplify_eq. by eapply Hm.
Qed.

Lemma calm_ret {A} (a : A) : calm (mret a).
Proof. intros s r s' [= <- <-]. reflexivity. Qed.
Lemma calm_throw {A} e : calm (throw (A:=A) e).
Proof. intros s r s' [= <- <-]. reflexivity. Qed.
Lemma calm_panic {A} : calm (vm_panic (A:=A)).
Proof. done. Qed.
Lemma calm_get_cache : calm get_cache.
Proof. intros s r s' [= <- <-]. reflexivity. Qed.
Lemma calm_in_outcome {A} (o : outcome A) : calm (in_outcome o).
Proof. intros s r s' Hs. unfold in_outcome in Hs. destruct o; simplify_eq/=. reflexivity. Qed.
Lemma calm_in_fresh {A} (m : Fresh A) : calm (in_fresh m).
Proof. intros s r s' Hs. by apply bind_Done in Hs as ([a n] & _ & [= <- <-]). Qed.
Lemma calm_fresh_ident : calm fresh_ident.
Proof. apply calm_in_fresh. Qed.
Lemma calm_write_trace msg : calm (write_trace msg).
Proof. by intros s r s' [= <- <-]. Qed.
Lemma calm_in_cache {A} (m : M A) : steady m → calm (in_cache m).
Proof.
  intros Hm s r s' Hs. apply bind_Done in Hs as ([a h] & Hh & [= <- <-]).
  split_and!; [by eapply Hm|done..].
Qed.

Lemma calm_of_result {A} (r : result A EvalErrorKind) : calm (of_result r).
Proof. destruct r; [apply calm_ret|apply calm_throw]. Qed.
Lemma calm_expect {A} (o : option A) : calm (expect o).
Proof. destruct o; [apply calm_ret|apply calm_panic]. Qed.
Lemma calm_ok_or {A} (o : option A) e : calm (ok_or o e).
Proof. destruct o; [apply calm_ret|apply calm_throw]. Qed.
Lemma calm_of_missing {A} (r : result A MissingFieldDefError) : calm (of_missing r).
Proof. destruct r; [apply calm_ret|apply calm_throw]. Qed.

Lemma calm_push_item i : pushable i = true → calm (push_item i).
Proof.
  intros Hi s r s' [= <- <-]. split_and!; simpl; [reflexivity|by apply frames_cons|].
  by apply stack_push.
Qed.

Lemma calm_pop_arg : calm vm_pop_arg.
Proof.
  intros s r s' Hs. apply bind_Done in Hs as ([[o l] h] & Hp & [= <- <-]).
  unfold items_pop_arg in Hp. unfold vm_rel. simpl.
  destruct (vm_stack s) as [|[] l0] eqn:Hl; simplify_eq/=;
    try (split_and!; [reflexivity|done|by rewrite ?Hl]; fail).
  - split_and!; [reflexivity|done|]. apply stack_pop_arg.
  - apply bind_Done in Hp as ([c h'] & Hg & [= <- <- <-]).
    split_and!; [by eapply steady_get|done|]. apply stack_pop_tracked.
Qed.

Lemma calm_pop_arg_as_idx : calm vm_pop_arg_as_idx.
Proof.
  intros s r s' Hs. apply bind_Done in Hs as ([[o l] h] & Hp & [= <- <-]).
  unfold items_pop_arg_as_idx in Hp. unfold vm_rel. simpl.
  destruct (vm_stack s) as [|[] l0] eqn:Hl; simplify_eq/=;
    try (split_and!; [reflexivity|done|by rewrite ?Hl]; fail).
  - split_and!; [by eapply (steady_add _ Normal)|done|]. apply stack_pop_arg.
  - split_and!; [reflexivity|done|]. apply stack_pop_tracked.
Qed.

Lemma calm_mapM {A B} (f : A → VM B) (l : list A) : (∀ a, calm (f a)) → calm (mapM f l).
Proof.
  intros Hf. induction l; simpl; repeat (apply calm_bind; [auto|intros]); apply calm_ret.
Qed.

Lemma calm_foldM {A B} (f : B → A → VM B) (b : B) (l : list A) :
  (∀ b a, calm (f b a)) → calm (foldM f b l).
Proof. intros Hf. revert b. induction l; intros b; simpl; [apply calm_ret|]. apply calm_bind; auto. Qed.

End calm.

#[export] Hint Resolve calm_ret calm_throw calm_panic calm_get_cache calm_in_outcome calm_in_fresh calm_fresh_ident
  calm_write_trace calm_of_result calm_expect calm_ok_or calm_of_missing calm_pop_arg
  calm_pop_arg_as_idx : calm.
#[export] Hint Extern 1 (calm _ (push_item _)) => apply calm_push_item; first [reflexivity | typeclasses eauto] : calm.
#[export] Hint Extern 1 (calm _ (in_cache _)) => apply calm_in_cache; steady_steps : calm.

(** Follows a program of the machine; the match that it is at is destructed. *)
Ltac calm_steps :=
  repeat (intros; simpl; match goal with
  | |- calm _ (_ ≫= _) => apply calm_bind
  | |- calm _ (mapM _ _) => apply calm_mapM
  | |- calm _ (foldM _ _ _) => apply calm_foldM
  | |- calm _ (match ?x with _ => _ end) => destruct x
  | |- calm _ (if ?x then _ else _) => destruct x
  | |- calm _ _ => solve [eauto with calm typeclass_instances]
  end).

(** * The primitive operations are calm

    Every primitive operation leaves the update frames and the thunks under
    evaluation alone. String interpolation and equality, which pop items of
    their own, keep less of the stack than the others: the lemmas on [quiet]
    computations of [MachineInvariant.v] treat them. *)

Section helpers.
Context (P : list Item → Prop) `{!StackProp P}.

Lemma calm_pop_arg_or n s : calm P (pop_arg_or n s).
Proof. unfold pop_arg_or. calm_steps. Qed.
Lemma calm_vm_closurize v env : calm P (vm_closurize v env).
Proof. unfold vm_closurize. calm_steps. Qed.
Lemma calm_throw_tail {A} action l : calm P (throw_tail (A:=A) action l).
Proof. unfold throw_tail. calm_steps. Qed.
Lemma calm_throw_blame {A} l : calm P (throw_blame (A:=A) l).
Proof. unfold throw_blame. calm_steps. Qed.
Lemma calm_type_error1 {A} op e v : calm P (type_error1 (A:=A) op e v).
Proof. apply calm_throw. Qed.
Lemma calm_type_error1_n {A} op e n v : calm P (type_error1_n (A:=A) op e n v).
Proof. apply calm_throw. Qed.
Lemma calm_type_error2 {A} op e n v : calm P (type_error2 (A:=A) op e n v).
Proof. apply calm_throw. Qed.
Lemma calm_type_error_n {A} op e n v : calm P (type_error_n (A:=A) op e n v).
Proof. apply calm_throw. Qed.
Lemma calm_arg_as {A} op (as_ : NickelValue → option A) e n v : calm P (arg_as op as_ e n v).
Proof. unfold arg_as. destruct (as_ v); [apply calm_ret|apply calm_type_error2]. Qed.
Lemma calm_arg_as_n {A} op (as_ : NickelValue → option A) e n v : calm P (arg_as_n op as_ e n v).
Proof. unfold arg_as_n. destruct (as_ v); [apply calm_ret|apply calm_type_error_n]. Qed.
Lemma calm_indent_u32 n : calm P (indent_u32 n).
Proof. unfold indent_u32. calm_steps. Qed.
Lemma calm_deep_seq_terms l : calm P (deep_seq_terms l).
Proof. unfold deep_seq_terms. calm_steps. Qed.
Lemma calm_regex_type_error {A} v : calm P (regex_type_error (A:=A) v).
Proof. apply calm_throw. Qed.
Lemma calm_eta_expand op : calm P (eta_expand op).
Proof. unfold eta_expand. calm_steps. Qed.
End helpers.

#[export] Hint Resolve calm_pop_arg_or calm_vm_closurize calm_throw_tail calm_throw_blame
  calm_type_error1 calm_type_error1_n calm_type_error2 calm_type_error_n calm_arg_as calm_arg_as_n
  calm_indent_u32 calm_deep_seq_terms calm_regex_type_error calm_eta_expand : calm.

(** ** Unary operations *)

Section calm_op1.
Context (P : list Item → Prop) `{!StackProp P} `{Externals, IndexMapOps Ident}.

Lemma calm_map_values_closurize env f l : calm P (map_values_closurize env f l).
Proof. unfold map_values_closurize. calm_steps. Qed.
Hint Resolve calm_map_values_closurize : calm.

Lemma calm_op_if_then_else v : calm P (op_if_then_else v).
Proof. unfold op_if_then_else. calm_steps. Qed.
Lemma calm_op_bool op n b v : calm P (op_bool op n b v).
Proof. unfold op_bool. calm_steps. Qed.
Lemma calm_op_tags_only_match b v : calm P (op_tags_only_match b v).
Proof. unfold op_tags_only_match. calm_steps. Qed.
Lemma calm_op_record_access id v env : calm P (op_record_access id v env).
Proof. unfold op_record_access. calm_steps. Qed.
Lemma calm_op_record_values v env : calm P (op_record_values v env).
Proof. unfold op_record_values. calm_steps. Qed.
Lemma calm_op_record_map v env : calm P (op_record_map v env).
Proof. unfold op_record_map. calm_steps. Qed.
Lemma calm_op_record_empty_with_tail v env : calm P (op_record_empty_with_tail v env).
Proof. unfold op_record_empty_with_tail. calm_steps. Qed.
Lemma calm_op_record_freeze v env : calm P (op_record_freeze v env).
Proof. unfold op_record_freeze. calm_steps. Qed.
Lemma calm_op_deep_seq v env : calm P (op_deep_seq v env).
Proof. unfold op_deep_seq. calm_steps. Qed.
Lemma calm_op_force b v env : calm P (op_force b v env).
Proof. unfold op_force. calm_steps. Qed.
Lemma calm_op_array_map v env : calm P (op_array_map v env).
Proof. unfold op_array_map. calm_steps. Qed.
Lemma calm_op_array_gen v env : calm P (op_array_gen v env).
Proof. unfold op_array_gen. calm_steps. Qed.
Lemma calm_op_regex op c v : calm P (op_regex op c v).
Proof. unfold op_regex. calm_steps. Qed.
Lemma calm_op_find_compiled re v : calm P (op_find_compiled re v).
Proof. unfold op_find_compiled. calm_steps. Qed.
Lemma calm_op_find_all_compiled re v : calm P (op_find_all_compiled re v).
Proof. unfold op_find_all_compiled. calm_steps. Qed.
Lemma calm_op_enum_make_variant v : calm P (op_enum_make_variant v).
Proof. unfold op_enum_make_variant. calm_steps. Qed.
Lemma calm_op_contract_postprocess_result v env : calm P (op_contract_postprocess_result v env).
Proof. unfold op_contract_postprocess_result. calm_steps. Qed.
Lemma calm_op_contract_attach_default_label v env : calm P (op_contract_attach_default_label v env).
Proof. unfold op_contract_attach_default_label. calm_steps. Qed.
Lemma calm_op_contract_custom v env : calm P (op_contract_custom v env).
Proof. unfold op_contract_custom. calm_steps. Qed.
Lemma calm_number_op1 op v : calm P (number_op1 op v).
Proof. unfold number_op1. calm_steps. Qed.
Lemma calm_op_label op v f : (∀ l, calm P (f l)) → calm P (op_label op v f).
Proof. intros. unfold op_label. calm_steps; eauto with calm. Qed.
Lemma calm_op_string op v f : calm P (op_string op v f).
Proof. unfold op_string. calm_steps. Qed.
Hint Resolve calm_op_if_then_else calm_op_bool calm_op_tags_only_match calm_op_record_access
  calm_op_record_values calm_op_record_map calm_op_record_empty_with_tail calm_op_record_freeze
  calm_op_deep_seq calm_op_force calm_op_array_map calm_op_array_gen calm_op_regex
  calm_op_find_compiled calm_op_find_all_compiled calm_op_enum_make_variant
  calm_op_contract_postprocess_result calm_op_contract_attach_default_label
  calm_op_contract_custom calm_number_op1 calm_op_label calm_op_string : calm.

(** Every unary operation but the interpolation of strings. *)
Lemma calm_eval_op1 op c : op ≠ ChunksConcat → calm P (eval_op1 op c).
Proof. intros Hop. unfold eval_op1. destruct op; try done; calm_steps. Qed.

End calm_op1.

(** ** Binary operations *)

Section calm_op2.
Context (P : list Item → Prop) `{!StackProp P} `{Externals, IndexMapOps Ident}.
Context (contract_eq : Heap → NickelValue → Environment → NickelValue → Environment → bool).
Context (type_eq_noenv : Heap → Typ → Typ → bool).
Context (fuel : nat) (initial_env : Environment).

Lemma calm_gen_eqs l env1 env2 : calm P (gen_eqs l env1 env2).
Proof. unfold gen_eqs. calm_steps. Qed.
Hint Resolve calm_gen_eqs : calm.

Lemma calm_eq_records r1 r2 env1 env2 : calm P (eq_records r1 r2 env1 env2).
Proof. unfold eq_records. calm_steps. Qed.
Lemma calm_eq_arrays d1 d2 env1 env2 : calm P (eq_arrays d1 d2 env1 env2).
Proof. unfold eq_arrays. calm_steps. Qed.
Hint Resolve calm_eq_records calm_eq_arrays : calm.

(** The comparison itself, before the pending equalities are looked at. *)
Lemma calm_eq c1 c2 : calm P (eq c1 c2).
Proof. unfold eq. destruct (clos_value c1), (clos_value c2); calm_steps. Qed.

Lemma calm_number_fn2 op f v1 v2 : calm P (number_fn2 op f v1 v2).
Proof. unfold number_fn2. calm_steps. Qed.
Lemma calm_string_fn2 op f v1 v2 : calm P (string_fn2 op f v1 v2).
Proof. unfold string_fn2. calm_steps. Qed.
Lemma calm_float_fn2 op s n1 n2 : calm P (float_fn2 op s n1 n2).
Proof. unfold float_fn2. calm_steps. Qed.
Lemma calm_tag_and_string {A} op e (table : list (string * A)) v1 v2 :
  calm P (tag_and_string op e table v1 v2).
Proof. unfold tag_and_string. calm_steps. Qed.
Hint Resolve calm_number_fn2 calm_string_fn2 calm_float_fn2 calm_tag_and_string : calm.

Lemma calm_number_op2 op f v1 v2 : calm P (number_op2 op f v1 v2).
Proof. apply calm_number_fn2. Qed.
Lemma calm_number_cmp2 op f v1 v2 : calm P (number_cmp2 op f v1 v2).
Proof. apply calm_number_fn2. Qed.
Lemma calm_op_div v1 v2 : calm P (op_div v1 v2).
Proof. unfold op_div. calm_steps. Qed.
Lemma calm_op_modulo v1 v2 : calm P (op_modulo v1 v2).
Proof. unfold op_modulo. calm_steps. Qed.
Lemma calm_op_float2 op v1 v2 : calm P (op_float2 op v1 v2).
Proof. unfold op_float2. calm_steps. Qed.
Lemma calm_op_pow v1 v2 : calm P (op_pow v1 v2).
Proof. unfold op_pow. calm_steps. Qed.
Lemma calm_op_hash v1 v2 : calm P (op_hash v1 v2).
Proof. unfold op_hash. calm_steps. Qed.
Lemma calm_op_serialize v1 v2 env2 : calm P (op_serialize fuel v1 v2 env2).
Proof. unfold op_serialize. calm_steps. Qed.
Lemma calm_op_deserialize v1 v2 : calm P (op_deserialize v1 v2).
Proof. unfold op_deserialize. calm_steps. Qed.
Lemma calm_op_base64_encode v1 v2 : calm P (op_base64_encode v1 v2).
Proof. unfold op_base64_encode. calm_steps. Qed.
Lemma calm_op_base64_decode v1 v2 : calm P (op_base64_decode v1 v2).
Proof. unfold op_base64_decode. calm_steps. Qed.

Lemma calm_op_seal v1 v2 : calm P (op_seal v1 v2).
Proof. unfold op_seal. calm_steps. Qed.
Lemma calm_op_unseal v1 v2 env2 : calm P (op_unseal v1 v2 env2).
Proof. unfold op_unseal. calm_steps. Qed.
Lemma calm_push_postprocessing op v1 l : calm P (push_postprocessing op v1 l).
Proof. unfold push_postprocessing. calm_steps. Qed.
Lemma calm_contract_functoid op v1 env1 : calm P (contract_functoid op v1 env1).
Proof. unfold contract_functoid. calm_steps. Qed.
Hint Resolve calm_push_postprocessing calm_contract_functoid : calm.

Lemma calm_op_contract_apply op v1 env1 v2 env2 : calm P (op_contract_apply op v1 env1 v2 env2).
Proof. unfold op_contract_apply. calm_steps. Qed.

Lemma calm_strings_of {A} err l (k : list string → VM A) :
  (∀ ss, calm P (k ss)) → calm P (strings_of err l k).
Proof. intros. unfold strings_of. calm_steps; eauto. Qed.
Hint Resolve calm_strings_of : calm.

Lemma calm_op_label_with_error_data v1 env1 v2 :
  calm P (op_label_with_error_data fuel initial_env v1 env1 v2).
Proof. unfold op_label_with_error_data. calm_steps. Qed.
Lemma calm_op_contract_array_lazy_app v1 v2 env2 :
  calm P (op_contract_array_lazy_app contract_eq v1 v2 env2).
Proof. unfold op_contract_array_lazy_app. calm_steps. Qed.
Lemma calm_op_contract_record_lazy_app v1 v2 env2 :
  calm P (op_contract_record_lazy_app contract_eq v1 v2 env2).
Proof. unfold op_contract_record_lazy_app. calm_steps. Qed.
Lemma calm_op_label_go_field v1 v2 : calm P (op_label_go_field v1 v2).
Proof. unfold op_label_go_field. calm_steps. Qed.
Lemma calm_op_label_string op f v1 v2 : calm P (op_label_string op f v1 v2).
Proof. unfold op_label_string. calm_steps. Qed.
Lemma calm_op_label_with_notes v1 env1 v2 : calm P (op_label_with_notes fuel v1 env1 v2).
Proof. unfold op_label_with_notes. calm_steps. Qed.
Lemma calm_op_label_lookup_type_var v1 v2 : calm P (op_label_lookup_type_var v1 v2).
Proof. unfold op_label_lookup_type_var. calm_steps. Qed.
Lemma calm_op_record_get v1 v2 env2 : calm P (op_record_get v1 v2 env2).
Proof. unfold op_record_get. calm_steps. Qed.
Lemma calm_op_record_insert m p k o v1 v2 env2 : calm P (op_record_insert m p k o v1 v2 env2).
Proof. unfold op_record_insert. calm_steps. Qed.
Lemma calm_op_record_remove o v1 v2 env2 : calm P (op_record_remove o v1 v2 env2).
Proof. unfold op_record_remove. calm_steps. Qed.
Lemma calm_op_record_field_test op p v1 v2 : calm P (op_record_field_test op p v1 v2).
Proof. unfold op_record_field_test. calm_steps. Qed.
Lemma calm_op_record_split_pair v1 v2 : calm P (op_record_split_pair v1 v2).
Proof. unfold op_record_split_pair. calm_steps. Qed.
Lemma calm_op_record_disjoint_merge v1 env1 v2 env2 :
  calm P (op_record_disjoint_merge v1 env1 v2 env2).
Proof. unfold op_record_disjoint_merge. calm_steps. Qed.
Lemma calm_op_array_concat v1 env1 v2 env2 : calm P (op_array_concat contract_eq v1 env1 v2 env2).
Proof. unfold op_array_concat. calm_steps. Qed.
Lemma calm_op_array_at v1 env1 v2 : calm P (op_array_at v1 env1 v2).
Proof. unfold op_array_at. calm_steps. Qed.
Hint Resolve calm_number_op2 calm_number_cmp2 calm_op_div calm_op_modulo calm_op_float2 calm_op_pow
  calm_op_hash calm_op_serialize calm_op_deserialize calm_op_base64_encode calm_op_base64_decode
  calm_op_seal calm_op_unseal calm_op_contract_apply calm_op_label_with_error_data
  calm_op_contract_array_lazy_app calm_op_contract_record_lazy_app calm_op_label_go_field
  calm_op_label_string calm_op_label_with_notes calm_op_label_lookup_type_var calm_op_record_get
  calm_op_record_insert calm_op_record_remove calm_op_record_field_test calm_op_record_split_pair
  calm_op_record_disjoint_merge calm_op_array_concat calm_op_array_at : calm.

(** Every binary operation but equality. *)
Lemma calm_eval_op2 op c1 c2 :
  op ≠ Eq_ → calm P (eval_op2 contract_eq type_eq_noenv fuel initial_env op c1 c2).
Proof. intros Hop. unfold eval_op2. destruct op; try done; calm_steps. Qed.

(** ** N-ary operations *)

Lemma calm_op_string_replace op v1 v2 v3 : calm P (op_string_replace op v1 v2 v3).
Proof. unfold op_string_replace. calm_steps. Qed.
Lemma calm_op_string_substr v1 v2 v3 : calm P (op_string_substr v1 v2 v3).
Proof. unfold op_string_substr. calm_steps. Qed.
Lemma calm_op_merge_contract v1 c2 c3 :
  calm P (op_merge_contract contract_eq type_eq_noenv v1 c2 c3).
Proof. unfold op_merge_contract. calm_steps. Qed.
Lemma calm_op_record_seal_tail v1 v2 c3 c4 : calm P (op_record_seal_tail v1 v2 c3 c4).
Proof. unfold op_record_seal_tail. calm_steps. Qed.
Lemma calm_op_record_unseal_tail v1 v2 c3 : calm P (op_record_unseal_tail v1 v2 c3).
Proof. unfold op_record_unseal_tail. calm_steps. Qed.
Lemma calm_op_label_insert_type_var v1 v2 v3 : calm P (op_label_insert_type_var v1 v2 v3).
Proof. unfold op_label_insert_type_var. calm_steps. Qed.
Lemma calm_op_array_slice v1 v2 c3 : calm P (op_array_slice v1 v2 c3).
Proof. unfold op_array_slice. calm_steps. Qed.
Hint Resolve calm_op_string_replace calm_op_string_substr calm_op_merge_contract
  calm_op_record_seal_tail calm_op_record_unseal_tail calm_op_label_insert_type_var
  calm_op_array_slice : calm.

Lemma calm_eval_opn op args : calm P (eval_opn contract_eq type_eq_noenv op args).
Proof. unfold eval_opn. calm_steps. Qed.

End calm_op2.

(** * The invariants of the machine

    Invariants of the loop of [eval_closure]. The update frames are those of
    distinct thunks, which are the ones under evaluation ([machine_ok], in
    [MachineTyping.v]); the computations that keep them are [quiet]. [wf_stack]: the items that wait for a particular continuation, the pending
    equalities and the parts of an interpolated string, lie right below it. *)

(** ** The grammar of the stack *)

Definition stands_alone (i : Item) : bool :=
  match i with EqItem _ _ | StrAccItem _ _ _ | StrChunkItem _ => false | _ => true end.

Fixpoint drop_chunks (l : list Item) : list Item :=
  match l with StrChunkItem _ :: l' => drop_chunks l' | _ => l end.

Local Notation clear := (@items_clear_eqs Heap CBNCache).
Local Notation items_pop := (@items_pop Heap CBNCache).

Inductive wf_stack : list Item → Prop :=
| wf_nil : wf_stack []
| wf_item i l : stands_alone i = true → wf_stack l → wf_stack (i :: l)
| wf_chunks info acc env indent l :
    wf_stack (drop_chunks l) →
    wf_stack (Op1ContItem ChunksConcat info :: StrAccItem acc env indent :: l)
| wf_eqs_first info c l :
    wf_stack (clear l) → wf_stack (Op2FirstContItem Eq_ info c :: l)
| wf_eqs_second info c l :
    wf_stack (clear l) → wf_stack (Op2SecondContItem Eq_ info c :: l).

(** The current closure and the stack: what the closure will push is taken into
    account. *)
Definition wf_config (c : Closure) (l : list Item) : Prop :=
  match clos_value c with
  | VTerm (TOp1 ChunksConcat _) => wf_stack (Op1ContItem ChunksConcat no_app_info :: l)
  | VTerm (TOp2 Eq_ _ _) => wf_stack (clear l)
  | _ => wf_stack l
  end.

Lemma wf_clear l : wf_stack l → clear l = l.
Proof. destruct 1 as [|[] ?| | |]; done. Qed.

Lemma wf_drop_chunks l : wf_stack l → drop_chunks l = l.
Proof. destruct 1 as [|[] ?| | |]; done. Qed.

Lemma clear_eqs_app (eqs : list (Closure * Closure)) l :
  clear (map (λ p : Closure * Closure, EqItem p.1 p.2) eqs ++ l) = clear l.
Proof. by induction eqs. Qed.

Lemma drop_chunks_app (chunks : list StrChunk) l :
  drop_chunks (map StrChunkItem chunks ++ l) = drop_chunks l.
Proof. by induction chunks. Qed.

Lemma clear_tail p q l : wf_stack (clear (EqItem p q :: l)) ↔ wf_stack (clear l).
Proof. done. Qed.

Lemma wf_stack_config c l : wf_stack l → wf_config c l.
Proof.
  intros Hl. unfold wf_config. repeat case_match; auto using wf_item.
  by rewrite wf_clear.
Qed.

Lemma wf_pop i l :
  stands_alone i = true →
  match i with
  | Op1ContItem ChunksConcat _ | Op2FirstContItem Eq_ _ _ | Op2SecondContItem Eq_ _ _ => False
  | _ => True
  end →
  wf_stack (i :: l) → wf_stack l.
Proof. intros Hi Hn. by inversion 1; subst. Qed.

Lemma wf_pop_eq_first info c l : wf_stack (Op2FirstContItem Eq_ info c :: l) → wf_stack (clear l).
Proof. inversion 1; subst; [|done]. by rewrite wf_clear. Qed.

Lemma wf_pop_eq_second info c l : wf_stack (Op2SecondContItem Eq_ info c :: l) → wf_stack (clear l).
Proof. inversion 1; subst; [|done]. by rewrite wf_clear. Qed.

Lemma wf_pop_chunks info l :
  wf_stack (Op1ContItem ChunksConcat info :: l) →
  wf_stack l ∨ ∃ acc env indent l', l = StrAccItem acc env indent :: l' ∧ wf_stack (drop_chunks l').
Proof. inversion 1; subst; eauto 10. Qed.

#[export] Instance wf_stack_prop : StackProp wf_stack.
Proof.
  split.
  - intros i l Hi Hl. apply wf_item; [by destruct i|done].
  - intros c l. by apply wf_pop.
  - intros t l. by apply wf_pop.
Qed.

(** Nothing is pending on the top of a well-formed stack. *)
Lemma wf_stack_top i l : wf_stack (i :: l) → stands_alone i = true.
Proof. by inversion 1; subst. Qed.

(** Below an equality that is evaluated. *)
Definition wf_below_eq (l : list Item) : Prop := wf_stack (clear l).

(** ** Steps *)

Section settles.
Context (Q : list Item → Prop).

(** The closure that a computation returns, from a stack in [Q]. *)
Definition settles (m : VM Closure) : Prop :=
  ∀ s c s', Q (vm_stack s) → m s = Done (Ok c, s') → wf_config c (vm_stack s').

End settles.

Lemma calm_settles m : calm wf_stack m → settles wf_stack m.
Proof. intros Hm s c s' Hs Hr. apply wf_stack_config. destruct (Hm _ _ _ Hr) as (_&_&?). auto. Qed.

(** Inversion of the binds of the monad, when the result is a value. *)
Lemma vm_bind_Ok {A B} (m : VM A) (f : A → VM B) s b s' :
  (m ≫= f) s = Done (Ok b, s') → ∃ a s1, m s = Done (Ok a, s1) ∧ f a s1 = Done (Ok b, s').
Proof.
  unfold mbind, VM_bind. intros Hb. apply bind_Done in Hb as ([[a|e] s1] & Hs1 & Hb); simpl in Hb.
  - eauto.
  - simplify_eq.
Qed.

Lemma vm_bind_inv {A B} (m : VM A) (f : A → VM B) s r s' :
  (m ≫= f) s = Done (r, s') →
  (∃ a s1, m s = Done (Ok a, s1) ∧ f a s1 = Done (r, s')) ∨ (∃ e, m s = Done (Err e, s') ∧ r = Err e).
Proof.
  unfold mbind, VM_bind. intros Hb. apply bind_Done in Hb as ([[a|e] s1] & Hs1 & Hb); simpl in Hb.
  - left. eauto.
  - right. simplify_eq. eauto.
Qed.

Lemma pop_literals_drop acc l acc' o l' :
  pop_literals acc l = (acc', o, l') → drop_chunks l' = drop_chunks l ∧ frames l' = frames l.
Proof.
  revert acc. induction l as [|i l IH]; intros acc; simpl; [by intros [= <- <- <-]|].
  destruct i as [| | | | | | | |chunk|]; try by intros [= <- <- <-].
  destruct chunk; [apply IH|]. by intros [= <- <- <-].
Qed.

Lemma pop_literals_done acc l acc' l' :
  pop_literals acc l = (acc', None, l') → l' = drop_chunks l.
Proof.
  revert acc. induction l as [|i l IH]; intros acc; simpl; [by intros [= <- <-]|].
  destruct i as [| | | | | | | |chunk|]; try by intros [= <- <-].
  destruct chunk; [apply IH|done].
Qed.

(** ** The operations with items of their own *)

(** Opens the monad on a concrete state. *)
Ltac vm_unfold H :=
  unfold mbind, VM_bind, mret, VM_ret, pop_item, push_item, push_all, get_stack, set_stack, clear_eqs,
    expect, throw, vm_panic, with_stack, with_cache in H; simpl in H.

Section own_items.
Context `{Externals, IndexMapOps Ident}.

Lemma op_chunks_concat_settles info v :
  settles (λ l, wf_stack (Op1ContItem ChunksConcat info :: l)) (op_chunks_concat v).
Proof.
  intros [h l tr fr] c s' Hl Hr. simpl in Hl.
  apply vm_bind_Ok in Hr as (item & s1 & Hitem & Hr).
  apply wf_pop_chunks in Hl as [Hl|(acc & env & indent & l' & -> & Hl)].
  { destruct l as [|i l]; [done|]. pose proof (wf_stack_top _ _ Hl). vm_unfold Hitem.
    by destruct i. }
  vm_unfold Hitem. injection Hitem as <- <-. simpl in Hr.
  destruct (to_nickel_string v) as [str|]; [|done].
  apply vm_bind_Ok in Hr as (l1 & s1 & [= <- <-] & Hr). simpl in Hr.
  destruct (pop_literals _ l') as [[acc' chunk] l''] eqn:Hp.
  pose proof (pop_literals_drop _ _ _ _ _ Hp) as [Hd _].
  apply vm_bind_Ok in Hr as ([] & s1 & [= <-] & Hr).
  destruct chunk as [[s|e ind]|].
  - injection Hr as <- <-. apply wf_stack_config. simpl. exfalso. revert Hp. clear.
    generalize (acc +:+ (if (indent =? 0)%N then str else replace_newlines (indent_string indent) str)).
    induction l' as [|i l' IH]; intros ?; simpl; [done|]. destruct i as [| | | | | | | |[]|]; try done.
    apply IH.
  - apply vm_bind_Ok in Hr as (i & s1 & Hi & Hr).
    apply vm_bind_Ok in Hr as ([] & s2 & [= <-] & [= <- <-]).
    unfold indent_u32 in Hi. case_match; [|done]. injection Hi as <- <-. simpl.
    apply wf_chunks. by rewrite Hd.
  - apply pop_literals_done in Hp as ->. injection Hr as <- <-. by apply wf_stack_config.
Qed.

Lemma pop_item_inv m s r s' :
  pop_item m s = Done (r, s') →
  ∃ o l', items_pop m (vm_stack s) = (o, l') ∧ r = Ok o ∧ s' = with_stack l' s.
Proof.
  unfold pop_item. intros Hp. apply vm_bind_inv in Hp as [(l & s1 & [= <- <-] & Hp)|(e & Hp & _)];
    [|done].
  destruct (items_pop m (vm_stack s)) as [o l'] eqn:Hl.
  injection Hp as <- <-. eauto.
Qed.

Lemma clear_eq_item l o l' :
  wf_below_eq l → items_pop MEq l = (o, l') → wf_below_eq l'.
Proof. unfold items_pop. intros Hl Hp. destruct l as [|[] l]; simplify_eq/=; done. Qed.

Lemma clear_eq_none l l' : items_pop MEq l = (None, l') → clear l = l'.
Proof. unfold items_pop. intros Hp. destruct l as [|[] l]; simplify_eq/=; done. Qed.

Lemma op_eq_settles c1 c2 : settles wf_below_eq (op_eq c1 c2).
Proof.
  intros s c s' Hl Hr. apply vm_bind_Ok in Hr as (r & s1 & Heq & Hr).
  destruct (calm_eq wf_below_eq c1 c2 _ _ _ Heq) as (_ & _ & Hs1).
  specialize (Hs1 Hl). destruct r as [b|v1 v2 subeqs].
  - apply vm_bind_Ok in Hr as (o & s2 & Hpop & Hr).
    apply pop_item_inv in Hpop as (o' & l2 & Hp & [= <-] & ->).
    pose proof (clear_eq_item _ _ _ Hs1 Hp) as Hl2. destruct b, o as [i|].
    + destruct i; try done.
      apply vm_bind_Ok in Hr as (v1 & s3 & H1 & Hr). apply vm_bind_Ok in Hr as (v2 & s4 & H2 & Hr).
      injection Hr as <- <-.
      apply (calm_vm_closurize wf_below_eq) in H1 as (_ & _ & H1).
      apply (calm_vm_closurize wf_below_eq) in H2 as (_ & _ & H2). exact (H2 (H1 Hl2)).
    + injection Hr as <- <-. apply wf_stack_config. simpl. by apply clear_eq_none in Hp as <-.
    + apply vm_bind_Ok in Hr as ([] & s3 & [= <-] & [= <- <-]). by apply wf_stack_config.
    + apply vm_bind_Ok in Hr as ([] & s3 & [= <-] & [= <- <-]). by apply wf_stack_config.
  - apply vm_bind_Ok in Hr as ([] & s2 & [= <-] & [= <- <-]).
    unfold wf_config. simpl. by rewrite <- map_rev, clear_eqs_app.
Qed.

End own_items.

(** ** The update frames *)

(** What is calm on any stack. *)
Definition quiet {A} (m : VM A) : Prop := calm (λ _, True) m.

Lemma frames_app l l' : frames (l ++ l') = frames l ++ frames l'.
Proof. unfold frames. apply omap_app. Qed.

Lemma quiet_bind {A B} (m : VM A) (f : A → VM B) : quiet m → (∀ a, quiet (f a)) → quiet (m ≫= f).
Proof. apply calm_bind. Qed.

(** The stack is read and replaced, and its update frames stay. *)
Lemma quiet_restack {A} (k : list Item → VM A) :
  (∀ l s r s', vm_stack s = l → k l s = Done (r, s') → vm_rel (λ _, True) s s') →
  quiet (l ← get_stack; k l).
Proof.
  intros Hk s r s' Hr. apply vm_bind_inv in Hr as [(l & s1 & [= <- <-] & Hr)|(e & Hr & _)]; [|done].
  by eapply Hk.
Qed.

Lemma vm_rel_set_stack {A} l (k : VM A) s r s' :
  frames l = frames (vm_stack s) → quiet k →
  (_ ← set_stack l; k) s = Done (r, s') → vm_rel (λ _, True) s s'.
Proof.
  intros Hl Hk Hr. apply vm_bind_inv in Hr as [([] & s1 & [= <-] & Hr)|(e & Hr & _)]; [|done].
  etrans; [|by eapply Hk]. split_and!; [reflexivity|done|done].
Qed.

Lemma quiet_pop_item m : m ≠ MUpdateIndex → quiet (pop_item m).
Proof.
  intros Hm s r s' Hp. apply pop_item_inv in Hp as (o & l & Hp & -> & ->).
  split_and!; [reflexivity| |done]. unfold items_pop in Hp. simpl.
  destruct (vm_stack s) as [|i l0]; simplify_eq/=; [done|].
  case_bool_decide; simplify_eq/=; [|done]. by destruct i.
Qed.

Lemma quiet_clear_eqs : quiet clear_eqs.
Proof.
  intros s r s' [= <- <-]. split_and!; [reflexivity| |done]. simpl.
  by induction (vm_stack s) as [|[] l IH].
Qed.

Lemma quiet_push_all l : frames (rev l) = [] → quiet (push_all l).
Proof.
  intros Hl s r s' [= <- <-]. split_and!; [reflexivity| |done]. simpl.
  by rewrite frames_app, Hl.
Qed.

Lemma frames_eqs (eqs : list (Closure * Closure)) :
  frames (rev (map (λ p : Closure * Closure, EqItem p.1 p.2) eqs)) = [].
Proof. rewrite <- map_rev. by induction (rev eqs). Qed.

Lemma frames_chunks (chunks : list StrChunk) : frames (rev (map StrChunkItem chunks)) = [].
Proof. rewrite <- map_rev. by induction (rev chunks). Qed.

Lemma quiet_push i : stands_alone i = false → quiet (push_item i).
Proof.
  intros Hi s r s' [= <- <-]. split_and!; [reflexivity| |done]. by destruct i.
Qed.

Lemma chunks_dec op : op = ChunksConcat ∨ op ≠ ChunksConcat.
Proof. destruct op; first [left; reflexivity | right; discriminate]. Qed.

Lemma eq_dec op : op = Eq_ ∨ op ≠ Eq_.
Proof. destruct op; first [left; reflexivity | right; discriminate]. Qed.

Section quiet.
Context `{Externals, IndexMapOps Ident}.
Context (contract_eq : Heap → NickelValue → Environment → NickelValue → Environment → bool).
Context (type_eq_noenv : Heap → Typ → Typ → bool).
Context (fuel : nat) (initial_env : Environment).

Lemma quiet_chunks_concat v : quiet (op_chunks_concat v).
Proof.
  unfold op_chunks_concat. apply quiet_bind.
  { apply quiet_bind; [by apply quiet_pop_item|]. intros. apply calm_expect. }
  intros item. destruct item; try apply calm_panic.
  destruct (to_nickel_string v); [|apply calm_throw].
  apply quiet_restack. intros l s' r s'' Hl.
  destruct (pop_literals _ l) as [[acc' o] l'] eqn:Hp.
  apply pop_literals_drop in Hp as [_ Hf]. apply vm_rel_set_stack; [congruence|].
  destruct o as [[]|]; [apply calm_ret| |apply calm_ret].
  apply quiet_bind; [apply calm_indent_u32|]. intros.
  apply quiet_bind; [by apply quiet_push|]. intros. apply calm_ret.
Qed.

Lemma quiet_op_eq c1 c2 : quiet (op_eq c1 c2).
Proof.
  unfold op_eq. apply quiet_bind; [apply calm_eq|]. intros [b|v1 v2 subeqs].
  - apply quiet_bind; [by apply quiet_pop_item|]. intros o. destruct b.
    + destruct o as [[]|]; unfold quiet; calm_steps.
    + apply quiet_bind; [apply quiet_clear_eqs|]. intros. apply calm_ret.
  - apply quiet_bind; [apply quiet_push_all, frames_eqs|]. intros. apply calm_ret.
Qed.

Lemma quiet_eval_op1 op c : quiet (eval_op1 op c).
Proof.
  destruct (chunks_dec op) as [->|]; [apply quiet_chunks_concat|].
  by apply calm_eval_op1; [typeclasses eauto|].
Qed.

Lemma quiet_eval_op2 op c1 c2 : quiet (eval_op2 contract_eq type_eq_noenv fuel initial_env op c1 c2).
Proof.
  destruct (eq_dec op) as [->|]; [apply quiet_op_eq|].
  by apply calm_eval_op2; [typeclasses eauto|].
Qed.

Lemma quiet_continue_op c : quiet (continue_op contract_eq type_eq_noenv fuel initial_env c).
Proof.
  unfold continue_op. apply quiet_restack. intros l s r s' Hl.
  destruct l as [|[] l]; try done; try (apply vm_rel_set_stack; [by rewrite Hl|]).
  - apply quiet_eval_op1.
  - apply calm_ret.
  - apply quiet_eval_op2.
  - destruct (last pending); (apply vm_rel_set_stack; [by rewrite Hl|]).
    + apply calm_ret.
    + apply calm_eval_opn.
Qed.

End quiet.
