(* ===== verification/MachineTyping.v ===== *)
(** * One turn of the machine preserves its invariants

    The frames of the stack are the thunks under evaluation ([machine_ok]): the
    only operations that change either are entering a thunk, the update of the
    frames on the top of the stack and the reset, which are treated here; the
    rest is [quiet]. *)
From stdpp Require Import pretty sorting.
From Stdlib Require Import QArith.Qcanon.
From S2P Require Import Prelude IndexMap Values Records Make Ast Pattern TypeContracts LazyCache LazyCacheTheorems Closurize Merge EvalStack VM Op1 Subst Op2 EvalOps Machine VirtualMachine MachineInvariant.

Create HintDb keeps.

(** ** Frames and thunks *)

(** The heap [h] and the stack [l] agree on what is under evaluation: the frames
    are those of distinct thunks under evaluation, and each of the first [n]
    thunks that is under evaluation has its frame. (A copy made by a merge may
    be of a thunk under evaluation, without a frame of its own: only the thunks
    that were there at the start are counted.) *)
Record agree (n : nat) (h : Heap) (l : list Item) : Prop := {
  agree_heap : heap_ok h;
  agree_bound : n ≤ next h;
  agree_nodup : NoDup (frames l);
  agree_sound : ∀ t, t ∈ frames l → blackholed h t;
  agree_complete : ∀ t, t < n → blackholed h t → t ∈ frames l;
}.

Definition machine_ok (n : nat) (s : Vm) : Prop := agree n (vm_cache s) (vm_stack s).

Lemma blackholed_bound h t : heap_ok h → blackholed h t → t < next h.
Proof. intros Hh (d & Hd & _). by eapply heap_ok_lt. Qed.

Lemma agree_frames n h l l' : frames l' = frames l → agree n h l → agree n h l'.
Proof. intros Hf []. split; rewrite ?Hf; done. Qed.

Lemma agree_rel n h h' l : heap_rel h h' → agree n h l → agree n h' l.
Proof.
  intros Hr [Hh Hn Hd Hs Hc]. destruct (Hr Hh) as (Hh' & Hle & Hb). split; [done|lia|done| |].
  - intros t Ht. apply Hb; [|auto]. by eapply blackholed_bound; [|apply Hs].
  - intros t Ht Hbt. apply Hc; [done|]. by apply Hb; [lia|].
Qed.

Lemma vm_rel_ok P n s s' : vm_rel P s s' → machine_ok n s → machine_ok n s'.
Proof.
  intros (Hh & Hf & _) Hs. apply (agree_frames _ _ _ _ Hf). by apply (agree_rel _ _ _ _ Hh).
Qed.

Lemma blackholed_set h t d s :
  blackholed (set_data h t d) s ↔ if decide (s = t) then state d = Blackholed else blackholed h s.
Proof.
  unfold blackholed. simpl. destruct (decide (s = t)) as [->|].
  - rewrite lookup_insert_eq. naive_solver.
  - by rewrite lookup_insert_ne by done.
Qed.

Lemma agree_enter n h l t d :
  thunks h !! t = Some d → ¬ blackholed h t → agree n h l →
  agree n (set_data h t (with_state d Blackholed)) (UpdateIndexItem t :: l).
Proof.
  intros Ht Hnb [Hh Hn Hd Hs Hc]. split.
  - apply heap_ok_set; [done|by eapply heap_ok_lt].
  - done.
  - simpl. apply NoDup_cons. split; [|done]. intros Hin. by apply Hnb, Hs.
  - intros s Hin. apply blackholed_set. case_decide as Hst; [done|]. apply Hs.
    simpl in Hin. by apply elem_of_cons in Hin as [|].
  - intros s Hs' Hb. apply blackholed_set in Hb. simpl. apply elem_of_cons.
    case_decide; [by left|right]. auto.
Qed.

Lemma agree_leave n h l t d d' :
  thunks h !! t = Some d → state d' ≠ Blackholed → agree n h (UpdateIndexItem t :: l) →
  agree n (set_data h t d') l.
Proof.
  intros Ht Hd' [Hh Hn Hd Hs Hc]. simpl in *. apply NoDup_cons in Hd as [Hnin Hd]. split.
  - apply heap_ok_set; [done|by eapply heap_ok_lt].
  - done.
  - done.
  - intros s Hin. apply blackholed_set. case_decide as Hst; [by subst|]. apply Hs.
    by apply elem_of_cons; right.
  - intros s Hs' Hb. apply blackholed_set in Hb. case_decide; [done|].
    specialize (Hc s Hs' Hb). by apply elem_of_cons in Hc as [|].
Qed.

(** ** Entering a thunk *)

Lemma get_update_index_inv t h r h' :
  get_update_index t h = Done (r, h') →
  match r with
  | Ok None => heap_rel h h' ∧ ¬ blackholed h t
  | Ok (Some u) =>
      u = t ∧ ¬ blackholed h t
      ∧ ∃ d, thunks h !! t = Some d ∧ h' = set_data h t (with_state d Blackholed)
  | Err () => h' = h ∧ blackholed h t
  end.
Proof.
  revert r h'. change (wlp (get_update_index t) (λ r h', match r with
    | Ok None => heap_rel h h' ∧ ¬ blackholed h t
    | Ok (Some u) =>
        u = t ∧ ¬ blackholed h t
        ∧ ∃ d, thunks h !! t = Some d ∧ h' = set_data h t (with_state d Blackholed)
    | Err () => h' = h ∧ blackholed h t
    end) h).
  unfold get_update_index, thunk_state, should_update, borrow, set_evaluated, mk_update_frame.
  apply wlp_bind, wlp_bind, wlp_data. intros d Ht. apply wlp_ret.
  assert (Hb : blackholed h t ↔ state d = Blackholed).
  { unfold blackholed. rewrite Ht. naive_solver. }
  destruct (state d) eqn:Hs; wlp_steps; simplify_eq/=; rewrite ?andb_false_r in *;
    simplify_eq/=; try congruence; try naive_solver.
  split; [|naive_solver]. by apply (heap_rel_write h t d); [|rewrite Hs].
Qed.

Section enter.
Context (n : nat).

Lemma enter_cache_index_ok t s r s' :
  enter_cache_index t s = Done (r, s') → machine_ok n s → machine_ok n s'.
Proof.
  intros Hr Hs. unfold enter_cache_index in Hr.
  apply vm_bind_inv in Hr as [(u & s1 & H1 & Hr)|(e & H1 & _)].
  2: { by apply bind_Done in H1 as ([a h] & _ & [=]). }
  apply bind_Done in H1 as ([u' h1] & H1 & [= <- <-]). apply get_update_index_inv in H1.
  apply vm_bind_inv in Hr as [([] & s2 & H2 & Hr)|(e & H2 & ->)].
  - eapply vm_rel_ok; [by eapply (calm_in_cache (λ _, True) _ (steady_get t))|].
    destruct u' as [[u'|]|[]]; [| |done].
    + destruct H1 as (-> & Hb & d & Ht & ->). injection H2 as <-. by apply agree_enter.
    + destruct H1 as [H1 _]. injection H2 as <-. by apply (agree_rel _ _ _ _ H1).
  - destruct u' as [[]|[]]; try done. destruct H1 as [-> _]. by injection H2 as _ <-.
Qed.

(** Infinite recursion is reported exactly when the thunk is under evaluation. *)
Lemma enter_cache_index_loop t s :
  (∃ s', enter_cache_index t s = Done (Err InfiniteRecursion, s')) →
  blackholed (vm_cache s) t.
Proof.
  intros [s' Hr]. unfold enter_cache_index in Hr.
  apply vm_bind_inv in Hr as [(u & s1 & H1 & Hr)|(e & H1 & _)].
  2: { by apply bind_Done in H1 as ([a h] & _ & [=]). }
  apply bind_Done in H1 as ([u' h1] & H1 & [= <- <-]). apply get_update_index_inv in H1.
  apply vm_bind_inv in Hr as [([] & s2 & H2 & Hr)|(e & H2 & _)].
  - by apply bind_Done in Hr as ([a h] & _ & [=]).
  - destruct u' as [[]|[]]; [done..|]. by destruct H1.
Qed.

(** ** Leaving thunks *)

Lemma update_inv c t h u h' :
  update c t h = Done (u, h') → ∃ d, thunks h !! t = Some d ∧ h' = set_data h t (data_update d c).
Proof.
  unfold update, thunk_update, mbind, M_bind, data, write.
  destruct (thunks h !! t) as [d|]; simpl; [|done]. intros [= <- <-]. by exists d.
Qed.

Lemma update_frames_ok c l h l' h' :
  update_frames c l h = Done (l', h') → agree n h l →
  agree n h' l' ∧ ∃ ts, l = map UpdateIndexItem ts ++ l' ∧ items_is_top is_idx l' = false.
Proof.
  revert h. induction l as [|i l IH]; intros h Hu Hl.
  { injection Hu as <- <-. split; [done|by exists []]. }
  destruct i; try (injection Hu as <- <-; split; [done|by exists []]; fail).
  simpl in Hu. apply bind_Done in Hu as ([[] h1] & H1 & Hu).
  apply update_inv in H1 as (d & Ht & ->).
  destruct (IH _ Hu) as (Hl' & ts & -> & Htop); [by eapply agree_leave|].
  split; [done|]. by exists (uidx :: ts).
Qed.

Lemma update_at_indices_ok c s r s' :
  update_at_indices c s = Done (r, s') → machine_ok n s →
  r = Ok () ∧ machine_ok n s'
  ∧ ∃ ts, vm_stack s = map UpdateIndexItem ts ++ vm_stack s'
          ∧ items_is_top is_idx (vm_stack s') = false.
Proof.
  intros Hr Hs. unfold update_at_indices in Hr.
  apply vm_bind_inv in Hr as [(l & s1 & [= <- <-] & Hr)|(e & H1 & _)]; [|done].
  apply vm_bind_inv in Hr as [(l' & s1 & H1 & Hr)|(e & H1 & _)].
  2: { by apply bind_Done in H1 as ([a h] & _ & [=]). }
  apply bind_Done in H1 as ([l1 h1] & H1 & [= <- <-]). injection Hr as <- <-.
  apply update_frames_ok in H1 as [Hok Hex]; done.
Qed.

End enter.

(** ** The arms of the loop *)

Section arms.
Context (P : list Item → Prop) `{!StackProp P} `{Externals, IndexMapOps Ident}.
Context (initial_env : Environment).

Lemma calm_of_unbound {A} (m : Fresh (result A Ident)) : calm P (of_unbound m).
Proof. unfold of_unbound. calm_steps. Qed.
Hint Resolve calm_of_unbound : calm.

Lemma calm_annot_pending_contracts a : calm P (annot_pending_contracts a).
Proof. unfold annot_pending_contracts. calm_steps. Qed.
Hint Resolve calm_annot_pending_contracts : calm.

Lemma calm_with_pending_contracts f : calm P (with_pending_contracts f).
Proof. unfold with_pending_contracts. calm_steps. Qed.
Hint Resolve calm_with_pending_contracts : calm.

Lemma calm_step_let b body a env : calm P (step_let b body a env).
Proof. unfold step_let. calm_steps. Qed.
Lemma calm_step_opn op args env : calm P (step_opn op args env).
Proof. unfold step_opn. calm_steps. Qed.
Lemma calm_step_closurize v env : calm P (step_closurize v env).
Proof. unfold step_closurize. calm_steps. Qed.
Lemma calm_include_field env i : calm P (include_field initial_env env i).
Proof. unfold include_field. calm_steps. Qed.
Lemma calm_insert_dyn_field renv acc p : calm P (insert_dyn_field renv acc p).
Proof. unfold insert_dyn_field. calm_steps. Qed.
Hint Resolve calm_include_field calm_insert_dyn_field : calm.

Lemma calm_step_rec_record d env : calm P (step_rec_record initial_env d env).
Proof. unfold step_rec_record. calm_steps. Qed.
Lemma calm_step_annotated a v env : calm P (step_annotated a v env).
Proof. unfold step_annotated. calm_steps. Qed.

End arms.

#[export] Hint Resolve calm_step_let calm_step_opn calm_step_closurize calm_step_rec_record
  calm_step_annotated : calm.

Section machine.
Context `{Externals, IndexMapOps Ident}.
Context (contract_eq : Heap → NickelValue → Environment → NickelValue → Environment → bool).
Context (type_eq_noenv : Heap → Typ → Typ → bool).
Context (fuel : nat) (initial_env : Environment) (n : nat).
Local Notation step := (step contract_eq type_eq_noenv fuel initial_env).
Local Notation continue_op := (continue_op contract_eq type_eq_noenv fuel initial_env).
Local Notation step_whnf := (step_whnf contract_eq type_eq_noenv fuel initial_env).
Local Notation step_sealed := (step_sealed contract_eq type_eq_noenv fuel initial_env).

(** ** The frames and the thunks agree *)

(** Computations that keep the invariant, errors included. *)
Definition keeps {A} (m : VM A) : Prop :=
  ∀ s r s', m s = Done (r, s') → machine_ok n s → machine_ok n s'.

Lemma keeps_quiet {A} (m : VM A) : quiet m → keeps m.
Proof. intros Hm s r s' Hr. by eapply vm_rel_ok, Hm. Qed.

Lemma keeps_calm {A} (m : VM A) : (∀ P, StackProp P → calm P m) → keeps m.
Proof. intros Hm. apply keeps_quiet, Hm, _. Qed.

Lemma keeps_bind {A B} (m : VM A) (f : A → VM B) : keeps m → (∀ a, keeps (f a)) → keeps (m ≫= f).
Proof.
  intros Hm Hf s r s' Hr Hs. apply vm_bind_inv in Hr as [(a & s1 & H1 & Hr)|(e & H1 & _)].
  - eapply Hf; [done|]. by eapply Hm.
  - by eapply Hm.
Qed.

Lemma keeps_update_at_indices c : keeps (update_at_indices c).
Proof. intros s r s' Hr Hs. by eapply update_at_indices_ok. Qed.

Lemma keeps_enter t : keeps (enter_cache_index t).
Proof. intros s r s'. apply enter_cache_index_ok. Qed.

Lemma quiet_get_stack : quiet get_stack.
Proof. by intros s r s' [= <- <-]. Qed.

Lemma quiet_step_str_chunks chunks env : quiet (step_str_chunks chunks env).
Proof.
  unfold step_str_chunks. destruct (last chunks) as [chunk|]; [|apply calm_ret].
  destruct (match chunk with ChunkLiteral s => (VString s, 0) | ChunkExpr e indent => (e, indent) end).
  apply quiet_bind; [apply calm_indent_u32|]. intros.
  apply quiet_bind; [apply quiet_push_all, frames_chunks|]. intros.
  apply quiet_bind; [by apply quiet_push|]. intros. apply calm_ret.
Qed.

Lemma keeps_ret {A} (a : A) : keeps (mret a).
Proof. apply keeps_quiet, calm_ret. Qed.

Hint Resolve keeps_bind keeps_ret keeps_update_at_indices keeps_enter quiet_get_stack
  quiet_step_str_chunks quiet_continue_op : keeps.
Hint Extern 5 (keeps _) => apply keeps_quiet; solve [eauto with keeps | unfold quiet; calm_steps] : keeps.

Ltac keeps_steps :=
  repeat (intros; match goal with
  | |- keeps (_ ≫= _) => apply keeps_bind
  | |- keeps (match ?x with _ => _ end) => destruct x
  | |- keeps (if ?x then _ else _) => destruct x
  | |- keeps _ => solve [eauto with keeps]
  end).

Lemma keeps_step_whnf c : keeps (step_whnf c).
Proof. unfold Machine.step_whnf. keeps_steps. Qed.

Lemma keeps_step_sealed c inner l : keeps (step_sealed c inner l).
Proof. unfold Machine.step_sealed. keeps_steps. Qed.
Hint Resolve keeps_step_whnf keeps_step_sealed : keeps.

Lemma keeps_step c : keeps (step c).
Proof. unfold Machine.step. keeps_steps. Qed.

End machine.

(** * One turn of the machine keeps the stack well-formed

    [step_typed]: from a well-formed configuration, the next one is well-formed;
    and when the machine stops with a value, the value is a weak head normal form
    and the stack is empty. *)

(** The values the machine stops at. *)
Definition is_result (v : NickelValue) : bool :=
  match v with VTerm t => term_is_whnf t | _ => is_whnf v end.

Local Notation items_is_top := (@items_is_top Heap CBNCache).

Section typing.
Context `{Externals, IndexMapOps Ident}.
Context (contract_eq : Heap → NickelValue → Environment → NickelValue → Environment → bool).
Context (type_eq_noenv : Heap → Typ → Typ → bool).
Context (fuel : nat) (initial_env : Environment).
Local Notation step := (step contract_eq type_eq_noenv fuel initial_env).
Local Notation continue_op := (continue_op contract_eq type_eq_noenv fuel initial_env).
Local Notation step_whnf := (step_whnf contract_eq type_eq_noenv fuel initial_env).
Local Notation step_sealed := (step_sealed contract_eq type_eq_noenv fuel initial_env).

(** What a turn gives. *)
Definition typed (o : Closure + Closure) (l : list Item) : Prop :=
  match o with
  | inl c => wf_config c l
  | inr c => l = [] ∧ is_result (clos_value c) = true
  end.

Lemma wf_frames ts l : wf_stack (map UpdateIndexItem ts ++ l) → wf_stack l.
Proof. induction ts as [|t ts IH]; simpl; [done|]. intros Hl. apply IH. by apply wf_pop in Hl. Qed.

Lemma update_at_indices_wf c s r s' :
  update_at_indices c s = Done (r, s') → wf_stack (vm_stack s) → wf_stack (vm_stack s').
Proof.
  intros Hr Hs. unfold update_at_indices in Hr.
  apply vm_bind_inv in Hr as [(l & s1 & [= <- <-] & Hr)|(e & H1 & _)]; [|done].
  apply vm_bind_inv in Hr as [(l' & s1 & H1 & Hr)|(e & H1 & _)].
  2: { by apply bind_Done in H1 as ([a h] & _ & [=]). }
  apply bind_Done in H1 as ([l1 h1] & H1 & [= <- <-]). injection Hr as <- <-. simpl.
  revert Hs H1. generalize (vm_cache s). generalize (vm_stack s) as l.
  intros l. induction l as [|i l IH]; intros h Hl Hu; [by injection Hu as <- <-|].
  destruct i; try (by injection Hu as <- <-). simpl in Hu.
  apply bind_Done in Hu as ([[] h2] & _ & Hu). apply (IH h2); [|done]. by apply wf_pop in Hl.
Qed.

Lemma enter_cache_index_wf t s c s' :
  enter_cache_index t s = Done (Ok c, s') → wf_stack (vm_stack s) → wf_stack (vm_stack s').
Proof.
  intros Hr Hs. unfold enter_cache_index in Hr.
  apply vm_bind_Ok in Hr as (u & s1 & H1 & Hr). apply bind_Done in H1 as ([a h] & _ & [= <- <-]).
  apply vm_bind_Ok in Hr as ([] & s2 & H2 & Hr). apply bind_Done in Hr as ([a' h'] & _ & [= <- <-]).
  destruct a as [[]|[]]; [| |done]; injection H2 as <-; simpl; [by apply wf_item|done].
Qed.

Lemma continue_op_settles : ∀ c, settles wf_stack (continue_op c).
Proof.
  intros c s c' s' Hl Hr. unfold Machine.continue_op in Hr.
  apply vm_bind_Ok in Hr as (l & s1 & [= <- <-] & Hr).
  destruct (vm_stack s) as [|[] l] eqn:Hst; try done.
  - apply vm_bind_Ok in Hr as ([] & s1 & [= <-] & Hr).
    destruct (chunks_dec op) as [->|Hop].
    + by eapply op_chunks_concat_settles; [|exact Hr].
    + eapply calm_settles; [by apply calm_eval_op1; [typeclasses eauto|]| |exact Hr].
      eapply wf_pop, Hl; [done|]. by destruct op.
  - apply vm_bind_Ok in Hr as ([] & s1 & [= <-] & [= <- <-]). apply wf_stack_config. simpl.
    destruct (eq_dec op) as [->|Hop].
    + apply wf_eqs_second. by eapply wf_pop_eq_first.
    + apply wf_item; [done|]. eapply wf_pop, Hl; [done|]. by destruct op.
  - apply vm_bind_Ok in Hr as ([] & s1 & [= <-] & Hr).
    destruct (eq_dec op) as [->|Hop].
    + eapply op_eq_settles; [|exact Hr]. by eapply wf_pop_eq_second.
    + eapply calm_settles; [by apply calm_eval_op2; [typeclasses eauto|]| |exact Hr].
      eapply wf_pop, Hl; [done|]. by destruct op.
  - apply wf_pop in Hl; [|done..]. destruct (last pending).
    + apply vm_bind_Ok in Hr as ([] & s1 & [= <-] & [= <- <-]). by apply wf_stack_config, wf_item.
    + apply vm_bind_Ok in Hr as ([] & s1 & [= <-] & Hr).
      eapply calm_settles; [apply calm_eval_opn| |exact Hr]. done.
Qed.

Lemma wf_stack_empty l :
  wf_stack l → items_is_top is_idx l = false → items_is_top is_cont l = false →
  (∀ c l', l ≠ ArgItem c :: l') → (∀ t l', l ≠ TrackedArgItem t :: l') → l = [].
Proof.
  intros Hl Hi Hc Ha Ht. destruct l as [|i l]; [done|]. apply wf_stack_top in Hl.
  destruct i; naive_solver.
Qed.

Lemma vm_pop_arg_none s s' :
  vm_pop_arg s = Done (Ok None, s') →
  s' = s ∧ (∀ c l', vm_stack s ≠ ArgItem c :: l') ∧ (∀ t l', vm_stack s ≠ TrackedArgItem t :: l').
Proof.
  intros Hr. apply bind_Done in Hr as ([[o l] h] & Hp & [= -> <-]). unfold items_pop_arg in Hp.
  destruct s as [h0 l0 tr fr]; simpl in *. destruct l0 as [|[] l0]; simplify_eq/=; try done.
  by apply bind_Done in Hp as ([c h'] & _ & [=]).
Qed.

Lemma vm_pop_arg_as_idx_none s s' :
  vm_pop_arg_as_idx s = Done (Ok None, s') →
  s' = s ∧ (∀ c l', vm_stack s ≠ ArgItem c :: l') ∧ (∀ t l', vm_stack s ≠ TrackedArgItem t :: l').
Proof.
  intros Hr. apply bind_Done in Hr as ([[o l] h] & Hp & [= -> <-]). unfold items_pop_arg_as_idx in Hp.
  destruct s as [h0 l0 tr fr]; simpl in *. destruct l0 as [|[] l0]; simplify_eq/=; try done.
Qed.

Lemma step_whnf_typed c s o s' :
  is_result (clos_value c) = true →
  wf_stack (vm_stack s) → step_whnf c s = Done (Ok o, s') → typed o (vm_stack s').
Proof.
  intros Hc Hl Hr. unfold Machine.step_whnf in Hr.
  apply vm_bind_Ok in Hr as (l & s1 & [= <- <-] & Hr).
  destruct (items_is_top is_idx (vm_stack s)) eqn:Hidx.
  - apply vm_bind_Ok in Hr as (u & s1 & H1 & [= <- <-]).
    apply wf_stack_config. by eapply update_at_indices_wf.
  - destruct (items_is_top is_cont (vm_stack s)) eqn:Hcont.
    + apply vm_bind_Ok in Hr as (c' & s1 & H1 & [= <- <-]). by eapply continue_op_settles.
    + apply vm_bind_Ok in Hr as ([arg|] & s1 & H1 & Hr); [done|]. injection Hr as <- <-.
      apply vm_pop_arg_none in H1 as (-> & ? & ?). split; [|done]. by apply wf_stack_empty.
Qed.

Lemma step_sealed_wf c inner l s c' s' :
  wf_stack (vm_stack s) → step_sealed c inner l s = Done (Ok c', s') → wf_config c' (vm_stack s').
Proof.
  intros Hl Hr. unfold Machine.step_sealed in Hr.
  apply vm_bind_Ok in Hr as (u & s1 & H1 & Hr). apply update_at_indices_wf in H1; [|done].
  apply vm_bind_Ok in Hr as (l1 & s2 & [= <- <-] & Hr).
  destruct (items_peek_sealed_cont _).
  - by eapply continue_op_settles.
  - injection Hr as <- <-. by apply wf_stack_config.
  - by eapply calm_settles; [apply calm_throw_blame| |].
Qed.

Lemma step_str_chunks_wf chunks env s c s' :
  wf_stack (vm_stack s) → step_str_chunks chunks env s = Done (Ok c, s') →
  wf_config c (vm_stack s').
Proof.
  intros Hl Hr. unfold step_str_chunks in Hr. destruct (last chunks) as [chunk|].
  2: { injection Hr as <- <-. by apply wf_stack_config. }
  destruct (match chunk with ChunkLiteral s => (VString s, 0) | ChunkExpr e indent => (e, indent) end).
  apply vm_bind_Ok in Hr as (i & s1 & H1 & Hr). apply (calm_indent_u32 wf_stack) in H1 as (_&_&H1).
  apply vm_bind_Ok in Hr as ([] & s2 & [= <-] & Hr).
  apply vm_bind_Ok in Hr as ([] & s3 & [= <-] & [= <- <-]). simpl. apply wf_chunks.
  rewrite <- map_rev, drop_chunks_app, wf_drop_chunks; auto.
Qed.

Lemma enter_wf t s (o : Closure + Closure) s' :
  wf_stack (vm_stack s) → (c ← enter_cache_index t; mret (inl c)) s = Done (Ok o, s') → typed o (vm_stack s').
Proof.
  intros Hl Hr. apply vm_bind_Ok in Hr as (c & s1 & H1 & [= <- <-]).
  apply wf_stack_config. by eapply enter_cache_index_wf.
Qed.

Lemma step_fun_typed arg body env s o s' :
  wf_stack (vm_stack s) → step (mkClosure (VTerm (TFun arg body)) env) s = Done (Ok o, s') →
  typed o (vm_stack s').
Proof.
  intros Hl Hr. unfold Machine.step in Hr. simpl in Hr.
  apply vm_bind_Ok in Hr as (l & s1 & [= <- <-] & Hr).
  destruct (items_is_top is_idx (vm_stack s) || items_is_top is_cont (vm_stack s)) eqn:Htop.
  - by eapply step_whnf_typed; [| |exact Hr].
  - apply orb_false_iff in Htop as [Hidx Hcont].
    apply vm_bind_Ok in Hr as ([idx|] & s1 & H1 & Hr); injection Hr as <- <-.
    + apply (calm_pop_arg_as_idx wf_stack) in H1 as (_&_&H1). by apply wf_stack_config, H1.
    + apply vm_pop_arg_as_idx_none in H1 as (-> & ? & ?). split; [|done]. by apply wf_stack_empty.
Qed.

(** The turns that follow the operations of the machine that are calm. *)
Lemma step_calm_typed (m : VM Closure) s o s' :
  calm wf_stack m → wf_stack (vm_stack s) →
  (c ← m; mret (inl c)) s = Done (Ok o, s') → typed o (vm_stack s').
Proof.
  intros Hm Hl Hr. apply vm_bind_Ok in Hr as (c & s1 & H1 & [= <- <-]).
  by eapply calm_settles in H1.
Qed.

Lemma step_op1_typed op arg env s o s' :
  wf_config (mkClosure (VTerm (TOp1 op arg)) env) (vm_stack s) →
  step (mkClosure (VTerm (TOp1 op arg)) env) s = Done (Ok o, s') → typed o (vm_stack s').
Proof.
  intros Hl Hr. unfold Machine.step in Hr. simpl in Hr.
  apply vm_bind_Ok in Hr as (c & s1 & H1 & [= <- <-]).
  apply vm_bind_Ok in H1 as ([] & s2 & [= <-] & [= <- <-]). apply wf_stack_config. simpl.
  destruct (chunks_dec op) as [->|Hop]; [done|]. apply wf_item; [done|].
  unfold wf_config in Hl. simpl in Hl. by destruct op.
Qed.

Lemma step_op2_typed op arg1 arg2 env s o s' :
  wf_config (mkClosure (VTerm (TOp2 op arg1 arg2)) env) (vm_stack s) →
  step (mkClosure (VTerm (TOp2 op arg1 arg2)) env) s = Done (Ok o, s') → typed o (vm_stack s').
Proof.
  intros Hl Hr. unfold Machine.step in Hr. simpl in Hr.
  apply vm_bind_Ok in Hr as (c & s1 & H1 & [= <- <-]).
  apply vm_bind_Ok in H1 as ([] & s2 & [= <-] & [= <- <-]). apply wf_stack_config. simpl.
  destruct (eq_dec op) as [->|Hop]; [by apply wf_eqs_first|]. apply wf_item; [done|].
  unfold wf_config in Hl. simpl in Hl. by destruct op.
Qed.

(** A turn from a well-formed configuration. *)
Lemma step_typed c s o s' :
  wf_config c (vm_stack s) → step c s = Done (Ok o, s') → typed o (vm_stack s').
Proof.
  intros Hl Hr. destruct c as [v env]. destruct v as [| | | | | | |t| | | | | |];
    try (by eapply step_whnf_typed; [| |exact Hr]); [by eapply enter_wf; [exact Hl|exact Hr]|].
  destruct t; try (eapply step_op1_typed; [exact Hl|exact Hr]);
    try (eapply step_op2_typed; [exact Hl|exact Hr]);
    unfold Machine.step in Hr; simpl in Hr;
    try (by eapply step_calm_typed; [|exact Hl|exact Hr]; calm_steps).
  - apply vm_bind_Ok in Hr as (c & s1 & H1 & [= <- <-]). by eapply step_str_chunks_wf.
  - eapply step_fun_typed; [exact Hl|exact Hr].
  - apply vm_bind_Ok in Hr as (c & s1 & H1 & [= <- <-]).
    apply vm_bind_Ok in H1 as (idx & s2 & H2 & H1).
    apply (calm_of_result wf_stack) in H2 as (_&_&H2).
    apply wf_stack_config. eapply enter_cache_index_wf; eauto.
  - apply vm_bind_Ok in Hr as (c & s1 & H1 & [= <- <-]). by eapply step_sealed_wf.
  - by destruct i.
  - destruct (import_get file); [|done]. injection Hr as <- <-. by apply wf_stack_config.
  - done.
  - done.
Qed.

End typing.
