(* ===== verification/MachineTheorems.v ===== *)
(** * Theorems on the abstract machine

    What holds in every state that the machine reaches, what an evaluation leaves
    behind whether it succeeds or fails, when infinite recursion is reported, and
    the behaviours of the machine that do not agree with its intent. *)
From stdpp Require Import pretty sorting.
From Stdlib Require Import QArith.Qcanon.
From S2P Require Import Prelude IndexMap Values Records Make Ast Pattern TypeContracts LazyCache LazyCacheTheorems ContractEq Closurize Merge EvalStack VM Op1 Subst Op2 EvalOps Machine VirtualMachine MachineInvariant MachineTyping.

(** A machine that is not evaluating anything: the stack is empty and none of the
    first [n] thunks is under evaluation. *)
Record idle (n : nat) (s : Vm) : Prop := {
  idle_heap : heap_ok (vm_cache s);
  idle_bound : n ≤ next (vm_cache s);
  idle_stack : vm_stack s = [];
  idle_thunks : ∀ t, t < n → ¬ blackholed (vm_cache s) t;
}.

(** ** The machine that the examples run on *)

(** Stubs for what is outside the machine: the examples do not call it. *)
Definition no_externals : Externals := {|
  show_number _ := ""%string; number_to_sci _ := ""%string; parse_number_sci _ := None;
  float_op1 _ n := Ok n; float_op2 _ n _ := Ok n; rational_pow n _ := Done n;
  str_trim s := s; str_characters s := [s]; str_uppercase s := s; str_lowercase s := s;
  str_length := String.length; str_split s _ := [s]; str_contains _ _ := false;
  str_replace s _ _ := s; str_substring s _ _ := Ok s; regex_new s := Ok s;
  regex_is_match _ _ := false; regex_find_all _ _ := []; regex_replace _ s _ := s;
  digest _ _ := []; base64_encode _ s := s; base64_decode _ s := Ok s;
  serialize_validate _ _ := Ok (); serialize_to_string _ _ := Ok ""%string;
  from_json _ := Ok VNull; from_toml _ := Ok VNull; load_yaml _ _ := Ok VNull;
  hash_order := sorted_order;
  label_eq _ _ := false; import_get _ := None; show_file _ := ""%string |}.

#[local] Existing Instance no_externals.
#[local] Existing Instance assoc_index_map.

Definition vm_new : Vm := mkVm heap_empty [] [] 0.

Lemma idle_new : idle 0 vm_new.
Proof. split; [done|done|done|lia]. Qed.

Local Notation no_contract_eq := (λ (_ : Heap) (_ : NickelValue) (_ : Environment) (_ : NickelValue) (_ : Environment), false).
Local Notation no_type_eq := (λ (_ : Heap) (_ _ : Typ), false).

Definition run_machine (fuel : nat) (v : NickelValue) : outcome (result Closure EvalErrorKind * Vm) :=
  eval_closure no_contract_eq no_type_eq fuel ∅ fuel (to_closure v) vm_new.

(** Surface syntax for the examples. *)
Definition num (z : Z) : NickelValue := VNumber (number_of_Z z).
Definition obj (l : list (Ident * NickelValue)) : NickelValue :=
  VTerm (TRecRecord (mkRecRecordData
    (mkRecordData (map (λ p, (p.1, field_from_value p.2)) l) attrs_default None) [] []
    (Some (mkRecordDeps (map (λ p, (p.1, Known ∅)) l) [])) false)).
Definition let_in (rec_ : bool) (x : Ident) (v body : NickelValue) : NickelValue :=
  VTerm (TLet [(x, v)] body (mkLetAttrs Normal rec_)).
Definition access (v : NickelValue) (f : Ident) : NickelValue := op1 (RecordAccess f) v.
Definition merged (v1 v2 : NickelValue) : NickelValue :=
  op2 (MergeOp (mkMergeLabel MergeStandard)) v1 v2.
Definition seq_then (v1 v2 : NickelValue) : NickelValue := app (op1 Seq v1) v2.

(** ** Reachable states *)

Section machine.
Context `{Externals, IndexMapOps Ident}.
Context (contract_eq : Heap → NickelValue → Environment → NickelValue → Environment → bool).
Context (type_eq_noenv : Heap → Typ → Typ → bool).
Context (subst_fuel : nat) (initial_env : Environment).
Local Notation step := (step contract_eq type_eq_noenv subst_fuel initial_env).
Local Notation eval_closure := (eval_closure contract_eq type_eq_noenv subst_fuel initial_env).

(** What the loop goes through, from the closure [c0] in the state [s0]. *)
Inductive reachable (c0 : Closure) (s0 : Vm) : Closure → Vm → Prop :=
| reach_start : reachable c0 s0 c0 s0
| reach_step c s c' s' :
    reachable c0 s0 c s → step c s = Done (Ok (inl c'), s') → reachable c0 s0 c' s'.

Lemma idle_ok n s : idle n s → machine_ok n s.
Proof.
  intros [Hh Hn Hl Ht]. unfold machine_ok. rewrite Hl.
  split; [done|done|by apply NoDup_nil| |]; simpl; [intros t Hin|naive_solver].
  by apply elem_of_nil in Hin.
Qed.

Lemma idle_wf n c s : idle n s → wf_config c (vm_stack s).
Proof. intros Hs. rewrite (idle_stack _ _ Hs). apply wf_stack_config, wf_nil. Qed.

Lemma reachable_ok n c0 s0 c s : idle n s0 → reachable c0 s0 c s → machine_ok n s.
Proof.
  intros Hs. induction 1 as [|c s c' s' Hr IH Hstep]; [by apply idle_ok|]. by eapply keeps_step.
Qed.

Lemma reachable_wf n c0 s0 c s : idle n s0 → reachable c0 s0 c s → wf_config c (vm_stack s).
Proof.
  intros Hs. induction 1 as [|c s c' s' Hr IH Hstep]; [by eapply idle_wf|].
  by apply step_typed in Hstep.
Qed.

Lemma enter_blackholed t s r s' :
  blackholed (vm_cache s) t → enter_cache_index t s = Done (r, s') →
  r = Err InfiniteRecursion ∧ s' = s.
Proof.
  intros Hb Hr. unfold enter_cache_index in Hr.
  apply vm_bind_inv in Hr as [(u & s1 & H1 & Hr)|(e & H1 & _)].
  2: { by apply bind_Done in H1 as ([a h] & _ & [=]). }
  apply bind_Done in H1 as ([u' h1] & H1 & [= <- <-]). apply get_update_index_inv in H1.
  destruct u' as [[u'|]|[]]; [by destruct H1 as (_ & ? & _)|by destruct H1 as (_ & ?)|].
  destruct H1 as [-> _]. injection Hr as <- <-. by destruct s.
Qed.

(** The loop from any well-formed configuration. *)
Lemma eval_closure_inv n fuel c s r s' :
  eval_closure fuel c s = Done (r, s') → machine_ok n s → wf_config c (vm_stack s) →
  machine_ok n s' ∧ ∀ c', r = Ok c' → vm_stack s' = [] ∧ is_result (clos_value c') = true.
Proof.
  revert c s. induction fuel as [|fuel IH]; intros c s Hr Hok Hwf; [done|]. simpl in Hr.
  apply vm_bind_inv in Hr as [(o & s1 & H1 & Hr)|(e & H1 & ->)].
  - assert (machine_ok n s1) by by eapply keeps_step. apply step_typed in H1; [|done].
    destruct o as [c1|c1]; [by eapply IH|]. injection Hr as <- <-. split; [done|].
    by intros c' [= <-].
  - split; [by eapply keeps_step|done].
Qed.

Lemma reset_idle n s :
  machine_ok n s → ∃ s', reset s = Done (Ok (), s') ∧ idle n s'.
Proof.
  intros Hs. unfold reset.
  assert (∃ h, @items_unwind Heap CBNCache (vm_stack s) (vm_cache s) = Done h ∧ agree n h []) as (h & -> & Hh).
  { unfold machine_ok in Hs. generalize dependent (vm_cache s).
    induction (vm_stack s) as [|i l IH]; intros h Hs; [by exists h|].
    destruct i as [| | |uidx| | | | | |]; 
      try (refine (IH h (agree_frames n h _ l _ Hs)); reflexivity).
    destruct (agree_sound _ _ _ Hs uidx) as (d & Hd & _); [by apply elem_of_cons; left|].
    destruct (IH (set_data h uidx (with_state d Suspended))) as (h' & Hh' & ?);
      [by eapply agree_leave|].
    exists h'. split; [|done]. simpl. unfold reset_state, mbind, M_bind, data, write.
    rewrite Hd. simpl. done. }
  eexists. split; [reflexivity|]. destruct Hh as [? ? _ _ Hc]. split; simpl; [done|done|done|].
  intros t Ht Hb. specialize (Hc t Ht Hb). by apply elem_of_nil in Hc.
Qed.

Lemma ok_idle n s : machine_ok n s → vm_stack s = [] → idle n s.
Proof.
  intros [Hh Hn Hd Hs Hc] Hl. split; [done|done|done|]. intros t Ht Hb.
  specialize (Hc t Ht Hb). rewrite Hl in Hc. by apply elem_of_nil in Hc.
Qed.

(** C4: the thunks under evaluation are the ones whose update frames are on the
    stack: in every state the machine reaches from an idle one, the frames of the
    stack are those of distinct thunks, all under evaluation, and every thunk of
    the start that is under evaluation has its frame on the stack, so that it
    will be updated by the value computed, or reset. *)
Theorem frames_are_under_evaluation (n : nat) (c0 c : Closure) (s0 s : Vm)
    (Hidle : idle n s0) (Hr : reachable c0 s0 c s) :
  NoDup (frames (vm_stack s))
  ∧ (∀ t, t ∈ frames (vm_stack s) → blackholed (vm_cache s) t)
  ∧ (∀ t, t < n → blackholed (vm_cache s) t → t ∈ frames (vm_stack s)).
Proof. by destruct (reachable_ok _ _ _ _ _ Hidle Hr) as [_ _ ? ? ?]. Qed.

(** C5: the stack is well formed in every state that the machine reaches: the
    pending equalities lie right below the continuation of an equality, and the
    accumulator and the chunks of an interpolated string right below the
    continuation that concatenates them, so that no evaluation takes the items
    of another, and a turn that ends the evaluation finds the stack empty. *)
Theorem stack_stays_well_formed (n : nat) (c0 c : Closure) (s0 s : Vm)
    (Hidle : idle n s0) (Hr : reachable c0 s0 c s) :
  wf_config c (vm_stack s)
  ∧ ∀ c' s', step c s = Done (Ok (inr c'), s') →
      vm_stack s' = [] ∧ is_result (clos_value c') = true.
Proof.
  pose proof (reachable_wf _ _ _ _ _ Hidle Hr) as Hwf. split; [done|].
  intros c' s' Hs. by apply step_typed in Hs.
Qed.

(** C6: an evaluation that succeeds has finished everything it started: the
    value is a weak head normal form, the stack is empty, and no thunk of the
    start is left under evaluation. *)
Theorem evaluation_completes (n fuel : nat) (c c' : Closure) (s s' : Vm)
    (Hidle : idle n s) (Hr : eval_closure fuel c s = Done (Ok c', s')) :
  is_result (clos_value c') = true ∧ idle n s'.
Proof.
  apply (eval_closure_inv n) in Hr as [Hok Hres]; [|by apply idle_ok|by eapply idle_wf].
  destruct (Hres c' eq_refl) as [Hl ?]. split; [done|]. by apply ok_idle.
Qed.

(** C7: whatever the error an evaluation stops on, resetting the machine
    succeeds and makes it idle: the thunks whose evaluation was interrupted can
    be evaluated again. *)
Theorem reset_after_error (n fuel : nat) (c : Closure) (e : EvalErrorKind) (s s' : Vm)
    (Hidle : idle n s) (Hr : eval_closure fuel c s = Done (Err e, s')) :
  ∃ s'', reset s' = Done (Ok (), s'') ∧ idle n s''.
Proof.
  apply (eval_closure_inv n) in Hr as [Hok _]; [|by apply idle_ok|by eapply idle_wf].
  by apply reset_idle.
Qed.

(** C8: infinite recursion is reported exactly on the thunks under evaluation.
    In a state that the machine reaches, entering a thunk whose frame is on the
    stack cannot succeed: it reports an infinite recursion and changes nothing;
    and entering a thunk of the start reports an infinite recursion only when
    its frame is on the stack. *)
Theorem infinite_recursion_exact (n : nat) (c0 c : Closure) (s0 s : Vm) (t : CacheIndex)
    (Hidle : idle n s0) (Hr : reachable c0 s0 c s) :
  (∀ r s', t ∈ frames (vm_stack s) → enter_cache_index t s = Done (r, s') →
     r = Err InfiniteRecursion ∧ s' = s)
  ∧ (∀ s', t < n → enter_cache_index t s = Done (Err InfiniteRecursion, s') →
       t ∈ frames (vm_stack s)).
Proof.
  destruct (reachable_ok _ _ _ _ _ Hidle Hr) as [_ _ _ Hs Hc]. split.
  - intros r s' Hin He. exact (enter_blackholed t s r s' (Hs t Hin) He).
  - intros s' Ht He. apply Hc; [done|]. apply enter_cache_index_loop. eauto.
Qed.

(** ** Permissive evaluation *)

Lemma try_inv {A} (m : VM A) s r s' : try_ m s = Done (r, s') → ∃ r0, r = Ok r0 ∧ m s = Done (r0, s').
Proof. intros Hr. apply bind_Done in Hr as ([r0 s1] & Hm & [= <- <-]). eauto. Qed.

Lemma collect_errors_idle n {A} (f : A → VM (list EvalErrorKind)) l :
  (∀ a s r s', f a s = Done (r, s') → idle n s → (∃ es, r = Ok es) ∧ idle n s') →
  ∀ s r s', collect_errors f l s = Done (r, s') → idle n s → (∃ es, r = Ok es) ∧ idle n s'.
Proof.
  intros Hf. induction l as [|a l IH]; intros s r s' Hr Hs.
  { injection Hr as <- <-. eauto. }
  simpl in Hr. apply vm_bind_inv in Hr as [(es & s1 & H1 & Hr)|(e & H1 & ->)].
  - apply Hf in H1 as [_ H1]; [|done].
    apply vm_bind_inv in Hr as [(es' & s2 & H2 & Hr)|(e & H2 & ->)].
    + injection Hr as <- <-. split; [eauto|]. by apply IH in H2 as [_ ?].
    + by apply IH in H2 as [[? [=]] _].
  - by apply Hf in H1 as [[? [=]] _].
Qed.

(** Permissive evaluation never fails and leaves the machine idle: it
    returns the list of the errors, whatever they are, and every thunk of the
    start whose evaluation an error interrupted can be evaluated again. *)
Theorem eval_permissive_recovers (n limit : nat) (v : NickelValue) (s s' : Vm)
    (r : result (list EvalErrorKind) EvalErrorKind)
    (Hidle : idle n s)
    (Hr : eval_permissive contract_eq type_eq_noenv subst_fuel initial_env limit v s = Done (r, s')) :
  (∃ es, r = Ok es) ∧ idle n s'.
Proof.
  revert v s r s' Hidle Hr. induction limit as [|limit IH]; intros v s r s' Hs Hr.
  { injection Hr as <- <-. eauto. }
  simpl in Hr. apply vm_bind_inv in Hr as [(r0 & s1 & H1 & Hr)|(e & H1 & _)].
  2: { by apply try_inv in H1 as (? & [=] & _). }
  apply try_inv in H1 as (? & [= <-] & H1). unfold eval in H1.
  apply vm_bind_inv in H1 as [(c & s2 & H1 & [= <- <-])|(e & H1 & ->)].
  - apply (eval_closure_inv n) in H1 as [Hok Hres]; [|by apply idle_ok|by eapply idle_wf].
    assert (Hs2 : idle n s2) by (apply ok_idle; [done|by apply (Hres c)]).
    destruct (clos_value c) as [| | |[|d]|[|rd]| | | | |tag [arg|]| | | |];
      try (injection Hr as <- <-; eauto; fail).
    + by eapply (collect_errors_idle n); [|exact Hr|done]; eauto.
    + eapply (collect_errors_idle n); [|exact Hr|done]. intros [id f] s3 r3 s3' H3 Hs3. simpl in H3.
      destruct (value_with_pending_contracts f); [by eapply IH; [|exact H3]|]. injection H3 as <- <-. eauto.
    + by eapply IH; [|exact Hr].
  - apply (eval_closure_inv n) in H1 as [Hok _]; [|by apply idle_ok|by eapply idle_wf].
    apply reset_idle in Hok as (s2 & Hreset & Hs2).
    apply vm_bind_inv in Hr as [([] & s3 & H3 & Hr)|(e' & H3 & _)]; rewrite Hreset in H3.
    + injection H3 as <-. injection Hr as <- <-. eauto.
    + done.
Qed.

End machine.

(** ** The theorems on programs *)

Local Notation step1 := (step no_contract_eq no_type_eq 300 ∅).

(** The first turns of an evaluation. *)
Fixpoint turns (k : nat) (c : Closure) (s : Vm) : option (Closure * Vm) :=
  match k with
  | 0 => Some (c, s)
  | S k' =>
      match step1 c s with Done (Ok (inl c'), s') => turns k' c' s' | _ => None end
  end.

Lemma turns_reachable k c0 s0 c s c' s' :
  reachable no_contract_eq no_type_eq 300 ∅ c0 s0 c s → turns k c s = Some (c', s') →
  reachable no_contract_eq no_type_eq 300 ∅ c0 s0 c' s'.
Proof.
  revert c s. induction k as [|k IH]; intros c s Hr Ht; simpl in Ht; [by simplify_eq|].
  destruct (step1 c s) as [[[[c1|]|] s1]| |] eqn:Hs; try done.
  eapply IH; [|done]. by eapply reach_step.
Qed.

(** The variable [x] whose thunk is [x] itself. *)
Definition loop_env : Environment := {[ ident "x" := 0 ]}.
Definition loop_closure : Closure := mkClosure (var "x") loop_env.
Definition loop_vm : Vm := mkVm (mkHeap {[ 0 := data_new loop_closure ]} 1) [] [] 0.

Lemma idle_loop : idle 1 loop_vm.
Proof.
  split; [|simpl; lia|done|].
  - intros t Ht. simpl in *. by rewrite lookup_singleton_ne by lia.
  - intros t Ht (d & Hd & Hs). simpl in Hd. assert (t = 0) as -> by lia.
    rewrite lookup_singleton_eq in Hd. by simplify_eq.
Qed.

Lemma frames_are_under_evaluation_witness :
  match turns 1 loop_closure loop_vm with
  | Some (c, s) =>
      vm_stack s = [UpdateIndexItem 0]
      ∧ NoDup (frames (vm_stack s))
      ∧ (∀ t, t ∈ frames (vm_stack s) → blackholed (vm_cache s) t)
      ∧ (∀ t, t < 1 → blackholed (vm_cache s) t → t ∈ frames (vm_stack s))
  | None => False
  end.
Proof.
  destruct (turns 1 loop_closure loop_vm) as [[c s]|] eqn:Ht; [|by vm_compute in Ht].
  split; [by vm_compute in Ht; simplify_eq|].
  apply (frames_are_under_evaluation no_contract_eq no_type_eq 300 ∅ 1 loop_closure c loop_vm s).
  - exact idle_loop.
  - eapply turns_reachable; [apply reach_start|exact Ht].
Defined.

Lemma infinite_recursion_exact_witness :
  match turns 1 loop_closure loop_vm with
  | Some (c, s) =>
      (∃ s', enter_cache_index 0 s = Done (Err InfiniteRecursion, s') ∧ s' = s)
      ∧ 0 ∈ frames (vm_stack s)
  | None => False
  end.
Proof.
  destruct (turns 1 loop_closure loop_vm) as [[c s]|] eqn:Ht; [|by vm_compute in Ht].
  destruct (infinite_recursion_exact no_contract_eq no_type_eq 300 ∅ 1 loop_closure c loop_vm s 0)
    as [H1 H2].
  - exact idle_loop.
  - eapply turns_reachable; [apply reach_start|exact Ht].
  - destruct (enter_cache_index 0 s) as [[[c'|e] s']| |] eqn:He;
      try (exfalso; vm_compute in Ht; simplify_eq; vm_compute in He; discriminate).
    assert (e = InfiniteRecursion) as -> by (vm_compute in Ht; simplify_eq; vm_compute in He; congruence).
    assert (Hin : 0 ∈ frames (vm_stack s)) by (eapply H2; [lia|reflexivity]).
    split; [|done]. exists s'. split; [done|]. by eapply H1.
Defined.

(** [[1, 2] == [1, 2]] *)
Definition eq_program : Closure :=
  to_closure (op2 Eq_ (mk_array [num 1; num 2] []) (mk_array [num 1; num 2] [])).

Lemma stack_stays_well_formed_witness :
  match turns 4 eq_program vm_new with
  | Some (c, s) =>
      length (vm_stack s) = 2 ∧ wf_config c (vm_stack s)
      ∧ ∀ c' s', step1 c s = Done (Ok (inr c'), s') →
          vm_stack s' = [] ∧ is_result (clos_value c') = true
  | None => False
  end.
Proof.
  destruct (turns 4 eq_program vm_new) as [[c s]|] eqn:Ht; [|by vm_compute in Ht].
  split; [by vm_compute in Ht; simplify_eq|].
  apply (stack_stays_well_formed no_contract_eq no_type_eq 300 ∅ 0 eq_program c vm_new s).
  - exact idle_new.
  - eapply turns_reachable; [apply reach_start|exact Ht].
Defined.

(** [let rec r = {x = <m>} in r.x.out.z], where [<m>] binds [m] to
    [r & {x = {z = 1}}] and returns [{out = m.x}], after having forced [m] to a
    record when [strict]. *)
Definition self_reference (strict : bool) : NickelValue :=
  let out := obj [(ident "out", access (var "m") "x")] in
  let m := merged (var "r") (obj [(ident "x", obj [(ident "z", num 1)])]) in
  let x := let_in false "m" m (if strict then seq_then (var "m") out else out) in
  let_in true "r" (obj [(ident "x", x)]) (access (access (access (var "r") "x") "out") "z").

Definition value_of (r : outcome (result Closure EvalErrorKind * Vm))
    : option (result NickelValue EvalErrorKind) :=
  match r with
  | Done (Ok c, _) => Some (Ok (clos_value c))
  | Done (Err e, _) => Some (Err e)
  | _ => None
  end.

(** A machine with the thunk of [(fun y => y) 1], bound to [x]. *)
Definition id_vm : Vm :=
  mkVm (mkHeap {[ 0 := data_new (to_closure (app id_fun (num 1))) ]} 1) [] [] 0.

Lemma idle_id : idle 1 id_vm.
Proof.
  split; [|simpl; lia|done|].
  - intros t Ht. simpl in *. by rewrite lookup_singleton_ne by lia.
  - intros t Ht (d & Hd & Hs). simpl in Hd. assert (t = 0) as -> by lia.
    rewrite lookup_singleton_eq in Hd. by simplify_eq.
Qed.

Local Notation eval_from := (eval_closure no_contract_eq no_type_eq 300 ∅ 300).

Lemma evaluation_completes_witness :
  match eval_from loop_closure id_vm with
  | Done (Ok c, s) => clos_value c = num 1 ∧ is_result (clos_value c) = true ∧ idle 1 s
  | _ => False
  end.
Proof.
  destruct (eval_from loop_closure id_vm) as [[[c|e] s]| |] eqn:Hr;
    [|vm_compute in Hr; discriminate..].
  split; [by vm_compute in Hr; simplify_eq|].
  apply (evaluation_completes no_contract_eq no_type_eq 300 ∅ 1 300 loop_closure c id_vm s).
  - exact idle_id.
  - exact Hr.
Defined.

Lemma reset_after_error_witness :
  match eval_from loop_closure loop_vm with
  | Done (Err e, s) => frames (vm_stack s) = [0] ∧ ∃ s', reset s = Done (Ok (), s') ∧ idle 1 s'
  | _ => False
  end.
Proof.
  destruct (eval_from loop_closure loop_vm) as [[[c|e] s]| |] eqn:Hr;
    [vm_compute in Hr; discriminate| |vm_compute in Hr; discriminate..].
  split; [by vm_compute in Hr; simplify_eq|].
  apply (reset_after_error no_contract_eq no_type_eq 300 ∅ 1 300 loop_closure e loop_vm s).
  - exact idle_loop.
  - exact Hr.
Defined.

(** The array of the looping thunk twice and of a value. *)
Definition permissive_program : NickelValue := mk_array [VThunk 0; VThunk 0; num 1] [].

Local Notation permissively := (eval_permissive no_contract_eq no_type_eq 300 ∅ 5).

Lemma eval_permissive_recovers_witness :
  match permissively permissive_program loop_vm with
  | Done (r, s) => r = Ok [InfiniteRecursion; InfiniteRecursion] ∧ (∃ es, r = Ok es) ∧ idle 1 s
  | _ => False
  end.
Proof.
  destruct (permissively permissive_program loop_vm) as [[r s]| |] eqn:Hr;
    [|vm_compute in Hr; discriminate..].
  split; [by vm_compute in Hr; simplify_eq|].
  apply (eval_permissive_recovers no_contract_eq no_type_eq 300 ∅ 1 5 permissive_program loop_vm s r).
  - exact idle_loop.
  - exact Hr.
Defined.

(** ** Behaviours that do not agree with the intent *)

(** The copy of a thunk that a merge makes while the thunk is under
    evaluation stays under evaluation for ever. A field [x] that binds [m] to
    [r & {x = {z = 1}}], where [r] is the record of the field, and returns
    [{out = m.x}] evaluates as it should when [m] is used after the evaluation of
    [x]; when [x] forces [m] to a record first, which evaluates no field, the
    same access reports an infinite recursion. *)
Theorem merge_copies_evaluation_in_progress :
  value_of (run_machine 300 (self_reference false)) = Some (Ok (num 1))
  ∧ value_of (run_machine 300 (self_reference true)) = Some (Err InfiniteRecursion).
Proof. split; by vm_compute. Qed.

(** [deep_seq] panics on a record whose fields are all optional and
    undefined: the fields to force are none, and [seq_terms] expects at least
    one. *)
Theorem deep_seq_panics_on_optional_fields `{Externals, IndexMapOps Ident} (r : RecordData)
    (env : Environment) (s : Vm)
    (Hfields : fields r ≠ []) (Hopt : Forall (λ p : Ident * Field, is_empty_optional p.2 = true) (fields r)) :
  eval_op1 DeepSeq (mkClosure (VRecord (Alloc r)) env) s = Panic.
Proof.
  assert (iter_without_opts r = []) as Hnone.
  { unfold iter_without_opts. clear Hfields. induction Hopt as [|[id f] l Hf _ IH]; [done|].
    unfold is_empty_optional in Hf. simpl in *. destruct (value f); [done|].
    simpl in Hf. by rewrite Hf. }
  unfold eval_op1. simpl. unfold op_deep_seq. destruct (fields r) eqn:Hf; [done|]. by rewrite Hnone.
Qed.

(** [{foo | optional}] *)
Definition optional_record : RecordData :=
  mkRecordData [(ident "foo", mkField None
    (Shared (Some (mkFieldMetadata None annot_default true false Neutral))) [])] attrs_default None.

Lemma deep_seq_panics_on_optional_fields_witness :
  fields optional_record ≠ []
  ∧ eval_op1 DeepSeq (mkClosure (VRecord (Alloc optional_record)) ∅) vm_new = Panic.
Proof.
  split; [done|].
  apply (deep_seq_panics_on_optional_fields optional_record ∅ vm_new); [done|]. by repeat constructor.
Defined.

(** Substitution looks variables up in the initial environment first, while
    evaluation looks them up in the local one: a variable bound in both is
    replaced by what evaluation does not see. *)
Theorem subst_prefers_initial_env (h : Heap) (initial_env env : Environment) (fuel : nat)
    (id : Ident) (t t' : CacheIndex)
    (Hinit : initial_env !! id = Some t) (Hlocal : env !! id = Some t') :
  get_var id initial_env env = Ok t'
  ∧ subst h initial_env (S fuel) env (var id) =
      (c ← heap_borrow h t; subst h initial_env fuel (clos_env c) (clos_value c)).
Proof. split; simpl; unfold get_var; rewrite ?Hinit, ?Hlocal; done. Qed.

Lemma subst_prefers_initial_env_witness :
  let h := mkHeap {[ 0 := data_new (to_closure (num 1)); 1 := data_new (to_closure (num 2)) ]} 2 in
  let initial_env : Environment := {[ ident "x" := 0 ]} in
  let env : Environment := {[ ident "x" := 1 ]} in
  subst h initial_env 2 env (var "x") = Done (num 1)
  ∧ get_var "x" initial_env env = Ok 1
  ∧ subst h initial_env 2 env (var "x") =
      (c ← heap_borrow h 0; subst h initial_env 1 (clos_env c) (clos_value c)).
Proof.
  intros h initial_env env. split; [by vm_compute|].
  apply (subst_prefers_initial_env h initial_env env 1 "x" 0 1); by vm_compute.
Defined.
