(* ===== verification/TcTypes.v ===== *)
(** * Types and contexts of the typechecker ([core/src/typecheck/mod.rs],
    [core/src/typecheck/mk_uniftype.rs])

    The conversion of the types of the syntax tree to unification types, the
    contexts, the errors, apparent types, and the types of annotated bindings. The
    unification types embed the contracts of the tree with their environment. The
    visitor, the table of names and the arena serve the language server, error
    messages and allocation, and are left out. [resolve] is the trait
    [AstImportResolver]: what an import is. *)
From stdpp Require Import strings.
From S2P Require Import Prelude IndexMap Values Records Make Ast UnifTypes UnifTable Unify Subtyping.

(** ** Environments *)

(** [TermEnv]: the entries, the most recent first. *)
Inductive TermEnv : Type := mkTermEnv (entries : list (string * (Ast * TermEnv))).

Definition term_env_new : TermEnv := mkTermEnv [].
Definition term_env_insert (id : string) (closure : Ast * TermEnv) (env : TermEnv) : TermEnv :=
  let 'mkTermEnv entries := env in mkTermEnv ((id, closure) :: entries).

Definition Ctr : Type := Ast * TermEnv.
Abbreviation Ty := (UnifType Ctr).
Abbreviation RR := (UnifRecordRows Ctr).
Abbreviation ER := (UnifEnumRows Ctr).
Abbreviation State := (Unify.State (Ctr := Ctr)).

Definition TypeEnv : Type := gmap string Ty.

Record Context : Type := mkContext {
  type_env : TypeEnv;
  term_env : TermEnv;
  var_level : VarLevel;
}.

Definition with_type_env (env : TypeEnv) (ctxt : Context) : Context :=
  mkContext env (term_env ctxt) (var_level ctxt).
Definition with_term_env (env : TermEnv) (ctxt : Context) : Context :=
  mkContext (type_env ctxt) env (var_level ctxt).
Definition with_var_level (l : VarLevel) (ctxt : Context) : Context :=
  mkContext (type_env ctxt) (term_env ctxt) l.

(** [ctxt.type_env.insert], [ctxt.term_env.0.insert], [extend] *)
Definition bind_type (id : string) (ty : Ty) (ctxt : Context) : Context :=
  with_type_env (<[id := ty]> (type_env ctxt)) ctxt.
Definition bind_term (id : string) (closure : Ast * TermEnv) (ctxt : Context) : Context :=
  with_term_env (term_env_insert id closure (term_env ctxt)) ctxt.
Definition bind_types (bindings : list (string * Ty)) (ctxt : Context) : Context :=
  foldl (λ ctxt b, bind_type b.1 b.2 ctxt) ctxt bindings.

Definition context_new : Context := mkContext ∅ term_env_new MIN_LEVEL.

(** ** Errors and effects *)

Inductive TypecheckMode : Type := ModeWalk | ModeEnforce.

Section errors.
Context {ImportError : Type}.

(** [TypecheckErrorKind], where the errors of unification are converted by
    [into_typecheck_err]. *)
Inductive TypecheckError : Type :=
| UnboundIdentifier (id : Values.Ident)
| UnifError (e : UnifErrorKind (Ctr := Ctr))
| OrPatternVarsMismatch (var : Values.Ident)
| CtrTypeInTermPos (contract : Ast)
| ImportFailed (e : ImportError).

End errors.
Arguments TypecheckError : clear implicits.

(** [for x in l { .. }] *)
Definition for_each {E A} (f : A → comp (Ctr := Ctr) E unit) : list A → comp (Ctr := Ctr) E unit :=
  fix go l := match l with [] => ok () | x :: l => _ ← f x; go l end.

(** The outcome of a computation as a value. *)
Definition try_ {E F A} (m : comp (Ctr := Ctr) E A) : comp (Ctr := Ctr) F (result A E) := λ st,
  '(r, st) ← m st; Done (Ok r, st).

(** ** [mk_uniftype.rs] *)

Definition dynamic : Ty := TConcrete Dyn new_no_uvars.
Definition str : Ty := TConcrete String new_no_uvars.
Definition num : Ty := TConcrete Number new_no_uvars.
Definition bool_ : Ty := TConcrete Bool new_no_uvars.
Definition sym : Ty := TConcrete Symbol new_no_uvars.
Definition foreign_id : Ty := TConcrete ForeignId new_no_uvars.

Definition dict (ty : Ty) : Ty := type_concrete (Dict ty FlavourType).
Definition array (ty : Ty) : Ty := type_concrete (Array ty).
Definition arrow (domain codomain : Ty) : Ty := type_concrete (Arrow domain codomain).

Definition nary_arrow (args : list Ty) (codomain : Ty) : Ty := foldr arrow codomain args.

(** [mk_uty_enum_row!], [mk_uty_record_row!], [mk_uty_enum!], [mk_uty_record!] *)
Definition mk_enum_row (rows : list (string * option Ty)) (tail : ER) : ER :=
  foldr (λ row tail, erows_concrete (EExtend (mkEnumRow row.1 row.2) tail)) tail rows.
Definition mk_record_row (rows : list (string * Ty)) (tail : RR) : RR :=
  foldr (λ row tail, rrows_concrete (RExtend (mkRecordRow row.1 row.2) tail)) tail rows.
Definition mk_uty_enum_rows (rows : list (string * option Ty)) (tail : ER) : Ty :=
  type_concrete (Enum (mk_enum_row rows tail)).
Definition mk_uty_record_rows (rows : list (string * Ty)) (tail : RR) : Ty :=
  type_concrete (Record (mk_record_row rows tail)).

Definition no_erows : ER := EConcrete EEmpty new_no_uvars.
Definition no_rrows : RR := RConcrete REmpty new_no_uvars.

(** The tags of an enum type without arguments. *)
Definition tags (ids : list string) : list (string * option Ty) := map (λ id, (id, None)) ids.

(** ** [from_type] *)

Definition convert_kind (k : Values.VarKind) : UnifTypes.VarKind :=
  match k with
  | Values.KindType => KindType
  | Values.KindEnumRows excluded => KindEnumRows (set_map label excluded)
  | Values.KindRecordRows excluded => KindRecordRows (set_map label excluded)
  end.

Definition convert_flavour (f : Values.DictTypeFlavour) : UnifTypes.DictTypeFlavour :=
  match f with Values.FlavourType => FlavourType | Values.FlavourContract => FlavourContract end.

Fixpoint from_type (env : TermEnv) (ty : Type_) : Ty :=
  type_concrete
    (match ty with
     | ATyDyn => Dyn | ATyNumber => Number | ATyBool => Bool | ATyString => String
     | ATySymbol => Symbol | ATyForeignId => ForeignId
     | ATyContract t => Contract (t, env)
     | ATyArrow dom codom => Arrow (from_type env dom) (from_type env codom)
     | ATyVar id => Var (label id)
     | ATyForall var k body => Forall (label var) (convert_kind k) (from_type env body)
     | ATyEnum erows => Enum (from_enum_rows env erows)
     | ATyRecord rrows => Record (from_record_rows env rrows)
     | ATyDict t flavour => Dict (from_type env t) (convert_flavour flavour)
     | ATyArray t => Array (from_type env t)
     | ATyWildcard id => Wildcard id
     end)
with from_record_rows (env : TermEnv) (rrows : AstRecordRows) : RR :=
  rrows_concrete
    (match rrows with
     | ARREmpty => REmpty
     | ARRExtend id typ tail =>
         RExtend (mkRecordRow (label id) (from_type env typ)) (from_record_rows env tail)
     | ARRTailVar id => RTailVar (label id)
     | ARRTailDyn => RTailDyn
     end)
with from_enum_rows (env : TermEnv) (erows : AstEnumRows) : ER :=
  erows_concrete
    (match erows with
     | AEREmpty => EEmpty
     | AERExtend id typ tail =>
         EExtend (mkEnumRow (label id) (match typ with Some t => Some (from_type env t) | None => None end))
           (from_enum_rows env tail)
     | AERTailVar id => ETailVar (label id)
     end).

(** ** Searching types ([traverse_ref] of [parser/src/ast/]) *)

(** Whether a type for which [TypeF::is_wildcard] holds is reached. From a type,
    the traversal goes to the types inside, not to the rows of enum types, and
    from a contract to the types that are nodes of the term ([here] is [false] for
    a type that is only crossed to reach the contracts in it, as an annotation
    is). Patterns of [let] and the metadata of [include] are not traversed. *)
Fixpoint wildcard_in_ast (a : Ast) : bool :=
  match a with
  | NStringChunks chunks =>
      existsb (λ c, match c with AChunkLiteral _ => false | AChunkExpr e _ => wildcard_in_ast e end)
        chunks
  | NFun args body => existsb wildcard_in_pattern args || wildcard_in_ast body
  | NLet bindings body _ =>
      existsb (λ b, let 'mkLetBinding _ (mkLetMetadata _ annot) value := b in
                    wildcard_in_annotation annot || wildcard_in_ast value) bindings
      || wildcard_in_ast body
  | NApp head args => wildcard_in_ast head || existsb wildcard_in_ast args
  | NEnumVariant _ (Some arg) => wildcard_in_ast arg
  | NRecord (mkRecord _ field_defs _) =>
      existsb (λ d, let 'mkFieldDef path (mkAstFieldMetadata _ annot _ _ _) value := d in
        existsb (λ e, match e with PathIdent _ => false | PathExpr e => wildcard_in_ast e end) path
        || wildcard_in_annotation annot
        || match value with Some v => wildcard_in_ast v | None => false end) field_defs
  | NIfThenElse cond then_branch else_branch =>
      wildcard_in_ast cond || wildcard_in_ast then_branch || wildcard_in_ast else_branch
  | NMatch branches =>
      existsb (λ br, let 'mkMatchBranch pattern guard body := br in
        wildcard_in_pattern pattern
        || match guard with Some g => wildcard_in_ast g | None => false end
        || wildcard_in_ast body) branches
  | NArray elts => existsb wildcard_in_ast elts
  | NPrimOpApp _ args => existsb wildcard_in_ast args
  | NAnnotated annot inner => wildcard_in_annotation annot || wildcard_in_ast inner
  | NType typ => wildcard_in_type true typ
  | NNull | NBool _ | NNumber _ | NString _ | NVar _ | NImport _ | NParseError _
  | NEnumVariant _ None => false
  end
with wildcard_in_pattern (p : Pattern) : bool :=
  let 'mkPattern data _ := p in
  match data with
  | PatRecord patterns _ =>
      existsb (λ fp, let 'mkFieldPattern _ annot default pattern := fp in
        wildcard_in_annotation annot
        || match default with Some d => wildcard_in_ast d | None => false end
        || wildcard_in_pattern pattern) patterns
  | PatArray patterns _ | PatOr patterns => existsb wildcard_in_pattern patterns
  | PatEnum _ (Some pattern) => wildcard_in_pattern pattern
  | PatWildcard | PatAny _ | PatConstant _ | PatEnum _ None => false
  end
with wildcard_in_annotation (annot : Annotation) : bool :=
  let 'mkAnnotation typ contracts := annot in
  match typ with Some t => wildcard_in_type false t | None => false end
  || existsb (wildcard_in_type false) contracts
with wildcard_in_type (here : bool) (ty : Type_) : bool :=
  match ty with
  | ATyWildcard _ => here
  | ATyContract t => wildcard_in_ast t
  | ATyArrow t1 t2 => wildcard_in_type here t1 || wildcard_in_type here t2
  | ATyForall _ _ t | ATyDict t _ | ATyArray t => wildcard_in_type here t
  | ATyRecord rrows => wildcard_in_rrows here rrows
  | ATyDyn | ATyNumber | ATyBool | ATyString | ATySymbol | ATyForeignId | ATyVar _
  | ATyEnum _ => false
  end
with wildcard_in_rrows (here : bool) (rrows : AstRecordRows) : bool :=
  match rrows with
  | ARRExtend _ typ tail => wildcard_in_type here typ || wildcard_in_rrows here tail
  | _ => false
  end.

Definition has_wildcards (ty : Type_) : bool := wildcard_in_type true ty.

(** [Type::find_contract] *)
Fixpoint find_contract (ty : Type_) : option Ast :=
  match ty with
  | ATyContract t => Some t
  | ATyArrow t1 t2 => or_else (find_contract t1) (find_contract t2)
  | ATyForall _ _ t | ATyDict t _ | ATyArray t => find_contract t
  | ATyRecord rrows => find_contract_rrows rrows
  | ATyDyn | ATyNumber | ATyBool | ATyString | ATySymbol | ATyForeignId | ATyVar _
  | ATyWildcard _ | ATyEnum _ => None
  end
with find_contract_rrows (rrows : AstRecordRows) : option Ast :=
  match rrows with
  | ARRExtend _ typ tail => or_else (find_contract typ) (find_contract_rrows tail)
  | _ => None
  end.

(** ** Apparent types *)

Inductive ApparentType : Type :=
| Annotated (ty : Type_)
| Inferred (ty : Type_)
| FromEnv (uty : Ty)
| Approximated (ty : Type_).

Definition apparent_default : ApparentType := Approximated ATyDyn.

Definition from_apparent_type (at_ : ApparentType) (env : TermEnv) : Ty :=
  match at_ with
  | Annotated ty => if has_wildcards ty then type_concrete Dyn else from_type env ty
  | Inferred ty | Approximated ty => from_type env ty
  | FromEnv uty => uty
  end.

(** [Annotation::first] and the other methods of [AnnotSeqRef]. *)
Definition annot_first (annot : Annotation) : option Type_ :=
  or_else (ast_annot_typ annot) (head (ast_annot_contracts annot)).
Definition annot_iter (annot : Annotation) : list Type_ :=
  option_list (ast_annot_typ annot) ++ ast_annot_contracts annot.

Section apparent.
Context {ImportError : Type}.
Context (resolve : Import → result (option Ast) ImportError).

Abbreviation M := (comp (Ctr := Ctr) (TypecheckError ImportError)).

Fixpoint apparent_type_move (a : Ast) : ApparentType :=
  match a with
  | NAnnotated annot inner =>
      match annot_first annot with Some typ => Annotated typ | None => apparent_type_move inner end
  | NNumber _ => Inferred ATyNumber
  | NBool _ => Inferred ATyBool
  | NString _ | NStringChunks _ => Inferred ATyString
  | NArray _ => Approximated (ATyArray ATyDyn)
  | _ => apparent_default
  end.

(** The environment and the resolver are optional. *)
Fixpoint apparent_type (env : option TypeEnv)
    (resolver : option (Import → result (option Ast) ImportError)) (a : Ast) : ApparentType :=
  match a with
  | NAnnotated annot inner =>
      match annot_first annot with
      | Some typ => Annotated typ
      | None => apparent_type env resolver inner
      end
  | NNumber _ => Inferred ATyNumber
  | NBool _ => Inferred ATyBool
  | NString _ | NStringChunks _ => Inferred ATyString
  | NArray _ => Approximated (ATyArray ATyDyn)
  | NVar id =>
      match env ≫= λ envs : TypeEnv, envs !! label id with
      | Some uty => FromEnv uty
      | None => apparent_default
      end
  | NImport import =>
      match resolver with
      | None => apparent_default
      | Some resolver =>
          match resolver import with
          | Ok (Some a) => apparent_type_move a
          | Ok None | Err _ => apparent_default
          end
      end
  | _ => Approximated ATyDyn
  end.

(** [HasApparentType] for an annotation and a value, for [FieldDef] and for
    [LetBinding]. *)
Definition annot_apparent_type (env : option TypeEnv)
    (resolver : option (Import → result (option Ast) ImportError))
    (annot : Annotation) (value : option Ast) : ApparentType :=
  match annot_first annot with
  | Some ty => Annotated ty
  | None =>
      match value with Some v => apparent_type env resolver v | None => apparent_default end
  end.

Definition def_apparent_type env resolver (d : FieldDef) : ApparentType :=
  annot_apparent_type env resolver (ast_annotation (def_metadata d)) (def_value d).

Definition let_pattern (b : LetBinding) := let 'mkLetBinding p _ _ := b in p.
Definition let_metadata (b : LetBinding) := let 'mkLetBinding _ m _ := b in m.
Definition let_value (b : LetBinding) := let 'mkLetBinding _ _ v := b in v.

Definition let_apparent_type env resolver (b : LetBinding) : ApparentType :=
  annot_apparent_type env resolver (let_annotation (let_metadata b)) (Some (let_value b)).

(** ** [replace_wildcards_with_var] *)

Definition fresh_uvar {E} (l : VarLevel) : comp (Ctr := Ctr) E Ty :=
  allocating (λ tb, fresh_type_uvar tb l).

Fixpoint replace_wildcards_with_var {E} (ctxt : Context) (ty : Type_) : comp (Ctr := Ctr) E Ty :=
  match ty with
  | ATyWildcard i => get_wildcard_var (var_level ctxt) i
  | ATyDyn => ok (type_concrete Dyn) | ATyNumber => ok (type_concrete Number)
  | ATyBool => ok (type_concrete Bool) | ATyString => ok (type_concrete String)
  | ATySymbol => ok (type_concrete Symbol) | ATyForeignId => ok (type_concrete ForeignId)
  | ATyContract t => ok (type_concrete (Contract (t, term_env ctxt)))
  | ATyArrow dom codom =>
      dom ← replace_wildcards_with_var ctxt dom;
      codom ← replace_wildcards_with_var ctxt codom;
      ok (type_concrete (Arrow dom codom))
  | ATyVar id => ok (type_concrete (Var (label id)))
  | ATyForall var k body =>
      body ← replace_wildcards_with_var ctxt body;
      ok (type_concrete (Forall (label var) (convert_kind k) body))
  | ATyEnum erows => erows ← replace_erows ctxt erows; ok (type_concrete (Enum erows))
  | ATyRecord rrows => rrows ← replace_rrows ctxt rrows; ok (type_concrete (Record rrows))
  | ATyDict t flavour =>
      t ← replace_wildcards_with_var ctxt t;
      ok (type_concrete (Dict t (convert_flavour flavour)))
  | ATyArray t => t ← replace_wildcards_with_var ctxt t; ok (type_concrete (Array t))
  end
with replace_rrows {E} (ctxt : Context) (rrows : AstRecordRows) : comp (Ctr := Ctr) E RR :=
  match rrows with
  | ARREmpty => ok (rrows_concrete REmpty)
  | ARRExtend id typ tail =>
      typ ← replace_wildcards_with_var ctxt typ;
      tail ← replace_rrows ctxt tail;
      ok (rrows_concrete (RExtend (mkRecordRow (label id) typ) tail))
  | ARRTailVar id => ok (rrows_concrete (RTailVar (label id)))
  | ARRTailDyn => ok (rrows_concrete RTailDyn)
  end
with replace_erows {E} (ctxt : Context) (erows : AstEnumRows) : comp (Ctr := Ctr) E ER :=
  match erows with
  | AEREmpty => ok (erows_concrete EEmpty)
  | AERExtend id typ tail =>
      typ ← (match typ with
             | Some t => t ← replace_wildcards_with_var ctxt t; ok (Some t)
             | None => ok None
             end);
      tail ← replace_erows ctxt tail;
      ok (erows_concrete (EExtend (mkEnumRow (label id) typ) tail))
  | AERTailVar id => ok (erows_concrete (ETailVar (label id)))
  end.

(** [apparent_or_infer], [binding_type] *)
Definition apparent_or_infer {E} (aty : ApparentType) (ctxt : Context) (strict : bool)
    : comp (Ctr := Ctr) E Ty :=
  match aty, strict with
  | Annotated ty, true => replace_wildcards_with_var ctxt ty
  | Approximated _, true => fresh_uvar (var_level ctxt)
  | ty_apt, _ => ok (from_apparent_type ty_apt (term_env ctxt))
  end.

Definition binding_type {E} (binding : LetBinding) (ctxt : Context) (strict : bool)
    : comp (Ctr := Ctr) E Ty :=
  apparent_or_infer (let_apparent_type (Some (type_env ctxt)) (Some resolve) binding) ctxt strict.

(** ** Variables *)

Definition get_type (ctxt : Context) (id : Values.Ident) : M Ty :=
  match type_env ctxt !! label id with
  | Some ty => ok ty
  | None => err (UnboundIdentifier id)
  end.

(** [err.into_typecheck_err] *)
Definition unify_at (type_eq : Ctr → Ctr → bool) (n : nat) (ctxt : Context) (t1 t2 : Ty)
    : M unit :=
  map_err UnifError (unify_type type_eq (var_level ctxt) n t1 t2).
Definition subsumed_at (type_eq : Ctr → Ctr → bool) (n : nat) (ctxt : Context) (t1 t2 : Ty)
    : M unit :=
  map_err UnifError (subsumed_type type_eq n (var_level ctxt) t1 t2).

(** [instantiate_foralls], on the context. *)
Definition instantiate {E} (n : nat) (ctxt : Context) (ty : Ty) (inst : ForallInst)
    : comp (Ctr := Ctr) E (Ty * Context) :=
  '(ty, l) ← instantiate_foralls n (var_level ctxt) ty inst;
  ok (ty, with_var_level l ctxt).

End apparent.

(** ** The types of the standard library *)

(** [infer_record_type], by recursion on [max_depth]. The fields come out in
    reverse. *)
Definition INFER_RECORD_MAX_DEPTH : nat := 4.

Definition infer_leaf_type (a : Ast) : Ty :=
  from_apparent_type (apparent_type (ImportError := False) None None a) term_env_new.

Fixpoint infer_record_type (max_depth : nat) (term_env : TermEnv) (a : Ast) : outcome Ty :=
  match max_depth, a with
  | S depth, NRecord record =>
      rows ← foldl (λ acc field_def,
        rtype ← acc;
        elem ← unwrap (head (path field_def));
        match try_as_ident elem with
        | None => Done rtype
        | Some id =>
            uty ← match def_apparent_type (ImportError := False) None None field_def with
                  | Annotated ty => Done (from_type term_env ty)
                  | FromEnv uty => Done uty
                  | Inferred ty | Approximated ty =>
                      match def_value field_def with
                      | Some v => infer_record_type depth term_env v
                      | None => Done (from_type term_env ty)
                      end
                  end;
            Done (RExtend (mkRecordRow (label id) uty) (rrows_concrete rtype))
        end) (Done REmpty) (field_defs record);
      Done (type_concrete (Record (rrows_concrete rows)))
  | _, _ => Done (infer_leaf_type a)
  end.

(** [mk_initial_ctxt]: the bindings of a module, then the context. A module that
    is not the internals is bound to its name. *)
Inductive StdlibModule : Type := Std | Internals.

Definition module_name (m : StdlibModule) : string :=
  match m with Std => "std" | Internals => "internals" end.

Definition module_bindings (m : StdlibModule) (a : Ast) : outcome (result (list (string * Ast)) Ast) :=
  match m, a with
  | Internals, NRecord record =>
      bindings ← mapM (λ field_def,
        _ ← assert (length (path field_def) =? 1);
        elem ← unwrap (head (path field_def));
        id ← unwrap (try_as_ident elem);
        value ← unwrap (def_value field_def);
        Done (label id, value)) (field_defs record);
      Done (Ok bindings)
  | Internals, _ => Done (Err a)
  | _, _ => Done (Ok [(module_name m, a)])
  end.

Fixpoint modules_bindings (initial_env : list (StdlibModule * Ast))
    : outcome (result (list (string * Ast)) Ast) :=
  match initial_env with
  | [] => Done (Ok [])
  | (m, a) :: rest =>
      r ← module_bindings m a;
      match r with
      | Err e => Done (Err e)
      | Ok bs =>
          r ← modules_bindings rest;
          Done (match r with Ok bs' => Ok (bs ++ bs') | Err e => Err e end)
      end
  end.

Definition mk_initial_ctxt (initial_env : list (StdlibModule * Ast))
    : outcome (result Context Ast) :=
  r ← modules_bindings initial_env;
  match r with
  | Err e => Done (Err e)
  | Ok bindings =>
      let term_env :=
        foldl (λ env b, term_env_insert b.1 (b.2, term_env_new) env) term_env_new bindings in
      types ← mapM (λ b : string * Ast,
        ty ← infer_record_type INFER_RECORD_MAX_DEPTH term_env b.2; Done (b.1, ty)) bindings;
      Done (Ok (mkContext (foldl (λ env b, <[b.1 := b.2]> env) ∅ types) term_env MIN_LEVEL))
  end.

(** [env_add_term], [env_add] *)
Section env_add.
Context {ImportError : Type}.
Context (resolve : Import → result (option Ast) ImportError).

Definition env_add_term (env : TypeEnv) (a : Ast) (term_env : TermEnv)
    : outcome (result TypeEnv Ast) :=
  match a with
  | NRecord record =>
      env ← foldl (λ acc field_def,
        env ← acc;
        elem ← unwrap (head (path field_def));
        Done (match try_as_ident elem with
              | Some id =>
                  <[label id := from_apparent_type
                      (def_apparent_type (Some env) (Some resolve) field_def) term_env]> env
              | None => env
              end)) (Done env) (field_defs record);
      Done (Ok env)
  | _ => Done (Err a)
  end.

Definition env_add (env : TypeEnv) (id : Values.Ident) (a : Ast) (term_env : TermEnv) : TypeEnv :=
  <[label id := from_apparent_type (apparent_type (Some env) (Some resolve) a) term_env]> env.

End env_add.
