(* ===== verification/TcPattern.v ===== *)
(** * Typechecking patterns ([core/src/typecheck/pattern.rs])

    The type of a pattern with the types of its variables, the tails of enum types
    that are left open until all the branches of a match are known, and their
    closing. The debug assertion of [close_enum] is a panic. *)
From stdpp Require Import strings.
From S2P Require Import Prelude IndexMap Values Records Make Ast UnifTypes UnifTable Unify Subtyping TcTypes.

(** ** Paths and working state *)

Inductive PatternPathElem : Type :=
| PathField (id : string)
| PathArray (idx : nat)
| PathVariant.

Definition PatternPath : Type := list PatternPathElem.

#[export] Instance PatternPathElem_eq_dec : EqDecision PatternPathElem.
Proof. solve_decision. Defined.
#[export] Instance PatternPathElem_countable : Countable PatternPathElem.
Proof.
  apply (inj_countable'
    (λ e, match e with
          | PathField id => inl (inl id) | PathArray i => inl (inr i) | PathVariant => inr ()
          end)
    (λ s : (string + nat) + unit, match s with
          | inl (inl id) => PathField id | inl (inr i) => PathArray i | inr () => PathVariant
          end)).
  by intros [].
Defined.

Definition TypeBindings : Type := list (Values.Ident * Ty).

Record PatTypeState : Type := mkPatState {
  pat_bindings : TypeBindings;
  enum_open_tails : list (PatternPath * ER);
  wildcard_pat_paths : gset PatternPath;
}.

Definition pat_state_new : PatTypeState := mkPatState [] [] ∅.

Definition push_binding (id : Values.Ident) (ty : Ty) (pt : PatTypeState) : PatTypeState :=
  mkPatState (pat_bindings pt ++ [(id, ty)]) (enum_open_tails pt) (wildcard_pat_paths pt).
Definition push_tail (path : PatternPath) (tail : ER) (pt : PatTypeState) : PatTypeState :=
  mkPatState (pat_bindings pt) (enum_open_tails pt ++ [(path, tail)]) (wildcard_pat_paths pt).
Definition push_wildcard (path : PatternPath) (pt : PatTypeState) : PatTypeState :=
  mkPatState (pat_bindings pt) (enum_open_tails pt) ({[ path ]} ∪ wildcard_pat_paths pt).
Definition with_bindings (bs : TypeBindings) (pt : PatTypeState) : PatTypeState :=
  mkPatState bs (enum_open_tails pt) (wildcard_pat_paths pt).

(** [PatternTypeData] *)
Record PatternTypeData : Type := mkPatData { pat_typ : Ty; pat_state : PatTypeState }.

(** ** Closing enum types *)

Inductive EnumRowsElt : Type :=
| EltTailVar (id : UnifTypes.Ident)
| EltTailUnifVar (id : VarId) (init_level : VarLevel)
| EltTailConstant (id : VarId)
| EltRow (row : EnumRowF Ty).

(** The items of [EnumRowsIterator]. *)
Fixpoint erows_iter (er : ER) : list EnumRowsElt :=
  match er with
  | EConcrete EEmpty _ => []
  | EConcrete (ETailVar id) _ => [EltTailVar id]
  | EConcrete (EExtend row tail) _ => EltRow row :: erows_iter tail
  | EUnifVar id init_level => [EltTailUnifVar id init_level]
  | EConstant var_id => [EltTailConstant var_id]
  end.

(** The [find_map] of [close_enum]. *)
Fixpoint find_open_tail (elts : list EnumRowsElt) : outcome (option ER) :=
  match elts with
  | [] => Done None
  | EltTailUnifVar id init_level :: _ => Done (Some (EUnifVar id init_level))
  | (EltTailVar _ | EltTailConstant _) :: _ => Panic
  | EltRow _ :: elts => find_open_tail elts
  end.

Fixpoint close_enum {E : Type} (n : nat) (tail : ER) : comp (Ctr := Ctr) E unit :=
  match n with
  | 0 => λ _, OutOfFuel
  | S n =>
      root ← reading (λ st, into_root (erows (table st)) tail);
      match root with
      | EUnifVar id _ => on_table (λ tb, assign_erows tb id (erows_concrete EEmpty))
      | _ =>
          tail ← reading (λ _, find_open_tail (erows_iter root));
          match tail with Some tail => close_enum n tail | None => ok () end
      end
  end.

Definition close_enums {E : Type} (n : nat) (enum_open_tails : list (PatternPath * ER))
    (wildcard_occurrences : gset PatternPath) : comp (Ctr := Ctr) E unit :=
  for_each (close_enum n)
    (omap (λ p : PatternPath * ER, if decide (p.1 ∈ wildcard_occurrences) then None else Some p.2)
       enum_open_tails).

Definition close_all_enums {E : Type} (n : nat) (enum_open_tails : list (PatternPath * ER))
    : comp (Ctr := Ctr) E unit :=
  close_enums n enum_open_tails ∅.

(** ** The types of patterns *)

(** [fold] with effects, on an index too. *)
Definition fold_each {E A B} (f : B → A → comp (Ctr := Ctr) E B)
    : B → list A → comp (Ctr := Ctr) E B :=
  fix go b l := match l with [] => ok b | x :: l => b ← f b x; go b l end.
Definition fold_each_i {E A B} (f : nat → B → A → comp (Ctr := Ctr) E B)
    : nat → B → list A → comp (Ctr := Ctr) E B :=
  fix go i b l := match l with [] => ok b | x :: l => b ← f i b x; go (S i) b l end.

(** [sort_by_key(|(id, _)| *id)], a stable sort on the text of identifiers. *)
Fixpoint insert_by_id (b : Values.Ident * Ty) (l : TypeBindings) : TypeBindings :=
  match l with
  | [] => [b]
  | b' :: l' => if String.leb (label b.1) (label b'.1) then b :: l else b' :: insert_by_id b l'
  end.
Definition sort_by_id (l : TypeBindings) : TypeBindings := foldr insert_by_id [] l.

Definition id_min (id1 id2 : Values.Ident) : Values.Ident :=
  if String.leb (label id1) (label id2) then id1 else id2.

Section pattern_types.
Context {ImportError : Type}.
Context (type_eq : Ctr → Ctr → bool).
Context (n : nat) (ctxt : Context) (mode : TypecheckMode).

Abbreviation M := (comp (Ctr := Ctr) (TypecheckError ImportError)).

Definition any_type {E : Type} : comp (Ctr := Ctr) E Ty :=
  match mode with ModeWalk => ok dynamic | ModeEnforce => fresh_uvar (var_level ctxt) end.

Definition constant_pattern_type (c : ConstantPatternData) : Ty :=
  type_concrete
    (match c with
     | ConstBool _ => Bool | ConstNumber _ => Number | ConstString _ => String | ConstNull => Dyn
     end).

(** The implementations of [pattern_types_inj] for each kind of pattern, with the
    one for sub-patterns as an argument. *)
Section inj.
Context (pattern_inj : Pattern → PatternPath → PatTypeState → M (Ty * PatTypeState)).

Definition field_pattern_types (path : PatternPath) (fp : FieldPattern) (pt : PatTypeState)
    : M (RecordRowF Ty * PatTypeState) :=
  let 'mkFieldPattern id annotation _ pattern := fp in
  let path := path ++ [PathField (label id)] in
  '(ty_row, pt) ←
    (match ast_annot_typ annotation, pat_data pattern, mode with
     | Some annot_ty, PatAny id, ModeWalk =>
         let ty_row := from_type (term_env ctxt) annot_ty in
         ok (ty_row, push_binding id ty_row pt)
     | Some annot_ty, PatWildcard, ModeWalk => ok (from_type (term_env ctxt) annot_ty, pt)
     | Some annot_ty, _, _ =>
         let annot_uty := from_type (term_env ctxt) annot_ty in
         '(ty_row, pt) ← pattern_inj pattern path pt;
         _ ← unify_at type_eq n ctxt ty_row annot_uty;
         ok (ty_row, pt)
     | None, _, _ => pattern_inj pattern path pt
     end);
  ok (mkRecordRow (label id) ty_row, pt).

Definition record_pattern_types (patterns : list FieldPattern) (tail : TailPattern)
    (path : PatternPath) (pt : PatTypeState) : M (RR * PatTypeState) :=
  tail_rows ←
    (if tail_is_open tail then
       match mode with
       | ModeWalk => ok (rrows_concrete RTailDyn)
       | ModeEnforce => allocating (λ tb, fresh_rrows_uvar tb (var_level ctxt))
       end
     else ok no_rrows);
  let pt :=
    match tail with
    | TailCapture rest => push_binding rest (type_concrete (Record tail_rows)) pt
    | _ => pt
    end in
  fold_each (λ '(rows, pt) field_pat,
    '(row, pt) ← field_pattern_types path field_pat pt;
    ok (rrows_concrete (RExtend row rows), pt)) (tail_rows, pt) patterns.

Definition array_pattern_types (patterns : list Pattern) (tail : TailPattern)
    (path : PatternPath) (pt : PatTypeState) : M (Ty * PatTypeState) :=
  elem_type ← any_type;
  pt ← fold_each_i (λ idx pt subpat,
    '(subpat_type, pt) ← pattern_inj subpat (path ++ [PathArray idx]) pt;
    _ ← (match mode with
         | ModeEnforce => unify_at type_eq n ctxt elem_type subpat_type
         | ModeWalk => ok ()
         end);
    ok pt) 0 pt patterns;
  let pt :=
    match tail with TailCapture rest => push_binding rest (array elem_type) pt | _ => pt end in
  ok (elem_type, pt).

Definition enum_pattern_types (tag : Values.Ident) (pattern : option Pattern)
    (path : PatternPath) (pt : PatTypeState) : M (EnumRowF Ty * PatTypeState) :=
  match pattern with
  | Some pat =>
      '(typ_arg, pt) ← pattern_inj pat (path ++ [PathVariant]) pt;
      ok (mkEnumRow (label tag) (Some typ_arg), pt)
  | None => ok (mkEnumRow (label tag) None, pt)
  end.

(** The branches of an or-pattern, each with the bindings of its own. *)
Definition or_branches (patterns : list Pattern) (path : PatternPath) (pt : PatTypeState)
    : M (list (Ty * TypeBindings) * PatTypeState) :=
  fold_each (λ '(branches, pt) pat,
    let outer := pat_bindings pt in
    '(typ, pt) ← pattern_inj pat path (with_bindings [] pt);
    ok (branches ++ [(typ, sort_by_id (pat_bindings pt))], with_bindings outer pt))
    ([], pt) patterns.

(** The variables of a branch against those of the first one. *)
Fixpoint or_unify_bindings (model pat_bindings : TypeBindings) : M unit :=
  match pat_bindings with
  | [] => ok ()
  | (id, typ) :: pat_bindings =>
      match model with
      | [] => λ _, Panic
      | (model_id, model_ty) :: model =>
          if decide (model_id = id) then
            _ ← (match mode with
                 | ModeEnforce => unify_at type_eq n ctxt model_ty typ
                 | ModeWalk => ok ()
                 end);
            or_unify_bindings model pat_bindings
          else err (OrPatternVarsMismatch (id_min model_id id))
      end
  end.

Definition or_unify_branch (model_typ : Ty) (model : TypeBindings) (branch : Ty * TypeBindings)
    : M unit :=
  let '(typ, pat_bindings) := branch in
  if length model =? length pat_bindings then
    _ ← (match mode with
         | ModeEnforce => unify_at type_eq n ctxt model_typ typ
         | ModeWalk => ok ()
         end);
    or_unify_bindings model pat_bindings
  else
    witness ← reading (λ _, unwrap (last (if length pat_bindings <? length model
                                          then model else pat_bindings)));
    err (OrPatternVarsMismatch witness.1).

Definition or_pattern_types (patterns : list Pattern) (path : PatternPath) (pt : PatTypeState)
    : M (Ty * PatTypeState) :=
  '(branches, pt) ← or_branches patterns path pt;
  match branches with
  | [] => ok (type_concrete (Forall "a" KindType (type_concrete (Var "a"))), pt)
  | (model_typ, model) :: rest =>
      _ ← for_each (or_unify_branch model_typ model) rest;
      ok (model_typ, with_bindings (pat_bindings pt ++ model) pt)
  end.

Definition pattern_data_types (data : PatternData) (path : PatternPath) (pt : PatTypeState)
    : M (Ty * PatTypeState) :=
  match data with
  | PatWildcard => typ ← any_type; ok (typ, push_wildcard path pt)
  | PatAny id =>
      typ ← any_type;
      ok (typ, push_binding id typ (push_wildcard path pt))
  | PatRecord patterns tail =>
      '(rows, pt) ← record_pattern_types patterns tail path pt;
      ok (type_concrete (Record rows), pt)
  | PatArray patterns tail =>
      '(elem, pt) ← array_pattern_types patterns tail path pt; ok (array elem, pt)
  | PatEnum tag pattern =>
      '(row, pt) ← enum_pattern_types tag pattern path pt;
      tail ← allocating (λ tb, fresh_erows_uvar tb (var_level ctxt));
      ok (type_concrete (Enum (erows_concrete (EExtend row tail))), push_tail path tail pt)
  | PatConstant c => ok (constant_pattern_type c, pt)
  | PatOr patterns => or_pattern_types patterns path pt
  end.

End inj.

Fixpoint pattern_types_inj (p : Pattern) (path : PatternPath) (pt : PatTypeState)
    : M (Ty * PatTypeState) :=
  let 'mkPattern data alias := p in
  '(typ, pt) ← pattern_data_types pattern_types_inj data path pt;
  ok (typ, match alias with Some alias => push_binding alias typ pt | None => pt end).

(** [pattern_types] on [Pattern] and on [PatternData]. *)
Definition pattern_types (p : Pattern) : M PatternTypeData :=
  '(typ, pt) ← pattern_types_inj p [] pat_state_new; ok (mkPatData typ pt).
Definition data_types (data : PatternData) : M PatternTypeData :=
  '(typ, pt) ← pattern_data_types pattern_types_inj data [] pat_state_new; ok (mkPatData typ pt).

End pattern_types.

(** The names and types of the variables of a pattern, for the context. *)
Definition named (bs : TypeBindings) : list (string * Ty) := map (λ b, (label b.1, b.2)) bs.
