(* ===== verification/TcOperation.v ===== *)
(** * The types of the primitive operators ([core/src/typecheck/operation.rs])

    The types of the arguments that an operator takes at once, and of what it
    returns, with fresh unification variables for what is polymorphic. *)
From stdpp Require Import strings.
From S2P Require Import Prelude IndexMap Values Records Make Ast UnifTypes UnifTable Unify Subtyping TcTypes.

(** [ReifyAsUnifType] for [Polarity] and [TypeVarData] *)
Definition polarity_type : Ty := mk_uty_enum_rows (tags ["Positive"; "Negative"]%string) no_erows.
Definition type_var_data_type : Ty :=
  mk_uty_record_rows [("polarity"%string, polarity_type)] no_rrows.

(** A field of [error_data_type]: optional, with a contract, without value. *)
Definition optional_field (name : string) (contract : Type_) : FieldDef :=
  mkFieldDef [PathIdent (ident name)]
    (mkAstFieldMetadata None (mkAnnotation None [contract]) true false Neutral) None.

Definition error_data_type : Ty :=
  type_concrete (Contract
    (NRecord (mkRecord []
       [optional_field "message" ATyString; optional_field "notes" (ATyArray ATyString);
        optional_field "blame_location" ATyDyn] false),
     term_env_new)).

Definition custom_contract_ret_type : Ty :=
  mk_uty_enum_rows [("Ok"%string, Some dynamic); ("Error"%string, Some error_data_type)] no_erows.

Definition custom_contract_type : Ty :=
  arrow dynamic (arrow dynamic custom_contract_ret_type).

Definition find_result_type : Ty :=
  mk_uty_record_rows
    [("matched", type_concrete String); ("index", type_concrete Number);
     ("groups", array (type_concrete String))]%string no_rrows.

Definition base64_type : Ty :=
  mk_uty_enum_rows (tags ["Standard"; "UrlSafe"; "NoPad"; "UrlSafeNoPad"]%string) no_erows.
Definition format_type : Ty :=
  mk_uty_enum_rows (tags ["Json"; "Toml"; "Yaml"; "YamlDocuments"]%string) no_erows.

Definition typeof_type : Ty :=
  mk_uty_enum_rows
    (tags ["Number"; "Bool"; "String"; "Enum"; "Function"; "CustomContract"; "Array"; "Record";
           "Label"; "ForeignId"; "Type"; "Other"]%string) no_erows.

Definition cast_type : Ty :=
  mk_uty_enum_rows
    [("Number", Some (type_concrete Number)); ("Bool", Some (type_concrete Bool));
     ("String", Some (type_concrete String)); ("Enum", Some (type_concrete Dyn));
     ("Function", Some (arrow (type_concrete Dyn) (type_concrete Dyn)));
     ("CustomContract", Some (type_concrete Dyn)); ("Array", Some (array (type_concrete Dyn)));
     ("Record", Some (dict (type_concrete Dyn))); ("Label", Some (type_concrete Dyn));
     ("ForeignId", Some (type_concrete Dyn)); ("Type", Some (type_concrete Dyn));
     ("Other", Some (type_concrete Dyn))]%string no_erows.

Section primop.
Context {E : Type} (var_level : VarLevel).
Abbreviation M := (comp (Ctr := Ctr) E).

Definition uvar : M Ty := fresh_uvar var_level.

Definition primop_type (op : PrimOp) : M (list Ty * Ty) :=
  match op with
  | PTypeof => ok ([dynamic], typeof_type)
  | PCast => ok ([dynamic], cast_type)
  | PBoolAnd | PBoolOr => ok ([bool_], arrow (type_concrete Bool) (type_concrete Bool))
  | PBoolNot => ok ([bool_], bool_)
  | PBlame => res ← uvar; ok ([dynamic], res)
  | PLabelPol => ok ([dynamic], polarity_type)
  | PEnumEmbed id =>
      row_var_id ← allocating (λ tb, fresh_erows_var_id tb var_level);
      let row := EUnifVar row_var_id var_level in
      ok ([mk_uty_enum_rows [] row], mk_uty_enum_rows (tags [label id]) row)
  | PLabelFlipPol | PLabelGoDom | PLabelGoCodom | PLabelGoArray | PLabelGoDict =>
      ok ([dynamic], dynamic)
  | PRecordStatAccess id =>
      rows ← allocating (λ tb, fresh_rrows_uvar tb var_level);
      res ← uvar;
      ok ([mk_uty_record_rows [(label id, res)] rows], res)
  | PArrayMap =>
      a ← uvar; b ← uvar; ok ([array a], arrow (arrow a b) (array b))
  | PArrayGen => a ← uvar; ok ([num], arrow (arrow (type_concrete Number) a) (array a))
  | PRecordMap =>
      a ← uvar; b ← uvar;
      ok ([dict a], arrow (arrow (type_concrete String) (arrow a b)) (dict b))
  | PSeq | PDeepSeq => fst ← uvar; snd ← uvar; ok ([fst], arrow snd snd)
  | PArrayLength => ty_elt ← uvar; ok ([array ty_elt], num)
  | PRecordFields _ => ty_a ← uvar; ok ([dict ty_a], array str)
  | PRecordValues => ty_a ← uvar; ok ([dict ty_a], array ty_a)
  | PStringTrim | PStringUppercase | PStringLowercase => ok ([str], str)
  | PStringChars => ok ([str], array str)
  | PStringLength => ok ([str], num)
  | PToString => ok ([dynamic], str)
  | PNumberFromString => ok ([str], num)
  | PEnumFromString =>
      row ← allocating (λ tb, fresh_erows_const tb var_level); ok ([str], mk_uty_enum_rows [] row)
  | PStringIsMatch => ok ([str], arrow str bool_)
  | PStringFind => ok ([str], arrow str find_result_type)
  | PStringFindAll => ok ([str], arrow str (array find_result_type))
  | PForce _ | PRecordEmptyWithTail => ok ([dynamic], dynamic)
  | PRecordFreeze => ty ← uvar; ok ([dict ty], dict ty)
  | PTrace => ty ← uvar; ok ([str], arrow ty ty)
  | PLabelPushDiag | PEnumGetArg | PEnumGetTag => ok ([dynamic], dynamic)
  | PEnumMakeVariant => ok ([str], arrow dynamic dynamic)
  | PEnumIsVariant => ok ([dynamic], bool_)
  | PContractCustom => ok ([custom_contract_type], dynamic)
  | PNumberCos | PNumberSin | PNumberTan | PNumberArcCos | PNumberArcSin | PNumberArcTan =>
      ok ([num], num)
  | PPlus | PSub | PMult | PDiv | PModulo => ok ([num; num], num)
  | PSeal => ok ([sym; dynamic], arrow (type_concrete Dyn) (type_concrete Dyn))
  | PStringConcat => ok ([str; str], str)
  | PContractApply => ok ([dynamic; dynamic], arrow dynamic dynamic)
  | PContractCheck => ok ([dynamic; dynamic], arrow dynamic custom_contract_ret_type)
  | PLabelWithErrorData => ok ([error_data_type; dynamic], dynamic)
  | PUnseal => ok ([sym; dynamic], arrow (type_concrete Dyn) (type_concrete Dyn))
  | PEq => a ← uvar; b ← uvar; ok ([a; b], bool_)
  | PLessThan | PLessOrEq | PGreaterThan | PGreaterOrEq => ok ([num; num], bool_)
  | PLabelGoField => ok ([str; dynamic], dynamic)
  | PRecordGet => res ← uvar; ok ([str; dict res], res)
  | PRecordInsert _ => res ← uvar; ok ([str; dict res], arrow res (dict res))
  | PRecordRemove _ => res ← uvar; ok ([str; dict res], dict res)
  | PRecordHasField _ | PRecordFieldIsDefined _ =>
      ty_elt ← uvar; ok ([str; dict ty_elt], bool_)
  | PArrayConcat => ty_elt ← uvar; ok ([array ty_elt; array ty_elt], array ty_elt)
  | PArrayAt => ty_elt ← uvar; ok ([array ty_elt; num], ty_elt)
  | PMerge _ => ok ([dynamic; dynamic], dynamic)
  | PHash =>
      ok ([mk_uty_enum_rows (tags ["Md5"; "Sha1"; "Sha256"; "Sha512"]%string) no_erows; str], str)
  | PSerialize => ty_input ← uvar; ok ([format_type; ty_input], str)
  | PDeserialize => ok ([format_type; str], dynamic)
  | PNumberArcTan2 | PNumberLog | PPow => ok ([num; num], num)
  | PStringContains => ok ([str; str], bool_)
  | PStringCompare =>
      ok ([str; str], mk_uty_enum_rows (tags ["Lesser"; "Equal"; "Greater"]%string) no_erows)
  | PStringSplit => ok ([str; str], array (type_concrete String))
  | PStringBase64Encode => ok ([base64_type; str], str)
  | PStringBase64Decode =>
      ok ([base64_type; str],
          mk_uty_enum_rows
            [("Ok", Some (type_concrete String));
             ("Error", Some (mk_uty_record_rows [("message", type_concrete String)] no_rrows))]%string
            no_erows)
  | PContractArrayLazyApp =>
      ty_elt ← uvar; ok ([dynamic; dynamic], arrow (array ty_elt) (array ty_elt))
  | PContractRecordLazyApp =>
      ty_field ← uvar; ok ([dynamic; dict ty_field], arrow dynamic (dict ty_field))
  | PLabelWithMessage => ok ([str; dynamic], dynamic)
  | PLabelWithNotes => ok ([array (type_concrete String); dynamic], dynamic)
  | PLabelAppendNote => ok ([str; dynamic], dynamic)
  | PLabelLookupTypeVar => ok ([sym; dynamic], type_var_data_type)
  | PRecordSplitPair =>
      elt ← uvar;
      ok ([dict elt; dict elt],
          mk_uty_record_rows
            [("left_only", dict elt); ("right_only", dict elt);
             ("left_center", dict elt); ("right_center", dict elt)]%string no_rrows)
  | PRecordDisjointMerge => elt ← uvar; ok ([dict elt; dict elt], dict elt)
  | PStringReplace | PStringReplaceRegex => ok ([str; str; str], str)
  | PStringSubstr => ok ([str; num; num], str)
  | PRecordSealTail => ok ([dynamic; dynamic; dict dynamic; dict dynamic], dynamic)
  | PRecordUnsealTail => ok ([dynamic; dynamic; dict dynamic], dynamic)
  | PArraySlice =>
      element_type ← uvar; ok ([num; num; array element_type], array element_type)
  | PMergeContract => ok ([dynamic; dynamic; dynamic], dynamic)
  | PLabelInsertTypeVar => ok ([sym; polarity_type; dynamic], dynamic)
  end.

End primop.
