(* ===== verification/TcRecord.v ===== *)
(** * Record resolution ([core/src/typecheck/record.rs])

    Before a record literal is typechecked, its field paths are broken into nested
    records and the pieces of a field are put together. Positions are left out. *)
From S2P Require Import Prelude IndexMap Values Records Make Ast Merge UnifTypes UnifTable Unify Subtyping TcTypes.

(** ** Data *)

(** A field is a resolved record (when it appears in the middle of a path), a
    list of definitions (where it is last), or both. *)
Inductive ShallowRecord : Type :=
| mkShallow (stat_fields : list (Values.Ident * ResolvedField))
            (dyn_fields : list (Ast * ResolvedField))
with ResolvedField : Type :=
| mkResolvedField (resolved : ShallowRecord) (defs : list FieldDef).

Record ResolvedRecord : Type := mkResolved {
  content : ShallowRecord;
  includes : list Include;
}.

Definition stat_fields (r : ShallowRecord) := let 'mkShallow stat _ := r in stat.
Definition dyn_fields (r : ShallowRecord) := let 'mkShallow _ dyn := r in dyn.
Definition resolved (f : ResolvedField) := let 'mkResolvedField r _ := f in r.
Definition defs (f : ResolvedField) := let 'mkResolvedField _ d := f in d.
Definition incl_ident (i : Include) := let 'mkInclude id _ := i in id.
Definition incl_annotation (i : Include) := let 'mkInclude _ m := i in ast_annotation m.

Definition is_parse_error (a : Ast) : bool := match a with NParseError _ => true | _ => false end.

(** [ShallowRecord::new]: the dynamic fields whose name is a parse error are
    excluded. *)
Definition shallow_new (stat : list (Values.Ident * ResolvedField))
    (dyn : list (Ast * ResolvedField)) : ShallowRecord :=
  mkShallow stat (List.filter (λ p, negb (is_parse_error p.1)) dyn).

Definition shallow_empty : ShallowRecord := mkShallow [] [].

Definition shallow_is_empty (r : ShallowRecord) : bool :=
  match r with mkShallow [] [] => true | _ => false end.

(** [From<&FieldDef>] and [From<ShallowRecord>] for [ResolvedField] *)
Definition field_of_def (d : FieldDef) : ResolvedField := mkResolvedField shallow_empty [d].
Definition field_of_shallow (r : ShallowRecord) : ResolvedField := mkResolvedField r [].

(** ** Combination and resolution *)

Section combine.
Context `{IndexMapOps Values.Ident}.

(** [Combine for ShallowRecord], where [stat] has the fields of the first record
    with the function that combines them. *)
Definition combine_stat
    (stat : IndexMap Values.Ident (ResolvedField * (ResolvedField → ResolvedField)))
    (other : IndexMap Values.Ident ResolvedField) : IndexMap Values.Ident ResolvedField :=
  let s := split stat other in
  im_extend
    (im_extend (im_extend [] (map (λ p, (p.1, p.2.1)) (left s))) (right s))
    (map (λ p, (p.1, p.2.1.2 p.2.2)) (center s)).

Fixpoint combine_shallow (this other : ShallowRecord) {struct this} : ShallowRecord :=
  let 'mkShallow stat dyn := this in
  let 'mkShallow stat' dyn' := other in
  shallow_new
    (combine_stat (map (λ p, (p.1, (p.2, combine_field p.2))) stat) stat')
    (dyn ++ dyn')
with combine_field (this other : ResolvedField) {struct this} : ResolvedField :=
  let 'mkResolvedField r defs := this in
  let 'mkResolvedField r' defs' := other in
  mkResolvedField (combine_shallow r r') (defs ++ defs').

(** [Resolve for FieldDef]: the elements of the path after the first one. *)
Definition resolve_def (d : FieldDef) : outcome ResolvedField :=
  match path d with
  | [] => Panic
  | _ :: rest =>
      Done (foldl (λ acc elem,
        match elem with
        | PathIdent id => field_of_shallow (shallow_new [(id, acc)] [])
        | PathExpr expr => field_of_shallow (shallow_new [] [(expr, acc)])
        end) (field_of_def d) (rev rest))
  end.

Definition insert_static_field (fields : IndexMap Values.Ident ResolvedField) (id : Values.Ident)
    (field : ResolvedField) : IndexMap Values.Ident ResolvedField :=
  match im_get fields id with
  | Some prev => im_insert fields id (combine_field prev field)
  | None => im_insert fields id field
  end.

(** [Resolve for Record] *)
Definition resolve_step
    (acc : IndexMap Values.Ident ResolvedField * list (Ast * ResolvedField)) (d : FieldDef)
    : outcome (IndexMap Values.Ident ResolvedField * list (Ast * ResolvedField)) :=
  toplvl_field ← unwrap (head (path d));
  rfield ← resolve_def d;
  match toplvl_field with
  | PathIdent id => Done (insert_static_field acc.1 id rfield, acc.2)
  | PathExpr expr => Done (acc.1, acc.2 ++ [(expr, rfield)])
  end.

Fixpoint resolve_defs
    (acc : IndexMap Values.Ident ResolvedField * list (Ast * ResolvedField)) (ds : list FieldDef)
    : outcome (IndexMap Values.Ident ResolvedField * list (Ast * ResolvedField)) :=
  match ds with [] => Done acc | d :: ds => acc ← resolve_step acc d; resolve_defs acc ds end.

Definition resolve_record (r : Ast.Record) : outcome ResolvedRecord :=
  fields ← resolve_defs ([], []) (field_defs r);
  Done (mkResolved (shallow_new fields.1 fields.2) (rec_includes r)).

End combine.

(** ** Annotations of the pieces of a field *)

(** [ResolvedField::first_annot] *)
Fixpoint find_map {A B} (f : A → option B) (l : list A) : option B :=
  match l with [] => None | x :: l => match f x with Some y => Some y | None => find_map f l end end.

Definition def_annot (d : FieldDef) : Annotation := ast_annotation (def_metadata d).

Definition first_annot (f : ResolvedField) : option Type_ :=
  or_else (find_map (λ d, ast_annot_typ (def_annot d)) (defs f))
          (find_map (λ d, head (ast_annot_contracts (def_annot d))) (defs f)).

(** [AnnotSeqRef], for one annotation and for a sequence of definitions: the
    first type, the contracts, the main annotation, and all of them. *)
Record AnnotSeq : Type := mkAnnotSeq {
  seq_typ : option Type_;
  seq_contracts : list Type_;
  seq_first : option Type_;
  seq_iter : list Type_;
}.

Definition annot_seq (annot : Annotation) : AnnotSeq :=
  mkAnnotSeq (ast_annot_typ annot) (ast_annot_contracts annot) (annot_first annot)
    (annot_iter annot).

Definition defs_annot_seq (ds : list FieldDef) : AnnotSeq :=
  mkAnnotSeq
    (find_map (λ d, ast_annot_typ (def_annot d)) ds)
    (drop 1 (omap (λ d, ast_annot_typ (def_annot d)) ds)
     ++ concat (map (λ d, ast_annot_contracts (def_annot d)) ds))
    (find_map (λ d, annot_first (def_annot d)) ds)
    (concat (map (λ d, annot_iter (def_annot d)) ds)).

(** [HasApparentType] for [ResolvedField] and [Include] *)
Section apparent.
Context {ImportError : Type}.

Definition field_apparent_type (env : option TypeEnv)
    (resolver : option (Import → Prelude.result (option Ast) ImportError)) (f : ResolvedField)
    : ApparentType :=
  if negb (shallow_is_empty (resolved f)) then Approximated ATyDyn
  else
    match defs f with
    | [] => Approximated ATyDyn
    | [def] => def_apparent_type env resolver def
    | _ =>
        match first_annot f with Some ty => Annotated ty | None => Approximated ATyDyn end
    end.

Definition incl_apparent_type (env : option TypeEnv)
    (resolver : option (Import → Prelude.result (option Ast) ImportError)) (i : Include)
    : ApparentType :=
  annot_apparent_type env resolver (incl_annotation i) None.

End apparent.
