(* ===== verification/Typecheck.v ===== *)
(** * The typechecker ([core/src/typecheck/mod.rs], [core/src/typecheck/record.rs])

    The walk over code that is not statically typed, the bidirectional check of
    code that is, and records. The three mutually recursive methods of the traits
    [Walk], [Check] and [Infer] on terms are the parameters [walk], [check] and
    [infer] of the definitions that follow; [typechecker] ties the knot, with fuel
    that is shared with unification. *)
From stdpp Require Import strings.
From S2P Require Import Prelude IndexMap Values Records Make Ast Pattern UnifTypes UnifTable Unify Subtyping TcTypes TcPattern TcOperation TcRecord.

(** [RecordContext] *)
Record RecordContext : Type := mkRecordContext { outer : Context; inner : Context }.

Definition from_outer (ctxt : Context) : RecordContext := mkRecordContext ctxt ctxt.
Definition bind_inner (id : string) (ty : Ty) (ctxt : RecordContext) : RecordContext :=
  mkRecordContext (outer ctxt) (bind_type id ty (inner ctxt)).

(** A loop over two lists, as long as the shorter. *)
Definition for_each2 {E A B : Type} (f : A → B → comp (Ctr := Ctr) E unit)
    : list A → list B → comp (Ctr := Ctr) E unit :=
  fix go l1 l2 :=
    match l1, l2 with
    | x :: l1, y :: l2 => _ ← f x y; go l1 l2
    | _, _ => ok ()
    end.

(** [k] fresh variables. *)
Definition fresh_uvars {E : Type} (k : nat) (l : VarLevel) : comp (Ctr := Ctr) E (list Ty) :=
  allocating (λ tb, fresh_type_uvars k l tb).

Section typecheck.
Context `{IndexMapOps Values.Ident}.
Context {ImportError : Type}.
Context (type_eq : Ctr → Ctr → bool).
Context (resolve : Import → Prelude.result (option Ast) ImportError).

Abbreviation M := (comp (Ctr := Ctr) (TypecheckError ImportError)).

Section step.
Context (n : nat).
Context (walk : Context → Ast → M unit).
Context (check : Context → Ast → Ty → M unit).
Context (infer : Context → Ast → M Ty).

(** ** Types *)

(** [Walk for Type], [Walk for RecordRows] *)
Fixpoint walk_type (ctxt : Context) (ty : Type_) : M unit :=
  match ty with
  | ATyDyn | ATyNumber | ATyBool | ATyString | ATyForeignId | ATySymbol | ATyVar _ | ATyEnum _
  | ATyWildcard _ => ok ()
  | ATyArrow ty1 ty2 => _ ← walk_type ctxt ty1; walk_type ctxt ty2
  | ATyRecord rrows => walk_rrows ctxt rrows
  | ATyContract t => walk ctxt t
  | ATyDict ty _ | ATyArray ty | ATyForall _ _ ty => walk_type ctxt ty
  end
with walk_rrows (ctxt : Context) (rrows : AstRecordRows) : M unit :=
  match rrows with
  | ARREmpty | ARRTailVar _ | ARRTailDyn => ok ()
  | ARRExtend _ typ tail => _ ← walk_type ctxt typ; walk_rrows ctxt tail
  end.

(** ** Annotated terms *)

(** The types of the arguments, from a function contract. *)
Fixpoint arrow_domains (env : TermEnv) (ty : Type_) : list Ty :=
  match ty with
  | ATyArrow domain codomain => from_type env domain :: arrow_domains env codomain
  | _ => []
  end.

Definition contract_domains (env : TermEnv) (contracts : list Type_) : option (list Ty) :=
  find_map (λ c, match c with ATyArrow _ _ => Some (arrow_domains env c) | _ => None end) contracts.

(** The context of the variables of a pattern in walk mode. *)
Definition bind_pattern_walk (ctxt : Context) (p : Pattern) : M Context :=
  data ← pattern_types type_eq n ctxt ModeWalk p;
  ok (bind_types (named (pat_bindings (pat_state data))) ctxt).

Fixpoint bind_domains (ctxt : Context) (args : list Pattern) (domains : list Ty) : M Context :=
  match args with
  | [] => ok ctxt
  | arg :: args =>
      let uty := default dynamic (head domains) in
      ctxt ←
        (match try_as_any arg with
         | Some id =>
             let ctxt := bind_type (label id) uty ctxt in
             ok (match pat_alias arg with
                 | Some alias => bind_type (label alias) uty ctxt
                 | None => ctxt
                 end)
         | None => bind_pattern_walk ctxt arg
         end);
      bind_domains ctxt args (tail domains)
  end.

Definition walk_with_annot (ctxt : Context) (annots : AnnotSeq) (value : option Ast) : M unit :=
  _ ← for_each (walk_type ctxt) (seq_iter annots);
  match seq_typ annots, value with
  | Some ty2, Some value => check ctxt value (from_type (term_env ctxt) ty2)
  | None, Some value =>
      match value, contract_domains (term_env ctxt) (seq_contracts annots) with
      | NFun args body, Some domains =>
          ctxt ← bind_domains ctxt args domains;
          walk ctxt body
      | _, _ => walk ctxt value
      end
  | _, None => ok ()
  end.

Definition infer_with_annot (ctxt : Context) (annots : AnnotSeq) (value : option Ast) : M Ty :=
  _ ← for_each (walk_type ctxt) (seq_iter annots);
  match seq_typ annots, value with
  | Some ty2, Some value =>
      let uty2 := from_type (term_env ctxt) ty2 in
      _ ← check ctxt value uty2;
      ok uty2
  | None, _ =>
      match seq_contracts annots, value with
      | ty2 :: _, _ =>
          _ ← (match value with Some value => walk ctxt value | None => ok () end);
          ok (from_type (term_env ctxt) ty2)
      | [], Some value => infer ctxt value
      | [], None =>
          ok (match seq_first annots with
              | Some ty => from_type (term_env ctxt) ty
              | None => dynamic
              end)
      end
  | Some _, None =>
      ok (match seq_first annots with
          | Some ty => from_type (term_env ctxt) ty
          | None => dynamic
          end)
  end.

(** [FieldDefCheckView] *)
Definition check_view (ctxt : Context) (annots : AnnotSeq) (value : option Ast) (ty : Ty)
    : M unit :=
  match seq_iter annots with
  | [] =>
      match value with
      | Some value => check ctxt value ty
      | None => unify_at type_eq n ctxt ty dynamic
      end
  | _ =>
      inferred ← infer_with_annot ctxt annots value;
      subsumed_at type_eq n ctxt inferred ty
  end.

(** [Walk for FieldDef], [Check for FieldDef] *)
Definition walk_def (ctxt : Context) (d : FieldDef) : M unit :=
  walk_with_annot ctxt (annot_seq (def_annot d)) (def_value d).
Definition check_def (ctxt : Context) (ty : Ty) (d : FieldDef) : M unit :=
  _ ← reading (λ _, unwrap (last (path d)));
  check_view ctxt (annot_seq (def_annot d)) (def_value d) ty.

(** ** Records *)

(** A field defined piecewise, with at most one value. *)
Definition at_most_one_value (ds : list FieldDef) : bool :=
  length (omap def_value ds) <=? 1.

Definition assert_path (ds : list FieldDef) : M unit :=
  reading (λ _, d ← unwrap (head ds); _ ← unwrap (last (path d)); Done ()).

(** [ShallowRecord::walk_ctxt] *)
Definition walk_ctxt (ctxt : Context) (stat : list (Values.Ident * ResolvedField)) : RecordContext :=
  mkRecordContext ctxt
    (foldl (λ inner p,
       bind_type (label p.1)
         (from_apparent_type
            (field_apparent_type (Some (type_env ctxt)) (Some resolve) p.2) (term_env ctxt))
         inner) ctxt stat).

(** [Walk] and [WalkSplit] for [ShallowRecord] and [ResolvedField] *)
Definition walk_split (walk_field : Context → ResolvedField → M unit) (ctxt : RecordContext)
    (stat : list (Values.Ident * ResolvedField)) (dyn : list (Ast * ResolvedField)) : M unit :=
  _ ← for_each (λ p : Ast * ResolvedField,
        _ ← walk (outer ctxt) p.1; walk_field (inner ctxt) p.2) dyn;
  for_each (λ p : Values.Ident * ResolvedField, walk_field (inner ctxt) p.2) stat.

Fixpoint walk_field (ctxt : Context) (f : ResolvedField) : M unit :=
  let 'mkResolvedField (mkShallow stat dyn) defs := f in
  let walk_shallow := walk_split walk_field (walk_ctxt ctxt stat) stat dyn in
  match shallow_is_empty (mkShallow stat dyn), defs with
  | true, [] => λ _, Panic
  | false, [] => walk_shallow
  | true, _ =>
      if at_most_one_value defs then
        _ ← assert_path defs;
        walk_with_annot ctxt (defs_annot_seq defs) (find_map def_value defs)
      else _ ← for_each (walk_def ctxt) defs; walk_shallow
  | false, _ => _ ← for_each (walk_def ctxt) defs; walk_shallow
  end.

(** [WalkSplit for Include] *)
Definition walk_include (ctxt : RecordContext) (incl : Include) : M unit :=
  _ ← walk_with_annot (inner ctxt) (annot_seq (incl_annotation incl)) None;
  match ast_annot_typ (incl_annotation incl) with
  | Some ty =>
      let uty := from_type (term_env (outer ctxt)) ty in
      ty_outer ← get_type (outer ctxt) (incl_ident incl);
      subsumed_at type_eq n (outer ctxt) ty_outer uty
  | None => ok ()
  end.

(** [Walk for ResolvedRecord] *)
Definition walk_record (ctxt : Context) (r : ResolvedRecord) : M unit :=
  let 'mkShallow stat dyn := content r in
  ctxt ← fold_each (λ ctxt incl,
    ty ← (match incl_apparent_type (ImportError := ImportError)
                  (Some (type_env (outer ctxt))) None incl with
          | Annotated ty => ok (from_type (term_env (outer ctxt)) ty)
          | _ => get_type (outer ctxt) (incl_ident incl)
          end);
    let ctxt := bind_inner (label (incl_ident incl)) ty ctxt in
    _ ← walk_include ctxt incl;
    ok ctxt) (walk_ctxt ctxt stat) (includes r);
  walk_split walk_field ctxt stat dyn.

(** [subsumed_by_instantiated] *)
Definition subsumed_by_instantiated (ctxt : Context) (uty1 uty2 : Ty) : M unit :=
  '(instantiated, ctxt) ← instantiate n ctxt uty2 InstConstant;
  subsumed_at type_eq n ctxt uty1 instantiated.

(** [CheckSplit for Include] *)
Definition check_include (ctxt : RecordContext) (ty : Ty) (incl : Include) : M unit :=
  ty_outer ← get_type (outer ctxt) (incl_ident incl);
  _ ← for_each (walk_type (inner ctxt)) (annot_iter (incl_annotation incl));
  match head (annot_iter (incl_annotation incl)) with
  | Some ty_annot =>
      let uty_annot := from_type (term_env (inner ctxt)) ty_annot in
      _ ← (match ast_annot_typ (incl_annotation incl) with
           | Some _ => subsumed_by_instantiated (outer ctxt) ty_outer uty_annot
           | None => ok ()
           end);
      subsumed_at type_eq n (outer ctxt) uty_annot ty
  | None => subsumed_at type_eq n (outer ctxt) ty_outer ty
  end.

(** [ShallowRecord::check_dyn] *)
Definition check_dyn (check_field : Context → Ty → ResolvedField → M unit) (ctxt : Context)
    (stat : list (Values.Ident * ResolvedField)) (dyn : list (Ast * ResolvedField))
    (incls : list Include) (ty : Ty) : M unit :=
  let ctxt := from_outer ctxt in
  ty_elts ← fresh_uvar (var_level (outer ctxt));
  _ ← unify_at type_eq n (outer ctxt) ty (dict ty_elts);
  let ctxt :=
    foldl (λ ctxt id, bind_inner (label id) ty_elts ctxt) ctxt
      (map fst stat ++ map incl_ident incls) in
  _ ← for_each (λ p : Ast * ResolvedField,
        _ ← check (outer ctxt) p.1 str;
        check_field (inner ctxt) ty_elts p.2) dyn;
  _ ← for_each (λ p : Values.Ident * ResolvedField, check_field (inner ctxt) ty_elts p.2) stat;
  for_each (check_include ctxt ty_elts) incls.

(** The recursive environment that [check_stat] builds: the type of the fields,
    with the set of those that have no better type than a variable, and the type
    of the included fields. *)
Definition bind_stat_fields (ctxt : RecordContext) (stat : list (Values.Ident * ResolvedField))
    : M (RecordContext * gset Values.Ident) :=
  fold_each (λ '(ctxt, need_unif_step) p,
    let uty_apprt :=
      field_apparent_type (Some (type_env (outer ctxt))) (Some resolve) (p.2 : ResolvedField) in
    uty ← apparent_or_infer uty_apprt (outer ctxt) true;
    ok (bind_inner (label p.1) uty ctxt,
        match uty_apprt with
        | Approximated _ => {[ p.1 ]} ∪ need_unif_step
        | _ => need_unif_step
        end)) (ctxt, ∅) stat.

Definition bind_include (ctxt : RecordContext) (incl : Include) : M RecordContext :=
  ty_outer ← get_type (outer ctxt) (incl_ident incl);
  uty ← (match incl_apparent_type (ImportError := ImportError)
                 (Some (type_env (outer ctxt))) None incl with
         | Annotated ty_annot =>
             let uty_annot := from_type (term_env (outer ctxt)) ty_annot in
             _ ← (match ast_annot_typ (incl_annotation incl) with
                  | Some _ => subsumed_by_instantiated (outer ctxt) ty_outer uty_annot
                  | None => ok ()
                  end);
             ok uty_annot
         | _ => ok ty_outer
         end);
  ok (bind_inner (label (incl_ident incl)) uty ctxt).

(** [ShallowRecord::check_stat] *)
Definition check_stat (check_field : Context → Ty → ResolvedField → M unit) (ctxt : Context)
    (stat : list (Values.Ident * ResolvedField)) (incls : list Include) (ty : Ty) : M unit :=
  root_ty ← reading (λ st, into_root (types (table st)) ty);
  let ctxt := from_outer ctxt in
  match root_ty with
  | TConcrete (Dict type_fields _) _ =>
      _ ← for_each (λ p : Values.Ident * ResolvedField,
            check_field (inner ctxt) type_fields p.2) stat;
      for_each (check_include ctxt type_fields) incls
  | _ =>
      '(ctxt, need_unif_step) ← bind_stat_fields ctxt stat;
      ctxt ← fold_each bind_include ctxt incls;
      field_types ← fresh_uvars (length stat) (var_level (outer ctxt));
      let rows := mk_record_row (zip (map (label ∘ fst) stat) field_types) no_rrows in
      rows ← fold_each (λ acc incl,
        ty ← get_type (inner ctxt) (incl_ident incl);
        ok (mk_record_row [(label (incl_ident incl), ty)] acc)) rows (rev incls);
      _ ← unify_at type_eq n (outer ctxt) ty (type_concrete (Record rows));
      _ ← for_each2 (λ (p : Values.Ident * ResolvedField) field_type,
            _ ← (if decide (p.1 ∈ need_unif_step) then
                   affected_type ← reading (λ _, unwrap (type_env (inner ctxt) !! label p.1));
                   unify_at type_eq n (outer ctxt) field_type affected_type
                 else ok ());
            check_field (inner ctxt) field_type p.2) stat field_types;
      for_each (walk_type (inner ctxt)) (concat (map (λ i, annot_iter (incl_annotation i)) incls))
  end.

(** [Check for ShallowRecord], [Check for ResolvedRecord] *)
Definition check_shallow (check_field : Context → Ty → ResolvedField → M unit) (ctxt : Context)
    (stat : list (Values.Ident * ResolvedField)) (dyn : list (Ast * ResolvedField))
    (incls : list Include) (ty : Ty) : M unit :=
  match dyn with
  | [] => check_stat check_field ctxt stat incls ty
  | _ => check_dyn check_field ctxt stat dyn incls ty
  end.

(** [Check for ResolvedField] *)
Fixpoint check_field (ctxt : Context) (ty : Ty) (f : ResolvedField) : M unit :=
  let 'mkResolvedField (mkShallow stat dyn) defs := f in
  match shallow_is_empty (mkShallow stat dyn), defs with
  | true, [] => λ _, Panic
  | false, [] => check_shallow check_field ctxt stat dyn [] ty
  | true, _ =>
      if at_most_one_value defs then
        _ ← assert_path defs;
        check_view ctxt (defs_annot_seq defs) (find_map def_value defs) ty
      else for_each (check_def ctxt dynamic) defs
  | false, _ =>
      _ ← for_each (check_def ctxt dynamic) defs;
      check_shallow check_field ctxt stat dyn [] dynamic
  end.

Definition check_record (ctxt : Context) (r : ResolvedRecord) (ty : Ty) : M unit :=
  let 'mkShallow stat dyn := content r in
  check_shallow check_field ctxt stat dyn (includes r) ty.

(** ** [walk] *)

Definition rec_names (bindings : list LetBinding) : list Values.Ident :=
  concat (map (λ b, bound_ids (let_pattern b)) bindings).

(** The variables of a [let] block, with the best type that is known of them. *)
Definition register_binding (start_ctxt : Context) (value : Ast) (id : Values.Ident) (uty : Ty)
    (ctxt : Context) : Context :=
  bind_term (label id) (value, term_env start_ctxt) (bind_type (label id) uty ctxt).
Definition register_bindings (start_ctxt : Context) (value : Ast) (bs : TypeBindings)
    (ctxt : Context) : Context :=
  foldl (λ ctxt b, register_binding start_ctxt value b.1 b.2 ctxt) ctxt bs.
Definition register_option (start_ctxt : Context) (value : Ast) (id : option Values.Ident)
    (uty : Ty) (ctxt : Context) : Context :=
  match id with Some id => register_binding start_ctxt value id uty ctxt | None => ctxt end.

Definition walk_let_binding (start_ctxt ctxt : Context) (b : LetBinding) : M Context :=
  ty_let ← binding_type resolve b start_ctxt false;
  data ← pattern_types type_eq n start_ctxt ModeWalk (let_pattern b);
  let ctxt := register_bindings start_ctxt (let_value b) (pat_bindings (pat_state data)) ctxt in
  let ctxt := register_option start_ctxt (let_value b) (pat_alias (let_pattern b)) ty_let ctxt in
  ok (register_option start_ctxt (let_value b) (try_as_any (let_pattern b)) ty_let ctxt).

Definition walk_let (ctxt : Context) (bindings : list LetBinding) (body : Ast) (rec : bool)
    : M unit :=
  let start_ctxt :=
    if rec then bind_types (map (λ id, (label id, dynamic)) (rec_names bindings)) ctxt else ctxt in
  ctxt ← fold_each (walk_let_binding start_ctxt) start_ctxt bindings;
  let value_ctxt := if rec then ctxt else start_ctxt in
  _ ← for_each (λ b,
        walk_with_annot value_ctxt (annot_seq (let_annotation (let_metadata b)))
          (Some (let_value b))) bindings;
  walk ctxt body.

Definition walk_branch (ctxt : Context) (br : MatchBranch) : M unit :=
  let 'mkMatchBranch pattern guard body := br in
  local_ctxt ← bind_pattern_walk ctxt pattern;
  _ ← (match guard with Some guard => walk local_ctxt guard | None => ok () end);
  walk local_ctxt body.

Definition walk_chunk (ctxt : Context) (c : StringChunk) : M unit :=
  match c with AChunkLiteral _ => ok () | AChunkExpr t _ => walk ctxt t end.

Definition resolve_import (import : Import) : M (option Ast) :=
  match resolve import with Prelude.Ok a => ok a | Err e => err (ImportFailed e) end.

Definition walk_ast (ctxt : Context) (a : Ast) : M unit :=
  match a with
  | NParseError _ | NNull | NBool _ | NNumber _ | NString _ | NEnumVariant _ None => ok ()
  | NImport import => _ ← resolve_import import; ok ()
  | NVar x => _ ← get_type ctxt x; ok ()
  | NStringChunks chunks => for_each (walk_chunk ctxt) chunks
  | NFun args body => ctxt ← fold_each bind_pattern_walk ctxt args; walk ctxt body
  | NArray elts => for_each (walk ctxt) elts
  | NLet bindings body rec => walk_let ctxt bindings body rec
  | NApp head args => _ ← walk ctxt head; for_each (walk ctxt) args
  | NMatch branches => for_each (walk_branch ctxt) branches
  | NIfThenElse cond then_branch else_branch =>
      _ ← walk ctxt cond; _ ← walk ctxt then_branch; walk ctxt else_branch
  | NRecord record => r ← reading (λ _, resolve_record record); walk_record ctxt r
  | NEnumVariant _ (Some arg) => walk ctxt arg
  | NPrimOpApp _ args => for_each (walk ctxt) args
  | NAnnotated annot inner => walk_with_annot ctxt (annot_seq annot) (Some inner)
  | NType typ => walk_type ctxt typ
  end.

(** ** [check] *)

(** The arguments, from the last one: the type of the function that is being
    built, and the context of its body. *)
Definition check_fun_arg (acc : Ty * Context) (arg : Pattern) : M (Ty * Context) :=
  let '(fun_type, ctxt) := acc in
  data ← data_types type_eq n ctxt ModeEnforce (pat_data arg);
  _ ← close_all_enums n (enum_open_tails (pat_state data));
  let ctxt :=
    match pat_alias arg with
    | Some alias => bind_type (label alias) (pat_typ data) ctxt
    | None => ctxt
    end in
  ok (arrow (pat_typ data) fun_type, bind_types (named (pat_bindings (pat_state data))) ctxt).

Definition check_fun (ctxt : Context) (args : list Pattern) (body : Ast) (ty : Ty) : M unit :=
  codomain ← fresh_uvar (var_level ctxt);
  '(fun_type, ctxt) ← fold_each check_fun_arg (codomain, ctxt) (rev args);
  _ ← unify_at type_eq n ctxt ty fun_type;
  check ctxt body codomain.

Definition check_array (ctxt : Context) (elts : list Ast) (ty : Ty) : M unit :=
  ty_elts ← fresh_uvar (var_level ctxt);
  _ ← unify_at type_eq n ctxt ty (array ty_elts);
  for_each (λ elt, check ctxt elt ty_elts) elts.

(** A binding: its type, and the context with its variables. *)
Definition check_let_binding (start_ctxt : Context) (acc : list Ty * Context) (b : LetBinding)
    : M (list Ty * Context) :=
  let '(types, ctxt) := acc in
  ty_bound ← binding_type resolve b start_ctxt true;
  ctxt ←
    (match try_as_any (let_pattern b) with
     | Some id =>
         let ctxt :=
           register_option start_ctxt (let_value b) (pat_alias (let_pattern b)) ty_bound ctxt in
         ok (register_binding start_ctxt (let_value b) id ty_bound ctxt)
     | None =>
         data ← data_types type_eq n start_ctxt ModeEnforce (pat_data (let_pattern b));
         _ ← close_all_enums n (enum_open_tails (pat_state data));
         _ ← unify_at type_eq n start_ctxt (pat_typ data) ty_bound;
         let ctxt :=
           register_option start_ctxt (let_value b) (pat_alias (let_pattern b)) ty_bound ctxt in
         ok (register_bindings start_ctxt (let_value b) (pat_bindings (pat_state data)) ctxt)
     end);
  ok (types ++ [ty_bound], ctxt).

Definition check_let_value (re_ctxt : Context) (b : LetBinding) (ty_bound : Ty) : M unit :=
  let annot := let_annotation (let_metadata b) in
  if ast_annot_is_empty annot then check re_ctxt (let_value b) ty_bound
  else _ ← infer_with_annot re_ctxt (annot_seq annot) (Some (let_value b)); ok ().

Definition check_let (ctxt : Context) (bindings : list LetBinding) (body : Ast) (rec : bool)
    (ty : Ty) : M unit :=
  start_ctxt ←
    (if rec then
       fold_each (λ ctxt id,
         uty ← fresh_uvar (var_level ctxt); ok (bind_type (label id) uty ctxt))
         ctxt (rec_names bindings)
     else ok ctxt);
  '(types, ctxt) ← fold_each (check_let_binding start_ctxt) ([], start_ctxt) bindings;
  let re_ctxt := if rec then ctxt else start_ctxt in
  _ ← for_each2 (check_let_value re_ctxt) bindings types;
  check ctxt body ty.

(** The guard and the body of a branch: the context goes on to the next one. *)
Definition check_branch (return_type : Ty) (ctxt : Context) (branch : MatchBranch * PatternTypeData)
    : M Context :=
  let '(mkMatchBranch pattern guard body, data) := branch in
  let ctxt :=
    match pat_alias pattern with
    | Some alias => bind_type (label alias) return_type ctxt
    | None => ctxt
    end in
  let ctxt := bind_types (named (pat_bindings (pat_state data))) ctxt in
  _ ← (match guard with Some guard => check ctxt guard bool_ | None => ok () end);
  _ ← check ctxt body return_type;
  ok ctxt.

(** The types of the patterns are unified together, up to the first error; the
    tails and wildcards of those before are returned. *)
Fixpoint unify_patterns (ctxt : Context) (arg_type : Ty) (datas : list PatternTypeData)
    (tails : list (PatternPath * ER)) (wildcards : gset PatternPath)
    : M (Prelude.result unit (TypecheckError ImportError) * list (PatternPath * ER) * gset PatternPath) :=
  match datas with
  | [] => ok (Prelude.Ok (), tails, wildcards)
  | data :: datas =>
      r ← try_ (unify_at (ImportError := ImportError) type_eq n ctxt arg_type (pat_typ data));
      match r with
      | Err e => ok (Err e, tails, wildcards)
      | Prelude.Ok _ =>
          unify_patterns ctxt arg_type datas (tails ++ enum_open_tails (pat_state data))
            (wildcards ∪ wildcard_pat_paths (pat_state data))
      end
  end.

Definition check_match (ctxt : Context) (branches : list MatchBranch) (ty : Ty) : M unit :=
  datas ← fold_each (λ datas br,
    let 'mkMatchBranch pattern _ _ := br in
    data ← pattern_types type_eq n ctxt ModeEnforce pattern; ok (datas ++ [data])) [] branches;
  arg_type ← fresh_uvar (var_level ctxt);
  return_type ← fresh_uvar (var_level ctxt);
  ctxt ← fold_each (check_branch return_type) ctxt (zip branches datas);
  '(pat_unif_result, tails, wildcards) ← unify_patterns ctxt arg_type datas [] ∅;
  _ ← close_enums n tails wildcards;
  _ ← (match pat_unif_result with Prelude.Ok () => ok () | Err e => err e end);
  unify_at type_eq n ctxt ty (arrow arg_type return_type).

Definition check_import (ctxt : Context) (import : Import) (ty : Ty) : M unit :=
  imported ← resolve_import import;
  let ty_import :=
    match imported with
    | Some a => from_apparent_type (apparent_type_move a) (term_env ctxt)
    | None => dynamic
    end in
  unify_at type_eq n ctxt ty ty_import.

Definition check_ast (ctxt : Context) (a : Ast) (ty : Ty) : M unit :=
  '(ty, ctxt) ← instantiate n ctxt ty InstConstant;
  match a with
  | NParseError _ => ok ()
  | NNull => unify_at type_eq n ctxt ty dynamic
  | NBool _ => unify_at type_eq n ctxt ty bool_
  | NNumber _ => unify_at type_eq n ctxt ty num
  | NString _ => unify_at type_eq n ctxt ty str
  | NStringChunks chunks =>
      _ ← unify_at type_eq n ctxt ty str;
      for_each (λ c, match c with
                     | AChunkExpr t _ => check ctxt t str
                     | AChunkLiteral _ => ok ()
                     end) chunks
  | NIfThenElse cond then_branch else_branch =>
      _ ← check ctxt cond bool_;
      _ ← check ctxt then_branch ty;
      check ctxt else_branch ty
  | NFun args body => check_fun ctxt args body ty
  | NArray elts => check_array ctxt elts ty
  | NLet bindings body rec => check_let ctxt bindings body rec ty
  | NMatch branches => check_match ctxt branches ty
  | NVar _ | NApp _ _ | NPrimOpApp _ _ | NAnnotated _ _ =>
      inferred ← infer ctxt a;
      subsumed_at type_eq n ctxt inferred ty
  | NEnumVariant tag None =>
      row ← allocating (λ tb, fresh_erows_uvar tb (var_level ctxt));
      unify_at type_eq n ctxt ty (mk_uty_enum_rows (tags [label tag]) row)
  | NEnumVariant tag (Some arg) =>
      tail ← allocating (λ tb, fresh_erows_uvar tb (var_level ctxt));
      ty_arg ← fresh_uvar (var_level ctxt);
      _ ← unify_at type_eq n ctxt ty (mk_uty_enum_rows [(label tag, Some ty_arg)] tail);
      check ctxt arg ty_arg
  | NRecord record => r ← reading (λ _, resolve_record record); check_record ctxt r ty
  | NImport import => check_import ctxt import ty
  | NType typ =>
      match find_contract typ with
      | Some contract => err (CtrTypeInTermPos contract)
      | None => ok ()
      end
  end.

(** ** [infer] *)

Definition infer_app (ctxt : Context) (head : Ast) (args : list Ast) : M Ty :=
  head_poly ← infer ctxt head;
  '(head_type, ctxt) ← instantiate n ctxt head_poly InstUnifVar;
  arg_types ← fresh_uvars (length args) (var_level ctxt);
  codomain ← fresh_uvar (var_level ctxt);
  _ ← unify_at type_eq n ctxt (nary_arrow arg_types codomain) head_type;
  _ ← for_each2 (check ctxt) args arg_types;
  ok codomain.

Definition infer_ast (ctxt : Context) (a : Ast) : M Ty :=
  match a with
  | NVar x => get_type ctxt x
  | NPrimOpApp op args =>
      '(tys_args, ty_res) ← primop_type (var_level ctxt) op;
      _ ← for_each2 (λ ty_arg arg, check ctxt arg ty_arg) tys_args args;
      ok ty_res
  | NApp head args => infer_app ctxt head args
  | NAnnotated annot inner => infer_with_annot ctxt (annot_seq annot) (Some inner)
  | _ =>
      inferred ← fresh_uvar (var_level ctxt);
      _ ← check ctxt a inferred;
      reading (λ st, into_root (types (table st)) inferred)
  end.

End step.

(** ** The knot *)

Record Checker : Type := mkChecker {
  walk : Context → Ast → M unit;
  check : Context → Ast → Ty → M unit;
  infer : Context → Ast → M Ty;
}.

Fixpoint typechecker (n : nat) : Checker :=
  match n with
  | 0 => mkChecker (λ _ _ _, OutOfFuel) (λ _ _ _ _, OutOfFuel) (λ _ _ _, OutOfFuel)
  | S n =>
      let '(mkChecker walk check infer) := typechecker n in
      mkChecker (walk_ast n walk check) (check_ast n walk check infer)
        (infer_ast n walk check infer)
  end.

(** ** Entry points *)

(** [into_type] and its variants: what is not concrete becomes [Dyn], or no
    rows. *)
Definition kind_into (k : UnifTypes.VarKind) : Values.VarKind :=
  match k with
  | KindType => Values.KindType
  | KindEnumRows excluded => Values.KindEnumRows (set_map ident excluded)
  | KindRecordRows excluded => Values.KindRecordRows (set_map ident excluded)
  end.

Definition flavour_into (f : UnifTypes.DictTypeFlavour) : Values.DictTypeFlavour :=
  match f with FlavourType => Values.FlavourType | FlavourContract => Values.FlavourContract end.

Fixpoint into_type (n : nat) (tb : UnifTable Ctr) (t : Ty) : outcome Type_ :=
  match n with
  | 0 => OutOfFuel
  | S n =>
      root ← into_root (types tb) t;
      match root with
      | TUnifVar _ _ | TConstant _ => Done ATyDyn
      | TConcrete typ _ =>
          match typ with
          | Dyn => Done ATyDyn | Number => Done ATyNumber | Bool => Done ATyBool
          | String => Done ATyString | Symbol => Done ATySymbol | ForeignId => Done ATyForeignId
          | Contract (t, _) => Done (ATyContract t)
          | Arrow dom codom =>
              dom ← into_type n tb dom; codom ← into_type n tb codom; Done (ATyArrow dom codom)
          | Var id => Done (ATyVar (ident id))
          | Forall var k body =>
              body ← into_type n tb body; Done (ATyForall (ident var) (kind_into k) body)
          | Enum erows => erows ← into_erows n tb erows; Done (ATyEnum erows)
          | UnifTypes.Record rrows => rrows ← into_rrows n tb rrows; Done (ATyRecord rrows)
          | Dict t flavour => t ← into_type n tb t; Done (ATyDict t (flavour_into flavour))
          | Array t => t ← into_type n tb t; Done (ATyArray t)
          | Wildcard id => Done (ATyWildcard id)
          end
      end
  end
with into_rrows (n : nat) (tb : UnifTable Ctr) (r : RR) : outcome AstRecordRows :=
  match n with
  | 0 => OutOfFuel
  | S n =>
      root ← into_root (rrows tb) r;
      match root with
      | RUnifVar _ _ | RConstant _ => Done ARREmpty
      | RConcrete REmpty _ => Done ARREmpty
      | RConcrete RTailDyn _ => Done ARRTailDyn
      | RConcrete (RTailVar id) _ => Done (ARRTailVar (ident id))
      | RConcrete (RExtend row tail) _ =>
          typ ← into_type n tb (rrow_typ row);
          tail ← into_rrows n tb tail;
          Done (ARRExtend (ident (rrow_id row)) typ tail)
      end
  end
with into_erows (n : nat) (tb : UnifTable Ctr) (e : ER) : outcome AstEnumRows :=
  match n with
  | 0 => OutOfFuel
  | S n =>
      root ← into_root (erows tb) e;
      match root with
      | EUnifVar _ _ | EConstant _ => Done AEREmpty
      | EConcrete EEmpty _ => Done AEREmpty
      | EConcrete (ETailVar id) _ => Done (AERTailVar (ident id))
      | EConcrete (EExtend row tail) _ =>
          typ ← (match erow_typ row with
                 | Some t => t ← into_type n tb t; Done (Some t)
                 | None => Done None
                 end);
          tail ← into_erows n tb tail;
          Done (AERExtend (ident (erow_id row)) typ tail)
      end
  end.

Definition wildcard_vars_to_type (n : nat) (wildcard_vars : list Ty) (tb : UnifTable Ctr)
    : outcome (list Type_) := mapM (into_type n tb) wildcard_vars.

Definition state_new : State := mkState table_new ∅ [].

(** [typecheck_visit], [typecheck]: the types of the wildcards. *)
Definition typecheck_visit (n : nat) (a : Ast) (initial_ctxt : Context) (mode : TypecheckMode)
    : outcome (Prelude.result (UnifTable Ctr * list Type_) (TypecheckError ImportError)) :=
  '(r, st) ←
    (match mode with
     | ModeEnforce =>
         uty ← fresh_uvar (var_level initial_ctxt);
         check (typechecker n) initial_ctxt a uty
     | ModeWalk => walk (typechecker n) initial_ctxt a
     end : M unit) state_new;
  match r with
  | Err e => Done (Err e)
  | Prelude.Ok () =>
      wildcards ← wildcard_vars_to_type n (wildcard_vars st) (table st);
      Done (Prelude.Ok (table st, wildcards))
  end.

Definition typecheck (n : nat) (a : Ast) (initial_ctxt : Context) (mode : TypecheckMode)
    : outcome (Prelude.result (list Type_) (TypecheckError ImportError)) :=
  r ← typecheck_visit n a initial_ctxt mode;
  Done (match r with Prelude.Ok (_, wildcards) => Prelude.Ok wildcards | Err e => Err e end).

End typecheck.
