(* ===== verification/TcRules.v ===== *)
(** * Typing rules

    The type system that the typechecker implements, as inductive judgements:
    without unification variables to allocate, without state and without fuel. A
    judgement is relative to the assignments [b] of a unification table, through
    [ty_eq] and [ty_sub]. [pat_has]: a pattern has a type, with the types of its
    variables, the open tails of its enum types, and the places where anything
    matches. [wt_walk]: the statically typed blocks of an expression are well
    typed. [wt_check], [wt_infer]: an expression has a type. *)
From stdpp Require Import strings.
From S2P Require Import Prelude IndexMap Values Records Make Ast Pattern UnifTypes UnifTable SlotFacts Unify UnifRel UnifTableFacts UnifySound Subtyping TcTypes TcPattern TcOperation TcRecord Typecheck.

Section rules.
Context `{IndexMapOps Values.Ident}.
Context {ImportError : Type}.
Context (type_eq : Ctr → Ctr → bool).
Context (resolve : Import → Prelude.result (option Ast) ImportError).

(** ** Contexts *)

Definition env_in (D : dims) (ctxt : Context) : Prop :=
  ∀ x t, type_env ctxt !! x = Some t → ty_in D t.

(** ** Patterns *)

(** Rows that end: no value has another tag. *)
Inductive closed_rows (b : bindings Ctr) : ER → Prop :=
| cr_empty d : closed_rows b (EConcrete EEmpty d)
| cr_extend row tail d : closed_rows b tail → closed_rows b (EConcrete (EExtend row tail) d)
| cr_eq e e' : er_eq type_eq b e e' → closed_rows b e' → closed_rows b e.

(** Two lists of variables, the same up to the order, with equal types. *)
Definition same_vars (b : bindings Ctr) (mode : TypecheckMode) (bs1 bs2 : TypeBindings) : Prop :=
  Forall2 (λ x y, x.1 = y.1 ∧ (mode = ModeEnforce → ty_eq type_eq b x.2 y.2))
    (sort_by_id bs1) (sort_by_id bs2).

(** The type of what matches anything. *)
Definition any_has (mode : TypecheckMode) (t : Ty) : Prop := mode = ModeWalk → t = dynamic.

Section patterns.
Context (b : bindings Ctr) (env : TermEnv) (mode : TypecheckMode).

Inductive pat_has : PatternPath → Pattern → Ty → TypeBindings → list (PatternPath * ER) →
    list PatternPath → Prop :=
| ph_alias π d alias t bs tails wilds :
    data_has π d t bs tails wilds →
    pat_has π (mkPattern d alias) t (bs ++ option_list ((λ a, (a, t)) <$> alias)) tails wilds
with data_has : PatternPath → PatternData → Ty → TypeBindings → list (PatternPath * ER) →
    list PatternPath → Prop :=
| dh_wildcard π t : any_has mode t → data_has π PatWildcard t [] [] [π]
| dh_any π id t : any_has mode t → data_has π (PatAny id) t [(id, t)] [] [π]
| dh_constant π c : data_has π (PatConstant c) (constant_pattern_type c) [] [] []
| dh_record π fps tail rest rows bs tails wilds :
    match mode, tail_is_open tail with
    | _, false => rest = no_rrows
    | ModeWalk, true => rest = rrows_concrete RTailDyn
    | ModeEnforce, true => True
    end →
    rows_have π rest fps rows bs tails wilds →
    data_has π (PatRecord fps tail) (type_concrete (Record rows))
      (match tail with TailCapture id => [(id, type_concrete (Record rest))] | _ => [] end ++ bs)
      tails wilds
| dh_array π ps tail elem bs tails wilds :
    any_has mode elem →
    elems_have π 0 elem ps bs tails wilds →
    data_has π (PatArray ps tail) (array elem)
      (bs ++ match tail with TailCapture id => [(id, array elem)] | _ => [] end) tails wilds
| dh_tag π tag tail :
    data_has π (PatEnum tag None)
      (type_concrete (Enum (erows_concrete (EExtend (mkEnumRow (label tag) None) tail))))
      [] [(π, tail)] []
| dh_variant π tag p t tail bs tails wilds :
    pat_has (π ++ [PathVariant]) p t bs tails wilds →
    data_has π (PatEnum tag (Some p))
      (type_concrete (Enum (erows_concrete (EExtend (mkEnumRow (label tag) (Some t)) tail))))
      bs (tails ++ [(π, tail)]) wilds
| dh_or_empty π :
    data_has π (PatOr []) (type_concrete (Forall "a" KindType (type_concrete (Var "a")))) [] [] []
| dh_or π p ps t bs tails wilds tails' wilds' :
    pat_has π p t bs tails wilds →
    or_have π t bs ps tails' wilds' →
    data_has π (PatOr (p :: ps)) t (sort_by_id bs) (tails ++ tails') (wilds ++ wilds')
(** The fields of a record pattern, each in front of the rows of those before. *)
with rows_have : PatternPath → RR → list FieldPattern → RR → TypeBindings →
    list (PatternPath * ER) → list PatternPath → Prop :=
| rh_nil π rows : rows_have π rows [] rows [] [] []
| rh_cons π rest id annot def p fps t rows bs tails wilds bs' tails' wilds' :
    field_has (π ++ [PathField (label id)]) annot p t bs tails wilds →
    rows_have π (rrows_concrete (RExtend (mkRecordRow (label id) t) rest)) fps rows bs' tails' wilds' →
    rows_have π rest (mkFieldPattern id annot def p :: fps) rows
      (bs ++ bs') (tails ++ tails') (wilds ++ wilds')
with field_has : PatternPath → Annotation → Pattern → Ty → TypeBindings →
    list (PatternPath * ER) → list PatternPath → Prop :=
| fh_plain π annot p t bs tails wilds :
    ast_annot_typ annot = None → pat_has π p t bs tails wilds →
    field_has π annot p t bs tails wilds
| fh_annot π annot ty p t bs tails wilds :
    ast_annot_typ annot = Some ty → pat_has π p t bs tails wilds →
    ty_eq type_eq b t (from_type env ty) →
    field_has π annot p t bs tails wilds
| fh_walk_any π annot ty id alias :
    mode = ModeWalk → ast_annot_typ annot = Some ty →
    field_has π annot (mkPattern (PatAny id) alias) (from_type env ty)
      [(id, from_type env ty)] [] []
| fh_walk_wildcard π annot ty alias :
    mode = ModeWalk → ast_annot_typ annot = Some ty →
    field_has π annot (mkPattern PatWildcard alias) (from_type env ty) [] [] []
with elems_have : PatternPath → nat → Ty → list Pattern → TypeBindings →
    list (PatternPath * ER) → list PatternPath → Prop :=
| eh_nil π i elem : elems_have π i elem [] [] [] []
| eh_cons π i elem p ps t bs tails wilds bs' tails' wilds' :
    pat_has (π ++ [PathArray i]) p t bs tails wilds →
    (mode = ModeEnforce → ty_eq type_eq b elem t) →
    elems_have π (S i) elem ps bs' tails' wilds' →
    elems_have π i elem (p :: ps) (bs ++ bs') (tails ++ tails') (wilds ++ wilds')
(** The branches of an or-pattern after the first one. *)
with or_have : PatternPath → Ty → TypeBindings → list Pattern →
    list (PatternPath * ER) → list PatternPath → Prop :=
| oh_nil π model_typ model : or_have π model_typ model [] [] []
| oh_cons π model_typ model p ps t bs tails wilds tails' wilds' :
    pat_has π p t bs tails wilds →
    (mode = ModeEnforce → ty_eq type_eq b model_typ t) →
    same_vars b mode model bs →
    or_have π model_typ model ps tails' wilds' →
    or_have π model_typ model (p :: ps) (tails ++ tails') (wilds ++ wilds').

End patterns.

(** ** Instances *)

(** The type of an operator, with its variables allocated in some state. *)
Definition op_has (op : PrimOp) (args : list Ty) (t : Ty) : Prop :=
  ∃ l st st', primop_type (E := TypecheckError ImportError) l op st
              = Done (Prelude.Ok (args, t), st').

(** The type bound to a variable or a field whose apparent type is [aty]; any type
    when it is an approximation, to be justified by the value. An annotation may
    have wildcards: equality replaces them. *)
Definition apparent_has (b : bindings Ctr) (ctxt : Context) (aty : ApparentType) (t : Ty) : Prop :=
  match aty with
  | Annotated ty => ty_eq type_eq b (from_type (term_env ctxt) ty) t
  | Approximated _ => True
  | _ => t = from_apparent_type aty (term_env ctxt)
  end.

(** The head quantifiers of a type replaced with fresh constants, which do not occur
    in what is known in dimensions [D0]. *)
Inductive const_instance (b : bindings Ctr) (D0 : dims) : Ty → Ty → Prop :=
| ci_refl t : const_instance b D0 t t
| ci_eq t t' u : ty_eq type_eq b t t' → const_instance b D0 t' u → const_instance b D0 t u
| ci_forall D v k body d c u :
    dims_le D0 D → ty_in D body → fresh_const D k c → const_instance b D0 (subst body v c) u →
    const_instance b D0 (TConcrete (Forall v k body) d) u.

(** ** Expressions *)

(** The elimination forms, that have a type of their own. *)
Definition infers (a : Ast) : bool :=
  match a with NVar _ | NApp _ _ | NPrimOpApp _ _ | NAnnotated _ _ => true | _ => false end.

Section typing.
Context (b : bindings Ctr).

Inductive wt_walk : Context → Ast → Prop :=
| ww_leaf ctxt a :
    match a with
    | NParseError _ | NNull | NBool _ | NNumber _ | NString _ | NEnumVariant _ None => True
    | _ => False
    end → wt_walk ctxt a
| ww_import ctxt i a : resolve i = Prelude.Ok a → wt_walk ctxt (NImport i)
| ww_var ctxt x t : type_env ctxt !! label x = Some t → wt_walk ctxt (NVar x)
| ww_chunks ctxt chunks :
    (∀ e k, AChunkExpr e k ∈ chunks → wt_walk ctxt e) → wt_walk ctxt (NStringChunks chunks)
| ww_fun ctxt args body ctxt' :
    bind_patterns ctxt args ctxt' → wt_walk ctxt' body → wt_walk ctxt (NFun args body)
| ww_array ctxt elts : (∀ e, e ∈ elts → wt_walk ctxt e) → wt_walk ctxt (NArray elts)
| ww_let ctxt bindings body (rec : bool) ctxt0 ctxt' :
    ctxt0 = (if rec
             then bind_types (map (λ id, (label id, dynamic)) (rec_names bindings)) ctxt
             else ctxt) →
    walk_lets ctxt0 ctxt0 bindings ctxt' →
    (∀ lb, lb ∈ bindings →
       wt_annot_walk (if rec then ctxt' else ctxt0) (annot_seq (let_annotation (let_metadata lb)))
         (Some (let_value lb))) →
    wt_walk ctxt' body →
    wt_walk ctxt (NLet bindings body rec)
| ww_app ctxt head args :
    wt_walk ctxt head → (∀ e, e ∈ args → wt_walk ctxt e) → wt_walk ctxt (NApp head args)
| ww_match ctxt branches :
    (∀ p guard body, mkMatchBranch p guard body ∈ branches →
       ∃ ctxt', bind_patterns ctxt [p] ctxt' ∧ (∀ g, guard = Some g → wt_walk ctxt' g) ∧
                wt_walk ctxt' body) →
    wt_walk ctxt (NMatch branches)
| ww_if ctxt c e1 e2 :
    wt_walk ctxt c → wt_walk ctxt e1 → wt_walk ctxt e2 → wt_walk ctxt (NIfThenElse c e1 e2)
| ww_record ctxt r rr :
    resolve_record r = Done rr → wt_walk_record ctxt rr → wt_walk ctxt (NRecord r)
| ww_variant ctxt tag arg : wt_walk ctxt arg → wt_walk ctxt (NEnumVariant tag (Some arg))
| ww_primop ctxt op args : (∀ e, e ∈ args → wt_walk ctxt e) → wt_walk ctxt (NPrimOpApp op args)
| ww_annotated ctxt annot inner :
    wt_annot_walk ctxt (annot_seq annot) (Some inner) → wt_walk ctxt (NAnnotated annot inner)
| ww_type ctxt ty : wt_type ctxt ty → wt_walk ctxt (NType ty)

(** The contracts inside a type. *)
with wt_type : Context → Type_ → Prop :=
| wy_leaf ctxt ty :
    match ty with
    | ATyDyn | ATyNumber | ATyBool | ATyString | ATyForeignId | ATySymbol | ATyVar _ | ATyEnum _
    | ATyWildcard _ => True
    | _ => False
    end → wt_type ctxt ty
| wy_arrow ctxt t1 t2 : wt_type ctxt t1 → wt_type ctxt t2 → wt_type ctxt (ATyArrow t1 t2)
| wy_contract ctxt a : wt_walk ctxt a → wt_type ctxt (ATyContract a)
| wy_dict ctxt t f : wt_type ctxt t → wt_type ctxt (ATyDict t f)
| wy_array ctxt t : wt_type ctxt t → wt_type ctxt (ATyArray t)
| wy_forall ctxt v k t : wt_type ctxt t → wt_type ctxt (ATyForall v k t)
| wy_record ctxt r : wt_type_rows ctxt r → wt_type ctxt (ATyRecord r)
with wt_type_rows : Context → AstRecordRows → Prop :=
| wyr_end ctxt r :
    match r with ARRExtend _ _ _ => False | _ => True end → wt_type_rows ctxt r
| wyr_extend ctxt id t r :
    wt_type ctxt t → wt_type_rows ctxt r → wt_type_rows ctxt (ARRExtend id t r)

(** A value under annotations: it is checked against the type annotation; with
    contracts only, it is code that is not typed. *)
with wt_annot_walk : Context → AnnotSeq → option Ast → Prop :=
| wa_typ ctxt annots ty value :
    (∀ t, t ∈ seq_iter annots → wt_type ctxt t) →
    seq_typ annots = Some ty →
    wt_check ctxt value (from_type (term_env ctxt) ty) →
    wt_annot_walk ctxt annots (Some value)
| wa_walk ctxt annots value :
    (∀ t, t ∈ seq_iter annots → wt_type ctxt t) →
    seq_typ annots = None →
    wt_walk ctxt value →
    wt_annot_walk ctxt annots (Some value)
| wa_domains ctxt annots args body domains ctxt' :
    (∀ t, t ∈ seq_iter annots → wt_type ctxt t) →
    seq_typ annots = None →
    contract_domains (term_env ctxt) (seq_contracts annots) = Some domains →
    bind_args ctxt args domains ctxt' →
    wt_walk ctxt' body →
    wt_annot_walk ctxt annots (Some (NFun args body))
| wa_none ctxt annots :
    (∀ t, t ∈ seq_iter annots → wt_type ctxt t) → wt_annot_walk ctxt annots None

(** The variables of patterns, in code that is not typed. *)
with bind_patterns : Context → list Pattern → Context → Prop :=
| bp_nil ctxt : bind_patterns ctxt [] ctxt
| bp_cons ctxt p ps t bs tails wilds ctxt' :
    pat_has b (term_env ctxt) ModeWalk [] p t bs tails wilds →
    bind_patterns (bind_types (named bs) ctxt) ps ctxt' →
    bind_patterns ctxt (p :: ps) ctxt'
(** The arguments of a function with the domains of its contract. *)
with bind_args : Context → list Pattern → list Ty → Context → Prop :=
| ba_nil ctxt domains : bind_args ctxt [] domains ctxt
| ba_any ctxt id alias args domains t ctxt' :
    t = default dynamic (head domains) →
    bind_args
      (bind_types (option_list ((λ a, (label a, t)) <$> alias)) (bind_type (label id) t ctxt))
      args (tail domains) ctxt' →
    bind_args ctxt (mkPattern (PatAny id) alias :: args) domains ctxt'
| ba_pattern ctxt p args domains t bs tails wilds ctxt' :
    pat_has b (term_env ctxt) ModeWalk [] p t bs tails wilds →
    bind_args (bind_types (named bs) ctxt) args (tail domains) ctxt' →
    bind_args ctxt (p :: args) domains ctxt'
(** The variables of the bindings of a block, with the context of the block and
    the one that is being built. *)
with walk_lets : Context → Context → list LetBinding → Context → Prop :=
| wl_nil ctxt0 ctxt : walk_lets ctxt0 ctxt [] ctxt
| wl_cons ctxt0 ctxt lb lbs t bs tails wilds t_let ctxt' :
    pat_has b (term_env ctxt0) ModeWalk [] (let_pattern lb) t bs tails wilds →
    t_let = from_apparent_type (let_apparent_type (Some (type_env ctxt0)) (Some resolve) lb)
              (term_env ctxt0) →
    walk_lets ctxt0
      (register_option ctxt0 (let_value lb) (try_as_any (let_pattern lb)) t_let
         (register_option ctxt0 (let_value lb) (pat_alias (let_pattern lb)) t_let
            (register_bindings ctxt0 (let_value lb) bs ctxt)))
      lbs ctxt' →
    walk_lets ctxt0 ctxt (lb :: lbs) ctxt'

(** Records that are not typed. *)
with wt_walk_record : Context → ResolvedRecord → Prop :=
| wwr ctxt r ctxt' :
    walk_includes (walk_ctxt resolve ctxt (stat_fields (content r))) (includes r) ctxt' →
    (∀ e f, (e, f) ∈ dyn_fields (content r) → wt_walk ctxt e ∧ wt_walk_field (inner ctxt') f) →
    (∀ id f, (id, f) ∈ stat_fields (content r) → wt_walk_field (inner ctxt') f) →
    wt_walk_record ctxt r
with walk_includes : RecordContext → list Include → RecordContext → Prop :=
| wi_nil ctxt : walk_includes ctxt [] ctxt
| wi_cons ctxt incl incls t ctxt' :
    include_type ctxt incl t →
    wt_include (bind_inner (label (incl_ident incl)) t ctxt) incl →
    walk_includes (bind_inner (label (incl_ident incl)) t ctxt) incls ctxt' →
    walk_includes ctxt (incl :: incls) ctxt'
(** The type of an included field in the recursive environment. *)
with include_type : RecordContext → Include → Ty → Prop :=
| it_annot ctxt incl ty :
    annot_first (incl_annotation incl) = Some ty →
    include_type ctxt incl (from_type (term_env (outer ctxt)) ty)
| it_outer ctxt incl t :
    annot_first (incl_annotation incl) = None →
    type_env (outer ctxt) !! label (incl_ident incl) = Some t →
    include_type ctxt incl t
(** The annotations of an included field, and the variable against the type. *)
with wt_include : RecordContext → Include → Prop :=
| win ctxt incl :
    (∀ t, t ∈ annot_iter (incl_annotation incl) → wt_type (inner ctxt) t) →
    (∀ ty, ast_annot_typ (incl_annotation incl) = Some ty →
       ∃ t, type_env (outer ctxt) !! label (incl_ident incl) = Some t ∧
            ty_sub type_eq b t (from_type (term_env (outer ctxt)) ty)) →
    wt_include ctxt incl
with wt_walk_field : Context → ResolvedField → Prop :=
| wwf_record ctxt stat dyn :
    wt_walk_shallow ctxt stat dyn →
    wt_walk_field ctxt (mkResolvedField (mkShallow stat dyn) [])
| wwf_one ctxt defs :
    at_most_one_value defs →
    wt_annot_walk ctxt (defs_annot_seq defs) (find_map def_value defs) →
    wt_walk_field ctxt (mkResolvedField shallow_empty defs)
| wwf_many ctxt stat dyn defs :
    defs ≠ [] →
    (∀ d, d ∈ defs → wt_annot_walk ctxt (annot_seq (def_annot d)) (def_value d)) →
    wt_walk_shallow ctxt stat dyn →
    wt_walk_field ctxt (mkResolvedField (mkShallow stat dyn) defs)
with wt_walk_shallow : Context → list (Values.Ident * ResolvedField) → list (Ast * ResolvedField) → Prop :=
| wws ctxt stat dyn :
    (∀ e f, (e, f) ∈ dyn → wt_walk ctxt e ∧ wt_walk_field (inner (walk_ctxt resolve ctxt stat)) f) →
    (∀ id f, (id, f) ∈ stat → wt_walk_field (inner (walk_ctxt resolve ctxt stat)) f) →
    wt_walk_shallow ctxt stat dyn

(** Checking. The level of the context does not matter. *)
with wt_check : Context → Ast → Ty → Prop :=
| wc_level ctxt l a t : wt_check (with_var_level l ctxt) a t → wt_check ctxt a t
| wc_eq ctxt a t t' : wt_check ctxt a t → ty_eq type_eq b t' t → wt_check ctxt a t'
| wc_instance ctxt a D t t' :
    env_in D ctxt → const_instance b D t t' → wt_check ctxt a t' → wt_check ctxt a t
| wc_sub ctxt a t t' :
    infers a → wt_infer ctxt a t → ty_sub type_eq b t t' → wt_check ctxt a t'
| wc_null ctxt : wt_check ctxt NNull dynamic
| wc_bool ctxt v : wt_check ctxt (NBool v) bool_
| wc_number ctxt v : wt_check ctxt (NNumber v) num
| wc_string ctxt v : wt_check ctxt (NString v) str
| wc_chunks ctxt chunks :
    (∀ e k, AChunkExpr e k ∈ chunks → wt_check ctxt e str) → wt_check ctxt (NStringChunks chunks) str
| wc_if ctxt c e1 e2 t :
    wt_check ctxt c bool_ → wt_check ctxt e1 t → wt_check ctxt e2 t →
    wt_check ctxt (NIfThenElse c e1 e2) t
| wc_fun ctxt args body u t ctxt' :
    fun_args ctxt u (rev args) t ctxt' → wt_check ctxt' body u → wt_check ctxt (NFun args body) t
| wc_array ctxt elts t : (∀ e, e ∈ elts → wt_check ctxt e t) → wt_check ctxt (NArray elts) (array t)
| wc_let ctxt lbs body (rec : bool) ctxt0 ts ctxt' t :
    (if rec then ∃ us, map fst us = map label (rec_names lbs) ∧ ctxt0 = bind_types us ctxt
     else ctxt0 = ctxt) →
    check_lets ctxt0 ctxt0 lbs ts ctxt' →
    (∀ lb u, (lb, u) ∈ zip lbs ts → wt_let_value (if rec then ctxt' else ctxt0) lb u) →
    wt_check ctxt' body t →
    wt_check ctxt (NLet lbs body rec) t
| wc_match ctxt branches arg ret datas ctxt' :
    length datas = length branches →
    (∀ p guard body t bs tails wilds,
       (mkMatchBranch p guard body, (t, bs, tails, wilds)) ∈ zip branches datas →
       pat_has b (term_env ctxt) ModeEnforce [] p t bs tails wilds ∧ ty_eq type_eq b arg t) →
    wt_branches ret ctxt (zip branches (map (λ d, d.1.1.2) datas)) ctxt' →
    (∀ π tail, (π, tail) ∈ concat (map (λ d, d.1.2) datas) →
       π ∈ concat (map snd datas) ∨ closed_rows b tail) →
    wt_check ctxt (NMatch branches) (arrow arg ret)
| wc_tag ctxt tag tail :
    wt_check ctxt (NEnumVariant tag None) (mk_uty_enum_rows (tags [label tag]) tail)
| wc_variant ctxt tag arg t tail :
    wt_check ctxt arg t →
    wt_check ctxt (NEnumVariant tag (Some arg)) (mk_uty_enum_rows [(label tag, Some t)] tail)
| wc_record ctxt r rr t :
    resolve_record r = Done rr →
    wt_record ctxt (stat_fields (content rr)) (dyn_fields (content rr)) (includes rr) t →
    wt_check ctxt (NRecord r) t
| wc_import ctxt i imported :
    resolve i = Prelude.Ok imported →
    wt_check ctxt (NImport i)
      (match imported with
       | Some a => from_apparent_type (apparent_type_move a) (term_env ctxt)
       | None => dynamic
       end)
| wc_type ctxt ty t : find_contract ty = None → wt_check ctxt (NType ty) t
| wc_parse_error ctxt tok t : wt_check ctxt (NParseError tok) t

(** The arguments of a function from the last one. *)
with fun_args : Context → Ty → list Pattern → Ty → Context → Prop :=
| fa_nil ctxt u : fun_args ctxt u [] u ctxt
| fa_cons ctxt u d alias args t bs tails wilds f ctxt' :
    data_has b (term_env ctxt) ModeEnforce [] d t bs tails wilds →
    (∀ π tail, (π, tail) ∈ tails → closed_rows b tail) →
    fun_args
      (bind_types (named bs) (bind_types (option_list ((λ a, (label a, t)) <$> alias)) ctxt))
      (arrow t u) args f ctxt' →
    fun_args ctxt u (mkPattern d alias :: args) f ctxt'

(** The bindings of a block, with their types. *)
with check_lets : Context → Context → list LetBinding → list Ty → Context → Prop :=
| cl_nil ctxt0 ctxt : check_lets ctxt0 ctxt [] [] ctxt
| cl_any ctxt0 ctxt lb lbs id t ts ctxt' :
    apparent_has b ctxt0 (let_apparent_type (Some (type_env ctxt0)) (Some resolve) lb) t →
    try_as_any (let_pattern lb) = Some id →
    check_lets ctxt0
      (register_binding ctxt0 (let_value lb) id t
         (register_option ctxt0 (let_value lb) (pat_alias (let_pattern lb)) t ctxt))
      lbs ts ctxt' →
    check_lets ctxt0 ctxt (lb :: lbs) (t :: ts) ctxt'
| cl_pattern ctxt0 ctxt lb lbs t u bs tails wilds ts ctxt' :
    apparent_has b ctxt0 (let_apparent_type (Some (type_env ctxt0)) (Some resolve) lb) t →
    data_has b (term_env ctxt0) ModeEnforce [] (pat_data (let_pattern lb)) u bs tails wilds →
    (∀ π tail, (π, tail) ∈ tails → closed_rows b tail) →
    ty_eq type_eq b u t →
    check_lets ctxt0
      (register_bindings ctxt0 (let_value lb) bs
         (register_option ctxt0 (let_value lb) (pat_alias (let_pattern lb)) t ctxt))
      lbs ts ctxt' →
    check_lets ctxt0 ctxt (lb :: lbs) (t :: ts) ctxt'
with wt_let_value : Context → LetBinding → Ty → Prop :=
| wlv_plain ctxt lb t :
    ast_annot_is_empty (let_annotation (let_metadata lb)) →
    wt_check ctxt (let_value lb) t → wt_let_value ctxt lb t
| wlv_annot ctxt lb t u :
    ast_annot_is_empty (let_annotation (let_metadata lb)) = false →
    wt_annot ctxt (annot_seq (let_annotation (let_metadata lb))) (Some (let_value lb)) u →
    wt_let_value ctxt lb t

(** The branches of a match: the variables of a branch stay in the context of
    those that follow. *)
with wt_branches : Ty → Context → list (MatchBranch * TypeBindings) → Context → Prop :=
| wb_nil ret ctxt : wt_branches ret ctxt [] ctxt
| wb_cons ret ctxt d alias guard body bs rest ctxt1 ctxt' :
    ctxt1 = bind_types (named bs)
              (bind_types (option_list ((λ a, (label a, ret)) <$> alias)) ctxt) →
    (∀ g, guard = Some g → wt_check ctxt1 g bool_) →
    wt_check ctxt1 body ret →
    wt_branches ret ctxt1 rest ctxt' →
    wt_branches ret ctxt ((mkMatchBranch (mkPattern d alias) guard body, bs) :: rest) ctxt'

(** Inference. *)
with wt_infer : Context → Ast → Ty → Prop :=
| wn_level ctxt l a t : wt_infer (with_var_level l ctxt) a t → wt_infer ctxt a t
| wn_var ctxt x t : type_env ctxt !! label x = Some t → wt_infer ctxt (NVar x) t
| wn_primop ctxt op args ts t :
    op_has op ts t →
    (∀ e u, (u, e) ∈ zip ts args → wt_check ctxt e u) →
    wt_infer ctxt (NPrimOpApp op args) t
| wn_app ctxt head args f ts t :
    wt_infer ctxt head f → ty_sub type_eq b f (nary_arrow ts t) → length ts = length args →
    (∀ e u, (e, u) ∈ zip args ts → wt_check ctxt e u) →
    wt_infer ctxt (NApp head args) t
| wn_annotated ctxt annot inner t :
    wt_annot ctxt (annot_seq annot) (Some inner) t → wt_infer ctxt (NAnnotated annot inner) t
| wn_check ctxt a t : infers a = false → wt_check ctxt a t → wt_infer ctxt a t

(** The type of a value under annotations. *)
with wt_annot : Context → AnnotSeq → option Ast → Ty → Prop :=
| wo_typ ctxt annots ty value :
    (∀ t, t ∈ seq_iter annots → wt_type ctxt t) →
    seq_typ annots = Some ty →
    wt_check ctxt value (from_type (term_env ctxt) ty) →
    wt_annot ctxt annots (Some value) (from_type (term_env ctxt) ty)
| wo_contract ctxt annots ty rest value :
    (∀ t, t ∈ seq_iter annots → wt_type ctxt t) →
    seq_typ annots = None → seq_contracts annots = ty :: rest →
    (∀ v, value = Some v → wt_walk ctxt v) →
    wt_annot ctxt annots value (from_type (term_env ctxt) ty)
| wo_infer ctxt annots value t :
    (∀ t, t ∈ seq_iter annots → wt_type ctxt t) →
    seq_typ annots = None → seq_contracts annots = [] →
    wt_infer ctxt value t →
    wt_annot ctxt annots (Some value) t
| wo_none ctxt annots t :
    (∀ t, t ∈ seq_iter annots → wt_type ctxt t) →
    t = match seq_first annots with Some ty => from_type (term_env ctxt) ty | None => dynamic end →
    wt_annot ctxt annots None t

(** ** Records *)

(** A field that may have annotations: it has the type, or a subtype of it. *)
with wt_view : Context → AnnotSeq → option Ast → Ty → Prop :=
| wv_value ctxt annots value t :
    seq_iter annots = [] → wt_check ctxt value t → wt_view ctxt annots (Some value) t
| wv_none ctxt annots t :
    seq_iter annots = [] → ty_eq type_eq b t dynamic → wt_view ctxt annots None t
| wv_annot ctxt annots value t u :
    seq_iter annots ≠ [] → wt_annot ctxt annots value u → ty_sub type_eq b u t →
    wt_view ctxt annots value t
with wt_field : Context → Ty → ResolvedField → Prop :=
| wf_record ctxt t stat dyn :
    wt_record ctxt stat dyn [] t →
    wt_field ctxt t (mkResolvedField (mkShallow stat dyn) [])
| wf_one ctxt t defs :
    at_most_one_value defs →
    wt_view ctxt (defs_annot_seq defs) (find_map def_value defs) t →
    wt_field ctxt t (mkResolvedField shallow_empty defs)
| wf_many ctxt t stat dyn defs :
    defs ≠ [] →
    (∀ d, d ∈ defs → wt_view ctxt (annot_seq (def_annot d)) (def_value d) dynamic) →
    (shallow_is_empty (mkShallow stat dyn) = false → wt_record ctxt stat dyn [] dynamic) →
    wt_field ctxt t (mkResolvedField (mkShallow stat dyn) defs)
(** An included variable against the type of its field. *)
with wt_check_include : RecordContext → Ty → Include → Prop :=
| wci ctxt t incl u :
    type_env (outer ctxt) !! label (incl_ident incl) = Some u →
    (∀ ty, ty ∈ annot_iter (incl_annotation incl) → wt_type (inner ctxt) ty) →
    include_agrees ctxt incl u →
    (match annot_first (incl_annotation incl) with
     | Some ty => ty_sub type_eq b (from_type (term_env (inner ctxt)) ty) t
     | None => ty_sub type_eq b u t
     end) →
    wt_check_include ctxt t incl
(** The included variable, of type [u], has the type of the type annotation, up to
    its quantifiers, that are instantiated with constants. *)
with include_agrees : RecordContext → Include → Ty → Prop :=
| ia ctxt incl u :
    (∀ ty, ast_annot_typ (incl_annotation incl) = Some ty →
       ∃ D t', env_in D (outer ctxt) ∧ ty_in D u ∧
               const_instance b D (from_type (term_env (outer ctxt)) ty) t' ∧
               ty_sub type_eq b u t') →
    include_agrees ctxt incl u
(** A record literal: against a dictionary, or a record type where each field has
    in the recursive environment the type of its annotation, or the type that is
    checked for it. *)
with wt_record : Context → list (Values.Ident * ResolvedField) → list (Ast * ResolvedField) →
    list Include → Ty → Prop :=
| wr_level ctxt l stat dyn incls t :
    wt_record (with_var_level l ctxt) stat dyn incls t → wt_record ctxt stat dyn incls t
| wr_eq ctxt stat dyn incls t t' :
    wt_record ctxt stat dyn incls t → ty_eq type_eq b t' t → wt_record ctxt stat dyn incls t'
| wr_dict ctxt stat incls t f d :
    (∀ id fld, (id, fld) ∈ stat → wt_field ctxt t fld) →
    (∀ incl, incl ∈ incls → wt_check_include (from_outer ctxt) t incl) →
    wt_record ctxt stat [] incls (TConcrete (Dict t f) d)
| wr_dyn ctxt stat dyn incls t rctxt :
    dyn ≠ [] →
    rctxt = foldl (λ c id, bind_inner (label id) t c) (from_outer ctxt)
              (map fst stat ++ map incl_ident incls) →
    (∀ e fld, (e, fld) ∈ dyn → wt_check ctxt e str ∧ wt_field (inner rctxt) t fld) →
    (∀ id fld, (id, fld) ∈ stat → wt_field (inner rctxt) t fld) →
    (∀ incl, incl ∈ incls → wt_check_include rctxt t incl) →
    wt_record ctxt stat dyn incls (dict t)
| wr_stat ctxt stat incls envs rctxt0 rctxt ts rows :
    length envs = length stat → length ts = length stat →
    rctxt0 = foldl (λ c p, bind_inner (label p.1) p.2 c) (from_outer ctxt) (zip (map fst stat) envs) →
    (∀ id fld e, ((id, fld), e) ∈ zip stat envs →
       apparent_has b ctxt (field_apparent_type (Some (type_env ctxt)) (Some resolve) fld) e) →
    bind_includes rctxt0 incls rctxt →
    include_rows rctxt incls (mk_record_row (zip (map (label ∘ fst) stat) ts) no_rrows) rows →
    (∀ id fld t, ((id, fld), t) ∈ zip stat ts →
       wt_field (inner rctxt) t fld ∧
       (∀ ty, field_apparent_type (Some (type_env ctxt)) (Some resolve) fld = Approximated ty →
          ∃ e, type_env (inner rctxt) !! label id = Some e ∧ ty_eq type_eq b t e)) →
    (∀ incl ty, incl ∈ incls → ty ∈ annot_iter (incl_annotation incl) → wt_type (inner rctxt) ty) →
    wt_record ctxt stat [] incls (type_concrete (Record rows))
with bind_includes : RecordContext → list Include → RecordContext → Prop :=
| bi_nil ctxt : bind_includes ctxt [] ctxt
| bi_cons ctxt incl incls u t ctxt' :
    type_env (outer ctxt) !! label (incl_ident incl) = Some u →
    include_agrees ctxt incl u →
    include_type ctxt incl t →
    bind_includes (bind_inner (label (incl_ident incl)) t ctxt) incls ctxt' →
    bind_includes ctxt (incl :: incls) ctxt'
(** The rows of the included fields come first. *)
with include_rows : RecordContext → list Include → RR → RR → Prop :=
| ir_nil ctxt rows : include_rows ctxt [] rows rows
| ir_cons ctxt incl incls rows rows' t :
    include_rows ctxt incls rows rows' →
    type_env (inner ctxt) !! label (incl_ident incl) = Some t →
    include_rows ctxt (incl :: incls) rows
      (mk_record_row [(label (incl_ident incl), t)] rows').

End typing.
End rules.
