(* ===== verification/TcFacts.v ===== *)
(** * Facts about the typechecker's types and steps

    What holds in every later state ([later]); the ranges of converted types and of
    contexts; the specifications of the elementary steps of the typechecker:
    allocation, unification, subsumption, instantiation with constants, and the
    replacement of wildcards. *)
From stdpp Require Import strings.
From S2P Require Import Prelude IndexMap Values Records Make Ast Pattern UnifTypes UnifTable SlotFacts Unify UnifRel UnifTableFacts UnifySound UnifyClosed UnifyTheorems Subtyping SubtypingTheorems TcTypes TcPattern TcOperation TcRecord Typecheck TcRules.

(** Converted types have no variables. *)
Lemma from_type_in D env t : ty_in D (from_type env t)
with from_record_rows_in D env r : rr_in D (from_record_rows env r)
with from_enum_rows_in D env e : er_in D (from_enum_rows env e).
Proof.
  - destruct t; cbn; auto.
  - destruct r; cbn; auto.
  - destruct e as [|id [t|] e|]; cbn; auto.
Qed.

Section facts.
Context {ImportError : Type}.
Context (type_eq : Ctr → Ctr → bool).
Implicit Types (st : State) (D : dims).

(** ** Later states *)

Definition later st (P : bindings Ctr → Prop) : Prop :=
  ∀ b, extends type_eq (st_binds st) b → P b.

Lemma later_le st st' P : state_le type_eq st st' → later st P → later st' P.
Proof. intros [He _] HP b Hb. apply HP. by etrans. Qed.

Lemma later_now st P : later st P → P (st_binds st).
Proof. intros HP. by apply HP. Qed.

Lemma later_mono st (P Q : bindings Ctr → Prop) : later st P → (∀ b, P b → Q b) → later st Q.
Proof. intros HP HQ b Hb. by apply HQ, HP. Qed.

Lemma later_and st P Q : later st P → later st Q → later st (λ b, P b ∧ Q b).
Proof. intros HP HQ b Hb. split; [by apply HP|by apply HQ]. Qed.

Lemma later_const st (P : Prop) : P → later st (λ _, P).
Proof. by intros ??. Qed.

Lemma later_ty st t1 t2 :
  ty_eq type_eq (st_binds st) t1 t2 → later st (λ b, ty_eq type_eq b t1 t2).
Proof. intros Heq b Hb. by eapply extends_ty. Qed.

Lemma later_er st e1 e2 :
  er_eq type_eq (st_binds st) e1 e2 → later st (λ b, er_eq type_eq b e1 e2).
Proof. intros Heq b Hb. by eapply extends_er. Qed.

Lemma later_sub st t1 t2 :
  ty_sub type_eq (st_binds st) t1 t2 → later st (λ b, ty_sub type_eq b t1 t2).
Proof. intros Heq b Hb. by eapply extends_sub. Qed.

Lemma later_forall {A} st (P : A → bindings Ctr → Prop) :
  (∀ x, later st (P x)) → later st (λ b, ∀ x, P x b).
Proof. intros HP b Hb x. by apply HP. Qed.

(** ** Ranges of contexts *)

Lemma env_in_mono D D' ctxt : dims_le D D' → env_in D ctxt → env_in D' ctxt.
Proof. intros HD Henv x t Hx. eapply ty_in_mono; [done|]. by eapply Henv. Qed.

Lemma env_in_le st st' ctxt :
  state_le type_eq st st' → env_in (st_dims st) ctxt → env_in (st_dims st') ctxt.
Proof. intros [_ HD]. by apply env_in_mono. Qed.

Lemma env_in_bind D id t ctxt : env_in D ctxt → ty_in D t → env_in D (bind_type id t ctxt).
Proof.
  intros Henv Ht x u. cbn. intros [[_ <-]|[_ Hx]]%lookup_insert_Some; [done|by eapply Henv].
Qed.

Definition binds_in D (bs : list (string * Ty)) : Prop := ∀ x t, (x, t) ∈ bs → ty_in D t.

Lemma env_in_binds D bs ctxt : env_in D ctxt → binds_in D bs → env_in D (bind_types bs ctxt).
Proof.
  unfold bind_types. revert ctxt. induction bs as [|[x t] bs IH]; intros ctxt Henv Hbs; [done|].
  cbn. apply IH.
  - apply env_in_bind; [done|]. apply (Hbs x t). by left.
  - intros y u Hy. apply (Hbs y u). by right.
Qed.

Definition tbinds_in D (bs : TypeBindings) : Prop := ∀ x t, (x, t) ∈ bs → ty_in D t.

Lemma tbinds_in_mono D D' bs : dims_le D D' → tbinds_in D bs → tbinds_in D' bs.
Proof. intros HD Hbs x t Hx. eapply ty_in_mono; [done|]. by eapply Hbs. Qed.

Lemma tbinds_in_nil D : tbinds_in D [].
Proof. by intros ?? ?%elem_of_nil. Qed.

Lemma tbinds_in_app D bs bs' : tbinds_in D bs → tbinds_in D bs' → tbinds_in D (bs ++ bs').
Proof. intros H1 H2 x t [?|?]%elem_of_app; eauto. Qed.

Lemma tbinds_in_one D id t : ty_in D t → tbinds_in D [(id, t)].
Proof. intros Ht x u Hx%list_elem_of_singleton. by simplify_eq. Qed.

Lemma binds_in_named D bs : tbinds_in D bs → binds_in D (named bs).
Proof.
  intros Hbs x t Hx. apply list_elem_of_fmap in Hx as ([id u] & [= -> ->] & Hin). by eapply Hbs.
Qed.

Lemma env_in_named D bs ctxt :
  env_in D ctxt → tbinds_in D bs → env_in D (bind_types (named bs) ctxt).
Proof. intros. apply env_in_binds; [done|by apply binds_in_named]. Qed.

Lemma env_in_register D ctxt0 value id t ctxt :
  env_in D ctxt → ty_in D t → env_in D (register_binding ctxt0 value id t ctxt).
Proof. intros. by apply env_in_bind. Qed.

Lemma env_in_registers D ctxt0 value bs ctxt :
  env_in D ctxt → tbinds_in D bs → env_in D (register_bindings ctxt0 value bs ctxt).
Proof.
  unfold register_bindings. revert ctxt. induction bs as [|[x t] bs IH]; intros ctxt Henv Hbs;
    [done|]. cbn. apply IH.
  - apply env_in_register; [done|]. apply (Hbs x t). by left.
  - intros y u Hy. apply (Hbs y u). by right.
Qed.

Lemma env_in_register_option D ctxt0 value id t ctxt :
  env_in D ctxt → ty_in D t → env_in D (register_option ctxt0 value id t ctxt).
Proof. intros. destruct id; [by apply env_in_register|done]. Qed.

Lemma env_in_level D l ctxt : env_in D ctxt → env_in D (with_var_level l ctxt).
Proof. done. Qed.

(** ** Apparent types *)

Definition apparent_in D (aty : ApparentType) : Prop :=
  match aty with FromEnv t => ty_in D t | _ => True end.

Lemma apparent_type_in D ctxt (resolver : option (Import → Prelude.result (option Ast) ImportError)) a :
  env_in D ctxt → apparent_in D (apparent_type (Some (type_env ctxt)) resolver a).
Proof.
  intros Henv. assert (∀ a, apparent_in D (apparent_type_move a)) as Hmove.
  { fix IH 1. intros a0. destruct a0; try exact I. cbn. destruct (annot_first annot); [exact I|apply IH]. }
  revert a. fix IH 1. intros a. destruct a; try exact I; cbn.
  - destruct (type_env ctxt !! label id) eqn:Hx; [by eapply Henv|exact I].
  - destruct (annot_first annot); [exact I|apply IH].
  - clear IH. destruct resolver as [resolver|]; [|done]. by destruct (resolver i) as [[a|]|].
Qed.

Lemma annot_apparent_in D ctxt (resolver : option (Import → Prelude.result (option Ast) ImportError))
    annot value :
  env_in D ctxt → apparent_in D (annot_apparent_type (Some (type_env ctxt)) resolver annot value).
Proof.
  intros. unfold annot_apparent_type. destruct (annot_first annot); [done|].
  destruct value; [by apply apparent_type_in|done].
Qed.

Lemma field_apparent_in D ctxt (resolver : option (Import → Prelude.result (option Ast) ImportError)) f :
  env_in D ctxt → apparent_in D (field_apparent_type (Some (type_env ctxt)) resolver f).
Proof.
  intros. unfold field_apparent_type. destruct (negb _); [done|].
  destruct (defs f) as [|d [|]]; [done|by apply annot_apparent_in|]. by destruct (first_annot f).
Qed.

Lemma from_apparent_in D env aty : apparent_in D aty → ty_in D (from_apparent_type aty env).
Proof.
  destruct aty; cbn; intros; [destruct (has_wildcards ty); [done|]|..]; auto using from_type_in.
Qed.

(** ** Triples on lists *)

Abbreviation ptriple := (SubtypingTheorems.ptriple type_eq).

Lemma ptriple_for_each {E A} st (f : A → comp (Ctr := Ctr) E unit) l (P : bindings Ctr → A → Prop) :
  state_ok st →
  (∀ x st1, x ∈ l → state_ok st1 → state_le type_eq st st1 →
     ptriple st1 (f x) (λ _ st', later st' (λ b, P b x))) →
  ptriple st (for_each f l) (λ _ st', later st' (λ b, ∀ x, x ∈ l → P b x)).
Proof.
  revert st. induction l as [|x l IH]; intros st Hok Hf.
  - apply ptriple_ok; [done|]. intros b _ x Hx. by apply elem_of_nil in Hx.
  - cbn [for_each]. eapply ptriple_bind; [apply Hf; [by left|done|reflexivity]|].
    intros [] st1 Hok1 Hle1 Hx. eapply ptriple_mono.
    + apply IH; [done|]. intros y st2 Hy Hok2 Hle2. apply Hf; [by right|done|by etrans].
    + intros [] st2 _ Hle2 Hl. pose proof (later_le _ _ _ Hle2 Hx) as Hx2.
      intros b Hb y [->|Hy]%elem_of_cons; [by apply Hx2|by apply Hl].
Qed.

Lemma ptriple_for_each2 {E A B} st (f : A → B → comp (Ctr := Ctr) E unit) l1 l2
    (P : bindings Ctr → A → B → Prop) :
  state_ok st →
  (∀ x y st1, (x, y) ∈ zip l1 l2 → state_ok st1 → state_le type_eq st st1 →
     ptriple st1 (f x y) (λ _ st', later st' (λ b, P b x y))) →
  ptriple st (for_each2 f l1 l2) (λ _ st', later st' (λ b, ∀ x y, (x, y) ∈ zip l1 l2 → P b x y)).
Proof.
  revert st l2. induction l1 as [|x l1 IH]; intros st l2 Hok Hf; [|destruct l2 as [|y l2]].
  1,2: apply ptriple_ok; [done|]; intros b _ z u Hz; by apply elem_of_nil in Hz.
  cbn [for_each2]. eapply ptriple_bind; [apply Hf; [by left|done|reflexivity]|].
  intros [] st1 Hok1 Hle1 Hx. eapply ptriple_mono.
  - apply IH; [done|]. intros z u st2 Hz Hok2 Hle2. apply Hf; [by right|done|by etrans].
  - intros [] st2 _ Hle2 Hl. pose proof (later_le _ _ _ Hle2 Hx) as Hx2.
    intros b Hb z u [[= -> ->]|Hz]%elem_of_cons; [by apply Hx2|by apply Hl].
Qed.

(** ** Elementary steps *)

Lemma ptriple_reading {E A} st (f : State → outcome A) (Q : A → State → Prop) :
  state_ok st → (∀ a, f st = Done a → Q a st) →
  SubtypingTheorems.ptriple (E := E) type_eq st (reading f) Q.
Proof.
  intros Hok HQ. unfold SubtypingTheorems.ptriple, reading. destruct (f st) eqn:Hf; try done. cbn.
  split; [done|]. split; [reflexivity|by apply HQ].
Qed.

Lemma fresh_uvar_ok {E} st l :
  state_ok st → triple (E := E) type_eq st (fresh_uvar l) (λ t st', ty_in (st_dims st') t).
Proof.
  intros Hok. apply triple_allocating; [done|..]; destruct (fresh_type_allocated (table st) l) as (Hal & Hid & Hlt).
  - exact Hal.
  - simpl in *. exact Hlt.
Qed.

Lemma fresh_uvars_ok {E} st k l :
  state_ok st →
  triple (E := E) type_eq st (fresh_uvars k l)
    (λ ts st', length ts = k ∧ ∀ t, t ∈ ts → ty_in (st_dims st') t).
Proof.
  intros Hok. destruct (fresh_type_uvars_ok k l (table st)) as (? & ? & ?).
  by apply triple_allocating.
Qed.

Lemma fresh_erows_ok {E} st l :
  state_ok st →
  triple (E := E) type_eq st (allocating (λ tb, fresh_erows_uvar tb l))
    (λ e st', er_in (st_dims st') e).
Proof.
  intros Hok. apply triple_allocating; [done|..]; destruct (fresh_erows_allocated (table st) l) as (Hal & Hid & Hlt).
  - exact Hal.
  - simpl in *. exact Hlt.
Qed.

Lemma fresh_rrows_ok {E} st l :
  state_ok st →
  triple (E := E) type_eq st (allocating (λ tb, fresh_rrows_uvar tb l))
    (λ r st', rr_in (st_dims st') r).
Proof.
  intros Hok. apply triple_allocating; [done|..]; destruct (fresh_rrows_allocated (table st) l) as (Hal & Hid & Hlt).
  - exact Hal.
  - simpl in *. exact Hlt.
Qed.

Lemma unify_at_ok st n ctxt t1 t2 :
  state_ok st → ty_in (st_dims st) t1 → ty_in (st_dims st) t2 →
  ptriple st (unify_at (ImportError := ImportError) type_eq n ctxt t1 t2)
    (λ _ st', later st' (λ b, ty_eq type_eq b t1 t2)).
Proof.
  intros Hok H1 H2. apply ptriple_map_err. eapply ptriple_mono.
  - apply ptriple_triple. by apply (proj1 (unify_is_ok type_eq (var_level ctxt) n)).
  - intros [] st1 _ _ Heq. by apply later_ty.
Qed.

Lemma subsumed_at_ok st n ctxt t1 t2 :
  state_ok st → ty_in (st_dims st) t1 → ty_in (st_dims st) t2 →
  ptriple st (subsumed_at (ImportError := ImportError) type_eq n ctxt t1 t2)
    (λ _ st', later st' (λ b, ty_sub type_eq b t1 t2)).
Proof.
  intros Hok H1 H2. apply ptriple_map_err. eapply ptriple_mono.
  - by apply (proj1 (subsumed_is_ok type_eq n)).
  - intros [] st1 _ _ Heq. by apply later_sub.
Qed.

Lemma get_type_ok st ctxt id :
  state_ok st → env_in (st_dims st) ctxt →
  ptriple st (get_type (ImportError := ImportError) ctxt id)
    (λ t st', st' = st ∧ ty_in (st_dims st) t ∧ type_env ctxt !! label id = Some t).
Proof.
  intros Hok Henv. unfold get_type. destruct (type_env ctxt !! label id) as [t|] eqn:Hx.
  - apply ptriple_ok; [done|]. split; [done|]. split; [by eapply Henv|done].
  - by apply ptriple_err.
Qed.

Lemma root_type_ok {E} st t :
  state_ok st → ty_in (st_dims st) t →
  SubtypingTheorems.ptriple (E := E) type_eq st (reading (λ st, into_root (types (table st)) t))
    (λ t' st', st' = st ∧ ty_in (st_dims st) t' ∧ later st (λ b, ty_eq type_eq b t t')).
Proof.
  intros Hok Hin. eapply ptriple_mono; [by apply ptriple_triple, triple_root_type|].
  intros t' st1 _ _ (-> & ? & _ & ?). split; [done|]. split; [done|]. by apply later_ty.
Qed.

(** ** Instantiation with constants *)

Lemma const_instance_extends b b' D t u :
  extends type_eq b b' → const_instance type_eq b D t u → const_instance type_eq b' D t u.
Proof.
  intros He. induction 1 as [|t t' u Heq _ IH|D' v k body d c u HD Hin Hc _ IH].
  - constructor.
  - eapply ci_eq; [by eapply extends_ty|done].
  - by eapply ci_forall.
Qed.

Lemma fresh_constant_ok {E} st lvl k :
  state_ok st →
  SubtypingTheorems.ptriple (E := E) type_eq st (fresh_instance InstConstant lvl k)
    (λ to st', to_in (st_dims st') to ∧ fresh_const (st_dims st) k to).
Proof.
  intros Hok. destruct k as [|ex|ex]; cbn [fresh_instance]; eapply ptriple_bind.
  - apply ptriple_triple, triple_allocating with (P := λ id st', id < n_types (st_dims st') ∧
      id = n_types (st_dims st)); [done|apply fresh_type_allocated|].
    destruct (fresh_type_allocated (table st) lvl) as (_ & Hid & Hlt). rewrite Hid. by split.
  - intros id st1 Hok1 Hle1 [Hid ->]. apply ptriple_ok; [done|]. split; [done|]. by constructor.
  - apply ptriple_triple, triple_allocating with (P := λ id st', id < n_erows (st_dims st') ∧
      id = n_erows (st_dims st)); [done|apply fresh_erows_allocated|].
    destruct (fresh_erows_allocated (table st) lvl) as (_ & Hid & Hlt). rewrite Hid. by split.
  - intros id st1 Hok1 Hle1 [Hid ->]. apply ptriple_ok; [done|]. split; [done|]. by constructor.
  - apply ptriple_triple, triple_allocating with (P := λ id st', id < n_rrows (st_dims st') ∧
      id = n_rrows (st_dims st)); [done|apply fresh_rrows_allocated|].
    destruct (fresh_rrows_allocated (table st) lvl) as (_ & Hid & Hlt). rewrite Hid. by split.
  - intros id st1 Hok1 Hle1 [Hid ->]. apply ptriple_ok; [done|]. split; [done|]. by constructor.
Qed.

Lemma constant_loop_ok {E} n st lvl t D0 :
  state_ok st → dims_le D0 (st_dims st) → ty_in (st_dims st) t →
  SubtypingTheorems.ptriple (E := E) type_eq st (instantiate_loop n InstConstant lvl t)
    (λ t' st', ty_in (st_dims st') t' ∧ later st' (λ b, const_instance type_eq b D0 t t')).
Proof.
  revert st t. induction n as [|n IH]; intros st t Hok HD Hin; [done|]. cbn [instantiate_loop].
  assert (later st (λ b, const_instance type_eq b D0 t t)) as Hrefl by (intros b _; constructor).
  destruct t as [typ d|c|v l]; try (by apply ptriple_ok).
  destruct typ; try (by apply ptriple_ok).
  eapply ptriple_bind; [by apply fresh_constant_ok|].
  intros to st1 Hok1 Hle1 [Hto Hfr]. eapply ptriple_mono; [apply IH; [done|..]|].
  - etrans; [done|]. apply Hle1.
  - apply subst_in; [done|]. apply (sle_ty_in type_eq st); [done|]. exact Hin.
  - intros t' st2 _ _ [? Hinst]. split; [done|]. intros b Hb.
    eapply ci_forall; [done|exact Hin|exact Hfr|by apply Hinst].
Qed.

Lemma instantiate_const_ok {E} st n ctxt t :
  state_ok st → ty_in (st_dims st) t →
  SubtypingTheorems.ptriple (E := E) type_eq st (instantiate n ctxt t InstConstant)
    (λ '(t', ctxt') st', ty_in (st_dims st') t' ∧ (∃ l, ctxt' = with_var_level l ctxt) ∧
       later st' (λ b, const_instance type_eq b (st_dims st) t t')).
Proof.
  intros Hok Hin. unfold instantiate, instantiate_foralls.
  eapply ptriple_bind with (Q1 := λ '(t', _) st', ty_in (st_dims st') t' ∧
    later st' (λ b, const_instance type_eq b (st_dims st) t t')).
  2: { intros [t' l] st1 Hok1 _ [Hq1 Hq2]. apply ptriple_ok; [done|]. split; [done|].
    split; [by exists l|done]. }
  eapply ptriple_bind; [by apply root_type_ok|].
  intros t' ? _ _ (-> & Hin' & Heq). eapply ptriple_bind with (Q1 := λ _ st', st' = st).
  { destruct (is_forall t'); [|by apply ptriple_ok].
    unfold SubtypingTheorems.ptriple, incr_level, reading. by destruct (level_incr _). }
  intros lvl' ? _ _ ->. eapply ptriple_bind; [by apply (constant_loop_ok _ _ _ _ (st_dims st))|].
  intros t'' st1 Hok1 Hle1 [Hin1 Hinst]. apply ptriple_ok; [done|]. split; [done|].
  pose proof (later_le _ _ _ Hle1 Heq) as Heq1.
  intros b Hb. eapply ci_eq; [by apply Heq1|by apply Hinst].
Qed.

Lemma instantiate_uvar_ok {E} st n ctxt t :
  state_ok st → ty_in (st_dims st) t →
  SubtypingTheorems.ptriple (E := E) type_eq st (instantiate n ctxt t InstUnifVar)
    (λ '(t', ctxt') st', ty_in (st_dims st') t' ∧ (∃ l, ctxt' = with_var_level l ctxt) ∧
       later st' (λ b, ty_sub type_eq b t t')).
Proof.
  intros Hok Hin. unfold instantiate. eapply ptriple_bind; [by apply instantiate_foralls_ok|].
  intros [t' l] st1 Hok1 _ [Hin1 Hsub]. apply ptriple_ok; [done|]. split; [done|].
  split; [by exists l|]. by apply later_sub.
Qed.

(** ** Wildcards *)

Lemma replace_wildcards_ok {E} ctxt t : ∀ st,
  state_ok st →
  triple (E := E) type_eq st (replace_wildcards_with_var ctxt t)
    (λ t' st', ty_in (st_dims st') t' ∧
               ty_eq type_eq (st_binds st') (from_type (term_env ctxt) t) t')
with replace_rrows_ok {E} ctxt r : ∀ st,
  state_ok st →
  triple (E := E) type_eq st (replace_rrows ctxt r)
    (λ r' st', rr_in (st_dims st') r' ∧
               rr_eq type_eq (st_binds st') (from_record_rows (term_env ctxt) r) r')
with replace_erows_ok {E} ctxt e : ∀ st,
  state_ok st →
  triple (E := E) type_eq st (replace_erows ctxt e)
    (λ e' st', er_in (st_dims st') e' ∧
               er_eq type_eq (st_binds st') (from_enum_rows (term_env ctxt) e) e').
Proof.
  - destruct t as [| | | | | | |t1 t2| |v k t|e|r|t f|t|i]; intros st Hok;
      cbn [replace_wildcards_with_var from_type].
    all: try (apply triple_ok; [exact Hok|]; split; [exact I|reflexivity]).
    + eapply triple_bind; [apply replace_wildcards_ok; exact Hok|].
      intros t1' st1 Hok1 Hle1 [H1 E1]. eapply triple_bind; [apply replace_wildcards_ok; exact Hok1|].
      intros t2' st2 Hok2 Hle2 [H2 E2]. apply triple_ok; [exact Hok2|].
      split; [split; [by eapply sle_ty_in|done]|]. apply te_arrow; [by eapply sle_ty|done].
    + eapply triple_bind; [apply replace_wildcards_ok; exact Hok|].
      intros t' st1 Hok1 Hle1 [H1 E1]. apply triple_ok; [exact Hok1|]. split; [exact H1|].
      by apply te_body.
    + eapply triple_bind; [apply replace_erows_ok; exact Hok|].
      intros t' st1 Hok1 Hle1 [H1 E1]. apply triple_ok; [exact Hok1|]. split; [exact H1|].
      by apply te_enum.
    + eapply triple_bind; [apply replace_rrows_ok; exact Hok|].
      intros t' st1 Hok1 Hle1 [H1 E1]. apply triple_ok; [exact Hok1|]. split; [exact H1|].
      by apply te_record.
    + eapply triple_bind; [apply replace_wildcards_ok; exact Hok|].
      intros t' st1 Hok1 Hle1 [H1 E1]. apply triple_ok; [exact Hok1|]. split; [exact H1|].
      by apply te_dict.
    + eapply triple_bind; [apply replace_wildcards_ok; exact Hok|].
      intros t' st1 Hok1 Hle1 [H1 E1]. apply triple_ok; [exact Hok1|]. split; [exact H1|].
      by apply te_array.
    + eapply triple_mono; [apply get_wildcard_var_ok; exact Hok|].
      intros var st1 _ _ [Hin Hw]. split; [exact Hin|]. by apply te_wildcard.
  - destruct r as [|id t r|id|]; intros st Hok; cbn [replace_rrows from_record_rows].
    all: try (apply triple_ok; [exact Hok|]; split; [exact I|reflexivity]).
    eapply triple_bind; [apply replace_wildcards_ok; exact Hok|].
    intros t1' st1 Hok1 Hle1 [H1 E1]. eapply triple_bind; [apply replace_rrows_ok; exact Hok1|].
    intros t2' st2 Hok2 Hle2 [H2 E2]. apply triple_ok; [exact Hok2|].
    split; [split; [by eapply sle_ty_in|done]|]. apply re_extend; [by eapply sle_ty|done].
  - destruct e as [|id [t|] e|id]; intros st Hok; cbn [replace_erows from_enum_rows].
    all: try (apply triple_ok; [exact Hok|]; split; [exact I|reflexivity]).
    + eapply triple_bind.
      { eapply triple_bind; [apply replace_wildcards_ok; exact Hok|].
        intros t1' st1 Hok1 Hle1 Ht. apply triple_ok with (Q := λ o st', ∃ t', o = Some t' ∧
          ty_in (st_dims st') t' ∧ ty_eq type_eq (st_binds st') (from_type (term_env ctxt) t) t');
          [exact Hok1|]. by exists t1'. }
      intros o st1 Hok1 Hle1 (t' & -> & H1 & E1). eapply triple_bind; [apply replace_erows_ok; exact Hok1|].
      intros t2' st2 Hok2 Hle2 [H2 E2]. apply triple_ok; [exact Hok2|].
      split; [split; [by eapply sle_ty_in|done]|]. apply ee_variant; [by eapply sle_ty|done].
    + eapply triple_bind; [by apply triple_ok with (Q := λ o st', o = None)|].
      intros o st1 Hok1 Hle1 ->. eapply triple_bind; [apply replace_erows_ok; exact Hok1|].
      intros t2' st2 Hok2 Hle2 [H2 E2]. apply triple_ok; [exact Hok2|]. split; [done|].
      by apply ee_tag.
Qed.

(** The type of a binding in a block that is typed. *)
Lemma apparent_or_infer_ok {E} st aty ctxt :
  state_ok st → apparent_in (st_dims st) aty →
  ptriple st (apparent_or_infer (E := E) aty ctxt true)
    (λ t st', ty_in (st_dims st') t ∧ later st' (λ b, apparent_has type_eq b ctxt aty t)).
Proof.
  intros Hok Hin. destruct aty as [t|t|t|t]; cbn [apparent_or_infer].
  - eapply ptriple_mono; [by apply ptriple_triple, replace_wildcards_ok|].
    intros t' st1 _ _ [H1 E1]. split; [done|]. by apply later_ty.
  - apply ptriple_ok; [done|]. split; [apply from_type_in|by intros b _].
  - apply ptriple_ok; [done|]. split; [done|by intros b _].
  - eapply ptriple_mono; [by apply ptriple_triple, fresh_uvar_ok|].
    intros t' st1 _ _ H1. split; [done|by intros b _].
Qed.

(** In walk mode, the type is known at once. *)
Lemma apparent_walk_ok {E} st aty ctxt :
  state_ok st → apparent_in (st_dims st) aty →
  ptriple st (apparent_or_infer (E := E) aty ctxt false)
    (λ t st', st' = st ∧ t = from_apparent_type aty (term_env ctxt)).
Proof. intros Hok Hin. by destruct aty; apply ptriple_ok. Qed.

(** ** Closing enum types *)

Lemma closed_rows_extends b b' e :
  extends type_eq b b' → closed_rows type_eq b e → closed_rows type_eq b' e.
Proof.
  intros He. induction 1; [constructor..|]; [done|]. eapply cr_eq; [by eapply extends_er|done].
Qed.

Lemma find_open_tail_ok b D e o :
  find_open_tail (erows_iter e) = Done o → er_in D e →
  match o with
  | Some tail => er_in D tail ∧ (closed_rows type_eq b tail → closed_rows type_eq b e)
  | None => closed_rows type_eq b e
  end.
Proof.
  revert o. revert e. fix IH 1. intros e o.
  destruct e as [[|row tail|id] d|c|v l]; cbn [erows_iter find_open_tail]; intros Hf Hin; simplify_eq.
  - constructor.
  - apply er_in_concrete in Hin as [_ Hin]. specialize (IH tail o Hf Hin).
    destruct o as [t|]; [destruct IH as [? ?]; split; [done|]; intros; constructor; auto|].
    by constructor.
  - split; [done|auto].
Qed.

Lemma close_enum_ok {E} n st e :
  state_ok st → er_in (st_dims st) e →
  SubtypingTheorems.ptriple (E := E) type_eq st (close_enum n e)
    (λ _ st', later st' (λ b, closed_rows type_eq b e)).
Proof.
  revert st e. induction n as [|n IH]; intros st e Hok Hin; [done|]. cbn [close_enum].
  eapply ptriple_bind; [by apply ptriple_triple, triple_root_erows|].
  intros root ? _ _ (-> & Hin' & Hroot & Heq). apply later_er in Heq.
  destruct root as [er d|c|v l].
  2: done.
  - eapply ptriple_bind.
    { apply ptriple_reading with (Q := λ o st', st' = st ∧
        find_open_tail (erows_iter (EConcrete er d)) = Done o); [done|]. by intros o. }
    intros o ? _ _ [-> Hf].
    destruct o as [tail|].
    + eapply ptriple_mono; [apply IH; [done|]|].
      { by apply (find_open_tail_ok (st_binds st) (st_dims st) _ _ Hf). }
      intros [] st1 Hok1 Hle1 Htail. pose proof (later_le _ _ _ Hle1 Heq) as Heq1.
      intros b Hb. eapply cr_eq; [by apply Heq1|].
      apply (find_open_tail_ok b (st_dims st) _ _ Hf); [done|by apply Htail].
    + apply ptriple_ok; [done|]. intros b Hb. eapply cr_eq; [by apply Heq|].
      by apply (find_open_tail_ok b (st_dims st) _ _ Hf).
  - apply ptriple_triple. apply triple_on_table; [done|]. eapply safe_mono.
    + apply assign_erows_ok; [apply Hok|done|exact Hroot|done].
    + intros tb' (? & Hle & Heq'). split; [done|]. split; [done|]. intros b Hb.
      eapply cr_eq; [|constructor]. etrans.
      * eapply extends_er; [exact Hb|]. eapply extends_er; [apply Hle|]. by apply (later_now _ _ Heq).
      * eapply extends_er; [exact Hb|]. apply Heq'.
Qed.

Lemma close_enums_ok {E} n st tails wilds :
  state_ok st → (∀ π e, (π, e) ∈ tails → er_in (st_dims st) e) →
  SubtypingTheorems.ptriple (E := E) type_eq st (close_enums n tails wilds)
    (λ _ st', later st' (λ b, ∀ π e, (π, e) ∈ tails → π ∈ wilds ∨ closed_rows type_eq b e)).
Proof.
  intros Hok Hin. unfold close_enums. eapply ptriple_mono.
  - apply ptriple_for_each with (P := λ b e, closed_rows type_eq b e); [done|].
    intros e st1 He Hok1 Hle1. apply close_enum_ok; [done|].
    apply list_elem_of_omap in He as ([π e'] & He & Hd). cbn in Hd. case_decide; simplify_eq.
    eapply sle_er_in; [done|]. by eapply Hin.
  - intros [] st1 _ _ Hall b Hb π e He. destruct (decide (π ∈ wilds)) as [?|Hn]; [by left|right].
    apply (Hall b Hb). apply list_elem_of_omap. exists (π, e). split; [done|]. cbn.
    by rewrite decide_False.
Qed.

Lemma close_all_enums_ok {E} n st tails :
  state_ok st → (∀ π e, (π, e) ∈ tails → er_in (st_dims st) e) →
  SubtypingTheorems.ptriple (E := E) type_eq st (close_all_enums n tails)
    (λ _ st', later st' (λ b, ∀ π e, (π, e) ∈ tails → closed_rows type_eq b e)).
Proof.
  intros Hok Hin. eapply ptriple_mono; [by apply close_enums_ok|].
  intros [] st1 _ _ Hall b Hb π e He. by destruct (Hall b Hb π e He) as [?%elem_of_empty|].
Qed.

End facts.

(** Every fact about a state, in the state that follows. *)
Ltac advance Hle :=
  match type of Hle with
  | state_le ?type_eq ?st ?st1 =>
      cbv beta in * |-;
      repeat match goal with
      | H : ty_in (st_dims st) _ |- _ => apply (sle_ty_in type_eq st st1 _ Hle) in H
      | H : rr_in (st_dims st) _ |- _ => apply (sle_rr_in type_eq st st1 _ Hle) in H
      | H : er_in (st_dims st) _ |- _ => apply (sle_er_in type_eq st st1 _ Hle) in H
      | H : env_in (st_dims st) _ |- _ => apply (env_in_le type_eq st st1 _ Hle) in H
      | H : tbinds_in (st_dims st) _ |- _ =>
          apply (tbinds_in_mono _ (st_dims st1) _ (sle_dims type_eq st st1 Hle)) in H
      | H : later _ st _ |- _ => apply (later_le type_eq st st1 _ Hle) in H
      end
  end.

(** What holds later, at given assignments. *)
Ltac now_at b Hb :=
  repeat match goal with H : later _ _ _ |- _ => specialize (H b Hb); cbn beta in H end.
