(* ===== verification/TcPatternFacts.v ===== *)
(** * Typechecking patterns implements its rules

    [pattern_types] returns a type, variables, open tails and wildcard positions
    that [pat_has] relates to the pattern, whatever is unified afterwards. *)
From stdpp Require Import strings.
From S2P Require Import Prelude IndexMap Values Records Make Ast AstInd Pattern UnifTypes UnifTable SlotFacts Unify UnifRel UnifTableFacts UnifySound UnifyClosed UnifyTheorems Subtyping SubtypingTheorems TcTypes TcPattern TcOperation TcRecord Typecheck TcRules TcFacts.

(** ** Sorting *)

Lemma insert_by_id_perm b l : insert_by_id b l ≡ₚ b :: l.
Proof.
  induction l as [|b' l IH]; [done|]. cbn [insert_by_id]. destruct (String.leb _ _); [done|].
  rewrite IH. apply Permutation_swap.
Qed.

Lemma sort_by_id_perm l : sort_by_id l ≡ₚ l.
Proof.
  induction l as [|b l IH]; [done|]. unfold sort_by_id in *. cbn [foldr].
  by rewrite insert_by_id_perm, IH.
Qed.

Lemma tbinds_in_sort D bs : tbinds_in D bs → tbinds_in D (sort_by_id bs).
Proof. intros Hbs x t Hx. apply (Hbs x t). by rewrite <- (sort_by_id_perm bs). Qed.

(** ** Working states *)

Definition Tails : Type := list (PatternPath * ER).

Definition tails_in (D : dims) (tails : Tails) : Prop := ∀ π e, (π, e) ∈ tails → er_in D e.

Lemma tails_in_nil D : tails_in D [].
Proof. by intros ?? ?%elem_of_nil. Qed.
Lemma tails_in_app D l l' : tails_in D l → tails_in D l' → tails_in D (l ++ l').
Proof. intros H1 H2 x t [?|?]%elem_of_app; eauto. Qed.
Lemma tails_in_one D π e : er_in D e → tails_in D [(π, e)].
Proof. intros Ht x u Hx%list_elem_of_singleton. by simplify_eq. Qed.
Lemma tails_in_mono D D' l : dims_le D D' → tails_in D l → tails_in D' l.
Proof. intros HD Hl x t Hx. eapply er_in_mono; [done|]. by eapply Hl. Qed.

Create HintDb tc.
#[export] Hint Resolve tails_in_nil tails_in_app tails_in_one tbinds_in_nil tbinds_in_app
  tbinds_in_one tbinds_in_sort : tc.

(** What a pattern adds to the working state. *)
Record pt_adds (pt pt' : PatTypeState) (bs : TypeBindings) (tails : Tails)
    (wilds : list PatternPath) : Prop := {
  adds_bindings : pat_bindings pt' = pat_bindings pt ++ bs;
  adds_tails : enum_open_tails pt' = enum_open_tails pt ++ tails;
  adds_wilds π : π ∈ wildcard_pat_paths pt' ↔ π ∈ wildcard_pat_paths pt ∨ π ∈ wilds;
}.

Lemma adds_refl pt : pt_adds pt pt [] [] [].
Proof. split; [by rewrite app_nil_r..|]. intros. rewrite elem_of_nil. tauto. Qed.

Lemma adds_trans pt1 pt2 pt3 bs tails wilds bs' tails' wilds' :
  pt_adds pt1 pt2 bs tails wilds → pt_adds pt2 pt3 bs' tails' wilds' →
  pt_adds pt1 pt3 (bs ++ bs') (tails ++ tails') (wilds ++ wilds').
Proof.
  intros [H1 H2 H3] [H1' H2' H3']. split.
  - by rewrite H1', H1, app_assoc.
  - by rewrite H2', H2, app_assoc.
  - intros π. rewrite H3', H3, elem_of_app. tauto.
Qed.

Lemma adds_binding pt id t : pt_adds pt (push_binding id t pt) [(id, t)] [] [].
Proof.
  split; cbn; [done|by rewrite app_nil_r|]. intros. rewrite elem_of_nil. tauto.
Qed.
Lemma adds_tail pt π e : pt_adds pt (push_tail π e pt) [] [(π, e)] [].
Proof.
  split; cbn; [by rewrite app_nil_r|done|]. intros. rewrite elem_of_nil. tauto.
Qed.
Lemma adds_wildcard pt π : pt_adds pt (push_wildcard π pt) [] [] [π].
Proof. split; cbn; [by rewrite app_nil_r..|]. intros. set_solver. Qed.

Section facts.
Context {ImportError : Type}.
Context (type_eq : Ctr → Ctr → bool).
Context (n : nat) (ctxt : Context) (mode : TypecheckMode).
Implicit Types (st : State).

Abbreviation M := (comp (Ctr := Ctr) (TypecheckError ImportError)).
Abbreviation later := (TcFacts.later type_eq).
Abbreviation ptriple := (SubtypingTheorems.ptriple type_eq).

(** A result that adds to the working state what [P] says. *)
Definition adds (pt : PatTypeState)
    (P : bindings Ctr → TypeBindings → Tails → list PatternPath → Prop)
    (pt' : PatTypeState) st : Prop :=
  ∃ bs tails wilds, pt_adds pt pt' bs tails wilds ∧ tbinds_in (st_dims st) bs ∧
    tails_in (st_dims st) tails ∧ later st (λ b, P b bs tails wilds).

Definition pattern_ok (p : Pattern) : Prop := ∀ st path pt,
  state_ok st →
  ptriple st (pattern_types_inj (ImportError := ImportError) type_eq n ctxt mode p path pt)
    (λ '(t, pt') st', ty_in (st_dims st') t ∧
       adds pt (λ b, pat_has type_eq b (term_env ctxt) mode path p t) pt' st').

Definition data_ok (d : PatternData) : Prop := ∀ st path pt,
  state_ok st →
  ptriple st
    (pattern_data_types (ImportError := ImportError) type_eq n ctxt mode
       (pattern_types_inj type_eq n ctxt mode) d path pt)
    (λ '(t, pt') st', ty_in (st_dims st') t ∧
       adds pt (λ b, data_has type_eq b (term_env ctxt) mode path d t) pt' st').

Lemma any_type_ok {E} st :
  state_ok st →
  SubtypingTheorems.ptriple (E := E) type_eq st (any_type ctxt mode)
    (λ t st', ty_in (st_dims st') t ∧ any_has mode t).
Proof.
  intros Hok. unfold any_type, any_has. destruct mode.
  - by apply ptriple_ok.
  - eapply ptriple_mono; [by apply ptriple_triple, fresh_uvar_ok|]. by intros.
Qed.

(** In a typed block, two types are unified. *)
Lemma unify_enforce_ok st t1 t2 :
  state_ok st → ty_in (st_dims st) t1 → ty_in (st_dims st) t2 →
  ptriple st
    (match mode with
     | ModeEnforce => unify_at (ImportError := ImportError) type_eq n ctxt t1 t2
     | ModeWalk => ok ()
     end)
    (λ _ st', later st' (λ b, mode = ModeEnforce → ty_eq type_eq b t1 t2)).
Proof.
  intros Hok H1 H2. destruct mode.
  - by apply ptriple_ok.
  - eapply ptriple_mono; [by apply unify_at_ok|]. intros [] st1 _ _ Heq b Hb _. by apply Heq.
Qed.

(** ** Fields *)

Lemma field_pattern_ok st fp path pt :
  pattern_ok (let 'mkFieldPattern _ _ _ p := fp in p) → state_ok st →
  ptriple st
    (field_pattern_types (ImportError := ImportError) type_eq n ctxt mode
       (pattern_types_inj type_eq n ctxt mode) path fp pt)
    (λ '(row, pt') st', ∃ id annot def p, fp = mkFieldPattern id annot def p ∧
       rrow_id row = label id ∧ ty_in (st_dims st') (rrow_typ row) ∧
       adds pt (λ b, field_has type_eq b (term_env ctxt) mode (path ++ [PathField (label id)])
                  annot p (rrow_typ row)) pt' st').
Proof.
  destruct fp as [id annot def p]. intros Hp Hok. cbn [field_pattern_types].
  set (path' := path ++ [PathField (label id)]).
  eapply ptriple_bind with (Q1 := λ '(t, pt') st', ty_in (st_dims st') t ∧
    adds pt (λ b, field_has type_eq b (term_env ctxt) mode path' annot p t) pt' st').
  2: { intros [t pt'] st1 Hok1 _ [Ht Hadds]. apply ptriple_ok; [done|]. by eexists id, annot, def, p. }
  destruct (ast_annot_typ annot) as [ty|] eqn:Hty.
  - (* an annotation *)
    assert (ptriple st
      ('(t, pt1) ← pattern_types_inj (ImportError := ImportError) type_eq n ctxt mode p path' pt;
       _ ← unify_at type_eq n ctxt t (from_type (term_env ctxt) ty); ok (t, pt1))
      (λ '(t, pt') st', ty_in (st_dims st') t ∧
         adds pt (λ b, field_has type_eq b (term_env ctxt) mode path' annot p t) pt' st')) as Hgen.
    { eapply ptriple_bind; [by apply Hp|].
      intros [t pt1] st1 Hok1 _ (Ht & bs & tails & wilds & Hpt & Hbs & Htl & Hhas).
      eapply ptriple_bind; [apply unify_at_ok; [done..|apply from_type_in]|].
      intros [] st2 Hok2 Hle2 Heq. advance Hle2. apply ptriple_ok; [done|]. split; [done|].
      exists bs, tails, wilds. split; [done|]. split; [done|].
      split; [by eapply tails_in_mono; [apply Hle2|]|].
      intros b Hb. now_at b Hb. by eapply fh_annot. }
    destruct p as [d alias]. cbn [pat_data] in *. destruct mode eqn:Hmode; [|by destruct d].
    destruct d as [|x| | | | |]; try exact Hgen.
    + apply ptriple_ok; [done|]. split; [apply from_type_in|]. exists [], [], [].
      split; [apply adds_refl|]. split; [auto with tc|]. split; [auto with tc|].
      intros b _. by apply fh_walk_wildcard.
    + apply ptriple_ok; [done|]. split; [apply from_type_in|].
      eexists _, _, _. split; [apply adds_binding|]. split; [apply tbinds_in_one, from_type_in|].
      split; [auto with tc|]. intros b _. by apply fh_walk_any.
  - eapply ptriple_mono; [by apply Hp|].
    intros [t pt1] st1 Hok1 _ (Ht & bs & tails & wilds & Hpt & Hbs & Htl & Hhas).
    split; [done|]. exists bs, tails, wilds. split; [done|]. split; [done|]. split; [done|].
    intros b Hb. by apply fh_plain, Hhas.
Qed.

Lemma record_rows_ok st fps path rest pt :
  List.Forall (λ fp, pattern_ok (let 'mkFieldPattern _ _ _ p := fp in p)) fps →
  state_ok st → rr_in (st_dims st) rest →
  ptriple st
    (fold_each (λ '(rows, pt) field_pat,
       '(row, pt) ← field_pattern_types (ImportError := ImportError) type_eq n ctxt mode
                      (pattern_types_inj type_eq n ctxt mode) path field_pat pt;
       ok (rrows_concrete (RExtend row rows), pt)) (rest, pt) fps)
    (λ '(rows, pt') st', rr_in (st_dims st') rows ∧
       adds pt (λ b, rows_have type_eq b (term_env ctxt) mode path rest fps rows) pt' st').
Proof.
  intros Hfps. revert st rest pt. induction Hfps as [|fp fps Hfp _ IH]; intros st rest pt Hok Hrest.
  - apply ptriple_ok; [done|]. split; [done|]. exists [], [], []. split; [apply adds_refl|].
    split; [auto with tc|]. split; [auto with tc|]. intros b _. constructor.
  - cbn [fold_each].
    eapply ptriple_bind with (Q1 := λ '(rows, pt1) st1, rr_in (st_dims st1) rows ∧
      ∃ id annot def p t, fp = mkFieldPattern id annot def p ∧
        rows = rrows_concrete (RExtend (mkRecordRow (label id) t) rest) ∧
        adds pt (λ b, field_has type_eq b (term_env ctxt) mode (path ++ [PathField (label id)])
                  annot p t) pt1 st1).
    { eapply ptriple_bind; [by apply field_pattern_ok|].
      intros [[rid t] pt1] st1 Hok1 Hle1 (id & annot & def & p & -> & Hid & Ht & Hadds).
      cbn in Hid, Ht, Hadds. subst rid. advance Hle1. apply ptriple_ok; [done|].
      split; [by split|]. by eexists id, annot, def, p, t. }
    intros [rows pt1] st1 Hok1 Hle1
      (Hrows & id & annot & def & p & t & -> & Heq & bs & tails & wilds & Hpt & Hbs & Htl & Hhas).
    eapply ptriple_mono; [by apply IH|].
    intros [rows' pt2] st2 Hok2 Hle2 (Hr & bs' & tails' & wilds' & Hpt' & Hbs' & Htl' & Hhas').
    split; [done|]. advance Hle2. pose proof (tails_in_mono _ _ _ (sle_dims _ _ _ Hle2) Htl).
    exists (bs ++ bs'), (tails ++ tails'), (wilds ++ wilds').
    split; [by eapply adds_trans|]. split; [auto with tc|]. split; [auto with tc|].
    intros b Hb. now_at b Hb. subst rows. by eapply rh_cons.
Qed.

(** ** Arrays *)

Lemma array_elems_ok st ps path i elem pt :
  List.Forall pattern_ok ps → state_ok st → ty_in (st_dims st) elem →
  ptriple st
    (fold_each_i (λ idx pt subpat,
       '(subpat_type, pt) ← pattern_types_inj (ImportError := ImportError) type_eq n ctxt mode subpat
                              (path ++ [PathArray idx]) pt;
       _ ← (match mode with
            | ModeEnforce => unify_at type_eq n ctxt elem subpat_type
            | ModeWalk => ok ()
            end);
       ok pt) i pt ps)
    (λ pt' st', adds pt (λ b, elems_have type_eq b (term_env ctxt) mode path i elem ps) pt' st').
Proof.
  intros Hps. revert st i pt. induction Hps as [|p ps Hp _ IH]; intros st i pt Hok Helem.
  - apply ptriple_ok; [done|]. exists [], [], []. split; [apply adds_refl|].
    split; [auto with tc|]. split; [auto with tc|]. intros b _. constructor.
  - cbn [fold_each_i].
    eapply ptriple_bind with (Q1 := λ pt1 st1, ∃ t,
      adds pt (λ b bs tails wilds, pat_has type_eq b (term_env ctxt) mode (path ++ [PathArray i])
                  p t bs tails wilds ∧ (mode = ModeEnforce → ty_eq type_eq b elem t)) pt1 st1).
    { eapply ptriple_bind; [by apply Hp|].
      intros [t pt1] st1 Hok1 Hle1 (Ht & bs & tails & wilds & Hpt & Hbs & Htl & Hhas). advance Hle1.
      eapply ptriple_bind; [by apply unify_enforce_ok|].
      intros [] st2 Hok2 Hle2 Heq. advance Hle2. apply ptriple_ok; [done|].
      pose proof (tails_in_mono _ _ _ (sle_dims _ _ _ Hle2) Htl).
      exists t, bs, tails, wilds. split; [done|]. split; [done|]. split; [done|].
      intros b Hb. now_at b Hb. by split. }
    intros pt1 st1 Hok1 Hle1 (t & bs & tails & wilds & Hpt & Hbs & Htl & Hhas). advance Hle1.
    eapply ptriple_mono; [by apply IH|].
    intros pt2 st2 Hok2 Hle2 (bs' & tails' & wilds' & Hpt' & Hbs' & Htl' & Hhas').
    advance Hle2. pose proof (tails_in_mono _ _ _ (sle_dims _ _ _ Hle2) Htl).
    exists (bs ++ bs'), (tails ++ tails'), (wilds ++ wilds').
    split; [by eapply adds_trans|]. split; [auto with tc|]. split; [auto with tc|].
    intros b Hb. now_at b Hb. destruct Hhas. by eapply eh_cons.
Qed.

(** ** Or-patterns *)

(** The branches: the type and the sorted variables of each one. *)
Definition branch_has b (path : PatternPath) (p : Pattern) (br : Ty * TypeBindings) bs
    (tails : Tails) wilds : Prop :=
  br.2 = sort_by_id bs ∧ pat_has type_eq b (term_env ctxt) mode path p br.1 bs tails wilds.

Inductive branches_have (b : bindings Ctr) (path : PatternPath) : list Pattern →
    list (Ty * TypeBindings) → Tails → list PatternPath → Prop :=
| bh_nil : branches_have b path [] [] [] []
| bh_cons p ps br brs bs tails wilds tails' wilds' :
    branch_has b path p br bs tails wilds → branches_have b path ps brs tails' wilds' →
    branches_have b path (p :: ps) (br :: brs) (tails ++ tails') (wilds ++ wilds').

Definition branch_in D (br : Ty * TypeBindings) : Prop := ty_in D br.1 ∧ tbinds_in D br.2.

Lemma branch_in_mono D D' br : dims_le D D' → branch_in D br → branch_in D' br.
Proof. intros HD [? ?]. split; [by eapply ty_in_mono|by eapply tbinds_in_mono]. Qed.

Lemma or_branches_ok st ps path brs0 pt :
  List.Forall pattern_ok ps → state_ok st → List.Forall (branch_in (st_dims st)) brs0 →
  ptriple st
    (fold_each (λ '(branches, pt) pat,
       let outer := pat_bindings pt in
       '(typ, pt) ← pattern_types_inj (ImportError := ImportError) type_eq n ctxt mode pat path
                      (with_bindings [] pt);
       ok (branches ++ [(typ, sort_by_id (pat_bindings pt))], with_bindings outer pt))
       (brs0, pt) ps)
    (λ '(brs, pt') st', List.Forall (branch_in (st_dims st')) brs ∧ ∃ brs1, brs = brs0 ++ brs1 ∧
       adds pt (λ b bs tails wilds, bs = [] ∧ branches_have b path ps brs1 tails wilds) pt' st').
Proof.
  intros Hps. revert st brs0 pt. induction Hps as [|p ps Hp _ IH]; intros st brs0 pt Hok Hbrs.
  - apply ptriple_ok; [done|]. split; [done|]. exists []. split; [by rewrite app_nil_r|].
    exists [], [], []. split; [apply adds_refl|]. split; [auto with tc|]. split; [auto with tc|].
    intros b _. split; [done|constructor].
  - cbn [fold_each]. cbv zeta.
    eapply ptriple_bind with (Q1 := λ '(brs, pt1) st1, List.Forall (branch_in (st_dims st1)) brs ∧
      ∃ br, brs = brs0 ++ [br] ∧
        adds pt (λ b bs tails wilds, bs = [] ∧ ∃ bs', branch_has b path p br bs' tails wilds) pt1 st1).
    { eapply ptriple_bind; [by apply Hp|].
      intros [t pt1] st1 Hok1 Hle1 (Ht & bs & tails & wilds & [Hpt1 Hpt2 Hpt3] & Hbs & Htl & Hhas).
      cbn in Hpt1, Hpt2, Hpt3. rewrite Hpt1. apply ptriple_ok; [done|]. split.
      { apply Forall_app. split.
        - eapply Forall_impl; [done|]. intros br. by apply branch_in_mono, Hle1.
        - constructor; [|done]. split; cbn; auto with tc. }
      eexists. split; [done|]. exists [], tails, wilds. split.
      { split; cbn; [by rewrite app_nil_r|done|done]. }
      split; [auto with tc|]. split; [done|]. intros b Hb. split; [done|]. exists bs. split; [done|].
      by apply Hhas. }
    intros [brs pt1] st1 Hok1 Hle1 (Hbrs1 & br & -> & bs & tails & wilds & Hpt & Hbs & Htl & Hhas).
    eapply ptriple_mono; [by apply IH|].
    intros [brs' pt2] st2 Hok2 Hle2
      (Hbrs2 & brs1 & -> & bs' & tails' & wilds' & Hpt' & Hbs' & Htl' & Hhas').
    split; [done|]. exists (br :: brs1). split; [by rewrite <- app_assoc|]. advance Hle2.
    pose proof (tails_in_mono _ _ _ (sle_dims _ _ _ Hle2) Htl).
    exists (bs ++ bs'), (tails ++ tails'), (wilds ++ wilds').
    split; [by eapply adds_trans|]. split; [auto with tc|]. split; [auto with tc|].
    intros b Hb. now_at b Hb. destruct Hhas as (-> & bs1 & Hbr), Hhas' as [-> Hbrs']. split; [done|].
    by eapply bh_cons.
Qed.

Lemma or_unify_bindings_ok st model bs :
  state_ok st → tbinds_in (st_dims st) model → tbinds_in (st_dims st) bs →
  length model = length bs →
  ptriple st (or_unify_bindings (ImportError := ImportError) type_eq n ctxt mode model bs)
    (λ _ st', later st' (λ b, Forall2 (λ x y, x.1 = y.1 ∧
       (mode = ModeEnforce → ty_eq type_eq b x.2 y.2)) model bs)).
Proof.
  revert st model. induction bs as [|[id t] bs IH]; intros st [|[mid mt] model] Hok Hm Hb Hlen;
    try done.
  - apply ptriple_ok; [done|]. intros b _. constructor.
  - cbn [or_unify_bindings]. case_decide as Hid; [|by apply ptriple_err]. subst mid.
    assert (ty_in (st_dims st) mt) as Hmt by (apply (Hm id mt); by left).
    assert (ty_in (st_dims st) t) as Ht by (apply (Hb id t); by left).
    assert (tbinds_in (st_dims st) model) as Hm' by (intros x u Hx; apply (Hm x u); by right).
    assert (tbinds_in (st_dims st) bs) as Hb' by (intros x u Hx; apply (Hb x u); by right).
    clear Hm Hb. eapply ptriple_bind; [by apply unify_enforce_ok|].
    intros [] st1 Hok1 Hle1 Heq. advance Hle1. cbn in Hlen.
    eapply ptriple_mono; [apply IH; auto with lia|]. intros [] st2 Hok2 Hle2 Hall. advance Hle2.
    intros b Hb. now_at b Hb. by constructor.
Qed.

Lemma or_unify_branch_ok st model_typ model br :
  state_ok st → ty_in (st_dims st) model_typ → tbinds_in (st_dims st) model →
  branch_in (st_dims st) br →
  ptriple st (or_unify_branch (ImportError := ImportError) type_eq n ctxt mode model_typ model br)
    (λ _ st', later st' (λ b, (mode = ModeEnforce → ty_eq type_eq b model_typ br.1) ∧
       Forall2 (λ x y, x.1 = y.1 ∧ (mode = ModeEnforce → ty_eq type_eq b x.2 y.2)) model br.2)).
Proof.
  intros Hok Ht Hm [Hbt Hbb]. destruct br as [t bs]. cbn in Hbt, Hbb |- *.
  unfold or_unify_branch. destruct (length model =? length bs) eqn:Hlen; breflect.
  - eapply ptriple_bind; [by apply unify_enforce_ok|].
    intros [] st1 Hok1 Hle1 Heq. advance Hle1.
    eapply ptriple_mono; [by apply or_unify_bindings_ok|]. intros [] st2 Hok2 Hle2 Hall. advance Hle2.
    intros b Hb. now_at b Hb. by split.
  - eapply ptriple_bind; [by apply ptriple_reading with (Q := λ _ st', st' = st)|].
    intros w ? Hok1 _ ->. by apply ptriple_err.
Qed.

Lemma branches_or_have b path t bs ps brs tails wilds :
  branches_have b path ps brs tails wilds →
  (∀ br, br ∈ brs → (mode = ModeEnforce → ty_eq type_eq b t br.1) ∧
     Forall2 (λ x y, x.1 = y.1 ∧ (mode = ModeEnforce → ty_eq type_eq b x.2 y.2))
       (sort_by_id bs) br.2) →
  or_have type_eq b (term_env ctxt) mode path t bs ps tails wilds.
Proof.
  induction 1 as [|p ps br brs bs' tails wilds tails' wilds' [Hbr Hp] _ IH]; intros Hall;
    [constructor|].
  destruct (Hall br) as [Ht Hbs]; [by left|]. econstructor; [exact Hp|done| |].
  - unfold same_vars. by rewrite <- Hbr.
  - apply IH. intros br' Hbr'. apply Hall. by right.
Qed.

(** ** Patterns *)

Definition sub_patterns (d : PatternData) : list Pattern :=
  match d with
  | PatRecord fps _ => map (λ fp, let 'mkFieldPattern _ _ _ p := fp in p) fps
  | PatArray ps _ | PatOr ps => ps
  | PatEnum _ (Some p) => [p]
  | _ => []
  end.

Lemma record_pattern_ok st fps tail path pt :
  List.Forall (λ fp, pattern_ok (let 'mkFieldPattern _ _ _ p := fp in p)) fps → state_ok st →
  ptriple st
    (record_pattern_types (ImportError := ImportError) type_eq n ctxt mode
       (pattern_types_inj type_eq n ctxt mode) fps tail path pt)
    (λ '(rows, pt') st', rr_in (st_dims st') rows ∧
       adds pt (λ b bs tails wilds,
         data_has type_eq b (term_env ctxt) mode path (PatRecord fps tail)
           (type_concrete (Record rows)) bs tails wilds) pt' st').
Proof.
  intros Hfps Hok. unfold record_pattern_types.
  eapply ptriple_bind with (Q1 := λ rest st1, rr_in (st_dims st1) rest ∧
    match mode, tail_is_open tail with
    | _, false => rest = no_rrows
    | ModeWalk, true => rest = rrows_concrete RTailDyn
    | ModeEnforce, true => True
    end).
  { destruct (tail_is_open tail), mode; try (by apply ptriple_ok).
    eapply ptriple_mono; [by apply ptriple_triple, fresh_rrows_ok|]. by intros. }
  intros rest st1 Hok1 Hle1 [Hrest Hshape]. cbv zeta.
  set (bs0 := match tail with TailCapture id => [(id, type_concrete (Record rest))] | _ => [] end).
  assert (tbinds_in (st_dims st1) bs0) as Hbs0.
  { unfold bs0. destruct tail; auto with tc. }
  match goal with |- context [(rest, ?pt0)] => set (pt1 := pt0) end.
  assert (pt_adds pt pt1 bs0 [] []) as Hpt1.
  { unfold pt1, bs0. destruct tail; auto using adds_refl, adds_binding. }
  eapply ptriple_mono; [by apply record_rows_ok|].
  intros [rows pt2] st2 Hok2 Hle2 (Hr & bs & tails & wilds & Hpt & Hbs & Htl & Hhas). advance Hle2.
  split; [done|]. exists (bs0 ++ bs), ([] ++ tails), ([] ++ wilds).
  split; [by eapply adds_trans|]. split; [auto with tc|]. split; [done|].
  intros b Hb. now_at b Hb. by eapply dh_record.
Qed.

Lemma array_pattern_ok st ps tail path pt :
  List.Forall pattern_ok ps → state_ok st →
  ptriple st
    (array_pattern_types (ImportError := ImportError) type_eq n ctxt mode
       (pattern_types_inj type_eq n ctxt mode) ps tail path pt)
    (λ '(elem, pt') st', ty_in (st_dims st') elem ∧
       adds pt (λ b bs tails wilds,
         data_has type_eq b (term_env ctxt) mode path (PatArray ps tail) (array elem)
           bs tails wilds) pt' st').
Proof.
  intros Hps Hok. unfold array_pattern_types. eapply ptriple_bind; [by apply any_type_ok|].
  intros elem st1 Hok1 Hle1 [Helem Hany]. eapply ptriple_bind; [by apply array_elems_ok|].
  intros pt1 st2 Hok2 Hle2 (bs & tails & wilds & Hpt & Hbs & Htl & Hhas). advance Hle2.
  apply ptriple_ok; [done|]. split; [done|].
  set (bs1 := match tail with TailCapture id => [(id, array elem)] | _ => [] end).
  exists (bs ++ bs1), (tails ++ []), (wilds ++ []). split.
  { eapply adds_trans; [done|]. unfold bs1. destruct tail; auto using adds_refl, adds_binding. }
  split.
  { apply tbinds_in_app; [done|]. unfold bs1. destruct tail; auto with tc. }
  split; [auto with tc|]. intros b Hb. now_at b Hb. rewrite !app_nil_r. by eapply dh_array.
Qed.

Lemma or_pattern_ok st ps path pt :
  List.Forall pattern_ok ps → state_ok st →
  ptriple st
    (or_pattern_types (ImportError := ImportError) type_eq n ctxt mode
       (pattern_types_inj type_eq n ctxt mode) ps path pt)
    (λ '(t, pt') st', ty_in (st_dims st') t ∧
       adds pt (λ b, data_has type_eq b (term_env ctxt) mode path (PatOr ps) t) pt' st').
Proof.
  intros Hps Hok. unfold or_pattern_types.
  eapply ptriple_bind; [by apply (or_branches_ok st ps path [] pt)|].
  intros [brs pt1] st1 Hok1 Hle1 (Hbrs & brs1 & -> & bs & tails & wilds & Hpt & Hbs & Htl & Hhas).
  cbn [app] in *. pose proof (later_now _ _ _ Hhas) as [-> Hnow].
  destruct brs1 as [|[t model] rest].
  - inversion Hnow; subst. apply ptriple_ok; [done|]. split; [done|].
    exists [], [], []. split; [done|]. split; [done|]. split; [done|]. intros b _. constructor.
  - apply List.Forall_cons_iff in Hbrs as [[Ht Hmodel] Hrest]. cbn in Ht, Hmodel.
    eapply ptriple_bind with (Q1 := λ _ st', later st' (λ b, ∀ br, br ∈ rest →
      (mode = ModeEnforce → ty_eq type_eq b t br.1) ∧
      Forall2 (λ x y, x.1 = y.1 ∧ (mode = ModeEnforce → ty_eq type_eq b x.2 y.2)) model br.2)).
    { apply ptriple_for_each; [done|]. intros br st2 Hbr Hok2 Hle2. advance Hle2.
      apply or_unify_branch_ok; [done..|]. eapply branch_in_mono; [apply Hle2|].
      rewrite List.Forall_forall in Hrest. by apply Hrest, list_elem_of_In. }
    intros [] st2 Hok2 Hle2 Hall. advance Hle2. apply ptriple_ok; [done|]. split; [done|].
    exists model, tails, wilds. split.
    { destruct Hpt as [Hp1 Hp2 Hp3]. split; cbn; [|done..]. by rewrite Hp1, app_nil_r. }
    split; [done|]. split; [by eapply tails_in_mono; [apply Hle2|]|].
    intros b Hb. now_at b Hb. destruct Hhas as [_ Hhas]. inversion Hhas; subst.
    match goal with H : branch_has _ _ _ _ _ _ _ |- _ => destruct H as [Hm Hp] end. cbn in Hm, Hp.
    subst model. eapply dh_or; [exact Hp|]. by eapply branches_or_have.
Qed.

Lemma data_is_ok d : List.Forall pattern_ok (sub_patterns d) → data_ok d.
Proof.
  intros Hsub st path pt Hok. destruct d as [|id|fps tail|ps tail|tag [p|]|c|ps];
    cbn [pattern_data_types sub_patterns] in *.
  - eapply ptriple_bind; [by apply any_type_ok|]. intros t st1 Hok1 _ [Ht Hany].
    apply ptriple_ok; [done|]. split; [done|]. exists [], [], [path]. split; [apply adds_wildcard|].
    split; [auto with tc|]. split; [auto with tc|]. intros b _. by constructor.
  - eapply ptriple_bind; [by apply any_type_ok|]. intros t st1 Hok1 _ [Ht Hany].
    apply ptriple_ok; [done|]. split; [done|]. exists [(id, t)], [], [path].
    split; [exact (adds_trans _ _ _ _ _ _ _ _ _ (adds_wildcard pt path) (adds_binding _ id t))|].
    split; [auto with tc|]. split; [auto with tc|]. intros b _. by constructor.
  - eapply ptriple_bind.
    { apply record_pattern_ok; [|done]. exact (proj1 (List.Forall_map _ _ _) Hsub). }
    intros [rows pt1] st1 Hok1 _ Hadds. apply ptriple_ok; [done|]. exact Hadds.
  - eapply ptriple_bind; [by apply array_pattern_ok|].
    intros [rows pt1] st1 Hok1 _ Hadds. apply ptriple_ok; [done|]. exact Hadds.
  - apply List.Forall_cons_iff in Hsub as [Hp _]. cbn [enum_pattern_types].
    eapply ptriple_bind with (Q1 := λ '(row, pt1) st1, ∃ t, row = mkEnumRow (label tag) (Some t) ∧
      ty_in (st_dims st1) t ∧ adds pt (λ b, pat_has type_eq b (term_env ctxt) mode
        (path ++ [PathVariant]) p t) pt1 st1).
    { eapply ptriple_bind; [by apply Hp|]. intros [t pt1] st1 Hok1 _ [Ht Hadds].
      apply ptriple_ok; [done|]. by exists t. }
    intros [row pt1] st1 Hok1 Hle1 (t & -> & Ht & bs & tails & wilds & Hpt & Hbs & Htl & Hhas).
    eapply ptriple_bind; [by apply ptriple_triple, fresh_erows_ok|].
    intros e st2 Hok2 Hle2 He. advance Hle2. apply ptriple_ok; [done|]. split; [by split|].
    exists (bs ++ []), (tails ++ [(path, e)]), (wilds ++ []). split; [by eapply adds_trans, adds_tail|].
    split; [auto with tc|].
    split; [apply tails_in_app; [by eapply tails_in_mono; [apply Hle2|]|auto with tc]|].
    intros b Hb. now_at b Hb. rewrite !app_nil_r. by constructor.
  - cbn [enum_pattern_types]. eapply ptriple_bind; [by apply ptriple_ok with (Q := λ r st',
      r = (mkEnumRow (label tag) None, pt))|].
    intros [row pt1] st1 Hok1 _ [= -> ->].
    eapply ptriple_bind; [by apply ptriple_triple, fresh_erows_ok|].
    intros e st2 Hok2 _ He. apply ptriple_ok; [done|]. split; [done|].
    exists [], [(path, e)], []. split; [apply adds_tail|]. split; [auto with tc|].
    split; [auto with tc|]. intros b _. constructor.
  - apply ptriple_ok; [done|]. split; [by destruct c|]. exists [], [], []. split; [apply adds_refl|].
    split; [auto with tc|]. split; [auto with tc|]. intros b _. constructor.
  - by apply or_pattern_ok.
Qed.

Lemma alias_is_ok d alias : data_ok d → pattern_ok (mkPattern d alias).
Proof.
  intros Hd st path pt Hok. cbn [pattern_types_inj]. eapply ptriple_bind; [by apply Hd|].
  intros [t pt1] st1 Hok1 _ (Ht & bs & tails & wilds & Hpt & Hbs & Htl & Hhas).
  apply ptriple_ok; [done|]. split; [done|].
  exists (bs ++ option_list ((λ a, (a, t)) <$> alias)), (tails ++ []), (wilds ++ []). split.
  { eapply adds_trans; [done|]. destruct alias; [apply adds_binding|apply adds_refl]. }
  split; [apply tbinds_in_app; [done|]; destruct alias; cbn; auto with tc|]. split; [auto with tc|].
  intros b Hb. now_at b Hb. rewrite !app_nil_r. by constructor.
Qed.

Lemma pattern_is_ok p : pattern_ok p.
Proof.
  revert p. apply (pattern_ind' (λ _, True) pattern_ok (λ _, True) (λ _, True) (λ _, True)
    (λ _, True) (λ _, True)); try done.
  - intros d alias Hleaf. apply alias_is_ok, data_is_ok. by destruct d as [| | | |tag [p|]| |].
  - intros l tail alias Hl. apply alias_is_ok, data_is_ok, List.Forall_map.
    eapply List.Forall_impl; [|exact Hl]. by intros [id a d p] (_ & _ & Hp).
  - intros l tail alias Hl. by apply alias_is_ok, data_is_ok.
  - intros tag p alias Hp. apply alias_is_ok, data_is_ok. by constructor.
  - intros l alias Hl. by apply alias_is_ok, data_is_ok.
Qed.

(** ** [pattern_types] *)

Definition in_data D (data : PatternTypeData) : Prop :=
  ty_in D (pat_typ data) ∧ tbinds_in D (pat_bindings (pat_state data)) ∧
  tails_in D (enum_open_tails (pat_state data)).

Lemma adds_new P pt' st :
  adds pat_state_new P pt' st →
  tbinds_in (st_dims st) (pat_bindings pt') ∧ tails_in (st_dims st) (enum_open_tails pt') ∧
  ∃ wilds, (∀ π, π ∈ wildcard_pat_paths pt' ↔ π ∈ wilds) ∧
    later st (λ b, P b (pat_bindings pt') (enum_open_tails pt') wilds).
Proof.
  intros (bs & tails & wilds & [H1 H2 H3] & Hbs & Htl & HP). cbn in *. rewrite H1, H2.
  split; [done|]. split; [done|]. exists wilds. split; [|done]. intros π. rewrite H3. set_solver.
Qed.

Lemma pattern_types_ok st p :
  state_ok st →
  ptriple st (pattern_types (ImportError := ImportError) type_eq n ctxt mode p)
    (λ data st', in_data (st_dims st') data ∧
       ∃ wilds, (∀ π, π ∈ wildcard_pat_paths (pat_state data) ↔ π ∈ wilds) ∧
         later st' (λ b, pat_has type_eq b (term_env ctxt) mode [] p (pat_typ data)
           (pat_bindings (pat_state data)) (enum_open_tails (pat_state data)) wilds)).
Proof.
  intros Hok. unfold pattern_types. eapply ptriple_bind; [by apply pattern_is_ok|].
  intros [t pt] st1 Hok1 _ (Ht & (Hbs & Htl & Hw)%adds_new). by apply ptriple_ok.
Qed.

Lemma data_types_ok st d :
  state_ok st →
  ptriple st (data_types (ImportError := ImportError) type_eq n ctxt mode d)
    (λ data st', in_data (st_dims st') data ∧
       ∃ wilds, later st' (λ b, data_has type_eq b (term_env ctxt) mode [] d (pat_typ data)
           (pat_bindings (pat_state data)) (enum_open_tails (pat_state data)) wilds)).
Proof.
  intros Hok. unfold data_types. eapply ptriple_bind.
  - apply data_is_ok; [|done]. apply List.Forall_forall. intros p _. apply pattern_is_ok.
  - intros [t pt] st1 Hok1 _ (Ht & (Hbs & Htl & wilds & _ & Hw)%adds_new). apply ptriple_ok; [done|].
    split; [done|]. by exists wilds.
Qed.

End facts.
