(* ===== verification/TcSoundRecord.v ===== *)
(** * The typechecker implements its rules

    What [walk], [check] and [infer] establish, construct by construct, given that
    the recursive calls establish it. The composition of these lemmas, by induction
    on the fuel, is in [TcSoundTerm]. *)
From stdpp Require Import strings.
From S2P Require Import Prelude IndexMap Values Records Make Ast AstInd Pattern UnifTypes UnifTable SlotFacts Unify UnifRel UnifTableFacts UnifySound UnifyClosed UnifyTheorems Subtyping SubtypingTheorems TcTypes TcPattern TcOperation TcRecord Typecheck TcRules TcFacts TcPatternFacts.

Section sound.
Context `{IndexMapOps Values.Ident}.
Context {ImportError : Type}.
Context (type_eq : Ctr → Ctr → bool).
Context (resolve : Import → Prelude.result (option Ast) ImportError).
Implicit Types (st : State) (ctxt : Context).

Abbreviation M := (comp (Ctr := Ctr) (TypecheckError ImportError)).
Abbreviation later := (TcFacts.later type_eq).
Abbreviation ptriple := (SubtypingTheorems.ptriple type_eq).
Abbreviation wt_walk := (TcRules.wt_walk type_eq resolve).
Abbreviation wt_check := (TcRules.wt_check type_eq resolve).
Abbreviation wt_infer := (TcRules.wt_infer type_eq resolve).
Abbreviation wt_type := (TcRules.wt_type type_eq resolve).

Definition walk_ok (walk : Context → Ast → M unit) : Prop := ∀ st ctxt a,
  state_ok st → env_in (st_dims st) ctxt →
  ptriple st (walk ctxt a) (λ _ st', later st' (λ b, wt_walk b ctxt a)).
Definition check_ok (check : Context → Ast → Ty → M unit) : Prop := ∀ st ctxt a t,
  state_ok st → env_in (st_dims st) ctxt → ty_in (st_dims st) t →
  ptriple st (check ctxt a t) (λ _ st', later st' (λ b, wt_check b ctxt a t)).
Definition infer_ok (infer : Context → Ast → M Ty) : Prop := ∀ st ctxt a,
  state_ok st → env_in (st_dims st) ctxt →
  ptriple st (infer ctxt a)
    (λ t st', ty_in (st_dims st') t ∧ later st' (λ b, wt_infer b ctxt a t)).

Section step.
Context (n : nat).
Context (walk : Context → Ast → M unit).
Context (check : Context → Ast → Ty → M unit).
Context (infer : Context → Ast → M Ty).
Context (Hwalk : walk_ok walk) (Hcheck : check_ok check) (Hinfer : infer_ok infer).

(** ** Types *)

Lemma walk_type_ok ctxt ty : ∀ st, state_ok st → env_in (st_dims st) ctxt →
  ptriple st (walk_type walk ctxt ty) (λ _ st', later st' (λ b, wt_type b ctxt ty))
with walk_rrows_ok ctxt r : ∀ st, state_ok st → env_in (st_dims st) ctxt →
  ptriple st (walk_rrows walk ctxt r)
    (λ _ st', later st' (λ b, wt_type_rows type_eq resolve b ctxt r)).
Proof.
  - destruct ty as [| | | | | |a|t1 t2| |v k t|e|r|t f|t|i]; intros st Hok Henv; cbn [walk_type];
      try (apply ptriple_ok; [exact Hok|]; intros b _; by apply wy_leaf).
    + eapply ptriple_mono; [by apply Hwalk|]. intros [] st1 _ _ Hw b Hb. by apply wy_contract, Hw.
    + eapply ptriple_bind; [by apply walk_type_ok|]. intros [] st1 Hok1 Hle1 H1. advance Hle1.
      eapply ptriple_mono; [by apply walk_type_ok|]. intros [] st2 Hok2 Hle2 H2. advance Hle2.
      intros b Hb. now_at b Hb. by apply wy_arrow.
    + eapply ptriple_mono; [by apply walk_type_ok|]. intros [] st1 _ _ Hw b Hb. by apply wy_forall, Hw.
    + eapply ptriple_mono; [by apply walk_rrows_ok|]. intros [] st1 _ _ Hw b Hb. by apply wy_record, Hw.
    + eapply ptriple_mono; [by apply walk_type_ok|]. intros [] st1 _ _ Hw b Hb. by apply wy_dict, Hw.
    + eapply ptriple_mono; [by apply walk_type_ok|]. intros [] st1 _ _ Hw b Hb. by apply wy_array, Hw.
  - destruct r as [|id t r|id|]; intros st Hok Henv; cbn [walk_rrows];
      try (apply ptriple_ok; [exact Hok|]; intros b _; by apply wyr_end).
    eapply ptriple_bind; [by apply walk_type_ok|]. intros [] st1 Hok1 Hle1 H1. advance Hle1.
    eapply ptriple_mono; [by apply walk_rrows_ok|]. intros [] st2 Hok2 Hle2 H2. advance Hle2.
    intros b Hb. now_at b Hb. by apply wyr_extend.
Qed.

Lemma walk_types_ok st ctxt l :
  state_ok st → env_in (st_dims st) ctxt →
  ptriple st (for_each (walk_type walk ctxt) l)
    (λ _ st', later st' (λ b, ∀ t, t ∈ l → wt_type b ctxt t)).
Proof.
  intros Hok Henv. apply ptriple_for_each; [done|]. intros t st1 _ Hok1 Hle1.
  advance Hle1. by apply walk_type_ok.
Qed.

(** ** Annotated values *)

Lemma bind_pattern_walk_ok st ctxt p :
  state_ok st → env_in (st_dims st) ctxt →
  ptriple st (bind_pattern_walk (ImportError := ImportError) type_eq n ctxt p)
    (λ ctxt' st', env_in (st_dims st') ctxt' ∧ ∃ t bs tails wilds,
       ctxt' = bind_types (named bs) ctxt ∧
       later st' (λ b, pat_has type_eq b (term_env ctxt) ModeWalk [] p t bs tails wilds)).
Proof.
  intros Hok Henv. unfold bind_pattern_walk. eapply ptriple_bind; [by apply pattern_types_ok|].
  intros data st1 Hok1 Hle1 ((Ht & Hbs & Htl) & wilds & _ & Hhas). advance Hle1.
  apply ptriple_ok; [done|]. split; [by apply env_in_named|]. by eexists _, _, _, _.
Qed.

Lemma bind_patterns_ok st ctxt ps :
  state_ok st → env_in (st_dims st) ctxt →
  ptriple st (fold_each (bind_pattern_walk (ImportError := ImportError) type_eq n) ctxt ps)
    (λ ctxt' st', env_in (st_dims st') ctxt' ∧
       later st' (λ b, bind_patterns type_eq resolve b ctxt ps ctxt')).
Proof.
  revert st ctxt. induction ps as [|p ps IH]; intros st ctxt Hok Henv.
  - apply ptriple_ok; [done|]. split; [done|]. intros b _. constructor.
  - cbn [fold_each]. eapply ptriple_bind; [by apply bind_pattern_walk_ok|].
    intros ctxt1 st1 Hok1 Hle1 (Henv1 & t & bs & tails & wilds & -> & Hhas).
    eapply ptriple_mono; [by apply IH|]. intros ctxt2 st2 Hok2 Hle2 [Henv2 Hps]. advance Hle2.
    split; [done|]. intros b Hb. now_at b Hb. by econstructor.
Qed.

Lemma bind_domains_ok st ctxt args domains :
  state_ok st → env_in (st_dims st) ctxt → (∀ t, t ∈ domains → ty_in (st_dims st) t) →
  ptriple st (bind_domains (ImportError := ImportError) type_eq n ctxt args domains)
    (λ ctxt' st', env_in (st_dims st') ctxt' ∧
       later st' (λ b, bind_args type_eq resolve b ctxt args domains ctxt')).
Proof.
  revert st ctxt domains. induction args as [|arg args IH]; intros st ctxt domains Hok Henv Hdom.
  - apply ptriple_ok; [done|]. split; [done|]. intros b _. constructor.
  - cbn [bind_domains]. cbv zeta. set (t := default dynamic (head domains)).
    assert (ty_in (st_dims st) t) as Ht.
    { unfold t. destruct domains as [|t0 domains]; [done|]. apply Hdom. by left. }
    assert (∀ u, u ∈ tail domains → ty_in (st_dims st) u) as Hdom'.
    { intros u Hu. destruct domains; [by apply elem_of_nil in Hu|]. apply Hdom. by right. }
    destruct arg as [d alias]. eapply ptriple_bind with (Q1 := λ ctxt1 st1,
      env_in (st_dims st1) ctxt1 ∧
      ((∃ id, d = PatAny id ∧
          ctxt1 = bind_types (option_list ((λ a, (label a, t)) <$> alias)) (bind_type (label id) t ctxt))
       ∨ ∃ u bs tails wilds, ctxt1 = bind_types (named bs) ctxt ∧
           later st1 (λ b, pat_has type_eq b (term_env ctxt) ModeWalk [] (mkPattern d alias) u
             bs tails wilds))).
    { destruct (try_as_any (mkPattern d alias)) as [id|] eqn:Hany.
      - apply ptriple_ok; [done|]. destruct d; try discriminate Hany. injection Hany as ->. cbn.
        split; [|left; eexists; split; [done|]; by destruct alias].
        destruct alias; repeat apply env_in_bind; done.
      - eapply ptriple_mono; [by apply bind_pattern_walk_ok|].
        intros ctxt1 st1 Hok1 _ (? & u & bs & tails & wilds & ? & ?). split; [done|]. right.
        by exists u, bs, tails, wilds. }
    intros ctxt1 st1 Hok1 Hle1 [Henv1 Hcase]. eapply ptriple_mono.
    { apply IH; [done..|]. intros u Hu. apply Hdom' in Hu. by advance Hle1. }
    intros ctxt2 st2 Hok2 Hle2 [Henv2 Hargs]. split; [done|].
    destruct Hcase as [(id & -> & ->)|(u & bs & tails & wilds & -> & Hhas)]; advance Hle2;
      intros b Hb; now_at b Hb; [by eapply ba_any|by eapply ba_pattern].
Qed.

Lemma arrow_domains_in D env ty t : t ∈ arrow_domains env ty → ty_in D t.
Proof.
  revert ty t. fix IH 1. intros ty t.
  destruct ty; cbn [arrow_domains]; try (intros Hin; by apply elem_of_nil in Hin).
  intros Hin. apply elem_of_cons in Hin as [Heq|Hin]; [|exact (IH _ _ Hin)].
  rewrite Heq. apply from_type_in.
Qed.

Lemma contract_domains_in D env l domains :
  contract_domains env l = Some domains → ∀ t, t ∈ domains → ty_in D t.
Proof.
  unfold contract_domains. induction l as [|c l IH]; [done|]. cbn [find_map].
  destruct c as [| | | | | | |c1 c2| | | | | | |]; try exact IH. intros [= <-] t. apply (arrow_domains_in D env (ATyArrow c1 c2)).
Qed.

Lemma walk_with_annot_ok st ctxt annots value :
  state_ok st → env_in (st_dims st) ctxt →
  ptriple st (walk_with_annot type_eq n walk check ctxt annots value)
    (λ _ st', later st' (λ b, wt_annot_walk type_eq resolve b ctxt annots value)).
Proof.
  intros Hok Henv. unfold walk_with_annot. eapply ptriple_bind; [by apply walk_types_ok|].
  intros [] st1 Hok1 Hle1 Htypes. advance Hle1.
  destruct value as [value|].
  2: { destruct (seq_typ annots); (apply ptriple_ok; [done|]; intros b Hb; now_at b Hb; by constructor). }
  destruct (seq_typ annots) as [ty|] eqn:Htyp.
  { eapply ptriple_mono; [apply Hcheck; [done..|apply from_type_in]|].
    intros [] st2 Hok2 Hle2 Hv. advance Hle2. intros b Hb. now_at b Hb. by eapply wa_typ. }
  assert (ptriple st1 (walk ctxt value)
    (λ _ st', later st' (λ b, wt_annot_walk type_eq resolve b ctxt annots (Some value)))) as Hgen.
  { eapply ptriple_mono; [by apply Hwalk|].
    intros [] st2 Hok2 Hle2 Hv. advance Hle2. intros b Hb. now_at b Hb. by eapply wa_walk. }
  destruct value; try exact Hgen.
  destruct (contract_domains _ _) as [domains|] eqn:Hdom; [|exact Hgen].
  eapply ptriple_bind; [apply bind_domains_ok; [done..|by eapply contract_domains_in]|].
  intros ctxt' st2 Hok2 Hle2 [Henv' Hargs]. advance Hle2.
  eapply ptriple_mono; [by apply Hwalk|]. intros [] st3 Hok3 Hle3 Hbody. advance Hle3.
  intros b Hb. now_at b Hb. by eapply wa_domains.
Qed.

Lemma infer_with_annot_ok st ctxt annots value :
  state_ok st → env_in (st_dims st) ctxt →
  ptriple st (infer_with_annot walk check infer ctxt annots value)
    (λ t st', ty_in (st_dims st') t ∧
       later st' (λ b, wt_annot type_eq resolve b ctxt annots value t)).
Proof.
  intros Hok Henv. unfold infer_with_annot. eapply ptriple_bind; [by apply walk_types_ok|].
  intros [] st1 Hok1 Hle1 Htypes. advance Hle1.
  assert (∀ t, t = match seq_first annots with
                   | Some ty => from_type (term_env ctxt) ty | None => dynamic end →
    SubtypingTheorems.ptriple (E := TypecheckError ImportError) type_eq st1 (ok t)
      (λ t st', ty_in (st_dims st') t ∧ later st' (λ b, wt_annot type_eq resolve b ctxt annots None t)))
    as Hnone.
  { intros t Ht. apply ptriple_ok; [done|]. split.
    - subst t. destruct (seq_first annots); [apply from_type_in|done].
    - intros b Hb. now_at b Hb. by constructor. }
  destruct (seq_typ annots) as [ty|] eqn:Htyp.
  - destruct value as [value|]; [|by apply Hnone]. cbv zeta.
    eapply ptriple_bind; [apply Hcheck; [done..|apply from_type_in]|].
    intros [] st2 Hok2 Hle2 Hv. advance Hle2. apply ptriple_ok; [done|].
    split; [apply from_type_in|]. intros b Hb. now_at b Hb. by apply wo_typ.
  - destruct (seq_contracts annots) as [|ty rest] eqn:Hctrs.
    + destruct value as [value|]; [|by apply Hnone].
      eapply ptriple_mono; [by apply Hinfer|]. intros t st2 Hok2 Hle2 [Ht Hv]. advance Hle2.
      split; [done|]. intros b Hb. now_at b Hb. by apply wo_infer.
    + eapply ptriple_bind with (Q1 := λ _ st', later st' (λ b, ∀ v, value = Some v → wt_walk b ctxt v)).
      { destruct value as [value|]; [|by apply ptriple_ok].
        eapply ptriple_mono; [by apply Hwalk|]. intros [] st2 Hok2 Hle2 Hv b Hb v [= <-]. by apply Hv. }
      intros [] st2 Hok2 Hle2 Hv. advance Hle2. apply ptriple_ok; [done|].
      split; [apply from_type_in|]. intros b Hb. now_at b Hb. by eapply wo_contract.
Qed.

Lemma check_view_ok st ctxt annots value t :
  state_ok st → env_in (st_dims st) ctxt → ty_in (st_dims st) t →
  ptriple st (check_view type_eq n walk check infer ctxt annots value t)
    (λ _ st', later st' (λ b, wt_view type_eq resolve b ctxt annots value t)).
Proof.
  intros Hok Henv Ht. unfold check_view. destruct (seq_iter annots) as [|a l] eqn:Hiter.
  - destruct value as [value|].
    + eapply ptriple_mono; [by apply Hcheck|]. intros [] st1 _ _ Hv b Hb. now_at b Hb. by apply wv_value.
    + eapply ptriple_mono; [by apply unify_at_ok|]. intros [] st1 _ _ Hv b Hb. now_at b Hb. by apply wv_none.
  - eapply ptriple_bind; [by apply infer_with_annot_ok|]. intros u st1 Hok1 Hle1 [Hu Hv]. advance Hle1.
    eapply ptriple_mono; [by apply subsumed_at_ok|]. intros [] st2 Hok2 Hle2 Hs. advance Hle2.
    intros b Hb. now_at b Hb. eapply wv_annot; [by rewrite Hiter|done..].
Qed.

Lemma walk_def_ok st ctxt d :
  state_ok st → env_in (st_dims st) ctxt →
  ptriple st (walk_def type_eq n walk check ctxt d)
    (λ _ st', later st' (λ b, wt_annot_walk type_eq resolve b ctxt (annot_seq (def_annot d)) (def_value d))).
Proof. intros. by apply walk_with_annot_ok. Qed.

Lemma check_def_ok st ctxt d t :
  state_ok st → env_in (st_dims st) ctxt → ty_in (st_dims st) t →
  ptriple st (check_def type_eq n walk check infer ctxt t d)
    (λ _ st', later st' (λ b, wt_view type_eq resolve b ctxt (annot_seq (def_annot d)) (def_value d) t)).
Proof.
  intros Hok Henv Ht. unfold check_def.
  eapply ptriple_bind; [by apply ptriple_reading with (Q := λ _ st', st' = st)|].
  intros _ ? _ _ ->. by apply check_view_ok.
Qed.

End step.
End sound.

(** * The typechecker implements its rules: records

    The walk and the check of records, given that the recursive calls implement
    their rules. *)

(** Induction on resolved fields, through the records in them. *)
Section induction.
Context (P : ResolvedField → Prop).
Context (Hstep : ∀ stat dyn defs,
  List.Forall (λ p : Values.Ident * ResolvedField, P p.2) stat →
  List.Forall (λ p : Ast * ResolvedField, P p.2) dyn →
  P (mkResolvedField (mkShallow stat dyn) defs)).

Fixpoint resolved_ind' (f : ResolvedField) : P f :=
  match f with
  | mkResolvedField (mkShallow stat dyn) defs =>
      Hstep stat dyn defs
        ((fix go l : List.Forall (λ p : Values.Ident * ResolvedField, P p.2) l :=
            match l with
            | [] => List.Forall_nil _
            | (id, f) :: l => List.Forall_cons _ (id, f) _ (resolved_ind' f) (go l)
            end) stat)
        ((fix go l : List.Forall (λ p : Ast * ResolvedField, P p.2) l :=
            match l with
            | [] => List.Forall_nil _
            | (e, f) :: l => List.Forall_cons _ (e, f) _ (resolved_ind' f) (go l)
            end) dyn)
  end.
End induction.

Section sound.
Context `{IndexMapOps Values.Ident}.
Context {ImportError : Type}.
Context (type_eq : Ctr → Ctr → bool).
Context (resolve : Import → Prelude.result (option Ast) ImportError).
Implicit Types (st : State) (ctxt : Context).

Abbreviation M := (comp (Ctr := Ctr) (TypecheckError ImportError)).
Abbreviation later := (TcFacts.later type_eq).
Abbreviation ptriple := (SubtypingTheorems.ptriple type_eq).
Abbreviation wt_walk := (TcRules.wt_walk type_eq resolve).
Abbreviation wt_check := (TcRules.wt_check type_eq resolve).
Abbreviation wt_type := (TcRules.wt_type type_eq resolve).

Context (n : nat).
Context (walk : Context → Ast → M unit).
Context (check : Context → Ast → Ty → M unit).
Context (infer : Context → Ast → M Ty).
Context (Hwalk : walk_ok type_eq resolve walk) (Hcheck : check_ok type_eq resolve check).
Context (Hinfer : infer_ok type_eq resolve infer).

(** ** Contexts *)

Definition renv_in (D : dims) (r : RecordContext) : Prop :=
  env_in D (outer r) ∧ env_in D (inner r) ∧ term_env (inner r) = term_env (outer r).

Lemma renv_in_le st st' r :
  state_le type_eq st st' → renv_in (st_dims st) r → renv_in (st_dims st') r.
Proof. intros Hle (? & ? & ?). split; [by eapply env_in_le|]. split; [by eapply env_in_le|done]. Qed.

Lemma renv_in_bind D id t r : renv_in D r → ty_in D t → renv_in D (bind_inner id t r).
Proof. intros (? & ? & ?) Ht. split; [done|]. split; [by apply env_in_bind|done]. Qed.

Lemma walk_ctxt_in D ctxt stat : env_in D ctxt → renv_in D (walk_ctxt resolve ctxt stat).
Proof.
  intros Henv. split; [done|]. cbn.
  assert (∀ c, env_in D c → term_env c = term_env ctxt →
    let c' := foldl (λ inner (p : Values.Ident * ResolvedField),
      bind_type (label p.1) (from_apparent_type
        (field_apparent_type (Some (type_env ctxt)) (Some resolve) p.2) (term_env ctxt)) inner) c stat in
    env_in D c' ∧ term_env c' = term_env ctxt) as Hgen; [|by apply Hgen].
  induction stat as [|p stat IH]; intros c Hc Ht; [done|]. cbn. apply IH; [|done].
  apply env_in_bind; [done|]. by apply from_apparent_in, field_apparent_in.
Qed.

(** ** Records that are not typed *)

Lemma walk_split_ok st walk_field rctxt stat dyn :
  List.Forall (λ p : Values.Ident * ResolvedField, ∀ st, state_ok st → env_in (st_dims st) (inner rctxt) →
    ptriple st (walk_field (inner rctxt) p.2)
      (λ _ st', later st' (λ b, wt_walk_field type_eq resolve b (inner rctxt) p.2))) stat →
  List.Forall (λ p : Ast * ResolvedField, ∀ st, state_ok st → env_in (st_dims st) (inner rctxt) →
    ptriple st (walk_field (inner rctxt) p.2)
      (λ _ st', later st' (λ b, wt_walk_field type_eq resolve b (inner rctxt) p.2))) dyn →
  state_ok st → renv_in (st_dims st) rctxt →
  ptriple st (walk_split walk walk_field rctxt stat dyn)
    (λ _ st', later st' (λ b,
       (∀ e f, (e, f) ∈ dyn → wt_walk b (outer rctxt) e ∧ wt_walk_field type_eq resolve b (inner rctxt) f) ∧
       (∀ id f, (id, f) ∈ stat → wt_walk_field type_eq resolve b (inner rctxt) f))).
Proof.
  intros Hstat Hdyn Hok (Hout & Hin & _). rewrite List.Forall_forall in Hstat, Hdyn. unfold walk_split.
  eapply ptriple_bind with (Q1 := λ _ st', later st' (λ b, ∀ p, p ∈ dyn →
    wt_walk b (outer rctxt) p.1 ∧ wt_walk_field type_eq resolve b (inner rctxt) p.2)).
  { apply ptriple_for_each; [done|]. intros p st1 Hp Hok1 Hle1. advance Hle1.
    eapply ptriple_bind; [by apply Hwalk|]. intros [] st2 Hok2 Hle2 Hw. advance Hle2.
    eapply ptriple_mono; [apply Hdyn; [by apply list_elem_of_In|done..]|].
    intros [] st3 Hok3 Hle3 Hf. advance Hle3. intros b Hb. now_at b Hb. by split. }
  intros [] st1 Hok1 Hle1 Hd. advance Hle1. eapply ptriple_mono.
  - apply ptriple_for_each with (P := λ b p, wt_walk_field type_eq resolve b (inner rctxt) p.2); [done|].
    intros p st2 Hp Hok2 Hle2. advance Hle2. apply Hstat; [by apply list_elem_of_In|done..].
  - intros [] st2 Hok2 Hle2 Hs. advance Hle2. intros b Hb. now_at b Hb. split.
    + intros e f He. exact (Hd (e, f) He).
    + intros id f Hf. exact (Hs (id, f) Hf).
Qed.

Lemma walk_field_ok f : ∀ st ctxt, state_ok st → env_in (st_dims st) ctxt →
  ptriple st (walk_field type_eq resolve n walk check ctxt f)
    (λ _ st', later st' (λ b, wt_walk_field type_eq resolve b ctxt f)).
Proof.
  induction f as [stat dyn defs Hstat Hdyn] using resolved_ind'. intros st ctxt Hok Henv.
  cbn [walk_field]. cbv zeta.
  assert (∀ st1, state_ok st1 → env_in (st_dims st1) ctxt →
    ptriple st1 (walk_split walk (walk_field type_eq resolve n walk check)
      (walk_ctxt resolve ctxt stat) stat dyn)
      (λ _ st', later st' (λ b, wt_walk_shallow type_eq resolve b ctxt stat dyn))) as Hshallow.
  { intros st1 Hok1 Henv1. eapply ptriple_mono.
    - apply walk_split_ok; [| |done|by apply walk_ctxt_in].
      + eapply List.Forall_impl; [|exact Hstat]. intros p Hp st2 ? ?. by apply Hp.
      + eapply List.Forall_impl; [|exact Hdyn]. intros p Hp st2 ? ?. by apply Hp.
    - intros [] st2 _ _ Hs b Hb. now_at b Hb. destruct Hs. by constructor. }
  assert (ptriple st
    (_ ← for_each (walk_def type_eq n walk check ctxt) defs;
     walk_split walk (walk_field type_eq resolve n walk check) (walk_ctxt resolve ctxt stat) stat dyn)
    (λ _ st', later st' (λ b, wt_walk_shallow type_eq resolve b ctxt stat dyn ∧
       ∀ d, d ∈ defs → wt_annot_walk type_eq resolve b ctxt (annot_seq (def_annot d)) (def_value d))))
    as Hdefs.
  { eapply ptriple_bind with (Q1 := λ _ st', later st' (λ b, ∀ d, d ∈ defs →
      wt_annot_walk type_eq resolve b ctxt (annot_seq (def_annot d)) (def_value d))).
    { apply ptriple_for_each; [done|]. intros d st1 _ Hok1 Hle1. advance Hle1. by apply walk_def_ok. }
    intros [] st1 Hok1 Hle1 Hd. advance Hle1. eapply ptriple_mono; [by apply Hshallow|].
    intros [] st2 _ Hle2 Hs. advance Hle2. intros b Hb. now_at b Hb. by split. }
  destruct (shallow_is_empty (mkShallow stat dyn)) eqn:Hempty, defs as [|d ds]; [done| | |].
  - destruct (at_most_one_value (d :: ds)) eqn:Hone.
    + eapply ptriple_bind; [by apply ptriple_reading with (Q := λ _ st', st' = st)|].
      intros _ ? _ _ ->. eapply ptriple_mono; [by apply walk_with_annot_ok|].
      intros [] st1 _ _ Hw b Hb. now_at b Hb. destruct stat, dyn; try discriminate Hempty.
      by apply wwf_one; rewrite ?Hone.
    + eapply ptriple_mono; [exact Hdefs|]. intros [] st1 _ _ Hw b Hb. now_at b Hb. destruct Hw.
      by apply wwf_many.
  - eapply ptriple_mono; [by apply Hshallow|]. intros [] st1 _ _ Hw b Hb. now_at b Hb. by constructor.
  - eapply ptriple_mono; [exact Hdefs|]. intros [] st1 _ _ Hw b Hb. now_at b Hb. destruct Hw.
    by apply wwf_many.
Qed.

Lemma incl_apparent ctxt incl :
  incl_apparent_type (ImportError := ImportError) (Some (type_env ctxt)) None incl
  = match annot_first (incl_annotation incl) with
    | Some ty => Annotated ty | None => apparent_default end.
Proof. done. Qed.

Lemma include_type_ok st rctxt incl :
  state_ok st → renv_in (st_dims st) rctxt →
  ptriple st
    (match incl_apparent_type (ImportError := ImportError) (Some (type_env (outer rctxt))) None incl with
     | Annotated ty => ok (from_type (term_env (outer rctxt)) ty)
     | _ => get_type (ImportError := ImportError) (outer rctxt) (incl_ident incl)
     end)
    (λ t st', ty_in (st_dims st') t ∧
       later st' (λ b, include_type type_eq resolve b rctxt incl t)).
Proof.
  intros Hok (Hout & Hin & Hterm). rewrite incl_apparent. destruct (annot_first _) as [ty|] eqn:Hty.
  - apply ptriple_ok; [done|]. split; [apply from_type_in|]. intros b _. by constructor.
  - cbn. eapply ptriple_mono; [by apply get_type_ok|]. intros t st1 _ _ (-> & Ht & Hx).
    split; [done|]. intros b _. by constructor.
Qed.

Lemma annots_walk_ok b ctxt annots :
  wt_annot_walk type_eq resolve b ctxt annots None →
  ∀ t, t ∈ seq_iter annots → wt_type b ctxt t.
Proof. by inversion 1. Qed.

Lemma walk_include_ok st rctxt incl :
  state_ok st → renv_in (st_dims st) rctxt →
  ptriple st (walk_include type_eq n walk check rctxt incl)
    (λ _ st', later st' (λ b, wt_include type_eq resolve b rctxt incl)).
Proof.
  intros Hok (Hout & Hin & Hterm). unfold walk_include. eapply ptriple_bind; [by apply walk_with_annot_ok|].
  intros [] st1 Hok1 Hle1 Hann. advance Hle1. destruct (ast_annot_typ _) as [ty|] eqn:Hty.
  - eapply ptriple_bind; [by apply get_type_ok|]. intros t ? _ _ (-> & Ht & Hx).
    eapply ptriple_mono; [apply subsumed_at_ok; [done..|apply from_type_in]|].
    intros [] st2 Hok2 Hle2 Hs. advance Hle2. intros b Hb. now_at b Hb. constructor.
    + exact (annots_walk_ok _ _ _ Hann).
    + intros ty' [= <-]%(eq_trans (eq_sym Hty)). by exists t.
  - apply ptriple_ok; [done|]. intros b Hb. now_at b Hb. constructor.
    + exact (annots_walk_ok _ _ _ Hann).
    + intros ty'. congruence.
Qed.

Lemma walk_includes_ok st rctxt incls :
  state_ok st → renv_in (st_dims st) rctxt →
  ptriple st
    (fold_each (λ (ctxt : RecordContext) (incl : Include),
       ty ← (match incl_apparent_type (ImportError := ImportError)
                  (Some (type_env (outer ctxt))) None incl with
             | Annotated ty => ok (from_type (term_env (outer ctxt)) ty)
             | _ => get_type (ImportError := ImportError) (outer ctxt) (incl_ident incl)
             end);
       let ctxt := bind_inner (label (incl_ident incl)) ty ctxt in
       _ ← walk_include type_eq n walk check ctxt incl;
       ok ctxt) rctxt incls)
    (λ rctxt' st', renv_in (st_dims st') rctxt' ∧ outer rctxt' = outer rctxt ∧
       later st' (λ b, walk_includes type_eq resolve b rctxt incls rctxt')).
Proof.
  revert st rctxt. induction incls as [|incl incls IH]; intros st rctxt Hok Henv.
  - apply ptriple_ok; [done|]. split; [done|]. split; [done|]. intros b _. constructor.
  - cbn [fold_each].
    eapply ptriple_bind with (Q1 := λ r1 st1, renv_in (st_dims st1) r1 ∧
      ∃ t, r1 = bind_inner (label (incl_ident incl)) t rctxt ∧
        later st1 (λ b, include_type type_eq resolve b rctxt incl t ∧
          wt_include type_eq resolve b r1 incl)).
    { eapply ptriple_bind; [by apply include_type_ok|]. intros t st1 Hok1 Hle1 [Ht Hty].
      apply (renv_in_le _ _ _ Hle1) in Henv. eapply ptriple_bind.
      { apply walk_include_ok; [done|]. by apply renv_in_bind. }
      intros [] st2 Hok2 Hle2 Hincl. advance Hle2. apply (renv_in_le _ _ _ Hle2) in Henv.
      apply ptriple_ok; [done|]. split; [by apply renv_in_bind|]. exists t. split; [done|].
      intros b Hb. now_at b Hb. by split. }
    intros r1 st1 Hok1 Hle1 (Henv1 & t & -> & Hincl). eapply ptriple_mono; [by apply IH|].
    intros r2 st2 Hok2 Hle2 (Henv2 & Hout & Hincls). advance Hle2. split; [done|]. split; [done|].
    intros b Hb. now_at b Hb. destruct Hincl. by econstructor.
Qed.

Lemma walk_record_ok st ctxt r :
  state_ok st → env_in (st_dims st) ctxt →
  ptriple st (walk_record type_eq resolve n walk check ctxt r)
    (λ _ st', later st' (λ b, wt_walk_record type_eq resolve b ctxt r)).
Proof.
  intros Hok Henv. unfold walk_record. destruct (content r) as [stat dyn] eqn:Hr.
  eapply ptriple_bind; [apply walk_includes_ok; [done|by apply walk_ctxt_in]|].
  intros rctxt st1 Hok1 Hle1 (Henv1 & Hout & Hincls). cbn in Hout.
  eapply ptriple_mono.
  { apply walk_split_ok; [..|done|done]; apply List.Forall_forall; intros p _ st2 ? ?; by apply walk_field_ok. }
  intros [] st2 Hok2 Hle2 Hs. advance Hle2. intros b Hb. now_at b Hb. destruct Hs as [Hd Hst].
  rewrite Hout in Hd. econstructor; rewrite Hr; [exact Hincls|exact Hd|exact Hst].
Qed.

(** ** Included fields *)

Lemma subsumed_instantiated_ok st ctxt t1 t2 :
  state_ok st → env_in (st_dims st) ctxt → ty_in (st_dims st) t1 → ty_in (st_dims st) t2 →
  ptriple st (subsumed_by_instantiated (ImportError := ImportError) type_eq n ctxt t1 t2)
    (λ _ st', later st' (λ b, ∃ t', const_instance type_eq b (st_dims st) t2 t' ∧
       ty_sub type_eq b t1 t')).
Proof.
  intros Hok Henv H1 H2. unfold subsumed_by_instantiated.
  eapply ptriple_bind; [by apply instantiate_const_ok|].
  intros [t' ctxt'] st1 Hok1 Hle1 (Ht' & (l & ->) & Hinst). advance Hle1.
  eapply ptriple_mono; [by apply subsumed_at_ok|]. intros [] st2 Hok2 Hle2 Hs. advance Hle2.
  intros b Hb. now_at b Hb. by exists t'.
Qed.

Lemma include_agrees_ok st rctxt incl u :
  state_ok st → renv_in (st_dims st) rctxt → ty_in (st_dims st) u →
  ∀ ty, annot_first (incl_annotation incl) = Some ty →
  ptriple st
    (match ast_annot_typ (incl_annotation incl) with
     | Some _ => subsumed_by_instantiated (ImportError := ImportError) type_eq n (outer rctxt) u
                   (from_type (term_env (outer rctxt)) ty)
     | None => ok ()
     end)
    (λ _ st', later st' (λ b, include_agrees type_eq resolve b rctxt incl u)).
Proof.
  intros Hok (Hout & Hin & Hterm) Hu ty Hty. destruct (ast_annot_typ (incl_annotation incl)) as [ty'|] eqn:Htyp.
  - assert (ty' = ty) as ->.
    { unfold annot_first in Hty. rewrite Htyp in Hty. by simplify_eq/=. }
    eapply ptriple_mono; [apply subsumed_instantiated_ok; [done..|apply from_type_in]|].
    intros [] st1 _ _ Hs b Hb. now_at b Hb. destruct Hs as (t' & ? & ?).
    constructor. intros ty' [= <-]%(eq_trans (eq_sym Htyp)). by exists (st_dims st), t'.
  - apply ptriple_ok; [done|]. intros b _. constructor. intros ty'. congruence.
Qed.

Lemma no_annot_agrees b rctxt incl u :
  annot_first (incl_annotation incl) = None → include_agrees type_eq resolve b rctxt incl u.
Proof.
  intros Hnone. constructor. intros ty Hty. unfold annot_first in Hnone. by rewrite Hty in Hnone.
Qed.

Lemma head_annot_iter annot : head (annot_iter annot) = annot_first annot.
Proof. unfold annot_iter, annot_first. by destruct (ast_annot_typ annot). Qed.

Lemma check_include_ok st rctxt t incl :
  state_ok st → renv_in (st_dims st) rctxt → ty_in (st_dims st) t →
  ptriple st (check_include type_eq n walk rctxt t incl)
    (λ _ st', later st' (λ b, wt_check_include type_eq resolve b rctxt t incl)).
Proof.
  intros Hok Hr Ht. pose proof Hr as (Hout & Hin & Hterm). unfold check_include.
  eapply ptriple_bind; [by apply get_type_ok|]. intros u ? _ _ (-> & Hu & Hx).
  eapply ptriple_bind; [by apply walk_types_ok|]. intros [] st1 Hok1 Hle1 Hty.
  advance Hle1. apply (renv_in_le _ _ _ Hle1) in Hr.
  rewrite head_annot_iter. destruct (annot_first _) as [ty|] eqn:Hann.
  - cbv zeta. rewrite Hterm. eapply ptriple_bind; [by apply include_agrees_ok|].
    intros [] st2 Hok2 Hle2 Hagree. advance Hle2.
    eapply ptriple_mono; [apply subsumed_at_ok; [done|apply from_type_in|done]|].
    intros [] st3 Hok3 Hle3 Hs. advance Hle3. intros b Hb. now_at b Hb. econstructor; [done..|].
    by rewrite Hann, Hterm.
  - eapply ptriple_mono; [by apply subsumed_at_ok|]. intros [] st2 Hok2 Hle2 Hs. advance Hle2.
    intros b Hb. now_at b Hb. econstructor; [done..|by apply no_annot_agrees|by rewrite Hann].
Qed.

Lemma check_includes_ok st rctxt t incls :
  state_ok st → renv_in (st_dims st) rctxt → ty_in (st_dims st) t →
  ptriple st (for_each (check_include type_eq n walk rctxt t) incls)
    (λ _ st', later st' (λ b, ∀ incl, incl ∈ incls → wt_check_include type_eq resolve b rctxt t incl)).
Proof.
  intros Hok Hr Ht. apply ptriple_for_each; [done|]. intros incl st1 _ Hok1 Hle1. advance Hle1.
  apply check_include_ok; [done| |done]. by eapply renv_in_le.
Qed.

(** ** Records that are typed *)

Definition field_spec (check_field : Context → Ty → ResolvedField → M unit) (f : ResolvedField) : Prop :=
  ∀ st ctxt t, state_ok st → env_in (st_dims st) ctxt → ty_in (st_dims st) t →
  ptriple st (check_field ctxt t f)
    (λ _ st', later st' (λ b, wt_field type_eq resolve b ctxt t f)).

Section fields.
Context (check_field : Context → Ty → ResolvedField → M unit).

Lemma check_fields_ok {A} st (l : list (A * ResolvedField)) ctxt t :
  List.Forall (λ p, field_spec check_field p.2) l →
  state_ok st → env_in (st_dims st) ctxt → ty_in (st_dims st) t →
  ptriple st (for_each (λ p : A * ResolvedField, check_field ctxt t p.2) l)
    (λ _ st', later st' (λ b, ∀ x f, (x, f) ∈ l → wt_field type_eq resolve b ctxt t f)).
Proof.
  intros Hl Hok Henv Ht. rewrite List.Forall_forall in Hl. eapply ptriple_mono.
  - apply ptriple_for_each with (P := λ b p, wt_field type_eq resolve b ctxt t p.2); [done|].
    intros p st1 Hp Hok1 Hle1. advance Hle1. apply Hl; [by apply list_elem_of_In|done..].
  - intros [] st1 _ _ Hall b Hb x f Hf. exact (Hall b Hb (x, f) Hf).
Qed.

Lemma bind_inners_in D ids t r :
  renv_in D r → ty_in D t →
  renv_in D (foldl (λ r (id : Values.Ident), bind_inner (label id) t r) r ids).
Proof.
  revert r. induction ids as [|id ids IH]; intros r Hr Ht; [done|]. cbn. apply IH; [|done].
  by apply renv_in_bind.
Qed.

Lemma from_outer_in D ctxt : env_in D ctxt → renv_in D (from_outer ctxt).
Proof. done. Qed.

Lemma bind_inners_outer t r (ids : list Values.Ident) :
  outer (foldl (λ r (id : Values.Ident), bind_inner (label id) t r) r ids) = outer r.
Proof. revert r. induction ids as [|id ids IH]; intros r; [done|]. cbn. by rewrite IH. Qed.

Lemma check_dyn_ok st ctxt stat dyn incls t :
  List.Forall (λ p, field_spec check_field p.2) stat →
  List.Forall (λ p, field_spec check_field p.2) dyn → dyn ≠ [] →
  state_ok st → env_in (st_dims st) ctxt → ty_in (st_dims st) t →
  ptriple st (check_dyn type_eq n walk check check_field ctxt stat dyn incls t)
    (λ _ st', later st' (λ b, wt_record type_eq resolve b ctxt stat dyn incls t)).
Proof.
  intros Hstat Hdyn Hne Hok Henv Ht. unfold check_dyn. cbv zeta. cbn [outer from_outer].
  eapply ptriple_bind; [by apply ptriple_triple, fresh_uvar_ok|].
  intros te st1 Hok1 Hle1 Hte. advance Hle1.
  eapply ptriple_bind; [by apply unify_at_ok|]. intros [] st2 Hok2 Hle2 Heq. advance Hle2.
  set (rctxt := foldl _ _ _).
  assert (∀ D, env_in D ctxt → ty_in D te → renv_in D rctxt) as Hr by (intros; by apply bind_inners_in).
  assert (outer rctxt = ctxt) as Hout by apply bind_inners_outer. rewrite Hout.
  eapply ptriple_bind with (Q1 := λ _ st', later st' (λ b, ∀ p, p ∈ dyn →
    wt_check b ctxt p.1 str ∧ wt_field type_eq resolve b (inner rctxt) te p.2)).
  { apply ptriple_for_each; [done|]. intros p st3 Hp Hok3 Hle3. advance Hle3.
    eapply ptriple_bind; [by apply Hcheck|]. intros [] st4 Hok4 Hle4 Hc. advance Hle4.
    rewrite List.Forall_forall in Hdyn. eapply ptriple_mono.
    { apply Hdyn; [by apply list_elem_of_In|done|by apply Hr|done]. }
    intros [] st5 Hok5 Hle5 Hf. advance Hle5. intros b Hb. now_at b Hb. by split. }
  intros [] st3 Hok3 Hle3 Hd. advance Hle3.
  eapply ptriple_bind; [apply check_fields_ok; [done|done|by apply Hr|done]|].
  intros [] st4 Hok4 Hle4 Hs. advance Hle4.
  eapply ptriple_mono; [apply check_includes_ok; [done|by apply Hr|done]|].
  intros [] st5 Hok5 Hle5 Hi. advance Hle5. intros b Hb. now_at b Hb.
  eapply wr_eq; [|exact Heq]. apply wr_dyn with (rctxt := rctxt); [done|done| |exact Hs|exact Hi].
  intros e f Hf. exact (Hd (e, f) Hf).
Qed.

(** *** The recursive environment *)

(** The context after the static fields, with the types [envs]. *)
Definition stat_ctxt (rctxt : RecordContext) (stat : list (Values.Ident * ResolvedField))
    (envs : list Ty) : RecordContext :=
  foldl (λ c p, bind_inner (label p.1) p.2 c) rctxt (zip (map fst stat) envs).

Definition bind_stat_field
    : RecordContext * gset Values.Ident → Values.Ident * ResolvedField →
      M (RecordContext * gset Values.Ident) := λ '(rctxt, need) p,
  let uty_apprt := field_apparent_type (Some (type_env (outer rctxt))) (Some resolve) p.2 in
  uty ← apparent_or_infer uty_apprt (outer rctxt) true;
  ok (bind_inner (label p.1) uty rctxt,
      match uty_apprt with Approximated _ => {[ p.1 ]} ∪ need | _ => need end).

Lemma bind_stat_fields_ok st rctxt need stat :
  state_ok st → renv_in (st_dims st) rctxt →
  ptriple st (fold_each bind_stat_field (rctxt, need) stat)
    (λ '(rctxt', need') st', renv_in (st_dims st') rctxt' ∧ outer rctxt' = outer rctxt ∧
       need ⊆ need' ∧
       (∀ id f ty, (id, f) ∈ stat →
          field_apparent_type (Some (type_env (outer rctxt))) (Some resolve) f = Approximated ty →
          id ∈ need') ∧
       ∃ envs, length envs = length stat ∧ rctxt' = stat_ctxt rctxt stat envs ∧
         later st' (λ b, ∀ id f e, ((id, f), e) ∈ zip stat envs →
           apparent_has type_eq b (outer rctxt)
             (field_apparent_type (Some (type_env (outer rctxt))) (Some resolve) f) e)).
Proof.
  revert st rctxt need. induction stat as [|[id f] stat IH]; intros st rctxt need Hok Hr.
  - apply ptriple_ok; [done|]. split; [done|]. split; [done|]. split; [done|].
    split; [by intros ??? ?%elem_of_nil|]. exists []. split; [done|]. split; [done|].
    by intros b _ ??? ?%elem_of_nil.
  - cbn [fold_each]. cbn [bind_stat_field]. cbv zeta.
    set (apt := field_apparent_type _ _ _).
    eapply ptriple_bind with (Q1 := λ '(r1, need1) st1, renv_in (st_dims st1) r1 ∧ need ⊆ need1 ∧
      (∀ ty, apt = Approximated ty → id ∈ need1) ∧
      ∃ e, r1 = bind_inner (label id) e rctxt ∧
        later st1 (λ b, apparent_has type_eq b (outer rctxt) apt e)).
    { eapply ptriple_bind.
      { apply apparent_or_infer_ok; [done|]. apply field_apparent_in, Hr. }
      intros e st1 Hok1 Hle1 [He Hhas]. apply (renv_in_le _ _ _ Hle1) in Hr.
      apply ptriple_ok; [done|]. split; [by apply renv_in_bind|].
      split; [destruct apt; set_solver|]. split; [intros ty Hty; fold apt; rewrite Hty; set_solver|].
      by exists e. }
    intros [r1 need1] st1 Hok1 Hle1 (Hr1 & Hneed1 & Happ & e & -> & Hhas).
    eapply ptriple_mono; [by apply (IH st1 (bind_inner (label id) e rctxt) need1)|].
    intros [r2 need2] st2 Hok2 Hle2 (Hr2 & Hout & Hneed2 & Happ2 & envs & Hlen & -> & Henvs).
    cbn [outer bind_inner] in *. split; [done|]. split; [done|]. split; [set_solver|]. split.
    { intros id' f' ty [[= -> ->]|Hin]%elem_of_cons Hty; [by eapply Hneed2, Happ|by eapply Happ2]. }
    exists (e :: envs). split; [cbn; lia|]. split; [done|]. advance Hle2.
    intros b Hb. now_at b Hb.
    intros id' f' e' [[= -> -> ->]|Hin]%elem_of_cons; [done|]. by eapply Henvs.
Qed.

Lemma bind_includes_ok st rctxt incls :
  state_ok st → renv_in (st_dims st) rctxt →
  ptriple st (fold_each (bind_include (ImportError := ImportError) type_eq n) rctxt incls)
    (λ rctxt' st', renv_in (st_dims st') rctxt' ∧ outer rctxt' = outer rctxt ∧
       later st' (λ b, bind_includes type_eq resolve b rctxt incls rctxt')).
Proof.
  revert st rctxt. induction incls as [|incl incls IH]; intros st rctxt Hok Hr.
  - apply ptriple_ok; [done|]. split; [done|]. split; [done|]. intros b _. constructor.
  - cbn [fold_each].
    eapply ptriple_bind with (Q1 := λ r1 st1, renv_in (st_dims st1) r1 ∧
      ∃ u t, type_env (outer rctxt) !! label (incl_ident incl) = Some u ∧
        r1 = bind_inner (label (incl_ident incl)) t rctxt ∧
        later st1 (λ b, include_agrees type_eq resolve b rctxt incl u ∧
          include_type type_eq resolve b rctxt incl t)).
    { unfold bind_include. eapply ptriple_bind; [apply get_type_ok; [done|apply Hr]|].
      intros u ? _ _ (-> & Hu & Hx). rewrite incl_apparent.
      destruct (annot_first _) as [ty|] eqn:Hann; cbv zeta iota beta; cbn [apparent_default].
      - eapply ptriple_bind with (Q1 := λ t st1, t = from_type (term_env (outer rctxt)) ty ∧
          later st1 (λ b, include_agrees type_eq resolve b rctxt incl u)).
        { eapply ptriple_bind; [by apply include_agrees_ok|]. intros [] st1 Hok1 _ Hag.
          by apply ptriple_ok. }
        intros t st1 Hok1 Hle1 [-> Hag]. apply ptriple_ok; [done|].
        split; [apply renv_in_bind; [by eapply renv_in_le|apply from_type_in]|].
        exists u, (from_type (term_env (outer rctxt)) ty). split; [done|]. split; [done|].
        intros b Hb. now_at b Hb. split; [done|]. by constructor.
      - unfold apparent_default.
        eapply ptriple_bind; [by apply ptriple_ok with (Q := λ t st', t = u ∧ st' = st)|].
        intros ? ? _ _ [-> ->]. apply ptriple_ok; [done|]. split; [by apply renv_in_bind|].
        exists u, u. split; [done|]. split; [done|]. intros b _.
        split; [by apply no_annot_agrees|by constructor]. }
    intros r1 st1 Hok1 Hle1 (Hr1 & u & t & Hx & -> & Hincl). eapply ptriple_mono; [by apply IH|].
    intros r2 st2 Hok2 Hle2 (Hr2 & Hout & Hincls). advance Hle2. split; [done|]. split; [done|].
    intros b Hb. now_at b Hb. destruct Hincl. by econstructor.
Qed.

Lemma fold_each_app {E A B} (f : B → A → comp (Ctr := Ctr) E B) b l1 l2 :
  ∀ st, fold_each f b (l1 ++ l2) st = (b' ← fold_each f b l1; fold_each f b' l2) st.
Proof.
  revert b. induction l1 as [|x l1 IH]; intros b st; [done|].
  change (fold_each f b ((x :: l1) ++ l2) st) with ((b' ← f b x; fold_each f b' (l1 ++ l2)) st).
  change (fold_each f b (x :: l1)) with (b' ← f b x; fold_each f b' l1).
  unfold mbind, comp_mbind, comp_bind. destruct (f b x st) as [[[b'|e] st']| |]; try done.
  cbn. apply IH.
Qed.

Lemma ptriple_ext {E A} st (m m' : comp (Ctr := Ctr) E A) Q :
  m st = m' st → SubtypingTheorems.ptriple (E := E) type_eq st m' Q →
  SubtypingTheorems.ptriple (E := E) type_eq st m Q.
Proof. intros Heq Hm. unfold SubtypingTheorems.ptriple. by rewrite Heq. Qed.

Lemma include_rows_ok st rctxt incls rows :
  state_ok st → renv_in (st_dims st) rctxt → rr_in (st_dims st) rows →
  ptriple st
    (fold_each (λ acc incl,
       ty ← get_type (ImportError := ImportError) (inner rctxt) (incl_ident incl);
       ok (mk_record_row [(label (incl_ident incl), ty)] acc)) rows (rev incls))
    (λ rows' st', rr_in (st_dims st') rows' ∧
       later st' (λ b, include_rows type_eq resolve b rctxt incls rows rows')).
Proof.
  intros Hok Hr Hrows. induction incls as [|incl incls IH].
  - apply ptriple_ok; [done|]. split; [done|]. intros b _. constructor.
  - cbn [rev]. eapply ptriple_ext; [apply fold_each_app|].
    eapply ptriple_bind; [exact IH|]. intros rows1 st1 Hok1 Hle1 [Hrows1 Hinc].
    apply (renv_in_le _ _ _ Hle1) in Hr. cbn [fold_each].
    eapply ptriple_bind with (Q1 := λ r st', rr_in (st_dims st') r ∧
      later st' (λ b, include_rows type_eq resolve b rctxt (incl :: incls) rows r)).
    { eapply ptriple_bind; [apply get_type_ok; [done|apply Hr]|]. intros t ? _ _ (-> & Ht & Hx).
      apply ptriple_ok; [done|]. split; [by split|]. intros b Hb. now_at b Hb. by constructor. }
    intros r st2 Hok2 _ Hr2. by apply ptriple_ok.
Qed.

Lemma mk_record_row_in D rows tail :
  (∀ id t, (id, t) ∈ rows → ty_in D t) → rr_in D tail → rr_in D (mk_record_row rows tail).
Proof.
  intros Hrows Htail. induction rows as [|[id t] rows IH]; [done|]. split.
  - apply (Hrows id t). by left.
  - apply IH. intros id' t' Ht'. apply (Hrows id' t'). by right.
Qed.

Lemma stat_ctxt_outer rctxt stat envs : outer (stat_ctxt rctxt stat envs) = outer rctxt.
Proof.
  unfold stat_ctxt. generalize (zip (map fst stat) envs). intros l. revert rctxt.
  induction l as [|p l IH]; intros r; [done|]. cbn. by rewrite IH.
Qed.

(** The fields against fresh variables, those without an annotation unified with
    their type in the recursive environment first. *)
Lemma check_stat_fields_ok st rctxt (need : gset Values.Ident) stat ts :
  List.Forall (λ p, field_spec check_field p.2) stat →
  state_ok st → renv_in (st_dims st) rctxt → (∀ t, t ∈ ts → ty_in (st_dims st) t) →
  ptriple st
    (for_each2 (λ (p : Values.Ident * ResolvedField) field_type,
       _ ← (if decide (p.1 ∈ need) then
              affected_type ← reading (λ _, unwrap (type_env (inner rctxt) !! label p.1));
              unify_at (ImportError := ImportError) type_eq n (outer rctxt) field_type affected_type
            else ok ());
       check_field (inner rctxt) field_type p.2) stat ts)
    (λ _ st', later st' (λ b, ∀ p t, (p, t) ∈ zip stat ts →
       wt_field type_eq resolve b (inner rctxt) t p.2 ∧
       (p.1 ∈ need → ∃ e, type_env (inner rctxt) !! label p.1 = Some e ∧ ty_eq type_eq b t e))).
Proof.
  intros Hstat Hok Hr Hts. apply ptriple_for_each2; [done|].
  intros p t st1 Hpt Hok1 Hle1. apply (renv_in_le _ _ _ Hle1) in Hr.
  assert (ty_in (st_dims st1) t) as Ht.
  { eapply sle_ty_in; [done|]. apply Hts. by eapply elem_of_zip_r. }
  assert (field_spec check_field p.2) as Hf.
  { rewrite List.Forall_forall in Hstat. apply Hstat, list_elem_of_In. by eapply elem_of_zip_l. }
  eapply ptriple_bind with (Q1 := λ _ st', later st' (λ b, p.1 ∈ need →
    ∃ e, type_env (inner rctxt) !! label p.1 = Some e ∧ ty_eq type_eq b t e)).
  { case_decide as Hin; [|apply ptriple_ok; [done|]; by intros b _ ?].
    eapply ptriple_bind.
    { apply ptriple_reading with (Q := λ e st', st' = st1 ∧
        type_env (inner rctxt) !! label p.1 = Some e); [done|].
      intros e. destruct (type_env (inner rctxt) !! label p.1) eqn:Hx; [|done]. by intros [= ->]. }
    intros e ? _ _ [-> Hx]. eapply ptriple_mono.
    { apply unify_at_ok; [done..|]. destruct Hr as (_ & Hin' & _). by eapply Hin'. }
    intros [] st2 _ _ Heq b Hb _. now_at b Hb. by exists e. }
  intros [] st2 Hok2 Hle2 Hneed. advance Hle2. apply (renv_in_le _ _ _ Hle2) in Hr.
  eapply ptriple_mono; [apply Hf; [done|apply Hr|done]|].
  intros [] st3 Hok3 Hle3 Hw. advance Hle3. intros b Hb. now_at b Hb. by split.
Qed.

Lemma check_stat_dict_ok st ctxt stat incls t root :
  List.Forall (λ p, field_spec check_field p.2) stat →
  state_ok st → env_in (st_dims st) ctxt → ty_in (st_dims st) root →
  later st (λ b, ty_eq type_eq b t root) → ∀ tf f d, root = TConcrete (Dict tf f) d →
  ptriple st
    (_ ← for_each (λ p : Values.Ident * ResolvedField, check_field ctxt tf p.2) stat;
     for_each (check_include type_eq n walk (from_outer ctxt) tf) incls)
    (λ _ st', later st' (λ b, wt_record type_eq resolve b ctxt stat [] incls t)).
Proof.
  intros Hstat Hok Henv Hroot Heq tf f d ->. change (ty_in (st_dims st) tf) in Hroot.
  eapply ptriple_bind; [by apply check_fields_ok|]. intros [] st1 Hok1 Hle1 Hs. advance Hle1.
  eapply ptriple_mono; [by apply check_includes_ok|]. intros [] st2 Hok2 Hle2 Hi. advance Hle2.
  intros b Hb. now_at b Hb. eapply wr_eq; [|exact Heq]. by apply wr_dict.
Qed.

Lemma check_stat_record_ok st ctxt stat incls t :
  List.Forall (λ p, field_spec check_field p.2) stat →
  state_ok st → env_in (st_dims st) ctxt → ty_in (st_dims st) t →
  ptriple st
    ('(rctxt, need) ← bind_stat_fields resolve (from_outer ctxt) stat;
     rctxt ← fold_each (bind_include type_eq n) rctxt incls;
     field_types ← fresh_uvars (length stat) (var_level (outer rctxt));
     rows ← fold_each (λ acc incl,
       ty ← get_type (inner rctxt) (incl_ident incl);
       ok (mk_record_row [(label (incl_ident incl), ty)] acc))
       (mk_record_row (zip (map (label ∘ fst) stat) field_types) no_rrows) (rev incls);
     _ ← unify_at type_eq n (outer rctxt) t (type_concrete (Record rows));
     _ ← for_each2 (λ (p : Values.Ident * ResolvedField) field_type,
           _ ← (if decide (p.1 ∈ need) then
                  affected_type ← reading (λ _, unwrap (type_env (inner rctxt) !! label p.1));
                  unify_at type_eq n (outer rctxt) field_type affected_type
                else ok ());
           check_field (inner rctxt) field_type p.2) stat field_types;
     for_each (walk_type walk (inner rctxt)) (concat (map (λ i, annot_iter (incl_annotation i)) incls)))
    (λ _ st', later st' (λ b, wt_record type_eq resolve b ctxt stat [] incls t)).
Proof.
  intros Hstat Hok Henv Ht.
  eapply ptriple_bind; [by apply (bind_stat_fields_ok st (from_outer ctxt) ∅ stat)|].
  intros [r0 need] st1 Hok1 Hle1 (Hr0 & Hout0 & _ & Hneed & envs & Hlen & -> & Henvs). advance Hle1.
  cbn [outer from_outer] in *.
  eapply ptriple_bind; [by apply bind_includes_ok|].
  intros rctxt st2 Hok2 Hle2 (Hr & Hout & Hincls). advance Hle2.
  eapply ptriple_bind; [by apply ptriple_triple, fresh_uvars_ok|].
  intros ts st3 Hok3 Hle3 [Hlents Hts]. advance Hle3. apply (renv_in_le _ _ _ Hle3) in Hr.
  eapply ptriple_bind.
  { apply include_rows_ok; [done|done|]. apply mk_record_row_in; [|done].
    intros id u Hu. apply Hts. by eapply elem_of_zip_r. }
  intros rows st4 Hok4 Hle4 [Hrows Hinc]. advance Hle4. apply (renv_in_le _ _ _ Hle4) in Hr.
  eapply ptriple_bind; [by apply unify_at_ok|].
  intros [] st5 Hok5 Hle5 Heq. advance Hle5. apply (renv_in_le _ _ _ Hle5) in Hr.
  eapply ptriple_bind.
  { apply check_stat_fields_ok; [done|done|done|]. intros u Hu. eapply sle_ty_in; [exact Hle5|].
    eapply sle_ty_in; [exact Hle4|]. by apply Hts. }
  intros [] st6 Hok6 Hle6 Hfields. advance Hle6. apply (renv_in_le _ _ _ Hle6) in Hr.
  eapply ptriple_mono; [apply walk_types_ok; [done|done|apply Hr]|].
  intros [] st7 Hok7 Hle7 Htypes. advance Hle7. intros b Hb. now_at b Hb.
  eapply wr_eq; [|exact Heq].
  apply wr_stat with (envs := envs) (rctxt0 := stat_ctxt (from_outer ctxt) stat envs)
    (rctxt := rctxt) (ts := ts); try done.
  - intros id fld u Hin. destruct (Hfields _ _ Hin) as [Hf Hu]. split; [exact Hf|].
    intros ty Hty. apply Hu. eapply Hneed; [by eapply elem_of_zip_l|done].
  - intros incl ty Hincl Hty. apply Htypes. rewrite list_elem_of_In, in_concat.
    exists (annot_iter (incl_annotation incl)). split; [|by apply list_elem_of_In].
    apply in_map_iff. exists incl. split; [done|by apply list_elem_of_In].
Qed.

Lemma check_shallow_ok st ctxt stat dyn incls t :
  List.Forall (λ p, field_spec check_field p.2) stat →
  List.Forall (λ p, field_spec check_field p.2) dyn →
  state_ok st → env_in (st_dims st) ctxt → ty_in (st_dims st) t →
  ptriple st (check_shallow type_eq resolve n walk check check_field ctxt stat dyn incls t)
    (λ _ st', later st' (λ b, wt_record type_eq resolve b ctxt stat dyn incls t)).
Proof.
  intros Hstat Hdyn Hok Henv Ht. unfold check_shallow.
  destruct dyn as [|p dyn]; [|by apply check_dyn_ok]. unfold check_stat.
  eapply ptriple_bind; [by apply root_type_ok|]. intros root ? _ _ (-> & Hroot & Heq).
  destruct root as [[]| |]; try (by apply check_stat_record_ok).
  by eapply check_stat_dict_ok.
Qed.

End fields.

Lemma check_field_ok f : field_spec (check_field type_eq resolve n walk check infer) f.
Proof.
  induction f as [stat dyn defs Hstat Hdyn] using resolved_ind'. intros st ctxt t Hok Henv Ht.
  cbn [check_field].
  assert (∀ st1 t1 , state_ok st1 → env_in (st_dims st1) ctxt → ty_in (st_dims st1) t1 →
    ptriple st1 (check_shallow type_eq resolve n walk check
      (check_field type_eq resolve n walk check infer) ctxt stat dyn [] t1)
      (λ _ st', later st' (λ b, wt_record type_eq resolve b ctxt stat dyn [] t1))) as Hshallow.
  { intros st1 t1 Hok1 Henv1 Ht1. by apply check_shallow_ok. }
  assert (ptriple st (for_each (check_def type_eq n walk check infer ctxt dynamic) defs)
    (λ _ st', later st' (λ b, ∀ d, d ∈ defs →
      wt_view type_eq resolve b ctxt (annot_seq (def_annot d)) (def_value d) dynamic))) as Hdefs.
  { apply ptriple_for_each; [done|]. intros d st1 _ Hok1 Hle1. advance Hle1. by apply check_def_ok. }
  destruct (shallow_is_empty (mkShallow stat dyn)) eqn:Hempty, defs as [|d ds]; [done| | |].
  - destruct (at_most_one_value (d :: ds)) eqn:Hone.
    + eapply ptriple_bind; [by apply ptriple_reading with (Q := λ _ st', st' = st)|].
      intros _ ? _ _ ->. eapply ptriple_mono; [by apply check_view_ok|].
      intros [] st1 _ _ Hw b Hb. now_at b Hb. destruct stat, dyn; try discriminate Hempty.
      by apply wf_one; rewrite ?Hone.
    + eapply ptriple_mono; [exact Hdefs|]. intros [] st1 _ _ Hw b Hb. now_at b Hb.
      apply wf_many; [done|exact Hw|]. by rewrite Hempty.
  - eapply ptriple_mono; [by apply Hshallow|]. intros [] st1 _ _ Hw b Hb. now_at b Hb. by constructor.
  - eapply ptriple_bind; [exact Hdefs|]. intros [] st1 Hok1 Hle1 Hw. advance Hle1.
    eapply ptriple_mono; [by apply Hshallow|]. intros [] st2 Hok2 Hle2 Hs. advance Hle2.
    intros b Hb. now_at b Hb. by apply wf_many.
Qed.

Lemma check_record_ok st ctxt r t :
  state_ok st → env_in (st_dims st) ctxt → ty_in (st_dims st) t →
  ptriple st (check_record type_eq resolve n walk check infer ctxt r t)
    (λ _ st', later st' (λ b, wt_record type_eq resolve b ctxt (stat_fields (content r))
       (dyn_fields (content r)) (includes r) t)).
Proof.
  intros Hok Henv Ht. unfold check_record. destruct (content r) as [stat dyn].
  apply check_shallow_ok; [..|done|done|done]; apply List.Forall_forall; intros p _; apply check_field_ok.
Qed.

End sound.
