(* ===== verification/TcSoundTerm.v ===== *)
(** * The typechecker implements its rules: terms

    The walk, the check and the inference of every node, given that the recursive
    calls implement their rules, and their composition by induction on the fuel. *)
From stdpp Require Import strings.
From S2P Require Import Prelude IndexMap Values Records Make Ast AstInd Pattern UnifTypes UnifTable SlotFacts Unify UnifRel UnifTableFacts UnifySound UnifyClosed UnifyTheorems Subtyping SubtypingTheorems TcTypes TcPattern TcOperation TcRecord Typecheck TcRules TcFacts TcPatternFacts TcSoundRecord.

Section sound.
Context `{IndexMapOps Values.Ident}.
Context {ImportError : Type}.
Context (type_eq : Ctr → Ctr → bool).
Context (resolve : Import → Prelude.result (option Ast) ImportError).
Implicit Types (st : State) (ctxt : Context).

Abbreviation M := (comp (Ctr := Ctr) (TypecheckError ImportError)).
Abbreviation later := (TcFacts.later type_eq).
Abbreviation ptriple := (SubtypingTheorems.ptriple type_eq).
Abbreviation wt_walk := (TcRules.wt_walk type_eq resolve).
Abbreviation wt_check := (TcRules.wt_check type_eq resolve).
Abbreviation wt_infer := (TcRules.wt_infer type_eq resolve).

Section step.
Context (n : nat).
Context (walk : Context → Ast → M unit).
Context (check : Context → Ast → Ty → M unit).
Context (infer : Context → Ast → M Ty).
Context (Hwalk : walk_ok type_eq resolve walk) (Hcheck : check_ok type_eq resolve check).
Context (Hinfer : infer_ok type_eq resolve infer).

(** ** [walk] *)

Lemma apparent_let_in D ctxt lb :
  env_in D ctxt →
  apparent_in D (let_apparent_type (Some (type_env ctxt)) (Some resolve) lb).
Proof. intros. by apply annot_apparent_in. Qed.

Lemma walk_let_binding_ok st ctxt0 ctxt lb :
  state_ok st → env_in (st_dims st) ctxt0 → env_in (st_dims st) ctxt →
  ptriple st (walk_let_binding type_eq resolve n ctxt0 ctxt lb)
    (λ ctxt' st', env_in (st_dims st') ctxt' ∧ ∃ t bs tails wilds,
       let t_let := from_apparent_type
         (let_apparent_type (Some (type_env ctxt0)) (Some resolve) lb) (term_env ctxt0) in
       ctxt' = register_option ctxt0 (let_value lb) (try_as_any (let_pattern lb)) t_let
         (register_option ctxt0 (let_value lb) (pat_alias (let_pattern lb)) t_let
            (register_bindings ctxt0 (let_value lb) bs ctxt)) ∧
       later st' (λ b, pat_has type_eq b (term_env ctxt0) ModeWalk [] (let_pattern lb) t bs tails wilds)).
Proof.
  intros Hok Henv0 Henv. unfold walk_let_binding, binding_type.
  eapply ptriple_bind; [by apply apparent_walk_ok, apparent_let_in|].
  intros t ? _ _ [-> ->]. eapply ptriple_bind; [by apply pattern_types_ok|].
  intros data st1 Hok1 Hle1 ((Ht & Hbs & Htl) & wilds & _ & Hhas). advance Hle1. cbv zeta.
  apply ptriple_ok; [done|]. split.
  - assert (ty_in (st_dims st1) (from_apparent_type
      (let_apparent_type (Some (type_env ctxt0)) (Some resolve) lb) (term_env ctxt0))).
    { by apply from_apparent_in, apparent_let_in. }
    by repeat apply env_in_register_option; try apply env_in_registers.
  - by eexists _, _, _, _.
Qed.

Lemma walk_lets_ok st ctxt0 ctxt lbs :
  state_ok st → env_in (st_dims st) ctxt0 → env_in (st_dims st) ctxt →
  ptriple st (fold_each (walk_let_binding type_eq resolve n ctxt0) ctxt lbs)
    (λ ctxt' st', env_in (st_dims st') ctxt' ∧
       later st' (λ b, walk_lets type_eq resolve b ctxt0 ctxt lbs ctxt')).
Proof.
  revert st ctxt. induction lbs as [|lb lbs IH]; intros st ctxt Hok Henv0 Henv.
  - apply ptriple_ok; [done|]. split; [done|]. intros b _. constructor.
  - cbn [fold_each]. eapply ptriple_bind; [by apply walk_let_binding_ok|].
    intros ctxt1 st1 Hok1 Hle1 (Henv1 & t & bs & tails & wilds & -> & Hhas). advance Hle1.
    eapply ptriple_mono; [by apply IH|]. intros ctxt2 st2 Hok2 Hle2 [Henv2 Hlets]. advance Hle2.
    split; [done|]. intros b Hb. now_at b Hb. by eapply wl_cons.
Qed.

Lemma rec_binds_in D l ctxt :
  env_in D ctxt → env_in D (bind_types (map (λ id : Values.Ident, (label id, dynamic)) l) ctxt).
Proof.
  intros Henv. apply env_in_binds; [done|]. intros x t Hx.
  apply list_elem_of_fmap in Hx as (id & [= -> ->] & _). done.
Qed.

Lemma walk_let_ok st ctxt lbs body rec :
  state_ok st → env_in (st_dims st) ctxt →
  ptriple st (walk_let type_eq resolve n walk check ctxt lbs body rec)
    (λ _ st', later st' (λ b, wt_walk b ctxt (NLet lbs body rec))).
Proof.
  intros Hok Henv. unfold walk_let. cbv zeta. set (ctxt0 := if rec then _ else ctxt).
  assert (env_in (st_dims st) ctxt0) as Henv0 by (unfold ctxt0; destruct rec; auto using rec_binds_in).
  eapply ptriple_bind; [by apply walk_lets_ok|].
  intros ctxt' st1 Hok1 Hle1 [Henv' Hlets]. advance Hle1.
  eapply ptriple_bind with (Q1 := λ _ st', later st' (λ b, ∀ lb, lb ∈ lbs →
    wt_annot_walk type_eq resolve b (if rec then ctxt' else ctxt0)
      (annot_seq (let_annotation (let_metadata lb))) (Some (let_value lb)))).
  { apply ptriple_for_each; [done|]. intros lb st2 _ Hok2 Hle2. advance Hle2.
    apply walk_with_annot_ok; [done..|by destruct rec]. }
  intros [] st2 Hok2 Hle2 Hvalues. advance Hle2. eapply ptriple_mono; [by apply Hwalk|].
  intros [] st3 Hok3 Hle3 Hbody. advance Hle3. intros b Hb. now_at b Hb. by eapply ww_let.
Qed.

Lemma walk_branch_ok st ctxt p guard body :
  state_ok st → env_in (st_dims st) ctxt →
  ptriple st (walk_branch type_eq n walk ctxt (mkMatchBranch p guard body))
    (λ _ st', later st' (λ b, ∃ ctxt', bind_patterns type_eq resolve b ctxt [p] ctxt' ∧
       (∀ g, guard = Some g → wt_walk b ctxt' g) ∧ wt_walk b ctxt' body)).
Proof.
  intros Hok Henv. cbn [walk_branch]. eapply ptriple_bind; [by apply bind_pattern_walk_ok|].
  intros ctxt' st1 Hok1 Hle1 (Henv' & t & bs & tails & wilds & -> & Hhas).
  eapply ptriple_bind with (Q1 := λ _ st', later st' (λ b, ∀ g, guard = Some g →
    wt_walk b (bind_types (named bs) ctxt) g)).
  { destruct guard as [g|]; [|by apply ptriple_ok]. eapply ptriple_mono; [by apply Hwalk|].
    intros [] st2 _ _ Hg b Hb g' [= <-]. by apply Hg. }
  intros [] st2 Hok2 Hle2 Hguard. advance Hle2. eapply ptriple_mono; [by apply Hwalk|].
  intros [] st3 Hok3 Hle3 Hbody. advance Hle3. intros b Hb. now_at b Hb.
  eexists. split; [|done]. eapply bp_cons; [done|constructor].
Qed.

Lemma walk_all_ok st ctxt l :
  state_ok st → env_in (st_dims st) ctxt →
  ptriple st (for_each (walk ctxt) l) (λ _ st', later st' (λ b, ∀ e, e ∈ l → wt_walk b ctxt e)).
Proof.
  intros Hok Henv. apply ptriple_for_each; [done|]. intros e st1 _ Hok1 Hle1.
  advance Hle1. by apply Hwalk.
Qed.

Lemma resolve_import_ok st i :
  state_ok st →
  ptriple st (resolve_import resolve i) (λ a st', st' = st ∧ resolve i = Prelude.Ok a).
Proof.
  intros Hok. unfold resolve_import. destruct (resolve i); [by apply ptriple_ok|by apply ptriple_err].
Qed.

Lemma resolved_record_ok {E} st r :
  state_ok st →
  SubtypingTheorems.ptriple (E := E) type_eq st (reading (λ _, resolve_record r))
    (λ rr st', st' = st ∧ resolve_record r = Done rr).
Proof. intros Hok. by apply ptriple_reading. Qed.

Lemma walk_ast_ok : walk_ok type_eq resolve (walk_ast type_eq resolve n walk check).
Proof.
  intros st ctxt a Hok Henv.
  destruct a as [|v|v|s|chunks|args body|lbs body rec|head args|x|tag [arg|]|r|c e1 e2|branches|elts
    |op args|annot inner|i|ty|tok]; cbn [walk_ast];
    try (apply ptriple_ok; [exact Hok|]; intros b _; by apply ww_leaf).
  - eapply ptriple_mono.
    { apply ptriple_for_each with (P := λ b c, match c with
        | AChunkExpr e _ => wt_walk b ctxt e | _ => True end); [done|].
      intros [s|e k] st1 _ Hok1 Hle1; advance Hle1; [by apply ptriple_ok|by apply Hwalk]. }
    intros [] st1 _ _ Hall b Hb. now_at b Hb. apply ww_chunks. intros e k He.
    exact (Hall (AChunkExpr e k) He).
  - eapply ptriple_bind; [by apply bind_patterns_ok|]. intros ctxt' st1 Hok1 Hle1 [Henv' Hps].
    advance Hle1. eapply ptriple_mono; [by apply Hwalk|]. intros [] st2 Hok2 Hle2 Hb. advance Hle2.
    intros b Hb'. now_at b Hb'. by eapply ww_fun.
  - by apply walk_let_ok.
  - eapply ptriple_bind; [by apply Hwalk|]. intros [] st1 Hok1 Hle1 Hh. advance Hle1.
    eapply ptriple_mono; [by apply walk_all_ok|]. intros [] st2 Hok2 Hle2 Hargs. advance Hle2.
    intros b Hb. now_at b Hb. by apply ww_app.
  - eapply ptriple_bind; [by apply get_type_ok|]. intros t ? _ _ (-> & _ & Hx).
    apply ptriple_ok; [done|]. intros b _. by eapply ww_var.
  - eapply ptriple_mono; [by apply Hwalk|]. intros [] st1 _ _ Ha b Hb. by apply ww_variant, Ha.
  - eapply ptriple_bind; [by apply resolved_record_ok|]. intros rr ? _ _ [-> Hrr].
    eapply ptriple_mono; [by apply walk_record_ok|]. intros [] st1 _ _ Ha b Hb.
    eapply ww_record; [exact Hrr|by apply Ha].
  - eapply ptriple_bind; [by apply Hwalk|]. intros [] st1 Hok1 Hle1 H1. advance Hle1.
    eapply ptriple_bind; [by apply Hwalk|]. intros [] st2 Hok2 Hle2 H2. advance Hle2.
    eapply ptriple_mono; [by apply Hwalk|]. intros [] st3 Hok3 Hle3 H3. advance Hle3.
    intros b Hb. now_at b Hb. by apply ww_if.
  - eapply ptriple_mono.
    { apply ptriple_for_each with (P := λ b '(mkMatchBranch p guard body),
        ∃ ctxt', bind_patterns type_eq resolve b ctxt [p] ctxt' ∧
          (∀ g, guard = Some g → wt_walk b ctxt' g) ∧ wt_walk b ctxt' body); [done|].
      intros [p guard body] st1 _ Hok1 Hle1. advance Hle1. by apply walk_branch_ok. }
    intros [] st1 _ _ Hall b Hb. now_at b Hb. apply ww_match. intros p guard body Hin.
    exact (Hall _ Hin).
  - eapply ptriple_mono; [by apply walk_all_ok|]. intros [] st1 _ _ Ha b Hb. by apply ww_array, Ha.
  - eapply ptriple_mono; [by apply walk_all_ok|]. intros [] st1 _ _ Ha b Hb. by apply ww_primop, Ha.
  - eapply ptriple_mono; [by apply walk_with_annot_ok|]. intros [] st1 _ _ Ha b Hb.
    by apply ww_annotated, Ha.
  - eapply ptriple_bind; [by apply resolve_import_ok|]. intros a ? _ _ [-> Hi].
    apply ptriple_ok; [done|]. intros b _. by eapply ww_import.
  - eapply ptriple_mono; [by apply walk_type_ok|]. intros [] st1 _ _ Ha b Hb. by apply ww_type, Ha.
Qed.

(** ** [check]: functions, blocks, matches *)

Lemma fun_args_ok st ctxt u args :
  state_ok st → env_in (st_dims st) ctxt → ty_in (st_dims st) u →
  ptriple st (fold_each (check_fun_arg (ImportError := ImportError) type_eq n) (u, ctxt) args)
    (λ '(t, ctxt') st', env_in (st_dims st') ctxt' ∧ ty_in (st_dims st') t ∧
       later st' (λ b, fun_args type_eq resolve b ctxt u args t ctxt')).
Proof.
  revert st ctxt u. induction args as [|[d alias] args IH]; intros st ctxt u Hok Henv Hu.
  - apply ptriple_ok; [done|]. split; [done|]. split; [done|]. intros b _. constructor.
  - cbn [fold_each].
    eapply ptriple_bind with (Q1 := λ '(t1, ctxt1) st1, env_in (st_dims st1) ctxt1 ∧
      ty_in (st_dims st1) t1 ∧ ∃ t bs tails wilds, t1 = arrow t u ∧
        ctxt1 = bind_types (named bs) (bind_types (option_list ((λ a, (label a, t)) <$> alias)) ctxt) ∧
        later st1 (λ b, data_has type_eq b (term_env ctxt) ModeEnforce [] d t bs tails wilds ∧
          ∀ π tail, (π, tail) ∈ tails → closed_rows type_eq b tail)).
    { unfold check_fun_arg. eapply ptriple_bind; [by apply data_types_ok|].
      intros data st1 Hok1 Hle1 ((Ht & Hbs & Htl) & wilds & Hhas). advance Hle1.
      eapply ptriple_bind; [by apply close_all_enums_ok|].
      intros [] st2 Hok2 Hle2 Hclosed. advance Hle2. apply ptriple_ok; [done|]. split.
      { apply env_in_named; [|done]. cbn. destruct alias; [by apply env_in_bind|done]. }
      split; [by split|]. eexists _, _, _, _. split; [done|]. split; [by destruct alias|].
      intros b Hb. now_at b Hb. by split. }
    intros [t1 ctxt1] st1 Hok1 Hle1 (Henv1 & Ht1 & t & bs & tails & wilds & -> & -> & Hhas).
    eapply ptriple_mono; [by apply IH|].
    intros [t2 ctxt2] st2 Hok2 Hle2 (Henv2 & Ht2 & Hargs). advance Hle2. split; [done|]. split; [done|].
    intros b Hb. now_at b Hb. destruct Hhas. by eapply fa_cons.
Qed.

Lemma check_fun_ok st ctxt args body t :
  state_ok st → env_in (st_dims st) ctxt → ty_in (st_dims st) t →
  ptriple st (check_fun type_eq n check ctxt args body t)
    (λ _ st', later st' (λ b, wt_check b ctxt (NFun args body) t)).
Proof.
  intros Hok Henv Ht. unfold check_fun.
  eapply ptriple_bind; [by apply ptriple_triple, fresh_uvar_ok|]. intros u st1 Hok1 Hle1 Hu. advance Hle1.
  eapply ptriple_bind; [by apply fun_args_ok|].
  intros [f ctxt'] st2 Hok2 Hle2 (Henv' & Hf & Hargs). advance Hle2.
  eapply ptriple_bind; [by apply unify_at_ok|]. intros [] st3 Hok3 Hle3 Heq. advance Hle3.
  eapply ptriple_mono; [by apply Hcheck|]. intros [] st4 Hok4 Hle4 Hbody. advance Hle4.
  intros b Hb. now_at b Hb. eapply wc_eq; [|exact Heq]. by eapply wc_fun.
Qed.

Lemma check_all_ok st ctxt l t :
  state_ok st → env_in (st_dims st) ctxt → ty_in (st_dims st) t →
  ptriple st (for_each (λ e, check ctxt e t) l)
    (λ _ st', later st' (λ b, ∀ e, e ∈ l → wt_check b ctxt e t)).
Proof.
  intros Hok Henv Ht. apply ptriple_for_each; [done|]. intros e st1 _ Hok1 Hle1.
  advance Hle1. by apply Hcheck.
Qed.

Lemma check_array_ok st ctxt elts t :
  state_ok st → env_in (st_dims st) ctxt → ty_in (st_dims st) t →
  ptriple st (check_array type_eq n check ctxt elts t)
    (λ _ st', later st' (λ b, wt_check b ctxt (NArray elts) t)).
Proof.
  intros Hok Henv Ht. unfold check_array.
  eapply ptriple_bind; [by apply ptriple_triple, fresh_uvar_ok|]. intros u st1 Hok1 Hle1 Hu. advance Hle1.
  eapply ptriple_bind; [by apply unify_at_ok|]. intros [] st2 Hok2 Hle2 Heq. advance Hle2.
  eapply ptriple_mono; [by apply check_all_ok|]. intros [] st3 Hok3 Hle3 Hall. advance Hle3.
  intros b Hb. now_at b Hb. eapply wc_eq; [|exact Heq]. by apply wc_array.
Qed.

(** A binding of a block that is typed. *)
Lemma check_let_binding_ok st ctxt0 ctxt ts lb :
  state_ok st → env_in (st_dims st) ctxt0 → env_in (st_dims st) ctxt →
  ptriple st (check_let_binding type_eq resolve n ctxt0 (ts, ctxt) lb)
    (λ '(ts', ctxt') st', env_in (st_dims st') ctxt' ∧ ∃ t, ts' = ts ++ [t] ∧
       ty_in (st_dims st') t ∧
       later st' (λ b, ∀ lbs us ctxt2, check_lets type_eq resolve b ctxt0 ctxt' lbs us ctxt2 →
         check_lets type_eq resolve b ctxt0 ctxt (lb :: lbs) (t :: us) ctxt2)).
Proof.
  intros Hok Henv0 Henv. unfold check_let_binding, binding_type.
  eapply ptriple_bind; [by apply apparent_or_infer_ok, apparent_let_in|].
  intros t st1 Hok1 Hle1 [Ht Happ]. advance Hle1.
  eapply ptriple_bind with (Q1 := λ ctxt' st', env_in (st_dims st') ctxt' ∧ ty_in (st_dims st') t ∧
    later st' (λ b, ∀ lbs us ctxt2, check_lets type_eq resolve b ctxt0 ctxt' lbs us ctxt2 →
      check_lets type_eq resolve b ctxt0 ctxt (lb :: lbs) (t :: us) ctxt2)).
  2: { intros ctxt' st2 Hok2 _ (Henv' & Ht' & Hlets). apply ptriple_ok; [done|]. split; [done|].
       by exists t. }
  destruct (try_as_any (let_pattern lb)) as [id|] eqn:Hany.
  - cbv zeta. apply ptriple_ok; [done|].
    split; [by apply env_in_register; [apply env_in_register_option|]|]. split; [done|].
    intros b Hb. now_at b Hb. intros lbs us ctxt2 Hlets. by eapply cl_any.
  - eapply ptriple_bind; [by apply data_types_ok|].
    intros data st2 Hok2 Hle2 ((Hu & Hbs & Htl) & wilds & Hhas). advance Hle2.
    eapply ptriple_bind; [by apply close_all_enums_ok|].
    intros [] st3 Hok3 Hle3 Hclosed. advance Hle3.
    eapply ptriple_bind; [by apply unify_at_ok|]. intros [] st4 Hok4 Hle4 Heq. advance Hle4. cbv zeta.
    apply ptriple_ok; [done|]. split; [by apply env_in_registers; [apply env_in_register_option|]|].
    split; [done|]. intros b Hb. now_at b Hb. intros lbs us ctxt2 Hlets. by eapply cl_pattern.
Qed.

Lemma check_lets_ok st ctxt0 ctxt ts0 lbs :
  state_ok st → env_in (st_dims st) ctxt0 → env_in (st_dims st) ctxt →
  ptriple st (fold_each (check_let_binding type_eq resolve n ctxt0) (ts0, ctxt) lbs)
    (λ '(ts', ctxt') st', env_in (st_dims st') ctxt' ∧ ∃ ts, ts' = ts0 ++ ts ∧
       (∀ t, t ∈ ts → ty_in (st_dims st') t) ∧
       later st' (λ b, check_lets type_eq resolve b ctxt0 ctxt lbs ts ctxt')).
Proof.
  revert st ctxt ts0. induction lbs as [|lb lbs IH]; intros st ctxt ts0 Hok Henv0 Henv.
  - apply ptriple_ok; [done|]. split; [done|]. exists []. split; [by rewrite app_nil_r|].
    split; [by intros t ?%elem_of_nil|]. intros b _. constructor.
  - cbn [fold_each]. eapply ptriple_bind; [by apply check_let_binding_ok|].
    intros [ts1 ctxt1] st1 Hok1 Hle1 (Henv1 & t & -> & Ht & Hcons). advance Hle1.
    eapply ptriple_mono; [by apply IH|].
    intros [ts2 ctxt2] st2 Hok2 Hle2 (Henv2 & ts & -> & Hts & Hlets). advance Hle2.
    split; [done|]. exists (t :: ts). split; [by rewrite <- app_assoc|].
    split; [intros u [->|Hu]%elem_of_cons; [done|by apply Hts]|].
    intros b Hb. now_at b Hb. by apply Hcons.
Qed.

Lemma rec_uvars_ok st ctxt ids :
  state_ok st → env_in (st_dims st) ctxt →
  ptriple st
    (fold_each (λ (ctxt : Context) (id : Values.Ident),
       uty ← fresh_uvar (E := TypecheckError ImportError) (var_level ctxt);
       ok (bind_type (label id) uty ctxt)) ctxt ids)
    (λ ctxt' st', env_in (st_dims st') ctxt' ∧
       ∃ us, map fst us = map label ids ∧ ctxt' = bind_types us ctxt).
Proof.
  revert st ctxt. induction ids as [|id ids IH]; intros st ctxt Hok Henv.
  - apply ptriple_ok; [done|]. split; [done|]. by exists [].
  - cbn [fold_each]. eapply ptriple_bind with (Q1 := λ ctxt1 st1, env_in (st_dims st1) ctxt1 ∧
      ∃ u, ctxt1 = bind_type (label id) u ctxt).
    { eapply ptriple_bind; [by apply ptriple_triple, fresh_uvar_ok|]. intros u st1 Hok1 Hle1 Hu.
      advance Hle1. apply ptriple_ok; [done|]. split; [by apply env_in_bind|]. by exists u. }
    intros ctxt1 st1 Hok1 Hle1 (Henv1 & u & ->). eapply ptriple_mono; [by apply IH|].
    intros ctxt2 st2 _ _ (Henv2 & us & Hus & ->). split; [done|]. exists ((label id, u) :: us).
    split; [by cbn; f_equal|done].
Qed.

Lemma check_let_value_ok st ctxt lb t :
  state_ok st → env_in (st_dims st) ctxt → ty_in (st_dims st) t →
  ptriple st (check_let_value walk check infer ctxt lb t)
    (λ _ st', later st' (λ b, wt_let_value type_eq resolve b ctxt lb t)).
Proof.
  intros Hok Henv Ht. unfold check_let_value. destruct (ast_annot_is_empty _) eqn:Hempty.
  - eapply ptriple_mono; [by apply Hcheck|]. intros [] st1 _ _ Hc b Hb. now_at b Hb.
    by apply wlv_plain; rewrite ?Hempty.
  - eapply ptriple_bind; [by apply infer_with_annot_ok|]. intros u st1 Hok1 _ [Hu Hann].
    apply ptriple_ok; [done|]. intros b Hb. now_at b Hb. by eapply wlv_annot.
Qed.

Lemma check_let_ok st ctxt lbs body rec t :
  state_ok st → env_in (st_dims st) ctxt → ty_in (st_dims st) t →
  ptriple st (check_let type_eq resolve n walk check infer ctxt lbs body rec t)
    (λ _ st', later st' (λ b, wt_check b ctxt (NLet lbs body rec) t)).
Proof.
  intros Hok Henv Ht. unfold check_let.
  eapply ptriple_bind with (Q1 := λ ctxt0 st', env_in (st_dims st') ctxt0 ∧
    if rec then ∃ us, map fst us = map label (rec_names lbs) ∧ ctxt0 = bind_types us ctxt
    else ctxt0 = ctxt).
  { destruct rec; [by apply rec_uvars_ok|by apply ptriple_ok]. }
  intros ctxt0 st1 Hok1 Hle1 [Henv0 Hstart]. advance Hle1.
  eapply ptriple_bind; [by apply (check_lets_ok _ ctxt0 ctxt0 [])|].
  intros [ts ctxt'] st2 Hok2 Hle2 (Henv' & ts' & -> & Hts & Hlets). advance Hle2. cbv zeta.
  cbn [app] in *. rename ts' into ts.
  eapply ptriple_bind with (Q1 := λ _ st', later st' (λ b, ∀ lb u, (lb, u) ∈ zip lbs ts →
    wt_let_value type_eq resolve b (if rec then ctxt' else ctxt0) lb u)).
  { apply ptriple_for_each2; [done|]. intros lb u st3 Hin Hok3 Hle3. advance Hle3.
    apply check_let_value_ok; [done|by destruct rec|].
    eapply sle_ty_in; [done|]. apply Hts. by eapply elem_of_zip_r. }
  intros [] st3 Hok3 Hle3 Hvalues. advance Hle3.
  eapply ptriple_mono; [by apply Hcheck|]. intros [] st4 Hok4 Hle4 Hbody. advance Hle4.
  intros b Hb. now_at b Hb. eapply wc_let; [|exact Hlets|exact Hvalues|exact Hbody]. by destruct rec.
Qed.

(** The types of the patterns of a match. *)
Definition data_of (d : PatternTypeData) (wilds : list PatternPath) :=
  (pat_typ d, pat_bindings (pat_state d), enum_open_tails (pat_state d), wilds).

Lemma match_datas_ok st ctxt ds0 branches :
  state_ok st →
  ptriple st
    (fold_each (λ (datas : list PatternTypeData) br,
       let 'mkMatchBranch pattern _ _ := br in
       data ← pattern_types (ImportError := ImportError) type_eq n ctxt ModeEnforce pattern;
       ok (datas ++ [data])) ds0 branches)
    (λ ds' st', ∃ ds wss, ds' = ds0 ++ ds ∧ length ds = length branches ∧
       length wss = length branches ∧ (∀ d, d ∈ ds → in_data (st_dims st') d) ∧
       Forall2 (λ d ws, ∀ π, π ∈ wildcard_pat_paths (pat_state d) ↔ π ∈ ws) ds wss ∧
       later st' (λ b, ∀ p guard body d ws,
         (mkMatchBranch p guard body, (d, ws)) ∈ zip branches (zip ds wss) →
         pat_has type_eq b (term_env ctxt) ModeEnforce [] p (pat_typ d)
           (pat_bindings (pat_state d)) (enum_open_tails (pat_state d)) ws)).
Proof.
  revert st ds0. induction branches as [|[p guard body] branches IH]; intros st ds0 Hok.
  - apply ptriple_ok; [done|]. exists [], []. split; [by rewrite app_nil_r|]. split; [done|].
    split; [done|]. split; [by intros ? ?%elem_of_nil|]. split; [done|].
    by intros b _ ????? ?%elem_of_nil.
  - cbn [fold_each].
    eapply ptriple_bind with (Q1 := λ ds1 st1, ∃ d ws, ds1 = ds0 ++ [d] ∧ in_data (st_dims st1) d ∧
      (∀ π, π ∈ wildcard_pat_paths (pat_state d) ↔ π ∈ ws) ∧
      later st1 (λ b, pat_has type_eq b (term_env ctxt) ModeEnforce [] p (pat_typ d)
           (pat_bindings (pat_state d)) (enum_open_tails (pat_state d)) ws)).
    { eapply ptriple_bind; [by apply pattern_types_ok|].
      intros d st1 Hok1 _ (Hin & ws & Hws & Hhas). apply ptriple_ok; [done|]. by exists d, ws. }
    intros ds1 st1 Hok1 Hle1 (d & ws & -> & Hin & Hws & Hhas). eapply ptriple_mono; [by apply IH|].
    intros ds2 st2 Hok2 Hle2 (ds & wss & -> & Hlen & Hlenw & Hins & Hwss & Hall). advance Hle2.
    exists (d :: ds), (ws :: wss). split; [by rewrite <- app_assoc|]. split; [cbn; lia|].
    split; [cbn; lia|]. split.
    { intros d' [->|Hd]%elem_of_cons; [|by apply Hins]. destruct Hin as (Ht & Hbs & Htl).
      split; [by eapply sle_ty_in|]. split; [by eapply tbinds_in_mono; [apply Hle2|]|].
      by eapply tails_in_mono; [apply Hle2|]. }
    split; [by constructor|]. intros b Hb. now_at b Hb.
    intros p' guard' body' d' ws' [[= -> -> -> -> ->]|Hd]%elem_of_cons; [done|]. by eapply Hall.
Qed.

Lemma check_branches_ok st ret ctxt branches ds :
  length ds = length branches → (∀ d, d ∈ ds → in_data (st_dims st) d) →
  state_ok st → env_in (st_dims st) ctxt → ty_in (st_dims st) ret →
  ptriple st (fold_each (check_branch check ret) ctxt (zip branches ds))
    (λ ctxt' st', later st' (λ b, wt_branches type_eq resolve b ret ctxt
       (zip branches (map (λ d, pat_bindings (pat_state d)) ds)) ctxt')).
Proof.
  revert st ctxt ds. induction branches as [|[[d alias] guard body] branches IH];
    intros st ctxt [|data ds] Hlen Hds Hok Henv Hret; try done.
  - apply ptriple_ok; [done|]. intros b _. constructor.
  - cbn [zip map fold_each check_branch pat_alias]. cbv zeta.
    set (ctxt1 := bind_types (named _) _).
    assert (ctxt1 = bind_types (named (pat_bindings (pat_state data)))
              (bind_types (option_list ((λ a, (label a, ret)) <$> alias)) ctxt)) as Hctxt1.
    { unfold ctxt1. by destruct alias. }
    assert (env_in (st_dims st) ctxt1) as Henv1.
    { rewrite Hctxt1. destruct (Hds data) as (_ & Hbs & _); [by left|].
      apply env_in_named; [|done]. destruct alias; [by apply env_in_bind|done]. }
    eapply ptriple_bind with (Q1 := λ c st1, c = ctxt1 ∧ env_in (st_dims st1) ctxt1 ∧
      ty_in (st_dims st1) ret ∧ (∀ d, d ∈ ds → in_data (st_dims st1) d) ∧
      later st1 (λ b, (∀ g, guard = Some g → wt_check b ctxt1 g bool_) ∧ wt_check b ctxt1 body ret)).
    { eapply ptriple_bind with (Q1 := λ _ st', later st' (λ b, ∀ g, guard = Some g →
        wt_check b ctxt1 g bool_)).
      { destruct guard as [g|]; [|by apply ptriple_ok]. eapply ptriple_mono; [by apply Hcheck|].
        intros [] st1 _ _ Hg b Hb g' [= <-]. by apply Hg. }
      intros [] st1 Hok1 Hle1 Hg. advance Hle1. eapply ptriple_bind; [by apply Hcheck|].
      intros [] st2 Hok2 Hle2 Hbody. advance Hle2. apply ptriple_ok; [done|]. split; [done|].
      split; [done|]. split; [done|]. split.
      - intros d' Hd'. destruct (Hds d') as (Ht & Hbs & Htl); [by right|].
        assert (dims_le (st_dims st) (st_dims st2)) as HD by (etrans; [apply Hle1|apply Hle2]).
        split; [by eapply ty_in_mono|]. split; [by eapply tbinds_in_mono|by eapply tails_in_mono].
      - intros b Hb. now_at b Hb. by split. }
    intros c st1 Hok1 Hle1 (-> & Henv1' & Hret' & Hds' & Hbr). cbn in Hlen.
    eapply ptriple_mono; [apply IH; auto with lia|]. intros ctxt2 st2 Hok2 Hle2 Hrest. advance Hle2.
    intros b Hb. now_at b Hb. destruct Hbr. by eapply wb_cons.
Qed.

Lemma ptriple_try {E F A} st (m : comp (Ctr := Ctr) E A) Q :
  SubtypingTheorems.ptriple (E := E) type_eq st m Q →
  SubtypingTheorems.ptriple (E := F) type_eq st (try_ m)
    (λ r st', match r with Prelude.Ok a => Q a st' | Err _ => True end).
Proof.
  unfold SubtypingTheorems.ptriple, try_. intros Hm. by destruct (m st) as [[[a|e] st1]| |].
Qed.

Lemma unify_patterns_ok st ctxt t ds tails0 wilds0 :
  state_ok st → ty_in (st_dims st) t → (∀ d, d ∈ ds → in_data (st_dims st) d) →
  tails_in (st_dims st) tails0 →
  ptriple st (unify_patterns (ImportError := ImportError) type_eq n ctxt t ds tails0 wilds0)
    (λ '(res, tails, wilds) st', tails_in (st_dims st') tails ∧
       (res = Prelude.Ok () →
          tails = tails0 ++ concat (map (λ d, enum_open_tails (pat_state d)) ds) ∧
          (∀ π, π ∈ wilds → π ∈ wilds0 ∨ ∃ d, d ∈ ds ∧ π ∈ wildcard_pat_paths (pat_state d)) ∧
          later st' (λ b, ∀ d, d ∈ ds → ty_eq type_eq b t (pat_typ d)))).
Proof.
  revert st tails0 wilds0. induction ds as [|d ds IH]; intros st tails0 wilds0 Hok Ht Hds Htl.
  - apply ptriple_ok; [done|]. split; [done|]. intros _. split; [by rewrite app_nil_r|].
    split; [by left|]. by intros b _ ? ?%elem_of_nil.
  - cbn [unify_patterns]. destruct (Hds d) as (Hd & Hbs & Hdtl); [by left|].
    eapply ptriple_bind; [by apply ptriple_try, unify_at_ok|].
    intros r st1 Hok1 Hle1 Hr. advance Hle1.
    assert (dims_le (st_dims st) (st_dims st1)) as HD by apply Hle1.
    apply (tails_in_mono _ _ _ HD) in Htl. apply (tails_in_mono _ _ _ HD) in Hdtl.
    destruct r as [[]|e]; [|by apply ptriple_ok].
    eapply ptriple_mono.
    { apply IH; [done|done| |auto with tc]. intros d' Hd'.
      destruct (Hds d') as (? & ? & ?); [by right|].
      split; [by eapply ty_in_mono|]. split; [by eapply tbinds_in_mono|by eapply tails_in_mono]. }
    intros [[res tails] wilds] st2 Hok2 Hle2 [Htails Hres]. advance Hle2. split; [done|].
    intros Hr'. destruct (Hres Hr') as (-> & Hw & Hall). split; [by rewrite <- app_assoc|]. split.
    + intros π [Hπ|(d' & ? & ?)]%Hw; [|right; exists d'; split; [by right|done]].
      apply elem_of_union in Hπ as [?|?]; [by left|]. right. exists d. split; [by left|done].
    + intros b Hb. now_at b Hb. intros d' [->|Hd']%elem_of_cons; [done|by apply Hall].
Qed.

Lemma datas_proj ds wss :
  length ds = length wss →
  map (λ d, d.1.1.2) (zip_with data_of ds wss) = map (λ d, pat_bindings (pat_state d)) ds ∧
  map (λ d, d.1.2) (zip_with data_of ds wss) = map (λ d, enum_open_tails (pat_state d)) ds ∧
  map snd (zip_with data_of ds wss) = wss.
Proof.
  revert wss. induction ds as [|d ds IH]; intros [|ws wss] Hlen; try done. cbn in Hlen.
  destruct (IH wss) as (H1 & H2 & H3); [lia|]. cbn. by rewrite H1, H2, H3.
Qed.

Lemma datas_zip {A} (l : list A) ds wss x t bs tails ws :
  (x, (t, bs, tails, ws)) ∈ zip l (zip_with data_of ds wss) →
  ∃ d, (x, (d, ws)) ∈ zip l (zip ds wss) ∧ d ∈ ds ∧
    (t, bs, tails) = (pat_typ d, pat_bindings (pat_state d), enum_open_tails (pat_state d)).
Proof.
  revert ds wss. induction l as [|y l IH]; intros [|d ds] [|ws' wss] Hin;
    try (by apply elem_of_nil in Hin). cbn in Hin.
  apply elem_of_cons in Hin as [[= -> -> -> -> ->]|Hin].
  - exists d. split; [by left|]. split; [by left|done].
  - destruct (IH _ _ Hin) as (d' & ? & ? & ?). exists d'. split; [by right|]. split; [by right|done].
Qed.

Lemma check_match_ok st ctxt branches t :
  state_ok st → env_in (st_dims st) ctxt → ty_in (st_dims st) t →
  ptriple st (check_match type_eq n check ctxt branches t)
    (λ _ st', later st' (λ b, wt_check b ctxt (NMatch branches) t)).
Proof.
  intros Hok Henv Ht. unfold check_match.
  eapply ptriple_bind; [by apply (match_datas_ok st ctxt [])|].
  intros ds st1 Hok1 Hle1 (ds' & wss & -> & Hlen & Hlenw & Hds & Hws & Hpats). advance Hle1.
  cbn [app] in *. rename ds' into ds.
  eapply ptriple_bind; [by apply ptriple_triple, fresh_uvar_ok|].
  intros arg st2 Hok2 Hle2 Harg. advance Hle2.
  eapply ptriple_bind; [by apply ptriple_triple, fresh_uvar_ok|].
  intros ret st3 Hok3 Hle3 Hret. advance Hle3.
  assert (∀ st', dims_le (st_dims st1) (st_dims st') → ∀ d, d ∈ ds → in_data (st_dims st') d) as Hds'.
  { intros st' HD d Hd. destruct (Hds d Hd) as (? & ? & ?).
    split; [by eapply ty_in_mono|]. split; [by eapply tbinds_in_mono|by eapply tails_in_mono]. }
  assert (dims_le (st_dims st1) (st_dims st3)) as HD3 by (etrans; [apply Hle2|apply Hle3]).
  eapply ptriple_bind; [by apply check_branches_ok; auto|].
  intros ctxt' st4 Hok4 Hle4 Hbranches. advance Hle4.
  assert (dims_le (st_dims st1) (st_dims st4)) as HD4 by (etrans; [apply HD3|apply Hle4]).
  eapply ptriple_bind; [by apply unify_patterns_ok; auto using tails_in_nil|].
  intros [[res tails] wilds] st5 Hok5 Hle5 [Htails Hres]. advance Hle5.
  eapply ptriple_bind; [by apply close_enums_ok|].
  intros [] st6 Hok6 Hle6 Hclosed. advance Hle6.
  destruct res as [[]|e].
  2: { eapply ptriple_bind; [by apply ptriple_err with (Q := λ _ _, False)|]. by intros []. }
  destruct (Hres eq_refl) as (-> & Hwilds & Hargs). clear Hres. advance Hle6. cbn [app] in *.
  eapply ptriple_bind; [by apply ptriple_ok with (Q := λ _ st', st' = st6)|]. intros [] ? _ _ ->.
  eapply ptriple_mono; [by apply unify_at_ok|].
  intros [] st7 Hok7 Hle7 Heq. advance Hle7. intros b Hb. now_at b Hb.
  eapply wc_eq; [|exact Heq]. destruct (datas_proj ds wss) as (Hb1 & Hb2 & Hb3); [congruence|].
  apply wc_match with (datas := zip_with data_of ds wss) (ctxt' := ctxt').
  - rewrite length_zip_with. lia.
  - intros p guard body u bs tls ws (d & Hin & Hd & [= -> -> ->])%datas_zip. split.
    + by eapply Hpats.
    + by apply Hargs.
  - rewrite Hb1. exact Hbranches.
  - rewrite Hb2, Hb3. intros π tail Hin. destruct (Hclosed π tail Hin) as [Hπ|?]; [left|by right].
    apply Hwilds in Hπ as [?%elem_of_empty|(d & Hd & Hπ)]; [done|].
    apply list_elem_of_lookup in Hd as [i Hi].
    destruct (Forall2_lookup_l _ _ _ _ _ Hws Hi) as (ws & Hwi & Hiff).
    rewrite list_elem_of_In, in_concat. exists ws.
    split; [by eapply list_elem_of_In, list_elem_of_lookup_2|]. by apply list_elem_of_In, Hiff.
Qed.

(** ** [infer]: applications and operators *)

Lemma ptriple_run {E A} st (m : comp (Ctr := Ctr) E A) Q :
  SubtypingTheorems.ptriple (E := E) type_eq st m Q →
  SubtypingTheorems.ptriple (E := E) type_eq st m (λ a st', Q a st' ∧ m st = Done (Prelude.Ok a, st')).
Proof.
  unfold SubtypingTheorems.ptriple. destruct (m st) as [[[a|e] st1]| |]; try done.
  intros (? & ? & ?). done.
Qed.

Definition types_in D (r : list Ty * Ty) : Prop :=
  List.Forall (ty_in D) r.1 ∧ ty_in D r.2.

Lemma primop_type_in {E} st l op :
  state_ok st →
  SubtypingTheorems.ptriple (E := E) type_eq st (primop_type l op)
    (λ r st', types_in (st_dims st') r).
Proof.
  intros Hok.
  destruct op; cbn [primop_type]; unfold uvar;
    repeat match goal with
    | |- SubtypingTheorems.ptriple _ ?st (fresh_uvar _ ≫= _) _ =>
        eapply ptriple_bind; [apply ptriple_triple, fresh_uvar_ok; assumption|];
        let t := fresh "t" in let st1 := fresh "st1" in let Hle := fresh "Hle" in
        intros t st1 ? Hle ?; advance Hle
    end;
    try (apply ptriple_ok; [assumption|]; unfold types_in; cbn;
         repeat (first [split | constructor]); assumption).
  - eapply ptriple_bind.
    { apply ptriple_triple, triple_allocating with (P := λ v st', v < n_erows (st_dims st'));
        [done|apply fresh_erows_allocated|].
      destruct (fresh_erows_allocated (table st) l) as (_ & Hv & Hlt). rewrite Hv. exact Hlt. }
    intros v st1 Hok1 _ Hv. apply ptriple_ok; [done|]. by split; [constructor|].
  - eapply ptriple_bind; [by apply ptriple_triple, fresh_rrows_ok|].
    intros rows st1 Hok1 _ Hr. eapply ptriple_bind; [by apply ptriple_triple, fresh_uvar_ok|].
    intros res st2 Hok2 Hle2 Hres. advance Hle2. apply ptriple_ok; [done|].
    split; [|done]. constructor; [by split|constructor].
  - eapply ptriple_bind.
    { apply ptriple_triple, triple_allocating with (P := λ e st', er_in (st_dims st') e); [done|..];
        destruct (fresh_erows_allocated (table st) l) as (Hal & Hv & Hlt); [exact Hal|].
      simpl in *. exact Hlt. }
    intros e st1 Hok1 _ He. apply ptriple_ok; [done|]. by split; [constructor|].
Qed.

Lemma nary_arrow_in D ts t :
  (∀ u, u ∈ ts → ty_in D u) → ty_in D t → ty_in D (nary_arrow ts t).
Proof.
  intros Hts Ht. induction ts as [|u ts IH]; [done|]. split; [apply Hts; by left|].
  apply IH. intros v Hv. apply Hts. by right.
Qed.

Lemma check_args_ok st ctxt es ts :
  state_ok st → env_in (st_dims st) ctxt → (∀ t, t ∈ ts → ty_in (st_dims st) t) →
  ptriple st (for_each2 (check ctxt) es ts)
    (λ _ st', later st' (λ b, ∀ e t, (e, t) ∈ zip es ts → wt_check b ctxt e t)).
Proof.
  intros Hok Henv Hts. apply ptriple_for_each2; [done|]. intros e t st1 Hin Hok1 Hle1. advance Hle1.
  apply Hcheck; [done..|]. eapply sle_ty_in; [done|]. apply Hts. by eapply elem_of_zip_r.
Qed.

Lemma infer_app_ok st ctxt head args :
  state_ok st → env_in (st_dims st) ctxt →
  ptriple st (infer_app type_eq n check infer ctxt head args)
    (λ t st', ty_in (st_dims st') t ∧ later st' (λ b, wt_infer b ctxt (NApp head args) t)).
Proof.
  intros Hok Henv. unfold infer_app.
  eapply ptriple_bind; [by apply Hinfer|]. intros f st1 Hok1 Hle1 [Hf Hhead]. advance Hle1.
  eapply ptriple_bind; [by apply instantiate_uvar_ok|].
  intros [f' ctxt'] st2 Hok2 Hle2 (Hf' & (l & ->) & Hsub). advance Hle2.
  eapply ptriple_bind; [by apply ptriple_triple, fresh_uvars_ok|].
  intros ts st3 Hok3 Hle3 [Hlen Hts]. advance Hle3.
  eapply ptriple_bind; [by apply ptriple_triple, fresh_uvar_ok|].
  intros t st4 Hok4 Hle4 Ht. advance Hle4.
  assert (∀ u, u ∈ ts → ty_in (st_dims st4) u) as Hts4.
  { intros u Hu. eapply sle_ty_in; [done|]. by apply Hts. }
  eapply ptriple_bind; [apply unify_at_ok; [done|by apply nary_arrow_in|done]|].
  intros [] st5 Hok5 Hle5 Heq. advance Hle5.
  eapply ptriple_bind.
  { apply check_args_ok; [done|by apply env_in_level|]. intros u Hu. eapply sle_ty_in; [done|]. by apply Hts4. }
  intros [] st6 Hok6 Hle6 Hargs. advance Hle6. apply ptriple_ok; [done|]. split; [done|].
  intros b Hb. now_at b Hb. eapply wn_app; [exact Hhead| |exact Hlen|].
  - eapply ts_trans; [exact Hsub|]. apply ts_eq. by symmetry.
  - intros e u Hin. eapply wc_level. by apply Hargs.
Qed.

Lemma infer_check_ok st ctxt a :
  infers a = false →
  state_ok st → env_in (st_dims st) ctxt →
  ptriple st
    (inferred ← fresh_uvar (var_level ctxt);
     _ ← check ctxt a inferred;
     reading (λ st, into_root (types (table st)) inferred))
    (λ t st', ty_in (st_dims st') t ∧ later st' (λ b, wt_infer b ctxt a t)).
Proof.
  intros Ha Hok Henv. eapply ptriple_bind; [by apply ptriple_triple, fresh_uvar_ok|].
  intros t st1 Hok1 Hle1 Ht. advance Hle1.
  eapply ptriple_bind; [by apply Hcheck|]. intros [] st2 Hok2 Hle2 Hc. advance Hle2.
  eapply ptriple_mono; [by apply root_type_ok|]. intros root st3 _ _ (-> & Hin & Heq).
  split; [done|]. intros b Hb. now_at b Hb. apply wn_check; [done|]. eapply wc_eq; [exact Hc|by symmetry].
Qed.

Lemma infer_ast_ok : infer_ok type_eq resolve (infer_ast type_eq n walk check infer).
Proof.
  intros st ctxt a Hok Henv.
  destruct a; cbn [infer_ast]; try (by apply infer_check_ok).
  - by apply infer_app_ok.
  - eapply ptriple_mono; [by apply get_type_ok|]. intros t st1 _ _ (-> & Ht & Hx). split; [done|].
    intros b _. by apply wn_var.
  - eapply ptriple_bind; [by apply ptriple_run, primop_type_in|].
    intros [ts t] st1 Hok1 Hle1 [[Hts Ht] Hrun]. cbn in Hts, Ht. advance Hle1.
    rewrite List.Forall_forall in Hts.
    eapply ptriple_bind with (Q1 := λ _ st', later st' (λ b, ∀ u e, (u, e) ∈ zip ts args →
      wt_check b ctxt e u)).
    { apply ptriple_for_each2; [done|]. intros u e st2 Hin Hok2 Hle2. advance Hle2.
      apply Hcheck; [done..|]. eapply sle_ty_in; [done|].
      apply Hts, list_elem_of_In. by eapply elem_of_zip_l. }
    intros [] st2 Hok2 Hle2 Hargs. advance Hle2. apply ptriple_ok; [done|]. split; [done|].
    intros b Hb. now_at b Hb. eapply wn_primop; [by eexists _, _, _|]. intros e u Hin. by apply Hargs.
  - eapply ptriple_mono; [by apply infer_with_annot_ok|]. intros t st1 _ _ [Ht Ha]. split; [done|].
    intros b Hb. now_at b Hb. by apply wn_annotated.
Qed.

(** ** [check] *)

Lemma check_import_ok st ctxt i t :
  state_ok st → env_in (st_dims st) ctxt → ty_in (st_dims st) t →
  ptriple st (check_import type_eq resolve n ctxt i t)
    (λ _ st', later st' (λ b, wt_check b ctxt (NImport i) t)).
Proof.
  intros Hok Henv Ht. unfold check_import. eapply ptriple_bind; [by apply resolve_import_ok|].
  intros imported ? _ _ [-> Hi]. cbv zeta. eapply ptriple_mono.
  { apply unify_at_ok; [done|done|]. destruct imported as [a|]; [|done].
    apply from_apparent_in. assert (∀ a, apparent_in (st_dims st) (apparent_type_move a)) as Hmove; [|done].
    clear. fix IH 1. intros a0. destruct a0; try exact I. cbn. destruct (annot_first annot); [exact I|apply IH]. }
  intros [] st1 _ _ Heq b Hb. now_at b Hb. eapply wc_eq; [|exact Heq]. by apply wc_import.
Qed.

Lemma infer_subsumed_ok st ctxt a t :
  infers a → state_ok st → env_in (st_dims st) ctxt → ty_in (st_dims st) t →
  ptriple st (inferred ← infer ctxt a; subsumed_at type_eq n ctxt inferred t)
    (λ _ st', later st' (λ b, wt_check b ctxt a t)).
Proof.
  intros Hinf Hok Henv Ht. eapply ptriple_bind; [by apply Hinfer|].
  intros u st1 Hok1 Hle1 [Hu Ha]. advance Hle1. eapply ptriple_mono; [by apply subsumed_at_ok|].
  intros [] st2 Hok2 Hle2 Hs. advance Hle2. intros b Hb. now_at b Hb. by eapply wc_sub.
Qed.

Lemma literal_ok st ctxt a t u :
  (∀ b, wt_check b ctxt a u) →
  state_ok st → ty_in (st_dims st) t → ty_in (st_dims st) u →
  ptriple st (unify_at (ImportError := ImportError) type_eq n ctxt t u)
    (λ _ st', later st' (λ b, wt_check b ctxt a t)).
Proof.
  intros Ha Hok Ht Hu. eapply ptriple_mono; [by apply unify_at_ok|].
  intros [] st1 _ _ Heq b Hb. now_at b Hb. eapply wc_eq; [apply Ha|exact Heq].
Qed.

Lemma check_ast_ok : check_ok type_eq resolve (check_ast type_eq resolve n walk check infer).
Proof.
  intros st ctxt a t0 Hok Henv Ht0. unfold check_ast.
  eapply ptriple_bind; [by apply instantiate_const_ok|].
  intros [t ctxt'] st1 Hok1 Hle1 (Ht & (l & ->) & Hinst).
  pose proof (env_in_le _ _ _ _ Hle1 Henv) as Henv1.
  apply (env_in_level _ l) in Henv1. set (ctxt' := with_var_level l ctxt) in *.
  eapply ptriple_mono with (Q1 := λ _ st', later st' (λ b, wt_check b ctxt' a t)).
  2: { intros [] st2 _ Hle2 Hc. advance Hle2. intros b Hb. now_at b Hb.
       eapply wc_instance; [exact Henv|exact Hinst|]. by eapply wc_level. }
  destruct a as [|v|v|s|chunks|args body|lbs body rec|head args|x|tag [arg|]|r|c e1 e2|branches|elts
    |op args|annot inner|i|ty|tok].
  - apply literal_ok; try done. intros b. apply wc_null.
  - apply literal_ok; try done. intros b. apply wc_bool.
  - apply literal_ok; try done. intros b. apply wc_number.
  - apply literal_ok; try done. intros b. apply wc_string.
  - eapply ptriple_bind; [by apply unify_at_ok|]. intros [] st2 Hok2 Hle2 Heq. advance Hle2.
    eapply ptriple_mono.
    { apply ptriple_for_each with (P := λ b c, match c with
        | AChunkExpr e _ => wt_check b ctxt' e str | _ => True end); [done|].
      intros [s|e k] st3 _ Hok3 Hle3; advance Hle3; [by apply ptriple_ok|by apply Hcheck]. }
    intros [] st3 _ Hle3 Hall. advance Hle3. intros b Hb. now_at b Hb.
    eapply wc_eq; [|exact Heq]. apply wc_chunks. intros e k He. exact (Hall (AChunkExpr e k) He).
  - by apply check_fun_ok.
  - by apply check_let_ok.
  - by apply infer_subsumed_ok.
  - by apply infer_subsumed_ok.
  - eapply ptriple_bind; [by apply ptriple_triple, fresh_erows_ok|].
    intros tail st2 Hok2 Hle2 Htail. advance Hle2.
    eapply ptriple_bind; [by apply ptriple_triple, fresh_uvar_ok|].
    intros u st3 Hok3 Hle3 Hu. advance Hle3.
    eapply ptriple_bind; [by apply unify_at_ok|]. intros [] st4 Hok4 Hle4 Heq. advance Hle4.
    eapply ptriple_mono; [by apply Hcheck|]. intros [] st5 _ Hle5 Harg. advance Hle5.
    intros b Hb. now_at b Hb. eapply wc_eq; [|exact Heq]. by apply wc_variant.
  - eapply ptriple_bind; [by apply ptriple_triple, fresh_erows_ok|].
    intros tail st2 Hok2 Hle2 Htail. advance Hle2.
    apply literal_ok; try done. intros b. apply wc_tag.
  - eapply ptriple_bind; [by apply resolved_record_ok|]. intros rr ? _ _ [-> Hrr].
    eapply ptriple_mono; [by apply check_record_ok|]. intros [] st2 _ _ Hr b Hb. now_at b Hb.
    by eapply wc_record.
  - eapply ptriple_bind; [by apply Hcheck|]. intros [] st2 Hok2 Hle2 H1. advance Hle2.
    eapply ptriple_bind; [by apply Hcheck|]. intros [] st3 Hok3 Hle3 H2. advance Hle3.
    eapply ptriple_mono; [by apply Hcheck|]. intros [] st4 Hok4 Hle4 H3. advance Hle4.
    intros b Hb. now_at b Hb. by apply wc_if.
  - by apply check_match_ok.
  - by apply check_array_ok.
  - by apply infer_subsumed_ok.
  - by apply infer_subsumed_ok.
  - by apply check_import_ok.
  - destruct (find_contract ty) eqn:Hc; [by apply ptriple_err|]. apply ptriple_ok; [done|].
    intros b _. by apply wc_type.
  - apply ptriple_ok; [done|]. intros b _. apply wc_parse_error.
Qed.

End step.

(** ** The knot *)

Lemma typechecker_ok n :
  walk_ok type_eq resolve (walk (typechecker type_eq resolve n)) ∧
  check_ok type_eq resolve (check (typechecker type_eq resolve n)) ∧
  infer_ok type_eq resolve (infer (typechecker type_eq resolve n)).
Proof.
  induction n as [|n IH]; [by split_and!|]. cbn [typechecker].
  destruct (typechecker type_eq resolve n) as [w c i]. destruct IH as (Hw & Hc & Hi).
  split_and!; [by apply walk_ast_ok|by apply check_ast_ok|by apply infer_ast_ok].
Qed.

End sound.
