(* ===== verification/TypecheckTheorems.v ===== *)
(** * Theorems on the typechecker

    First, heads: [head b t h] when, through the assignments [b], the outermost
    constructor of the type [t] is [h]. Equality keeps it, subsumption too except from
    a polymorphic type or from a record to a dictionary, and a construct that
    introduces a value only has types with the head of that construct. Then the
    initial context, and the properties: what is accepted has a derivation in
    [TcRules], what introduction forms can be checked against, what unification
    equates. *)
From stdpp Require Import strings.
From Stdlib Require Import QArith.Qcanon.
From S2P Require Import Prelude IndexMap Values Records Make Ast AstInd Pattern UnifTypes UnifTable SlotFacts Unify UnifRel UnifTableFacts UnifySound UnifyClosed UnifyTheorems Subtyping SubtypingTheorems TcTypes TcPattern TcOperation TcRecord Typecheck TcRules TcFacts TcPatternFacts TcSoundRecord TcSoundTerm.

Inductive Head : Type :=
| HDyn | HNumber | HBool | HString | HSymbol | HForeignId | HContract | HArrow
| HVar (id : UnifTypes.Ident) | HForall | HEnum | HRecord | HDict | HArray
| HWildcard (id : VarId) | HUnif (v : VarId) | HConst (c : VarId).

Definition head_type {Ty RR ER Te} (typ : TypeF Ty RR ER Te) : option Head :=
  match typ with
  | Dyn => Some HDyn | Number => Some HNumber | Bool => Some HBool | String => Some HString
  | Symbol => Some HSymbol | ForeignId => Some HForeignId | Contract _ => Some HContract
  | Arrow _ _ => Some HArrow | Var id => Some (HVar id) | Forall _ _ _ => Some HForall
  | Enum _ => Some HEnum | UnifTypes.Record _ => Some HRecord | Dict _ _ => Some HDict
  | Array _ => Some HArray
  | Wildcard _ => None
  end.

Section heads.
Context {Ctr : Type} (type_eq : Ctr → Ctr → bool) (b : bindings Ctr).
Implicit Types (t : UnifType Ctr).

Inductive head : UnifType Ctr → Head → Prop :=
| hd_type typ d h : head_type typ = Some h → head (TConcrete typ d) h
| hd_wildcard id d t h :
    b_wildcards b !! id = Some t → head t h → head (TConcrete (Wildcard id) d) h
| hd_free_wildcard id d :
    b_wildcards b !! id = None → head (TConcrete (Wildcard id) d) (HWildcard id)
| hd_const c : head (TConstant c) (HConst c)
| hd_var v l t h : b_types b !! v = Some (Some t) → head t h → head (TUnifVar v l) h
| hd_free v l : (∀ t, b_types b !! v ≠ Some (Some t)) → head (TUnifVar v l) (HUnif v).

Lemma head_concrete typ d h : head_type typ ≠ None → head (TConcrete typ d) h ↔ head_type typ = Some h.
Proof. intros Hne. split; [by inversion 1; subst|by constructor]. Qed.

Lemma head_unif v l l' h : head (TUnifVar v l) h → head (TUnifVar v l') h.
Proof. inversion 1; subst; [by eapply hd_var|by apply hd_free]. Qed.

Lemma head_data typ d d' h : head (TConcrete typ d) h → head (TConcrete typ d') h.
Proof. inversion 1; subst; [by apply hd_type|by eapply hd_wildcard|by apply hd_free_wildcard]. Qed.

(** A type has one head at most. *)
Lemma head_det t h h' : head t h → head t h' → h = h'.
Proof.
  intros Ht. revert h'. induction Ht; inversion 1; subst; simplify_eq/=; try done; auto.
  - naive_solver.
  - naive_solver.
Qed.

Lemma head_eq t1 t2 : ty_eq type_eq b t1 t2 → ∀ h, head t1 h ↔ head t2 h.
Proof.
  induction 1 as [t|t1 t2 _ IH|t1 t2 t3 _ IH1 _ IH2|v l t Hv|v l l'|typ d d'|id d t Hid
    |c1 c2 d1 d2|a1 a2 b1 b2 d1 d2|a1 a2 d1 d2|a1 a2 f1 f2 d1 d2|r1 r2 d1 d2|e1 e2 d1 d2
    |v k a1 a2 d1 d2|D v1 v2 k a1 a2 c d1 d2]; intros h.
  - done.
  - by rewrite IH.
  - by rewrite IH1, IH2.
  - split; [inversion 1; subst; simplify_eq; [done|naive_solver]|by eapply hd_var].
  - split; apply head_unif.
  - split; apply head_data.
  - split; [inversion 1; subst; simplify_eq/=; done|by eapply hd_wildcard].
  - by rewrite !head_concrete.
  - by rewrite !head_concrete.
  - by rewrite !head_concrete.
  - by rewrite !head_concrete.
  - by rewrite !head_concrete.
  - by rewrite !head_concrete.
  - by rewrite !head_concrete.
  - by rewrite !head_concrete.
Qed.

(** The heads that subsumption keeps. *)
Definition rigid (h : Head) : bool :=
  match h with HForall | HRecord => false | _ => true end.

Lemma head_sub t1 t2 : ty_sub type_eq b t1 t2 → ∀ h, rigid h → head t1 h → head t2 h.
Proof.
  induction 1 as [t1 t2 Heq|t1 t2 t3 _ IH1 _ IH2|a1 a2 d1 d2|a1 a2 f1 f2 d1 d2|r1 r2 d1 d2
    |r u f d1 d2|v k body d to]; intros h Hr Ht; auto.
  - by apply (head_eq _ _ Heq).
  - apply head_concrete in Ht as [= <-]; [|done]. by apply hd_type.
  - apply head_concrete in Ht as [= <-]; [|done]. by apply hd_type.
  - by apply head_concrete in Ht as [= <-].
  - by apply head_concrete in Ht as [= <-].
  - by apply head_concrete in Ht as [= <-].
Qed.

Lemma head_record_sub t1 t2 :
  ty_sub type_eq b t1 t2 → head t1 HRecord ∨ head t1 HDict → head t2 HRecord ∨ head t2 HDict.
Proof.
  induction 1 as [t1 t2 Heq|t1 t2 t3 _ IH1 _ IH2|a1 a2 d1 d2|a1 a2 f1 f2 d1 d2|r1 r2 d1 d2
    |r u f d1 d2|v k body d to]; intros Ht; auto.
  - rewrite !(head_eq _ _ Heq) in Ht. done.
  - by destruct Ht as [[=]%head_concrete|[=]%head_concrete].
  - right. by apply hd_type.
  - left. by apply hd_type.
  - right. by apply hd_type.
  - by destruct Ht as [[=]%head_concrete|[=]%head_concrete].
Qed.

End heads.

(** ** The types of introduction forms *)

Section introduction.
Context `{IndexMapOps Values.Ident}.
Context {ImportError : Type}.
Context (type_eq : Ctr → Ctr → bool).
Context (resolve : Import → Prelude.result (option Ast) ImportError).
Context (b : bindings Ctr).

(** The heads of the types that a construct introduces. *)
Definition intro_heads (a : Ast) : option (list Head) :=
  match a with
  | NNull => Some [HDyn]
  | NBool _ => Some [HBool]
  | NNumber _ => Some [HNumber]
  | NString _ | NStringChunks _ => Some [HString]
  | NFun (_ :: _) _ | NMatch _ => Some [HArrow]
  | NArray _ => Some [HArray]
  | NEnumVariant _ _ => Some [HEnum]
  | NRecord _ => Some [HRecord; HDict]
  | _ => None
  end.

Lemma const_instance_head D t t' h :
  const_instance type_eq b D t t' → head b t' h → head b t h ∨ head b t HForall.
Proof.
  induction 1 as [t|t t' u Heq _ IH|D' v k body d c u HD Hin Hc _ IH]; intros Hh.
  - by left.
  - destruct (IH Hh) as [?|?]; [left|right]; by apply (head_eq type_eq b _ _ Heq).
  - right. by apply hd_type.
Qed.

Lemma fun_args_arrow ctxt u args t ctxt' :
  fun_args type_eq resolve b ctxt u args t ctxt' → args ≠ [] ∨ head b u HArrow → head b t HArrow.
Proof.
  induction 1 as [ctxt u|ctxt u d alias args t bs tails wilds f ctxt' Hd Ht _ IH]; intros Hne.
  - by destruct Hne.
  - apply IH. right. by apply hd_type.
Qed.

Lemma wt_record_head ctxt stat dyn incls t :
  wt_record type_eq resolve b ctxt stat dyn incls t → head b t HRecord ∨ head b t HDict.
Proof.
  induction 1; try (right; by apply hd_type); try (left; by apply hd_type).
  - done.
  - rewrite !(head_eq type_eq b _ _ H1). done.
Qed.

(** A type at which an introduction form checks has the head of the form, or is
    polymorphic. *)
Lemma wt_check_intro ctxt a t hs :
  wt_check type_eq resolve b ctxt a t → intro_heads a = Some hs →
  head b t HForall ∨ ∃ h, h ∈ hs ∧ head b t h.
Proof.
  induction 1 as [| |ctxt a D t t' Henv Hinst Hc IH|ctxt a t t' Hinf| | | | | |
    |ctxt args body u t ctxt' Hargs Hc IH| | | | | |ctxt r rr t Hr Hrec| | | ];
    intros Hhs; try (cbn in Hhs; simplify_eq; right; eexists; split; [by left|by apply hd_type]); try done.
  - auto.
  - match goal with Heq : ty_eq _ _ _ _ |- _ =>
      setoid_rewrite (head_eq type_eq b _ _ Heq) end. auto.
  - destruct (IH Hhs) as [Hh|(h & Hin & Hh)];
      destruct (const_instance_head _ _ _ _ Hinst Hh) as [?|?]; eauto.
  - by destruct a.
  - right. exists HArrow. destruct args as [|p args]; [done|]. cbn in Hhs. simplify_eq.
    split; [by left|]. eapply fun_args_arrow; [exact Hargs|]. left. cbn. by destruct (rev args).
  - right. cbn in Hhs. simplify_eq. apply wt_record_head in Hrec as [?|?]; eexists;
      (split; [|done]); [by left|by right; left].
Qed.

End introduction.


(** ** The initial context *)

Lemma infer_leaf_type_in D a : ty_in D (infer_leaf_type a).
Proof.
  apply from_apparent_in.
  assert (∀ a, apparent_in D (apparent_type_move a)) as Hmove.
  { fix IH 1. intros a0. destruct a0; try exact I. cbn. destruct (annot_first annot); [exact I|apply IH]. }
  revert a. fix IH 1. intros a. destruct a; try exact I. cbn.
  destruct (annot_first annot); [exact I|apply IH].
Qed.

Lemma def_apparent_in D (resolver : option (Import → Prelude.result (option Ast) False)) def :
  apparent_in D (def_apparent_type None resolver def).
Proof.
  assert (∀ a, apparent_in D (apparent_type_move a)) as Hmove.
  { fix IH 1. intros a0. destruct a0; try exact I. cbn. destruct (annot_first annot); [exact I|apply IH]. }
  unfold def_apparent_type, annot_apparent_type. destruct (annot_first _); [done|].
  destruct (def_value def) as [a|]; [|done]. revert a. fix IH 1. intros a. destruct a; try exact I; cbn.
  - destruct (annot_first annot); [exact I|apply IH].
  - clear IH. destruct resolver as [resolver|]; [|done]. by destruct (resolver i) as [[a|]|].
Qed.

Lemma foldl_done {A B} (f : outcome A → B → outcome A) (P : A → Prop) l acc a :
  (∀ acc x a, (∀ a, acc = Done a → P a) → f acc x = Done a → P a) →
  (∀ a, acc = Done a → P a) → foldl f acc l = Done a → P a.
Proof. intros Hf. revert acc. induction l as [|x l IH]; intros acc Hacc; cbn; eauto. Qed.

Lemma mapM_done_all {A B} (f : A → outcome B) (P : B → Prop) l ys :
  (∀ x y, f x = Done y → P y) → mapM f l = Done ys → List.Forall P ys.
Proof.
  intros Hf. revert ys. induction l as [|x l IH]; intros ys; cbn; [by intros [= <-]|].
  intros (y & Hy & (zs & Hzs & [= <-])%bind_Done)%bind_Done. constructor; eauto.
Qed.

Lemma infer_record_type_in D depth env a t : infer_record_type depth env a = Done t → ty_in D t.
Proof.
  revert a t. induction depth as [|depth IH]; intros a t; [intros [= <-]; apply infer_leaf_type_in|].
  destruct a; try (intros [= <-]; apply infer_leaf_type_in).
  cbn [infer_record_type]. intros (rows & Hrows & [= <-])%bind_Done. cbn.
  revert Hrows. apply foldl_done with (P := λ rows, rr_in D (rrows_concrete rows)).
  - intros acc def rows' Hacc (rt & Hrt & (elem & _ & Hcase)%bind_Done)%bind_Done.
    apply Hacc in Hrt. destruct (try_as_ident elem) as [id|]; [|by simplify_eq].
    apply bind_Done in Hcase as (u & Hu & [= <-]). cbn. split; [|done].
    pose proof (def_apparent_in D None def) as Hdef.
    destruct (def_apparent_type None None def); simplify_eq/=; try done; try apply from_type_in;
      (destruct (def_value def); [by eapply IH|]; simplify_eq; apply from_type_in).
  - by intros rows' [= <-].
Qed.

Lemma mk_initial_ctxt_in D env ctxt :
  mk_initial_ctxt env = Done (Prelude.Ok ctxt) → env_in D ctxt.
Proof.
  unfold mk_initial_ctxt. intros (r & _ & Hr)%bind_Done. destruct r as [bs|]; [|done].
  apply bind_Done in Hr as (types & Htypes & [= <-]).
  apply mapM_done_all with (P := λ b, ty_in D b.2) in Htypes.
  - intros x t. cbn [type_env]. clear bs. rewrite List.Forall_forall in Htypes.
    assert (∀ x t, (∅ : TypeEnv) !! x = Some t → ty_in D t) as Hempty.
    { intros x0 t0 Hx. pose proof (lookup_empty (M := gmap string) (A := Ty) x0) as Hn.
      unfold TypeEnv in Hx. by rewrite Hn in Hx. }
    revert Hempty. generalize (∅ : TypeEnv). induction types as [|[y u] types IH]; intros m Hm.
    + apply Hm.
    + cbn. apply IH; [intros b Hb; apply Htypes; by right|].
      intros z v [[_ <-]|[_ Hz]]%lookup_insert_Some; [|by eapply Hm].
      apply (Htypes (y, u)). by left.
  - intros [x a] y (t & Ht & [= <-])%bind_Done. by eapply infer_record_type_in.
Qed.

Section visit.
Context `{IndexMapOps Values.Ident}.
Context {ImportError : Type}.
Context (type_eq : Ctr → Ctr → bool).
Context (resolve : Import → Prelude.result (option Ast) ImportError).

Lemma state_new_ok : state_ok state_new.
Proof. split; [apply wf_table_new|]. by intros t ?%elem_of_nil. Qed.

Lemma ptriple_done {E A} st (m : comp (Ctr := Ctr) E A) Q a st' :
  SubtypingTheorems.ptriple type_eq st m Q → m st = Done (Prelude.Ok a, st') →
  state_ok st' ∧ Q a st'.
Proof. unfold SubtypingTheorems.ptriple. intros Hm Heq. rewrite Heq in Hm. by destruct Hm as (? & _ & ?). Qed.

(** Either mode of the visit, from the initial state. *)
Lemma visit_ok n a ctxt mode :
  (∀ D, env_in D ctxt) →
  SubtypingTheorems.ptriple type_eq state_new
    (match mode with
     | ModeEnforce =>
         uty ← fresh_uvar (var_level ctxt);
         check (typechecker type_eq resolve n) ctxt a uty
     | ModeWalk => walk (typechecker type_eq resolve n) ctxt a
     end : comp (Ctr := Ctr) (TypecheckError ImportError) unit)
    (λ _ st, match mode with
             | ModeEnforce => ∃ t, wt_check type_eq resolve (st_binds st) ctxt a t
             | ModeWalk => wt_walk type_eq resolve (st_binds st) ctxt a
             end).
Proof.
  intros Henv. destruct (typechecker_ok type_eq resolve n) as (Hw & Hc & _).
  destruct mode.
  - eapply ptriple_mono; [by apply Hw, Henv; apply state_new_ok|].
    intros [] st _ _ Hwt. apply Hwt. reflexivity.
  - eapply ptriple_bind; [by apply ptriple_triple, fresh_uvar_ok, state_new_ok|].
    intros u st1 Hok1 _ Hu. eapply ptriple_mono; [by apply Hc|].
    intros [] st _ _ Hwt. exists u. apply Hwt. reflexivity.
Qed.

End visit.

(** ** Soundness *)


Definition no_contract_eq (_ _ : Ctr) : bool := false.
Definition no_import (_ : Import) : Prelude.result (option Ast) unit := Err ().
Definition any_pattern (x : string) : Pattern := mkPattern (PatAny (ident x)) None.
Definition annotated (t : Type_) (a : Ast) : Ast := NAnnotated (mkAnnotation (Some t) []) a.

(** [(fun x => {y = x, z = std}.y) : _ -> Number] after a library [std]. *)
Definition sample_program : Ast :=
  annotated (ATyArrow (ATyWildcard 0) ATyNumber)
    (NFun [any_pattern "x"]
      (NApp (annotated (ATyArrow ATyNumber ATyNumber) (NFun [any_pattern "n"] (NVar (ident "n"))))
         [NVar (ident "x")])).


(** ** Heads *)

(** A value never passes for another kind of value: when [check] accepts a
    literal, a function, an array, a match, a variant or a record at a type whose head
    constructor is [h] after the check, [h] is a head that the construct
    introduces: [Number] for a number, an arrow for a function, a record or a
    dictionary for a record. The only other head is a polymorphic type, whose
    quantifiers the check instantiates. In particular [Dyn] accepts nothing but
    [null]: a value is only made dynamic by a contract. *)
Theorem check_respects_heads `{IndexMapOps Values.Ident} {ImportError : Type}
    (type_eq : Ctr → Ctr → bool) (resolve : Import → Prelude.result (option Ast) ImportError)
    (n : nat) (ctxt : Context) (a : Ast) (t : UnifType Ctr) (st st' : State) (hs : list Head) (h : Head) :
  state_ok st → env_in (st_dims st) ctxt → ty_in (st_dims st) t →
  check (typechecker type_eq resolve n) ctxt a t st = Done (Prelude.Ok (), st') →
  intro_heads a = Some hs → head (st_binds st') t h →
  h ∈ hs ∨ h = HForall.
Proof.
  intros Hok Henv Ht Hcheck Hhs Hh.
  destruct (typechecker_ok type_eq resolve n) as (_ & Hc & _).
  eapply ptriple_done in Hcheck as [_ Hwt]; [|by apply Hc].
  apply later_now in Hwt. eapply wt_check_intro in Hwt as [Hpoly|(h' & Hin & Hh')]; [|..|exact Hhs].
  - right. by eapply head_det.
  - left. by rewrite (head_det _ _ _ _ Hh Hh').
Qed.

Lemma empty_context_in D : env_in D context_new.
Proof.
  intros x t Hx. unfold context_new, type_env, TypeEnv in Hx.
  by rewrite (lookup_empty (M := gmap string) (A := Ty) x) in Hx.
Qed.

(** [fun x => x] against an unassigned variable: the variable becomes an arrow. *)
Lemma check_respects_heads_witness :
  ∃ st', check (typechecker no_contract_eq no_import 10) context_new
           (NFun [any_pattern "x"] (NVar (ident "x"))) (TUnifVar 0 MIN_LEVEL)
           (free_state 1 0 0 MIN_LEVEL) = Done (Prelude.Ok (), st') ∧
         ∀ h, head (st_binds st') (TUnifVar 0 MIN_LEVEL) h → h ∈ [HArrow] ∨ h = HForall.
Proof.
  assert (∃ st', check (typechecker no_contract_eq no_import 10) context_new
           (NFun [any_pattern "x"] (NVar (ident "x"))) (TUnifVar 0 MIN_LEVEL)
           (free_state 1 0 0 MIN_LEVEL) = Done (Prelude.Ok (), st'))
    as [st' Hst] by (eexists; vm_compute; reflexivity).
  exists st'. split; [exact Hst|]. intros h.
  eapply (check_respects_heads _ _ _ _ _ _ _ _ [HArrow] h); [..|exact Hst|reflexivity].
  - apply free_state_ok.
  - apply empty_context_in.
  - cbn. lia.
Defined.

(** Types that unification equates have the same outermost constructor, through
    the assignments it leaves: a number type is never unified with a function
    type, nor a dictionary type with a record type, nor a rigid variable with
    anything else. *)
Theorem unify_respects_heads {Ctr : Type} (type_eq : Ctr → Ctr → bool) (var_level : VarLevel)
    (n : nat) (st st' : Unify.State) (t1 t2 : UnifType Ctr) (h1 h2 : Head) :
  state_ok st → ty_in (st_dims st) t1 → ty_in (st_dims st) t2 →
  unify_type type_eq var_level n t1 t2 st = Done (Prelude.Ok (), st') →
  head (st_binds st') t1 h1 → head (st_binds st') t2 h2 → h1 = h2.
Proof.
  intros Hok H1 H2 Hu Hh1 Hh2. pose proof (proj1 (unify_is_ok type_eq var_level n) st t1 t2 Hok H1 H2) as H.
  unfold triple in H. rewrite Hu in H. destruct H as (_ & _ & Heq).
  apply (head_eq _ _ _ _ Heq) in Hh1. by eapply head_det.
Qed.

(** A variable against [Number]: the only head the variable can have is [Number]. *)
Lemma unify_respects_heads_witness :
  ∃ st', unify_type no_contract_eq 3 5 (TUnifVar 0 3) TcTypes.num (free_state 1 0 0 3)
           = Done (Prelude.Ok (), st') ∧
         ∀ h, head (st_binds st') (TUnifVar 0 3) h → h = HNumber.
Proof.
  assert (∃ st', unify_type no_contract_eq 3 5 (TUnifVar 0 3) TcTypes.num (free_state 1 0 0 3)
           = Done (Prelude.Ok (), st')) as [st' Hst] by (eexists; vm_compute; reflexivity).
  exists st'. split; [exact Hst|]. intros h Hh.
  refine (unify_respects_heads _ _ _ _ _ _ _ h HNumber (free_state_ok 1 0 0 3) _ _ Hst Hh _).
  - cbn. lia.
  - exact I.
  - by apply hd_type.
Defined.
