(* ===== verification/TcEq.v ===== *)
(** * Equality of contracts inside types ([core/src/typecheck/eq.rs])

    When unification meets two contracts, it compares them as opaque types: the
    syntax is compared structurally, and variables are followed to their definition
    a bounded number of times (the gas). The types inside a contract are converted to
    unification types, so that the variables bound by [forall] can be replaced with
    constants. Positions are left out: the derived equality of the included fields,
    which compares them, is an argument. *)
From stdpp Require Import strings.
From Stdlib Require Import QArith.Qcanon.
From S2P Require Import Prelude IndexMap Values Records Make Ast UnifTypes UnifTable Unify Subtyping TcTypes.

(** ** State *)

Definition MAX_GAS : nat := 12.

Record EqState : Type := mkEqState { var_uid : nat; gas : nat }.

Definition eq_state_new : EqState := mkEqState 0 MAX_GAS.

Definition EqM (A : Type) : Type := EqState → outcome (A * EqState).

#[export] Instance EqM_ret : MRet EqM := λ A a st, Done (a, st).
#[export] Instance EqM_bind : MBind EqM := λ A B f m st, '(a, st') ← m st; f a st'.

Definition fresh_cst_id : EqM VarId := λ st,
  Done (var_uid st, mkEqState (S (var_uid st)) (gas st)).

Definition use_gas : EqM bool := λ st,
  match gas st with
  | 0 => Done (false, st)
  | S g => Done (true, mkEqState (var_uid st) g)
  end.

(** [&&] and [Iterator::all] *)
Definition and_then (m m' : EqM bool) : EqM bool :=
  b ← m; if (b : bool) then m' else (mret false : EqM bool).

Fixpoint all_of {A} (f : A → EqM bool) (l : list A) : EqM bool :=
  match l with [] => mret true | x :: l => and_then (f x) (all_of f l) end.

(** [self.len() == other.len() && ..]: the second operand is only run after the
    first. *)
Definition guarded (b : bool) (m : EqM bool) : EqM bool := if b then m else mret false.

(** [TypeEqBounded] for slices, options and index maps *)
Definition slice_eq {A} (f : A → A → EqM bool) (l1 l2 : list A) : EqM bool :=
  guarded (length l1 =? length l2) (all_of (λ p : A * A, f p.1 p.2) (zip l1 l2)).

Definition opt_eq {A} (f : A → A → EqM bool) (o1 o2 : option A) : EqM bool :=
  match o1, o2 with
  | Some x1, Some x2 => f x1 x2
  | None, None => mret true
  | _, _ => mret false
  end.

Definition imap_eq `{IndexMapOps K} {V} (f : V → V → EqM bool) (m1 m2 : IndexMap K V) : EqM bool :=
  guarded (length m1 =? length m2)
    (all_of (λ p : K * V,
       match im_get m2 p.1 with Some v2 => f p.2 v2 | None => mret false end) m1).

(** ** Rows *)

(** The rows of [RecordRowsIterator] and [EnumRowsIterator] as entries; [None] when
    an item is not a row. *)
Fixpoint rrows_entries (r : RR) : option (list (UnifTypes.Ident * Ty)) :=
  match r with
  | RConcrete REmpty _ => Some []
  | RConcrete (RExtend row tail) _ =>
      es ← rrows_entries tail; Some ((rrow_id row, rrow_typ row) :: es)
  | _ => None
  end.

Fixpoint erows_entries (e : ER) : option (list (UnifTypes.Ident * option Ty)) :=
  match e with
  | EConcrete EEmpty _ => Some []
  | EConcrete (EExtend row tail) _ =>
      es ← erows_entries tail; Some ((erow_id row, erow_typ row) :: es)
  | _ => None
  end.

(** ** Environments *)

(** [TermEnv::get] *)
Definition term_env_get (id : string) (env : TermEnv) : option (Ast * TermEnv) :=
  let 'mkTermEnv entries := env in
  snd <$> find (λ e, bool_decide (e.1 = id)) entries.

(** ** Sorted definitions *)

(** [sort_by_cached_key], [sort_by_key]: a stable sort. *)
Section sort.
Context {A : Type} (leb : A → A → bool).

Fixpoint insert_sorted (x : A) (l : list A) : list A :=
  match l with
  | [] => [x]
  | y :: l' => if leb x y then x :: l else y :: insert_sorted x l'
  end.

Definition sort_stable (l : list A) : list A := foldr insert_sorted [] l.

End sort.

Section type_eq.
Context `{IndexMapOps UnifTypes.Ident}.

(** Physical equality of two nodes of the tree, and of two environments. *)
Context (ast_ptr_eq : Ast → Ast → bool).
Context (env_ptr_eq : TermEnv → TermEnv → bool).

(** The order of symbols in the interner ([FastOrdIdent]). *)
Context (symbol_leb : Values.Ident → Values.Ident → bool).

(** The derived equality of [Include]. *)
Context (include_eq : Include → Include → bool).

(** The order of the keys, [Vec<Option<FastOrdIdent>>]. *)
Definition symbol_opt_leb (o1 o2 : option Values.Ident) : bool :=
  match o1, o2 with
  | None, _ => true
  | Some _, None => false
  | Some s1, Some s2 => symbol_leb s1 s2
  end.

Fixpoint path_leb (p1 p2 : list (option Values.Ident)) : bool :=
  match p1, p2 with
  | [], _ => true
  | _ :: _, [] => false
  | x1 :: p1, x2 :: p2 =>
      if bool_decide (x1 = x2) then path_leb p1 p2 else symbol_opt_leb x1 x2
  end.

Definition path_key (d : FieldDef) : list (option Values.Ident) := map try_as_ident (path d).

Definition sort_field_defs : list FieldDef → list FieldDef :=
  sort_stable (λ d1 d2, path_leb (path_key d1) (path_key d2)).

Definition include_name (i : Include) : string := let 'mkInclude id _ := i in label id.

Definition sort_includes : list Include → list Include :=
  sort_stable (λ i1 i2, String.leb (include_name i1) (include_name i2)).

Fixpoint list_eq {A} (eq : A → A → bool) (l1 l2 : list A) : bool :=
  match l1, l2 with
  | [], [] => true
  | x1 :: l1, x2 :: l2 => eq x1 x2 && list_eq eq l1 l2
  | _, _ => false
  end.

Section step.
Context (ast_eq : Ast → TermEnv → Ast → TermEnv → EqM bool).
Context (utype_eq : Ty → Ty → EqM bool).

(** [TypeEqBounded for Type]: on the converted types. The environments that go
    along a unification type are never read, and are left out. *)
Definition type_eq_at (env1 env2 : TermEnv) (ty1 ty2 : Type_) : EqM bool :=
  utype_eq (from_type env1 ty1) (from_type env2 ty2).

Definition annotation_eq (env1 env2 : TermEnv) (annot1 annot2 : Annotation) : EqM bool :=
  and_then (opt_eq (type_eq_at env1 env2) (ast_annot_typ annot1) (ast_annot_typ annot2))
    (slice_eq (type_eq_at env1 env2) (ast_annot_contracts annot1) (ast_annot_contracts annot2)).

Definition metadata_eq (env1 env2 : TermEnv) (m1 m2 : AstFieldMetadata) : EqM bool :=
  and_then (annotation_eq env1 env2 (ast_annotation m1) (ast_annotation m2))
    (mret (bool_decide (ast_opt m1 = ast_opt m2)
           && bool_decide (ast_not_exported m1 = ast_not_exported m2)
           && priority_eq (ast_priority m1) (ast_priority m2))).

Definition path_elem_eq (e1 e2 : FieldPathElem) : EqM bool :=
  match try_as_ident e1, try_as_ident e2 with
  | Some id1, Some id2 => mret (bool_decide (id1 = id2))
  | _, _ => mret false
  end.

Definition def_eq (env1 env2 : TermEnv) (d1 d2 : FieldDef) : EqM bool :=
  and_then (metadata_eq env1 env2 (def_metadata d1) (def_metadata d2))
    (and_then (slice_eq path_elem_eq (path d1) (path d2))
       (opt_eq (λ v1 v2, ast_eq v1 env1 v2 env2) (def_value d1) (def_value d2))).

Definition record_eq (env1 env2 : TermEnv) (r1 r2 : Ast.Record) : EqM bool :=
  and_then
    (slice_eq (def_eq env1 env2) (sort_field_defs (field_defs r1)) (sort_field_defs (field_defs r2)))
    (mret (list_eq include_eq (sort_includes (rec_includes r1)) (sort_includes (rec_includes r2))
           && bool_decide (rec_open r1 = rec_open r2))).

(** Two variables that are both free, or the same one in the same environment. *)
Definition same_var (id1 id2 : Values.Ident) (env1 env2 : TermEnv) : option bool :=
  match term_env_get (label id1) env1, term_env_get (label id2) env2 with
  | None, None => Some (bool_decide (id1 = id2))
  | _, _ =>
      if bool_decide (id1 = id2) && env_ptr_eq env1 env2 then Some true else None
  end.

Definition unfold_left (id : Values.Ident) (env1 : TermEnv) (a2 : Ast) (env2 : TermEnv) : EqM bool :=
  and_then use_gas
    (match term_env_get (label id) env1 with
     | Some (a1, env1) => ast_eq a1 env1 a2 env2
     | None => mret false
     end).

Definition unfold_right (a1 : Ast) (env1 : TermEnv) (id : Values.Ident) (env2 : TermEnv) : EqM bool :=
  and_then use_gas
    (match term_env_get (label id) env2 with
     | Some (a2, env2) => ast_eq a1 env1 a2 env2
     | None => mret false
     end).

Definition chunk_eq (c1 c2 : StringChunk) : EqM bool :=
  match c1, c2 with
  | AChunkLiteral s1, AChunkLiteral s2 => mret (bool_decide (s1 = s2))
  | _, _ => mret false
  end.

(** [TypeEqBounded for Ast], after the physical comparison. *)
Definition node_eq (a1 : Ast) (env1 : TermEnv) (a2 : Ast) (env2 : TermEnv) : EqM bool :=
  let args_eq := slice_eq (λ a1 a2, ast_eq a1 env1 a2 env2) in
  match a1, a2 with
  | NNull, NNull => mret true
  | NBool b1, NBool b2 => mret (bool_decide (b1 = b2))
  | NNumber n1, NNumber n2 => mret (bool_decide (n1 = n2))
  | NString s1, NString s2 => mret (bool_decide (s1 = s2))
  | NEnumVariant tag1 arg1, NEnumVariant tag2 arg2 =>
      arg_eq ← opt_eq (λ a1 a2, ast_eq a1 env1 a2 env2) arg1 arg2;
      mret (bool_decide (tag1 = tag2) && arg_eq)
  | NStringChunks scs1, NStringChunks scs2 => slice_eq chunk_eq scs1 scs2
  | NApp head1 args1, NApp head2 args2 =>
      and_then (ast_eq head1 env1 head2 env2) (args_eq args1 args2)
  | NVar id1, NVar id2 =>
      match same_var id1 id2 env1 env2 with
      | Some b => mret b
      | None => unfold_left id1 env1 a2 env2
      end
  | NVar id, _ => unfold_left id env1 a2 env2
  | _, NVar id => unfold_right a1 env1 id env2
  | NRecord r1, NRecord r2 => record_eq env1 env2 r1 r2
  | NArray elts1, NArray elts2 => args_eq elts1 elts2
  | NAnnotated annot1 inner1, NAnnotated annot2 inner2 =>
      and_then (annotation_eq env1 env2 annot1 annot2) (ast_eq inner1 env1 inner2 env2)
  | NPrimOpApp (PRecordStatAccess id1) args1, NPrimOpApp (PRecordStatAccess id2) args2 =>
      guarded (bool_decide (id1 = id2)) (args_eq args1 args2)
  | NType ty1, NType ty2 => type_eq_at env1 env2 ty1 ty2
  | _, _ => mret false
  end.

Definition ast_eq_step (a1 : Ast) (env1 : TermEnv) (a2 : Ast) (env2 : TermEnv) : EqM bool :=
  if ast_ptr_eq a1 a2 && env_ptr_eq env1 env2 then mret true else node_eq a1 env1 a2 env2.

(** The constant that replaces a bound variable. *)
Definition constant_of (k : UnifTypes.VarKind) (c : VarId) : SubstTo (Ctr := Ctr) :=
  match k with
  | KindType => ToType (TConstant c)
  | KindRecordRows _ => ToRRows (RConstant c)
  | KindEnumRows _ => ToERows (EConstant c)
  end.

(** [TypeEqBounded for UnifRecordRows], [UnifEnumRows] *)
Definition rrows_eq (r1 r2 : RR) : EqM bool :=
  match rrows_entries r1, rrows_entries r2 with
  | Some es1, Some es2 => imap_eq utype_eq (im_extend [] es1) (im_extend [] es2)
  | _, _ => mret false
  end.

Definition erows_eq (e1 e2 : ER) : EqM bool :=
  match erows_entries e1, erows_entries e2 with
  | Some es1, Some es2 => imap_eq (opt_eq utype_eq) (im_extend [] es1) (im_extend [] es2)
  | _, _ => mret false
  end.

(** [TypeEqBounded for UnifType] *)
Definition utype_eq_step (t1 t2 : Ty) : EqM bool :=
  match t1, t2 with
  | TConcrete s1 _, TConcrete s2 _ =>
      match s1, s2 with
      | Wildcard id1, Wildcard id2 => mret (bool_decide (id1 = id2))
      | Dyn, Dyn | Number, Number | Bool, Bool | Symbol, Symbol | String, String => mret true
      | Dict uty1 FlavourType, Dict uty2 FlavourType
      | Dict uty1 FlavourContract, Dict uty2 FlavourContract => utype_eq uty1 uty2
      | Array uty1, Array uty2 => utype_eq uty1 uty2
      | Arrow s1 t1, Arrow s2 t2 => and_then (utype_eq s1 s2) (utype_eq t1 t2)
      | Enum e1, Enum e2 => erows_eq e1 e2
      | UnifTypes.Record r1, UnifTypes.Record r2 => rrows_eq r1 r2
      | Contract (a1, env1), Contract (a2, env2) => ast_eq a1 env1 a2 env2
      | UnifTypes.Forall var1 k1 body1, UnifTypes.Forall var2 k2 body2 =>
          cst_id ← fresh_cst_id;
          guarded (bool_decide (k1 = k2))
            (utype_eq (subst body1 var1 (constant_of k1 cst_id))
                      (subst body2 var2 (constant_of k1 cst_id)))
      | _, _ => mret false
      end
  | TUnifVar id1 _, TUnifVar id2 _ => λ _, Panic
  | TConstant i1, TConstant i2 => mret (bool_decide (i1 = i2))
  | _, _ => mret false
  end.

End step.

Fixpoint ast_eq_bounded (n : nat) : Ast → TermEnv → Ast → TermEnv → EqM bool :=
  match n with
  | 0 => λ _ _ _ _ _, OutOfFuel
  | S n => λ a1 env1 a2 env2, ast_eq_step (ast_eq_bounded n) (utype_eq_bounded n) a1 env1 a2 env2
  end
with utype_eq_bounded (n : nat) : Ty → Ty → EqM bool :=
  match n with
  | 0 => λ _ _ _, OutOfFuel
  | S n => λ t1 t2, utype_eq_step (ast_eq_bounded n) (utype_eq_bounded n) t1 t2
  end.

(** [TypeEq for Ast] *)
Definition type_eq (n : nat) (self : Ast) (env1 : TermEnv) (other : Ast) (env2 : TermEnv)
    : outcome bool :=
  '(b, _) ← ast_eq_bounded n self env1 other env2 eq_state_new; Done b.

End type_eq.
