(* ===== verification/TcEqTheorems.v ===== *)
(** * Theorems on the equality of contracts

    [same_contract] is what the comparison stands for: the same syntax, where a
    variable is its definition in its environment. The comparison always ends, never
    panics, and what it equates is the same contract; it follows at most
    [MAX_GAS] variables. *)
From stdpp Require Import strings sorting.
From Stdlib Require Import QArith.Qcanon.
From S2P Require Import Prelude IndexMap Values Records Make Ast UnifTypes UnifTable SlotFacts Unify UnifRel UnifyClosed Subtyping TcTypes TcEq.

(** ** The relation *)

(** The nodes without sub-trees that are compared. *)
Definition is_literal (a : Ast) : bool :=
  match a with
  | NNull | NBool _ | NNumber _ | NString _ | NEnumVariant _ None => true
  | NStringChunks chunks =>
      forallb (λ c, match c with AChunkLiteral _ => true | AChunkExpr _ _ => false end) chunks
  | _ => false
  end.

Definition same_length {A B} (l1 : list A) (l2 : list B) : Prop := length l1 = length l2.

Section relation.
Context `{IndexMapOps UnifTypes.Ident}.

Inductive same_contract : Ast → TermEnv → Ast → TermEnv → Prop :=
| sc_same a e : same_contract a e a e
| sc_literal a e1 e2 : is_literal a → same_contract a e1 a e2
| sc_variant tag a1 e1 a2 e2 :
    same_contract a1 e1 a2 e2 →
    same_contract (NEnumVariant tag (Some a1)) e1 (NEnumVariant tag (Some a2)) e2
| sc_app h1 args1 e1 h2 args2 e2 :
    same_contract h1 e1 h2 e2 → same_length args1 args2 →
    (∀ a1 a2, (a1, a2) ∈ zip args1 args2 → same_contract a1 e1 a2 e2) →
    same_contract (NApp h1 args1) e1 (NApp h2 args2) e2
| sc_free x e1 e2 :
    term_env_get (label x) e1 = None → term_env_get (label x) e2 = None →
    same_contract (NVar x) e1 (NVar x) e2
| sc_left x e1 a1 e1' a2 e2 :
    term_env_get (label x) e1 = Some (a1, e1') →
    same_contract a1 e1' a2 e2 → same_contract (NVar x) e1 a2 e2
| sc_right x a1 e1 e2 a2 e2' :
    term_env_get (label x) e2 = Some (a2, e2') →
    same_contract a1 e1 a2 e2' → same_contract a1 e1 (NVar x) e2
| sc_record r1 e1 r2 e2 defs1 defs2 :
    defs1 ≡ₚ field_defs r1 → defs2 ≡ₚ field_defs r2 → same_length defs1 defs2 →
    (∀ d1 d2, (d1, d2) ∈ zip defs1 defs2 → same_def d1 e1 d2 e2) →
    rec_includes r1 ≡ₚ rec_includes r2 → rec_open r1 = rec_open r2 →
    same_contract (NRecord r1) e1 (NRecord r2) e2
| sc_array l1 e1 l2 e2 :
    same_length l1 l2 → (∀ a1 a2, (a1, a2) ∈ zip l1 l2 → same_contract a1 e1 a2 e2) →
    same_contract (NArray l1) e1 (NArray l2) e2
| sc_annotated annot1 a1 e1 annot2 a2 e2 :
    same_annot annot1 e1 annot2 e2 → same_contract a1 e1 a2 e2 →
    same_contract (NAnnotated annot1 a1) e1 (NAnnotated annot2 a2) e2
| sc_access x args1 e1 args2 e2 :
    same_length args1 args2 →
    (∀ a1 a2, (a1, a2) ∈ zip args1 args2 → same_contract a1 e1 a2 e2) →
    same_contract (NPrimOpApp (PRecordStatAccess x) args1) e1
      (NPrimOpApp (PRecordStatAccess x) args2) e2
| sc_type t1 e1 t2 e2 :
    same_type (from_type e1 t1) (from_type e2 t2) → same_contract (NType t1) e1 (NType t2) e2

(** The same annotations, in the same order. *)
with same_annot : Annotation → TermEnv → Annotation → TermEnv → Prop :=
| sa_annot t1 cs1 e1 t2 cs2 e2 :
    (is_Some t1 ↔ is_Some t2) →
    (∀ u1 u2, t1 = Some u1 → t2 = Some u2 → same_type (from_type e1 u1) (from_type e2 u2)) →
    same_length cs1 cs2 →
    (∀ u1 u2, (u1, u2) ∈ zip cs1 cs2 → same_type (from_type e1 u1) (from_type e2 u2)) →
    same_annot (mkAnnotation t1 cs1) e1 (mkAnnotation t2 cs2) e2

(** The same static path, metadata and value; the documentation does not count. *)
with same_def : FieldDef → TermEnv → FieldDef → TermEnv → Prop :=
| sd_def ids doc1 annot1 v1 e1 doc2 annot2 v2 e2 opt not_exported p1 p2 :
    same_annot annot1 e1 annot2 e2 → priority_eq p1 p2 →
    (is_Some v1 ↔ is_Some v2) →
    (∀ a1 a2, v1 = Some a1 → v2 = Some a2 → same_contract a1 e1 a2 e2) →
    same_def
      (mkFieldDef (map PathIdent ids) (mkAstFieldMetadata doc1 annot1 opt not_exported p1) v1) e1
      (mkFieldDef (map PathIdent ids) (mkAstFieldMetadata doc2 annot2 opt not_exported p2) v2) e2

(** Types: rows in any order, bound variables up to their name. *)
with same_type : Ty → Ty → Prop :=
| st_base typ d1 d2 :
    match typ with Dyn | Number | Bool | Symbol | String | Wildcard _ => True | _ => False end →
    same_type (TConcrete typ d1) (TConcrete typ d2)
| st_const c : same_type (TConstant c) (TConstant c)
| st_dict t1 t2 f d1 d2 :
    same_type t1 t2 → same_type (TConcrete (Dict t1 f) d1) (TConcrete (Dict t2 f) d2)
| st_array t1 t2 d1 d2 :
    same_type t1 t2 → same_type (TConcrete (Array t1) d1) (TConcrete (Array t2) d2)
| st_arrow s1 t1 s2 t2 d1 d2 :
    same_type s1 s2 → same_type t1 t2 →
    same_type (TConcrete (Arrow s1 t1) d1) (TConcrete (Arrow s2 t2) d2)
| st_contract a1 e1 a2 e2 d1 d2 :
    same_contract a1 e1 a2 e2 →
    same_type (TConcrete (Contract (a1, e1)) d1) (TConcrete (Contract (a2, e2)) d2)
| st_enum e1 e2 es1 es2 d1 d2 :
    erows_entries e1 = Some es1 → erows_entries e2 = Some es2 →
    same_length (im_extend [] es1 : IndexMap _ _) (im_extend [] es2 : IndexMap _ _) →
    (∀ id o1, (id, o1) ∈ (im_extend [] es1 : IndexMap _ _) → ∃ o2, im_get (im_extend [] es2) id = Some o2 ∧
       (is_Some o1 ↔ is_Some o2) ∧ ∀ t1 t2, o1 = Some t1 → o2 = Some t2 → same_type t1 t2) →
    same_type (TConcrete (Enum e1) d1) (TConcrete (Enum e2) d2)
| st_record r1 r2 es1 es2 d1 d2 :
    rrows_entries r1 = Some es1 → rrows_entries r2 = Some es2 →
    same_length (im_extend [] es1 : IndexMap _ _) (im_extend [] es2 : IndexMap _ _) →
    (∀ id t1, (id, t1) ∈ (im_extend [] es1 : IndexMap _ _) →
       ∃ t2, im_get (im_extend [] es2) id = Some t2 ∧ same_type t1 t2) →
    same_type (TConcrete (UnifTypes.Record r1) d1) (TConcrete (UnifTypes.Record r2) d2)
| st_forall D k v1 v2 b1 b2 c d1 d2 :
    ty_in D b1 → ty_in D b2 → fresh_const D k c →
    same_type (subst b1 v1 c) (subst b2 v2 c) →
    same_type (TConcrete (UnifTypes.Forall v1 k b1) d1) (TConcrete (UnifTypes.Forall v2 k b2) d2).

End relation.

(** ** Sizes and bounds *)

Definition max_with {A} (f : A → nat) (l : list A) : nat := foldr (λ x n, max (f x) n) 0 l.
Definition add_with {A} (f : A → nat) (l : list A) : nat := foldr (λ x n, f x + n) 0 l.
Definition opt_size {A} (f : A → nat) (o : option A) : nat :=
  match o with Some x => f x | None => 0 end.

Lemma max_with_elem {A} (f : A → nat) l x : x ∈ l → f x ≤ max_with f l.
Proof. induction 1; simpl; lia. Qed.

Lemma add_with_elem {A} (f : A → nat) l x : x ∈ l → f x ≤ add_with f l.
Proof. induction 1; simpl; lia. Qed.

(** The part of the tree that the comparison looks at. *)
Fixpoint ast_size (a : Ast) : nat :=
  match a with
  | NEnumVariant _ arg => S (opt_size ast_size arg)
  | NApp h args => S (ast_size h + add_with ast_size args)
  | NRecord (mkRecord _ defs _) => S (add_with def_size defs)
  | NArray l | NPrimOpApp _ l => S (add_with ast_size l)
  | NAnnotated annot a => S (annot_size annot + ast_size a)
  | NType t => S (type_size t)
  | _ => 1
  end
with def_size (d : FieldDef) : nat :=
  let 'mkFieldDef _ (mkAstFieldMetadata _ annot _ _ _) v := d in
  S (annot_size annot + opt_size ast_size v)
with annot_size (annot : Annotation) : nat :=
  let 'mkAnnotation t cs := annot in S (opt_size type_size t + add_with type_size cs)
with type_size (t : Type_) : nat :=
  match t with
  | ATyContract a => S (ast_size a)
  | ATyArrow t1 t2 => S (type_size t1 + type_size t2)
  | ATyForall _ _ t | ATyDict t _ | ATyArray t => S (type_size t)
  | ATyEnum e => S (aerows_size e)
  | ATyRecord r => S (arrows_size r)
  | _ => 1
  end
with arrows_size (r : AstRecordRows) : nat :=
  match r with ARRExtend _ t r => S (type_size t + arrows_size r) | _ => 1 end
with aerows_size (e : AstEnumRows) : nat :=
  match e with AERExtend _ t e => S (opt_size type_size t + aerows_size e) | _ => 1 end.

(** The size of the largest definition that an environment reaches. *)
Fixpoint env_bound (env : TermEnv) : nat :=
  let 'mkTermEnv entries := env in
  max_with (λ p : string * (Ast * TermEnv),
    match p with (_, (a, e)) => max (ast_size a) (env_bound e) end) entries.

Fixpoint utype_size (t : Ty) : nat :=
  match t with
  | TConcrete typ _ =>
      match typ with
      | Contract (a, _) => S (ast_size a)
      | Arrow t1 t2 => S (utype_size t1 + utype_size t2)
      | UnifTypes.Forall _ _ t | Dict t _ | Array t => S (utype_size t)
      | Enum e => S (uerows_size e)
      | UnifTypes.Record r => S (urrows_size r)
      | _ => 1
      end
  | _ => 1
  end
with urrows_size (r : RR) : nat :=
  match r with
  | RConcrete (RExtend (mkRecordRow _ t) r) _ => S (utype_size t + urrows_size r)
  | _ => 1
  end
with uerows_size (e : ER) : nat :=
  match e with
  | EConcrete (EExtend (mkEnumRow _ o) e) _ => S (opt_size utype_size o + uerows_size e)
  | _ => 1
  end.

(** No unification variable, constants below [c], environments bounded by [B]. *)
Fixpoint utype_ok (B c : nat) (t : Ty) : Prop :=
  match t with
  | TConcrete typ _ =>
      match typ with
      | Contract (_, env) => env_bound env ≤ B
      | Arrow t1 t2 => utype_ok B c t1 ∧ utype_ok B c t2
      | UnifTypes.Forall _ _ t | Dict t _ | Array t => utype_ok B c t
      | Enum e => uerows_ok B c e
      | UnifTypes.Record r => urrows_ok B c r
      | _ => True
      end
  | TConstant id => id < c
  | TUnifVar _ _ => False
  end
with urrows_ok (B c : nat) (r : RR) : Prop :=
  match r with
  | RConcrete (RExtend (mkRecordRow _ t) r) _ => utype_ok B c t ∧ urrows_ok B c r
  | RConcrete _ _ => True
  | RConstant id => id < c
  | RUnifVar _ _ => False
  end
with uerows_ok (B c : nat) (e : ER) : Prop :=
  match e with
  | EConcrete (EExtend (mkEnumRow _ (Some t)) e) _ => utype_ok B c t ∧ uerows_ok B c e
  | EConcrete (EExtend (mkEnumRow _ None) e) _ => uerows_ok B c e
  | EConcrete _ _ => True
  | EConstant id => id < c
  | EUnifVar _ _ => False
  end.

Lemma term_env_get_bound id env a e :
  term_env_get id env = Some (a, e) → ast_size a ≤ env_bound env ∧ env_bound e ≤ env_bound env.
Proof.
  destruct env as [es]. unfold term_env_get.
  destruct (find _ es) as [[x [a' e']]|] eqn:Hf; [|done]. intros [= -> ->].
  apply find_some in Hf as [Hin%list_elem_of_In _].
  apply (max_with_elem (λ p : string * (Ast * TermEnv),
    match p with (_, (a, e)) => max (ast_size a) (env_bound e) end)) in Hin.
  cbn in *. lia.
Qed.

Lemma utype_ok_mono B c c' :
  c ≤ c' →
  (∀ t, utype_ok B c t → utype_ok B c' t) ∧ (∀ r, urrows_ok B c r → urrows_ok B c' r) ∧
  (∀ e, uerows_ok B c e → uerows_ok B c' e).
Proof.
  intros Hle. apply unif_ind; try done; try (simpl; lia).
  - intros typ d IH. destruct typ; simpl in *; naive_solver.
  - intros r d IH. destruct r as [|[]| |]; simpl in *; naive_solver.
  - intros e d IH. destruct e as [|[? []]|]; simpl in *; naive_solver.
Qed.

Definition consts_below (c : nat) : dims := mkDims c c c.

Lemma utype_ok_in B c :
  (∀ t, utype_ok B c t → ty_in (consts_below c) t) ∧
  (∀ r, urrows_ok B c r → rr_in (consts_below c) r) ∧
  (∀ e, uerows_ok B c e → er_in (consts_below c) e).
Proof.
  apply unif_ind; try done.
  - intros typ d IH. destruct typ; simpl in *; naive_solver.
  - intros r d IH. destruct r as [|[]| |]; simpl in *; naive_solver.
  - intros e d IH. destruct e as [|[? []]|]; simpl in *; naive_solver.
Qed.

Lemma from_type_ok B c env :
  env_bound env ≤ B →
  (∀ t, utype_ok B c (from_type env t) ∧ utype_size (from_type env t) = type_size t) ∧
  (∀ r, urrows_ok B c (from_record_rows env r) ∧ urrows_size (from_record_rows env r) = arrows_size r) ∧
  (∀ e, uerows_ok B c (from_enum_rows env e) ∧ uerows_size (from_enum_rows env e) = aerows_size e).
Proof.
  intros HB.
  assert (∀ t, utype_ok B c (from_type env t) ∧ utype_size (from_type env t) = type_size t) as Ht.
  { fix IHt 1.
    assert (∀ r, urrows_ok B c (from_record_rows env r) ∧
                 urrows_size (from_record_rows env r) = arrows_size r) as IHr.
    { fix IHr 1. intros [|id t r|id|]; try (split; exact I || reflexivity).
      specialize (IHt t). specialize (IHr r). cbn. intuition lia. }
    assert (∀ e, uerows_ok B c (from_enum_rows env e) ∧
                 uerows_size (from_enum_rows env e) = aerows_size e) as IHe.
    { fix IHe 1. intros [|id [t|] e|id]; try (split; exact I || reflexivity).
      - specialize (IHt t). specialize (IHe e). cbn. intuition lia.
      - specialize (IHe e). cbn. intuition lia. }
    intros t. destruct t; try (split; exact I || reflexivity).
    - split; [exact HB|reflexivity].
    - pose proof (IHt t1). pose proof (IHt t2). cbn. intuition lia.
    - specialize (IHt t). cbn. intuition lia.
    - specialize (IHe erows). cbn. intuition lia.
    - specialize (IHr rrows). cbn. intuition lia.
    - specialize (IHt t). cbn. intuition lia.
    - specialize (IHt t). cbn. intuition lia. }
  split_and!; [exact Ht|..].
  - intros r. induction r as [|id t r IH|id|]; try done. specialize (Ht t). cbn. intuition lia.
  - intros e. induction e as [|id [t|] e IH|id]; try done.
    + specialize (Ht t). cbn. intuition lia.
    + cbn. intuition lia.
Qed.

(** Replacing a bound variable by a fresh constant. *)
Lemma subst_const_ok B c id k :
  (∀ t, utype_ok B c t →
        utype_ok B (S c) (subst t id (constant_of k c)) ∧
        utype_size (subst t id (constant_of k c)) = utype_size t) ∧
  (∀ r, urrows_ok B c r →
        urrows_ok B (S c) (subst_levels_rrows id (constant_of k c) r).1 ∧
        urrows_size (subst_levels_rrows id (constant_of k c) r).1 = urrows_size r) ∧
  (∀ e, uerows_ok B c e →
        uerows_ok B (S c) (subst_levels_erows id (constant_of k c) e).1 ∧
        uerows_size (subst_levels_erows id (constant_of k c) e).1 = uerows_size e).
Proof.
  unfold subst. set (to := constant_of k c).
  assert (to = ToType (TConstant c) ∨ to = ToRRows (RConstant c) ∨ to = ToERows (EConstant c)) as Hto.
  { unfold to. destruct k; auto. }
  clearbody to. apply unif_ind; try (simpl; intros; split; [lia|done]); try done.
  - intros typ d IH Hg.
    destruct (subst_levels_concrete id to typ d) as [(t & -> & -> & ->)|(d' & _ & ->)].
    { destruct Hto as [[= ->]|[[=]|[=]]]. simpl. split; [lia|done]. }
    clear Hto. destruct typ; simpl in *; unfold raising; repeat (case_match; simplify_eq/=); naive_solver.
  - intros r d IH Hg.
    destruct (subst_rrows_concrete id to r d) as [(t & -> & -> & ->)|(d' & _ & ->)].
    { destruct Hto as [[=]|[[= ->]|[=]]]. simpl. split; [lia|done]. }
    clear Hto. destruct r as [|[]| |]; simpl in *; unfold raising; repeat (case_match; simplify_eq/=);
      naive_solver.
  - intros e d IH Hg.
    destruct (subst_erows_concrete id to e d) as [(t & -> & -> & ->)|(d' & _ & ->)].
    { destruct Hto as [[=]|[[=]|[= ->]]]. simpl. split; [lia|done]. }
    clear Hto. destruct e as [|[? []]|]; simpl in *; unfold raising; repeat (case_match; simplify_eq/=);
      naive_solver.
Qed.

Lemma rrows_entries_ok B c r es :
  rrows_entries r = Some es → urrows_ok B c r →
  ∀ id t, (id, t) ∈ es → utype_ok B c t ∧ utype_size t < urrows_size r.
Proof.
  revert r es. fix IH 1. intros [[|[id t] r|id|] d|c0|v l] es; cbn; try done.
  - intros [= <-] _ id t Hin. by apply elem_of_nil in Hin.
  - destruct (rrows_entries r) as [es'|] eqn:Hr; [|done]. intros [= <-] [Ht Hok] id' t' Hin.
    apply elem_of_cons in Hin as [[= -> ->]|Hin]; [split; [done|lia]|].
    destruct (IH r es' Hr Hok _ _ Hin). split; [done|lia].
Qed.

Lemma erows_entries_ok B c e es :
  erows_entries e = Some es → uerows_ok B c e →
  ∀ id t, (id, Some t) ∈ es → utype_ok B c t ∧ utype_size t < uerows_size e.
Proof.
  revert e es. fix IH 1. intros [[|[id o] e|id] d|c0|v l] es; cbn; try done.
  - intros [= <-] _ id t Hin. by apply elem_of_nil in Hin.
  - destruct (erows_entries e) as [es'|] eqn:He; [|done]. intros [= <-] Hok id' t' Hin.
    assert (uerows_ok B c e ∧ (∀ t, o = Some t → utype_ok B c t)) as [Hok' Ho].
    { destruct o; [destruct Hok; split; [done|congruence]|done]. }
    apply elem_of_cons in Hin as [Heq|Hin]; [injection Heq as -> <-; split; [by apply Ho|simpl; lia]|].
    destruct (IH e es' He Hok' _ _ Hin). split; [done|lia].
Qed.

(** ** The comparison *)

(** From any state with gas up to [g] and constants from [c] on, the program returns,
    makes no gas, and establishes [P] when it answers [true]. *)
Definition decides (c g : nat) (m : EqM bool) (P : Prop) : Prop :=
  ∀ st, gas st ≤ g → c ≤ var_uid st →
    ∃ b st', m st = Done (b, st') ∧ gas st' ≤ gas st ∧ var_uid st ≤ var_uid st' ∧ (b = true → P).

Section decides.
Implicit Types (P Q : Prop) (c g : nat).

Lemma decides_ret c g b P : (b = true → P) → decides c g (mret b) P.
Proof. intros HP st _ _. by exists b, st. Qed.

Lemma decides_false c g P : decides c g (mret false) P.
Proof. by apply decides_ret. Qed.

Lemma decides_mono c g m P Q : decides c g m P → (P → Q) → decides c g m Q.
Proof.
  intros Hm HPQ st Hg Hc. destruct (Hm st Hg Hc) as (b & st' & ? & ? & ? & ?).
  exists b, st'. split_and!; auto.
Qed.

Lemma decides_bind c g (m : EqM bool) P (f : bool → EqM bool) Q :
  decides c g m P → (∀ b : bool, (b = true → P) → decides c g (f b) Q) → decides c g (m ≫= f) Q.
Proof.
  intros Hm Hf st Hg Hc. destruct (Hm st Hg Hc) as (b & st1 & Heq & Hg1 & Hc1 & HP).
  destruct (Hf b HP st1) as (b' & st2 & Heq' & ? & ? & ?); [lia..|].
  exists b', st2. unfold mbind, EqM_bind. rewrite Heq. cbn [mbind outcome_bind].
  split; [done|]. split; [lia|]. split; [lia|done].
Qed.

Lemma decides_and c g m m' P Q :
  decides c g m P → (P → decides c g m' Q) → decides c g (and_then m m') (P ∧ Q).
Proof.
  intros Hm Hm'. eapply decides_bind; [exact Hm|]. intros [] HP; [|apply decides_false].
  eapply decides_mono; [by apply Hm', HP|]. auto.
Qed.

Lemma decides_guarded c g (b : bool) m P :
  (b = true → decides c g m P) → decides c g (guarded b m) (b = true ∧ P).
Proof.
  intros Hm. destruct b; [|apply decides_false]. eapply decides_mono; [by apply Hm|]. done.
Qed.

Lemma decides_all {A} c g (f : A → EqM bool) l (P : A → Prop) :
  (∀ x, x ∈ l → decides c g (f x) (P x)) → decides c g (all_of f l) (∀ x, x ∈ l → P x).
Proof.
  induction l as [|x l IH]; intros Hf.
  - apply decides_ret. by intros _ x ?%elem_of_nil.
  - cbn [all_of]. eapply decides_mono.
    + apply decides_and; [apply Hf; by left|]. intros _. apply IH. intros y Hy. apply Hf. by right.
    + intros [Hx Hl] y [->|Hy]%elem_of_cons; auto.
Qed.

Lemma decides_slice {A} c g (f : A → A → EqM bool) l1 l2 (P : A → A → Prop) :
  (∀ x y, (x, y) ∈ zip l1 l2 → decides c g (f x y) (P x y)) →
  decides c g (slice_eq f l1 l2) (same_length l1 l2 ∧ ∀ x y, (x, y) ∈ zip l1 l2 → P x y).
Proof.
  intros Hf. eapply decides_mono.
  - apply decides_guarded. intros _. apply decides_all with (P := λ p, P p.1 p.2).
    intros [x y] Hin. by apply Hf.
  - intros [Hlen Hall]. split; [by apply Nat.eqb_eq|]. intros x y Hin. exact (Hall (x, y) Hin).
Qed.

Lemma decides_opt {A} c g (f : A → A → EqM bool) o1 o2 (P : A → A → Prop) :
  (∀ x y, o1 = Some x → o2 = Some y → decides c g (f x y) (P x y)) →
  decides c g (opt_eq f o1 o2)
    ((is_Some o1 ↔ is_Some o2) ∧ ∀ x y, o1 = Some x → o2 = Some y → P x y).
Proof.
  intros Hf. destruct o1 as [x|], o2 as [y|]; cbn; try apply decides_false.
  - eapply decides_mono; [by apply Hf|]. intros HP. split; [split; by eexists|].
    by intros ?? [= <-] [= <-].
  - apply decides_ret. intros _. split; [done|]. by intros ??.
Qed.

Lemma decides_imap `{IndexMapOps K} {V} c g (f : V → V → EqM bool) (m1 m2 : IndexMap K V)
    (P : V → V → Prop) :
  (∀ k v1 v2, (k, v1) ∈ m1 → im_get m2 k = Some v2 → decides c g (f v1 v2) (P v1 v2)) →
  decides c g (imap_eq f m1 m2)
    (same_length m1 m2 ∧ ∀ k v1, (k, v1) ∈ m1 → ∃ v2, im_get m2 k = Some v2 ∧ P v1 v2).
Proof.
  intros Hf. eapply decides_mono.
  - apply decides_guarded. intros _.
    apply decides_all with (P := λ p, ∃ v2, im_get m2 p.1 = Some v2 ∧ P p.2 v2).
    intros [k v1] Hin. cbn. destruct (im_get m2 k) as [v2|] eqn:Hk; [|apply decides_false].
    eapply decides_mono; [by eapply Hf|]. eauto.
  - intros [Hlen Hall]. split; [by apply Nat.eqb_eq|]. intros k v1 Hin. exact (Hall (k, v1) Hin).
Qed.

(** Once a unit of gas is used, there is less of it. *)
Lemma decides_use_gas c g m P :
  (∀ g', g = S g' → decides c g' m P) → decides c g (and_then use_gas m) P.
Proof.
  intros Hm st Hg Hc. unfold and_then, mbind, EqM_bind, use_gas.
  destruct (gas st) as [|g0] eqn:Hst.
  - exists false, st. cbn. split; [done|]. split; [lia|]. done.
  - destruct g as [|g]; [lia|].
    destruct (Hm g eq_refl (mkEqState (var_uid st) g0)) as (b & st' & Heq & Hg' & Hc' & HP); cbn in *; [lia..|].
    exists b, st'. rewrite Heq. split; [done|]. split; [lia|]. done.
Qed.

Lemma decides_gas_le c g g' m P : g' ≤ g → decides c g m P → decides c g' m P.
Proof. intros Hle Hm st Hg Hc. apply Hm; lia. Qed.

End decides.

(** ** Sorting *)

Lemma insert_sorted_perm {A} leb (x : A) l : insert_sorted leb x l ≡ₚ x :: l.
Proof.
  induction l as [|y l IH]; [done|]. cbn. destruct (leb x y); [done|].
  rewrite IH. apply Permutation_swap.
Qed.

Lemma sort_stable_perm {A} leb (l : list A) : sort_stable leb l ≡ₚ l.
Proof. induction l as [|x l IH]; [done|]. cbn. by rewrite insert_sorted_perm, IH. Qed.

Lemma list_eq_eq {A} (eq : A → A → bool) l1 l2 :
  (∀ x y, eq x y = true → x = y) → list_eq eq l1 l2 = true → l1 = l2.
Proof.
  intros Heq. revert l2. induction l1 as [|x l1 IH]; intros [|y l2]; cbn; try done.
  intros [Hxy Hl]%andb_prop. f_equal; auto.
Qed.

(** ** The comparison returns, and is sound *)

Section sound.
Context `{IndexMapLaws UnifTypes.Ident}.
Context (ast_ptr_eq : Ast → Ast → bool) (env_ptr_eq : TermEnv → TermEnv → bool).
Context (symbol_leb : Values.Ident → Values.Ident → bool) (include_eq : Include → Include → bool).
Context (Hast_ptr : ∀ a1 a2, ast_ptr_eq a1 a2 = true → a1 = a2).
Context (Henv_ptr : ∀ e1 e2, env_ptr_eq e1 e2 = true → e1 = e2).
Context (Hincl : ∀ i1 i2, include_eq i1 i2 = true → i1 = i2).
Context (B : nat).

Abbreviation ast_eq_bounded := (ast_eq_bounded ast_ptr_eq env_ptr_eq symbol_leb include_eq).
Abbreviation utype_eq_bounded := (utype_eq_bounded ast_ptr_eq env_ptr_eq symbol_leb include_eq).

(** The fuel that is enough: each unit of gas replaces a variable by a definition. *)
Definition fuel_for (g s : nat) : nat := g * S B + s + 1.

Definition ast_ok (n : nat) : Prop := ∀ c g a1 e1 a2 e2,
  env_bound e1 ≤ B → env_bound e2 ≤ B → fuel_for g (ast_size a1 + ast_size a2) ≤ n →
  decides c g (ast_eq_bounded n a1 e1 a2 e2) (same_contract a1 e1 a2 e2).
Definition utype_fuel_ok (n : nat) : Prop := ∀ c g t1 t2,
  utype_ok B c t1 → utype_ok B c t2 → fuel_for g (utype_size t1 + utype_size t2) ≤ n →
  decides c g (utype_eq_bounded n t1 t2) (same_type t1 t2).

Section step.
Context (n c g s : nat).
Context (Hast : ast_ok n) (Hutype : utype_fuel_ok n) (Hfuel : fuel_for g s ≤ S n).
Context (e1 e2 : TermEnv) (He1 : env_bound e1 ≤ B) (He2 : env_bound e2 ≤ B).

Lemma sub_ast a1 a2 :
  ast_size a1 + ast_size a2 < s →
  decides c g (ast_eq_bounded n a1 e1 a2 e2) (same_contract a1 e1 a2 e2).
Proof. intros Hs. apply Hast; [done..|]. unfold fuel_for in *. lia. Qed.

Lemma sub_asts l1 l2 :
  add_with ast_size l1 + add_with ast_size l2 < s →
  decides c g (slice_eq (λ a1 a2, ast_eq_bounded n a1 e1 a2 e2) l1 l2)
    (same_length l1 l2 ∧ ∀ a1 a2, (a1, a2) ∈ zip l1 l2 → same_contract a1 e1 a2 e2).
Proof.
  intros Hs. apply decides_slice. intros a1 a2 Hin. apply sub_ast.
  pose proof (elem_of_zip_l _ _ _ _ Hin) as H1%(add_with_elem ast_size).
  pose proof (elem_of_zip_r _ _ _ _ Hin) as H2%(add_with_elem ast_size). lia.
Qed.

Lemma sub_type t1 t2 :
  type_size t1 + type_size t2 < s →
  decides c g (type_eq_at (utype_eq_bounded n) e1 e2 t1 t2)
    (same_type (from_type e1 t1) (from_type e2 t2)).
Proof.
  intros Hs. destruct (proj1 (from_type_ok B c e1 He1) t1) as [H1 Hs1].
  destruct (proj1 (from_type_ok B c e2 He2) t2) as [H2 Hs2].
  apply Hutype; [done..|]. rewrite Hs1, Hs2. unfold fuel_for in *. lia.
Qed.

Lemma sub_annot annot1 annot2 :
  annot_size annot1 + annot_size annot2 < S (S s) →
  decides c g (annotation_eq (utype_eq_bounded n) e1 e2 annot1 annot2)
    (same_annot annot1 e1 annot2 e2).
Proof.
  destruct annot1 as [t1 cs1], annot2 as [t2 cs2]. cbn [annot_size]. intros Hs.
  eapply decides_mono.
  { apply decides_and.
    - apply decides_opt with (P := λ u1 u2, same_type (from_type e1 u1) (from_type e2 u2)).
      intros u1 u2 [= ->] [= ->]. apply sub_type. cbn in Hs. lia.
    - intros _. apply decides_slice with (P := λ u1 u2, same_type (from_type e1 u1) (from_type e2 u2)).
      intros u1 u2 Hin. apply sub_type.
      pose proof (elem_of_zip_l _ _ _ _ Hin) as H1%(add_with_elem type_size).
      pose proof (elem_of_zip_r _ _ _ _ Hin) as H2%(add_with_elem type_size). cbn [ast_annot_contracts] in H1, H2. lia. }
  intros [[Ho Ht] [Hlen Hcs]]. by apply sa_annot.
Qed.

Lemma path_ids p1 p2 :
  decides c g (slice_eq path_elem_eq p1 p2) (∃ ids, p1 = map PathIdent ids ∧ p2 = map PathIdent ids).
Proof.
  eapply decides_mono.
  { apply decides_slice with (P := λ x y, ∃ id, x = PathIdent id ∧ y = PathIdent id).
    intros [id1|?] [id2|?] _; cbn; try apply decides_false.
    apply decides_ret. intros ->%bool_decide_eq_true. eauto. }
  intros [Hlen Hall]. revert p2 Hlen Hall.
  induction p1 as [|x p1 IH]; intros [|y p2]; cbn; try done.
  - intros _ _. by exists [].
  - intros [= Hlen] Hall. destruct (Hall x y) as (id & -> & ->); [by left|].
    destruct (IH p2 Hlen) as (ids & -> & ->); [intros; apply Hall; by right|]. by exists (id :: ids).
Qed.

Lemma sub_def d1 d2 :
  def_size d1 + def_size d2 < s →
  decides c g (def_eq (ast_eq_bounded n) (utype_eq_bounded n) e1 e2 d1 d2) (same_def d1 e1 d2 e2).
Proof.
  destruct d1 as [p1 [doc1 annot1 o1 ne1 pr1] v1], d2 as [p2 [doc2 annot2 o2 ne2 pr2] v2].
  cbn [def_size]. intros Hs. eapply decides_mono.
  { apply decides_and; [apply decides_and|intros _; apply decides_and].
    - apply sub_annot. cbn. lia.
    - intros _. apply decides_ret with (P := o1 = o2 ∧ ne1 = ne2 ∧ priority_eq pr1 pr2).
      cbn. intros [[->%bool_decide_eq_true ->%bool_decide_eq_true]%andb_prop Hpr]%andb_prop.
      split; [done|]. split; [done|]. by rewrite Hpr.
    - apply path_ids.
    - intros _. apply decides_opt with (P := λ a1 a2, same_contract a1 e1 a2 e2).
      cbn [def_value]. intros a1 a2 [= ->] [= ->]. apply sub_ast. cbn in Hs. lia. }
  cbn [path def_value]. intros [[Hannot (-> & -> & Hpr)] [(ids & -> & ->) [Hv Hvs]]].
  by apply sd_def.
Qed.

Lemma sub_record r1 r2 :
  ast_size (NRecord r1) + ast_size (NRecord r2) ≤ s →
  decides c g (record_eq symbol_leb include_eq (ast_eq_bounded n) (utype_eq_bounded n) e1 e2 r1 r2)
    (same_contract (NRecord r1) e1 (NRecord r2) e2).
Proof.
  destruct r1 as [is1 ds1 op1], r2 as [is2 ds2 op2]. cbn [ast_size]. intros Hs. eapply decides_mono.
  { apply decides_and.
    - apply decides_slice with (P := λ d1 d2, same_def d1 e1 d2 e2). intros d1 d2 Hin. apply sub_def.
      pose proof (elem_of_zip_l _ _ _ _ Hin) as H1.
      pose proof (elem_of_zip_r _ _ _ _ Hin) as H2.
      cbn [field_defs] in H1, H2. unfold sort_field_defs in H1, H2. rewrite (sort_stable_perm _) in H1, H2.
      apply (add_with_elem def_size) in H1, H2. lia.
    - intros _. apply decides_ret with (P := is1 ≡ₚ is2 ∧ op1 = op2).
      intros [Hi%(list_eq_eq _ _ _ Hincl) Ho%bool_decide_eq_true]%andb_prop. split; [|exact Ho].
      cbn [rec_includes] in Hi. trans (sort_includes is1); [symmetry; apply sort_stable_perm|].
      rewrite Hi. apply sort_stable_perm. }
  intros [[Hlen Hds] [Hi Ho]].
  eapply (sc_record _ _ _ _ (sort_field_defs symbol_leb ds1) (sort_field_defs symbol_leb ds2));
    [apply sort_stable_perm|apply sort_stable_perm|done..].
Qed.

Lemma left_ok id a2 :
  fuel_for g (S (ast_size a2)) ≤ S n →
  decides c g (unfold_left (ast_eq_bounded n) id e1 a2 e2) (same_contract (NVar id) e1 a2 e2).
Proof.
  intros Hf. apply decides_use_gas. intros g' ->.
  destruct (term_env_get (label id) e1) as [[a1 e1']|] eqn:Hx; [|apply decides_false].
  destruct (term_env_get_bound _ _ _ _ Hx). eapply decides_mono; [|by eapply sc_left].
  apply Hast; [lia|done|]. unfold fuel_for in *. lia.
Qed.

Lemma right_ok a1 id :
  fuel_for g (S (ast_size a1)) ≤ S n →
  decides c g (unfold_right (ast_eq_bounded n) a1 e1 id e2) (same_contract a1 e1 (NVar id) e2).
Proof.
  intros Hf. apply decides_use_gas. intros g' ->.
  destruct (term_env_get (label id) e2) as [[a2 e2']|] eqn:Hx; [|apply decides_false].
  destruct (term_env_get_bound _ _ _ _ Hx). eapply decides_mono; [|by eapply sc_right].
  apply Hast; [done|lia|]. unfold fuel_for in *. lia.
Qed.

Lemma same_var_ok id1 id2 b :
  same_var env_ptr_eq id1 id2 e1 e2 = Some b → b = true →
  same_contract (NVar id1) e1 (NVar id2) e2.
Proof.
  unfold same_var. intros Hb ->.
  assert (bool_decide (id1 = id2) && env_ptr_eq e1 e2 = true → same_contract (NVar id1) e1 (NVar id2) e2)
    as Hsame.
  { intros [->%bool_decide_eq_true He%Henv_ptr]%andb_prop. rewrite He. apply sc_same. }
  destruct (term_env_get (label id1) e1) eqn:H1, (term_env_get (label id2) e2) eqn:H2;
    try (apply Hsame; by destruct (_ && _)).
  injection Hb as ->%bool_decide_eq_true. by apply sc_free.
Qed.

Lemma string_chunks_ok scs1 scs2 :
  decides c g (slice_eq chunk_eq scs1 scs2)
    (same_contract (NStringChunks scs1) e1 (NStringChunks scs2) e2).
Proof.
  eapply decides_mono.
  { apply decides_slice with (P := λ x y, ∃ s, x = AChunkLiteral s ∧ y = AChunkLiteral s).
    intros [s1|] [s2|] _; cbn; try apply decides_false.
    apply decides_ret. intros ->%bool_decide_eq_true. eauto. }
  intros [Hlen Hall].
  assert (scs1 = scs2 ∧ is_literal (NStringChunks scs1) = true) as [-> Hl].
  { cbn. revert scs2 Hlen Hall. induction scs1 as [|x l IH]; intros [|y l2]; try done.
    intros [= Hlen] Hall. destruct (Hall x y) as (s0 & -> & ->); [by left|].
    destruct (IH l2 Hlen) as [-> Hl]; [intros; apply Hall; by right|]. split; [done|]. exact Hl. }
  apply sc_literal. by rewrite Hl.
Qed.

Lemma node_ok a1 a2 :
  ast_size a1 + ast_size a2 ≤ s →
  decides c g
    (node_eq env_ptr_eq symbol_leb include_eq (ast_eq_bounded n) (utype_eq_bounded n) a1 e1 a2 e2)
    (same_contract a1 e1 a2 e2).
Proof.
  intros Hs.
  destruct a1, a2; try apply decides_false;
    try (apply right_ok; unfold fuel_for in *; cbn in *; lia);
    try (apply left_ok; unfold fuel_for in *; cbn in *; lia); cbn [node_eq];
    try (destruct op; first [apply decides_false|apply right_ok; unfold fuel_for in *; cbn in *; lia]).
  - apply decides_ret. intros _. by apply sc_literal.
  - apply decides_ret. intros ->%bool_decide_eq_true. by apply sc_literal.
  - apply decides_ret. intros ->%bool_decide_eq_true. by apply sc_literal.
  - apply decides_ret. intros ->%bool_decide_eq_true. by apply sc_literal.
  - apply string_chunks_ok.
  - eapply decides_mono.
    { apply decides_and; [apply sub_ast|intros _; apply sub_asts]; cbn in Hs |- *; lia. }
    intros [Hh [Hlen Hargs]]. by apply sc_app.
  - destruct (same_var env_ptr_eq id id0 e1 e2) as [b|] eqn:Hb.
    + apply decides_ret. by eapply same_var_ok.
    + apply left_ok. unfold fuel_for in *. cbn in *. lia.
  - eapply decides_bind.
    + apply decides_opt with (P := λ a1 a2, same_contract a1 e1 a2 e2).
      intros x y -> ->. apply sub_ast. cbn in Hs. lia.
    + intros b Hb. apply decides_ret. intros [->%bool_decide_eq_true ->]%andb_prop.
      destruct (Hb eq_refl) as [Hsome Harg].
      destruct arg as [x|], arg0 as [y|].
      * apply sc_variant. by apply Harg.
      * by destruct (proj1 Hsome ltac:(by eexists)).
      * by destruct (proj2 Hsome ltac:(by eexists)).
      * by apply sc_literal.
  - by apply sub_record.
  - eapply decides_mono; [apply sub_asts; cbn in Hs |- *; lia|]. intros [Hlen Hl]. by apply sc_array.
  - destruct op, op0; try apply decides_false. eapply decides_mono.
    { apply decides_guarded. intros _. apply sub_asts; cbn in Hs |- *; lia. }
    intros [->%bool_decide_eq_true [Hlen Hargs]]. by apply sc_access.
  - eapply decides_mono.
    { apply decides_and; [apply sub_annot|intros _; apply sub_ast]; cbn in Hs |- *; lia. }
    intros [Ha Hi]. by apply sc_annotated.
  - eapply decides_mono; [apply sub_type; cbn in Hs |- *; lia|]. apply sc_type.
Qed.

Lemma ast_step_ok a1 a2 :
  ast_size a1 + ast_size a2 ≤ s →
  decides c g
    (ast_eq_step ast_ptr_eq env_ptr_eq symbol_leb include_eq (ast_eq_bounded n) (utype_eq_bounded n)
       a1 e1 a2 e2)
    (same_contract a1 e1 a2 e2).
Proof.
  intros Hs. unfold ast_eq_step. destruct (_ && _) eqn:Hptr; [|by apply node_ok].
  apply andb_prop in Hptr as [->%Hast_ptr ->%Henv_ptr]. apply decides_ret. intros _. apply sc_same.
Qed.

End step.

Section utype_step.
Context (n c g s : nat).
Context (Hast : ast_ok n) (Hutype : utype_fuel_ok n) (Hfuel : fuel_for g s ≤ S n).

Lemma sub_utype t1 t2 :
  utype_ok B c t1 → utype_ok B c t2 → utype_size t1 + utype_size t2 < s →
  decides c g (utype_eq_bounded n t1 t2) (same_type t1 t2).
Proof. intros H1 H2 Hs. apply Hutype; [done..|]. unfold fuel_for in *. lia. Qed.

Lemma rrows_ok r1 r2 d1 d2 :
  urrows_ok B c r1 → urrows_ok B c r2 → urrows_size r1 + urrows_size r2 < s →
  decides c g (rrows_eq (utype_eq_bounded n) r1 r2)
    (same_type (TConcrete (UnifTypes.Record r1) d1) (TConcrete (UnifTypes.Record r2) d2)).
Proof.
  intros H1 H2 Hs. unfold rrows_eq.
  destruct (rrows_entries r1) as [es1|] eqn:He1, (rrows_entries r2) as [es2|] eqn:He2;
    try apply decides_false.
  eapply decides_mono.
  { apply decides_imap with (P := same_type). intros id t1 t2 Hin1 Hin2%im_get_in.
    apply im_extend_in in Hin1 as [Hin1|?%elem_of_nil]; [|done].
    apply im_extend_in in Hin2 as [Hin2|?%elem_of_nil]; [|done].
    destruct (rrows_entries_ok B c _ _ He1 H1 _ _ Hin1), (rrows_entries_ok B c _ _ He2 H2 _ _ Hin2).
    apply sub_utype; [done..|lia]. }
  intros [Hlen Hall]. by eapply st_record.
Qed.

Lemma erows_ok r1 r2 d1 d2 :
  uerows_ok B c r1 → uerows_ok B c r2 → uerows_size r1 + uerows_size r2 < s →
  decides c g (erows_eq (utype_eq_bounded n) r1 r2)
    (same_type (TConcrete (Enum r1) d1) (TConcrete (Enum r2) d2)).
Proof.
  intros H1 H2 Hs. unfold erows_eq.
  destruct (erows_entries r1) as [es1|] eqn:He1, (erows_entries r2) as [es2|] eqn:He2;
    try apply decides_false.
  eapply decides_mono.
  { apply decides_imap with (P := λ o1 o2, (is_Some o1 ↔ is_Some o2) ∧
      ∀ t1 t2, o1 = Some t1 → o2 = Some t2 → same_type t1 t2). intros id o1 o2 Hin1 Hin2%im_get_in.
    apply decides_opt. intros t1 t2 -> ->.
    apply im_extend_in in Hin1 as [Hin1|?%elem_of_nil]; [|done].
    apply im_extend_in in Hin2 as [Hin2|?%elem_of_nil]; [|done].
    destruct (erows_entries_ok B c _ _ He1 H1 _ _ Hin1), (erows_entries_ok B c _ _ He2 H2 _ _ Hin2).
    apply sub_utype; [done..|lia]. }
  intros [Hlen Hall]. by eapply st_enum.
Qed.

Lemma forall_ok v1 k1 b1 v2 k2 b2 d1 d2 :
  utype_ok B c b1 → utype_ok B c b2 → utype_size b1 + utype_size b2 < s →
  decides c g
    (cst_id ← fresh_cst_id;
     guarded (bool_decide (k1 = k2))
       (utype_eq_bounded n (subst b1 v1 (constant_of k1 cst_id)) (subst b2 v2 (constant_of k1 cst_id))))
    (same_type (TConcrete (UnifTypes.Forall v1 k1 b1) d1) (TConcrete (UnifTypes.Forall v2 k2 b2) d2)).
Proof.
  intros H1 H2 Hs st Hg Hc. set (i := var_uid st).
  apply (proj1 (utype_ok_mono B c i Hc)) in H1, H2.
  destruct (proj1 (subst_const_ok B i v1 k1) b1 H1) as [H1' Hs1].
  destruct (proj1 (subst_const_ok B i v2 k1) b2 H2) as [H2' Hs2].
  assert (decides (S i) g (guarded (bool_decide (k1 = k2))
       (utype_eq_bounded n (subst b1 v1 (constant_of k1 i)) (subst b2 v2 (constant_of k1 i))))
    (same_type (TConcrete (UnifTypes.Forall v1 k1 b1) d1) (TConcrete (UnifTypes.Forall v2 k2 b2) d2)))
    as Hd.
  { eapply decides_mono.
    { apply decides_guarded. intros _. apply Hutype; [done..|]. rewrite Hs1, Hs2.
      unfold fuel_for in *. lia. }
    intros [->%bool_decide_eq_true Hsame].
    eapply (st_forall (consts_below i)); [by eapply utype_ok_in..| |exact Hsame].
    destruct k2; constructor; done. }
  destruct (Hd (mkEqState (S i) (gas st))) as (b & st' & Heq & Hg' & Hc' & HP); cbn in *; [lia..|].
  exists b, st'. split; [exact Heq|]. split; [done|]. split; [lia|done].
Qed.

Lemma utype_step_ok t1 t2 :
  utype_ok B c t1 → utype_ok B c t2 → utype_size t1 + utype_size t2 ≤ s →
  decides c g (utype_eq_step (ast_eq_bounded n) (utype_eq_bounded n) t1 t2) (same_type t1 t2).
Proof.
  intros H1 H2 Hs. destruct t1 as [s1 d1|i1|], t2 as [s2 d2|i2|]; try apply decides_false; try done.
  2:{ apply decides_ret. intros ->%bool_decide_eq_true. apply st_const. }
  destruct s1, s2; try apply decides_false;
    try (apply decides_ret; intros _; by apply st_base); cbn [utype_eq_step]; cbn in H1, H2, Hs;
    try (by destruct t; apply decides_false); try (by destruct flavour; apply decides_false).
  - destruct t as [a1 e1], t0 as [a2 e2]. eapply decides_mono; [|apply st_contract].
    apply Hast; [done..|]. unfold fuel_for in *. lia.
  - eapply decides_mono.
    { apply decides_and; [apply sub_utype|intros _; apply sub_utype]; naive_solver lia. }
    intros []. by apply st_arrow.
  - apply forall_ok; [done..|lia].
  - apply erows_ok; [done..|lia].
  - apply rrows_ok; [done..|lia].
  - destruct flavour, flavour0; try apply decides_false;
      (eapply decides_mono; [apply sub_utype; [done..|lia]|apply st_dict]).
  - eapply decides_mono; [apply sub_utype; [done..|lia]|apply st_array].
  - apply decides_ret. intros ->%bool_decide_eq_true. by apply st_base.
Qed.

End utype_step.

(** With fuel for the gas and the sizes, the comparison returns. *)
Lemma bounded_ok n : ast_ok n ∧ utype_fuel_ok n.
Proof.
  induction n as [|n [IHa IHu]].
  - split; intros ???????; unfold fuel_for in *; intros; lia.
  - split.
    + intros c g a1 e1 a2 e2 He1 He2 Hf. cbn [TcEq.ast_eq_bounded].
      by apply (ast_step_ok n c g (ast_size a1 + ast_size a2)).
    + intros c g t1 t2 H1 H2 Hf. cbn [TcEq.utype_eq_bounded].
      by apply (utype_step_ok n c g (utype_size t1 + utype_size t2)).
Qed.

End sound.

(** ** Properties *)

(** The fuel that is enough for a comparison from a fresh state. *)
Definition type_eq_fuel (a1 : Ast) (e1 : TermEnv) (a2 : Ast) (e2 : TermEnv) : nat :=
  fuel_for (max (env_bound e1) (env_bound e2)) MAX_GAS (ast_size a1 + ast_size a2).


(** What unification is given: the comparison of two contracts with their environments,
    with enough fuel. *)
Definition contracts_equal `{IndexMapOps UnifTypes.Ident}
    (ast_ptr_eq : Ast → Ast → bool) (env_ptr_eq : TermEnv → TermEnv → bool)
    (symbol_leb : Values.Ident → Values.Ident → bool) (include_eq : Include → Include → bool)
    (c1 c2 : Ctr) : bool :=
  match type_eq ast_ptr_eq env_ptr_eq symbol_leb include_eq (type_eq_fuel c1.1 c1.2 c2.1 c2.2)
          c1.1 c1.2 c2.1 c2.2 with
  | Done b => b
  | _ => false
  end.

Definition no_ptr {A} (_ _ : A) : bool := false.

(** [let A = {b : Number, a : Dyn} in let B = A in ..]: [B] is [{a : Dyn, b : Number}]. *)
Definition alias_env : TermEnv :=
  let rec_b := NType (ATyRecord (ARRExtend (ident "b") ATyNumber (ARRExtend (ident "a") ATyDyn ARREmpty))) in
  term_env_insert "B" (NVar (ident "A"), term_env_insert "A" (rec_b, term_env_new) term_env_new)
    (term_env_insert "A" (rec_b, term_env_new) term_env_new).

Definition record_ab : Ast :=
  NType (ATyRecord (ARRExtend (ident "a") ATyDyn (ARRExtend (ident "b") ATyNumber ARREmpty))).


(** A chain of aliases: [let x = a in let x = x in .. x], where each definition is closed
    by the environment before it. *)
Fixpoint alias_chain (k : nat) (a : Ast) : Ast * TermEnv :=
  match k with
  | 0 => (a, term_env_new)
  | S k => (NVar (ident "x"), term_env_insert "x" (alias_chain k a) term_env_new)
  end.

Lemma term_env_get_insert id c env : term_env_get id (term_env_insert id c env) = Some c.
Proof. destruct env. cbn. by rewrite bool_decide_eq_true_2. Qed.

Lemma chunk_eq_refl chunks st :
  forallb (λ c, match c with AChunkLiteral _ => true | AChunkExpr _ _ => false end) chunks = true →
  slice_eq chunk_eq chunks chunks st = Done (true, st).
Proof.
  intros Hl. unfold slice_eq. rewrite Nat.eqb_refl. cbn [guarded].
  induction chunks as [|[s|] chunks IH]; [done| |done]. cbn in *.
  unfold and_then, mbind, EqM_bind. cbn. rewrite bool_decide_eq_true_2 by done. by apply IH.
Qed.

Section chain.
Context `{IndexMapOps UnifTypes.Ident}.
Context (ast_ptr_eq : Ast → Ast → bool) (env_ptr_eq : TermEnv → TermEnv → bool).
Context (symbol_leb : Values.Ident → Values.Ident → bool) (include_eq : Include → Include → bool).
Context (Hast_ptr : ∀ a1 a2, ast_ptr_eq a1 a2 = true → a1 = a2).

Abbreviation ast_eq_bounded := (ast_eq_bounded ast_ptr_eq env_ptr_eq symbol_leb include_eq).

Lemma literal_eq n a e1 e2 st :
  is_literal a → ast_eq_bounded (S n) a e1 a e2 st = Done (true, st).
Proof.
  intros Hl. cbn [TcEq.ast_eq_bounded]. unfold ast_eq_step.
  destruct (_ && _); [done|]. destruct a; cbn [is_literal] in Hl; try done; cbn [node_eq].
  - by rewrite bool_decide_eq_true_2.
  - by rewrite bool_decide_eq_true_2.
  - by rewrite bool_decide_eq_true_2.
  - apply chunk_eq_refl. by destruct (forallb _ _).
  - destruct arg; [done|]. cbn. unfold mbind, EqM_bind. cbn. by rewrite bool_decide_eq_true_2.
Qed.

Lemma chain_eq k a n st :
  is_literal a → k < n →
  ∃ st', ast_eq_bounded n (alias_chain k a).1 (alias_chain k a).2 a term_env_new st
         = Done (k <=? gas st, st').
Proof.
  intros Hl. revert n st. induction k as [|k IH]; intros [|n] st Hk; [lia| |lia|].
  - exists st. by apply literal_eq.
  - cbn [TcEq.ast_eq_bounded alias_chain fst snd]. unfold ast_eq_step.
    destruct (ast_ptr_eq (NVar "x") a) eqn:Hp; [by apply Hast_ptr in Hp as <-|]. cbn [andb].
    enough (∃ st', unfold_left (ast_eq_bounded n) (ident "x")
                     (term_env_insert "x" (alias_chain k a) term_env_new) a term_env_new st
                   = Done (S k <=? gas st, st')) as [st' Hst']
      by (exists st'; destruct a; done || exact Hst').
    unfold unfold_left, and_then, mbind, EqM_bind, use_gas.
    destruct st as [u [|g]]; cbn [gas var_uid]; [by eexists|]. cbn [mbind outcome_bind].
    destruct (IH n (mkEqState u g) ltac:(lia)) as [st' Hst']. exists st'.
    rewrite term_env_get_insert.
    destruct (alias_chain k a) as [a' e']. exact Hst'.
Qed.

End chain.

(** The gas bounds how far aliases are followed, exactly: an alias of an alias ... of a
    literal, [k] links away, is found equal to the literal if and only if [k] is at
    most [MAX_GAS]; with one link more the comparison answers [false]. *)
Theorem alias_chain_gas `{IndexMapOps UnifTypes.Ident}
    (ast_ptr_eq : Ast → Ast → bool) (env_ptr_eq : TermEnv → TermEnv → bool)
    (symbol_leb : Values.Ident → Values.Ident → bool) (include_eq : Include → Include → bool)
    (k : nat) (a : Ast) (n : nat) :
  (∀ a1 a2, ast_ptr_eq a1 a2 = true → a1 = a2) →
  is_literal a → k < n →
  type_eq ast_ptr_eq env_ptr_eq symbol_leb include_eq n
    (alias_chain k a).1 (alias_chain k a).2 a term_env_new = Done (k <=? MAX_GAS).
Proof.
  intros Hptr Hl Hk. unfold type_eq.
  destruct (chain_eq ast_ptr_eq env_ptr_eq symbol_leb include_eq Hptr k a n eq_state_new Hl Hk)
    as [st' ->]. done.
Qed.

Lemma alias_chain_gas_witness :
  type_eq no_ptr no_ptr no_ptr no_ptr 20 (alias_chain 12 NNull).1 (alias_chain 12 NNull).2 NNull
    term_env_new = Done true ∧
  type_eq no_ptr no_ptr no_ptr no_ptr 20 (alias_chain 13 NNull).1 (alias_chain 13 NNull).2 NNull
    term_env_new = Done false.
Proof.
  split; refine (alias_chain_gas no_ptr no_ptr no_ptr no_ptr _ NNull 20 _ _ _); done || lia.
Defined.

(** ** What it equates although it is not the same *)

Definition plain_metadata : AstFieldMetadata := mkAstFieldMetadata None (mkAnnotation None []) false false Neutral.
Definition contract_field (x : string) (t : Type_) : FieldDef :=
  mkFieldDef [PathIdent (ident x)] (mkAstFieldMetadata None (mkAnnotation None [t]) false false Neutral) None.
Definition value_field (x : string) (a : Ast) : FieldDef :=
  mkFieldDef [PathIdent (ident x)] plain_metadata (Some a).
Definition var_contract (x : string) : Type_ := ATyContract (NVar (ident x)).

(** [let X = Number in let Y = Number in ..] *)
Definition xy_env : TermEnv :=
  let number := (NType ATyNumber, term_env_new) in
  term_env_insert "Y" number (term_env_insert "X" number term_env_new).

(** The fields of a record are in the scope of its contracts, but not of the comparison:
    [{foo | X, Y = String}] and [{foo | Y, Y = String}] are found equal, while [foo] is a
    number in the first and a string in the second. *)
Example record_scope_ignored :
  type_eq no_ptr no_ptr no_ptr no_ptr 50
    (NRecord (mkRecord [] [contract_field "foo" (var_contract "X"); value_field "Y" (NType ATyString)] false))
    xy_env
    (NRecord (mkRecord [] [contract_field "foo" (var_contract "Y"); value_field "Y" (NType ATyString)] false))
    xy_env = Done true.
Proof. vm_compute. reflexivity. Qed.

(** The included fields are compared by name, whatever they are bound to:
    [{include x}] is found equal to [{include x}] where [x] is another value. *)
Example include_environment_ignored :
  type_eq no_ptr no_ptr no_ptr (λ _ _, true) 50
    (NRecord (mkRecord [mkInclude (ident "x") plain_metadata] [] false))
    (term_env_insert "x" (NType ATyNumber, term_env_new) term_env_new)
    (NRecord (mkRecord [mkInclude (ident "x") plain_metadata] [] false))
    (term_env_insert "x" (NType ATyString, term_env_new) term_env_new) = Done true.
Proof. vm_compute. reflexivity. Qed.

(** [ForeignId] is not equal to itself, and neither is a record type with a tail. *)
Example foreign_id_differs :
  type_eq no_ptr no_ptr no_ptr no_ptr 50 (NType ATyForeignId) term_env_new
    (NType ATyForeignId) term_env_new = Done false.
Proof. vm_compute. reflexivity. Qed.

Example open_record_differs :
  type_eq no_ptr no_ptr no_ptr no_ptr 50 (NType (ATyRecord ARRTailDyn)) term_env_new
    (NType (ATyRecord ARRTailDyn)) term_env_new = Done false.
Proof. vm_compute. reflexivity. Qed.
