(* ===== verification/Uniterm.v ===== *)
(** * The common syntax of terms and types ([parser/src/uniterm.rs])

    The parser builds uniterms where it cannot tell a term from a type yet, and
    converts them when the context decides. The variables of a type are then fixed:
    those that no enclosing [forall] binds become contracts, and each [forall] gets
    the kind of the occurrences of its variable, which are recorded in shared
    mutable cells. Positions are left out; an error that only differs by its span
    carries the path of the definition it points to. *)
From S2P Require Import Prelude IndexMap Values Records Make Ast.

(** ** Uniterms *)

Record UniRecord : Type := mkUniRecord {
  ur_fields : list FieldDef;
  ur_tail : option AstRecordRows;
  ur_includes : list Include;
  ur_open : bool;
}.

Inductive UniTermNode : Type :=
| UniVar (id : Ident)
| UniRec (r : UniRecord)
| UniTerm (a : Ast)
| UniType (t : Type_).

Inductive InvalidRecordTypeError : Type :=
| InvalidField (path : list FieldPathElem)
| IsOpen
| HasInclude
| InterpolatedField
| RepeatedField (id : Ident).

(** The errors of this file. *)
Inductive ParseError : Type :=
| InvalidContract
| InvalidRecordType (cause : InvalidRecordTypeError)
| TypedFieldWithoutDefinition (path : list FieldPathElem)
| TypeVariableKindMismatch (ty_var : Ident).

(** ** Cells for the kinds of variables *)

(** [VarKindCell]: the cells are shared by the copies of the environment. *)
Abbreviation Cells := (list (option VarKind)).
Abbreviation BoundVarEnv := (gmap Ident nat).

Definition FixM (A : Type) : Type := Cells → result (A * Cells) ParseError.

#[export] Instance FixM_ret : MRet FixM := λ A a cells, Ok (a, cells).
#[export] Instance FixM_bind : MBind FixM := λ A B f m cells,
  match m cells with Ok (a, cells) => f a cells | Err e => Err e end.

(** [VarKindCell::try_set], on the contents of the cell: equal kinds are the same
    kind with the same excluded names, whose union adds nothing. *)
Definition try_set (cell : option VarKind) (k : VarKind) : option VarKind :=
  match cell, k with
  | None, k => Some k
  | Some KindType, KindType => Some KindType
  | Some (KindRecordRows ex1), KindRecordRows ex2 => Some (KindRecordRows (ex1 ∪ ex2))
  | Some (KindEnumRows ex1), KindEnumRows ex2 => Some (KindEnumRows (ex1 ∪ ex2))
  | _, _ => None
  end.

Definition set_kind (env : BoundVarEnv) (id : Ident) (k : VarKind) : FixM unit := λ cells,
  match env !! id with
  | Some i =>
      match try_set (default None (cells !! i)) k with
      | Some k => Ok ((), <[i := Some k]> cells)
      | None => Err (TypeVariableKindMismatch id)
      end
  | None => Ok ((), cells)
  end.

(** [VarKindCell::new] *)
Definition new_cell : FixM nat := λ cells, Ok (length cells, cells ++ [None]).

(** [VarKindCell::take_var_kind] *)
Definition take_var_kind (i : nat) : FixM (option VarKind) := λ cells,
  Ok (default None (cells !! i), <[i := None]> cells).

(** ** [fix_type_vars_env]: [None] when nothing has changed *)

Fixpoint fix_type (env : BoundVarEnv) (t : Type_) : FixM (option Type_) :=
  match t with
  | ATyDyn | ATyNumber | ATyBool | ATyString | ATyForeignId | ATySymbol | ATyContract _
  | ATyDict _ FlavourContract | ATyWildcard _ => mret None
  | ATyArrow src tgt =>
      src_result ← fix_type env src;
      tgt_result ← fix_type env tgt;
      mret
        (match src_result, tgt_result with
         | None, None => None
         | _, _ => Some (ATyArrow (default src src_result) (default tgt tgt_result))
         end)
  | ATyVar id =>
      match env !! id with
      | Some _ => _ ← set_kind env id KindType; mret None
      | None => mret (Some (ATyContract (NVar id)))
      end
  | ATyForall var prev_var_kind body =>
      cell ← new_cell;
      body_fixed ← fix_type (<[var := cell]> env) body;
      kind ← take_var_kind cell;
      let var_kind := default KindType kind in
      mret
        (match body_fixed, var_kind, prev_var_kind with
         | None, KindType, KindType => None
         | _, _, _ => Some (ATyForall var var_kind (default body body_fixed))
         end)
  | ATyDict type_fields FlavourType =>
      r ← fix_type env type_fields; mret ((λ ty, ATyDict ty FlavourType) <$> r)
  | ATyArray t => r ← fix_type env t; mret (ATyArray <$> r)
  | ATyEnum erows => r ← fix_erows env ∅ erows; mret (ATyEnum <$> r)
  | ATyRecord rrows => r ← fix_rrows env ∅ rrows; mret (ATyRecord <$> r)
  end
(** [do_fix] for record rows *)
with fix_rrows (env : BoundVarEnv) (maybe_excluded : gset Ident) (r : AstRecordRows)
    : FixM (option AstRecordRows) :=
  match r with
  | ARREmpty | ARRTailDyn => mret None
  | ARRTailVar id => _ ← set_kind env id (KindRecordRows maybe_excluded); mret None
  | ARRExtend id typ tail =>
      row_fixed ← fix_type env typ;
      tail_fixed ← fix_rrows env ({[id]} ∪ maybe_excluded) tail;
      mret
        (match row_fixed, tail_fixed with
         | None, None => None
         | _, _ => Some (ARRExtend id (default typ row_fixed) (default tail tail_fixed))
         end)
  end
(** [do_fix] for enum rows: tags do not count for the excluded names *)
with fix_erows (env : BoundVarEnv) (maybe_excluded : gset Ident) (e : AstEnumRows)
    : FixM (option AstEnumRows) :=
  match e with
  | AEREmpty => mret None
  | AERTailVar id => _ ← set_kind env id (KindEnumRows maybe_excluded); mret None
  | AERExtend id typ tail =>
      row_fixed ← match typ with Some ty => fix_type env ty | None => mret None end;
      tail_fixed ←
        fix_erows env (match typ with Some _ => {[id]} ∪ maybe_excluded | None => maybe_excluded end)
          tail;
      mret
        (match row_fixed, tail_fixed with
         | None, None => None
         | _, _ =>
             Some (AERExtend id (match row_fixed with Some ty => Some ty | None => typ end)
                     (default tail tail_fixed))
         end)
  end.

(** [fix_type_vars_ref], [fix_type_vars] *)
Definition fix_type_vars_ref (t : Type_) : result (option Type_) ParseError :=
  match fix_type ∅ t [] with Ok (r, _) => Ok r | Err e => Err e end.

Definition fix_type_vars (t : Type_) : result Type_ ParseError :=
  match fix_type_vars_ref t with Ok r => Ok (default t r) | Err e => Err e end.

(** [fix_field_types] *)
Fixpoint fix_contracts (l : list Type_) : result (list Type_) ParseError :=
  match l with
  | [] => Ok []
  | ctr :: l =>
      let? ctr' := fix_type_vars ctr in
      let? l' := fix_contracts l in
      Ok (ctr' :: l')
  end.

Definition fix_field_types (m : AstFieldMetadata) : result AstFieldMetadata ParseError :=
  let annot := ast_annotation m in
  let? typ := (match ast_annot_typ annot with
               | Some t => let? t := fix_type_vars t in Ok (Some t)
               | None => Ok None
               end) in
  let? contracts := fix_contracts (ast_annot_contracts annot) in
  Ok (mkAstFieldMetadata (ast_doc m) (mkAnnotation typ contracts) (ast_opt m)
        (ast_not_exported m) (ast_priority m)).

(** ** Records *)

(** The shape of a field of a record type, with its type. *)
Definition record_type_field (d : FieldDef) : option Type_ :=
  match d with
  | mkFieldDef _ (mkAstFieldMetadata None (mkAnnotation (Some typ) []) false false Neutral) None =>
      Some typ
  | _ => None
  end.

(** [UniRecord::is_record_type] *)
Definition is_record_type (r : UniRecord) : bool :=
  forallb (λ d, (length (path d) =? 1)
                && match record_type_field d with Some _ => true | None => false end) (ur_fields r)
  && (length (ur_includes r) =? 0).

(** [UniRecord::into_type_strict]. The paths of the parser are not empty:
    [last().unwrap()] panics otherwise. *)
Definition strict_step (acc : AstRecordRows * gset Ident) (d : FieldDef)
    : outcome (result (AstRecordRows * gset Ident) InvalidRecordTypeError) :=
  if 1 <? length (path d) then Done (Err (InvalidField (path d)))
  else
    elem ← unwrap (last (path d));
    Done
      (match elem with
       | PathExpr _ => Err InterpolatedField
       | PathIdent id =>
           if decide (id ∈ acc.2) then Err (RepeatedField id)
           else
             match record_type_field d with
             | Some typ => Ok (ARRExtend id typ acc.1, {[id]} ∪ acc.2)
             | None => Err (InvalidField (path d))
             end
       end).

Fixpoint strict_fold (acc : AstRecordRows * gset Ident) (ds : list FieldDef)
    : outcome (result (AstRecordRows * gset Ident) InvalidRecordTypeError) :=
  match ds with
  | [] => Done (Ok acc)
  | d :: ds =>
      r ← strict_step acc d;
      match r with Ok acc => strict_fold acc ds | Err e => Done (Err e) end
  end.

Definition into_type_strict (r : UniRecord) : outcome (result Type_ InvalidRecordTypeError) :=
  if ur_open r then Done (Err IsOpen)
  else
    match ur_includes r with
    | _ :: _ => Done (Err InterpolatedField)
    | [] =>
        res ← strict_fold (default ARREmpty (ur_tail r), ∅) (rev (ur_fields r));
        Done (match res with Ok (rrows, _) => Ok (ATyRecord rrows) | Err e => Err e end)
    end.

Section convert.
Context `{IndexMapOps Ident}.

(** [UniRecord::check_typed_field_without_def]: a candidate, with its path, or a field
    known to be defined. *)
Inductive FieldState : Type := Candidate (path : list FieldPathElem) | Defined.

Definition is_typed_without_def (d : FieldDef) : bool :=
  match def_value d, ast_annot_typ (ast_annotation (def_metadata d)) with
  | None, Some _ => true
  | _, _ => false
  end.

(** [find_map] over the fields, with the map of candidates. *)
Fixpoint find_without_def (candidates : IndexMap Ident FieldState) (ds : list FieldDef)
    : option (list FieldPathElem) * IndexMap Ident FieldState :=
  match ds with
  | [] => (None, candidates)
  | d :: ds =>
      if is_typed_without_def d then
        match path_as_ident d with
        | Some id =>
            match im_get candidates id with
            | Some _ => find_without_def candidates ds
            | None => find_without_def (im_insert candidates id (Candidate (path d))) ds
            end
        | None => (Some (path d), candidates)
        end
      else
        match path_as_ident d, def_value d with
        | Some id, Some _ => find_without_def (im_insert candidates id Defined) ds
        | _, _ => find_without_def candidates ds
        end
  end.

Fixpoint first_candidate (candidates : IndexMap Ident FieldState) : option (list FieldPathElem) :=
  match candidates with
  | [] => None
  | (_, Candidate p) :: _ => Some p
  | (_, Defined) :: rest => first_candidate rest
  end.

Definition check_typed_field_without_def (r : UniRecord) : result unit ParseError :=
  let '(first_without_def, candidates) := find_without_def [] (ur_fields r) in
  match or_else first_without_def (first_candidate candidates) with
  | Some p => Err (TypedFieldWithoutDefinition p)
  | None => Ok ()
  end.

(** ** Conversions *)

Fixpoint fix_fields (ds : list FieldDef) : result (list FieldDef) ParseError :=
  match ds with
  | [] => Ok []
  | d :: ds =>
      let? m := fix_field_types (def_metadata d) in
      let? ds' := fix_fields ds in
      Ok (mkFieldDef (path d) m (def_value d) :: ds')
  end.

(** [TryConvert<UniRecord> for Ast] *)
Definition record_to_ast (r : UniRecord) : outcome (result Ast ParseError) :=
  if match ur_tail r with Some _ => true | None => false end
     || (is_record_type r && negb (length (ur_fields r) =? 0))
  then
    res ← into_type_strict r;
    Done
      (match res with
       | Err cause => Err (InvalidRecordType cause)
       | Ok typ => let? typ := fix_type_vars typ in Ok (NType typ)
       end)
  else
    Done
      (let? _ := check_typed_field_without_def r in
       let? field_defs := fix_fields (ur_fields r) in
       Ok (NRecord (mkRecord (ur_includes r) field_defs (ur_open r)))).

(** [TryConvert<UniRecord> for Type] *)
Definition record_to_type (r : UniRecord) : outcome (result Type_ ParseError) :=
  res ← into_type_strict r;
  match ur_tail r with
  | Some _ => Done (match res with Ok t => Ok t | Err cause => Err (InvalidRecordType cause) end)
  | None =>
      match res with
      | Ok t => Done (Ok t)
      | Err _ =>
          res ← record_to_ast r;
          Done (match res with Ok a => Ok (ATyContract a) | Err e => Err e end)
      end
  end.

(** [TryConvert<UniTerm> for Type] *)
Definition uniterm_to_type (u : UniTermNode) : outcome (result Type_ ParseError) :=
  match u with
  | UniVar id => Done (Ok (ATyVar id))
  | UniRec r => record_to_type r
  | UniType t => Done (Ok t)
  | UniTerm a =>
      Done
        (match a with
         | NNull | NBool _ | NNumber _ | NString _ | NArray _ | NEnumVariant _ _
         | NStringChunks _ => Err InvalidContract
         | _ => Ok (ATyContract a)
         end)
  end.

(** [TryConvert<UniTerm> for Ast] *)
Definition uniterm_to_ast (u : UniTermNode) : outcome (result Ast ParseError) :=
  match u with
  | UniVar id => Done (Ok (NVar id))
  | UniRec r => record_to_ast r
  | UniType t =>
      Done
        (let? t := fix_type_vars t in
         Ok (match t with ATyContract ctr => ctr | t => NType t end))
  | UniTerm a => Done (Ok a)
  end.

End convert.
