(* ===== verification/UnitermTheorems.v ===== *)
(** * Theorems on uniterms

    [fix_spec] is the stateless meaning of the fixing of type variables: a variable
    that is not bound becomes a contract, and a [forall] has the kind of all the
    occurrences of its variable, when they agree. Records are types exactly when all
    their fields are typed declarations with distinct static names. *)
From S2P Require Import Prelude IndexMap Values Records Make Ast Uniterm.

(** ** The reference *)

(** The kinds of a list of occurrences together; [None] when they disagree. *)
Definition merge_kinds (c : option VarKind) (ks : list VarKind) : option (option VarKind) :=
  foldl (λ acc k, c ← acc; Some <$> try_set c k) (Some c) ks.

(** The occurrences of [x] in the type layer, with the names they exclude. *)
Fixpoint occs (x : Ident) (t : Type_) : list VarKind :=
  match t with
  | ATyVar y => if decide (y = x) then [KindType] else []
  | ATyArrow a b => occs x a ++ occs x b
  | ATyForall y _ body => if decide (y = x) then [] else occs x body
  | ATyDict t FlavourType | ATyArray t => occs x t
  | ATyEnum e => occs_erows x ∅ e
  | ATyRecord r => occs_rrows x ∅ r
  | _ => []
  end
with occs_rrows (x : Ident) (ex : gset Ident) (r : AstRecordRows) : list VarKind :=
  match r with
  | ARREmpty | ARRTailDyn => []
  | ARRTailVar y => if decide (y = x) then [KindRecordRows ex] else []
  | ARRExtend id t r => occs x t ++ occs_rrows x ({[id]} ∪ ex) r
  end
with occs_erows (x : Ident) (ex : gset Ident) (e : AstEnumRows) : list VarKind :=
  match e with
  | AEREmpty => []
  | AERTailVar y => if decide (y = x) then [KindEnumRows ex] else []
  | AERExtend id (Some t) e => occs x t ++ occs_erows x ({[id]} ∪ ex) e
  | AERExtend id None e => occs_erows x ex e
  end.

Fixpoint fix_spec (D : gset Ident) (t : Type_) : option Type_ :=
  match t with
  | ATyVar x => Some (if decide (x ∈ D) then t else ATyContract (NVar x))
  | ATyArrow a b => a ← fix_spec D a; b ← fix_spec D b; Some (ATyArrow a b)
  | ATyForall x _ body =>
      body' ← fix_spec ({[x]} ∪ D) body;
      k ← merge_kinds None (occs x body);
      Some (ATyForall x (default KindType k) body')
  | ATyDict t FlavourType => t ← fix_spec D t; Some (ATyDict t FlavourType)
  | ATyArray t => t ← fix_spec D t; Some (ATyArray t)
  | ATyEnum e => e ← fix_spec_erows D e; Some (ATyEnum e)
  | ATyRecord r => r ← fix_spec_rrows D r; Some (ATyRecord r)
  | _ => Some t
  end
with fix_spec_rrows (D : gset Ident) (r : AstRecordRows) : option AstRecordRows :=
  match r with
  | ARRExtend id t r => t ← fix_spec D t; r ← fix_spec_rrows D r; Some (ARRExtend id t r)
  | _ => Some r
  end
with fix_spec_erows (D : gset Ident) (e : AstEnumRows) : option AstEnumRows :=
  match e with
  | AERExtend id (Some t) e =>
      t ← fix_spec D t; e ← fix_spec_erows D e; Some (AERExtend id (Some t) e)
  | AERExtend id None e => e ← fix_spec_erows D e; Some (AERExtend id None e)
  | _ => Some e
  end.

Lemma merge_kinds_fail ks :
  foldl (λ acc k, c ← acc; Some <$> try_set c k) (None : option (option VarKind)) ks = None.
Proof. induction ks; [done|]. exact IHks. Qed.

Lemma merge_kinds_app c l1 l2 :
  merge_kinds c (l1 ++ l2) = c ← merge_kinds c l1; merge_kinds c l2.
Proof.
  unfold merge_kinds. rewrite foldl_app.
  destruct (foldl _ (Some c) l1) as [c'|]; [done|]. by rewrite merge_kinds_fail.
Qed.

(** ** The cells *)

Definition cell_at (cells : Cells) (i : nat) : option VarKind := default None (cells !! i).

(** Distinct variables have distinct cells. *)
Record env_ok (env : BoundVarEnv) (cells : Cells) : Prop := {
  env_cells x i : env !! x = Some i → i < length cells;
  env_inj x y i : env !! x = Some i → env !! y = Some i → x = y;
}.

(** The effect of a run that goes through the occurrences [f]: each cell merges those
    of its variable, and nothing else changes. *)
Record ran (env : BoundVarEnv) (cells cells' : Cells) (f : Ident → list VarKind) : Prop := {
  ran_length : length cells ≤ length cells';
  ran_env x i : env !! x = Some i → merge_kinds (cell_at cells i) (f x) = Some (cell_at cells' i);
  ran_frame i : i < length cells → (∀ x, env !! x ≠ Some i) → cell_at cells' i = cell_at cells i;
}.

(** The occurrences [f] do not agree with what the cells have. *)
Definition clash (env : BoundVarEnv) (cells : Cells) (f : Ident → list VarKind) : Prop :=
  ∃ x i, env !! x = Some i ∧ merge_kinds (cell_at cells i) (f x) = None.

Definition fixes {A} (env : BoundVarEnv) (cells : Cells) (m : FixM A) (f : Ident → list VarKind)
    (fails : Prop) (Q : A → Prop) : Prop :=
  match m cells with
  | Ok (a, cells') => Q a ∧ ran env cells cells' f
  | Err _ => fails ∨ clash env cells f
  end.

Lemma ran_ok env cells cells' f : env_ok env cells → ran env cells cells' f → env_ok env cells'.
Proof.
  intros [Hc Hi] [Hl _ _]. split; [|exact Hi]. intros x i Hx. apply Hc in Hx. lia.
Qed.

Lemma ran_refl env cells : ran env cells cells (λ _, []).
Proof. by split. Qed.

Lemma ran_trans env cells cells1 cells2 f g :
  env_ok env cells → ran env cells cells1 f → ran env cells1 cells2 g →
  ran env cells cells2 (λ x, f x ++ g x).
Proof.
  intros Hok [Hl1 He1 Hf1] [Hl2 He2 Hf2]. split; [lia|..].
  - intros x i Hx. rewrite merge_kinds_app, (He1 x i Hx). by apply He2.
  - intros i Hi Hne. rewrite Hf2, Hf1; [done..|lia|done].
Qed.

Lemma fixes_ret {A} env cells (a : A) (Q : A → Prop) fails :
  Q a → fixes env cells (mret a) (λ _, []) fails Q.
Proof. intros HQ. split; [done|apply ran_refl]. Qed.

Lemma fixes_bind {A B} env cells (m : FixM A) (k : A → FixM B) f g (F1 F2 : Prop) Q1 Q2 :
  env_ok env cells → fixes env cells m f F1 Q1 →
  (∀ a cells1, env_ok env cells1 → Q1 a → fixes env cells1 (k a) g F2 Q2) →
  fixes env cells (m ≫= k) (λ x, f x ++ g x) (F1 ∨ F2) Q2.
Proof.
  intros Hok Hm Hk. unfold fixes, mbind, FixM_bind in *.
  destruct (m cells) as [[a cells1]|e].
  - destruct Hm as [HQ Hran]. pose proof (ran_ok _ _ _ _ Hok Hran) as Hok1.
    specialize (Hk a cells1 Hok1 HQ). destruct (k a cells1) as [[b cells2]|e].
    + destruct Hk as [HQ2 Hran2]. split; [done|]. by eapply ran_trans.
    + destruct Hk as [HF|(x & i & Hx & Hmerge)]; [by left; right|]. right.
      exists x, i. split; [done|]. by rewrite merge_kinds_app, (ran_env _ _ _ _ Hran x i Hx).
  - destruct Hm as [HF|(x & i & Hx & Hmerge)]; [by left; left|]. right.
    exists x, i. split; [done|]. by rewrite merge_kinds_app, Hmerge.
Qed.

Lemma fixes_mono {A} env cells (m : FixM A) f (F F' : Prop) (Q Q' : A → Prop) :
  fixes env cells m f F Q → (F → F') → (∀ a, Q a → Q' a) → fixes env cells m f F' Q'.
Proof.
  unfold fixes. intros Hm HF HQ. destruct (m cells) as [[a cells']|e]; [destruct Hm; auto|].
  destruct Hm; auto.
Qed.

(** The occurrences only matter one by one. *)
Lemma fixes_ext {A} env cells (m : FixM A) f g (F : Prop) (Q : A → Prop) :
  (∀ x, f x = g x) → fixes env cells m f F Q → fixes env cells m g F Q.
Proof.
  unfold fixes. intros Heq Hm. destruct (m cells) as [[a cells']|e].
  - destruct Hm as [HQ [Hl He Hf]]. split; [done|]. split; [done| |done].
    intros x i Hx. rewrite <- Heq. by apply He.
  - destruct Hm as [HF|(x & i & Hx & Hmerge)]; [by left|]. right. exists x, i. by rewrite <- Heq.
Qed.

Lemma cell_at_insert cells i j k :
  i < length cells → cell_at (<[i := k]> cells) j = if decide (i = j) then k else cell_at cells j.
Proof.
  intros Hi. unfold cell_at. case_decide as Hij.
  - subst j. by rewrite list_lookup_insert_eq.
  - by rewrite list_lookup_insert_ne.
Qed.

Lemma set_kind_fixes env cells id k :
  env_ok env cells →
  fixes env cells (set_kind env id k) (λ x, if decide (id = x) then [k] else []) False (λ _, True).
Proof.
  intros Hok. unfold fixes, set_kind. destruct (env !! id) as [i|] eqn:Hid.
  - pose proof (env_cells _ _ Hok id i Hid) as Hi. change (default None (cells !! i)) with (cell_at cells i).
    destruct (try_set (cell_at cells i) k) as [k'|] eqn:Hset.
    + split; [done|]. split.
      * by rewrite length_insert.
      * intros x j Hx. rewrite cell_at_insert by done. case_decide as Hx'.
        -- subst x. simplify_eq. rewrite decide_True by done. unfold merge_kinds. cbn. by rewrite Hset.
        -- rewrite decide_False; [done|]. intros ->. apply Hx'. by eapply (env_inj _ _ Hok).
      * intros j Hj Hne. rewrite cell_at_insert by done. rewrite decide_False; [done|].
        intros ->. by apply (Hne id).
    + right. exists id, i. split; [done|]. rewrite decide_True by done.
      unfold merge_kinds. cbn. by rewrite Hset.
  - split; [done|]. split; [done| |done]. intros x j Hx. rewrite decide_False; [done|congruence].
Qed.

(** ** The fixing of variables computes the reference *)

Definition type_ok (t : Type_) : Prop := ∀ env cells, env_ok env cells →
  fixes env cells (fix_type env t) (λ x, occs x t)
    (fix_spec (dom env) t = None) (λ o, fix_spec (dom env) t = Some (default t o)).
Definition rrows_ok (r : AstRecordRows) : Prop := ∀ ex env cells, env_ok env cells →
  fixes env cells (fix_rrows env ex r) (λ x, occs_rrows x ex r)
    (fix_spec_rrows (dom env) r = None) (λ o, fix_spec_rrows (dom env) r = Some (default r o)).
Definition erows_ok (e : AstEnumRows) : Prop := ∀ ex env cells, env_ok env cells →
  fixes env cells (fix_erows env ex e) (λ x, occs_erows x ex e)
    (fix_spec_erows (dom env) e = None) (λ o, fix_spec_erows (dom env) e = Some (default e o)).

(** A node with one child. *)
Lemma child_fixes {A B} env cells (m : FixM (option A)) (wrap : A → B) f (F F' : Prop)
    (Q : option A → Prop) (Q' : option B → Prop) :
  env_ok env cells → fixes env cells m f F Q → (F → F') → (∀ o, Q o → Q' (wrap <$> o)) →
  fixes env cells (r ← m; mret (wrap <$> r)) f F' Q'.
Proof.
  intros Hok Hm HF HQ. eapply fixes_ext; [|eapply fixes_mono].
  2:{ eapply fixes_bind; [done|exact Hm|]. intros o cells1 _ Ho.
      apply fixes_ret with (fails := False). exact (HQ o Ho). }
  - intros x. apply app_nil_r.
  - intros [?|[]]; auto.
  - done.
Qed.

(** A node with two children. *)
Lemma children_fixes {A B C} env cells (m : FixM (option A)) (m' : FixM (option B))
    (k : option A → option B → C) f g F F' (Q1 : option A → Prop) (Q2 : option B → Prop) (Q : C → Prop) :
  env_ok env cells → fixes env cells m f F Q1 →
  (∀ cells, env_ok env cells → fixes env cells m' g F' Q2) →
  (∀ o o', Q1 o → Q2 o' → Q (k o o')) →
  fixes env cells (a ← m; b ← m'; mret (k a b)) (λ x, f x ++ g x) (F ∨ F') Q.
Proof.
  intros Hok Hm Hm' HQ. eapply fixes_bind; [done|exact Hm|]. intros o cells1 Hok1 Ho.
  eapply fixes_ext; [|eapply fixes_mono].
  2:{ eapply fixes_bind; [done|by apply Hm'|]. intros o' cells2 _ Ho'.
      apply fixes_ret with (fails := False). exact (HQ o o' Ho Ho'). }
  - intros x. apply app_nil_r.
  - intros [?|[]]; done.
  - done.
Qed.

Lemma env_ok_new env cells x :
  env_ok env cells → env_ok (<[x := length cells]> env) (cells ++ [None]).
Proof.
  intros [Hc Hi]. split.
  - intros y i. rewrite length_app. cbn. intros [[_ <-]|[_ Hy]]%lookup_insert_Some; [lia|].
    apply Hc in Hy. lia.
  - intros y z i [[<- <-]|[Hy Hy']]%lookup_insert_Some [[<- Hz]|[Hz Hz']]%lookup_insert_Some; try done.
    + apply Hc in Hz'. lia.
    + subst i. apply Hc in Hy'. lia.
    + by eapply Hi.
Qed.

Lemma cell_at_new cells i : cell_at (cells ++ [None]) i = cell_at cells i.
Proof.
  unfold cell_at. destruct (decide (i < length cells)).
  - by rewrite lookup_app_l.
  - rewrite lookup_app_r, (lookup_ge_None_2 cells) by lia.
    destruct (i - length cells) as [|[]]; done.
Qed.

Lemma forall_fixes var prev body : type_ok body → type_ok (ATyForall var prev body).
Proof.
  intros IH env cells Hok. specialize (IH _ _ (env_ok_new env cells var Hok)).
  unfold fixes in *. cbn [fix_type]. unfold mbind, FixM_bind, new_cell, take_var_kind, mret, FixM_ret.
  rewrite dom_insert_L in IH. cbn [fix_spec].
  destruct (fix_type (<[var:=length cells]> env) body (cells ++ [None])) as [[o cells1]|e].
  - destruct IH as [Hspec [Hl He Hf]]. rewrite length_app in Hl. cbn in Hl.
    pose proof (He var (length cells) (lookup_insert_eq _ _ _)) as Hvar.
    rewrite cell_at_new in Hvar. unfold cell_at in Hvar at 1.
    rewrite (lookup_ge_None_2 cells) in Hvar by lia. cbn [default] in Hvar.
    change (default None (cells1 !! length cells)) with (cell_at cells1 (length cells)). split.
    + rewrite Hspec. cbn. rewrite Hvar. cbn.
      destruct o, (default KindType (cell_at cells1 (length cells))) eqn:Hk; try done.
      by destruct prev.
    + split.
      * rewrite length_insert. lia.
      * intros x i Hx. pose proof (env_cells _ _ Hok x i Hx).
        rewrite cell_at_insert by lia. rewrite decide_False by lia. cbn [occs]. case_decide as Hxv.
        -- subst x. cbn. f_equal. symmetry. rewrite <- (cell_at_new cells i). apply Hf; [rewrite length_app; cbn; lia|].
           intros y [[_ ?]|[Hne Hy]]%lookup_insert_Some; [lia|].
           apply Hne. by eapply (env_inj _ _ Hok).
        -- rewrite <- (cell_at_new cells i). apply He. by rewrite lookup_insert_ne.
      * intros i Hi Hne. rewrite cell_at_insert by lia. rewrite decide_False by lia.
        rewrite <- (cell_at_new cells i). apply Hf; [rewrite length_app; cbn; lia|].
        intros y [[_ ?]|[_ Hy]]%lookup_insert_Some; [lia|]. by apply (Hne y).
  - destruct IH as [Hspec|(x & i & Hx & Hmerge)]; [left; by rewrite Hspec|].
    apply lookup_insert_Some in Hx as [[<- <-]|[Hne Hx]].
    + left. rewrite cell_at_new in Hmerge. unfold cell_at in Hmerge.
      rewrite (lookup_ge_None_2 cells) in Hmerge by lia. cbn [default] in Hmerge.
      rewrite Hmerge. by destruct (fix_spec _ body).
    + right. exists x, i. split; [done|]. cbn [occs]. rewrite decide_False by done.
      by rewrite <- (cell_at_new cells i).
Qed.

Lemma leaf_fixes env cells t :
  (∀ x, occs x t = []) → fix_spec (dom env) t = Some t → fix_type env t = mret None →
  fixes env cells (fix_type env t) (λ x, occs x t)
    (fix_spec (dom env) t = None) (λ o, fix_spec (dom env) t = Some (default t o)).
Proof.
  intros Ho Hs ->. eapply fixes_ext; [|by apply fixes_ret]. intros x. by rewrite Ho.
Qed.

Lemma set_kind_none {B} env cells id k f F (Q : option B → Prop) :
  env_ok env cells → (∀ x, f x = if decide (id = x) then [k] else []) → Q None →
  fixes env cells (_ ← set_kind env id k; mret (None : option B)) f F Q.
Proof.
  intros Hok Hf HQ. eapply fixes_ext; [|eapply fixes_mono].
  2:{ eapply fixes_bind; [done|by apply set_kind_fixes|]. intros _ cells1 _ _.
      apply fixes_ret with (fails := False). exact HQ. }
  - intros x. rewrite Hf. apply app_nil_r.
  - intros [[]|[]].
  - done.
Qed.

Lemma fix_type_ok t : type_ok t
with fix_rrows_ok r : rrows_ok r
with fix_erows_ok e : erows_ok e.
Proof.
  - destruct t as [| | | | | |a|a b|y|y k body|e|r|t []|t|w]; intros env cells Hok;
      try (by apply leaf_fixes).
    + eapply fixes_mono; [eapply children_fixes; [done|by apply (fix_type_ok a)|by apply (fix_type_ok b)|] |..].
      * intros o o' Ho Ho'. cbn in Ho, Ho'.
        instantiate (1 := λ o, fix_spec (dom env) (ATyArrow a b) = Some (default (ATyArrow a b) o)).
        cbn. rewrite Ho, Ho'. by destruct o, o'.
      * cbn. intros [-> | ->]; [done|]. by destruct (fix_spec (dom env) a).
      * done.
    + cbn [fix_type fix_spec]. destruct (env !! y) as [i|] eqn:Hy.
      * apply set_kind_none; [done|done|].
        rewrite decide_True; [done|]. apply elem_of_dom. by eexists.
      * assert (y ∉ dom env) as Hd by (by apply not_elem_of_dom).
        unfold fixes. split.
        -- by rewrite decide_False.
        -- split; [done| |done]. intros x j Hx. cbn [occs]. rewrite decide_False by congruence. done.
    + by apply forall_fixes.
    + eapply child_fixes; [done|by apply fix_erows_ok|cbn; by intros ->|].
      intros o Ho. cbn in *. rewrite Ho. by destruct o.
    + eapply child_fixes; [done|by apply fix_rrows_ok|cbn; by intros ->|].
      intros o Ho. cbn in *. rewrite Ho. by destruct o.
    + eapply (child_fixes _ _ (fix_type env t) (λ ty, ATyDict ty FlavourType));
        [done|by apply (fix_type_ok t)|cbn; by intros ->|].
      intros o Ho. cbn in *. rewrite Ho. by destruct o.
    + eapply (child_fixes _ _ (fix_type env t) ATyArray); [done|by apply (fix_type_ok t)|cbn; by intros ->|].
      intros o Ho. cbn in *. rewrite Ho. by destruct o.
  - destruct r as [|id t r|id|]; intros ex env cells Hok; cbn [fix_rrows fix_spec_rrows].
    + by apply fixes_ret.
    + eapply fixes_mono; [eapply children_fixes;
        [done|by apply (fix_type_ok t)|intros; by apply (fix_rrows_ok r)|] |..].
      * intros o o' Ho Ho'. cbn in Ho, Ho'.
        instantiate (1 := λ o, fix_spec_rrows (dom env) (ARRExtend id t r)
                               = Some (default (ARRExtend id t r) o)).
        cbn. rewrite Ho, Ho'. by destruct o, o'.
      * cbn. intros [-> | ->]; [done|]. by destruct (fix_spec (dom env) t).
      * done.
    + by apply set_kind_none.
    + by apply fixes_ret.
  - destruct e as [|id [t|] e|id]; intros ex env cells Hok; cbn [fix_erows fix_spec_erows].
    + by apply fixes_ret.
    + eapply fixes_mono; [eapply children_fixes;
        [done|by apply (fix_type_ok t)|intros; by apply (fix_erows_ok e)|] |..].
      * intros o o' Ho Ho'. cbn in Ho, Ho'.
        instantiate (1 := λ o, fix_spec_erows (dom env) (AERExtend id (Some t) e)
                               = Some (default (AERExtend id (Some t) e) o)).
        cbn. rewrite Ho, Ho'. by destruct o, o'.
      * cbn. intros [-> | ->]; [done|]. by destruct (fix_spec (dom env) t).
      * done.
    + eapply fixes_ext; [|eapply fixes_mono; [eapply children_fixes;
        [done|by apply fixes_ret with (fails := False) (Q := λ o, o = None)
        |intros; by apply (fix_erows_ok e)|] |..]].
      * done.
      * intros o o' -> Ho'. cbn in Ho'.
        instantiate (1 := λ o, fix_spec_erows (dom env) (AERExtend id None e)
                               = Some (default (AERExtend id None e) o)).
        cbn. rewrite Ho'. by destruct o'.
      * cbn. intros [[]| ->]. done.
      * done.
    + by apply set_kind_none.
Qed.

Lemma fix_type_vars_eq t :
  match fix_type_vars t with Ok t' => fix_spec ∅ t = Some t' | Err _ => fix_spec ∅ t = None end.
Proof.
  assert (env_ok ∅ []) as Hok.
  { split; [intros x i Hx|intros x y i Hx]; by rewrite lookup_empty in Hx. }
  pose proof (fix_type_ok t ∅ [] Hok) as Hfix. rewrite dom_empty_L in Hfix.
  unfold fix_type_vars, fix_type_vars_ref, fixes in *.
  destruct (fix_type ∅ t []) as [[o cells]|e]; [by destruct Hfix|].
  destruct Hfix as [Hs|(x & i & Hx & _)]; [done|by rewrite lookup_empty in Hx].
Qed.

(** ** Fixing again changes nothing *)

Definition stable_type (t : Type_) : Prop := ∀ D t', fix_spec D t = Some t' →
  (∀ x, x ∈ D → occs x t' = occs x t) ∧ fix_spec D t' = Some t'.
Definition stable_rrows (r : AstRecordRows) : Prop := ∀ D r', fix_spec_rrows D r = Some r' →
  (∀ x ex, x ∈ D → occs_rrows x ex r' = occs_rrows x ex r) ∧ fix_spec_rrows D r' = Some r'.
Definition stable_erows (e : AstEnumRows) : Prop := ∀ D e', fix_spec_erows D e = Some e' →
  (∀ x ex, x ∈ D → occs_erows x ex e' = occs_erows x ex e) ∧ fix_spec_erows D e' = Some e'.

Lemma fix_type_stable t : stable_type t
with fix_rrows_stable r : stable_rrows r
with fix_erows_stable e : stable_erows e.
Proof.
  - destruct t as [| | | | | |a|a b|y|y k body|e|r|t []|t|w]; intros D t' Ht; cbn in Ht;
      try (simplify_eq; split; [done|reflexivity]).
    + apply bind_Some in Ht as (a' & Ha & (b' & Hb & [= <-])%bind_Some).
      destruct (fix_type_stable a D a' Ha) as [Hoa Hsa], (fix_type_stable b D b' Hb) as [Hob Hsb].
      split; [intros x Hx; cbn; by rewrite Hoa, Hob|]. cbn. by rewrite Hsa, Hsb.
    + injection Ht as <-. case_decide as Hy; [split; [done|cbn; by rewrite decide_True]|].
      split; [|done]. intros x Hx. cbn. rewrite decide_False; [done|congruence].
    + apply bind_Some in Ht as (body' & Hb & (k' & Hk & [= <-])%bind_Some).
      destruct (fix_type_stable body _ body' Hb) as [Ho Hs]. split.
      * intros x Hx. cbn. case_decide; [done|]. apply Ho. set_solver.
      * cbn. rewrite Hs, Ho by set_solver. cbn. by rewrite Hk.
    + apply bind_Some in Ht as (e' & He & [= <-]). destruct (fix_erows_stable e D e' He) as [Ho Hs].
      split; [intros x Hx; cbn; by apply Ho|]. cbn. by rewrite Hs.
    + apply bind_Some in Ht as (r' & Hr & [= <-]). destruct (fix_rrows_stable r D r' Hr) as [Ho Hs].
      split; [intros x Hx; cbn; by apply Ho|]. cbn. by rewrite Hs.
    + apply bind_Some in Ht as (u & Hu & [= <-]). destruct (fix_type_stable t D u Hu) as [Ho Hs].
      split; [intros x Hx; cbn; by apply Ho|]. cbn. by rewrite Hs.
    + apply bind_Some in Ht as (u & Hu & [= <-]). destruct (fix_type_stable t D u Hu) as [Ho Hs].
      split; [intros x Hx; cbn; by apply Ho|]. cbn. by rewrite Hs.
  - destruct r as [|id t r|id|]; intros D r' Hr; cbn in Hr; try (simplify_eq; split; [done|reflexivity]).
    apply bind_Some in Hr as (t' & Ht & (r'' & Hr & [= <-])%bind_Some).
    destruct (fix_type_stable t D t' Ht) as [Hot Hst], (fix_rrows_stable r D r'' Hr) as [Hor Hsr].
    split; [intros x ex Hx; cbn; by rewrite Hot, Hor|]. cbn. by rewrite Hst, Hsr.
  - destruct e as [|id [t|] e|id]; intros D e' He; cbn in He; try (simplify_eq; split; [done|reflexivity]).
    + apply bind_Some in He as (t' & Ht & (e'' & He & [= <-])%bind_Some).
      destruct (fix_type_stable t D t' Ht) as [Hot Hst], (fix_erows_stable e D e'' He) as [Hoe Hse].
      split; [intros x ex Hx; cbn; by rewrite Hot, Hoe|]. cbn. by rewrite Hst, Hse.
    + apply bind_Some in He as (e'' & He & [= <-]). destruct (fix_erows_stable e D e'' He) as [Hoe Hse].
      split; [intros x ex Hx; cbn; by rewrite Hoe|]. cbn. by rewrite Hse.
Qed.


(** ** Record types *)

Definition record_rows (fs : list (Ident * Type_)) (tail : AstRecordRows) : AstRecordRows :=
  foldr (λ f, ARRExtend f.1 f.2) tail fs.

(** The definition [d] is the declaration of the field [f]. *)
Definition declares (d : FieldDef) (f : Ident * Type_) : Prop :=
  path d = [PathIdent f.1] ∧ record_type_field d = Some f.2.

Lemma strict_step_ok acc d acc' :
  strict_step acc d = Done (Ok acc') ↔
  ∃ f, declares d f ∧ f.1 ∉ acc.2 ∧ acc' = (ARRExtend f.1 f.2 acc.1, {[f.1]} ∪ acc.2).
Proof.
  unfold strict_step, declares. split.
  - destruct (path d) as [|elem [|]] eqn:Hp; try done. cbn.
    destruct elem as [id|]; [|done]. case_decide as Hid; [done|].
    destruct (record_type_field d) as [typ|] eqn:Ht; [|done]. intros [= <-]. by exists (id, typ).
  - intros ([id typ] & [-> Ht] & Hid & ->). cbn in *. rewrite decide_False by done. by rewrite Ht.
Qed.

Lemma strict_fold_ok ds acc acc' :
  strict_fold acc ds = Done (Ok acc') ↔
  ∃ fs, Forall2 declares ds fs ∧ NoDup fs.*1 ∧ (∀ id, id ∈ fs.*1 → id ∉ acc.2) ∧
        acc' = (record_rows (rev fs) acc.1, list_to_set fs.*1 ∪ acc.2).
Proof.
  revert acc. induction ds as [|d ds IH]; intros acc; cbn [strict_fold].
  - split.
    + intros [= <-]. exists []. split_and!; [constructor|constructor|by intros ? ?%elem_of_nil|].
      destruct acc. cbn. f_equal. set_solver.
    + intros (fs & ->%Forall2_nil_inv_l & _ & _ & ->). destruct acc. cbn. do 3 f_equal. set_solver.
  - split.
    + intros ([acc1|] & Hstep & Hrest)%bind_Done; [|done].
      apply strict_step_ok in Hstep as (f & Hf & Hid & ->).
      apply IH in Hrest as (fs & Hfs & Hnd & Hdis & ->). exists (f :: fs). cbn.
      split_and!; [by constructor|..].
      * constructor; [|done]. intros Hin. apply Hdis in Hin. set_solver.
      * intros id [->|Hin]%elem_of_cons; [done|]. apply Hdis in Hin. set_solver.
      * f_equal; [|set_solver]. unfold record_rows. by rewrite foldr_app.
    + intros (fs & (f & fs' & Hf & Hfs & ->)%Forall2_cons_inv_l & Hnd & Hdis & ->).
      cbn in Hnd. apply NoDup_cons in Hnd as [Hnin Hnd].
      assert (strict_step acc d = Done (Ok (ARRExtend f.1 f.2 acc.1, {[f.1]} ∪ acc.2))) as ->.
      { apply strict_step_ok. exists f. split; [done|]. split; [apply Hdis; by left|done]. }
      cbn [mbind outcome_bind]. apply IH. exists fs'. cbn. split_and!; [done|done|..].
      * intros id Hin. assert (id ∉ acc.2) by (apply Hdis; by right). set_solver.
      * f_equal; [|set_solver]. unfold record_rows. by rewrite foldr_app.
Qed.

Lemma rev_NoDup_names (fs : list (Ident * Type_)) : NoDup fs.*1 → NoDup (rev fs).*1.
Proof.
  intros Hnd. apply (NoDup_Permutation_proper (rev fs).*1 fs.*1); [|done].
  apply fmap_Permutation. symmetry. apply Permutation_rev.
Qed.

Lemma rev_declares ds fs : Forall2 declares ds fs → Forall2 declares (rev ds) (rev fs).
Proof. intros Hfs. rewrite !rev_alt. by apply Forall2_reverse. Qed.

Lemma into_type_strict_ok r t :
  into_type_strict r = Done (Ok t) ↔
  ur_open r = false ∧ ur_includes r = [] ∧
  ∃ fs, Forall2 declares (ur_fields r) fs ∧ NoDup fs.*1 ∧
        t = ATyRecord (record_rows fs (default ARREmpty (ur_tail r))).
Proof.
  unfold into_type_strict. destruct (ur_open r); [by split; [|intros [[=] _]]|].
  destruct (ur_includes r) as [|i incls]; [|by split; [|intros (_ & [=] & _)]]. split.
  - intros ([[rrows seen]|] & Hfold & [= <-])%bind_Done. split; [done|]. split; [done|].
    apply strict_fold_ok in Hfold as (fs & Hfs%rev_declares & Hnd & _ & [= -> _]).
    rewrite rev_involutive in Hfs. exists (rev fs). eauto using rev_NoDup_names.
  - intros (_ & _ & fs & Hfs & Hnd & ->).
    assert (strict_fold (default ARREmpty (ur_tail r), ∅) (rev (ur_fields r)) =
            Done (Ok (record_rows fs (default ARREmpty (ur_tail r)), list_to_set (rev fs).*1 ∪ ∅))) as ->.
    { apply strict_fold_ok. exists (rev fs). rewrite rev_involutive.
      split_and!; [by apply rev_declares|by apply rev_NoDup_names|set_solver|done]. }
    done.
Qed.

Lemma declared_is_record_type r t : into_type_strict r = Done (Ok t) → is_record_type r = true.
Proof.
  intros (_ & Hi & fs & Hfs & _ & _)%into_type_strict_ok. unfold is_record_type. rewrite Hi, andb_true_r.
  apply forallb_forall. intros d Hd%list_elem_of_In.
  apply list_elem_of_lookup in Hd as [i Hd].
  destruct (Forall2_lookup_l _ _ _ _ _ Hfs Hd) as (f & _ & [Hp Ht]). by rewrite Hp, Ht.
Qed.

(** ** Typed fields without a definition *)

Section typed_fields.
Context `{!IndexMapOps Ident, !IndexMapLaws Ident}.

(** Some definition of the field [id] has a value. *)
Definition has_value (id : Ident) (ds : list FieldDef) : Prop :=
  ∃ d, d ∈ ds ∧ path_as_ident d = Some id ∧ is_Some (def_value d).

#[export] Instance has_value_dec id ds : Decision (has_value id ds).
Proof.
  refine (cast_if (decide (List.Exists (λ d, path_as_ident d = Some id ∧ is_Some (def_value d)) ds)));
    unfold has_value; rewrite <- Exists_exists; done.
Defined.

Lemma im_get_nil {V} (id : Ident) : im_get ([] : IndexMap Ident V) id = None.
Proof. apply im_get_none; [apply NoDup_nil_2|]. by intros ?%elem_of_nil. Qed.

(** What becomes of the entry of [id] when the loop reads [d]. *)
Definition state_after (id : Ident) (s : option FieldState) (d : FieldDef) : option FieldState :=
  if decide (path_as_ident d = Some id) then
    if is_typed_without_def d then
      match s with Some s => Some s | None => Some (Candidate (path d)) end
    else match def_value d with Some _ => Some Defined | None => s end
  else s.

Lemma find_step_get c d :
  im_ok c → (is_typed_without_def d = true → is_Some (path_as_ident d)) →
  ∃ c1, im_ok c1 ∧ (∀ id, im_get c1 id = state_after id (im_get c id) d) ∧
        ∀ ds, find_without_def c (d :: ds) = find_without_def c1 ds.
Proof.
  intros Hok Hsome. unfold state_after. cbn [find_without_def].
  assert (∀ i s, path_as_ident d = Some i →
    im_ok (im_insert c i s) ∧ ∀ id, im_get (im_insert c i s) id =
      if decide (path_as_ident d = Some id) then Some s else im_get c id) as Hins.
  { intros i s Hi. destruct (im_insert_get c i s Hok) as (Hok1 & Hget & Hother). split; [done|].
    intros id. case_decide; [by simplify_eq|]. apply Hother. congruence. }
  destruct (is_typed_without_def d).
  - destruct (Hsome eq_refl) as [i Hi]. destruct (im_get c i) as [s|] eqn:Hg.
    + exists c. rewrite Hi, Hg. split_and!; [done| |done].
      intros id. case_decide; [|done]. simplify_eq. by rewrite Hg.
    + destruct (Hins i (Candidate (path d)) Hi) as [Hok1 Hget]. rewrite Hi, Hg in *.
      eexists. split; [exact Hok1|]. split; [|done]. intros id. rewrite Hget.
      case_decide; [|done]. simplify_eq. by rewrite Hg.
  - destruct (path_as_ident d) as [i|] eqn:Hi.
    + destruct (def_value d) as [v|] eqn:Hv.
      * destruct (Hins i Defined eq_refl) as [Hok1 Hget]. eauto.
      * exists c. split_and!; [done| |done]. intros id. by case_decide.
    + exists c. split_and!; [done| |done]. intros id. by rewrite decide_False.
Qed.

Lemma find_without_def_none c ds c' :
  im_ok c → find_without_def c ds = (None, c') →
  im_ok c' ∧ (∀ id, im_get c' id = foldl (state_after id) (im_get c id) ds) ∧
  (∀ d, d ∈ ds → is_typed_without_def d = true → is_Some (path_as_ident d)).
Proof.
  revert c. induction ds as [|d ds IH]; intros c Hok.
  { intros [= <-]. split_and!; [done|done|]. by intros d ?%elem_of_nil. }
  intros Hfind. assert (is_typed_without_def d = true → is_Some (path_as_ident d)) as Hd.
  { intros Ht. cbn in Hfind. rewrite Ht in Hfind. destruct (path_as_ident d); [done|]. congruence. }
  destruct (find_step_get c d Hok Hd) as (c1 & Hok1 & Hget & Heq).
  rewrite Heq in Hfind. destruct (IH c1 Hok1 Hfind) as (Hok' & Hall & Htyped). split_and!; [done|..].
  - intros id. cbn. by rewrite <- Hget.
  - intros d' [->|Hin]%elem_of_cons; [done|by apply Htyped].
Qed.

Lemma find_without_def_some c ds p c' :
  find_without_def c ds = (Some p, c') →
  ∃ d, d ∈ ds ∧ is_typed_without_def d = true ∧ path_as_ident d = None ∧ path d = p.
Proof.
  revert c. induction ds as [|d ds IH]; intros c; [done|]. cbn.
  destruct (is_typed_without_def d) eqn:Ht, (path_as_ident d) as [id|] eqn:Hid; try done.
  - destruct (im_get c id); intros (d' & ? & ?)%IH; exists d'; (split; [by right|done]).
  - intros [= <- <-]. exists d. split; [left|done].
  - destruct (def_value d); intros (d' & ? & ?)%IH; exists d'; (split; [by right|done]).
  - intros (d' & ? & ?)%IH; exists d'; (split; [by right|done]).
Qed.

(** The state at the end: [Defined] when some definition has a value, else the first
    typed definition. *)
Lemma fold_defined id ds : foldl (state_after id) (Some Defined) ds = Some Defined.
Proof.
  induction ds as [|d ds IH]; [done|]. cbn. unfold state_after at 2.
  case_decide; [|done]. by destruct (is_typed_without_def d), (def_value d).
Qed.

Lemma fold_has_value id ds s : has_value id ds → foldl (state_after id) s ds = Some Defined.
Proof.
  intros (d & Hd & Hid & v & Hv). revert s.
  induction ds as [|d' ds IH]; intros s; [by apply elem_of_nil in Hd|].
  apply elem_of_cons in Hd as [->|Hd]; [|by apply IH]. cbn. unfold state_after at 2.
  rewrite decide_True by done. unfold is_typed_without_def. rewrite Hv. apply fold_defined.
Qed.

Lemma state_after_no_value id s d :
  (path_as_ident d = Some id → def_value d = None) →
  state_after id s d =
    if bool_decide (path_as_ident d = Some id) && is_typed_without_def d
    then Some (default (Candidate (path d)) s) else s.
Proof.
  intros Hd. unfold state_after. case_decide as Hid; [|by rewrite bool_decide_eq_false_2].
  rewrite bool_decide_eq_true_2, (Hd Hid) by done. by destruct (is_typed_without_def d), s.
Qed.

Lemma fold_no_value id ds s :
  ¬ has_value id ds →
  match foldl (state_after id) s ds with
  | Some st =>
      s = Some st ∨
      (∃ d, d ∈ ds ∧ is_typed_without_def d = true ∧ path_as_ident d = Some id ∧ st = Candidate (path d))
  | None =>
      s = None ∧ ∀ d, d ∈ ds → path_as_ident d = Some id → is_typed_without_def d = false
  end.
Proof.
  revert s. induction ds as [|d ds IH]; intros s Hno; cbn.
  { destruct s; [by left|]. split; [done|]. by intros d ?%elem_of_nil. }
  assert (¬ has_value id ds) as Hno'.
  { intros (d' & Hin & Hd'). apply Hno. exists d'. split; [by right|done]. }
  specialize (IH (state_after id s d) Hno'). rewrite state_after_no_value in *.
  2, 3: intros Hid; destruct (def_value d) as [v|] eqn:Hv; [|done]; destruct Hno;
        exists d; (split_and!; [left|done|by eexists]).
  case_bool_decide as Hid; destruct (is_typed_without_def d) eqn:Ht; cbn in *;
    destruct (foldl _ _ ds) as [st|]; setoid_rewrite elem_of_cons; destruct s; naive_solver.
Qed.

Lemma first_candidate_some (c : IndexMap Ident FieldState) p :
  first_candidate c = Some p → ∃ id, (id, Candidate p) ∈ c.
Proof.
  induction c as [|[id []] c IH]; [done| |]; cbn.
  - intros [= ->]. exists id. left.
  - intros (id' & Hin)%IH. exists id'. by right.
Qed.

Lemma first_candidate_none (c : IndexMap Ident FieldState) id p :
  first_candidate c = None → (id, Candidate p) ∉ c.
Proof.
  induction c as [|[id' []] c IH]; [by intros _ ?%elem_of_nil|done|]; cbn.
  intros Hn [[=]|Hin]%elem_of_cons. by apply IH.
Qed.

Definition typed_field_ok (ds : list FieldDef) (d : FieldDef) : Prop :=
  is_typed_without_def d = true → ∃ id, path_as_ident d = Some id ∧ has_value id ds.

(** A record literal is accepted by the check exactly when each field that has a
    type but no value is a single static name that another definition gives a value,
    before it or after it; a rejection points to a field that has none. *)
Theorem typed_field_without_def_exact r :
  match check_typed_field_without_def r with
  | Ok _ => ∀ d, d ∈ ur_fields r → typed_field_ok (ur_fields r) d
  | Err e => ∃ d, d ∈ ur_fields r ∧ ¬ typed_field_ok (ur_fields r) d ∧
               e = TypedFieldWithoutDefinition (path d)
  end.
Proof.
  unfold check_typed_field_without_def, typed_field_ok.
  destruct (find_without_def [] (ur_fields r)) as [[p|] c] eqn:Hfind; cbn [or_else].
  - apply find_without_def_some in Hfind as (d & Hin & Ht & Hid & <-). exists d.
    split_and!; [done| |done]. intros (id & Hid' & _)%(λ H, H Ht). congruence.
  - apply find_without_def_none in Hfind as (Hok & Hget & Htyped); [|apply NoDup_nil_2].
    destruct (first_candidate c) as [p|] eqn:Hfirst.
    + apply first_candidate_some in Hfirst as (id & Hin). apply im_get_elem in Hin; [|done].
      rewrite Hget, im_get_nil in Hin. assert (¬ has_value id (ur_fields r)) as Hno.
      { intros Hv. by rewrite fold_has_value in Hin. }
      pose proof (fold_no_value id (ur_fields r) None Hno) as Hfold. rewrite Hin in Hfold.
      destruct Hfold as [[=]|(d & Hd & Ht & Hid & [= ->])]. exists d. split_and!; [done| |done].
      intros (id' & Hid' & Hv)%(λ H, H Ht). rewrite Hid in Hid'. by injection Hid' as <-.
    + intros d Hin Ht. destruct (Htyped d Hin Ht) as [id Hid]. exists id. split; [done|].
      destruct (has_value_dec id (ur_fields r)) as [|Hno]; [done|exfalso].
      pose proof (fold_no_value id (ur_fields r) None Hno) as Hfold.
      pose proof (Hget id) as Hst. rewrite im_get_nil in Hst. rewrite <- Hst in Hfold.
      destruct (im_get c id) as [st|] eqn:Hg.
      * destruct Hfold as [[=]|(d' & _ & _ & _ & ->)]. apply im_get_in in Hg.
        by apply (first_candidate_none c id (path d')) in Hfirst.
      * destruct Hfold as [_ Hfold]. rewrite (Hfold d Hin Hid) in Ht. done.
Qed.

(** ** The two readings of a record *)

Lemma strict_fold_done acc ds :
  (∀ d, d ∈ ds → path d ≠ []) → ∃ res, strict_fold acc ds = Done res.
Proof.
  revert acc. induction ds as [|d ds IH]; intros acc Hpath; cbn; [by eexists|].
  assert (path d ≠ []) as Hd by (apply Hpath; left). unfold strict_step.
  destruct (1 <? length (path d)); [by eexists|].
  destruct (last (path d)) as [elem|] eqn:Hlast; [|by apply last_None in Hlast].
  cbn. destruct elem as [id|]; [|by eexists]. case_decide; [by eexists|].
  destruct (record_type_field d); [|by eexists]. apply IH. intros d' Hd'. apply Hpath. by right.
Qed.

Lemma into_type_strict_done r :
  (∀ d, d ∈ ur_fields r → path d ≠ []) → ∃ res, into_type_strict r = Done res.
Proof.
  intros Hpath. unfold into_type_strict. destruct (ur_open r); [by eexists|].
  destruct (ur_includes r); [|by eexists].
  destruct (strict_fold_done (default ARREmpty (ur_tail r), ∅) (rev (ur_fields r))) as [res ->].
  { intros d Hd%list_elem_of_In%in_rev%list_elem_of_In. by apply Hpath. }
  by eexists.
Qed.

Lemma record_to_ast_done r :
  (∀ d, d ∈ ur_fields r → path d ≠ []) → ∃ res, record_to_ast r = Done res.
Proof.
  intros Hpath. unfold record_to_ast.
  destruct (_ || _)%bool; [|by eexists].
  destruct (into_type_strict_done r Hpath) as [res ->]. by eexists.
Qed.

(** The conversions of a record do not panic when no path is empty, which the
    grammar ensures: each of the two readings returns a value or a parse error. *)
Theorem record_conversions_total r :
  (∀ d, d ∈ ur_fields r → path d ≠ []) →
  (∃ res, uniterm_to_ast (UniRec r) = Done res) ∧ (∃ res, uniterm_to_type (UniRec r) = Done res).
Proof.
  intros Hpath. split; [by apply record_to_ast_done|]. cbn. unfold record_to_type.
  destruct (into_type_strict_done r Hpath) as [res ->]. cbn.
  destruct (ur_tail r); [by eexists|]. destruct res; [by eexists|].
  destruct (record_to_ast_done r Hpath) as [res ->]. by eexists.
Qed.

Lemma into_type_strict_record r t :
  into_type_strict r = Done (Ok t) → ∃ rows, t = ATyRecord rows.
Proof. intros (_ & _ & fs & _ & _ & ->)%into_type_strict_ok. by eexists. Qed.


(** The two readings of a record agree. When it reads as a contract, it reads as
    that term; when it reads as a record type, the term is that type once its
    variables are fixed, except for [{}], which is the empty record. *)
Theorem record_readings_agree r t :
  record_to_type r = Done (Ok t) →
  record_to_ast r = Done
    (match t with
     | ATyContract a => Ok a
     | _ => match ur_fields r, ur_tail r with
            | [], None => Ok (NRecord (mkRecord [] [] false))
            | _, _ => let? t' := fix_type_vars t in Ok (NType t')
            end
     end).
Proof.
  unfold record_to_type. intros (res & Hstrict & Hres)%bind_Done.
  destruct res as [u|e].
  - destruct (into_type_strict_record r u Hstrict) as [rows ->].
    pose proof (declared_is_record_type r _ Hstrict) as His.
    assert (t = ATyRecord rows) as -> by (destruct (ur_tail r); congruence).
    unfold record_to_ast. rewrite His.
    destruct (ur_tail r) as [tl|]; cbn [orb]; [rewrite Hstrict; by destruct (ur_fields r)|].
    destruct (ur_fields r) as [|d ds] eqn:Hf; cbn [length Nat.eqb negb andb]; [|by rewrite Hstrict].
    apply into_type_strict_ok in Hstrict as (Ho & Hi & _). rewrite Ho, Hi.
    unfold check_typed_field_without_def. by rewrite Hf.
  - destruct (ur_tail r); [done|]. apply bind_Done in Hres as ([a|] & Ha & [= <-]). done.
Qed.

End typed_fields.

(** ** Examples *)

Definition x_name : Ident := "x"%string.
Definition a_var : Ident := "a"%string.
Definition r_var : Ident := "r"%string.
Definition no_metadata (t : option Type_) : AstFieldMetadata :=
  mkAstFieldMetadata None (mkAnnotation t []) false false Neutral.

(** [{x : a}], as a type and as a term *)
Definition x_decl : UniRecord :=
  mkUniRecord [mkFieldDef [PathIdent x_name] (no_metadata (Some (ATyVar a_var))) None] None [] false.

Example record_readings_agree_witness :
  record_to_ast x_decl =
  Done (Ok (NType (ATyRecord (ARRExtend x_name (ATyContract (NVar a_var)) ARREmpty)))).
Proof.
  exact (record_readings_agree x_decl (ATyRecord (ARRExtend x_name (ATyVar a_var) ARREmpty)) eq_refl).
Defined.

(** [forall r. {x : r; r}] has no kind, and [forall r. {x : Number; r} -> {; r}] is
    over rows without [x]. *)
Example kinds_of_rows :
  fix_type_vars (ATyForall r_var KindType (ATyRecord (ARRExtend x_name (ATyVar r_var) (ARRTailVar r_var))))
    = Err (TypeVariableKindMismatch r_var) ∧
  fix_type_vars (ATyForall r_var KindType
    (ATyArrow (ATyRecord (ARRExtend x_name ATyNumber (ARRTailVar r_var))) (ATyRecord (ARRTailVar r_var))))
    = Ok (ATyForall r_var (KindRecordRows {[x_name]})
        (ATyArrow (ATyRecord (ARRExtend x_name ATyNumber (ARRTailVar r_var))) (ATyRecord (ARRTailVar r_var)))).
Proof. split; vm_compute; reflexivity. Qed.

(** [{x : Number, x : Number}] has the shape of a record type and is none. *)
Example record_type_with_repeated_field :
  let d := mkFieldDef [PathIdent x_name] (no_metadata (Some ATyNumber)) None in
  let r := mkUniRecord [d; d] None [] false in
  is_record_type r = true ∧ into_type_strict r = Done (Err (RepeatedField x_name)) ∧
  record_to_ast r = Done (Err (InvalidRecordType (RepeatedField x_name))).
Proof. split_and!; vm_compute; reflexivity. Qed.

(** [{x : a}] has no value for [x]. *)
Example typed_field_without_def_exact_witness :
  ∃ d, d ∈ ur_fields x_decl ∧ ¬ typed_field_ok (ur_fields x_decl) d ∧
       check_typed_field_without_def x_decl = Err (TypedFieldWithoutDefinition (path d)).
Proof.
  destruct (typed_field_without_def_exact x_decl) as (d & Hd & Hno & _).
  exists d. split; [exact Hd|]. split; [exact Hno|].
  apply list_elem_of_singleton in Hd as ->. reflexivity.
Defined.
