(* ===== verification/ParserUtils.v ===== *)
(** * Companion code of the grammar ([parser/src/utils.rs])

    The delimiters of strings, the indentation of multi-line strings, operators as
    functions, record accesses and let blocks. Strings are lists of bytes: the code
    only tests for ASCII characters, which no byte of another character is. *)
From Stdlib Require Import Ascii.
From stdpp Require Import strings pretty.
From S2P Require Import Prelude IndexMap Values Records Make Ast Pattern.

(** ** Delimiters *)

Inductive StringStartDelimiter : Type :=
| StartStandard
| StartMultiline
| StartSymbolic (prefix : string).

Inductive StringEndDelimiter : Type := EndStandard | EndSpecial.

(** [StringStartDelimiter::is_closed_by] *)
Definition is_closed_by (start : StringStartDelimiter) (close : StringEndDelimiter) : bool :=
  match start, close with
  | StartStandard, EndStandard | StartMultiline, EndSpecial | StartSymbolic _, EndSpecial => true
  | _, _ => false
  end.

(** [StringStartDelimiter::needs_strip_indent] *)
Definition needs_strip_indent (start : StringStartDelimiter) : bool :=
  match start with StartStandard => false | StartMultiline | StartSymbolic _ => true end.

(** ** Operators as functions *)

Inductive ExtendedInfixOp : Type := ReverseApp | NotEqual.

Definition x_arg : Ident := ident "x".
Definition y_arg : Ident := ident "y".

(** [Pattern::any], [fun!] with several arguments *)
Definition pattern_any (id : Ident) : Pattern := mkPattern (PatAny id) None.
Definition fun_of (args : list Ident) (body : Ast) : Ast := NFun (map pattern_any args) body.

(** [format!("x{i}")] *)
Definition x_numbered (i : nat) : Ident := ident ("x" ++ pretty i).

(** [InfixOp::eta_expand] *)
Definition infix_eta_expand (op : PrimOp) : Ast :=
  match op with
  | PBoolAnd | PBoolOr =>
      fun_of [x_arg; y_arg] (NApp (NPrimOpApp op [NVar x_arg]) [NVar y_arg])
  | PRecordGet => fun_of [x_arg; y_arg] (NPrimOpApp op [NVar y_arg; NVar x_arg])
  | _ =>
      let vars := map x_numbered (seq 0 (primop_arity op)) in
      fun_of vars (NPrimOpApp op (map NVar vars))
  end.

(** [ExtendedInfixOp::eta_expand] *)
Definition extended_eta_expand (op : ExtendedInfixOp) : Ast :=
  match op with
  | ReverseApp => fun_of [x_arg; y_arg] (NApp (NVar y_arg) [NVar x_arg])
  | NotEqual =>
      fun_of [x_arg; y_arg]
        (NPrimOpApp PBoolNot [NPrimOpApp PEq [NVar x_arg; NVar y_arg]])
  end.

(** ** Annotations, accesses and let blocks *)

(** [CombineAlloc] for [LetMetadata] *)
Definition let_metadata_combine (left right : LetMetadata) : LetMetadata :=
  mkLetMetadata (merge_doc (let_doc left) (let_doc right))
    (ast_annot_combine (let_annotation left) (let_annotation right)).

(** [AttachToAst] for [Annotation] *)
Definition attach_to_ast (annot : Annotation) (ast : Ast) : Ast :=
  match annot with mkAnnotation None [] => ast | _ => NAnnotated annot ast end.

(** [mk_access] *)
Definition mk_access (access root : Ast) : Ast :=
  match ast_static_str access with
  | Some label => NPrimOpApp (PRecordStatAccess (ident label)) [root]
  | None => NPrimOpApp PRecordGet [access; root]
  end.

Definition binding_pattern (b : LetBinding) : Pattern := let 'mkLetBinding p _ _ := b in p.

(** The loop of [mk_let]: the first name already seen. *)
Fixpoint duplicate_binding (seen_bindings : gset Ident) (bs : list LetBinding) : option Ident :=
  match bs with
  | [] => None
  | b :: bs =>
      let new_bindings := bound_ids (binding_pattern b) in
      match find (λ id, bool_decide (id ∈ seen_bindings)) new_bindings with
      | Some id => Some id
      | None => duplicate_binding (list_to_set new_bindings ∪ seen_bindings) bs
      end
  end.

Inductive MkLetError : Type := DuplicateIdentInLetBlock (id : Ident).

Definition mk_let (rec : bool) (bs : list LetBinding) (body : Ast) : result Ast MkLetError :=
  match duplicate_binding ∅ bs with
  | Some id => Err (DuplicateIdentInLetBlock id)
  | None => Ok (NLet bs body rec)
  end.

(** ** Indentation *)

Definition newline : ascii := "010"%char.
Definition tab : ascii := "009"%char.
Definition is_blank (c : ascii) : bool := (c =? " ")%char || (c =? tab)%char.

(** The state of [min_indent]; [min] is [None] for [usize::MAX], which is above the
    indentation of any line in memory. *)
Record MinState : Type := mkMinState {
  ms_min : option nat;
  ms_current : nat;
  ms_start_line : bool;
}.

Definition below_min (current : nat) (min : option nat) : bool :=
  match min with Some m => current <? m | None => true end.

Definition lower_min (st : MinState) : MinState :=
  mkMinState (if below_min (ms_current st) (ms_min st) then Some (ms_current st) else ms_min st)
    (ms_current st) false.

Definition min_char (st : MinState) (c : ascii) : MinState :=
  if is_blank c && ms_start_line st then mkMinState (ms_min st) (S (ms_current st)) true
  else if (c =? newline)%char then mkMinState (ms_min st) 0 true
  else if ms_start_line st then lower_min st
  else st.

Definition min_chunk (st : MinState) (chunk : StringChunk) : MinState :=
  match chunk with
  | AChunkExpr _ _ => if ms_start_line st then lower_min st else st
  | AChunkLiteral s => foldl min_char st (String.list_ascii_of_string s)
  end.

(** [min_indent] *)
Definition min_indent (chunks : list StringChunk) : option nat :=
  ms_min (foldl min_chunk (mkMinState None 0 true) chunks).

(** The state of [strip_indent], next to the chunks. *)
Record StripState : Type := mkStripState {
  ss_current : nat;
  ss_start_line : bool;
  ss_unindent : list nat;
  ss_expr_on_line : option nat;
}.

(** One character: what is pushed to the buffer. *)
Definition strip_char (min : option nat) (st : StripState) (c : ascii)
    : list ascii * StripState :=
  let 'mkStripState current start_line unindent expr_on_line := st in
  if is_blank c && start_line then
    (if below_min current min then [] else [c],
     mkStripState (S current) start_line unindent expr_on_line)
  else if (c =? newline)%char then ([c], mkStripState 0 true unindent None)
  else ([c], mkStripState current false unindent expr_on_line).

Fixpoint strip_chars (min : option nat) (st : StripState) (cs : list ascii)
    : list ascii * StripState :=
  match cs with
  | [] => ([], st)
  | c :: cs =>
      let '(out, st) := strip_char min st c in
      let '(outs, st) := strip_chars min st cs in
      (out ++ outs, st)
  end.

(** [find('\n')], [rfind('\n')]: what is before and after. *)
Fixpoint find_newline (cs : list ascii) : option (list ascii * list ascii) :=
  match cs with
  | [] => None
  | c :: cs =>
      if (c =? newline)%char then Some ([], cs)
      else '(before, after) ← find_newline cs; Some (c :: before, after)
  end.

Fixpoint rfind_newline (cs : list ascii) : option (list ascii * list ascii) :=
  match cs with
  | [] => None
  | c :: cs =>
      match rfind_newline cs with
      | Some (before, after) => Some (c :: before, after)
      | None => if (c =? newline)%char then Some ([], cs) else None
      end
  end.

Definition strip_first_line (buffer : list ascii) : list ascii :=
  match find_newline buffer with
  | Some (before, after) => if forallb is_blank before then after else buffer
  | None => buffer
  end.

Definition strip_last_line (buffer : list ascii) : list ascii :=
  match rfind_newline buffer with
  | Some (before, after) => if forallb is_blank after then before else buffer
  | None => buffer
  end.

Definition strip_chunk (min : option nat) (chunks_len index : nat) (st : StripState)
    (chunk : StringChunk) : outcome (StringChunk * StripState) :=
  match chunk with
  | AChunkLiteral s =>
      let '(buffer, st) := strip_chars min st (String.list_ascii_of_string s) in
      let buffer := if index =? 0 then strip_first_line buffer else buffer in
      let buffer := if index =? chunks_len - 1 then strip_last_line buffer else buffer in
      Done (AChunkLiteral (String.string_of_list_ascii buffer), st)
  | AChunkExpr e indent =>
      let 'mkStripState current start_line unindent expr_on_line := st in
      if start_line then
        _ ← assert (negb (below_min current min));
        _ ← assert (match expr_on_line with None => true | Some _ => false end);
        m ← unwrap min;
        Done (AChunkExpr e (current - m), mkStripState current false unindent (Some index))
      else
        match expr_on_line with
        | Some expr_index =>
            Done (chunk, mkStripState current start_line (unindent ++ [expr_index]) None)
        | None => Done (chunk, st)
        end
  end.

Fixpoint strip_chunks (min : option nat) (chunks_len index : nat) (st : StripState)
    (chunks : list StringChunk) : outcome (list StringChunk * StripState) :=
  match chunks with
  | [] => Done ([], st)
  | chunk :: chunks =>
      '(chunk, st) ← strip_chunk min chunks_len index st chunk;
      '(chunks, st) ← strip_chunks min chunks_len (S index) st chunks;
      Done (chunk :: chunks, st)
  end.

(** The last pass: the indentation of these chunks is erased. *)
Fixpoint erase_indents (unindent : list nat) (chunks : list StringChunk)
    : outcome (list StringChunk) :=
  match unindent with
  | [] => Done chunks
  | index :: unindent =>
      match chunks !! index with
      | Some (AChunkExpr e _) => erase_indents unindent (<[index := AChunkExpr e 0]> chunks)
      | _ => Panic
      end
  end.

(** [strip_indent] *)
Definition strip_indent (chunks : list StringChunk) : outcome (list StringChunk) :=
  match chunks with
  | [] => Done []
  | _ =>
      '(stripped, st) ←
        strip_chunks (min_indent chunks) (length chunks) 0 (mkStripState 0 true [] None) chunks;
      erase_indents (ss_unindent st) stripped
  end.
