(* ===== verification/ParserUtilsTheorems.v ===== *)
(** * Theorems on the companion code of the grammar

    [strip_indent] never panics and keeps the chunks, and on a string without
    interpolation it works line by line, as [unindented] says; let blocks are refused
    exactly when two bindings share a name. *)
From Stdlib Require Import Ascii.
From stdpp Require Import strings.
From S2P Require Import Prelude IndexMap Values Records Make Ast Pattern ParserUtils.

(** ** [strip_indent] does not panic *)

(** [a] is at most [b]. *)
Definition min_le (a b : option nat) : Prop :=
  match b with Some b => ∃ a', a = Some a' ∧ a' ≤ b | None => True end.

Lemma min_le_refl a : min_le a a.
Proof. destruct a; cbn; eauto. Qed.

Lemma min_le_trans a b c : min_le a b → min_le b c → min_le a c.
Proof. destruct c; cbn; [|done]. intros Hab (b' & -> & ?). destruct Hab as (a' & -> & ?). eauto with lia. Qed.

Lemma lower_min_le st : min_le (ms_min (lower_min st)) (ms_min st).
Proof.
  unfold lower_min. destruct (below_min _ _) eqn:Hb; cbn; [|apply min_le_refl].
  destruct (ms_min st) as [m|]; [|done]. cbn in *. apply Nat.ltb_lt in Hb. exists (ms_current st). split; [done|lia].
Qed.

Lemma lower_min_current st : min_le (ms_min (lower_min st)) (Some (ms_current st)).
Proof.
  unfold lower_min. destruct (below_min _ _) eqn:Hb; cbn; [eauto|].
  destruct (ms_min st) as [m|]; [|done]. cbn in *. apply Nat.ltb_ge in Hb. eauto.
Qed.

Lemma min_char_le st c : min_le (ms_min (min_char st c)) (ms_min st).
Proof.
  unfold min_char. destruct (_ && _); [apply min_le_refl|]. destruct (c =? newline)%char; [apply min_le_refl|].
  destruct (ms_start_line st); [apply lower_min_le|apply min_le_refl].
Qed.

Lemma fold_min_le {A} (f : MinState → A → MinState) (l : list A) st :
  (∀ st a, min_le (ms_min (f st a)) (ms_min st)) → min_le (ms_min (foldl f st l)) (ms_min st).
Proof.
  intros Hf. revert st. induction l as [|a l IH]; intros st; [apply min_le_refl|].
  eapply min_le_trans; [apply IH|apply Hf].
Qed.

Lemma min_chunk_le st chunk : min_le (ms_min (min_chunk st chunk)) (ms_min st).
Proof.
  destruct chunk as [s|e i]; cbn; [apply fold_min_le, min_char_le|].
  destruct (ms_start_line st); [apply lower_min_le|apply min_le_refl].
Qed.

(** The two passes follow the same lines. *)
Definition in_step (st : MinState) (st' : StripState) : Prop :=
  ms_current st = ss_current st' ∧ ms_start_line st = ss_start_line st' ∧
  (ss_start_line st' = true → ss_expr_on_line st' = None).

Lemma strip_char_in_step min st st' c :
  in_step st st' → in_step (min_char st c) (strip_char min st' c).2 ∧
  ss_unindent (strip_char min st' c).2 = ss_unindent st' ∧
  (∀ i, ss_expr_on_line (strip_char min st' c).2 = Some i → ss_expr_on_line st' = Some i).
Proof.
  destruct st as [m cur sl], st' as [cur' sl' un ex]. intros ([= <-] & [= <-] & Hex). cbn in Hex.
  unfold min_char, strip_char. cbn.
  destruct (is_blank c), (c =? newline)%char, sl; cbn; try done; unfold in_step; cbn; naive_solver.
Qed.

Lemma strip_chars_in_step min cs st st' :
  in_step st st' →
  in_step (foldl min_char st cs) (strip_chars min st' cs).2 ∧
  ss_unindent (strip_chars min st' cs).2 = ss_unindent st' ∧
  (∀ i, ss_expr_on_line (strip_chars min st' cs).2 = Some i → ss_expr_on_line st' = Some i).
Proof.
  revert st st'. induction cs as [|c cs IH]; intros st st' Hst; [done|]. cbn.
  destruct (strip_char_in_step min st st' c Hst) as (Hst1 & Hun & Hex).
  destruct (strip_char min st' c) as [out st1]. cbn in *.
  destruct (IH _ _ Hst1) as (Hst2 & Hun2 & Hex2).
  destruct (strip_chars min st1 cs) as [outs st2]. cbn in *. split; [done|]. split; [congruence|auto].
Qed.

(** What the function keeps of a chunk. *)
Definition same_chunk (c c' : StringChunk) : Prop :=
  match c, c' with
  | AChunkLiteral _, AChunkLiteral _ => True
  | AChunkExpr e _, AChunkExpr e' _ => e = e'
  | _, _ => False
  end.

Definition is_expr (c : StringChunk) : Prop := ∃ e i, c = AChunkExpr e i.

(** The chunks that may be erased are expressions among those of [before]. *)
Definition marks_exprs (before : list StringChunk) (st : StripState) : Prop :=
  (∀ i, i ∈ ss_unindent st → ∃ c, before !! i = Some c ∧ is_expr c) ∧
  (∀ i, ss_expr_on_line st = Some i → ∃ c, before !! i = Some c ∧ is_expr c).

Lemma marks_app before out st : marks_exprs before st → marks_exprs (before ++ out) st.
Proof.
  intros [Hun Hex]. split.
  - intros i (c & Hc & He)%Hun. exists c. split; [by apply lookup_app_l_Some|done].
  - intros i (c & Hc & He)%Hex. exists c. split; [by apply lookup_app_l_Some|done].
Qed.

Lemma strip_chunk_ok min len before mst st chunk :
  in_step mst st → marks_exprs before st → min_le min (ms_min (min_chunk mst chunk)) →
  ∃ out st', strip_chunk min len (length before) st chunk = Done (out, st') ∧
    same_chunk chunk out ∧ in_step (min_chunk mst chunk) st' ∧ marks_exprs (before ++ [out]) st'.
Proof.
  intros Hst Hmarks Hmin. destruct chunk as [s|e i]; cbn [strip_chunk min_chunk] in *.
  - destruct (strip_chars_in_step min (String.list_ascii_of_string s) mst st Hst) as (Hst' & Hun & Hex).
    destruct (strip_chars min st _) as [buffer st']. cbn in *. eexists _, st'. split; [done|].
    split; [done|]. split; [done|]. apply marks_app. destruct Hmarks as [Hu He]. split.
    + by rewrite Hun.
    + intros j Hj. by apply He, Hex.
  - destruct mst as [mn cur sl], st as [cur' sl' un ex]. destruct Hst as (Hcur & Hsl & Hex).
    cbn in Hcur, Hsl, Hex, Hmin |- *. subst cur' sl'. destruct sl; cbn in *.
    + pose proof (lower_min_current (mkMinState mn cur true)) as Hle. cbn in Hle.
      destruct (min_le_trans min _ (Some cur) Hmin Hle) as (m & -> & Hm).
      assert (below_min cur (Some m) = false) as -> by (by apply Nat.ltb_ge).
      rewrite (Hex eq_refl). cbn. eexists _, _. split; [done|].
      split; [done|]. split; [by split|]. destruct Hmarks as [Hu He]. split; cbn in *.
      * intros j (c & Hc & Hc')%Hu. exists c. split; [by apply lookup_app_l_Some|done].
      * intros j [= <-]. eexists. split; [by apply list_lookup_middle|]. by eexists _, _.
    + destruct ex as [j|].
      * eexists _, _. split; [done|]. split; [done|]. split; [by split|]. apply marks_app.
        destruct Hmarks as [Hu He]. split; cbn in *; [|done].
        intros k [Hk| ->%list_elem_of_singleton]%elem_of_app; [by apply Hu|by apply He].
      * eexists _, _. split; [done|]. split; [done|]. split; [by split|]. by apply marks_app.
Qed.

Lemma strip_chunks_ok min len chunks before mst st :
  in_step mst st → marks_exprs before st → min_le min (ms_min (foldl min_chunk mst chunks)) →
  ∃ out st', strip_chunks min len (length before) st chunks = Done (out, st') ∧
    Forall2 same_chunk chunks out ∧ marks_exprs (before ++ out) st'.
Proof.
  revert before mst st. induction chunks as [|chunk chunks IH]; intros before mst st Hst Hmarks Hmin.
  { exists [], st. rewrite app_nil_r. split; [done|]. by split. }
  cbn in Hmin. destruct (strip_chunk_ok min len before mst st chunk Hst Hmarks) as (out & st1 & Hc & Hs & Hst1 & Hm1).
  { eapply min_le_trans; [exact Hmin|]. apply fold_min_le, min_chunk_le. }
  destruct (IH (before ++ [out]) _ st1 Hst1 Hm1 Hmin) as (outs & st2 & Hcs & Hss & Hm2).
  cbn. rewrite Hc. cbn. rewrite length_app, Nat.add_1_r in Hcs. rewrite Hcs. cbn.
  exists (out :: outs), st2. split; [done|]. split; [by constructor|]. by rewrite <- app_assoc in Hm2.
Qed.

#[export] Instance same_chunk_trans : Transitive same_chunk.
Proof. intros [] [] []; cbn; try done. by intros -> ->. Qed.

Lemma erase_indents_ok unindent chunks :
  (∀ i, i ∈ unindent → ∃ c, chunks !! i = Some c ∧ is_expr c) →
  ∃ out, erase_indents unindent chunks = Done out ∧ Forall2 same_chunk chunks out.
Proof.
  revert chunks. induction unindent as [|i un IH]; intros chunks Hall; cbn.
  { exists chunks. split; [done|]. apply Forall_Forall2_diag, Forall_forall. by intros []. }
  destruct (Hall i) as (c & Hi & e & n & ->); [by left|]. rewrite Hi.
  assert (Forall2 same_chunk chunks (<[i := AChunkExpr e 0]> chunks)) as Hsame.
  { apply Forall2_same_length_lookup_2; [by rewrite length_insert|].
    intros j x y Hx Hy. apply list_lookup_insert_Some in Hy as [(<- & <- & _)|[_ Hy]]; simplify_eq; [done|].
    by destruct x. }
  destruct (IH (<[i := AChunkExpr e 0]> chunks)) as (out & Hout & Hs).
  { intros j Hj. destruct (Hall j) as (c & Hc & Hc'); [by right|].
    destruct (decide (i = j)) as [->|Hne].
    - exists (AChunkExpr e 0). split; [|by eexists _, _]. apply list_lookup_insert_eq. by eapply lookup_lt_Some.
    - exists c. by rewrite list_lookup_insert_ne. }
  exists out. split; [done|].
  by transitivity (<[i := AChunkExpr e 0]> chunks).
Qed.

(** C29: the stripping of the indentation never panics, neither on its assertions nor on
    the chunks whose indentation it erases at the end, and it changes neither the
    number, the order or the kind of the chunks nor the interpolated expressions, as
    the grammar relies on. *)
Theorem strip_indent_keeps_chunks chunks :
  ∃ out, strip_indent chunks = Done out ∧ Forall2 same_chunk chunks out.
Proof.
  destruct chunks as [|c cs]; [by exists []|]. unfold strip_indent.
  destruct (strip_chunks_ok (min_indent (c :: cs)) (length (c :: cs)) (c :: cs) []
    (mkMinState None 0 true) (mkStripState 0 true [] None)) as (out & st & Hout & Hsame & Hm).
  { by split. }
  { split; cbn; [by intros ? ?%elem_of_nil|done]. }
  { apply min_le_refl. }
  cbn [length] in Hout |- *. rewrite Hout. cbn [mbind outcome_bind].
  destruct (erase_indents_ok (ss_unindent st) out) as (out' & -> & Hsame'); [apply Hm|].
  exists out'. split; [done|]. by transitivity out.
Qed.

(** ** The lines of a string without interpolation *)

Fixpoint split_lines (cs : list ascii) : list (list ascii) :=
  match cs with
  | [] => [[]]
  | c :: cs =>
      if (c =? newline)%char then [] :: split_lines cs
      else match split_lines cs with l :: ls => (c :: l) :: ls | [] => [[c]] end
  end.

Fixpoint join_lines (ls : list (list ascii)) : list ascii :=
  match ls with
  | [] => []
  | [l] => l
  | l :: ls => l ++ newline :: join_lines ls
  end.

Definition blank (l : list ascii) : bool := forallb is_blank l.

Fixpoint indent_of (l : list ascii) : nat :=
  match l with c :: l => if is_blank c then S (indent_of l) else 0 | [] => 0 end.

(** The minimum of a minimum so far and the indentation of one more line. *)
Definition lower (min : option nat) (indent : nat) : option nat :=
  if below_min indent min then Some indent else min.

(** The smallest indentation of the lines that are not blank. *)
Definition common_indent (ls : list (list ascii)) : option nat :=
  foldl (λ min l, if blank l then min else lower min (indent_of l)) None ls.

(** The line without its first blanks, up to [min] of them when [current] are gone. *)
Fixpoint drop_indent (min : option nat) (current : nat) (l : list ascii) : list ascii :=
  match l with
  | c :: l' => if is_blank c && below_min current min then drop_indent min (S current) l' else l
  | [] => []
  end.

Definition drop_first_blank (ls : list (list ascii)) : list (list ascii) :=
  match ls with
  | l :: ((_ :: _) as rest) => if blank l then rest else ls
  | _ => ls
  end.

Definition drop_last_blank (ls : list (list ascii)) : list (list ascii) :=
  if (1 <? length ls) && blank (List.last ls []) then removelast ls else ls.

Definition unindented (cs : list ascii) : list ascii :=
  let ls := split_lines cs in
  join_lines (drop_last_blank (drop_first_blank (map (drop_indent (common_indent ls) 0) ls))).

Lemma split_lines_cons cs : ∃ l ls, split_lines cs = l :: ls.
Proof.
  destruct cs as [|c cs]; cbn; [by eexists _, _|].
  destruct (c =? newline)%char; [by eexists _, _|]. destruct (split_lines cs); by eexists _, _.
Qed.

Definition min_line (min : option nat) (current : nat) (start : bool) (l : list ascii) : option nat :=
  if start && negb (blank l) then lower min (current + indent_of l) else min.

Lemma min_chars_lines cs mn cur start l ls :
  split_lines cs = l :: ls →
  ms_min (foldl min_char (mkMinState mn cur start) cs) =
  foldl (λ min l, if blank l then min else lower min (indent_of l)) (min_line mn cur start l) ls.
Proof.
  revert mn cur start l ls. induction cs as [|c cs IH]; intros mn cur start l ls.
  { intros [= <- <-]. cbn. unfold min_line. cbn. by rewrite andb_false_r. }
  destruct (split_lines_cons cs) as (l' & ls' & Hcs). cbn [split_lines]. rewrite Hcs.
  cbn [foldl]. unfold min_char at 2, lower_min. cbn.
  destruct (c =? newline)%char eqn:Hn.
  - apply Ascii.eqb_eq in Hn as ->. intros [= <- <-]. cbn. unfold min_line. cbn.
    rewrite (IH _ _ _ _ _ Hcs), andb_false_r. unfold min_line. cbn. by destruct (blank l').
  - intros [= <- <-]. destruct (is_blank c) eqn:Hb, start; cbn; rewrite (IH _ _ _ _ _ Hcs);
      unfold min_line; cbn; rewrite ?Hb; cbn; try done.
    + by rewrite Nat.add_succ_r.
    + by rewrite Nat.add_0_r.
Qed.

Lemma drop_indent_above min cur l : below_min cur min = false → drop_indent min cur l = l.
Proof. intros Hb. destruct l; cbn; [done|]. by rewrite Hb, andb_false_r. Qed.

Lemma below_min_succ min cur : below_min cur min = false → below_min (S cur) min = false.
Proof.
  destruct min as [m|]; [|done]. unfold below_min. intros Hb%Nat.ltb_ge. apply Nat.ltb_ge. lia.
Qed.

Lemma join_lines_cons l ls : ls ≠ [] → join_lines (l :: ls) = l ++ newline :: join_lines ls.
Proof. by destruct ls. Qed.

Lemma join_lines_push c l ls : c :: join_lines (l :: ls) = join_lines ((c :: l) :: ls).
Proof. by destruct ls. Qed.

Lemma strip_chars_lines min cs cur start un ex l ls :
  split_lines cs = l :: ls →
  (strip_chars min (mkStripState cur start un ex) cs).1 =
  join_lines ((if start : bool then drop_indent min cur l else l) :: map (drop_indent min 0) ls).
Proof.
  revert cur start un ex l ls. induction cs as [|c cs IH]; intros cur start un ex l ls.
  { intros [= <- <-]. by destruct start. }
  destruct (split_lines_cons cs) as (l' & ls' & Hcs). cbn [split_lines]. rewrite Hcs.
  cbn [strip_chars]. unfold strip_char.
  destruct (c =? newline)%char eqn:Hn.
  - apply Ascii.eqb_eq in Hn as ->. intros [= <- <-]. cbn.
    pose proof (IH 0 true un None l' ls' Hcs) as Hrest.
    destruct (strip_chars min _ cs) as [outs st]. cbn in *. subst outs. by destruct start.
  - intros [= <- <-]. destruct (is_blank c) eqn:Hb, start; cbn [andb drop_indent]; rewrite ?Hb; cbn [andb].
    + pose proof (IH (S cur) true un ex l' ls' Hcs) as Hrest.
      destruct (strip_chars min _ cs) as [outs st]. cbn in *. subst outs.
      destruct (below_min cur min) eqn:Hbelow; [done|].
      rewrite drop_indent_above by (by apply below_min_succ). apply join_lines_push.
    + pose proof (IH cur false un ex l' ls' Hcs) as Hrest.
      destruct (strip_chars min _ cs) as [outs st]. cbn in *. subst outs. apply join_lines_push.
    + pose proof (IH cur false un ex l' ls' Hcs) as Hrest.
      destruct (strip_chars min _ cs) as [outs st]. cbn in *. subst outs. apply join_lines_push.
    + pose proof (IH cur false un ex l' ls' Hcs) as Hrest.
      destruct (strip_chars min _ cs) as [outs st]. cbn in *. subst outs. apply join_lines_push.
Qed.

(** Lines have no newline. *)
Definition no_newline (l : list ascii) : Prop := newline ∉ l.

Lemma split_lines_no_newline cs : Forall no_newline (split_lines cs).
Proof.
  induction cs as [|c cs IH]; cbn; [repeat constructor; apply not_elem_of_nil|].
  destruct (c =? newline)%char eqn:Hn; [constructor; [apply not_elem_of_nil|done]|].
  apply Ascii.eqb_neq in Hn. destruct IH as [|l ls Hl IH].
  - repeat constructor. apply not_elem_of_cons. split; [congruence|apply not_elem_of_nil].
  - constructor; [|done]. apply not_elem_of_cons. split; [congruence|done].
Qed.

Lemma drop_indent_no_newline min cur l : no_newline l → no_newline (drop_indent min cur l).
Proof.
  revert cur. induction l as [|c l IH]; intros cur Hl; [done|]. cbn.
  destruct (_ && _); [|done]. apply IH. by apply not_elem_of_cons in Hl as [_ ?].
Qed.

Lemma find_newline_none l : no_newline l → find_newline l = None.
Proof.
  induction l as [|c l IH]; [done|]. intros [Hc Hl]%not_elem_of_cons. cbn.
  rewrite (proj2 (Ascii.eqb_neq _ _)) by congruence. by rewrite IH.
Qed.

Lemma find_newline_app l rest : no_newline l → find_newline (l ++ newline :: rest) = Some (l, rest).
Proof.
  induction l as [|c l IH]; [done|]. intros [Hc Hl]%not_elem_of_cons. cbn.
  rewrite (proj2 (Ascii.eqb_neq _ _)) by congruence. by rewrite IH.
Qed.

Lemma rfind_newline_none l : no_newline l → rfind_newline l = None.
Proof.
  induction l as [|c l IH]; [done|]. intros [Hc Hl]%not_elem_of_cons. cbn.
  rewrite IH by done. by rewrite (proj2 (Ascii.eqb_neq _ _)) by congruence.
Qed.

Lemma rfind_newline_app l cs before after :
  rfind_newline cs = Some (before, after) → rfind_newline (l ++ cs) = Some (l ++ before, after).
Proof. intros Hcs. induction l as [|c l IH]; [done|]. cbn. by rewrite IH. Qed.

Lemma rfind_newline_join ls :
  ls ≠ [] → Forall no_newline ls →
  rfind_newline (join_lines ls) =
    if 1 <? length ls then Some (join_lines (removelast ls), List.last ls []) else None.
Proof.
  induction ls as [|l ls IH]; [done|]. intros _ [Hl Hls]%Forall_cons.
  destruct ls as [|l2 ls]; [by apply rfind_newline_none|].
  rewrite join_lines_cons by done. specialize (IH ltac:(done) Hls).
  assert (rfind_newline (newline :: join_lines (l2 :: ls)) =
          Some (match ls with [] => [] | _ => newline :: join_lines (removelast (l2 :: ls)) end,
                List.last (l2 :: ls) [])) as Hr.
  { cbn [rfind_newline]. rewrite IH. by destruct ls. }
  rewrite (rfind_newline_app _ _ _ _ Hr). cbn [length Nat.ltb Nat.leb]. do 2 f_equal.
  destruct ls as [|l3 ls]; [cbn; by rewrite app_nil_r|]. done.
Qed.

Lemma strip_first_lines ls :
  Forall no_newline ls → strip_first_line (join_lines ls) = join_lines (drop_first_blank ls).
Proof.
  intros Hall. unfold strip_first_line. destruct ls as [|l [|l2 ls]]; [done| |].
  - apply Forall_cons in Hall as [Hl _]. cbn. by rewrite find_newline_none.
  - apply Forall_cons in Hall as [Hl _]. rewrite join_lines_cons, find_newline_app by done.
    cbn [drop_first_blank]. fold (blank l). by destruct (blank l).
Qed.

Lemma strip_last_lines ls :
  ls ≠ [] → Forall no_newline ls → strip_last_line (join_lines ls) = join_lines (drop_last_blank ls).
Proof.
  intros Hne Hall. unfold strip_last_line, drop_last_blank.
  rewrite rfind_newline_join by done. destruct (1 <? length ls); [|done].
  cbn [andb]. fold (blank (List.last ls [])). by destruct (blank _).
Qed.

Lemma drop_first_blank_lines ls :
  ls ≠ [] → Forall no_newline ls → drop_first_blank ls ≠ [] ∧ Forall no_newline (drop_first_blank ls).
Proof.
  intros Hne Hall. destruct ls as [|l [|l2 ls]]; [done|done|]. cbn.
  destruct (blank l); [|done]. split; [done|]. by apply Forall_cons in Hall as [_ ?].
Qed.

Lemma strip_literal cs :
  strip_indent [AChunkLiteral (String.string_of_list_ascii cs)] =
  Done [AChunkLiteral (String.string_of_list_ascii (unindented cs))].
Proof.
  set (s := String.string_of_list_ascii cs).
  assert (String.list_ascii_of_string s = cs) as Hs by apply String.list_ascii_of_string_of_list_ascii.
  destruct (split_lines_cons cs) as (l & ls & Hcs).
  assert (min_indent [AChunkLiteral s] = common_indent (split_lines cs)) as Hmin.
  { unfold min_indent. cbn [foldl min_chunk]. rewrite Hs.
    rewrite (min_chars_lines cs None 0 true l ls Hcs), Hcs. unfold common_indent, min_line. cbn.
    by destruct (blank l). }
  unfold strip_indent. rewrite Hmin. cbn [strip_chunks strip_chunk length]. rewrite Hs. unfold unindented.
  set (min := common_indent (split_lines cs)).
  pose proof (strip_chars_lines min cs 0 true [] None l ls Hcs) as Hchars.
  destruct (strip_chars_in_step min cs (mkMinState None 0 true) (mkStripState 0 true [] None))
    as (_ & Hun & _); [done|].
  change (_ :: _) with (map (drop_indent min 0) (l :: ls)) in Hchars.
  destruct (strip_chars min _ cs) as [buffer st]. cbn [fst snd ss_unindent] in Hchars, Hun.
  subst buffer. rewrite Hcs.
  assert (Forall no_newline (map (drop_indent min 0) (l :: ls))) as Hnl.
  { rewrite <- Hcs. apply List.Forall_map. eapply Forall_impl; [apply split_lines_no_newline|].
    intros x. apply drop_indent_no_newline. }
  destruct (drop_first_blank_lines (map (drop_indent min 0) (l :: ls))) as [Hne Hnl']; [done..|].
  cbn [Nat.eqb Nat.sub]. rewrite strip_first_lines, strip_last_lines by done.
  cbn [mbind outcome_bind]. by rewrite Hun.
Qed.

(** C28: on a multi-line string without interpolation, the stripping of the indentation
    works line by line: each line loses as many blanks as the least indented line that
    is not blank has, then the first line and the last one go when they are blank and
    not alone. *)
Theorem strip_indent_lines s :
  strip_indent [AChunkLiteral s] =
  Done [AChunkLiteral (String.string_of_list_ascii (unindented (String.list_ascii_of_string s)))].
Proof.
  rewrite <- (String.string_of_list_ascii_of_string s) at 1. apply strip_literal.
Qed.

(** ** Let blocks *)

Definition binds (bs : list LetBinding) (i : nat) (id : Ident) : Prop :=
  ∃ b, bs !! i = Some b ∧ id ∈ bound_ids (binding_pattern b).

Lemma binds_cons_0 b bs id : binds (b :: bs) 0 id ↔ id ∈ bound_ids (binding_pattern b).
Proof. unfold binds. cbn. naive_solver. Qed.

Lemma duplicate_binding_some bs seen id :
  duplicate_binding seen bs = Some id →
  ∃ j, binds bs j id ∧ (id ∈ seen ∨ ∃ i, i < j ∧ binds bs i id).
Proof.
  revert seen. induction bs as [|b bs IH]; intros seen; [done|]. cbn.
  destruct (find _ _) as [id'|] eqn:Hfind.
  - intros [= ->]. apply List.find_some in Hfind as [Hin Hseen].
    apply bool_decide_eq_true in Hseen. exists 0. split; [|by left].
    by apply binds_cons_0, list_elem_of_In.
  - intros (j & Hj & Hcase)%IH. exists (S j). split; [exact Hj|].
    destruct Hcase as [[Hin|Hin]%elem_of_union|(i & Hi & Hb)].
    + right. exists 0. split; [lia|]. apply binds_cons_0. by apply elem_of_list_to_set in Hin.
    + by left.
    + right. exists (S i). split; [lia|exact Hb].
Qed.

Lemma duplicate_binding_none bs seen :
  duplicate_binding seen bs = None →
  ∀ j id, binds bs j id → id ∉ seen ∧ ∀ i, i < j → ¬ binds bs i id.
Proof.
  revert seen. induction bs as [|b bs IH]; intros seen; [by intros _ j id (? & [=] & _)|]. cbn.
  destruct (find _ _) as [id'|] eqn:Hfind; [done|]. intros Hnone [|j] id Hj.
  - split; [|lia]. apply binds_cons_0, list_elem_of_In in Hj.
    apply (List.find_none _ _ Hfind) in Hj. by apply bool_decide_eq_false in Hj.
  - destruct (IH _ Hnone j id Hj) as [Hnotin Hlt]. split; [set_solver|].
    intros [|i] Hi Hb; [|by eapply Hlt; [|exact Hb]; lia].
    apply binds_cons_0 in Hb. apply Hnotin, elem_of_union_l. by apply elem_of_list_to_set.
Qed.

(** A let block is accepted exactly when no two of its bindings bind the same name,
    whatever the patterns; a rejection names a variable bound twice. A pattern may bind
    a name several times itself. *)
Theorem mk_let_exact rec bs body :
  match mk_let rec bs body with
  | Ok a => a = NLet bs body rec ∧ ∀ i j id, i < j → binds bs i id → ¬ binds bs j id
  | Err (DuplicateIdentInLetBlock id) => ∃ i j, i < j ∧ binds bs i id ∧ binds bs j id
  end.
Proof.
  unfold mk_let. destruct (duplicate_binding ∅ bs) as [id|] eqn:Hdup.
  - apply duplicate_binding_some in Hdup as (j & Hj & [?%elem_of_empty|(i & Hi & Hb)]); [done|].
    by exists i, j.
  - split; [done|]. intros i j id Hij Hi Hj.
    by destruct (duplicate_binding_none bs ∅ Hdup j id Hj) as [_ Hlt]; apply (Hlt i).
Qed.

(** ** Examples *)

Definition lit (ls : list string) : StringChunk :=
  AChunkLiteral (String.concat (String newline EmptyString) ls).

(** The first example in the documentation of [strip_indent]: an expression that is
    alone on its line keeps its indentation, minus the common one. *)
Example strip_indent_alone :
  strip_indent [lit [EmptyString; "  baseline"; "    "]; AChunkExpr NNull 0;
                lit [EmptyString; "  end"; EmptyString]]%string
  = Done [lit ["baseline"; "  "]; AChunkExpr NNull 2; lit [EmptyString; "end"]]%string.
Proof. vm_compute. reflexivity. Qed.

(** The second example: the text after the expression should make its indentation 0,
    and does not. Another expression does. *)
Example indentation_kept_before_text :
  strip_indent [lit [EmptyString; "  baseline"; "    "]; AChunkExpr NNull 0;
                lit [" sth"; "  end"; EmptyString]]%string
  = Done [lit ["baseline"; "  "]; AChunkExpr NNull 2; lit [" sth"; "end"]]%string ∧
  strip_indent [lit [EmptyString; "  baseline"; "    "]; AChunkExpr NNull 0; lit [" "];
                AChunkExpr NNull 0; lit [EmptyString; "  end"; EmptyString]]%string
  = Done [lit ["baseline"; "  "]; AChunkExpr NNull 0; lit [" "]; AChunkExpr NNull 0;
          lit [EmptyString; "end"]]%string.
Proof. split; vm_compute; reflexivity. Qed.

Example lines_without_interpolation :
  unindented (String.list_ascii_of_string (String.concat (String newline EmptyString)
    [" "; "    a"; EmptyString; "  b "; "   "]%string))
  = String.list_ascii_of_string (String.concat (String newline EmptyString)
    ["  a"; EmptyString; "b "]%string).
Proof. reflexivity. Qed.
