(* ===== verification/Lexer.v ===== *)
(** * The lexer ([parser/src/lexer.rs])

    A modal lexer over three lexers generated by logos: expressions, strings and
    multi-line strings. The modes that are interrupted wait on a stack, with their
    data: the count of open braces of an expression, the size of the delimiter of a
    multi-line string. Input, slices and spans are in bytes.

    What logos does is a class: which rule it matches next, and where. The actions that
    the rules attach to a match are part of the program and are modelled. *)
From Stdlib Require Import Ascii.
From stdpp Require Import strings.
From S2P Require Import Prelude Values ParserUtils.

Abbreviation Bytes := (list ascii).
Definition Span : Type := nat * nat.

(** ** Tokens *)

Record SymbolicStringStart : Type := mkSymbolicStringStart {
  sym_prefix : Bytes;
  sym_length : nat;
}.

Inductive NormalToken : Type :=
| TkError | TkIdentifier (s : Bytes) | TkDecNumLiteral (n : Number)
| TkHexNumLiteral (n : Number) | TkOctNumLiteral (n : Number) | TkBinNumLiteral (n : Number)
| TkRawEnumTag (s : Bytes) | TkStrEnumTagBegin | TkDyn | TkNumber | TkBool | TkString
| TkArray | TkIf | TkThen | TkElse | TkForall | TkIn | TkLet | TkRec | TkMatch | TkNull
| TkTrue | TkFalse | TkOr | TkAs | TkInclude | TkQuestionMark | TkComma | TkSemicolon
| TkColon | TkDollar | TkEquals | TkNotEquals | TkAmpersand | TkDot | TkDoubleQuote | TkPlus
| TkMinus | TkTimes | TkDiv | TkPercent | TkDoublePlus | TkDoubleEq | TkAt | TkDoubleAnd
| TkDoublePipe | TkBang | TkEllipsis | TkFun | TkImport | TkPipe | TkRightPipe
| TkSimpleArrow | TkDoubleArrow | TkUnderscore | TkMultiStringStart (delim_size : nat)
| TkSymbolicStringStart (s : SymbolicStringStart) | TkTypeof | TkCast | TkContractApply
| TkContractCheck | TkContractArrayLazyApp | TkContractRecordLazyApp | TkContractCustom
| TkBlame | TkLabelFlipPol | TkLabelPol | TkLabelGoDom | TkLabelGoCodom | TkLabelGoField
| TkLabelGoArray | TkLabelGoDict | TkLabelInsertTypeVar | TkLabelLookupTypeVar | TkSeal
| TkUnseal | TkEnumEmbed | TkRecordMap | TkRecordInsert | TkRecordInsertWithOpts
| TkRecordRemove | TkRecordRemoveWithOpts | TkRecordEmptyWithTail | TkRecordSealTail
| TkRecordUnsealTail | TkSeq | TkDeepSeq | TkOpForce | TkArrayLength | TkRecordFields
| TkRecordFieldsWithOpts | TkRecordValues | TkNumberArcCos | TkNumberArcSin | TkNumberArcTan
| TkNumberArcTan2 | TkNumberCos | TkNumberSin | TkNumberTan | TkNumberLog | TkPow | TkTrace
| TkRecordHasField | TkRecordHasFieldWithOpts | TkArrayMap | TkArrayAt | TkArrayGen
| TkOpRecForce | TkOpRecDefault | TkRecordFieldIsDefined | TkRecordFieldIsDefinedWithOpts
| TkRecordSplitPair | TkRecordDisjointMerge | TkRecordMergeContract | TkRecordFreeze
| TkDefault | TkDoc | TkOptional | TkPriority | TkForce | TkNotExported | TkOpHash
| TkSerialize | TkDeserialize | TkStringSplit | TkStringTrim | TkStringChars
| TkStringUppercase | TkStringLowercase | TkStringContains | TkStringCompare
| TkStringReplace | TkStringReplaceRegex | TkStringIsMatch | TkStringFind | TkStringFindAll
| TkStringLength | TkStringSubstr | TkStringBase64Encode | TkStringBase64Decode | TkToString
| TkNumberFromString | TkEnumFromString | TkEnumGetArg | TkEnumMakeVariant | TkEnumIsVariant
| TkEnumGetTag | TkLabelWithMessage | TkLabelWithNotes | TkLabelAppendNote | TkLabelPushDiag
| TkArraySlice | TkEvalNix | TkLBrace | TkRBrace | TkLBracket | TkRBracket | TkLParen
| TkRParen | TkLAngleBracket | TkLessOrEq | TkRAngleBracket | TkGreaterOrEq | TkEnumOpen
| TkEnumClose | TkLineComment.

(** Characters are Unicode scalar values. *)
Definition Char : Type := N.

Inductive StringToken : Type :=
| StrError
| StrLiteral (s : Bytes)
| StrDoubleQuote
| StrInterpolation
| StrEscapedChar (c : Char)
| StrEscapedAscii (code : Bytes)
| StrEscapedUnicode (code : Bytes).

Inductive MultiStringToken : Type :=
| MultiError
| MultiLiteral (s : Bytes)
| MultiCandidateEnd (s : Bytes)
| MultiCandidateInterpolation (s : Bytes)
| MultiQuotesCandidateInterpolation (s : Bytes)
| MultiEnd
| MultiInterpolation.

Inductive Token : Type :=
| TokNormal (t : NormalToken)
| TokStr (t : StringToken)
| TokMultiStr (t : MultiStringToken).

Definition SpannedToken : Type := nat * Token * nat.

Inductive LexicalError : Type :=
| UnmatchedCloseBrace (pos : nat)
| InvalidEscapeSequence (pos : nat)
| InvalidAsciiEscapeCode (pos : nat)
| InvalidUnicodeEscapeCode (span : Span)
| StringDelimiterMismatch (opening_delimiter closing_delimiter : Span)
| GenericError (span : Span).

(** ** What logos matches *)

(** The rules of [NormalToken]: those with an action, and the others, which give a
    token by themselves. *)
Inductive NormalRule : Type :=
| RuleRawEnumTag
| RuleMultiStringStart
| RuleSymbolicStringStart
| RuleToken (t : NormalToken).

Inductive StringRule : Type :=
| RuleStrError
| RuleStrLiteral
| RuleStrPercent
| RuleStrDoubleQuote
| RuleStrInterpolation
| RuleEscapedChar (second : Char)
| RuleEscapedAscii
| RuleEscapedUnicode.

Inductive MultiStringRule : Type :=
| RuleMultiError
| RuleMultiLiteral
| RuleMultiDoubleQuote
| RuleMultiPercents
| RuleCandidateEnd
| RuleCandidateInterpolation
| RuleQuotesCandidateInterpolation.

(** [logos::Lexer::next], from a position: nothing at the end of the input, else the
    rule, or nothing for an input that no rule matches, and the span. *)
Class Logos : Type := {
  logos_normal : Bytes → nat → option (option NormalRule * Span);
  logos_string : Bytes → nat → option (option StringRule * Span);
  logos_multistring : Bytes → nat → option (option MultiStringRule * Span);
}.

Definition slice (input : Bytes) (span : Span) : Bytes :=
  take (span.2 - span.1) (drop span.1 input).

(** ** Escapes and line endings *)

Definition carriage_return : ascii := "013"%char.
Definition double_quote : ascii := "034"%char.

(** [replace("\r\n", "\n")] *)
Fixpoint replace_crlf (s : Bytes) : Bytes :=
  match s with
  | c :: ((c' :: s') as rest) =>
      if (c =? carriage_return)%char && (c' =? newline)%char then newline :: replace_crlf s'
      else c :: replace_crlf rest
  | _ => s
  end.

Definition normalize_line_endings (s : Bytes) : outcome Bytes :=
  let normalized := replace_crlf s in
  _ ← assert (negb (existsb (Ascii.eqb carriage_return) normalized));
  Done normalized.

Definition escape_char (chr : Char) : option Char :=
  match chr with
  | 39%N => Some 39%N
  | 34%N => Some 34%N
  | 92%N => Some 92%N
  | 37%N => Some 37%N
  | 110%N => Some 10%N
  | 114%N => Some 13%N
  | 116%N => Some 9%N
  | _ => None
  end.

Definition hex_value (c : ascii) : option N :=
  let n := N_of_ascii c in
  if ((48 <=? n) && (n <=? 57))%N then Some (n - 48)%N
  else if ((65 <=? n) && (n <=? 70))%N then Some (n - 55)%N
  else if ((97 <=? n) && (n <=? 102))%N then Some (n - 87)%N
  else None.

Fixpoint hex_digits (max acc : N) (s : Bytes) : option N :=
  match s with
  | [] => Some acc
  | c :: s =>
      d ← hex_value c;
      let acc := (acc * 16 + d)%N in
      if (max <? acc)%N then None else hex_digits max acc s
  end.

(** [from_str_radix], base 16, of the unsigned integers up to [max]: a sign [+] is
    accepted before the digits. *)
Definition from_str_radix_16 (max : N) (s : Bytes) : option N :=
  match s with
  | [] => None
  | c :: s' =>
      if (c =? "+")%char then match s' with [] => None | _ => hex_digits max 0 s' end
      else hex_digits max 0 s
  end.

Definition escape_ascii (code : Bytes) : option Char :=
  code ← from_str_radix_16 255 code;
  if (127 <? code)%N then None else Some code.

(** [char::from_u32] *)
Definition char_from_u32 (n : N) : option Char :=
  if ((n <? 55296) || ((57343 <? n) && (n <=? 1114111)))%N then Some n else None.

Definition escape_unicode (code : Bytes) : option Char :=
  n ← from_str_radix_16 4294967295 code; char_from_u32 n.

(** ** The actions of the rules *)

(** [rsplit_once('-')] *)
Fixpoint rsplit_dash (s : Bytes) : option (Bytes * Bytes) :=
  match s with
  | [] => None
  | c :: s =>
      match rsplit_dash s with
      | Some (before, after) => Some (c :: before, after)
      | None => if (c =? "-")%char then Some ([], s) else None
      end
  end.

Definition symbolic_string_prefix_and_length (s : Bytes) : outcome SymbolicStringStart :=
  '(prefix, postfix) ← unwrap (rsplit_dash s);
  Done (mkSymbolicStringStart prefix (length postfix)).

Definition normal_action (rule : NormalRule) (s : Bytes) : outcome NormalToken :=
  match rule with
  | RuleRawEnumTag => Done (TkRawEnumTag (drop 1 s))
  | RuleMultiStringStart => Done (TkMultiStringStart (length s))
  | RuleSymbolicStringStart =>
      start ← symbolic_string_prefix_and_length s; Done (TkSymbolicStringStart start)
  | RuleToken t => Done t
  end.

Definition string_action (rule : StringRule) (s : Bytes) : outcome StringToken :=
  match rule with
  | RuleStrError => Done StrError
  | RuleStrLiteral => s ← normalize_line_endings s; Done (StrLiteral s)
  | RuleStrPercent => Done (StrLiteral s)
  | RuleStrDoubleQuote => Done StrDoubleQuote
  | RuleStrInterpolation => Done StrInterpolation
  | RuleEscapedChar c => Done (StrEscapedChar c)
  | RuleEscapedAscii => Done (StrEscapedAscii (slice s (2, 4)))
  | RuleEscapedUnicode => Done (StrEscapedUnicode (slice s (3, length s - 1)))
  end.

Definition multistring_action (rule : MultiStringRule) (s : Bytes) : outcome MultiStringToken :=
  match rule with
  | RuleMultiError => Done MultiError
  | RuleMultiLiteral => s ← normalize_line_endings s; Done (MultiLiteral s)
  | RuleMultiDoubleQuote | RuleMultiPercents => Done (MultiLiteral s)
  | RuleCandidateEnd => Done (MultiCandidateEnd s)
  | RuleCandidateInterpolation => Done (MultiCandidateInterpolation s)
  | RuleQuotesCandidateInterpolation => Done (MultiQuotesCandidateInterpolation s)
  end.

(** ** The state *)

Record MultiStrData : Type := mkMultiStrData {
  percent_count : nat;
  opening_delimiter : Span;
}.

Record NormalData : Type := mkNormalData { brace_count : nat }.

(** The position is that of the lexer of logos, which [morph] keeps. *)
Inductive ModalLexer : Type :=
| LexNormal (mode_data : NormalData) (pos : nat)
| LexString (pos : nat)
| LexMultiString (mode_data : MultiStrData) (buffer : option (MultiStringToken * Span)) (pos : nat).

Inductive Mode : Type :=
| ModeString
| ModeMultiString (data : MultiStrData)
| ModeNormal (data : NormalData).

(** The stack of modes has its top first. The [Option] around the current lexer is only
    empty inside an operation. *)
Record Lexer : Type := mkLexer {
  lexer : ModalLexer;
  modes : list Mode;
}.

(** [Lexer::new] *)
Definition lexer_new : Lexer := mkLexer (LexNormal (mkNormalData 0) 0) [].

(** ** Changes of mode *)

Definition enter_strlike (morph : nat → ModalLexer) (lx : Lexer) : outcome Lexer :=
  match lexer lx with
  | LexNormal mode_data pos => Done (mkLexer (morph pos) (ModeNormal mode_data :: modes lx))
  | _ => Panic
  end.

Definition enter_str : Lexer → outcome Lexer := enter_strlike LexString.

Definition enter_indstr (percent_count : nat) (opening_delimiter : Span) : Lexer → outcome Lexer :=
  enter_strlike (LexMultiString (mkMultiStrData percent_count opening_delimiter) None).

Definition enter_normal (lx : Lexer) : outcome Lexer :=
  match lexer lx with
  | LexString pos => Done (mkLexer (LexNormal (mkNormalData 0) pos) (ModeString :: modes lx))
  | LexMultiString mode_data _ pos =>
      Done (mkLexer (LexNormal (mkNormalData 0) pos) (ModeMultiString mode_data :: modes lx))
  | LexNormal _ _ => Panic
  end.

Definition leave_str (lx : Lexer) : outcome Lexer :=
  match lexer lx, modes lx with
  | LexString pos, ModeNormal mode_data :: ms => Done (mkLexer (LexNormal mode_data pos) ms)
  | _, _ => Panic
  end.

Definition leave_indstr (lx : Lexer) : outcome Lexer :=
  match lexer lx, modes lx with
  | LexMultiString _ _ pos, ModeNormal data :: ms => Done (mkLexer (LexNormal data pos) ms)
  | _, _ => Panic
  end.

Definition leave_normal (lx : Lexer) : outcome Lexer :=
  match lexer lx, modes lx with
  | LexNormal _ pos, ModeString :: ms => Done (mkLexer (LexString pos) ms)
  | LexNormal _ pos, ModeMultiString data :: ms => Done (mkLexer (LexMultiString data None pos) ms)
  | _, _ => Panic
  end.

Definition bufferize (token : MultiStringToken) (span : Span) (lx : Lexer) : outcome Lexer :=
  match lexer lx with
  | LexMultiString data _ pos =>
      Done (mkLexer (LexMultiString data (Some (token, span)) pos) (modes lx))
  | _ => Panic
  end.

Definition normal_mode_data (lx : Lexer) : outcome NormalData :=
  match lexer lx with LexNormal data _ => Done data | _ => Panic end.

Definition set_brace_count (n : nat) (lx : Lexer) : outcome Lexer :=
  match lexer lx with
  | LexNormal _ pos => Done (mkLexer (LexNormal (mkNormalData n) pos) (modes lx))
  | _ => Panic
  end.

Definition multistring_mode_data (lx : Lexer) : outcome MultiStrData :=
  match lexer lx with LexMultiString data _ _ => Done data | _ => Panic end.

(** A subtraction that overflows panics. *)
Definition checked_sub (a b : nat) : outcome nat := if b <=? a then Done (a - b) else Panic.

(** ** The handling of tokens *)

Definition Item : Type := option (result SpannedToken LexicalError).

Definition item (span : Span) (token : Token) : Item := Some (Ok (span.1, token, span.2)).

Definition split_candidate_interp (lx : Lexer) (s : Bytes) (span : Span) (percent_count : nat)
    : outcome (Token * Span * Lexer) :=
  split_at ← checked_sub (length s) percent_count;
  lx ← bufferize MultiInterpolation (span.1 + split_at, span.2) lx;
  Done (TokMultiStr (MultiLiteral (take split_at s)), (span.1, span.1 + split_at), lx).

(** [next] is the method that the comments call again. *)
Definition handle_normal_token (next : Lexer → outcome (Item * Lexer)) (lx : Lexer) (span : Span)
    (token : NormalToken) : outcome (Item * Lexer) :=
  match token with
  | TkDoubleQuote | TkStrEnumTagBegin =>
      lx ← enter_str lx; Done (item span (TokNormal token), lx)
  | TkMultiStringStart delim_size | TkSymbolicStringStart (mkSymbolicStringStart _ delim_size) =>
      size_without_kind_marker ← checked_sub delim_size 1;
      lx ← enter_indstr size_without_kind_marker span lx;
      Done (item span (TokNormal token), lx)
  | TkLBrace =>
      data ← normal_mode_data lx;
      lx ← set_brace_count (S (brace_count data)) lx;
      Done (item span (TokNormal token), lx)
  | TkRBrace =>
      data ← normal_mode_data lx;
      match brace_count data with
      | 0 =>
          match modes lx with
          | [] => Done (Some (Err (UnmatchedCloseBrace span.1)), lx)
          | _ => lx ← leave_normal lx; Done (item span (TokNormal token), lx)
          end
      | S n => lx ← set_brace_count n lx; Done (item span (TokNormal token), lx)
      end
  | TkLineComment => next lx
  | TkError => Done (Some (Err (GenericError span)), lx)
  | _ => Done (item span (TokNormal token), lx)
  end.

Definition handle_string_token (lx : Lexer) (span : Span) (token : StringToken)
    : outcome (Item * Lexer) :=
  match token with
  | StrDoubleQuote => lx ← leave_str lx; Done (item span (TokNormal TkDoubleQuote), lx)
  | StrInterpolation => lx ← enter_normal lx; Done (item span (TokStr token), lx)
  | StrEscapedChar c =>
      Done
        (match escape_char c with
         | Some esc => item span (TokStr (StrEscapedChar esc))
         | None => Some (Err (InvalidEscapeSequence (span.1 + 1)))
         end, lx)
  | StrEscapedAscii code =>
      Done
        (match escape_ascii code with
         | Some esc => item span (TokStr (StrEscapedChar esc))
         | None => Some (Err (InvalidAsciiEscapeCode (span.1 + 2)))
         end, lx)
  | StrEscapedUnicode code =>
      Done
        (match escape_unicode code with
         | Some esc => item span (TokStr (StrEscapedChar esc))
         | None =>
             let start := span.1 + 3 in
             Some (Err (InvalidUnicodeEscapeCode (start, start + length code)))
         end, lx)
  | StrError => Done (Some (Err (GenericError span)), lx)
  | StrLiteral _ => Done (item span (TokStr token), lx)
  end.

Definition handle_multistr_token (lx : Lexer) (span : Span) (token : MultiStringToken)
    : outcome (Item * Lexer) :=
  data ← multistring_mode_data lx;
  match token with
  | MultiCandidateInterpolation s =>
      if percent_count data <=? length s then
        if length s =? percent_count data then
          lx ← enter_normal lx; Done (item span (TokMultiStr MultiInterpolation), lx)
        else
          '(token_fst, span_fst, lx) ← split_candidate_interp lx s span (percent_count data);
          Done (item span_fst token_fst, lx)
      else Done (item span (TokMultiStr (MultiLiteral s)), lx)
  | MultiInterpolation => lx ← enter_normal lx; Done (item span (TokMultiStr token), lx)
  | MultiQuotesCandidateInterpolation s =>
      if percent_count data <? length s then
        '(token_fst, span_fst, lx) ← split_candidate_interp lx s span (percent_count data);
        Done (item span_fst token_fst, lx)
      else Done (item span (TokMultiStr (MultiLiteral s)), lx)
  | MultiCandidateEnd s =>
      if percent_count data <? length s then
        Done (Some (Err (StringDelimiterMismatch (opening_delimiter data) span)), lx)
      else if length s =? percent_count data then
        lx ← leave_indstr lx; Done (item span (TokMultiStr MultiEnd), lx)
      else Done (item span (TokMultiStr (MultiLiteral s)), lx)
  | MultiError => Done (Some (Err (GenericError span)), lx)
  | MultiLiteral _ | MultiEnd => Done (item span (TokMultiStr token), lx)
  end.

Section next.
Context `{Logos} (input : Bytes).

(** [Lexer::next]; the fuel bounds the number of comments in a row. *)
Fixpoint next (fuel : nat) (lx : Lexer) : outcome (Item * Lexer) :=
  match fuel with
  | 0 => OutOfFuel
  | S fuel =>
      match lexer lx with
      | LexNormal mode_data pos =>
          match logos_normal input pos with
          | None => Done (None, lx)
          | Some (rule, span) =>
              token ← match rule with
                      | Some rule => normal_action rule (slice input span)
                      | None => Done TkError
                      end;
              handle_normal_token (next fuel) (mkLexer (LexNormal mode_data span.2) (modes lx))
                span token
          end
      | LexString pos =>
          match logos_string input pos with
          | None => Done (None, lx)
          | Some (rule, span) =>
              token ← match rule with
                      | Some rule => string_action rule (slice input span)
                      | None => Done StrError
                      end;
              handle_string_token (mkLexer (LexString span.2) (modes lx)) span token
          end
      | LexMultiString mode_data (Some (token, span)) pos =>
          handle_multistr_token (mkLexer (LexMultiString mode_data None pos) (modes lx)) span token
      | LexMultiString mode_data None pos =>
          match logos_multistring input pos with
          | None => Done (None, lx)
          | Some (rule, span) =>
              token ← match rule with
                      | Some rule => multistring_action rule (slice input span)
                      | None => Done MultiError
                      end;
              handle_multistr_token (mkLexer (LexMultiString mode_data None span.2) (modes lx))
                span token
          end
      end
  end.

End next.

(** [OffsetLexer::next] *)
Definition offset_item (offset : nat) (i : Item) : Item :=
  match i with
  | Some (Ok (start, tok, stop)) => Some (Ok (start + offset, tok, stop + offset))
  | i => i
  end.
