(* ===== verification/LexerTheorems.v ===== *)
(** * Theorems on the lexer

    The modes and the counts of braces implement a stack of open delimiters: [pda] says
    what each token does to it. The spans of the tokens are ordered and within the
    input, lexing ends, and it does not panic unless a carriage return is alone. What is
    used of logos is the class [LogosLaws]; [small_logos] is an instance. *)
From Stdlib Require Import Ascii.
From stdpp Require Import strings.
From S2P Require Import Prelude Values ParserUtils Lexer.

(** ** What logos promises *)

Definition percent : ascii := "%"%char.
Definition open_brace : ascii := "{"%char.

(** The slices of the rules whose contents matter. *)
Definition normal_regex (rule : NormalRule) (s : Bytes) : Prop :=
  match rule with
  | RuleMultiStringStart => ∃ k, s = "m"%char :: replicate (S k) percent ++ [double_quote]
  | RuleSymbolicStringStart =>
      ∃ id k, s = id ++ "-"%char :: "s"%char :: replicate (S k) percent ++ [double_quote]
  | RuleToken (TkMultiStringStart _ | TkSymbolicStringStart _ | TkRawEnumTag _) => False
  | _ => True
  end.

(** A literal stops at the end of the input or before a special character. *)
Definition literal_match (special : list ascii) (input : Bytes) (span : Span) : Prop :=
  match input !! span.2 with Some c => c ∈ special | None => True end.

Definition string_match (rule : StringRule) (input : Bytes) (span : Span) : Prop :=
  match rule with
  | RuleStrLiteral => literal_match [double_quote; percent; "\"%char] input span
  | _ => True
  end.

Definition multistring_match (rule : MultiStringRule) (input : Bytes) (span : Span) : Prop :=
  match rule with
  | RuleMultiLiteral => literal_match [double_quote; percent] input span
  | _ => True
  end.

(** A match is not empty, and starts after the position. *)
Definition span_ok (input : Bytes) (pos : nat) (span : Span) : Prop :=
  pos ≤ span.1 ∧ span.1 < span.2 ∧ span.2 ≤ length input.

Class LogosLaws `{Logos} : Prop := {
  logos_normal_span input pos rule span :
    logos_normal input pos = Some (rule, span) → span_ok input pos span;
  logos_string_span input pos rule span :
    logos_string input pos = Some (rule, span) → span_ok input pos span;
  logos_multistring_span input pos rule span :
    logos_multistring input pos = Some (rule, span) → span_ok input pos span;
  logos_normal_regex input pos rule span :
    logos_normal input pos = Some (Some rule, span) → normal_regex rule (slice input span);
  logos_string_match input pos rule span :
    logos_string input pos = Some (Some rule, span) → string_match rule input span;
  logos_multistring_match input pos rule span :
    logos_multistring input pos = Some (Some rule, span) → multistring_match rule input span;
}.

(** ** Open delimiters *)

Inductive Delim : Type :=
| DBrace
| DInterpolation
| DString
| DMultiString (percent_count : nat).

(** A token of an expression. *)
Definition code_token (ds : list Delim) (t : NormalToken) : option (list Delim) :=
  match t with
  | TkDoubleQuote | TkStrEnumTagBegin => Some (DString :: ds)
  | TkMultiStringStart n | TkSymbolicStringStart (mkSymbolicStringStart _ n) =>
      Some (DMultiString (n - 1) :: ds)
  | TkLBrace => Some (DBrace :: ds)
  | TkRBrace => match ds with DBrace :: ds' | DInterpolation :: ds' => Some ds' | _ => None end
  | TkLineComment | TkError => None
  | _ => Some ds
  end.

Definition pda (ds : list Delim) (tok : Token) : option (list Delim) :=
  match ds, tok with
  | DString :: ds', TokNormal TkDoubleQuote => Some ds'
  | DString :: _, TokStr StrInterpolation => Some (DInterpolation :: ds)
  | DString :: _, TokStr (StrLiteral _ | StrEscapedChar _) => Some ds
  | DMultiString _ :: ds', TokMultiStr MultiEnd => Some ds'
  | DMultiString _ :: _, TokMultiStr MultiInterpolation => Some (DInterpolation :: ds)
  | DMultiString _ :: _, TokMultiStr (MultiLiteral _) => Some ds
  | (DString | DMultiString _) :: _, _ => None
  | _, TokNormal t => code_token ds t
  | _, _ => None
  end.

(** The delimiters that an expression is in: its own braces, and below them the string
    that it is interpolated in. *)
Fixpoint code_delims (d : NormalData) (ms : list Mode) : list Delim :=
  replicate (brace_count d) DBrace ++
  match ms with
  | ModeString :: ModeNormal d' :: ms' => DInterpolation :: DString :: code_delims d' ms'
  | ModeMultiString m :: ModeNormal d' :: ms' =>
      DInterpolation :: DMultiString (percent_count m) :: code_delims d' ms'
  | _ => []
  end.

Definition below_string (ms : list Mode) : list Delim :=
  match ms with ModeNormal d :: ms => code_delims d ms | _ => [] end.

Definition delims (lx : Lexer) : list Delim :=
  match lexer lx with
  | LexNormal d _ => code_delims d (modes lx)
  | LexString _ => DString :: below_string (modes lx)
  | LexMultiString m _ _ => DMultiString (percent_count m) :: below_string (modes lx)
  end.

(** ** The invariant *)

(** Expressions and strings alternate on the stack. *)
Fixpoint under_code (ms : list Mode) : Prop :=
  match ms with
  | [] => True
  | ModeString :: ModeNormal _ :: ms' => under_code ms'
  | ModeMultiString m :: ModeNormal _ :: ms' => 1 ≤ percent_count m ∧ under_code ms'
  | _ => False
  end.

Definition under_string (ms : list Mode) : Prop :=
  match ms with ModeNormal _ :: ms => under_code ms | _ => False end.

Definition buffer_ok (input : Bytes) (pos : nat) (buffer : option (MultiStringToken * Span)) : Prop :=
  match buffer with
  | Some (token, span) => token = MultiInterpolation ∧ span_ok input span.1 span ∧ span.2 = pos
  | None => True
  end.

Definition lexer_ok (input : Bytes) (lx : Lexer) : Prop :=
  match lexer lx with
  | LexNormal _ _ => under_code (modes lx)
  | LexString _ => under_string (modes lx)
  | LexMultiString m buffer pos =>
      1 ≤ percent_count m ∧ buffer_ok input pos buffer ∧ under_string (modes lx)
  end.

(** Where the next token starts, at least. *)
Definition lexer_pos (lx : Lexer) : nat :=
  match lexer lx with
  | LexNormal _ pos | LexString pos | LexMultiString _ None pos => pos
  | LexMultiString _ (Some (_, span)) _ => span.1
  end.

(** What a call returns, when the next span starts at [pos] at least. *)
Definition item_ok (ds : list Delim) (pos : nat) (input : Bytes) (i : Item) (lx : Lexer) : Prop :=
  match i with
  | None => delims lx = ds
  | Some (Ok (s, tok, e)) =>
      pda ds tok = Some (delims lx) ∧ pos ≤ s ∧ s < e ∧ e = lexer_pos lx ∧ e ≤ length input
  | Some (Err err) =>
      delims lx = ds ∧ pos < lexer_pos lx ∧ (∀ p, err = UnmatchedCloseBrace p → ds = [])
  end.

Definition returns_ok (ds : list Delim) (pos : nat) (input : Bytes) (o : outcome (Item * Lexer)) : Prop :=
  ∃ i lx, o = Done (i, lx) ∧ lexer_ok input lx ∧ item_ok ds pos input i lx.

Definition is_code (lx : Lexer) : Prop := ∃ d pos, lexer lx = LexNormal d pos.

Lemma code_delims_push d n ms : code_delims (mkNormalData (S n)) ms = DBrace :: code_delims (mkNormalData n) ms
  ∧ (brace_count d = S n → code_delims d ms = DBrace :: code_delims (mkNormalData n) ms).
Proof. split; [by destruct ms|]. destruct d as [k]; cbn. intros ->. by destruct ms. Qed.

Lemma code_delims_top d ms tok t :
  under_code ms → tok = TokNormal t → pda (code_delims d ms) tok = code_token (code_delims d ms) t.
Proof.
  intros Hms ->. destruct d as [[|n]].
  - destruct ms as [|[|m|d'] [|[|m'|d''] ms]]; try done; by destruct t.
  - destruct ms; by destruct t.
Qed.

(** The size of a delimiter counts its kind and its quote. *)
Definition normal_token_ok (t : NormalToken) : Prop :=
  match t with
  | TkMultiStringStart n | TkSymbolicStringStart (mkSymbolicStringStart _ n) => 2 ≤ n
  | _ => True
  end.

Lemma checked_sub_le a b : b ≤ a → checked_sub a b = Done (a - b).
Proof. intros Hle. unfold checked_sub. by rewrite (proj2 (Nat.leb_le b a) Hle). Qed.

Lemma handle_normal_ok nxt d ms pos input span t :
  under_code ms → span_ok input pos span → normal_token_ok t → t ≠ TkLineComment →
  returns_ok (code_delims d ms) pos input
    (handle_normal_token nxt (mkLexer (LexNormal d span.2) ms) span t).
Proof.
  intros Hms (Hpos & Hlt & Hlen) Ht Hcomment.
  assert (∀ lx, lexer_ok input lx → lexer_pos lx = span.2 →
    code_token (code_delims d ms) t = Some (delims lx) →
    returns_ok (code_delims d ms) pos input (Done (item span (TokNormal t), lx))) as Hitem.
  { intros lx Hlx Hp Hcode. eexists _, lx. split; [done|]. split; [done|].
    cbn. rewrite (code_delims_top d ms _ t Hms eq_refl). by rewrite Hp. }
  assert (∀ err, (∀ p, err ≠ UnmatchedCloseBrace p) →
    returns_ok (code_delims d ms) pos input
      (Done (Some (Err err), mkLexer (LexNormal d span.2) ms))) as Herr.
  { intros err Hne. eexists _, _. split; [done|]. split; [done|].
    cbn. split; [done|]. split; [lia|]. intros p ->. by destruct (Hne p). }
  destruct t; cbn [handle_normal_token];
    try (apply Hitem; done); try (by apply Herr); try done.
  - cbn in Ht. rewrite checked_sub_le by lia. cbn. apply Hitem; [|done|done].
    split; [cbn; lia|done].
  - destruct s as [prefix n]. cbn in Ht. rewrite checked_sub_le by lia. cbn.
    apply Hitem; [|done|done]. split; [cbn; lia|done].
  - cbn. apply Hitem; [exact Hms|done|]. cbn. by destruct d, ms.
  - destruct d as [[|n]]; cbn [normal_mode_data lexer mbind outcome_bind brace_count modes].
    + destruct ms as [|[|m|d'] [|[|m'|d''] ms]]; try done.
      * eexists _, _. split; [done|]. split; [done|]. cbn. split; [done|]. split; [lia|done].
      * apply Hitem; done.
      * destruct Hms as [Hm Hms]. apply Hitem; done.
    + apply Hitem; [exact Hms|done|]. cbn. by destruct ms.
Qed.

Lemma below_string_code d ms : below_string (ModeNormal d :: ms) = code_delims d ms.
Proof. done. Qed.

Lemma handle_string_ok ms pos input span t :
  under_string ms → span_ok input pos span →
  returns_ok (DString :: below_string ms) pos input
    (handle_string_token (mkLexer (LexString span.2) ms) span t).
Proof.
  intros Hms (Hpos & Hlt & Hlen).
  assert (∀ lx tok, lexer_ok input lx → lexer_pos lx = span.2 →
    pda (DString :: below_string ms) tok = Some (delims lx) →
    returns_ok (DString :: below_string ms) pos input (Done (item span tok, lx))) as Hitem.
  { intros lx tok Hlx Hp Hpda. eexists _, lx. split; [done|]. split; [done|]. cbn. by rewrite Hp. }
  assert (∀ err, (∀ p, err ≠ UnmatchedCloseBrace p) →
    returns_ok (DString :: below_string ms) pos input
      (Done (Some (Err err), mkLexer (LexString span.2) ms))) as Herr.
  { intros err Hne. eexists _, _. split; [done|]. split; [done|].
    cbn. split; [done|]. split; [lia|]. intros p ->. by destruct (Hne p). }
  destruct ms as [|[|m|d] ms]; try done.
  destruct t; cbn [handle_string_token]; try (apply Hitem; done); try (by apply Herr).
  - destruct (escape_char c); [by apply Hitem|by apply Herr].
  - destruct (escape_ascii code); [by apply Hitem|by apply Herr].
  - destruct (escape_unicode code); [by apply Hitem|by apply Herr].
Qed.

(** The size of a candidate is that of its span, and an end is only decided here. *)
Definition multistring_token_ok (span : Span) (t : MultiStringToken) : Prop :=
  match t with
  | MultiCandidateInterpolation s | MultiQuotesCandidateInterpolation s => length s = span.2 - span.1
  | MultiEnd => False
  | _ => True
  end.

Lemma split_candidate_ok m ms pos input span s :
  1 ≤ percent_count m → under_string ms → span_ok input pos span →
  length s = span.2 - span.1 → percent_count m < length s →
  returns_ok (DMultiString (percent_count m) :: below_string ms) pos input
    ('(token_fst, span_fst, lx) ←
       split_candidate_interp (mkLexer (LexMultiString m None span.2) ms) s span (percent_count m);
     Done (item span_fst token_fst, lx)).
Proof.
  intros Hm Hms (Hpos & Hlt & Hlen) Hs Hn. unfold split_candidate_interp.
  rewrite checked_sub_le by lia. cbn. eexists _, _. split; [done|]. split.
  - split; [done|]. split; [|done]. cbn. split; [done|]. split; [|done]. repeat split; cbn; lia.
  - cbn. split; [done|]. split; [done|]. lia.
Qed.

Lemma handle_multistr_ok m ms pos input span t :
  1 ≤ percent_count m → under_string ms → span_ok input pos span → multistring_token_ok span t →
  returns_ok (DMultiString (percent_count m) :: below_string ms) pos input
    (handle_multistr_token (mkLexer (LexMultiString m None span.2) ms) span t).
Proof.
  intros Hm Hms Hspan Ht. pose proof Hspan as (Hpos & Hlt & Hlen).
  set (ds := DMultiString (percent_count m) :: below_string ms).
  assert (∀ lx tok, lexer_ok input lx → lexer_pos lx = span.2 → pda ds tok = Some (delims lx) →
    returns_ok ds pos input (Done (item span tok, lx))) as Hitem.
  { intros lx tok Hlx Hp Hpda. eexists _, lx. split; [done|]. split; [done|]. cbn. by rewrite Hp. }
  assert (∀ err, (∀ p, err ≠ UnmatchedCloseBrace p) →
    returns_ok ds pos input (Done (Some (Err err), mkLexer (LexMultiString m None span.2) ms))) as Herr.
  { intros err Hne. eexists _, _. split; [done|]. split; [done|].
    cbn. split; [done|]. split; [lia|]. intros p ->. by destruct (Hne p). }
  destruct ms as [|[|m'|d] ms']; try done.
  assert (∀ s, returns_ok ds pos input
    (Done (item span (TokMultiStr (MultiLiteral s)),
      mkLexer (LexMultiString m None span.2) (ModeNormal d :: ms')))) as Hlit by (intros s; by apply Hitem).
  destruct t; unfold handle_multistr_token; cbn [multistring_mode_data lexer mbind outcome_bind];
    cbn in Ht; try done; try (by apply Herr); try apply Hlit.
  - destruct (percent_count m <? length s); [by apply Herr|].
    destruct (length s =? percent_count m); [by apply Hitem|apply Hlit].
  - destruct (percent_count m <=? length s) eqn:Hle; [|apply Hlit].
    destruct (length s =? percent_count m) eqn:Heq; [by apply Hitem|].
    apply Nat.leb_le in Hle. apply Nat.eqb_neq in Heq. apply split_candidate_ok; [done..|lia].
  - destruct (percent_count m <? length s) eqn:Hle; [|apply Hlit].
    apply Nat.ltb_lt in Hle. by apply split_candidate_ok.
  - by apply Hitem.
Qed.

(** ** The actions *)

Lemma rsplit_dash_none s : "-"%char ∉ s → rsplit_dash s = None.
Proof.
  induction s as [|c s IH]; [done|]. intros [Hc Hs]%not_elem_of_cons. cbn.
  rewrite IH by done. by rewrite (proj2 (Ascii.eqb_neq _ _)) by congruence.
Qed.

Lemma rsplit_dash_app id s : "-"%char ∉ s → rsplit_dash (id ++ "-"%char :: s) = Some (id, s).
Proof.
  intros Hs. induction id as [|c id IH]; cbn; [by rewrite rsplit_dash_none|]. by rewrite IH.
Qed.

Lemma normal_action_ok rule s :
  normal_regex rule s → ∃ t, normal_action rule s = Done t ∧ normal_token_ok t.
Proof.
  destruct rule as [| | |t]; cbn.
  - intros _. by eexists.
  - intros (k & ->). eexists. split; [done|]. cbn. rewrite length_app. cbn. lia.
  - intros (id & k & ->). unfold symbolic_string_prefix_and_length. rewrite rsplit_dash_app.
    + eexists. split; [done|]. cbn. lia.
    + change ("-"%char ∉ "s"%char :: replicate (S k) percent ++ [double_quote]).
      intros [[=]|[[[=] _]%elem_of_replicate|[=]%list_elem_of_singleton]%elem_of_app]%elem_of_cons.
  - intros Ht. exists t. split; [done|]. by destruct t.
Qed.

Lemma length_slice input pos span : span_ok input pos span → length (slice input span) = span.2 - span.1.
Proof. intros (? & ? & ?). unfold slice. rewrite length_take, length_drop. lia. Qed.

Lemma multistring_action_ok input pos rule span t :
  span_ok input pos span → multistring_action rule (slice input span) = Done t → multistring_token_ok span t.
Proof.
  intros Hspan. destruct rule; cbn; try (intros [= <-]; cbn; by eauto using length_slice).
  intros (s & _ & [= <-])%bind_Done. done.
Qed.

(** ** Carriage returns *)

Definition no_lone_cr (input : Bytes) : Prop :=
  ∀ i, input !! i = Some carriage_return → input !! S i = Some newline.

Lemma replace_crlf_no_cr s : no_lone_cr s → carriage_return ∉ replace_crlf s.
Proof.
  assert (∀ n s, length s ≤ n → no_lone_cr s → carriage_return ∉ replace_crlf s) as Hall; [|by eapply Hall].
  clear s. induction n as [|n IH]; intros s Hn Hcr.
  { destruct s; [apply not_elem_of_nil|cbn in Hn; lia]. }
  destruct s as [|c [|c' s]].
  - apply not_elem_of_nil.
  - intros <-%list_elem_of_singleton. by specialize (Hcr 0 eq_refl).
  - change (carriage_return ∉ if (c =? carriage_return)%char && (c' =? newline)%char
      then newline :: replace_crlf s else c :: replace_crlf (c' :: s)).
    cbn in Hn. destruct (_ && _)%bool eqn:Hb.
    + apply andb_true_iff in Hb as [->%Ascii.eqb_eq ->%Ascii.eqb_eq].
      apply not_elem_of_cons. split; [done|]. apply IH; [lia|]. intros i Hi. exact (Hcr (S (S i)) Hi).
    + apply not_elem_of_cons. split.
      * intros <-. specialize (Hcr 0 eq_refl) as [= ->]. done.
      * apply IH; [cbn; lia|]. intros i Hi. exact (Hcr (S i) Hi).
Qed.

Lemma normalize_ok s : no_lone_cr s → normalize_line_endings s = Done (replace_crlf s).
Proof.
  intros Hcr%replace_crlf_no_cr. unfold normalize_line_endings.
  destruct (existsb _ _) eqn:He; [|done]. apply List.existsb_exists in He as (c & Hc & <-%Ascii.eqb_eq).
  by destruct Hcr; apply list_elem_of_In.
Qed.

Lemma lookup_slice input span i : i < span.2 - span.1 → slice input span !! i = input !! (span.1 + i).
Proof. intros Hi. etrans; [by apply lookup_take_lt|apply lookup_drop]. Qed.

Lemma slice_no_lone_cr special input pos span :
  no_lone_cr input → span_ok input pos span → literal_match special input span → newline ∉ special →
  no_lone_cr (slice input span).
Proof.
  intros Hcr Hspan Hmatch Hspecial i Hi.
  assert (i < span.2 - span.1) as Hlt.
  { apply lookup_lt_Some in Hi. by erewrite length_slice in Hi. }
  rewrite lookup_slice in Hi by done. apply Hcr in Hi. rewrite <- Nat.add_succ_r in Hi.
  destruct (decide (S i < span.2 - span.1)) as [Hl|Hl]; [by rewrite lookup_slice|].
  unfold literal_match in Hmatch. destruct Hspan as (? & ? & ?).
  replace (span.1 + S i) with (span.2) in Hi by lia. by rewrite Hi in Hmatch.
Qed.

Section lexing.
Context `{!Logos, !LogosLaws} (input : Bytes).

Lemma string_action_total pos rule span :
  no_lone_cr input → logos_string input pos = Some (Some rule, span) →
  ∃ t, string_action rule (slice input span) = Done t.
Proof.
  intros Hcr Hl. pose proof (logos_string_span _ _ _ _ Hl) as Hspan.
  pose proof (logos_string_match _ _ _ _ Hl) as Hmatch.
  destruct rule; cbn; try (by eexists). cbn in Hmatch.
  rewrite normalize_ok; [by eexists|]. eapply slice_no_lone_cr; [done..|set_solver].
Qed.

Lemma multistring_action_total pos rule span :
  no_lone_cr input → logos_multistring input pos = Some (Some rule, span) →
  ∃ t, multistring_action rule (slice input span) = Done t.
Proof.
  intros Hcr Hl. pose proof (logos_multistring_span _ _ _ _ Hl) as Hspan.
  pose proof (logos_multistring_match _ _ _ _ Hl) as Hmatch.
  destruct rule; cbn; try (by eexists). cbn in Hmatch.
  rewrite normalize_ok; [by eexists|]. eapply slice_no_lone_cr; [done..|set_solver].
Qed.

(** ** One call *)

Definition call_ok (fuel : nat) (lx : Lexer) (o : outcome (Item * Lexer)) : Prop :=
  match o with
  | Done (i, lx') => lexer_ok input lx' ∧ item_ok (delims lx) (lexer_pos lx) input i lx'
  | Panic => ¬ no_lone_cr input
  | OutOfFuel => fuel ≤ length input - lexer_pos lx
  end.

Lemma returns_call fuel lx o : returns_ok (delims lx) (lexer_pos lx) input o → call_ok fuel lx o.
Proof. by intros (i & lx' & -> & Hlx & Hi). Qed.

Lemma item_ok_mono ds pos pos' i lx : pos ≤ pos' → item_ok ds pos' input i lx → item_ok ds pos input i lx.
Proof. intros Hle. destruct i as [[[[s tok] e]|err]|]; cbn; [naive_solver lia..|done]. Qed.

Lemma next_ok fuel lx : lexer_ok input lx → call_ok fuel lx (next input fuel lx).
Proof.
  revert lx. induction fuel as [|fuel IH]; intros [lex ms] Hlx; [cbn; lia|]. cbn [next lexer].
  destruct lex as [d pos|pos|m buffer pos].
  - cbn in Hlx. destruct (logos_normal input pos) as [[rule span]|] eqn:Hl; [|by split].
    pose proof (logos_normal_span _ _ _ _ Hl) as Hspan.
    assert (∃ t, match rule with Some rule => normal_action rule (slice input span) | None => Done TkError end
                 = Done t ∧ normal_token_ok t) as (t & Ht & Htok).
    { destruct rule as [rule|]; [|by eexists]. by eapply normal_action_ok, logos_normal_regex. }
    rewrite Ht. cbn [mbind outcome_bind].
    assert (t = TkLineComment ∨ t ≠ TkLineComment) as [->|Hcomment] by (by destruct t; auto).
    + cbn [handle_normal_token]. pose proof (IH (mkLexer (LexNormal d span.2) ms) Hlx) as Hnext.
      destruct Hspan as (? & ? & ?). cbn [modes]. destruct (next _ _ _) as [[i lx']| |]; [|done|].
      * destruct Hnext as [Hok Hi]. split; [done|]. eapply item_ok_mono; [|exact Hi]. cbn. lia.
      * cbn in *. lia.
    + apply returns_call. by apply handle_normal_ok.
  - destruct (logos_string input pos) as [[rule span]|] eqn:Hl; [|by split].
    pose proof (logos_string_span _ _ _ _ Hl) as Hspan.
    destruct (match rule with Some rule => string_action rule (slice input span) | None => Done StrError end)
      as [t| |] eqn:Ht.
    + apply returns_call. by apply handle_string_ok.
    + cbn. intros Hcr. destruct rule as [rule|]; [|done].
      destruct (string_action_total pos rule span Hcr Hl); congruence.
    + destruct rule as [rule|]; [|done]. destruct rule; try done.
      cbn in Ht. unfold normalize_line_endings, assert in Ht. by destruct (negb _).
  - destruct Hlx as (Hm & Hbuf & Hms). destruct buffer as [[token span]|].
    + destruct Hbuf as (-> & Hspan & <-). apply returns_call. by apply handle_multistr_ok.
    + destruct (logos_multistring input pos) as [[rule span]|] eqn:Hl; [|by split].
      pose proof (logos_multistring_span _ _ _ _ Hl) as Hspan.
      destruct (match rule with Some rule => multistring_action rule (slice input span) | None => Done MultiError end)
        as [t| |] eqn:Ht.
      * apply returns_call. apply handle_multistr_ok; [done..|].
        destruct rule as [rule|]; [by eapply multistring_action_ok|by injection Ht as <-].
      * cbn. intros Hcr. destruct rule as [rule|]; [|done].
        destruct (multistring_action_total pos rule span Hcr Hl); congruence.
      * destruct rule as [rule|]; [|done]. destruct rule; try done.
        cbn in Ht. unfold normalize_line_endings, assert in Ht. by destruct (negb _).
Qed.

(** ** Whole inputs *)

(** The calls of the parser: until the end of the input or an error. *)
Fixpoint tokens (calls fuel : nat) (lx : Lexer)
    : outcome (list SpannedToken * option LexicalError * Lexer) :=
  match calls with
  | 0 => OutOfFuel
  | S calls =>
      '(i, lx) ← next input fuel lx;
      match i with
      | None => Done ([], None, lx)
      | Some (Err err) => Done ([], Some err, lx)
      | Some (Ok t) => '(ts, err, lx) ← tokens calls fuel lx; Done (t :: ts, err, lx)
      end
  end.

Definition run_pda (ds : option (list Delim)) (ts : list SpannedToken) : option (list Delim) :=
  foldl (λ ds t, ds ≫= λ ds, pda ds t.1.2) ds ts.

(** The spans are not empty, follow each other from [pos], and are within the input. *)
Fixpoint spans_from (pos : nat) (ts : list SpannedToken) : Prop :=
  match ts with
  | [] => True
  | (s, _, e) :: ts => pos ≤ s ∧ s < e ∧ e ≤ length input ∧ spans_from e ts
  end.

Definition run_ok (calls fuel : nat) (lx : Lexer)
    (o : outcome (list SpannedToken * option LexicalError * Lexer)) : Prop :=
  match o with
  | Done (ts, err, lx') =>
      run_pda (Some (delims lx)) ts = Some (delims lx') ∧ spans_from (lexer_pos lx) ts ∧
      (∀ p, err = Some (UnmatchedCloseBrace p) → delims lx' = [])
  | Panic => ¬ no_lone_cr input
  | OutOfFuel => fuel ≤ length input ∨ calls ≤ length input - lexer_pos lx
  end.

Lemma tokens_ok calls fuel lx : lexer_ok input lx → run_ok calls fuel lx (tokens calls fuel lx).
Proof.
  revert lx. induction calls as [|calls IH]; intros lx Hlx; [cbn; lia|]. cbn [tokens].
  pose proof (next_ok fuel lx Hlx) as Hnext.
  destruct (next input fuel lx) as [[i lx']| |]; cbn in Hnext |- *; [|done|lia].
  destruct Hnext as [Hlx' Hi]. destruct i as [[[[s tok] e]|err]|]; cbn in Hi |- *.
  - destruct Hi as (Hpda & Hs & Hse & He & Hlen). specialize (IH lx' Hlx').
    destruct (tokens calls fuel lx') as [[[ts err] lx2]| |]; cbn in IH |- *; [|done|lia].
    destruct IH as (Hrun & Hspans & Herr). unfold run_pda in *. cbn. rewrite Hpda. subst e. done.
  - destruct Hi as (-> & _ & Herr). split; [done|]. split; [done|]. intros p [= ->]. by eapply Herr.
  - by rewrite Hi.
Qed.

Lemma lexer_new_ok : lexer_ok input lexer_new.
Proof. done. Qed.

(** C30: the modal lexer keeps track of the delimiters. Whatever the input, the tokens
    that it returns, replayed on a stack of open delimiters, are each allowed by what
    is open (an end of string closes the string on top, a closing brace an open brace
    or, in an interpolated expression without open brace, the interpolation), and what
    they leave open is what the modes and the counts of braces say; a closing brace is
    reported as unmatched only when nothing is open. *)
Theorem tokens_follow_delimiters calls fuel ts err lx :
  tokens calls fuel lexer_new = Done (ts, err, lx) →
  run_pda (Some []) ts = Some (delims lx) ∧
  (∀ p, err = Some (UnmatchedCloseBrace p) → delims lx = []).
Proof.
  intros Hts. pose proof (tokens_ok calls fuel lexer_new lexer_new_ok) as Hrun.
  rewrite Hts in Hrun. by destruct Hrun as (? & _ & ?).
Qed.

(** C31: lexing ends: when every carriage return of the input is followed by a newline,
    the calls reach the end of the input or an error without a panic, after at most
    one call for each byte and one more, and no call reads more comments than there
    are bytes. *)
Theorem lexing_terminates :
  no_lone_cr input →
  ∃ ts err lx, tokens (S (length input)) (S (length input)) lexer_new = Done (ts, err, lx).
Proof.
  intros Hcr. pose proof (tokens_ok (S (length input)) (S (length input)) lexer_new lexer_new_ok) as Hrun.
  destruct (tokens _ _ _) as [[[ts err] lx]| |]; [by eexists _, _, _|done|].
  cbn in Hrun. lia.
Qed.

(** C32: the spans of the tokens are not empty, do not overlap, come in order, and are
    within the input, those of a candidate interpolation that is split in two included. *)
Theorem token_spans_ordered calls fuel ts err lx :
  tokens calls fuel lexer_new = Done (ts, err, lx) → spans_from 0 ts.
Proof.
  intros Hts. pose proof (tokens_ok calls fuel lexer_new lexer_new_ok) as Hrun.
  rewrite Hts in Hrun. by destruct Hrun as (_ & ? & _).
Qed.

(** ** The size of the delimiter decides *)

(** The bytes [%...%{] with [n] percent signs, in a multi-line string. *)
Definition candidate (n : nat) : Bytes := replicate n percent ++ [open_brace].

Definition multistring_state (count : nat) (opening : Span) (pos : nat) (d : NormalData)
    (ms : list Mode) : Lexer :=
  mkLexer (LexMultiString (mkMultiStrData count opening) None pos) (ModeNormal d :: ms).

Lemma take_candidate n k : k ≤ n → take k (candidate n) = replicate k percent.
Proof.
  intros Hk. unfold candidate. rewrite take_app_le by (rewrite length_replicate; lia).
  by rewrite take_replicate, Nat.min_l.
Qed.

(** In a string opened by [m%...%] with [count] percent signs, a sequence of percent
    signs before an open brace is an interpolation when it has that many of them at
    least: the excess is literal text, which is returned first, and the next call
    returns the interpolation, over the last [count] signs and the brace, whatever
    follows in the input. Shorter sequences are text. *)
Theorem interpolation_needs_percents count n start opening d ms :
  let lx := multistring_state (S count) opening (start + S n) d ms in
  let span := (start, start + S n) in
  let code := mkLexer (LexNormal (mkNormalData 0) (start + S n))
                (ModeMultiString (mkMultiStrData (S count) opening) :: ModeNormal d :: ms) in
  let interpolation s := item (s, start + S n) (TokMultiStr MultiInterpolation) in
  let first := handle_multistr_token lx span (MultiCandidateInterpolation (candidate n)) in
  (n < count → first = Done (item span (TokMultiStr (MultiLiteral (candidate n))), lx)) ∧
  (n = count → first = Done (interpolation start, code)) ∧
  (count < n → ∃ lx',
    first = Done (item (start, start + (n - count))
                    (TokMultiStr (MultiLiteral (replicate (n - count) percent))), lx') ∧
    next input 1 lx' = Done (interpolation (start + (n - count)), code)).
Proof.
  assert (length (candidate n) = S n) as Hlen.
  { unfold candidate. rewrite length_app, length_replicate. cbn. lia. }
  cbn zeta. unfold handle_multistr_token.
  cbn [multistring_state multistring_mode_data lexer mbind outcome_bind percent_count]. rewrite Hlen.
  split_and!; intros Hn.
  - by rewrite (proj2 (Nat.leb_gt (S count) (S n))) by lia.
  - subst count. by rewrite Nat.leb_refl, Nat.eqb_refl.
  - rewrite (proj2 (Nat.leb_le (S count) (S n))) by lia.
    rewrite (proj2 (Nat.eqb_neq (S n) (S count))) by lia.
    unfold split_candidate_interp. rewrite checked_sub_le by lia.
    rewrite Hlen. cbn [mbind outcome_bind bufferize lexer fst snd modes Nat.sub].
    rewrite take_candidate by lia. eexists. split; [done|]. done.
Qed.

End lexing.

(** ** A lexer generator for a part of the tokens *)

(** The length of the longest prefix of bytes that satisfy [p]. *)
Fixpoint run_length (p : ascii → bool) (s : Bytes) : nat :=
  match s with c :: s => if p c then S (run_length p s) else 0 | [] => 0 end.

Lemma run_length_le p s : run_length p s ≤ length s.
Proof. induction s as [|c s IH]; cbn; [lia|]. destruct (p c); lia. Qed.

Lemma run_length_stop p s c : s !! run_length p s = Some c → p c = false.
Proof. induction s as [|c' s IH]; cbn; [done|]. by destruct (p c') eqn:Hp; cbn; [|intros [= ->]]. Qed.

Lemma run_length_replicate c s :
  ∃ rest, s = replicate (run_length (Ascii.eqb c) s) c ++ rest.
Proof.
  induction s as [|c' s [rest IH]]; cbn; [by exists []|].
  destruct (c =? c')%char eqn:Hc; [|by exists (c' :: s)].
  apply Ascii.eqb_eq in Hc as ->. exists rest. cbn. by f_equal.
Qed.

Definition is_letter (c : ascii) : bool :=
  let n := N_of_ascii c in ((97 <=? n) && (n <=? 122))%N || ((65 <=? n) && (n <=? 90))%N.
Definition is_space (c : ascii) : bool := is_blank c || (c =? newline)%char.
Definition is_special (special : list ascii) (c : ascii) : bool := bool_decide (c ∈ special).

(** A rule and a length, for an input that is not empty. *)
Definition small_normal (c : ascii) (rest : Bytes) : option NormalRule * nat :=
  let k := run_length (Ascii.eqb percent) rest in
  if (c =? double_quote)%char then (Some (RuleToken TkDoubleQuote), 1)
  else if (c =? open_brace)%char then (Some (RuleToken TkLBrace), 1)
  else if (c =? "}")%char then (Some (RuleToken TkRBrace), 1)
  else if (c =? "#")%char then
    (Some (RuleToken TkLineComment), S (run_length (λ c, negb (c =? newline)%char) rest))
  else if (c =? "m")%char && (0 <? k) && bool_decide (rest !! k = Some double_quote) then
    (Some RuleMultiStringStart, S (S k))
  else if is_letter c then
    let n := S (run_length is_letter rest) in (Some (RuleToken (TkIdentifier (take n (c :: rest)))), n)
  else (None, 1).

Definition small_string (c : ascii) (rest : Bytes) : option StringRule * nat :=
  let special := [double_quote; percent; "\"%char] in
  if (c =? double_quote)%char then (Some RuleStrDoubleQuote, 1)
  else if (c =? percent)%char then
    match rest with
    | c' :: _ => if (c' =? open_brace)%char then (Some RuleStrInterpolation, 2) else (Some RuleStrPercent, 1)
    | [] => (Some RuleStrPercent, 1)
    end
  else if (c =? "\")%char then
    match rest with
    | c' :: _ => (Some (RuleEscapedChar (N_of_ascii c')), 2)
    | [] => (None, 1)
    end
  else (Some RuleStrLiteral, run_length (λ c, negb (is_special special c)) (c :: rest)).

Definition small_multistring (c : ascii) (rest : Bytes) : option MultiStringRule * nat :=
  let special := [double_quote; percent] in
  let k := run_length (Ascii.eqb percent) rest in
  let brace := bool_decide (rest !! k = Some open_brace) in
  if (c =? double_quote)%char then
    if 0 <? k then
      if brace then (Some RuleQuotesCandidateInterpolation, S (S k)) else (Some RuleCandidateEnd, S k)
    else (Some RuleMultiDoubleQuote, 1)
  else if (c =? percent)%char then
    if brace then (Some RuleCandidateInterpolation, S (S k)) else (Some RuleMultiPercents, S k)
  else (Some RuleMultiLiteral, run_length (λ c, negb (is_special special c)) (c :: rest)).

(** A match at the position itself. *)
Definition match_at {R} (f : ascii → Bytes → option R * nat) (input : Bytes) (pos : nat)
    : option (option R * Span) :=
  match drop pos input with
  | [] => None
  | c :: rest => let '(rule, n) := f c rest in Some (rule, (pos, pos + n))
  end.

#[export] Instance small_logos : Logos := {
  logos_normal input pos :=
    match_at small_normal input (pos + run_length is_space (drop pos input));
  logos_string := match_at small_string;
  logos_multistring := match_at small_multistring;
}.

Definition match_length_ok {R} (f : ascii → Bytes → option R * nat) : Prop :=
  ∀ c rest, 1 ≤ (f c rest).2 ∧ (f c rest).2 ≤ S (length rest).

Lemma match_at_some {R} (f : ascii → Bytes → option R * nat) input pos rule span :
  match_length_ok f → match_at f input pos = Some (rule, span) →
  span_ok input pos span ∧ span.1 = pos ∧
  ∃ c rest, drop pos input = c :: rest ∧ f c rest = (rule, span.2 - span.1) ∧
    slice input span = take (span.2 - span.1) (c :: rest).
Proof.
  unfold match_at. intros Hf Hm. destruct (drop pos input) as [|c rest] eqn:Hdrop; [done|].
  destruct (Hf c rest) as [H1 H2]. destruct (f c rest) as [r n] eqn:Hr. injection Hm as <- <-.
  cbn in *. assert (length (drop pos input) = S (length rest)) as Hl by (by rewrite Hdrop).
  rewrite length_drop in Hl. split; [repeat split; cbn; lia|]. split; [done|].
  exists c, rest. rewrite Nat.add_sub_swap, Nat.sub_diag by lia. split; [done|]. split; [done|].
  unfold slice. cbn. by rewrite Hdrop.
Qed.

Lemma small_normal_length : match_length_ok small_normal.
Proof.
  intros c rest. unfold small_normal.
  pose proof (run_length_le (Ascii.eqb percent) rest).
  pose proof (run_length_le (λ c, negb (c =? newline)%char) rest).
  pose proof (run_length_le is_letter rest).
  repeat (case_match; cbn; try lia).
  apply andb_true_iff in H6 as [_ Hq%bool_decide_eq_true]. apply lookup_lt_Some in Hq. lia.
Qed.

Lemma small_string_length : match_length_ok small_string.
Proof.
  intros c rest. unfold small_string.
  destruct (c =? double_quote)%char eqn:H1; [cbn; lia|].
  destruct (c =? percent)%char eqn:H2; [by destruct rest as [|c' rest]; cbn; [lia|case_match; cbn; lia]|].
  destruct (c =? "\")%char eqn:H3; [by destruct rest; cbn; lia|]. cbn -[is_special].
  assert (is_special [double_quote; percent; "\"%char] c = false) as ->.
  { apply bool_decide_eq_false. apply Ascii.eqb_neq in H1, H2, H3. set_solver. }
  cbn. pose proof (run_length_le (λ c, negb (is_special [double_quote; percent; "\"%char] c)) rest). lia.
Qed.

Lemma small_multistring_length : match_length_ok small_multistring.
Proof.
  intros c rest. unfold small_multistring. cbn zeta.
  pose proof (run_length_le (Ascii.eqb percent) rest) as Hk.
  destruct (c =? double_quote)%char eqn:H1.
  { destruct (0 <? _); [|cbn; lia]. case_bool_decide as Hb; cbn; [|lia]. apply lookup_lt_Some in Hb. lia. }
  destruct (c =? percent)%char eqn:H2.
  { case_bool_decide as Hb; cbn; [|lia]. apply lookup_lt_Some in Hb. lia. }
  cbn -[is_special].
  assert (is_special [double_quote; percent] c = false) as ->.
  { apply bool_decide_eq_false. apply Ascii.eqb_neq in H1, H2. set_solver. }
  cbn. pose proof (run_length_le (λ c, negb (is_special [double_quote; percent] c)) rest). lia.
Qed.

Lemma run_length_literal special input pos n :
  n = run_length (λ c, negb (is_special special c)) (drop pos input) →
  literal_match special input (pos, pos + n).
Proof.
  intros ->. unfold literal_match. cbn. rewrite <- lookup_drop.
  destruct (drop pos input !! _) as [c|] eqn:Hc; [|done].
  apply run_length_stop, negb_false_iff, bool_decide_eq_true in Hc. done.
Qed.

Lemma small_start_regex rest :
  0 < run_length (Ascii.eqb percent) rest →
  rest !! run_length (Ascii.eqb percent) rest = Some double_quote →
  normal_regex RuleMultiStringStart
    (take (S (S (run_length (Ascii.eqb percent) rest))) ("m"%char :: rest)).
Proof.
  destruct (run_length_replicate percent rest) as [rest' Hrest].
  revert Hrest. generalize (run_length (Ascii.eqb percent) rest) as k. intros k -> Hk Hq.
  rewrite lookup_app_r in Hq by (by rewrite length_replicate).
  rewrite length_replicate, Nat.sub_diag in Hq. destruct rest' as [|q rest']; [done|]. injection Hq as ->.
  destruct k as [|k]; [lia|]. exists k. rewrite firstn_cons. f_equal.
  etrans; [|apply (take_app_length (replicate (S k) percent ++ [double_quote]) rest')].
  f_equal; [rewrite length_app, length_replicate; cbn; lia|by rewrite <- app_assoc].
Qed.

Lemma small_string_literal c rest n :
  small_string c rest = (Some RuleStrLiteral, n) →
  n = run_length (λ c, negb (is_special [double_quote; percent; "\"%char] c)) (c :: rest).
Proof. unfold small_string. intros Hs. by repeat (case_match; simplify_eq). Qed.

Lemma small_multistring_literal c rest n :
  small_multistring c rest = (Some RuleMultiLiteral, n) →
  n = run_length (λ c, negb (is_special [double_quote; percent] c)) (c :: rest).
Proof. unfold small_multistring. cbn zeta. intros Hs. by repeat (case_match; simplify_eq). Qed.

Lemma literal_at special input pos span c rest :
  span_ok input pos span → span.1 = pos → drop pos input = c :: rest →
  span.2 - span.1 = run_length (λ c, negb (is_special special c)) (c :: rest) →
  literal_match special input span.
Proof.
  intros (_ & Hlt & _) <- Hdrop Hn. destruct span as [s e]. cbn in *.
  replace e with (s + (e - s)) by lia. apply run_length_literal. by rewrite Hdrop.
Qed.

#[export] Instance small_logos_laws : LogosLaws.
Proof.
  split.
  - intros input pos rule span Hm.
    apply match_at_some in Hm as ((H1 & H2 & H3) & _); [|apply small_normal_length].
    repeat split; [lia|done..].
  - intros input pos rule span Hm. by apply match_at_some in Hm as (? & _); [|apply small_string_length].
  - intros input pos rule span Hm.
    by apply match_at_some in Hm as (? & _); [|apply small_multistring_length].
  - intros input pos rule span Hm.
    apply match_at_some in Hm as (_ & _ & c & rest & _ & Hf & ->); [|apply small_normal_length].
    revert Hf. generalize (span.2 - span.1). intros n Hf. unfold small_normal in Hf. cbn zeta in Hf.
    repeat (case_match; simplify_eq; try done).
    repeat match goal with H : _ && _ = true |- _ => apply andb_true_iff in H as [? ?] end.
    repeat match goal with
           | H : (_ =? _)%char = true |- _ => apply Ascii.eqb_eq in H as ->
           | H : (0 <? _) = true |- _ => apply Nat.ltb_lt in H
           | H : bool_decide _ = true |- _ => apply bool_decide_eq_true in H
           end.
    by apply small_start_regex.
  - intros input pos rule span Hm.
    apply match_at_some in Hm as (Hspan & Hpos & c & rest & Hdrop & Hf & _); [|apply small_string_length].
    destruct rule; try done. by eapply literal_at; [..|apply small_string_literal].
  - intros input pos rule span Hm.
    apply match_at_some in Hm as (Hspan & Hpos & c & rest & Hdrop & Hf & _);
      [|apply small_multistring_length].
    destruct rule; try done. by eapply literal_at; [..|apply small_multistring_literal].
Qed.

(** ** Examples *)

Definition bytes (s : string) : Bytes := String.list_ascii_of_string s.
Definition quote : string := String double_quote EmptyString.

(** The example at the top of the source: a string, with an interpolated record access,
    in which there is a string. *)
Definition nested : Bytes :=
  bytes (quote +:+ "a %{ {b " +:+ quote +:+ "40" +:+ quote +:+ "} c } d" +:+ quote)%string.

Example lexing_terminates_witness :
  ∃ ts err lx, tokens nested (S (length nested)) (S (length nested)) lexer_new = Done (ts, err, lx).
Proof.
  apply (lexing_terminates nested). intros i Hi. exfalso.
  assert (carriage_return ∉ nested) as Hn by (apply (bool_decide_eq_false _); vm_compute; reflexivity).
  by apply Hn, list_elem_of_lookup; exists i.
Defined.

Definition nested_run : outcome (list SpannedToken * option LexicalError * Lexer) :=
  tokens nested 30 30 lexer_new.

Example nested_tokens :
  match nested_run with
  | Done (ts, err, lx) => (map (λ t, t.1.2) ts, err, delims lx)
  | _ => ([], None, [DBrace])
  end =
  ([TokNormal TkDoubleQuote; TokStr (StrLiteral (bytes "a "%string)); TokStr StrInterpolation;
    TokNormal TkLBrace; TokNormal (TkIdentifier (bytes "b"%string)); TokNormal TkDoubleQuote;
    TokStr (StrLiteral (bytes "40"%string)); TokNormal TkDoubleQuote; TokNormal TkRBrace;
    TokNormal (TkIdentifier (bytes "c"%string)); TokNormal TkRBrace;
    TokStr (StrLiteral (bytes " d"%string)); TokNormal TkDoubleQuote], None, []).
Proof. vm_compute. reflexivity. Qed.

Example tokens_follow_delimiters_witness :
  ∃ ts lx, nested_run = Done (ts, None, lx) ∧ run_pda (Some []) ts = Some (delims lx) ∧ delims lx = [].
Proof.
  destruct nested_run as [[[ts err] lx]| |] eqn:Hrun; [|vm_compute in Hrun; discriminate Hrun..].
  pose proof (tokens_follow_delimiters nested 30 30 ts err lx Hrun) as [Hpda _].
  vm_compute in Hrun. exists ts, lx. split; [|split; [exact Hpda|]]; by injection Hrun as <- <- <-.
Defined.

Example token_spans_ordered_witness :
  ∃ ts err lx, nested_run = Done (ts, err, lx) ∧ spans_from nested 0 ts.
Proof.
  destruct nested_run as [[[ts err] lx]| |] eqn:Hrun; [|vm_compute in Hrun; discriminate Hrun..].
  exists ts, err, lx. split; [reflexivity|]. exact (token_spans_ordered nested 30 30 ts err lx Hrun).
Defined.

(** A carriage return that is alone in a string is not an error: the rule of literals
    matches it, and the assertion of [normalize_line_endings] fails. *)
Example lone_carriage_return_in_string :
  tokens (bytes (quote +:+ "a" +:+ String carriage_return "b" +:+ quote)%string) 10 10 lexer_new = Panic.
Proof. vm_compute. reflexivity. Qed.

(** Three percent signs before a brace, in a string opened with two. *)
Example excess_percent_is_text :
  match tokens (bytes ("m%%" +:+ quote +:+ "%%%{")%string) 10 10 lexer_new with
  | Done (ts, _, lx) => (ts, delims lx)
  | _ => ([], [])
  end =
  ([(0, TokNormal (TkMultiStringStart 4), 4); (4, TokMultiStr (MultiLiteral [percent]), 5);
    (5, TokMultiStr MultiInterpolation, 8)], [DInterpolation; DMultiString 3]).
Proof. vm_compute. reflexivity. Qed.
