(* ===== verification/PrettyStrings.v ===== *)
(** * Strings in the pretty printer ([parser/src/ast/pretty.rs])

    How strings, identifiers and enum tags are printed: escaped between quotes, or as
    multi-line strings with enough percent signs. A document of the pretty printer is
    seen as what it renders to at a given indentation; the width of the page only
    matters to groups, and a string has none of its own. *)
From Stdlib Require Import Ascii.
From Stdlib Require Import QArith.Qcanon.
From stdpp Require Import strings.
From S2P Require Import Prelude IndexMap Values Records Make Ast ParserUtils Lexer.

Inductive StringRenderStyle : Type := ForceMonoline | Multiline.

(** ** Atoms *)

(** [IsAtom] *)
Fixpoint is_atom (a : Ast) : bool :=
  match a with
  | NNull | NBool _ | NString _ | NStringChunks _ | NEnumVariant _ None | NRecord _ | NArray _
  | NVar _
  | NPrimOpApp (PRecordStatAccess _) _ | NPrimOpApp PRecordGet _
  | NPrimOpApp PBoolAnd _ | NPrimOpApp PBoolOr _ => true
  | NNumber n => if Qclt_le_dec n 0%Qc then false else true
  | NType typ => is_atom_type typ
  | _ => false
  end
with is_atom_type (t : Type_) : bool :=
  match t with
  | ATyDyn | ATyNumber | ATyBool | ATyString | ATyVar _ | ATyRecord _ | ATyEnum _ => true
  | ATyContract a => is_atom a
  | _ => false
  end.

Definition needs_parens_in_type_pos (t : Type_) : bool :=
  match t with
  | ATyContract (NFun _ _ | NLet _ _ _ | NIfThenElse _ _ _ | NImport _) => true
  | _ => false
  end.

(** ** The percent signs of a multi-line string *)

Definition percent_sign : ascii := "%"%char.
Definition left_brace : ascii := "{"%char.

(** The number of times [c] is repeated at the start of [s]. *)
Fixpoint repeated (c : ascii) (s : Bytes) : nat :=
  match s with c' :: s => if (c =? c')%char then S (repeated c s) else 0 | [] => 0 end.

(** The regular expression [([%]+\{)|(quote[%]+)] at the start of [s]: the length of its
    match. *)
Definition clash_here (s : Bytes) : option nat :=
  let k := repeated percent_sign s in
  if (0 <? k) && bool_decide (s !! k = Some left_brace) then Some (S k)
  else
    match s with
    | c :: s' =>
        let k := repeated percent_sign s' in
        if (c =? double_quote)%char && (0 <? k) then Some (S k) else None
    | [] => None
    end.

(** [find_iter]: the lengths of the matches, from left to right without overlap; [skip]
    bytes of the last match are left. *)
Fixpoint clashes (skip : nat) (s : Bytes) : list nat :=
  match s with
  | [] => []
  | c :: s' =>
      match skip with
      | S skip => clashes skip s'
      | 0 =>
          match clash_here s with
          | Some n => n :: clashes (n - 1) s'
          | None => clashes 0 s'
          end
      end
  end.

(** [max()] *)
Definition max_of (l : list nat) : option nat :=
  match l with [] => None | n :: l => Some (foldl Nat.max n l) end.

Definition min_interpolate_sign (text : Bytes) : nat := default 1 (max_of (clashes 0 text)).

(** ** Escapes *)

(** [str::replace], of one byte and of two. *)
Definition replace_byte (c : ascii) (by_ : Bytes) (s : Bytes) : Bytes :=
  concat (map (λ c', if (c' =? c)%char then by_ else [c']) s).

Fixpoint replace_two (c1 c2 : ascii) (by_ : Bytes) (s : Bytes) : Bytes :=
  match s with
  | c :: ((c' :: s') as rest) =>
      if (c =? c1)%char && (c' =? c2)%char then by_ ++ replace_two c1 c2 by_ s'
      else c :: replace_two c1 c2 by_ rest
  | _ => s
  end.

Definition backslash : ascii := "\"%char.

Definition escape (s : Bytes) : Bytes :=
  let s := replace_byte backslash [backslash; backslash] s in
  let s := replace_two percent_sign left_brace [backslash; percent_sign; left_brace] s in
  let s := replace_byte double_quote [backslash; double_quote] s in
  let s := replace_byte newline [backslash; "n"%char] s in
  replace_byte carriage_return [backslash; "r"%char] s.

(** ** Identifiers *)

Definition in_range (lo hi : ascii) (c : ascii) : bool :=
  let n := N_of_ascii c in ((N_of_ascii lo <=? n) && (n <=? N_of_ascii hi))%N.
Definition alphabetic (c : ascii) : bool := in_range "a" "z" c || in_range "A" "Z" c.
Definition identifier_byte (c : ascii) : bool :=
  (c =? "_")%char || alphabetic c || in_range "0" "9" c || (c =? "-")%char.

(** [QUOTING_REGEX] *)
Definition is_quoting_match (s : Bytes) : bool :=
  match drop (repeated "_" s) s with
  | c :: rest => alphabetic c && forallb identifier_byte rest
  | [] => false
  end.

Definition KEYWORDS : list string :=
  ["Dyn"; "Number"; "Bool"; "String"; "Array"; "if"; "then"; "else"; "forall"; "in"; "let";
   "rec"; "match"; "null"; "true"; "false"; "fun"; "import"; "merge"; "default"; "doc";
   "optional"; "priority"; "force"; "not_exported"]%string.

Definition quoted (s : Bytes) : Bytes := double_quote :: escape s ++ [double_quote].

Definition ident_quoted (id : Bytes) : Bytes :=
  if is_quoting_match id && negb (bool_decide (id ∈ map String.list_ascii_of_string KEYWORDS))
  then id else quoted id.

Definition enum_tag_quoted (id : Bytes) : Bytes := if is_quoting_match id then id else quoted id.

(** ** Documents *)

Definition Doc : Type := nat → Bytes.

Definition doc_nil : Doc := λ _, [].
Definition doc_text (s : Bytes) : Doc := λ _, s.
Definition doc_append (d1 d2 : Doc) : Doc := λ i, d1 i ++ d2 i.
Definition doc_nest (n : nat) (d : Doc) : Doc := λ i, d (i + n).
Definition doc_concat (ds : list Doc) : Doc := foldr doc_append doc_nil ds.
Definition spaces (n : nat) : Bytes := replicate n " "%char.
Definition hardline : Doc := λ i, newline :: spaces i.
Definition double_quotes (d : Doc) : Doc :=
  doc_append (doc_text [double_quote]) (doc_append d (doc_text [double_quote])).
Definition enclose (before after : Bytes) (d : Doc) : Doc :=
  doc_append (doc_text before) (doc_append d (doc_text after)).

(** ** String chunks *)

Definition contains_byte (c : ascii) (chunks : list StringChunk) : bool :=
  existsb (λ chunk, match chunk with
                    | AChunkLiteral s => existsb (Ascii.eqb c) (String.list_ascii_of_string s)
                    | AChunkExpr _ _ => false
                    end) chunks.

Definition contains_newline : list StringChunk → bool := contains_byte newline.
Definition contains_carriage_return : list StringChunk → bool := contains_byte carriage_return.

(** [split_inclusive('\n')] *)
Fixpoint split_inclusive (s : Bytes) : list Bytes :=
  match s with
  | [] => []
  | c :: s =>
      if (c =? newline)%char then [c] :: split_inclusive s
      else match split_inclusive s with [] => [[c]] | l :: ls => (c :: l) :: ls end
  end.

(** A line, with a hard line for its newline when it has one ([strip_suffix('\n')]). *)
Definition line_doc (line : Bytes) : Doc :=
  match rfind_newline line with
  | Some (before, []) => doc_append (doc_text before) hardline
  | _ => doc_text line
  end.

Section chunks.
Variable pretty_ast : Ast → Doc.

Definition chunks_doc (chunks : list StringChunk) (style : StringRenderStyle) : Doc :=
  let multiline :=
    match style with Multiline => true | ForceMonoline => false end
    && contains_newline chunks && negb (contains_carriage_return chunks) in
  let nb_perc :=
    if multiline then
      default 1 (max_of (map (λ chunk, match chunk with
                                       | AChunkLiteral s => min_interpolate_sign (String.list_ascii_of_string s)
                                       | AChunkExpr _ _ => 1
                                       end) chunks))
    else 1 in
  let interp := replicate nb_perc percent_sign in
  let line_maybe := if multiline then hardline else doc_nil in
  let start_delimiter := if multiline then "m"%char :: interp else [] in
  let end_delimiter := if multiline then interp else [] in
  let chunk_doc chunk :=
    match chunk with
    | AChunkLiteral s =>
        if multiline then doc_concat (map line_doc (split_inclusive (String.list_ascii_of_string s)))
        else doc_text (escape (String.list_ascii_of_string s))
    | AChunkExpr e _ =>
        doc_concat [doc_text interp; doc_text [left_brace]; pretty_ast e; doc_text ["}"%char]]
    end in
  enclose start_delimiter end_delimiter
    (double_quotes
       (doc_append
          (doc_nest (if multiline then 2 else 0)
             (doc_append line_maybe (doc_concat (map chunk_doc chunks))))
          line_maybe)).

End chunks.
