(* ===== verification/PrettyStringsTheorems.v ===== *)
(** * Theorems on printed strings

    What is printed between quotes is read back by the lexer; a multi-line string has
    enough percent signs, and is read back after the stripping of its indentation exactly
    when it has a line that is not indented. *)
From Stdlib Require Import Ascii.
From stdpp Require Import strings.
From S2P Require Import Prelude IndexMap Values Records Make Ast Pattern ParserUtils ParserUtilsTheorems Lexer LexerTheorems PrettyStrings.

(** ** Multi-line strings *)

(** A multi-line string at the indentation [i], without its delimiters. *)
Definition multiline_bytes (i : nat) (s : Bytes) : Bytes :=
  doc_append (doc_nest 2 (doc_append hardline (doc_concat (map line_doc (split_inclusive s)))))
    hardline i.

Lemma spaces_blank i : blank (spaces i) = true.
Proof. induction i; [done|]. exact IHi. Qed.

Lemma spaces_no_newline i : no_newline (spaces i).
Proof. intros [[=] _]%elem_of_replicate. Qed.

Lemma blank_app l1 l2 : blank (l1 ++ l2) = blank l1 && blank l2.
Proof. apply forallb_app. Qed.

Lemma indent_of_spaces i l : indent_of (spaces i ++ l) = i + indent_of l.
Proof. induction i as [|i IH]; [done|]. change (S (indent_of (spaces i ++ l)) = S i + indent_of l). by rewrite IH. Qed.

Lemma split_join ls : ls ≠ [] → List.Forall no_newline ls → split_lines (join_lines ls) = ls.
Proof.
  assert (∀ l cs, no_newline l → split_lines (l ++ newline :: cs) = l :: split_lines cs) as Happ.
  { intros l cs. induction l as [|c l IH]; [done|]. intros [Hc Hl]%not_elem_of_cons. cbn.
    rewrite (proj2 (Ascii.eqb_neq _ _)) by congruence. by rewrite IH. }
  assert (∀ l, no_newline l → split_lines l = [l]) as Hone.
  { intros l. induction l as [|c l IH]; [done|]. intros [Hc Hl]%not_elem_of_cons. cbn.
    rewrite (proj2 (Ascii.eqb_neq _ _)) by congruence. by rewrite IH. }
  induction ls as [|l ls IH]; [done|]. intros _ [Hl Hls]%Forall_cons.
  destruct ls as [|l2 ls]; [by apply Hone|]. rewrite join_lines_cons, Happ by done.
  by rewrite IH.
Qed.

Lemma join_split cs : join_lines (split_lines cs) = cs.
Proof.
  induction cs as [|c cs IH]; [done|]. cbn.
  destruct (split_lines_cons cs) as (l & ls & Hcs). rewrite Hcs in *.
  destruct (c =? newline)%char eqn:Hc; [|by rewrite <- join_lines_push, IH].
  apply Ascii.eqb_eq in Hc as ->. by rewrite <- IH.
Qed.

(** The lines after the first one are indented. *)
Definition indent_lines (i : nat) (ls : list Bytes) : list Bytes :=
  match ls with [] => [] | l :: ls => l :: map (List.app (spaces i)) ls end.

Lemma rfind_single c : rfind_newline [c] = if (c =? newline)%char then Some ([], []) else None.
Proof. done. Qed.

Lemma line_doc_push c l i : c ≠ newline → line_doc (c :: l) i = c :: line_doc l i.
Proof.
  intros Hc. unfold line_doc. cbn [rfind_newline].
  destruct (rfind_newline l) as [[before [|]]|]; [done..|].
  by rewrite (proj2 (Ascii.eqb_neq _ _)).
Qed.

Lemma literal_doc_lines s i :
  doc_concat (map line_doc (split_inclusive s)) i = join_lines (indent_lines i (split_lines s)).
Proof.
  induction s as [|c s IH]; [done|]. cbn [split_inclusive split_lines].
  destruct (split_lines_cons s) as (l & ls & Hs). rewrite Hs in *.
  destruct (c =? newline)%char eqn:Hc.
  - apply Ascii.eqb_eq in Hc as ->. cbn [map doc_concat foldr].
    change (newline :: spaces i ++ doc_concat (map line_doc (split_inclusive s)) i =
            join_lines (indent_lines i ([] :: l :: ls))). rewrite IH. cbn [indent_lines map].
    rewrite (join_lines_cons []) by done. cbn [List.app]. f_equal.
    destruct ls; [done|]. cbn [map]. rewrite !join_lines_cons by done. apply app_assoc.
  - apply Ascii.eqb_neq in Hc. destruct (split_inclusive s) as [|l' ls'].
    + cbn [map doc_concat foldr indent_lines] in IH |- *. rewrite <- join_lines_push, <- IH.
      unfold doc_append. by rewrite line_doc_push.
    + cbn [map doc_concat foldr indent_lines] in IH |- *. rewrite <- join_lines_push, <- IH.
      unfold doc_append. by rewrite line_doc_push.
Qed.

Lemma join_lines_prefix p l ls : p ++ join_lines (l :: ls) = join_lines ((p ++ l) :: ls).
Proof. destruct ls; [done|]. rewrite !join_lines_cons by done. apply app_assoc. Qed.

Lemma join_lines_snoc ls l : ls ≠ [] → join_lines (ls ++ [l]) = join_lines ls ++ newline :: l.
Proof.
  induction ls as [|l' ls IH]; [done|]. intros _. destruct ls as [|l2 ls]; [done|].
  cbn [List.app]. rewrite (join_lines_cons l' (l2 :: ls ++ [l])), (join_lines_cons l' (l2 :: ls)) by done.
  rewrite <- app_assoc. cbn [List.app]. f_equal. f_equal. by apply IH.
Qed.

(** The lines of the printed string: an empty one, those of the string, a blank one. *)
Lemma multiline_lines i s :
  split_lines (multiline_bytes i s) =
  [] :: map (List.app (spaces (i + 2))) (split_lines s) ++ [spaces i].
Proof.
  assert (List.Forall no_newline (map (List.app (spaces (i + 2))) (split_lines s))) as Hall.
  { apply List.Forall_map. eapply Forall_impl; [apply split_lines_no_newline|].
    intros l Hl. apply not_elem_of_app. split; [apply spaces_no_newline|done]. }
  rewrite <- (split_join ([] :: map (List.app (spaces (i + 2))) (split_lines s) ++ [spaces i])); [|done|].
  2:{ constructor; [apply not_elem_of_nil|]. apply Forall_app. split; [done|].
      repeat constructor. apply spaces_no_newline. }
  f_equal. unfold multiline_bytes, doc_append, doc_nest. rewrite literal_doc_lines.
  destruct (split_lines_cons s) as (l & ls & ->). clear Hall. cbn [indent_lines map].
  set (body := (spaces (i + 2) ++ l) :: map _ ls). unfold hardline.
  rewrite (join_lines_cons [] (body ++ [spaces i])) by (intros Hnil; by apply (f_equal length) in Hnil).
  cbn [List.app]. rewrite join_lines_snoc by done. unfold body.
  rewrite <- join_lines_prefix. by rewrite <- app_assoc.
Qed.

Definition shift (i : nat) (min : option nat) : option nat := match min with Some m => Some (i + m) | None => None end.

Lemma common_indent_fold i (ls : list Bytes) acc :
  foldl (λ min l, if blank l then min else lower min (indent_of l)) (shift i acc)
    (map (List.app (spaces i)) ls) =
  shift i (foldl (λ min l, if blank l then min else lower min (indent_of l)) acc ls).
Proof.
  revert acc. induction ls as [|l ls IH]; intros acc; [done|].
  cbn [map foldl]. rewrite blank_app, spaces_blank, indent_of_spaces. cbn [andb].
  destruct (blank l); [apply IH|]. rewrite <- IH. f_equal.
  unfold lower, below_min. destruct acc as [m|]; cbn [shift]; [|done].
  destruct (indent_of l <? m) eqn:Hlt.
  - apply Nat.ltb_lt in Hlt. by rewrite (proj2 (Nat.ltb_lt (i + indent_of l) (i + m))) by lia.
  - apply Nat.ltb_ge in Hlt. by rewrite (proj2 (Nat.ltb_ge (i + indent_of l) (i + m))) by lia.
Qed.

Lemma multiline_common_indent i s :
  common_indent (split_lines (multiline_bytes i s)) = shift (i + 2) (common_indent (split_lines s)).
Proof.
  rewrite multiline_lines. unfold common_indent. cbn [foldl blank forallb].
  rewrite foldl_app. change None with (shift (i + 2) None) at 1. rewrite common_indent_fold.
  cbn [foldl]. by rewrite spaces_blank.
Qed.

Lemma drop_indent_shift i min cur l :
  drop_indent (shift i min) (i + cur) l = drop_indent min cur l.
Proof.
  revert cur. induction l as [|c l IH]; intros cur; [done|]. cbn [drop_indent].
  assert (below_min (i + cur) (shift i min) = below_min cur min) as ->.
  { destruct min as [m|]; [|done]. cbn [shift below_min].
    destruct (cur <? m) eqn:Hlt; [apply Nat.ltb_lt in Hlt|apply Nat.ltb_ge in Hlt].
    - apply Nat.ltb_lt. lia.
    - apply Nat.ltb_ge. lia. }
  destruct (_ && _); [|done]. rewrite <- Nat.add_succ_r. apply IH.
Qed.

Lemma drop_indent_spaces i min cur l :
  (∀ k, k < i → below_min (cur + k) min = true) →
  drop_indent min cur (spaces i ++ l) = drop_indent min (cur + i) l.
Proof.
  revert cur. induction i as [|i IH]; intros cur Hb; [by rewrite Nat.add_0_r|].
  change (spaces (S i) ++ l) with (" "%char :: (spaces i ++ l)). cbn [drop_indent].
  pose proof (Hb 0) as H0. rewrite Nat.add_0_r in H0. rewrite H0 by lia. cbn.
  rewrite IH, Nat.add_succ_r; [done|]. intros k Hk. rewrite Nat.add_succ_comm. apply Hb. lia.
Qed.

(** Each line loses the indentation of the printer, and then its own share. *)
Lemma drop_indent_line i min l :
  drop_indent (shift i min) 0 (spaces i ++ l) = drop_indent min 0 l.
Proof.
  rewrite drop_indent_spaces.
  - rewrite <- (drop_indent_shift i min 0 l). f_equal. lia.
  - intros k Hk. destruct min as [m|]; [|done]. apply Nat.ltb_lt. cbn. lia.
Qed.

Lemma drop_indent_blank min cur l : blank l = true → blank (drop_indent min cur l) = true.
Proof.
  revert cur. induction l as [|c l IH]; intros cur Hl; [done|]. cbn [drop_indent].
  destruct (_ && _); [|done]. apply IH. by apply andb_true_iff in Hl as [_ ?].
Qed.

Lemma unindented_multiline i s :
  unindented (multiline_bytes i s) =
  join_lines (map (drop_indent (common_indent (split_lines s)) 0) (split_lines s)).
Proof.
  unfold unindented. rewrite multiline_common_indent, multiline_lines.
  set (min := common_indent (split_lines s)).
  destruct (split_lines_cons s) as (l & ls & Hs). rewrite Hs.
  set (f := drop_indent (shift (i + 2) min) 0). set (g := drop_indent min 0).
  assert (map f (map (List.app (spaces (i + 2))) (l :: ls)) = map g (l :: ls)) as Hmap.
  { rewrite map_map. apply map_ext. intros x. apply drop_indent_line. }
  assert (blank (f (spaces i)) = true) as Hlast by (apply drop_indent_blank, spaces_blank).
  change (map f ([] :: map (List.app (spaces (i + 2))) (l :: ls) ++ [spaces i])) with
    ([] :: map f (map (List.app (spaces (i + 2))) (l :: ls) ++ [spaces i])).
  rewrite map_app, Hmap. change (map f [spaces i]) with [f (spaces i)].
  change (drop_first_blank ([] :: map g (l :: ls) ++ [f (spaces i)])) with (map g (l :: ls) ++ [f (spaces i)]).
  unfold drop_last_blank. rewrite last_last, removelast_last, Hlast.
  replace (1 <? length _) with true; [done|]. symmetry. apply Nat.ltb_lt.
  rewrite length_app. cbn. lia.
Qed.

Lemma common_indent_spec ls :
  match common_indent ls with
  | Some m => (∃ l, l ∈ ls ∧ blank l = false ∧ indent_of l = m) ∧
              ∀ l, l ∈ ls → blank l = false → m ≤ indent_of l
  | None => ∀ l, l ∈ ls → blank l = true
  end.
Proof.
  unfold common_indent.
  assert (∀ acc, match foldl (λ min l, if blank l then min else lower min (indent_of l)) acc ls with
    | Some m => (acc = Some m ∨ ∃ l, l ∈ ls ∧ blank l = false ∧ indent_of l = m) ∧
                (∀ l, l ∈ ls → blank l = false → m ≤ indent_of l) ∧ (∀ a, acc = Some a → m ≤ a)
    | None => acc = None ∧ ∀ l, l ∈ ls → blank l = true
    end) as Hfold.
  { induction ls as [|l ls IH]; intros acc; cbn [foldl].
    { destruct acc as [a|]; [|split; [done|by intros ? ?%elem_of_nil]].
      split; [by left|]. split; [by intros ? ?%elem_of_nil|]. intros b [= ->]. lia. }
    destruct (blank l) eqn:Hb.
    - specialize (IH acc). destruct (foldl _ acc ls) as [m|].
      + destruct IH as (Hm & Hall & Hacc). split_and!; [| |done].
        * destruct Hm as [->|(x & Hx & ?)]; [by left|right]. exists x. split; [by right|done].
        * intros x [->|Hx]%elem_of_cons Hxb; [congruence|by apply Hall].
      + destruct IH as [-> Hall]. split; [done|]. intros x [->|Hx]%elem_of_cons; [done|by apply Hall].
    - specialize (IH (lower acc (indent_of l))).
      assert (∃ a, lower acc (indent_of l) = Some a ∧ a ≤ indent_of l ∧
              (a = indent_of l ∨ acc = Some a) ∧ (∀ b, acc = Some b → a ≤ b)) as (a & Ha & Hle & Hor & Hb').
      { unfold lower, below_min. destruct acc as [b|].
        2:{ exists (indent_of l). split_and!; [done|done|by left|done]. }
        destruct (indent_of l <? b) eqn:Hlt; [apply Nat.ltb_lt in Hlt|apply Nat.ltb_ge in Hlt].
        - exists (indent_of l). split_and!; [done|done|by left|]. intros b0 [= <-]. lia.
        - exists b. split_and!; [done|done|by right|]. intros b0 [= <-]. lia. }
      rewrite Ha in *. destruct (foldl _ (Some a) ls) as [m|]; [|by destruct IH].
      destruct IH as (Hm & Hall & Hacc). pose proof (Hacc a eq_refl). split_and!.
      + destruct Hm as [[= <-]|(x & Hx & ?)]; [|right; exists x; split; [by right|done]].
        destruct Hor as [->|?]; [right; exists l; split; [by left|done]|by left].
      + intros x [->|Hx]%elem_of_cons Hxb; [lia|by apply Hall].
      + intros b Hb''. specialize (Hb' b Hb''). lia. }
  specialize (Hfold None). destruct (foldl _ None ls) as [m|]; [|by destruct Hfold].
  destruct Hfold as ([[=]|Hm] & Hall & _). done.
Qed.

Lemma drop_indent_length min cur l : length (drop_indent min cur l) ≤ length l.
Proof.
  revert cur. induction l as [|c l IH]; intros cur; [done|]. cbn [drop_indent].
  destruct (_ && _); [|done]. specialize (IH (S cur)). cbn. lia.
Qed.

Lemma drop_indent_id min l : drop_indent min 0 l = l ↔ min = Some 0 ∨ indent_of l = 0.
Proof.
  destruct l as [|c l]; cbn [drop_indent indent_of]; [by split; [right|]|].
  destruct (is_blank c) eqn:Hc; cbn [andb]; [|by split; [right|]].
  destruct min as [[|m]|]; cbn.
  - by split; [left|].
  - split; [|by intros [[=]|[=]]]. intros Heq.
    pose proof (drop_indent_length (Some (S m)) 1 l) as Hl. rewrite Heq in Hl. cbn in Hl. lia.
  - split; [|by intros [[=]|[=]]]. intros Heq.
    pose proof (drop_indent_length None 1 l) as Hl. rewrite Heq in Hl. cbn in Hl. lia.
Qed.

Lemma blank_empty l : blank l = true → indent_of l = 0 → l = [].
Proof. destruct l as [|c l]; [done|]. cbn. by destruct (is_blank c). Qed.

(** The text that keeps its indentation: a line that is not blank starts at the margin,
    or there are only empty lines. *)
Definition has_margin (s : Bytes) : Prop :=
  (∃ l, l ∈ split_lines s ∧ blank l = false ∧ indent_of l = 0) ∨
  (∀ l, l ∈ split_lines s → l = []).

(** The stripping of the indentation reads a printed text back, exactly when it has a
    margin. *)
Lemma strip_multiline_exact i s :
  strip_indent [AChunkLiteral (String.string_of_list_ascii (multiline_bytes i s))] =
  Done [AChunkLiteral (String.string_of_list_ascii s)] ↔ has_margin s.
Proof.
  assert (strip_indent [AChunkLiteral (String.string_of_list_ascii (multiline_bytes i s))] =
          Done [AChunkLiteral (String.string_of_list_ascii (unindented (multiline_bytes i s)))]) as ->.
  { apply strip_literal. }
  rewrite unindented_multiline. set (min := common_indent (split_lines s)).
  assert (join_lines (map (drop_indent min 0) (split_lines s)) = s ↔
          ∀ l, l ∈ split_lines s → drop_indent min 0 l = l) as Hiff.
  { split.
    - intros Heq.
      assert (map (drop_indent min 0) (split_lines s) = split_lines s) as Hmap.
      { rewrite <- Heq at 2. symmetry. apply split_join.
        - by destruct (split_lines_cons s) as (? & ? & ->).
        - apply List.Forall_map. eapply Forall_impl; [apply split_lines_no_newline|].
          intros x. apply drop_indent_no_newline. }
      intros l Hl. apply list_elem_of_lookup in Hl as [k Hk].
      pose proof (f_equal (.!! k) Hmap) as Hk'. cbn in Hk'.
      change (map (drop_indent min 0) (split_lines s)) with (drop_indent min 0 <$> split_lines s) in Hk'.
      rewrite list_lookup_fmap, Hk in Hk'. by injection Hk'.
    - intros Hall. rewrite <- (join_split s) at 2. f_equal.
      rewrite <- (map_id (split_lines s)) at 2. apply map_ext_in. intros l Hl. by apply Hall, list_elem_of_In. }
  pose proof (common_indent_spec (split_lines s)) as Hspec. fold min in Hspec.
  transitivity (∀ l, l ∈ split_lines s → drop_indent min 0 l = l).
  { rewrite <- Hiff. split; [|by intros ->]. intros [= Heq].
    apply (f_equal String.list_ascii_of_string) in Heq.
    by rewrite !String.list_ascii_of_string_of_list_ascii in Heq. }
  setoid_rewrite drop_indent_id. unfold has_margin. destruct min as [m|].
  - destruct Hspec as [(l & Hl & Hb & Hm) Hmin]. split.
    + intros Hall. left. exists l. split_and!; [done|done|]. destruct (Hall l Hl) as [[= ->]|]; done.
    + intros [(l' & Hl' & Hb' & H0)|Hempty] x Hx.
      * left. f_equal. specialize (Hmin l' Hl' Hb'). lia.
      * right. by rewrite (Hempty x Hx).
  - split.
    + intros Hall. right. intros l Hl. apply blank_empty; [by apply Hspec|]. by destruct (Hall l Hl).
    + intros [(l & Hl & Hb & _)|Hempty] x Hx; [by rewrite Hspec in Hb|]. right. by rewrite (Hempty x Hx).
Qed.

(** The printed form of a literal, between its delimiters. *)
Lemma chunks_doc_literal pretty_ast i lit :
  contains_newline [AChunkLiteral lit] = true → contains_carriage_return [AChunkLiteral lit] = false →
  let text := String.list_ascii_of_string lit in
  let fence := replicate (min_interpolate_sign text) percent_sign in
  chunks_doc pretty_ast [AChunkLiteral lit] Multiline i =
  ("m"%char :: fence) ++ ([double_quote] ++ multiline_bytes i text ++ [double_quote]) ++ fence.
Proof.
  intros Hnl Hcr. unfold chunks_doc. rewrite Hnl, Hcr. cbn [andb negb map max_of foldl default from_option id].
  set (d := doc_concat (map line_doc _)).
  unfold multiline_bytes, enclose, double_quotes, doc_append, doc_nest, doc_text. subst d.
  unfold doc_concat at 1. cbn [foldr]. unfold doc_append, doc_nil. by rewrite List.app_nil_r.
Qed.



(** The text [  a] and [  b] on two lines is read back without its indentation. *)
Example indented_text_is_lost :
  let text := join_lines [bytes "  a"; bytes "  b"]%string in
  unindented (multiline_bytes 0 text) = join_lines [bytes "a"; bytes "b"]%string.
Proof. vm_compute. reflexivity. Qed.

(** ** Escapes *)

(** What an escaped text is, byte by byte. *)
Fixpoint escaped (s : Bytes) : Bytes :=
  match s with
  | [] => []
  | c :: s' =>
      (if (c =? backslash)%char then [backslash; backslash]
       else if (c =? percent_sign)%char then
         match s' with
         | c' :: _ => if (c' =? left_brace)%char then [backslash; percent_sign] else [percent_sign]
         | [] => [percent_sign]
         end
       else if (c =? double_quote)%char then [backslash; double_quote]
       else if (c =? newline)%char then [backslash; "n"%char]
       else if (c =? carriage_return)%char then [backslash; "r"%char]
       else [c]) ++ escaped s'
  end.

(** After the first two replacements. *)
Fixpoint escaped_two (s : Bytes) : Bytes :=
  match s with
  | [] => []
  | c :: s' =>
      (if (c =? backslash)%char then [backslash; backslash]
       else if (c =? percent_sign)%char then
         match s' with
         | c' :: _ => if (c' =? left_brace)%char then [backslash; percent_sign] else [percent_sign]
         | [] => [percent_sign]
         end
       else [c]) ++ escaped_two s'
  end.

Lemma replace_two_other c s by_ :
  (c =? percent_sign)%char = false →
  replace_two percent_sign left_brace by_ (c :: s) = c :: replace_two percent_sign left_brace by_ s.
Proof. intros Hc. destruct s as [|c' s]; [done|]. cbn [replace_two]. by rewrite Hc. Qed.

Lemma replace_two_first s :
  replace_two percent_sign left_brace [backslash; percent_sign; left_brace]
    (replace_byte backslash [backslash; backslash] s) = escaped_two s.
Proof.
  induction s as [|c s IH]; [done|]. unfold replace_byte in *. cbn [map concat escaped_two].
  destruct (c =? backslash)%char eqn:Hb.
  { apply Ascii.eqb_eq in Hb as ->. cbn [List.app]. rewrite !replace_two_other by done. by rewrite IH. }
  cbn [List.app]. destruct (c =? percent_sign)%char eqn:Hp; [|by rewrite replace_two_other, IH].
  apply Ascii.eqb_eq in Hp as ->. destruct s as [|c' s]; [done|].
  cbn [map concat] in IH |- *. destruct (c' =? left_brace)%char eqn:Hl.
  - apply Ascii.eqb_eq in Hl as ->. rewrite <- IH.
    change (if (left_brace =? backslash)%char then [backslash; backslash] else [left_brace]) with [left_brace].
    cbn [List.app]. rewrite (replace_two_other left_brace) by done. done.
  - destruct (c' =? backslash)%char eqn:Hb'; cbn [List.app] in IH |- *; rewrite <- IH;
      cbn [replace_two]; [done|]. rewrite Hl, andb_false_r. done.
Qed.

Lemma replace_byte_app c by_ s1 s2 :
  replace_byte c by_ (s1 ++ s2) = replace_byte c by_ s1 ++ replace_byte c by_ s2.
Proof. unfold replace_byte. by rewrite map_app, concat_app. Qed.

Lemma escape_escaped s : escape s = escaped s.
Proof.
  unfold escape. rewrite replace_two_first. induction s as [|c s IH]; [done|].
  cbn [escaped_two escaped]. rewrite !replace_byte_app, IH. f_equal.
  destruct (c =? backslash)%char; [done|]. destruct (c =? percent_sign)%char.
  { destruct s as [|c' s]; [done|]. by destruct (c' =? left_brace)%char. }
  unfold replace_byte. cbn [map concat]. destruct (c =? double_quote)%char; [done|].
  cbn [List.app map concat]. destruct (c =? newline)%char; [done|]. cbn [List.app map concat].
  by destruct (c =? carriage_return)%char.
Qed.

(** ** Reading an escaped text *)

Definition string_special : list ascii := [double_quote; percent; backslash].

(** The rules of [StringToken], as logos matches them: the longest match. *)
Class StringRules `{Logos} : Prop := {
  rule_double_quote input pos :
    input !! pos = Some double_quote →
    logos_string input pos = Some (Some RuleStrDoubleQuote, (pos, pos + 1));
  rule_escaped_char input pos c :
    input !! pos = Some backslash → input !! S pos = Some c →
    c ∉ ["x"%char; "u"%char; newline] → (N_of_ascii c < 128)%N →
    logos_string input pos = Some (Some (RuleEscapedChar (N_of_ascii c)), (pos, pos + 2));
  rule_percent input pos :
    input !! pos = Some percent → input !! S pos ≠ Some open_brace →
    logos_string input pos = Some (Some RuleStrPercent, (pos, pos + 1));
  rule_literal input pos c :
    input !! pos = Some c → c ∉ carriage_return :: string_special →
    logos_string input pos =
      Some (Some RuleStrLiteral, (pos, pos + run_length (λ c, negb (is_special string_special c)) (drop pos input)));
}.

#[export] Instance small_string_rules : StringRules.
Proof.
  assert (∀ input pos (c : ascii), input !! pos = Some c → drop pos input = c :: drop (S pos) input) as Hdrop.
  { intros input pos c Hc. by apply drop_S. }
  split.
  - intros input pos Hq. cbn. unfold match_at. by rewrite (Hdrop _ _ _ Hq).
  - intros input pos c Hb Hc Hx Hn. cbn. unfold match_at.
    rewrite (Hdrop _ _ _ Hb), (Hdrop _ _ _ Hc). done.
  - intros input pos Hp Hb. cbn. unfold match_at. rewrite (Hdrop _ _ _ Hp).
    destruct (drop (S pos) input) as [|c rest] eqn:Hd; [done|]. cbn.
    destruct (c =? open_brace)%char eqn:Hc; [|done]. apply Ascii.eqb_eq in Hc as ->.
    destruct Hb. rewrite <- (Nat.add_0_r (S pos)), <- lookup_drop, Hd. done.
  - intros input pos c Hc Hs. cbn [logos_string small_logos]. unfold match_at. rewrite (Hdrop _ _ _ Hc).
    apply not_elem_of_cons in Hs as [_ Hs]. unfold string_special in Hs.
    rewrite !not_elem_of_cons in Hs. destruct Hs as (H1 & H2 & H3 & _).
    unfold small_string. rewrite !(proj2 (Ascii.eqb_neq _ _)) by done. done.
Qed.

(** Successive tokens. *)
Inductive lexes `{Logos} (input : Bytes) : Lexer → list SpannedToken → Lexer → Prop :=
| lexes_nil lx : lexes input lx [] lx
| lexes_cons lx lx1 lx2 t ts :
    next input 1 lx = Done (Some (Ok t), lx1) → lexes input lx1 ts lx2 →
    lexes input lx (t :: ts) lx2.

(** The text that a token of a string stands for, when it is made of ASCII characters
    or of bytes of the input. *)
Definition token_text (t : SpannedToken) : option Bytes :=
  match t.1.2 with
  | TokStr (StrLiteral s) => Some s
  | TokStr (StrEscapedChar c) => Some [ascii_of_N c]
  | _ => None
  end.

Fixpoint tokens_text (ts : list SpannedToken) : option Bytes :=
  match ts with
  | [] => Some []
  | t :: ts => s ← token_text t; s' ← tokens_text ts; Some (s ++ s')
  end.

Lemma drop_cons_inv (input : Bytes) pos c rest :
  drop pos input = c :: rest → input !! pos = Some c ∧ drop (S pos) input = rest.
Proof.
  intros Hd. split.
  - by rewrite <- (Nat.add_0_r pos), <- lookup_drop, Hd.
  - rewrite <- Nat.add_1_r, <- drop_drop, Hd. done.
Qed.

Definition not_special (c : ascii) : bool := negb (is_special string_special c).

Lemma not_special_iff c :
  not_special c = true ↔
  (c =? double_quote)%char = false ∧ (c =? percent_sign)%char = false ∧ (c =? backslash)%char = false.
Proof.
  unfold not_special, is_special, string_special.
  rewrite negb_true_iff, bool_decide_eq_false, !not_elem_of_cons, !Ascii.eqb_neq.
  split; [naive_solver|]. intros (? & ? & ?). split_and!; [done..|apply not_elem_of_nil].
Qed.

(** The first byte of an escaped text is the text's own, or is special. *)
Lemma escaped_cons c s :
  (∃ x l, escaped (c :: s) = x :: l ∧ not_special x = false) ∨
  (escaped (c :: s) = c :: escaped s ∧ not_special c = true ∧ c ≠ carriage_return ∧ c ≠ newline).
Proof.
  cbn [escaped]. destruct (c =? backslash)%char eqn:Hb; [left; by eexists _, _|].
  destruct (c =? percent_sign)%char eqn:Hp.
  { left. destruct s as [|c' s]; [by eexists _, _|]. destruct (c' =? left_brace)%char; by eexists _, _. }
  destruct (c =? double_quote)%char eqn:Hq; [left; by eexists _, _|].
  destruct (c =? newline)%char eqn:Hn; [left; by eexists _, _|].
  destruct (c =? carriage_return)%char eqn:Hr; [left; by eexists _, _|].
  right. apply Ascii.eqb_neq in Hn, Hr. split_and!; [done|by apply not_special_iff|done..].
Qed.

(** The longest literal at the start of an escaped text is a part of the text. *)
Lemma plain_run s after k :
  k = run_length not_special (escaped s ++ double_quote :: after) →
  take k (escaped s ++ double_quote :: after) = take k s ∧
  escaped s = take k s ++ escaped (drop k s) ∧ carriage_return ∉ take k s ∧ k ≤ length s.
Proof.
  intros ->. induction s as [|c s IH].
  { change (run_length not_special (escaped [] ++ double_quote :: after)) with 0.
    split_and!; [done|done|apply not_elem_of_nil|done]. }
  destruct (escaped_cons c s) as [(x & l & Heq & Hx)|(Heq & Hc & Hcr & _)].
  - assert (run_length not_special (escaped (c :: s) ++ double_quote :: after) = 0) as ->.
    { rewrite Heq. cbn [List.app run_length]. by rewrite Hx. }
    split_and!; [done|done|apply not_elem_of_nil|lia].
  - rewrite Heq. cbn [List.app run_length]. rewrite Hc.
    destruct IH as (H1 & H2 & H3 & H4). cbn [take drop List.app length].
    split_and!; [by rewrite H1|by rewrite <- H2|by apply not_elem_of_cons|lia].
Qed.

Section reading.
Context `{!Logos, !StringRules} (input : Bytes).

Definition in_string (pos : nat) (ms : list Mode) : Lexer := mkLexer (LexString pos) ms.

Lemma next_escaped pos ms x rest c :
  drop pos input = backslash :: x :: rest → x ∉ ["x"%char; "u"%char; newline] → (N_of_ascii x < 128)%N →
  escape_char (N_of_ascii x) = Some c →
  next input 1 (in_string pos ms) = Done (Some (Ok (pos, TokStr (StrEscapedChar c), pos + 2)), in_string (pos + 2) ms).
Proof.
  intros [Hb Hd]%drop_cons_inv Hx Hn Hc. apply drop_cons_inv in Hd as [Hx' _].
  cbn [next in_string lexer]. rewrite (rule_escaped_char _ _ _ Hb Hx' Hx Hn). cbn. by rewrite Hc.
Qed.

Lemma next_percent pos ms rest :
  drop pos input = percent_sign :: rest → head rest ≠ Some left_brace →
  next input 1 (in_string pos ms) =
    Done (Some (Ok (pos, TokStr (StrLiteral [percent_sign]), pos + 1)), in_string (pos + 1) ms).
Proof.
  intros Hdrop Hr. pose proof (drop_cons_inv _ _ _ _ Hdrop) as [Hp Hd]. cbn [next in_string lexer].
  rewrite rule_percent; [|done|].
  - cbn. unfold slice. cbn. rewrite Hdrop. replace (pos + 1 - pos) with 1 by lia. done.
  - rewrite <- (Nat.add_0_r (S pos)), <- lookup_drop, Hd. by destruct rest.
Qed.

Lemma replace_crlf_id s : carriage_return ∉ s → replace_crlf s = s.
Proof.
  induction s as [|c s IH]; [done|]. intros [Hc Hs]%not_elem_of_cons.
  destruct s as [|c' s]; [done|].
  change (replace_crlf (c :: c' :: s)) with
    (if (c =? carriage_return)%char && (c' =? newline)%char then newline :: replace_crlf s
     else c :: replace_crlf (c' :: s)).
  rewrite (proj2 (Ascii.eqb_neq c carriage_return)) by congruence. cbn [andb]. by rewrite IH.
Qed.

Lemma next_literal pos ms c rest k :
  drop pos input = c :: rest → not_special c = true → c ≠ carriage_return →
  k = run_length not_special (drop pos input) → carriage_return ∉ take k (drop pos input) →
  next input 1 (in_string pos ms) =
    Done (Some (Ok (pos, TokStr (StrLiteral (take k (drop pos input))), pos + k)), in_string (pos + k) ms).
Proof.
  intros Hdrop Hc Hcr -> Hslice. pose proof (drop_cons_inv _ _ _ _ Hdrop) as [Hl _].
  cbn [next in_string lexer]. rewrite (rule_literal _ _ _ Hl).
  2:{ apply not_elem_of_cons. split; [done|].
      by apply negb_true_iff, bool_decide_eq_false in Hc. }
  set (k := run_length not_special (drop pos input)) in *.
  change (run_length _ (drop pos input)) with k.
  assert (slice input (pos, pos + k) = take k (drop pos input)) as Hs.
  { unfold slice. cbn. f_equal. lia. }
  rewrite Hs. cbn [string_action]. rewrite normalize_ok.
  - cbn. by rewrite replace_crlf_id.
  - intros i Hi. destruct Hslice. by eapply list_elem_of_lookup_2.
Qed.

(** The byte that the character after a backslash stands for. *)
Lemma next_pair pos ms x rest c :
  drop pos input = backslash :: x :: rest →
  (x, c) ∈ [(backslash, backslash); (percent_sign, percent_sign); (double_quote, double_quote);
            ("n"%char, newline); ("r"%char, carriage_return)] →
  next input 1 (in_string pos ms) =
    Done (Some (Ok (pos, TokStr (StrEscapedChar (N_of_ascii c)), pos + 2)), in_string (pos + 2) ms).
Proof.
  intros Hdrop Hin.
  repeat (apply elem_of_cons in Hin as [[= -> ->]|Hin]; [eapply next_escaped; [done|by apply (bool_decide_eq_false _)|done|done]|]).
  by apply elem_of_nil in Hin.
Qed.

(** One token of an escaped text that is not empty: it reads [k] bytes of the text,
    from [e], and leaves the rest. *)
Definition step_ok (pos : nat) (ms : list Mode) (s : Bytes) : Prop :=
  ∃ t k e, next input 1 (in_string pos ms) = Done (Some (Ok t), in_string (pos + length e) ms) ∧
    0 < k ∧ token_text t = Some (take k s) ∧ escaped s = e ++ escaped (drop k s).

Lemma pair_step pos ms c x s after :
  drop pos input = escaped (c :: s) ++ double_quote :: after →
  escaped (c :: s) = backslash :: x :: escaped s →
  (x, c) ∈ [(backslash, backslash); (percent_sign, percent_sign); (double_quote, double_quote);
            ("n"%char, newline); ("r"%char, carriage_return)] →
  step_ok pos ms (c :: s).
Proof.
  intros Hdrop Heq Hin. rewrite Heq in Hdrop. cbn [List.app] in Hdrop.
  eexists _, 1, [backslash; x]. split; [by eapply next_pair|]. split; [lia|]. split; [|done].
  cbn. do 2 f_equal. apply ascii_N_embedding.
Qed.

Lemma escaped_step pos ms s after :
  s ≠ [] → drop pos input = escaped s ++ double_quote :: after → step_ok pos ms s.
Proof.
  intros Hne Hdrop. destruct s as [|c s]; [done|]. clear Hne.
  pose proof (plain_run (c :: s) after _ eq_refl) as (Htake & Hesc & Hcr & _).
  destruct (escaped_cons c s) as [(x & l & Heq & Hx)|(Heq & Hc & Hne & _)].
  2:{ rewrite Heq in Hdrop. cbn [List.app] in Hdrop.
      set (k := run_length not_special (escaped (c :: s) ++ double_quote :: after)) in *.
      assert (drop pos input = escaped (c :: s) ++ double_quote :: after) as Hall by (by rewrite Heq).
      assert (k = S (run_length not_special (escaped s ++ double_quote :: after))) as Hk.
      { unfold k. rewrite Heq. cbn [List.app run_length]. by rewrite Hc. }
      pose proof (next_literal pos ms c _ k Hdrop Hc Hne) as Hnext.
      rewrite Hall in Hnext. specialize (Hnext eq_refl). rewrite Htake in Hnext.
      eexists _, k, (take k (c :: s)). split.
      - rewrite (Hnext Hcr). rewrite length_take_le; [done|]. by destruct (plain_run (c :: s) after k eq_refl) as (_ & _ & _ & ?).
      - split; [lia|]. by split. }
  clear Htake Hesc Hcr. cbn [escaped] in Heq.
  destruct (c =? backslash)%char eqn:Hb.
  { apply Ascii.eqb_eq in Hb as ->. by eapply (pair_step _ _ _ backslash); [done|..|left]. }
  destruct (c =? percent_sign)%char eqn:Hp.
  { apply Ascii.eqb_eq in Hp as ->.
    assert (escaped (percent_sign :: s) = backslash :: percent_sign :: escaped s ∨
            (escaped (percent_sign :: s) = percent_sign :: escaped s ∧
             head (escaped s ++ double_quote :: after) ≠ Some left_brace)) as [He|[He Hhead]].
    { cbn [escaped]. destruct s as [|c' s]; [by right|].
      destruct (c' =? left_brace)%char eqn:Hl; [by left|]. right. split; [done|].
      destruct (escaped_cons c' s) as [(y & l' & -> & Hy)|(-> & _)]; cbn.
      - intros [= ->]. done.
      - intros [= ->]. done. }
    - eapply (pair_step _ _ _ percent_sign); [done|done|right; left].
    - rewrite He in Hdrop. cbn [List.app] in Hdrop. eexists _, 1, [percent_sign].
      split; [by eapply next_percent|]. split; [lia|]. done. }
  destruct (c =? double_quote)%char eqn:Hq.
  { apply Ascii.eqb_eq in Hq as ->. eapply (pair_step _ _ _ double_quote); [done|done|do 2 right; left]. }
  destruct (c =? newline)%char eqn:Hn.
  { apply Ascii.eqb_eq in Hn as ->. eapply (pair_step _ _ _ "n"%char); [done|done|do 3 right; left]. }
  destruct (c =? carriage_return)%char eqn:Hr.
  { apply Ascii.eqb_eq in Hr as ->. eapply (pair_step _ _ _ "r"%char); [done|done|do 4 right; left]. }
  exfalso. cbn [List.app] in Heq. injection Heq as -> _.
  rewrite (proj2 (not_special_iff x)) in Hx; done.
Qed.

Lemma escaped_lexes n pos ms s after :
  length s ≤ n → drop pos input = escaped s ++ double_quote :: after →
  ∃ ts, lexes input (in_string pos ms) ts (in_string (pos + length (escaped s)) ms) ∧
        tokens_text ts = Some s.
Proof.
  revert pos s. induction n as [|n IH]; intros pos s Hn Hdrop.
  { destruct s; [|cbn in Hn; lia]. exists []. rewrite Nat.add_0_r. split; [constructor|done]. }
  destruct (decide (s = [])) as [->|Hne].
  { exists []. rewrite Nat.add_0_r. split; [constructor|done]. }
  destruct (escaped_step pos ms s after Hne Hdrop) as (t & k & e & Hnext & Hk & Ht & He).
  assert (length (drop k s) ≤ n) as Hn'.
  { rewrite length_drop. destruct s; [done|]. cbn in *. lia. }
  destruct (IH (pos + length e) (drop k s) Hn') as (ts & Hts & Htext).
  { rewrite <- drop_drop, Hdrop, He, <- app_assoc. apply drop_app_length. }
  exists (t :: ts). split.
  - econstructor; [exact Hnext|]. rewrite He, length_app, Nat.add_assoc. exact Hts.
  - cbn. rewrite Ht. cbn. rewrite Htext. cbn. by rewrite take_drop.
Qed.

(** C34: reading inverts escaping. Where the input has an escaped text and then a quote,
    in a string, the lexer returns tokens of strings whose texts make up the text, and
    next the quote that ends the string; so what the printer puts between quotes denotes
    the text it was given, whatever it contains. *)
Theorem escape_roundtrip pos d ms s after :
  drop pos input = escape s ++ double_quote :: after →
  ∃ ts stop,
    lexes input (in_string pos (ModeNormal d :: ms)) ts (in_string stop (ModeNormal d :: ms)) ∧
    tokens_text ts = Some s ∧ stop = pos + length (escape s) ∧
    next input 1 (in_string stop (ModeNormal d :: ms)) =
      Done (item (stop, stop + 1) (TokNormal TkDoubleQuote), mkLexer (LexNormal d (stop + 1)) ms).
Proof.
  rewrite escape_escaped. intros Hdrop.
  destruct (escaped_lexes (length s) pos (ModeNormal d :: ms) s after (le_n _) Hdrop) as (ts & Hts & Htext).
  exists ts, (pos + length (escaped s)). split_and!; [done|done|done|].
  assert (drop (pos + length (escaped s)) input = double_quote :: after) as [Hq _]%drop_cons_inv.
  { rewrite <- drop_drop, Hdrop. apply drop_app_length. }
  cbn [next in_string lexer]. by rewrite (rule_double_quote _ _ Hq).
Qed.

End reading.

Example escape_roundtrip_witness :
  let s := bytes ("50%{ " +:+ quote +:+ " \")%string in
  ∃ ts stop, lexes (escape s ++ [double_quote]) (in_string 0 [ModeNormal (mkNormalData 0)]) ts
               (in_string stop [ModeNormal (mkNormalData 0)]) ∧ tokens_text ts = Some s.
Proof.
  intros s.
  destruct (escape_roundtrip (escape s ++ [double_quote]) 0 (mkNormalData 0) [] s [] eq_refl)
    as (ts & stop & Hts & Htext & _).
  exists ts, stop. split; [exact Hts|exact Htext].
Defined.

(** ** The number of percent signs *)

Lemma clashes_skip n s : clashes n s = clashes 0 (drop n s).
Proof. revert s. induction n as [|n IH]; intros s; [by destruct s|]. destruct s; [done|]. apply IH. Qed.

Lemma repeated_split c s :
  ∃ rest, s = replicate (repeated c s) c ++ rest ∧ head rest ≠ Some c.
Proof.
  induction s as [|c' s (rest & IH & Hr)]; [by exists []|]. cbn.
  destruct (c =? c')%char eqn:Hc.
  - apply Ascii.eqb_eq in Hc as ->. exists rest. cbn. by rewrite <- IH.
  - exists (c' :: s). split; [done|]. cbn. apply Ascii.eqb_neq in Hc. congruence.
Qed.

Lemma repeated_app c n rest : head rest ≠ Some c → repeated c (replicate n c ++ rest) = n.
Proof.
  intros Hr. induction n as [|n IH]; cbn.
  - destruct rest as [|c' rest]; [done|]. cbn in *. by rewrite (proj2 (Ascii.eqb_neq _ _)) by congruence.
  - by rewrite Ascii.eqb_refl, IH.
Qed.

(** The percent signs at the start of [s] that the lexer could take for a part of a
    delimiter: those before a brace, and those after a quote. *)
Definition clash_size (s : Bytes) : nat :=
  let k := repeated percent_sign s in
  if bool_decide (s !! k = Some left_brace) then k
  else match s with
       | c :: s' => if (c =? double_quote)%char then repeated percent_sign s' else 0
       | [] => 0
       end.

Lemma clash_here_size s n : clash_here s = Some n → clash_size s < n.
Proof.
  unfold clash_here, clash_size. destruct (0 <? repeated percent_sign s) eqn:Hk; cbn [andb].
  - destruct (bool_decide _); [intros [= <-]; lia|]. destruct s as [|c s]; [done|].
    destruct (c =? double_quote)%char; cbn [andb]; [|done].
    destruct (0 <? repeated percent_sign s); [|done]. intros [= <-]. lia.
  - apply Nat.ltb_ge in Hk. destruct s as [|c s]; [done|].
    destruct (c =? double_quote)%char eqn:Hq; cbn [andb]; [|done].
    apply Ascii.eqb_eq in Hq as ->. destruct (0 <? repeated percent_sign s); [|done].
    intros [= <-]. case_bool_decide; cbn; lia.
Qed.

Lemma clash_here_none s : clash_here s = None → clash_size s = 0.
Proof.
  unfold clash_here, clash_size. destruct (0 <? repeated percent_sign s) eqn:Hk; cbn [andb].
  - destruct (bool_decide _); [done|]. destruct s as [|c s]; [done|].
    destruct (c =? double_quote)%char; cbn [andb]; [|done].
    destruct (0 <? repeated percent_sign s) eqn:Hk'; [done|]. by apply Nat.ltb_ge, Nat.le_0_r in Hk'.
  - apply Nat.ltb_ge, Nat.le_0_r in Hk. rewrite Hk. case_bool_decide; [done|].
    destruct s as [|c s]; [done|]. destruct (c =? double_quote)%char; cbn [andb]; [|done].
    destruct (0 <? repeated percent_sign s) eqn:Hk'; [done|]. by apply Nat.ltb_ge, Nat.le_0_r in Hk'.
Qed.

Lemma repeated_drop j k rest :
  head rest ≠ Some percent_sign → j ≤ k →
  drop j (replicate k percent_sign ++ rest) = replicate (k - j) percent_sign ++ rest.
Proof. intros Hr Hj. rewrite drop_app_le by (by rewrite length_replicate). by rewrite drop_replicate. Qed.

Lemma clash_size_percents k rest :
  0 < k → head rest ≠ Some percent_sign → clash_size (replicate k percent_sign ++ rest) ≤ k.
Proof.
  intros Hk Hr. unfold clash_size. rewrite repeated_app by done. case_bool_decide; [lia|].
  destruct k; [lia|]. cbn. lia.
Qed.

Lemma clash_here_inside s n j : clash_here s = Some n → j < n → clash_size (drop j s) < n.
Proof.
  intros Hn Hj. destruct j as [|j]; [by apply clash_here_size|].
  unfold clash_here in Hn. destruct (repeated_split percent_sign s) as (rest & Hs & Hr).
  destruct ((0 <? repeated percent_sign s) && _) eqn:Hfirst.
  - injection Hn as <-. set (k := repeated percent_sign s) in *. rewrite Hs.
    rewrite repeated_drop by (done || lia). destruct (k - S j) as [|m] eqn:Hm; [|].
    + cbn. apply andb_true_iff in Hfirst as [_ Hb%bool_decide_eq_true].
      rewrite Hs, lookup_app_r in Hb by (by rewrite length_replicate).
      rewrite length_replicate, Nat.sub_diag in Hb. destruct rest as [|c rest]; [done|].
      injection Hb as ->. unfold clash_size. case_bool_decide; cbn; lia.
    + pose proof (clash_size_percents (S m) rest ltac:(lia) Hr). lia.
  - destruct s as [|c s]; [done|]. destruct ((c =? double_quote)%char && _) eqn:Hq; [|done].
    injection Hn as <-. destruct (repeated_split percent_sign s) as (rest' & Hs' & Hr').
    set (k := repeated percent_sign s) in *. cbn [drop]. rewrite Hs', repeated_drop by (done || lia).
    pose proof (clash_size_percents (k - j) rest' ltac:(lia) Hr'). lia.
Qed.

Lemma clash_here_pos s n : clash_here s = Some n → 0 < n.
Proof. intros Hn%clash_here_size. lia. Qed.

Lemma clashes_cover m s p t :
  length s ≤ m → s = p ++ t → clash_size t = 0 ∨ ∃ n, n ∈ clashes 0 s ∧ clash_size t < n.
Proof.
  revert s p. induction m as [|m IH]; intros s p Hm Hs.
  { destruct s; [|cbn in Hm; lia]. symmetry in Hs. apply app_eq_nil in Hs as [_ ->]. by left. }
  destruct s as [|c s]; [symmetry in Hs; apply app_eq_nil in Hs as [_ ->]; by left|]. cbn [clashes].
  destruct (clash_here (c :: s)) as [n|] eqn:Hn.
  - pose proof (clash_here_pos _ _ Hn) as Hpos. destruct (decide (length p < n)) as [Hlt|Hge].
    + right. exists n. split; [left|].
      pose proof (clash_here_inside _ _ _ Hn Hlt) as Hsize. by rewrite Hs, drop_app_length in Hsize.
    + destruct (IH (drop (n - 1) s) (drop n p)) as [?|(n' & Hn' & Hsize)].
      * rewrite length_drop. cbn in Hm. lia.
      * destruct n as [|n]; [lia|]. cbn [Nat.sub]. rewrite Nat.sub_0_r.
        change (drop n s) with (drop (S n) (c :: s)). rewrite Hs, drop_app_le by lia. done.
      * by left.
      * right. exists n'. split; [right; by rewrite clashes_skip|done].
  - destruct p as [|c' p].
    + cbn in Hs. subst t. left. by apply clash_here_none.
    + injection Hs as <- Hs. apply (IH s p); [cbn in Hm; lia|done].
Qed.

Lemma max_of_fold l n : n ≤ foldl Nat.max n l ∧ ∀ x, x ∈ l → x ≤ foldl Nat.max n l.
Proof.
  revert n. induction l as [|y l IH]; intros n; cbn; [split; [done|by intros ? ?%elem_of_nil]|].
  destruct (IH (Nat.max n y)) as [H1 H2]. split; [lia|].
  intros x [->|Hx]%elem_of_cons; [lia|by apply H2].
Qed.

Lemma clashes_pos s n : n ∈ clashes 0 s → 0 < n.
Proof.
  assert (∀ m s, length s ≤ m → n ∈ clashes 0 s → 0 < n) as Hall; [|by eapply Hall].
  clear s. induction m as [|m IH]; intros s Hm Hin.
  { destruct s; [by apply elem_of_nil in Hin|cbn in Hm; lia]. }
  destruct s as [|c s]; [by apply elem_of_nil in Hin|]. cbn [clashes] in Hin.
  destruct (clash_here (c :: s)) as [k|] eqn:Hk.
  - apply elem_of_cons in Hin as [->|Hin]; [by apply clash_here_pos in Hk|].
    rewrite clashes_skip in Hin. eapply IH; [|exact Hin]. rewrite length_drop. cbn in Hm. lia.
  - eapply IH; [|exact Hin]. cbn in Hm. lia.
Qed.

Lemma min_interpolate_sign_bound p t : clash_size t < min_interpolate_sign (p ++ t).
Proof.
  unfold min_interpolate_sign. pose proof (clashes_pos (p ++ t)) as Hpos.
  pose proof (clashes_cover (length (p ++ t)) (p ++ t) p t (le_n _) eq_refl) as Hcover.
  destruct (clashes 0 (p ++ t)) as [|n l]; cbn.
  - destruct Hcover as [->|(n & Hn%elem_of_nil & _)]; [lia|done].
  - destruct (max_of_fold l n) as [H1 H2].
    destruct Hcover as [->|(x & [->|Hx]%elem_of_cons & Hsize)].
    + specialize (Hpos n ltac:(left)). lia.
    + lia.
    + specialize (H2 x Hx). lia.
Qed.

Lemma repeated_ge c k rest : k ≤ repeated c (replicate k c ++ rest).
Proof. induction k as [|k IH]; cbn; [lia|]. rewrite Ascii.eqb_refl. lia. Qed.

(** C35: a multi-line string printed with at least the number of percent signs computed
    from its text is not cut: whatever sequences of percent signs the text has before
    braces or after quotes, the lexer takes them for text, not for an interpolation nor
    for the end of the string. *)
Theorem fence_is_enough text n opening start span d ms p k q :
  min_interpolate_sign text ≤ n →
  let lx := multistring_state (S n) opening start d ms in
  let as_text token s := handle_multistr_token lx span token = Done (item span (TokMultiStr (MultiLiteral s)), lx) in
  let percents := replicate k percent_sign in
  (text = p ++ percents ++ left_brace :: q →
   as_text (MultiCandidateInterpolation (percents ++ [left_brace])) (percents ++ [left_brace])) ∧
  (text = p ++ double_quote :: percents ++ q →
   as_text (MultiCandidateEnd (double_quote :: percents)) (double_quote :: percents)) ∧
  (text = p ++ double_quote :: percents ++ left_brace :: q →
   as_text (MultiQuotesCandidateInterpolation (double_quote :: percents ++ [left_brace]))
     (double_quote :: percents ++ [left_brace])).
Proof.
  intros Hn. cbn zeta. set (percents := replicate k percent_sign).
  assert (length percents = k) as Hk by apply length_replicate.
  unfold handle_multistr_token.
  cbn [multistring_state multistring_mode_data lexer mbind outcome_bind percent_count].
  split_and!; intros ->.
  - pose proof (min_interpolate_sign_bound p (percents ++ left_brace :: q)) as Hb.
    assert (clash_size (percents ++ left_brace :: q) = k) as Hsize.
    { unfold clash_size, percents. rewrite repeated_app by done.
      rewrite bool_decide_eq_true_2; [done|]. rewrite lookup_app_r by (by rewrite length_replicate).
      by rewrite length_replicate, Nat.sub_diag. }
    rewrite length_app, Hk. cbn [length]. by rewrite (proj2 (Nat.leb_gt (S n) (k + 1))) by lia.
  - pose proof (min_interpolate_sign_bound p (double_quote :: percents ++ q)) as Hb.
    assert (k ≤ clash_size (double_quote :: percents ++ q)) as Hsize by (apply repeated_ge).
    cbn [length]. rewrite Hk. rewrite (proj2 (Nat.ltb_ge (S n) (S k))) by lia.
    by rewrite (proj2 (Nat.eqb_neq (S k) (S n))) by lia.
  - pose proof (min_interpolate_sign_bound p (double_quote :: percents ++ left_brace :: q)) as Hb.
    assert (k ≤ clash_size (double_quote :: percents ++ left_brace :: q)) as Hsize by (apply repeated_ge).
    cbn [length]. rewrite length_app, Hk. cbn [length].
    by rewrite (proj2 (Nat.ltb_ge (S n) (S (k + 1)))) by lia.
Qed.

Example fence_is_enough_witness :
  min_interpolate_sign (bytes "a%%{")%string ≤ 3 ∧
  handle_multistr_token (multistring_state 4 (0, 5) 20 (mkNormalData 0) []) (6, 9)
    (MultiCandidateInterpolation (bytes "%%{")%string) =
  Done (item (6, 9) (TokMultiStr (MultiLiteral (bytes "%%{")%string)),
        multistring_state 4 (0, 5) 20 (mkNormalData 0) []).
Proof.
  assert (min_interpolate_sign (bytes "a%%{")%string ≤ 3) as Hle by (vm_compute; lia).
  split; [exact Hle|].
  destruct (fence_is_enough (bytes "a%%{")%string 3 (0, 5) 20 (6, 9) (mkNormalData 0) [] (bytes "a")%string 2 [] Hle)
    as (Hfirst & _ & _).
  exact (Hfirst eq_refl).
Defined.
